(* ===== verification/_CoqProject ===== *)
-Q . S2P
Prelude.v
Str.v
Domain.v
Budget.v
Tables.v
CallGraph.v
Impact.v
ReadingOrder.v
InFlight.v
Paths.v
Merkle.v
JsModules.v
PyModules.v
Tarjan.v
Cycles.v
Surprising.v
Refresh.v
Utf8.v
Tokens.v
Sql.v
Owned.v
Lock.v
Store.v
Queries.v
Resolve.v
JsExports.v
JsFanOut.v
RustUse.v
RustFn.v
ClassNames.v
CppFields.v
Pipeline.v
Batch.v
EdgeWrite.v
Sentinels.v
BatchResolve.v
DeferResolve.v
Restore.v
Fusion.v
Fuzzy.v
Search.v
DeadCode.v
Imports.v
Symbols.v
AstSearch.v
Compress.v
BoundLex.v
BoundShapes.v
Boundaries.v
Existence.v
IndexRun.v
