(* ===== verification/Prelude.v ===== *)
(** * Verification library of code-graph-mcp

    code-graph-mcp indexes a repository into an SQLite graph of files, nodes
    (symbols) and edges (calls, imports, ..) and answers questions about it over
    MCP and a command line.  This library models the parts of the Rust crate
    that decide what is indexed, how names are bound and what an answer says, and
    proves them correct.  File names below are relative to [src/src/].

    ** Parts and files

    - [Prelude]: results of fallible code, Rust's stable [sort_by] and [dedup],
      comparators with their laws ([CmpOk], [CmpEq]), chunks, hash maps built from
      pairs; generic list lemmas; the hint database [cg].
    - [Str]: [&str] as a byte string with [split], [rsplit_once], [strip_prefix],
      [contains], [join], order and decimal rendering.
    - [Utf8]: [char], [str::chars], [str::from_utf8]; the Unicode tables are a class
      with the laws of its ASCII rows, and an instance.
    - [Domain] (domain.rs): vocabularies, filters, fetch counts, risk levels, the
      test-node predicate [is_test_node] and its SQL twin [is_test_node_sql],
      whose LIKE and GLOB legs are evaluated by a matcher.
    - [Budget] (budget.rs): degradation steps, [fit], group caps, interleaving and
      the shell rendering of suggested commands.  [Compress]
      (sandbox/compressor.rs): the levels of a shortened search answer.
    - [Tokens] (utils/tokenizer.rs, utils/acronyms.rs): words of identifiers.
    - [Tables] (storage/schema.rs): the rows the graph queries read.  SQL gives no
      row order without ORDER BY, so a table is a list up to permutation ([≡]).
    - [Sql] (storage/queries/helpers.rs): LIKE patterns and their escaping.
    - [Store] (storage/queries/: nodes.rs, edges.rs, files.rs, meta.rs): the whole
      database with its keys, references and cascades, and every write as a
      function on it, the statements run on it from elsewhere (the post passes, the
      wipes) in a general form.  [Queries]: the reads of the same files.  [project] forgets
      what [Tables] does not have.
    - [Existence], [Pipeline], [Batch], [EdgeWrite], [BatchResolve], [Sentinels],
      [DeferResolve], [Restore], [IndexRun] (indexer/pipeline/index_files.rs), on [Store]
      and [Queries], in the order of a run: the files to read again because a file
      appeared or vanished, with the record of deletions, and the routes into other
      files; what is kept of a file's inbound edges before it goes; the cut into
      batches, the parse of a file up to the parser and the insertion of a batch;
      lexical visibility and the fan-outs already written; the relations of a batch,
      each written, deferred or dropped; the nodes of the external file; the deferred
      relations once all files are in; the edges put back into files read again; and
      the driver that runs these phases over one store.
    - [Resolve], [RustUse], [RustFn], [ClassNames], [CppFields]
      (indexer/pipeline/resolve.rs): callee metadata and the narrowing of
      candidates; Rust crate layouts and [use] paths; Rust signatures and receivers;
      what a call on a receiver of known class binds; C++ field types.
    - [CallGraph] (graph/query.rs), on [Tables]: [query_direction_seeded],
      [get_call_graph] and the suppressed-edge counts.
    - [Impact] (graph/impact.rs, graph/routes.rs), on [CallGraph]:
      [get_callers_with_route_info_seeded], [classify_impact].
    - [ReadingOrder] (graph/reading_order.rs): [compute_reading_order].
    - [Surprising] (graph/surprising.rs): [find_surprising].
    - [Tarjan], [Cycles] (graph/cycles.rs): [tarjan_scc]; [shortest_cycle] and
      [find_cycles].  [Imports] (storage/queries/imports.rs): the closure over files
      that feeds them, the import tree and the reverse dependents.
    - [InFlight] (indexer/pipeline/in_flight.rs): the marker row of running
      indexers, its SQL edits, and the steps of concurrent runs and probes.
    - [Paths] (utils/config.rs, utils/paths.rs, indexer/watcher.rs and the path
      rules of indexer/merkle.rs): index keys, languages, ignored paths, events.
    - [Merkle] (indexer/merkle.rs and the merge of indexer/pipeline/mod.rs):
      [scan_directory_cached], [compute_diff], [incremental_diff].  [Refresh]
      (indexer/resync.rs): the refresh plan of single files and of a stale batch.
    - [JsModules] (indexer/pipeline/js_modules.rs): script and include specifiers.
    - [PyModules] (indexer/pipeline/python_modules.rs): import roots, the module
      map, relative imports and the re-export search.
    - [JsExports], [JsFanOut] (indexer/pipeline/js_exports.rs): the walk through
      re-exports to the functions a name stands for, with its memory, and the
      importers a change of a file's exports reaches.
    - [Owned] (utils/owned.rs): opening files only their owner may have planted, on a
      small file system.  [Lock] (indexer/lock.rs): the [flock] protocol of
      concurrent processes and its retry loops.
    - [DeadCode] (storage/queries/dead_code.rs): the candidates and the report.
    - [Fuzzy], [Search] (storage/queries/search.rs), [Fusion] (search/fusion.rs),
      [AstSearch] (search/ast_query.rs): names within an edit distance, the
      full-text strategy, reciprocal rank fusion, structural search.
    - [Symbols] (resolve.rs): which definition a spelling means, what is said when
      it is ambiguous, and the roll-up of references.
    - [BoundLex], [BoundShapes], [Boundaries] (graph/boundaries/mod.rs): the mask of
      a source text, the shapes of dynamic dispatch in it, and the disclosure
      attached to an empty caller result.

    The scan ([Merkle]) writes rows under keys that [Paths] makes canonical;
    [Pipeline] replaces a file's rows in [Store]; [JsModules], [JsExports],
    [PyModules], [RustUse], [ClassNames], [CppFields] and [Resolve] bind names;
    [CallGraph] and [Imports] walk the resulting edges; [Impact], [ReadingOrder],
    [Cycles], [Surprising] and [DeadCode] read the graph; [Symbols] and the searches
    pick where to start; [Boundaries] explains an empty answer; [Budget] and
    [Compress] cut an answer to size.  [Lock] and [InFlight] guard concurrent
    indexers, [Owned] the files they share.

    ** How state and operations correspond to the code

    A [Vec] is a list, a [HashMap] or [BTreeMap] a [gmap], a [HashSet] or [BTreeSet]
    a [gset]; where the code iterates over a hashed collection the model fixes the
    order of [elements] or [map_to_list] and the theorems characterise the result by
    membership, or up to permutation; a [BTreeMap] is read in key order.  A local
    [while] loop is a [Fixpoint] with fuel over a record of the loop's variables;
    running out of fuel and a Rust panic ([expect], a missing map key) are both
    [None], and the theorems show that the result is [Some].  A SQL read is a list
    comprehension over the tables.  An [anyhow::Result] whose error comes only from
    SQLite is not modelled: statements are assumed to run; the errors modelled are
    the code's own and those of the schema's constraints.  The wall clock is the
    sequence of its answers.

    ** What the theorems show

    - [Cycles], [Tarjan]: the iterative Tarjan walk is total and returns exactly
      the classes of mutual reachability; the loop shown for a class is a shortest
      one; every file on an import cycle is reported in exactly one cycle.
    - [CallGraph]: rows are the reachable nodes with their shortest distance; the
      answer does not depend on SQLite's row order; the hidden edges counted are
      the complement of those followed; both directions are the two lists merged.
    - [Impact]: the caller set is complete unless the note says it is a floor;
      callers are partitioned into production and test rows, each once; the risk
      does not fall when callers are added.
    - [ReadingOrder]: each module once, after its imports unless flagged; without
      cycles nothing is flagged; the flag can hit a module outside every cycle.
    - [Store]: keys and references hold after every sequence of writes; a deletion
      takes exactly what hangs on the files; a pending call leaves in the end.
      [Pipeline], [Restore]: no inbound call or relation of a deleted file, or of a
      file read again, is lost, as far as its source's file has a language.  [Batch]: the batches are the files in order within
      both limits; after a batch its files have exactly the parsed nodes and no other
      file's change.  [EdgeWrite]: skipping repeated fan-outs writes the same edges.
      [BatchResolve]: a batch writes, defers and drops what each relation's decision
      says, whatever was remembered or written in between.  [DeferResolve]: the pass
      over the deferred relations always ends, whichever nodes are gone, and a bare
      call gets exactly its edges or waits.  [Sentinels]: one node per external name, an edge per reference.
      [Existence]: a deletion remembers who referred to the file until it comes back,
      and a route written elsewhere goes or is asked again.  [IndexRun]: from any
      well-formed index a whole run ends without an error, its files hold what was
      parsed, deleted files are gone and the others are as they were.
      [Queries]: the nodes to embed again are those with a changed neighbour, in
      ascending order.
    - [Imports]: a closure is the files reachable in the given hops, with the least
      one; an empty tree says why; the reverse dependents cover the dependencies.
    - [InFlight]: no probe that got the lock reports a live run that holds it as dead,
      under every interleaving, probes without an answer included; [begin] and [finish] leave the marker as it was.
    - [Paths], [Merkle], [Refresh]: index keys have one spelling; a diff reports only
      what the walk and the reads showed; a rescan with a cache equals a full one
      when all reads succeed, and a failed read hides an edit; a stale batch is
      refreshed or reported, file by file.
    - [Owned]: what is opened is a regular file not reached through a link, with one
      name when it is written; only the file that was checked is emptied.  [Lock]: at most one process
      holds the index, under every interleaving and with descriptors inherited; the
      retry loops end with the answer of the last try.
    - [DeadCode]: a candidate is exactly a definition in scope without the listed excuses
      (names of three or five characters and up, truncated bodies, ..); the
      report splits the candidates and says what it hides.
    - [PyModules], [JsModules]: the module map is exactly the importable names;
      relative imports follow PEP 328; the re-export search is exact up to nine
      files; specifiers resolve to the first indexed candidate.
    - [JsExports], [JsFanOut]: the walk with its memory answers as one without; the
      importers of a drift hold every file whose names now resolve otherwise, unless by
      a file that is not JS/TS.
    - [RustUse], [RustFn]: a [use] names the files of the longest leading part of its
      module; a module's files and a file's module path invert each other; an anchored path binds the candidates of best rank; a parameter list
      of n parameters counts n; a function is free when it is nested in one of the
      same owner.
    - [ClassNames], [CppFields]: a typed call binds the class's own methods, else the
      nearest inherited ones of 32 levels, and the overrides in the subclasses; a field's type is
      known when all nearest declarations agree.
    - [Symbols]: what a selected symbol, a tier and a fuzzy answer can hold, when it
      is ambiguous, and that a roll-up counts every reference once.
    - [Fuzzy], [Search], [Fusion], [AstSearch]: the edit distance is the least one; a
      search answers from the rows that match and says when it relaxed; a fused
      score is the sum over the sources; a structural answer accounts for what it
      drops.
    - [BoundLex], [BoundShapes], [Boundaries]: masking keeps offsets and newlines;
      the bracket map equals counting depth; a hit stands on code that names the
      function; an answer that claims to be complete has read every file.
    - [Domain]: the Rust and SQL test predicates agree, production filters keep
      no test node, fetch counts are bounded, risk and vocabulary laws.
    - [Budget], [Compress]: [fit] is total and minimal for renderings that shrink,
      and can miss a fit otherwise; skeletons come before drops; caps and
      interleaving keep their promises; a suggested command reads back as its
      words; a compressed answer keeps every id.

    ** Fuel

    [Tarjan.walk_fuel] is the sum of (successors + 2) over all nodes: each
    iteration decreases the unseen and open work by one.  [Cycles.bfs] takes one
    more than the size of the component, as each node is queued once; [unwind] its
    size.  [PyModules.reexports_of] takes [REEXPORT_MAX_DEPTH + 2], since the path
    grows by a pair at each call.  [dir_chain] takes the length of the path.  The
    fuel of [CallGraph.bfs] and of [Imports.closure_loop] is the depth limit, that of
    [ReadingOrder.kahn_loop] the number of modules, that of [Budget.fit_search] the
    number of steps.  [BoundLex.lex_loop] and [BoundShapes.occurrences] take the
    length of the text (and one), [BoundShapes.chain] the offset it walks back from:
    each iteration moves.  [CppFields.climb_fuel] counts the edges to the
    bases, [ClassNames.subclasses] the seeds and the subclasses, each pushed once;
    [DeferResolve.settle_rounds] takes one round more than there are waiting imports,
    as a round that binds one leaves fewer; [ClassNames.inherited_loop] has the 32 rounds of the code, [JsExports.walk] its
    depth limit.

    ** What is not modelled

    Code outside the crate is a parameter: SQLite's LIKE, GLOB, LOWER, MATCH and
    [json_extract], BLAKE3, the [ignore] walk, [lstat], the file lock, the disk,
    the clock, tree-sitter.  Of the crate, the parsers and relation extractors
    (walks over tree-sitter trees), the embedding model, the SQLite connection and
    migrations, the MCP and command-line shells, JSON rendering and the metrics are
    left out, as are the SQL post-passes of the edge resolver, the Cargo manifest
    scan, the phases of a run after the deferred relations, centrality and snapshots. *)

From stdpp Require Export base option list gmap strings sorting.
From Stdlib Require Export ZArith Lia.

(** ** Results of fallible code

    [anyhow::Result<T>] and [Result<T, E>] of the source. *)

Inductive result (E A : Type) : Type :=
| Ok (a : A)
| Err (e : E).
Arguments Ok {E A} a.
Arguments Err {E A} e.

Definition result_bind {E A B} (m : result E A) (k : A → result E B) : result E B :=
  match m with
  | Ok a => k a
  | Err e => Err e
  end.

Declare Scope cg_scope.
Delimit Scope cg_scope with cg.
Notation "'let?' x ':=' m 'in' k" := (result_bind m (λ x, k))
  (at level 10, x pattern, m at level 100, k at level 200)
  : cg_scope.
Open Scope cg_scope.

(** ** Tactics *)

(** Turn boolean tests in the hypotheses and the goal into propositions. *)
Ltac bool_prop :=
  repeat match goal with
  | H : _ && _ = true |- _ => apply andb_true_iff in H as [? ?]
  | H : _ || _ = false |- _ => apply orb_false_iff in H as [? ?]
  | H : _ || _ = true |- _ => apply orb_true_iff in H
  | H : _ && _ = false |- _ => apply andb_false_iff in H
  | H : negb _ = true |- _ => apply negb_true_iff in H
  | H : negb _ = false |- _ => apply negb_false_iff in H
  | H : bool_decide _ = true |- _ => apply bool_decide_eq_true_1 in H
  | H : bool_decide _ = false |- _ => apply bool_decide_eq_false_1 in H
  | H : (_ <? _)%nat = true |- _ => apply Nat.ltb_lt in H
  | H : (_ <? _)%nat = false |- _ => apply Nat.ltb_ge in H
  | H : (_ <=? _)%nat = true |- _ => apply Nat.leb_le in H
  | H : (_ <=? _)%nat = false |- _ => apply Nat.leb_gt in H
  | H : (_ =? _)%nat = true |- _ => apply Nat.eqb_eq in H
  | H : (_ =? _)%nat = false |- _ => apply Nat.eqb_neq in H
  | H : (_ <=? _)%N = true |- _ => apply N.leb_le in H
  | H : (_ <=? _)%N = false |- _ => apply N.leb_gt in H
  | H : (_ <? _)%N = true |- _ => apply N.ltb_lt in H
  | H : (_ <? _)%N = false |- _ => apply N.ltb_ge in H
  | H : (_ <=? _)%Z = true |- _ => apply Z.leb_le in H
  | H : (_ <=? _)%Z = false |- _ => apply Z.leb_gt in H
  | H : (_ <? _)%Z = true |- _ => apply Z.ltb_lt in H
  | H : (_ <? _)%Z = false |- _ => apply Z.ltb_ge in H
  end.

(** Destruct the scrutinee of an [if] or [match] of the goal, remembering it. *)
Ltac case_goal :=
  match goal with
  | |- context [if ?b then _ else _] => destruct b eqn:?
  | |- context [match ?x with _ => _ end] => destruct x eqn:?
  end.

(** ** A stable sort

    [slice::sort_by] is a stable sort: the result is the one list that is
    ordered, a permutation of the input, and keeps equal elements in input
    order.  Insertion from the right is such a sort. *)

Section StableSort.
Context {A : Type} (leb : A → A → bool).

Fixpoint sort_insert (x : A) (l : list A) : list A :=
  match l with
  | [] => [x]
  | y :: l' => if leb x y then x :: l else y :: sort_insert x l'
  end.

Fixpoint sort_by (l : list A) : list A :=
  match l with
  | [] => []
  | x :: l' => sort_insert x (sort_by l')
  end.

Lemma sort_insert_perm x l : sort_insert x l ≡ₚ x :: l.
Proof.
  induction l as [|y l IH]; simpl; [done|].
  destruct (leb x y); [done|]. rewrite IH. apply Permutation_swap.
Qed.

Lemma sort_by_perm l : sort_by l ≡ₚ l.
Proof.
  induction l as [|x l IH]; simpl; [done|]. by rewrite sort_insert_perm, IH.
Qed.

Lemma elem_of_sort_by x l : x ∈ sort_by l ↔ x ∈ l.
Proof. by rewrite sort_by_perm. Qed.

Lemma length_sort_by l : length (sort_by l) = length l.
Proof. by rewrite sort_by_perm. Qed.

Lemma NoDup_sort_by l : NoDup (sort_by l) ↔ NoDup l.
Proof. by rewrite sort_by_perm. Qed.

Context (leb_total : ∀ x y, leb x y = true ∨ leb y x = true).
Context (leb_trans : ∀ x y z, leb x y = true → leb y z = true → leb x z = true).

Lemma sort_insert_sorted x l :
  StronglySorted (λ a b, leb a b = true) l →
  StronglySorted (λ a b, leb a b = true) (sort_insert x l).
Proof.
  induction 1 as [|y l Hs IH Hf]; simpl.
  - by repeat constructor.
  - destruct (leb x y) eqn:E.
    + constructor; [by constructor|]. constructor; [done|].
      eapply Forall_impl; [exact Hf|]. simpl. eauto.
    + constructor; [done|]. rewrite sort_insert_perm. constructor; [|done].
      destruct (leb_total x y); congruence.
Qed.

Lemma sort_by_sorted l : StronglySorted (λ a b, leb a b = true) (sort_by l).
Proof. induction l; simpl; [constructor|by apply sort_insert_sorted]. Qed.
Lemma sort_by_id l : StronglySorted (λ a b, leb a b = true) l → sort_by l = l.
Proof.
  induction 1 as [|x l Hs IH Hf]; [done|]. simpl. rewrite IH.
  destruct l as [|y l]; [done|]. simpl. inversion Hf as [|? ? Hxy]; subst. by rewrite Hxy.
Qed.

(** Stability: a sub-sequence is sorted as it would be on its own. *)
Lemma filter_sort_insert (P : A → Prop) `{∀ x, Decision (P x)} x l :
  StronglySorted (λ a b, leb a b = true) l →
  filter P (sort_insert x l)
  = if decide (P x) then sort_insert x (filter P l) else filter P l.
Proof.
  induction 1 as [|y l Hs IH Hf]; simpl.
  { rewrite filter_cons. by case_decide. }
  destruct (leb x y) eqn:Exy.
  - rewrite (filter_cons _ x). case_decide; [|done].
    destruct (filter P (y :: l)) as [|z k] eqn:E; [done|].
    assert (z ∈ y :: l) as Hz.
    { assert (z ∈ filter P (y :: l)) as Hz by (rewrite E; left).
      by apply list_elem_of_filter in Hz as [_ ?]. }
    simpl. assert (leb x z = true) as ->; [|done].
    apply elem_of_cons in Hz as [->|Hz]; [done|]. rewrite Forall_forall in Hf. eauto.
  - rewrite !(filter_cons _ y), IH. repeat case_decide; simpl; rewrite ?Exy; done.
Qed.

Lemma filter_sort_by (P : A → Prop) `{∀ x, Decision (P x)} l :
  filter P (sort_by l) = sort_by (filter P l).
Proof.
  induction l as [|x l IH]; [done|]. simpl.
  rewrite filter_sort_insert by apply sort_by_sorted. rewrite filter_cons, IH.
  by case_decide.
Qed.
End StableSort.

(** Where the order is also antisymmetric, the sorted list is determined by the
    elements alone: the input order (a hash map's, say) cannot show. *)
Lemma sorted_perm_unique {A} (leb : A → A → bool) l1 l2 :
  (∀ x y, x ∈ l1 → y ∈ l1 → leb x y = true → leb y x = true → x = y) →
  StronglySorted (λ a b, leb a b = true) l1 →
  StronglySorted (λ a b, leb a b = true) l2 →
  l1 ≡ₚ l2 → l1 = l2.
Proof.
  intros Hanti Hs1. revert l2 Hanti.
  induction Hs1 as [|x l1 Hs1 IH Hf1]; intros l2 Hanti Hs2 Hp.
  { by apply Permutation_nil_l in Hp as ->. }
  destruct Hs2 as [|y l2 Hs2 Hf2]; [by apply Permutation_nil_r in Hp|].
  assert (x = y) as ->.
  { assert (x ∈ y :: l2) as [->|Hx]%elem_of_cons by (rewrite <-Hp; left); [done|].
    assert (y ∈ x :: l1) as [->|Hy]%elem_of_cons by (rewrite Hp; left); [done|].
    rewrite Forall_forall in Hf1, Hf2.
    apply Hanti; [by left|by right|by apply Hf1|by apply Hf2]. }
  f_equal. apply IH; [|done|by apply Permutation_cons_inv in Hp].
  intros; apply Hanti; [by right|by right|done|done].
Qed.

Lemma sort_by_unique {A} (leb : A → A → bool) l1 l2 :
  (∀ x y, leb x y = true ∨ leb y x = true) →
  (∀ x y z, leb x y = true → leb y z = true → leb x z = true) →
  (∀ x y, x ∈ l1 → y ∈ l1 → leb x y = true → leb y x = true → x = y) →
  l1 ≡ₚ l2 → sort_by leb l1 = sort_by leb l2.
Proof.
  intros Htot Htr Hanti Hp. apply (sorted_perm_unique leb).
  - intros x y. rewrite !elem_of_sort_by. apply Hanti.
  - by apply sort_by_sorted.
  - by apply sort_by_sorted.
  - by rewrite !sort_by_perm.
Qed.

(** ** Comparators

    The comparison closures the code passes to [sort_by]: built from
    [Ord::cmp], [Ordering::reverse] (an argument swap) and [then_with].
    [CmpOk] says a comparator is a total preorder; [CmpEq] that only equal
    values compare equal. *)

Definition cmp_by {A B} (f : A → B) (c : B → B → comparison) (x y : A) : comparison :=
  c (f x) (f y).
Definition cmp_rev {A} (c : A → A → comparison) (x y : A) : comparison := c y x.
Definition cmp_then {A} (c1 c2 : A → A → comparison) (x y : A) : comparison :=
  match c1 x y with Eq => c2 x y | o => o end.
Definition cmp_leb {A} (c : A → A → comparison) (x y : A) : bool :=
  match c x y with Gt => false | _ => true end.
Definition bool_cmp (x y : bool) : comparison :=
  match x, y with
  | false, true => Lt
  | true, false => Gt
  | _, _ => Eq
  end.

(** [slice::sort_by(cmp)] *)
Definition sort_cmp {A} (c : A → A → comparison) : list A → list A := sort_by (cmp_leb c).

Class CmpOk {A} (c : A → A → comparison) : Prop := {
  cmp_antisym : ∀ x y, c y x = CompOpp (c x y);
  cmp_le_trans : ∀ x y z, c x y ≠ Gt → c y z ≠ Gt → c x z ≠ Gt;
}.
Class CmpEq {A} (c : A → A → comparison) : Prop :=
  cmp_eq : ∀ x y, c x y = Eq → x = y.

#[export] Typeclasses Opaque cmp_by cmp_rev cmp_then cmp_leb bool_cmp.
Arguments cmp_antisym {A} c {_}.
Arguments cmp_le_trans {A} c {_}.
Arguments cmp_eq {A} c {_}.
#[export] Hint Mode CmpOk + ! : typeclass_instances.
#[export] Hint Mode CmpEq + ! : typeclass_instances.

Section Comparators.
Context {A : Type} (c : A → A → comparison) `{!CmpOk c}.

Lemma cmp_refl x : c x x = Eq.
Proof. pose proof (cmp_antisym c x x). by destruct (c x x). Qed.

Lemma cmp_leb_total x y : cmp_leb c x y = true ∨ cmp_leb c y x = true.
Proof. unfold cmp_leb. rewrite (cmp_antisym c x y). destruct (c x y); simpl; auto. Qed.

Lemma cmp_leb_trans x y z :
  cmp_leb c x y = true → cmp_leb c y z = true → cmp_leb c x z = true.
Proof.
  unfold cmp_leb. pose proof (cmp_le_trans c x y z).
  destruct (c x y), (c y z), (c x z); naive_solver.
Qed.

Lemma cmp_lt_le_trans x y z : c x y = Lt → c y z ≠ Gt → c x z = Lt.
Proof.
  intros Hxy Hyz. assert (c x z ≠ Gt) by (apply (cmp_le_trans c x y z); congruence).
  destruct (c x z) eqn:Hxz; [|done|done]. exfalso.
  apply (cmp_le_trans c y z x); [done| |by rewrite (cmp_antisym c x y), Hxy].
  by rewrite (cmp_antisym c x z), Hxz.
Qed.

Lemma cmp_le_lt_trans x y z : c x y ≠ Gt → c y z = Lt → c x z = Lt.
Proof.
  intros Hxy Hyz. assert (c x z ≠ Gt) by (apply (cmp_le_trans c x y z); congruence).
  destruct (c x z) eqn:Hxz; [|done|done]. exfalso.
  apply (cmp_le_trans c z x y); [|done|by rewrite (cmp_antisym c y z), Hyz].
  by rewrite (cmp_antisym c x z), Hxz.
Qed.

Lemma sort_cmp_sorted l : StronglySorted (λ x y, cmp_leb c x y = true) (sort_cmp c l).
Proof. apply sort_by_sorted; [apply cmp_leb_total|apply cmp_leb_trans]. Qed.

(** Equal up to order in, equal out: for a comparator that separates the
    elements, the sorted list does not depend on the order of the input. *)
Lemma sort_cmp_unique l1 l2 :
  (∀ x y, x ∈ l1 → y ∈ l1 → c x y = Eq → x = y) →
  l1 ≡ₚ l2 → sort_cmp c l1 = sort_cmp c l2.
Proof.
  intros Heq Hp. apply sort_by_unique;
    [apply cmp_leb_total|apply cmp_leb_trans| |done].
  intros x y Hx Hy. unfold cmp_leb. rewrite (cmp_antisym c x y).
  specialize (Heq x y Hx Hy). destruct (c x y); simpl; naive_solver.
Qed.
End Comparators.

#[export] Instance nat_cmp_ok : CmpOk Nat.compare.
Proof.
  split; [intros; apply Nat.compare_antisym|].
  intros x y z. rewrite !Nat.compare_gt_iff. lia.
Qed.
#[export] Instance nat_cmp_eq : CmpEq Nat.compare.
Proof. intros x y. apply Nat.compare_eq. Qed.
#[export] Instance N_cmp_ok : CmpOk N.compare.
Proof.
  split; [intros; apply N.compare_antisym|].
  intros x y z. rewrite !N.compare_gt_iff. lia.
Qed.
#[export] Instance N_cmp_eq : CmpEq N.compare.
Proof. intros x y. apply N.compare_eq. Qed.
#[export] Instance Z_cmp_ok : CmpOk Z.compare.
Proof.
  split; [intros; apply Z.compare_antisym|].
  intros x y z. rewrite !Z.compare_gt_iff. lia.
Qed.
#[export] Instance Z_cmp_eq : CmpEq Z.compare.
Proof. intros x y. apply Z.compare_eq. Qed.
#[export] Instance bool_cmp_ok : CmpOk bool_cmp.
Proof. split; [by intros [] []|by intros [] [] []]. Qed.

#[export] Instance cmp_by_ok {A B} (f : A → B) c : CmpOk c → CmpOk (cmp_by f c).
Proof. intros []. split; unfold cmp_by; eauto. Qed.
#[export] Instance cmp_rev_ok {A} (c : A → A → comparison) : CmpOk c → CmpOk (cmp_rev c).
Proof. intros []. split; unfold cmp_rev; eauto. Qed.
#[export] Instance cmp_rev_eq {A} (c : A → A → comparison) : CmpEq c → CmpEq (cmp_rev c).
Proof. intros H x y E. symmetry. by apply H. Qed.
#[export] Instance cmp_then_ok {A} (c1 c2 : A → A → comparison) :
  CmpOk c1 → CmpOk c2 → CmpOk (cmp_then c1 c2).
Proof.
  intros H1 H2. split; unfold cmp_then.
  - intros x y. rewrite (cmp_antisym c1 x y), (cmp_antisym c2 x y).
    by destruct (c1 x y).
  - intros x y z. destruct (c1 x y) eqn:Exy; [| |done].
    + destruct (c1 y z) eqn:Eyz; [| |done].
      * assert (c1 x z = Eq) as ->; [|apply (cmp_le_trans c2)].
        assert (c1 x z ≠ Gt) by (apply (cmp_le_trans c1 x y z); congruence).
        assert (c1 z x ≠ Gt).
        { apply (cmp_le_trans c1 z y x);
            [by rewrite (cmp_antisym c1 y z), Eyz|by rewrite (cmp_antisym c1 x y), Exy]. }
        pose proof (cmp_antisym c1 x z). destruct (c1 x z), (c1 z x); done.
      * intros _ _. by rewrite (cmp_le_lt_trans c1 x y z) by congruence.
    + intros _ Hyz. assert (c1 x z = Lt) as ->; [|done].
      apply (cmp_lt_le_trans c1 x y z); [done|]. by destruct (c1 y z).
Qed.

(** Sorting by one comparator what is sorted by another sorts by both. *)
Lemma sort_cmp_stable {A} (c1 c2 : A → A → comparison) `{!CmpOk c1, !CmpOk c2} l :
  StronglySorted (λ x y, cmp_leb c2 x y = true) l →
  StronglySorted (λ x y, cmp_leb (cmp_then c1 c2) x y = true) (sort_cmp c1 l).
Proof.
  assert (∀ x s, Forall (λ y, cmp_leb c2 x y = true) s →
    StronglySorted (λ x y, cmp_leb (cmp_then c1 c2) x y = true) s →
    StronglySorted (λ x y, cmp_leb (cmp_then c1 c2) x y = true) (sort_insert (cmp_leb c1) x s)) as Hins.
  { intros x s Hx Hs. induction Hs as [|y s Hs IH Hy]; simpl; [by repeat constructor|].
    apply Forall_cons in Hx as [Hxy Hx]. destruct (cmp_leb c1 x y) eqn:E.
    - constructor; [by constructor|].
      assert (cmp_leb (cmp_then c1 c2) x y = true) as H.
      { unfold cmp_leb, cmp_then in *. by destruct (c1 x y). }
      constructor; [done|]. eapply Forall_impl; [exact Hy|]. intros z. by apply cmp_leb_trans; [apply _|].
    - constructor; [by apply IH|]. rewrite sort_insert_perm. constructor; [|done].
      unfold cmp_leb, cmp_then in *. rewrite (cmp_antisym c1 x y). by destruct (c1 x y). }
  induction 1 as [|x l Hs IH Hx]; [constructor|]. apply Hins; [|exact IH].
  rewrite Forall_forall in *. intros y Hy%elem_of_sort_by. by apply Hx.
Qed.

(** ** Lists *)

(** First occurrences only, in order: a loop that pushes what a [HashSet]
    accepts ([if seen.insert(k) { out.push(x) }]). *)
Section DedupBy.
Context {A K : Type} `{EqDecision K} (key : A → K).

Fixpoint dedup_from (seen : list K) (l : list A) : list A :=
  match l with
  | [] => []
  | x :: l' =>
      if decide (key x ∈ seen) then dedup_from seen l'
      else x :: dedup_from (key x :: seen) l'
  end.

Lemma elem_of_dedup_from seen l x : x ∈ dedup_from seen l → x ∈ l ∧ key x ∉ seen.
Proof.
  revert seen. induction l as [|y l IH]; intros seen; simpl; [by intros ?%elem_of_nil|].
  case_decide.
  - intros [? ?]%IH. split; [by right|done].
  - intros [->|[??]%IH]%elem_of_cons; [split; [by left|done]|].
    split; [by right|set_solver].
Qed.

Lemma NoDup_dedup_from seen l : NoDup (key <$> dedup_from seen l).
Proof.
  revert seen. induction l as [|y l IH]; intros seen; simpl; [constructor|].
  case_decide; [done|]. simpl. constructor; [|done].
  intros (x & Hx & [? Hn]%elem_of_dedup_from)%list_elem_of_fmap. set_solver.
Qed.

Lemma dedup_from_covers seen l x :
  x ∈ l → key x ∈ seen ∨ ∃ y, y ∈ dedup_from seen l ∧ key y = key x.
Proof.
  revert seen. induction l as [|y l IH]; intros seen; simpl; [by intros ?%elem_of_nil|].
  intros [->|Hx]%elem_of_cons; case_decide; [by left| |by apply IH|].
  - right. exists y. split; [by left|done].
  - destruct (IH (key y :: seen) Hx) as [[->|?]%elem_of_cons|(z & ? & ?)]; [|by left|].
    + right. exists y. split; [by left|done].
    + right. exists z. split; [by right|done].
Qed.

Lemma dedup_from_sublist seen l : sublist (dedup_from seen l) l.
Proof.
  revert seen. induction l as [|y l IH]; intros seen; simpl; [done|].
  case_decide; by constructor.
Qed.
End DedupBy.

Section Filter.
Context {A : Type} (P : A → Prop) `{∀ x, Decision (P x)}.

Lemma filter_all (l : list A) : (∀ x, x ∈ l → P x) → filter P l = l.
Proof.
  induction l as [|x l IH]; intros Hl; [done|].
  rewrite filter_cons_True by (apply Hl; by left). f_equal.
  apply IH. intros; apply Hl; by right.
Qed.

Lemma filter_none (l : list A) : (∀ x, x ∈ l → ¬ P x) → filter P l = [].
Proof.
  induction l as [|x l IH]; intros Hl; [done|].
  rewrite filter_cons_False by (apply Hl; by left).
  apply IH. intros; apply Hl; by right.
Qed.

Lemma StronglySorted_filter (R : A → A → Prop) (l : list A) :
  StronglySorted R l → StronglySorted R (filter P l).
Proof.
  induction 1 as [|x l Hs IH Hf]; [constructor|]. rewrite filter_cons.
  case_decide; [|done]. constructor; [done|].
  rewrite Forall_forall in *. intros y [_ ?]%list_elem_of_filter. by apply Hf.
Qed.
End Filter.

Lemma imap_id {A} (l : list A) : imap (λ _ x, x) l = l.
Proof. induction l as [|x l IH]; [done|]. rewrite imap_cons. by f_equal. Qed.

(** Positions of a list, smallest first, as [0..n] iterates them. *)
Lemma elem_of_seq0 n i : i ∈ seq 0 n ↔ i < n.
Proof. rewrite elem_of_seq. lia. Qed.

Lemma lookup_take_Some {A} (l : list A) n i x :
  take n l !! i = Some x ↔ l !! i = Some x ∧ i < n.
Proof.
  destruct (decide (i < n)).
  - rewrite lookup_take_lt by done. intuition.
  - rewrite lookup_take_ge by lia. intuition (done || lia).
Qed.

(** ** Keys, chunks, hash maps *)

(** A list whose keys are distinct has at most one element per key. *)
Lemma NoDup_key_inj {A K} (f : A → K) (l : list A) x y :
  NoDup (f <$> l) → x ∈ l → y ∈ l → f x = f y → x = y.
Proof.
  intros Hnd Hx Hy Hf. apply list_elem_of_lookup in Hx as [i Hi], Hy as [j Hj].
  assert (i = j) as ->; [|congruence].
  apply (NoDup_lookup (f <$> l) i j (f x)); [done|..];
    rewrite list_lookup_fmap; [by rewrite Hi|by rewrite Hj, Hf].
Qed.

Lemma bind_perm_ext {A B} (f g : A → list B) l :
  (∀ x, f x ≡ₚ g x) → l ≫= f ≡ₚ l ≫= g.
Proof. intros Hfg. induction l as [|x l IH]; [done|]. simpl. by rewrite Hfg, IH. Qed.

Lemma bind_filter {A B} (P : A → Prop) `{∀ x, Decision (P x)} (f : A → list B) l :
  filter P l ≫= f = l ≫= λ x, if decide (P x) then f x else [].
Proof.
  induction l as [|x l IH]; [done|]. rewrite filter_cons, bind_cons.
  case_decide; [by rewrite bind_cons, IH|done].
Qed.

(** [slice::chunks] *)
Fixpoint chunks_go {A} (fuel k : nat) (l : list A) : list (list A) :=
  match fuel, l with
  | S fuel', _ :: _ => take k l :: chunks_go fuel' k (drop k l)
  | _, _ => []
  end.
Definition chunks {A} (k : nat) (l : list A) : list (list A) := chunks_go (length l) k l.

Lemma join_chunks {A} k (l : list A) : 0 < k → mjoin (chunks k l) = l.
Proof.
  intros Hk. unfold chunks. assert (length l ≤ length l) as Hlen by done.
  revert Hlen. generalize (length l) at 2 3 as fuel. intros fuel.
  revert l. induction fuel as [|fuel IH]; intros [|x l] Hlen; simpl in *; [done|lia|done|].
  rewrite IH; [apply (take_drop k (x :: l))|]. rewrite length_drop. simpl. lia.
Qed.

Lemma chunks_lookup {A} k (l c : list A) o i x :
  chunks k l !! o = Some c → c !! i = Some x → l !! (o * k + i) = Some x.
Proof.
  unfold chunks. generalize (length l) as fuel. intros fuel. revert l o.
  induction fuel as [|fuel IH]; intros [|y l] o Ho Hi; try done.
  destruct o as [|o].
  - cbn in Ho. injection Ho as <-. by apply lookup_take_Some in Hi as [? _].
  - specialize (IH _ _ Ho Hi). rewrite lookup_drop in IH. rewrite <-IH. f_equal. lia.
Qed.

Lemma mapM_total {A B} (f : A → option B) l :
  (∀ x, x ∈ l → is_Some (f x)) → is_Some (mapM f l).
Proof. intros Hl. apply mapM_is_Some, Forall_forall, Hl. Qed.

Lemma elem_of_mapM {A B} (f : A → option B) l k y :
  mapM f l = Some k → y ∈ k ↔ ∃ x, x ∈ l ∧ f x = Some y.
Proof.
  intros Hk. apply mapM_Some in Hk. induction Hk as [|x y' l k Hxy Hk IH].
  - split; [by intros ?%elem_of_nil|by intros (? & ?%elem_of_nil & _)].
  - rewrite elem_of_cons, IH. split.
    + intros [->|(x' & ? & ?)]; [exists x; split; [by left|done]|].
      exists x'. split; [by right|done].
    + intros (x' & [->|?]%elem_of_cons & ?); [left; congruence|right; by exists x'].
Qed.

(** Sortedness and distinctness through a map. *)
Lemma StronglySorted_fmap_on {A B} (R : A → A → Prop) (R' : B → B → Prop) (f : A → B) l :
  (∀ x y, x ∈ l → y ∈ l → R x y → R' (f x) (f y)) →
  StronglySorted R l → StronglySorted R' (f <$> l).
Proof.
  intros Hf Hs. induction Hs as [|x l Hs IH Hall]; [constructor|]. simpl. constructor.
  - apply IH. intros y z ??. apply Hf; by right.
  - apply Forall_fmap, Forall_forall. intros y Hy. rewrite Forall_forall in Hall.
    apply Hf; [by left|by right|by apply Hall].
Qed.

Lemma NoDup_omap_key {A B K} (f : A → option B) (kx : A → K) (ky : B → K) l :
  (∀ x y, x ∈ l → f x = Some y → ky y = kx x) →
  NoDup (kx <$> l) → NoDup (ky <$> omap f l).
Proof.
  induction l as [|x l IH]; intros Hk; [done|]. rewrite fmap_cons, NoDup_cons.
  intros [Hx Hnd]. simpl. specialize (IH (λ y z Hy, Hk y z (list_elem_of_further _ _ _ Hy)) Hnd).
  destruct (f x) as [y|] eqn:E; [|done]. rewrite fmap_cons. constructor; [|done].
  rewrite (Hk x y) by (done || by left).
  intros (y' & Heq & (x' & Hx' & Hf)%list_elem_of_omap)%list_elem_of_fmap.
  apply Hx, list_elem_of_fmap. exists x'. split; [|done].
  rewrite Heq. apply Hk; [by right|done].
Qed.

(** Collecting pairs into a [HashMap]: a later pair replaces an earlier one.
    Where equal keys come with equal values the order of the pairs is lost. *)
Definition hash_map {K A} `{Countable K} (l : list (K * A)) : gmap K A :=
  list_to_map (reverse l).

Definition functional_pairs {K A} (l : list (K * A)) : Prop :=
  ∀ k v v', (k, v) ∈ l → (k, v') ∈ l → v = v'.

Section HashMap.
Context {K A : Type} `{Countable K}.
Implicit Types l : list (K * A).

Lemma hash_map_elem l k v : hash_map l !! k = Some v → (k, v) ∈ l.
Proof. intros Hl. rewrite <-elem_of_reverse. by apply elem_of_list_to_map_2 in Hl. Qed.

Lemma hash_map_is_Some l k v : (k, v) ∈ l → is_Some (hash_map l !! k).
Proof.
  intros Hin. destruct (hash_map l !! k) eqn:E; [done|].
  apply not_elem_of_list_to_map_2 in E. destruct E.
  apply list_elem_of_fmap. exists (k, v). by rewrite elem_of_reverse.
Qed.

Lemma hash_map_lookup l k v :
  functional_pairs l → hash_map l !! k = Some v ↔ (k, v) ∈ l.
Proof.
  intros Hf. split; [apply hash_map_elem|]. intros Hin.
  destruct (hash_map_is_Some l k v Hin) as [v' Hv']. rewrite Hv'. f_equal.
  eapply Hf; [by apply hash_map_elem|done].
Qed.

Lemma hash_map_ext l1 l2 :
  functional_pairs l1 → (∀ p, p ∈ l1 ↔ p ∈ l2) → hash_map l1 = hash_map l2.
Proof.
  intros Hf Heq. apply map_eq. intros k. apply option_eq. intros v.
  rewrite !hash_map_lookup; [apply Heq| |done].
  intros k' v1 v2. rewrite <-!Heq. apply Hf.
Qed.
End HashMap.

(** [entry(k).or_insert(e0)] and an update of the entry, over a list: an entry
    for each key, made of the elements with that key in their order. *)
Section Entries.
Context {K A E : Type} `{Countable K} (key : A → K) (e0 : E) (upd : E → A → E).

Definition entry_step (m : gmap K E) (a : A) : gmap K E :=
  <[key a := upd (default e0 (m !! key a)) a]> m.

Lemma entry_fold_lookup (l : list A) k :
  foldl entry_step ∅ l !! k =
    match filter (λ a, key a = k) l with [] => None | g => Some (foldl upd e0 g) end.
Proof.
  induction l as [|a l IH] using rev_ind; [done|].
  rewrite foldl_snoc, filter_app. unfold entry_step at 1. destruct (decide (key a = k)) as [<-|Hne].
  - rewrite lookup_insert_eq, IH, filter_cons_True by done. simpl.
    destruct (filter _ l) as [|b g] eqn:E1; simpl; [done|]. by rewrite foldl_app.
  - rewrite lookup_insert_ne, IH, filter_cons_False by done. simpl. by rewrite app_nil_r.
Qed.

(** What each element adds to its entry is in the entries, once. *)
Lemma entry_fold_values {B} (vals : E → list B) (v : A → B) (l : list A) :
  vals e0 = [] → (∀ e a, vals (upd e a) = vals e ++ [v a]) →
  (map_to_list (foldl entry_step ∅ l) ≫= λ p, vals p.2) ≡ₚ v <$> l.
Proof.
  intros H0 Hupd. induction l as [|a l IH] using rev_ind; [cbn [foldl]; by rewrite map_to_list_empty|].
  rewrite foldl_snoc, fmap_app. unfold entry_step at 1. set (m := foldl _ _ l) in *.
  destruct (m !! key a) as [e|] eqn:E1; simpl.
  - rewrite <-(insert_delete_eq m), map_to_list_insert by apply lookup_delete_eq.
    rewrite bind_cons. simpl. rewrite Hupd, <-IH, <-(map_to_list_delete m (key a) e) by done.
    rewrite bind_cons. simpl. rewrite <-!app_assoc. f_equiv. by rewrite Permutation_app_comm.
  - rewrite map_to_list_insert by done. rewrite bind_cons. simpl. rewrite Hupd, H0, <-IH. simpl.
    apply Permutation_cons_append.
Qed.
End Entries.

Lemma cmp_leb_antisym {A} (c : A → A → comparison) `{!CmpOk c, !CmpEq c} x y :
  cmp_leb c x y = true → cmp_leb c y x = true → x = y.
Proof.
  unfold cmp_leb. rewrite (cmp_antisym c x y).
  destruct (c x y) eqn:E; simpl; [intros; by apply (cmp_eq c x y)|done..].
Qed.

Lemma filter_ext_elem {A} (P Q : A → Prop) `{∀ x, Decision (P x), ∀ x, Decision (Q x)} (l : list A) :
  (∀ x, x ∈ l → P x ↔ Q x) → filter P l = filter Q l.
Proof.
  induction l as [|x l IH]; intros Hiff; [done|].
  assert (filter P l = filter Q l) as Hl by (apply IH; intros y Hy; apply Hiff; by right).
  specialize (Hiff x ltac:(by left)). destruct (decide (P x)) as [HP|HP].
  - rewrite !filter_cons_True by tauto. by rewrite Hl.
  - rewrite !filter_cons_False by tauto. done.
Qed.

Lemma filter_filter_and {A} (P Q R : A → Prop)
    `{∀ x, Decision (P x), ∀ x, Decision (Q x), ∀ x, Decision (R x)} (l : list A) :
  (∀ x, x ∈ l → R x ↔ P x ∧ Q x) → filter Q (filter P l) = filter R l.
Proof.
  intros Hiff. rewrite list_filter_filter. apply filter_ext_elem.
  intros x Hx. rewrite (Hiff x Hx). tauto.
Qed.

Create HintDb cg discriminated.
Create Rewrite HintDb cg.
(** ** [Vec::dedup] *)

(** [Vec::dedup]: an element equal to the one kept before it goes. *)
Fixpoint vec_dedup {A} `{EqDecision A} (l : list A) : list A :=
  match l with
  | x :: (y :: _) as l' => if decide (x = y) then vec_dedup l' else x :: vec_dedup l'
  | _ => l
  end.

Lemma elem_of_vec_dedup {A} `{EqDecision A} (l : list A) x : x ∈ vec_dedup l ↔ x ∈ l.
Proof.
  induction l as [|a [|b l] IH]; [done..|].
  change (vec_dedup (a :: b :: l)) with
    (if decide (a = b) then vec_dedup (b :: l) else a :: vec_dedup (b :: l)).
  case_decide as Hab; [subst; rewrite IH, !elem_of_cons; naive_solver|].
  by rewrite !(elem_of_cons _ _ a), IH.
Qed.

(** On a sorted vector [dedup] leaves each element once. *)
Lemma NoDup_vec_dedup {A} `{EqDecision A} (leb : A → A → bool) (l : list A) :
  (∀ x y, leb x y = true → leb y x = true → x = y) →
  StronglySorted (λ x y, leb x y = true) l →
  NoDup (vec_dedup l) ∧ StronglySorted (λ x y, leb x y = true) (vec_dedup l).
Proof.
  intros Hanti. induction l as [|a [|b l] IH]; intros Hs.
  - split; constructor.
  - split; [apply NoDup_singleton|by repeat constructor].
  - change (vec_dedup (a :: b :: l)) with
      (if decide (a = b) then vec_dedup (b :: l) else a :: vec_dedup (b :: l)).
    inversion Hs as [|?? Hs' Hf]; subst. destruct (IH Hs') as [IH1 IH2].
    case_decide as Hab; [done|]. rewrite Forall_forall in Hf. split.
    + constructor; [|done]. rewrite elem_of_vec_dedup. intros [?|Ha]%elem_of_cons; [done|].
      apply Hab, Hanti; [apply Hf; set_solver|].
      inversion Hs' as [|?? _ Hf']; subst. rewrite Forall_forall in Hf'. by apply Hf'.
    + constructor; [done|]. apply Forall_forall. intros x. rewrite elem_of_vec_dedup. apply Hf.
Qed.

Lemma vec_dedup_nil {A} `{EqDecision A} (l : list A) : vec_dedup l = [] → l = [].
Proof.
  destruct l as [|a l]; [done|]. intros H.
  assert (a ∈ vec_dedup (a :: l)) as Ha by (apply elem_of_vec_dedup; set_solver).
  rewrite H in Ha. by apply elem_of_nil in Ha.
Qed.

#[export] Hint Resolve sort_by_perm elem_of_sort_by NoDup_dedup_from dedup_from_sublist : cg.
#[export] Hint Rewrite @length_sort_by @elem_of_sort_by @NoDup_sort_by : cg.
