(* ===== verification/Str.v ===== *)
(** * Strings

    A Rust [&str] is modelled as Rocq's [string], the list of its UTF-8 bytes.
    Every separator and affix the modelled code compares with is ASCII, and an
    ASCII byte never occurs inside a multi-byte UTF-8 character, so [split],
    [rsplit_once], [starts_with], [contains] and the like are the byte-level
    functions below.  [str]'s [Ord] is byte-lexicographic, as [String.compare]. *)

From S2P Require Import Prelude.
From Stdlib Require Ascii String OrdersEx.
Export Stdlib.Strings.Ascii (ascii(..), ascii_of_N, N_of_ascii).
Export (notations) Stdlib.Strings.Ascii.

#[global] Arguments String.append : simpl nomatch.
#[global] Arguments String.eqb : simpl never.

(** The separators the code names, and both JSON/shell quotes. *)
Definition ch_slash : ascii := "/"%char.
Definition ch_dot : ascii := "."%char.
Definition ch_quote : ascii := "'"%char.
Definition ch_dquote : ascii := "034"%char.
Definition ch_backslash : ascii := "\"%char.
Definition ch_space : ascii := " "%char.
Definition ch_newline : ascii := "010"%char.
Abbreviation dquote := (String ch_dquote EmptyString).
Abbreviation newline := (String ch_newline EmptyString).

Lemma str_app_assoc s t u : (s +:+ t) +:+ u = s +:+ (t +:+ u).
Proof. induction s as [|c s IH]; simpl; [done|by rewrite IH]. Qed.

Lemma str_app_nil_r s : s +:+ "" = s.
Proof. induction s as [|c s IH]; simpl; [done|by rewrite IH]. Qed.

Lemma str_app_inj_l s t u : s +:+ t = s +:+ u → t = u.
Proof. induction s as [|c s IH]; simpl; [done|]. intros [=]. auto. Qed.

Lemma str_length_app s t : String.length (s +:+ t) = String.length s + String.length t.
Proof. induction s as [|c s IH]; simpl; [done|by rewrite IH]. Qed.

(** ** Affixes *)

(** [str::strip_prefix] *)
Fixpoint strip_prefix (p s : string) : option string :=
  match p, s with
  | EmptyString, _ => Some s
  | String a p', String b s' => if Ascii.eqb a b then strip_prefix p' s' else None
  | String _ _, EmptyString => None
  end.

(** [str::starts_with] *)
Definition starts_with (p s : string) : bool :=
  match strip_prefix p s with Some _ => true | None => false end.

(** [str::strip_suffix] *)
Fixpoint strip_suffix (p s : string) : option string :=
  if String.eqb s p then Some EmptyString
  else match s with
       | EmptyString => None
       | String c s' =>
           match strip_suffix p s' with
           | Some r => Some (String c r)
           | None => None
           end
       end.

(** [str::ends_with] *)
Definition ends_with (p s : string) : bool :=
  match strip_suffix p s with Some _ => true | None => false end.

(** [str::contains] with a string pattern *)
Fixpoint contains (p s : string) : bool :=
  starts_with p s ||
  match s with
  | EmptyString => false
  | String _ s' => contains p s'
  end.

Lemma strip_prefix_Some p s t : strip_prefix p s = Some t ↔ s = p +:+ t.
Proof.
  revert s. induction p as [|a p IH]; intros s; simpl.
  { split; congruence. }
  destruct s as [|b s]; [done|].
  destruct (Ascii.eqb_spec a b) as [->|]; [|split; congruence].
  rewrite IH. split; congruence.
Qed.

Lemma starts_with_spec p s : starts_with p s = true ↔ ∃ t, s = p +:+ t.
Proof.
  unfold starts_with. destruct (strip_prefix p s) as [t|] eqn:E.
  - apply strip_prefix_Some in E. split; [by exists t|done].
  - split; [done|]. intros [t ?%strip_prefix_Some]. congruence.
Qed.

Lemma strip_suffix_Some p s t : strip_suffix p s = Some t ↔ s = t +:+ p.
Proof.
  revert t. induction s as [|c s IH]; intros t; simpl.
  - destruct (String.eqb_spec "" p) as [<-|Hne].
    + split; [by intros [= <-]|]. by destruct t.
    + split; [done|]. destruct t; simpl; [congruence|discriminate].
  - destruct (String.eqb_spec (String c s) p) as [<-|Hne].
    + split; [by intros [= <-]|]. intros Ht.
      assert (String.length t = 0) as Hl.
      { apply (f_equal String.length) in Ht. rewrite str_length_app in Ht. lia. }
      by destruct t.
    + destruct (strip_suffix p s) as [r|].
      * split.
        -- intros [= <-]. simpl. f_equal. by apply IH.
        -- destruct t as [|c' t]; simpl; [congruence|]. intros [= -> Hs].
           do 2 f_equal. apply IH in Hs. congruence.
      * split; [done|]. destruct t as [|c' t]; simpl; [congruence|].
        intros [= -> Hs]. apply IH in Hs. congruence.
Qed.

Lemma ends_with_spec p s : ends_with p s = true ↔ ∃ t, s = t +:+ p.
Proof.
  unfold ends_with. destruct (strip_suffix p s) as [t|] eqn:E.
  - apply strip_suffix_Some in E. split; [by exists t|done].
  - split; [done|]. intros [t ?%strip_suffix_Some]. congruence.
Qed.

Lemma contains_spec p s : contains p s = true ↔ ∃ a b, s = a +:+ p +:+ b.
Proof.
  induction s as [|c s IH]; simpl; rewrite orb_true_iff, starts_with_spec.
  - split.
    + intros [[t ->]|]; [|done]. exists "", t. done.
    + intros (a & b & Hs). left. destruct a; [by exists b|discriminate].
  - rewrite IH. split.
    + intros [[t ->]|(a & b & ->)]; [exists "", t; done|exists (String c a), b; done].
    + intros ([|c' a] & b & Hs); simpl in Hs; [by left; exists b|].
      injection Hs as -> ->. right. eauto.
Qed.

Lemma contains_app_l p s t : contains p t = true → contains p (s +:+ t) = true.
Proof.
  rewrite !contains_spec. intros (a & b & ->). exists (s +:+ a), b.
  by rewrite str_app_assoc.
Qed.

(** ** Characters *)

Fixpoint str_forall (f : ascii → bool) (s : string) : bool :=
  match s with
  | EmptyString => true
  | String c s' => f c && str_forall f s'
  end.

Lemma str_forall_app f s t : str_forall f (s +:+ t) = str_forall f s && str_forall f t.
Proof. induction s as [|c s IH]; simpl; [done|]. by rewrite IH, andb_assoc. Qed.

Definition no_char (c : ascii) (s : string) : bool :=
  str_forall (λ d, negb (Ascii.eqb c d)) s.

Definition is_ascii_upper (c : ascii) : bool :=
  let n := N_of_ascii c in (65 <=? n)%N && (n <=? 90)%N.
Definition is_ascii_lower (c : ascii) : bool :=
  let n := N_of_ascii c in (97 <=? n)%N && (n <=? 122)%N.
Definition is_ascii_alphabetic (c : ascii) : bool := is_ascii_upper c || is_ascii_lower c.
Definition is_ascii_digit (c : ascii) : bool :=
  let n := N_of_ascii c in (48 <=? n)%N && (n <=? 57)%N.
Definition is_ascii_alphanumeric (c : ascii) : bool :=
  is_ascii_alphabetic c || is_ascii_digit c.
Definition is_ascii (c : ascii) : bool := (N_of_ascii c <? 128)%N.

(** [u8::to_ascii_lowercase] and [str::to_ascii_lowercase] *)
Definition ascii_lower (c : ascii) : ascii :=
  if is_ascii_upper c then ascii_of_N (N_of_ascii c + 32) else c.
Fixpoint to_ascii_lowercase (s : string) : string :=
  match s with
  | EmptyString => EmptyString
  | String c s' => String (ascii_lower c) (to_ascii_lowercase s')
  end.

(** [str::eq_ignore_ascii_case] *)
Definition eq_ignore_ascii_case (s t : string) : bool :=
  String.eqb (to_ascii_lowercase s) (to_ascii_lowercase t).

Lemma to_ascii_lowercase_app s t :
  to_ascii_lowercase (s +:+ t) = to_ascii_lowercase s +:+ to_ascii_lowercase t.
Proof. induction s as [|c s IH]; simpl; [done|by rewrite IH]. Qed.

Lemma eq_ignore_ascii_case_spec s t :
  eq_ignore_ascii_case s t = true ↔ to_ascii_lowercase s = to_ascii_lowercase t.
Proof. apply String.eqb_eq. Qed.

(** [str::replace] of one character *)
Fixpoint replace_char (c : ascii) (by_ : string) (s : string) : string :=
  match s with
  | EmptyString => EmptyString
  | String d s' =>
      if Ascii.eqb c d then by_ +:+ replace_char c by_ s'
      else String d (replace_char c by_ s')
  end.

(** ** Splitting and joining *)

(** [str::split(c)]: never empty, one more piece than separators. *)
Fixpoint split_on (c : ascii) (s : string) : list string :=
  match s with
  | EmptyString => [EmptyString]
  | String d s' =>
      if Ascii.eqb c d then EmptyString :: split_on c s'
      else match split_on c s' with
           | [] => [String d EmptyString]
           | w :: ws => String d w :: ws
           end
  end.

(** [[T]::join(sep)] *)
Fixpoint join (sep : string) (l : list string) : string :=
  match l with
  | [] => EmptyString
  | [w] => w
  | w :: l' => w +:+ sep +:+ join sep l'
  end.

(** [str::rsplit_once(c)]: the parts around the last [c]. *)
Fixpoint rsplit_once (c : ascii) (s : string) : option (string * string) :=
  match s with
  | EmptyString => None
  | String d s' =>
      match rsplit_once c s' with
      | Some (a, b) => Some (String d a, b)
      | None => if Ascii.eqb c d then Some (EmptyString, s') else None
      end
  end.

Lemma split_on_not_nil c s : split_on c s ≠ [].
Proof. destruct s as [|d s]; simpl; [done|]. repeat case_goal; done. Qed.

Lemma join_cons sep w l : l ≠ [] → join sep (w :: l) = w +:+ sep +:+ join sep l.
Proof. by destruct l. Qed.

Lemma join_split c s : join (String c "") (split_on c s) = s.
Proof.
  induction s as [|d s IH]; simpl; [done|].
  destruct (Ascii.eqb_spec c d) as [->|].
  - rewrite join_cons by apply split_on_not_nil. by rewrite IH.
  - pose proof (split_on_not_nil c s).
    destruct (split_on c s) as [|w [|w' ws]]; [done|by simpl in *; f_equal|].
    simpl in *. by f_equal.
Qed.

Lemma split_on_no_char c s : Forall (λ w, no_char c w = true) (split_on c s).
Proof.
  induction s as [|d s IH]; simpl; [repeat constructor|].
  destruct (Ascii.eqb c d) eqn:E; [by constructor|].
  destruct (split_on c s) as [|w ws] eqn:Es; [by apply split_on_not_nil in Es|].
  inversion_clear IH. constructor; [|done]. unfold no_char; simpl. by rewrite E.
Qed.

Lemma split_on_word c w : no_char c w = true → split_on c w = [w].
Proof.
  induction w as [|d w IH]; [done|]. unfold no_char; simpl. intros H; bool_prop.
  fold (no_char c w) in *. rewrite IH by done. by destruct (Ascii.eqb c d).
Qed.

Lemma split_on_app c w s :
  no_char c w = true → split_on c (w +:+ String c s) = w :: split_on c s.
Proof.
  induction w as [|d w IH]; simpl; [by rewrite Ascii.eqb_refl|].
  unfold no_char; simpl. intros H; bool_prop. fold (no_char c w) in *.
  rewrite IH by done. by destruct (Ascii.eqb c d).
Qed.

Lemma split_join c l :
  l ≠ [] → Forall (λ w, no_char c w = true) l → split_on c (join (String c "") l) = l.
Proof.
  intros Hne Hf. induction Hf as [|w l Hw Hf IH]; [done|].
  destruct l as [|w' l]; [by apply split_on_word|].
  rewrite join_cons by done. cbn [String.append].
  rewrite split_on_app by done. by rewrite IH.
Qed.

Lemma rsplit_once_None c s : rsplit_once c s = None ↔ no_char c s = true.
Proof.
  induction s as [|d s IH]; [done|]. unfold no_char; simpl. fold (no_char c s).
  destruct (rsplit_once c s) as [[a b]|]; [|destruct (Ascii.eqb c d); simpl; intuition done].
  split; [done|]. intros H; bool_prop. by apply IH in H0.
Qed.

Lemma no_char_sep c a b : no_char c (a +:+ String c b) = false.
Proof.
  unfold no_char. rewrite str_forall_app. simpl.
  by rewrite Ascii.eqb_refl, andb_false_r.
Qed.

Lemma rsplit_once_Some c s a b :
  rsplit_once c s = Some (a, b) ↔ s = a +:+ String c b ∧ no_char c b = true.
Proof.
  revert a b. induction s as [|d s IH]; intros a b; simpl.
  { split; [done|]. intros [H _]. by destruct a. }
  destruct (rsplit_once c s) as [[a' b']|] eqn:E.
  - destruct (proj1 (IH a' b') eq_refl) as [Hs' Hb']. split.
    + intros [= <- <-]. by rewrite Hs'.
    + intros [Hs Hb]. destruct a as [|x a]; simpl in Hs; injection Hs as -> Hs.
      * subst. by rewrite no_char_sep in Hb.
      * assert (Some (a', b') = Some (a, b)); [by apply IH|congruence].
  - apply rsplit_once_None in E. destruct (Ascii.eqb_spec c d) as [->|].
    + split; [by intros [= <- <-]|]. intros [Hs Hb].
      destruct a as [|x a]; simplify_eq/=; [done|]. by rewrite no_char_sep in E.
    + split; [done|]. intros [Hs Hb].
      destruct a as [|x a]; simplify_eq/=. by rewrite no_char_sep in E.
Qed.

(** ** Order *)

Definition str_leb (s t : string) : bool :=
  match String.compare s t with Gt => false | _ => true end.

Lemma str_leb_total s t : str_leb s t = true ∨ str_leb t s = true.
Proof.
  unfold str_leb. rewrite (String.compare_antisym t s).
  destruct (String.compare s t); simpl; auto.
Qed.

Lemma str_leb_antisym s t : str_leb s t = true → str_leb t s = true → s = t.
Proof.
  unfold str_leb. rewrite (String.compare_antisym t s).
  destruct (String.compare s t) eqn:E; simpl; try done.
  by intros; apply String.compare_eq_iff.
Qed.

Lemma str_leb_refl s : str_leb s s = true.
Proof. by destruct (str_leb_total s s). Qed.

Lemma str_leb_trans s t u : str_leb s t = true → str_leb t u = true → str_leb s u = true.
Proof.
  intros H1 H2. unfold str_leb in *.
  destruct (String.compare s t) eqn:E1; [|clear H1|done].
  { by apply String.compare_eq_iff in E1 as ->. }
  destruct (String.compare t u) eqn:E2; [|clear H2|done].
  { apply String.compare_eq_iff in E2 as <-. by rewrite E1. }
  assert (String.compare s u = Lt) as ->; [|done].
  by apply (StrictOrder_Transitive (R := OrdersEx.String_as_OT.lt) s t u).
Qed.

#[export] Instance str_cmp_ok : CmpOk String.compare.
Proof.
  split; [intros; apply String.compare_antisym|].
  intros x y z H1 H2. pose proof (str_leb_trans x y z) as H. unfold str_leb in H.
  destruct (String.compare x y), (String.compare y z), (String.compare x z); naive_solver.
Qed.
#[export] Instance str_cmp_eq : CmpEq String.compare.
Proof. intros x y. apply String.compare_eq_iff. Qed.

#[export] Hint Resolve str_leb_total str_leb_trans str_leb_antisym str_leb_refl : cg.

(** ** Decimal rendering, as [format!("{n}")] writes an unsigned integer *)
Definition dec_digit (n : N) : ascii := ascii_of_N (48 + n).
Fixpoint dec_of_N_aux (fuel : nat) (n : N) (acc : string) : string :=
  match fuel with
  | 0 => acc
  | S f =>
      let acc' := String (dec_digit (n mod 10)) acc in
      if (n <? 10)%N then acc' else dec_of_N_aux f (n / 10) acc'
  end.
Definition dec_of_N (n : N) : string := dec_of_N_aux (S (N.to_nat (N.log2 n))) n "".
Definition dec_of_nat (n : nat) : string := dec_of_N (N.of_nat n).
Definition dec_of_Z (z : Z) : string :=
  if (z <? 0)%Z then "-" +:+ dec_of_N (Z.abs_N z) else dec_of_N (Z.to_N z).

Example dec_of_N_test : dec_of_N 90210 = "90210" ∧ dec_of_N 0 = "0".
Proof. done. Qed.
