(* ===== verification/Domain.v ===== *)
(** * Domain rules (src/src/domain.rs)

    The vocabulary shared by every surface: relation names, confidence tiers,
    filter normalisation, the test-symbol classifier in Rust and in SQL, the
    pool sizes of a search and the risk level.  Unicode case mapping
    ([str::to_lowercase], [str::to_uppercase]) and [str::trim] are parameters;
    where a theorem needs them it assumes only what they do on ASCII. *)

From S2P Require Import Prelude Str.

Definition CODE_GRAPH_DIR : string := ".code-graph".

(** ** Tools, relations and markers *)

Definition LIVE_MCP_TOOLS : list string :=
  ["semantic_code_search"; "get_call_graph"; "get_ast_node"; "project_map";
   "module_overview"; "ast_search"; "find_references"].
Definition NON_LISTED_MCP_TOOLS : list string :=
  ["impact_analysis"; "dependency_graph"; "find_similar_code"; "find_dead_code";
   "trace_http_chain"; "find_http_route"; "read_snippet"; "start_watch"; "stop_watch";
   "get_index_status"; "rebuild_index"].

Definition REL_CALLS : string := "calls".
Definition REL_INHERITS : string := "inherits".
Definition REL_IMPORTS : string := "imports".
Definition REL_ROUTES_TO : string := "routes_to".
Definition REL_IMPLEMENTS : string := "implements".
Definition REL_EXPORTS : string := "exports".
Definition REL_REFERENCES : string := "references".

Definition quoted (s : string) : string := dquote +:+ s +:+ dquote.
Definition IMPORT_EXTERNAL_META : string := "{" +:+ quoted "ext" +:+ ":1}".

Definition is_synthetic_import (relation : string) (metadata : option string) : bool :=
  String.eqb relation REL_IMPORTS
  && match metadata with
     | Some m => contains (quoted "attr" +:+ ":") m
     | None => false
     end.
Definition is_external_import_meta (metadata : option string) : bool :=
  match metadata with Some m => String.eqb m IMPORT_EXTERNAL_META | None => false end.

(** ** Confidence tiers *)

Definition CONF_EXTRACTED : string := "extracted".
Definition CONF_INFERRED : string := "inferred".
Definition CONF_AMBIGUOUS : string := "ambiguous".

Definition confidence_rank (c : string) : nat :=
  if String.eqb c CONF_EXTRACTED then 2
  else if String.eqb c CONF_INFERRED then 1
  else 0.

(** [x] is one of the words: a [match] arm with string alternatives, or
    [slice::contains]. *)
Definition one_of (ws : list string) (x : string) : bool := existsb (String.eqb x) ws.

Section Normalize.
(** [str::to_lowercase], [str::to_uppercase] and [str::trim] *)
Context (to_lowercase to_uppercase trim : string → string).

Definition normalize_confidence (input : string) : option string :=
  let l := to_lowercase input in
  if one_of ["extracted"; "exact"; "high"] l then Some CONF_EXTRACTED
  else if one_of ["inferred"; "medium"; "med"] l then Some CONF_INFERRED
  else if one_of ["ambiguous"; "low"; "all"] l then Some CONF_AMBIGUOUS
  else None.

Definition normalize_call_direction (input : string) : option string :=
  let l := to_lowercase input in
  if String.eqb l "callers" then Some "callers"
  else if String.eqb l "callees" then Some "callees"
  else if String.eqb l "both" then Some "both"
  else None.

Definition normalize_dep_direction (input : string) : option string :=
  let l := to_lowercase input in
  if String.eqb l "outgoing" then Some "outgoing"
  else if String.eqb l "incoming" then Some "incoming"
  else if String.eqb l "both" then Some "both"
  else None.

Definition RELATION_FILTER_VOCAB : list string :=
  [REL_CALLS; REL_IMPORTS; REL_INHERITS; REL_IMPLEMENTS; REL_REFERENCES;
   REL_EXPORTS; REL_ROUTES_TO].
Definition relation_filter_vocab_list : string :=
  join ", " RELATION_FILTER_VOCAB +:+ ", all".
Definition RELATION_FILTER_HELP : string :=
  "calls, imports, inherits, implements, references, exports, routes_to, all".

Definition normalize_relation (input : string) : option string :=
  let lower := to_lowercase input in
  if String.eqb lower "all" then Some "all"
  else find (λ rel, String.eqb rel lower) RELATION_FILTER_VOCAB.

Definition parse_min_confidence (raw : option string) (flag_label : string) :
    result string (option string) :=
  match raw with
  | None => Ok None
  | Some c =>
      if String.eqb c "" then Ok None
      else match normalize_confidence c with
           | Some t => Ok (Some t)
           | None =>
               Err (flag_label +:+
                    " must be one of: extracted, inferred, ambiguous (got '"
                    +:+ c +:+ "')")
           end
  end.

Definition normalize_type_filter (input : string) : list string :=
  let l := to_lowercase input in
  if one_of ["fn"; "func"; "function"; "method"] l then ["function"; "method"]
  else if String.eqb l "class" then ["class"]
  else if String.eqb l "struct" then ["struct"]
  else if String.eqb l "enum" then ["enum"]
  else if one_of ["interface"; "iface"; "trait"] l then ["interface"; "trait"]
  else if one_of ["type"; "type_alias"] l then ["type"; "type_alias"]
  else if one_of ["const"; "constant"] l then ["constant"]
  else if one_of ["var"; "variable"] l then ["variable"; "constant"]
  else [].

Definition type_filter_note (input : string) : string :=
  if one_of ["module"; "modules"; "file"; "files"; "dir"; "directory"]
       (to_lowercase input)
  then " Module/file placeholders are never search results — list modules with `map`, `overview <path>` or `tour` instead."
  else "".

(** *** Routes *)

Definition ROUTE_METHODS : list string :=
  ["GET"; "POST"; "PUT"; "DELETE"; "PATCH"; "HEAD"; "OPTIONS"].

(** [find(' ')] and the two slices around it. *)
Fixpoint split_at_space (s : string) : option (string * string) :=
  match s with
  | EmptyString => None
  | String c s' =>
      if Ascii.eqb c ch_space then Some (EmptyString, s)
      else match split_at_space s' with
           | Some (a, b) => Some (String c a, b)
           | None => None
           end
  end.

Definition parse_route_input (input : string) : option string * string :=
  let trimmed := trim input in
  match split_at_space trimmed with
  | Some (before, from) =>
      let prefix := to_uppercase before in
      if one_of ROUTE_METHODS prefix then (Some prefix, trim from) else (None, trimmed)
  | None => (None, trimmed)
  end.
End Normalize.

Definition route_method_matches (stored requested : string) : bool :=
  eq_ignore_ascii_case stored "ANY"
  || eq_ignore_ascii_case stored "ALL"
  || eq_ignore_ascii_case stored requested.

Definition TYPE_FILTER_VOCAB : list string :=
  ["fn"; "class"; "struct"; "enum"; "trait"; "type"; "const"; "var"].

(** ** Search pools ([i64]) *)

Definition SEARCH_BASE_OVERFETCH : Z := 4.
Definition SEARCH_FETCH_FLOOR : Z := 20.
Definition SEARCH_FILTER_OVERFETCH : Z := 16.
Definition SEARCH_FILTER_FETCH_FLOOR : Z := 100.
Definition SIMILAR_OVERFETCH : Z := 3.
Definition SEARCH_EXHAUSTED_RETRY_OVERFETCH : Z := 4.
Definition SEARCH_RETRY_FETCH_CAP : Z := 1000.

(** The value of [i64] arithmetic in a release build: two's complement wrap. *)
Definition wrap_i64 (z : Z) : Z := (z + 2 ^ 63) mod 2 ^ 64 - 2 ^ 63.
Definition saturating_i64 (z : Z) : Z := Z.max (- 2 ^ 63) (Z.min (2 ^ 63 - 1) z).

Definition search_fetch_count (top_k : Z) (filtered : bool) : Z :=
  if filtered
  then Z.max (wrap_i64 (top_k * SEARCH_FILTER_OVERFETCH)) SEARCH_FILTER_FETCH_FLOOR
  else Z.max (wrap_i64 (top_k * SEARCH_BASE_OVERFETCH)) SEARCH_FETCH_FLOOR.
Definition search_retry_fetch_count (previous : Z) : Z :=
  Z.min (saturating_i64 (previous * SEARCH_EXHAUSTED_RETRY_OVERFETCH))
    SEARCH_RETRY_FETCH_CAP.
Definition similar_fetch_count (top_k : Z) : Z :=
  Z.max (wrap_i64 (top_k * SIMILAR_OVERFETCH)) (wrap_i64 (top_k + 1)).

(** ** Token estimation: bytes per token *)

Definition CHARS_PER_TOKEN : N := 3.

(** ** Risk *)

Definition compute_risk_level (prod_callers affected_routes : nat) (is_breaking : bool) :
    string :=
  if (10 <? prod_callers) || (3 <=? affected_routes) || is_breaking then "HIGH"
  else if (3 <? prod_callers) || (0 <? affected_routes) then "MEDIUM"
  else "LOW".

Definition is_function_node_type (node_type : string) : bool :=
  one_of ["function"; "method"] node_type.

Definition NO_CALLERS_IMPACT_WARNING : string :=
  "No caller of this function is in the call graph. Either nothing calls it, or its callers were not resolved (dynamic dispatch, an unresolved import, use from outside the indexed code). Check `code-graph-mcp refs <symbol>` and `code-graph-mcp grep -w <symbol>` before treating the change as safe.".
Definition NON_FUNCTION_IMPACT_WARNING : string :=
  "Impact analysis tracks function call chains. This symbol is not a function — actual usage (imports, field access, type annotations, instantiation) may be broader than shown. Use `find_references` (MCP) or `code-graph-mcp refs <symbol>` (CLI) to find all references.".

(** ** Test classification *)

Definition PASCAL_TEST_EXTS : list string :=
  ["cs"; "vb"; "fs"; "java"; "kt"; "scala"; "swift"; "php"].
Definition SPEC_TEST_EXTS : list string :=
  ["scala"; "kt"].
Definition PASCAL_TEST_STEM_EXTS : list (string * list string) :=
  [("Test", PASCAL_TEST_EXTS); ("Tests", PASCAL_TEST_EXTS); ("Spec", SPEC_TEST_EXTS)].
Definition INFIX_TEST_EXTS : list string :=
  ["go"; "rs"; "py"; "dart"].

Definition is_test_path (file_path : string) : bool :=
  let lower := to_ascii_lowercase file_path in
  if starts_with "tests/" lower || starts_with "test/" lower
     || contains "/tests/" lower || contains "/test/" lower
  then true
  else if existsb (λ se, existsb (λ ext, ends_with (se.1 +:+ "." +:+ ext) file_path) se.2)
            PASCAL_TEST_STEM_EXTS
  then true
  else if existsb (λ ext, ends_with ("_test." +:+ ext) file_path) INFIX_TEST_EXTS
  then true
  else if ends_with ".py" file_path
          && (starts_with "test_" file_path || contains "/test_" file_path
              || ends_with "conftest.py" file_path)
  then true
  else
    starts_with "benches/" file_path || starts_with "bench/" file_path
    || contains "__tests__/" file_path || ends_with "/tests.rs" file_path
    || ends_with ".test.ts" file_path || ends_with ".test.js" file_path
    || ends_with ".test.tsx" file_path || ends_with ".test.jsx" file_path
    || ends_with ".spec.ts" file_path || ends_with ".spec.js" file_path
    || ends_with ".spec.tsx" file_path || ends_with ".spec.jsx" file_path.

Definition is_test_symbol (name file_path : string) : bool :=
  starts_with "test_" name || ends_with "Test" name || ends_with "Tests" name
  || is_test_path file_path.

Definition is_test_node (is_test_flag : bool) (name file_path : string) : bool :=
  is_test_flag || is_test_symbol name file_path.

Definition EXTERNAL_FILE_PATH : string := "<external>".
Definition MODULE_NODE_NAME : string := "<module>".
Definition display_node_name (name : string) : string :=
  if String.eqb name MODULE_NODE_NAME then "(file top level)" else name.

Definition is_skippable_result (is_test_flag : bool) (node_type node_name file_path : string) :
    bool :=
  (String.eqb node_type "module" && String.eqb node_name "<module>")
  || String.eqb file_path EXTERNAL_FILE_PATH
  || is_test_node is_test_flag node_name file_path.

(** The parity corpus of the classifier's mirrors. *)
Definition TEST_PATH_PARITY_CORPUS : list string :=
  ["tests/foo.rs"; "test/foo.rs"; "src/Tests/Api.Tests/AuthTests.cs";
   "src/test/java/com/x/AuthHandler.java"; "benches/b.rs"; "bench/b.rs";
   "src/__tests__/x.ts"; "src/foo/tests.rs"; "app/Domain/AuthServiceTests.cs";
   "app/Domain/AuthServiceTest.java"; "app/routes/RouteSpec.scala";
   "app/routes/RouteSpec.kt"; "pkg/foo_test.go"; "src/mod_test.rs"; "pkg/util_test.py";
   "lib/widget_test.dart"; "api/test_signup.py"; "api/sub/test_signup.py";
   "api/conftest.py"; "src/a.test.ts"; "src/a.test.js"; "src/a.test.tsx";
   "src/a.test.jsx"; "src/a.spec.ts"; "src/a.spec.js"; "src/a.spec.tsx"; "src/a.spec.jsx";
   "src/auth.ts"; "src/main.rs"; "src/api.py"; "src/mytests.rs"; "src/attests.py";
   "src/latest.cs"; "src/Contest.cs"; "src/Testimonial.cs"; "src/protest/api.cs";
   "src/testing/api.cs"; "src/latest_test.txt"; "src/attest.py"; "api/Test_Signup.py";
   "api/Conftest.py"; "api/sub/Test_x.py"; "src/Contracts/OpenApiSpec.cs";
   "src/Protocol/WireSpec.java"; "src/Api/OpenApiSpec.php"; "src/Model/FieldSpec.swift"].

(** *** The SQL mirror *)

(** One leg of the SQL predicate over a path column. *)
Inductive sql_leg := Glob (pattern : string) | Like (pattern : string).

Definition leg_sql (column : string) (l : sql_leg) : string :=
  match l with
  | Glob p => column +:+ " GLOB '" +:+ p +:+ "'"
  | Like p => column +:+ " LIKE '" +:+ p +:+ "'"
  end.

Definition pascal_legs : list sql_leg :=
  concat ((λ se : string * list string, (λ ext, Glob ("*" +:+ se.1 +:+ "." +:+ ext)) <$> se.2)
            <$> PASCAL_TEST_STEM_EXTS).
Definition infix_legs : list sql_leg := (λ ext, Glob ("*_test." +:+ ext)) <$> INFIX_TEST_EXTS.
Definition dir_legs : list sql_leg :=
  [Like "tests/%"; Like "test/%"; Like "%/tests/%"; Like "%/test/%"].
Definition pytest_legs : list sql_leg :=
  [Glob "test_*.py"; Glob "*/test_*.py"; Glob "*conftest.py"].
Definition fixed_legs : list sql_leg :=
  [Glob "benches/*"; Glob "bench/*"; Glob "*__tests__/*"; Glob "*/tests.rs";
   Glob "*.test.ts"; Glob "*.test.js"; Glob "*.test.tsx"; Glob "*.test.jsx";
   Glob "*.spec.ts"; Glob "*.spec.js"; Glob "*.spec.tsx"; Glob "*.spec.jsx"].
Definition test_path_legs : list sql_leg :=
  pascal_legs ++ infix_legs ++ dir_legs ++ pytest_legs ++ fixed_legs.

Definition test_path_legs_sql (file_alias : string) : string :=
  join " OR " (leg_sql (file_alias +:+ ".path") <$> test_path_legs).
Definition is_test_node_sql (n f : string) : string :=
  "(" +:+ n +:+ ".is_test = 1 OR " +:+ n +:+ ".name GLOB 'test_*' OR "
  +:+ n +:+ ".name GLOB '*Test' OR " +:+ n +:+ ".name GLOB '*Tests' OR "
  +:+ test_path_legs_sql f +:+ ")".
Definition prod_filter_and (n f : string) : string :=
  n +:+ ".is_test = 0 AND " +:+ n +:+ ".name NOT GLOB 'test_*' AND NOT ("
  +:+ test_path_legs_sql f +:+ ")".
Definition prod_source_filter_and : string := prod_filter_and "src" "sf".
Definition test_source_filter_or : string :=
  "src.is_test = 1 OR src.name GLOB 'test_*' OR " +:+ test_path_legs_sql "sf".

Section SqlMeaning.
(** SQLite's [GLOB] and [LIKE] operators, pattern first. *)
Context (glob like : string → string → bool).

Definition leg_holds (path : string) (l : sql_leg) : bool :=
  match l with Glob p => glob p path | Like p => like p path end.

(** The truth value of [is_test_node_sql] on a row. *)
Definition is_test_node_sql_holds (is_test : bool) (name path : string) : bool :=
  is_test || glob "test_*" name || glob "*Test" name || glob "*Tests" name
  || existsb (leg_holds path) test_path_legs.
Definition prod_filter_holds (is_test : bool) (name path : string) : bool :=
  negb is_test && negb (glob "test_*" name)
  && negb (existsb (leg_holds path) test_path_legs).
Definition test_source_holds (is_test : bool) (name path : string) : bool :=
  is_test || glob "test_*" name || existsb (leg_holds path) test_path_legs.
End SqlMeaning.

(** ** Dead code *)

Section DeadCode.
(** [name.chars().next().is_some_and(char::is_uppercase)] *)
Context (first_char_uppercase : string → bool).

Definition is_dead_code_exported (has_export_edge : bool)
    (code_content file_path name : string) : bool :=
  has_export_edge || starts_with "pub " code_content || starts_with "pub(" code_content
  || (ends_with ".go" file_path && first_char_uppercase name).
End DeadCode.

Definition default_dead_code_ignores : list string := ["claude-plugin/"; "benches/"].

(** ** Resolution noise *)

Definition CROSS_FILE_CALL_NOISE : list string :=
  ["new"; "default"; "from"; "into"; "as_str"; "to_string"; "clone"; "fmt"; "display";
   "drop"; "try_from"; "try_into"; "as_ref"; "as_mut"; "borrow"; "borrow_mut"; "deref";
   "deref_mut"; "eq"; "ne"; "cmp"; "partial_cmp"; "hash"; "serialize"; "deserialize";
   "next"; "iter"; "into_iter"; "build"; "builder"; "len"; "is_empty"; "unwrap";
   "unwrap_or"; "unwrap_or_else"; "unwrap_or_default"; "expect"; "ok"; "err"; "map";
   "map_err"; "and_then"; "or_else"; "filter"; "flatten"; "push"; "pop"; "insert";
   "remove"; "contains"; "get"; "to_owned"; "to_vec"; "collect"; "join"; "flush"; "close";
   "read"; "write"].
Definition JS_CALL_NOISE_EXEMPT : list string :=
  ["insert"; "remove"; "contains"].
Definition PY_BUILTIN_VALUE_METHODS : list string :=
  ["capitalize"; "casefold"; "center"; "encode"; "endswith"; "expandtabs"; "find";
   "format_map"; "isalnum"; "isalpha"; "isascii"; "isdecimal"; "isdigit"; "isidentifier";
   "islower"; "isnumeric"; "isprintable"; "isspace"; "istitle"; "isupper"; "ljust";
   "lower"; "lstrip"; "maketrans"; "partition"; "removeprefix"; "removesuffix"; "rfind";
   "rindex"; "rjust"; "rpartition"; "rsplit"; "rstrip"; "splitlines"; "startswith";
   "strip"; "swapcase"; "title"; "translate"; "upper"; "zfill"; "difference";
   "difference_update"; "intersection"; "intersection_update"; "isdisjoint"; "issubset";
   "issuperset"; "symmetric_difference"; "symmetric_difference_update"; "union";
   "as_posix"; "as_uri"; "chmod"; "exists"; "expanduser"; "glob"; "is_absolute"; "is_dir";
   "is_file"; "is_mount"; "is_symlink"; "iterdir"; "joinpath"; "lstat"; "mkdir";
   "read_bytes"; "read_text"; "readlink"; "relative_to"; "rglob"; "rmdir"; "samefile";
   "symlink_to"; "touch"; "unlink"; "with_name"; "with_stem"; "with_suffix";
   "write_bytes"; "write_text"; "search"; "fullmatch"; "findall"; "finditer"; "sub";
   "subn"; "groupdict"; "astimezone"; "isoformat"; "strftime"; "timestamp"; "weekday";
   "isoweekday"].

Definition is_cross_file_call_noise (name language : string) : bool :=
  if String.eqb language "php" then false
  else if one_of ["javascript"; "typescript"; "tsx"] language
  then negb (one_of JS_CALL_NOISE_EXEMPT name) && one_of CROSS_FILE_CALL_NOISE name
  else one_of CROSS_FILE_CALL_NOISE name.

Definition PYTHON_TYPE_REFERENCE_NOISE : list string :=
  ["str"; "int"; "float"; "bool"; "bytes"; "None"; "object"; "list"; "dict"; "set";
   "tuple"; "frozenset"; "complex"; "type"; "Any"; "List"; "Dict"; "Set"; "Tuple";
   "FrozenSet"; "Optional"; "Union"; "Callable"; "Sequence"; "Iterable"; "Iterator";
   "Mapping"; "MutableMapping"; "Type"; "ClassVar"; "Final"; "Literal"; "Annotated";
   "NoReturn"; "Self"].
Definition PYTHON_FRAMEWORK_DECORATORS : list string :=
  ["@field_validator"; "@model_validator"; "@field_serializer"; "@model_serializer";
   "@computed_field"; "@validator"; "@root_validator"; "@pytest.fixture"; "@fixture";
   "@property"; "@cached_property"; "@functools.cached_property"; "@abstractmethod";
   "@overload"; "@ui.refreshable"; "@ui.page"].
Definition GO_TYPE_REFERENCE_NOISE : list string :=
  ["bool"; "string"; "error"; "any"; "rune"; "byte"; "uintptr"; "int"; "int8"; "int16";
   "int32"; "int64"; "uint"; "uint8"; "uint16"; "uint32"; "uint64"; "float32"; "float64";
   "complex64"; "complex128"; "comparable"].
Definition JAVA_TYPE_REFERENCE_NOISE : list string :=
  ["String"; "Object"; "Integer"; "Long"; "Double"; "Float"; "Boolean"; "Character";
   "Byte"; "Short"; "Number"; "Void"; "Class"; "Exception"; "RuntimeException";
   "Throwable"; "Error"; "Comparable"; "Runnable"; "Thread"; "Iterable"; "Override";
   "Deprecated"; "SuppressWarnings"; "List"; "ArrayList"; "LinkedList"; "Map"; "HashMap";
   "TreeMap"; "LinkedHashMap"; "Set"; "HashSet"; "TreeSet"; "Collection"; "Optional";
   "Iterator"; "Stream"].

(** * Properties *)

(** ** What SQLite documents of its pattern operators

    A [GLOB] pattern built of literal segments between [*]s matches the strings
    that consist of the segments, in order, with anything between them; [LIKE]
    does the same for [%], comparing ASCII letters without case. *)

Fixpoint seg_match (segs : list string) (s : string) : Prop :=
  match segs with
  | [] => False
  | [w] => s = w
  | w :: ws => ∃ m rest, s = w +:+ m +:+ rest ∧ seg_match ws rest
  end.

Definition glob_literal (c : ascii) : bool :=
  negb (existsb (Ascii.eqb c) ["*"; "?"; "["]%char).
Definition like_literal (c : ascii) : bool :=
  negb (existsb (Ascii.eqb c) ["%"; "_"]%char).

Class SqlPatterns (glob like : string → string → bool) : Prop := {
  glob_spec segs s :
    segs ≠ [] → Forall (λ w, str_forall glob_literal w = true) segs →
    glob (join "*" segs) s = true ↔ seg_match segs s;
  like_spec segs s :
    segs ≠ [] → Forall (λ w, str_forall like_literal w = true) segs →
    like (join "%" segs) s = true
    ↔ seg_match (to_ascii_lowercase <$> segs) (to_ascii_lowercase s);
}.

Lemma seg_match_prefix p s : seg_match [p; ""] s ↔ starts_with p s = true.
Proof.
  rewrite starts_with_spec. simpl. split.
  - intros (m & _ & -> & ->). eauto.
  - intros [t ->]. exists t, "". by rewrite str_app_nil_r.
Qed.
Lemma seg_match_suffix q s : seg_match [""; q] s ↔ ends_with q s = true.
Proof.
  rewrite ends_with_spec. simpl. split.
  - intros (m & _ & -> & ->). eauto.
  - intros [t ->]. by exists t, q.
Qed.
Lemma seg_match_contains w s : seg_match [""; w; ""] s ↔ contains w s = true.
Proof.
  rewrite contains_spec. simpl. split.
  - intros (m & _ & -> & m' & _ & -> & ->). exists m, m'. by rewrite str_app_nil_r.
  - intros (a & b & ->). exists a, (w +:+ b). split; [done|].
    exists b, "". by rewrite str_app_nil_r.
Qed.

(** A short suffix of a concatenation is a suffix of its right part. *)
Lemma ends_with_app_r q s t :
  String.length q ≤ String.length t → ends_with q (s +:+ t) = ends_with q t.
Proof.
  intros Hl. induction s as [|c s IH]; [done|]. rewrite <-IH. unfold ends_with. simpl.
  destruct (String.eqb_spec (String c (s +:+ t)) q) as [<-|].
  - exfalso. simpl in Hl. rewrite str_length_app in Hl. lia.
  - by destruct (strip_suffix q (s +:+ t)).
Qed.

Lemma ends_with_app_long q s t :
  String.length q ≤ String.length t → ends_with q (s +:+ t) = true →
  ∃ m, t = m +:+ q.
Proof. intros ?. rewrite ends_with_app_r by done. apply ends_with_spec. Qed.

(** Refute an equation between a concrete string and [u +:+ q]. *)
Ltac str_absurd u := repeat (destruct u as [|? u]; simplify_eq/=).

(** [starts_with("test_") && ends_with(".py")] is [GLOB 'test_*.py']: the two
    affixes cannot overlap. *)
Lemma seg_match_test_py s :
  seg_match ["test_"; ".py"] s ↔ starts_with "test_" s = true ∧ ends_with ".py" s = true.
Proof.
  rewrite starts_with_spec. simpl. split.
  - intros (m & _ & -> & ->). split; [eauto|]. apply ends_with_spec. by exists ("test_" +:+ m).
  - intros [[t ->] He]. destruct t as [|c1 [|c2 [|c3 t]]];
      [apply ends_with_spec in He as [u Hu]; exfalso; str_absurd u..|].
    destruct (ends_with_app_long ".py" "test_" (String c1 (String c2 (String c3 t))))
      as [m Hm]; [simpl; lia|done|]. exists m, ".py". by rewrite Hm.
Qed.

Lemma seg_match_slash_test_py s :
  seg_match [""; "/test_"; ".py"] s
  ↔ contains "/test_" s = true ∧ ends_with ".py" s = true.
Proof.
  rewrite contains_spec. simpl. split.
  - intros (a & _ & -> & m & _ & -> & ->). split; [by exists a, (m +:+ ".py")|].
    apply ends_with_spec. exists (a +:+ "/test_" +:+ m). by rewrite !str_app_assoc.
  - intros [(a & b & ->) He]. exists a, ("/test_" +:+ b). split; [done|].
    destruct b as [|c1 [|c2 [|c3 b]]];
      [rewrite ends_with_app_r in He by (simpl; lia);
       apply ends_with_spec in He as [u Hu]; exfalso; str_absurd u..|].
    replace (a +:+ _) with ((a +:+ "/test_") +:+ String c1 (String c2 (String c3 b)))
      in He by by rewrite str_app_assoc.
    destruct (ends_with_app_long ".py" (a +:+ "/test_") (String c1 (String c2 (String c3 b))))
      as [m Hm]; [simpl; lia|done|]. exists m, ".py". by rewrite Hm.
Qed.

Section SqlLemmas.
Context (glob like : string → string → bool) `{!SqlPatterns glob like}.

Lemma glob_prefix p s :
  str_forall glob_literal p = true → glob (p +:+ "*") s = starts_with p s.
Proof.
  intros Hp. apply eq_iff_eq_true. rewrite <-seg_match_prefix.
  rewrite <-(glob_spec [p; ""]) by (done || by repeat constructor). simpl.
  by destruct p.
Qed.
Lemma glob_suffix q s :
  str_forall glob_literal q = true → glob ("*" +:+ q) s = ends_with q s.
Proof.
  intros Hq. apply eq_iff_eq_true. rewrite <-seg_match_suffix.
  by rewrite <-(glob_spec [""; q]) by (done || by repeat constructor).
Qed.
Lemma like_prefix p s :
  str_forall like_literal p = true →
  like (p +:+ "%") s = starts_with (to_ascii_lowercase p) (to_ascii_lowercase s).
Proof.
  intros Hp. apply eq_iff_eq_true. rewrite <-seg_match_prefix.
  by rewrite <-(like_spec [p; ""]) by (done || by repeat constructor).
Qed.
Lemma like_contains w s :
  str_forall like_literal w = true →
  like ("%" +:+ w +:+ "%") s = contains (to_ascii_lowercase w) (to_ascii_lowercase s).
Proof.
  intros Hp. apply eq_iff_eq_true. rewrite <-seg_match_contains.
  by rewrite <-(like_spec [""; w; ""]) by (done || by repeat constructor).
Qed.

Lemma existsb_ext_in {A} (f g : A → bool) l :
  (∀ x, x ∈ l → f x = g x) → existsb f l = existsb g l.
Proof.
  induction l as [|x l IH]; intros H; [done|]. simpl.
  rewrite H by by left. f_equal. apply IH. intros; apply H; by right.
Qed.
Lemma existsb_fmap {A B} (f : A → B) (g : B → bool) l :
  existsb g (f <$> l) = existsb (λ x, g (f x)) l.
Proof. induction l as [|x l IH]; [done|]. csimpl. by rewrite <-IH. Qed.
Lemma existsb_concat {A} (g : A → bool) ls :
  existsb g (concat ls) = existsb (existsb g) ls.
Proof. induction ls as [|l ls IH]; [done|]. simpl. by rewrite existsb_app, IH. Qed.

Lemma pascal_legs_hold path :
  existsb (leg_holds glob like path) pascal_legs
  = existsb (λ se, existsb (λ ext, ends_with (se.1 +:+ "." +:+ ext) path) se.2)
      PASCAL_TEST_STEM_EXTS.
Proof.
  unfold pascal_legs. rewrite existsb_concat, existsb_fmap.
  apply existsb_ext_in. intros se Hse. rewrite existsb_fmap.
  apply existsb_ext_in. intros ext Hext. simpl. apply glob_suffix.
  assert (Forall (λ se, Forall (λ ext, str_forall glob_literal (se.1 +:+ "." +:+ ext)
    = true) se.2) PASCAL_TEST_STEM_EXTS) as Hall by by vm_compute; repeat constructor.
  rewrite Forall_forall in Hall. specialize (Hall se Hse).
  rewrite Forall_forall in Hall. by apply Hall.
Qed.

Lemma infix_legs_hold path :
  existsb (leg_holds glob like path) infix_legs
  = existsb (λ ext, ends_with ("_test." +:+ ext) path) INFIX_TEST_EXTS.
Proof.
  unfold infix_legs. rewrite existsb_fmap. apply existsb_ext_in. intros ext Hext.
  simpl. apply (glob_suffix ("_test." +:+ ext)).
  assert (Forall (λ ext, str_forall glob_literal ("_test." +:+ ext) = true)
    INFIX_TEST_EXTS) as Hall by by vm_compute; repeat constructor.
  rewrite Forall_forall in Hall. by apply Hall.
Qed.

Lemma dir_legs_hold path :
  existsb (leg_holds glob like path) dir_legs
  = (let lower := to_ascii_lowercase path in
     starts_with "tests/" lower || starts_with "test/" lower
     || contains "/tests/" lower || contains "/test/" lower).
Proof.
  simpl. rewrite (like_prefix "tests/"), (like_prefix "test/"), (like_contains "/tests/"),
    (like_contains "/test/") by done.
  by rewrite orb_false_r, !orb_assoc.
Qed.

Lemma pytest_legs_hold path :
  existsb (leg_holds glob like path) pytest_legs
  = ends_with ".py" path
    && (starts_with "test_" path || contains "/test_" path
        || ends_with "conftest.py" path).
Proof.
  simpl. rewrite orb_false_r, (glob_suffix "conftest.py") by done.
  assert (glob "test_*.py" path = starts_with "test_" path && ends_with ".py" path) as ->.
  { apply eq_iff_eq_true. rewrite andb_true_iff, <-seg_match_test_py.
    by rewrite <-(glob_spec ["test_"; ".py"]) by (done || by repeat constructor). }
  assert (glob "*/test_*.py" path = contains "/test_" path && ends_with ".py" path) as ->.
  { apply eq_iff_eq_true. rewrite andb_true_iff, <-seg_match_slash_test_py.
    by rewrite <-(glob_spec [""; "/test_"; ".py"]) by (done || by repeat constructor). }
  destruct (ends_with "conftest.py" path) eqn:E.
  - apply ends_with_spec in E as [t ->].
    replace "conftest.py" with ("conftest" +:+ ".py") by done.
    rewrite <-str_app_assoc, (ends_with_app_r ".py") by done.
    by rewrite !orb_true_r.
  - destruct (ends_with ".py" path), (starts_with "test_" path),
      (contains "/test_" path); done.
Qed.

Lemma fixed_legs_hold path :
  existsb (leg_holds glob like path) fixed_legs
  = starts_with "benches/" path || starts_with "bench/" path
    || contains "__tests__/" path || ends_with "/tests.rs" path
    || ends_with ".test.ts" path || ends_with ".test.js" path
    || ends_with ".test.tsx" path || ends_with ".test.jsx" path
    || ends_with ".spec.ts" path || ends_with ".spec.js" path
    || ends_with ".spec.tsx" path || ends_with ".spec.jsx" path.
Proof.
  simpl. rewrite (glob_prefix "benches/"), (glob_prefix "bench/") by done.
  assert (glob "*__tests__/*" path = contains "__tests__/" path) as ->.
  { apply eq_iff_eq_true. rewrite <-seg_match_contains.
    by rewrite <-(glob_spec [""; "__tests__/"; ""]) by (done || by repeat constructor). }
  rewrite (glob_suffix "/tests.rs"), (glob_suffix ".test.ts"), (glob_suffix ".test.js"),
    (glob_suffix ".test.tsx"), (glob_suffix ".test.jsx"), (glob_suffix ".spec.ts"),
    (glob_suffix ".spec.js"), (glob_suffix ".spec.tsx"), (glob_suffix ".spec.jsx") by done.
  by rewrite orb_false_r, !orb_assoc.
Qed.

Lemma test_path_legs_hold path :
  existsb (leg_holds glob like path) test_path_legs = is_test_path path.
Proof.
  unfold test_path_legs, is_test_path. rewrite !existsb_app.
  rewrite pascal_legs_hold, infix_legs_hold, dir_legs_hold, pytest_legs_hold,
    fixed_legs_hold. cbv zeta.
  repeat match goal with |- context [if ?b then _ else _] => destruct b end;
    rewrite ?orb_true_r, ?orb_false_l; done.
Qed.

Lemma test_name_glob name : glob "test_*" name = starts_with "test_" name.
Proof. by apply (glob_prefix "test_"). Qed.
End SqlLemmas.

(** *** A matcher that behaves as documented

    Literal characters and one wildcard: what the theorems below are
    instantiated with. *)

Fixpoint wild (star : ascii) (p s : string) {struct p} : bool :=
  match p with
  | EmptyString => match s with EmptyString => true | String _ _ => false end
  | String c p' =>
      if Ascii.eqb c star then
        (fix skip (s : string) : bool :=
           wild star p' s || match s with EmptyString => false | String _ s' => skip s' end) s
      else match s with
           | EmptyString => false
           | String d s' => Ascii.eqb c d && wild star p' s'
           end
  end.
Definition glob_model : string → string → bool := wild "*".
Definition like_model (p s : string) : bool :=
  wild "%" (to_ascii_lowercase p) (to_ascii_lowercase s).

Lemma wild_star star p s :
  wild star (String star p) s = true ↔ ∃ m rest, s = m +:+ rest ∧ wild star p rest = true.
Proof.
  cbn [wild]. rewrite Ascii.eqb_refl. induction s as [|c s IH].
  - rewrite orb_false_r. split; [by exists "", ""|].
    intros (m & rest & Hs & ?). destruct m; [by simplify_eq/=|done].
  - rewrite orb_true_iff, IH. split.
    + intros [?|(m & rest & -> & ?)]; [by exists "", (String c s)|].
      by exists (String c m), rest.
    + intros ([|c' m] & rest & Hs & ?); simplify_eq/=; [by left|]. right. by exists m, rest.
Qed.

Lemma wild_literal star w p s :
  no_char star w = true →
  wild star (w +:+ p) s = true ↔ ∃ rest, s = w +:+ rest ∧ wild star p rest = true.
Proof.
  revert s. induction w as [|c w IH]; intros s Hw.
  - split; [by exists s|]. by intros (? & -> & ?).
  - unfold no_char in Hw. cbn [str_forall] in Hw. bool_prop.
    cbn [String.append wild]. rewrite (Ascii.eqb_sym c star) in *.
    match goal with |- context [if Ascii.eqb ?a ?b then _ else _] =>
      replace (Ascii.eqb a b) with false by (destruct (Ascii.eqb a b); done) end.
    destruct s as [|d s]; [split; [done|by intros (? & ? & ?)]|].
    rewrite andb_true_iff, IH by done. destruct (Ascii.eqb_spec c d) as [->|Hne].
    + split; [intros [_ (r & -> & ?)]; by exists r|].
      intros (r & Hs & ?). simplify_eq/=. split; [done|by exists r].
    + split; [by intros [? _]|]. intros (r & Hs & ?). by simplify_eq/=.
Qed.

Lemma wild_spec star segs s :
  segs ≠ [] → Forall (λ w, no_char star w = true) segs →
  wild star (join (String star "") segs) s = true ↔ seg_match segs s.
Proof.
  intros Hne Hall. revert s Hne. induction Hall as [|w segs Hw Hall IH]; intros s Hne; [done|].
  destruct segs as [|w' segs].
  - simpl. rewrite <-(str_app_nil_r w) at 1. rewrite wild_literal by done. split.
    + intros (rest & -> & Hr). destruct rest; [by rewrite str_app_nil_r|done].
    + intros ->. exists "". by rewrite str_app_nil_r.
  - rewrite join_cons by done. rewrite wild_literal by done.
    change (String star "" +:+ join (String star "") (w' :: segs))
      with (String star (join (String star "") (w' :: segs))).
    setoid_rewrite wild_star. setoid_rewrite IH; [|done]. split.
    + intros (? & -> & m & rest & -> & ?). by exists m, rest.
    + intros (m & rest & -> & ?). exists (m +:+ rest). split; [done|]. by exists m, rest.
Qed.

Lemma str_forall_impl (f g : ascii → bool) s :
  (∀ c, f c = true → g c = true) → str_forall f s = true → str_forall g s = true.
Proof.
  intros Hfg. induction s as [|c s IH]; [done|]. simpl. intros H; bool_prop.
  rewrite Hfg by done. by apply IH.
Qed.

Lemma to_ascii_lowercase_join sep segs :
  to_ascii_lowercase (join sep segs)
  = join (to_ascii_lowercase sep) (to_ascii_lowercase <$> segs).
Proof.
  induction segs as [|w [|w' segs] IH]; [done|done|].
  rewrite fmap_cons, !join_cons by done. by rewrite !to_ascii_lowercase_app, IH.
Qed.

Lemma no_percent_lower c :
  negb (Ascii.eqb "%" c) = true → negb (Ascii.eqb "%" (ascii_lower c)) = true.
Proof. by destruct c as [[] [] [] [] [] [] [] []]. Qed.

Lemma no_char_lowercase w :
  no_char "%" w = true → no_char "%" (to_ascii_lowercase w) = true.
Proof.
  unfold no_char. induction w as [|c w IH]; [done|].
  cbn [str_forall to_ascii_lowercase]. rewrite !andb_true_iff. intros [Hc Hw].
  split; [by apply no_percent_lower|by apply IH].
Qed.

#[export] Instance sql_patterns_model : SqlPatterns glob_model like_model.
Proof.
  split; intros segs s Hne Hall.
  - apply wild_spec; [done|]. eapply Forall_impl; [exact Hall|].
    intros w. apply str_forall_impl. by intros [[] [] [] [] [] [] [] []].
  - unfold like_model. rewrite to_ascii_lowercase_join.
    apply (wild_spec "%"); [by destruct segs|]. apply Forall_fmap.
    eapply Forall_impl; [exact Hall|]. intros w Hw. apply no_char_lowercase.
    revert Hw. apply str_forall_impl. by intros [[] [] [] [] [] [] [] []].
Qed.

(** ** Classification *)

(** The SQL classifier of a node row agrees with the Rust one on every
    flag, name and path: the predicate [is_test_node_sql] emits is true of a row
    exactly when [is_test_node] says so, for SQLite's pattern operators. *)
Theorem is_test_node_sql_parity glob like is_test name path :
  SqlPatterns glob like →
  is_test_node_sql_holds glob like is_test name path = is_test_node is_test name path.
Proof.
  intros Hsql. unfold is_test_node_sql_holds, is_test_node, is_test_symbol.
  rewrite (test_path_legs_hold glob like), (test_name_glob glob like).
  rewrite (glob_suffix glob like "Test"), (glob_suffix glob like "Tests") by done.
  by rewrite !orb_assoc.
Qed.

Lemma is_test_node_sql_parity_witness :
  is_test_node_sql_holds glob_model like_model false "Test_x" "src/Tests/Api/AuthTests.cs"
  = is_test_node false "Test_x" "src/Tests/Api/AuthTests.cs".
Proof. apply is_test_node_sql_parity, sql_patterns_model. Defined.

(** The edge-level production filter and its test counterpart are exact
    complements, and the filter never excludes a source that the node classifier
    calls production. *)
Theorem prod_filter_sound glob like is_test name path :
  SqlPatterns glob like →
  prod_filter_holds glob like is_test name path
    = negb (test_source_holds glob like is_test name path)
  ∧ (prod_filter_holds glob like is_test name path = false →
     is_test_node is_test name path = true).
Proof.
  intros Hsql. unfold prod_filter_holds, test_source_holds. split.
  { by rewrite !negb_orb. }
  rewrite (test_path_legs_hold glob like), (test_name_glob glob like).
  unfold is_test_node, is_test_symbol. intros H.
  destruct is_test, (starts_with "test_" name), (is_test_path path); try done;
    by rewrite !orb_true_r.
Qed.

Lemma prod_filter_sound_witness :
  prod_filter_holds glob_model like_model false "login" "src/test/java/Auth.java"
    = negb (test_source_holds glob_model like_model false "login" "src/test/java/Auth.java")
  ∧ (prod_filter_holds glob_model like_model false "login" "src/test/java/Auth.java" = false →
     is_test_node false "login" "src/test/java/Auth.java" = true).
Proof. apply prod_filter_sound, sql_patterns_model. Defined.

Example parity_corpus_size :
  length (filter (λ p, is_test_path p = true) TEST_PATH_PARITY_CORPUS) = 27.
Proof. by vm_compute. Qed.

(** ** Pools and risk *)

(** A search pool holds at least what the caller asked for, a filter only
    widens it, and the second, wider pool is capped; the [i64] products do not
    overflow for any request below 2{^59}. *)
Theorem search_pools top_k previous :
  (0 <= top_k < 2 ^ 59)%Z →
  (top_k <= search_fetch_count top_k false <= search_fetch_count top_k true)%Z
  ∧ (top_k < similar_fetch_count top_k)%Z
  ∧ (search_retry_fetch_count previous <= SEARCH_RETRY_FETCH_CAP)%Z
  ∧ ((0 < previous < SEARCH_RETRY_FETCH_CAP)%Z →
     (previous < search_retry_fetch_count previous)%Z).
Proof.
  intros Hk. unfold search_fetch_count, similar_fetch_count, search_retry_fetch_count,
    wrap_i64, saturating_i64, SEARCH_FILTER_OVERFETCH, SEARCH_FILTER_FETCH_FLOOR,
    SEARCH_BASE_OVERFETCH, SEARCH_FETCH_FLOOR, SIMILAR_OVERFETCH,
    SEARCH_EXHAUSTED_RETRY_OVERFETCH, SEARCH_RETRY_FETCH_CAP.
  rewrite !Z.mod_small by lia. lia.
Qed.

Lemma search_pools_witness :
  (20 <= search_fetch_count 20 false <= search_fetch_count 20 true)%Z
  ∧ (20 < similar_fetch_count 20)%Z
  ∧ (search_retry_fetch_count 80 <= SEARCH_RETRY_FETCH_CAP)%Z
  ∧ ((0 < 80 < SEARCH_RETRY_FETCH_CAP)%Z → (80 < search_retry_fetch_count 80)%Z).
Proof. apply (search_pools 20 80). lia. Defined.

Definition risk_order (r : string) : nat :=
  if String.eqb r "LOW" then 0 else if String.eqb r "MEDIUM" then 1 else 2.

Lemma compute_risk_level_mono p p' r r' b b' :
  p ≤ p' → r ≤ r' → (b = true → b' = true) →
  risk_order (compute_risk_level p r b) ≤ risk_order (compute_risk_level p' r' b').
Proof.
  intros Hp Hr Hb. unfold compute_risk_level.
  destruct b; [rewrite (Hb eq_refl), !orb_true_r; done|].
  destruct (10 <? p) eqn:E1, (3 <=? r) eqn:E2, (3 <? p) eqn:E3, (0 <? r) eqn:E4,
    (10 <? p') eqn:E5, (3 <=? r') eqn:E6, b', (3 <? p') eqn:E7, (0 <? r') eqn:E8;
    bool_prop; simpl; try (vm_compute; lia); lia.
Qed.

Lemma compute_risk_level_cases p r b :
  compute_risk_level p r b = "LOW" ∨ compute_risk_level p r b = "MEDIUM"
  ∨ compute_risk_level p r b = "HIGH".
Proof. unfold compute_risk_level. repeat case_match; auto. Qed.

Lemma compute_risk_level_breaking p r : compute_risk_level p r true = "HIGH".
Proof. unfold compute_risk_level. by rewrite !orb_true_r. Qed.

(** The risk level is monotone: more production callers, more routes or a
    breaking change never lower it; a breaking change is always HIGH, and without
    callers, routes or a breaking change it is LOW. *)
Theorem compute_risk_level_monotone p p' r r' b b' :
  p ≤ p' → r ≤ r' → (b = true → b' = true) →
  risk_order (compute_risk_level p r b) ≤ risk_order (compute_risk_level p' r' b')
  ∧ compute_risk_level p r true = "HIGH"
  ∧ compute_risk_level 0 0 false = "LOW".
Proof.
  intros Hp Hr Hb. split_and!;
    [by apply compute_risk_level_mono|apply compute_risk_level_breaking|done].
Qed.

Lemma compute_risk_level_monotone_witness :
  risk_order (compute_risk_level 2 0 false) ≤ risk_order (compute_risk_level 5 1 false)
  ∧ compute_risk_level 2 0 true = "HIGH"
  ∧ compute_risk_level 0 0 false = "LOW".
Proof. apply compute_risk_level_monotone; [lia|lia|done]. Defined.

(** Filter words are accepted case-insensitively and canonically: for ASCII
    input, [normalize_relation] answers exactly the lower-cased word when it is
    [all] or a relation of the graph, and the answer is a fixed point of the
    normalisation. *)
Theorem normalize_relation_canonical to_lowercase input r :
  (∀ s, str_forall is_ascii s = true → to_lowercase s = to_ascii_lowercase s) →
  str_forall is_ascii input = true →
  normalize_relation to_lowercase input = Some r
  ↔ r = to_ascii_lowercase input ∧ r ∈ "all" :: RELATION_FILTER_VOCAB.
Proof.
  intros Hlower Hin. unfold normalize_relation. rewrite Hlower by done.
  destruct (String.eqb_spec (to_ascii_lowercase input) "all") as [->|Hne].
  { split; [intros [= <-]; split; [done|by left]|by intros [-> _]]. }
  split.
  - intros Hf. apply find_some in Hf as [Hr Heq]. apply String.eqb_eq in Heq as ->.
    split; [done|]. right. by apply list_elem_of_In.
  - intros [-> [?|Hr]%elem_of_cons]; [done|].
    destruct (find _ RELATION_FILTER_VOCAB) as [r'|] eqn:Hf.
    + apply find_some in Hf as [_ Heq]. apply String.eqb_eq in Heq. by subst.
    + apply list_elem_of_In in Hr. eapply find_none in Hf; [|exact Hr].
      by rewrite String.eqb_refl in Hf.
Qed.

Lemma normalize_relation_canonical_witness :
  normalize_relation to_ascii_lowercase "Routes_To" = Some "routes_to"
  ↔ "routes_to" = to_ascii_lowercase "Routes_To" ∧ "routes_to" ∈ "all" :: RELATION_FILTER_VOCAB.
Proof. apply normalize_relation_canonical; done. Defined.
