(* ===== verification/Budget.v ===== *)
(** * Budgeted output (src/src/budget.rs)

    The caller names a size in tokens; a surface splits its answer into units
    and [fit] picks a level for each, so that the rendered answer fits.  A
    panic (an index out of range) is [None].  [render] is a parameter: the
    surfaces' callbacks render the answer for a choice of levels, and what they
    return depends on the levels alone. *)

From S2P Require Import Prelude Str Domain.

(** ** Levels and steps *)

Inductive Level := Full | Skeleton | Dropped.
#[export] Instance Level_eq_dec : EqDecision Level.
Proof. solve_decision. Defined.

(** [derive(PartialOrd, Ord)]: a later variant is greater (and smaller on
    screen). *)
Definition level_rank (l : Level) : nat :=
  match l with Full => 0 | Skeleton => 1 | Dropped => 2 end.
Definition level_ltb (a b : Level) : bool := level_rank a <? level_rank b.
Definition level_max (a b : Level) : Level := if level_ltb a b then b else a.
Definition level_le (a b : Level) : Prop := level_rank a ≤ level_rank b.

Definition Step : Type := nat * Level.

Definition MIN_BUDGET_TOKENS : N := 100.
Definition MAX_BUDGET_TOKENS : N := 100000.
Definition FILE_SHARE_PERCENT : N := 70.
Definition USIZE_MAX : N := 2 ^ 64 - 1.

(** [tokens.saturating_mul(CHARS_PER_TOKEN)] on a 64-bit target. *)
Definition budget_bytes (tokens : N) : N := N.min (tokens * CHARS_PER_TOKEN) USIZE_MAX.

Definition standard_steps (order : list nat) (has_skeleton : nat → bool) : list Step :=
  ((λ u, (u, Skeleton)) <$> filter (λ u, has_skeleton u = true) order)
  ++ ((λ u, (u, Dropped)) <$> order).

(** One turn of the loop in [levels_after] and [cap_group]: a step never
    raises a level; an unknown unit panics. *)
Definition apply_step (levels : list Level) (s : Step) : option (list Level) :=
  cur ← levels !! s.1;
  Some (if level_ltb cur s.2 then <[s.1 := s.2]> levels else levels).

Fixpoint apply_steps (levels : list Level) (steps : list Step) : option (list Level) :=
  match steps with
  | [] => Some levels
  | s :: steps' => levels' ← apply_step levels s; apply_steps levels' steps'
  end.

Definition levels_after (initial : list Level) (steps : list Step) (n : nat) :
    option (list Level) :=
  apply_steps initial (take (Nat.min n (length steps)) steps).

(** ** Fitting *)

Record Fitted (T : Type) := mkFitted {
  output : T;
  levels : list Level;
  bytes : N;
  over_budget : bool;
}.
Arguments mkFitted {T}.
Arguments output {T}.
Arguments levels {T}.
Arguments bytes {T}.
Arguments over_budget {T}.

Definition degraded {T} (f : Fitted T) : bool :=
  existsb (λ l, bool_decide (l ≠ Full)) (levels f).
Definition count {T} (f : Fitted T) (level : Level) : nat :=
  length (filter (λ l, l = level) (levels f)).

Definition FILL_TRIES : nat := 256.

Section Fit.
Context {T : Type} (render : list Level → T * N).

Definition fitted_at (initial : list Level) (steps : list Step) (n : nat) :
    option (Fitted T) :=
  ls ← levels_after initial steps n;
  let r := render ls in Some (mkFitted r.1 ls r.2 false).

Definition set_over (f : Fitted T) (over : bool) : Fitted T :=
  mkFitted (output f) (levels f) (bytes f) over.

(** The bisection: [while hi - lo > 1].  [None] is a panic or no fuel. *)
Fixpoint fit_search (fuel : nat) (initial : list Level) (steps : list Step)
    (budget : N) (lo hi : nat) : option nat :=
  match fuel with
  | 0 => None
  | S fuel' =>
      if 1 <? hi - lo then
        let mid := lo + (hi - lo) / 2 in
        ls ← levels_after initial steps mid;
        if ((render ls).2 <=? budget)%N
        then fit_search fuel' initial steps budget lo mid
        else fit_search fuel' initial steps budget mid hi
      else Some hi
  end.

(** The linear re-check: [inl] the first fit at or after [n], [inr] the last
    rendering when none fits. *)
Fixpoint fit_scan (fuel : nat) (initial : list Level) (steps : list Step)
    (budget : N) (n : nat) : option ((nat * Fitted T) + Fitted T) :=
  match fuel with
  | 0 => None
  | S fuel' =>
      candidate ← fitted_at initial steps n;
      if (bytes candidate <=? budget)%N then Some (inl (n, candidate))
      else if n =? length steps then Some (inr (set_over candidate true))
      else fit_scan fuel' initial steps budget (S n)
  end.

Definition has_skeleton_step (applied : list Step) (u : nat) : bool :=
  existsb (λ s, (s.1 =? u) && bool_decide (s.2 = Skeleton)) applied.

(** The level one undo of [(unit, level)] would give the unit. *)
Definition fill_up (applied : list Step) (initial : list Level) (unit : nat)
    (level : Level) : option Level :=
  let up := match level with
            | Dropped => if has_skeleton_step applied unit then Skeleton else Full
            | _ => Full
            end in
  init ← initial !! unit;
  Some (level_max up init).

Fixpoint fill_loop (initial : list Level) (applied : list Step) (budget : N)
    (todo : list Step) (tries : nat) (best : Fitted T) : option (Fitted T * nat) :=
  match todo with
  | [] => Some (best, tries)
  | (unit, level) :: todo' =>
      if FILL_TRIES <=? tries then Some (best, tries)
      else
        cur ← levels best !! unit;
        if decide (cur ≠ level) then fill_loop initial applied budget todo' tries best
        else
          up ← fill_up applied initial unit level;
          if negb (level_ltb up level)
          then fill_loop initial applied budget todo' tries best
          else
            let ls := <[unit := up]> (levels best) in
            let r := render ls in
            fill_loop initial applied budget todo' (S tries)
              (if (r.2 <=? budget)%N then mkFitted r.1 ls r.2 false else best)
  end.

Definition fill (initial : list Level) (applied : list Step) (budget : N)
    (best : Fitted T) : option (Fitted T * nat) :=
  fill_loop initial applied budget (reverse applied) 0 best.

Definition fit (initial : list Level) (steps : list Step) (budget : N) :
    option (Fitted T) :=
  first ← fitted_at initial steps 0;
  if (bytes first <=? budget)%N || (length steps =? 0) then
    Some (set_over first (budget <? bytes first)%N)
  else
    hi ← fit_search (S (length steps)) initial steps budget 0 (length steps);
    r ← fit_scan (S (length steps)) initial steps budget hi;
    match r with
    | inr f => Some f
    | inl (n, fitted) => p ← fill initial (take n steps) budget fitted; Some p.1
    end.
End Fit.

(** ** Groups and orders *)

Section CapGroup.
Context (has_skeleton : nat → bool) (cost : nat → Level → N).

(** The summed cost of the group; an unknown unit panics. *)
Fixpoint group_total (group : list nat) (ls : list Level) : option N :=
  match group with
  | [] => Some 0%N
  | u :: g => l ← ls !! u; t ← group_total g ls; Some (cost u l + t)%N
  end.

Fixpoint cap_loop (group : list nat) (cap : N) (steps : list Step)
    (ls : list Level) : option (list Level) :=
  match steps with
  | [] => Some ls
  | s :: steps' =>
      ls' ← apply_step ls s;
      t ← group_total group ls';
      if (t <=? cap)%N then Some ls' else cap_loop group cap steps' ls'
  end.

Definition cap_group (ls : list Level) (group : list nat) (cap : N) :
    option (list Level) :=
  t ← group_total group ls;
  if (t <=? cap)%N then Some ls
  else cap_loop group cap (standard_steps group has_skeleton) ls.
End CapGroup.

(** [key(a).cmp(&key(b)).then(b.cmp(&a))] *)
Definition importance_cmp {K} (kcmp : K → K → comparison) (key : nat → K) :
    nat → nat → comparison :=
  cmp_then (cmp_by key kcmp) (cmp_rev Nat.compare).
Definition order_by_importance {K} (kcmp : K → K → comparison) (n : nat) (key : nat → K) :
    list nat :=
  sort_cmp (importance_cmp kcmp key) (seq 0 n).

(** [(u64, usize, usize)] triples, compared lexicographically as [sort] does. *)
Definition U64_MOD : N := 2 ^ 64.
Definition triple_cmp : N * nat * nat → N * nat * nat → comparison :=
  cmp_then (cmp_by (λ t, t.1.1) N.compare)
    (cmp_then (cmp_by (λ t, t.1.2) Nat.compare) (cmp_by snd Nat.compare)).
Definition interleave_key (len i : nat) : N :=
  (((N.of_nat i * 1000000) mod U64_MOD) / N.of_nat len)%N.
Definition interleave_section (s : nat) (order : list nat) : list (N * nat * nat) :=
  let len := Nat.max (length order) 1 in
  imap (λ i u, (interleave_key len i, s, u)) order.
Definition interleave (sections : list (list nat)) : list nat :=
  snd <$> sort_cmp triple_cmp (concat (imap interleave_section sections)).

(** ** Runnable commands *)

Record NextCommand := mkNextCommand { words : list string }.

Definition NextCommand_new (subcommand : string) : NextCommand :=
  mkNextCommand ["code-graph-mcp"; subcommand].
Definition arg (c : NextCommand) (word : string) : NextCommand :=
  mkNextCommand (words c ++ [word]).
Definition flag_if (c : NextCommand) (on : bool) (flag : string) : NextCommand :=
  if on then arg c flag else c.
Definition opt (c : NextCommand) (flag : string) (value : option string) : NextCommand :=
  match value with Some v => arg (arg c flag) v | None => c end.
Definition path (c : NextCommand) (p : string) : NextCommand :=
  if starts_with "-" p then arg c ("./" +:+ p) else arg c p.
Definition opt_path (c : NextCommand) (flag : string) (value : option string) : NextCommand :=
  match value with Some v => path (arg c flag) v | None => c end.

Definition shell_safe (b : ascii) : bool :=
  is_ascii_alphanumeric b
  || existsb (Ascii.eqb b) ["_"; "-"; "."; "/"; ":"; "="; "@"; "+"; ","]%char.

Definition shell_word (w : string) : string :=
  if negb (String.eqb w "") && str_forall shell_safe w then w
  else String ch_quote
         (replace_char ch_quote
            (String ch_quote (String ch_backslash (String ch_quote (String ch_quote ""))))
            w +:+ String ch_quote "").

(** [Display]: the quoted words, joined by spaces. *)
Definition NextCommand_display (c : NextCommand) : string :=
  join " " (shell_word <$> words c).

(** [… budget N tokens: parts], zero counts skipped; [parts] are
    (count, singular, plural). *)
Definition notice (indent : string) (tokens : nat)
    (parts : list (nat * string * string)) : option string :=
  let said := (λ p, dec_of_nat p.1.1 +:+ " " +:+ (if p.1.1 =? 1 then p.1.2 else p.2))
                <$> filter (λ p, 0 < p.1.1) parts in
  match said with
  | [] => None
  | _ => Some (indent +:+ "… budget " +:+ dec_of_nat tokens +:+ " tokens: "
               +:+ join ", " said)
  end.

(** * Lemmas *)

#[export] Instance level_le_preorder : PreOrder level_le.
Proof. split; unfold level_le; [intros ?; lia|intros ???; lia]. Qed.
#[export] Instance level_le_antisymm : AntiSymm (=) level_le.
Proof. intros [] []; unfold level_le; simpl; naive_solver lia. Qed.

Lemma level_ltb_spec a b : level_ltb a b = true ↔ level_rank a < level_rank b.
Proof. apply Nat.ltb_lt. Qed.
Lemma level_max_le_l a b : level_le a (level_max a b).
Proof. by destruct a, b; unfold level_le; simpl; lia. Qed.
Lemma level_max_le_r a b : level_le b (level_max a b).
Proof. by destruct a, b; unfold level_le; simpl; lia. Qed.
#[export] Hint Resolve level_max_le_l level_max_le_r : cg.

(** [levels_le a b]: [b] shows no unit at a fuller level than [a]. *)
Abbreviation levels_le := (Forall2 level_le).
(** Every step names a unit of the answer. *)
Abbreviation steps_in n := (Forall (λ s : Step, s.1 < n)).

Lemma levels_le_insert ls i a b :
  ls !! i = Some a → level_le a b → levels_le ls (<[i := b]> ls).
Proof.
  intros Hi Hab. rewrite <-(list_insert_id ls i a) at 1 by done.
  apply Forall2_insert; [reflexivity|done].
Qed.

Lemma apply_step_total ls s :
  s.1 < length ls →
  ∃ ls', apply_step ls s = Some ls' ∧ length ls' = length ls ∧ levels_le ls ls'
    ∧ (∀ i, i ≠ s.1 → ls' !! i = ls !! i)
    ∧ (∃ l, ls' !! s.1 = Some l ∧ level_le s.2 l).
Proof.
  intros Hs. apply lookup_lt_is_Some in Hs as [cur Hcur].
  unfold apply_step. rewrite Hcur. simpl. eexists; split; [done|].
  destruct (level_ltb cur s.2) eqn:E.
  - apply level_ltb_spec in E. rewrite length_insert.
    split_and!; [done| |intros; by rewrite list_lookup_insert_ne|].
    + eapply levels_le_insert; [done|]. unfold level_le. lia.
    + exists s.2. rewrite list_lookup_insert_eq by eauto using lookup_lt_Some.
      split; [done|reflexivity].
  - split_and!; [done|reflexivity|done|]. exists cur. split; [done|].
    apply not_true_iff_false in E. rewrite level_ltb_spec in E.
    unfold level_le. lia.
Qed.

Lemma apply_steps_total ls steps :
  steps_in (length ls) steps →
  ∃ ls', apply_steps ls steps = Some ls' ∧ length ls' = length ls ∧ levels_le ls ls'
    ∧ (∀ s, s ∈ steps → ∃ l, ls' !! s.1 = Some l ∧ level_le s.2 l).
Proof.
  revert ls. induction steps as [|s steps IH]; intros ls Hin; simpl.
  { exists ls. split_and!; [done|done|reflexivity|by intros ? ?%elem_of_nil]. }
  inversion_clear Hin as [|? ? Hs Hss].
  destruct (apply_step_total ls s Hs) as (ls1 & -> & Hl1 & Hle1 & _ & (l & Hl & Hsl)).
  simpl. destruct (IH ls1) as (ls2 & -> & Hl2 & Hle2 & Hsat); [by rewrite Hl1|].
  exists ls2. split_and!; [done|congruence|by etrans|].
  intros s' Hs'. apply elem_of_cons in Hs' as [->|Hs']; [|by apply Hsat].
  destruct (Forall2_lookup_l _ _ _ _ _ Hle2 Hl) as (l2 & Hl2' & ?).
  exists l2. split; [done|by etrans].
Qed.

Lemma apply_steps_app ls s1 s2 :
  apply_steps ls (s1 ++ s2) = (ls' ← apply_steps ls s1; apply_steps ls' s2).
Proof.
  revert ls. induction s1 as [|s s1 IH]; intros ls; simpl; [done|].
  destruct (apply_step ls s); simpl; [apply IH|done].
Qed.

Lemma levels_after_total initial steps n :
  steps_in (length initial) steps →
  ∃ ls, levels_after initial steps n = Some ls ∧ length ls = length initial
    ∧ levels_le initial ls.
Proof.
  intros Hin. destruct (apply_steps_total initial (take (n `min` length steps) steps))
    as (ls & ? & ? & ? & _); [by apply Forall_take|eauto].
Qed.

Lemma levels_after_mono initial steps n m a b :
  steps_in (length initial) steps → n ≤ m →
  levels_after initial steps n = Some a → levels_after initial steps m = Some b →
  levels_le a b.
Proof.
  unfold levels_after. intros Hin Hnm Ha Hb.
  set (n' := n `min` length steps) in *. set (m' := m `min` length steps) in *.
  replace (take m' steps) with (take n' steps ++ take (m' - n') (drop n' steps)) in Hb.
  2:{ rewrite take_take_drop. f_equal. lia. }
  rewrite apply_steps_app, Ha in Hb. simpl in Hb.
  destruct (apply_steps_total initial (take n' steps)) as (a' & Ha' & Hl & _);
    [by apply Forall_take|].
  rewrite Ha in Ha'. injection Ha' as <-.
  destruct (apply_steps_total a (take (m' - n') (drop n' steps)))
    as (b' & Hb' & _ & ? & _); [rewrite Hl; by apply Forall_take, Forall_drop|].
  congruence.
Qed.

Lemma levels_after_min initial steps n :
  levels_after initial steps (n `min` length steps) = levels_after initial steps n.
Proof. unfold levels_after. by rewrite <-Nat.min_assoc, Nat.min_id. Qed.

Lemma levels_after_ge initial steps n :
  length steps ≤ n → levels_after initial steps n = levels_after initial steps (length steps).
Proof. intros. unfold levels_after. by rewrite Nat.min_r, Nat.min_id by done. Qed.

Section FitLemmas.
Context {T : Type} (render : list Level → T * N).
Context (initial : list Level) (steps : list Step) (budget : N).
Context (Hin : steps_in (length initial) steps).

(** The answer after [n] steps is at most the budget. *)
Definition fits_at (n : nat) : Prop :=
  ∃ ls, levels_after initial steps n = Some ls ∧ ((render ls).2 <= budget)%N.

(** What every [Fitted] the code builds satisfies: its output and size are
    the rendering of its levels, and no unit is fuller than it started. *)
Definition rendered (f : Fitted T) : Prop :=
  render (levels f) = (output f, bytes f) ∧ levels_le initial (levels f).

Lemma fitted_at_total n :
  ∃ f, fitted_at render initial steps n = Some f ∧ rendered f ∧ over_budget f = false
    ∧ levels_after initial steps n = Some (levels f)
    ∧ ((bytes f <= budget)%N ↔ fits_at n).
Proof.
  destruct (levels_after_total initial steps n Hin) as (ls & Hls & ? & ?).
  unfold fitted_at, fits_at, rendered. rewrite Hls. simpl. eexists; split; [done|].
  simpl. split_and!; [by destruct (render ls)|done|done|done|].
  split; [by eexists|]. by intros (? & [= <-] & ?).
Qed.

Lemma fit_search_ok fuel lo hi :
  hi - lo < fuel → lo < hi → ¬ fits_at lo →
  ∃ m, fit_search render fuel initial steps budget lo hi = Some m
    ∧ lo < m ≤ hi ∧ ¬ fits_at (m - 1) ∧ (m = hi ∨ fits_at m).
Proof.
  revert lo hi. induction fuel as [|fuel IH]; intros lo hi Hf Hlt Hlo; [lia|].
  cbn [fit_search]. destruct (1 <? hi - lo) eqn:E; bool_prop; cycle 1.
  { exists hi. replace (hi - 1) with lo by lia. split_and!; auto with lia. }
  pose proof (Nat.div_lt (hi - lo) 2 ltac:(lia) ltac:(lia)).
  assert (1 ≤ (hi - lo) / 2) by (apply Nat.div_le_lower_bound; lia).
  set (mid := lo + (hi - lo) / 2) in *.
  destruct (levels_after_total initial steps mid Hin) as (ls & Hls & _ & _).
  rewrite Hls. simpl. destruct (((render ls).2 <=? budget)%N) eqn:Eb; bool_prop.
  - destruct (IH lo mid) as (m & -> & ? & ? & Hm); [lia|lia|done|].
    exists m. split_and!; [done|lia|lia|done|]. right.
    destruct Hm as [->|?]; [by exists ls|done].
  - destruct (IH mid hi) as (m & -> & ? & ? & Hm); [lia|lia| |].
    { intros (ls' & ? & ?). simplify_eq. lia. }
    exists m. split_and!; [done|lia|lia|done|done].
Qed.

Lemma fit_scan_ok fuel n :
  n ≤ length steps → length steps - n < fuel →
  ∃ r, fit_scan render fuel initial steps budget n = Some r
    ∧ match r with
      | inl (m, f) =>
          n ≤ m ≤ length steps ∧ fitted_at render initial steps m = Some f
          ∧ (bytes f <= budget)%N ∧ (∀ k, n ≤ k < m → ¬ fits_at k)
      | inr f =>
          (∃ g, fitted_at render initial steps (length steps) = Some g
            ∧ f = set_over g true)
          ∧ (∀ k, n ≤ k ≤ length steps → ¬ fits_at k)
      end.
Proof.
  revert n. induction fuel as [|fuel IH]; intros n Hn Hf; [lia|]. cbn [fit_scan].
  destruct (fitted_at_total n) as (f & Hfn & _ & _ & _ & Hfit). rewrite Hfn. simpl.
  destruct (bytes f <=? budget)%N eqn:Eb; bool_prop.
  { eexists; split; [done|]. simpl. split_and!; [lia|lia|done|done|lia]. }
  assert (¬ fits_at n) by (rewrite <-Hfit; lia).
  destruct (n =? length steps) eqn:En; bool_prop.
  - subst n. eexists; split; [done|]. simpl. split; [by exists f|].
    intros k ?. by replace k with (length steps) by lia.
  - destruct (IH (S n)) as (r & -> & Hr); [lia|lia|]. exists r. split; [done|].
    assert (∀ (P : nat → Prop) k, n ≤ k → P n → (S n ≤ k → P k) → P k) as Hk.
    { intros P k ???. destruct (decide (k = n)) as [->|]; [done|auto with lia]. }
    destruct r as [[m g]|g].
    + destruct Hr as (? & ? & ? & Hno). split_and!; [lia|lia|done|done|].
      intros k [??]. apply (Hk (λ k, ¬ fits_at k)); [lia|done|]. auto with lia.
    + destruct Hr as [? Hno]. split; [done|]. intros k [??].
      apply (Hk (λ k, ¬ fits_at k)); [lia|done|]. auto with lia.
Qed.

Lemma fill_up_spec applied u level init :
  initial !! u = Some init →
  ∃ up, fill_up applied initial u level = Some up ∧ level_le init up.
Proof.
  intros Hi. unfold fill_up. rewrite Hi. simpl. eexists. split; [done|].
  apply level_max_le_r.
Qed.

Lemma fill_loop_ok applied todo tries best :
  steps_in (length initial) todo → tries ≤ FILL_TRIES →
  rendered best → (bytes best <= budget)%N → over_budget best = false →
  ∃ f t, fill_loop render initial applied budget todo tries best = Some (f, t)
    ∧ t ≤ FILL_TRIES ∧ rendered f ∧ (bytes f <= budget)%N ∧ over_budget f = false
    ∧ levels_le (levels f) (levels best).
Proof.
  revert tries best. induction todo as [|[u level] todo IH]; intros tries best Htodo
    Htries Hr Hb Ho; cbn [fill_loop].
  { exists best, tries. split_and!; try done. }
  inversion_clear Htodo as [|? ? Hu Htodo']. simpl in Hu.
  destruct (FILL_TRIES <=? tries) eqn:Et; bool_prop.
  { exists best, tries. split_and!; try done. }
  destruct Hr as [Hren Hle].
  apply lookup_lt_is_Some in Hu as [init Hinit].
  destruct (Forall2_lookup_l _ _ _ _ _ Hle Hinit) as (cur & Hcur & _).
  rewrite Hcur. simpl. case_decide as Hne; [by apply IH|].
  subst cur.
  destruct (fill_up_spec applied u level init Hinit) as (up & -> & Hup). simpl.
  destruct (level_ltb up level) eqn:El; simpl; [|by apply IH].
  apply level_ltb_spec in El.
  set (ls := <[u := up]> (levels best)).
  assert (levels_le initial ls) as Hls.
  { rewrite <-(list_insert_id initial u init) by done. by apply Forall2_insert. }
  assert (levels_le ls (levels best)) as Hls'.
  { rewrite <-(list_insert_id (levels best) u level) by done. apply Forall2_insert;
      [reflexivity|unfold level_le; lia]. }
  destruct ((render ls).2 <=? budget)%N eqn:Eb; bool_prop.
  - destruct (IH (S tries) (mkFitted (render ls).1 ls (render ls).2 false))
      as (f & t & -> & ? & ? & ? & ? & ?);
      [done|lia|split; simpl; [by destruct (render ls)|done]|done|done|].
    exists f, t. split_and!; try done. simpl in *. by etrans.
  - apply IH; [done|lia|by split|done|done].
Qed.

#[local] Arguments fit_search : simpl never.
#[local] Arguments fit_scan : simpl never.

(** The two ways [fit] ends: within the budget at (or above) the levels of
    some prefix, the one before which does not fit; or over it with every step
    applied. *)
Lemma fit_cases :
  ∃ f, fit render initial steps budget = Some f ∧ rendered f
    ∧ ((∃ n ls, levels_after initial steps n = Some ls ∧ levels_le (levels f) ls
          ∧ (bytes f <= budget)%N ∧ over_budget f = false
          ∧ (n = 0 ∨ ¬ fits_at (n - 1)))
       ∨ (levels_after initial steps (length steps) = Some (levels f)
          ∧ over_budget f = true ∧ (budget < bytes f)%N ∧ ¬ fits_at (length steps))).
Proof.
  destruct (fitted_at_total 0) as (f0 & H0 & Hr0 & Ho0 & Hl0 & Hfit0).
  unfold fit. rewrite H0. simpl.
  destruct (bytes f0 <=? budget)%N eqn:Eb; simpl; bool_prop.
  { exists (set_over f0 (budget <? bytes f0)%N). split; [done|]. split; [done|].
    left. exists 0, (levels f0). simpl. split_and!; auto.
    - reflexivity.
    - apply N.ltb_ge. lia. }
  destruct (length steps =? 0) eqn:Es; bool_prop.
  { exists (set_over f0 (budget <? bytes f0)%N). split; [done|]. split; [done|].
    right. simpl. rewrite Es. split_and!; auto.
    - apply N.ltb_lt. lia.
    - rewrite <-Hfit0. lia. }
  destruct (fit_search_ok (S (length steps)) 0 (length steps))
    as (hi & -> & Hhi & Hprev & _); [lia|lia|rewrite <-Hfit0; lia|]. simpl.
  destruct (fit_scan_ok (S (length steps)) hi) as (r & -> & Hr); [lia|lia|]. simpl.
  destruct r as [[n f]|f].
  - destruct Hr as (Hn & Hfn & Hb & Hno).
    destruct (fitted_at_total n) as (f' & Hf' & Hr' & Ho' & Hl' & _). simplify_eq.
    destruct (fill_loop_ok (take n steps) (reverse (take n steps)) 0 f)
      as (g & t & Hg & _ & ? & ? & ? & ?); try done;
      [by apply Forall_reverse, Forall_take|lia|].
    unfold fill. rewrite Hg. simpl. exists g. split; [done|]. split; [done|].
    left. exists n, (levels f). split_and!; try done. right.
    destruct (decide (n = hi)) as [->|]; [done|]. apply Hno. lia.
  - destruct Hr as [(g & Hg & ->) Hno].
    destruct (fitted_at_total (length steps)) as (f' & Hf' & Hr' & Ho' & Hl' & Hfit').
    simplify_eq. exists (set_over g true). split; [done|]. split; [done|]. right.
    assert (¬ fits_at (length steps)) as Hl by (apply Hno; lia).
    split_and!; try done. rewrite <-Hfit' in Hl. simpl. lia.
Qed.
End FitLemmas.

(** ** Fitting: the contract *)

(** [fit] always answers: with steps that name units of the answer it
    neither panics nor runs out of search, what it returns is the rendering of
    the levels it reports, no unit is fuller than the caller's initial level
    nor below the fully degraded one, [over_budget] tells exactly whether the
    size exceeds the budget, and it is set only when even the fully degraded
    answer does not fit. *)
Theorem fit_total {T} (render : list Level → T * N) initial steps budget :
  steps_in (length initial) steps →
  ∃ f all, fit render initial steps budget = Some f
    ∧ levels_after initial steps (length steps) = Some all
    ∧ render (levels f) = (output f, bytes f)
    ∧ levels_le initial (levels f) ∧ levels_le (levels f) all
    ∧ (over_budget f = true ↔ (budget < bytes f)%N)
    ∧ (over_budget f = true → levels f = all).
Proof.
  intros Hin. destruct (fit_cases render initial steps budget Hin)
    as (f & Hf & [Hr Hle] & Hcases).
  destruct (levels_after_total initial steps (length steps) Hin) as (all & Hall & _ & _).
  exists f, all. rewrite Hf. split_and!; try done.
  - destruct Hcases as [(n & ls & Hls & Hle' & _)|(Hls & _)].
    + etrans; [exact Hle'|]. destruct (decide (n ≤ length steps)).
      * by eapply levels_after_mono.
      * rewrite levels_after_ge in Hls by lia. simplify_eq. reflexivity.
    + simplify_eq. reflexivity.
  - destruct Hcases as [(n & ls & _ & _ & Hb & -> & _)|(_ & Ho & ? & _)].
    + split; [done|lia].
    + rewrite Ho. naive_solver.
  - destruct Hcases as [(n & ls & _ & _ & _ & -> & _)|(Hls & _)]; [done|congruence].
Qed.

Lemma fit_total_witness :
  let render (ls : list Level) : unit * N :=
    (tt, foldr (λ l n, n + match l with Full => 30 | Skeleton => 10 | Dropped => 0 end)%N
           0%N ls) in
  let steps := standard_steps [2; 1; 0] (λ _, true) in
  ∃ f all, fit render [Full; Full; Full] steps 50 = Some f
    ∧ levels_after [Full; Full; Full] steps (length steps) = Some all
    ∧ render (levels f) = (output f, bytes f)
    ∧ levels_le [Full; Full; Full] (levels f) ∧ levels_le (levels f) all
    ∧ (over_budget f = true ↔ (50 < bytes f)%N)
    ∧ (over_budget f = true → levels f = all).
Proof.
  intros render steps. apply (fit_total render [Full; Full; Full] steps 50).
  by vm_compute; repeat constructor.
Defined.

(** When applying a step never makes the answer larger, [fit] is within the
    budget whenever some number of steps is, and it shows every unit at least as
    fully as the answer after any number of steps that fits: it degrades no
    more than needed. *)
Theorem fit_minimal {T} (render : list Level → T * N) initial steps budget n ls :
  steps_in (length initial) steps →
  (∀ i j a b, i ≤ j ≤ length steps → levels_after initial steps i = Some a →
     levels_after initial steps j = Some b → ((render b).2 <= (render a).2)%N) →
  levels_after initial steps n = Some ls → ((render ls).2 <= budget)%N →
  ∃ f, fit render initial steps budget = Some f ∧ over_budget f = false
    ∧ (bytes f <= budget)%N ∧ levels_le (levels f) ls.
Proof.
  intros Hin Hmono Hls Hfit. destruct (fit_cases render initial steps budget Hin)
    as (f & Hf & _ & Hcases). exists f. split; [done|].
  assert (∀ k, n ≤ k → fits_at render initial steps budget k) as Hge.
  { intros k Hk. destruct (levels_after_total initial steps k Hin) as (lk & Hlk & _).
    exists lk. split; [done|]. rewrite <-levels_after_min in Hls, Hlk.
    specialize (Hmono (n `min` length steps) (k `min` length steps) ls lk
      ltac:(lia) Hls Hlk). lia. }
  destruct Hcases as [(m & lm & Hlm & Hle & Hb & Ho & Hno)|(_ & _ & _ & Hno)].
  - split_and!; [done|done|]. etrans; [exact Hle|].
    destruct (decide (m ≤ n)) as [Hmn|Hmn]; [by eapply (levels_after_mono initial steps m n)|].
    destruct Hno as [->|Hno]; [lia|]. exfalso. apply Hno, Hge. lia.
  - exfalso. destruct (decide (n ≤ length steps)); [by apply Hno, Hge|].
    apply Hno. rewrite levels_after_ge in Hls by lia. by exists ls.
Qed.

Lemma fit_minimal_witness :
  let render (ls : list Level) : unit * N :=
    (tt, match ls with [Full] => 30%N | [Skeleton] => 10%N | _ => 0%N end) in
  ∃ f, fit render [Full] [(0, Skeleton); (0, Dropped)] 12 = Some f
    ∧ over_budget f = false ∧ (bytes f <= 12)%N ∧ levels_le (levels f) [Skeleton].
Proof.
  intros render. apply (fit_minimal render [Full] [(0, Skeleton); (0, Dropped)] 12 1).
  - by repeat constructor.
  - intros i j a b Hij Ha Hb.
    simpl in Hij. destruct i as [|[|[|i]]], j as [|[|[|j]]]; try lia;
      vm_compute in Ha, Hb; simplify_eq; by vm_compute.
  - done.
  - by vm_compute.
Defined.

(** Without that assumption the search can miss a fit: for a rendering whose
    size dips below the budget after one step only, [fit] returns an answer over
    the budget although the answer after that step fits. *)
Theorem fit_can_miss_a_prefix :
  let render (ls : list Level) : list Level * N :=
    (ls, if decide (ls = [Skeleton; Full]) then 5%N else 100%N) in
  let steps := [(0, Skeleton); (1, Skeleton); (0, Dropped); (1, Dropped)] in
  (∃ ls, levels_after [Full; Full] steps 1 = Some ls ∧ ((render ls).2 <= 50)%N)
  ∧ over_budget <$> fit render [Full; Full] steps 50 = Some true.
Proof. split; [exists [Skeleton; Full]; by vm_compute|by vm_compute]. Qed.

(** ** The standard step order *)

Lemma apply_steps_frame ls steps ls' i :
  apply_steps ls steps = Some ls' → (∀ s, s ∈ steps → s.1 ≠ i) → ls' !! i = ls !! i.
Proof.
  revert ls. induction steps as [|s steps IH]; intros ls Hls Hi; simpl in Hls.
  { by simplify_eq. }
  destruct (apply_step ls s) as [ls1|] eqn:E; [|done]. simpl in Hls.
  rewrite (IH ls1); [|done|intros ??; apply Hi; by right].
  unfold apply_step in E. destruct (ls !! s.1); simpl in E; [|done].
  assert (s.1 ≠ i) by (apply Hi; by left).
  case_match; simplify_eq; [by rewrite list_lookup_insert_ne|done].
Qed.

Lemma apply_steps_skeletons ls steps ls' u :
  (∀ s, s ∈ steps → s.2 = Skeleton) → apply_steps ls steps = Some ls' →
  ls' !! u = Some Dropped → ls !! u = Some Dropped.
Proof.
  revert ls. induction steps as [|s steps IH]; intros ls Hsk Hls Hu; simpl in Hls.
  { by simplify_eq. }
  destruct (apply_step ls s) as [ls1|] eqn:E; [|done]. simpl in Hls.
  specialize (IH ls1 ltac:(intros; apply Hsk; by right) Hls Hu).
  unfold apply_step in E. destruct (ls !! s.1) as [l|] eqn:El; simpl in E; [|done].
  rewrite (Hsk s) in E by (by left). case_match; simplify_eq; [|done].
  destruct (decide (s.1 = u)) as [<-|]; [|by rewrite list_lookup_insert_ne in IH].
  rewrite list_lookup_insert_eq in IH by eauto using lookup_lt_Some. done.
Qed.

Lemma elem_of_standard_steps order has u l :
  (u, l) ∈ standard_steps order has ↔
    u ∈ order ∧ (l = Dropped ∨ (l = Skeleton ∧ has u = true)).
Proof.
  unfold standard_steps. rewrite elem_of_app, !list_elem_of_fmap.
  setoid_rewrite list_elem_of_filter. split.
  - intros [(? & [= <- ->] & ? & ?)|(? & [= <- ->] & ?)]; auto.
  - intros [? [->|[-> ?]]]; [right|left]; eauto.
Qed.

Lemma standard_steps_in n order has :
  Forall (λ u, u < n) order → steps_in n (standard_steps order has).
Proof.
  rewrite !Forall_forall. intros H [u l] [? _]%elem_of_standard_steps. by apply H.
Qed.

(** In the standard order every unit that has a skeleton is shown as one
    before any unit is dropped: at any point of the degradation where some unit
    has been newly dropped, each unit with a skeleton is at a skeleton or below. *)
Theorem skeletons_before_drops initial order has n ls u v :
  Forall (λ u, u < length initial) order →
  levels_after initial (standard_steps order has) n = Some ls →
  ls !! u = Some Dropped → initial !! u ≠ Some Dropped →
  v ∈ order → has v = true →
  ∃ l, ls !! v = Some l ∧ level_le Skeleton l.
Proof.
  intros Hin Hls Hu Hu0 Hv Hhas.
  set (sk := (λ u, (u, Skeleton)) <$> filter (λ u, has u = true) order).
  assert ((v, Skeleton) ∈ sk) as Hvs.
  { apply list_elem_of_fmap. exists v. split; [done|]. by apply list_elem_of_filter. }
  unfold levels_after in Hls. revert Hls.
  set (k := n `min` length (standard_steps order has)). intros Hls.
  destruct (decide (k ≤ length sk)) as [Hk|Hk].
  - destruct Hu0. eapply apply_steps_skeletons; [|exact Hls|exact Hu].
    intros s. unfold standard_steps. fold sk. rewrite take_app_le by done.
    intros Hs. apply (subseteq_take k sk) in Hs.
    apply list_elem_of_fmap in Hs as (? & -> & _). done.
  - destruct (apply_steps_total initial (take k (standard_steps order has)))
      as (ls' & Hls' & _ & _ & Hsat); [by apply Forall_take, standard_steps_in|].
    rewrite Hls in Hls'. injection Hls' as <-.
    apply (Hsat (v, Skeleton)). unfold standard_steps. fold sk.
    rewrite take_app_ge by (apply Nat.lt_le_incl, Nat.nle_gt, Hk). apply elem_of_app. by left.
Qed.

Lemma skeletons_before_drops_witness :
  ∃ l, [Skeleton; Skeleton; Dropped] !! 0 = Some l ∧ level_le Skeleton l.
Proof.
  apply (skeletons_before_drops [Full; Full; Full] [2; 1; 0] (λ _, true) 4
           [Skeleton; Skeleton; Dropped] 2 0); try done; [repeat constructor|].
  by repeat constructor.
Defined.

(** ** Capping one group *)

Section CapLemmas.
Context (has_skeleton : nat → bool) (cost : nat → Level → N).

Lemma group_total_is_Some group ls :
  Forall (λ u, u < length ls) group → ∃ t, group_total cost group ls = Some t.
Proof.
  induction 1 as [|u g Hu _ [t Ht]]; simpl; [by eexists|].
  apply lookup_lt_is_Some in Hu as [l ->]. simpl. rewrite Ht. by eexists.
Qed.

Lemma cap_loop_ok group cap steps ls :
  Forall (λ u, u < length ls) group → steps_in (length ls) steps →
  ∃ ls' t n, cap_loop cost group cap steps ls = Some ls'
    ∧ apply_steps ls (take n steps) = Some ls'
    ∧ group_total cost group ls' = Some t
    ∧ ((t <= cap)%N ∨ n = length steps).
Proof.
  intros Hg Hs. revert ls Hg Hs. induction steps as [|s steps IH]; intros ls Hg Hs; simpl.
  { destruct (group_total_is_Some group ls Hg) as [t Ht].
    exists ls, t, 0. split_and!; auto. }
  inversion_clear Hs as [|? ? Hs1 Hs2].
  destruct (apply_step_total ls s Hs1) as (ls1 & Hls1 & Hl1 & _).
  rewrite Hls1. simpl. destruct (group_total_is_Some group ls1) as [t1 Ht1]; [by rewrite Hl1|].
  rewrite Ht1. simpl. destruct (t1 <=? cap)%N eqn:Et; bool_prop.
  - exists ls1, t1, 1. simpl. rewrite Hls1. auto.
  - destruct (IH ls1) as (ls' & t & n & ? & ? & ? & Hn); [by rewrite Hl1..|].
    exists ls', t, (S n). simpl. rewrite Hls1. split_and!; [done|done|done|].
    destruct Hn as [?| ->]; auto.
Qed.
End CapLemmas.

(** [cap_group] lowers units of the group only, never raises one, leaves
    every other unit alone, and ends with the group's summed cost within the cap
    or with every unit of the group dropped. *)
Theorem cap_group_ok has cost ls group cap :
  Forall (λ u, u < length ls) group →
  ∃ ls' t, cap_group has cost ls group cap = Some ls'
    ∧ group_total cost group ls' = Some t
    ∧ levels_le ls ls' ∧ (∀ i, i ∉ group → ls' !! i = ls !! i)
    ∧ ((t <= cap)%N ∨ ∀ u, u ∈ group → ls' !! u = Some Dropped).
Proof.
  intros Hg. unfold cap_group. destruct (group_total_is_Some cost group ls Hg) as [t0 Ht0].
  rewrite Ht0. simpl. destruct (t0 <=? cap)%N eqn:E0; bool_prop.
  { exists ls, t0. split_and!; auto. reflexivity. }
  pose proof (standard_steps_in (length ls) group has Hg) as Hs.
  destruct (cap_loop_ok cost group cap (standard_steps group has) ls Hg Hs)
    as (ls' & t & n & Hc & Ha & Ht & Hn).
  destruct (apply_steps_total ls (take n (standard_steps group has)))
    as (ls2 & Ha' & _ & Hle & Hsat); [by apply Forall_take|].
  assert (ls2 = ls') as -> by congruence. exists ls', t. split_and!; [done|done|done| |].
  - intros i Hi. eapply apply_steps_frame; [exact Ha|].
    intros [u l] Hul. apply (subseteq_take n) in Hul.
    apply elem_of_standard_steps in Hul as [? _]. simpl. by intros ->.
  - destruct Hn as [?| ->]; [by left|]. right. intros u Hu.
    rewrite firstn_all in Hsat.
    destruct (Hsat (u, Dropped)) as (l & Hl & Hd); [apply elem_of_standard_steps; auto|].
    simpl in Hl, Hd. rewrite Hl. f_equal. apply (anti_symm level_le); [|done].
    destruct l; unfold level_le; simpl; lia.
Qed.

Lemma cap_group_ok_witness :
  ∃ ls' t,
    cap_group (λ _, true) (λ _ l, match l with Full => 30 | Skeleton => 10 | _ => 0 end)%N
      [Full; Full; Full] [2; 0] 25 = Some ls'
    ∧ group_total (λ _ l, match l with Full => 30 | Skeleton => 10 | _ => 0 end)%N
        [2; 0] ls' = Some t
    ∧ levels_le [Full; Full; Full] ls'
    ∧ (∀ i, i ∉ [2; 0] → ls' !! i = [Full; Full; Full] !! i)
    ∧ ((t <= 25)%N ∨ ∀ u, u ∈ [2; 0] → ls' !! u = Some Dropped).
Proof. apply cap_group_ok. by repeat constructor. Defined.

(** ** Interleaving sections *)

#[export] Instance triple_cmp_ok : CmpOk triple_cmp.
Proof. unfold triple_cmp. apply _. Qed.
#[export] Instance triple_cmp_eq : CmpEq triple_cmp.
Proof.
  intros [[a b] c] [[a' b'] c']. unfold triple_cmp, cmp_then, cmp_by. simpl.
  destruct (a ?= a')%N eqn:E1; [|done|done]. destruct (b ?= b') eqn:E2; [|done|done].
  intros E3. apply N.compare_eq in E1. apply Nat.compare_eq in E2, E3. congruence.
Qed.

(** Up to a million units the scaled fractions of a section's positions are
    distinct and increasing, with no wrap-around. *)
Lemma interleave_key_lt len i j :
  (N.of_nat len <= 1000000)%N → i < j → j < len → (interleave_key len i < interleave_key len j)%N.
Proof.
  intros Hlen Hij Hj. unfold interleave_key, U64_MOD.
  rewrite !N.mod_small by lia.
  assert (N.of_nat i * 1000000 / N.of_nat len + 1
          <= N.of_nat j * 1000000 / N.of_nat len)%N; [|lia].
  rewrite <-N.div_add by lia. apply N.Div0.div_le_mono. lia.
Qed.

Lemma interleave_section_sorted_from s len k order :
  k + length order ≤ len → (N.of_nat len <= 1000000)%N →
  StronglySorted (λ x y, cmp_leb triple_cmp x y = true)
    (imap (λ i u, (interleave_key len (k + i), s, u)) order).
Proof.
  revert k. induction order as [|u order IH]; intros k Hk Hlen; [constructor|].
  rewrite imap_cons. constructor.
  - erewrite imap_ext; [apply (IH (S k)); [simpl in Hk; lia|done]|].
    intros i x _. simpl. by replace (S (k + i)) with (k + S i) by lia.
  - rewrite Forall_forall. intros x (i & v & -> & Hi)%elem_of_lookup_imap.
    apply lookup_lt_Some in Hi. simpl in *. unfold cmp_leb, triple_cmp, cmp_then, cmp_by.
    simpl. assert (interleave_key len (k + 0) < interleave_key len (k + S i))%N as Hlt
      by (apply interleave_key_lt; lia).
    by rewrite (proj2 (N.compare_lt_iff _ _) Hlt).
Qed.

Lemma interleave_section_sorted s order :
  (N.of_nat (length order) <= 1000000)%N →
  StronglySorted (λ x y, cmp_leb triple_cmp x y = true) (interleave_section s order).
Proof.
  intros Hlen. apply (interleave_section_sorted_from s _ 0); simpl; [lia|].
  destruct order; simpl in *; lia.
Qed.

Lemma filter_other_sections s k sections :
  s < k →
  filter (λ t, t.1.2 = s) (concat (imap (λ i, interleave_section (k + i)) sections)) = [].
Proof.
  revert k. induction sections as [|o sections IH]; intros k Hk; [done|].
  rewrite imap_cons. simpl. rewrite filter_app.
  erewrite (imap_ext _ (λ i, interleave_section (S k + i))).
  2:{ intros i x _. simpl. by replace (S (k + i)) with (k + S i) by lia. }
  rewrite IH by lia. rewrite app_nil_r.
  apply filter_none.
  intros x (i & v & -> & _)%elem_of_lookup_imap. simpl. lia.
Qed.

Lemma filter_one_section s k sections order :
  k ≤ s → sections !! (s - k) = Some order →
  filter (λ t, t.1.2 = s) (concat (imap (λ i, interleave_section (k + i)) sections))
  = interleave_section s order.
Proof.
  revert k. induction sections as [|o sections IH]; intros k Hk Hs; [done|].
  rewrite imap_cons. simpl. rewrite filter_app.
  erewrite (imap_ext _ (λ i, interleave_section (S k + i))).
  2:{ intros i x _. simpl. by replace (S (k + i)) with (k + S i) by lia. }
  destruct (decide (k = s)) as [->|Hne].
  - rewrite Nat.sub_diag in Hs. injection Hs as ->. rewrite Nat.add_0_r.
    rewrite filter_other_sections, app_nil_r by lia.
    apply filter_all.
    intros x (i & v & -> & _)%elem_of_lookup_imap. done.
  - replace (s - k) with (S (s - S k)) in Hs by lia.
    rewrite (IH (S k)) by (done || lia). rewrite <-(app_nil_l (interleave_section s order)).
    f_equal. apply filter_none.
    intros x (i & v & -> & _)%elem_of_lookup_imap. simpl. lia.
Qed.

(** [interleave] neither loses, adds nor repeats a unit, and it keeps each
    section's own least-important-first order, for sections of up to a million
    units (beyond that the scaled fractions collide). *)
Theorem interleave_keeps_order sections s order :
  sections !! s = Some order → (N.of_nat (length order) <= 1000000)%N →
  interleave sections ≡ₚ concat sections ∧ sublist order (interleave sections).
Proof.
  intros Hs Hlen. unfold interleave.
  set (all := concat (imap interleave_section sections)). split.
  - unfold sort_cmp. rewrite sort_by_perm. unfold all. clear.
    assert (∀ k, snd <$> concat (imap (λ i, interleave_section (k + i)) sections)
                 = concat sections) as H; [|by rewrite <-(H 0)].
    induction sections as [|o sections IH]; intros k; [done|].
    rewrite imap_cons. simpl. rewrite fmap_app. f_equal.
    + unfold interleave_section. rewrite fmap_imap. apply imap_id.
    + erewrite imap_ext; [apply (IH (S k))|].
      intros i x _. simpl. by replace (S (k + i)) with (k + S i) by lia.
  - replace order with (snd <$> interleave_section s order).
    2:{ unfold interleave_section. rewrite fmap_imap. apply imap_id. }
    apply fmap_sublist.
    assert (filter (λ t, t.1.2 = s) (sort_cmp triple_cmp all)
            = interleave_section s order) as <-; [|apply sublist_filter].
    apply (sorted_perm_unique (cmp_leb triple_cmp)).
    + intros x y _ _. unfold cmp_leb. rewrite (cmp_antisym triple_cmp x y).
      destruct (triple_cmp x y) eqn:E; simpl; [|done..]. intros _ _.
      by apply triple_cmp_eq.
    + apply StronglySorted_filter, sort_cmp_sorted; apply _.
    + by apply interleave_section_sorted.
    + unfold sort_cmp. rewrite sort_by_perm. unfold all.
      rewrite <-(filter_one_section s 0 sections order); [done|lia|].
      by rewrite Nat.sub_0_r.
Qed.

Lemma interleave_keeps_order_witness :
  interleave [[0; 1]; [2; 3; 4; 5]] ≡ₚ concat [[0; 1]; [2; 3; 4; 5]]
  ∧ sublist [2; 3; 4; 5] (interleave [[0; 1]; [2; 3; 4; 5]]).
Proof.
  apply (interleave_keeps_order [[0; 1]; [2; 3; 4; 5]] 1); [done|].
  by vm_compute.
Defined.

(** ** Shell quoting

    The specification is a lexer for the quoting rules of a POSIX shell
    (XCU 2.2): words are separated by blanks, a backslash keeps the next
    character, single quotes keep everything up to the next single quote.  A
    character with a special meaning outside quotes is refused. *)

Definition sh_special (c : ascii) : bool :=
  existsb (Ascii.eqb c)
    ["|"; "&"; ";"; "<"; ">"; "("; ")"; "$"; "`"; ch_dquote; "009"; ch_newline;
     "*"; "?"; "["; "]"; "^"; "!"; "#"; "~"; "%"; "{"; "}"]%char.

Inductive sh_mode := ShOut | ShWord | ShQuote | ShEscape.

Fixpoint sh_lex (s : string) (m : sh_mode) (cur : string) (acc : list string) :
    option (list string) :=
  match s with
  | EmptyString =>
      match m with
      | ShOut => Some acc
      | ShWord => Some (acc ++ [cur])
      | _ => None
      end
  | String c s' =>
      match m with
      | ShQuote =>
          if Ascii.eqb c ch_quote then sh_lex s' ShWord cur acc
          else sh_lex s' ShQuote (cur +:+ String c "") acc
      | ShEscape => sh_lex s' ShWord (cur +:+ String c "") acc
      | _ =>
          if Ascii.eqb c ch_space
          then sh_lex s' ShOut "" (match m with ShOut => acc | _ => acc ++ [cur] end)
          else if Ascii.eqb c ch_quote then sh_lex s' ShQuote cur acc
          else if Ascii.eqb c ch_backslash then sh_lex s' ShEscape cur acc
          else if sh_special c then None
          else sh_lex s' ShWord (cur +:+ String c "") acc
      end
  end.
Definition sh_words (s : string) : option (list string) := sh_lex s ShOut "" [].

Lemma shell_safe_plain c :
  shell_safe c = true →
  Ascii.eqb c ch_space = false ∧ Ascii.eqb c ch_quote = false
  ∧ Ascii.eqb c ch_backslash = false ∧ sh_special c = false.
Proof. destruct c as [[] [] [] [] [] [] [] []]; vm_compute; auto. Qed.

Lemma sh_lex_safe w rest cur acc :
  str_forall shell_safe w = true →
  sh_lex (w +:+ rest) ShWord cur acc = sh_lex rest ShWord (cur +:+ w) acc.
Proof.
  revert cur. induction w as [|c w IH]; intros cur; simpl; [by rewrite str_app_nil_r|].
  intros H; bool_prop. destruct (shell_safe_plain c) as (-> & -> & -> & ->); [done|].
  rewrite IH by done. by rewrite str_app_assoc.
Qed.

Lemma sh_lex_quoted w rest cur acc :
  sh_lex (replace_char ch_quote "'\''" w +:+ String ch_quote rest) ShQuote cur acc
  = sh_lex rest ShWord (cur +:+ w) acc.
Proof.
  revert cur. induction w as [|c w IH]; intros cur.
  { by rewrite str_app_nil_r. }
  cbn [replace_char]. destruct (Ascii.eqb_spec ch_quote c) as [<-|Hc].
  - rewrite str_app_assoc. cbn. rewrite IH, str_app_assoc. done.
  - cbn. destruct (Ascii.eqb_spec c ch_quote) as [->|_]; [done|].
    rewrite IH, str_app_assoc. done.
Qed.

Lemma sh_lex_word w rest acc :
  sh_lex (shell_word w +:+ rest) ShOut "" acc = sh_lex rest ShWord w acc.
Proof.
  unfold shell_word. destruct (negb (String.eqb w "") && str_forall shell_safe w) eqn:E.
  - bool_prop. destruct w as [|c w]; [done|]. simpl in *. bool_prop.
    destruct (shell_safe_plain c) as (-> & -> & -> & ->); [done|].
    by rewrite sh_lex_safe.
  - cbn. rewrite str_app_assoc. cbn. apply (sh_lex_quoted w rest "" acc).
Qed.

(** Quoting is faithful: a POSIX shell reading the printed next command gives
    the program exactly the words the command was built from, whatever bytes
    they hold (empty words, blanks and quotes included). *)
Theorem next_command_roundtrip c : sh_words (NextCommand_display c) = Some (words c).
Proof.
  unfold sh_words, NextCommand_display. destruct c as [ws]. simpl.
  assert (∀ acc, ws ≠ [] →
    sh_lex (join " " (shell_word <$> ws)) ShOut "" acc = Some (acc ++ ws)) as H.
  { induction ws as [|w ws IH]; intros acc Hne; [done|].
    destruct ws as [|w' ws].
    - simpl. rewrite <-(str_app_nil_r (shell_word w)). by rewrite sh_lex_word.
    - rewrite fmap_cons, join_cons by done. rewrite sh_lex_word. cbn [String.append sh_lex].
      cbn [Ascii.eqb]. simpl (Ascii.eqb ch_space ch_space).
      change (sh_lex (join " " (shell_word <$> w' :: ws)) ShOut "" (acc ++ [w])
              = Some (acc ++ w :: w' :: ws)).
      rewrite IH by done. by rewrite <-app_assoc. }
  destruct ws as [|w ws]; [done|]. by apply (H []).
Qed.
