(* ===== verification/Tables.v ===== *)
(** * The index database, as the queries read it

    The tables [files], [nodes] and [edges] of [storage/schema.rs], restricted to
    the columns the modelled queries read.  A table is the list of its rows; SQL
    promises no row order without [ORDER BY], so results are compared up to
    permutation ([≡ₚ]) and [db_equiv] relates two databases that hold the same
    rows.  Statements are assumed to run: the [rusqlite] error channel is not
    modelled. *)

From S2P Require Import Prelude Str Domain.

Record FileRow := mkFile {
  f_id : Z;
  f_path : string;
  f_language : option string;
}.

Record NodeRow := mkNode {
  n_id : Z;
  n_file_id : Z;
  n_type : string;
  n_name : string;
  n_qualified_name : option string;
  n_start_line : Z;
  n_end_line : Z;
  n_is_test : bool;
}.

Record EdgeRow := mkEdge {
  e_source_id : Z;
  e_target_id : Z;
  e_relation : string;
  e_metadata : option string;
  e_confidence : string;
}.

Record Database := mkDb {
  db_files : list FileRow;
  db_nodes : list NodeRow;
  db_edges : list EdgeRow;
}.

(** [id INTEGER PRIMARY KEY] of [files] and [nodes]. *)
Definition db_keys_ok (db : Database) : Prop :=
  NoDup (f_id <$> db_files db) ∧ NoDup (n_id <$> db_nodes db).

#[export] Instance db_keys_ok_dec db : Decision (db_keys_ok db).
Proof. unfold db_keys_ok. apply _. Defined.

(** The same rows, stored in any order. *)
#[export] Instance db_equiv : Equiv Database := λ a b,
  db_files a ≡ₚ db_files b ∧ db_nodes a ≡ₚ db_nodes b ∧ db_edges a ≡ₚ db_edges b.

#[export] Instance db_equiv_equivalence : Equivalence (≡@{Database}).
Proof.
  split.
  - by intros ?.
  - by intros ?? (? & ? & ?).
  - intros ??? (? & ? & ?) (? & ? & ?). repeat split; by etrans.
Qed.

#[export] Instance db_nodes_proper : Proper ((≡) ==> (≡ₚ)) db_nodes.
Proof. by intros ?? (? & ? & ?). Qed.
#[export] Instance db_files_proper : Proper ((≡) ==> (≡ₚ)) db_files.
Proof. by intros ?? (? & ? & ?). Qed.
#[export] Instance db_edges_proper : Proper ((≡) ==> (≡ₚ)) db_edges.
Proof. by intros ?? (? & ? & ?). Qed.

#[export] Instance db_keys_ok_proper : Proper ((≡) ==> iff) db_keys_ok.
Proof. intros ?? (Hf & Hn & _). unfold db_keys_ok. by rewrite Hf, Hn. Qed.

(** [FROM nodes n JOIN files f ON f.id = n.file_id WHERE p] *)
Definition select_node_files (p : NodeRow → FileRow → bool) (db : Database)
    : list (NodeRow * FileRow) :=
  n ← db_nodes db;
  pair n <$> filter (λ f, f_id f = n_file_id n ∧ p n f = true) (db_files db).

Lemma elem_of_select_node_files p db n f :
  (n, f) ∈ select_node_files p db
  ↔ n ∈ db_nodes db ∧ f ∈ db_files db ∧ f_id f = n_file_id n ∧ p n f = true.
Proof.
  unfold select_node_files. rewrite list_elem_of_bind. split.
  - intros (n' & (f' & [= <- <-] & Hf)%list_elem_of_fmap & Hn).
    apply list_elem_of_filter in Hf as [[? ?] ?]. done.
  - intros (? & ? & ? & ?). exists n. split; [|done]. apply list_elem_of_fmap.
    exists f. split; [done|]. by apply list_elem_of_filter.
Qed.

#[export] Instance select_node_files_proper p : Proper ((≡) ==> (≡ₚ)) (select_node_files p).
Proof.
  intros a b (Hf & Hn & _). unfold select_node_files. rewrite Hn.
  apply bind_perm_ext. intros n. by rewrite Hf.
Qed.

(** With the primary keys in place a node joins at most one file. *)
Lemma select_node_files_unique p db n f n' f' :
  db_keys_ok db →
  (n, f) ∈ select_node_files p db → (n', f') ∈ select_node_files p db →
  n_id n = n_id n' → n = n' ∧ f = f'.
Proof.
  intros [Hfk Hnk] (Hn & Hf & Hj & _)%elem_of_select_node_files
    (Hn' & Hf' & Hj' & _)%elem_of_select_node_files Hid.
  assert (n = n') as <- by (by apply (NoDup_key_inj n_id (db_nodes db))).
  split; [done|]. apply (NoDup_key_inj f_id (db_files db)); [done..|congruence].
Qed.
