(* ===== verification/CallGraph.v ===== *)
(** * The call-graph traversal ([graph/query.rs])

    A breadth-first walk over the [calls] edges, one SQL query per level and per
    chunk of the frontier, with a global visited map.  The result of a handler is
    an [option]: [None] is a panic (the [rank_of] index) or a loop that did not
    end in its fuel, and the theorems show neither happens. *)

From S2P Require Import Prelude Str Domain Tables.

Definition CALL_GRAPH_MAX_DEPTH : Z := 10.
Definition CALL_GRAPH_ROW_LIMIT : nat := 200.
Definition FRONTIER_CHUNK : nat := 400.

Inductive Direction := Callees | Callers.

#[export] Instance direction_eq_dec : EqDecision Direction.
Proof. solve_decision. Defined.

Definition direction_as_str (d : Direction) : string :=
  match d with Callees => "callees" | Callers => "callers" end.

Record CallGraphNode := mkCallGraphNode {
  node_id : Z;
  name : string;
  node_type : string;
  file_path : string;
  depth : Z;
  direction : Direction;
  parent_id : option Z;
  qualified_name : option string;
  is_test : bool;
}.

Definition identity (n : CallGraphNode) : string := default (name n) (qualified_name n).

(** The [HashMap] of identity sets, and the keys with two or more. *)
Definition names_shared_by_distinct_symbols (rows : list (string * string * string))
    : gset (string * string) :=
  let identities :=
    foldl (λ (m : gmap (string * string) (gset string)) '(nm, ident, file),
             <[(nm, file) := {[ident]} ∪ default ∅ (m !! (nm, file))]> m) ∅ rows in
  dom (filter (λ p : (string * string) * gset string, 1 < size p.2) identities).

Record CallGraphResult := mkCallGraphResult {
  cg_nodes : list CallGraphNode;
  limit_hit : bool;
  depth_capped : bool;
  effective_max_depth : Z;
  requested_max_depth : Z;
  suppressed_ambiguous : nat;
}.

Inductive CallGraphSeed :=
| SeedName (nm : string) (file : option string)
| SeedNode (id : Z).

(** [predicate]: the [WHERE] clause of a seed. A NULL [qualified_name] makes its
    leg NULL, which neither selects the row nor blocks the other leg. *)
Definition seed_matches (s : CallGraphSeed) (n : NodeRow) (f : FileRow) : bool :=
  match s with
  | SeedName nm file =>
      (String.eqb (n_name n) nm
       || (match n_qualified_name n with Some q => String.eqb q nm | None => false end
           && negb (String.eqb (n_type n) "module")))
      && negb (String.eqb (f_path f) EXTERNAL_FILE_PATH)
      && match file with None => true | Some p => String.eqb (f_path f) p end
  | SeedNode id => Z.eqb (n_id n) id && negb (String.eqb (f_path f) EXTERNAL_FILE_PATH)
  end.

(** [CASE e.confidence WHEN 'extracted' THEN 2 WHEN 'inferred' THEN 1 ELSE 0 END] *)
Definition confidence_case (c : string) : Z :=
  if String.eqb c "extracted" then 2 else if String.eqb c "inferred" then 1 else 0.

Definition from_col (d : Direction) (e : EdgeRow) : Z :=
  match d with Callees => e_source_id e | Callers => e_target_id e end.
Definition to_col (d : Direction) (e : EdgeRow) : Z :=
  match d with Callees => e_target_id e | Callers => e_source_id e end.

(** [SELECT n.id FROM nodes n JOIN files f .. WHERE predicate ORDER BY n.id] *)
Definition seed_ids (db : Database) (s : CallGraphSeed) : list Z :=
  sort_cmp Z.compare ((λ p, n_id p.1) <$> select_node_files (seed_matches s) db).

(** [node_id -> (depth, parent)] *)
Abbreviation Seen := (gmap Z (Z * option Z)).

Section Level.
Context (db : Database) (dir : Direction) (min_rank : Z).

Definition edge_followed (e : EdgeRow) : bool :=
  String.eqb (e_relation e) REL_CALLS && (min_rank <=? confidence_case (e_confidence e))%Z.

(** [SELECT e.from, e.to FROM edges e JOIN nodes t ON t.id = e.to
     WHERE e.from IN (chunk) AND e.relation = ? AND gate] *)
Definition expand_chunk (chunk : list Z) : list (Z * Z) :=
  e ← filter (λ e, from_col dir e ∈ chunk ∧ edge_followed e = true) (db_edges db);
  (λ _, (from_col dir e, to_col dir e)) <$> filter (λ t, n_id t = to_col dir e) (db_nodes db).

(** The rows of one chunk, with the rank of the parent that reached each child;
    [rank_of[&parent]] panics on a missing key. *)
Definition discover_chunk (seen : Seen) (base : nat) (chunk : list Z)
    : option (list (Z * nat * Z)) :=
  let rank_of := hash_map (imap (λ i id, (id, base + i)) chunk) in
  mapM (λ '(parent, child), r ← rank_of !! parent; Some (child, r, parent))
       (filter (λ row, seen !! row.2 = None) (expand_chunk chunk)).

Definition discover (seen : Seen) (frontier : list Z) : option (list (Z * nat * Z)) :=
  found ← mapM id (imap (λ offset chunk, discover_chunk seen (offset * FRONTIER_CHUNK) chunk)
                        (chunks FRONTIER_CHUNK frontier));
  Some (mjoin found).

Definition discovered_cmp : Z * nat * Z → Z * nat * Z → comparison :=
  cmp_then (cmp_by (λ x, x.1.2) Nat.compare) (cmp_by (λ x, x.1.1) Z.compare).

(** Keep the first hit per child. *)
Fixpoint admit_children (d : Z) (found : list (Z * nat * Z)) (seen : Seen) : Seen * list Z :=
  match found with
  | [] => (seen, [])
  | (child, _, parent) :: found' =>
      match seen !! child with
      | Some _ => admit_children d found' seen
      | None =>
          let '(seen', next) := admit_children d found' (<[child := (d, Some parent)]> seen) in
          (seen', child :: next)
      end
  end.

(** [while depth <= max_depth && !frontier.is_empty()] *)
Fixpoint bfs (fuel : nat) (max_depth d : Z) (frontier : list Z) (seen : Seen) : option Seen :=
  if (d <=? max_depth)%Z && negb (bool_decide (frontier = [])) then
    match fuel with
    | O => None
    | S fuel' =>
        discovered ← discover seen frontier;
        let '(seen', next) := admit_children d (sort_cmp discovered_cmp discovered) seen in
        bfs fuel' max_depth (d + 1) next seen'
    end
  else Some seen.
End Level.

(** ** Emitting the rows *)

Abbreviation NodeMeta := (string * string * string * bool * option string)%type.

Definition node_meta (p : NodeRow * FileRow) : Z * NodeMeta :=
  (n_id p.1, (n_name p.1, n_type p.1, f_path p.2, n_is_test p.1, n_qualified_name p.1)).

Definition meta_map (db : Database) (ids : list Z) : gmap Z NodeMeta :=
  hash_map (chunk ← chunks FRONTIER_CHUNK ids;
            node_meta <$> select_node_files (λ n _, bool_decide (n_id n ∈ chunk)) db).

(** [SELECT target_id, COUNT(..) FROM edges WHERE target_id IN (chunk) AND
     relation = ? GROUP BY target_id] *)
Definition count_callers (db : Database) (id : Z) : Z :=
  Z.of_nat (length (filter (λ e, e_target_id e = id ∧ e_relation e = REL_CALLS) (db_edges db))).

Definition caller_counts (db : Database) (ids : list Z) : gmap Z Z :=
  hash_map (chunk ← chunks FRONTIER_CHUNK ids;
            (λ id, (id, count_callers db id)) <$>
            remove_dups (e_target_id <$>
              filter (λ e, e_target_id e ∈ chunk ∧ e_relation e = REL_CALLS) (db_edges db))).

Abbreviation Ranked := (Z * Z * Z * CallGraphNode)%type.

Definition ranked_cmp : Ranked → Ranked → comparison :=
  cmp_then (cmp_by (λ r, r.1.1.1) Z.compare)
           (cmp_then (cmp_by (λ r, r.1.1.2) Z.compare) (cmp_by (λ r, r.1.2) Z.compare)).

Definition emit_row (meta : gmap Z NodeMeta) (counts : gmap Z Z) (dir : Direction)
    (entry : Z * (Z * option Z)) : option Ranked :=
  let '(id, (node_depth, parent)) := entry in
  '(nm, ty, path, test, qn) ← meta !! id;
  let callers := default 0%Z (counts !! id) in
  Some (node_depth, (- callers)%Z, id,
        mkCallGraphNode id nm ty path node_depth dir parent qn test).

(** Every row of the traversal, in the order the truncation uses. *)
Definition ranked_rows (db : Database) (dir : Direction) (seen : Seen) : list Ranked :=
  let ids := (map_to_list seen).*1 in
  let meta := meta_map db ids in
  let counts := caller_counts db ids in
  sort_cmp ranked_cmp (omap (emit_row meta counts dir) (map_to_list seen)).

Definition traverse (db : Database) (s : CallGraphSeed) (max_depth : Z) (dir : Direction)
    (min_rank : Z) : option Seen :=
  let max_depth := Z.min max_depth CALL_GRAPH_MAX_DEPTH in
  let frontier := seed_ids db s in
  bfs db dir min_rank (Z.to_nat CALL_GRAPH_MAX_DEPTH) max_depth 1 frontier
      (hash_map ((λ id, (id, (0%Z, None))) <$> frontier)).

Definition query_direction_seeded (db : Database) (s : CallGraphSeed) (max_depth : Z)
    (dir : Direction) (min_rank : Z) : option (list CallGraphNode * bool) :=
  if bool_decide (seed_ids db s = []) then Some ([], false)
  else
    seen ← traverse db s max_depth dir min_rank;
    let rows := ranked_rows db dir seen in
    Some (snd <$> take CALL_GRAPH_ROW_LIMIT rows, CALL_GRAPH_ROW_LIMIT <=? length rows).

(** ** The entry points *)

Definition merge_results (callees callers : list CallGraphNode) : list CallGraphNode :=
  sort_cmp (cmp_by depth Z.compare) (callees ++ callers).

(** Edges of [SELECT COUNT(..) FROM edges e JOIN nodes n ON n.id = e.seed_col
    JOIN files f .. WHERE predicate AND relation AND p]. *)
Definition count_seed_edges (p : EdgeRow → bool) (db : Database) (s : CallGraphSeed)
    (dir : Direction) : nat :=
  length (e ← filter (λ e, e_relation e = REL_CALLS ∧ p e = true) (db_edges db);
          select_node_files
            (λ n f, Z.eqb (n_id n) (from_col dir e) && seed_matches s n f) db).

Definition count_suppressed_seed_edges_seeded (db : Database) (s : CallGraphSeed)
    (dir : Direction) (min_rank : Z) : nat :=
  if (min_rank =? 0)%Z then 0
  else count_seed_edges (λ e, (confidence_case (e_confidence e) <? min_rank)%Z) db s dir.

Definition count_suppressed_seed_edges (db : Database) (function_name : string)
    (file : option string) (dir : Direction) (min_rank : Z) : nat :=
  count_suppressed_seed_edges_seeded db (SeedName function_name file) dir min_rank.

Definition count_suppressed_into (db : Database) (target_ids : list Z) (min_rank : Z) : nat :=
  if (min_rank =? 0)%Z || bool_decide (target_ids = []) then 0
  else length (filter (λ e, e_target_id e ∈ target_ids ∧ e_relation e = REL_CALLS
                            ∧ (confidence_case (e_confidence e) < min_rank)%Z) (db_edges db)).

Definition query_by_name (db : Database) (s : CallGraphSeed) (dirname : string) (max_depth : Z)
    (min_rank : Z) : option (result string (list CallGraphNode * bool)) :=
  let query dir := query_direction_seeded db s max_depth dir min_rank in
  if String.eqb dirname "callees" then Ok <$> query Callees
  else if String.eqb dirname "callers" then Ok <$> query Callers
  else if String.eqb dirname "both" then
    '(callees, c1) ← query Callees;
    '(callers, c2) ← query Callers;
    Some (Ok (merge_results callees callers, c1 || c2))
  else Some (Err ("invalid direction '" +:+ dirname +:+ "': must be callers, callees, or both")).

Definition suppressed_by_name (db : Database) (s : CallGraphSeed) (dirname : string)
    (min_rank : Z) : nat :=
  let count dir := count_suppressed_seed_edges_seeded db s dir min_rank in
  if String.eqb dirname "callees" then count Callees
  else if String.eqb dirname "callers" then count Callers
  else if String.eqb dirname "both" then count Callees + count Callers
  else 0.

Definition get_call_graph_seeded (db : Database) (s : CallGraphSeed) (dirname : string)
    (max_depth min_rank : Z) : option (result string CallGraphResult) :=
  let effective := Z.min max_depth CALL_GRAPH_MAX_DEPTH in
  r ← query_by_name db s dirname effective min_rank;
  Some (let? (nodes, hit) := r in
        Ok (mkCallGraphResult nodes hit (CALL_GRAPH_MAX_DEPTH <? max_depth)%Z effective max_depth
              (suppressed_by_name db s dirname min_rank))).

Definition get_call_graph_filtered (db : Database) (function_name dirname : string)
    (max_depth : Z) (file : option string) (min_rank : Z) : option (result string CallGraphResult) :=
  get_call_graph_seeded db (SeedName function_name file) dirname max_depth min_rank.

Definition get_call_graph (db : Database) (function_name dirname : string) (max_depth : Z)
    (file : option string) : option (result string CallGraphResult) :=
  get_call_graph_filtered db function_name dirname max_depth file 0.

(** ** Specification: walks from the seeds *)

Section Reach.
Context (seeds : list Z) (step : Z → Z → Prop).

Inductive reach : nat → Z → Prop :=
| reach_seed x : x ∈ seeds → reach 0 x
| reach_step m x y : reach m x → step x y → reach (S m) y.

Lemma reach_no_seeds m x : reach m x → seeds ≠ [].
Proof. induction 1 as [x Hx|]; [|done]. intros ->. by apply elem_of_nil in Hx. Qed.

(** [x] is at distance [m] from the seeds. *)
Definition distance (m : nat) (x : Z) : Prop := reach m x ∧ ∀ k, k < m → ¬ reach k x.
End Reach.

Section BfsProofs.
Context (db : Database) (dir : Direction) (min_rank : Z).

(** [p -> c] is an edge the traversal may follow. *)
Definition followed (p c : Z) : Prop :=
  ∃ e t, e ∈ db_edges db ∧ t ∈ db_nodes db ∧ edge_followed min_rank e = true
         ∧ from_col dir e = p ∧ to_col dir e = c ∧ n_id t = c.

Lemma elem_of_expand_chunk chunk p c :
  (p, c) ∈ expand_chunk db dir min_rank chunk ↔ p ∈ chunk ∧ followed p c.
Proof.
  unfold expand_chunk, followed. rewrite list_elem_of_bind. split.
  - intros (e & (t & [= -> ->] & Ht)%list_elem_of_fmap & He).
    apply list_elem_of_filter in Ht as [? ?], He as [[? ?] ?].
    split; [done|]. by exists e, t.
  - intros (Hp & e & t & He & Ht & Hf & <- & <- & Hc). exists e. split.
    + apply list_elem_of_fmap. exists t. split; [done|]. by apply list_elem_of_filter.
    + by apply list_elem_of_filter.
Qed.

Lemma rank_of_lookup base (chunk : list Z) p r :
  hash_map (imap (λ i id, (id, base + i)) chunk) !! p = Some r →
  ∃ i, r = base + i ∧ chunk !! i = Some p.
Proof.
  intros Hr%hash_map_elem. apply list_elem_of_lookup in Hr as [j Hj].
  rewrite list_lookup_imap in Hj. destruct (chunk !! j) eqn:E; simplify_eq/=. by exists j.
Qed.

Lemma rank_of_total base (chunk : list Z) p :
  p ∈ chunk → is_Some (hash_map (imap (λ i id, (id, base + i)) chunk) !! p).
Proof.
  intros [i Hi]%list_elem_of_lookup. apply (hash_map_is_Some _ _ (base + i)).
  apply list_elem_of_lookup. exists i. by rewrite list_lookup_imap, Hi.
Qed.

Lemma discover_chunk_ok seen base chunk :
  ∃ l, discover_chunk db dir min_rank seen base chunk = Some l ∧
    (∀ c r p, (c, r, p) ∈ l →
       (∃ i, r = base + i ∧ chunk !! i = Some p) ∧ followed p c ∧ seen !! c = None) ∧
    (∀ p c, p ∈ chunk → followed p c → seen !! c = None → ∃ r, (c, r, p) ∈ l).
Proof.
  unfold discover_chunk.
  match goal with |- context [mapM ?f ?l] => destruct (mapM_total f l) as [k Hk] end.
  { intros [p c] [_ [Hp _]%elem_of_expand_chunk]%list_elem_of_filter.
    destruct (rank_of_total base chunk p Hp) as [r Hr]. simpl. by rewrite Hr. }
  exists k. split; [done|]. split.
  - intros c r p. rewrite (elem_of_mapM _ _ _ _ Hk).
    intros ([p' c'] & [Hs [_ Hf]%elem_of_expand_chunk]%list_elem_of_filter & Hr).
    simpl in *. destruct (_ !! p') as [r'|] eqn:Hrank; simplify_eq/=.
    by apply rank_of_lookup in Hrank.
  - intros p c Hp Hf Hs. destruct (rank_of_total base chunk p Hp) as [r Hr]. exists r.
    apply (elem_of_mapM _ _ _ _ Hk). exists (p, c). simpl. rewrite Hr. split; [|done].
    apply list_elem_of_filter. split; [done|]. by apply elem_of_expand_chunk.
Qed.

Lemma discover_ok seen frontier :
  ∃ l, discover db dir min_rank seen frontier = Some l ∧
    (∀ c r p, (c, r, p) ∈ l → frontier !! r = Some p ∧ followed p c ∧ seen !! c = None) ∧
    (∀ p c, p ∈ frontier → followed p c → seen !! c = None → ∃ r, (c, r, p) ∈ l).
Proof.
  unfold discover.
  match goal with |- context [mapM id ?l] => destruct (mapM_total id l) as [k Hk] end.
  { intros o [j Hj]%list_elem_of_lookup. rewrite list_lookup_imap in Hj.
    destruct (_ !! j) as [ch|]; simplify_eq/=.
    destruct (discover_chunk_ok seen (j * FRONTIER_CHUNK) ch) as (? & -> & _). by eexists. }
  exists (mjoin k). rewrite Hk. split; [done|].
  assert (∀ l, l ∈ k ↔ ∃ j ch, chunks FRONTIER_CHUNK frontier !! j = Some ch ∧
            discover_chunk db dir min_rank seen (j * FRONTIER_CHUNK) ch = Some l) as Helem.
  { intros l. rewrite (elem_of_mapM _ _ _ _ Hk). split.
    - intros (o & [j Hj]%list_elem_of_lookup & Ho). rewrite list_lookup_imap in Hj.
      destruct (_ !! j) as [ch|] eqn:E; simplify_eq/=. by exists j, ch.
    - intros (j & ch & Hj & Hl). eexists. split; [|exact Hl].
      apply list_elem_of_lookup. exists j. by rewrite list_lookup_imap, Hj. }
  split.
  - intros c r p (l & Hl & (j & ch & Hj & Hd)%Helem)%list_elem_of_join.
    destruct (discover_chunk_ok seen (j * FRONTIER_CHUNK) ch) as (l' & Hl' & Hs & _).
    simplify_eq. destruct (Hs _ _ _ Hl) as ((i & -> & Hi) & ? & ?).
    split; [|done]. by eapply chunks_lookup.
  - intros p c Hp Hf Hs. rewrite <-(join_chunks FRONTIER_CHUNK frontier) in Hp
      by (unfold FRONTIER_CHUNK; lia).
    apply list_elem_of_join in Hp as (ch & Hp & [j Hj]%list_elem_of_lookup).
    destruct (discover_chunk_ok seen (j * FRONTIER_CHUNK) ch) as (l & Hl & _ & Hc).
    destruct (Hc p c Hp Hf Hs) as [r Hr]. exists r. apply list_elem_of_join.
    exists l. split; [done|]. apply Helem. by exists j, ch.
Qed.

Lemma admit_children_ok d found seen seen' next :
  admit_children d found seen = (seen', next) →
  (∀ x v, seen !! x = Some v → seen' !! x = Some v) ∧
  (∀ x v, seen !! x = None → seen' !! x = Some v →
     ∃ r p, (x, r, p) ∈ found ∧ v = (d, Some p)) ∧
  (∀ x r p, (x, r, p) ∈ found → is_Some (seen' !! x)) ∧
  (∀ x, x ∈ next ↔ seen !! x = None ∧ is_Some (seen' !! x)).
Proof.
  revert seen next. induction found as [|[[c r] p] found IH]; intros seen next; simpl.
  { intros [= <- <-]. split_and!; [done|congruence|by intros ??? ?%elem_of_nil|].
    intros x. rewrite elem_of_nil. split; [done|]. by intros [-> []]. }
  destruct (seen !! c) as [v0|] eqn:Hc.
  { intros (Hold & Hnew & Hall & Hnext)%IH. split_and!; [done| | |done].
    - intros x v Hx Hv. destruct (Hnew x v Hx Hv) as (r' & p' & ? & ->).
      exists r', p'. split; [by right|done].
    - intros x r' p' [[= -> -> ->]|?]%elem_of_cons; [|by eapply Hall]. eauto. }
  destruct (admit_children d found _) as [seen1 next1] eqn:E. intros [= <- <-].
  apply IH in E as (Hold & Hnew & Hall & Hnext).
  assert (seen1 !! c = Some (d, Some p)) as Hc1 by (apply Hold, lookup_insert_eq).
  split_and!.
  - intros x v Hx. apply Hold. rewrite lookup_insert_ne; [done|congruence].
  - intros x v Hx Hv. destruct (decide (x = c)) as [->|Hne].
    { exists r, p. split; [by left|congruence]. }
    destruct (Hnew x v) as (r' & p' & ? & ->); [by rewrite lookup_insert_ne|done|].
    exists r', p'. split; [by right|done].
  - intros x r' p' [[= -> -> ->]|?]%elem_of_cons; [by eexists|by eapply Hall].
  - intros x. rewrite elem_of_cons, Hnext. destruct (decide (x = c)) as [->|Hne].
    + rewrite Hc1. split; [by split|by left].
    + rewrite lookup_insert_ne by done. split; [by intros [|]|by right].
Qed.

Context (seeds : list Z).

(** What the visited map says once [n] levels are complete. *)
Definition entry_ok (seen : Seen) (bound : nat) (x : Z) (v : Z * option Z) : Prop :=
  ∃ m, m ≤ bound ∧ v.1 = Z.of_nat m ∧ distance seeds followed m x ∧
    match v.2 with
    | None => m = 0
    | Some p => ∃ m' w, m = S m' ∧ followed p x ∧ seen !! p = Some (Z.of_nat m', w)
    end.

Record level_inv (n : nat) (frontier : list Z) (seen : Seen) : Prop := {
  inv_sound x v : seen !! x = Some v → entry_ok seen n x v;
  inv_complete m x : m ≤ n → reach seeds followed m x → is_Some (seen !! x);
  inv_frontier x : x ∈ frontier ↔ ∃ w, seen !! x = Some (Z.of_nat n, w);
}.

Lemma entry_distance seen bound x z w m :
  entry_ok seen bound x (z, w) → distance seeds followed m x → z = Z.of_nat m.
Proof.
  intros (m' & _ & Hz & [Hr Hmin] & _) [Hr' Hmin']. simpl in Hz. subst z. f_equal.
  destruct (lt_eq_lt_dec m m') as [[?|?]|?]; [by destruct (Hmin m)|done|by destruct (Hmin' m')].
Qed.

Lemma level_inv_seed :
  level_inv 0 seeds (hash_map ((λ id, (id, (0%Z, None))) <$> seeds)).
Proof.
  assert (∀ x v, hash_map ((λ id, (id, (0%Z, @None Z))) <$> seeds) !! x = Some v ↔
                 x ∈ seeds ∧ v = (0%Z, None)) as Hl.
  { intros x v. rewrite hash_map_lookup.
    - rewrite list_elem_of_fmap. split; [by intros (? & [= -> ->] & ?)|].
      intros [? ->]. by exists x.
    - by intros ? ? ? (? & [= _ ->] & _)%list_elem_of_fmap (? & [= _ ->] & _)%list_elem_of_fmap. }
  split.
  - intros x v [Hx ->]%Hl. exists 0. split_and!; [done|done| |done].
    split; [by constructor|lia].
  - intros m x Hm Hr. assert (m = 0) as -> by lia. inversion Hr; subst.
    exists (0%Z, None). by apply Hl.
  - intros x. setoid_rewrite Hl. split; [intros ?; by exists None|by intros (? & ? & ?)].
Qed.

Lemma level_inv_reach_S n frontier seen m x y :
  level_inv n frontier seen → m ≤ n → reach seeds followed m x → followed x y →
  is_Some (seen !! y) ∨ x ∈ frontier.
Proof.
  intros Hinv Hm Hr Hf.
  destruct (inv_complete _ _ _ Hinv m x Hm Hr) as [[z w] Hx].
  destruct (inv_sound _ _ _ Hinv x _ Hx) as (k & Hk & Hz & [Hrk _] & _). simpl in Hz. subst z.
  destruct (decide (k = n)) as [->|Hne].
  - right. apply (inv_frontier _ _ _ Hinv). by exists w.
  - left. apply (inv_complete _ _ _ Hinv (S k)); [lia|]. by econstructor.
Qed.

Lemma level_inv_step n frontier seen found seen' next :
  level_inv n frontier seen →
  discover db dir min_rank seen frontier = Some found →
  admit_children (Z.of_nat (S n)) (sort_cmp discovered_cmp found) seen = (seen', next) →
  level_inv (S n) next seen'.
Proof.
  intros Hinv Hfound (Hold & Hnew & Hall & Hnext)%admit_children_ok.
  destruct (discover_ok seen frontier) as (l & Hl & Hs & Hc). simplify_eq.
  setoid_rewrite elem_of_sort_by in Hnew. setoid_rewrite elem_of_sort_by in Hall.
  assert (∀ x v, seen !! x = None → seen' !! x = Some v →
            entry_ok seen' (S n) x v ∧ v.1 = Z.of_nat (S n)) as Hfresh.
  { intros x v Hx Hv. destruct (Hnew x v Hx Hv) as (r & p & (Hp & Hf & _)%Hs & ->).
    split; [|done]. apply list_elem_of_lookup_2, (inv_frontier _ _ _ Hinv) in Hp as [w Hw].
    destruct (inv_sound _ _ _ Hinv _ _ Hw) as (k & _ & ? & [Hr _] & _). simpl in *.
    assert (k = n) as -> by lia.
    exists (S n). split_and!; [done|done| |].
    - split; [by econstructor|]. intros j Hj Hrj.
      destruct (inv_complete _ _ _ Hinv j x) as [? ?]; [lia|done|congruence].
    - exists n, w. split_and!; [done|done|by apply Hold]. }
  split.
  - intros x v Hv. destruct (seen !! x) as [v0|] eqn:Hx; [|by apply Hfresh].
    assert (v = v0) as -> by (apply Hold in Hx; congruence).
    destruct (inv_sound _ _ _ Hinv _ _ Hx) as (k & ? & ? & ? & Hpar).
    exists k. split_and!; [lia|done|done|]. destruct v0.2 as [p|]; [|done].
    destruct Hpar as (m' & w & ? & ? & ?). exists m', w. eauto.
  - intros m x Hm Hr. destruct (seen !! x) as [v0|] eqn:Hx; [by eauto|].
    inversion Hr as [? Hseed|m' y ? Hry Hf]; subst.
    { destruct (inv_complete _ _ _ Hinv 0 x) as [? ?]; [lia|done|congruence]. }
    destruct (level_inv_reach_S n frontier seen m' y x) as [[? ?]|Hy]; [done|lia|done|done|congruence|].
    destruct (Hc y x Hy Hf Hx) as [r Hr']. by apply (Hall x r y).
  - intros x. rewrite Hnext. split.
    + intros [Hx [v Hv]]. exists v.2. rewrite Hv. f_equal. rewrite <-(proj2 (Hfresh x v Hx Hv)).
      by destruct v.
    + intros [w Hw]. split; [|by eexists]. destruct (seen !! x) as [v0|] eqn:Hx; [|done].
      assert (v0 = (Z.of_nat (S n), w)) as -> by (apply Hold in Hx; congruence).
      destruct (inv_sound _ _ _ Hinv _ _ Hx) as (k & ? & ? & _). simpl in *. lia.
Qed.

Lemma entry_ok_mono seen b b' x v : b ≤ b' → entry_ok seen b x v → entry_ok seen b' x v.
Proof. intros Hb (m & ? & ?). exists m. split; [lia|done]. Qed.

(** An empty frontier means the walk has reached everything there is. *)
Lemma level_inv_closed n seen :
  level_inv n [] seen → ∀ m x, reach seeds followed m x → is_Some (seen !! x).
Proof.
  intros Hinv m x Hr. induction Hr as [x Hx|m x y Hr [[z w] Hx] Hf].
  - apply (inv_complete _ _ _ Hinv 0); [lia|by constructor].
  - destruct (inv_sound _ _ _ Hinv _ _ Hx) as (k & Hk & _ & [Hrk _] & _).
    by destruct (level_inv_reach_S n [] seen k x y Hinv Hk Hrk Hf) as [|?%elem_of_nil].
Qed.

Lemma bfs_ok fuel max_depth n frontier seen :
  level_inv n frontier seen → (max_depth <= Z.of_nat (n + fuel))%Z →
  ∃ seen', bfs db dir min_rank fuel max_depth (Z.of_nat (S n)) frontier seen = Some seen' ∧
    (∀ x v, seen' !! x = Some v → entry_ok seen' (n `max` Z.to_nat max_depth) x v) ∧
    (∀ m x, m ≤ Z.to_nat max_depth → reach seeds followed m x → is_Some (seen' !! x)).
Proof.
  revert n frontier seen. induction fuel as [|fuel IH]; intros n frontier seen Hinv Hfuel; cbn [bfs];
    (destruct ((Z.of_nat (S n) <=? max_depth)%Z && negb (bool_decide (frontier = []))) eqn:Hloop;
    [|exists seen; split; [done|]; split;
       [intros x v Hv; apply (entry_ok_mono _ n); [lia|by apply (inv_sound _ _ _ Hinv)]|];
      intros m x Hm Hr; bool_prop; destruct Hloop as [?|?]; bool_prop;
       [apply (inv_complete _ _ _ Hinv m); [lia|done]|subst; by eapply level_inv_closed] ]).
  - bool_prop. lia.
  - bool_prop. destruct (discover_ok seen frontier) as (found & Hfound & _).
    rewrite Hfound. cbn [mbind option_bind].
    destruct (admit_children _ _ _) as [seen1 next] eqn:Hadmit.
    destruct (IH (S n) next seen1) as (seen' & Hbfs & Hs & Hc);
      [by eapply level_inv_step|lia|].
    exists seen'. split; [rewrite <-Hbfs; f_equal; lia|]. split; [|done].
    intros x v Hv. eapply entry_ok_mono; [|by apply Hs]. lia.
Qed.
End BfsProofs.

Lemma traverse_ok db s max_depth dir min_rank :
  let bound := Z.to_nat (Z.min max_depth CALL_GRAPH_MAX_DEPTH) in
  ∃ seen, traverse db s max_depth dir min_rank = Some seen ∧
    (∀ x v, seen !! x = Some v → entry_ok db dir min_rank (seed_ids db s) seen bound x v) ∧
    (∀ m x, m ≤ bound → reach (seed_ids db s) (followed db dir min_rank) m x →
       is_Some (seen !! x)).
Proof.
  intros bound. unfold traverse.
  destruct (bfs_ok db dir min_rank (seed_ids db s) (Z.to_nat CALL_GRAPH_MAX_DEPTH)
              (Z.min max_depth CALL_GRAPH_MAX_DEPTH) 0 (seed_ids db s)
              (hash_map ((λ id, (id, (0%Z, None))) <$> seed_ids db s)))
    as (seen & Hseen & Hs & Hc).
  { apply level_inv_seed. }
  { unfold CALL_GRAPH_MAX_DEPTH. lia. }
  by exists seen.
Qed.

(** ** Emission *)

Lemma meta_map_sound db ids id m :
  meta_map db ids !! id = Some m →
  ∃ n f, (n, f) ∈ select_node_files (λ _ _, true) db ∧ node_meta (n, f) = (id, m).
Proof.
  intros (ch & ([n f] & Heq & Hin)%list_elem_of_fmap & _)%hash_map_elem%list_elem_of_bind.
  exists n, f. split; [|done]. apply elem_of_select_node_files in Hin as (? & ? & ? & _).
  by apply elem_of_select_node_files.
Qed.

Lemma elem_of_chunks {A} k (l : list A) x :
  0 < k → x ∈ l ↔ ∃ c, x ∈ c ∧ c ∈ chunks k l.
Proof. intros Hk. rewrite <-list_elem_of_join. by rewrite join_chunks. Qed.

Lemma elem_of_meta_rows db ids id m :
  (id, m) ∈ (chunk ← chunks FRONTIER_CHUNK ids;
             node_meta <$> select_node_files (λ n _, bool_decide (n_id n ∈ chunk)) db)
  ↔ id ∈ ids ∧ ∃ n f, (n, f) ∈ select_node_files (λ _ _, true) db ∧ node_meta (n, f) = (id, m).
Proof.
  rewrite list_elem_of_bind. rewrite (elem_of_chunks FRONTIER_CHUNK ids id) by (cbv; lia).
  setoid_rewrite list_elem_of_fmap. split.
  - intros (ch & ([n f] & Heq & Hin) & Hch).
    apply elem_of_select_node_files in Hin as (? & ? & ? & Hin%bool_decide_eq_true_1).
    injection Heq as -> ->. simpl in *. split; [by exists ch|]. exists n, f. split; [|done].
    by apply elem_of_select_node_files.
  - intros ((ch & Hid & Hch) & n & f & (? & ? & ? & _)%elem_of_select_node_files & Heq).
    exists ch. split; [|done]. exists (n, f). split; [done|].
    injection Heq as <- <-. simpl in *.
    apply elem_of_select_node_files. split_and!; [done..|]. by apply bool_decide_eq_true_2.
Qed.

Lemma meta_map_total db ids n f :
  n_id n ∈ ids → (n, f) ∈ select_node_files (λ _ _, true) db →
  is_Some (meta_map db ids !! n_id n).
Proof.
  intros Hid Hin. eapply hash_map_is_Some, elem_of_meta_rows. split; [done|]. by exists n, f.
Qed.

Lemma caller_counts_lookup db ids id :
  id ∈ ids → default 0%Z (caller_counts db ids !! id) = count_callers db id.
Proof.
  intros Hid. unfold caller_counts.
  match goal with |- context [hash_map ?l] =>
    assert (∀ k v, (k, v) ∈ l → v = count_callers db k) as Hl end.
  { intros k v (ch & (? & [= -> ->] & _)%list_elem_of_fmap & _)%list_elem_of_bind. done. }
  destruct (hash_map _ !! id) as [v|] eqn:E; simpl.
  { by apply hash_map_elem, Hl in E. }
  unfold count_callers. destruct (filter _ (db_edges db)) as [|e l] eqn:Hf; [done|].
  exfalso. assert (e ∈ e :: l) as He by left. rewrite <-Hf in He.
  apply list_elem_of_filter in He as [[He1 He2] He].
  rewrite (elem_of_chunks FRONTIER_CHUNK ids id) in Hid by (cbv; lia).
  destruct Hid as (ch & Hid & Hch).
  apply eq_None_not_Some in E. apply E. eapply hash_map_is_Some, list_elem_of_bind.
  exists ch. split; [|done]. apply list_elem_of_fmap. exists id. split; [done|].
  apply elem_of_remove_dups, list_elem_of_fmap. exists e. split; [done|].
  apply list_elem_of_filter. split; [|done]. by subst.
Qed.

(** The order rows are shown and cut in. *)
Definition relevance_cmp (db : Database) : CallGraphNode → CallGraphNode → comparison :=
  cmp_then (cmp_by depth Z.compare)
    (cmp_then (cmp_by (λ x, - count_callers db (node_id x))%Z Z.compare)
              (cmp_by node_id Z.compare)).

(** What a row promises: it sits at its distance from the seeds, its parent is
    one step closer, and its columns are those of the tables. *)
Record emitted_ok (db : Database) (s : CallGraphSeed) (dir : Direction) (min_rank : Z)
    (bound : nat) (x : CallGraphNode) : Prop := {
  emitted_distance : ∃ m, m ≤ bound ∧ depth x = Z.of_nat m
    ∧ distance (seed_ids db s) (followed db dir min_rank) m (node_id x)
    ∧ match parent_id x with
      | None => m = 0
      | Some p => ∃ m', m = S m' ∧ followed db dir min_rank p (node_id x)
                  ∧ distance (seed_ids db s) (followed db dir min_rank) m' p
      end;
  emitted_row : ∃ n f, n ∈ db_nodes db ∧ f ∈ db_files db ∧ f_id f = n_file_id n
    ∧ n_id n = node_id x ∧ n_name n = name x ∧ n_type n = node_type x ∧ f_path f = file_path x
    ∧ n_is_test n = is_test x ∧ n_qualified_name n = qualified_name x;
  emitted_direction : direction x = dir;
}.

Section Emission.
Context (db : Database) (s : CallGraphSeed) (dir : Direction) (min_rank : Z) (bound : nat).
Context (seen : Seen).

Lemma emit_row_key meta counts x r :
  emit_row meta counts dir x = Some r →
  node_id r.2 = x.1 ∧ depth r.2 = x.2.1 ∧ parent_id r.2 = x.2.2 ∧ direction r.2 = dir
  ∧ r.1 = (x.2.1, - default 0 (counts !! x.1), x.1)%Z
  ∧ meta !! x.1 = Some (name r.2, node_type r.2, file_path r.2, is_test r.2, qualified_name r.2).
Proof.
  destruct x as [id [z w]]. simpl. destruct (meta !! id) as [[[[[? ?] ?] ?] ?]|]; [|done].
  by intros [= <-].
Qed.

Lemma elem_of_ranked_rows r :
  r ∈ ranked_rows db dir seen ↔
  ∃ id v, seen !! id = Some v ∧
    emit_row (meta_map db (map_to_list seen).*1) (caller_counts db (map_to_list seen).*1) dir
      (id, v) = Some r.
Proof.
  unfold ranked_rows, sort_cmp. rewrite elem_of_sort_by, list_elem_of_omap. split.
  - intros ([id v] & Hin%elem_of_map_to_list & Hr). by exists id, v.
  - intros (id & v & Hin%elem_of_map_to_list & Hr). by exists (id, v).
Qed.

Lemma ranked_row_key r :
  r ∈ ranked_rows db dir seen →
  r.1 = (depth r.2, - count_callers db (node_id r.2), node_id r.2)%Z.
Proof.
  intros (id & v & Hv & (Hid & Hd & _ & _ & -> & _)%emit_row_key)%elem_of_ranked_rows.
  simpl in *. rewrite Hid, Hd, caller_counts_lookup; [done|].
  apply list_elem_of_fmap. exists (id, v). split; [done|]. by apply elem_of_map_to_list.
Qed.

Lemma ranked_rows_sorted :
  StronglySorted (λ x y, cmp_leb (relevance_cmp db) x y = true) (snd <$> ranked_rows db dir seen).
Proof.
  eapply StronglySorted_fmap_on; [|apply (sort_cmp_sorted ranked_cmp); unfold ranked_cmp; apply _].
  intros x y Hx%ranked_row_key Hy%ranked_row_key.
  unfold cmp_leb, relevance_cmp, ranked_cmp, cmp_then, cmp_by. by rewrite Hx, Hy.
Qed.

Lemma ranked_rows_NoDup : NoDup (node_id <$> (snd <$> ranked_rows db dir seen)).
Proof.
  rewrite <-list_fmap_compose. unfold ranked_rows, sort_cmp. rewrite sort_by_perm.
  apply (NoDup_omap_key _ fst); [|apply NoDup_fst_map_to_list].
  by intros x r _ (? & _)%emit_row_key.
Qed.

Hypothesis seen_sound :
  ∀ x v, seen !! x = Some v → entry_ok db dir min_rank (seed_ids db s) seen bound x v.

Lemma ranked_rows_ok r :
  r ∈ ranked_rows db dir seen → emitted_ok db s dir min_rank bound r.2.
Proof.
  intros (id & v & Hv & (Hid & Hd & Hp & Hdir & _ & Hm)%emit_row_key)%elem_of_ranked_rows.
  simpl in *. destruct (seen_sound _ _ Hv) as (m & Hm' & Hz & Hdist & Hpar). split; [| |done].
  - exists m. rewrite Hd, Hp, Hid. split_and!; [done..|].
    destruct v.2 as [p|]; [|done]. destruct Hpar as (m' & w & -> & Hf & Hw).
    exists m'. split_and!; [done..|].
    destruct (seen_sound _ _ Hw) as (k & _ & Hk & ? & _). simpl in Hk.
    by replace m' with k by lia.
  - apply meta_map_sound in Hm as (n & f & (? & ? & ? & _)%elem_of_select_node_files & Heq).
    exists n, f. injection Heq. rewrite Hid. intros. by split_and!.
Qed.

Lemma ranked_rows_complete n f v :
  seen !! n_id n = Some v → (n, f) ∈ select_node_files (λ _ _, true) db →
  ∃ r, r ∈ ranked_rows db dir seen ∧ node_id r.2 = n_id n.
Proof.
  intros Hv Hin. destruct (meta_map_total db (map_to_list seen).*1 n f) as [m Hm]; [|done|].
  { apply list_elem_of_fmap. exists (n_id n, v). split; [done|]. by apply elem_of_map_to_list. }
  destruct (emit_row (meta_map db (map_to_list seen).*1) (caller_counts db (map_to_list seen).*1)
              dir (n_id n, v)) as [r|] eqn:E.
  - exists r. split; [apply elem_of_ranked_rows; eauto|]. by apply emit_row_key in E as [? _].
  - exfalso. simpl in E. rewrite Hm in E. by destruct v, m as [[[[? ?] ?] ?] ?].
Qed.
End Emission.

(** ** Properties *)

(** C4: One direction of the call graph is the set of nodes within the depth
    bound, each once and at its shortest distance with a parent one step closer,
    in order of depth, then callers, then id; at most 200 rows are kept, they are
    the first of that order, and the flag is off only when nothing was cut. The
    traversal neither panics nor runs on. *)
Theorem query_direction_shortest db s max_depth dir min_rank :
  let bound := Z.to_nat (Z.min max_depth CALL_GRAPH_MAX_DEPTH) in
  ∃ kept dropped hit,
    query_direction_seeded db s max_depth dir min_rank = Some (kept, hit)
    ∧ length kept ≤ CALL_GRAPH_ROW_LIMIT
    ∧ (hit = true ↔ CALL_GRAPH_ROW_LIMIT ≤ length kept) ∧ (hit = false → dropped = [])
    ∧ StronglySorted (λ x y, cmp_leb (relevance_cmp db) x y = true) (kept ++ dropped)
    ∧ NoDup (node_id <$> kept ++ dropped)
    ∧ (∀ x, x ∈ kept ++ dropped → emitted_ok db s dir min_rank bound x)
    ∧ (∀ m n f, m ≤ bound → reach (seed_ids db s) (followed db dir min_rank) m (n_id n) →
         n ∈ db_nodes db → f ∈ db_files db → f_id f = n_file_id n →
         n_id n ∈ node_id <$> kept ++ dropped).
Proof.
  intros bound. destruct (traverse_ok db s max_depth dir min_rank) as (seen & Hseen & Hs & Hc).
  unfold query_direction_seeded. case_bool_decide as Hseeds.
  { exists [], [], false. simpl. split_and!.
    - done.
    - lia.
    - unfold CALL_GRAPH_ROW_LIMIT. split; [done|lia].
    - done.
    - apply SSorted_nil.
    - apply NoDup_nil_2.
    - by intros x ?%elem_of_nil.
    - intros m n f _ Hr. by apply reach_no_seeds in Hr. }
  rewrite Hseen. cbn [mbind option_bind].
  set (rows := ranked_rows db dir seen).
  exists (snd <$> take CALL_GRAPH_ROW_LIMIT rows), (snd <$> drop CALL_GRAPH_ROW_LIMIT rows).
  eexists. split; [done|]. rewrite <-fmap_app, take_drop, length_fmap, length_take.
  split_and!.
  - lia.
  - rewrite Nat.leb_le. lia.
  - intros ?%Nat.leb_gt. by rewrite drop_ge by lia.
  - apply ranked_rows_sorted.
  - apply ranked_rows_NoDup.
  - intros x (r & -> & Hr)%list_elem_of_fmap. by eapply ranked_rows_ok.
  - intros m n f Hm Hr Hn Hf Hj. destruct (Hc m (n_id n) Hm Hr) as [v Hv].
    destruct (ranked_rows_complete db dir seen n f v Hv) as (r & Hin & Hid).
    { by apply elem_of_select_node_files. }
    rewrite <-Hid. apply (list_elem_of_fmap_2 node_id), (list_elem_of_fmap_2 snd), Hin.
Qed.

(** ** Independence of the query plan *)

Lemma mapM_perm {A B} (f : A → option B) l1 l2 k1 :
  l1 ≡ₚ l2 → mapM f l1 = Some k1 → ∃ k2, mapM f l2 = Some k2 ∧ k1 ≡ₚ k2.
Proof.
  intros Hp. revert k1. induction Hp as [|x l1 l2 Hp IH|x y l|l1 l2 l3 _ IH1 _ IH2]; intros k1; simpl.
  - intros [= <-]. by exists [].
  - destruct (f x) as [b|]; simpl; [|done]. destruct (mapM f l1) as [k|]; simpl; [|done].
    intros [= <-]. destruct (IH k eq_refl) as (k2 & -> & ?). exists (b :: k2).
    split; [done|]. by constructor.
  - destruct (f y) as [b|]; simpl; [|done]. destruct (f x) as [c|]; simpl; [|done].
    destruct (mapM f l) as [k|]; simpl; [|done]. intros [= <-]. exists (c :: b :: k).
    split; [done|]. constructor.
  - intros (k2 & Hk2 & ?)%IH1. destruct (IH2 k2 Hk2) as (k3 & ? & ?).
    exists k3. split; [done|]. by etrans.
Qed.

Section Plan.
Context (db db' : Database) (Hdb : db ≡ db').

Lemma seed_ids_plan s : seed_ids db s = seed_ids db' s.
Proof.
  apply sort_cmp_unique; [apply _|by intros ???? ?%(cmp_eq Z.compare)|]. by rewrite Hdb.
Qed.

Lemma expand_chunk_plan dir min_rank chunk :
  expand_chunk db dir min_rank chunk ≡ₚ expand_chunk db' dir min_rank chunk.
Proof.
  destruct Hdb as (Hf & Hn & He). unfold expand_chunk. rewrite He.
  apply bind_perm_ext. intros e. by rewrite Hn.
Qed.

Lemma discover_chunk_plan dir min_rank seen base chunk l :
  discover_chunk db dir min_rank seen base chunk = Some l →
  ∃ l', discover_chunk db' dir min_rank seen base chunk = Some l' ∧ l ≡ₚ l'.
Proof. apply mapM_perm. by rewrite expand_chunk_plan. Qed.

Lemma mapM_id_plan {A} (ls ls' : list (option (list A))) k :
  Forall2 (λ o o', ∀ l, o = Some l → ∃ l', o' = Some l' ∧ l ≡ₚ l') ls ls' →
  mapM id ls = Some k → ∃ k', mapM id ls' = Some k' ∧ mjoin k ≡ₚ mjoin k'.
Proof.
  intros Hls. revert k. induction Hls as [|o o' ls ls' Ho _ IH]; intros k; simpl.
  { intros [= <-]. by exists []. }
  destruct o as [l|]; simpl; [|done]. destruct (mapM id ls) as [k0|]; simpl; [|done].
  intros [= <-]. destruct (Ho l eq_refl) as (l' & -> & Hl).
  destruct (IH k0 eq_refl) as (k' & -> & Hk). exists (l' :: k'). split; [done|].
  simpl. by rewrite Hl, Hk.
Qed.

Lemma discover_plan dir min_rank seen frontier :
  sort_cmp discovered_cmp <$> discover db dir min_rank seen frontier
  = sort_cmp discovered_cmp <$> discover db' dir min_rank seen frontier.
Proof.
  destruct (discover_ok db dir min_rank seen frontier) as (l & Hl & Hs & _).
  assert (∃ l', discover db' dir min_rank seen frontier = Some l' ∧ l ≡ₚ l') as (l' & Hl' & Hp).
  { unfold discover in *. destruct (mapM id _) as [k|] eqn:Hk in Hl; [|done].
    eapply mapM_id_plan in Hk as (k' & -> & Hk').
    - injection Hl as <-. by exists (mjoin k').
    - apply Forall2_same_length_lookup_2; [by rewrite !length_imap|].
      intros i o o'. rewrite !list_lookup_imap. destruct (_ !! i) as [ch|]; [|done].
      intros [= <-] [= <-] ?. apply discover_chunk_plan. }
  rewrite Hl, Hl'. simpl. f_equal. apply sort_cmp_unique; [unfold discovered_cmp; apply _| |done].
  intros [[c r] p] [[c' r'] p'] Hx Hy. unfold discovered_cmp, cmp_then, cmp_by. simpl.
  destruct (r ?= r') eqn:Hr; [|done|done]. apply Nat.compare_eq in Hr as <-.
  intros ->%Z.compare_eq. destruct (Hs _ _ _ Hx) as [? _], (Hs _ _ _ Hy) as [? _]. congruence.
Qed.

Lemma bfs_plan dir min_rank fuel max_depth d frontier seen :
  bfs db dir min_rank fuel max_depth d frontier seen
  = bfs db' dir min_rank fuel max_depth d frontier seen.
Proof.
  revert d frontier seen. induction fuel as [|fuel IH]; intros d frontier seen; simpl; [done|].
  destruct (_ && _); [|done]. pose proof (discover_plan dir min_rank seen frontier) as Hd.
  destruct (discover db _ _ _ _), (discover db' _ _ _ _); simplify_eq/=; [|done].
  rewrite Hd. destruct (admit_children _ _ _). apply IH.
Qed.

Lemma count_callers_plan id : count_callers db id = count_callers db' id.
Proof. unfold count_callers. destruct Hdb as (_ & _ & He). by rewrite He. Qed.

Context (Hkeys : db_keys_ok db).

Lemma meta_map_plan ids : meta_map db ids = meta_map db' ids.
Proof.
  apply hash_map_ext.
  - intros id m m' (_ & n & f & Hnf & E)%elem_of_meta_rows (_ & n' & f' & Hnf' & E')%elem_of_meta_rows.
    assert (n_id n = n_id n') as Hid by (injection E; injection E'; congruence).
    destruct (select_node_files_unique _ _ _ _ _ _ Hkeys Hnf Hnf' Hid) as [<- <-]. congruence.
  - intros [id m]. rewrite !elem_of_meta_rows. by setoid_rewrite Hdb.
Qed.

Lemma ranked_rows_plan dir seen : ranked_rows db dir seen = ranked_rows db' dir seen.
Proof.
  unfold ranked_rows. cbv zeta. f_equal. apply list_omap_ext, Forall_Forall2_diag, Forall_forall.
  intros [id [z w]] Hin. simpl. rewrite meta_map_plan.
  assert (id ∈ (map_to_list seen).*1) as Hid by (apply (list_elem_of_fmap_2 fst) in Hin; done).
  rewrite !caller_counts_lookup by done. by rewrite count_callers_plan.
Qed.
End Plan.

(** The answer is pinned by the rows, not by the query plan: two databases
    holding the same rows in different orders give the same nodes, in the same
    order, with the same parents. *)
Theorem query_direction_plan_independent db db' s max_depth dir min_rank :
  db ≡ db' → db_keys_ok db →
  query_direction_seeded db s max_depth dir min_rank
  = query_direction_seeded db' s max_depth dir min_rank.
Proof.
  intros Hdb Hkeys. unfold query_direction_seeded, traverse.
  rewrite (seed_ids_plan db db' Hdb), (bfs_plan db db' Hdb).
  case_bool_decide; [done|]. destruct (bfs db' _ _ _ _ _ _ _) as [seen|]; [|done].
  simpl. by rewrite (ranked_rows_plan db db' Hdb Hkeys).
Qed.

Example demo_db : Database := mkDb
  [mkFile 1 "src/a.rs" (Some "rust"); mkFile 2 "<external>" None]
  [mkNode 10 1 "function" "main" None 1 9 false; mkNode 11 1 "function" "run" None 10 19 false;
   mkNode 12 1 "function" "step" (Some "T.step") 20 29 false;
   mkNode 13 2 "function" "HashMap" None 0 0 false]
  [mkEdge 10 11 "calls" None "extracted"; mkEdge 11 12 "calls" None "inferred";
   mkEdge 12 11 "calls" None "extracted"; mkEdge 10 13 "calls" None "ambiguous"].

Lemma query_direction_plan_independent_witness :
  query_direction_seeded demo_db (SeedName "main" None) 3 Callees 0
  = query_direction_seeded
      (mkDb (reverse (db_files demo_db)) (reverse (db_nodes demo_db)) (reverse (db_edges demo_db)))
      (SeedName "main" None) 3 Callees 0.
Proof.
  apply query_direction_plan_independent.
  - repeat split; simpl; symmetry; apply reverse_Permutation.
  - by apply (bool_decide_unpack (db_keys_ok demo_db)); vm_compute.
Defined.

Example demo_callees :
  (λ r : list CallGraphNode * bool, node_id <$> r.1) <$> query_direction_seeded demo_db (SeedName "main" None) 3 Callees 1
  = Some [10; 11; 12]%Z.
Proof. by vm_compute. Qed.

(** ** Both directions *)

Lemma query_direction_clamp db s max_depth dir min_rank :
  query_direction_seeded db s (Z.min max_depth CALL_GRAPH_MAX_DEPTH) dir min_rank
  = query_direction_seeded db s max_depth dir min_rank.
Proof. unfold query_direction_seeded, traverse. by rewrite <-Z.min_assoc, Z.min_id. Qed.

(** What one direction's query guarantees of the list it returns. *)
Lemma query_direction_list db s max_depth dir min_rank :
  ∃ kept hit, query_direction_seeded db s max_depth dir min_rank = Some (kept, hit)
    ∧ (∀ x, x ∈ kept → direction x = dir)
    ∧ NoDup (node_id <$> kept)
    ∧ StronglySorted (λ x y, cmp_leb (cmp_by depth Z.compare) x y = true) kept
    ∧ (hit = false → ∀ m n f, m ≤ Z.to_nat (Z.min max_depth CALL_GRAPH_MAX_DEPTH) →
         reach (seed_ids db s) (followed db dir min_rank) m (n_id n) →
         n ∈ db_nodes db → f ∈ db_files db → f_id f = n_file_id n →
         ∃ x, x ∈ kept ∧ node_id x = n_id n).
Proof.
  unfold query_direction_seeded. case_bool_decide as Hseeds.
  { exists [], false. split_and!; [done|by intros x ?%elem_of_nil|apply NoDup_nil_2|apply SSorted_nil|].
    intros _ m n f _ Hr. by apply reach_no_seeds in Hr. }
  destruct (traverse_ok db s max_depth dir min_rank) as (seen & -> & Hs & Hc). cbn [mbind option_bind].
  set (rows := ranked_rows db dir seen).
  assert (snd <$> rows = (snd <$> take CALL_GRAPH_ROW_LIMIT rows)
                         ++ (snd <$> drop CALL_GRAPH_ROW_LIMIT rows)) as Hsplit
    by by rewrite <-fmap_app, take_drop.
  do 2 eexists. split; [done|]. split_and!.
  - intros x (r & -> & Hr)%list_elem_of_fmap.
    eapply emitted_direction, (ranked_rows_ok db s dir min_rank _ seen Hs).
    fold rows. rewrite <-(take_drop CALL_GRAPH_ROW_LIMIT rows). apply elem_of_app. by left.
  - pose proof (ranked_rows_NoDup db dir seen) as Hnd. fold rows in Hnd.
    rewrite Hsplit, fmap_app in Hnd. by apply NoDup_app in Hnd as [? _].
  - pose proof (ranked_rows_sorted db dir seen) as Hsort. fold rows in Hsort.
    rewrite Hsplit in Hsort. apply StronglySorted_app_1_l in Hsort.
    rewrite <-(list_fmap_id (snd <$> take _ _)). eapply StronglySorted_fmap_on; [|exact Hsort].
    intros x y _ _. unfold cmp_leb, relevance_cmp, cmp_then, cmp_by. simpl.
    by destruct (depth x ?= depth y)%Z.
  - intros Hhit%Nat.leb_gt m n f Hm Hr Hn Hf Hj. destruct (Hc m (n_id n) Hm Hr) as [v Hv].
    destruct (ranked_rows_complete db dir seen n f v Hv) as (r & Hin & Hid).
    { by apply elem_of_select_node_files. }
    exists r.2. split; [|done]. rewrite take_ge by lia. by apply list_elem_of_fmap_2.
Qed.

(** Asking for both directions gives the callees and the callers of the two
    single queries, each in its own relevance order, interleaved by depth, with
    every (node, direction) once; the flags report either cap, and any word other
    than the three directions is an error. *)
Theorem get_call_graph_both db s max_depth min_rank :
  (∃ callees callers c1 c2 r,
    query_direction_seeded db s max_depth Callees min_rank = Some (callees, c1)
    ∧ query_direction_seeded db s max_depth Callers min_rank = Some (callers, c2)
    ∧ get_call_graph_seeded db s "both" max_depth min_rank = Some (Ok r)
    ∧ filter (λ x, direction x = Callees) (cg_nodes r) = callees
    ∧ filter (λ x, direction x = Callers) (cg_nodes r) = callers
    ∧ StronglySorted (λ x y, cmp_leb (cmp_by depth Z.compare) x y = true) (cg_nodes r)
    ∧ NoDup ((λ x, (node_id x, direction x)) <$> cg_nodes r)
    ∧ limit_hit r = c1 || c2
    ∧ (depth_capped r = true ↔ (CALL_GRAPH_MAX_DEPTH < max_depth)%Z)
    ∧ suppressed_ambiguous r = count_suppressed_seed_edges_seeded db s Callees min_rank
                               + count_suppressed_seed_edges_seeded db s Callers min_rank)
  ∧ (∀ dirname, dirname ∉ ["callers"; "callees"; "both"] →
     ∃ msg, get_call_graph_seeded db s dirname max_depth min_rank = Some (Err msg)).
Proof.
  split.
  - destruct (query_direction_list db s max_depth Callees min_rank)
      as (callees & c1 & H1 & Hd1 & Hn1 & Hs1 & _).
    destruct (query_direction_list db s max_depth Callers min_rank)
      as (callers & c2 & H2 & Hd2 & Hn2 & Hs2 & _).
    exists callees, callers, c1, c2. eexists. split; [done|]. split; [done|].
    unfold get_call_graph_seeded, query_by_name. rewrite !query_direction_clamp, H1, H2. simpl.
    split; [done|]. unfold merge_results, sort_cmp. simpl.
    set (c := cmp_leb (cmp_by depth Z.compare)).
    rewrite !(filter_sort_by c (cmp_leb_total _) (cmp_leb_trans _)), !filter_app.
    rewrite (filter_all _ callees), (filter_none _ callers), app_nil_r by
      (intros x Hx; simpl; first [by rewrite (Hd1 x)|by rewrite (Hd2 x)|by apply Hd1]).
    rewrite (filter_none _ callees), (filter_all _ callers) by
      (intros x Hx; simpl; first [by rewrite (Hd1 x)|by rewrite (Hd2 x)|by apply Hd2]).
    rewrite app_nil_l, (sort_by_id c callees), (sort_by_id c callers) by done.
    split_and!; [done|done|apply sort_by_sorted; [apply cmp_leb_total|apply cmp_leb_trans]
                |rewrite sort_by_perm|done|apply Z.ltb_lt|done].
    1-2: apply _.
    rewrite fmap_app. apply NoDup_app. split_and!.
    + apply (NoDup_fmap_1 fst). by rewrite <-list_fmap_compose.
    + intros p (x & -> & Hx)%list_elem_of_fmap (y & [= _ Hxy] & Hy)%list_elem_of_fmap.
      rewrite (Hd1 x Hx), (Hd2 y Hy) in Hxy. done.
    + apply (NoDup_fmap_1 fst). by rewrite <-list_fmap_compose.
  - intros dirname Hdir. unfold get_call_graph_seeded, query_by_name.
    destruct (String.eqb_spec dirname "callees") as [->|_]; [by destruct Hdir; set_solver|].
    destruct (String.eqb_spec dirname "callers") as [->|_]; [by destruct Hdir; set_solver|].
    destruct (String.eqb_spec dirname "both") as [->|_]; [by destruct Hdir; set_solver|].
    simpl. by eexists.
Qed.

(** ** What the confidence floor hides *)

Lemma confidence_case_rank c : confidence_case c = Z.of_nat (confidence_rank c).
Proof.
  unfold confidence_case, confidence_rank, CONF_EXTRACTED, CONF_INFERRED.
  repeat case_match; done.
Qed.

Lemma count_seed_edges_split p db s dir :
  count_seed_edges p db s dir + count_seed_edges (λ e, negb (p e)) db s dir
  = count_seed_edges (λ _, true) db s dir.
Proof.
  unfold count_seed_edges. induction (db_edges db) as [|e l IH]; [done|].
  rewrite !filter_cons.
  destruct (p e) eqn:Hp; simpl; repeat case_decide;
    try (exfalso; intuition congruence); rewrite ?bind_cons, ?length_app; lia.
Qed.

Lemma count_seed_edges_ext p q db s dir :
  (∀ e, e_relation e = REL_CALLS → p e = q e) →
  count_seed_edges p db s dir = count_seed_edges q db s dir.
Proof.
  intros Hpq. unfold count_seed_edges.
  rewrite (list_filter_iff _ (λ e, e_relation e = REL_CALLS ∧ q e = true)); [done|].
  intros e. split; intros [He H]; (split; [done|]); by rewrite ?Hpq in * by done.
Qed.

(** The disclosed count is exact: the direct edges the floor hides and the
    direct edges the traversal may follow add up to all direct [calls] edges of
    the seeds, and the SQL [CASE] ranks a confidence as [confidence_rank] does. *)
Theorem count_suppressed_complement db s dir min_rank :
  (0 <= min_rank)%Z →
  count_suppressed_seed_edges_seeded db s dir min_rank
    + count_seed_edges (λ e, edge_followed min_rank e) db s dir
  = count_seed_edges (λ _, true) db s dir
  ∧ (∀ e, e_relation e = REL_CALLS →
     edge_followed min_rank e = (min_rank <=? Z.of_nat (confidence_rank (e_confidence e)))%Z).
Proof.
  intros Hrank. assert (∀ e, e_relation e = REL_CALLS →
    edge_followed min_rank e = (min_rank <=? Z.of_nat (confidence_rank (e_confidence e)))%Z) as Hf.
  { intros e He. unfold edge_followed. by rewrite He, confidence_case_rank. }
  split; [|done]. unfold count_suppressed_seed_edges_seeded.
  destruct (Z.eqb_spec min_rank 0) as [->|Hne].
  - apply count_seed_edges_ext. intros e He. rewrite Hf by done. apply Z.leb_le. lia.
  - rewrite <-(count_seed_edges_split
                 (λ e, (confidence_case (e_confidence e) <? min_rank)%Z)). f_equal.
    apply count_seed_edges_ext. intros e He. rewrite Hf, confidence_case_rank by done.
    apply Z.leb_antisym.
Qed.

Lemma count_suppressed_complement_witness :
  count_suppressed_seed_edges_seeded demo_db (SeedName "main" None) Callees 1
    + count_seed_edges (λ e, edge_followed 1 e) demo_db (SeedName "main" None) Callees
  = count_seed_edges (λ _, true) demo_db (SeedName "main" None) Callees
  ∧ (∀ e, e_relation e = REL_CALLS →
     edge_followed 1 e = (1 <=? Z.of_nat (confidence_rank (e_confidence e)))%Z).
Proof. apply (count_suppressed_complement demo_db (SeedName "main" None) Callees 1). lia. Defined.
