(* ===== verification/Impact.v ===== *)
(** * Impact analysis ([graph/routes.rs], [graph/impact.rs])

    The callers of a symbol with their route metadata, and the verdict both impact
    surfaces draw from them. [serde_json]'s parser is the parameter [json_ok]. *)

From S2P Require Import Prelude Str Domain Tables CallGraph.

(** ** Callers with routes ([graph/routes.rs], [storage/queries/routes.rs]) *)

Definition MAX_IN_PARAMS : nat := 500.

Record CallerWithRouteInfo := mkCaller {
  c_node_id : Z;
  c_name : string;
  c_node_type : string;
  c_file_path : string;
  c_depth : Z;
  c_route_info : option string;
  c_qualified_name : option string;
  c_is_test : bool;
}.

Definition c_identity (c : CallerWithRouteInfo) : string :=
  default (c_name c) (c_qualified_name c).

(** [route_map.entry(id).or_insert(meta)] over the rows, chunk by chunk: the
    first non-NULL metadata of a node stays. *)
Definition fetch_route_metadata_map (db : Database) (caller_ids : list Z) : gmap Z string :=
  list_to_map (chunk ← chunks MAX_IN_PARAMS caller_ids;
    omap (λ e, meta ← e_metadata e; Some (e_source_id e, meta))
      (filter (λ e, e_source_id e ∈ chunk ∧ e_relation e = REL_ROUTES_TO) (db_edges db))).

Record RouteCallers := mkRouteCallers {
  rc_callers : list CallerWithRouteInfo;
  rc_limit_hit : bool;
  rc_depth_capped : bool;
}.

Definition truncated (r : RouteCallers) : bool := rc_limit_hit r || rc_depth_capped r.

Definition truncation_note (r : RouteCallers) : option string :=
  if negb (truncated r) then None
  else
    let limit := dec_of_nat CALL_GRAPH_ROW_LIMIT in
    let cause :=
      match rc_limit_hit r, rc_depth_capped r with
      | true, true => "hit the " +:+ limit +:+ "-row traversal limit and the depth cap"
      | true, false => "hit the " +:+ limit +:+ "-row traversal limit"
      | false, _ => "hit the depth cap"
      end in
    Some ("Caller traversal " +:+ cause +:+ ", so the caller counts, affected files and risk level "
      +:+ "below are computed from a PARTIAL caller set and are a FLOOR, not a total. "
      +:+ "Narrow the query (file_path / a more specific symbol) or read the full "
      +:+ "traversal with get_call_graph / `callgraph --direction callers`.").

Definition caller_of (route_map : gmap Z string) (c : CallGraphNode) : CallerWithRouteInfo :=
  mkCaller (node_id c) (name c) (node_type c) (file_path c) (depth c)
    (route_map !! node_id c) (qualified_name c) (is_test c).

Definition get_callers_with_route_info_seeded (db : Database) (s : CallGraphSeed)
    (max_depth min_rank : Z) : option (result string RouteCallers) :=
  r ← get_call_graph_seeded db s "callers" max_depth min_rank;
  Some (let? callers := r in
        let caller_ids := node_id <$> cg_nodes callers in
        let route_map := fetch_route_metadata_map db caller_ids in
        Ok (mkRouteCallers (caller_of route_map <$> cg_nodes callers)
              (limit_hit callers) (depth_capped callers))).

Definition get_callers_with_route_info (db : Database) (symbol_name : string)
    (file : option string) (max_depth min_rank : Z) : option (result string RouteCallers) :=
  get_callers_with_route_info_seeded db (SeedName symbol_name file) max_depth min_rank.

(** ** The verdict ([graph/impact.rs]) *)

Record ImpactClassification := mkImpact {
  prod_callers : list CallerWithRouteInfo;
  affected_files : nat;
  route_callers : list CallerWithRouteInfo;
  test_count : nat;
  test_callers : list CallerWithRouteInfo;
  risk_level : string;
  type_warning : option string;
}.

Definition caller_key (c : CallerWithRouteInfo) : string * string * Z :=
  (c_identity c, c_file_path c, c_depth c).

(** [c.is_test || domain::is_test_symbol(&c.name, &c.file_path)] *)
Definition is_test_caller (c : CallerWithRouteInfo) : bool :=
  c_is_test c || is_test_symbol (c_name c) (c_file_path c).

Section Classify.
Context (json_ok : string → bool).

(** One turn of the partition loop over its four accumulators. *)
Fixpoint partition_callers (seen_prod seen_test : gset (string * string * Z))
    (callers : list CallerWithRouteInfo)
    : list CallerWithRouteInfo * list CallerWithRouteInfo :=
  match callers with
  | [] => ([], [])
  | c :: callers' =>
      if (0 <? c_depth c)%Z then
        let key := caller_key c in
        if is_test_caller c then
          if decide (key ∈ seen_test) then partition_callers seen_prod seen_test callers'
          else let '(prod, test) := partition_callers seen_prod ({[key]} ∪ seen_test) callers' in
               (prod, c :: test)
        else
          if decide (key ∈ seen_prod) then partition_callers seen_prod seen_test callers'
          else let '(prod, test) := partition_callers ({[key]} ∪ seen_prod) seen_test callers' in
               (c :: prod, test)
      else partition_callers seen_prod seen_test callers'
  end.

Definition has_route (c : CallerWithRouteInfo) : bool :=
  match c_route_info c with Some m => json_ok m | None => false end.

Definition classify_impact (callers : list CallerWithRouteInfo) (change_type : string)
    (is_function_like : bool) : ImpactClassification :=
  let '(prod, test) := partition_callers ∅ ∅ callers in
  let files := size (list_to_set (c_file_path <$> prod) : gset string) in
  let routes := filter (λ c, has_route c = true) prod in
  let caller_risk :=
    compute_risk_level (length prod) (length routes)
      (String.eqb change_type "remove" || String.eqb change_type "signature") in
  let warning :=
    if negb is_function_like && (bool_decide (prod = []) || String.eqb caller_risk "LOW")
    then Some NON_FUNCTION_IMPACT_WARNING
    else if bool_decide (prod = []) && bool_decide (test = [])
    then Some NO_CALLERS_IMPACT_WARNING
    else None in
  mkImpact prod files routes (length test) test
    (match warning with Some _ => "UNKNOWN" | None => caller_risk end) warning.
End Classify.

(** ** Lemmas *)

Definition is_prod_row (c : CallerWithRouteInfo) : Prop :=
  (0 < c_depth c)%Z ∧ is_test_caller c = false.
Definition is_test_row (c : CallerWithRouteInfo) : Prop :=
  (0 < c_depth c)%Z ∧ is_test_caller c = true.

#[export] Instance is_prod_row_dec c : Decision (is_prod_row c).
Proof. unfold is_prod_row. apply _. Defined.
#[export] Instance is_test_row_dec c : Decision (is_test_row c).
Proof. unfold is_test_row. apply _. Defined.

(** The loop with two hash sets is two filters, each keeping first occurrences. *)
Lemma partition_callers_dedup callers sp st lp lt :
  (∀ k, k ∈ sp ↔ k ∈ lp) → (∀ k, k ∈ st ↔ k ∈ lt) →
  partition_callers sp st callers
  = (dedup_from caller_key lp (filter is_prod_row callers),
     dedup_from caller_key lt (filter is_test_row callers)).
Proof.
  revert sp st lp lt. induction callers as [|c callers IH]; intros sp st lp lt Hp Ht; [done|].
  cbn [partition_callers]. rewrite !filter_cons.
  destruct (Z.ltb_spec 0 (c_depth c)) as [Hd|Hd].
  2:{ rewrite (decide_False (P := is_prod_row c)), (decide_False (P := is_test_row c))
        by (intros [? _]; lia). by apply IH. }
  destruct (is_test_caller c) eqn:E.
  - rewrite (decide_False (P := is_prod_row c)) by (intros [_ ?]; congruence).
    rewrite (decide_True (P := is_test_row c)) by done. simpl.
    rewrite (decide_ext _ _ _ _ (Ht (caller_key c))).
    case_decide as Hin; [by apply IH|]. rewrite (IH _ _ lp (caller_key c :: lt)); [done..|set_solver].
  - rewrite (decide_False (P := is_test_row c)) by (intros [_ ?]; congruence).
    rewrite (decide_True (P := is_prod_row c)) by done. simpl.
    rewrite (decide_ext _ _ _ _ (Hp (caller_key c))).
    case_decide as Hin; [by apply IH|]. rewrite (IH _ _ (caller_key c :: lp) lt); [done| |done].
    set_solver.
Qed.

Section ClassifyLemmas.
Context (json_ok : string → bool).

Lemma classify_prod callers ch fn :
  prod_callers (classify_impact json_ok callers ch fn)
  = dedup_from caller_key [] (filter is_prod_row callers).
Proof.
  unfold classify_impact. by rewrite (partition_callers_dedup callers ∅ ∅ [] []) by set_solver.
Qed.

Lemma classify_test callers ch fn :
  test_callers (classify_impact json_ok callers ch fn)
  = dedup_from caller_key [] (filter is_test_row callers).
Proof.
  unfold classify_impact. by rewrite (partition_callers_dedup callers ∅ ∅ [] []) by set_solver.
Qed.
End ClassifyLemmas.

(** ** Properties *)

(** C8: The partition accounts for every caller: the production and test lists
    are sub-sequences of the input with one row per (identity, file, depth), they
    hold only rows of their class below the root, every such row is represented,
    and the counts and the route list are those of the lists. *)
Theorem classify_impact_partition json_ok callers ch fn :
  let r := classify_impact json_ok callers ch fn in
  sublist (prod_callers r) callers ∧ sublist (test_callers r) callers
  ∧ NoDup (caller_key <$> prod_callers r) ∧ NoDup (caller_key <$> test_callers r)
  ∧ (∀ c, c ∈ prod_callers r → is_prod_row c) ∧ (∀ c, c ∈ test_callers r → is_test_row c)
  ∧ (∀ c, c ∈ callers → is_prod_row c → caller_key c ∈ caller_key <$> prod_callers r)
  ∧ (∀ c, c ∈ callers → is_test_row c → caller_key c ∈ caller_key <$> test_callers r)
  ∧ test_count r = length (test_callers r)
  ∧ affected_files r
    = size (list_to_set (c_file_path <$> filter is_prod_row callers) : gset string)
  ∧ (∀ c, c ∈ route_callers r ↔ c ∈ prod_callers r ∧ has_route json_ok c = true).
Proof.
  intros r.
  assert (∀ (P : CallerWithRouteInfo → Prop) `{∀ c, Decision (P c)} c, c ∈ callers → P c →
            caller_key c ∈ caller_key <$> dedup_from caller_key [] (filter P callers)) as Hcov.
  { intros P ? c Hc HP. destruct (dedup_from_covers caller_key [] (filter P callers) c)
      as [?%elem_of_nil|(y & Hy & <-)]; [by apply list_elem_of_filter|done|].
    by apply list_elem_of_fmap_2. }
  assert (prod_callers r = dedup_from caller_key [] (filter is_prod_row callers)) as Hprod
    by apply classify_prod.
  assert (test_callers r = dedup_from caller_key [] (filter is_test_row callers)) as Htest
    by apply classify_test.
  assert (affected_files r = size (list_to_set (c_file_path <$> prod_callers r) : gset string)
          ∧ test_count r = length (test_callers r)
          ∧ route_callers r = filter (λ c, has_route json_ok c = true) (prod_callers r))
    as (Hfiles & -> & ->).
  { subst r. unfold classify_impact. by destruct (partition_callers _ _ _). }
  rewrite Hfiles, Hprod, Htest. clear Hfiles. split_and!.
  - etrans; [apply dedup_from_sublist|apply sublist_filter].
  - etrans; [apply dedup_from_sublist|apply sublist_filter].
  - apply NoDup_dedup_from.
  - apply NoDup_dedup_from.
  - by intros c [[? _]%list_elem_of_filter _]%elem_of_dedup_from.
  - by intros c [[? _]%list_elem_of_filter _]%elem_of_dedup_from.
  - apply Hcov.
  - apply Hcov.
  - done.
  - f_equal. apply set_eq. intros p. rewrite !elem_of_list_to_set, !list_elem_of_fmap. split.
    + intros (c & -> & [? _]%elem_of_dedup_from). by exists c.
    + intros (c & -> & [HP Hc]%list_elem_of_filter).
      pose proof (Hcov is_prod_row _ c Hc HP) as (c' & Hk & Hc')%list_elem_of_fmap.
      exists c'. split; [by injection Hk|done].
  - intros c. rewrite list_elem_of_filter. split; intros [? ?]; by split.
Qed.

Lemma dedup_from_app {A K} `{EqDecision K} (key : A → K) seen l1 l2 :
  ∃ k, dedup_from key seen (l1 ++ l2) = dedup_from key seen l1 ++ k.
Proof.
  revert seen. induction l1 as [|x l1 IH]; intros seen; simpl; [by eexists|].
  case_decide; [apply IH|]. destruct (IH (key x :: seen)) as [k ->]. by exists k.
Qed.

Section Risk.
Context (json_ok : string → bool) (ch : string) (fn : bool).

Definition breaking : bool := String.eqb ch "remove" || String.eqb ch "signature".

(** The risk computed from the callers alone, before the UNKNOWN override. *)
Definition caller_risk (r : ImpactClassification) : string :=
  compute_risk_level (length (prod_callers r)) (length (route_callers r)) breaking.

Lemma classify_impact_risk callers :
  let r := classify_impact json_ok callers ch fn in
  (type_warning r = None ∧ risk_level r = caller_risk r
     ∧ ¬ (fn = false ∧ (prod_callers r = [] ∨ caller_risk r = "LOW"))
     ∧ ¬ (prod_callers r = [] ∧ test_callers r = []))
  ∨ (is_Some (type_warning r) ∧ risk_level r = "UNKNOWN"
     ∧ (fn = false ∧ (prod_callers r = [] ∨ caller_risk r = "LOW")
        ∨ prod_callers r = [] ∧ test_callers r = [])).
Proof.
  unfold classify_impact. destruct (partition_callers _ _ _) as [prod test]. simpl.
  unfold caller_risk, breaking. simpl. set (risk := compute_risk_level _ _ _).
  destruct fn; simpl; case_bool_decide as Hp; simpl;
    try (case_bool_decide as Ht; simpl); try destruct (String.eqb_spec risk "LOW") as [Hr|Hr];
    (first [by right; split_and!; [eexists|done|auto]
           |left; split_and!; [done|done|intros [? [?|?]]; congruence|intros [? ?]; congruence]]).
Qed.

Lemma route_callers_eq callers :
  route_callers (classify_impact json_ok callers ch fn)
  = filter (λ c, has_route json_ok c = true) (prod_callers (classify_impact json_ok callers ch fn)).
Proof. unfold classify_impact. by destruct (partition_callers _ _ _). Qed.
End Risk.

(** More callers never lower the verdict: once the risk is known, extending
    the caller list keeps it known and at least as high; and a breaking change of
    a function that has any caller is HIGH. *)
Theorem impact_risk_monotone json_ok callers more ch fn :
  let r := classify_impact json_ok callers ch fn in
  let r' := classify_impact json_ok (callers ++ more) ch fn in
  risk_level r ≠ "UNKNOWN" →
  risk_level r' ≠ "UNKNOWN"
  ∧ risk_order (risk_level r) ≤ risk_order (risk_level r')
  ∧ (breaking ch = true → risk_level r = "HIGH").
Proof.
  intros r r' Hknown.
  destruct (classify_impact_risk json_ok ch fn callers)
    as [(_ & Hrisk & Hn1 & Hn2)|(_ & ? & _)]; [|done]. fold r in Hrisk, Hn1, Hn2.
  assert (∃ k, prod_callers r' = prod_callers r ++ k) as [k Hk].
  { subst r r'. rewrite !classify_prod, filter_app. apply dedup_from_app. }
  assert (∃ k, test_callers r' = test_callers r ++ k) as [k' Hk'].
  { subst r r'. rewrite !classify_test, filter_app. apply dedup_from_app. }
  assert (risk_order (caller_risk ch r) ≤ risk_order (caller_risk ch r')) as Hmono.
  { apply compute_risk_level_mono; [rewrite Hk, length_app; lia| |done].
    subst r r'. rewrite !route_callers_eq, Hk, filter_app, length_app. lia. }
  destruct (classify_impact_risk json_ok ch fn (callers ++ more))
    as [(_ & Hrisk' & _ & _)|(_ & _ & Hbad)].
  - fold r' in Hrisk'. rewrite Hrisk, Hrisk'. split_and!; [|done|].
    + unfold caller_risk.
      destruct (compute_risk_level_cases (length (prod_callers r')) (length (route_callers r'))
                  (breaking ch)) as [->|[->| ->]]; done.
    + intros Hb. unfold caller_risk. rewrite Hb. apply compute_risk_level_breaking.
  - fold r' in Hbad. exfalso. destruct Hbad as [[Hfn [Hnil|Hlow]]|[Hnil Hnil']].
    + rewrite Hk in Hnil. apply app_nil in Hnil as [Hnil _]. by apply Hn1; auto.
    + apply Hn1. split; [done|]. right. rewrite Hlow in Hmono.
      revert Hmono. unfold caller_risk.
      destruct (compute_risk_level_cases (length (prod_callers r)) (length (route_callers r))
                  (breaking ch)) as [->|[->| ->]]; [done|vm_compute; lia..].
    + rewrite Hk in Hnil. rewrite Hk' in Hnil'.
      apply app_nil in Hnil as [Hnil _], Hnil' as [Hnil' _]. by apply Hn2.
Qed.

Definition demo_caller (nm : string) (d : Z) : CallerWithRouteInfo :=
  mkCaller 1 nm "function" "src/a.rs" d None None false.

Lemma impact_risk_monotone_witness :
  let r := classify_impact (λ _, true) [demo_caller "f" 1] "behavior" true in
  let r' := classify_impact (λ _, true) ([demo_caller "f" 1] ++ [demo_caller "g" 2])
              "behavior" true in
  risk_level r' ≠ "UNKNOWN"
  ∧ risk_order (risk_level r) ≤ risk_order (risk_level r')
  ∧ (breaking "behavior" = true → risk_level r = "HIGH").
Proof.
  apply (impact_risk_monotone (λ _, true) [demo_caller "f" 1] [demo_caller "g" 2] "behavior" true).
  by vm_compute.
Defined.

(** C6: The verdict is never drawn from a silently partial set: when the caller
    list is not flagged truncated, every node of the index from which a seed is
    reached within the requested depth along followed call edges is in the list,
    once; and a truncated list always carries its note. *)
Theorem callers_complete db s max_depth min_rank :
  ∃ rc, get_callers_with_route_info_seeded db s max_depth min_rank = Some (Ok rc)
    ∧ NoDup (c_node_id <$> rc_callers rc)
    ∧ (truncated rc = true ↔ is_Some (truncation_note rc))
    ∧ (truncated rc = false → ∀ m n f, (Z.of_nat m <= max_depth)%Z →
         reach (seed_ids db s) (followed db Callers min_rank) m (n_id n) →
         n ∈ db_nodes db → f ∈ db_files db → f_id f = n_file_id n →
         ∃ c, c ∈ rc_callers rc ∧ c_node_id c = n_id n).
Proof.
  destruct (query_direction_list db s max_depth Callers min_rank)
    as (kept & hit & Hq & _ & Hnd & _ & Hcomplete).
  eexists. split.
  { unfold get_callers_with_route_info_seeded, get_call_graph_seeded, query_by_name. simpl.
    rewrite query_direction_clamp, Hq. done. }
  simpl. split_and!.
  - rewrite <-list_fmap_compose. exact Hnd.
  - unfold truncation_note. destruct (truncated _) eqn:E; simpl.
    + split; [by eexists|done].
    + split; [done|by intros []].
  - unfold truncated. simpl. intros [-> Hcap%Z.ltb_ge]%orb_false_iff m n f Hm Hr Hn Hf Hj.
    destruct (Hcomplete eq_refl m n f) as (x & Hx & Hid); [lia|done..|].
    exists (caller_of (fetch_route_metadata_map db (node_id <$> kept)) x).
    split; [by apply list_elem_of_fmap_2|done].
Qed.
