(* ===== verification/ReadingOrder.v ===== *)
(** * The reading order of [tour] ([graph/reading_order.rs])

    Kahn's topological sort over the module dependency edges, prerequisites
    first, breaking an import cycle at the remaining module of smallest indegree.
    [Vec]s indexed by module position are lists of length [n]; every index the
    code uses is a position below [n] (the invariant [kahn_inv] shows it), so
    [!!!] never meets its default. [None] is the [expect] on an empty remainder or
    a loop that did not end in its fuel. *)

From S2P Require Import Prelude Str Domain.

Inductive Role := Entry | Foundational | Core | Mid.

Definition role_as_str (r : Role) : string :=
  match r with
  | Entry => "entry" | Foundational => "foundational" | Core => "core" | Mid => "mid"
  end.

Definition CORE_THRESHOLD : nat := 3.

(** The fields of [ModuleStats], [ModuleDep] and [EntryPoint] the sort reads. *)
Record ModuleStats := mkModule { m_path : string; m_key_symbols : list string }.
Record ModuleDep := mkDep { d_from : string; d_to : string }.
Record EntryPoint := mkEntryPoint { ep_file : string }.

Record ReadingOrderEntry := mkEntry {
  re_path : string;
  re_role : Role;
  re_depended_on_by : nat;
  re_depends_on : list string;
  re_key_symbols : list string;
  re_in_cycle : bool;
}.

Definition dir_of (path : string) : string :=
  match rsplit_once "/" path with Some (dir, _) => dir | None => "<root>" end.

(** ** The graph over positions *)

Record Graph := mkGraph {
  prereqs : list (gset nat);
  dependents : list (list nat);
}.

Definition add_dep (idx : gmap string nat) (g : Graph) (d : ModuleDep) : Graph :=
  match idx !! d_from d, idx !! d_to d with
  | Some fi, Some ti =>
      if fi =? ti then g
      else if decide (ti ∈ prereqs g !!! fi) then g
      else mkGraph (alter (λ s : gset nat, {[ti]} ∪ s) fi (prereqs g))
                   (alter (λ l, l ++ [fi]) ti (dependents g))
  | _, _ => g
  end.

Definition sorted_modules (modules : list ModuleStats) : list ModuleStats :=
  sort_cmp (cmp_by m_path String.compare) modules.

Definition path_index (sorted : list ModuleStats) : gmap string nat :=
  hash_map (imap (λ i m, (m_path m, i)) sorted).

Definition dep_graph (sorted : list ModuleStats) (deps : list ModuleDep) : Graph :=
  foldl (add_dep (path_index sorted))
    (mkGraph (replicate (length sorted) ∅) (replicate (length sorted) [])) deps.

Definition mark_entries (idx : gmap string nat) (n : nat) (eps : list EntryPoint) : list bool :=
  foldl (λ marks ep, match idx !! dir_of (ep_file ep) with
                     | Some i => <[i := true]> marks
                     | None => marks
                     end) (replicate n false) eps.

(** ** Kahn's loop *)

(** The heap pops its smallest position: it is kept sorted. *)
Record Kahn := mkKahn {
  k_indeg : list nat;
  k_emitted : list bool;
  k_in_cycle : list bool;
  k_heap : list nat;
  k_order : list nat;
}.

Definition heap_push (i : nat) (heap : list nat) : list nat := sort_insert Nat.leb i heap.

Definition release_one (emitted : list bool) (acc : list nat * list nat) (d : nat)
    : list nat * list nat :=
  let '(indeg, heap) := acc in
  if negb (emitted !!! d) && (0 <? indeg !!! d) then
    let indeg' := <[d := indeg !!! d - 1]> indeg in
    (indeg', if indeg' !!! d =? 0 then heap_push d heap else heap)
  else (indeg, heap).

(** The remaining module of smallest indegree, ties by position. *)
Definition cut_choice (n : nat) (indeg : list nat) (emitted : list bool) : option nat :=
  head (sort_cmp (cmp_then (cmp_by (λ i, indeg !!! i) Nat.compare) Nat.compare)
          (filter (λ i, emitted !!! i = false) (seq 0 n))).

Definition kahn_pop (n : nat) (st : Kahn) : option (nat * Kahn) :=
  match k_heap st with
  | i :: heap =>
      Some (i, mkKahn (k_indeg st) (k_emitted st) (k_in_cycle st) heap (k_order st))
  | [] =>
      cut ← cut_choice n (k_indeg st) (k_emitted st);
      Some (cut, mkKahn (k_indeg st) (k_emitted st) (<[cut := true]> (k_in_cycle st)) []
                   (k_order st))
  end.

Definition kahn_emit (g : Graph) (next : nat) (st : Kahn) : Kahn :=
  if (k_emitted st !!! next : bool) then st
  else
    let emitted := <[next := true]> (k_emitted st) in
    let '(indeg, heap) :=
      foldl (release_one emitted) (k_indeg st, k_heap st) (dependents g !!! next) in
    mkKahn indeg emitted (k_in_cycle st) heap (k_order st ++ [next]).

Fixpoint kahn_loop (fuel n : nat) (g : Graph) (st : Kahn) : option Kahn :=
  if length (k_order st) <? n then
    match fuel with
    | O => None
    | S fuel' => '(next, st) ← kahn_pop n st; kahn_loop fuel' n g (kahn_emit g next st)
    end
  else Some st.

Definition kahn_init (n : nat) (g : Graph) : Kahn :=
  let indeg := (λ s : gset nat, size s) <$> prereqs g in
  mkKahn indeg (replicate n false) (replicate n false)
    (foldl (λ heap i, if indeg !!! i =? 0 then heap_push i heap else heap) [] (seq 0 n)) [].

Definition entry_at (sorted : list ModuleStats) (g : Graph) (is_entry : list bool) (st : Kahn)
    (i : nat) : option ReadingOrderEntry :=
  m ← sorted !! i;
  depends_on ← mapM (λ p, m_path <$> sorted !! p)
                 (sort_by Nat.leb (elements (prereqs g !!! i)));
  let depended_on_by := length (dependents g !!! i) in
  let role :=
    if (is_entry !!! i : bool) then Entry
    else if bool_decide (depends_on = []) then Foundational
    else if CORE_THRESHOLD <=? depended_on_by then Core
    else Mid in
  Some (mkEntry (m_path m) role depended_on_by depends_on (m_key_symbols m)
          (k_in_cycle st !!! i)).

Definition compute_reading_order (modules : list ModuleStats) (deps : list ModuleDep)
    (entry_points : list EntryPoint) : option (list ReadingOrderEntry) :=
  let n := length modules in
  if n =? 0 then Some []
  else
    let sorted := sorted_modules modules in
    let g := dep_graph sorted deps in
    let is_entry := mark_entries (path_index sorted) n entry_points in
    st ← kahn_loop n n g (kahn_init n g);
    mapM (entry_at sorted g is_entry st) (k_order st).

Example reading_order_chain :
  (λ l : list ReadingOrderEntry, re_path <$> l) <$> compute_reading_order
    [mkModule "cli" []; mkModule "graph" []; mkModule "storage" []]
    [mkDep "cli" "graph"; mkDep "graph" "storage"; mkDep "cli" "storage"] []
  = Some ["storage"; "graph"; "cli"].
Proof. by vm_compute. Qed.

(** ** The loop invariant *)

Record graph_ok (n : nat) (g : Graph) : Prop := {
  go_prereqs : length (prereqs g) = n;
  go_dependents : length (dependents g) = n;
  go_dual t f : t < n → f ∈ dependents g !!! t ↔ f < n ∧ t ∈ prereqs g !!! f;
  go_range f t : f < n → t ∈ prereqs g !!! f → t < n ∧ t ≠ f;
  go_nodup t : t < n → NoDup (dependents g !!! t);
}.

Section KahnProofs.
Context (n : nat) (g : Graph) (Hg : graph_ok n g).

(** The prerequisites of [i] that are not in [order]. *)
Definition missing (i : nat) (order : list nat) : gset nat :=
  prereqs g !!! i ∖ list_to_set order.

Record kahn_inv (st : Kahn) : Prop := {
  ki_indeg_len : length (k_indeg st) = n;
  ki_emitted_len : length (k_emitted st) = n;
  ki_cycle_len : length (k_in_cycle st) = n;
  ki_nodup : NoDup (k_order st);
  ki_order i : i ∈ k_order st ↔ i < n ∧ k_emitted st !!! i = true;
  ki_indeg i : i < n → k_emitted st !!! i = false →
    k_indeg st !!! i = size (missing i (k_order st));
  ki_heap i : i ∈ k_heap st ↔ i < n ∧ k_emitted st !!! i = false ∧ k_indeg st !!! i = 0;
  ki_heap_nodup : NoDup (k_heap st);
  ki_first k i p : k_order st !! k = Some i → k_in_cycle st !!! i = false →
    p ∈ prereqs g !!! i → p ∈ take k (k_order st);
  ki_cycle i : i < n → k_in_cycle st !!! i = true → k_emitted st !!! i = true;
}.

Lemma elem_of_heap_push i x heap : i ∈ heap_push x heap ↔ i = x ∨ i ∈ heap.
Proof. unfold heap_push. by rewrite sort_insert_perm, elem_of_cons. Qed.

(** What releasing one dependent, or a list of them ([Q] says which), does to the
    indegrees and the heap. *)
Definition released (emitted : list bool) (Q : nat → Prop) (indeg heap indeg' heap' : list nat)
    : Prop :=
  length indeg' = length indeg
  ∧ (∀ i, (Q i ∧ emitted !!! i = false → indeg' !!! i = indeg !!! i - 1)
          ∧ (¬ (Q i ∧ emitted !!! i = false) → indeg' !!! i = indeg !!! i))
  ∧ (∀ i, i ∈ heap' ↔ i ∈ heap ∨ (Q i ∧ emitted !!! i = false ∧ indeg !!! i = 1))
  ∧ NoDup heap' ∧ (∀ i, i ∈ heap' → indeg' !!! i = 0).

Lemma release_one_ok emitted indeg heap d :
  d < length indeg → NoDup heap → (∀ i, i ∈ heap → indeg !!! i = 0) →
  let '(indeg', heap') := release_one emitted (indeg, heap) d in
  released emitted (eq d) indeg heap indeg' heap'.
Proof.
  intros Hd Hnd Hz. unfold release_one.
  destruct (negb (emitted !!! d) && (0 <? indeg !!! d)) eqn:E.
  - apply andb_true_iff in E as [Eem%negb_true_iff Epos%Nat.ltb_lt].
    rewrite list_lookup_total_insert_eq by done.
    assert (∀ i, i ≠ d → <[d := indeg !!! d - 1]> indeg !!! i = indeg !!! i) as Hne
      by (intros; by apply list_lookup_total_insert_ne).
    split_and!; [apply length_insert| | | |].
    + intros i. destruct (decide (i = d)) as [->|Hi].
      * rewrite list_lookup_total_insert_eq by done. split; [done|]. intros []. done.
      * rewrite Hne by done. split; [intros [-> _]; done|done].
    + intros i. destruct (Nat.eqb_spec (indeg !!! d - 1) 0); [rewrite elem_of_heap_push|].
      * split; [intros [->|?]; [right; split_and!; [done|done|lia]|by left]|].
        intros [?|(-> & _)]; [by right|by left].
      * split; [by left|]. intros [?|(-> & _ & ?)]; [done|lia].
    + case_match; [|done]. unfold heap_push. rewrite sort_insert_perm.
      constructor; [|done]. intros ?%Hz. lia.
    + intros i Hi. destruct (decide (i = d)) as [->|Hid].
      * rewrite list_lookup_total_insert_eq by done.
        destruct (Nat.eqb_spec (indeg !!! d - 1) 0); [done|]. apply Hz in Hi. lia.
      * rewrite Hne by done. apply Hz. case_match; [|done].
        by apply elem_of_heap_push in Hi as [?|?].
  - assert (emitted !!! d = true ∨ indeg !!! d = 0) as Hor.
    { apply andb_false_iff in E as [?%negb_false_iff|?%Nat.ltb_ge]; [by left|right; lia]. }
    split_and!; [done| | |done|done].
    + intros i. split; [|done]. intros [<- ?]. destruct Hor; [congruence|lia].
    + intros i. split; [by left|]. intros [?|(<- & ? & ?)]; [done|].
      destruct Hor; [congruence|lia].
Qed.

Lemma release_ok emitted ds indeg heap :
  (∀ d, d ∈ ds → d < length indeg) → NoDup ds → NoDup heap →
  (∀ i, i ∈ heap → indeg !!! i = 0) →
  let '(indeg', heap') := foldl (release_one emitted) (indeg, heap) ds in
  released emitted (λ i, i ∈ ds) indeg heap indeg' heap'.
Proof.
  revert indeg heap. induction ds as [|d ds IH]; intros indeg heap Hds Hnd Hh Hz.
  { cbn [foldl]. split_and!; [done| | |done|done]; intros i.
    - split; [|done]. by intros [?%elem_of_nil _].
    - split; [by left|]. by intros [?|[?%elem_of_nil _]]. }
  apply NoDup_cons in Hnd as [Hd Hnd]. cbn [foldl].
  pose proof (release_one_ok emitted indeg heap d) as H1.
  destruct (release_one emitted (indeg, heap) d) as [indeg1 heap1].
  destruct H1 as (Hlen1 & Hind1 & Hheap1 & Hnd1 & Hz1); [apply Hds; by left|done..|].
  specialize (IH indeg1 heap1). destruct (foldl _ _ ds) as [indeg' heap'].
  destruct IH as (Hlen & Hind & Hheap & Hnd' & Hz'); [|done..|].
  { intros x Hx. rewrite Hlen1. apply Hds. by right. }
  split_and!; [congruence| | |done|done]; intros i;
    destruct (Hind i) as [Hi1 Hi2], (Hind1 i) as [Hj1 Hj2]; rewrite elem_of_cons.
  - destruct (decide (d = i)) as [<-|Hne].
    + rewrite Hi2 by (by intros [? _]). split.
      * intros [_ ?]. by apply Hj1.
      * intros Hn. apply Hj2. intros [_ ?]. apply Hn. split; [by left|done].
    + split.
      * intros [[?|?] ?]; [congruence|]. rewrite Hi1 by done. rewrite Hj2; [done|].
        by intros [? _].
      * intros Hn. rewrite Hi2 by (intros [? ?]; apply Hn; auto). apply Hj2. by intros [? _].
  - rewrite Hheap, Hheap1. destruct (decide (d = i)) as [<-|Hne].
    + split; [|intuition done]. intros [[?|?]|(? & _)]; [by left| |done]. right. intuition.
    + rewrite Hj2 by (by intros [? _]). split; [intuition congruence|].
      intros [?|([?|?] & ? & ?)]; [by auto|congruence|by auto].
Qed.

(** [next] has been taken out of the heap, or cut. *)
Record popped (st : Kahn) (next : nat) (st1 : Kahn) : Prop := {
  pp_indeg : k_indeg st1 = k_indeg st;
  pp_emitted : k_emitted st1 = k_emitted st;
  pp_order : k_order st1 = k_order st;
  pp_next : next < n ∧ k_emitted st !!! next = false;
  pp_heap i : i ∈ k_heap st1 ↔ i ≠ next ∧ i ∈ k_heap st;
  pp_heap_nodup : NoDup (k_heap st1);
  pp_cycle_len : length (k_in_cycle st1) = n;
  pp_cycle i : i ≠ next → k_in_cycle st1 !!! i = k_in_cycle st !!! i;
  pp_clean : k_in_cycle st1 !!! next = false → k_indeg st !!! next = 0;
  pp_cut : k_in_cycle st1 !!! next = true → k_heap st = [];
}.

Lemma cut_choice_ok indeg emitted :
  (∃ i, i < n ∧ emitted !!! i = false) →
  ∃ cut, cut_choice n indeg emitted = Some cut ∧ cut < n ∧ emitted !!! cut = false.
Proof.
  intros (i & Hi & He). unfold cut_choice, sort_cmp.
  match goal with |- context [sort_by ?c ?l] =>
    assert (∀ x, x ∈ sort_by c l ↔ x < n ∧ emitted !!! x = false) as Hin end.
  { intros x. rewrite elem_of_sort_by, list_elem_of_filter, elem_of_seq0. intuition. }
  destruct (sort_by _ _) as [|cut l].
  - exfalso. by apply (not_elem_of_nil i), Hin.
  - exists cut. split; [done|]. apply Hin. by left.
Qed.

Lemma unemitted_exists st :
  kahn_inv st → length (k_order st) < n → ∃ i, i < n ∧ k_emitted st !!! i = false.
Proof.
  intros Hinv Hlen. destruct (decide (Exists (λ i, k_emitted st !!! i = false) (seq 0 n)))
    as [(i & ?%elem_of_seq0 & ?)%Exists_exists|Hno]; [by exists i|].
  exfalso. assert (length (seq 0 n) ≤ length (k_order st)) as Hle; [|rewrite length_seq in Hle; lia].
  apply submseteq_length, NoDup_submseteq; [apply NoDup_seq|].
  intros i Hi. apply (ki_order _ Hinv). rewrite elem_of_seq0 in Hi. split; [done|].
  destruct (k_emitted st !!! i) eqn:E; [done|]. exfalso. apply Hno, Exists_exists.
  exists i. by rewrite elem_of_seq0.
Qed.

Lemma kahn_pop_ok st :
  kahn_inv st → length (k_order st) < n →
  ∃ next st1, kahn_pop n st = Some (next, st1) ∧ popped st next st1.
Proof.
  intros Hinv Hlen. unfold kahn_pop. pose proof (ki_heap_nodup _ Hinv) as Hnd.
  pose proof (ki_heap _ Hinv) as Hheap. destruct (k_heap st) as [|i heap] eqn:Eh.
  - destruct (cut_choice_ok (k_indeg st) (k_emitted st)) as (cut & -> & Hcut & Hem);
      [by apply unemitted_exists|].
    do 2 eexists. split; [done|]. split; simpl; try done.
    + intros x. rewrite Eh. split; [by intros ?%elem_of_nil|by intros [_ ?]].
    + rewrite length_insert. apply (ki_cycle_len _ Hinv).
    + intros x Hx. by apply list_lookup_total_insert_ne.
    + by rewrite list_lookup_total_insert_eq by (by rewrite (ki_cycle_len _ Hinv)).
  - destruct (proj1 (Hheap i)) as (Hi & Hem & Hz); [by left|].
    apply NoDup_cons in Hnd as [Hni Hnd].
    do 2 eexists. split; [done|]. split; simpl; try done.
    + intros x. rewrite Eh, elem_of_cons. split; [intros ?; split; [congruence|by right]|].
      by intros [? [?|?]].
    + apply (ki_cycle_len _ Hinv).
    + intros Hc. apply (ki_cycle _ Hinv) in Hc; [congruence|done].
Qed.

Lemma missing_snoc i order next :
  next ∉ order → next ∈ prereqs g !!! i →
  size (missing i (order ++ [next])) = size (missing i order) - 1 ∧ 0 < size (missing i order).
Proof.
  intros Hno Hin. unfold missing.
  assert (next ∈ prereqs g !!! i ∖ list_to_set order) as Hm
    by (rewrite elem_of_difference, elem_of_list_to_set; done).
  assert (prereqs g !!! i ∖ list_to_set (order ++ [next])
          = (prereqs g !!! i ∖ list_to_set order) ∖ {[next]}) as ->.
  { rewrite list_to_set_app_L. simpl. set_solver. }
  rewrite size_difference by set_solver. rewrite size_singleton. split; [lia|].
  apply Nat.lt_le_trans with (size ({[next]} : gset nat)); [by rewrite size_singleton; lia|].
  apply subseteq_size. set_solver.
Qed.

Lemma missing_snoc_ne i order next :
  next ∉ prereqs g !!! i → missing i (order ++ [next]) = missing i order.
Proof. intros Hno. unfold missing. rewrite list_to_set_app_L. simpl. set_solver. Qed.

(** The indegrees and the heap once the dependents of [next] are released. *)
Section Emit.
Context (st st1 : Kahn) (next : nat) (emitted : list bool) (indeg heap : list nat).
Context (Hinv : kahn_inv st) (Hpop : popped st next st1).
Context (Hemf : ∀ i, emitted !!! i = false ↔ i ≠ next ∧ k_emitted st !!! i = false).
Context (Hrel : released emitted (λ i, i ∈ dependents g !!! next) (k_indeg st) (k_heap st1) indeg heap).

Lemma emit_not_in_order : next ∉ k_order st.
Proof. intros [_ ?]%(ki_order _ Hinv). destruct (pp_next _ _ _ Hpop). congruence. Qed.

Lemma emit_indeg i :
  i < n → emitted !!! i = false →
  indeg !!! i = size (missing i (k_order st ++ [next])) ∧ (next ∈ prereqs g !!! i → 0 < k_indeg st !!! i).
Proof.
  intros Hin Hie. destruct (pp_next _ _ _ Hpop) as [Hn _]. destruct Hrel as (_ & Hind & _). destruct (Hind i) as [Hin1 Hin2].
  pose proof Hie as [Hine Hie']%Hemf. pose proof (ki_indeg _ Hinv i Hin Hie') as Hold.
  destruct (decide (next ∈ prereqs g !!! i)) as [Hp|Hp].
  - destruct (missing_snoc i (k_order st) next emit_not_in_order Hp) as [-> ?].
    rewrite Hin1, Hold; [split; [done|by intros]|]. split; [|done]. by apply (go_dual _ _ Hg).
  - rewrite missing_snoc_ne, <-Hold by done. split; [|done]. apply Hin2.
    intros [[_ ?]%(go_dual _ _ Hg) _]; done.
Qed.

Lemma emit_heap i : i ∈ heap ↔ i < n ∧ emitted !!! i = false ∧ indeg !!! i = 0.
Proof.
  destruct (pp_next _ _ _ Hpop) as [Hn _]. pose proof (pp_heap _ _ _ Hpop) as Hheap. pose proof emit_indeg as Hnew.
  destruct Hrel as (_ & Hind & Hh & _).
  rewrite Hh, Hheap, (ki_heap _ Hinv). split.
  - intros [(? & ? & Hem' & Hz)|(Hdep & Hie & Hone)].
    + assert (emitted !!! i = false) as Hie by (by apply Hemf). split_and!; [done|done|].
      destruct (Hind i) as [_ Hin2]. rewrite Hin2; [done|].
      intros [[_ Hp]%(go_dual _ _ Hg) _]; [|done].
      destruct (Hnew i) as [_ Hpos]; [done|done|]. specialize (Hpos Hp). lia.
    + apply (go_dual _ _ Hg) in Hdep as [Hin Hp] ; [|done]. split_and!; [done|done|].
      destruct (Hind i) as [Hin1 _]. rewrite Hin1; [lia|]. split; [|done].
      by apply (go_dual _ _ Hg).
  - intros (Hin & Hie & Hz). pose proof Hie as [Hine Hie']%Hemf.
    destruct (decide (i ∈ dependents g !!! next)) as [Hdep|Hdep].
    + right. split_and!; [done|done|]. destruct (Hind i) as [Hin1 _]. rewrite Hin1 in Hz by done.
      apply (go_dual _ _ Hg) in Hdep as [_ Hp]; [|done].
      destruct (Hnew i Hin Hie) as [_ Hpos]. specialize (Hpos Hp). lia.
    + left. split_and!; [done..|]. destruct (Hind i) as [_ Hin2]. rewrite Hin2 in Hz; [done|].
      by intros [? _].
Qed.

Lemma emit_first k i p :
  (k_order st ++ [next]) !! k = Some i → k_in_cycle st1 !!! i = false → p ∈ prereqs g !!! i → p ∈ take k (k_order st ++ [next]).
Proof.
  clear Hemf Hrel. destruct (pp_next _ _ _ Hpop) as [Hn Hem]. pose proof (pp_cycle _ _ _ Hpop) as Hcy. pose proof (pp_clean _ _ _ Hpop) as Hclean.
  pose proof emit_not_in_order as Hno.
  intros Hk Hc Hp. apply lookup_app_Some in Hk as [Hk|[Hlk Hk]].
  - assert (i ≠ next) as Hne by (intros ->; by apply list_elem_of_lookup_2 in Hk).
    rewrite Hcy in Hc by done.
    rewrite take_app_le by (apply lookup_lt_Some in Hk; lia).
    by eapply (ki_first _ Hinv).
  - apply list_lookup_singleton_Some in Hk as [Hk <-].
    rewrite take_app_le, take_ge by lia. specialize (Hclean Hc).
    rewrite (ki_indeg _ Hinv) in Hclean by done. apply size_empty_inv in Hclean.
    destruct (decide (p ∈ k_order st)) as [|Hpn]; [done|]. exfalso.
    unfold missing in Hclean. set_solver.
Qed.
End Emit.

Lemma kahn_emit_ok st next st1 :
  kahn_inv st → popped st next st1 →
  kahn_inv (kahn_emit g next st1) ∧ k_order (kahn_emit g next st1) = k_order st ++ [next]
  ∧ k_in_cycle (kahn_emit g next st1) = k_in_cycle st1.
Proof.
  intros Hinv Hpop. pose proof Hpop as [Hi He Ho [Hn Hem] Hheap Hhnd Hcl Hcy _ _]. unfold kahn_emit.
  rewrite He, Hem, Hi, Ho.
  set (emitted := <[next := true]> (k_emitted st)).
  assert (∀ i, emitted !!! i = true ↔ i = next ∨ k_emitted st !!! i = true) as Hemi.
  { intros i. unfold emitted. destruct (decide (i = next)) as [->|Hne].
    - rewrite list_lookup_total_insert_eq by (by rewrite (ki_emitted_len _ Hinv)). intuition.
    - rewrite list_lookup_total_insert_ne by done. intuition. }
  assert (∀ i, emitted !!! i = false ↔ i ≠ next ∧ k_emitted st !!! i = false) as Hemf.
  { intros i. rewrite <-!not_true_iff_false, Hemi. intuition. }
  pose proof (release_ok emitted (dependents g !!! next) (k_indeg st) (k_heap st1)) as Hrel.
  destruct (foldl _ _ _) as [indeg heap]. simpl.
  destruct Hrel as (Hlen & Hind & Hh & Hnd & Hz).
  { intros d [? _]%(go_dual _ _ Hg); [by rewrite (ki_indeg_len _ Hinv)|done]. }
  { by apply (go_nodup _ _ Hg). }
  { done. }
  { intros i [_ ?]%Hheap. by apply (ki_heap _ Hinv). }
  assert (released emitted (λ i, i ∈ dependents g !!! next) (k_indeg st) (k_heap st1) indeg heap) as Hrel by done.
  split_and!; [|done|done]. split; simpl; try done.
  - by rewrite Hlen, (ki_indeg_len _ Hinv).
  - unfold emitted. by rewrite length_insert, (ki_emitted_len _ Hinv).
  - apply NoDup_app. split_and!; [apply (ki_nodup _ Hinv)| |apply NoDup_singleton].
    intros x Hx ->%list_elem_of_singleton. by apply (emit_not_in_order st st1 next).
  - intros i. rewrite elem_of_app, list_elem_of_singleton, (ki_order _ Hinv), Hemi.
    split; [intros [[? ?]| ->]; auto|intros [? [-> | ?]]; auto].
  - by apply (emit_indeg st st1 next emitted indeg heap).
  - by apply (emit_heap st st1 next emitted indeg heap).
  - by apply (emit_first st st1 next).
  - intros i Hin Hc. apply Hemi. destruct (decide (i = next)) as [->|Hne]; [by left|].
    right. apply (ki_cycle _ Hinv); [done|]. by rewrite <-Hcy.
Qed.

Lemma foldl_heap_push (P : nat → Prop) `{∀ i, Decision (P i)} (f : nat → bool) l heap :
  (∀ i, f i = true ↔ P i) → NoDup (l ++ heap) →
  let heap' := foldl (λ h i, if f i then heap_push i h else h) heap l in
  NoDup heap' ∧ ∀ i, i ∈ heap' ↔ i ∈ heap ∨ (i ∈ l ∧ P i).
Proof.
  intros Hf. revert heap. induction l as [|x l IH]; intros heap Hnd; simpl.
  { split; [done|]. intros i. rewrite elem_of_nil. intuition. }
  simpl in Hnd. apply NoDup_cons in Hnd as [Hx Hnd].
  assert (NoDup (l ++ (if f x then heap_push x heap else heap))) as Hnd'.
  { destruct (f x); [|done]. unfold heap_push. rewrite sort_insert_perm.
    rewrite <-Permutation_middle. by constructor. }
  destruct (IH _ Hnd') as [? Hin]. split; [done|]. intros i. rewrite Hin, elem_of_cons.
  pose proof (Hf x). destruct (f x); [rewrite elem_of_heap_push|]; split;
    intuition (subst; intuition congruence).
Qed.

Lemma kahn_init_ok : kahn_inv (kahn_init n g).
Proof.
  destruct (foldl_heap_push (λ i, ((λ s : gset nat, size s) <$> prereqs g) !!! i = 0)
              (λ i, ((λ s : gset nat, size s) <$> prereqs g) !!! i =? 0) (seq 0 n) []) as [Hnd Hin].
  { intros i. apply Nat.eqb_eq. }
  { rewrite app_nil_r. apply NoDup_seq. }
  assert (∀ i, i < n → replicate n false !!! i = false) as Hrep
    by (intros; by apply lookup_total_replicate_2).
  split; simpl; try done.
  - by rewrite length_fmap, (go_prereqs _ _ Hg).
  - by rewrite length_replicate.
  - by rewrite length_replicate.
  - apply NoDup_nil_2.
  - intros i. split; [by intros ?%elem_of_nil|]. intros [? Ht]. rewrite Hrep in Ht; done.
  - intros i Hi _. rewrite (list_lookup_total_fmap (λ s : gset nat, size s) (prereqs g))
      by (by rewrite (go_prereqs _ _ Hg)).
    unfold missing. simpl. by rewrite difference_empty_L.
  - intros i. unfold kahn_init. simpl. rewrite (Hin i), elem_of_nil, elem_of_seq0.
    split; [intros [[]|[? ?]]; auto|intros (? & _ & ?); auto].
Qed.

Lemma kahn_loop_ok fuel st :
  kahn_inv st → n ≤ length (k_order st) + fuel →
  ∃ st', kahn_loop fuel n g st = Some st' ∧ kahn_inv st' ∧ n ≤ length (k_order st').
Proof.
  revert st. induction fuel as [|fuel IH]; intros st Hinv Hfuel; simpl;
    (destruct (Nat.ltb_spec (length (k_order st)) n) as [Hlt|Hge]; [|by exists st]); [lia|].
  destruct (kahn_pop_ok st Hinv Hlt) as (next & st1 & -> & Hp). simpl.
  destruct (kahn_emit_ok st next st1 Hinv Hp) as (Hinv' & Ho & _).
  apply IH; [done|]. rewrite Ho, length_app. simpl. lia.
Qed.

(** Without a cycle no module is ever cut: the smallest remaining one in a
    topological rank has all its prerequisites. *)
Context (rank : nat → nat).
Hypothesis acyclic : ∀ i p, i < n → p ∈ prereqs g !!! i → rank p < rank i.

Lemma acyclic_heap st :
  kahn_inv st → k_heap st = [] → ∀ i, i < n → k_emitted st !!! i = true.
Proof.
  intros Hinv Hnil i. remember (rank i) as k eqn:Hk. revert i Hk.
  induction (lt_wf k) as [k _ IH]. intros i -> Hi.
  destruct (k_emitted st !!! i) eqn:Hem; [done|]. exfalso.
  assert (size (missing i (k_order st)) ≠ 0) as Hne.
  { rewrite <-(ki_indeg _ Hinv) by done. intros Hz.
    apply (not_elem_of_nil i). rewrite <-Hnil. by apply (ki_heap _ Hinv). }
  apply size_non_empty_iff, set_choose in Hne as [p Hp]. unfold missing in Hp.
  apply elem_of_difference in Hp as [Hp Hno]. rewrite elem_of_list_to_set in Hno.
  destruct (go_range _ _ Hg i p Hi Hp) as [Hpn _]. apply Hno, (ki_order _ Hinv).
  split; [done|]. eapply IH; [by apply acyclic|done|done].
Qed.

Lemma acyclic_loop fuel st st' :
  kahn_inv st → (∀ i, i < n → k_in_cycle st !!! i = false) →
  kahn_loop fuel n g st = Some st' → ∀ i, i < n → k_in_cycle st' !!! i = false.
Proof.
  revert st. induction fuel as [|fuel IH]; intros st Hinv Hc; simpl;
    (destruct (Nat.ltb_spec (length (k_order st)) n) as [Hlt|Hge]; [|by intros [= <-]]); [done|].
  destruct (kahn_pop_ok st Hinv Hlt) as (next & st1 & -> & Hp). simpl.
  destruct (kahn_emit_ok st next st1 Hinv Hp) as (Hinv' & _ & Hcy). apply IH; [done|].
  intros i Hi. rewrite Hcy. destruct (decide (i = next)) as [->|Hne].
  - destruct (k_in_cycle st1 !!! next) eqn:E; [|done].
    apply (pp_cut _ _ _ Hp) in E. destruct (pp_next _ _ _ Hp) as [Hn Hem].
    rewrite acyclic_heap in Hem; done.
  - rewrite (pp_cycle _ _ _ Hp) by done. by apply Hc.
Qed.
End KahnProofs.

(** ** The graph is that of the in-scope dependencies *)

Section GraphProofs.
Context (sorted : list ModuleStats).

Lemma path_index_lookup p i :
  path_index sorted !! p = Some i → ∃ m, sorted !! i = Some m ∧ m_path m = p.
Proof.
  intros [j Hj]%hash_map_elem%list_elem_of_lookup. rewrite list_lookup_imap in Hj.
  destruct (sorted !! j) eqn:E; simplify_eq/=. eauto.
Qed.

Lemma path_index_total i m :
  sorted !! i = Some m → is_Some (path_index sorted !! m_path m).
Proof.
  intros Hi. apply (hash_map_is_Some _ _ i), list_elem_of_lookup. exists i.
  by rewrite list_lookup_imap, Hi.
Qed.

(** [f] imports [t], both in scope and different. *)
Definition imports_pos (deps : list ModuleDep) (f t : nat) : Prop :=
  ∃ d, d ∈ deps ∧ path_index sorted !! d_from d = Some f
       ∧ path_index sorted !! d_to d = Some t ∧ f ≠ t.

Definition graph_of (deps : list ModuleDep) (g : Graph) : Prop :=
  graph_ok (length sorted) g
  ∧ ∀ f t, f < length sorted → t ∈ prereqs g !!! f ↔ imports_pos deps f t.

Lemma graph_of_nil :
  graph_of [] (mkGraph (replicate (length sorted) ∅) (replicate (length sorted) [])).
Proof.
  assert (∀ i, i < length sorted → replicate (length sorted) (∅ : gset nat) !!! i = ∅) as Hp
    by (intros; by apply lookup_total_replicate_2).
  assert (∀ i, i < length sorted → replicate (length sorted) ([] : list nat) !!! i = []) as Hd
    by (intros; by apply lookup_total_replicate_2).
  split; [split; simpl|]; simpl.
  - apply length_replicate.
  - apply length_replicate.
  - intros t f Ht. rewrite Hd by done. split; [by intros ?%elem_of_nil|].
    intros [Hf Hin]. rewrite Hp in Hin by done. set_solver.
  - intros f t Hf. rewrite Hp by done. set_solver.
  - intros t Ht. rewrite Hd by done. apply NoDup_nil_2.
  - intros f t Hf. rewrite Hp by done. split; [set_solver|].
    by intros (d & ?%elem_of_nil & _).
Qed.

Lemma imports_pos_snoc deps d f t :
  imports_pos (deps ++ [d]) f t
  ↔ imports_pos deps f t ∨ (path_index sorted !! d_from d = Some f
                            ∧ path_index sorted !! d_to d = Some t ∧ f ≠ t).
Proof.
  unfold imports_pos. setoid_rewrite elem_of_app. setoid_rewrite list_elem_of_singleton. split.
  - intros (d' & [?| ->] & ?); [left; by exists d'|by right].
  - intros [(d' & ? & ?)|?]; [exists d'; auto|exists d; auto].
Qed.

Lemma graph_of_snoc deps g d :
  graph_of deps g → graph_of (deps ++ [d]) (add_dep (path_index sorted) g d).
Proof.
  intros [Hg Hsem]. unfold add_dep.
  destruct (path_index sorted !! d_from d) as [fi|] eqn:Ef.
  2:{ split; [done|]. intros f t Hf. rewrite imports_pos_snoc, Hsem by done. naive_solver. }
  destruct (path_index sorted !! d_to d) as [ti|] eqn:Et.
  2:{ split; [done|]. intros f t Hf. rewrite imports_pos_snoc, Hsem by done. naive_solver. }
  destruct (Nat.eqb_spec fi ti) as [->|Hne].
  { split; [done|]. intros f t Hf. rewrite imports_pos_snoc, Hsem by done. naive_solver. }
  pose proof (path_index_lookup _ _ Ef) as (mf & Hmf%lookup_lt_Some & _).
  pose proof (path_index_lookup _ _ Et) as (mt & Hmt%lookup_lt_Some & _).
  case_decide as Hin.
  { split; [done|]. intros f t Hf. rewrite imports_pos_snoc, Hsem by done.
    split; [by left|]. intros [?|(Hf' & Ht' & _)]; [done|].
    rewrite <-Hsem by done. rewrite Ef in Hf'. rewrite Et in Ht'. by simplify_eq. }
  assert (∀ f, alter (λ s : gset nat, {[ti]} ∪ s) fi (prereqs g) !!! f
               = if decide (f = fi) then {[ti]} ∪ prereqs g !!! fi else prereqs g !!! f) as Hpre.
  { intros f. case_decide as Hff; [subst f|by apply list_lookup_total_alter_ne].
    by rewrite list_lookup_total_alter_eq by (by rewrite (go_prereqs _ _ Hg)). }
  assert (∀ t, alter (λ l, l ++ [fi]) ti (dependents g) !!! t
               = if decide (t = ti) then dependents g !!! ti ++ [fi] else dependents g !!! t) as Hdep.
  { intros t. case_decide as Htt; [subst t|by apply list_lookup_total_alter_ne].
    by rewrite list_lookup_total_alter_eq by (by rewrite (go_dependents _ _ Hg)). }
  assert (∀ f t, f < length sorted →
            t ∈ alter (λ s : gset nat, {[ti]} ∪ s) fi (prereqs g) !!! f
            ↔ t ∈ prereqs g !!! f ∨ (f = fi ∧ t = ti)) as Hin'.
  { intros f t Hf. rewrite Hpre. case_decide; subst; set_solver. }
  split; [split; simpl|]; simpl.
  - rewrite length_alter. apply (go_prereqs _ _ Hg).
  - rewrite length_alter. apply (go_dependents _ _ Hg).
  - intros t f Ht. rewrite Hdep. assert (f ∈ dependents g !!! t ↔ f < length sorted ∧ t ∈ prereqs g !!! f)
      as Hdual by (by apply (go_dual _ _ Hg)).
    case_decide as Htt.
    + subst t. rewrite elem_of_app, list_elem_of_singleton, Hdual. split.
      * intros [[? ?]| ->]; [split; [done|]; apply Hin'; auto|].
        split; [done|]. apply Hin'; auto.
      * intros [Hf [?|[-> _]]%Hin']; auto.
    + rewrite Hdual. split; intros [Hf Ht']; (split; [done|]); apply Hin' in Ht' || apply Hin';
        naive_solver.
  - intros f t Hf. rewrite Hin' by done. intros [?|[-> ->]]; [by apply (go_range _ _ Hg)|done].
  - intros t Ht. rewrite Hdep. case_decide as Htt; [subst t|by apply (go_nodup _ _ Hg)].
    apply NoDup_app. split_and!; [by apply (go_nodup _ _ Hg)| |apply NoDup_singleton].
    intros x Hx ->%list_elem_of_singleton. by apply (go_dual _ _ Hg) in Hx as [_ ?].
  - intros f t Hf. rewrite Hin', Hsem, imports_pos_snoc by done. split.
    + intros [?|[-> ->]]; [by left|by right].
    + intros [?|(? & ? & _)]; [by left|right]. split; congruence.
Qed.

Lemma dep_graph_ok deps : graph_of deps (dep_graph sorted deps).
Proof.
  unfold dep_graph. induction deps as [|d deps IH] using rev_ind; [apply graph_of_nil|].
  rewrite foldl_snoc. by apply graph_of_snoc.
Qed.
End GraphProofs.

(** ** Emitting the entries *)

Definition path_at (sorted : list ModuleStats) (i : nat) : string :=
  default "" (m_path <$> sorted !! i).

Record entry_spec (sorted : list ModuleStats) (g : Graph) (st : Kahn) (i : nat)
    (e : ReadingOrderEntry) : Prop := {
  es_path : re_path e = path_at sorted i;
  es_cycle : re_in_cycle e = k_in_cycle st !!! i;
  es_depends q : q ∈ re_depends_on e ↔ ∃ t, t ∈ prereqs g !!! i ∧ q = path_at sorted t;
}.

Lemma entry_at_ok sorted g is_entry st i :
  graph_ok (length sorted) g → i < length sorted →
  ∃ e, entry_at sorted g is_entry st i = Some e ∧ entry_spec sorted g st i e.
Proof.
  intros Hg Hi. destruct (lookup_lt_is_Some_2 sorted i Hi) as [m Hm].
  unfold entry_at. rewrite Hm. simpl.
  destruct (mapM_total (λ p, m_path <$> sorted !! p) (sort_by Nat.leb (elements (prereqs g !!! i))))
    as [ds Hds].
  { intros p Hp. rewrite elem_of_sort_by, elem_of_elements in Hp.
    destruct (go_range _ _ Hg i p Hi Hp) as [Hp' _].
    destruct (lookup_lt_is_Some_2 sorted p Hp') as [m' ->]. by eexists. }
  rewrite Hds. simpl. eexists. split; [done|]. split; simpl; [|done|].
  - unfold path_at. by rewrite Hm.
  - intros q. rewrite (elem_of_mapM _ _ _ _ Hds).
    setoid_rewrite elem_of_sort_by. setoid_rewrite elem_of_elements. unfold path_at.
    split; intros (t & Ht & Hq); exists t; (split; [done|]).
    + by rewrite Hq.
    + destruct (go_range _ _ Hg i t Hi Ht) as [Ht' _].
      destruct (lookup_lt_is_Some_2 sorted t Ht') as [m' Hm']. rewrite Hm' in *. by subst.
Qed.

Lemma mapM_Forall2_total {A B} (f : A → option B) (R : A → B → Prop) l :
  (∀ x, x ∈ l → ∃ y, f x = Some y ∧ R x y) → ∃ k, mapM f l = Some k ∧ Forall2 R l k.
Proof.
  induction l as [|x l IH]; intros Hl; [by exists []|].
  destruct (Hl x) as (y & Hy & HR); [by left|].
  destruct IH as (k & Hk & HF); [intros; apply Hl; by right|].
  exists (y :: k). simpl. rewrite Hy, Hk. simpl. split; [done|by constructor].
Qed.

Lemma compute_reading_order_run modules deps eps :
  let sorted := sorted_modules modules in
  let n := length sorted in
  let g := dep_graph sorted deps in
  ∃ st es, kahn_loop n n g (kahn_init n g) = Some st ∧ kahn_inv n g st
    ∧ n ≤ length (k_order st)
    ∧ compute_reading_order modules deps eps = Some es
    ∧ Forall2 (entry_spec sorted g st) (k_order st) es.
Proof.
  intros sorted n g. destruct (dep_graph_ok sorted deps) as [Hg _]. fold g n in Hg.
  destruct (kahn_loop_ok n g Hg n (kahn_init n g)) as (st & Hst & Hinv & Hlen);
    [by apply kahn_init_ok|lia|].
  destruct (mapM_Forall2_total (entry_at sorted g (mark_entries (path_index sorted) n eps) st)
              (entry_spec sorted g st) (k_order st)) as (es & Hes & HF).
  { intros i [Hi _]%(ki_order _ _ _ Hinv). by apply entry_at_ok. }
  exists st, es. split_and!; [done..| |done].
  unfold compute_reading_order. fold sorted g.
  assert (length modules = n) as -> by (unfold n, sorted, sorted_modules, sort_cmp;
                                         by rewrite length_sort_by).
  rewrite Hst. simpl. destruct (Nat.eqb_spec n 0) as [Hn|]; [|done].
  f_equal. destruct (k_order st) as [|i l] eqn:E; [by inversion HF|].
  assert (i ∈ k_order st) as [Hi _]%(ki_order _ _ _ Hinv) by (rewrite E; left). lia.
Qed.

(** The in-scope imports of the specification. *)
Definition imports (modules : list ModuleStats) (deps : list ModuleDep) (p q : string) : Prop :=
  p ∈ m_path <$> modules ∧ q ∈ m_path <$> modules ∧ p ≠ q ∧ mkDep p q ∈ deps.

Lemma imports_pos_iff modules deps f t :
  let sorted := sorted_modules modules in
  NoDup (m_path <$> modules) → f < length sorted → t < length sorted →
  imports_pos sorted deps f t ↔ imports modules deps (path_at sorted f) (path_at sorted t).
Proof.
  intros sorted Hnd Hf Ht.
  assert (Hperm : sorted ≡ₚ modules) by apply sort_by_perm.
  assert (NoDup (m_path <$> sorted)) as Hnd' by by rewrite Hperm.
  destruct (lookup_lt_is_Some_2 sorted f Hf) as [mf Hmf].
  destruct (lookup_lt_is_Some_2 sorted t Ht) as [mt Hmt].
  unfold path_at. rewrite Hmf, Hmt. simpl.
  assert (∀ i m p, sorted !! i = Some m → path_index sorted !! p = Some i ↔ p = m_path m) as Hidx.
  { intros i m p Hi. split.
    - intros (m' & ? & <-)%path_index_lookup. congruence.
    - intros ->. destruct (path_index_total sorted i m Hi) as [j Hj]. rewrite Hj. f_equal.
      destruct (path_index_lookup sorted _ _ Hj) as (m' & Hm' & Hp).
      apply (NoDup_lookup (m_path <$> sorted) _ _ (m_path m)); [done|..];
        rewrite list_lookup_fmap; [rewrite Hm'|rewrite Hi]; simpl; congruence. }
  unfold imports_pos, imports. setoid_rewrite (Hidx f mf); [|done].
  setoid_rewrite (Hidx t mt); [|done].
  assert (∀ i m, sorted !! i = Some m → m_path m ∈ m_path <$> modules) as Hmem.
  { intros i m Hi%list_elem_of_lookup_2. rewrite <-Hperm. by apply list_elem_of_fmap_2. }
  split.
  - intros ([df dt] & Hd & Hdf & Hdt & Hne). simpl in *. subst.
    split_and!; [by eapply Hmem|by eapply Hmem| |done].
    intros Heq. apply Hne. apply (NoDup_lookup (m_path <$> sorted) _ _ (m_path mf)); [done|..];
      rewrite list_lookup_fmap; [by rewrite Hmf|rewrite Hmt]. simpl. congruence.
  - intros (_ & _ & Hne & Hd). eexists. split; [exact Hd|]. split_and!; [done..|].
    intros ->. congruence.
Qed.

Lemma kahn_order_perm n g st :
  kahn_inv n g st → n ≤ length (k_order st) → k_order st ≡ₚ seq 0 n.
Proof.
  intros Hinv Hlen. apply submseteq_length_Permutation; [|by rewrite length_seq].
  apply NoDup_submseteq; [apply (ki_nodup _ _ _ Hinv)|].
  intros j [Hj _]%(ki_order _ _ _ Hinv). by apply elem_of_seq0.
Qed.

Lemma path_at_seq sorted : path_at sorted <$> seq 0 (length sorted) = m_path <$> sorted.
Proof.
  apply list_eq. intros i. rewrite !list_lookup_fmap.
  destruct (decide (i < length sorted)) as [Hi|Hi].
  - rewrite lookup_seq_lt by done. simpl. unfold path_at.
    by destruct (lookup_lt_is_Some_2 sorted i Hi) as [m ->].
  - rewrite lookup_seq_ge, lookup_ge_None_2 by lia. done.
Qed.

Lemma entries_paths sorted g st l es :
  Forall2 (entry_spec sorted g st) l es → re_path <$> es = path_at sorted <$> l.
Proof.
  induction 1 as [|i e l es He _ IH]; [done|].
  by rewrite !fmap_cons, IH, (es_path _ _ _ _ _ He).
Qed.

(** C7: The reading order lists every module exactly once, with the modules it
    imports in scope; and a module that was not cut out of a cycle comes after
    every module it imports. The sort neither panics nor runs on. *)
Theorem reading_order_ok modules deps eps :
  NoDup (m_path <$> modules) →
  ∃ es, compute_reading_order modules deps eps = Some es
    ∧ re_path <$> es ≡ₚ m_path <$> modules
    ∧ (∀ e q, e ∈ es → q ∈ re_depends_on e ↔ imports modules deps (re_path e) q)
    ∧ (∀ k e q, es !! k = Some e → re_in_cycle e = false →
         imports modules deps (re_path e) q → q ∈ re_path <$> take k es).
Proof.
  intros Hnd. destruct (compute_reading_order_run modules deps eps)
    as (st & es & _ & Hinv & Hlen & Hes & HF).
  set (sorted := sorted_modules modules) in *. set (g := dep_graph sorted deps) in *.
  destruct (dep_graph_ok sorted deps) as [Hg Hsem]. fold g in Hg, Hsem.
  pose proof (kahn_order_perm _ _ _ Hinv Hlen) as Hperm.
  assert (∀ i q, i < length sorted →
            (∃ t, t ∈ prereqs g !!! i ∧ q = path_at sorted t)
            ↔ imports modules deps (path_at sorted i) q) as Himp.
  { intros i q Hi. split.
    - intros (t & Ht & ->). apply imports_pos_iff; [done..| |by apply Hsem].
      by eapply (go_range _ _ Hg).
    - intros Hq. pose proof Hq as (_ & Hin & _).
      assert (q ∈ m_path <$> sorted) as Hq' by (unfold sorted, sorted_modules, sort_cmp; by rewrite sort_by_perm).
      rewrite <-path_at_seq in Hq'.
      apply list_elem_of_fmap in Hq' as (t & -> & Ht%elem_of_seq0). exists t.
      split; [|done]. apply Hsem; [done|]. by apply imports_pos_iff. }
  exists es. split; [done|]. split_and!.
  - rewrite (entries_paths _ _ _ _ _ HF), Hperm, path_at_seq.
    unfold sorted, sorted_modules, sort_cmp. by rewrite sort_by_perm.
  - intros e q [k He]%list_elem_of_lookup.
    destruct (Forall2_lookup_r _ _ _ _ _ HF He) as (i & Hi & Hspec).
    rewrite (es_path _ _ _ _ _ Hspec), (es_depends _ _ _ _ _ Hspec). apply Himp.
    by apply list_elem_of_lookup_2, (ki_order _ _ _ Hinv) in Hi as [? _].
  - intros k e q He Hc Hq.
    destruct (Forall2_lookup_r _ _ _ _ _ HF He) as (i & Hi & Hspec).
    rewrite (es_path _ _ _ _ _ Hspec) in Hq. rewrite (es_cycle _ _ _ _ _ Hspec) in Hc.
    apply Himp in Hq as (t & Ht & ->);
      [|by apply list_elem_of_lookup_2, (ki_order _ _ _ Hinv) in Hi as [? _]].
    pose proof (ki_first _ _ _ Hinv k i t Hi Hc Ht) as Hin.
    rewrite (entries_paths sorted g st (take k (k_order st)) (take k es)) by (by apply Forall2_take).
    by apply list_elem_of_fmap_2.
Qed.

Definition demo_modules : list ModuleStats :=
  [mkModule "cli" []; mkModule "graph" []; mkModule "storage" []].
Definition demo_deps : list ModuleDep := [mkDep "cli" "graph"; mkDep "graph" "storage"].

Lemma reading_order_ok_witness :
  ∃ es, compute_reading_order demo_modules demo_deps [] = Some es
    ∧ re_path <$> es ≡ₚ m_path <$> demo_modules
    ∧ (∀ e q, e ∈ es → q ∈ re_depends_on e ↔ imports demo_modules demo_deps (re_path e) q)
    ∧ (∀ k e q, es !! k = Some e → re_in_cycle e = false →
         imports demo_modules demo_deps (re_path e) q → q ∈ re_path <$> take k es).
Proof.
  apply (reading_order_ok demo_modules demo_deps []).
  by apply (bool_decide_unpack (NoDup (m_path <$> demo_modules))); vm_compute.
Defined.

(** Without an import cycle no module is flagged, so the order is a
    topological one; and the order of the module list does not show. *)
Theorem reading_order_acyclic modules modules' deps eps (rank : string → nat) :
  NoDup (m_path <$> modules) → modules ≡ₚ modules' →
  (∀ p q, imports modules deps p q → rank q < rank p) →
  ∃ es, compute_reading_order modules deps eps = Some es
    ∧ compute_reading_order modules' deps eps = Some es
    ∧ (∀ e, e ∈ es → re_in_cycle e = false).
Proof.
  intros Hnd Hperm Hrank. destruct (compute_reading_order_run modules deps eps)
    as (st & es & Hst & Hinv & Hlen & Hes & HF).
  set (sorted := sorted_modules modules) in *. set (g := dep_graph sorted deps) in *.
  destruct (dep_graph_ok sorted deps) as [Hg Hsem]. fold g in Hg, Hsem.
  exists es. split_and!; [done| |].
  - assert (sorted_modules modules' = sorted) as Hs.
    { symmetry. apply sort_cmp_unique; [apply _| |done].
      intros x y Hx Hy Hc%String.compare_eq_iff. by apply (NoDup_key_inj m_path modules). }
    unfold compute_reading_order in *. rewrite Hs, <-(Permutation_length Hperm). exact Hes.
  - intros e [k He]%list_elem_of_lookup.
    destruct (Forall2_lookup_r _ _ _ _ _ HF He) as (i & Hi & Hspec).
    rewrite (es_cycle _ _ _ _ _ Hspec).
    apply list_elem_of_lookup_2, (ki_order _ _ _ Hinv) in Hi as [Hi _].
    apply (acyclic_loop (length sorted) g Hg (λ i, rank (path_at sorted i))) with
      (fuel := length sorted) (st := kahn_init (length sorted) g); [|by apply kahn_init_ok| |done|done].
    + intros j p Hj Hp. apply Hrank. apply imports_pos_iff; [done|done| |by apply Hsem].
      by eapply (go_range _ _ Hg).
    + intros j Hj. simpl. by apply lookup_total_replicate_2.
Qed.

Lemma reading_order_acyclic_witness :
  ∃ es, compute_reading_order demo_modules demo_deps [] = Some es
    ∧ compute_reading_order (reverse demo_modules) demo_deps [] = Some es
    ∧ (∀ e, e ∈ es → re_in_cycle e = false).
Proof.
  apply (reading_order_acyclic demo_modules _ demo_deps [] (λ p, 10 - String.length p)).
  - by apply (bool_decide_unpack (NoDup (m_path <$> demo_modules))); vm_compute.
  - symmetry. apply reverse_Permutation.
  - intros p q (_ & _ & _ & Hd). unfold demo_deps in Hd.
    apply elem_of_cons in Hd as [[= -> ->]|Hd]; [simpl; lia|].
    apply list_elem_of_singleton in Hd as [= -> ->]. simpl. lia.
Defined.

(** The flag does not mean membership of a cycle: a module that only imports
    one is cut first when its path sorts first, is flagged, and is listed before
    the modules it imports although it lies on no cycle. *)
Theorem reading_order_flags_outside_cycle :
  let modules := [mkModule "a" []; mkModule "b" []; mkModule "c" []] in
  let deps := [mkDep "a" "b"; mkDep "b" "c"; mkDep "c" "b"] in
  (λ es : list ReadingOrderEntry, (λ e, (re_path e, re_in_cycle e)) <$> es)
    <$> compute_reading_order modules deps []
  = Some [("a", true); ("b", true); ("c", false)]
  ∧ ∀ q, ¬ imports modules deps q "a".
Proof.
  split; [by vm_compute|]. intros q (_ & _ & _ & Hd).
  repeat (apply elem_of_cons in Hd as [Hd|Hd]; [by inversion Hd|]). by apply elem_of_nil in Hd.
Qed.
