(* ===== verification/InFlight.v ===== *)
(** * The in-flight marker of index runs ([indexer/pipeline/in_flight.rs])

    A set of run tokens in one [meta] value, each covered by a shared hold on
    [index-run.lock] while its run lives; a probe takes the lock exclusive, and
    what it then reads belongs to dead runs; a probe that gets no answer about the
    lock takes every token for dead.  First the SQL and string operations
    on the marker, then the runs, probes and recoveries as a step relation.
    Tokens and separators are ASCII, so [split_whitespace] and [TRIM] are modelled
    on ASCII white space. *)

From S2P Require Import Prelude Str.

(** ** The marker as a string *)

Definition ch_space : ascii := " ".

(** [char::is_whitespace] on ASCII *)
Definition is_whitespace (c : ascii) : bool :=
  let n := N_of_ascii c in (n =? 32)%N || ((9 <=? n)%N && (n <=? 13)%N).

Fixpoint split_ws (s : string) : list string :=
  match s with
  | EmptyString => [EmptyString]
  | String c s' =>
      if is_whitespace c then EmptyString :: split_ws s'
      else match split_ws s' with
           | w :: ws => String c w :: ws
           | [] => [String c EmptyString]
           end
  end.

(** [str::split_whitespace] *)
Definition split_whitespace (s : string) : list string := filter (λ w, w ≠ "") (split_ws s).

(** SQLite's [REPLACE(s, pat, rep)]: left to right, not re-reading the output.
    [skip] counts the bytes of a match still to be passed over. *)
Fixpoint replace_go (pat rep : string) (skip : nat) (s : string) : string :=
  match s with
  | EmptyString => EmptyString
  | String c s' =>
      match skip with
      | S k => replace_go pat rep k s'
      | O => if starts_with pat s
             then rep +:+ replace_go pat rep (String.length pat - 1) s'
             else String c (replace_go pat rep 0 s')
      end
  end.
Definition sql_replace (s pat rep : string) : string := replace_go pat rep 0 s.

(** SQLite's [TRIM(s)]: spaces only. *)
Fixpoint trim_start (s : string) : string :=
  match s with
  | String c s' => if Ascii.eqb c ch_space then trim_start s' else s
  | EmptyString => s
  end.
Fixpoint trim_end (s : string) : string :=
  match s with
  | EmptyString => EmptyString
  | String c s' =>
      let r := trim_end s' in
      if Ascii.eqb c ch_space && String.eqb r "" then EmptyString else String c r
  end.
Definition sql_trim (s : string) : string := trim_end (trim_start s).

(** The row of [META_KEY_INDEX_RUN_IN_FLIGHT], [None] when there is none. *)
Abbreviation Marker := (option string).

(** [format!("{}-{nanos}-{}", process::id(), SEQ.fetch_add(1))] *)
Definition run_token (pid nanos seqno : N) : string :=
  dec_of_N pid +:+ "-" +:+ dec_of_N nanos +:+ "-" +:+ dec_of_N seqno.

(** [INSERT .. ON CONFLICT(key) DO UPDATE SET value = value || ' ' || excluded.value] *)
Definition marker_add (m : Marker) (token : string) : Marker :=
  Some match m with None => token | Some v => v +:+ " " +:+ token end.

(** [UPDATE meta SET value = TRIM(REPLACE(' ' || value || ' ', ..)) WHERE key = ?1] *)
Definition marker_update (m : Marker) (token : string) : Marker :=
  (λ v, sql_trim (sql_replace (" " +:+ v +:+ " ") (" " +:+ token +:+ " ") " ")) <$> m.

(** [DELETE FROM meta WHERE key = ?1 AND TRIM(value) = ''] *)
Definition marker_delete (m : Marker) : Marker :=
  match m with
  | Some v => if String.eqb (sql_trim v) "" then None else m
  | None => None
  end.

Definition retire (m : Marker) (tokens : list string) : Marker :=
  marker_delete (foldl marker_update m tokens).

Definition finish (m : Marker) (token : string) : Marker := retire m [token].

(** [value.as_deref().unwrap_or_default().split_whitespace()] *)
Definition marker_tokens (m : Marker) : list string := split_whitespace (default "" m).

(** What an exclusive try on the lock found. *)
Inductive Probe := InFlight | HeldProbe | NoLock.

Definition dead_runs (p : Probe) (m : Marker) : option (list string) :=
  match p with
  | InFlight => None
  | HeldProbe | NoLock =>
      let tokens := marker_tokens m in
      if bool_decide (tokens = []) then None else Some tokens
  end.

(** [value.is_some_and(|v| !v.trim().is_empty())] under [Probe::Held] only. *)
Definition a_run_died (p : Probe) (m : Marker) : bool :=
  match p with
  | HeldProbe => match m with
                 | Some v => negb (str_forall is_whitespace v)
                 | None => false
                 end
  | _ => false
  end.

Definition a_run_is_in_flight (p : Probe) : bool :=
  match p with InFlight => true | _ => false end.

(** ** The marker is the list of its tokens *)

Definition token_ok (t : string) : Prop :=
  t ≠ "" ∧ str_forall (λ c, negb (is_whitespace c)) t = true.

(** [" w1 w2 .. wn "] and the same without its first space. *)
Fixpoint seg (ws : list string) : string :=
  match ws with [] => " " | w :: l => " " +:+ w +:+ seg l end.
Definition body (ws : list string) : string :=
  match ws with [] => "" | w :: l => w +:+ seg l end.

(** The two forms a value takes: adding to an emptied value leaves a space in
    front. *)
Definition marker_value (v : string) (ws : list string) : Prop :=
  " " +:+ v +:+ " " = seg ws ∨ " " +:+ v +:+ " " = " " +:+ seg ws.

Definition marker_is (m : Marker) (ws : list string) : Prop :=
  Forall token_ok ws ∧
  match m with None => ws = [] | Some v => marker_value v ws end.

Lemma seg_body ws : seg ws = " " +:+ body ws.
Proof. by destruct ws. Qed.

Lemma seg_snoc ws t : seg ws +:+ t +:+ " " = seg (ws ++ [t]).
Proof. induction ws as [|w l IH]; [done|]. simpl. by rewrite <-IH, !str_app_assoc. Qed.

Lemma seg_join ws : ws ≠ [] → " " +:+ join " " ws +:+ " " = seg ws.
Proof.
  induction ws as [|w [|w' l] IH]; intros Hne; [done|done|].
  rewrite join_cons by done. specialize (IH ltac:(done)).
  change (seg (w :: w' :: l)) with (" " +:+ w +:+ seg (w' :: l)).
  rewrite <-IH. by rewrite !str_app_assoc.
Qed.

Lemma not_ws_not_space c : negb (is_whitespace c) = true → c ≠ ch_space.
Proof. by intros ? ->. Qed.

#[local] Arguments Ascii.eqb : simpl never.

Lemma starts_with_cons a p b s :
  starts_with (String a p) (String b s) = Ascii.eqb a b && starts_with p s.
Proof. unfold starts_with. simpl. by destruct (Ascii.eqb a b). Qed.

Section Replace.
Context (t : string) (Ht : token_ok t).

Let pat := " " +:+ t +:+ " ".
Let R := replace_go pat " " 0.

Lemma replace_cons c s :
  R (String c s) = if starts_with pat (String c s)
                   then " " +:+ replace_go pat " " (String.length pat - 1) s
                   else String c (R s).
Proof. done. Qed.

Lemma replace_copy w s :
  str_forall (λ c, negb (is_whitespace c)) w = true → R (w +:+ s) = w +:+ R s.
Proof.
  induction w as [|c w IH]; [done|]. cbn [str_forall]. intros [Hc Hw]%andb_true_iff.
  apply not_ws_not_space in Hc. cbn [String.append]. rewrite replace_cons. unfold pat at 1.
  cbn [String.append]. rewrite starts_with_cons.
  destruct (Ascii.eqb_spec " " c) as [<-|_]; [done|]. simpl. by rewrite IH.
Qed.

Lemma starts_with_word w s :
  str_forall (λ c, negb (is_whitespace c)) w = true →
  starts_with (t +:+ " ") (w +:+ " " +:+ s) = true ↔ w = t.
Proof.
  intros Hw. rewrite starts_with_spec. destruct Ht as [_ Htw]. split.
  - intros [r Hr]. clear pat R Ht. revert t Htw Hr.
    induction w as [|c w IH]; intros [|d u] Htw Hr; cbn [str_forall String.append] in *;
      [done|..].
    + injection Hr as <- _. by apply andb_true_iff in Htw as [Htw _].
    + injection Hr as -> _. by apply andb_true_iff in Hw as [Hw _].
    + injection Hr as <- Hr. apply andb_true_iff in Hw as [_ Hw], Htw as [_ Htw].
      f_equal. by apply IH.
  - intros ->. exists s. by rewrite str_app_assoc.
Qed.

Lemma replace_space_word w s :
  str_forall (λ c, negb (is_whitespace c)) w = true → w ≠ t →
  R (" " +:+ w +:+ " " +:+ s) = " " +:+ w +:+ R (" " +:+ s).
Proof.
  intros Hw Hne. rewrite <-replace_copy by done.
  change (" " +:+ w +:+ " " +:+ s) with (String " " (w +:+ " " +:+ s)).
  rewrite replace_cons. unfold pat at 1. cbn [String.append]. rewrite starts_with_cons.
  destruct (starts_with (t +:+ " ") _) eqn:E; [by apply starts_with_word in E|].
  by rewrite andb_false_r.
Qed.

Lemma replace_absent ws :
  Forall token_ok ws → t ∉ ws → R (seg ws) = seg ws ∧ R (body ws) = body ws.
Proof.
  induction 1 as [|w l [Hw1 Hw] Hl IH]; intros Hno.
  { split; [|done]. simpl. rewrite replace_cons. unfold pat at 1. simpl. rewrite starts_with_cons.
    destruct Ht as [Hne _]. by destruct t. }
  apply not_elem_of_cons in Hno as [Hne Hno]. destruct (IH Hno) as [IHs IHb].
  split; simpl.
  - rewrite <-IHs at 2. rewrite (seg_body l). by apply (replace_space_word w (body l)).
  - rewrite replace_copy by done. by rewrite IHs.
Qed.

Lemma replace_skip x s : replace_go pat " " (String.length x) (x +:+ s) = R s.
Proof. induction x as [|c x IH]; [by destruct s|done]. Qed.

Lemma replace_here s : R (pat +:+ s) = " " +:+ R s.
Proof.
  change (R (pat +:+ s)) with (R (String " " ((t +:+ " ") +:+ s))). rewrite replace_cons.
  assert (starts_with pat (String " " ((t +:+ " ") +:+ s)) = true) as -> by
    (apply starts_with_spec; by exists s).
  assert (String.length pat - 1 = String.length (t +:+ " ")) as -> by (unfold pat; simpl; lia).
  by rewrite replace_skip.
Qed.

Lemma replace_present l1 l2 :
  Forall token_ok l1 → Forall token_ok l2 → t ∉ l1 → t ∉ l2 →
  R (seg (l1 ++ t :: l2)) = seg (l1 ++ l2).
Proof.
  intros H1 H2 Hn1 Hn2. induction H1 as [|w l [Hw1 Hw] Hl IH].
  - destruct (replace_absent l2 H2 Hn2) as [_ Hb].
    assert (seg ([] ++ t :: l2) = pat +:+ body l2) as ->.
    { unfold pat. simpl. by rewrite (seg_body l2), str_app_assoc. }
    rewrite replace_here, Hb. symmetry. apply seg_body.
  - apply not_elem_of_cons in Hn1 as [Hne Hn1]. specialize (IH Hn1). simpl.
    rewrite <-IH. rewrite (seg_body (l ++ t :: l2)).
    by apply (replace_space_word w (body (l ++ t :: l2))).
Qed.

Lemma replace_extra_space ws : R (" " +:+ seg ws) = " " +:+ R (seg ws).
Proof.
  rewrite (seg_body ws). cbn [String.append]. rewrite replace_cons. unfold pat at 1.
  cbn [String.append]. rewrite starts_with_cons.
  destruct Ht as [Hne Htw]. destruct t as [|c u]; [done|].
  cbn [str_forall String.append] in *. apply andb_true_iff in Htw as [Hc _].
  apply not_ws_not_space in Hc. rewrite starts_with_cons.
  destruct (Ascii.eqb_spec c " ") as [->|_]; [done|]. by rewrite andb_false_r.
Qed.
End Replace.

(** *** Trimming and splitting *)

Lemma trim_end_copy w s :
  str_forall (λ c, negb (is_whitespace c)) w = true → trim_end (w +:+ s) = w +:+ trim_end s.
Proof.
  induction w as [|c w IH]; [done|]. cbn [str_forall]. intros [Hc Hw]%andb_true_iff.
  apply not_ws_not_space in Hc. simpl. rewrite IH by done.
  by destruct (Ascii.eqb_spec c ch_space).
Qed.

Lemma trim_end_body ws : Forall token_ok ws → trim_end (body ws) = join " " ws.
Proof.
  induction 1 as [|w l [Hne Hw] Hl IH]; [done|]. cbn [body]. rewrite trim_end_copy by done.
  destruct l as [|w' l]; [by simpl; rewrite str_app_nil_r|].
  rewrite seg_body, join_cons by done. f_equal. rewrite <-IH. simpl.
  destruct (String.eqb_spec (trim_end (w' +:+ seg l)) "") as [E|]; [|done].
  exfalso. inversion Hl as [|? ? [Hne' Hw'] _]; subst.
  rewrite trim_end_copy in E by done. by destruct w'.
Qed.

Lemma trim_start_body ws : Forall token_ok ws → trim_start (body ws) = body ws.
Proof.
  intros [|w l [Hne Hw] _]; [done|]. simpl. destruct w as [|c w]; [done|].
  cbn [str_forall] in Hw. apply andb_true_iff in Hw as [Hc _].
  apply not_ws_not_space in Hc. simpl. by destruct (Ascii.eqb_spec c ch_space).
Qed.

Lemma sql_trim_seg ws :
  Forall token_ok ws →
  sql_trim (seg ws) = join " " ws ∧ sql_trim (" " +:+ seg ws) = join " " ws.
Proof.
  intros Hws. unfold sql_trim. rewrite (seg_body ws).
  assert (∀ s, trim_start (" " +:+ s) = trim_start s) as Hsp by (intros s; reflexivity).
  rewrite !Hsp, trim_start_body by done. by rewrite trim_end_body.
Qed.

Lemma split_ws_app w s :
  str_forall (λ c, negb (is_whitespace c)) w = true →
  split_ws (w +:+ " " +:+ s) = w :: split_ws s.
Proof.
  induction w as [|c w IH]; [done|]. cbn [str_forall]. intros [Hc Hw]%andb_true_iff.
  apply negb_true_iff in Hc.
  change (String c w +:+ " " +:+ s) with (String c (w +:+ " " +:+ s)).
  cbn [split_ws]. by rewrite Hc, IH.
Qed.

Lemma split_whitespace_space s : split_whitespace (" " +:+ s) = split_whitespace s.
Proof. done. Qed.

Lemma split_ws_not_nil s : split_ws s ≠ [].
Proof. destruct s; simpl; [done|]. by repeat case_match. Qed.

Lemma split_ws_snoc s : split_ws (s +:+ " ") = split_ws s ++ [""].
Proof.
  induction s as [|c s IH]; [done|]. change (String c s +:+ " ") with (String c (s +:+ " ")).
  cbn [split_ws]. rewrite IH.
  destruct (is_whitespace c); [done|].
  pose proof (split_ws_not_nil s). by destruct (split_ws s).
Qed.

Lemma split_whitespace_seg ws : Forall token_ok ws → split_whitespace (seg ws) = ws.
Proof.
  unfold split_whitespace. induction 1 as [|w l [Hne Hw] Hl IH]; [done|].
  cbn [seg]. rewrite (seg_body l) in *.
  change (split_ws (" " +:+ w +:+ " " +:+ body l))
    with ("" :: split_ws (w +:+ " " +:+ body l)).
  rewrite split_ws_app by done. change (split_ws (" " +:+ body l)) with ("" :: split_ws (body l)) in IH.
  rewrite filter_cons_False in IH by (intros Hn; by apply Hn).
  rewrite filter_cons_False by (intros Hn; by apply Hn).
  by rewrite filter_cons_True, IH.
Qed.

Lemma split_whitespace_value v ws :
  Forall token_ok ws → marker_value v ws → split_whitespace v = ws.
Proof.
  intros Hws Hv.
  assert (split_whitespace (" " +:+ v +:+ " ") = split_whitespace v) as <-.
  { rewrite split_whitespace_space. unfold split_whitespace. rewrite split_ws_snoc, filter_app.
    rewrite (filter_cons_False _ ""), filter_nil by (intros Hn; by apply Hn).
    by rewrite app_nil_r. }
  destruct Hv as [->| ->]; rewrite ?split_whitespace_space; by apply split_whitespace_seg.
Qed.

Lemma trim_end_snoc s : trim_end (s +:+ " ") = trim_end s.
Proof. induction s as [|c s IH]; [done|]. simpl. by rewrite IH. Qed.

Lemma sql_trim_pad v : sql_trim (" " +:+ v +:+ " ") = sql_trim v.
Proof.
  unfold sql_trim. change (trim_start (" " +:+ v +:+ " ")) with (trim_start (v +:+ " ")).
  induction v as [|c v IH]; [done|]. cbn [String.append trim_start].
  destruct (Ascii.eqb c ch_space); [done|]. apply (trim_end_snoc (String c v)).
Qed.

(** *** The four operations on the token list *)

Lemma marker_value_join ws : Forall token_ok ws → marker_value (join " " ws) ws.
Proof.
  intros Hws. unfold marker_value. destruct ws as [|w l]; [by right|]. left. by apply seg_join.
Qed.

Lemma marker_tokens_ok m ws : marker_is m ws → marker_tokens m = ws.
Proof.
  unfold marker_tokens. destruct m as [v|]; simpl; [|by intros [_ ->]].
  intros [Hws Hv]. by apply split_whitespace_value.
Qed.

Lemma marker_add_ok m ws t :
  marker_is m ws → token_ok t → marker_is (marker_add m t) (ws ++ [t]).
Proof.
  intros [Hws Hm] Ht. split; [by apply Forall_app_2; [|constructor]|].
  destruct m as [v|]; simpl; [|subst; by left].
  destruct Hm as [Hv|Hv]; [left|right].
  - rewrite <-seg_snoc, <-Hv. by rewrite !str_app_assoc.
  - rewrite <-seg_snoc. change (" " +:+ seg ws +:+ t +:+ " ") with ((" " +:+ seg ws) +:+ t +:+ " ").
    rewrite <-Hv. by rewrite !str_app_assoc.
Qed.

Lemma filter_ne_split (t : string) l1 l2 :
  t ∉ l1 → t ∉ l2 → filter (λ w, w ≠ t) (l1 ++ t :: l2) = l1 ++ l2.
Proof.
  intros H1 H2. rewrite filter_app, filter_cons_False by (intros Hn; by apply Hn).
  by rewrite !filter_all by (intros x Hx ->; done).
Qed.

Lemma replace_token t ws :
  token_ok t → Forall token_ok ws → NoDup ws →
  replace_go (" " +:+ t +:+ " ") " " 0 (seg ws) = seg (filter (λ w, w ≠ t) ws).
Proof.
  intros Ht Hws Hnd. destruct (decide (t ∈ ws)) as [Hin|Hno].
  - apply list_elem_of_split in Hin as (l1 & l2 & ->).
    apply NoDup_app in Hnd as (_ & H1 & [H2 _]%NoDup_cons).
    apply Forall_app in Hws as [Hl1 [_ Hl2]%Forall_cons].
    assert (t ∉ l1) by (intros Hin; apply (H1 t Hin); left).
    rewrite filter_ne_split by done. by apply replace_present.
  - rewrite filter_all by (intros x Hx ->; done). by apply replace_absent.
Qed.

Lemma marker_update_ok m ws t :
  marker_is m ws → NoDup ws → token_ok t →
  marker_is (marker_update m t) (filter (λ w, w ≠ t) ws).
Proof.
  intros [Hws Hm] Hnd Ht.
  assert (Forall token_ok (filter (λ w, w ≠ t) ws)) as Hf.
  { apply Forall_forall. intros w [_ Hw]%list_elem_of_filter. by rewrite Forall_forall in Hws; apply Hws. }
  split; [done|]. destruct m as [v|]; [|by subst].
  unfold marker_update. cbn [fmap option_fmap option_map]. unfold sql_replace.
  destruct Hm as [-> | ->].
  - rewrite replace_token by done. destruct (sql_trim_seg _ Hf) as [-> _].
    by apply marker_value_join.
  - rewrite replace_extra_space, replace_token by done. destruct (sql_trim_seg _ Hf) as [_ ->].
    by apply marker_value_join.
Qed.

Lemma marker_delete_ok m ws :
  marker_is m ws → marker_is (marker_delete m) ws ∧ (ws = [] → marker_delete m = None).
Proof.
  intros [Hws Hm]. destruct m as [v|]; [|by split].
  unfold marker_delete. destruct (String.eqb_spec (sql_trim v) "") as [Hv|Hv].
  - assert (ws = []) as ->; [|by split].
    assert (sql_trim (" " +:+ v +:+ " ") = join " " ws) as Hj.
    { destruct (sql_trim_seg ws Hws) as [H1 H2]. by destruct Hm as [-> | ->]. }
    rewrite sql_trim_pad, Hv in Hj. destruct Hws as [|w l [Hne _] _]; [done|].
    destruct l; [by simpl in Hj; subst|]. rewrite join_cons in Hj by done. by destruct w.
  - split; [done|]. intros ->. destruct Hv.
    destruct (sql_trim_seg [] Hws) as [_ H2]. rewrite <-sql_trim_pad.
    destruct Hm as [Hm|Hm]; [|by rewrite Hm].
    simpl in Hm. injection Hm. by destruct v.
Qed.

Lemma filter_nelem_cons (t : string) (ts ws : list string) :
  filter (λ w, w ∉ ts) (filter (λ w, w ≠ t) ws) = filter (λ w, w ∉ t :: ts) ws.
Proof.
  rewrite list_filter_filter. apply list_filter_iff. intros w. rewrite elem_of_cons. tauto.
Qed.

Lemma marker_updates_ok ts m ws :
  marker_is m ws → NoDup ws → Forall token_ok ts →
  marker_is (foldl marker_update m ts) (filter (λ w, w ∉ ts) ws).
Proof.
  intros Hm Hnd Hts. revert m ws Hm Hnd. induction Hts as [|t ts Ht Hts IH]; intros m ws Hm Hnd.
  - rewrite filter_all; [done|]. intros x _. apply not_elem_of_nil.
  - rewrite <-filter_nelem_cons. apply IH; [by apply marker_update_ok|by apply NoDup_filter].
Qed.

Lemma retire_ok m ws ts :
  marker_is m ws → NoDup ws → Forall token_ok ts →
  marker_is (retire m ts) (filter (λ w, w ∉ ts) ws)
  ∧ (filter (λ w, w ∉ ts) ws = [] → retire m ts = None).
Proof. intros Hm Hnd Hts. by apply marker_delete_ok, marker_updates_ok. Qed.

(** ** Runs, probes and recoveries as steps

    One step per system call or statement. [Crashed] runs died with their token
    in the marker; a run killed before adding it or after removing it leaves
    nothing behind.  A probe either takes the lock exclusive, reads and drops it
    ([Probe::Held]), or learns nothing ([Probe::InFlight], no step), or gets no
    answer about the lock ([Probe::NoLock]) and takes every token it reads for dead,
    whoever holds the lock; a recovery retires what either of them returned. *)

Inductive phase := Holding | Running | Updated | Retired | Done | Crashed.

Record Sys := mkSys {
  s_marker : Marker;
  s_shared : gset string;          (* runs with a shared hold on the lock *)
  s_unheld : gset string;          (* runs that went without one *)
  s_exclusive : bool;              (* a probe has the lock *)
  s_runs : gmap string phase;
  s_reported : list string;        (* what probes with the lock returned as dead *)
  s_guessed : list string;         (* what probes without an answer returned *)
}.

Inductive step : Sys → Sys → Prop :=
| step_hold m sh un rs rep gs t :
    token_ok t → rs !! t = None →
    step (mkSys m sh un false rs rep gs) (mkSys m ({[t]} ∪ sh) un false (<[t := Holding]> rs) rep gs)
| step_no_hold m sh un ex rs rep gs t :
    token_ok t → rs !! t = None →
    step (mkSys m sh un ex rs rep gs) (mkSys m sh ({[t]} ∪ un) ex (<[t := Holding]> rs) rep gs)
| step_add m sh un ex rs rep gs t :
    rs !! t = Some Holding →
    step (mkSys m sh un ex rs rep gs) (mkSys (marker_add m t) sh un ex (<[t := Running]> rs) rep gs)
| step_update m sh un ex rs rep gs t :
    rs !! t = Some Running →
    step (mkSys m sh un ex rs rep gs) (mkSys (marker_update m t) sh un ex (<[t := Updated]> rs) rep gs)
| step_delete m sh un ex rs rep gs t :
    rs !! t = Some Updated →
    step (mkSys m sh un ex rs rep gs) (mkSys (marker_delete m) sh un ex (<[t := Retired]> rs) rep gs)
| step_release m sh un ex rs rep gs t :
    rs !! t = Some Retired →
    step (mkSys m sh un ex rs rep gs) (mkSys m (sh ∖ {[t]}) un ex (<[t := Done]> rs) rep gs)
| step_die m sh un ex rs rep gs t p :
    rs !! t = Some p → p ≠ Done → p ≠ Crashed →
    step (mkSys m sh un ex rs rep gs)
      (mkSys m (sh ∖ {[t]}) un ex
         (<[t := match p with Running => Crashed | _ => Done end]> rs) rep gs)
| step_probe_lock m un rs rep gs :
    step (mkSys m ∅ un false rs rep gs) (mkSys m ∅ un true rs rep gs)
| step_probe_read m sh un rs rep gs :
    step (mkSys m sh un true rs rep gs)
      (mkSys m sh un true rs (rep ++ default [] (dead_runs HeldProbe m)) gs)
| step_probe_drop m sh un rs rep gs :
    step (mkSys m sh un true rs rep gs) (mkSys m sh un false rs rep gs)
| step_probe_no_lock m sh un ex rs rep gs :
    step (mkSys m sh un ex rs rep gs)
      (mkSys m sh un ex rs rep (gs ++ default [] (dead_runs NoLock m)))
| step_recover_update m sh un ex rs rep gs t :
    t ∈ rep ∨ t ∈ gs → step (mkSys m sh un ex rs rep gs) (mkSys (marker_update m t) sh un ex rs rep gs)
| step_recover_delete m sh un ex rs rep gs :
    step (mkSys m sh un ex rs rep gs) (mkSys (marker_delete m) sh un ex rs rep gs).

(** A run whose token is in the marker unless a recovery took it. *)
Definition token_due (p : phase) : bool :=
  match p with Running | Crashed => true | _ => false end.

(** A run that still holds the lock, if it got it. *)
Definition alive (p : phase) : bool :=
  match p with Done | Crashed => false | _ => true end.

Definition run_at (rs : gmap string phase) (t : string) (P : phase → bool) : Prop :=
  ∃ p, rs !! t = Some p ∧ P p = true.

Record sys_inv (ws : list string) (s : Sys) : Prop := {
  si_marker : marker_is (s_marker s) ws;
  si_nodup : NoDup ws;
  si_runs t p : s_runs s !! t = Some p → token_ok t;
  si_tokens t : t ∈ ws → run_at (s_runs s) t token_due;
  si_due t : run_at (s_runs s) t token_due → t ∈ ws ∨ t ∈ s_reported s ∨ t ∈ s_guessed s;
  si_held t : run_at (s_runs s) t alive → t ∈ s_shared s ∨ t ∈ s_unheld s;
  si_exclusive : s_exclusive s = true → s_shared s = ∅;
  si_reported t : t ∈ s_reported s → s_runs s !! t = Some Crashed ∨ t ∈ s_unheld s;
  si_reported_ok t : t ∈ s_reported s → token_ok t;
  si_guessed_ok t : t ∈ s_guessed s → token_ok t;
}.

(** The system after a restart: a marker left by runs of earlier processes. *)
Definition sys_init (m : Marker) : Sys :=
  mkSys m ∅ ∅ false (list_to_map ((λ t, (t, Crashed)) <$> marker_tokens m)) [] [].

Lemma run_at_insert rs t p t' P :
  run_at (<[t := p]> rs) t' P ↔ (t' = t ∧ P p = true) ∨ (t' ≠ t ∧ run_at rs t' P).
Proof.
  unfold run_at. destruct (decide (t' = t)) as [->|Hne].
  - rewrite lookup_insert_eq. split; [intros (? & [= <-] & ?); by left|].
    intros [[_ ?]|[? _]]; [eauto|done].
  - rewrite lookup_insert_ne by done. split; [by right|]. by intros [[? _]|[_ ?]].
Qed.

Lemma run_at_lookup rs t p P : rs !! t = Some p → run_at rs t P ↔ P p = true.
Proof. intros Ht. unfold run_at. rewrite Ht. split; [by intros (? & [= <-] & ?)|eauto]. Qed.

(** A run changes phase; the marker's tokens, the holds and the reports change
    with it as [Hdue] and [Hheld] say. *)
Lemma sys_inv_phase ws s ws' m' sh' un' ex' t p :
  sys_inv ws s → marker_is m' ws' → NoDup ws' → token_ok t →
  s_runs s !! t ≠ Some Crashed →
  (∀ t', t' ≠ t → t' ∈ ws' ↔ t' ∈ ws) → (t ∈ ws' → token_due p = true) →
  (token_due p = true → t ∈ ws' ∨ t ∈ s_reported s ∨ t ∈ s_guessed s) →
  (∀ t', t' ≠ t → t' ∈ s_shared s → t' ∈ sh') →
  (∀ t', t' ∈ s_unheld s → t' ∈ un') →
  (alive p = true → t ∈ sh' ∨ t ∈ un') →
  (ex' = true → sh' = ∅) →
  sys_inv ws' (mkSys m' sh' un' ex' (<[t := p]> (s_runs s)) (s_reported s) (s_guessed s)).
Proof.
  intros Hinv Hm Hnd Ht Hnc Hws Hwt Hdt Hsh Hun Hal Hex. split; simpl; try done.
  - intros t' p'. rewrite lookup_insert_Some. intros [[<- _]|[_ ?]]; [done|].
    by eapply (si_runs _ _ Hinv).
  - intros t' Hin. apply run_at_insert. destruct (decide (t' = t)) as [->|Hne].
    + left. split; [done|]. by apply Hwt.
    + right. split; [done|]. apply (si_tokens _ _ Hinv). by apply Hws.
  - intros t' [[-> Hd]|[Hne Hd]]%run_at_insert; [by apply Hdt|].
    apply (si_due _ _ Hinv) in Hd as [?|?]; [left; by apply Hws|by right].
  - intros t' [[-> Ha]|[Hne Ha]]%run_at_insert; [by apply Hal|].
    apply (si_held _ _ Hinv) in Ha as [?|?]; [left; by apply Hsh|right; by apply Hun].
  - intros t' Hr. apply (si_reported _ _ Hinv) in Hr as [Hc|Hu]; [|right; by apply Hun].
    left. rewrite lookup_insert_ne; [done|]. intros ->. done.
  - apply (si_reported_ok _ _ Hinv).
  - apply (si_guessed_ok _ _ Hinv).
Qed.

(** The marker loses tokens that were reported dead, or nothing. *)
Lemma sys_inv_marker ws s ws' m' :
  sys_inv ws s → marker_is m' ws' → NoDup ws' →
  (∀ t, t ∈ ws' → t ∈ ws) → (∀ t, t ∈ ws → t ∈ ws' ∨ t ∈ s_reported s ∨ t ∈ s_guessed s) →
  sys_inv ws' (mkSys m' (s_shared s) (s_unheld s) (s_exclusive s) (s_runs s) (s_reported s) (s_guessed s)).
Proof.
  intros Hinv Hm Hnd Hsub Hdue. destruct Hinv as [_ _ Hr Ht Hd Hh He Hrep Hok Hgs].
  split; simpl; try done.
  - intros t Hin. by apply Ht, Hsub.
  - intros t [Hin|?]%Hd; [by apply Hdue|by right].
Qed.

Lemma sys_inv_fresh ws s t : sys_inv ws s → s_runs s !! t = None → t ∉ ws.
Proof.
  intros Hinv Hn Hin. apply (si_tokens _ _ Hinv) in Hin as (p & Hp & _). congruence.
Qed.

Lemma elem_of_drop (t t' : string) (ws : list string) :
  t' ∈ filter (λ w, w ≠ t) ws ↔ t' ≠ t ∧ t' ∈ ws.
Proof. by rewrite list_elem_of_filter. Qed.

(** A run starts: it gets the lock or goes on without it. *)
Lemma sys_inv_start ws s t sh' un' ex' :
  sys_inv ws s → token_ok t → s_runs s !! t = None →
  s_shared s ⊆ sh' → s_unheld s ⊆ un' → t ∈ sh' ∪ un' → (ex' = true → sh' = ∅) →
  sys_inv ws (mkSys (s_marker s) sh' un' ex' (<[t := Holding]> (s_runs s)) (s_reported s) (s_guessed s)).
Proof.
  intros Hinv Hok Hn Hsh Hun Ht Hex.
  apply (sys_inv_phase ws s ws (s_marker s) sh' un' ex' t Holding Hinv); try done;
    [apply Hinv|apply Hinv|by rewrite Hn| |set_solver|set_solver].
  intros Hin. by apply (sys_inv_fresh _ _ _ Hinv) in Hn.
Qed.

(** A live run edits the marker, holding what it holds. *)
Lemma sys_inv_edit ws s ws' m' t p0 p :
  sys_inv ws s → s_runs s !! t = Some p0 → alive p0 = true → marker_is m' ws' → NoDup ws' →
  (∀ t', t' ≠ t → t' ∈ ws' ↔ t' ∈ ws) → (t ∈ ws' ↔ token_due p = true) →
  sys_inv ws' (mkSys m' (s_shared s) (s_unheld s) (s_exclusive s) (<[t := p]> (s_runs s)) (s_reported s) (s_guessed s)).
Proof.
  intros Hinv Ht Hal Hm Hnd Hws Hdue.
  apply (sys_inv_phase ws s ws' m' _ _ _ t p Hinv); try done; [by eapply (si_runs _ _ Hinv)| |by apply Hdue| | |apply Hinv].
  - rewrite Ht. by intros [= ->].
  - intros Hd. left. by apply Hdue.
  - intros _. apply (si_held _ _ Hinv). by apply (run_at_lookup _ _ _ _ Ht).
Qed.

(** A run lets go of the lock, done or dead. *)
Lemma sys_inv_leave ws s t p0 p :
  sys_inv ws s → s_runs s !! t = Some p0 → p0 ≠ Crashed → alive p = false → token_due p = token_due p0 →
  sys_inv ws (mkSys (s_marker s) (s_shared s ∖ {[t]}) (s_unheld s) (s_exclusive s) (<[t := p]> (s_runs s)) (s_reported s) (s_guessed s)).
Proof.
  intros Hinv Ht Hnc Hal Hdue.
  apply (sys_inv_phase ws s ws _ _ _ _ t p Hinv); try done; [apply Hinv|apply Hinv|by eapply (si_runs _ _ Hinv)|congruence| | |set_solver|congruence|].
  - intros Hin%(si_tokens _ _ Hinv). rewrite Hdue. by apply (run_at_lookup _ _ _ _ Ht) in Hin.
  - intros Hd. apply (si_due _ _ Hinv), (run_at_lookup _ _ _ _ Ht). congruence.
  - intros Hex. apply (si_exclusive _ _ Hinv) in Hex. set_solver.
Qed.

(** A run that adds its token did not have one. *)
Lemma sys_inv_no_token ws s t p : sys_inv ws s → s_runs s !! t = Some p → token_due p = false → t ∉ ws.
Proof.
  intros Hinv Ht Hp Hin%(si_tokens _ _ Hinv). apply (run_at_lookup _ _ _ _ Ht) in Hin. congruence.
Qed.

Lemma dead_runs_tokens pr m ws :
  marker_is m ws → pr ≠ InFlight → default [] (dead_runs pr m) = ws.
Proof.
  intros Hm Hpr. destruct pr; [done|..]; simpl; rewrite (marker_tokens_ok _ _ Hm);
    by case_bool_decide; subst.
Qed.

(** A probe without an answer takes every token of the marker for dead. *)
Lemma sys_inv_guess ws m sh un ex rs rep gs :
  sys_inv ws (mkSys m sh un ex rs rep gs) →
  sys_inv ws (mkSys m sh un ex rs rep (gs ++ default [] (dead_runs NoLock m))).
Proof.
  intros Hinv. pose proof (si_marker _ _ Hinv) as Hm.
  rewrite (dead_runs_tokens _ _ _ Hm) by done.
  destruct Hinv as [_ Hnd Hr Htk Hd Hh He Hrp Hok Hgs]. simpl in *.
  split; simpl; try done.
  - intros t Hin%Hd. rewrite elem_of_app. tauto.
  - intros t [?|(p & Hp & _)%Htk]%elem_of_app; [by apply Hgs|by eapply Hr].
Qed.

(** The probe that holds the lock reports every token of the marker. *)
Lemma sys_inv_report ws m sh un rs rep gs :
  sys_inv ws (mkSys m sh un true rs rep gs) →
  sys_inv ws (mkSys m sh un true rs (rep ++ default [] (dead_runs HeldProbe m)) gs).
Proof.
  intros Hinv. pose proof (si_marker _ _ Hinv) as Hm.
  rewrite (dead_runs_tokens _ _ _ Hm) by done.
  destruct Hinv as [_ Hnd Hr Htk Hd Hh He Hrp Hok Hgs]. simpl in *.
  split; simpl; try done.
  - intros t Hin%Hd. rewrite elem_of_app. tauto.
  - intros t [?|Hin]%elem_of_app; [by apply Hrp|].
    apply Htk in Hin as (p & Hp & Hdue). destruct p; try done; [|by left].
    right. destruct (Hh t) as [Hs|?]; [by exists Running| |done].
    rewrite He in Hs by done. set_solver.
  - intros t [?|Hin]%elem_of_app; [by apply Hok|].
    apply Htk in Hin as (p & Hp & _). by eapply Hr.
Qed.

Lemma sys_inv_step ws s s' : sys_inv ws s → step s s' → ∃ ws', sys_inv ws' s'.
Proof.
  intros Hinv Hstep. pose proof (si_marker _ _ Hinv) as Hm. pose proof (si_nodup _ _ Hinv) as Hnd.
  destruct Hstep as [m sh un rs rep gs t Hok Hn|m sh un ex rs rep gs t Hok Hn|m sh un ex rs rep gs t Ht
    |m sh un ex rs rep gs t Ht|m sh un ex rs rep gs t Ht|m sh un ex rs rep gs t Ht
    |m sh un ex rs rep gs t p Ht Hp1 Hp2|m un rs rep gs|m sh un rs rep gs|m sh un rs rep gs
    |m sh un ex rs rep gs|m sh un ex rs rep gs t Hrep|m sh un ex rs rep gs]; simpl in *.
  - exists ws. apply (sys_inv_start ws _ t _ _ _ Hinv); simpl; try done; set_solver.
  - exists ws. apply (sys_inv_start ws _ t _ _ _ Hinv); simpl; try done; [set_solver..|apply (si_exclusive _ _ Hinv)].
  - pose proof (sys_inv_no_token _ _ _ _ Hinv Ht eq_refl) as Hno.
    exists (ws ++ [t]). apply (sys_inv_edit ws _ _ _ t Holding _ Hinv); simpl; try done.
    + apply marker_add_ok; [done..|]. by eapply (si_runs _ _ Hinv).
    + apply NoDup_app. split_and!; [done|set_solver|apply NoDup_singleton].
    + set_solver.
    + set_solver.
  - exists (filter (λ w, w ≠ t) ws). apply (sys_inv_edit ws _ _ _ t Running _ Hinv); simpl; try done.
    + apply marker_update_ok; [done..|]. by eapply (si_runs _ _ Hinv).
    + by apply NoDup_filter.
    + intros t' Hne. rewrite elem_of_drop. intuition.
    + by split; [intros [? _]%elem_of_drop|].
  - pose proof (sys_inv_no_token _ _ _ _ Hinv Ht eq_refl) as Hno.
    exists ws. apply (sys_inv_edit ws _ _ _ t Updated _ Hinv); simpl; try done. by apply marker_delete_ok.
  - exists ws. by apply (sys_inv_leave ws _ t Retired Done Hinv).
  - exists ws. apply (sys_inv_leave ws _ t p _ Hinv); simpl; try done; by destruct p.
  - exists ws. by destruct Hinv.
  - exists ws. by apply sys_inv_report.
  - exists ws. by destruct Hinv.
  - exists ws. by apply sys_inv_guess.
  - exists (filter (λ w, w ≠ t) ws).
    apply (sys_inv_marker ws (mkSys m sh un ex rs rep gs)); simpl; [done| | | |].
    + apply marker_update_ok; [done..|].
      destruct Hrep; [by apply (si_reported_ok _ _ Hinv)|by apply (si_guessed_ok _ _ Hinv)].
    + by apply NoDup_filter.
    + by intros t' [_ ?]%elem_of_drop.
    + intros t' Hin. rewrite elem_of_drop. destruct (decide (t' = t)) as [->|]; auto.
  - exists ws. apply (sys_inv_marker ws (mkSys m sh un ex rs rep gs)); simpl; auto.
    by apply marker_delete_ok.
Qed.

Lemma sys_init_inv m ws : marker_is m ws → NoDup ws → sys_inv ws (sys_init m).
Proof.
  intros Hm Hnd. unfold sys_init. rewrite (marker_tokens_ok _ _ Hm).
  assert (∀ t p, (list_to_map ((λ t, (t, Crashed)) <$> ws) : gmap string phase) !! t = Some p
                 ↔ t ∈ ws ∧ p = Crashed) as Hl.
  { intros t p. rewrite <-elem_of_list_to_map.
    - rewrite list_elem_of_fmap. split; [by intros (? & [= -> ->] & ?)|].
      intros [? ->]. by exists t.
    - rewrite <-list_fmap_compose. by rewrite list_fmap_id. }
  assert (∀ t, t ∈ ws → token_ok t) as Hok.
  { destruct Hm as [Hws _]. by apply Forall_forall. }
  split; simpl; try done.
  - intros t p [Ht _]%Hl. by apply Hok.
  - intros t Ht. exists Crashed. split; [by apply Hl|done].
  - intros t (p & [Ht _]%Hl & _). by left.
  - intros t (p & [_ ->]%Hl & ?). done.
  - by intros t ?%elem_of_nil.
  - by intros t ?%elem_of_nil.
  - by intros t ?%elem_of_nil.
Qed.

Lemma reachable_inv m ws s :
  marker_is m ws → NoDup ws → rtc step (sys_init m) s → ∃ ws', sys_inv ws' s.
Proof.
  intros Hm Hnd Hr. assert (∃ ws', sys_inv ws' (sys_init m)) as Hinit
    by (exists ws; by apply sys_init_inv).
  induction Hr as [s|s1 s2 s3 Hstep _ IH]; [done|]. apply IH.
  destruct Hinit as [ws1 Hinv]. by eapply sys_inv_step.
Qed.

Lemma str_forall_dec (p : ascii → bool) n :
  (∀ d, (d < 10)%N → p (dec_digit d) = true) → str_forall p (dec_of_N n) = true.
Proof.
  intros Hp. unfold dec_of_N. generalize (S (N.to_nat (N.log2 n))) as fuel. intros fuel.
  assert (str_forall p "" = true) as Hacc by done. revert Hacc. generalize "" as acc.
  revert n. induction fuel as [|fuel IH]; intros n acc Hacc; [done|]. simpl.
  assert (str_forall p (String (dec_digit (n mod 10)) acc) = true) as Hacc'.
  { simpl. rewrite Hp by (apply N.mod_lt; lia). done. }
  case_match; [done|]. by apply IH.
Qed.

Lemma run_token_ok pid nanos seqno : token_ok (run_token pid nanos seqno).
Proof.
  assert (∀ n, str_forall (λ c, negb (is_whitespace c)) (dec_of_N n) = true) as Hd.
  { intros n. apply str_forall_dec. intros d Hd.
    assert (In d (N.of_nat <$> seq 0 10)) as Hin.
    { apply list_elem_of_In, list_elem_of_fmap. exists (N.to_nat d).
      split; [lia|]. apply elem_of_seq0. lia. }
    simpl in Hin. repeat destruct Hin as [<-|Hin]; done. }
  unfold run_token. split.
  - intros He. assert (String.length (dec_of_N pid +:+ "-" +:+ dec_of_N nanos +:+ "-" +:+ dec_of_N seqno) = 0)
      as Hl by (by rewrite He). rewrite !str_length_app in Hl. simpl in Hl. lia.
  - rewrite !str_forall_app, !Hd. done.
Qed.

(** ** Properties *)

(** The reader's question, put by a probe that has the lock. *)
Lemma a_run_died_token m ws :
  marker_is m ws → a_run_died HeldProbe m = true → ∃ t, t ∈ ws.
Proof.
  intros [_ Hm]. destruct m as [v|]; [|done]. destruct ws as [|t ws]; [|intros _; exists t; by left].
  destruct v as [|c v]; [done|]. by destruct Hm as [[=]|[= _ Hm]]; destruct v.
Qed.

(** C5: Under every interleaving of runs (with or without a hold on the lock),
    crashes, probes and recoveries, probes that get no answer about the lock and
    so take every token for dead included. While a probe has the lock, the marker
    holds only tokens of crashed runs (or of runs that could not get a hold), so a
    reader is told that a run died only if such a run left its token; what probes
    with the lock reported dead at any time is of that kind too; the token of a
    crashed run stays in the marker until some probe has returned it; and a running
    run that holds the lock has its token there, unless a probe without an answer
    has returned it. *)
Theorem in_flight_safe m ws s :
  marker_is m ws → NoDup ws → rtc step (sys_init m) s →
  (s_exclusive s = true →
     (∀ t, t ∈ marker_tokens (s_marker s) → s_runs s !! t = Some Crashed ∨ t ∈ s_unheld s)
     ∧ (a_run_died HeldProbe (s_marker s) = true →
        ∃ t, t ∈ marker_tokens (s_marker s) ∧ (s_runs s !! t = Some Crashed ∨ t ∈ s_unheld s)))
  ∧ (∀ t, t ∈ s_reported s → s_runs s !! t = Some Crashed ∨ t ∈ s_unheld s)
  ∧ (∀ t, s_runs s !! t = Some Crashed →
       t ∈ marker_tokens (s_marker s) ∨ t ∈ s_reported s ∨ t ∈ s_guessed s)
  ∧ (∀ t, s_runs s !! t = Some Running → t ∉ s_unheld s →
       t ∈ marker_tokens (s_marker s) ∨ t ∈ s_guessed s).
Proof.
  intros Hm Hnd Hr. destruct (reachable_inv m ws s Hm Hnd Hr) as [ws' Hinv].
  rewrite (marker_tokens_ok _ _ (si_marker _ _ Hinv)). split_and!.
  - intros Hex. assert (∀ t, t ∈ ws' → s_runs s !! t = Some Crashed ∨ t ∈ s_unheld s) as Hdead.
    { intros t Hin. apply (si_tokens _ _ Hinv) in Hin as (p & Hp & Hdue).
      destruct p; try done; [right|by left].
      destruct (si_held _ _ Hinv t) as [Hs|?]; [by exists Running| |done].
      rewrite (si_exclusive _ _ Hinv Hex) in Hs. set_solver. }
    split; [done|]. intros [t Ht]%(a_run_died_token _ _ (si_marker _ _ Hinv)). eauto.
  - apply (si_reported _ _ Hinv).
  - intros t Ht. apply (si_due _ _ Hinv). by exists Crashed.
  - intros t Ht Hun. destruct (si_due _ _ Hinv t) as [?|[Hrep|?]]; [by exists Running|by left| |by right].
    apply (si_reported _ _ Hinv) in Hrep as [?|?]; [congruence|done].
Qed.

Lemma step_to s s1 s2 : step s s1 → s1 = s2 → step s s2.
Proof. by intros ? <-. Qed.

(** A run dies beside the token of an older binary; a probe that cannot open the
    lock returns both tokens, and one that can then takes it. *)
Example demo_trace :
  rtc step (sys_init (Some "1"))
    (mkSys (Some "1 7-42-0") ∅ ∅ true {[ "1" := Crashed; "7-42-0" := Crashed ]} [] ["1"; "7-42-0"]).
Proof.
  eapply rtc_l; [apply (step_hold _ _ _ _ _ _ "7-42-0"); by vm_compute|].
  eapply rtc_l; [apply (step_add _ _ _ _ _ _ _ "7-42-0"); by vm_compute|].
  eapply rtc_l; [by apply (step_die _ _ _ _ _ _ _ "7-42-0" Running)|].
  eapply rtc_l; [apply step_probe_no_lock|].
  apply rtc_once. eapply step_to; [|by vm_compute].
  match goal with |- step (mkSys _ ?sh _ _ _ _ _) _ => assert (sh = ∅) as -> by by vm_compute end.
  apply step_probe_lock.
Qed.

Lemma in_flight_safe_witness :
  let s := mkSys (Some "1 7-42-0") ∅ ∅ true
             ({[ "1" := Crashed; "7-42-0" := Crashed ]} : gmap string phase) [] ["1"; "7-42-0"] in
  (s_exclusive s = true →
     (∀ t, t ∈ marker_tokens (s_marker s) → s_runs s !! t = Some Crashed ∨ t ∈ s_unheld s)
     ∧ (a_run_died HeldProbe (s_marker s) = true →
        ∃ t, t ∈ marker_tokens (s_marker s) ∧ (s_runs s !! t = Some Crashed ∨ t ∈ s_unheld s)))
  ∧ (∀ t, t ∈ s_reported s → s_runs s !! t = Some Crashed ∨ t ∈ s_unheld s)
  ∧ (∀ t, s_runs s !! t = Some Crashed →
       t ∈ marker_tokens (s_marker s) ∨ t ∈ s_reported s ∨ t ∈ s_guessed s)
  ∧ (∀ t, s_runs s !! t = Some Running → t ∉ s_unheld s →
       t ∈ marker_tokens (s_marker s) ∨ t ∈ s_guessed s).
Proof.
  apply (in_flight_safe (Some "1") ["1"]); [|by repeat constructor; set_solver|apply demo_trace].
  split; [by repeat constructor|by left].
Defined.

(** Beginning and finishing a run leaves the marker as it was: the token is
    added after those of the other runs, finishing removes it and only it, and the
    row is gone once no token is left. Recovery removes exactly its list. *)
Theorem begin_finish_roundtrip m ws pid nanos seqno dead :
  let t := run_token pid nanos seqno in
  marker_is m ws → NoDup ws → t ∉ ws → Forall token_ok dead →
  marker_tokens (marker_add m t) = ws ++ [t]
  ∧ marker_tokens (finish (marker_add m t) t) = ws
  ∧ (ws = [] → finish (marker_add m t) t = None)
  ∧ marker_tokens (retire m dead) = filter (λ w, w ∉ dead) ws.
Proof.
  intros t Hm Hnd Hno Hdead. pose proof (run_token_ok pid nanos seqno) as Ht. fold t in Ht.
  pose proof (marker_add_ok m ws t Hm Ht) as Hadd.
  assert (NoDup (ws ++ [t])) as Hnd'.
  { apply NoDup_app. split_and!; [done| |apply NoDup_singleton]. set_solver. }
  destruct (retire_ok _ _ [t] Hadd Hnd') as [Hfin Hgone]; [by apply Forall_singleton|].
  assert (filter (λ w, w ∉ [t]) (ws ++ [t]) = ws) as Hf.
  { rewrite filter_app, filter_all, filter_none; [by rewrite app_nil_r|set_solver|set_solver]. }
  rewrite Hf in Hfin, Hgone. split_and!.
  - by apply marker_tokens_ok.
  - by apply marker_tokens_ok.
  - done.
  - by apply marker_tokens_ok, retire_ok.
Qed.

Lemma begin_finish_roundtrip_witness :
  let t := run_token 7 42 0 in
  marker_tokens (marker_add (Some "1 5-3-0") t) = ["1"; "5-3-0"] ++ [t]
  ∧ marker_tokens (finish (marker_add (Some "1 5-3-0") t) t) = ["1"; "5-3-0"]
  ∧ (["1"; "5-3-0"] = [] → finish (marker_add (Some "1 5-3-0") t) t = None)
  ∧ marker_tokens (retire (Some "1 5-3-0") ["1"]) = filter (λ w, w ∉ ["1"]) ["1"; "5-3-0"].
Proof.
  apply (begin_finish_roundtrip (Some "1 5-3-0") ["1"; "5-3-0"] 7 42 0 ["1"]).
  - split; [by repeat constructor|by left].
  - by apply (bool_decide_unpack (NoDup ["1"; "5-3-0"])); vm_compute.
  - by apply (bool_decide_unpack (run_token 7 42 0 ∉ ["1"; "5-3-0"])); vm_compute.
  - by repeat constructor.
Defined.
