(* ===== verification/Paths.v ===== *)
(** * Paths and languages ([utils/paths.rs], [utils/config.rs], [indexer/merkle.rs],
      [indexer/watcher.rs])

    The spelling rules of index keys.  [std::path::Path] is modelled on a Unix
    host: [/] separates, [.] segments and repeated separators vanish. *)

From S2P Require Import Prelude Str Domain.

(** ** Languages ([utils/config.rs]) *)

(** [Path::file_name]: the last component, none for [..], [.] and the root. *)
Definition file_name (path : string) : option string :=
  match last (filter (λ s, s ≠ "" ∧ s ≠ ".") (split_on "/" path)) with
  | Some ".." => None
  | o => o
  end.

(** [Path::extension]: what follows the last dot, unless that dot is first. *)
Definition extension (path : string) : option string :=
  name ← file_name path;
  match rsplit_once "." name with
  | Some (stem, ext) => if String.eqb stem "" then None else Some ext
  | None => None
  end.

Definition SUPPORTED_LANGUAGES : list string :=
  ["rust"; "typescript"; "tsx"; "javascript"; "go"; "python"; "java"; "c"; "cpp"; "html"; "css";
   "csharp"; "kotlin"; "ruby"; "php"; "swift"; "dart"; "markdown"; "bash"; "json"].

Definition canonical_language (input : string) : option string :=
  find (λ l, eq_ignore_ascii_case l input) SUPPORTED_LANGUAGES.

Definition detect_language (path : string) : option string :=
  ext ← extension path;
  let among l := one_of l ext in
  if among ["rs"] then Some "rust"
  else if among ["ts"] then Some "typescript"
  else if among ["tsx"] then Some "tsx"
  else if among ["js"; "jsx"; "mjs"; "cjs"] then Some "javascript"
  else if among ["go"] then Some "go"
  else if among ["py"; "pyi"] then Some "python"
  else if among ["java"] then Some "java"
  else if among ["c"; "h"] then Some "c"
  else if among ["cpp"; "cc"; "cxx"; "hpp"; "hh"; "hxx"] then Some "cpp"
  else if among ["html"; "htm"] then Some "html"
  else if among ["css"] then Some "css"
  else if among ["cs"] then Some "csharp"
  else if among ["kt"; "kts"] then Some "kotlin"
  else if among ["rb"] then Some "ruby"
  else if among ["php"] then Some "php"
  else if among ["swift"] then Some "swift"
  else if among ["dart"] then Some "dart"
  else if among ["md"; "mdx"; "markdown"] then Some "markdown"
  else if among ["sh"; "bash"] then Some "bash"
  else if among ["json"] then Some "json"
  else None.

Definition languages_compatible (a b : string) : bool :=
  String.eqb a b
  || (one_of ["javascript"; "typescript"; "tsx"] a && one_of ["javascript"; "typescript"; "tsx"] b)
  || (one_of ["c"; "cpp"] a && one_of ["c"; "cpp"] b).

Definition is_compatible_lang (root_path dep_path : string) : bool :=
  if String.eqb dep_path EXTERNAL_FILE_PATH then false
  else match detect_language root_path, detect_language dep_path with
       | Some a, Some b => languages_compatible a b
       | _, _ => true
       end.

(** ** Key spelling ([indexer/merkle.rs]) *)

(** Skip a separator that follows one. *)
Fixpoint collapse (prev_sep : bool) (s : string) : string :=
  match s with
  | EmptyString => EmptyString
  | String c s' =>
      let sep := Ascii.eqb c ch_slash in
      if sep && prev_sep then collapse true s' else String c (collapse sep s')
  end.

Definition normalize_rel_str_on (rel : string) (backslash_is_sep : bool) : string :=
  let unified := if backslash_is_sep then replace_char "\" "/" rel else rel in
  if negb (contains "//" unified) then unified
  else match strip_prefix "//" unified with
       | Some body => "//" +:+ collapse false body
       | None => collapse false unified
       end.

Definition normalize_path_display_on (path : string) (backslash_is_sep : bool) : string :=
  if negb backslash_is_sep then path
  else
    let stripped :=
      match strip_prefix "\\?\UNC\" path with
      | Some rest => "\\" +:+ rest
      | None => default path (strip_prefix "\\?\" path)
      end in
    normalize_rel_str_on stripped backslash_is_sep.

Definition is_excluded_build_dir (rel : string) : bool :=
  existsb (one_of ["node_modules"; "vendor"; "target"; "bower_components"]) (split_on "/" rel).

Definition scan_keeps_key (rel : string) : bool :=
  negb (String.eqb rel ".git" || starts_with ".git/" rel || is_excluded_build_dir rel)
  && match detect_language rel with Some _ => true | None => false end.

Inductive FileType := FtFile | FtDir | FtSymlink | FtOther.

#[export] Instance file_type_eq_dec : EqDecision FileType.
Proof. solve_decision. Defined.

(** [names_a_scanned_file] on a Unix host; [lstat] is the file system's answer
    for a path below the root, as its segments. *)
Section NamesAFile.
Context (lstat : list string → option FileType).

Fixpoint walk_segments (dir segments : list string) : bool :=
  match segments with
  | [] => true
  | segment :: rest =>
      if one_of [""; "."; ".."] segment then false
      else
        match lstat (dir ++ [segment]) with
        | None => false
        | Some ft =>
            if bool_decide (ft = match rest with [] => FtFile | _ => FtDir end)
            then walk_segments (dir ++ [segment]) rest
            else false
        end
  end.

Definition names_a_scanned_file (rel : string) : bool := walk_segments [] (split_on "/" rel).
End NamesAFile.

(** ** Typed paths ([utils/paths.rs]) *)

Definition needs_lexical_windows_rejection (raw : string) (natively_absolute : bool) : bool :=
  if natively_absolute then false
  else
    match raw with
    | String c (String colon rest) =>
        is_ascii_alphabetic c && Ascii.eqb colon ":"
        && match rest with
           | EmptyString => true
           | String d _ => Ascii.eqb d "/" || Ascii.eqb d "\"
           end
    | _ => false
    end || starts_with "\\" raw.

(** ** Watched paths ([indexer/watcher.rs]) *)

(** [trim_start_matches("./")], with the length as fuel. *)
Fixpoint trim_dot_slash_go (fuel : nat) (s : string) : string :=
  match fuel with
  | O => s
  | S fuel' => match strip_prefix "./" s with
               | Some r => trim_dot_slash_go fuel' r
               | None => s
               end
  end.
Definition trim_dot_slash (s : string) : string := trim_dot_slash_go (String.length s) s.

Definition is_ignored_watch_path (rel : string) : bool :=
  let rel := trim_dot_slash rel in
  existsb (λ dir, String.eqb rel dir
                  || match strip_prefix dir rel with
                     | Some r => starts_with "/" r
                     | None => false
                     end) [CODE_GRAPH_DIR; ".git"].

(** [notify]'s event kinds, as far as the filter tells them apart. *)
Inductive ModifyKind := ModifyAny | ModifyData | ModifyMetadata | ModifyName | ModifyOther.
Inductive EventKind :=
| EventAny | EventAccess | EventCreate | EventModify (k : ModifyKind) | EventRemove | EventOther.

Definition is_content_event (kind : EventKind) : bool :=
  match kind with
  | EventAny | EventOther | EventCreate | EventRemove => true
  | EventModify (ModifyData | ModifyName | ModifyAny) => true
  | _ => false
  end.

(** The closure of [FileWatcher::start]: the paths an event forwards, [None]
    when nothing is sent. [strip_root] is [p.strip_prefix(&root_path)] with the
    key normalisation; a full channel drops the event. *)
Definition watch_event {Path} (strip_root : Path → option string) (kind : EventKind)
    (paths : list Path) : option (list string) :=
  if negb (is_content_event kind) then None
  else
    let kept := omap (λ p, rel ← strip_root p;
                           if is_ignored_watch_path rel then None else Some rel) paths in
    if bool_decide (kept = []) then None else Some kept.

Definition WATCHER_CHANNEL_BOUND : nat := 4096.

Definition channel_send {A} (buffer : list A) (event : A) : list A :=
  if length buffer <? WATCHER_CHANNEL_BOUND then buffer ++ [event] else buffer.

(** ** Lemmas on separators *)

#[local] Arguments Ascii.eqb : simpl never.

Fixpoint has_double (prev : bool) (s : string) : bool :=
  match s with
  | EmptyString => false
  | String c s' => let sep := Ascii.eqb c ch_slash in (sep && prev) || has_double sep s'
  end.

Lemma starts_with_slash s : starts_with "/" s = match s with
                                                | String c _ => Ascii.eqb c ch_slash
                                                | EmptyString => false
                                                end.
Proof.
  unfold starts_with. destruct s as [|c s]; [done|]. simpl. rewrite Ascii.eqb_sym.
  unfold ch_slash. by destruct (Ascii.eqb c "/").
Qed.

Lemma has_double_true s : has_double true s = starts_with "/" s || has_double false s.
Proof.
  rewrite starts_with_slash. destruct s as [|c s]; [done|]. simpl. rewrite andb_false_r, andb_true_r.
  by destruct (Ascii.eqb c ch_slash).
Qed.

Lemma contains_double s : contains "//" s = has_double false s.
Proof.
  induction s as [|c s IH]; [done|]. cbn [contains has_double]. rewrite andb_false_r, IH.
  unfold starts_with. cbn [strip_prefix]. rewrite (Ascii.eqb_sym "/" c). fold ch_slash.
  destruct (Ascii.eqb c ch_slash); [|done]. rewrite has_double_true.
  unfold starts_with. cbn [strip_prefix]. simpl. destruct s; [done|]. by destruct (Ascii.eqb _ _).
Qed.

Lemma collapse_clean b s : has_double b (collapse b s) = false.
Proof.
  revert b. induction s as [|c s IH]; intros b; [done|]. simpl.
  destruct (Ascii.eqb c ch_slash) eqn:E, b; simpl; rewrite ?E; simpl; auto.
Qed.

Lemma collapse_id b s : has_double b s = false → collapse b s = s.
Proof.
  revert b. induction s as [|c s IH]; intros b; [done|]. simpl.
  destruct (Ascii.eqb c ch_slash), b; simpl; intros ?; try done; f_equal; auto.
Qed.

Lemma no_char_replace c by_ s : no_char c by_ = true → no_char c (replace_char c by_ s) = true.
Proof.
  intros Hb. unfold no_char in *. induction s as [|d s IH]; [done|]. simpl.
  destruct (Ascii.eqb c d) eqn:E; simpl; [rewrite str_forall_app, Hb, IH|rewrite E, IH]; done.
Qed.

Lemma replace_char_id c by_ s : no_char c s = true → replace_char c by_ s = s.
Proof.
  unfold no_char. induction s as [|d s IH]; [done|]. simpl. intros [Hc Hs]%andb_true_iff.
  apply negb_true_iff in Hc. rewrite Hc. f_equal. auto.
Qed.

Lemma no_char_collapse c b s : no_char c s = true → no_char c (collapse b s) = true.
Proof.
  unfold no_char. revert b. induction s as [|d s IH]; intros b; [done|]. simpl.
  intros [Hc Hs]%andb_true_iff.
  destruct (Ascii.eqb d ch_slash && b); simpl; [by apply IH|]. rewrite Hc. by apply IH.
Qed.

(** The segments a path names: empty ones do not count. *)
Definition path_segments (s : string) : list string := filter (λ w, w ≠ "") (split_on "/" s).

Lemma split_on_cons_ne c d s :
  Ascii.eqb c d = false →
  ∃ w ws, split_on c s = w :: ws ∧ split_on c (String d s) = String d w :: ws.
Proof.
  intros E. simpl. rewrite E. pose proof (split_on_not_nil c s).
  destruct (split_on c s) as [|w ws]; [done|]. by exists w, ws.
Qed.

Lemma collapse_segments s :
  (∀ w ws, split_on "/" s = w :: ws →
     ∃ ws', split_on "/" (collapse false s) = w :: ws'
            ∧ filter (λ w, w ≠ "") ws' = filter (λ w, w ≠ "") ws)
  ∧ path_segments (collapse true s) = path_segments s.
Proof.
  induction s as [|c s [IHf IHt]].
  { split; [|done]. intros w ws [= <- <-]. by exists []. }
  assert (∀ x, path_segments (String "/" x) = path_segments x) as Hslash.
  { intros x. unfold path_segments. cbn [split_on]. rewrite Ascii.eqb_refl.
    by rewrite filter_cons_False by (intros Hn; by apply Hn). }
  cbn [collapse]. destruct (Ascii.eqb_spec c ch_slash) as [->|Hc]; simpl.
  - split.
    + intros w ws [= <- <-].
      exists (split_on "/" (collapse true s)). split; [done|]. apply IHt.
    + unfold ch_slash. by rewrite Hslash.
  - assert (Ascii.eqb "/" c = false) as E by (by apply Ascii.eqb_neq).
    destruct (split_on_cons_ne "/" c s E) as (w & ws & Hs & Hcs).
    destruct (IHf w ws Hs) as (ws' & Hw & Hf).
    destruct (split_on_cons_ne "/" c (collapse false s) E) as (w1 & ws1 & Hs1 & Hcs1).
    rewrite Hw in Hs1. injection Hs1 as <- <-. split.
    + intros w2 ws2. cbn [split_on] in Hcs. rewrite Hcs. intros [= <- <-]. exists ws'.
      cbn [split_on] in Hcs1. by rewrite Hcs1.
    + unfold path_segments. rewrite Hcs, Hcs1, !filter_cons.
      rewrite !decide_True by done. by rewrite Hf.
Qed.

Lemma collapse_path_segments b s : path_segments (collapse b s) = path_segments s.
Proof.
  destruct b; [apply collapse_segments|]. unfold path_segments.
  destruct (split_on "/" s) as [|w ws] eqn:E; [by apply split_on_not_nil in E|].
  destruct (proj1 (collapse_segments s) w ws E) as (ws' & -> & Hf).
  rewrite !filter_cons. by rewrite Hf.
Qed.

(** ** Properties *)

Definition unify (rel : string) (backslash_is_sep : bool) : string :=
  if backslash_is_sep then replace_char "\" "/" rel else rel.

Definition canon (u : string) : string :=
  if negb (contains "//" u) then u
  else match strip_prefix "//" u with
       | Some body => "//" +:+ collapse false body
       | None => collapse false u
       end.

Lemma normalize_canon rel w : normalize_rel_str_on rel w = canon (unify rel w).
Proof. done. Qed.

Lemma canon_cases u :
  (contains "//" u = false ∧ canon u = u)
  ∨ (∃ body, u = "//" +:+ body ∧ canon u = "//" +:+ collapse false body)
  ∨ (strip_prefix "//" u = None ∧ canon u = collapse false u).
Proof.
  unfold canon. destruct (contains "//" u); cbn [negb]; [right|by left].
  destruct (strip_prefix "//" u) as [body|] eqn:E; [left|by right].
  exists body. by apply strip_prefix_Some in E.
Qed.

Lemma canon_root body :
  contains "//" body = false → canon ("//" +:+ body) = "//" +:+ body.
Proof.
  intros Hb. unfold canon.
  assert (contains "//" ("//" +:+ body) = true) as -> by (apply contains_spec; by exists "", body).
  assert (strip_prefix "//" ("//" +:+ body) = Some body) as -> by by apply strip_prefix_Some.
  cbn [negb]. f_equal. apply collapse_id. by rewrite <-contains_double.
Qed.

Lemma collapse_no_double b s : contains "//" (collapse b s) = false.
Proof.
  rewrite contains_double. pose proof (collapse_clean b s) as Hc. destruct b; [|done].
  rewrite has_double_true in Hc. by apply orb_false_iff in Hc as [_ ?].
Qed.

Lemma canon_idem u : canon (canon u) = canon u.
Proof.
  destruct (canon_cases u) as [[Hc ->]|[(body & _ & ->)|[_ ->]]].
  - unfold canon. by rewrite Hc.
  - apply canon_root, collapse_no_double.
  - unfold canon. by rewrite collapse_no_double.
Qed.

Lemma canon_no_char c u : c ≠ "/"%char → no_char c u = true → no_char c (canon u) = true.
Proof.
  intros Hc Hn. destruct (canon_cases u) as [[_ ->]|[(body & -> & ->)|[_ ->]]]; [done| |].
  - unfold no_char in *. rewrite str_forall_app in *. apply andb_true_iff in Hn as [-> Hn].
    by apply (no_char_collapse c false body).
  - by apply no_char_collapse.
Qed.

Lemma unify_canon rel w : unify (canon (unify rel w)) w = canon (unify rel w).
Proof.
  destruct w; [|done]. apply replace_char_id, canon_no_char; [done|]. by apply no_char_replace.
Qed.

(** An index key has one spelling: normalising twice changes nothing, no
    separator is doubled after a leading UNC root, a backslash is gone where it
    separates, the key names the same path segments, and a path without a doubled
    separator is left as it is. *)
Theorem normalize_rel_str_ok rel w :
  let u := unify rel w in
  let k := normalize_rel_str_on rel w in
  normalize_rel_str_on k w = k
  ∧ (strip_prefix "//" u = None → contains "//" k = false)
  ∧ (∀ body, strip_prefix "//" u = Some body →
       ∃ body', k = "//" +:+ body' ∧ contains "//" body' = false)
  ∧ (w = true → no_char "\" k = true)
  ∧ path_segments k = path_segments u
  ∧ (contains "//" u = false → k = u).
Proof.
  intros u k. unfold k. rewrite !normalize_canon. fold u.
  split_and!.
  - unfold u. by rewrite unify_canon, canon_idem.
  - intros Hn. destruct (canon_cases u) as [[Hc ->]|[(body & Hu & _)|[_ ->]]]; [done| |].
    + rewrite Hu in Hn. by destruct body.
    + apply collapse_no_double.
  - intros body Hb%strip_prefix_Some.
    destruct (canon_cases u) as [[Hc _]|[(body2 & Hu & ->)|[Hn _]]].
    + assert (contains "//" u = true) by (apply contains_spec; by exists "", body). congruence.
    + eexists. split; [done|apply collapse_no_double].
    + apply strip_prefix_Some in Hb. congruence.
  - intros Hw. unfold u. rewrite Hw. apply canon_no_char; [done|]. by apply no_char_replace.
  - destruct (canon_cases u) as [[_ ->]|[(body & -> & ->)|[_ ->]]]; [done| |].
    + unfold path_segments. simpl. apply (collapse_path_segments false body).
    + apply collapse_path_segments.
  - intros Hc. unfold canon. by rewrite Hc.
Qed.

(** A leading run of three separators is a UNC root and one more: it stays. *)
Example leading_run_kept :
  normalize_rel_str_on "///a" false = "///a" ∧ normalize_rel_str_on "////a" false = "///a".
Proof. by vm_compute. Qed.

Lemma has_double_segment s :
  (has_double false s = true → "" ∈ tail (split_on "/" s))
  ∧ (has_double true s = true → "" ∈ split_on "/" s).
Proof.
  induction s as [|c s [IHf IHt]]; [by split|].
  assert (∀ l : list string, "" ∈ tail l → "" ∈ l) as Htl.
  { intros [|w l]; simpl; [done|]. by right. }
  assert (has_double false (String c s) = true → "" ∈ tail (split_on "/" (String c s))) as Hf.
  { cbn [has_double]. rewrite andb_false_r. simpl orb.
    destruct (Ascii.eqb c ch_slash) eqn:E.
    - apply Ascii.eqb_eq in E as ->. intros H. cbn [split_on]. rewrite Ascii.eqb_refl. by apply IHt.
    - intros H. assert (Ascii.eqb "/" c = false) as E' by by rewrite Ascii.eqb_sym.
      destruct (split_on_cons_ne "/" c s E') as (w & ws & Hs & ->). apply IHf in H.
      by rewrite Hs in H. }
  split; [done|]. rewrite has_double_true, orb_true_iff. intros [Hs|Hd]; [|by apply Htl, Hf].
  rewrite starts_with_slash in Hs. apply Ascii.eqb_eq in Hs as ->. cbn [split_on].
  rewrite Ascii.eqb_refl. left.
Qed.

Lemma walk_segments_ok lstat dir segs :
  walk_segments lstat dir segs = true → segs ≠ [] →
  Forall (λ s, s ∉ [""; "."; ".."]) segs ∧ lstat (dir ++ segs) = Some FtFile
  ∧ ∀ k, 0 < k < length segs → lstat (dir ++ take k segs) = Some FtDir.
Proof.
  revert dir. induction segs as [|s segs IH]; intros dir Hw Hne; [done|]. cbn [walk_segments] in Hw.
  destruct (one_of [""; "."; ".."] s) eqn:Hs; [done|].
  destruct (lstat (dir ++ [s])) as [ft|] eqn:Hft; [|done].
  case_bool_decide as Hty; [|done]. subst ft.
  assert (s ∉ [""; "."; ".."]) as Hns.
  { intros Hin. unfold one_of in Hs. apply not_true_iff_false in Hs. apply Hs, existsb_exists.
    exists s. split; [by apply list_elem_of_In|apply String.eqb_refl]. }
  destruct segs as [|s' segs].
  - split_and!; [by constructor|done|]. simpl. lia.
  - destruct (IH (dir ++ [s]) Hw) as (Hf & Hlast & Hdirs); [done|].
    rewrite <-app_assoc in Hlast. split_and!; [by constructor|done|].
    intros [|[|k]] Hk; [lia|done|]. simpl. specialize (Hdirs (S k)).
    rewrite <-app_assoc in Hdirs. apply Hdirs. simpl in *. lia.
Qed.

(** A refresh writes a row only under the key the scan stores: a path that
    passes the check has no empty, [.] or [..] segment, every directory on the way
    is a real directory and its end a regular file (no link anywhere), and it is
    its own normal form, so no second spelling of the file passes as this one. *)
Theorem names_a_scanned_file_key lstat rel :
  names_a_scanned_file lstat rel = true →
  let segs := split_on "/" rel in
  Forall (λ s, s ∉ [""; "."; ".."]) segs
  ∧ lstat segs = Some FtFile
  ∧ (∀ k, 0 < k < length segs → lstat (take k segs) = Some FtDir)
  ∧ normalize_rel_str_on rel false = rel.
Proof.
  intros Hn segs. destruct (walk_segments_ok lstat [] segs Hn) as (Hf & Hlast & Hdirs);
    [apply split_on_not_nil|].
  split_and!; [done..|]. rewrite normalize_canon. unfold canon, unify.
  destruct (contains "//" rel) eqn:E; [|done]. exfalso.
  rewrite contains_double in E. apply has_double_segment in E. fold segs in E.
  rewrite Forall_forall in Hf. destruct segs as [|s l]; simpl in E; [by apply elem_of_nil in E|].
  apply (Hf ""); [by right|left].
Qed.

Definition demo_lstat (segs : list string) : option FileType :=
  if bool_decide (segs = ["src"]) then Some FtDir
  else if bool_decide (segs = ["src"; "a.rs"]) then Some FtFile else None.

Lemma names_a_scanned_file_key_witness :
  let segs := split_on "/" "src/a.rs" in
  Forall (λ s, s ∉ [""; "."; ".."]) segs
  ∧ demo_lstat segs = Some FtFile
  ∧ (∀ k, 0 < k < length segs → demo_lstat (take k segs) = Some FtDir)
  ∧ normalize_rel_str_on "src/a.rs" false = "src/a.rs".
Proof. apply (names_a_scanned_file_key demo_lstat "src/a.rs"). by vm_compute. Defined.

(** *** Watched paths *)

Lemma first_segment_iff dir rel :
  no_char "/" dir = true →
  String.eqb rel dir || match strip_prefix dir rel with
                        | Some r => starts_with "/" r
                        | None => false
                        end = true
  ↔ head (split_on "/" rel) = Some dir.
Proof.
  intros Hd. rewrite orb_true_iff. split.
  - intros [->%String.eqb_eq|H].
    + by rewrite split_on_word.
    + destruct (strip_prefix dir rel) as [r|] eqn:E; [|done].
      apply strip_prefix_Some in E as ->. apply starts_with_spec in H as [t ->].
      change ("/" +:+ t) with (String "/" t). by rewrite split_on_app.
  - intros Hh. pose proof (join_split "/" rel) as Hj.
    destruct (split_on "/" rel) as [|w ws] eqn:E; [done|]. injection Hh as ->.
    destruct ws as [|w' ws].
    + left. by apply String.eqb_eq.
    + right. rewrite join_cons in Hj by done. rewrite <-Hj.
      assert (strip_prefix dir (dir +:+ String "/" "" +:+ join (String "/" "") (w' :: ws))
              = Some (String "/" "" +:+ join (String "/" "") (w' :: ws))) as ->
        by by apply strip_prefix_Some.
      apply starts_with_spec. by eexists.
Qed.

Lemma is_ignored_watch_path_iff rel :
  is_ignored_watch_path rel = true
  ↔ head (split_on "/" (trim_dot_slash rel)) = Some ".code-graph"
    ∨ head (split_on "/" (trim_dot_slash rel)) = Some ".git".
Proof.
  unfold is_ignored_watch_path. cbn [existsb]. rewrite orb_false_r, orb_true_iff.
  unfold CODE_GRAPH_DIR. by rewrite !first_segment_iff by done.
Qed.

(** The watcher loses no edit: it drops a path only when its first segment is
    exactly [.code-graph] or [.git], and a content event with any other path below
    the root is forwarded with that path; nothing else is ever sent. *)
Theorem watcher_forwards {Path} (strip_root : Path → option string) kind paths :
  (∀ rel, is_ignored_watch_path rel = true ↔
     head (split_on "/" (trim_dot_slash rel)) = Some ".code-graph"
     ∨ head (split_on "/" (trim_dot_slash rel)) = Some ".git")
  ∧ (∀ p rel, is_content_event kind = true → p ∈ paths → strip_root p = Some rel →
       is_ignored_watch_path rel = false →
       ∃ sent, watch_event strip_root kind paths = Some sent ∧ rel ∈ sent)
  ∧ (∀ sent, watch_event strip_root kind paths = Some sent →
       is_content_event kind = true ∧ sent ≠ []
       ∧ ∀ rel, rel ∈ sent → is_ignored_watch_path rel = false
                             ∧ ∃ p, p ∈ paths ∧ strip_root p = Some rel).
Proof.
  split_and!; [apply is_ignored_watch_path_iff| |].
  - intros p rel Hk Hp Hs Hi. unfold watch_event. rewrite Hk. simpl.
    match goal with |- context [bool_decide (?l = [])] => assert (rel ∈ l) as Hin end.
    { apply list_elem_of_omap. exists p. split; [done|]. rewrite Hs. simpl. by rewrite Hi. }
    case_bool_decide as Hnil; [rewrite Hnil in Hin; by apply elem_of_nil in Hin|]. by eexists.
  - intros sent. unfold watch_event. destruct (is_content_event kind); [|done]. simpl.
    case_bool_decide as Hnil; [done|]. intros [= <-]. split_and!; [done|done|].
    intros rel (p & Hp & Hr)%list_elem_of_omap. destruct (strip_root p) as [r|] eqn:Es; [|done].
    simpl in Hr. destruct (is_ignored_watch_path r) eqn:Ei; simplify_eq. eauto.
Qed.
