(* ===== verification/Merkle.v ===== *)
(** * The file scan and its diff ([indexer/merkle.rs], the head of
      [run_incremental_index_cached] in [indexer/pipeline/mod.rs])

    The walk's entries and what reading a file gives are inputs: [entries] is what
    the [ignore] walker yielded, [read_hash] what [hash_file] answers (a failed
    read is [None]).  Hash maps are [gmap]s; a scan with a cache skips hashing,
    and the diff carries the stored hashes forward. *)

From S2P Require Import Prelude Str Domain Paths.

Record FileStamp := mkStamp { mtime : Z; size_ : N }.

#[export] Instance file_stamp_eq_dec : EqDecision FileStamp.
Proof. solve_decision. Defined.

(** [DirEntry]: the key of its path ([None] outside the root), its type, and what
    [metadata()] says: [modified()] may fail on its own. *)
Record Entry := mkEntry {
  en_key : option string;
  en_type : option FileType;
  en_meta : option (option Z * N);
}.

Record DirectoryCache := mkCache {
  dir_mtimes : gmap string Z;
  file_stamps : gmap string FileStamp;
  seen_files : gset string;
}.

Definition empty_cache : DirectoryCache := mkCache ∅ ∅ ∅.

Definition file_exists (c : DirectoryCache) (path : string) : bool :=
  bool_decide (path ∈ seen_files c).

(** [rel.parent().map(normalize_rel_path).unwrap_or_default()] *)
Definition parent_dir (rel : string) : string :=
  match rsplit_once "/" rel with Some (d, _) => d | None => "" end.

Definition file_needs_hashing (current cached : option FileStamp) : bool :=
  match current, cached with
  | Some cur, Some old => negb (bool_decide (cur = old))
  | Some _, None => true
  | None, _ => true
  end.

Definition entry_stamp (e : Entry) : option FileStamp :=
  '(modified, len) ← en_meta e; m ← modified; Some (mkStamp m len).

Section Scan.
Context (cache : option DirectoryCache).

(** Pass 1 over one entry: a directory's mtime, and whether it moved. *)
Definition pass1 (acc : gmap string Z * gset string) (e : Entry) : gmap string Z * gset string :=
  let '(dirs, changed) := acc in
  match en_type e, en_key e, en_meta e ≫= fst with
  | Some FtDir, Some rel, Some m =>
      if starts_with ".git" rel then acc
      else
        let is_changed :=
          match cache with
          | Some c => negb (bool_decide (dir_mtimes c !! rel = Some m))
          | None => true
          end in
        (<[rel := m]> dirs, if is_changed then {[rel]} ∪ changed else changed)
  | _, _, _ => acc
  end.

Definition changed_dirs (entries : list Entry) : gmap string Z * gset string :=
  let '(dirs, changed) := foldl pass1 (∅, ∅) entries in
  (dirs, match cache with None => {[""]} ∪ changed | Some _ => changed end).

(** A file the scan keeps, by its key. *)
Definition scanned_key (e : Entry) : option string :=
  match en_type e, en_key e with
  | Some FtFile, Some rel => if scan_keeps_key rel then Some rel else None
  | _, _ => None
  end.

Definition must_hash (changed : gset string) (e : Entry) (rel : string) : bool :=
  bool_decide (parent_dir rel ∈ changed)
  || file_needs_hashing (entry_stamp e) (c ← cache; file_stamps c !! rel).

(** Pass 2 over one entry: seen, stamped, and queued for hashing. *)
Definition pass2 (changed : gset string)
    (acc : gset string * gmap string FileStamp * list string) (e : Entry)
    : gset string * gmap string FileStamp * list string :=
  let '(seen, stamps, queue) := acc in
  match scanned_key e with
  | None => acc
  | Some rel =>
      ({[rel]} ∪ seen,
       match entry_stamp e with Some st => <[rel := st]> stamps | None => stamps end,
       if must_hash changed e rel then queue ++ [rel] else queue)
  end.

Definition hash_files_parallel (read_hash : string → option string) (files : list string)
    : gmap string string :=
  hash_map (omap (λ rel, pair rel <$> read_hash rel) files).

Definition scan_directory_cached (read_hash : string → option string) (entries : list Entry)
    : gmap string string * DirectoryCache :=
  let '(dirs, changed) := changed_dirs entries in
  let '(seen, stamps, queue) := foldl (pass2 changed) (∅, ∅, []) entries in
  (hash_files_parallel read_hash queue, mkCache dirs stamps seen).
End Scan.

(** ** The diff *)

Record DiffResult := mkDiff {
  new_files : list string;
  changed_files : list string;
  deleted_files : list string;
}.

Definition compute_diff (old current : gmap string string) : DiffResult :=
  mkDiff
    (omap (λ '(path, hash), match old !! path with None => Some path | Some _ => None end)
       (map_to_list current))
    (omap (λ '(path, hash), match old !! path with
                            | Some old_hash => if String.eqb old_hash hash then None else Some path
                            | None => None
                            end) (map_to_list current))
    (filter (λ path, current !! path = None) (map_to_list old).*1).

(** The merge loop: the stored hash of a file the walk saw and did not hash. *)
Definition carry_forward (stored hashes : gmap string string) (c : DirectoryCache)
    : gmap string string :=
  hashes ∪ filter (λ p : string * string, file_exists c p.1 = true) stored.

(** What [run_incremental_index_cached] computes before it indexes. *)
Definition incremental_diff (stored : gmap string string) (cache : option DirectoryCache)
    (read_hash : string → option string) (entries : list Entry) : DiffResult * DirectoryCache :=
  let '(hashes, new_cache) := scan_directory_cached cache read_hash entries in
  let current := carry_forward stored hashes new_cache in
  let diff := compute_diff stored current in
  (mkDiff (new_files diff) (changed_files diff)
     (filter (λ p, p ≠ EXTERNAL_FILE_PATH) (deleted_files diff)), new_cache).

(** ** Lemmas *)

Lemma elem_of_diff old current :
  let d := compute_diff old current in
  (∀ p, p ∈ new_files d ↔ old !! p = None ∧ is_Some (current !! p))
  ∧ (∀ p, p ∈ changed_files d ↔
       ∃ h0 h, old !! p = Some h0 ∧ current !! p = Some h ∧ h0 ≠ h)
  ∧ (∀ p, p ∈ deleted_files d ↔ is_Some (old !! p) ∧ current !! p = None).
Proof.
  split_and!; intros p; unfold compute_diff; simpl.
  - rewrite list_elem_of_omap. split.
    + intros ([q h] & Hq%elem_of_map_to_list & Hr). case_match; simplify_eq. eauto.
    + intros [Hold [h Hh]]. exists (p, h). split; [by apply elem_of_map_to_list|]. by rewrite Hold.
  - rewrite list_elem_of_omap. split.
    + intros ([q h] & Hq%elem_of_map_to_list & Hr). case_match; [|done].
      destruct (String.eqb_spec s h); simplify_eq. eauto.
    + intros (h0 & h & Hold & Hh & Hne). exists (p, h). split; [by apply elem_of_map_to_list|].
      rewrite Hold. by destruct (String.eqb_spec h0 h).
  - rewrite list_elem_of_filter, list_elem_of_fmap. split.
    + intros [Hc ([q h] & -> & Hq%elem_of_map_to_list)]. eauto.
    + intros [[h Hh] Hc]. split; [done|]. exists (p, h). split; [done|].
      by apply elem_of_map_to_list.
Qed.

Lemma NoDup_diff old current :
  let d := compute_diff old current in
  NoDup (new_files d) ∧ NoDup (changed_files d) ∧ NoDup (deleted_files d).
Proof.
  simpl. split_and!.
  - rewrite <-(list_fmap_id (omap _ _)). apply (NoDup_omap_key _ fst); [|apply NoDup_fst_map_to_list].
    intros [p h] q _. by case_match; intros [= <-].
  - rewrite <-(list_fmap_id (omap _ _)). apply (NoDup_omap_key _ fst); [|apply NoDup_fst_map_to_list].
    intros [p h] q _. case_match; [|done]. case_match; [done|]. by intros [= <-].
  - apply NoDup_filter, NoDup_fst_map_to_list.
Qed.

Section ScanLemmas.
Context (cache : option DirectoryCache) (read_hash : string → option string).

Lemma pass2_fold changed entries acc :
  let '(seen, stamps, queue) := foldl (pass2 cache changed) acc entries in
  (∀ p, p ∈ seen ↔ p ∈ acc.1.1 ∨ ∃ e, e ∈ entries ∧ scanned_key e = Some p)
  ∧ (∀ p, p ∈ queue ↔ p ∈ acc.2 ∨
       ∃ e, e ∈ entries ∧ scanned_key e = Some p ∧ must_hash cache changed e p = true).
Proof.
  revert acc. induction entries as [|e entries IH]; intros [[seen stamps] queue]; simpl.
  { split; intros p; (split; [by left|]); by intros [?|(? & ?%elem_of_nil & _)]. }
  specialize (IH (pass2 cache changed (seen, stamps, queue) e)).
  destruct (foldl _ _ entries) as [[seen' stamps'] queue']. destruct IH as [Hs Hq].
  unfold pass2 in Hs, Hq. destruct (scanned_key e) as [rel|] eqn:Ek; simpl in Hs, Hq.
  - split; intros p.
    + rewrite Hs, elem_of_union, elem_of_singleton. setoid_rewrite elem_of_cons. split.
      * intros [[->|?]|(e' & ? & ?)]; [right; exists e; by auto|by left|right; exists e'; by auto].
      * intros [?|(e' & [->|?] & He')]; [by auto|left; left; congruence|right; by eauto].
    + rewrite Hq. setoid_rewrite elem_of_cons.
      assert (p ∈ (if must_hash cache changed e rel then queue ++ [rel] else queue)
              ↔ p ∈ queue ∨ (p = rel ∧ must_hash cache changed e rel = true)) as ->.
      { destruct (must_hash cache changed e rel);
          [rewrite elem_of_app, list_elem_of_singleton|]; intuition done. }
      split.
      * intros [[?|[-> ?]]|(e' & ? & ?)]; [by auto|right; exists e; by auto|right; exists e'; by auto].
      * intros [?|(e' & [->|?] & He' & Hm)]; [by auto| |right; by eauto].
        left. right. rewrite Ek in He'. by simplify_eq.
  - split; intros p; [rewrite Hs|rewrite Hq]; setoid_rewrite elem_of_cons; split.
    + intros [?|(e' & ? & ?)]; [by auto|right; exists e'; by auto].
    + intros [?|(e' & [->|?] & He')]; [by auto|congruence|right; by eauto].
    + intros [?|(e' & ? & ?)]; [by auto|right; exists e'; by auto].
    + intros [?|(e' & [->|?] & He' & ?)]; [by auto|congruence|right; by eauto].
Qed.

(** A cached stamp is that of an entry of the scan. *)
Lemma pass2_stamps changed entries acc p st :
  (foldl (pass2 cache changed) acc entries).1.2 !! p = Some st →
  acc.1.2 !! p = Some st
  ∨ ∃ e, e ∈ entries ∧ scanned_key e = Some p ∧ entry_stamp e = Some st.
Proof.
  revert acc. induction entries as [|e entries IH]; intros [[seen stamps] queue]; [by left|].
  cbn [foldl]. intros [Hst|(e' & ? & ?)]%IH; [|right; exists e'; split; [by right|done]].
  unfold pass2 in Hst. destruct (scanned_key e) as [rel|] eqn:Ek; simpl in Hst; [|by left].
  destruct (entry_stamp e) as [st'|] eqn:Es; [|by left].
  apply lookup_insert_Some in Hst as [[-> ->]|[_ ?]]; [|by left].
  right. exists e. split; [by left|done].
Qed.

Definition seen_by (entries : list Entry) (p : string) : Prop :=
  ∃ e, e ∈ entries ∧ scanned_key e = Some p.

Definition hashed_by (entries : list Entry) (p : string) : Prop :=
  ∃ e, e ∈ entries ∧ scanned_key e = Some p
       ∧ must_hash cache (changed_dirs cache entries).2 e p = true.

Lemma scan_ok entries :
  let '(hashes, c) := scan_directory_cached cache read_hash entries in
  (∀ p, p ∈ seen_files c ↔ seen_by entries p)
  ∧ (∀ p h, hashes !! p = Some h ↔ hashed_by entries p ∧ read_hash p = Some h).
Proof.
  unfold scan_directory_cached, hashed_by. destruct (changed_dirs cache entries) as [dirs changed].
  pose proof (pass2_fold changed entries (∅, ∅, [])) as Hf.
  destruct (foldl _ _ entries) as [[seen stamps] queue]. destruct Hf as [Hs Hq]. simpl in *.
  split.
  - intros p. rewrite Hs. split; [by intros [?|?]; [set_solver|]|by right].
  - intros p h. unfold hash_files_parallel.
    assert (∀ q k, (q, k) ∈ omap (λ rel, pair rel <$> read_hash rel) queue
                   ↔ q ∈ queue ∧ read_hash q = Some k) as Ho.
    { intros q k. rewrite list_elem_of_omap. split.
      - intros (r & Hr & E). destruct (read_hash r) eqn:Er; simplify_eq/=. done.
      - intros [? E]. exists q. by rewrite E. }
    rewrite hash_map_lookup by (intros q k k' [_ ?]%Ho [_ ?]%Ho; congruence).
    rewrite Ho, Hq. rewrite elem_of_nil. intuition.
Qed.

Lemma scan_stamps entries p st :
  file_stamps (scan_directory_cached cache read_hash entries).2 !! p = Some st →
  ∃ e, e ∈ entries ∧ scanned_key e = Some p ∧ entry_stamp e = Some st.
Proof.
  unfold scan_directory_cached. destruct (changed_dirs cache entries) as [dirs changed].
  pose proof (pass2_stamps changed entries (∅, ∅, []) p st) as Hp.
  destruct (foldl _ _ entries) as [[seen stamps] queue]. simpl in *.
  intros [Hst|?]%Hp; [|done]. by rewrite lookup_empty in Hst.
Qed.

End ScanLemmas.

Lemma current_lookup stored hashes c p h :
  carry_forward stored hashes c !! p = Some h ↔
  hashes !! p = Some h ∨ (hashes !! p = None ∧ stored !! p = Some h ∧ p ∈ seen_files c).
Proof.
  unfold carry_forward. rewrite lookup_union_Some_raw, map_lookup_filter_Some.
  unfold file_exists. simpl. rewrite bool_decide_eq_true. tauto.
Qed.


Section DiffLemmas.
Context (stored : gmap string string) (cache : option DirectoryCache).
Context (read_hash : string → option string) (entries : list Entry).

Let d := (incremental_diff stored cache read_hash entries).1.

Lemma incremental_diff_elem :
  (∀ p, p ∈ new_files d ↔
     stored !! p = None ∧ hashed_by cache entries p ∧ is_Some (read_hash p))
  ∧ (∀ p, p ∈ changed_files d ↔
       hashed_by cache entries p
       ∧ ∃ h0 h, stored !! p = Some h0 ∧ read_hash p = Some h ∧ h0 ≠ h)
  ∧ (∀ p, p ∈ deleted_files d ↔
       is_Some (stored !! p) ∧ ¬ seen_by entries p ∧ p ≠ EXTERNAL_FILE_PATH)
  ∧ NoDup (new_files d) ∧ NoDup (changed_files d) ∧ NoDup (deleted_files d).
Proof.
  unfold d, incremental_diff. pose proof (scan_ok cache read_hash entries) as Hscan.
  destruct (scan_directory_cached cache read_hash entries) as [hashes c].
  destruct Hscan as [Hseen Hhash].
  set (current := carry_forward stored hashes c).
  destruct (elem_of_diff stored current) as (Hn & Hc & Hd).
  destruct (NoDup_diff stored current) as (Hn' & Hc' & Hd').
  assert (∀ p h, current !! p = Some h ↔
            (hashed_by cache entries p ∧ read_hash p = Some h)
            ∨ (hashes !! p = None ∧ stored !! p = Some h ∧ seen_by entries p)) as Hcur.
  { intros p h. unfold current. rewrite current_lookup, Hhash, Hseen. done. }
  assert (∀ p, hashed_by cache entries p → seen_by entries p) as Hhs.
  { intros p (e & ? & ? & _). by exists e. }
  simpl. split_and!; [| | |done|done|by apply NoDup_filter].
  - intros p. rewrite Hn. split.
    + intros [Hs [h [[??]|(_ & ? & _)]%Hcur]]; [eauto|congruence].
    + intros (Hs & Hh & [h Hr]). split; [done|]. exists h. apply Hcur. by left.
  - intros p. rewrite Hc. split.
    + intros (h0 & h & Hs & [[??]|(_ & ? & _)]%Hcur & Hne); [eauto 6|congruence].
    + intros (Hh & h0 & h & Hs & Hr & Hne). exists h0, h. split_and!; [done| |done].
      apply Hcur. by left.
  - intros p. rewrite list_elem_of_filter, Hd. split.
    + intros (Hne & [h0 Hs] & Hcn). split_and!; [by eexists| |done]. intros Hsn.
      destruct (hashes !! p) as [h|] eqn:E.
      * assert (current !! p = Some h) by (apply Hcur; left; by apply Hhash). congruence.
      * assert (current !! p = Some h0) by (apply Hcur; by right). congruence.
    + intros (Hs & Hns & Hne). split_and!; [done|done|].
      destruct (current !! p) as [h|] eqn:E; [|done].
      apply Hcur in E as [[? _]|(_ & _ & ?)]; [destruct Hns; auto|done].
Qed.
End DiffLemmas.

(** ** Properties *)

(** C33: A diff only says what the walk and the reads showed: a file is deleted
    exactly when it was stored and the walk did not see it (a failed [stat] or read
    is never a deletion), it is new or changed only when its bytes were read and
    are not the stored ones, no path is listed twice or in two lists, and without
    a cache every readable new or changed file is listed. *)
Theorem incremental_diff_sound stored cache read_hash entries :
  let d := (incremental_diff stored cache read_hash entries).1 in
  (∀ p, p ∈ deleted_files d ↔
     is_Some (stored !! p) ∧ ¬ seen_by entries p ∧ p ≠ EXTERNAL_FILE_PATH)
  ∧ (∀ p, p ∈ new_files d →
       seen_by entries p ∧ stored !! p = None ∧ is_Some (read_hash p))
  ∧ (∀ p, p ∈ changed_files d →
       seen_by entries p ∧ ∃ h0 h, stored !! p = Some h0 ∧ read_hash p = Some h ∧ h0 ≠ h)
  ∧ NoDup (new_files d ++ changed_files d ++ deleted_files d)
  ∧ (cache = None → ∀ p h, seen_by entries p → read_hash p = Some h → stored !! p ≠ Some h →
       p ∈ new_files d ++ changed_files d).
Proof.
  intros d. destruct (incremental_diff_elem stored cache read_hash entries)
    as (Hn & Hc & Hd & Hn' & Hc' & Hd'). fold d in Hn, Hc, Hd, Hn', Hc', Hd'.
  assert (∀ p, hashed_by cache entries p → seen_by entries p) as Hhs.
  { intros p (e & ? & ? & _). by exists e. }
  split_and!; [done| | | |].
  - intros p (? & ? & ?)%Hn. auto.
  - intros p (? & ?)%Hc. auto.
  - rewrite !NoDup_app. split_and!; [done| |done| |done].
    + intros p (Hs & Hh & _)%Hn [(_ & h0 & h & ? & _)%Hc|(_ & Hns & _)%Hd]%elem_of_app;
        [congruence|by apply Hns, Hhs].
    + intros p (Hh & _)%Hc (_ & Hns & _)%Hd. by apply Hns, Hhs.
  - intros -> p h (e & He & Hk) Hr Hs. rewrite elem_of_app, Hn, Hc.
    assert (hashed_by None entries p) as Hh.
    { exists e. split_and!; [done..|]. unfold must_hash, file_needs_hashing. simpl.
      destruct (entry_stamp e); apply orb_true_r. }
    destruct (stored !! p) as [h0|] eqn:E; [right|left; by eauto].
    split; [done|]. exists h0, h. split_and!; [done..|]. congruence.
Qed.

(** A rescan with the cache misses nothing when the previous scan read every
    file it stamped: if the index stores the hashes of that scan and an equal stamp
    still means equal content, the diff lists exactly the files whose content is
    not the stored one. *)
Theorem rescan_exact stored cache0 read1 entries1 read2 entries2 :
  let cache := (scan_directory_cached cache0 read1 entries1).2 in
  let d := (incremental_diff stored (Some cache) read2 entries2).1 in
  (∀ p, seen_by entries1 p → stored !! p = read1 p) →
  (∀ e1 e2 p st, e1 ∈ entries1 → e2 ∈ entries2 → scanned_key e1 = Some p →
     scanned_key e2 = Some p → entry_stamp e1 = Some st → entry_stamp e2 = Some st →
     read2 p = read1 p) →
  (∀ p, p ∈ new_files d ↔ seen_by entries2 p ∧ stored !! p = None ∧ is_Some (read2 p))
  ∧ (∀ p, p ∈ changed_files d ↔
       seen_by entries2 p ∧ ∃ h0 h, stored !! p = Some h0 ∧ read2 p = Some h ∧ h0 ≠ h).
Proof.
  intros cache d Hstored Hstamp.
  destruct (incremental_diff_elem stored (Some cache) read2 entries2) as (Hn & Hc & _).
  fold d in Hn, Hc.
  assert (∀ p, seen_by entries2 p → hashed_by (Some cache) entries2 p ∨ stored !! p = read2 p) as Hskip.
  { intros p (e2 & He2 & Hk2).
    destruct (must_hash (Some cache) (changed_dirs (Some cache) entries2).2 e2 p) eqn:Em;
      [left; by exists e2|right].
    apply orb_false_iff in Em as [_ Em]. simpl in Em. unfold file_needs_hashing in Em.
    destruct (entry_stamp e2) as [st|] eqn:E2; [|done].
    destruct (file_stamps cache !! p) as [st'|] eqn:Ec; [|done].
    apply negb_false_iff, bool_decide_eq_true in Em as <-.
    apply scan_stamps in Ec as (e1 & He1 & Hk1 & E1).
    rewrite (Hstamp e1 e2 p st) by done. apply Hstored. by exists e1. }
  assert (∀ p, hashed_by (Some cache) entries2 p → seen_by entries2 p) as Hhs.
  { intros p (e & ? & ? & _). by exists e. }
  split; intros p.
  - rewrite Hn. split; [intros (? & ? & ?); auto|]. intros (Hs & Hno & [h Hr]).
    destruct (Hskip p Hs) as [?|Heq]; [by eauto|congruence].
  - rewrite Hc. split; [intros (? & ?); auto|]. intros (Hs & h0 & h & Hst & Hr & Hne).
    destruct (Hskip p Hs) as [?|Heq]; [by eauto 6|congruence].
Qed.

Definition file_entry (key : string) (m : Z) (len : N) : Entry :=
  mkEntry (Some key) (Some FtFile) (Some (Some m, len)).

Lemma rescan_exact_witness :
  let cache := (scan_directory_cached None (λ _, Some "h1") [file_entry "src/a.rs" 1 9]).2 in
  let d := (incremental_diff {["src/a.rs" := "h1"]} (Some cache) (λ _, Some "h2")
              [file_entry "src/a.rs" 2 9]).1 in
  (∀ p, p ∈ new_files d ↔ seen_by [file_entry "src/a.rs" 2 9] p
     ∧ ({["src/a.rs" := "h1"]} : gmap string string) !! p = None ∧ is_Some (Some "h2"))
  ∧ (∀ p, p ∈ changed_files d ↔
       seen_by [file_entry "src/a.rs" 2 9] p
       ∧ ∃ h0 h, ({["src/a.rs" := "h1"]} : gmap string string) !! p = Some h0
                 ∧ Some "h2" = Some h ∧ h0 ≠ h).
Proof.
  apply (rescan_exact {["src/a.rs" := "h1"]} None (λ _, Some "h1") [file_entry "src/a.rs" 1 9]
           (λ _, Some "h2") [file_entry "src/a.rs" 2 9]).
  - intros p (e & ->%list_elem_of_singleton & Hk). vm_compute in Hk. injection Hk as <-.
    by vm_compute.
  - intros e1 e2 p st ->%list_elem_of_singleton ->%list_elem_of_singleton _ _ H1 H2.
    vm_compute in H1, H2. congruence.
Defined.

(** A read that fails once hides an edit for good: the edited file's new stamp
    is cached although its bytes could not be read, so the next scan, whose read
    would succeed, skips the file and the stored hash stays. *)
Theorem failed_read_hides_edit :
  let stored := {["src/a.rs" := "old"]} in
  let scan1 := incremental_diff stored (Some (mkCache ∅ {["src/a.rs" := mkStamp 1 9]} {["src/a.rs"]}))
                 (λ _, None) [file_entry "src/a.rs" 2 9] in
  let scan2 := incremental_diff stored (Some scan1.2) (λ _, Some "new") [file_entry "src/a.rs" 2 9] in
  scan1.1 = mkDiff [] [] [] ∧ scan2.1 = mkDiff [] [] []
  ∧ (incremental_diff stored None (λ _, Some "new") [file_entry "src/a.rs" 2 9]).1
    = mkDiff [] ["src/a.rs"] [].
Proof. by vm_compute. Qed.
