(* ===== verification/JsModules.v ===== *)
(** * Path-like specifiers ([indexer/pipeline/js_modules.rs])

    Relative ES module specifiers, PHP includes and C includes, resolved against
    the set of indexed files. *)

From S2P Require Import Prelude Str Paths.

Definition JS_EXTENSIONS : list string := ["ts"; "tsx"; "js"; "jsx"; "mjs"; "cjs"].

Definition is_js_module_path (path : string) : bool :=
  match extension path with
  | Some ext => bool_decide (ext ∈ JS_EXTENSIONS)
  | None => false
  end.

(** The loop of [normalize_rel_path] over the segments; the vector of kept
    segments is held in reverse. *)
Fixpoint norm_segs (segs out : list string) : option (list string) :=
  match segs with
  | [] => Some out
  | seg :: segs' =>
      if bool_decide (seg = "" ∨ seg = ".") then norm_segs segs' out
      else if bool_decide (seg = "..") then
        match out with [] => None | _ :: out' => norm_segs segs' out' end
      else norm_segs segs' (seg :: out)
  end.

Definition normalize_rel_path (path : string) : option string :=
  out ← norm_segs (split_on "/" path) []; Some (join "/" (reverse out)).

(** [rsplit_once('/')]'s directory, empty at the repository root, joined with [rel]. *)
Definition join_importer (importer_rel_path rel : string) : string :=
  let importer_dir := match rsplit_once "/" importer_rel_path with
                      | Some (dir, _) => dir
                      | None => ""
                      end in
  if String.eqb importer_dir "" then rel else importer_dir +:+ "/" +:+ rel.

Section Resolve.
Context (file_set : gset string).

Definition indexed (path : string) : bool := bool_decide (path ∈ file_set).

(** The loops [for ext in JS_EXTENSIONS { if file_set.contains(..) .. }]. *)
Fixpoint probe (cand : string → string) (exts : list string) : option string :=
  match exts with
  | [] => None
  | ext :: exts' => if indexed (cand ext) then Some (cand ext) else probe cand exts'
  end.

Definition resolve_js_specifier_path (specifier importer_rel_path : string) : option string :=
  let specifier :=
    if String.eqb specifier "." || String.eqb specifier ".." then specifier +:+ "/"
    else specifier in
  if negb (starts_with "./" specifier || starts_with "../" specifier) then None
  else
    base ← normalize_rel_path (join_importer importer_rel_path specifier);
    if indexed base then Some base
    else
      match probe (λ ext, base +:+ "." +:+ ext) JS_EXTENSIONS with
      | Some cand => Some cand
      | None =>
          probe (λ ext, if String.eqb base "" then "index." +:+ ext
                        else base +:+ "/index." +:+ ext) JS_EXTENSIONS
      end.

Definition resolve_js_module_targets (specifier importer_rel_path target_name : string)
    (name_to_ids : gmap string (list Z)) (node_id_to_path : gmap Z string) : option (list Z) :=
  file ← resolve_js_specifier_path specifier importer_rel_path;
  all_ids ← name_to_ids !! target_name;
  let targets := filter (λ id, node_id_to_path !! id = Some file) all_ids in
  if bool_decide (targets = []) then None else Some targets.

(** [trim_start_matches('/')] *)
Fixpoint trim_slashes (s : string) : string :=
  match s with
  | String c s' => if Ascii.eqb c ch_slash then trim_slashes s' else s
  | EmptyString => s
  end.

Definition resolve_php_include_path (include_path importer_rel_path : string) : option string :=
  let rel := trim_slashes (trim_dot_slash include_path) in
  if String.eqb rel "" then None
  else
    base ← normalize_rel_path (join_importer importer_rel_path rel);
    if indexed base then Some base
    else if indexed (base +:+ ".php") then Some (base +:+ ".php") else None.

Definition resolve_c_include_path (include_path importer_rel_path : string) : option string :=
  let rel := trim_dot_slash include_path in
  if String.eqb rel "" then None
  else
    let try path := base ← normalize_rel_path path; if indexed base then Some base else None in
    match try (join_importer importer_rel_path rel) with
    | Some base => Some base
    | None => try rel
    end.
End Resolve.

Example resolve_js_parent :
  resolve_js_specifier_path {["src/util/helper.ts"; "src/util/helper.js"]}
    "../util/helper" "src/app/main.ts" = Some "src/util/helper.ts".
Proof. by vm_compute. Qed.

(** ** Normalisation *)

(** A segment that names something. *)
Definition proper (seg : string) : Prop := seg ∉ [""; "."; ".."].

Definition count_up (segs : list string) : nat := length (filter (λ s, s = "..") segs).
Definition count_down (segs : list string) : nat := length (filter (λ s, s ∉ [""; "."; ".."]) segs).

Lemma norm_segs_cases seg segs out :
  (seg = "" ∨ seg = ".") ∧ norm_segs (seg :: segs) out = norm_segs segs out
  ∨ seg = ".." ∧ norm_segs (seg :: segs) out
                 = match out with [] => None | _ :: out' => norm_segs segs out' end
  ∨ proper seg ∧ norm_segs (seg :: segs) out = norm_segs segs (seg :: out).
Proof.
  simpl. case_bool_decide as H1; [by left|]. right. case_bool_decide as H2; [by left|]. right.
  split; [|done]. unfold proper. set_solver.
Qed.

Lemma norm_segs_proper segs out out' :
  norm_segs segs out = Some out' → Forall proper out → Forall proper out'.
Proof.
  revert out. induction segs as [|seg segs IH]; intros out; [by intros [= <-]|].
  destruct (norm_segs_cases seg segs out) as [[_ ->]|[[_ ->]|[Hp ->]]]; intros Hn Ho.
  - by eapply IH.
  - destruct out as [|x out]; [done|]. inversion Ho; subst. by eapply IH.
  - eapply IH; [done|]. by constructor.
Qed.

Lemma norm_segs_id segs out :
  Forall proper segs → norm_segs segs out = Some (reverse segs ++ out).
Proof.
  revert out. induction segs as [|seg segs IH]; intros out; [done|]. intros [Hp Hs]%Forall_cons.
  destruct (norm_segs_cases seg segs out) as [[[-> | ->] _]|[[-> _]|[_ ->]]];
    try (unfold proper in Hp; set_solver).
  rewrite IH by done. by rewrite reverse_cons, <-app_assoc.
Qed.

Lemma norm_segs_app segs1 segs2 out :
  norm_segs (segs1 ++ segs2) out = out' ← norm_segs segs1 out; norm_segs segs2 out'.
Proof.
  revert out. induction segs1 as [|seg segs IH]; intros out; [done|].
  change ((seg :: segs) ++ segs2) with (seg :: (segs ++ segs2)).
  destruct (norm_segs_cases seg segs out) as [[Hs ->]|[[-> ->]|[Hp ->]]].
  - rewrite <-IH. simpl. by rewrite bool_decide_eq_true_2.
  - simpl. destruct out; [done|apply IH].
  - rewrite <-IH. simpl. unfold proper in Hp.
    rewrite !bool_decide_eq_false_2 by set_solver. done.
Qed.

Lemma count_cons seg segs :
  count_up (seg :: segs) = (if decide (seg = "..") then 1 else 0) + count_up segs
  ∧ count_down (seg :: segs) = (if decide (proper seg) then 1 else 0) + count_down segs.
Proof.
  unfold count_up, count_down, proper. rewrite !filter_cons. split; by repeat case_decide.
Qed.

(** The walk leaves the root exactly when some prefix climbs more than it
    descends. *)
Lemma norm_segs_None segs out :
  norm_segs segs out = None
  ↔ ∃ k, length out + count_down (take k segs) < count_up (take k segs).
Proof.
  revert out. induction segs as [|seg segs IH]; intros out.
  { split; [done|]. intros [k Hk]. rewrite take_nil in Hk. unfold count_up, count_down in Hk.
    simpl in Hk. lia. }
  assert (∀ P : list string → Prop, ¬ P [] → (∃ k, P (take k (seg :: segs)))
            ↔ ∃ k, P (seg :: take k segs)) as Hk.
  { intros P Hnil. split; [intros [[|k] HP]; [done|by exists k]|].
    intros [k HP]. by exists (S k). }
  rewrite (Hk (λ l, length out + count_down l < count_up l)) by (unfold count_up, count_down; simpl; lia).
  assert (proper ".." → False) as Hdd by (unfold proper; set_solver).
  destruct (norm_segs_cases seg segs out) as [[Hs ->]|[[-> ->]|[Hp ->]]].
  - rewrite IH. assert (¬ proper seg) by (unfold proper; destruct Hs as [-> | ->]; set_solver).
    assert (seg ≠ "..") by (by destruct Hs as [-> | ->]).
    split; intros [k Hk']; exists k; destruct (count_cons seg (take k segs)) as [Hu Hd];
      rewrite Hu, Hd in *; rewrite !decide_False in * by done; lia.
  - destruct out as [|x out].
    + split; [|done]. intros _. exists 0. by vm_compute; lia.
    + rewrite IH. split; intros [k Hk']; exists k; destruct (count_cons ".." (take k segs)) as [Hu Hd];
        rewrite Hu, Hd in *; rewrite (decide_True (P := ".." = "..")) in * by done;
        rewrite (decide_False (P := proper "..")) in * by done; simpl in *; lia.
  - rewrite IH. assert (seg ≠ "..") by (intros ->; by apply Hdd).
    split; intros [k Hk']; exists k; destruct (count_cons seg (take k segs)) as [Hu Hd];
      rewrite Hu, Hd in *; rewrite (decide_False (P := seg = "..")) in * by done;
      rewrite (decide_True (P := proper seg)) in * by done; simpl in *; lia.
Qed.

Lemma norm_segs_Forall (P : string → Prop) segs out out' :
  norm_segs segs out = Some out' → Forall P segs → Forall P out → Forall P out'.
Proof.
  revert out. induction segs as [|seg segs IH]; intros out; [by intros [= <-]|].
  destruct (norm_segs_cases seg segs out) as [[_ ->]|[[_ ->]|[Hp ->]]];
    intros Hn [Hs Hss]%Forall_cons Ho.
  - by eapply IH.
  - destruct out as [|x out]; [done|]. inversion Ho; subst. by eapply IH.
  - eapply IH; [done..|]. by constructor.
Qed.

Lemma normalize_join l :
  Forall proper l → Forall (λ w, no_char "/" w = true) l →
  normalize_rel_path (join "/" l) = Some (join "/" l).
Proof.
  intros Hp Hn. unfold normalize_rel_path. destruct l as [|w l]; [done|].
  rewrite split_join by done. rewrite norm_segs_id by done. simpl.
  by rewrite app_nil_r, reverse_involutive.
Qed.

Lemma normalize_Some path q :
  normalize_rel_path path = Some q →
  ∃ out, norm_segs (split_on "/" path) [] = Some out ∧ q = join "/" (reverse out)
    ∧ Forall proper (reverse out) ∧ Forall (λ w, no_char "/" w = true) (reverse out).
Proof.
  unfold normalize_rel_path. destruct (norm_segs _ _) as [out|] eqn:E; [|done].
  intros [= <-]. exists out. split_and!; [done|done| |]; apply Forall_reverse.
  - by eapply norm_segs_proper.
  - eapply norm_segs_Forall; [exact E|apply split_on_no_char|done].
Qed.

Section Probe.
Context (file_set : gset string).

Lemma probe_find cand exts :
  probe file_set cand exts = find (indexed file_set) (cand <$> exts).
Proof. induction exts as [|ext exts IH]; [done|]. simpl. by rewrite IH. Qed.

Lemma find_app {A} (f : A → bool) l1 l2 :
  find f (l1 ++ l2) = match find f l1 with Some x => Some x | None => find f l2 end.
Proof. induction l1 as [|x l1 IH]; [done|]. simpl. by destruct (f x). Qed.

Lemma find_first {A} (f : A → bool) l x :
  find f l = Some x → ∃ l1 l2, l = l1 ++ x :: l2 ∧ f x = true ∧ ∀ y, y ∈ l1 → f y = false.
Proof.
  induction l as [|y l IH]; [done|]. simpl. destruct (f y) eqn:E.
  - intros [= ->]. exists [], l. split_and!; [done|done|]. by intros ? ?%elem_of_nil.
  - intros (l1 & l2 & -> & Hx & Hl)%IH. exists (y :: l1), l2. split_and!; [done|done|].
    intros z [->|?]%elem_of_cons; auto.
Qed.
End Probe.

(** ** Properties *)

(** Normalising a repository path gives its canonical spelling or nothing: no
    empty, [.] or [..] segment is left and normalising again changes nothing; and
    it fails exactly when some prefix climbs above the repository root. *)
Theorem normalize_rel_path_canonical path :
  (∀ q, normalize_rel_path path = Some q →
     normalize_rel_path q = Some q
     ∧ (q = "" ∨ Forall proper (split_on "/" q)))
  ∧ (normalize_rel_path path = None ↔
     ∃ k, count_down (take k (split_on "/" path)) < count_up (take k (split_on "/" path))).
Proof.
  split.
  - intros q (out & _ & -> & Hp & Hn)%normalize_Some. split; [by apply normalize_join|].
    destruct (reverse out) as [|w l]; [by left|right]. by rewrite split_join.
  - pose proof (norm_segs_None (split_on "/" path) []) as Hn. simpl in Hn. rewrite <-Hn.
    unfold normalize_rel_path. by destruct (norm_segs _ _).
Qed.

(** The candidates of a specifier, in the order they are tried. *)
Definition js_candidates (base : string) : list string :=
  base :: ((λ ext, base +:+ "." +:+ ext) <$> JS_EXTENSIONS)
  ++ ((λ ext, if String.eqb base "" then "index." +:+ ext
              else base +:+ "/index." +:+ ext) <$> JS_EXTENSIONS).

Definition js_relative (specifier : string) : option string :=
  if String.eqb specifier "." || String.eqb specifier ".." then Some (specifier +:+ "/")
  else if starts_with "./" specifier || starts_with "../" specifier then Some specifier else None.

Lemma resolve_js_specifier_find file_set specifier importer :
  resolve_js_specifier_path file_set specifier importer
  = spec ← js_relative specifier;
    base ← normalize_rel_path (join_importer importer spec);
    find (indexed file_set) (js_candidates base).
Proof.
  unfold resolve_js_specifier_path, js_relative.
  assert (∀ spec,
    (base ← normalize_rel_path (join_importer importer spec);
     if indexed file_set base then Some base
     else match probe file_set (λ ext, base +:+ "." +:+ ext) JS_EXTENSIONS with
          | Some cand => Some cand
          | None => probe file_set (λ ext, if String.eqb base "" then "index." +:+ ext
                                           else base +:+ "/index." +:+ ext) JS_EXTENSIONS
          end)
    = base ← normalize_rel_path (join_importer importer spec);
      find (indexed file_set) (js_candidates base)) as Hfind.
  { intros spec. destruct (normalize_rel_path _) as [base|]; [|done]. cbn [mbind option_bind].
    unfold js_candidates. cbn [find]. destruct (indexed file_set base); [done|].
    rewrite find_app, <-!probe_find. by destruct (probe _ _ _). }
  destruct (String.eqb_spec specifier ".") as [->|_]; [apply (Hfind "./")|].
  destruct (String.eqb_spec specifier "..") as [->|_]; [apply (Hfind "../")|].
  cbn [orb]. destruct (_ || _); [apply Hfind|done].
Qed.

(** A relative specifier resolves to the first indexed candidate of its
    normalised base (the file itself, then each extension, then each index file),
    and to nothing only when none is indexed, it leaves the repository or it is
    not relative; the bound nodes are exactly those of that name in that file. *)
Theorem resolve_js_ok file_set specifier importer name names paths :
  (∀ f, resolve_js_specifier_path file_set specifier importer = Some f →
     f ∈ file_set ∧ ∃ spec base before after, js_relative specifier = Some spec
       ∧ normalize_rel_path (join_importer importer spec) = Some base
       ∧ js_candidates base = before ++ f :: after ∧ ∀ c, c ∈ before → c ∉ file_set)
  ∧ (∀ spec base c, js_relative specifier = Some spec →
       normalize_rel_path (join_importer importer spec) = Some base →
       c ∈ js_candidates base → c ∈ file_set →
       is_Some (resolve_js_specifier_path file_set specifier importer))
  ∧ (∀ ids, resolve_js_module_targets file_set specifier importer name names paths = Some ids →
       ids ≠ [] ∧ ∃ f all, resolve_js_specifier_path file_set specifier importer = Some f
         ∧ names !! name = Some all
         ∧ ∀ id, id ∈ ids ↔ id ∈ all ∧ paths !! id = Some f).
Proof.
  rewrite resolve_js_specifier_find. split_and!.
  - intros f Hf. destruct (js_relative specifier) as [spec|]; [|done]. cbn [mbind option_bind] in Hf.
    destruct (normalize_rel_path _) as [base|] eqn:Eb; [|done]. cbn [mbind option_bind] in Hf.
    destruct (find_first _ _ _ Hf) as (before & after & Hc & Hi & Hb).
    split; [by apply bool_decide_eq_true in Hi|]. exists spec, base, before, after.
    split_and!; [done..|]. intros c Hc'. by apply Hb, bool_decide_eq_false in Hc'.
  - intros spec base c -> Hb Hc Hin. cbn [mbind option_bind]. rewrite Hb. cbn [mbind option_bind].
    destruct (find _ _) eqn:E; [by eexists|]. exfalso.
    apply list_elem_of_In in Hc. eapply find_none in E; [|exact Hc].
    by apply bool_decide_eq_false in E.
  - intros ids. rewrite <-resolve_js_specifier_find. unfold resolve_js_module_targets.
    destruct (resolve_js_specifier_path file_set specifier importer) as [f|]; [|done]. cbn [mbind option_bind].
    destruct (names !! name) as [all|]; [|done]. cbn [mbind option_bind].
    case_bool_decide as Hnil; [done|]. intros [= <-]. split; [done|]. exists f, all.
    split_and!; [done..|]. intros id. rewrite list_elem_of_filter. tauto.
Qed.

(** PHP and C includes bind only to indexed files that the include names: its
    normalised path from the including file's directory, for PHP also with [.php]
    added, for C also from the repository root; and a header beside its includer
    is preferred to one at the root. *)
Theorem resolve_includes_ok file_set include importer :
  (∀ f, resolve_php_include_path file_set include importer = Some f →
     f ∈ file_set ∧ ∃ base,
       normalize_rel_path (join_importer importer (trim_slashes (trim_dot_slash include))) = Some base
       ∧ (f = base ∨ f = base +:+ ".php" ∧ base ∉ file_set))
  ∧ (∀ f, resolve_c_include_path file_set include importer = Some f →
       f ∈ file_set ∧
       (normalize_rel_path (join_importer importer (trim_dot_slash include)) = Some f
        ∨ normalize_rel_path (trim_dot_slash include) = Some f
          ∧ ∀ g, normalize_rel_path (join_importer importer (trim_dot_slash include)) = Some g →
                 g ∉ file_set)).
Proof.
  split; intros f.
  - unfold resolve_php_include_path. case_match; [done|].
    destruct (normalize_rel_path _) as [base|]; [|done]. cbn [mbind option_bind].
    unfold indexed. repeat case_bool_decide; intros [= <-]; eauto 8.
  - unfold resolve_c_include_path. case_match; [done|]. unfold indexed.
    destruct (normalize_rel_path (join_importer _ _)) as [b1|] eqn:E1; cbn [mbind option_bind].
    + case_bool_decide as Hb1; [intros [= <-]; by auto|].
      destruct (normalize_rel_path (trim_dot_slash include)) as [b2|] eqn:E2; [|done].
      cbn [mbind option_bind]. case_bool_decide as Hb2; [|done]. intros [= <-].
      split; [done|]. right. split; [done|]. by intros g [= <-].
    + destruct (normalize_rel_path (trim_dot_slash include)) as [b2|] eqn:E2; [|done].
      cbn [mbind option_bind]. case_bool_decide as Hb2; [|done]. intros [= <-].
      split; [done|]. by right.
Qed.
