(* ===== verification/PyModules.v ===== *)
(** * Python module paths ([indexer/pipeline/python_modules.rs])

    Import roots, the map from dotted module paths to files, relative imports,
    and the bounded search through re-exports.  A [HashSet] of paths is a [gset];
    its iteration order is that of [elements], which no result below depends on. *)

From S2P Require Import Prelude Str Tables.

(** ** Import roots *)

(** [let mut dir = ..; while let Some(d) = dir { chain.push(d); dir = .. }]: the
    directories above a path, nearest first.  Each step shortens the string. *)
Fixpoint dir_chain (fuel : nat) (path : string) : list string :=
  match fuel with
  | 0 => []
  | S fuel' =>
      match rsplit_once "/" path with
      | Some (d, _) => d :: dir_chain fuel' d
      | None => []
      end
  end.
Definition chain_of (path : string) : list string := dir_chain (String.length path) path.

(** [for d in chain.iter().rev()] up to the first package. *)
Fixpoint add_roots (packages : gset string) (root_first : list string) (roots : gset string)
    : gset string :=
  match root_first with
  | [] => roots
  | d :: ds => if bool_decide (d ∈ packages) then roots
               else add_roots packages ds ({[d]} ∪ roots)
  end.

Definition packages_of (python_paths : gset string) : gset string :=
  list_to_set (omap (strip_suffix "/__init__.py") (elements python_paths)).

Definition import_roots (python_paths : gset string) : gset string :=
  foldr (λ path, add_roots (packages_of python_paths) (reverse (chain_of path)))
    {[ "" ]} (elements python_paths).

(** ** The module map *)

Definition module_stem (path : string) : option string :=
  match strip_suffix "/__init__.py" path with
  | Some s => Some s
  | None => strip_suffix ".py" path
  end.

Definition rel_to_root (root stripped : string) : option string :=
  if String.eqb root "" then Some stripped
  else r ← strip_prefix root stripped; strip_prefix "/" r.

(** [map.entry(rel.replace('/', ".")).or_default().push(path.clone())] *)
Definition register (path stripped root : string) (map : gmap string (list string))
    : gmap string (list string) :=
  match rel_to_root root stripped with
  | Some rel =>
      if String.eqb rel "" then map
      else let key := replace_char "/" "." rel in
           <[key := default [] (map !! key) ++ [path]]> map
  | None => map
  end.

Definition register_file (roots : gset string) (path : string)
    (map : gmap string (list string)) : gmap string (list string) :=
  match module_stem path with
  | Some stripped => foldr (register path stripped) map (elements roots)
  | None => map
  end.

Definition build_python_module_map (python_paths : gset string) : gmap string (list string) :=
  let roots := import_roots python_paths in
  let map := foldr (register_file roots) ∅ (elements python_paths) in
  (λ paths, vec_dedup (sort_by str_leb paths)) <$> map.

Definition changed_module_paths (before after : gset string) : gset string :=
  let old := build_python_module_map before in
  let new := build_python_module_map after in
  filter (λ k, old !! k ≠ new !! k) (dom old ∪ dom new).

Definition project_module_files (python_module : string)
    (python_module_map : gmap string (list string)) : option (list string) :=
  python_module_map !! python_module.

(** ** Relative imports *)

Definition dir_of_path (path : string) : string :=
  match rsplit_once "/" path with Some (d, _) => d | None => "" end.

(** [while let Some(r) = rest.strip_prefix('.')], one directory up per dot. *)
Fixpoint climb (dir rest : string) : option (string * string) :=
  match rest with
  | String c r =>
      if Ascii.eqb c ch_dot then
        if String.eqb dir "" then None else climb (dir_of_path dir) r
      else Some (dir, rest)
  | EmptyString => Some (dir, rest)
  end.

Definition relative_module_path (python_module importer : string) : option string :=
  rest ← strip_prefix "." python_module;
  '(dir, rest) ← climb (dir_of_path importer) rest;
  if String.eqb dir "" then
    if String.eqb rest "" then None else Some (replace_char "." "/" rest)
  else if String.eqb rest "" then Some dir
  else Some (dir +:+ "/" +:+ replace_char "." "/" rest).

Definition project_module_files_from (python_module importer : string)
    (python_module_map : gmap string (list string)) : option (list string) :=
  if negb (starts_with "." python_module) then
    project_module_files python_module python_module_map
  else
    path ← relative_module_path python_module importer;
    let wanted := [path +:+ ".py"; path +:+ "/__init__.py"] in
    found ← python_module_map !! replace_char "/" "." path;
    let files := filter (λ f, f ∈ wanted) found in
    if bool_decide (files = []) then None else Some files.

(** ** Binding *)

Definition resolve_python_module_targets (module_files : list string) (is_module_import : bool)
    (target_name : string) (node_id_to_path : gmap Z string)
    (name_to_ids : gmap string (list Z)) : option (list Z) :=
  let lookup_name := if is_module_import then "<module>" else target_name in
  all_ids ← name_to_ids !! lookup_name;
  let targets := filter (λ nid, match node_id_to_path !! nid with
                                | Some p => bool_decide (p ∈ module_files)
                                | None => false
                                end = true) all_ids in
  if bool_decide (targets = []) then None else Some targets.

(** [SELECT type = 'method' FROM nodes WHERE id = ?1] for each id; a missing row
    drops the id. *)
Definition module_attribute_ids (db : Database) (ids : list Z) : list Z :=
  let is_method id := (λ '(_, n), bool_decide (n_type n = "method"))
                        <$> list_find (λ n, n_id n = id) (db_nodes db) in
  filter (λ id, is_method id = Some false) ids.

(** ** Re-exports *)

Definition REEXPORT_MAX_DEPTH : nat := 8.

Record ReexportEdge := mkReexport {
  target : Z;
  sources : option Z;
  target_name : string;
  target_path : string;
  python_module : string;
}.

(** [by_file] of [ReexportEdges], and the set [on_path]. *)
Record Search := mkSearch {
  by_file : gmap string (list ReexportEdge);
  on_path : gset (string * string);
}.

Definition forget (file : string) (by_file : gmap string (list ReexportEdge))
    : gmap string (list ReexportEdge) := delete file by_file.

(** The query of [ReexportEdges::of]; [json_text] and [json_int] are SQLite's
    [json_extract] on an edge's metadata. *)
Section Query.
Context (json_text : option string → string → option string)
        (json_int : option string → string → option Z).

Definition reexport_row (e : EdgeRow) (tn : NodeRow) (tf : FileRow) : option ReexportEdge :=
  m ← json_text (e_metadata e) "$.python_module";
  if bool_decide (json_text (e_metadata e) "$.is_module_import" = None
                  ∧ json_text (e_metadata e) "$.as" = None
                  ∧ json_text (e_metadata e) "$.attr" = None)
  then Some (mkReexport (e_target_id e) (json_int (e_metadata e) "$.n") (n_name tn) (f_path tf) m)
  else None.

Definition reexport_rows (db : Database) (file : string) : list ReexportEdge :=
  f ← filter (λ f, f_path f = file) (db_files db);
  sn ← filter (λ sn, n_file_id sn = f_id f ∧ n_name sn = "<module>") (db_nodes db);
  e ← filter (λ e, e_source_id e = n_id sn ∧ e_relation e = "imports") (db_edges db);
  tn ← filter (λ tn, n_id tn = e_target_id e) (db_nodes db);
  tf ← filter (λ tf, f_id tf = n_file_id tn) (db_files db);
  option_list (reexport_row e tn tf).
End Query.

Section Reexports.
Context (read : string → list ReexportEdge) (python_module_map : gmap string (list string)).

(** [ReexportEdges::of]: read once per file. *)
Definition edges_of (file : string) (by_file : gmap string (list ReexportEdge))
    : list ReexportEdge * gmap string (list ReexportEdge) :=
  let by_file := if bool_decide (is_Some (by_file !! file)) then by_file
                 else <[file := read file]> by_file in
  (default [] (by_file !! file), by_file).

(** [None] is a search that ran out of fuel. *)
Definition Answer : Type := option (list Z * Search).

Section Loops.
Context (again : string → Search → Answer).

(** [for f in &files { if verified { break; } verified = reexports_of(..).contains(&target) }] *)
Fixpoint verify_files (goal : Z) (verified : bool) (files : list string) (s : Search)
    : option (bool * Search) :=
  match files with
  | [] => Some (verified, s)
  | f :: files' =>
      if verified then Some (verified, s)
      else
        '(ids, s) ← again f s;
        verify_files goal (bool_decide (goal ∈ ids)) files' s
  end.

Fixpoint verify_rows (file : string) (rows : list ReexportEdge) (s : Search) : Answer :=
  match rows with
  | [] => Some ([], s)
  | e :: rows' =>
      match project_module_files_from (python_module e) file python_module_map with
      | None => verify_rows file rows' s
      | Some files =>
          '(verified, s) ← verify_files (target e) (bool_decide (target_path e ∈ files)) files s;
          '(out, s) ← verify_rows file rows' s;
          Some (if verified : bool then target e :: out else out, s)
      end
  end.
End Loops.

Fixpoint reexports_of (fuel : nat) (name file : string) (s : Search) : Answer :=
  match fuel with
  | 0 => None
  | S fuel' =>
      let key := (file, name) in
      if bool_decide (REEXPORT_MAX_DEPTH < size (on_path s)) || bool_decide (key ∈ on_path s)
      then Some ([], s)
      else
        let '(edges, cache) := edges_of file (by_file s) in
        let s := mkSearch cache ({[key]} ∪ on_path s) in
        let matched := filter (λ e, target_name e = name) edges in
        if bool_decide (Exists (λ e, is_Some (sources e)) matched)
        then Some ([], mkSearch (by_file s) (on_path s ∖ {[key]}))
        else
          '(out, s) ← verify_rows (reexports_of fuel' name) file matched s;
          Some (out, mkSearch (by_file s) (on_path s ∖ {[key]}))
  end.

Fixpoint extend_files (fuel : nat) (name : string) (module_files : list string) (s : Search)
    : Answer :=
  match module_files with
  | [] => Some ([], s)
  | file :: files' =>
      '(ids, s) ← reexports_of fuel name file s;
      '(out, s) ← extend_files fuel name files' s;
      Some (ids ++ out, s)
  end.

(** The answer, and the edges held for the next question. *)
Definition python_reexport_targets (by_file0 : gmap string (list ReexportEdge))
    (module_files : list string) (name : string)
    : option (list Z * gmap string (list ReexportEdge)) :=
  '(out, s) ← extend_files (REEXPORT_MAX_DEPTH + 2) name module_files (mkSearch by_file0 ∅);
  Some (vec_dedup (sort_by Z.leb out), by_file s).
End Reexports.

Example package_blocks_root :
  let m := build_python_module_map
    {["accelerate/__init__.py"; "accelerate/logging.py"; "src/db.py"]} in
  project_module_files "logging" m = None
  ∧ project_module_files "accelerate.logging" m = Some ["accelerate/logging.py"]
  ∧ project_module_files "db" m = Some ["src/db.py"].
Proof. by vm_compute. Qed.

(** ** Directories above a path *)

(** [d] is a directory above [p]. *)
Definition above (d p : string) : Prop := ∃ b, p = d +:+ "/" +:+ b.

Lemma slash_cases a b c d :
  a +:+ "/" +:+ b = c +:+ "/" +:+ d →
  (a = c ∧ b = d) ∨ (∃ m, c = a +:+ "/" +:+ m ∧ b = m +:+ "/" +:+ d)
  ∨ (∃ m, a = c +:+ "/" +:+ m ∧ d = m +:+ "/" +:+ b).
Proof.
  revert c. induction a as [|x a IH]; intros [|y c] H; simpl in *.
  - left. by injection H as ->.
  - injection H as <- ->. right; left. by exists c.
  - injection H as -> <-. right; right. by exists a.
  - injection H as <- H. destruct (IH c H) as [[-> ->]|[[m [-> ->]]|[m [-> ->]]]].
    + by left.
    + right; left. by exists m.
    + right; right. by exists m.
Qed.

Lemma above_trans d e p : above d e → above e p → above d p.
Proof. intros [b ->] [b' ->]. exists (b +:+ "/" +:+ b'). by rewrite !str_app_assoc. Qed.

Lemma above_length d p : above d p → String.length d < String.length p.
Proof. intros [b ->]. rewrite str_length_app. simpl. lia. Qed.

Lemma rsplit_above p d b : rsplit_once "/" p = Some (d, b) → above d p.
Proof. intros [-> _]%rsplit_once_Some. by exists b. Qed.

Lemma dir_chain_fuel fuel p : String.length p ≤ fuel → dir_chain fuel p = chain_of p.
Proof.
  unfold chain_of. revert p. assert (∀ n m p, String.length p ≤ n → String.length p ≤ m →
    dir_chain n p = dir_chain m p) as H; [|intros p Hp; by apply H].
  induction n as [|n IH]; intros [|m] p Hn Hm; simpl; try done.
  - destruct p; simpl in Hn; [done|lia].
  - destruct p; simpl in Hm; [done|lia].
  - destruct (rsplit_once "/" p) as [[d b]|] eqn:E; [|done].
    apply rsplit_above, above_length in E. f_equal. apply IH; lia.
Qed.

Lemma chain_of_eq p :
  chain_of p = match rsplit_once "/" p with Some (d, _) => d :: chain_of d | None => [] end.
Proof.
  rewrite <-(dir_chain_fuel (S (String.length p))) by lia. simpl.
  destruct (rsplit_once "/" p) as [[d b]|] eqn:E; [|done].
  apply rsplit_above, above_length in E. by rewrite dir_chain_fuel by lia.
Qed.

Lemma chain_of_split p l2 d l1 : chain_of p = l2 ++ d :: l1 → l1 = chain_of d.
Proof.
  revert p. induction l2 as [|e l2 IH]; intros p; rewrite chain_of_eq;
    destruct (rsplit_once "/" p) as [[x y]|]; try done; intros [= -> H]; [done|by eapply IH].
Qed.

Lemma elem_of_chain d p : d ∈ chain_of p ↔ above d p.
Proof.
  induction p as [p IH] using (induction_ltof1 _ String.length). unfold ltof in IH.
  rewrite chain_of_eq. destruct (rsplit_once "/" p) as [[e b]|] eqn:E.
  - pose proof (rsplit_above _ _ _ E) as He. rewrite elem_of_cons, IH by by apply above_length.
    split; [intros [->|Hd]; [done|by eapply above_trans]|].
    apply rsplit_once_Some in E as [-> Hb]. intros [b' H].
    apply slash_cases in H as [[-> _]|[[m [_ ->]]|[m [-> _]]]].
    + by left.
    + simpl in Hb. by rewrite no_char_sep in Hb.
    + by right; exists m.
  - split; [by intros ?%elem_of_nil|]. intros [b ->].
    apply rsplit_once_None in E. simpl in E. by rewrite no_char_sep in E.
Qed.

(** ** Which directories are import roots *)

Definition is_package (python_paths : gset string) (d : string) : Prop :=
  d +:+ "/__init__.py" ∈ python_paths.

(** The project root, and a directory above a module file when neither it nor a
    directory above it is a package. *)
Definition importable (python_paths : gset string) (d : string) : Prop :=
  d = "" ∨ ∃ p, p ∈ python_paths ∧ above d p
                ∧ ∀ d', d' = d ∨ above d' d → ¬ is_package python_paths d'.

Lemma elem_of_packages ps d : d ∈ packages_of ps ↔ is_package ps d.
Proof.
  unfold packages_of, is_package. rewrite elem_of_list_to_set, list_elem_of_omap.
  setoid_rewrite elem_of_elements. setoid_rewrite strip_suffix_Some. split.
  - by intros (p & Hp & ->).
  - intros Hp. by eexists.
Qed.

Lemma elem_of_add_roots pk ds R d :
  d ∈ add_roots pk ds R ↔ d ∈ R ∨ ∃ l1 l2, ds = l1 ++ d :: l2 ∧ Forall (.∉ pk) (l1 ++ [d]).
Proof.
  revert R. induction ds as [|e ds IH]; intros R; simpl.
  { split; [by left|]. intros [?|([|] & ? & ? & _)]; done. }
  case_bool_decide as He.
  - split; [by left|]. intros [?|([|x l1] & l2 & [= <- _] & Hf)]; [done|..]; inversion Hf; done.
  - rewrite IH, elem_of_union, elem_of_singleton. split.
    + intros [[->|?]|(l1 & l2 & -> & Hf)]; [|by left|].
      * right. exists [], ds. split; [done|by apply Forall_singleton].
      * right. exists (e :: l1), l2. split; [done|by constructor].
    + intros [?|([|x l1] & l2 & [= <- H] & Hf)]; [by auto|by auto|].
      right. exists l1, l2. split; [done|]. by inversion Hf.
Qed.

Lemma elem_of_path_roots pk p R d :
  d ∈ add_roots pk (reverse (chain_of p)) R
  ↔ d ∈ R ∨ (above d p ∧ ∀ d', d' = d ∨ above d' d → d' ∉ pk).
Proof.
  rewrite elem_of_add_roots, <-elem_of_chain. f_equiv. split.
  - intros (l1 & l2 & H & Hf).
    assert (chain_of p = reverse l2 ++ d :: reverse l1) as Hc.
    { rewrite <-(reverse_involutive (chain_of p)), H, reverse_app, reverse_cons.
      by rewrite <-app_assoc. }
    split; [rewrite Hc; set_solver|]. apply chain_of_split in Hc.
    rewrite Forall_forall in Hf. intros d' [->|Ha%elem_of_chain]; apply Hf; [set_solver|].
    rewrite <-Hc, elem_of_reverse in Ha. set_solver.
  - intros [(l2 & l1 & H)%list_elem_of_split Hd]. exists (reverse l1), (reverse l2).
    rewrite H, reverse_app, reverse_cons, <-app_assoc. split; [done|].
    apply chain_of_split in H as ->. apply Forall_forall. intros x.
    rewrite elem_of_app, elem_of_reverse, elem_of_chain, list_elem_of_singleton.
    intros Hx. apply Hd. by destruct Hx; [right|left].
Qed.

Lemma elem_of_import_roots ps d : d ∈ import_roots ps ↔ importable ps d.
Proof.
  assert (∀ l, d ∈ foldr (λ path, add_roots (packages_of ps) (reverse (chain_of path))) {[ "" ]} l
    ↔ d = "" ∨ ∃ p, p ∈ l ∧ above d p ∧ ∀ d', d' = d ∨ above d' d → ¬ is_package ps d') as H.
  - setoid_rewrite <-elem_of_packages. induction l as [|p l IH]; simpl.
    + rewrite elem_of_singleton. split; [by left|]. intros [?|(? & []%elem_of_nil & _)]. done.
    + rewrite elem_of_path_roots, IH. setoid_rewrite elem_of_cons. split.
      * intros [[?|(q & ? & ?)]|?]; [by left|right; exists q; auto|right; exists p; auto].
      * intros [?|(q & [->|?] & ?)]; [auto|by right|left; right; by exists q].
  - unfold import_roots, importable. rewrite H. by setoid_rewrite elem_of_elements.
Qed.

(** ** What the module map holds *)

Lemma rel_to_root_Some root stripped rel :
  rel_to_root root stripped = Some rel
  ↔ (root = "" ∧ rel = stripped) ∨ (root ≠ "" ∧ stripped = root +:+ "/" +:+ rel).
Proof.
  unfold rel_to_root. destruct (String.eqb_spec root "") as [->|Hr].
  { split; [intros [= ->]; auto|by intros [[_ ->]|[? _]]]. }
  destruct (strip_prefix root stripped) as [r|] eqn:E; cbn [mbind option_bind].
  - apply strip_prefix_Some in E as ->. destruct (strip_prefix "/" r) as [r'|] eqn:E'.
    + apply strip_prefix_Some in E' as ->. split; [intros [= ->]; by right|].
      intros [[? _]|[_ H%str_app_inj_l]]; [done|].
      by apply (str_app_inj_l "/") in H as ->.
    + split; [done|]. intros [[? _]|[_ ->%str_app_inj_l]]; [done|].
      assert (strip_prefix "/" ("/" +:+ rel) = Some rel) by (by apply strip_prefix_Some). congruence.
  - split; [done|]. intros [[? _]|[_ ->]]; [done|].
    assert (strip_prefix root (root +:+ "/" +:+ rel) = Some ("/" +:+ rel)); [|congruence].
    by apply strip_prefix_Some.
Qed.

(** [f] answers to the dotted name [k]: [k] is [f]'s path below an import root. *)
Definition answers (roots : gset string) (k f : string) : Prop :=
  ∃ stem root rel, module_stem f = Some stem ∧ root ∈ roots
    ∧ rel_to_root root stem = Some rel ∧ rel ≠ "" ∧ k = replace_char "/" "." rel.

(** The files a map holds at a key; a key is present only with files. *)
Definition at_key (m : gmap string (list string)) (k : string) : list string := default [] (m !! k).
Definition no_empty (m : gmap string (list string)) : Prop := ∀ k, m !! k ≠ Some [].

Lemma register_no_empty path stem root m : no_empty m → no_empty (register path stem root m).
Proof.
  intros Hm k. unfold register. destruct (rel_to_root _ _) as [rel|]; [|done].
  destruct (String.eqb rel ""); [done|]. rewrite lookup_insert_Some.
  intros [[_ H]|[_ H]]; [by destruct (default _ _)|by apply (Hm k)].
Qed.

Lemma at_key_register path stem root m k f :
  f ∈ at_key (register path stem root m) k
  ↔ f ∈ at_key m k ∨ f = path ∧ ∃ rel, rel_to_root root stem = Some rel ∧ rel ≠ ""
                                        ∧ k = replace_char "/" "." rel.
Proof.
  unfold register. destruct (rel_to_root root stem) as [rel|]; [|naive_solver].
  destruct (String.eqb_spec rel "") as [->|Hr]; [naive_solver|].
  unfold at_key. destruct (decide (k = replace_char "/" "." rel)) as [->|Hk].
  - rewrite lookup_insert_eq. simpl. rewrite elem_of_app, list_elem_of_singleton. naive_solver.
  - rewrite lookup_insert_ne by done. naive_solver.
Qed.

Lemma register_roots path stem l m k f :
  (no_empty m → no_empty (foldr (register path stem) m l))
  ∧ (f ∈ at_key (foldr (register path stem) m l) k
     ↔ f ∈ at_key m k ∨ f = path ∧ ∃ root rel, root ∈ l ∧ rel_to_root root stem = Some rel
                                        ∧ rel ≠ "" ∧ k = replace_char "/" "." rel).
Proof.
  induction l as [|root l [IH1 IH2]]; simpl.
  - split; [done|]. split; [by left|]. by intros [?|(_ & ? & ? & []%elem_of_nil & _)].
  - split; [intros; by apply register_no_empty, IH1|].
    rewrite at_key_register, IH2. setoid_rewrite elem_of_cons. split.
    + intros [[?|(? & r & rel & ?)]|(? & rel & ?)]; [by left|..]; right; (split; [done|]).
      * exists r, rel. naive_solver.
      * exists root, rel. naive_solver.
    + intros [?|(? & r & rel & [->|?] & ?)]; [by left; left|right|left; right]; (split; [done|]).
      * by exists rel.
      * by exists r, rel.
Qed.

Lemma register_files roots l k f :
  let m := foldr (register_file roots) ∅ l in
  no_empty m ∧ (f ∈ at_key m k ↔ f ∈ l ∧ answers roots k f).
Proof.
  induction l as [|p l [IH1 IH2]]; simpl.
  - split; [by intros ?|]. split; [by intros ?%elem_of_nil|by intros [?%elem_of_nil _]].
  - unfold register_file at 1 3. destruct (module_stem p) as [stem|] eqn:E.
    + destruct (register_roots p stem (elements roots) (foldr (register_file roots) ∅ l) k f)
        as [H1 H2]. split; [by apply H1|].
      rewrite H2, IH2, elem_of_cons. unfold answers. setoid_rewrite elem_of_elements. split.
      * intros [[? ?]|(-> & root & rel & ?)]; [by split; [right|]|].
        split; [by left|]. by exists stem, root, rel.
      * intros [[->|?] (st & root & rel & Hst & ?)]; [|left; split; [done|by eexists _, _, _]].
        right. split; [done|]. exists root, rel. by simplify_eq.
    + split; [done|]. rewrite IH2, elem_of_cons. split; [intros [? ?]; auto|].
      intros [[->|?] Ha]; [|done]. destruct Ha as (? & _ & _ & ? & _). congruence.
Qed.

(** The whole map: sorted, without repeats, and exactly the answering files. *)
Lemma build_map_lookup ps k :
  match build_python_module_map ps !! k with
  | Some fs => fs ≠ [] ∧ NoDup fs ∧ StronglySorted (λ a b, str_leb a b = true) fs
               ∧ ∀ f, f ∈ fs ↔ f ∈ ps ∧ answers (import_roots ps) k f
  | None => ∀ f, f ∈ ps → ¬ answers (import_roots ps) k f
  end.
Proof.
  unfold build_python_module_map. rewrite lookup_fmap.
  assert (∀ f, no_empty (foldr (register_file (import_roots ps)) ∅ (elements ps)) ∧
    (f ∈ at_key (foldr (register_file (import_roots ps)) ∅ (elements ps)) k
     ↔ f ∈ ps ∧ answers (import_roots ps) k f)) as H.
  { intros f. rewrite <-elem_of_elements. apply register_files. }
  unfold at_key in H. destruct (_ !! k) as [fs|] eqn:E; simpl in *.
  - pose proof (NoDup_vec_dedup str_leb _ str_leb_antisym (sort_by_sorted str_leb
      str_leb_total str_leb_trans fs)) as [??].
    split_and!; [|done..|].
    + intros Hn%vec_dedup_nil. destruct (H "") as [Hm _]. apply (Hm k). rewrite E. f_equal.
      apply Permutation_nil. by rewrite <-Hn, sort_by_perm.
    + intros f. rewrite elem_of_vec_dedup, elem_of_sort_by. apply H.
  - intros f Hf Ha. by apply (elem_of_nil f), H.
Qed.

(** The module map holds exactly the importable names: a dotted name maps to
    the files whose path below some import root spells it, sorted and without
    repeats, and to nothing when there is none; and an import root is the project
    root or a directory above a module that neither is a package nor lies in one. *)
Theorem build_python_module_map_ok ps k :
  (∀ d, d ∈ import_roots ps ↔ importable ps d)
  ∧ match project_module_files k (build_python_module_map ps) with
    | Some fs => fs ≠ [] ∧ NoDup fs ∧ StronglySorted (λ a b, str_leb a b = true) fs
                 ∧ ∀ f, f ∈ fs ↔ f ∈ ps ∧ answers (import_roots ps) k f
    | None => ∀ f, f ∈ ps → ¬ answers (import_roots ps) k f
    end.
Proof. split; [intros; apply elem_of_import_roots|apply build_map_lookup]. Qed.

(** ** Files of a package *)

Lemma slash_suffix a b s t :
  a +:+ "/" +:+ b = s +:+ t → no_char "/" t = true → ∃ b', s = a +:+ "/" +:+ b'.
Proof.
  revert s. induction a as [|x a IH]; intros [|y s] H Ht.
  - simpl in H. subst t. done.
  - injection H as <- _. by exists s.
  - simpl in H. subst t. change (String x (a +:+ String "/" b)) with (String x a +:+ String "/" b) in Ht.
    by rewrite no_char_sep in Ht.
  - simpl in H. injection H as <- H. destruct (IH s H Ht) as [b' ->]. by exists b'.
Qed.

(** The stem of a file below [pkg] is [pkg] or lies below it. *)
Lemma module_stem_above pkg f stem :
  above pkg f → module_stem f = Some stem → stem = pkg ∨ above pkg stem.
Proof.
  intros [b ->]. unfold module_stem. destruct (strip_suffix "/__init__.py" _) as [s|] eqn:E.
  - intros [= ->]. apply strip_suffix_Some in E.
    change (stem +:+ "/__init__.py") with (stem +:+ "/" +:+ "__init__.py") in E.
    apply slash_cases in E as [[-> _]|[[m [-> _]]|[m [_ E]]]]; [by left|by right; exists m|].
    exfalso. assert (no_char "/" "__init__.py" = true) as Hc by done. rewrite E in Hc.
    simpl in Hc. by rewrite no_char_sep in Hc.
  - intros Hs%strip_suffix_Some. right. by apply slash_suffix in Hs.
Qed.

Lemma replace_char_app c r s t :
  replace_char c r (s +:+ t) = replace_char c r s +:+ replace_char c r t.
Proof.
  induction s as [|d s IH]; [done|]. simpl. rewrite IH.
  case_match; [by rewrite str_app_assoc|done].
Qed.

(** Inside a package a module is reached by its package's name, never bare:
    every dotted name that maps to a file below [pkg], a directory with an
    [__init__.py], spells [pkg]'s path below a directory above it, so
    [import logging] cannot name [pkg/logging.py]. *)
Theorem package_spells_itself ps pkg f k fs :
  is_package ps pkg → above pkg f →
  project_module_files k (build_python_module_map ps) = Some fs → f ∈ fs →
  ∃ q rest, (pkg = q ∨ ∃ root, pkg = root +:+ "/" +:+ q)
            ∧ k = replace_char "/" "." q +:+ rest ∧ (rest = "" ∨ starts_with "." rest = true).
Proof.
  intros Hp Hab Hk Hf. pose proof (build_map_lookup ps k) as H.
  unfold project_module_files in Hk. rewrite Hk in H. destruct H as (_ & _ & _ & H).
  apply H in Hf as [_ (stem & root & rel & Hst & Hr & [[-> ->]|[Hne ->]]%rel_to_root_Some & Hrel & ->)].
  - destruct (module_stem_above pkg f stem) as [->|[b ->]]; [done..| |].
    + exists pkg, "". rewrite str_app_nil_r. by split_and!; [left|..|left].
    + exists pkg, ("." +:+ replace_char "/" "." b).
      split_and!; [by left|by rewrite !replace_char_app|by right].
  - apply elem_of_import_roots in Hr as [?|(p & _ & _ & Hnp)]; [done|].
    assert (pkg ≠ root ∧ ¬ above pkg root) as [Hn1 Hn2].
    { split; intros Hx; apply (Hnp pkg); auto. }
    destruct (module_stem_above pkg f (root +:+ "/" +:+ rel)) as [<-|[b Hb]]; [done..| |].
    + exists rel, "". rewrite str_app_nil_r. split_and!; [by right; exists root|done|by left].
    + apply slash_cases in Hb as [[-> _]|[[m [-> ->]]|[m [-> _]]]]; [done| |].
      * exists m, ("." +:+ replace_char "/" "." b).
        split_and!; [by right; exists root|by rewrite !replace_char_app|by right].
      * by destruct Hn2; exists m.
Qed.

Lemma package_spells_itself_witness :
  ∃ q rest, ("lib/acc" = q ∨ ∃ root, "lib/acc" = root +:+ "/" +:+ q)
    ∧ "acc.logging" = replace_char "/" "." q +:+ rest
    ∧ (rest = "" ∨ starts_with "." rest = true).
Proof.
  apply (package_spells_itself {["lib/acc/__init__.py"; "lib/acc/logging.py"]} "lib/acc"
           "lib/acc/logging.py" "acc.logging" ["lib/acc/logging.py"]).
  - unfold is_package. simpl. set_solver.
  - by exists "logging.py".
  - by vm_compute.
  - by apply list_elem_of_singleton.
Defined.

(** ** Relative imports *)

(** [n] dots. *)
Fixpoint dots (n : nat) : string := match n with 0 => "" | S n' => "." +:+ dots n' end.

(** PEP 328: [dots] up from the importer's directory [dirs], then down [rest]. *)
Definition pep328 (dirs : list string) (up : nat) (rest : string) : option (list string) :=
  if bool_decide (up ≤ length dirs) then
    let segs := take (length dirs - up) dirs
                ++ (if String.eqb rest "" then [] else split_on "." rest) in
    if bool_decide (segs = []) then None else Some segs
  else None.

Lemma join_app l1 l2 :
  l1 ≠ [] → l2 ≠ [] → join "/" (l1 ++ l2) = join "/" l1 +:+ "/" +:+ join "/" l2.
Proof.
  intros H1 H2. induction l1 as [|w [|w' l1] IH]; [done|by apply join_cons|].
  change ((w :: w' :: l1) ++ l2) with (w :: ((w' :: l1) ++ l2)).
  rewrite !(join_cons _ w) by done. rewrite IH by done. by rewrite !str_app_assoc.
Qed.

Lemma join_snoc l w : l ≠ [] → join "/" (l ++ [w]) = join "/" l +:+ "/" +:+ w.
Proof. intros. by rewrite join_app. Qed.

Lemma join_empty l : Forall (λ w, w ≠ "") l → join "/" l = "" ↔ l = [].
Proof.
  intros Hf. split; [|by intros ->]. destruct l as [|w [|w' l]]; [done|..]; inversion Hf; subst.
  - done.
  - rewrite join_cons by done. by destruct w.
Qed.

Lemma dir_of_snoc l w :
  no_char "/" w = true → dir_of_path (join "/" (l ++ [w])) = join "/" l.
Proof.
  intros Hw. unfold dir_of_path. destruct l as [|x l].
  - simpl. by apply rsplit_once_None in Hw as ->.
  - rewrite join_snoc by done.
    assert (rsplit_once "/" (join "/" (x :: l) +:+ "/" +:+ w) = Some (join "/" (x :: l), w)) as ->;
      [|done]. by apply rsplit_once_Some.
Qed.

Lemma replace_dot_join rest : replace_char "." "/" rest = join "/" (split_on "." rest).
Proof.
  induction rest as [|c rest IH]; [done|].
  cbn [replace_char split_on]. destruct (Ascii.eqb "." c).
  - rewrite join_cons by apply split_on_not_nil. by rewrite IH.
  - rewrite IH. pose proof (split_on_not_nil "." rest). by destruct (split_on "." rest) as [|w [|]].
Qed.

(** A directory or file name. *)
Definition name_ok (w : string) : Prop := w ≠ "" ∧ no_char "/" w = true.

Lemma climb_dots dirs k rest :
  Forall name_ok dirs → starts_with "." rest = false →
  climb (join "/" dirs) (dots k +:+ rest)
  = if bool_decide (k ≤ length dirs) then Some (join "/" (take (length dirs - k) dirs), rest)
    else None.
Proof.
  intros Hd Hr. revert dirs Hd. induction k as [|k IH]; intros dirs Hd.
  - rewrite bool_decide_true by lia. rewrite Nat.sub_0_r, firstn_all. simpl.
    destruct rest as [|c rest]; [done|]. simpl. destruct (Ascii.eqb_spec c ch_dot) as [->|]; done.
  - cbn [dots]. change (("." +:+ dots k) +:+ rest) with ("." +:+ (dots k +:+ rest)). simpl.
    destruct dirs as [|w dirs _] using rev_ind.
    { simpl. done. }
    destruct (String.eqb_spec (join "/" (dirs ++ [w])) "") as [H|_].
    { apply join_empty in H; [by destruct dirs|]. eapply Forall_impl; [done|]. by intros ? []. }
    apply Forall_app in Hd as [Hd [[_ Hw] _]%Forall_cons]. rewrite dir_of_snoc by done.
    rewrite IH by done. rewrite length_app. simpl.
    rewrite (bool_decide_ext (k ≤ length dirs) (S k ≤ length dirs + 1)) by lia.
    case_bool_decide; [|done]. rewrite take_app_le by lia. do 4 f_equal. lia.
Qed.

Lemma relative_path_pep328 dirs file up rest :
  Forall name_ok dirs → no_char "/" file = true → starts_with "." rest = false →
  relative_module_path (dots (S up) +:+ rest) (join "/" (dirs ++ [file]))
  = join "/" <$> pep328 dirs up rest.
Proof.
  intros Hd Hf Hr. unfold relative_module_path, pep328.
  change (dots (S up) +:+ rest) with ("." +:+ (dots up +:+ rest)).
  assert (strip_prefix "." ("." +:+ (dots up +:+ rest)) = Some (dots up +:+ rest)) as ->
    by by apply strip_prefix_Some.
  cbn [mbind option_bind]. rewrite dir_of_snoc, climb_dots by done.
  case_bool_decide as Hup; [|done]. cbn [mbind option_bind].
  set (base := take (length dirs - up) dirs).
  assert (Forall name_ok base) as Hb by by apply Forall_take.
  assert (join "/" base = "" ↔ base = []) as He.
  { apply join_empty. eapply Forall_impl; [done|]. by intros ? []. }
  destruct (String.eqb_spec (join "/" base) "") as [Hb0|Hb0].
  - apply He in Hb0 as ->. simpl. destruct (String.eqb_spec rest "") as [->|Hne]; [done|].
    rewrite bool_decide_false by apply split_on_not_nil. simpl. by rewrite replace_dot_join.
  - assert (base ≠ []) by by rewrite <-He.
    destruct (String.eqb_spec rest "") as [->|Hne].
    + rewrite app_nil_r, bool_decide_false by done. done.
    + rewrite bool_decide_false by by destruct base. simpl.
      by rewrite join_app, replace_dot_join by (done || apply split_on_not_nil).
Qed.

Lemma module_stem_py path :
  ends_with "/__init__" path = false → module_stem (path +:+ ".py") = Some path.
Proof.
  intros He. unfold module_stem.
  destruct (strip_suffix "/__init__.py" (path +:+ ".py")) as [s|] eqn:E.
  - apply strip_suffix_Some in E. exfalso.
    change (s +:+ "/__init__.py") with (s +:+ ("/__init__" +:+ ".py")) in E.
    rewrite <-str_app_assoc in E.
    assert (strip_suffix ".py" (path +:+ ".py") = Some path) as H1 by by apply strip_suffix_Some.
    assert (strip_suffix ".py" (path +:+ ".py") = Some (s +:+ "/__init__")) as H2
      by by apply strip_suffix_Some.
    rewrite H1 in H2. injection H2 as ->.
    assert (ends_with "/__init__" (s +:+ "/__init__") = true); [|congruence].
    apply ends_with_spec. by exists s.
  - by apply strip_suffix_Some.
Qed.

Lemma module_stem_init path : module_stem (path +:+ "/__init__.py") = Some path.
Proof.
  unfold module_stem.
  assert (strip_suffix "/__init__.py" (path +:+ "/__init__.py") = Some path) as ->; [|done].
  by apply strip_suffix_Some.
Qed.

(** From the project root every module is registered under its own path. *)
Lemma answers_stem ps f stem :
  module_stem f = Some stem → stem ≠ "" →
  answers (import_roots ps) (replace_char "/" "." stem) f.
Proof.
  intros Hs Hne. exists stem, "", stem. split_and!; [done| |done..].
  apply elem_of_import_roots. by left.
Qed.

(** A relative import is resolved as PEP 328 says: [n] dots climb [n-1]
    directories from the importer's and the rest descends, nothing above the
    project root; and it names exactly the indexed [path.py] and
    [path/__init__.py] of the path it spells, whatever other import roots
    registered under the same dotted key. *)
Theorem relative_import_exact ps dirs file up rest path :
  Forall name_ok dirs → no_char "/" file = true → starts_with "." rest = false →
  join "/" <$> pep328 dirs up rest = Some path →
  path ≠ "" → ends_with "/__init__" path = false →
  let importer := join "/" (dirs ++ [file]) in
  let module := dots (S up) +:+ rest in
  relative_module_path module importer = Some path
  ∧ match project_module_files_from module importer (build_python_module_map ps) with
    | Some fs => fs ≠ [] ∧ ∀ f, f ∈ fs ↔ f ∈ ps ∧ f ∈ [path +:+ ".py"; path +:+ "/__init__.py"]
    | None => path +:+ ".py" ∉ ps ∧ path +:+ "/__init__.py" ∉ ps
    end.
Proof.
  intros Hd Hf Hr Hpep Hne Hinit importer module. subst importer module.
  pose proof (relative_path_pep328 dirs file up rest Hd Hf Hr) as Hrel. rewrite Hpep in Hrel.
  split; [done|]. unfold project_module_files_from.
  replace (starts_with "." (dots (S up) +:+ rest)) with true
    by (symmetry; apply starts_with_spec; by exists (dots up +:+ rest)).
  cbn [negb]. rewrite Hrel. cbn [mbind option_bind].
  pose proof (build_map_lookup ps (replace_char "/" "." path)) as Hm.
  assert (∀ f, f ∈ [path +:+ ".py"; path +:+ "/__init__.py"] →
            answers (import_roots ps) (replace_char "/" "." path) f) as Hans.
  { intros f [->|[->|[]%elem_of_nil]%elem_of_cons]%elem_of_cons; apply answers_stem; [|done| |done].
    - by apply module_stem_py.
    - apply module_stem_init. }
  destruct (build_python_module_map ps !! _) as [found|]; cbn [mbind option_bind].
  - destruct Hm as (_ & _ & _ & Hm).
    assert (∀ f, f ∈ filter (λ f, f ∈ [path +:+ ".py"; path +:+ "/__init__.py"]) found
                 ↔ f ∈ ps ∧ f ∈ [path +:+ ".py"; path +:+ "/__init__.py"]) as Hfil.
    { intros f. rewrite list_elem_of_filter, Hm. naive_solver. }
    case_bool_decide as Hn; [|done]. rewrite Hn in Hfil.
    by split; intros Hx; eapply elem_of_nil, Hfil; (split; [exact Hx|]); rewrite !elem_of_cons; auto.
  - by split; intros Hx; apply (Hm _ Hx), Hans; rewrite !elem_of_cons; auto.
Qed.

Lemma relative_import_exact_witness :
  relative_module_path "..helpers.db" "src/app/web/views.py" = Some "src/app/helpers/db".
Proof.
  apply (relative_import_exact {["src/app/helpers/db.py"]} ["src"; "app"; "web"] "views.py" 1
           "helpers.db" "src/app/helpers/db"); try (by vm_compute).
  by repeat constructor.
Defined.

(** ** The re-export search *)

Section ReexportSpec.
Context (read : string → list ReexportEdge) (pmap : gmap string (list string)).

(** The edges of [file] that import [name], when the file imports it from one module. *)
Definition reexport_edge (file name : string) (e : ReexportEdge) : Prop :=
  e ∈ read file ∧ target_name e = name
  ∧ ∀ e', e' ∈ read file → target_name e' = name → sources e' = None.

(** [t] is re-exported under [name] along a chain of files: each imports it from
    a module that names the next file, and the last from a module that names the
    file [t] lies in. *)
Inductive reexport_chain (name : string) (t : Z) : list string → Prop :=
| chain_last file e files :
    reexport_edge file name e → target e = t →
    project_module_files_from (python_module e) file pmap = Some files →
    target_path e ∈ files → reexport_chain name t [file]
| chain_step file e files next path :
    reexport_edge file name e → target e = t →
    project_module_files_from (python_module e) file pmap = Some files →
    next ∈ files → reexport_chain name t (next :: path) →
    reexport_chain name t (file :: next :: path).

(** What is held was read from the index. *)
Definition coherent (by_file : gmap string (list ReexportEdge)) : Prop :=
  ∀ f rows, by_file !! f = Some rows → rows = read f.

Lemma edges_of_coherent file c :
  coherent c → (edges_of read file c).1 = read file ∧ coherent (edges_of read file c).2.
Proof.
  intros Hc. unfold edges_of. case_bool_decide as H; simpl.
  - destruct H as [rows Hr]. rewrite Hr. split; [by apply Hc|done].
  - rewrite lookup_insert_eq. split; [done|].
    intros f rows [[<- <-]|[_ ?]]%lookup_insert_Some; [done|by apply Hc].
Qed.

(** [again] answers question [f] from any coherent state with [p] on the path,
    and gives the state back. *)
Definition answered (again : string → Search → Answer) (p : gset (string * string))
    (Q : string → Z → Prop) : Prop :=
  ∀ f s, coherent (by_file s) → on_path s = p →
    ∃ ids s', again f s = Some (ids, s') ∧ coherent (by_file s') ∧ on_path s' = p
              ∧ ∀ t, t ∈ ids ↔ Q f t.

Section Loop.
Context (again : string → Search → Answer) (p : gset (string * string)) (Q : string → Z → Prop).
Context (Hagain : answered again p Q).

Lemma verify_files_ok goal v files s :
  coherent (by_file s) → on_path s = p →
  ∃ v' s', verify_files again goal v files s = Some (v', s')
    ∧ coherent (by_file s') ∧ on_path s' = p
    ∧ (v' = true ↔ v = true ∨ ∃ f, f ∈ files ∧ Q f goal).
Proof.
  revert v s. induction files as [|f files IH]; intros v s Hc Hp; simpl.
  { exists v, s. split_and!; [done..|]. split; [by left|by intros [?|(? & []%elem_of_nil & _)]]. }
  destruct v.
  { exists true, s. split_and!; [done..|]. split; [by left|done]. }
  destruct (Hagain f s) as (ids & s1 & -> & Hc1 & Hp1 & Hids); [done..|]. simpl.
  destruct (IH (bool_decide (goal ∈ ids)) s1) as (v' & s' & Hv & Hc' & Hp' & Hiff); [done..|].
  exists v', s'. split_and!; [done..|]. rewrite Hiff, bool_decide_eq_true, Hids. split.
  - intros [?|(g & ? & ?)]; right; [by exists f; split; [left|]|by exists g; split; [right|]].
  - intros [?|(g & [->|?]%elem_of_cons & ?)]; [done|by left|right; by exists g].
Qed.

Lemma verify_rows_ok file rows s :
  coherent (by_file s) → on_path s = p →
  ∃ out s', verify_rows pmap again file rows s = Some (out, s')
    ∧ coherent (by_file s') ∧ on_path s' = p
    ∧ ∀ t, t ∈ out ↔ ∃ e files, e ∈ rows ∧ target e = t
        ∧ project_module_files_from (python_module e) file pmap = Some files
        ∧ (target_path e ∈ files ∨ ∃ f, f ∈ files ∧ Q f t).
Proof.
  revert s. induction rows as [|e rows IH]; intros s Hc Hp; simpl.
  { exists [], s. split_and!; [done..|]. intros t. split; [by intros ?%elem_of_nil|].
    by intros (? & ? & []%elem_of_nil & _). }
  setoid_rewrite elem_of_cons.
  destruct (project_module_files_from (python_module e) file pmap) as [files|] eqn:E.
  - destruct (verify_files_ok (target e) (bool_decide (target_path e ∈ files)) files s)
      as (v & s1 & -> & Hc1 & Hp1 & Hv); [done..|]. simpl.
    destruct (IH s1) as (out & s' & -> & Hc' & Hp' & Hout); [done..|]. simpl.
    eexists _, s'. split_and!; [done..|]. rewrite bool_decide_eq_true in Hv. intros t.
    transitivity ((v = true ∧ t = target e) ∨ t ∈ out).
    { destruct v; [rewrite elem_of_cons|]; naive_solver. }
    rewrite Hout, Hv. split.
    + intros [[Hq ->]|(e' & fs & ? & ?)]; [exists e, files; auto|exists e', fs; auto].
    + intros (e' & fs & [->|?] & Ht & Hfs & Hq).
      * left. by simplify_eq.
      * right. by exists e', fs.
  - destruct (IH s) as (out & s' & -> & Hc' & Hp' & Hout); [done..|].
    exists out, s'. split_and!; [done..|]. intros t. rewrite Hout. split.
    + intros (e' & fs & ? & ?). exists e', fs. auto.
    + intros (e' & fs & [->|?] & ? & ? & ?); [congruence|by exists e', fs].
Qed.
End Loop.

(** A chain from [file] of distinct files, none on the path, within the depth. *)
Definition reachable_reexport (p : gset (string * string)) (name file : string) (t : Z) : Prop :=
  ∃ path, reexport_chain name t (file :: path) ∧ NoDup (file :: path)
          ∧ (∀ f, f ∈ file :: path → (f, name) ∉ p)
          ∧ size p + length (file :: path) ≤ S REEXPORT_MAX_DEPTH.

Lemma reachable_unfold p name file t :
  (file, name) ∉ p → size p ≤ REEXPORT_MAX_DEPTH →
  reachable_reexport p name file t ↔
  ∃ e files, reexport_edge file name e ∧ target e = t
    ∧ project_module_files_from (python_module e) file pmap = Some files
    ∧ (target_path e ∈ files
       ∨ ∃ f, f ∈ files ∧ reachable_reexport ({[(file, name)]} ∪ p) name f t).
Proof.
  intros Hf Hs. unfold reachable_reexport.
  rewrite size_union, size_singleton by set_solver. split.
  - intros (path & Hch & Hnd & Hp & Hlen).
    inversion Hch as [? e files He Ht Hfs Hin|? e files next path' He Ht Hfs Hin Hch']; subst;
      exists e, files; (split_and!; [done..|]); [by left|right].
    apply NoDup_cons in Hnd as [Hnin Hnd].
    exists next. split; [done|]. exists path'. split_and!; [done..| |simpl in *; lia].
    intros f Hfi. rewrite elem_of_union, elem_of_singleton. intros [[= ->]|Hfp]; [done|].
    apply (Hp f); [by right|done].
  - intros (e & files & He & Ht & Hfs & [Hin|(f & Hin & path & Hch & Hnd & Hp & Hlen)]).
    + exists []. split_and!; [by econstructor|by apply NoDup_singleton| |simpl; lia].
      by intros g ->%list_elem_of_singleton.
    + exists (f :: path). split_and!; [by econstructor| | |simpl in *; lia].
      * constructor; [|done]. intros Hx. apply (Hp file Hx). set_solver.
      * intros g [->|Hg]%elem_of_cons; [done|]. specialize (Hp g Hg). set_solver.
Qed.

Lemma reexports_of_ok fuel name p :
  1 ≤ fuel → REEXPORT_MAX_DEPTH + 2 ≤ fuel + size p →
  answered (reexports_of read pmap fuel name) p (reachable_reexport p name).
Proof.
  revert p. induction fuel as [|fuel IH]; intros p H1 Hfuel file s Hc Hp; [lia|].
  cbn [reexports_of]. rewrite Hp. destruct (_ || _) eqn:E.
  { exists [], s. split_and!; [done..|]. intros t. split; [by intros ?%elem_of_nil|].
    intros (path & _ & _ & Hno & Hlen). simpl in Hlen. exfalso.
    apply orb_true_iff in E as [Hs%bool_decide_eq_true|Hk%bool_decide_eq_true]; [lia|].
    apply (Hno file); [by left|done]. }
  apply orb_false_iff in E as [Hs%bool_decide_eq_false Hk%bool_decide_eq_false].
  destruct (edges_of_coherent file (by_file s)) as [He Hc1]; [done|].
  destruct (edges_of read file (by_file s)) as [edges cache]. simpl in He, Hc1. subst edges.
  cbn [by_file on_path]. assert (({[(file, name)]} ∪ p) ∖ {[(file, name)]} = p) as Hback by set_solver.
  setoid_rewrite reachable_unfold; [|done|lia].
  case_bool_decide as Hsrc.
  { eexists [], _. split_and!; [done|done|exact Hback|]. intros t. split; [by intros ?%elem_of_nil|].
    intros (e & _ & (_ & _ & Hnone) & _). apply Exists_exists in Hsrc as (e' & Hin & [n Hn]).
    apply list_elem_of_filter in Hin as [Hname Hin]. specialize (Hnone e' Hin Hname). congruence. }
  destruct (verify_rows_ok (reexports_of read pmap fuel name) ({[(file, name)]} ∪ p)
    (reachable_reexport ({[(file, name)]} ∪ p) name)) with (file := file)
    (rows := filter (λ e, target_name e = name) (read file))
    (s := mkSearch cache ({[(file, name)]} ∪ p)) as (out & s' & -> & Hc' & Hp' & Hout); [|done..|].
  { apply IH; [|rewrite size_union, size_singleton by set_solver]; lia. }
  eexists _, _. split_and!; [done|done|simpl; by rewrite Hp', Hback|]. intros t. rewrite Hout.
  setoid_rewrite list_elem_of_filter. split.
  - intros (e & fs & [Hn Hin] & ?). exists e, fs. split; [|done]. split_and!; [done..|].
    intros e' Hin' Hn'. destruct (sources e') eqn:Es; [|done]. destruct Hsrc.
    apply Exists_exists. exists e'. split; [by apply list_elem_of_filter|by eexists].
  - intros (e & fs & (Hin & Hn & _) & ?). by exists e, fs.
Qed.

Lemma extend_files_ok name files s :
  coherent (by_file s) → on_path s = ∅ →
  ∃ out s', extend_files read pmap (REEXPORT_MAX_DEPTH + 2) name files s = Some (out, s')
    ∧ coherent (by_file s')
    ∧ ∀ t, t ∈ out ↔ ∃ f, f ∈ files ∧ reachable_reexport ∅ name f t.
Proof.
  revert s. induction files as [|f files IH]; intros s Hc Hp; cbn [extend_files].
  { exists [], s. split_and!; [done..|]. intros t.
    split; [by intros ?%elem_of_nil|by intros (? & []%elem_of_nil & _)]. }
  destruct (reexports_of_ok (REEXPORT_MAX_DEPTH + 2) name ∅) with (f := f) (s := s)
    as (ids & s1 & -> & Hc1 & Hp1 & Hids); [unfold REEXPORT_MAX_DEPTH; lia|lia|done..|].
  cbn [mbind option_bind].
  destruct (IH s1) as (out & s' & -> & Hc' & Hout); [done..|]. cbn [mbind option_bind].
  eexists _, s'. split_and!; [done|done|]. intros t.
  setoid_rewrite elem_of_cons. rewrite elem_of_app, Hids, Hout. split.
  - intros [?|(g & ? & ?)]; [exists f; auto|exists g; auto].
  - intros (g & [->|?] & ?); [by left|right; by exists g].
Qed.
End ReexportSpec.

(** C34: The re-export search ends and is exact: with any coherent edge cache it
    returns, sorted and without repeats, precisely the nodes re-exported along a
    chain of at most nine distinct files, each importing the name from a single
    module; the cache stays coherent, and forgetting the file an edge was just
    written for makes it coherent with the new index. *)
Theorem python_reexport_targets_exact read pmap cache files name :
  coherent read cache →
  (∃ ids cache', python_reexport_targets read pmap cache files name = Some (ids, cache')
     ∧ coherent read cache' ∧ NoDup ids ∧ StronglySorted (λ a b, (a <=? b)%Z = true) ids
     ∧ ∀ t, t ∈ ids ↔ ∃ f path, f ∈ files ∧ reexport_chain read pmap name t (f :: path)
                                ∧ NoDup (f :: path) ∧ length (f :: path) ≤ 9)
  ∧ ∀ read' file, (∀ f, f ≠ file → read' f = read f) → coherent read' (forget file cache).
Proof.
  intros Hc. split.
  - unfold python_reexport_targets.
    destruct (extend_files_ok read pmap name files (mkSearch cache ∅))
      as (out & s' & -> & Hc' & Hout); [done..|]. cbn [mbind option_bind].
    eexists _, _. split; [done|]. split; [done|].
    pose proof (NoDup_vec_dedup Z.leb (sort_by Z.leb out)) as [Hnd Hs]; [lia|..|].
    { apply sort_by_sorted; intros; lia. }
    split_and!; [done..|]. intros t. rewrite elem_of_vec_dedup, elem_of_sort_by, Hout.
    unfold reachable_reexport, REEXPORT_MAX_DEPTH. split.
    + intros (f & Hf & path & ? & ? & _ & Hlen). rewrite size_empty in Hlen. by exists f, path.
    + intros (f & path & Hf & ? & ? & Hlen). exists f. split; [done|]. exists path.
      rewrite size_empty. split_and!; [done..|set_solver|lia].
  - intros read' file Hr f rows. unfold forget. intros [Hne Hl]%lookup_delete_Some. rewrite Hr by done. by apply Hc.
Qed.

(** flask's [__init__.py] re-exports [Flask] from [app.py]. *)
Definition flask_edges (file : string) : list ReexportEdge :=
  if String.eqb file "src/flask/__init__.py"
  then [mkReexport 7 None "Flask" "src/flask/app.py" ".app"] else [].

Lemma python_reexport_targets_exact_witness :
  coherent flask_edges ∅ ∧ (∃ ids cache',
    python_reexport_targets flask_edges
      (build_python_module_map {["src/flask/__init__.py"; "src/flask/app.py"]}) ∅
      ["src/flask/__init__.py"] "Flask" = Some (ids, cache') ∧ ids = [7%Z]).
Proof.
  assert (coherent flask_edges ∅) as Hc by by intros f rows Hr.
  split; [done|]. destruct (python_reexport_targets_exact flask_edges
    (build_python_module_map {["src/flask/__init__.py"; "src/flask/app.py"]}) ∅
    ["src/flask/__init__.py"] "Flask" Hc) as [(ids & cache' & He & _) _].
  exists ids, cache'. split; [exact He|].
  assert (fst <$> python_reexport_targets flask_edges
    (build_python_module_map {["src/flask/__init__.py"; "src/flask/app.py"]}) ∅
    ["src/flask/__init__.py"] "Flask" = Some [7%Z]) as H7 by (by vm_compute).
  rewrite He in H7. by injection H7.
Defined.

(** Nine re-exports in a row: [m0] imports the name from [m1], and so on to the
    definition in [m9].  The search allows a ninth file on the path where
    [REEXPORT_MAX_DEPTH] says eight. *)
Definition chain_edges (file : string) : list ReexportEdge :=
  match list_find (λ f, f = file)
          ["m0.py"; "m1.py"; "m2.py"; "m3.py"; "m4.py"; "m5.py"; "m6.py"; "m7.py"; "m8.py"] with
  | Some (i, _) => [mkReexport 1 None "X" "m9.py" ("m" +:+ dec_of_nat (S i))]
  | None => []
  end.

Example nine_hops_followed :
  fst <$> python_reexport_targets chain_edges
    (build_python_module_map {["m0.py"; "m1.py"; "m2.py"; "m3.py"; "m4.py"; "m5.py"; "m6.py";
                              "m7.py"; "m8.py"; "m9.py"]}) ∅ ["m0.py"] "X" = Some [1%Z].
Proof. by vm_compute. Qed.
