(* ===== verification/Tarjan.v ===== *)
(** * Strongly connected components ([tarjan_scc] of [graph/cycles.rs])

    The iterative walk with its explicit call stack, and its correctness: an
    invariant between two iterations, a measure that each iteration decreases,
    and the components it leaves. *)

From S2P Require Import Prelude.

Section Tarjan.
(** [adj: &[Vec<usize>]]; every entry is below its length. *)
Context (adj : list (list nat)).

(** The locals of [tarjan_scc].  [None] in [index] is [UNVISITED]; both stacks
    have their top first. *)
Record Tarjan := mkTarjan {
  index : list (option nat);
  lowlink : list nat;
  on_stack : list bool;
  scc_stack : list nat;
  sccs : list (list nat);
  next_index : nat;
  call_stack : list (nat * nat);
}.

(** [if ci == 0 { .. }] *)
Definition enter (s : Tarjan) : Tarjan :=
  match call_stack s with
  | (v, 0) :: _ =>
      mkTarjan (<[v := Some (next_index s)]> (index s)) (<[v := next_index s]> (lowlink s))
        (<[v := true]> (on_stack s)) (v :: scc_stack s) (sccs s) (S (next_index s)) (call_stack s)
  | _ => s
  end.

(** The inner [loop] that pops a component; [None] is the panic of its [expect]. *)
Fixpoint pop_component (v : nat) (stack : list nat) : option (list nat * list nat) :=
  match stack with
  | [] => None
  | w :: stack' =>
      if bool_decide (w = v) then Some ([w], stack')
      else '(comp, rest) ← pop_component v stack'; Some (w :: comp, rest)
  end.

(** [on_stack[w] = false] for the popped nodes. *)
Definition clear (comp : list nat) (on_stack : list bool) : list bool :=
  foldr (λ (w : nat) (on : list bool), <[w := false]> on) on_stack comp.

(** The rest of the loop body, on the top frame [(v, ci)]. *)
Definition advance (s : Tarjan) : option Tarjan :=
  match call_stack s with
  | [] => Some s
  | (v, ci) :: cs =>
      match (adj !!! v) !! ci with
      | Some w =>
          match index s !!! w with
          | None =>
              Some (mkTarjan (index s) (lowlink s) (on_stack s) (scc_stack s) (sccs s)
                      (next_index s) ((w, 0) :: (v, S ci) :: cs))
          | Some iw =>
              let low := if (on_stack s !!! w : bool) then <[v := min (lowlink s !!! v) iw]> (lowlink s)
                         else lowlink s in
              Some (mkTarjan (index s) low (on_stack s) (scc_stack s) (sccs s)
                      (next_index s) ((v, S ci) :: cs))
          end
      | None =>
          let low := match cs with
                     | (parent, _) :: _ =>
                         <[parent := min (lowlink s !!! parent) (lowlink s !!! v)]> (lowlink s)
                     | [] => lowlink s
                     end in
          if bool_decide (Some (low !!! v) = index s !!! v) then
            '(comp, rest) ← pop_component v (scc_stack s);
            Some (mkTarjan (index s) low (clear comp (on_stack s)) rest (sccs s ++ [comp])
                    (next_index s) cs)
          else Some (mkTarjan (index s) low (on_stack s) (scc_stack s) (sccs s) (next_index s) cs)
      end
  end.

(** [while let Some(&(v, ci)) = call_stack.last()] *)
Fixpoint walk (fuel : nat) (s : Tarjan) : option Tarjan :=
  match call_stack s with
  | [] => Some s
  | _ =>
      match fuel with
      | 0 => None
      | S fuel' => s' ← advance (enter s); walk fuel' s'
      end
  end.

(** Every iteration follows an edge or leaves a node. *)
Definition walk_fuel : nat := sum_list_with (λ succ, length succ + 2) adj.

Definition visit_root (s : Tarjan) (root : nat) : option Tarjan :=
  match index s !!! root with
  | Some _ => Some s
  | None => walk walk_fuel (mkTarjan (index s) (lowlink s) (on_stack s) (scc_stack s) (sccs s)
                              (next_index s) [(root, 0)])
  end.

(** [for root in 0..n] *)
Fixpoint visit_roots (roots : list nat) (s : Tarjan) : option Tarjan :=
  match roots with
  | [] => Some s
  | root :: roots' => s' ← visit_root s root; visit_roots roots' s'
  end.

Definition tarjan_init : Tarjan :=
  let n := length adj in
  mkTarjan (replicate n None) (replicate n 0) (replicate n false) [] [] 0 [].

Definition tarjan_scc : option (list (list nat)) :=
  sccs <$> visit_roots (seq 0 (length adj)) tarjan_init.
End Tarjan.

Example tarjan_two_components :
  tarjan_scc [[1]; [2]; [0; 3]; [4]; [3]; [0]] = Some [[4; 3]; [2; 1; 0]; [5]].
Proof. by vm_compute. Qed.

(** ** Correctness of the walk *)

Section TarjanProof.
Context (adj : list (list nat)).

Definition edge (u w : nat) : Prop := w ∈ adj !!! u.
Definition reach : nat → nat → Prop := rtc edge.

(** [u] and [w] lie on a common closed walk, or are equal. *)
Definition mutual (u w : nat) : Prop := reach u w ∧ reach w u.

Definition graph_ok : Prop := ∀ u w, edge u w → w < length adj.

Definition num (s : Tarjan) (v : nat) : nat := default 0 (index s !!! v).
Definition visited (s : Tarjan) (v : nat) : Prop := is_Some (index s !!! v).
Definition frames (s : Tarjan) : list nat := (call_stack s).*1.
Definition finished (s : Tarjan) : list nat := mjoin (sccs s).

(** The edge from [x] to [w] has been followed: all of them once [x] left the
    call stack, those before its pointer while it is on it. *)
Definition followed (s : Tarjan) (x w : nat) : Prop :=
  ∃ i, (adj !!! x) !! i = Some w ∧ ∀ ci, (x, ci) ∈ call_stack s → i < ci.

(** [v] is the innermost open node at or below [x]. *)
Definition owner (s : Tarjan) (v x : nat) : Prop :=
  v ∈ frames s ∧ num s v ≤ num s x
  ∧ ∀ u, u ∈ frames s → num s u ≤ num s x → num s u ≤ num s v.

(** Invariant of the walk, between [enter] and [advance]. *)
Record walk_inv (s : Tarjan) : Prop := {
  inv_len : length (index s) = length adj ∧ length (lowlink s) = length adj
            ∧ length (on_stack s) = length adj;
  inv_vis x : x < length adj → visited s x ↔ x ∈ scc_stack s ∨ x ∈ finished s;
  inv_lt x : x ∈ scc_stack s ∨ x ∈ finished s → x < length adj;
  inv_nodup : NoDup (scc_stack s ++ finished s);
  inv_on x : x < length adj → on_stack s !!! x = true ↔ x ∈ scc_stack s;
  inv_sorted : StronglySorted (λ x y, num s y < num s x) (scc_stack s);
  inv_next x : visited s x → num s x < next_index s;
  inv_nonempty c : c ∈ sccs s → c ≠ [];
  inv_sccs c u w : c ∈ sccs s → u ∈ c → w ∈ c ↔ mutual u w;
  inv_closed x w : x ∈ finished s → edge x w → w ∈ finished s;
  inv_frames_sorted : StronglySorted (λ x y, num s y < num s x) (frames s);
  inv_frames f : f ∈ call_stack s → f.1 ∈ scc_stack s ∧ f.2 ≤ length (adj !!! f.1);
  inv_bottom x : x ∈ scc_stack s → ∃ b, last (frames s) = Some b ∧ num s b ≤ num s x;
  inv_followed x w : x ∈ scc_stack s → followed s x w → visited s w;
  inv_low v : v ∈ frames s → lowlink s !!! v ≤ num s v
              ∧ ∃ y, y ∈ scc_stack s ∧ num s y = lowlink s !!! v ∧ reach v y;
  inv_edges x w v : x ∈ scc_stack s → w ∈ scc_stack s → followed s x w → owner s v x →
                    lowlink s !!! v ≤ num s w;
  inv_down v x : v ∈ frames s → x ∈ scc_stack s → num s v ≤ num s x → reach v x;
  inv_up x : x ∈ scc_stack s → x ∉ frames s →
             ∃ y, y ∈ scc_stack s ∧ num s y < num s x ∧ reach x y;
}.

(** *** Basic consequences *)

Lemma sorted_num_inj s l x y :
  StronglySorted (λ x y, num s y < num s x) l → x ∈ l → y ∈ l → num s x = num s y → x = y.
Proof.
  induction 1 as [|a l Hs IH Hf]; [by intros ?%elem_of_nil|].
  rewrite Forall_forall in Hf. rewrite !elem_of_cons.
  intros [->|Hx] [->|Hy] Hn; [done| | |by apply IH].
  - specialize (Hf y Hy). lia.
  - specialize (Hf x Hx). lia.
Qed.

Lemma frame_in_scc_stack s v : walk_inv s → v ∈ frames s → v ∈ scc_stack s.
Proof. intros Hs [f [-> Hf]]%list_elem_of_fmap. by apply (inv_frames s Hs). Qed.

Lemma disjoint_stack s x : walk_inv s → x ∈ scc_stack s → x ∉ finished s.
Proof. intros Hs Hx Hf. apply inv_nodup in Hs as (_ & Hd & _)%NoDup_app. by apply (Hd x). Qed.

(** The top frame owns everything at or above it. *)
Lemma owner_top s v l x :
  walk_inv s → frames s = v :: l → num s v ≤ num s x → owner s v x.
Proof.
  intros Hs Hf Hx. split_and!; [rewrite Hf; set_solver|done|].
  intros u Hu _. pose proof (inv_frames_sorted s Hs) as Hsort. rewrite Hf in *.
  apply elem_of_cons in Hu as [->|Hu]; [done|].
  inversion Hsort as [|?? _ Hlt]; subst. rewrite Forall_forall in Hlt. specialize (Hlt u Hu). lia.
Qed.

(** A node owns itself when it is open. *)
Lemma owner_self s v u : walk_inv s → v ∈ frames s → owner s u v → u = v.
Proof.
  intros Hs Hv (Hu & Hle & Hmax). specialize (Hmax v Hv (le_n _)).
  eapply sorted_num_inj; [by apply inv_frames_sorted|done..|lia].
Qed.

(** *** Entering a node *)

Section Open.
Context (s : Tarjan) (w : nat) (cs : list (nat * nat)).
Context (Hinv : walk_inv s) (Hw : w < length adj) (Hnew : index s !!! w = None).
Context (Hcs : cs.*1 = frames s) (Hptr : ∀ f, f ∈ cs → f.2 ≤ length (adj !!! f.1)).
Context (Hreach : ∀ v, v ∈ frames s → reach v w).

Definition opened : Tarjan :=
  mkTarjan (<[w := Some (next_index s)]> (index s)) (<[w := next_index s]> (lowlink s))
    (<[w := true]> (on_stack s)) (w :: scc_stack s) (sccs s) (S (next_index s)) ((w, 0) :: cs).

Context (Hfol : ∀ x y, x ∈ scc_stack s → followed opened x y →
                  followed s x y ∨ (y = w ∧ x ∈ frames s)).

Lemma opened_num_eq : num opened w = next_index s.
Proof.
  unfold num. simpl. rewrite list_lookup_total_insert_eq; [done|].
  destruct (inv_len s Hinv) as (-> & _). done.
Qed.
Lemma opened_num_ne x : x ≠ w → num opened x = num s x.
Proof. intros. unfold num. simpl. by rewrite list_lookup_total_insert_ne. Qed.
Lemma opened_visited x : visited opened x ↔ x = w ∨ visited s x.
Proof.
  unfold visited. simpl. destruct (decide (x = w)) as [->|].
  - rewrite list_lookup_total_insert_eq by (by destruct (inv_len s Hinv) as (-> & _)). naive_solver.
  - rewrite list_lookup_total_insert_ne by done. naive_solver.
Qed.
Lemma opened_fresh : w ∉ scc_stack s ∧ w ∉ finished s.
Proof.
  assert (¬ (w ∈ scc_stack s ∨ w ∈ finished s)) as H; [|tauto].
  rewrite <-(inv_vis s Hinv) by done. unfold visited. rewrite Hnew. by intros [].
Qed.
Lemma opened_below x : x ∈ scc_stack s → num opened x = num s x ∧ num s x < next_index s.
Proof.
  intros Hx. destruct opened_fresh as [Hf _]. split.
  - apply opened_num_ne. by intros ->.
  - apply (inv_next s Hinv), (inv_vis s Hinv); [apply (inv_lt s Hinv)|]; by left.
Qed.
Lemma opened_frames : frames opened = w :: frames s.
Proof. unfold frames at 1. cbn [opened call_stack]. by rewrite fmap_cons, Hcs. Qed.
Lemma opened_followed_w y : ¬ followed opened w y.
Proof. intros (i & _ & Hi). specialize (Hi 0 ltac:(by left)). lia. Qed.

Lemma opened_sorted l :
  (∀ x, x ∈ l → x ∈ scc_stack s) → StronglySorted (λ x y, num s y < num s x) l →
  StronglySorted (λ x y, num opened y < num opened x) (w :: l).
Proof.
  intros Hl Hsort. constructor.
  - induction Hsort as [|x l Hsort IH Hf]; constructor.
    + apply IH. intros; apply Hl. by right.
    + rewrite Forall_forall in *. intros y Hy. specialize (Hf y Hy).
      destruct (opened_below x) as [-> _]; [apply Hl; by left|].
      destruct (opened_below y) as [-> _]; [apply Hl; by right|done].
  - apply Forall_forall. intros x Hx%Hl%opened_below. rewrite opened_num_eq. lia.
Qed.

Lemma opened_owner v x :
  x ∈ scc_stack s → owner opened v x → owner s v x.
Proof.
  intros Hx (Hv & Hle & Hmax). rewrite opened_frames in Hv, Hmax.
  pose proof (opened_below x Hx) as [Hnx Hlt]. rewrite Hnx in *.
  apply elem_of_cons in Hv as [->|Hv].
  { rewrite opened_num_eq in Hle. lia. }
  pose proof (opened_below v (frame_in_scc_stack s v Hinv Hv)) as [Hnv _]. rewrite Hnv in *.
  split_and!; [done..|]. intros u Hu Hux.
  pose proof (opened_below u (frame_in_scc_stack s u Hinv Hu)) as [Hnu _].
  rewrite <-Hnu. apply Hmax; [by right|by rewrite Hnu].
Qed.

Lemma opened_lowlink v : v ∈ scc_stack s → lowlink opened !!! v = lowlink s !!! v.
Proof.
  intros Hv. simpl. rewrite list_lookup_total_insert_ne; [done|].
  intros <-. by destruct opened_fresh.
Qed.

Lemma opened_bottom x : x ∈ scc_stack opened → ∃ b, last (frames opened) = Some b ∧ num opened b ≤ num opened x.
Proof.
  rewrite opened_frames. simpl. intros [->|Hx]%elem_of_cons.
  - destruct (frames s) as [|u l] eqn:E; [by exists w|].
    destruct (last_is_Some (u :: l)) as [_ [b Hb]]; [done|].
    exists b. split; [by rewrite last_cons_cons|].
    assert (b ∈ frames s) as Hbf by (rewrite E; by apply last_Some_elem_of).
    pose proof (opened_below b (frame_in_scc_stack s b Hinv Hbf)) as [-> ?].
    rewrite opened_num_eq. lia.
  - destruct (inv_bottom s Hinv x Hx) as (b & Hb & Hle). exists b.
    split; [by destruct (frames s)|].
    assert (b ∈ frames s) as Hbf by by apply last_Some_elem_of.
    destruct (opened_below b (frame_in_scc_stack s b Hinv Hbf)) as [-> _].
    by destruct (opened_below x Hx) as [-> _].
Qed.

Lemma opened_low v :
  v ∈ frames opened → lowlink opened !!! v ≤ num opened v
    ∧ ∃ y, y ∈ scc_stack opened ∧ num opened y = lowlink opened !!! v ∧ reach v y.
Proof.
  pose proof (inv_len s Hinv) as (Hl1 & Hl2 & Hl3).
  rewrite opened_frames. intros [->|Hv]%elem_of_cons.
  - rewrite opened_num_eq. simpl. rewrite list_lookup_total_insert_eq by lia.
    split; [done|]. exists w. split_and!; [by left|apply opened_num_eq|apply rtc_refl].
  - pose proof (frame_in_scc_stack s v Hinv Hv) as Hvs.
    rewrite opened_lowlink by done. destruct (opened_below v Hvs) as [-> _].
    destruct (inv_low s Hinv v Hv) as (? & y & Hy & Hny & ?). split; [done|]. exists y.
    split_and!; [by right| |done]. by destruct (opened_below y Hy) as [-> _].
Qed.

Lemma opened_edges x y v :
  x ∈ scc_stack opened → y ∈ scc_stack opened → followed opened x y → owner opened v x → lowlink opened !!! v ≤ num opened y.
Proof.
  intros [->|Hx]%elem_of_cons Hy Hf Ho; [by apply opened_followed_w in Hf|].
  apply opened_owner in Ho; [|done]. pose proof Ho as (Hv & _).
  rewrite opened_lowlink by (by apply frame_in_scc_stack).
  pose proof (inv_low s Hinv v Hv) as [Hlow _].
  assert (num s v < next_index s) by (by apply opened_below, frame_in_scc_stack).
  destruct (Hfol x y Hx Hf) as [Hf'|[-> _]]; [|rewrite opened_num_eq; lia].
  simpl in Hy. apply elem_of_cons in Hy as [->|Hy]; [rewrite opened_num_eq; lia|].
  destruct (opened_below y Hy) as [-> _]. by apply (inv_edges s Hinv x y v).
Qed.

Lemma opened_down v x : v ∈ frames opened → x ∈ scc_stack opened → num opened v ≤ num opened x → reach v x.
Proof.
  rewrite opened_frames. intros [->|Hv]%elem_of_cons [->|Hx]%elem_of_cons Hle.
  - apply rtc_refl.
  - destruct (opened_below x Hx) as [Hn ?]. rewrite Hn, opened_num_eq in Hle. lia.
  - by apply Hreach.
  - pose proof (frame_in_scc_stack s v Hinv Hv) as Hvs.
    destruct (opened_below x Hx) as [Hn _]. destruct (opened_below v Hvs) as [Hn' _].
    rewrite Hn, Hn' in Hle. by apply (inv_down s Hinv).
Qed.

Lemma opened_inv : walk_inv opened.
Proof.
  pose proof opened_fresh as [Hws Hwf]. pose proof (inv_len s Hinv) as (Hl1 & Hl2 & Hl3).
  split.
  - simpl. by rewrite !length_insert.
  - intros x Hx. rewrite opened_visited, (inv_vis s Hinv) by done. simpl.
    rewrite elem_of_cons. tauto.
  - intros x. simpl. rewrite elem_of_cons. intros [[->|?]|?]; [done|..]; apply (inv_lt s Hinv); auto.
  - simpl. constructor; [|apply (inv_nodup s Hinv)]. rewrite elem_of_app. tauto.
  - intros x Hx. simpl. rewrite elem_of_cons. destruct (decide (x = w)) as [->|].
    + rewrite list_lookup_total_insert_eq by lia. tauto.
    + rewrite list_lookup_total_insert_ne, (inv_on s Hinv) by done. tauto.
  - apply opened_sorted; [done|apply (inv_sorted s Hinv)].
  - intros x [->|Hx]%opened_visited; simpl.
    + rewrite opened_num_eq. lia.
    + destruct (decide (x = w)) as [->|]; [rewrite opened_num_eq; lia|].
      rewrite opened_num_ne by done. pose proof (inv_next s Hinv x Hx). lia.
  - apply (inv_nonempty s Hinv).
  - apply (inv_sccs s Hinv).
  - apply (inv_closed s Hinv).
  - rewrite opened_frames. apply opened_sorted; [|by apply inv_frames_sorted].
    intros x Hx. by apply frame_in_scc_stack.
  - simpl. intros f [->|Hf]%elem_of_cons; [simpl; split; [by left|lia]|]. split; [|by apply Hptr].
    right. apply frame_in_scc_stack; [done|]. rewrite <-Hcs. by apply list_elem_of_fmap_2.
  - apply opened_bottom.
  - intros x y [->|Hx]%elem_of_cons Hf; [by apply opened_followed_w in Hf|].
    rewrite opened_visited. destruct (Hfol x y Hx Hf) as [Hf'|[-> _]]; [|by left].
    right. by apply (inv_followed s Hinv x y).
  - apply opened_low.
  - apply opened_edges.
  - apply opened_down.
  - intros x Hx. rewrite opened_frames. intros Hnf. simpl in Hx.
    apply elem_of_cons in Hx as [->|Hx]; [destruct Hnf; by left|].
    destruct (inv_up s Hinv x Hx) as (y & Hy & Hlt & Hr); [intros ?; apply Hnf; by right|].
    exists y. split_and!; [by right| |done].
    destruct (opened_below x Hx) as [-> _]. by destruct (opened_below y Hy) as [-> _].
Qed.
End Open.

(** *** Following an edge to a visited node *)

Section Follow.
Context (s : Tarjan) (v ci w iw : nat) (cs : list (nat * nat)).
Context (Hinv : walk_inv s) (Hcall : call_stack s = (v, ci) :: cs).
Context (Hedge : (adj !!! v) !! ci = Some w) (Hiw : index s !!! w = Some iw) (Hg : graph_ok).

Definition followed_low : list nat :=
  if (on_stack s !!! w : bool) then <[v := min (lowlink s !!! v) iw]> (lowlink s) else lowlink s.
Definition followed_on : Tarjan :=
  mkTarjan (index s) followed_low (on_stack s) (scc_stack s) (sccs s) (next_index s)
    ((v, S ci) :: cs).

Lemma follow_edge : edge v w.
Proof. unfold edge. by eapply list_elem_of_lookup_2. Qed.
Lemma follow_frames : frames followed_on = frames s.
Proof. unfold frames. by rewrite Hcall. Qed.
Lemma follow_top : frames s = v :: cs.*1.
Proof. unfold frames. by rewrite Hcall. Qed.

Lemma follow_followed x y : followed followed_on x y → followed s x y ∨ (x = v ∧ y = w).
Proof.
  intros (i & Hi & Hlt). simpl in Hlt.
  destruct (decide (x = v ∧ i = ci)) as [[-> ->]|Hne].
  { right. split; [done|congruence]. }
  left. exists i. split; [done|]. rewrite Hcall.
  intros c [[= -> ->]|Hc]%elem_of_cons; [|apply Hlt; by right].
  specialize (Hlt (S ci) ltac:(by left)). assert (i ≠ ci) by naive_solver. lia.
Qed.

Lemma follow_low u :
  u ∈ frames s → u ≠ v → lowlink followed_on !!! u = lowlink s !!! u.
Proof.
  intros _ Hne. simpl. unfold followed_low. case_match; [|done].
  by rewrite list_lookup_total_insert_ne.
Qed.
Lemma follow_low_v :
  lowlink followed_on !!! v
  = if (on_stack s !!! w : bool) then min (lowlink s !!! v) iw else lowlink s !!! v.
Proof.
  simpl. unfold followed_low. case_match; [|done]. apply list_lookup_total_insert_eq.
  destruct (inv_len s Hinv) as (_ & -> & _). apply (inv_lt s Hinv). left.
  apply frame_in_scc_stack; [done|]. rewrite follow_top. by left.
Qed.
Lemma follow_low_le u : u ∈ frames s → lowlink followed_on !!! u ≤ lowlink s !!! u.
Proof.
  intros Hu. destruct (decide (u = v)) as [->|]; [|by rewrite follow_low].
  rewrite follow_low_v. case_match; lia.
Qed.

Lemma follow_inv : walk_inv followed_on.
Proof.
  assert (w < length adj) as Hwlt by (eapply Hg, follow_edge).
  assert (v ∈ frames s) as Hvf by (rewrite follow_top; by left).
  assert (num s w = iw) as Hnw by (unfold num; by rewrite Hiw).
  destruct (inv_len s Hinv) as (Hl1 & Hl2 & Hl3).
  split.
  - simpl. split_and!; [done| |done]. unfold followed_low. case_match; [by rewrite length_insert|done].
  - apply (inv_vis s Hinv).
  - apply (inv_lt s Hinv).
  - apply (inv_nodup s Hinv).
  - apply (inv_on s Hinv).
  - apply (inv_sorted s Hinv).
  - apply (inv_next s Hinv).
  - apply (inv_nonempty s Hinv).
  - apply (inv_sccs s Hinv).
  - apply (inv_closed s Hinv).
  - rewrite follow_frames. apply (inv_frames_sorted s Hinv).
  - simpl. intros f [->|Hf]%elem_of_cons.
    + split; [by apply frame_in_scc_stack|]. simpl. by eapply lookup_lt_Some.
    + apply (inv_frames s Hinv). rewrite Hcall. by right.
  - intros x Hx. rewrite follow_frames. by apply (inv_bottom s Hinv).
  - intros x y Hx [Hf|[-> ->]]%follow_followed; [by eapply (inv_followed s Hinv x y)|].
    unfold visited. simpl. by rewrite Hiw.
  - intros u. rewrite follow_frames. intros Hu.
    destruct (inv_low s Hinv u Hu) as (Hle & y & Hy & Hny & Hr).
    split; [pose proof (follow_low_le u Hu); unfold num in *; simpl in *; lia|].
    destruct (decide (u = v)) as [->|]; [|exists y; by rewrite follow_low].
    rewrite follow_low_v. case_match eqn:Hon; [|by exists y].
    destruct (Nat.min_dec (lowlink s !!! v) iw) as [Hm|Hm]; rewrite Hm; [by exists y|].
    exists w. split_and!; [by apply (inv_on s Hinv)|done|apply rtc_once, follow_edge].
  - intros x y u Hx Hy Hf Ho.
    assert (owner s u x) as Ho' by (revert Ho; unfold owner; by rewrite follow_frames).
    assert (u ∈ frames s) as Hu by (by destruct Ho').
    apply follow_followed in Hf as [Hf|[-> ->]].
    + pose proof (follow_low_le u Hu). pose proof (inv_edges s Hinv x y u Hx Hy Hf Ho').
      unfold num in *. simpl in *. lia.
    + apply owner_self in Ho' as ->; [|done..]. rewrite follow_low_v.
      apply (inv_on s Hinv) in Hy as ->; [|done]. unfold num in *. simpl. lia.
  - intros u x. rewrite follow_frames. apply (inv_down s Hinv).
  - intros x Hx. rewrite follow_frames. by apply (inv_up s Hinv).
Qed.
End Follow.

(** *** Leaving a node *)

Lemma pop_component_ok v st :
  v ∈ st → ∃ pre rest, pop_component v st = Some (pre ++ [v], rest) ∧ st = pre ++ v :: rest.
Proof.
  induction st as [|w st IH]; [by intros ?%elem_of_nil|]. intros Hv. simpl.
  case_bool_decide as Hw; [subst; by exists [], st|].
  apply elem_of_cons in Hv as [->|Hv]; [done|].
  destruct (IH Hv) as (pre & rest & -> & ->). by exists (w :: pre), rest.
Qed.

Lemma clear_length comp on : length (clear comp on) = length on.
Proof. induction comp as [|w comp IH]; [done|]. simpl. by rewrite length_insert. Qed.

Lemma clear_lookup comp on x :
  x < length on → clear comp on !!! x = if bool_decide (x ∈ comp) then false else on !!! x.
Proof.
  intros Hx. induction comp as [|w comp IH]; [done|].
  change (clear (w :: comp) on) with (<[w := false]> (clear comp on)).
  destruct (decide (w = x)) as [->|Hne].
  - rewrite list_lookup_total_insert_eq by by rewrite clear_length.
    rewrite bool_decide_true by (by left). done.
  - rewrite list_lookup_total_insert_ne, IH by done.
    rewrite (bool_decide_ext (x ∈ w :: comp) (x ∈ comp)); [done|].
    rewrite elem_of_cons. naive_solver.
Qed.

Section Leave.
Context (s : Tarjan) (v ci : nat) (cs : list (nat * nat)).
Context (Hinv : walk_inv s) (Hcall : call_stack s = (v, ci) :: cs).
Context (Hend : (adj !!! v) !! ci = None) (Hg : graph_ok).

Definition left_low : list nat :=
  match cs with
  | (parent, _) :: _ => <[parent := min (lowlink s !!! parent) (lowlink s !!! v)]> (lowlink s)
  | [] => lowlink s
  end.

Lemma leave_frames : frames s = v :: cs.*1.
Proof. unfold frames. by rewrite Hcall. Qed.
Lemma leave_v : v ∈ frames s.
Proof. rewrite leave_frames. by left. Qed.
Lemma leave_v_stack : v ∈ scc_stack s.
Proof. apply frame_in_scc_stack, leave_v. done. Qed.

Lemma leave_below u : u ∈ cs.*1 → u ∈ frames s ∧ num s u < num s v.
Proof.
  intros Hu. pose proof (inv_frames_sorted s Hinv) as Hsort. rewrite leave_frames in *.
  split; [by right|]. inversion Hsort as [|?? _ Hf]; subst. rewrite Forall_forall in Hf. by apply Hf.
Qed.

(** Once left, all edges of [v] have been followed, as they had before. *)
Lemma leave_followed x y :
  (∃ i, (adj !!! x) !! i = Some y ∧ ∀ c, (x, c) ∈ cs → i < c) → followed s x y.
Proof.
  intros (i & Hi & Hlt). exists i. split; [done|]. rewrite Hcall.
  intros c [[= -> ->]|Hc]%elem_of_cons; [|by apply Hlt].
  apply lookup_lt_Some in Hi. apply lookup_ge_None in Hend. lia.
Qed.

(** Edges of nodes at or above [v] have all been followed. *)
Lemma above_followed x y : x ∈ scc_stack s → num s v ≤ num s x → edge x y → followed s x y.
Proof.
  intros Hx Hle [i Hi]%list_elem_of_lookup. apply leave_followed. exists i. split; [done|].
  intros c Hc. assert (x ∈ cs.*1) as Hxc by (by apply (list_elem_of_fmap_2 fst _ (x, c))).
  apply leave_below in Hxc as [_ ?]. lia.
Qed.

Lemma left_low_length : length left_low = length (lowlink s).
Proof. unfold left_low. destruct cs as [|[]]; [done|]. by rewrite length_insert. Qed.

Lemma left_low_other u :
  (∀ parent c l, cs = (parent, c) :: l → u ≠ parent) → left_low !!! u = lowlink s !!! u.
Proof.
  intros Hne. unfold left_low. destruct cs as [|[p c] l]; [done|].
  rewrite list_lookup_total_insert_ne; [done|]. intros <-. by apply (Hne p c l).
Qed.

Lemma leave_parent : (∃ p c l, cs = (p, c) :: l) ∨ cs = [].
Proof. destruct cs as [|[p c] l]; [by right|left; by exists p, c, l]. Qed.

Lemma left_low_v : left_low !!! v = lowlink s !!! v.
Proof.
  apply left_low_other. intros p c l E Hv.
  destruct (leave_below p); [rewrite E; by left|]. subst p. lia.
Qed.

Lemma left_low_parent p c l :
  cs = (p, c) :: l → left_low !!! p = min (lowlink s !!! p) (lowlink s !!! v).
Proof.
  intros E. unfold left_low. rewrite E. apply list_lookup_total_insert_eq.
  destruct (inv_len s Hinv) as (_ & -> & _). apply (inv_lt s Hinv). left.
  apply frame_in_scc_stack; [done|]. apply leave_below. rewrite E. by left.
Qed.

(** Below [v], only its parent's [lowlink] moves. *)
Lemma left_low_cases u :
  u ∈ cs.*1 →
  (left_low !!! u = min (lowlink s !!! u) (lowlink s !!! v) ∧ ∃ c l, cs = (u, c) :: l)
  ∨ (left_low !!! u = lowlink s !!! u ∧ ∃ p c l, cs = (p, c) :: l ∧ u ∈ l.*1).
Proof.
  intros Hu. destruct leave_parent as [(p & c & l & E)|E]; [|rewrite E in Hu; by apply elem_of_nil in Hu].
  destruct (decide (u = p)) as [->|Hne].
  - left. split; [by apply (left_low_parent p c l)|by exists c, l].
  - right. split; [apply left_low_other; intros ???; congruence|].
    exists p, c, l. split; [done|]. rewrite E in Hu. by apply elem_of_cons in Hu as [?|?].
Qed.

Lemma left_low_le u : u ∈ cs.*1 → left_low !!! u ≤ lowlink s !!! u.
Proof. intros [[-> _]|[-> _]]%left_low_cases; lia. Qed.

(** Every open node below [v] keeps a witness of its [lowlink]. *)
Lemma left_low_witness u :
  u ∈ cs.*1 →
  left_low !!! u ≤ num s u ∧ ∃ y, y ∈ scc_stack s ∧ num s y = left_low !!! u ∧ reach u y.
Proof.
  intros Hu. pose proof (leave_below u Hu) as [Huf Hlt].
  destruct (inv_low s Hinv u Huf) as (Hle & y & Hy).
  split; [pose proof (left_low_le u Hu); lia|].
  destruct (left_low_cases u Hu) as [[-> _]|[-> _]]; [|by exists y].
  destruct (Nat.min_dec (lowlink s !!! u) (lowlink s !!! v)) as [Hm|Hm]; rewrite Hm; [by exists y|].
  destruct (inv_low s Hinv v leave_v) as (_ & z & Hz & Hnz & Hr). exists z.
  split_and!; [done..|]. transitivity v; [|done].
  apply (inv_down s Hinv); [done|apply leave_v_stack|lia].
Qed.

(** The [lowlink]s of the frames left cover every followed edge. *)
Lemma left_low_edges x y u :
  x ∈ scc_stack s → y ∈ scc_stack s → followed s x y →
  u ∈ cs.*1 → num s u ≤ num s x → (∀ u', u' ∈ cs.*1 → num s u' ≤ num s x → num s u' ≤ num s u) →
  left_low !!! u ≤ num s y.
Proof.
  intros Hx Hy Hf Hu Hux Hmax. pose proof (leave_below u Hu) as [Huf Hlt].
  destruct (decide (num s v ≤ num s x)) as [Hvx|Hvx].
  - assert (lowlink s !!! v ≤ num s y) as Hv.
    { apply (inv_edges s Hinv x y v); [done..|].
      by apply (owner_top s v (cs.*1)); [|apply leave_frames|]. }
    destruct (left_low_cases u Hu) as [[-> _]|[_ (p & c & l & E & Hl)]]; [lia|]. exfalso.
    assert (p ∈ cs.*1) as Hp by (rewrite E; by left).
    pose proof (leave_below p Hp) as [_ Hpv]. specialize (Hmax p Hp ltac:(lia)).
    pose proof (inv_frames_sorted s Hinv) as Hsort. rewrite leave_frames, E in Hsort.
    inversion Hsort as [|?? Hsort' _]; subst. inversion Hsort' as [|?? _ Hfa]; subst.
    rewrite Forall_forall in Hfa. specialize (Hfa u Hl). simpl in Hfa. lia.
  - transitivity (lowlink s !!! u); [by apply left_low_le|].
    apply (inv_edges s Hinv x y u); [done..|]. split_and!; [done..|].
    intros u' Hu' Hle. rewrite leave_frames in Hu'.
    apply elem_of_cons in Hu' as [->|Hu']; [lia|by apply Hmax].
Qed.

(** *** ... when its component is not complete *)

Definition left_open : Tarjan :=
  mkTarjan (index s) left_low (on_stack s) (scc_stack s) (sccs s) (next_index s) cs.

Lemma left_open_inv : left_low !!! v ≠ num s v → walk_inv left_open.
Proof.
  rewrite left_low_v. intros Hne. destruct (inv_len s Hinv) as (Hl1 & Hl2 & Hl3).
  destruct (inv_low s Hinv v leave_v) as (Hle & z & Hz & Hnz & Hrz).
  split.
  - simpl. by rewrite left_low_length.
  - apply (inv_vis s Hinv).
  - apply (inv_lt s Hinv).
  - apply (inv_nodup s Hinv).
  - apply (inv_on s Hinv).
  - apply (inv_sorted s Hinv).
  - apply (inv_next s Hinv).
  - apply (inv_nonempty s Hinv).
  - apply (inv_sccs s Hinv).
  - apply (inv_closed s Hinv).
  - pose proof (inv_frames_sorted s Hinv) as Hsort. rewrite leave_frames in Hsort. by inversion Hsort.
  - intros f Hf. apply (inv_frames s Hinv). rewrite Hcall. by right.
  - intros x Hx. destruct (inv_bottom s Hinv x Hx) as (b & Hb & Hbx).
    destruct (inv_bottom s Hinv z Hz) as (b' & Hb' & Hbz). rewrite leave_frames in Hb, Hb'.
    unfold frames. simpl. destruct (cs.*1) as [|u l]; [|by exists b].
    simpl in Hb'. injection Hb' as <-. lia.
  - intros x y Hx Hf. by apply (inv_followed s Hinv x y), leave_followed.
  - apply left_low_witness.
  - intros x y u Hx Hy Hf (Hu & Hux & Hmax). apply (left_low_edges x y u); [done|done|by apply leave_followed|done..].
  - intros u x Hu. apply (inv_down s Hinv). rewrite leave_frames. by right.
  - intros x Hx Hnf. destruct (decide (x = v)) as [->|Hxv].
    + exists z. split_and!; [done| |done]. change (num s z < num s v). lia.
    + apply (inv_up s Hinv x Hx). rewrite leave_frames. by intros [?|?]%elem_of_cons.
Qed.

(** *** ... when its component is complete *)

Section Close.
Context (pre rest : list nat).
Context (Hsplit : scc_stack s = pre ++ v :: rest) (Hroot : left_low !!! v = num s v).

Definition component : list nat := pre ++ [v].
Definition left_closed : Tarjan :=
  mkTarjan (index s) left_low (clear component (on_stack s)) rest (sccs s ++ [component])
    (next_index s) cs.

Lemma close_stack : scc_stack s = component ++ rest.
Proof. unfold component. by rewrite <-app_assoc. Qed.

Lemma close_num x :
  (x ∈ component ↔ x ∈ scc_stack s ∧ num s v ≤ num s x)
  ∧ (x ∈ rest ↔ x ∈ scc_stack s ∧ num s x < num s v).
Proof.
  pose proof (inv_sorted s Hinv) as Hsort. rewrite Hsplit in Hsort.
  assert (x ∈ pre → num s v < num s x) as Hpre.
  { intros Hx. apply list_elem_of_split in Hx as (l1 & l2 & E). rewrite E, <-app_assoc in Hsort.
    apply StronglySorted_app_1_r in Hsort. simpl in Hsort. inversion Hsort as [|?? _ Hf]; subst.
    rewrite Forall_forall in Hf. apply Hf. set_solver. }
  assert (x ∈ rest → num s x < num s v) as Hrest.
  { apply StronglySorted_app_1_r in Hsort. inversion Hsort as [|?? _ Hf]; subst.
    rewrite Forall_forall in Hf. apply Hf. }
  rewrite close_stack. unfold component. rewrite !elem_of_app, list_elem_of_singleton.
  destruct (decide (x = v)) as [->|]; [intuition lia|].
  split; split; intuition lia.
Qed.

(** Nothing leads out of the component but to finished ones. *)
Lemma close_closed x y :
  x ∈ component ∨ x ∈ finished s → edge x y → y ∈ component ∨ y ∈ finished s.
Proof.
  intros [Hx|Hx] Hxy; [|right; by eapply (inv_closed s Hinv)].
  apply close_num in Hx as [Hx Hle].
  pose proof (above_followed x y Hx Hle Hxy) as Hf.
  assert (visited s y) as Hv by by apply (inv_followed s Hinv x y).
  apply (inv_vis s Hinv) in Hv as [Hy|?]; [|by right|by apply (Hg x y)].
  left. apply close_num. split; [done|]. rewrite <-Hroot, left_low_v.
  apply (inv_edges s Hinv x y v); [done..|].
  by apply (owner_top s v (cs.*1)); [|apply leave_frames|].
Qed.

Lemma close_reach x y :
  reach x y → x ∈ component ∨ x ∈ finished s → y ∈ component ∨ y ∈ finished s.
Proof.
  induction 1 as [x|x z y Hxz _ IH]; [done|]. intros Hx. by apply IH, (close_closed x z).
Qed.

Lemma finished_reach x y : reach x y → x ∈ finished s → y ∈ finished s.
Proof.
  induction 1 as [x|x z y Hxz _ IH]; [done|]. intros Hx. by apply IH, (inv_closed s Hinv x z).
Qed.

Lemma close_down x : x ∈ component → reach v x.
Proof.
  intros [Hx Hle]%close_num. apply (inv_down s Hinv); [apply leave_v|done..].
Qed.

Lemma close_up x : x ∈ component → reach x v.
Proof.
  induction x as [x IH] using (induction_ltof1 _ (num s)). unfold ltof in IH. intros Hx.
  destruct (decide (x = v)) as [->|Hne]; [apply rtc_refl|].
  pose proof Hx as [Hxs Hle]%close_num.
  destruct (inv_up s Hinv x Hxs) as (y & Hy & Hlt & Hr).
  - rewrite leave_frames. intros [?|Hxc]%elem_of_cons; [done|].
    apply leave_below in Hxc as [_ ?]. lia.
  - destruct (close_reach x y Hr) as [Hyc|Hyf]; [by left| |].
    + transitivity y; [done|]. by apply IH.
    + by destruct (disjoint_stack s y Hinv Hy).
Qed.

Lemma close_mutual u w : u ∈ component → w ∈ component ↔ mutual u w.
Proof.
  intros Hu. split.
  - intros Hw. split; (transitivity v; [by apply close_up|by apply close_down]).
  - intros [Huw Hwu]. destruct (close_reach u w Huw) as [?|Hwf]; [by left|done|].
    apply (finished_reach w u Hwu) in Hwf. apply close_num in Hu as [Hu _].
    by destruct (disjoint_stack s u Hinv Hu).
Qed.

Lemma closed_finished : finished left_closed = finished s ++ component.
Proof. unfold finished. simpl. rewrite join_app. simpl. by rewrite app_nil_r. Qed.

Lemma left_closed_inv : walk_inv left_closed.
Proof.
  destruct (inv_len s Hinv) as (Hl1 & Hl2 & Hl3). pose proof close_num as Hnum.
  split.
  - simpl. by rewrite left_low_length, clear_length.
  - intros x Hx. rewrite closed_finished. change (visited left_closed x) with (visited s x).
    rewrite (inv_vis s Hinv), close_stack, !elem_of_app by done. simpl. tauto.
  - intros x. rewrite closed_finished. simpl. intros Hx. apply (inv_lt s Hinv).
    rewrite close_stack, elem_of_app. rewrite elem_of_app in Hx. tauto.
  - rewrite closed_finished. pose proof (inv_nodup s Hinv) as Hnd. rewrite close_stack in Hnd.
    assert (rest ++ finished s ++ component ≡ₚ (component ++ rest) ++ finished s) as Hp
      by solve_Permutation.
    simpl. by rewrite Hp.
  - intros x Hx. simpl. rewrite clear_lookup by lia. case_bool_decide as Hc.
    + apply Hnum in Hc as [_ ?]. split; [done|]. intros [_ ?]%Hnum. lia.
    + rewrite (inv_on s Hinv), close_stack, elem_of_app by done. tauto.
  - simpl. pose proof (inv_sorted s Hinv) as Hsort. rewrite close_stack in Hsort.
    by apply StronglySorted_app_1_r in Hsort.
  - apply (inv_next s Hinv).
  - intros c. simpl. rewrite elem_of_app, list_elem_of_singleton.
    intros [Hc| ->]; [by apply (inv_nonempty s Hinv)|]. unfold component. by destruct pre.
  - intros c u w. simpl. rewrite elem_of_app, list_elem_of_singleton.
    intros [Hc| ->]; [by apply (inv_sccs s Hinv)|apply close_mutual].
  - intros x y. rewrite closed_finished, !elem_of_app. intros Hx Hxy.
    destruct (close_closed x y) as [?|?]; [tauto|done|tauto|tauto].
  - pose proof (inv_frames_sorted s Hinv) as Hsort. rewrite leave_frames in Hsort. by inversion Hsort.
  - intros f Hf. simpl in Hf. destruct (inv_frames s Hinv f) as [Hfs Hle]; [rewrite Hcall; by right|].
    split; [|done]. apply Hnum. split; [done|]. apply leave_below. by apply list_elem_of_fmap_2.
  - intros x [Hx Hlt]%Hnum. destruct (inv_bottom s Hinv x Hx) as (b & Hb & Hbx).
    rewrite leave_frames in Hb. unfold frames. simpl.
    destruct (cs.*1) as [|u l]; [|by exists b]. simpl in Hb. injection Hb as <-. lia.
  - intros x y [Hx _]%Hnum Hf. by apply (inv_followed s Hinv x y), leave_followed.
  - intros u Hu. destruct (left_low_witness u Hu) as (Hle & y & Hy & Hny & Hr).
    split; [done|]. exists y. split_and!; [|done..]. apply Hnum. split; [done|].
    rewrite Hny. destruct (leave_below u Hu) as [_ ?]. lia.
  - intros x y u [Hx _]%Hnum [Hy _]%Hnum Hf (Hu & Hux & Hmax).
    apply (left_low_edges x y u); [done|done|by apply leave_followed|done..].
  - intros u x Hu [Hx _]%Hnum. apply (inv_down s Hinv); [|done]. rewrite leave_frames. by right.
  - intros x Hx Hnf. apply Hnum in Hx as [Hx Hlt].
    destruct (inv_up s Hinv x Hx) as (y & Hy & Hyx & Hr).
    + rewrite leave_frames. intros [->|?]%elem_of_cons; [lia|done].
    + exists y. split_and!; [|done..]. apply Hnum. split; [done|]. lia.
Qed.
End Close.
End Leave.

(** *** The loop *)

(** Between two iterations: the invariant holds once the top frame is entered. *)
Definition loop_inv (s : Tarjan) : Prop :=
  walk_inv (enter s)
  ∧ (∀ f, f ∈ tail (call_stack s) → 0 < f.2)
  ∧ ∀ v cs, call_stack s = (v, 0) :: cs → v < length adj ∧ index s !!! v = None.

(** What is left to do: nodes not seen yet with their edges, then what remains
    of the open ones. *)
Definition unseen (ix : list (option nat)) : nat :=
  sum_list_with (λ x, match ix !!! x with None => length (adj !!! x) + 2 | Some _ => 0 end)
    (seq 0 (length adj)).
Definition open_cost (ix : list (option nat)) (call : list (nat * nat)) : nat :=
  sum_list_with (λ f, match ix !!! f.1 with
                      | None => 0
                      | Some _ => S (length (adj !!! f.1) - f.2)
                      end) call.
Definition measure (s : Tarjan) : nat := unseen (index s) + open_cost (index s) (call_stack s).

Lemma sum_with_at (f g : nat → nat) l v k :
  NoDup l → v ∈ l → f v = g v + k → (∀ x, x ≠ v → f x = g x) →
  sum_list_with f l = sum_list_with g l + k.
Proof.
  intros Hnd Hv Hfv Hne. assert (∀ l, v ∉ l → sum_list_with f l = sum_list_with g l) as Hsame.
  { induction l0 as [|x l0 IH]; [done|]. rewrite not_elem_of_cons. intros [??].
    simpl. rewrite IH, Hne; auto. }
  induction Hnd as [|x l Hx Hnd IH]; [by apply elem_of_nil in Hv|]. simpl.
  destruct (decide (x = v)) as [->|].
  - rewrite Hfv, Hsame by done. lia.
  - apply elem_of_cons in Hv as [->|Hv]; [done|]. rewrite IH, Hne by done. lia.
Qed.

Lemma sum_with_ext {A} (f g : A → nat) l :
  (∀ x, x ∈ l → f x = g x) → sum_list_with f l = sum_list_with g l.
Proof.
  induction l as [|x l IH]; [done|]. intros H. simpl.
  rewrite IH, (H x); [done|by left|]. intros y Hy. apply H. by right.
Qed.

Lemma sum_with_seq {A} `{Inhabited A} (f : A → nat) (l : list A) :
  sum_list_with (λ x, f (l !!! x)) (seq 0 (length l)) = sum_list_with f l.
Proof.
  induction l as [|a l IH]; [done|].
  assert (∀ l0, sum_list_with (λ x, f ((a :: l) !!! x)) (S <$> l0)
                = sum_list_with (λ x, f (l !!! x)) l0) as Hs.
  { induction l0 as [|x l0 IH0]; [done|]. rewrite fmap_cons. cbn [sum_list_with]. by rewrite IH0. }
  cbn [length seq sum_list_with]. by rewrite <-fmap_S_seq, Hs, IH.
Qed.

Lemma unseen_le ix : unseen ix ≤ walk_fuel adj.
Proof.
  unfold unseen, walk_fuel. rewrite <-(sum_with_seq (λ succ, length succ + 2) adj).
  induction (seq 0 (length adj)) as [|x l IH]; [done|]. simpl. case_match; lia.
Qed.

Lemma enter_cases s :
  loop_inv s →
  call_stack (enter s) = call_stack s ∧ measure (enter s) ≤ measure s
  ∧ (∀ x, visited s x → visited (enter s) x).
Proof.
  intros (Hinv & _ & Htop). unfold enter in *. destruct (call_stack s) as [|[v [|ci]] cs] eqn:E;
    [done| |done]. destruct (Htop v cs) as [Hv Hnew]; [done|]. split_and!; [done| |].
  - pose proof (inv_len _ Hinv) as (Hlen & _). simpl in Hlen. rewrite length_insert in Hlen.
    unfold measure. simpl. rewrite E.
    assert (unseen (index s) = unseen (<[v := Some (next_index s)]> (index s))
            + (length (adj !!! v) + 2)) as ->.
    { unfold unseen. eapply sum_with_at with (v := v); [apply NoDup_seq|by apply elem_of_seq0| |].
      - rewrite Hnew, list_lookup_total_insert_eq by lia. lia.
      - intros x Hx. by rewrite list_lookup_total_insert_ne by done. }
    simpl. rewrite Hnew, list_lookup_total_insert_eq by lia.
    assert (open_cost (<[v := Some (next_index s)]> (index s)) cs = open_cost (index s) cs) as ->.
    + apply sum_with_ext. intros f Hf. rewrite list_lookup_total_insert_ne; [done|]. intros Hvf.
      pose proof (inv_frames_sorted _ Hinv) as Hsort. unfold frames in Hsort. simpl in Hsort.
      inversion Hsort as [|?? _ Hfa]; subst.
      rewrite Forall_forall in Hfa. specialize (Hfa f.1 (list_elem_of_fmap_2 _ _ _ Hf)). lia.
    + lia.
  - intros x [k Hx]. unfold visited. simpl. rewrite list_lookup_total_insert_ne; [by eexists|].
    intros <-. congruence.
Qed.

(** A push: the new top frame is entered by the next iteration. *)
Lemma push_ok e v ci w cs :
  walk_inv e → call_stack e = (v, ci) :: cs → (adj !!! v) !! ci = Some w →
  index e !!! w = None → graph_ok → walk_inv (opened e w ((v, S ci) :: cs)).
Proof.
  intros Hinv Hcall Hedge Hnew Hg.
  assert (edge v w) as Hvw by (by eapply list_elem_of_lookup_2).
  assert (frames e = v :: cs.*1) as Hfr by (unfold frames; by rewrite Hcall).
  assert (v ∈ frames e) as Hvf by (rewrite Hfr; by left).
  apply opened_inv; [done|by apply (Hg v)|done|by rewrite Hfr| | |].
  - intros f [->|Hf]%elem_of_cons; [by eapply lookup_lt_Some|].
    apply (inv_frames e Hinv). rewrite Hcall. by right.
  - intros u Hu. transitivity v; [|by apply rtc_once].
    apply (inv_down e Hinv u v Hu); [by apply frame_in_scc_stack|].
    apply (owner_top e v (cs.*1) v Hinv Hfr (le_n _)); [done|].
    pose proof (inv_frames_sorted e Hinv) as Hsort. rewrite Hfr in Hsort, Hu.
    inversion Hsort as [|?? _ Hfa]; subst. rewrite Forall_forall in Hfa.
    apply elem_of_cons in Hu as [->|Hu]; [done|]. specialize (Hfa u Hu). lia.
  - intros x y Hx (i & Hi & Hlt).
    assert (followed e x y ∨ (x = v ∧ y = w)) as [?|[-> ->]]; [|by left|by right].
    apply (follow_followed e v ci w 0 cs Hcall Hedge). exists i. split; [done|].
    intros c Hc. apply Hlt. by right.
Qed.

Lemma leave_ok e v ci cs :
  walk_inv e → call_stack e = (v, ci) :: cs → (adj !!! v) !! ci = None → graph_ok →
  ∃ s', advance adj e = Some s' ∧ walk_inv s' ∧ index s' = index e ∧ call_stack s' = cs.
Proof.
  intros Hinv Hcall Hend Hg. unfold advance. rewrite Hcall, Hend.
  change (match cs with
          | [] => lowlink e
          | (parent, _) :: _ => <[parent:=lowlink e !!! parent `min` lowlink e !!! v]> (lowlink e)
          end) with (left_low e v cs).
  assert (v ∈ scc_stack e) as Hvs by (by eapply leave_v_stack).
  assert (index e !!! v = Some (num e v)) as ->.
  { assert (visited e v) as [k Hk].
    { apply (inv_vis e Hinv); [apply (inv_lt e Hinv)|]; by left. }
    unfold num. by rewrite Hk. }
  case_bool_decide as Hroot.
  - injection Hroot as Hroot. destruct (pop_component_ok v (scc_stack e) Hvs) as (pre & rest & -> & Hsp).
    eexists. split; [done|]. split; [|done]. by apply (left_closed_inv e v ci cs).
  - eexists. split; [done|]. split; [|done]. apply (left_open_inv e v ci cs); [done..|congruence].
Qed.

(** One iteration succeeds, keeps the invariant and has less left to do. *)
Lemma loop_step s v ci cs :
  graph_ok → loop_inv s → call_stack s = (v, ci) :: cs →
  ∃ s', advance adj (enter s) = Some s' ∧ loop_inv s' ∧ measure s' < measure s
        ∧ visited s' v ∧ ∀ x, visited s x → visited s' x.
Proof.
  intros Hg Hloop E. pose proof (enter_cases s Hloop) as (Hcall & Hmeas & Hmono).
  destruct Hloop as (Hinv & Htail & _). rewrite E in Hcall, Htail. simpl in Htail. clear E.
  remember (enter s) as e eqn:He. clear He. rename Hcall into E.
  assert (visited e v) as [k Hk].
  { apply (inv_vis e Hinv); [apply (inv_lt e Hinv)|]; left; apply frame_in_scc_stack;
      (done || (unfold frames; rewrite E; by left)). }
  assert (open_cost (index e) (call_stack e)
          = S (length (adj !!! v) - ci) + open_cost (index e) cs) as Hcost.
  { rewrite E. simpl. by rewrite Hk. }
  destruct ((adj !!! v) !! ci) as [w|] eqn:Hedge.
  - pose proof (lookup_lt_Some _ _ _ Hedge) as Hlt. unfold advance. rewrite E, Hedge.
    destruct (index e !!! w) as [iw|] eqn:Hw; eexists; (split; [done|]).
    + pose proof (follow_inv e v ci w iw cs Hinv E Hedge Hw Hg) as Hinv'.
      split_and!; [|unfold measure in *; simpl; rewrite Hk; lia|by exists k|done].
      split_and!; [exact Hinv'|exact Htail|done].
    + split_and!; [|unfold measure in *; simpl; rewrite Hk, Hw; lia|by exists k|done].
      split_and!; [exact (push_ok e v ci w cs Hinv E Hedge Hw Hg)| |].
      { intros f [->|?]%elem_of_cons; [simpl; lia|by apply Htail]. }
      intros ?? [= <- _]. split; [|done]. apply (Hg v). by eapply list_elem_of_lookup_2.
  - destruct (leave_ok e v ci cs Hinv E Hedge Hg) as (s' & -> & Hinv' & Hix & Hcs).
    assert (∀ u l, cs ≠ (u, 0) :: l) as Hpos.
    { intros u l ->. specialize (Htail (u, 0) ltac:(by left)). simpl in Htail. lia. }
    eexists. split; [done|]. split_and!.
    + assert (enter s' = s') as Hid.
      { unfold enter. rewrite Hcs. destruct cs as [|[u [|c]] l]; [done| |done]. by destruct (Hpos u l). }
      split_and!; [by rewrite Hid| |].
      * rewrite Hcs. intros f Hf. apply Htail. destruct cs; [done|by right].
      * rewrite Hcs. intros u l Hc. by destruct (Hpos u l).
    + unfold measure in *. rewrite Hix, Hcs. lia.
    + exists k. by rewrite Hix.
    + intros x Hx%Hmono. unfold visited. by rewrite Hix.
Qed.

Lemma loop_end s : loop_inv s → call_stack s = [] → walk_inv s.
Proof. intros (Hinv & _) E. unfold enter in Hinv. by rewrite E in Hinv. Qed.

Lemma walk_ok fuel s :
  graph_ok → loop_inv s → measure s ≤ fuel →
  ∃ s', walk adj fuel s = Some s' ∧ walk_inv s' ∧ call_stack s' = []
        ∧ (∀ x, visited s x → visited s' x)
        ∧ ∀ v ci cs, call_stack s = (v, ci) :: cs → visited s' v.
Proof.
  intros Hg. revert s. induction fuel as [|fuel IH]; intros s Hloop Hm; simpl;
    destruct (call_stack s) as [|[v ci] cs] eqn:E.
  1,3: by exists s; split_and!; [done|by apply loop_end|done..].
  - destruct (loop_step s v ci cs Hg Hloop E) as (s' & _ & _ & Hlt & _). lia.
  - destruct (loop_step s v ci cs Hg Hloop E) as (s1 & -> & Hloop1 & Hlt & Htop & Hmono1).
    destruct (IH s1 Hloop1) as (s' & Hw & Hinv & Hc & Hmono & _); [lia|].
    exists s'. split_and!; [done..|auto|]. intros ??? [= <- _ _]. by apply Hmono.
Qed.

Lemma visit_root_ok s root :
  graph_ok → root < length adj → walk_inv s → call_stack s = [] →
  ∃ s', visit_root adj s root = Some s' ∧ walk_inv s' ∧ call_stack s' = []
        ∧ visited s' root ∧ ∀ x, visited s x → visited s' x.
Proof.
  intros Hg Hr Hinv Hc. unfold visit_root. destruct (index s !!! root) as [k|] eqn:E.
  { exists s. by split_and!; [..|exists k|]. }
  assert (frames s = []) as Hfr by (unfold frames; by rewrite Hc).
  assert (scc_stack s = []) as Hst.
  { destruct (scc_stack s) as [|x l] eqn:Es; [done|].
    destruct (inv_bottom s Hinv x) as (b & Hb & _); [rewrite Es; by left|]. by rewrite Hfr in Hb. }
  set (s0 := mkTarjan _ _ _ _ _ _ _).
  assert (loop_inv s0) as Hloop.
  { split_and!; [|by intros f ?%elem_of_nil|by intros ?? [= <- _]].
    apply (opened_inv s root []); [done..| | | |].
    - by rewrite Hfr.
    - by intros f ?%elem_of_nil.
    - rewrite Hfr. by intros ? ?%elem_of_nil.
    - rewrite Hst. by intros ?? ?%elem_of_nil. }
  destruct (walk_ok (walk_fuel adj) s0 Hg Hloop) as (s' & Hw & ? & ? & Hmono & Htop).
  { unfold measure. subst s0. simpl. rewrite E. pose proof (unseen_le (index s)). lia. }
  exists s'. split_and!; [done..| |done]. by apply (Htop root 0 []).
Qed.

Lemma visit_roots_ok roots s :
  graph_ok → Forall (λ r, r < length adj) roots → walk_inv s → call_stack s = [] →
  ∃ s', visit_roots adj roots s = Some s' ∧ walk_inv s' ∧ call_stack s' = []
        ∧ ∀ x, visited s x ∨ x ∈ roots → visited s' x.
Proof.
  intros Hg. revert s. induction roots as [|root roots IH]; intros s Hr Hinv Hc; simpl.
  { exists s. split_and!; [done..|]. by intros x [?|?%elem_of_nil]. }
  apply Forall_cons in Hr as [Hr Hrs].
  destruct (visit_root_ok s root) as (s1 & -> & Hinv1 & Hc1 & Hv1 & Hm1); [done..|].
  destruct (IH s1 Hrs Hinv1 Hc1) as (s' & Hw & Hinv' & Hc' & Hm').
  exists s'. split_and!; [done..|]. intros x. rewrite elem_of_cons.
  intros [?|[->|?]]; apply Hm'; auto.
Qed.

Lemma init_inv : walk_inv (tarjan_init adj).
Proof.
  unfold tarjan_init. split; simpl.
  - by rewrite !length_replicate.
  - intros x Hx. split; [|intros [?%elem_of_nil|?%elem_of_nil]; done].
    unfold visited. simpl. rewrite list_lookup_total_alt, lookup_replicate_2 by done. by intros [].
  - by intros x [?%elem_of_nil|?%elem_of_nil].
  - constructor.
  - intros x Hx. rewrite list_lookup_total_alt, lookup_replicate_2 by done.
    split; [done|by intros ?%elem_of_nil].
  - constructor.
  - intros x [k Hk]. simpl in Hk. exfalso. destruct (decide (x < length adj)).
    + rewrite list_lookup_total_alt, lookup_replicate_2 in Hk by done. done.
    + rewrite list_lookup_total_alt, lookup_ge_None_2 in Hk by (rewrite length_replicate; lia). done.
  - by intros c ?%elem_of_nil.
  - by intros c u w ?%elem_of_nil.
  - by intros x w ?%elem_of_nil.
  - constructor.
  - by intros f ?%elem_of_nil.
  - by intros x ?%elem_of_nil.
  - by intros x w ?%elem_of_nil.
  - by intros v ?%elem_of_nil.
  - by intros x w v ?%elem_of_nil.
  - by intros v x ?%elem_of_nil.
  - by intros x ?%elem_of_nil.
Qed.

Lemma tarjan_components :
  graph_ok →
  ∃ comps, tarjan_scc adj = Some comps
    ∧ NoDup (mjoin comps) ∧ (∀ x, x ∈ mjoin comps ↔ x < length adj)
    ∧ ∀ c, c ∈ comps → c ≠ [] ∧ ∀ u w, u ∈ c → w ∈ c ↔ mutual u w.
Proof.
  intros Hg. unfold tarjan_scc.
  destruct (visit_roots_ok (seq 0 (length adj)) (tarjan_init adj)) as (s & -> & Hinv & Hc & Hv);
    [done| |apply init_inv|done|].
  { apply Forall_forall. intros x. by rewrite elem_of_seq0. }
  assert (scc_stack s = []) as Hst.
  { destruct (scc_stack s) as [|x l] eqn:Es; [done|].
    destruct (inv_bottom s Hinv x) as (b & Hb & _); [rewrite Es; by left|].
    unfold frames in Hb. by rewrite Hc in Hb. }
  pose proof (inv_nodup s Hinv) as Hnd. rewrite Hst in Hnd.
  exists (sccs s). split_and!; [done|exact Hnd| |].
  - intros x. split.
    + intros Hx. apply (inv_lt s Hinv). by right.
    + intros Hx. assert (visited s x) as Hvx by (apply Hv; right; by apply elem_of_seq0).
      apply (inv_vis s Hinv) in Hvx as [Hvx|?]; [|done..]. rewrite Hst in Hvx. by apply elem_of_nil in Hvx.
  - intros c Hcs. split; [by apply (inv_nonempty s Hinv)|]. intros u w. by apply (inv_sccs s Hinv).
Qed.
End TarjanProof.

(** C2: The iterative Tarjan walk is total and exact: on a graph whose successors
    are in range it ends without a panic within its fuel, and its components
    partition the nodes into the classes of mutual reachability. *)
Theorem tarjan_scc_ok adj :
  graph_ok adj →
  ∃ comps, tarjan_scc adj = Some comps
    ∧ NoDup (mjoin comps) ∧ (∀ x, x ∈ mjoin comps ↔ x < length adj)
    ∧ ∀ c, c ∈ comps → c ≠ [] ∧ ∀ u w, u ∈ c → w ∈ c ↔ mutual adj u w.
Proof. apply tarjan_components. Qed.

Lemma tarjan_scc_ok_witness :
  ∃ comps, tarjan_scc [[1]; [2]; [0; 3]; [4]; [3]; [0]] = Some comps
           ∧ [4; 3] ∈ comps ∧ NoDup (mjoin comps).
Proof.
  destruct (tarjan_scc_ok [[1]; [2]; [0; 3]; [4]; [3]; [0]]) as (comps & Hc & Hnd & _).
  - intros u w. do 6 (destruct u as [|u]; [vm_compute; set_unfold; lia|]).
    unfold edge. simpl. by intros ?%elem_of_nil.
  - exists comps. split; [done|]. split; [|done].
    rewrite tarjan_two_components in Hc. injection Hc as <-. by left.
Defined.
