(* ===== verification/Cycles.v ===== *)
(** * Circular imports ([graph/cycles.rs])

    [find_cycles]: the kept import edges become a graph over dense indices, its
    strongly connected components come from [tarjan_scc], and each component of
    two files or more is shown with a shortest loop. *)

From S2P Require Import Prelude Str Tarjan.

(** ** The shortest loop of a component *)

Section ShortestCycle.
Context (adj : list (list nat)) (in_scc : gset nat) (start : nat).

Record Bfs := mkBfs {
  dist : gmap nat nat;
  parent : gmap nat nat;
  queue : list nat;
}.

(** [for &w in &adj[u]] *)
Fixpoint relax (u du : nat) (ws : list nat) (s : Bfs) : Bfs :=
  match ws with
  | [] => s
  | w :: ws' =>
      if bool_decide (w = start ∨ w ∉ in_scc ∨ is_Some (dist s !! w)) then relax u du ws' s
      else relax u du ws'
             (mkBfs (<[w := S du]> (dist s)) (<[w := u]> (parent s)) (queue s ++ [w]))
  end.

(** [while let Some(u) = queue.pop_front()]; [None] is [dist]'s panic on an
    unknown node, or a loop that ran out of fuel. *)
Fixpoint bfs (fuel : nat) (s : Bfs) : option Bfs :=
  match queue s with
  | [] => Some s
  | u :: queue' =>
      match fuel with
      | 0 => None
      | S fuel' =>
          du ← dist s !! u;
          bfs fuel' (relax u du (adj !!! u) (mkBfs (dist s) (parent s) queue'))
      end
  end.

(** [(dist[&b], b) <= (d, node)] *)
Definition closer (a b : nat * nat) : bool :=
  (a.1 <? b.1) || ((a.1 =? b.1) && (a.2 <=? b.2)).

(** [for (&node, &d) in &dist].  [adj]'s rows are sorted, where [binary_search]
    finds a value exactly when it is there. *)
Definition better (dist : gmap nat nat) (best : option nat) (entry : nat * nat) : option nat :=
  let '(node, d) := entry in
  if bool_decide (node ≠ start ∧ start ∈ adj !!! node) then
    Some (match best with
          | Some b => if closer (dist !!! b, b) (d, node) then b else node
          | None => node
          end)
  else best.
Definition best_node (dist : gmap nat nat) : option nat :=
  foldl (better dist) None (map_to_list dist).

(** [while u != start { u = parent[&u]; rev.push(u); }] after [rev = vec![u]],
    reversed. *)
Fixpoint unwind (fuel : nat) (parent : gmap nat nat) (u : nat) (path : list nat)
    : option (list nat) :=
  if bool_decide (u = start) then Some (u :: path)
  else
    match fuel with
    | 0 => None
    | S fuel' => p ← parent !! u; unwind fuel' parent p (u :: path)
    end.

Definition shortest_cycle : option (list nat) :=
  s ← bfs (S (size in_scc)) (mkBfs {[start := 0]} ∅ [start]);
  match best_node (dist s) with
  | None => Some []
  | Some u => path ← unwind (size in_scc) (parent s) u []; Some (path ++ [start])
  end.
End ShortestCycle.

(** ** [find_cycles] *)

Record DependencyCycle := mkCycle {
  files : list string;
  path : list string;
  size_ : nat;
}.

Definition headline (c : DependencyCycle) : string :=
  let loop_files := length (path c) - 1 in
  let arrows := join " → " (path c) in
  if size_ c <=? loop_files then dec_of_nat (size_ c) +:+ "-file cycle: " +:+ arrows
  else dec_of_nat (size_ c) +:+ "-file cyclic group (shortest loop: " +:+ arrows +:+ ")".

Definition is_rust_intra_crate_edge (from to : string) : bool :=
  ends_with ".rs" from && ends_with ".rs" to.

(** The edges both loops of [find_cycles] keep. *)
Definition kept_edge (e : string * string) : bool :=
  negb (String.eqb e.1 e.2 || is_rust_intra_crate_edge e.1 e.2).
Definition kept_edges (edges : list (string * string)) : list (string * string) :=
  filter (λ e, kept_edge e = true) edges.

(** The [BTreeSet] of names, in its order. *)
Definition node_names (edges : list (string * string)) : list string :=
  let names_set : gset string := list_to_set (e ← kept_edges edges; [e.1; e.2]) in
  sort_by str_leb (elements names_set).

(** [index_of[name]] *)
Definition index_of (names : list string) (name : string) : nat :=
  default 0 (fst <$> list_find (λ n, n = name) names).

Definition add_edge (names : list string) (adj : list (list nat)) (e : string * string)
    : list (list nat) :=
  alter (λ succ, succ ++ [index_of names e.2]) (index_of names e.1) adj.

Definition adjacency (names : list string) (edges : list (string * string)) : list (list nat) :=
  let adj := foldl (add_edge names) (replicate (length names) []) (kept_edges edges) in
  (λ succ, vec_dedup (sort_by Nat.leb succ)) <$> adj.

Definition cycle_of (names : list string) (adj : list (list nat)) (comp : list nat)
    : option DependencyCycle :=
  let comp := sort_by Nat.leb comp in
  start ← head comp;
  path ← shortest_cycle adj (list_to_set comp) start;
  Some (mkCycle ((names !!!.) <$> comp) ((names !!!.) <$> path) (length comp)).

Definition cycle_cmp : DependencyCycle → DependencyCycle → comparison :=
  cmp_then (cmp_rev (cmp_by size_ Nat.compare))
    (cmp_by (λ c, default "" (head (files c))) String.compare).

Definition find_cycles (edges : list (string * string)) : option (list DependencyCycle) :=
  let names := node_names edges in
  if bool_decide (length names = 0) then Some []
  else
    let adj := adjacency names edges in
    comps ← tarjan_scc adj;
    cycles ← mapM (cycle_of names adj) (filter (λ comp, 2 ≤ length comp) comps);
    Some (sort_cmp cycle_cmp cycles).

Example find_cycles_example :
  option_map (map headline)
    (find_cycles [("b.py", "a.py"); ("a.py", "c.py"); ("c.py", "b.py"); ("a.py", "b.py");
                   ("x.rs", "y.rs"); ("y.rs", "x.rs"); ("d.py", "a.py")])
  = Some ["3-file cyclic group (shortest loop: a.py → b.py → a.py)"].
Proof. by vm_compute. Qed.

(** ** Correctness of the shortest loop *)

(** [l] continues a walk that is at [u]. *)
Fixpoint follows {A} (R : A → A → Prop) (u : A) (l : list A) : Prop :=
  match l with [] => True | w :: l' => R u w ∧ follows R w l' end.

Lemma default_last_cons {A} (u w : A) l : default u (last (w :: l)) = default w (last l).
Proof.
  destruct l as [|w' l]; [done|]. rewrite last_cons_cons.
  destruct (last (w' :: l)) eqn:E; [done|by apply last_None in E].
Qed.

Lemma follows_app {A} (R : A → A → Prop) u l1 l2 :
  follows R u (l1 ++ l2) ↔ follows R u l1 ∧ follows R (default u (last l1)) l2.
Proof.
  revert u. induction l1 as [|w l1 IH]; intros u; [simpl; tauto|].
  rewrite default_last_cons. simpl. rewrite IH. tauto.
Qed.

Lemma sorted_trivial {A} (l : list A) : StronglySorted (λ _ _, True) l.
Proof. induction l; constructor; [done|]. by apply Forall_forall. Qed.

Section ShortestProof.
Context (adj : list (list nat)) (in_scc : gset nat) (start : nat).

(** A step of the search: inside the component, never back to [start]. *)
Definition inner (u w : nat) : Prop := edge adj u w ∧ w ≠ start ∧ w ∈ in_scc.

Definition dist_of (s : Bfs) (x : nat) : nat := default 0 (dist s !! x).

Record bfs_inv (s : Bfs) : Prop := {
  b_start : dist s !! start = Some 0;
  b_sound x d : dist s !! x = Some d →
    (x = start ∧ d = 0)
    ∨ ∃ p dp, parent s !! x = Some p ∧ dist s !! p = Some dp ∧ d = S dp ∧ inner p x;
  b_queue x : x ∈ queue s → is_Some (dist s !! x);
  b_sorted : StronglySorted (λ x y, dist_of s x ≤ dist_of s y) (queue s);
  b_bound h q x d : queue s = h :: q → dist s !! x = Some d → d ≤ S (dist_of s h);
  b_done x w : is_Some (dist s !! x) → x ∉ queue s → inner x w →
    ∃ dw, dist s !! w = Some dw ∧ dw ≤ S (dist_of s x);
}.

Lemma relax_ok u du ws s :
  let s' := relax in_scc start u du ws s in
  ∃ added, queue s' = queue s ++ added
    ∧ (∀ x, x ∈ added ↔ x ∈ ws ∧ x ≠ start ∧ x ∈ in_scc ∧ dist s !! x = None)
    ∧ NoDup added
    ∧ (∀ x, dist s' !! x = if bool_decide (x ∈ added) then Some (S du) else dist s !! x)
    ∧ (∀ x, parent s' !! x = if bool_decide (x ∈ added) then Some u else parent s !! x).
Proof.
  revert s. induction ws as [|w ws IH]; intros s; simpl.
  { exists []. rewrite app_nil_r. split_and!; [done| |constructor|done..].
    intros x. rewrite !elem_of_nil. tauto. }
  case_bool_decide as Hw.
  - destruct (IH s) as (added & Hq & Hadd & Hrest). exists added. split; [done|]. split; [|done].
    intros x. rewrite Hadd, elem_of_cons. split; [tauto|]. intros ([->|?] & Hx1 & Hx2 & Hx3); [|tauto].
    destruct Hw as [?|[?|[k Hk]]]; [done..|]. congruence.
  - destruct (IH (mkBfs (<[w:=S du]> (dist s)) (<[w:=u]> (parent s)) (queue s ++ [w])))
      as (added & Hq & Hadd & Hnd & Hd & Hp). simpl in *.
    assert (w ≠ start ∧ w ∈ in_scc ∧ dist s !! w = None) as (Hws & Hwi & Hwd).
    { rewrite eq_None_not_Some. split_and!; [tauto| |tauto].
      destruct (decide (w ∈ in_scc)); [done|tauto]. }
    assert (w ∉ added) as Hwa by (rewrite Hadd, lookup_insert_eq; by intros (_ & _ & _ & ?)).
    exists (w :: added). split_and!; [by rewrite Hq, <-app_assoc| |by constructor| |].
    + intros x. rewrite !elem_of_cons, Hadd. destruct (decide (x = w)) as [->|Hne].
      * split; [|by left]. intros _. split_and!; [by left|done..].
      * rewrite lookup_insert_ne by done. split; [intros [?|?]; tauto|].
        intros ([?|?] & ?); [done|]. tauto.
    + intros x. rewrite Hd. destruct (decide (x = w)) as [->|Hne].
      * rewrite bool_decide_false, bool_decide_true, lookup_insert_eq by (done || by left). done.
      * rewrite lookup_insert_ne by done. rewrite (bool_decide_ext (x ∈ w :: added) (x ∈ added));
          [done|]. rewrite elem_of_cons. naive_solver.
    + intros x. rewrite Hp. destruct (decide (x = w)) as [->|Hne].
      * rewrite bool_decide_false, bool_decide_true, lookup_insert_eq by (done || by left). done.
      * rewrite lookup_insert_ne by done. rewrite (bool_decide_ext (x ∈ w :: added) (x ∈ added));
          [done|]. rewrite elem_of_cons. naive_solver.
Qed.

Definition bfs_measure (s : Bfs) : nat := length (queue s) + size (in_scc ∖ dom (dist s)).

(** What relaxing the successors of the head [u] does to the distances. *)
Record relaxed (s : Bfs) (u du : nat) (q added : list nat) (s' : Bfs) : Prop := mkRelaxed {
  rx_queue : queue s' = q ++ added;
  rx_added x : x ∈ added ↔ x ∈ adj !!! u ∧ x ≠ start ∧ x ∈ in_scc ∧ dist s !! x = None;
  rx_nodup : NoDup added;
  rx_old x d : dist s !! x = Some d → dist s' !! x = Some d;
  rx_new x : x ∈ added → dist s' !! x = Some (S du);
  rx_case x d : dist s' !! x = Some d → (x ∈ added ∧ d = S du) ∨ (x ∉ added ∧ dist s !! x = Some d);
  rx_parent x : parent s' !! x = if bool_decide (x ∈ added) then Some u else parent s !! x;
}.

Lemma relaxed_of s u du q :
  ∃ added, relaxed s u du q added (relax in_scc start u du (adj !!! u) (mkBfs (dist s) (parent s) q)).
Proof.
  destruct (relax_ok u du (adj !!! u) (mkBfs (dist s) (parent s) q)) as (added & Hq' & Hadd & Hnd & Hd & Hp).
  exists added. simpl in Hq', Hadd, Hd, Hp. split; try done.
  - intros x d Hx. rewrite Hd, bool_decide_false; [done|]. rewrite Hadd. intros (_ & _ & _ & ?). congruence.
  - intros x Hx. by rewrite Hd, bool_decide_true.
  - intros x d. rewrite Hd. case_bool_decide; [intros [= <-]; by left|by right].
Qed.

Lemma relaxed_dist_of s u du q added s' x : relaxed s u du q added s' → is_Some (dist s !! x) → dist_of s' x = dist_of s x.
Proof. intros Hr [d Hx]. unfold dist_of. by rewrite (rx_old _ _ _ _ _ _ Hr _ _ Hx), Hx. Qed.

(** The rest of the queue is at the head's distance or one further. *)
Lemma frontier s u du q x :
  bfs_inv s → queue s = u :: q → dist s !! u = Some du → x ∈ q → is_Some (dist s !! x) ∧ du ≤ dist_of s x ≤ S du.
Proof.
  intros Hinv Hq Hu Hx. destruct (b_queue s Hinv x) as [d Hxd]; [rewrite Hq; by right|].
  pose proof (b_sorted s Hinv) as Hs. rewrite Hq in Hs. inversion Hs as [|?? _ Hf]; subst.
  rewrite Forall_forall in Hf. specialize (Hf x Hx).
  pose proof (b_bound s Hinv u q x d Hq Hxd). unfold dist_of in *. rewrite Hxd, Hu in *. simpl in *.
  split; [by eexists|]. lia.
Qed.

Lemma relaxed_sorted s u du q added s' :
  bfs_inv s → queue s = u :: q → dist s !! u = Some du → relaxed s u du q added s' →
  StronglySorted (λ x y, dist_of s' x ≤ dist_of s' y) (queue s').
Proof.
  intros Hinv Hq Hu Hr. pose proof (rx_new _ _ _ _ _ _ Hr) as Hnew. rewrite (rx_queue _ _ _ _ _ _ Hr).
  assert (∀ x, x ∈ q → dist_of s' x = dist_of s x) as Hof.
  { intros x Hx. apply (relaxed_dist_of _ _ _ _ _ _ _ Hr). by eapply frontier. }
  pose proof (b_sorted s Hinv) as Hs. rewrite Hq in Hs.
  inversion Hs as [|?? Hs' _]; subst. apply StronglySorted_app. split_and!.
  - intros x y Hx Hy. destruct (frontier s u du q x Hinv Hq Hu Hx) as [_ ?]. rewrite Hof by done.
    unfold dist_of at 2. rewrite Hnew by done. simpl. lia.
  - rewrite <-(list_fmap_id q). eapply (StronglySorted_fmap_on _ _ id); [|exact Hs'].
    intros x y Hx Hy. simpl. by rewrite !Hof.
  - rewrite <-(list_fmap_id added).
    eapply (StronglySorted_fmap_on (λ _ _, True) _ id); [|by apply sorted_trivial].
    intros x y Hx Hy _. unfold dist_of. simpl. by rewrite !Hnew by done.
Qed.

Lemma relaxed_smaller s u du q added s' :
  queue s = u :: q → relaxed s u du q added s' → bfs_measure s' < bfs_measure s.
Proof.
  intros Hq [Hq' Hadd Hnd Hold Hnew Hcase _]. unfold bfs_measure. rewrite Hq, Hq', length_app. simpl.
  assert (in_scc ∖ dom (dist s) = (in_scc ∖ dom (dist s')) ∪ list_to_set added) as ->.
  { apply set_eq. intros x. rewrite elem_of_union, !elem_of_difference, elem_of_list_to_set, !not_elem_of_dom.
    destruct (dist s' !! x) as [d|] eqn:Hx.
    - apply Hcase in Hx as [[Hx _]|[Hx Hd]]; [pose proof (proj1 (Hadd x) Hx)|]; naive_solver.
    - destruct (dist s !! x) as [d|] eqn:Hd; [apply Hold in Hd; congruence|].
      split; [tauto|]. intros [?|Hxa]; [tauto|]. rewrite (Hnew x Hxa) in Hx. done. }
  assert (in_scc ∖ dom (dist s') ## list_to_set added) as Hdisj.
  { apply elem_of_disjoint. intros x.
    rewrite elem_of_difference, not_elem_of_dom, elem_of_list_to_set. intros [_ Hx] Hxa.
    by rewrite (Hnew x Hxa) in Hx. }
  rewrite (fin_sets.size_union _ _ Hdisj), (fin_sets.size_list_to_set (C := gset nat)) by done.
  lia.
Qed.

Lemma search_step s u du q :
  bfs_inv s → queue s = u :: q → dist s !! u = Some du →
  let s' := relax in_scc start u du (adj !!! u) (mkBfs (dist s) (parent s) q) in
  bfs_inv s' ∧ bfs_measure s' < bfs_measure s.
Proof.
  intros Hinv Hq Hu s'. destruct (relaxed_of s u du q) as [added Hr]. fold s' in Hr.
  split; [|by eapply relaxed_smaller].
  assert (∀ x, is_Some (dist s !! x) → dist_of s' x = dist_of s x) as Hof by (intros x; by eapply relaxed_dist_of).
  assert (dist_of s u = du) as Hdu by (unfold dist_of; by rewrite Hu).
  pose proof (λ x, frontier s u du q x Hinv Hq Hu) as Hqb.
  pose proof Hr as [Hq' Hadd _ Hold Hnew Hcase Hp]. split.
  - by apply Hold, b_start.
  - intros x d [[Hx ->]|[Hx Hxd]]%Hcase.
    + right. exists u, du. split_and!; [by rewrite Hp, bool_decide_true|by apply Hold|done|].
      apply Hadd in Hx as (? & ? & ? & _). done.
    + destruct (b_sound s Hinv x d Hxd) as [?|(p & dp & Hpx & Hdp & ? & ?)]; [by left|right].
      exists p, dp. split_and!; [by rewrite Hp, bool_decide_false|by apply Hold|done..].
  - intros x. rewrite Hq'. intros [[[d Hx] _]%Hqb|Hx]%elem_of_app; [exists d; by apply Hold|].
    exists (S du). by apply Hnew.
  - by eapply relaxed_sorted.
  - intros h q' x d. rewrite Hq'. intros Happ Hx.
    assert (d ≤ S du) as Hle.
    { apply Hcase in Hx as [[_ ->]|[_ Hxd]]; [done|].
      pose proof (b_bound s Hinv u q x d Hq Hxd). lia. }
    assert (h ∈ q ++ added) as [Hh|Hh]%elem_of_app by (rewrite Happ; by left).
    + destruct (Hqb h Hh) as [Hhs ?]. rewrite Hof by done. lia.
    + unfold dist_of. rewrite Hnew by done. simpl. lia.
  - intros x w [d Hx] Hnq Hin. rewrite Hq', not_elem_of_app in Hnq. destruct Hnq as [Hxq Hxa].
    apply Hcase in Hx as [[? _]|[_ Hxd]]; [done|].
    rewrite Hof by (by eexists).
    destruct (decide (x = u)) as [->|Hxu].
    + rewrite Hdu. destruct (dist s !! w) as [dw|] eqn:Hw.
      * exists dw. split; [by apply Hold|]. pose proof (b_bound s Hinv u q w dw Hq Hw). lia.
      * exists (S du). split; [|done]. apply Hnew, Hadd. by destruct Hin as (? & ? & ?).
    + destruct (b_done s Hinv x w) as (dw & Hw & Hle); [by eexists| |done|].
      * rewrite Hq. by intros [?|?]%elem_of_cons.
      * exists dw. split; [by apply Hold|done].
Qed.

Lemma search_ok fuel s :
  bfs_inv s → bfs_measure s ≤ fuel →
  ∃ s', bfs adj in_scc start fuel s = Some s' ∧ bfs_inv s' ∧ queue s' = [].
Proof.
  revert s. induction fuel as [|fuel IH]; intros s Hinv Hm; simpl;
    destruct (queue s) as [|u q] eqn:Hq.
  1,3: by exists s.
  - unfold bfs_measure in Hm. rewrite Hq in Hm. simpl in Hm. lia.
  - destruct (b_queue s Hinv u) as [du Hu]; [rewrite Hq; by left|]. rewrite Hu. cbn [mbind option_bind].
    destruct (search_step s u du q Hinv Hq Hu) as [Hinv' Hlt]. apply IH; [done|lia].
Qed.

Lemma bfs_init_inv : bfs_inv (mkBfs {[start := 0]} ∅ [start]).
Proof.
  split; simpl.
  - apply lookup_singleton_eq.
  - intros x d [<- <-]%lookup_singleton_Some. by left.
  - intros x ->%list_elem_of_singleton. rewrite lookup_singleton_eq. by eexists.
  - by repeat constructor.
  - intros h q x d _ [_ <-]%lookup_singleton_Some. lia.
  - intros x w [d [<- _]%lookup_singleton_Some] Hx. by destruct Hx; left.
Qed.

Section BfsEnd.
Context (s : Bfs) (Hinv : bfs_inv s) (Hempty : queue s = []).

(** [dist] is at most the length of any inner walk. *)
Lemma dist_min u l du :
  dist s !! u = Some du → follows inner u l →
  ∃ d, dist s !! default u (last l) = Some d ∧ d ≤ du + length l.
Proof.
  revert u du. induction l as [|w l IH]; intros u du Hu Hf.
  { exists du. split; [done|simpl; lia]. }
  rewrite default_last_cons. destruct Hf as [Huw Hf].
  destruct (b_done s Hinv u w) as (dw & Hw & Hle); [by eexists| |done|].
  { rewrite Hempty. by intros ?%elem_of_nil. }
  unfold dist_of in Hle. rewrite Hu in Hle. simpl in Hle.
  destruct (IH w dw Hw Hf) as (d & Hd & ?). exists d. split; [done|simpl; lia].
Qed.

(** The parents of a node spell an inner walk of length [dist]. *)
Lemma unwind_ok d u fuel path :
  dist s !! u = Some d → d ≤ fuel →
  ∃ l, unwind start fuel (parent s) u path = Some (start :: l ++ path)
       ∧ length l = d ∧ follows inner start l ∧ default start (last l) = u.
Proof.
  revert u fuel path. induction d as [|d IH]; intros u fuel path Hu Hle.
  - destruct (b_sound s Hinv u 0 Hu) as [[-> _]|(p & dp & _ & _ & ? & _)]; [|done].
    exists []. split; [|done]. destruct fuel; simpl; by rewrite bool_decide_true.
  - destruct (b_sound s Hinv u (S d) Hu) as [[_ ?]|(p & dp & Hp & Hdp & [= <-] & Hin)]; [done|].
    destruct fuel as [|fuel]; [lia|]. simpl.
    rewrite bool_decide_false by (intros ->; rewrite (b_start s Hinv) in Hu; congruence).
    rewrite Hp. cbn [mbind option_bind].
    destruct (IH p fuel (u :: path) Hdp) as (l & -> & Hlen & Hf & Hlast); [lia|].
    exists (l ++ [u]). rewrite <-app_assoc, length_app, follows_app, Hlast, last_snoc. simpl.
    split_and!; [done|lia|done|done|done|done].
Qed.

(** Distances do not exceed the size of the component. *)
Lemma dist_bound u d : dist s !! u = Some d → d ≤ size in_scc.
Proof.
  intros Hu. assert (∃ l : list nat, NoDup l ∧ length l = d
    ∧ ∀ x, x ∈ l → x ∈ in_scc ∧ ∃ dx, dist s !! x = Some dx ∧ dx ≤ d) as (l & Hnd & <- & Hl).
  - revert u Hu. induction d as [|d IH]; intros u Hu.
    { exists []. split_and!; [constructor|done|]. by intros x ?%elem_of_nil. }
    destruct (b_sound s Hinv u (S d) Hu) as [[_ ?]|(p & dp & Hp & Hdp & [= <-] & Hin)]; [done|].
    destruct (IH p Hdp) as (l & Hnd & Hlen & Hl). exists (u :: l). split_and!.
    + constructor; [|done]. intros Hul. destruct (Hl u Hul) as (_ & dx & Hdx & ?).
      rewrite Hu in Hdx. injection Hdx as <-. lia.
    + simpl. lia.
    + intros x [->|Hx]%elem_of_cons.
      * destruct Hin as (_ & _ & ?). split; [done|]. by exists (S d).
      * destruct (Hl x Hx) as (? & dx & ? & ?). split; [done|]. exists dx. split; [done|lia].
  - rewrite <-(fin_sets.size_list_to_set (C := gset nat) l) by done. apply subseteq_size.
    intros x. rewrite elem_of_list_to_set. by intros [? _]%Hl.
Qed.
End BfsEnd.

(** *** The closing node *)

Lemma closer_spec a b :
  closer a b = true ↔ a.1 < b.1 ∨ (a.1 = b.1 ∧ a.2 ≤ b.2).
Proof.
  unfold closer. rewrite orb_true_iff, andb_true_iff, Nat.ltb_lt, Nat.eqb_eq, Nat.leb_le. done.
Qed.

Definition closing (node : nat) : Prop := node ≠ start ∧ edge adj node start.

(** The fold keeps the least candidate seen so far. *)
Definition best_of (dist : gmap nat nat) (l : list (nat * nat)) (best : option nat) : Prop :=
  match best with
  | Some b => closing b ∧ (b, dist !!! b) ∈ l
              ∧ ∀ x d, (x, d) ∈ l → closing x → closer (dist !!! b, b) (d, x) = true
  | None => ∀ x d, (x, d) ∈ l → ¬ closing x
  end.

Lemma best_fold dist l l0 best :
  (∀ x d, (x, d) ∈ l → dist !!! x = d) →
  best_of dist l0 best → best_of dist (l0 ++ l) (foldl (better adj start dist) best l).
Proof.
  revert l0 best. induction l as [|[x d] l IH]; intros l0 best Hd Hb; simpl.
  { by rewrite app_nil_r. }
  rewrite (cons_middle (x, d) l0 l), app_assoc.
  apply IH; [intros y dy Hy; apply Hd; by right|]. assert (dist !!! x = d) as Hx by (apply Hd; by left).
  assert (∀ y dy, (y, dy) ∈ l0 ++ [(x, d)] ↔ (y, dy) ∈ l0 ∨ (y = x ∧ dy = d)) as Hmem.
  { intros y dy. rewrite elem_of_app, list_elem_of_singleton. naive_solver. }
  case_bool_decide as Hc.
  - assert (closing x) as Hcx by done.
    assert (closer (dist !!! x, x) (d, x) = true) as Hself
      by (apply closer_spec; simpl; right; split; [done|lia]).
    destruct best as [b|]; [destruct Hb as (Hcb & Hbl & Hmin);
      destruct (closer (dist !!! b, b) (d, x)) eqn:E|]; simpl; setoid_rewrite Hmem.
    + split_and!; [done|by left|]. intros y dy [Hy|[-> ->]] Hcy; [by apply Hmin|done].
    + split_and!; [done|by right|]. intros y dy [Hy|[-> ->]] Hcy; [|done].
      specialize (Hmin y dy Hy Hcy). apply closer_spec. apply closer_spec in Hmin.
      apply not_true_iff_false in E. rewrite closer_spec in E. simpl in *. lia.
    + split_and!; [done|by right|]. intros y dy [Hy|[-> ->]] Hcy; [|done].
      by destruct (Hb y dy Hy).
  - destruct best as [b|]; simpl; setoid_rewrite Hmem.
    + destruct Hb as (Hcb & Hbl & Hmin). split_and!; [done|by left|].
      intros y dy [Hy|[-> ->]] Hcy; [by apply Hmin|]. by destruct Hc.
    + intros y dy [Hy|[-> ->]]; [by apply (Hb y dy)|done].
Qed.

Lemma best_node_ok dist : best_of dist (map_to_list dist) (best_node adj start dist).
Proof.
  unfold best_node. apply (best_fold dist (map_to_list dist) [] None).
  - intros x d Hx%elem_of_map_to_list. by rewrite lookup_total_alt, Hx.
  - by intros x d ?%elem_of_nil.
Qed.

(** A closed walk [start, l.., start] inside the component. *)
Definition is_loop (l : list nat) : Prop :=
  l ≠ [] ∧ (∀ x, x ∈ l → x ∈ in_scc) ∧ follows (edge adj) start (l ++ [start]).

Lemma follows_inner l :
  (∀ x, x ∈ l → x ∈ in_scc ∧ x ≠ start) → ∀ u, follows (edge adj) u l → follows inner u l.
Proof.
  induction l as [|w l IH]; intros Hl u; [done|]. intros [Huw Hf]. split.
  - destruct (Hl w) as [??]; [by left|]. done.
  - apply IH; [|done]. intros x Hx. apply Hl. by right.
Qed.

Lemma follows_inner_inv l u : follows inner u l → follows (edge adj) u l ∧ ∀ x, x ∈ l → x ∈ in_scc ∧ x ≠ start.
Proof.
  revert u. induction l as [|w l IH]; intros u; [intros _; split; [done|by intros ? ?%elem_of_nil]|].
  intros [(? & ? & ?) [Hf Hl]%IH]. split; [done|]. by intros x [->|?]%elem_of_cons; [|apply Hl].
Qed.

(** A loop shortens to one that meets [start] only at its ends. *)
Lemma loop_simple l :
  ¬ edge adj start start → is_loop l →
  ∃ l', length l' ≤ length l ∧ l' ≠ [] ∧ follows inner start l' ∧ edge adj (default start (last l')) start.
Proof.
  intros Hself (Hne & Hin & Hf). destruct (decide (start ∈ l)) as [Hs|Hs].
  - apply list_elem_of_split_r in Hs as (l1 & l2 & -> & Hs).
    rewrite <-app_assoc, follows_app in Hf. destruct Hf as [_ [_ Hf]].
    apply follows_app in Hf as [Hf [Hend _]]. exists l2. split_and!; [rewrite length_app; simpl; lia| | |done].
    + by intros ->.
    + apply follows_inner; [|done]. intros x Hx. split; [|by intros ->]. apply Hin. set_solver.
  - apply follows_app in Hf as [Hf [Hend _]]. exists l. split_and!; [done|done| |done].
    apply follows_inner; [|done]. intros x Hx. split; [by apply Hin|by intros ->].
Qed.

Lemma shortest_cycle_spec :
  ¬ edge adj start start →
  ∃ p, shortest_cycle adj in_scc start = Some p
    ∧ ((p = [] ∧ ∀ l, ¬ is_loop l)
       ∨ ∃ l, p = start :: l ++ [start] ∧ is_loop l ∧ ∀ l', is_loop l' → length l ≤ length l').
Proof.
  intros Hself. unfold shortest_cycle.
  destruct (search_ok (S (size in_scc)) (mkBfs {[start := 0]} ∅ [start]) bfs_init_inv) as (s & -> & Hinv & Hq).
  { unfold bfs_measure. cbn [queue dist length].
    assert (size (in_scc ∖ dom ({[start := 0]} : gmap nat nat)) ≤ size in_scc)
      by (apply subseteq_size; set_solver). lia. }
  cbn [mbind option_bind]. pose proof (best_node_ok (dist s)) as Hb.
  assert (∀ l, is_loop l → ∃ x d, dist s !! x = Some d ∧ closing x ∧ d ≤ length l) as Hloop.
  { intros l Hl. destruct (loop_simple l Hself Hl) as (l' & Hle & Hne & Hf & Hend).
    destruct (dist_min s Hinv Hq start l' 0) as (d & Hd & Hdl); [apply (b_start s Hinv)|done|].
    exists (default start (last l')), d. split_and!; [done| |lia]. split; [|done].
    apply follows_inner_inv in Hf as [_ Hf]. destruct (last l') as [x|] eqn:E.
    - by apply Hf, last_Some_elem_of.
    - by apply last_None in E. }
  destruct (best_node adj start (dist s)) as [b|].
  - destruct Hb as ((Hbs & Hbe) & Hbd%elem_of_map_to_list & Hmin).
    destruct (unwind_ok s Hinv (dist s !!! b) b (size in_scc) [] Hbd) as (l & -> & Hlen & Hf & Hlast).
    { by eapply dist_bound. }
    cbn [mbind option_bind]. eexists. split; [done|]. right. exists l. rewrite app_nil_r.
    apply follows_inner_inv in Hf as [Hf Hl].
    assert (l ≠ []) as Hne by (intros ->; by simpl in Hlast).
    split_and!; [done| |].
    + split_and!; [done|by intros x [? _]%Hl|]. apply follows_app. by rewrite Hlast.
    + intros l' (x & d & Hd & Hc & Hle)%Hloop. rewrite Hlen.
      specialize (Hmin x d). rewrite elem_of_map_to_list, closer_spec in Hmin. simpl in Hmin.
      destruct (Hmin Hd Hc); lia.
  - exists []. split; [done|]. left. split; [done|]. intros l (x & d & Hd & Hc & _)%Hloop.
    apply (Hb x d); [by apply elem_of_map_to_list|done].
Qed.
End ShortestProof.

(** ** From names to indices *)

Section Names.
Context (edges : list (string * string)).

(** [f] imports [g], and the detector looks at it. *)
Definition imports (f g : string) : Prop := (f, g) ∈ edges ∧ kept_edge (f, g) = true.

#[local] Abbreviation names := (node_names edges).
#[local] Abbreviation adj := (adjacency names edges).

Lemma elem_of_kept e : e ∈ kept_edges edges ↔ imports e.1 e.2.
Proof. unfold kept_edges, imports. rewrite list_elem_of_filter. destruct e. simpl. tauto. Qed.

Lemma imports_ne f g : imports f g → f ≠ g.
Proof.
  intros [_ H] ->. unfold kept_edge in H. simpl in H. by rewrite String.eqb_refl in H.
Qed.

Lemma elem_of_names f : f ∈ names ↔ ∃ g, imports f g ∨ imports g f.
Proof.
  unfold node_names. rewrite elem_of_sort_by, elem_of_elements, elem_of_list_to_set, list_elem_of_bind.
  setoid_rewrite elem_of_kept. setoid_rewrite elem_of_cons. setoid_rewrite list_elem_of_singleton.
  split.
  - intros ([a b] & [->| ->] & ?); simpl in *; [exists b; by left|exists a; by right].
  - intros (g & [?|?]); [exists (f, g)|exists (g, f)]; auto.
Qed.

Lemma imports_names f g : imports f g → f ∈ names ∧ g ∈ names.
Proof. intros. rewrite !elem_of_names. split; [exists g; by left|exists f; by right]. Qed.

Lemma names_NoDup : NoDup names.
Proof. unfold node_names. apply NoDup_sort_by, NoDup_elements. Qed.

Lemma names_sorted : StronglySorted (λ f g, str_leb f g = true) names.
Proof. apply sort_by_sorted; [apply str_leb_total|apply str_leb_trans]. Qed.

Lemma index_of_lookup f i : f ∈ names → index_of names f = i ↔ names !! i = Some f.
Proof.
  intros Hf. apply list_elem_of_lookup in Hf as [k Hk].
  assert (index_of names f = k) as ->.
  { unfold index_of. assert (list_find (λ n, n = f) names = Some (k, f)) as ->; [|done].
    apply list_find_Some. split_and!; [done..|]. intros j y Hj Hlt ->.
    pose proof (NoDup_lookup _ _ _ _ names_NoDup Hk Hj). lia. }
  split; [by intros <-|]. intros Hi. by eapply NoDup_lookup; [apply names_NoDup|..].
Qed.

Lemma names_total i f : names !! i = Some f → names !!! i = f.
Proof. apply list_lookup_total_correct. Qed.

Lemma names_lt i : i < length names ↔ is_Some (names !! i).
Proof. by rewrite lookup_lt_is_Some. Qed.

Lemma add_edges_ok l adj0 i x :
  length (foldl (add_edge names) adj0 l) = length adj0
  ∧ (i < length adj0 →
     x ∈ foldl (add_edge names) adj0 l !!! i
     ↔ x ∈ adj0 !!! i ∨ ∃ e, e ∈ l ∧ index_of names e.1 = i ∧ index_of names e.2 = x).
Proof.
  revert adj0. induction l as [|e l IH]; intros adj0; simpl.
  { split; [done|]. intros _. split; [by left|]. by intros [?|(e & ?%elem_of_nil & _)]. }
  destruct (IH (add_edge names adj0 e)) as [IH1 IH2]. unfold add_edge in IH1, IH2 at 1.
  rewrite length_alter in IH1, IH2. split; [done|]. intros Hi. rewrite IH2 by done.
  unfold add_edge. setoid_rewrite elem_of_cons. rewrite list_lookup_total_alter.
  destruct (decide (index_of names e.1 = i ∧ index_of names e.1 < length adj0)) as [[<- _]|Hne].
  - rewrite elem_of_app, list_elem_of_singleton. split.
    + intros [[?| ->]|(e' & ? & ?)]; [by left|right; exists e; auto|right; exists e'; auto].
    + intros [?|(e' & [->|?] & ? & ?)]; [auto|auto|right; by exists e'].
  - split.
    + intros [?|(e' & ? & ?)]; [by left|right; exists e'; auto].
    + intros [?|(e' & [->|?] & H1 & ?)]; [by left| |right; by exists e'].
      destruct Hne. split; [done|]. by rewrite H1.
Qed.

Lemma adjacency_length : length adj = length names.
Proof.
  unfold adjacency. rewrite length_fmap.
  destruct (add_edges_ok (kept_edges edges) (replicate (length names) []) 0 0) as [-> _].
  apply length_replicate.
Qed.

Lemma adjacency_edge i j :
  edge adj i j ↔ ∃ f g, names !! i = Some f ∧ names !! j = Some g ∧ imports f g.
Proof.
  unfold edge, adjacency.
  destruct (add_edges_ok (kept_edges edges) (replicate (length names) []) i j) as [Hlen Hin].
  rewrite length_replicate in Hlen, Hin. destruct (decide (i < length names)) as [Hi|Hi].
  - rewrite list_lookup_total_alt, list_lookup_fmap.
    destruct (lookup_lt_is_Some_2 (foldl (add_edge names) (replicate (length names) [])
      (kept_edges edges)) i) as [row Hrow]; [by rewrite Hlen|].
    apply (list_lookup_total_correct _ _) in Hrow as Ht. rewrite Ht in Hin. rewrite Hrow. simpl.
    rewrite elem_of_vec_dedup, elem_of_sort_by, Hin by done.
    rewrite list_lookup_total_alt, lookup_replicate_2 by done. simpl. split.
    + intros [?%elem_of_nil|([f g] & Hk%elem_of_kept & H1 & H2)]; [done|]. exists f, g.
      destruct (imports_names f g Hk) as [Hf Hg].
      split_and!; [by apply index_of_lookup|by apply index_of_lookup|done].
    + intros (f & g & Hf & Hg & Hk). right. exists (f, g).
      pose proof (imports_names f g Hk) as [??].
      split_and!; [by apply elem_of_kept|by apply index_of_lookup..].
  - rewrite list_lookup_total_alt, lookup_ge_None_2 by (rewrite length_fmap; lia). simpl. split.
    + by intros ?%elem_of_nil.
    + intros (f & g & Hf & _). apply lookup_lt_Some in Hf. lia.
Qed.

Lemma adjacency_ok : graph_ok adj.
Proof.
  intros u w (f & g & _ & Hg & _)%adjacency_edge. rewrite adjacency_length. by eapply lookup_lt_Some.
Qed.

Lemma adjacency_irreflexive i : ¬ edge adj i i.
Proof.
  intros (f & g & Hf & Hg & Hk)%adjacency_edge. apply imports_ne in Hk. congruence.
Qed.

Lemma reach_imports i j f :
  names !! i = Some f → reach adj i j → ∃ g, names !! j = Some g ∧ rtc imports f g.
Proof.
  intros Hf Hr. revert f Hf. induction Hr as [i|i k j Hik _ IH]; intros f Hf.
  { by exists f. }
  apply adjacency_edge in Hik as (f' & h & Hf' & Hh & Hk). assert (f' = f) as -> by congruence.
  destruct (IH h Hh) as (g & ? & ?). exists g. split; [done|]. by eapply rtc_l.
Qed.

Lemma imports_reach i f g :
  names !! i = Some f → rtc imports f g → ∃ j, names !! j = Some g ∧ reach adj i j.
Proof.
  intros Hf Hr. revert i Hf. induction Hr as [f|f h g Hfh _ IH]; intros i Hf.
  { exists i. split; [done|apply rtc_refl]. }
  destruct (imports_names f h Hfh) as [_ [k Hk]%list_elem_of_lookup].
  destruct (IH k Hk) as (j & ? & ?). exists j. split; [done|]. eapply rtc_l; [|done].
  apply adjacency_edge. by exists f, h.
Qed.

Lemma reach_iff i j f g :
  names !! i = Some f → names !! j = Some g → reach adj i j ↔ rtc imports f g.
Proof.
  intros Hf Hg. split.
  - intros Hr. destruct (reach_imports i j f Hf Hr) as (g' & ? & ?). by simplify_eq.
  - intros Hr. destruct (imports_reach i f g Hf Hr) as (j' & Hj' & ?).
    by rewrite (NoDup_lookup _ _ _ _ names_NoDup Hg Hj').
Qed.

(** *** One component *)

Lemma follows_end {A} (R : A → A → Prop) x l : follows R x l → rtc R x (default x (last l)).
Proof.
  revert x. induction l as [|w l IH]; intros x; [intros _; apply rtc_refl|].
  rewrite default_last_cons. intros [Hxw Hf]. eapply rtc_l; [exact Hxw|by apply IH].
Qed.

Lemma follows_reach {A} (R : A → A → Prop) x l z :
  follows R x l → z ∈ l → rtc R x z ∧ rtc R z (default x (last l)).
Proof.
  revert x. induction l as [|w l IH]; intros x; [by intros _ ?%elem_of_nil|].
  rewrite default_last_cons. intros [Hxw Hf] [->|Hz]%elem_of_cons.
  - split; [by apply rtc_once|by apply follows_end].
  - destruct (IH w Hf Hz) as [? ?]. split; [by eapply rtc_l|done].
Qed.

Lemma rtc_follows {A} (R : A → A → Prop) x y :
  rtc R x y → ∃ l, follows R x l ∧ default x (last l) = y.
Proof.
  induction 1 as [x|x w y Hxw _ (l & Hf & Hl)]; [by exists []|].
  exists (w :: l). split; [done|]. by rewrite default_last_cons.
Qed.

Definition mutual_imports (f g : string) : Prop := rtc imports f g ∧ rtc imports g f.

(** What a reported cycle promises. *)
Definition cycle_ok (c : DependencyCycle) : Prop :=
  size_ c = length (files c) ∧ 2 ≤ size_ c
  ∧ NoDup (files c) ∧ StronglySorted (λ f g, str_leb f g = true) (files c)
  ∧ (∀ f g, f ∈ files c → g ∈ files c ↔ mutual_imports f g)
  ∧ ∃ f l, head (files c) = Some f ∧ path c = f :: l ++ [f] ∧ l ≠ [] ∧ (∀ x, x ∈ l → x ∈ files c)
           ∧ follows imports f (l ++ [f])
           ∧ ∀ l', l' ≠ [] → follows imports f (l' ++ [f]) → length l ≤ length l'.

Lemma follows_names i f l :
  names !! i = Some f → follows (edge adj) i l →
  follows imports f ((names !!!.) <$> l) ∧ ∀ x, x ∈ l → x < length names.
Proof.
  revert i f. induction l as [|j l IH]; intros i f Hf; [split; [done|by intros ? ?%elem_of_nil]|].
  intros [(f' & g & Hf' & Hg & Hk)%adjacency_edge Hfol]. assert (f' = f) as -> by congruence.
  destruct (IH j g Hg Hfol) as [Hi Hl]. rewrite fmap_cons, (list_lookup_total_correct _ _ _ Hg).
  split; [done|]. intros x [->|?]%elem_of_cons; [by eapply lookup_lt_Some|by apply Hl].
Qed.

Lemma follows_indices i f l :
  names !! i = Some f → follows imports f l →
  follows (edge adj) i (index_of names <$> l).
Proof.
  revert i f. induction l as [|g l IH]; intros i f Hf; [done|]. intros [Hk Hfol].
  destruct (imports_names f g Hk) as [_ Hg]. rewrite fmap_cons.
  assert (names !! index_of names g = Some g) as Hgi by by apply index_of_lookup.
  split; [apply adjacency_edge; by exists f, g|by eapply IH].
Qed.

Section Component.
Context (comp : list nat) (Hnd : NoDup comp) (Hsize : 2 ≤ length comp).
Context (Hlt : ∀ x, x ∈ comp → x < length names).
Context (Hcomp : ∀ u w, u ∈ comp → w ∈ comp ↔ mutual adj u w).

Lemma comp_name x : x ∈ comp → names !! x = Some (names !!! x).
Proof. intros Hx%Hlt. by apply list_lookup_lookup_total_lt. Qed.

(** A closed walk through a node of the component stays inside. *)
Lemma loop_inside start l x :
  start ∈ comp → follows (edge adj) start (l ++ [start]) → x ∈ l → x ∈ comp.
Proof.
  intros Hs Hf Hx. apply (Hcomp start x Hs).
  destruct (follows_reach (edge adj) start (l ++ [start]) x Hf) as [H1 H2]; [set_solver|].
  rewrite last_snoc in H2. done.
Qed.

Lemma comp_loop start : start ∈ comp → ∃ l, is_loop adj (list_to_set comp) start l.
Proof.
  intros Hs. assert (∃ w, w ∈ comp ∧ w ≠ start) as (w & Hw & Hne).
  { destruct comp as [|a [|b l]]; simpl in Hsize; [lia..|].
    apply NoDup_cons in Hnd as [Ha _]. destruct (decide (a = start)) as [->|].
    - exists b. split; [set_solver|]. intros ->. apply Ha. by left.
    - exists a. split; [by left|done]. }
  apply (Hcomp start w Hs) in Hw as [Hsw Hws].
  apply rtc_follows in Hsw as (l1 & Hf1 & Hl1). apply rtc_follows in Hws as (l2 & Hf2 & Hl2).
  destruct l2 as [|x l2 _] using rev_ind; [done|]. rewrite last_snoc in Hl2. simpl in Hl2. subst x.
  assert (follows (edge adj) start ((l1 ++ l2) ++ [start])) as Hf.
  { rewrite <-app_assoc, follows_app, Hl1. done. }
  exists (l1 ++ l2). split_and!; [|intros x Hx|done].
  - intros [-> _]%app_eq_nil. done.
  - apply elem_of_list_to_set. by apply (loop_inside start (l1 ++ l2)).
Qed.

Lemma comp_names_NoDup : NoDup ((names !!!.) <$> comp).
Proof.
  apply NoDup_fmap_2_strong; [|done]. intros x y Hx Hy Hxy.
  apply comp_name in Hx, Hy. rewrite Hxy in Hx. by apply (NoDup_lookup _ _ _ _ names_NoDup Hx Hy).
Qed.

(** The order of indices is the order of names. *)
Lemma comp_names_sorted l :
  (∀ x, x ∈ l → x ∈ comp) → StronglySorted (λ i j, (i <=? j) = true) l →
  StronglySorted (λ f g, str_leb f g = true) ((names !!!.) <$> l).
Proof.
  intros Hin Hsort. eapply StronglySorted_fmap_on; [|exact Hsort]. intros x y Hx%Hin%comp_name Hy%Hin%comp_name Hle.
  apply Nat.leb_le in Hle. destruct (decide (x = y)) as [->|]; [apply str_leb_refl|].
  eapply (StronglySorted_app_1_elem_of (λ f g, str_leb f g = true) (take y names) (drop y names)).
  - rewrite take_drop. apply names_sorted.
  - eapply (list_elem_of_lookup_2 _ x). rewrite lookup_take_lt by lia. exact Hx.
  - eapply list_elem_of_lookup_2 with (i := 0). rewrite lookup_drop, Nat.add_0_r. exact Hy.
Qed.

Lemma comp_names_mutual f g : f ∈ (names !!!.) <$> comp → g ∈ (names !!!.) <$> comp ↔ mutual_imports f g.
Proof.
  intros (x & -> & Hx)%list_elem_of_fmap. unfold mutual_imports. split.
  - intros (y & -> & Hy)%list_elem_of_fmap.
    apply (Hcomp x y Hx) in Hy as Hm. destruct Hm. apply comp_name in Hx, Hy.
    by rewrite <-!(reach_iff _ _ _ _ Hx Hy), <-!(reach_iff _ _ _ _ Hy Hx).
  - intros [H1 H2]. destruct (imports_reach x _ _ (comp_name x Hx) H1) as (y & Hy & Hr).
    apply list_elem_of_fmap. exists y. rewrite (list_lookup_total_correct _ _ _ Hy).
    split; [done|]. apply (Hcomp x y Hx). split; [done|].
    by apply (reach_iff _ _ _ _ Hy (comp_name x Hx)).
Qed.

Lemma cycle_of_ok :
  ∃ c, cycle_of names adj comp = Some c ∧ cycle_ok c ∧ files c ≡ₚ (names !!!.) <$> comp.
Proof.
  unfold cycle_of. pose proof (sort_by_perm Nat.leb comp) as Hperm.
  assert (StronglySorted (λ i j, (i <=? j) = true) (sort_by Nat.leb comp)) as Hsort.
  { apply sort_by_sorted; intros; rewrite ?Nat.leb_le in *; lia. }
  assert (∀ x, x ∈ sort_by Nat.leb comp ↔ x ∈ comp) as Hin by (intros; by rewrite Hperm).
  destruct (sort_by Nat.leb comp) as [|start rest] eqn:E.
  { apply Permutation_nil_l in Hperm. subst. simpl in Hsize. lia. }
  rewrite <-E in *. cbn [head]. replace (head (sort_by Nat.leb comp)) with (Some start) by by rewrite E.
  cbn [mbind option_bind].
  assert (start ∈ comp) as Hs by (apply Hin; rewrite E; by left).
  assert (list_to_set (sort_by Nat.leb comp) =@{gset nat} list_to_set comp) as ->.
  { apply set_eq. intros x. by rewrite !elem_of_list_to_set. }
  destruct (shortest_cycle_spec adj (list_to_set comp) start) as (p & -> & [[_ Hno]|(l & -> & Hl & Hmin)]);
    [apply adjacency_irreflexive| |].
  { destruct (comp_loop start Hs) as [l Hl]. by destruct (Hno l). }
  cbn [mbind option_bind]. eexists. split; [done|]. split; [|simpl; by rewrite Hperm].
  pose proof (comp_name start Hs) as Hstart. destruct Hl as (Hlne & Hlin & Hlf).
  split_and!; simpl.
  - by rewrite length_fmap.
  - by rewrite Hperm.
  - rewrite Hperm. apply comp_names_NoDup.
  - apply comp_names_sorted; [by intros x ?%Hin|done].
  - intros f g. rewrite Hperm. apply comp_names_mutual.
  - exists (names !!! start), ((names !!!.) <$> l). split_and!.
    + by rewrite E.
    + by rewrite fmap_app.
    + by destruct l.
    + intros x (y & -> & Hy)%list_elem_of_fmap. apply (list_elem_of_fmap_2 (λ i, names !!! i)), Hin.
      apply Hlin in Hy. by apply elem_of_list_to_set in Hy.
    + destruct (follows_names start _ _ Hstart Hlf) as [Hf _]. by rewrite fmap_app in Hf.
    + intros l' Hne Hf'. rewrite length_fmap, <-(length_fmap (index_of names) l').
      apply Hmin. pose proof (follows_indices start _ _ Hstart Hf') as Hfi.
      rewrite fmap_app in Hfi. simpl in Hfi.
      assert (index_of names (names !!! start) = start) as Hidx.
      { apply index_of_lookup; [by eapply list_elem_of_lookup_2|done]. }
      rewrite Hidx in Hfi. split_and!; [by destruct l'| |done].
      intros x Hx. apply elem_of_list_to_set.
      by apply (loop_inside start (index_of names <$> l')).
Qed.
End Component.

(** *** All of them *)

Lemma names_nil f g : length names = 0 → ¬ imports f g.
Proof.
  intros Hn Hk. destruct (imports_names f g Hk) as [Hf _].
  apply nil_length_inv in Hn. rewrite Hn in Hf. by apply elem_of_nil in Hf.
Qed.

Lemma cycles_of_components comps :
  NoDup (mjoin comps) → (∀ x, x ∈ mjoin comps → x < length names) →
  (∀ c, c ∈ comps → 2 ≤ length c ∧ ∀ u w, u ∈ c → w ∈ c ↔ mutual adj u w) →
  ∃ cs, mapM (cycle_of names adj) comps = Some cs ∧ Forall cycle_ok cs
        ∧ mjoin (files <$> cs) ≡ₚ (names !!!.) <$> mjoin comps.
Proof.
  induction comps as [|comp comps IH]; intros Hnd Hlt Hcomp; [by exists []|].
  simpl in Hnd, Hlt. apply NoDup_app in Hnd as (Hnd & _ & Hnds).
  destruct (Hcomp comp) as [Hsz Hm]; [by left|].
  destruct (cycle_of_ok comp Hnd Hsz) as (c & Hc & Hok & Hf); [|done|].
  { intros x Hx. apply Hlt. set_solver. }
  destruct IH as (cs & Hcs & Hoks & Hfs); [done| | |].
  { intros x Hx. apply Hlt. set_solver. }
  { intros c' Hc'. apply Hcomp. by right. }
  exists (c :: cs). cbn [mapM]. rewrite Hc. cbn [mbind option_bind]. rewrite Hcs.
  split_and!; [done|by constructor|]. simpl. by rewrite fmap_app, Hf, Hfs.
Qed.

Lemma mjoin_filter_size (comps : list (list nat)) x :
  x ∈ mjoin (filter (λ c, 2 ≤ length c) comps) → x ∈ mjoin comps.
Proof.
  rewrite !list_elem_of_join. intros (c & Hx & [_ Hc]%list_elem_of_filter). by exists c.
Qed.

Lemma NoDup_mjoin_filter (comps : list (list nat)) :
  NoDup (mjoin comps) → NoDup (mjoin (filter (λ c, 2 ≤ length c) comps)).
Proof.
  induction comps as [|c comps IH]; [done|]. simpl. intros (Hc & Hd & Hnd)%NoDup_app.
  rewrite filter_cons. case_decide; [|by apply IH]. simpl. apply NoDup_app.
  split_and!; [done| |by apply IH]. intros x Hx Hx'%mjoin_filter_size. by apply (Hd x).
Qed.

(** C1: Circular imports are reported exactly: each cycle lists, sorted, all files
    that import each other through kept edges, two files that do are always in
    one, no file is in two, the path shown is a shortest import loop through the
    first file, and the largest cycles come first. *)
Theorem find_cycles_ok :
  ∃ cs, find_cycles edges = Some cs ∧ Forall cycle_ok cs
    ∧ NoDup (mjoin (files <$> cs))
    ∧ (∀ f g, f ≠ g → mutual_imports f g → ∃ c, c ∈ cs ∧ f ∈ files c)
    ∧ StronglySorted (λ c d, cmp_leb cycle_cmp c d = true) cs.
Proof.
  unfold find_cycles. case_bool_decide as Hn.
  { exists []. split_and!; [done|by constructor|constructor| |constructor].
    intros f g Hne [Hr _]. inversion Hr as [|? h ? Hfh]; subst; [done|].
    by destruct (names_nil f h Hn). }
  destruct (tarjan_components adj adjacency_ok) as (comps & -> & Hnd & Hall & Hcomps).
  rewrite adjacency_length in Hall. cbn [mbind option_bind].
  destruct (cycles_of_components (filter (λ c, 2 ≤ length c) comps)) as (cs & -> & Hoks & Hfs).
  { by apply NoDup_mjoin_filter. }
  { intros x Hx%mjoin_filter_size. by apply Hall. }
  { intros c [Hsz Hc]%list_elem_of_filter. split; [done|]. by apply Hcomps. }
  cbn [mbind option_bind]. eexists. split; [done|]. unfold sort_cmp.
  assert (sort_by (cmp_leb cycle_cmp) cs ≡ₚ cs) as Hperm by apply sort_by_perm.
  split_and!.
  - by rewrite Hperm.
  - rewrite Hperm, Hfs. apply NoDup_fmap_2_strong; [|by apply NoDup_mjoin_filter].
    intros x y Hx%mjoin_filter_size%Hall Hy%mjoin_filter_size%Hall Hxy.
    apply list_lookup_lookup_total_lt in Hx, Hy. rewrite Hxy in Hx.
    by apply (NoDup_lookup _ _ _ _ names_NoDup Hx Hy).
  - intros f g Hne [Hfg Hgf].
    assert (f ∈ names) as [i Hi]%list_elem_of_lookup.
    { inversion Hfg as [|? h ? Hfh]; subst; [done|]. by apply (imports_names f h). }
    destruct (imports_reach i f g Hi Hfg) as (j & Hj & Hij).
    assert (reach adj j i) as Hji by by apply (reach_iff j i g f Hj Hi).
    assert (i ∈ mjoin comps) as (c & Hic & Hc)%list_elem_of_join by (apply Hall; by eapply lookup_lt_Some).
    destruct (Hcomps c Hc) as [_ Hm]. assert (j ∈ c) as Hjc by (by apply (Hm i j Hic)).
    assert (2 ≤ length c) as Hsz.
    { destruct c as [|a [|b c]]; simpl; [by apply elem_of_nil in Hic| |lia].
      apply list_elem_of_singleton in Hic, Hjc. congruence. }
    assert (f ∈ mjoin (files <$> cs)) as Hf.
    { rewrite Hfs. apply list_elem_of_fmap. exists i. rewrite (list_lookup_total_correct _ _ _ Hi).
      split; [done|]. apply list_elem_of_join. exists c. split; [done|]. by apply list_elem_of_filter. }
    apply list_elem_of_join in Hf as (fs & Hf & (d & -> & Hd)%list_elem_of_fmap).
    exists d. by rewrite Hperm.
  - apply (sort_cmp_sorted cycle_cmp).
Qed.
End Names.

(** C3: The loop shown for a component is a shortest one: the breadth-first search
    ends without a panic, and either no closed walk of the component passes
    through [start], or the answer is such a walk [start, .., start] and no
    closed walk through [start] is shorter. *)
Theorem shortest_cycle_ok adj in_scc start :
  (edge adj start start → False) →
  ∃ p, shortest_cycle adj in_scc start = Some p
    ∧ ((p = [] ∧ ∀ l, ¬ is_loop adj in_scc start l)
       ∨ ∃ l, p = start :: l ++ [start] ∧ is_loop adj in_scc start l
              ∧ ∀ l', is_loop adj in_scc start l' → length l ≤ length l').
Proof. apply shortest_cycle_spec. Qed.

Lemma shortest_cycle_ok_witness :
  ∃ p, shortest_cycle [[1; 2]; [2]; [0]] {[0; 1; 2]} 0 = Some p ∧ p = [0; 2; 0].
Proof.
  destruct (shortest_cycle_ok [[1; 2]; [2]; [0]] {[0; 1; 2]} 0) as (p & Hp & _).
  - vm_compute. set_unfold. lia.
  - exists p. split; [done|].
    assert (shortest_cycle [[1; 2]; [2]; [0]] {[0; 1; 2]} 0 = Some [0; 2; 0]) as H by (by vm_compute).
    congruence.
Defined.
