(* ===== verification/Surprising.v ===== *)
(** * Surprising connections ([graph/surprising.rs])

    Cross-file calls and references, scored by confidence, module crossing and
    sole bridges, and ranked. *)

From S2P Require Import Prelude Str Domain Tables.

Definition CROSS_DIR_BONUS : Z := 2.
Definition SOLE_BRIDGE_BONUS : Z := 2.

Record SurpriseInput := mkInput {
  source : string;
  source_file : string;
  target : string;
  target_file : string;
  relation : string;
  confidence : string;
  type_call : bool;
}.

Record SurprisingConnection := mkConn {
  s_source : string;
  s_source_file : string;
  s_target : string;
  s_target_file : string;
  s_relation : string;
  s_confidence : string;
  score : Z;
  reasons : list string;
}.

Definition dir_of (path : string) : string :=
  match rsplit_once "/" path with Some (d, _) => d | None => "<root>" end.

Definition module_pair (a b : string) : string * string :=
  if str_leb a b then (a, b) else (b, a).

Definition confidence_surprise (c : string) : Z :=
  if String.eqb c CONF_AMBIGUOUS then 3 else if String.eqb c CONF_INFERRED then 2 else 1.

Definition confidence_reason (c : string) (type_call : bool) : string :=
  if String.eqb c CONF_AMBIGUOUS && type_call then
    "ambiguous: a call into a TypeScript type, which exists only at compile time"
  else if String.eqb c CONF_AMBIGUOUS then
    "ambiguous: bare-name target not decided (several candidates)"
  else if String.eqb c CONF_INFERRED then "inferred: cross-file bare-name resolution"
  else "extracted: directly resolved".

(** The modules an edge connects. *)
Definition edge_pair (e : SurpriseInput) : string * string :=
  module_pair (dir_of (source_file e)) (dir_of (target_file e)).
Definition crosses (e : SurpriseInput) : bool :=
  negb (String.eqb (dir_of (source_file e)) (dir_of (target_file e))).

(** [*pair_count.entry(..).or_insert(0) += 1] *)
Definition count_pair (m : gmap (string * string) nat) (e : SurpriseInput)
    : gmap (string * string) nat :=
  if crosses e then <[edge_pair e := S (default 0 (m !! edge_pair e))]> m else m.

Definition score_edge (pair_count : gmap (string * string) nat) (e : SurpriseInput)
    : SurprisingConnection :=
  let ds := dir_of (source_file e) in
  let dt := dir_of (target_file e) in
  let '(score, reasons) :=
    if crosses e then
      let reasons := [confidence_reason (confidence e) (type_call e);
                      "crosses modules (" +:+ ds +:+ " → " +:+ dt +:+ ")"] in
      if default 0 (pair_count !! edge_pair e) <=? 1 then
        (confidence_surprise (confidence e) + CROSS_DIR_BONUS + SOLE_BRIDGE_BONUS,
         reasons ++ ["sole connection between these modules"])%Z
      else (confidence_surprise (confidence e) + CROSS_DIR_BONUS, reasons)%Z
    else (confidence_surprise (confidence e), [confidence_reason (confidence e) (type_call e)]) in
  mkConn (source e) (source_file e) (target e) (target_file e) (relation e) (confidence e)
    score reasons.

Definition surprise_cmp : SurprisingConnection → SurprisingConnection → comparison :=
  cmp_then (cmp_rev (cmp_by score Z.compare))
    (cmp_then (cmp_by s_source_file String.compare)
       (cmp_then (cmp_by s_source String.compare)
          (cmp_then (cmp_by s_target_file String.compare) (cmp_by s_target String.compare)))).

Definition find_surprising (edges : list SurpriseInput) (top_n : nat) : list SurprisingConnection :=
  let pair_count := foldl count_pair ∅ edges in
  take top_n (sort_cmp surprise_cmp (score_edge pair_count <$> edges)).

(** The query of [surprising_connections]; [glob] and [like] are SQLite's
    matchers.  Its last column would be NULL for a TypeScript-like node of a file
    without a language, which the indexer does not write. *)
Section Query.
Context (glob like : string → string → bool).

Definition end_ok (include_tests : bool) (n : NodeRow) (f : FileRow) : bool :=
  negb (String.eqb (f_path f) "<external>") && negb (String.eqb (n_name n) "<module>")
  && (include_tests || negb (is_test_node_sql_holds glob like (n_is_test n) (n_name n) (f_path f))).

Definition is_type_call (e : EdgeRow) (nt : NodeRow) (tf : FileRow) : bool :=
  String.eqb (e_relation e) REL_CALLS && bool_decide (n_type nt ∈ ["interface"; "type"])
  && bool_decide (f_language tf ∈ [Some "typescript"; Some "tsx"]).

Definition surprise_inputs (db : Database) (include_tests : bool) : list SurpriseInput :=
  e ← filter (λ e, e_relation e = REL_CALLS ∨ e_relation e = REL_REFERENCES) (db_edges db);
  '(ns, sf) ← select_node_files (λ n f, Z.eqb (n_id n) (e_source_id e) && end_ok include_tests n f) db;
  '(nt, tf) ← select_node_files
    (λ n f, Z.eqb (n_id n) (e_target_id e) && end_ok include_tests n f
            && negb (Z.eqb (f_id sf) (f_id f))) db;
  [mkInput (n_name ns) (f_path sf) (n_name nt) (f_path tf) (e_relation e) (e_confidence e)
     (is_type_call e nt tf)].

Definition surprising_connections (db : Database) (include_tests : bool) (top_n : nat)
    : list SurprisingConnection :=
  find_surprising (surprise_inputs db include_tests) top_n.
End Query.

Example surprising_ranked :
  (λ c, (s_source c, score c)) <$> find_surprising
    [mkInput "a" "x/a.rs" "b" "x/b.rs" "calls" "extracted" false;
     mkInput "c" "x/a.rs" "d" "y/d.rs" "calls" "ambiguous" false;
     mkInput "e" "x/a.rs" "f" "z/f.rs" "calls" "inferred" false;
     mkInput "g" "z/g.rs" "h" "x/b.rs" "calls" "extracted" false] 3
  = [("c", 7%Z); ("e", 4%Z); ("g", 3%Z)].
Proof. by vm_compute. Qed.

(** ** Scores *)

(** Edges between the same two modules, in either direction. *)
Definition same_bridge (edges : list SurpriseInput) (e : SurpriseInput) : list SurpriseInput :=
  filter (λ e', crosses e' = true ∧ edge_pair e' = edge_pair e) edges.

Lemma module_pair_comm a b : module_pair a b = module_pair b a.
Proof.
  unfold module_pair. destruct (str_leb a b) eqn:E1, (str_leb b a) eqn:E2; try done.
  - by rewrite (str_leb_antisym a b).
  - destruct (str_leb_total a b); congruence.
Qed.

Lemma module_pair_inj a b c d :
  module_pair a b = module_pair c d ↔ (a = c ∧ b = d) ∨ (a = d ∧ b = c).
Proof.
  split; [|intros [[-> ->]|[-> ->]]; [done|apply module_pair_comm]].
  unfold module_pair. repeat case_match; intros; simplify_eq; auto.
Qed.

Lemma count_pairs edges m k :
  default 0 (foldl count_pair m edges !! k)
  = default 0 (m !! k) + length (filter (λ e, crosses e = true ∧ edge_pair e = k) edges).
Proof.
  revert m. induction edges as [|e edges IH]; intros m; [simpl; lia|].
  cbn [foldl]. rewrite IH, filter_cons. unfold count_pair.
  destruct (crosses e) eqn:Hc; [|by rewrite decide_False by naive_solver].
  destruct (decide (edge_pair e = k)) as [<-|Hne].
  - rewrite lookup_insert_eq, decide_True by done. simpl. lia.
  - rewrite lookup_insert_ne, decide_False by naive_solver. done.
Qed.

(** What the documentation says of a score. *)
Definition scored (edges : list SurpriseInput) (e : SurpriseInput) (c : SurprisingConnection) : Prop :=
  s_source c = source e ∧ s_source_file c = source_file e
  ∧ s_target c = target e ∧ s_target_file c = target_file e
  ∧ s_relation c = relation e ∧ s_confidence c = confidence e
  ∧ let bonus_dir := bool_decide (dir_of (source_file e) ≠ dir_of (target_file e)) in
    let bonus_sole := bonus_dir && bool_decide (length (same_bridge edges e) = 1) in
    score c = (confidence_surprise (confidence e) + (if bonus_dir then 2 else 0)
               + (if bonus_sole then 2 else 0))%Z
    ∧ length (reasons c) = S ((if bonus_dir then 1 else 0) + (if bonus_sole then 1 else 0)).

Lemma same_bridge_sole edges e :
  e ∈ edges → crosses e = true → length (same_bridge edges e) ≤ 1 ↔ length (same_bridge edges e) = 1.
Proof.
  intros He Hc. assert (e ∈ same_bridge edges e) as Hin by (by apply list_elem_of_filter).
  destruct (same_bridge edges e); simpl; [by apply elem_of_nil in Hin|lia].
Qed.

Lemma score_edge_ok edges e : e ∈ edges → scored edges e (score_edge (foldl count_pair ∅ edges) e).
Proof.
  intros He. unfold score_edge. rewrite count_pairs, lookup_empty. simpl.
  fold (same_bridge edges e).
  assert (crosses e = bool_decide (dir_of (source_file e) ≠ dir_of (target_file e))) as Hcr.
  { unfold crosses. by destruct (String.eqb_spec (dir_of (source_file e)) (dir_of (target_file e)));
      case_bool_decide. }
  destruct (crosses e) eqn:Hc.
  - pose proof (same_bridge_sole edges e He Hc) as Hs.
    destruct (Nat.leb_spec (length (same_bridge edges e)) 1) as [Hle|Hlt]; unfold scored; simpl;
      rewrite <-Hcr; simpl.
    + rewrite bool_decide_true by tauto. split_and!; (done || (unfold CROSS_DIR_BONUS,
        SOLE_BRIDGE_BONUS; lia)).
    + rewrite bool_decide_false by (rewrite <-Hs; lia). split_and!; (done || (unfold CROSS_DIR_BONUS; lia)).
  - unfold scored. simpl. rewrite <-Hcr. simpl. split_and!; (done || lia).
Qed.

(** ** Ranking *)

Lemma surprise_cmp_eq c d :
  surprise_cmp c d = Eq →
  score c = score d ∧ s_source_file c = s_source_file d ∧ s_source c = s_source d
  ∧ s_target_file c = s_target_file d ∧ s_target c = s_target d.
Proof.
  unfold surprise_cmp, cmp_then, cmp_rev, cmp_by.
  destruct (score d ?= score c)%Z eqn:E1; try done.
  destruct (String.compare (s_source_file c) _) eqn:E2; try done.
  destruct (String.compare (s_source c) _) eqn:E3; try done.
  destruct (String.compare (s_target_file c) _) eqn:E4; try done. intros E5.
  apply Z.compare_eq in E1.
  apply String.compare_eq_iff in E2, E3, E4, E5. done.
Qed.

Lemma score_edge_perm edges edges' e :
  edges ≡ₚ edges' →
  score_edge (foldl count_pair ∅ edges) e = score_edge (foldl count_pair ∅ edges') e.
Proof.
  intros Hp. unfold score_edge. rewrite !count_pairs. by rewrite Hp.
Qed.

Lemma sorted_take_drop {A} (R : A → A → Prop) (l : list A) n x y :
  StronglySorted R l → x ∈ take n l → y ∈ drop n l → R x y.
Proof.
  intros Hs Hx Hy. rewrite <-(take_drop n l) in Hs. by eapply StronglySorted_app_1_elem_of.
Qed.

(** The ranking shows the most surprising edges: each row is an edge scored by
    its confidence, two more for crossing modules and two more when it is the
    only edge between them, with one reason per component; the rows are sorted,
    no edge left out ranks before a row shown, and when no two edges join the
    same two symbols the answer does not depend on the order of the edges. *)
Theorem find_surprising_ok edges top_n :
  let out := find_surprising edges top_n in
  length out = min top_n (length edges)
  ∧ StronglySorted (λ c d, cmp_leb surprise_cmp c d = true) out
  ∧ (∃ rest, out ++ rest ≡ₚ score_edge (foldl count_pair ∅ edges) <$> edges
       ∧ ∀ c d, c ∈ out → d ∈ rest → cmp_leb surprise_cmp c d = true)
  ∧ (∀ c, c ∈ out → ∃ e, e ∈ edges ∧ scored edges e c)
  ∧ ∀ edges', edges ≡ₚ edges' →
      (∀ e1 e2, e1 ∈ edges → e2 ∈ edges → source e1 = source e2 → source_file e1 = source_file e2 →
         target e1 = target e2 → target_file e1 = target_file e2 → e1 = e2) →
      find_surprising edges' top_n = out.
Proof.
  intros out. subst out. unfold find_surprising, sort_cmp.
  set (l := score_edge (foldl count_pair ∅ edges) <$> edges).
  pose proof (sort_by_perm (cmp_leb surprise_cmp) l) as Hperm.
  pose proof (sort_cmp_sorted surprise_cmp l) as Hsort. unfold sort_cmp in Hsort.
  split_and!.
  - rewrite length_take, length_sort_by. unfold l. by rewrite length_fmap.
  - rewrite <-(take_drop top_n (sort_by (cmp_leb surprise_cmp) l)) in Hsort.
    by apply StronglySorted_app_1_l in Hsort.
  - exists (drop top_n (sort_by (cmp_leb surprise_cmp) l)). rewrite take_drop. split; [done|].
    intros c d Hc Hd. by apply (sorted_take_drop _ _ top_n c d Hsort).
  - intros c Hc. apply elem_of_take in Hc as (i & Hc%list_elem_of_lookup_2 & _).
    rewrite Hperm in Hc. apply list_elem_of_fmap in Hc as (e & -> & He). exists e.
    split; [done|by apply score_edge_ok].
  - intros edges' Hp Hinj. f_equal. symmetry.
    apply (sort_cmp_unique surprise_cmp).
    + intros c d (e1 & -> & He1)%list_elem_of_fmap (e2 & -> & He2)%list_elem_of_fmap Heq.
      apply surprise_cmp_eq in Heq as (_ & H1 & H2 & H3 & H4).
      destruct (score_edge_ok edges e1 He1) as (A1 & A2 & A3 & A4 & _).
      destruct (score_edge_ok edges e2 He2) as (B1 & B2 & B3 & B4 & _).
      by rewrite (Hinj e1 e2) by congruence.
    + unfold l. rewrite Hp at 2.
      apply Permutation_refl'. apply list_fmap_ext. intros i e _. by apply score_edge_perm.
Qed.

(** SQLite's row order does not matter to the multiset of edges. *)
#[export] Instance surprise_inputs_proper glob like :
  Proper ((≡) ==> (=) ==> (≡ₚ)) (surprise_inputs glob like).
Proof.
  intros db db' Hdb ? b ->. unfold surprise_inputs.
  rewrite (db_edges_proper _ _ Hdb). apply bind_perm_ext. intros e.
  rewrite (select_node_files_proper _ _ _ Hdb). apply bind_perm_ext. intros [ns sf].
  by rewrite (select_node_files_proper _ _ _ Hdb).
Qed.
