(* ===== verification/Refresh.v ===== *)
(** * Query-time refresh ([indexer/resync.rs], the planning half of [indexer/pipeline/mod.rs])

    What a read command does with the files it is about to print: classify each
    against the index, spend a budget, and hand the rest to the indexer in one
    batch. *)

From S2P Require Import Prelude Str Domain Paths JsModules.

(** ** Which paths may be refreshed *)

(** [Path::components] on a Unix host: empty segments are skipped. *)
Fixpoint safe_components (depth : Z) (segs : list string) : bool :=
  match segs with
  | [] => true
  | seg :: segs' =>
      if bool_decide (seg = "" ∨ seg = ".") then safe_components depth segs'
      else if bool_decide (seg = "..") then
        if (depth - 1 <? 0)%Z then false else safe_components (depth - 1) segs'
      else safe_components (depth + 1) segs'
  end.

Definition is_safe_relative_path (rel_path : string) : bool :=
  negb (starts_with "/" rel_path) && safe_components 0 (split_on "/" rel_path).

Inductive FileRefresh := Fresh | DropStaleRow | Reindex (hash : string).
Inductive RefreshScope := IncludeNew | IndexedOnly.

#[export] Instance file_refresh_eq_dec : EqDecision FileRefresh.
Proof. solve_decision. Defined.
#[export] Instance refresh_scope_eq_dec : EqDecision RefreshScope.
Proof. solve_decision. Defined.

(** ** Planning one file *)

Section Plan.
(** The file system: [lstat] below the root, a file's length and hash when they
    can be read, and whether the ignore-aware walk down to a key yields it. *)
Context (lstat : list string → option FileType) (file_len : string → option N)
        (hash_file : string → option string) (walker_yields : string → bool).
(** The index: hashes of the stored files, and the files that have nodes. *)
Context (stored : gmap string string) (with_nodes : gset string) (max_file_size : N).

Definition scan_would_store (rel : string) : bool :=
  if negb (names_a_scanned_file lstat rel) || negb (scan_keeps_key rel) then false
  else walker_yields rel.

Definition plan_file_refresh (rel_path : string) (scope : RefreshScope) : result string FileRefresh :=
  if negb (is_safe_relative_path rel_path) then Ok Fresh
  else if String.eqb rel_path EXTERNAL_FILE_PATH then Ok Fresh
  else if negb (names_a_scanned_file lstat rel_path) then
    Ok (if bool_decide (is_Some (stored !! rel_path)) then DropStaleRow else Fresh)
  else if bool_decide (detect_language rel_path = None) then Ok Fresh
  else if match file_len rel_path with Some len => (max_file_size <? len)%N | None => false end
          && negb (bool_decide (rel_path ∈ with_nodes)) then Ok Fresh
  else if bool_decide (stored !! rel_path = None)
          && (bool_decide (scope = IndexedOnly) || negb (scan_would_store rel_path)) then Ok Fresh
  else
    match hash_file rel_path with
    | None => Err "unreadable"
    | Some on_disk_hash =>
        if bool_decide (stored !! rel_path = Some on_disk_hash) then Ok Fresh
        else Ok (Reindex on_disk_hash)
    end.
End Plan.

(** ** The sweep *)

Definition RESYNC_BUDGET : nat := 8.

(** [name] and the shared variable as the environment holds them, parsed. *)
Definition resync_budget_named (named shared : option nat) : nat :=
  match named with Some v => v | None => default RESYNC_BUDGET shared end.

Record ResyncOutcome := mkOutcome {
  refreshed : nat;
  skipped_over_budget : nat;
  failed : nat;
  stale_paths : gset string;
}.
Definition no_outcome : ResyncOutcome := mkOutcome 0 0 0 ∅.

Definition any_changed (o : ResyncOutcome) : bool := 0 <? refreshed o.
Definition is_partial (o : ResyncOutcome) : bool :=
  (0 <? skipped_over_budget o) || (0 <? failed o).

(** Rows to drop, and files to index again with their hashes. *)
Abbreviation Batch := (list string * list (string * string))%type.

Section Sweep.
Context (plan : string → result string FileRefresh).

(** Pass 1: classify. *)
Fixpoint classify (files : list string) (outcome : ResyncOutcome) : Batch * ResyncOutcome :=
  match files with
  | [] => (([], []), outcome)
  | f :: files' =>
      match plan f with
      | Ok Fresh => classify files' outcome
      | Ok DropStaleRow =>
          let '((drop_rows, reindex), o) := classify files' outcome in ((f :: drop_rows, reindex), o)
      | Ok (Reindex hash) =>
          let '((drop_rows, reindex), o) := classify files' outcome in
          ((drop_rows, (f, hash) :: reindex), o)
      | Err _ =>
          classify files' (mkOutcome (refreshed outcome) (skipped_over_budget outcome)
                             (S (failed outcome)) ({[f]} ∪ stale_paths outcome))
      end
  end.

(** [run_in_flight] is [index_run_in_flight]; [apply_ok] whether the one call of
    [apply_file_refreshes] returned [Ok].  The batch of that call is returned
    beside the outcome. *)
Definition resync_stale_files (paths : list string) (budget : nat) (run_in_flight apply_ok : bool)
    : ResyncOutcome * option Batch :=
  let files := vec_dedup (sort_by str_leb paths) in
  if bool_decide (files = []) then (no_outcome, None)
  else
    let '((drop_rows, reindex), o) := classify files no_outcome in
    if bool_decide (drop_rows = []) && bool_decide (reindex = []) then (o, None)
    else
      let over := drop budget reindex in
      let reindex := take budget reindex in
      let o := mkOutcome (refreshed o) (skipped_over_budget o + length over) (failed o)
                 (list_to_set over.*1 ∪ stale_paths o) in
      let changed := length drop_rows + length reindex in
      let all_stale :=
        mkOutcome (refreshed o) (skipped_over_budget o) (failed o + changed)
          (list_to_set reindex.*1 ∪ list_to_set drop_rows ∪ stale_paths o) in
      if run_in_flight then (all_stale, None)
      else if apply_ok then
        (mkOutcome (refreshed o + changed) (skipped_over_budget o) (failed o) (stale_paths o),
         Some (drop_rows, reindex))
      else (all_stale, Some (drop_rows, reindex)).
End Sweep.

(** ** Safe paths *)

Lemma safe_components_norm segs depth out :
  depth = Z.of_nat (length out) →
  safe_components depth segs = bool_decide (is_Some (norm_segs segs out)).
Proof.
  revert depth out. induction segs as [|seg segs IH]; intros depth out Hd; simpl.
  { done. }
  case_bool_decide; [by apply IH|]. case_bool_decide.
  - destruct out as [|x out]; simpl in Hd.
    + by subst depth.
    + destruct (Z.ltb_spec (depth - 1) 0); [lia|]. apply IH. lia.
  - apply IH. simpl. lia.
Qed.

Lemma is_safe_spec p :
  is_safe_relative_path p = true ↔ starts_with "/" p = false ∧ is_Some (normalize_rel_path p).
Proof.
  unfold is_safe_relative_path. rewrite (safe_components_norm _ 0 []) by done.
  rewrite andb_true_iff, negb_true_iff, bool_decide_eq_true.
  assert (is_Some (norm_segs (split_on "/" p) []) ↔ is_Some (normalize_rel_path p)) as ->; [|done].
  unfold normalize_rel_path. destruct (norm_segs _ _); simpl; [|done].
  split; intros _; by eexists.
Qed.

(** A refresh never reaches outside the index's scope: a path is re-indexed
    only if it is relative and stays below the root at every step, is not the
    pseudo-file of externals, names a regular file reached without a symlink, in
    a supported language, whose bytes differ from the stored hash; a path the
    index does not know only when the caller named it and the scan itself would
    store it.  A row is dropped only if it exists and its path names no such
    file. *)
Theorem plan_file_refresh_sound lstat file_len hash_file walker_yields stored with_nodes max rel scope :
  match plan_file_refresh lstat file_len hash_file walker_yields stored with_nodes max rel scope with
  | Ok (Reindex h) =>
      starts_with "/" rel = false ∧ is_Some (normalize_rel_path rel) ∧ rel ≠ "<external>"
      ∧ names_a_scanned_file lstat rel = true ∧ is_Some (detect_language rel)
      ∧ hash_file rel = Some h ∧ stored !! rel ≠ Some h
      ∧ (stored !! rel = None → scope = IncludeNew ∧ scan_keeps_key rel = true ∧ walker_yields rel = true)
  | Ok DropStaleRow =>
      is_Some (stored !! rel) ∧ names_a_scanned_file lstat rel = false ∧ rel ≠ "<external>"
      ∧ starts_with "/" rel = false ∧ is_Some (normalize_rel_path rel)
  | Ok Fresh =>
      (∀ old h, stored !! rel = Some old → hash_file rel = Some h → old ≠ h →
         names_a_scanned_file lstat rel = true → is_Some (detect_language rel) →
         starts_with "/" rel = false → is_Some (normalize_rel_path rel) → rel ≠ "<external>" →
         rel ∉ with_nodes ∧ ∃ len, file_len rel = Some len ∧ (max < len)%N)
  | Err _ => hash_file rel = None ∧ names_a_scanned_file lstat rel = true
  end.
Proof.
  unfold plan_file_refresh. pose proof (is_safe_spec rel) as Hsafe.
  destruct (is_safe_relative_path rel); simpl; [|naive_solver].
  apply proj1 in Hsafe. specialize (Hsafe eq_refl) as [Hrel Hnorm].
  destruct (String.eqb_spec rel EXTERNAL_FILE_PATH) as [->|Hext]; [naive_solver|].
  destruct (names_a_scanned_file lstat rel) eqn:Hname; simpl.
  2: { case_bool_decide; [done|]. naive_solver. }
  case_bool_decide as Hlang; [|apply not_eq_None_Some in Hlang].
  { intros old h _ _ _ _ [l Hl]. congruence. }
  destruct (_ && negb (bool_decide (rel ∈ with_nodes))) eqn:Hbig.
  { intros old h _ _ _ _ _ _ _ _. apply andb_true_iff in Hbig as [Hb Hw].
    destruct (file_len rel) as [len|]; [|done]. apply N.ltb_lt in Hb.
    apply negb_true_iff, bool_decide_eq_false in Hw. split; [done|]. by exists len. }
  clear Hbig. destruct (_ && (_ || _)) eqn:Hnew.
  { apply andb_true_iff in Hnew as [Hnone%bool_decide_eq_true _]. intros old h Hold. congruence. }
  destruct (hash_file rel) as [h|] eqn:Hh; [|done].
  destruct (bool_decide (stored !! rel = Some h)) eqn:Hst;
    [apply bool_decide_eq_true in Hst; intros old h' Hold Hh'; congruence|].
  apply bool_decide_eq_false in Hst.
  split_and!; [done..|]. intros Hnone. rewrite bool_decide_true in Hnew by done. simpl in Hnew.
  apply orb_false_iff in Hnew as [Hsc%bool_decide_eq_false Hws].
  split; [by destruct scope|]. apply negb_false_iff in Hws. unfold scan_would_store in Hws.
  rewrite Hname in Hws. simpl in Hws. by destruct (scan_keeps_key rel).
Qed.

(** ** Accounting of the sweep *)

Section SweepOk.
Context (plan : string → result string FileRefresh).

Definition is_dirty (f : string) : bool := match plan f with Ok Fresh => false | _ => true end.
Definition is_err (f : string) : bool := match plan f with Err _ => true | _ => false end.
Definition dirty (paths : list string) : gset string :=
  list_to_set (filter (λ f, is_dirty f = true) paths).

Lemma filter_bool_cons (P : string → bool) x l :
  filter (λ x, P x = true) (x :: l)
  = if P x then x :: filter (λ x, P x = true) l else filter (λ x, P x = true) l.
Proof. rewrite filter_cons. by destruct (P x). Qed.

Lemma classify_ok files o :
  NoDup files →
  let '((drop_rows, reindex), o') := classify plan files o in
  refreshed o' = refreshed o ∧ skipped_over_budget o' = skipped_over_budget o
  ∧ NoDup drop_rows ∧ NoDup reindex.*1
  ∧ (∀ f, f ∈ drop_rows ↔ f ∈ files ∧ plan f = Ok DropStaleRow)
  ∧ (∀ f h, (f, h) ∈ reindex ↔ f ∈ files ∧ plan f = Ok (Reindex h))
  ∧ length drop_rows + length reindex + failed o'
    = failed o + length (filter (λ f, is_dirty f = true) files)
  ∧ failed o' = failed o + length (filter (λ f, is_err f = true) files)
  ∧ stale_paths o' = stale_paths o ∪ list_to_set (filter (λ f, is_err f = true) files).
Proof.
  intros Hnd. revert o. induction Hnd as [|f files Hf Hnd IH]; intros o; simpl.
  { split_and!; [done|done|constructor|constructor| | |simpl; lia|simpl; lia|set_solver].
    - intros f. rewrite elem_of_nil. tauto.
    - intros f h. rewrite elem_of_nil. split; [done|by intros [?%elem_of_nil _]]. }
  rewrite !filter_bool_cons.
  replace (is_dirty f) with (match plan f with Ok Fresh => false | _ => true end) by done.
  replace (is_err f) with (match plan f with Err _ => true | _ => false end) by done.
  destruct (plan f) as [[| |hash]|e] eqn:E; simpl.
  - specialize (IH o). destruct (classify plan files o) as [[drop_rows reindex] o'].
    destruct IH as (? & ? & ? & ? & Hd & Hr & ? & ? & ?). split_and!; try done.
    + intros g. rewrite Hd, elem_of_cons. split; [tauto|]. intros [[->|?] ?]; [congruence|done].
    + intros g h. rewrite Hr, elem_of_cons. split; [tauto|]. intros [[->|?] ?]; [congruence|done].
  - specialize (IH o). destruct (classify plan files o) as [[drop_rows reindex] o'].
    destruct IH as (? & ? & ? & ? & Hd & Hr & ? & ? & ?).
    split_and!; [done|done| |done| | |simpl; lia|done|done].
    + constructor; [by rewrite Hd; intros [? _]|done].
    + intros g. rewrite !elem_of_cons, Hd. split.
      * intros [->|[? ?]]; [by split; [left|]|by split; [right|]].
      * intros [[->|?] Hp]; [by left|by right].
    + intros g h. rewrite Hr, elem_of_cons. split; [tauto|]. intros [[->|?] ?]; [congruence|done].
  - specialize (IH o). destruct (classify plan files o) as [[drop_rows reindex] o'].
    destruct IH as (? & ? & ? & ? & Hd & Hr & ? & ? & ?).
    split_and!; [done|done|done| | | |simpl; lia|done|done].
    + simpl. constructor; [|done]. intros ([g h] & -> & [? _]%Hr)%list_elem_of_fmap. done.
    + intros g. rewrite Hd, elem_of_cons. split; [tauto|]. intros [[->|?] ?]; [congruence|done].
    + intros g h. rewrite !elem_of_cons, Hr. split.
      * intros [[= -> ->]|[? ?]]; [by split; [left|]|by split; [right|]].
      * intros [[->|?] Hp]; [left; congruence|by right].
  - set (o1 := mkOutcome _ _ _ _). specialize (IH o1).
    destruct (classify plan files o1) as [[drop_rows reindex] o'].
    destruct IH as (? & ? & ? & ? & Hd & Hr & ? & ? & ->). simpl in *.
    split_and!; [done|done|done|done| | |lia|lia|set_solver].
    + intros g. rewrite Hd, elem_of_cons. split; [tauto|]. intros [[->|?] ?]; [congruence|done].
    + intros g h. rewrite Hr, elem_of_cons. split; [tauto|]. intros [[->|?] ?]; [congruence|done].
Qed.

Lemma sweep_files (paths : list string) :
  NoDup (vec_dedup (sort_by str_leb paths))
  ∧ ∀ f, f ∈ vec_dedup (sort_by str_leb paths) ↔ f ∈ paths.
Proof.
  split; [|intros; by rewrite elem_of_vec_dedup, elem_of_sort_by].
  apply (NoDup_vec_dedup str_leb); [apply str_leb_antisym|].
  apply sort_by_sorted; [apply str_leb_total|apply str_leb_trans].
Qed.

Lemma size_filter_files (P : string → bool) (paths : list string) :
  length (filter (λ f, P f = true) (vec_dedup (sort_by str_leb paths)))
  = size (list_to_set (filter (λ f, P f = true) paths) : gset string).
Proof.
  destruct (sweep_files paths) as [Hnd Hin].
  rewrite <-(fin_sets.size_list_to_set (C := gset string)) by by apply NoDup_filter.
  f_equal. apply set_eq. intros f. rewrite !elem_of_list_to_set, !list_elem_of_filter, Hin. done.
Qed.

Lemma elem_of_dirty_files paths f : f ∈ dirty paths ↔ f ∈ paths ∧ is_dirty f = true.
Proof. unfold dirty. rewrite elem_of_list_to_set, list_elem_of_filter. tauto. Qed.

(** What pass 1 found among [paths]: rows to drop, files to index, the failures. *)
Definition classified (paths : list string) (drop_rows : list string)
    (reindex : list (string * string)) (errs : gset string) (nerr : nat) : Prop :=
  NoDup drop_rows ∧ NoDup reindex.*1
  ∧ (∀ f, f ∈ drop_rows ↔ f ∈ paths ∧ plan f = Ok DropStaleRow)
  ∧ (∀ f h, (f, h) ∈ reindex ↔ f ∈ paths ∧ plan f = Ok (Reindex h))
  ∧ (∀ f, f ∈ errs ↔ f ∈ paths ∧ is_err f = true)
  ∧ size errs = nerr ∧ length drop_rows + length reindex + nerr = size (dirty paths).

Lemma classify_paths paths :
  let '((drop_rows, reindex), o) := classify plan (vec_dedup (sort_by str_leb paths)) no_outcome in
  refreshed o = 0 ∧ skipped_over_budget o = 0
  ∧ classified paths drop_rows reindex (stale_paths o) (failed o).
Proof.
  destruct (sweep_files paths) as [Hnd Hin].
  pose proof (classify_ok (vec_dedup (sort_by str_leb paths)) no_outcome Hnd) as H.
  destruct (classify _ _ _) as [[drop_rows reindex] o].
  destruct H as (Hr & Hs & Hd1 & Hr1 & Hd & Hre & Hlen & Herr & Hst).
  rewrite size_filter_files in Hlen, Herr. simpl in Hlen, Herr, Hst.
  rewrite (left_id_L ∅ (∪)) in Hst.
  split_and!; [done|done|]. split_and!; [done|done| | | | |].
  - intros f. by rewrite Hd, Hin.
  - intros f h. by rewrite Hre, Hin.
  - intros f. rewrite Hst, elem_of_list_to_set, list_elem_of_filter, Hin. tauto.
  - rewrite Hst, (fin_sets.size_list_to_set (C := gset string)) by by apply NoDup_filter.
    by rewrite size_filter_files.
  - exact Hlen.
Qed.

Section Found.
Context (paths drop_rows : list string) (reindex : list (string * string)) (errs : gset string)
        (nerr : nat) (Hc : classified paths drop_rows reindex errs nerr).

Lemma found_reindex f : f ∈ reindex.*1 → ∃ h, f ∈ paths ∧ plan f = Ok (Reindex h).
Proof.
  destruct Hc as (_ & _ & _ & Hr & _). intros ([g h] & -> & Hg)%list_elem_of_fmap.
  exists h. by apply Hr.
Qed.

Lemma found_dirty f :
  f ∈ dirty paths ↔ f ∈ drop_rows ∨ f ∈ reindex.*1 ∨ f ∈ errs.
Proof.
  destruct Hc as (_ & _ & Hd & Hr & He & _). rewrite elem_of_dirty_files, Hd, He.
  split.
  - unfold is_dirty, is_err. intros [Hf Hp]. destruct (plan f) as [[| |h]|e] eqn:E; [done| | |].
    + by left.
    + right; left. apply list_elem_of_fmap. exists (f, h). split; [done|]. by apply Hr.
    + by right; right.
  - unfold is_dirty, is_err. intros [[Hf ->]|[(h & Hf & ->)%found_reindex|[Hf Hp]]]; [done|done|].
    by destruct (plan f).
Qed.

(** Names of indexed files, dropped rows and failures do not overlap. *)
Lemma found_disjoint (l1 l2 : list (string * string)) :
  reindex = l1 ++ l2 →
  size (list_to_set l2.*1 ∪ errs) = length l2 + nerr
  ∧ size (list_to_set l1.*1 ∪ list_to_set drop_rows ∪ (list_to_set l2.*1 ∪ errs) : gset string)
    = length l1 + length drop_rows + (length l2 + nerr).
Proof.
  intros Hl. destruct Hc as (Hnd & Hnr & Hd & _ & He & Hne & _).
  assert (∀ f, f ∈ l1.*1 ∨ f ∈ l2.*1 → ∃ h, plan f = Ok (Reindex h)) as Hpl.
  { intros f Hf. destruct (found_reindex f) as (h & _ & ?); [|by exists h].
    rewrite Hl, fmap_app, elem_of_app. done. }
  rewrite Hl, fmap_app in Hnr. apply NoDup_app in Hnr as (Hn1 & Hn12 & Hn2).
  assert (∀ f, f ∈ errs → is_err f = true) as Hee by by intros f [_ ?]%He.
  assert (size (list_to_set l2.*1 ∪ errs) = length l2 + nerr) as H2.
  { rewrite (fin_sets.size_union (list_to_set l2.*1 : gset string)).
    - rewrite (fin_sets.size_list_to_set (C := gset string)), length_fmap by done. by rewrite Hne.
    - apply elem_of_disjoint. intros f. rewrite elem_of_list_to_set. intros Hf Hfe%Hee.
      destruct (Hpl f) as [h Hh]; [by right|]. unfold is_err in Hfe. by rewrite Hh in Hfe. }
  split; [done|].
  rewrite (fin_sets.size_union (list_to_set l1.*1 ∪ list_to_set drop_rows : gset string)), H2.
  - rewrite (fin_sets.size_union (list_to_set l1.*1 : gset string)).
    + by rewrite !(fin_sets.size_list_to_set (C := gset string)), length_fmap by done.
    + apply elem_of_disjoint. intros f. rewrite !elem_of_list_to_set. intros Hf [_ Hfd]%Hd.
      destruct (Hpl f) as [h Hh]; [by left|]. congruence.
  - apply elem_of_disjoint. intros f. rewrite !elem_of_union, !elem_of_list_to_set.
    intros [Hf|[_ Hf]%Hd] [Hf'|Hf'%Hee].
    + by apply (Hn12 f).
    + destruct (Hpl f) as [h Hh]; [by left|]. unfold is_err in Hf'. by rewrite Hh in Hf'.
    + destruct (Hpl f) as [h Hh]; [by right|]. congruence.
    + unfold is_err in Hf'. by rewrite Hf in Hf'.
Qed.
End Found.

(** A refresh accounts for every file: each file that is not fresh is counted
    once, as refreshed, over budget or failed, and is marked stale exactly when
    it was not refreshed; at most [budget] files are indexed, dropped rows are
    never deferred, everything goes in one batch, and nothing is written while
    another run is in flight. *)
Theorem resync_stale_files_ok paths budget run_in_flight apply_ok :
  let '(o, batch) := resync_stale_files plan paths budget run_in_flight apply_ok in
  refreshed o + skipped_over_budget o + failed o = size (dirty paths)
  ∧ size (stale_paths o) = skipped_over_budget o + failed o ∧ stale_paths o ⊆ dirty paths
  ∧ match batch with
    | None => refreshed o = 0
    | Some (drop_rows, reindex) =>
        run_in_flight = false ∧ length reindex ≤ budget
        ∧ (∀ f, f ∈ drop_rows ↔ f ∈ paths ∧ plan f = Ok DropStaleRow)
        ∧ (∀ f h, (f, h) ∈ reindex → f ∈ paths ∧ plan f = Ok (Reindex h))
        ∧ refreshed o = (if apply_ok then length drop_rows + length reindex else 0)
        ∧ (0 < skipped_over_budget o → length reindex = budget)
    end.
Proof.
  unfold resync_stale_files. destruct (sweep_files paths) as [_ Hin].
  case_bool_decide as Hnil.
  { assert (dirty paths = ∅) as ->; [|by rewrite size_empty].
    apply elem_of_equiv_empty_L. intros f [Hf _]%elem_of_dirty_files. rewrite <-Hin, Hnil in Hf.
    by apply elem_of_nil in Hf. }
  pose proof (classify_paths paths) as H. destruct (classify _ _ _) as [[drop_rows reindex] o].
  destruct H as (Hr & Hs & Hc). pose proof (found_dirty _ _ _ _ _ Hc) as Hdirty.
  pose proof (found_disjoint _ _ _ _ _ Hc (take budget reindex) (drop budget reindex)) as Hsz.
  rewrite take_drop in Hsz. specialize (Hsz eq_refl) as [Hsz1 Hsz2].
  destruct Hc as (_ & _ & Hd & Hre & He & Hne & Htot).
  assert (length (take budget reindex) + length (drop budget reindex) = length reindex) as Hlen
    by (rewrite <-length_app; by rewrite take_drop).
  assert (∀ f, f ∈ (take budget reindex).*1 ∨ f ∈ (drop budget reindex).*1 → f ∈ reindex.*1) as Hsub.
  { intros f Hf. rewrite <-(take_drop budget reindex), fmap_app, elem_of_app. done. }
  destruct (bool_decide (drop_rows = []) && bool_decide (reindex = [])) eqn:Hempty.
  { apply andb_true_iff in Hempty as [->%bool_decide_eq_true ->%bool_decide_eq_true].
    simpl in Htot. split_and!; [lia|lia| |done]. intros f Hf. apply Hdirty. by right; right. }
  clear Hempty. assert (length (take budget reindex) ≤ budget) as Hle by (rewrite length_take; lia).
  assert (0 < length (drop budget reindex) → length (take budget reindex) = budget) as Hover
    by (rewrite length_take, length_drop; lia).
  assert (∀ f h, (f, h) ∈ take budget reindex → f ∈ paths ∧ plan f = Ok (Reindex h)) as Hbatch.
  { intros f h Hf. apply Hre. rewrite <-(take_drop budget reindex). set_solver. }
  destruct run_in_flight, apply_ok; simpl; split_and!;
    try (done || lia || (intros f; rewrite !elem_of_union, !elem_of_list_to_set, Hdirty;
      specialize (Hsub f); tauto) || (intros; apply Hover; lia)).
Qed.
End SweepOk.
