(* ===== verification/Utf8.v ===== *)
(** * Characters

    [char] and [str::chars] of the standard library: a [char] is its scalar value
    in [Z], a [&str] the byte string of its UTF-8 encoding.  The Unicode property
    tables ([char::is_uppercase] and the like) and [str::to_lowercase] are a class
    ([Unicode]) with what the code relies on ([UnicodeOk]: the ASCII rows), of
    which [ascii_unicode] is an instance; [char::is_whitespace] is written out. *)

From S2P Require Import Prelude Str.

#[local] Open Scope Z_scope.

Definition byte_of (b : ascii) : Z := Z.of_N (N_of_ascii b).
Definition of_byte (n : Z) : ascii := ascii_of_N (Z.to_N n).

(** [char::encode_utf8] *)
Definition encode_char (c : Z) : string :=
  if c <? 128 then String (of_byte c) ""
  else if c <? 2048 then
    String (of_byte (192 + c / 64)) (String (of_byte (128 + c mod 64)) "")
  else if c <? 65536 then
    String (of_byte (224 + c / 4096))
      (String (of_byte (128 + c / 64 mod 64)) (String (of_byte (128 + c mod 64)) ""))
  else
    String (of_byte (240 + c / 262144))
      (String (of_byte (128 + c / 4096 mod 64))
        (String (of_byte (128 + c / 64 mod 64)) (String (of_byte (128 + c mod 64)) ""))).

(** [String::from_iter] *)
Fixpoint encode (cs : list Z) : string :=
  match cs with
  | [] => ""
  | c :: cs' => encode_char c +:+ encode cs'
  end.

(** [str::chars], on the UTF-8 bytes of a [str] *)
Fixpoint chars (s : string) : list Z :=
  match s with
  | EmptyString => []
  | String b0 s0 =>
      let n := byte_of b0 in
      if n <? 128 then n :: chars s0
      else match s0 with
      | EmptyString => []
      | String b1 s1 =>
          if n <? 224 then ((n - 192) * 64 + (byte_of b1 - 128)) :: chars s1
          else match s1 with
          | EmptyString => []
          | String b2 s2 =>
              if n <? 240
              then ((n - 224) * 4096 + (byte_of b1 - 128) * 64 + (byte_of b2 - 128)) :: chars s2
              else match s2 with
              | EmptyString => []
              | String b3 s3 =>
                  ((n - 240) * 262144 + (byte_of b1 - 128) * 4096
                   + (byte_of b2 - 128) * 64 + (byte_of b3 - 128)) :: chars s3
              end
          end
      end
  end.

(** The values a [char] can hold, surrogates included. *)
Definition is_char (c : Z) : Prop := 0 <= c < 1114112.

(** A byte string that is a [str]. *)
Definition is_str (s : string) : Prop := ∃ cs, Forall is_char cs ∧ s = encode cs.

(** A Unicode scalar value. *)
Definition is_scalar (c : Z) : bool :=
  (0 <=? c) && (c <? 1114112) && negb ((55296 <=? c) && (c <? 57344)).

(** [str::from_utf8]: the bytes decode to scalar values that encode to them. *)
Definition from_utf8 (s : string) : option string :=
  if forallb is_scalar (chars s) && String.eqb (encode (chars s)) s then Some s else None.

Lemma from_utf8_Some s t : from_utf8 s = Some t → t = s ∧ is_str s.
Proof.
  unfold from_utf8. destruct (forallb is_scalar (chars s)) eqn:E1; [|done].
  destruct (String.eqb_spec (encode (chars s)) s) as [E2|]; [|done]. simpl. intros [= <-]. split; [done|].
  exists (chars s). split; [|done]. apply Forall_forall. intros c Hc. rewrite forallb_forall in E1.
  specialize (E1 c ltac:(by apply list_elem_of_In)). unfold is_scalar, is_char in *. by bool_prop; lia.
Qed.

Lemma byte_of_of_byte n : 0 <= n < 256 → byte_of (of_byte n) = n.
Proof.
  intros Hn. unfold byte_of, of_byte. rewrite Ascii.N_ascii_embedding by lia. lia.
Qed.

Lemma chars_encode_char c s : is_char c → chars (encode_char c +:+ s) = c :: chars s.
Proof.
  unfold is_char, encode_char. intros Hc.
  destruct (Z.ltb_spec c 128); [|destruct (Z.ltb_spec c 2048); [|destruct (Z.ltb_spec c 65536)]];
    cbn [String.append chars]; rewrite !byte_of_of_byte by (Z.to_euclidean_division_equations; lia).
  - by rewrite (proj2 (Z.ltb_lt c 128)) by lia.
  - rewrite (proj2 (Z.ltb_ge _ 128)) by (Z.to_euclidean_division_equations; lia).
    rewrite (proj2 (Z.ltb_lt _ 224)) by (Z.to_euclidean_division_equations; lia).
    f_equal. Z.to_euclidean_division_equations; lia.
  - rewrite (proj2 (Z.ltb_ge _ 128)) by (Z.to_euclidean_division_equations; lia).
    rewrite (proj2 (Z.ltb_ge _ 224)) by (Z.to_euclidean_division_equations; lia).
    rewrite (proj2 (Z.ltb_lt _ 240)) by (Z.to_euclidean_division_equations; lia).
    f_equal. Z.to_euclidean_division_equations; lia.
  - rewrite (proj2 (Z.ltb_ge _ 128)) by (Z.to_euclidean_division_equations; lia).
    rewrite (proj2 (Z.ltb_ge _ 224)) by (Z.to_euclidean_division_equations; lia).
    rewrite (proj2 (Z.ltb_ge _ 240)) by (Z.to_euclidean_division_equations; lia).
    f_equal. Z.to_euclidean_division_equations; lia.
Qed.

Lemma chars_encode cs : Forall is_char cs → chars (encode cs) = cs.
Proof.
  induction 1 as [|c cs Hc _ IH]; [done|].
  cbn [encode]. by rewrite chars_encode_char, IH.
Qed.

Lemma encode_chars s : is_str s → encode (chars s) = s.
Proof. intros (cs & Hcs & ->). by rewrite chars_encode. Qed.

Lemma chars_ok s : is_str s → Forall is_char (chars s).
Proof. intros (cs & Hcs & ->). by rewrite chars_encode. Qed.

Lemma encode_app cs ds : encode (cs ++ ds) = encode cs +:+ encode ds.
Proof. induction cs as [|c cs IH]; [done|]. simpl. by rewrite IH, str_app_assoc. Qed.

Lemma is_str_encode cs : Forall is_char cs → is_str (encode cs).
Proof. by exists cs. Qed.

Lemma is_str_app s t : is_str s → is_str t → is_str (s +:+ t).
Proof.
  intros (cs & Hcs & ->) (ds & Hds & ->). exists (cs ++ ds).
  split; [by apply Forall_app|by rewrite encode_app].
Qed.

Lemma is_str_ascii s : str_forall is_ascii s = true → is_str s ∧ Forall (λ c, 0 <= c < 128) (chars s).
Proof.
  induction s as [|b s IH]; simpl; [split; [by exists []|constructor]|].
  intros [Hb [(cs & Hcs & Hs) Hf]%IH]%andb_true_iff. unfold is_ascii in Hb. apply N.ltb_lt in Hb.
  assert (0 <= byte_of b < 128) as Hb' by (unfold byte_of; lia).
  rewrite (proj2 (Z.ltb_lt _ 128)) by lia. split; [|by constructor].
  exists (byte_of b :: cs). split; [constructor; [unfold is_char; lia|done]|].
  simpl. unfold encode_char. rewrite (proj2 (Z.ltb_lt _ 128)) by lia. simpl. rewrite Hs. f_equal.
  unfold of_byte, byte_of. by rewrite N2Z.id, Ascii.ascii_N_embedding.
Qed.

(** [char::is_whitespace]: the Unicode property White_Space. *)
Definition is_whitespace (c : Z) : bool :=
  (9 <=? c) && (c <=? 13) || (c =? 32) || (c =? 133) || (c =? 160) || (c =? 5760)
  || (8192 <=? c) && (c <=? 8202) || (c =? 8232) || (c =? 8233) || (c =? 8239)
  || (c =? 8287) || (c =? 12288).

(** [str::trim_end] *)
Fixpoint drop_while (f : Z → bool) (cs : list Z) : list Z :=
  match cs with
  | [] => []
  | c :: cs' => if f c then drop_while f cs' else cs
  end.
Definition trim_end (s : string) : string :=
  encode (rev (drop_while is_whitespace (rev (chars s)))).

(** [str::split] at the characters a predicate holds of: one piece more than
    separators. *)
Fixpoint split_chars (f : Z → bool) (cs : list Z) : list (list Z) :=
  match cs with
  | [] => [[]]
  | c :: cs' =>
      if f c then [] :: split_chars f cs'
      else match split_chars f cs' with
           | [] => [[c]]
           | w :: ws => (c :: w) :: ws
           end
  end.

(** The non-empty pieces: [split(..).filter(|w| !w.is_empty())]. *)
Definition pieces (f : Z → bool) (cs : list Z) : list (list Z) :=
  filter (λ w, w ≠ []) (split_chars f cs).

(** [str::split_whitespace] *)
Definition split_whitespace (s : string) : list string :=
  encode <$> pieces is_whitespace (chars s).

Lemma split_chars_not_nil f cs : split_chars f cs ≠ [].
Proof. destruct cs as [|c cs]; simpl; [done|]. destruct (f c); [done|]. by destruct (split_chars f cs). Qed.

Lemma split_chars_no_sep f cs : Forall (Forall (λ c, f c = false)) (split_chars f cs).
Proof.
  induction cs as [|c cs IH]; simpl; [by repeat constructor|].
  destruct (f c) eqn:E; [by constructor|].
  destruct (split_chars f cs) as [|w ws]; inversion IH; subst; by repeat constructor.
Qed.

Lemma split_chars_word f w : Forall (λ c, f c = false) w → split_chars f w = [w].
Proof. induction 1 as [|c w Hc _ IH]; simpl; [done|]. by rewrite Hc, IH. Qed.

Lemma split_chars_app f w c cs :
  Forall (λ c, f c = false) w → f c = true →
  split_chars f (w ++ c :: cs) = w :: split_chars f cs.
Proof.
  intros Hw Hc. induction Hw as [|d w Hd _ IH]; simpl; [by rewrite Hc|]. by rewrite Hd, IH.
Qed.

Lemma pieces_ok f cs : Forall (λ w, w ≠ [] ∧ Forall (λ c, f c = false) w) (pieces f cs).
Proof.
  unfold pieces. apply Forall_forall. intros w [Hw Hin]%list_elem_of_filter.
  split; [done|]. pose proof (split_chars_no_sep f cs) as H. rewrite Forall_forall in H. auto.
Qed.

Lemma pieces_concat f cs : mjoin (pieces f cs) = filter (λ c, f c = false) cs.
Proof.
  unfold pieces. induction cs as [|c cs IH]; [done|]. simpl.
  destruct (f c) eqn:E.
  - rewrite filter_cons_False by (by intros []). by rewrite (filter_cons_False _ c) by (by rewrite E).
  - rewrite (filter_cons_True _ c) by done. rewrite <-IH.
    pose proof (split_chars_not_nil f cs). destruct (split_chars f cs) as [|w ws]; [done|].
    rewrite filter_cons_True by done. destruct w as [|d w]; cbn [mjoin list_join app].
    + by rewrite (filter_cons_False _ []) by (by intros []).
    + by rewrite filter_cons_True by done.
Qed.

(** ** Unicode tables *)

Class Unicode := {
  is_uppercase : Z → bool;       (* [char::is_uppercase] *)
  is_lowercase : Z → bool;       (* [char::is_lowercase] *)
  is_alphanumeric : Z → bool;    (* [char::is_alphanumeric] *)
  to_lowercase : string → string (* [str::to_lowercase] *)
}.

Definition ascii_upper_char (c : Z) : bool := (65 <=? c) && (c <=? 90).
Definition ascii_lower_char (c : Z) : bool := (97 <=? c) && (c <=? 122).
Definition ascii_digit_char (c : Z) : bool := (48 <=? c) && (c <=? 57).

(** The rows of the tables below 128, and that no letter is both cases. *)
Class UnicodeOk (U : Unicode) : Prop := {
  upper_ascii c : 0 <= c < 128 → is_uppercase c = ascii_upper_char c;
  lower_ascii c : 0 <= c < 128 → is_lowercase c = ascii_lower_char c;
  alphanumeric_ascii c : 0 <= c < 128 →
    is_alphanumeric c = ascii_upper_char c || ascii_lower_char c || ascii_digit_char c;
  alphanumeric_not_space c : is_alphanumeric c = true → is_whitespace c = false;
  to_lowercase_ascii s : str_forall is_ascii s = true → to_lowercase s = to_ascii_lowercase s;
}.

(** Tables that know ASCII only. *)
Definition ascii_unicode : Unicode := {|
  is_uppercase := ascii_upper_char;
  is_lowercase := ascii_lower_char;
  is_alphanumeric c := ascii_upper_char c || ascii_lower_char c || ascii_digit_char c;
  to_lowercase := to_ascii_lowercase |}.

#[export] Instance ascii_unicode_ok : UnicodeOk ascii_unicode.
Proof.
  split; try done. intros c. simpl. unfold ascii_upper_char, ascii_lower_char, ascii_digit_char, is_whitespace.
  rewrite !orb_true_iff, !andb_true_iff, !Z.leb_le. intros Hc.
  repeat match goal with |- (_ || _) = false => apply orb_false_iff; split end; try (apply Z.eqb_neq; lia);
    apply andb_false_iff; rewrite !Z.leb_gt; lia.
Qed.
