(* ===== verification/Tokens.v ===== *)
(** * Identifier tokens and acronyms

    [utils/tokenizer.rs] cuts identifiers into words for the full-text index and
    [utils/acronyms.rs] widens a query token that is a known acronym. *)

From S2P Require Import Prelude Str Utf8.

Definition UNDERSCORE : Z := 95.

Section Tokens.
Context `{U : Unicode}.

(** The test at an upper-case [c] when [current] is not empty: the last character
    pushed, and the one after [c]. *)
Definition starts_word (current : list Z) (c : Z) (rest : list Z) : bool :=
  is_uppercase c
  && match last current with
     | Some l =>
         is_lowercase l
         || is_uppercase l && match rest with d :: _ => is_lowercase d | [] => false end
     | None => false
     end.

(** [parts.push(std::mem::take(&mut current))] when [current] is not empty *)
Definition flush (parts : list (list Z)) (current : list Z) : list (list Z) :=
  match current with [] => parts | _ => parts ++ [current] end.

(** The [while] loop over the characters. *)
Fixpoint ident_loop (cs : list Z) (parts : list (list Z)) (current : list Z) : list (list Z) :=
  match cs with
  | [] => flush parts current
  | c :: rest =>
      if (c =? UNDERSCORE)%Z then ident_loop rest (flush parts current) []
      else if starts_word current c rest
           then ident_loop rest (parts ++ [current]) [c]
           else ident_loop rest parts (current ++ [c])
  end.

Definition ident_parts (name : string) : list string := encode <$> ident_loop (chars name) [] [].

Definition split_identifier (name : string) : string :=
  let parts := ident_parts name in
  if length parts <=? 1 then name else join " " parts +:+ " " +:+ name.

(** [str::rfind] *)
Fixpoint rfind (p s : string) : option nat :=
  match s with
  | EmptyString => match p with EmptyString => Some 0 | String _ _ => None end
  | String _ s' =>
      match rfind p s' with
      | Some i => Some (S i)
      | None => if starts_with p s then Some 0 else None
      end
  end.

Definition split_identifier_tokens (name : string) : string :=
  let full := split_identifier name in
  if String.eqb full name then full
  else match rfind name full with
       | Some pos => trim_end (String.substring 0 pos full)
       | None => full
       end.

Definition ACRONYMS : list (string * list string) :=
  [("rrf", ["reciprocal"; "rank"; "fusion"]);
   ("bm25", ["best"; "match"]);
   ("fts", ["full"; "text"; "search"]);
   ("fts5", ["full"; "text"; "search"]);
   ("ast", ["abstract"; "syntax"; "tree"]);
   ("cst", ["concrete"; "syntax"; "tree"]);
   ("lsp", ["language"; "server"; "protocol"]);
   ("mcp", ["model"; "context"; "protocol"]);
   ("rpc", ["remote"; "procedure"; "call"]);
   ("sql", ["structured"; "query"; "language"]);
   ("orm", ["object"; "relational"; "mapping"]);
   ("cte", ["common"; "table"; "expression"]);
   ("jwt", ["json"; "web"; "token"]);
   ("ttl", ["time"; "live"]);
   ("dag", ["directed"; "acyclic"; "graph"]);
   ("rbac", ["role"; "based"; "access"; "control"]);
   ("crud", ["create"; "read"; "update"; "delete"]);
   ("cors", ["cross"; "origin"; "resource"; "sharing"])].

Fixpoint expand_in (token : string) (l : list (string * list string)) : list string :=
  match l with
  | [] => []
  | (key, expansion) :: l' =>
      if eq_ignore_ascii_case token key then expansion else expand_in token l'
  end.
Definition expand_acronym (token : string) : list string := expand_in token ACRONYMS.

(** ** The words of an identifier

    A cut falls before an upper-case character that follows a lower-case one
    ([get|User]), or that ends a run of upper-case ones ([HTTP|Parser]). *)
Definition cut (a b : Z) (rest : list Z) : Prop :=
  is_uppercase b = true
  ∧ (is_lowercase a = true
     ∨ is_uppercase a = true ∧ ∃ d rest', rest = d :: rest' ∧ is_lowercase d = true).

(** [w] has no cut inside, and one follows it, unless [rest] is empty or starts
    with an underscore. *)
Definition is_word (w rest : list Z) : Prop :=
  w ≠ [] ∧ UNDERSCORE ∉ w
  ∧ (∀ u a b v, w = u ++ a :: b :: v → ¬ cut a b (v ++ rest))
  ∧ match rest with
    | [] => True
    | c :: rest' => c = UNDERSCORE ∨ ∃ u a, w = u ++ [a] ∧ cut a c rest'
    end.

(** The maximal words of an identifier, in order. *)
Inductive Words : list Z → list (list Z) → Prop :=
| words_nil : Words [] []
| words_sep cs ws : Words cs ws → Words (UNDERSCORE :: cs) ws
| words_word w rest ws : is_word w rest → Words rest ws → Words (w ++ rest) (w :: ws).

Lemma starts_word_cut u a c rest : starts_word (u ++ [a]) c rest = true ↔ cut a c rest.
Proof.
  unfold starts_word, cut. rewrite last_snoc, andb_true_iff, orb_true_iff, andb_true_iff.
  split.
  - intros [? [?|[? ?]]]; split; try done; [by left|right]. destruct rest; [done|eauto].
  - intros [? [?|(? & d & rest' & -> & ?)]]; split; try done; [by left|by right].
Qed.

(** The loop's invariant: [current] is a word so far. *)
Definition word_so_far (current cs : list Z) : Prop :=
  UNDERSCORE ∉ current ∧ ∀ u a b v, current = u ++ a :: b :: v → ¬ cut a b (v ++ cs).

Lemma snoc_pair_inv {A} (l u v : list A) x a b :
  l ++ [x] = u ++ a :: b :: v →
  (v = [] ∧ b = x ∧ l = u ++ [a]) ∨ ∃ v', v = v' ++ [x] ∧ l = u ++ a :: b :: v'.
Proof.
  destruct v as [|y v' _] using rev_ind.
  - intros H. left. replace (u ++ [a; b]) with ((u ++ [a]) ++ [b]) in H by (by rewrite <-app_assoc).
    apply app_inj_2 in H as [-> [= ->]]; done.
  - intros H. right. exists v'.
    replace (u ++ a :: b :: v' ++ [y]) with ((u ++ a :: b :: v') ++ [y]) in H by (by rewrite <-app_assoc).
    apply app_inj_2 in H as [-> [= ->]]; done.
Qed.

Lemma word_so_far_nil cs : word_so_far [] cs.
Proof. split; [apply not_elem_of_nil|]. intros [|? ?] ?? ?; done. Qed.

Lemma word_so_far_snoc current c rest :
  word_so_far current (c :: rest) → c ≠ UNDERSCORE → starts_word current c rest = false →
  word_so_far (current ++ [c]) rest.
Proof.
  intros [Hu Hc] Hne Hs. split.
  { rewrite elem_of_app, list_elem_of_singleton. naive_solver. }
  intros u a b v [(-> & -> & ->)|(v' & -> & ->)]%snoc_pair_inv.
  - simpl. rewrite <-starts_word_cut. by rewrite Hs.
  - rewrite <-app_assoc. by apply (Hc u a b v').
Qed.

Lemma ident_loop_acc cs parts current :
  ident_loop cs parts current = parts ++ ident_loop cs [] current.
Proof.
  revert parts current. induction cs as [|c cs IH]; intros parts current; simpl.
  - destruct current; simpl; [by rewrite app_nil_r|done].
  - case_goal; [|case_goal].
    + rewrite IH, (IH (flush [] current)). by destruct current; simpl; rewrite <-?app_assoc.
    + by rewrite IH, (IH [current]), <-app_assoc.
    + by rewrite IH.
Qed.

Lemma ident_loop_words cs current :
  word_so_far current cs → Words (current ++ cs) (ident_loop cs [] current).
Proof.
  revert current. induction cs as [|c cs IH]; intros current Hc; simpl.
  - rewrite app_nil_r. destruct current as [|c current]; [constructor|].
    rewrite <-(app_nil_r (c :: current)) at 1. constructor; [|constructor].
    destruct Hc as [Hu Hc]. done.
  - destruct (Z.eqb_spec c UNDERSCORE) as [->|Hne].
    + rewrite ident_loop_acc. pose proof (IH [] (word_so_far_nil cs)) as Hrest.
      destruct current as [|d current]; simpl; [by constructor|].
      change (d :: current ++ UNDERSCORE :: cs) with ((d :: current) ++ UNDERSCORE :: cs).
      constructor; [|by constructor]. destruct Hc as [Hu Hc].
      split; [done|]. split; [done|]. split; [done|]. by left.
    + destruct (starts_word current c cs) eqn:E.
      * rewrite ident_loop_acc. destruct current as [|a u _] using rev_ind.
        { unfold starts_word in E. by rewrite andb_false_r in E. }
        destruct Hc as [Hu Hc]. constructor.
        { split; [by destruct u|]. split; [done|]. split; [done|]. right. exists u, a.
          split; [done|]. by apply starts_word_cut in E. }
        apply (IH [c]). split; [rewrite list_elem_of_singleton; done|].
        intros [|? [|? ?]] ?? ?; done.
      * replace (current ++ c :: cs) with ((current ++ [c]) ++ cs) by (by rewrite <-app_assoc).
        apply IH. by apply word_so_far_snoc.
Qed.

Lemma ident_parts_words name : ∃ ws, ident_parts name = encode <$> ws ∧ Words (chars name) ws.
Proof. exists (ident_loop (chars name) [] []). split; [done|]. apply (ident_loop_words _ []), word_so_far_nil. Qed.

Lemma words_concat cs ws : Words cs ws → mjoin ws = filter (λ c, c ≠ UNDERSCORE) cs.
Proof.
  induction 1 as [|cs ws _ IH|w rest ws (_ & Hu & _) _ IH]; [done| |].
  - by rewrite filter_cons_False by (by intros []).
  - cbn [mjoin list_join]. rewrite filter_app, <-IH. f_equal. symmetry. apply filter_all.
    intros c Hc ->. done.
Qed.

Lemma words_no_underscore cs ws : Words cs ws → Forall (λ w, w ≠ [] ∧ UNDERSCORE ∉ w) ws.
Proof. induction 1 as [|cs ws _ IH|w rest ws (Hw & Hu & _) _ IH]; by repeat constructor. Qed.

(** ** [rfind] and [trim_end] *)

Lemma rfind_app_r p s t i : rfind p t = Some i → rfind p (s +:+ t) = Some (String.length s + i).
Proof. intros H. induction s as [|c s IH]; simpl; [done|by rewrite IH]. Qed.

Lemma rfind_self p : rfind p p = Some 0.
Proof.
  destruct p as [|c p]; [done|]. simpl.
  assert (∀ q s, String.length s < String.length q → rfind q s = None) as Hlt.
  { intros q s. induction s as [|d s IH]; simpl; intros Hl.
    - destruct q; simpl in *; [lia|done].
    - rewrite IH by (simpl in *; lia).
      destruct (starts_with q (String d s)) eqn:E; [|done].
      apply starts_with_spec in E as [t Ht]. apply (f_equal String.length) in Ht.
      rewrite str_length_app in Ht. simpl in *. lia. }
  rewrite Hlt by (simpl; lia).
  by rewrite (proj2 (starts_with_spec (String c p) (String c p))) by (exists ""; by rewrite str_app_nil_r).
Qed.

Lemma substring_app s t : String.substring 0 (String.length s) (s +:+ t) = s.
Proof. induction s as [|c s IH]; simpl; [by destruct t|by rewrite IH]. Qed.

Lemma trim_end_space cs l :
  Forall is_char cs → last cs = Some l → is_whitespace l = false →
  trim_end (encode cs +:+ " ") = encode cs.
Proof.
  intros Hcs Hl Hw. unfold trim_end.
  assert (" " = encode [32%Z]) as -> by done. rewrite <-encode_app.
  rewrite chars_encode by (apply Forall_app; split; [done|repeat constructor; done]).
  rewrite rev_app_distr. cbn [rev app drop_while].
  destruct cs as [|l' cs' _] using rev_ind; [done|]. rewrite last_snoc in Hl.
  injection Hl as ->. rewrite rev_app_distr. cbn [rev app].
  cbn [drop_while]. change (is_whitespace 32) with true. cbn iota.
  rewrite Hw. cbn [rev]. by rewrite rev_involutive.
Qed.

(** [join(" ")] on characters *)
Fixpoint join_chars (ws : list (list Z)) : list Z :=
  match ws with
  | [] => []
  | [w] => w
  | w :: ws' => w ++ 32%Z :: join_chars ws'
  end.

Lemma join_encode ws : join " " (encode <$> ws) = encode (join_chars ws).
Proof.
  induction ws as [|w [|w' ws] IH]; [done|done|].
  change (join " " (encode <$> w :: w' :: ws))
    with (encode w +:+ " " +:+ join " " (encode <$> w' :: ws)).
  rewrite IH. change (join_chars (w :: w' :: ws)) with (w ++ 32%Z :: join_chars (w' :: ws)).
  by rewrite encode_app.
Qed.

Lemma join_chars_char ws : Forall (Forall is_char) ws → Forall is_char (join_chars ws).
Proof.
  induction 1 as [|w [|w' ws] Hw H IH]; [constructor|done|].
  change (join_chars (w :: w' :: ws)) with (w ++ 32%Z :: join_chars (w' :: ws)).
  apply Forall_app. split; [done|]. constructor; [done|apply IH].
Qed.

Lemma last_join_chars ws c :
  Forall (λ w, w ≠ []) ws → ws ≠ [] → last (join_chars ws) = Some c → ∃ w, w ∈ ws ∧ c ∈ w.
Proof.
  induction 1 as [|w [|w' ws] Hw H IH]; [done| |]; intros _.
  - simpl. intros Hl%last_Some_elem_of. exists w. by split; [left|].
  - change (join_chars (w :: w' :: ws)) with (w ++ 32%Z :: join_chars (w' :: ws)).
    rewrite last_app. rewrite last_cons.
    destruct (last (join_chars (w' :: ws))) as [d|] eqn:E.
    + intros [= ->]. destruct (IH ltac:(done) eq_refl) as (v & ? & ?). exists v. by split; [right|].
    + apply last_None in E. inversion H; subst. destruct w' as [|x w']; [done|]. by destruct ws.
Qed.

Lemma words_chars cs ws w c : Words cs ws → w ∈ ws → c ∈ w → c ∈ cs.
Proof.
  intros H Hw Hc. assert (c ∈ mjoin ws) as Hj by (apply list_elem_of_join; eauto).
  rewrite (words_concat cs ws H) in Hj. by apply list_elem_of_filter in Hj as [_ ?].
Qed.

(** An identifier is cut into its words and nothing is lost: the words are its
    maximal runs without an underscore or a case boundary, the index text is the
    words followed by the name itself, and the name is stripped off again
    exactly, so a query for the words finds what was stored. *)
Theorem split_identifier_words name :
  is_str name →
  ∃ ws, Words (chars name) ws
    ∧ mjoin ws = filter (λ c, c ≠ UNDERSCORE) (chars name)
    ∧ (length ws ≤ 1 → split_identifier name = name ∧ split_identifier_tokens name = name)
    ∧ (1 < length ws →
       split_identifier name = join " " (encode <$> ws) +:+ " " +:+ name
       ∧ (Forall (λ c, is_whitespace c = false) (chars name) →
          split_identifier_tokens name = join " " (encode <$> ws))).
Proof.
  intros Hname. destruct (ident_parts_words name) as (ws & Hws & Hw). exists ws.
  split; [done|]. split; [by apply words_concat|].
  unfold split_identifier_tokens, split_identifier. rewrite Hws, length_fmap.
  destruct (Nat.leb_spec (length ws) 1) as [Hl|Hl]; split; intros Hl'; try lia.
  { by rewrite String.eqb_refl. }
  split; [done|]. intros Hns.
  set (words := join " " (encode <$> ws)).
  assert (String.eqb (words +:+ " " +:+ name) name = false) as ->.
  { apply String.eqb_neq. intros E%(f_equal String.length). rewrite !str_length_app in E. simpl in E. lia. }
  rewrite <-str_app_assoc, (rfind_app_r _ _ _ 0), Nat.add_0_r, substring_app by apply rfind_self.
  unfold words. rewrite join_encode.
  assert (Forall (Forall is_char) ws) as Hch.
  { apply Forall_forall. intros w Hin. apply Forall_forall. intros c Hc.
    pose proof (chars_ok name Hname) as H. rewrite Forall_forall in H. eauto using words_chars. }
  pose proof (words_no_underscore _ _ Hw) as Hne.
  assert (ws ≠ []) as Hnil by (by destruct ws; simpl in *; [lia|]).
  destruct (last (join_chars ws)) as [l|] eqn:El.
  - apply (trim_end_space _ l); [by apply join_chars_char|done|].
    apply last_join_chars in El as (w & Hin & Hc); [|by eapply Forall_impl; [done|intros ? []]|done].
    rewrite Forall_forall in Hns. eauto using words_chars.
  - apply last_None in El. destruct ws as [|[|c w] [|w' ws]]; simpl in *; try done; try lia.

Qed.

End Tokens.

#[local] Existing Instance ascii_unicode.

Lemma split_identifier_words_witness :
  ∃ ws, Words (chars "parseHTMLNode_v2") ws
    ∧ mjoin ws = filter (λ c, c ≠ UNDERSCORE) (chars "parseHTMLNode_v2")
    ∧ (length ws ≤ 1 → split_identifier "parseHTMLNode_v2" = "parseHTMLNode_v2"
         ∧ split_identifier_tokens "parseHTMLNode_v2" = "parseHTMLNode_v2")
    ∧ (1 < length ws →
       split_identifier "parseHTMLNode_v2" = join " " (encode <$> ws) +:+ " " +:+ "parseHTMLNode_v2"
       ∧ (Forall (λ c, is_whitespace c = false) (chars "parseHTMLNode_v2") →
          split_identifier_tokens "parseHTMLNode_v2" = join " " (encode <$> ws))).
Proof.
  apply (split_identifier_words "parseHTMLNode_v2").
  by apply is_str_ascii.
Defined.

(** The examples of the source. *)
Example split_identifier_test :
  split_identifier "validateToken" = "validate Token validateToken"
  ∧ split_identifier "PascalCase" = "Pascal Case PascalCase"
  ∧ split_identifier "get_user_by_id" = "get user by id get_user_by_id"
  ∧ split_identifier "HTMLParser" = "HTML Parser HTMLParser"
  ∧ split_identifier "x" = "x"
  ∧ split_identifier_tokens "get_user_by_id" = "get user by id"
  ∧ expand_acronym "RRF" = ["reciprocal"; "rank"; "fusion"].
Proof. by vm_compute. Qed.
