(* ===== verification/Sql.v ===== *)
(** * Helpers of the SQL queries ([storage/queries/helpers.rs])

    [LIKE .. ESCAPE '\'] is SQLite's: a parameter, with what its documentation
    says as the class [SqlLike]. *)

From S2P Require Import Prelude Str Utf8.

(** [str::replace] of the escape character first, then of the wildcards. *)
Definition escape_like (s : string) : string :=
  replace_char "_" "\_" (replace_char "%" "\%" (replace_char ch_backslash "\\" s)).

(** [str::trim_end_matches('/')] *)
Fixpoint trim_end_slashes (s : string) : string :=
  match s with
  | EmptyString => ""
  | String c s' =>
      match trim_end_slashes s' with
      | EmptyString => if Ascii.eqb c ch_slash then "" else String c ""
      | t => String c t
      end
  end.

Definition path_is_under (path dir : string) : bool :=
  match strip_prefix (trim_end_slashes dir) path with
  | Some rest => String.eqb rest "" || starts_with "/" rest
  | None => false
  end.

Definition path_under_sql_params (dir : string) : string * string :=
  let dir := trim_end_slashes dir in
  if String.eqb dir "" then ("", "%") else (dir, escape_like dir +:+ "/%").

(** [(f.path = :exact OR f.path LIKE :pattern ESCAPE '\')] *)
Definition path_under_holds (like_esc : string → string → bool) (path dir : string) : bool :=
  let '(exact, pattern) := path_under_sql_params dir in
  String.eqb path exact || like_esc pattern path.

Definition make_placeholders (start count : nat) : string :=
  join "," ((λ i, "?" +:+ dec_of_nat i) <$> seq start count).

(** [MappedRows::next] *)
Definition first_row {A} (rows : list A) : option A := head rows.

Example placeholders_test : make_placeholders 2 3 = "?2,?3,?4".
Proof. by vm_compute. Qed.
Example path_is_under_test :
  path_is_under "src/a.rs" "src/" = true ∧ path_is_under "src" "src" = true
  ∧ path_is_under "src2/a.rs" "src" = false ∧ path_is_under "src.rs" "src" = false
  ∧ path_is_under "a" "" = false.
Proof. by vm_compute. Qed.

(** ** What SQLite documents of [X LIKE Y ESCAPE '\']

    [%] matches any run of characters, [_] one character, the escape character
    makes the next one stand for itself, and any other character matches itself,
    ASCII letters in either case. *)

Inductive LikeTok := Any | One | Lit (c : Z).

Definition CH_BACKSLASH : Z := 92.
Definition CH_PERCENT : Z := 37.
Definition CH_UNDERSCORE : Z := 95.
Definition CH_SLASH : Z := 47.

Fixpoint like_tokens (p : list Z) : option (list LikeTok) :=
  match p with
  | [] => Some []
  | c :: p' =>
      if (c =? CH_BACKSLASH)%Z then
        match p' with
        | [] => None
        | d :: p'' => cons (Lit d) <$> like_tokens p''
        end
      else cons (if (c =? CH_PERCENT)%Z then Any else if (c =? CH_UNDERSCORE)%Z then One else Lit c)
             <$> like_tokens p'
  end.

Definition fold_char (c : Z) : Z := if ascii_upper_char c then c + 32 else c.

Inductive tok_match : list LikeTok → list Z → Prop :=
| match_nil : tok_match [] []
| match_any m ts s : tok_match ts s → tok_match (Any :: ts) (m ++ s)
| match_one c ts s : tok_match ts s → tok_match (One :: ts) (c :: s)
| match_lit c d ts s : fold_char c = fold_char d → tok_match ts s → tok_match (Lit c :: ts) (d :: s).

Class SqlLike (like_esc : string → string → bool) : Prop :=
  like_esc_spec p s :
    is_str p → is_str s →
    like_esc p s = true ↔ ∃ ts, like_tokens (chars p) = Some ts ∧ tok_match ts (chars s).

(** A matcher that does what the documentation says. *)
Fixpoint tok_matchb (ts : list LikeTok) (s : list Z) : bool :=
  match ts with
  | [] => bool_decide (s = [])
  | Any :: ts' =>
      (fix any (s : list Z) : bool :=
         tok_matchb ts' s || match s with [] => false | _ :: s' => any s' end) s
  | One :: ts' => match s with [] => false | _ :: s' => tok_matchb ts' s' end
  | Lit c :: ts' =>
      match s with
      | [] => false
      | d :: s' => (fold_char c =? fold_char d)%Z && tok_matchb ts' s'
      end
  end.
Definition like_esc_model (p s : string) : bool :=
  match like_tokens (chars p) with Some ts => tok_matchb ts (chars s) | None => false end.

Lemma tok_matchb_spec ts s : tok_matchb ts s = true ↔ tok_match ts s.
Proof.
  revert s. induction ts as [|[| |c] ts IH]; intros s; simpl.
  - rewrite bool_decide_eq_true. split; [by intros ->; constructor|by inversion 1].
  - split.
    + induction s as [|d s IHs]; intros H; apply orb_true_iff in H as [H|H]; try done.
      * apply (match_any []). by apply IH.
      * apply (match_any []). by apply IH.
      * apply IHs in H. inversion H as [|m ? s' Hm| |]; subst. by apply (match_any (d :: m)).
    + intros H. inversion H as [|m ? s' Hm| |]; subst. clear H.
      induction m as [|d m IHm]; simpl.
      * apply IH in Hm. destruct s'; by rewrite Hm.
      * by rewrite IHm, orb_true_r.
  - destruct s as [|d s]; [split; [done|by inversion 1]|]. rewrite IH.
    split; [by constructor|by inversion 1].
  - destruct s as [|d s]; [split; [done|by inversion 1]|].
    rewrite andb_true_iff, Z.eqb_eq, IH. split; [intros [? ?]; by constructor|by inversion 1].
Qed.

#[export] Instance sql_like_model : SqlLike like_esc_model.
Proof.
  intros p s _ _. unfold like_esc_model. destruct (like_tokens (chars p)) as [ts|].
  - rewrite tok_matchb_spec. split; [eauto|]. by intros (? & [= <-] & ?).
  - split; [done|]. by intros (? & ? & _).
Qed.

(** ** Replacement in UTF-8 text *)

Definition is_byte_of (b : ascii) (c : Z) : Prop := byte_of b = c ∧ (0 <= c < 128)%Z.

(** Replacing an ASCII character of a text *)
Definition replace_in (c : Z) (by_ : list Z) (cs : list Z) : list Z :=
  cs ≫= λ d, if (d =? c)%Z then by_ else [d].

Lemma replace_char_high c by_ b s :
  (byte_of c < 128 <= byte_of b)%Z → replace_char c by_ (String b s) = String b (replace_char c by_ s).
Proof. intros H. simpl. destruct (Ascii.eqb_spec c b) as [->|]; [lia|done]. Qed.

Lemma replace_char_encode b c by_ cs :
  is_byte_of b c → Forall is_char cs →
  replace_char b (encode by_) (encode cs) = encode (replace_in c by_ cs).
Proof.
  intros [Hb Hc]. induction 1 as [|d cs Hd _ IH]; [done|].
  unfold replace_in in *. cbn [mbind list_bind encode]. rewrite encode_app, <-IH.
  destruct (Z.eqb_spec d c) as [->|Hne].
  - unfold encode_char. rewrite (proj2 (Z.ltb_lt _ 128)) by lia. simpl.
    assert (of_byte c = b) as -> by (rewrite <-Hb; unfold of_byte, byte_of; by rewrite N2Z.id, Ascii.ascii_N_embedding).
    by rewrite Ascii.eqb_refl.
  - cbn [encode]. rewrite str_app_nil_r. unfold encode_char, is_char in *.
    destruct (Z.ltb_spec d 128); [|destruct (Z.ltb_spec d 2048); [|destruct (Z.ltb_spec d 65536)]];
      cbn [String.append].
    { simpl. destruct (Ascii.eqb_spec b (of_byte d)) as [->|]; [|done].
      rewrite byte_of_of_byte in Hb by lia. lia. }
    all: rewrite !replace_char_high
      by (rewrite Hb, ?byte_of_of_byte; Z.to_euclidean_division_equations; lia); done.
Qed.

(** The characters [escape_like] writes for one of its input. *)
Definition escape_char (c : Z) : list Z :=
  if (c =? CH_BACKSLASH)%Z || (c =? CH_PERCENT)%Z || (c =? CH_UNDERSCORE)%Z
  then [CH_BACKSLASH; c] else [c].

Lemma replace_in_char c by_ cs : Forall is_char by_ → Forall is_char cs → Forall is_char (replace_in c by_ cs).
Proof.
  intros Hby. induction 1 as [|d cs Hd _ IH]; [constructor|]. unfold replace_in in *. cbn [mbind list_bind].
  apply Forall_app. split; [|done]. case_match; [done|by apply Forall_singleton].
Qed.

Lemma escape_like_encode cs :
  Forall is_char cs → escape_like (encode cs) = encode (cs ≫= escape_char).
Proof.
  intros Hcs. unfold escape_like.
  rewrite (replace_char_encode ch_backslash CH_BACKSLASH [CH_BACKSLASH; CH_BACKSLASH]) by done.
  assert (∀ a b, is_char a → is_char b → Forall is_char [a; b]) as Hab by (intros; by constructor; [|apply Forall_singleton]).
  rewrite (replace_char_encode "%" CH_PERCENT [CH_BACKSLASH; CH_PERCENT])
    by (done || (apply replace_in_char; [by apply Hab|done])).
  rewrite (replace_char_encode "_" CH_UNDERSCORE [CH_BACKSLASH; CH_UNDERSCORE])
    by (done || (apply replace_in_char; [by apply Hab|]; apply replace_in_char; [by apply Hab|done])).
  f_equal. clear Hcs. unfold replace_in. induction cs as [|c cs IH]; [done|].
  cbn [mbind list_bind]. rewrite !bind_app. f_equal; [|exact IH].
  unfold escape_char. destruct (Z.eqb_spec c CH_BACKSLASH) as [->|H1]; [done|].
  cbn [mbind list_bind orb]. destruct (Z.eqb_spec c CH_PERCENT) as [->|H2]; [done|].
  cbn [mbind list_bind orb app]. by destruct (Z.eqb_spec c CH_UNDERSCORE) as [->|].
Qed.

Lemma escaped_chars cs : Forall is_char cs → Forall is_char (cs ≫= escape_char).
Proof.
  induction 1 as [|c cs Hc _ IH]; [constructor|]. cbn [mbind list_bind]. apply Forall_app.
  split; [|done]. unfold escape_char.
  case_match; [constructor; [done|]|]; by apply Forall_singleton.
Qed.

Lemma escape_is_str s : is_str s → is_str (escape_like s).
Proof.
  intros (cs & Hcs & ->). rewrite escape_like_encode by done. by apply is_str_encode, escaped_chars.
Qed.

Lemma tokens_escape cs p :
  like_tokens ((cs ≫= escape_char) ++ p) = app (Lit <$> cs) <$> like_tokens p.
Proof.
  induction cs as [|c cs IH]; [simpl; by destruct (like_tokens p)|].
  rewrite bind_cons, <-app_assoc. unfold escape_char at 1.
  destruct ((c =? CH_BACKSLASH)%Z || (c =? CH_PERCENT)%Z || (c =? CH_UNDERSCORE)%Z) eqn:E.
  - cbn [app like_tokens]. rewrite Z.eqb_refl, IH. by destruct (like_tokens p).
  - apply orb_false_iff in E as [[E1 E2]%orb_false_iff E3]. cbn [app like_tokens].
    rewrite E1, E2, E3, IH. by destruct (like_tokens p).
Qed.

Lemma match_lits w ts s :
  tok_match ((Lit <$> w) ++ ts) s
  ↔ ∃ m rest, s = m ++ rest ∧ fold_char <$> m = fold_char <$> w ∧ tok_match ts rest.
Proof.
  revert s. induction w as [|c w IH]; intros s; cbn [fmap list_fmap app].
  - split; [intros H; by exists [], s|]. by intros ([|] & rest & -> & ? & ?).
  - split.
    + inversion 1 as [| | |? d ? s' Hcd Hm]; subst. apply IH in Hm as (m & rest & -> & Hf & Hr).
      exists (d :: m), rest. split; [done|]. split; [|done]. cbn [fmap list_fmap]. by rewrite Hcd, <-Hf.
    + intros ([|d m] & rest & -> & Hf & Hr); [done|]. cbn [fmap list_fmap app] in *.
      injection Hf as Hd Hf. constructor; [done|]. apply IH. eauto.
Qed.

Lemma match_any_end s : tok_match [Any] s.
Proof. rewrite <-(app_nil_r s). repeat constructor. Qed.

Section Like.
Context (like_esc : string → string → bool) `{!SqlLike like_esc}.

(** The escaped text is found literally, whatever it holds. *)
Lemma like_contains_exact w s :
  is_str w → is_str s →
  like_esc ("%" +:+ escape_like w +:+ "%") s = true
  ↔ ∃ a m b, chars s = a ++ m ++ b ∧ fold_char <$> m = fold_char <$> chars w.
Proof.
  intros Hw Hs. pose proof (escape_is_str w Hw) as He.
  destruct Hw as (cs & Hcs & ->). assert (is_str "%") as Hp by (by apply is_str_ascii).
  rewrite (like_esc_spec _ s) by (done || by repeat apply is_str_app).
  rewrite escape_like_encode, chars_encode by done.
  replace ("%" +:+ encode (cs ≫= escape_char) +:+ "%") with (encode (CH_PERCENT :: (cs ≫= escape_char) ++ [CH_PERCENT]))
    by (cbn [encode]; by rewrite encode_app).
  assert (Forall is_char (CH_PERCENT :: (cs ≫= escape_char) ++ [CH_PERCENT])) as Hch.
  { constructor; [done|]. apply Forall_app. split; [by apply escaped_chars|by apply Forall_singleton]. }
  rewrite chars_encode by done. cbn [like_tokens]. cbn [Z.eqb].
  rewrite tokens_escape. change (like_tokens [CH_PERCENT]) with (Some [Any]).
  cbn [fmap option_fmap option_map]. split.
  - intros (ts & [= <-] & H). inversion H as [|a ? s' Hm Heq| |]; subst.
    apply match_lits in Hm as (m & rest & -> & Hf & _). by exists a, m, rest.
  - intros (a & m & b & -> & Hf). eexists. split; [done|]. constructor.
    apply match_lits. exists m, b. split; [done|]. split; [done|]. apply match_any_end.
Qed.
End Like.

(** ** Directories *)

Lemma trim_end_slashes_app_slash s : trim_end_slashes (s +:+ "/") = trim_end_slashes s.
Proof. induction s as [|c s IH]; [done|]. simpl. by rewrite IH. Qed.

Lemma trim_end_slashes_app_other s b : b ≠ ch_slash → trim_end_slashes (s +:+ String b "") = s +:+ String b "".
Proof.
  intros Hb. induction s as [|c s IH]; simpl.
  - by destruct (Ascii.eqb_spec b ch_slash).
  - rewrite IH. by destruct s.
Qed.

Lemma encode_char_last c :
  is_char c → c ≠ CH_SLASH → ∃ s b, encode_char c = s +:+ String b "" ∧ b ≠ ch_slash.
Proof.
  intros Hc Hne. unfold is_char in Hc.
  assert (∀ n, (0 <= n < 256)%Z → n ≠ CH_SLASH → of_byte n ≠ ch_slash) as Hb.
  { intros n Hn Hns Heq. apply (f_equal byte_of) in Heq. by rewrite byte_of_of_byte in Heq by done. }
  unfold encode_char, CH_SLASH in *.
  destruct (Z.ltb_spec c 128); [|destruct (Z.ltb_spec c 2048); [|destruct (Z.ltb_spec c 65536)]].
  - exists "", (of_byte c). split; [done|]. apply Hb; lia.
  - eexists (String _ ""), _. split; [done|]. apply Hb; Z.to_euclidean_division_equations; lia.
  - eexists (String _ (String _ "")), _. split; [done|]. apply Hb; Z.to_euclidean_division_equations; lia.
  - eexists (String _ (String _ (String _ ""))), _. split; [done|]. apply Hb; Z.to_euclidean_division_equations; lia.
Qed.

Lemma trim_end_slashes_str s : is_str s → is_str (trim_end_slashes s).
Proof.
  intros (cs & Hcs & ->). induction cs as [|c cs IH] using rev_ind; [by exists []|].
  apply Forall_app in Hcs as [Hcs Hc]. apply Forall_cons_1 in Hc as [Hc _]. rewrite encode_app. cbn [encode].
  rewrite str_app_nil_r. destruct (decide (c = CH_SLASH)) as [->|Hne].
  - change (encode_char CH_SLASH) with "/". rewrite trim_end_slashes_app_slash. by apply IH.
  - destruct (encode_char_last c Hc Hne) as (s & b & Heq & Hb). rewrite Heq, <-str_app_assoc.
    rewrite trim_end_slashes_app_other by done. rewrite str_app_assoc, <-Heq.
    apply is_str_app; [by exists cs|]. exists [c]. split; [by apply Forall_singleton|].
    cbn [encode]. by rewrite str_app_nil_r.
Qed.

(** The SQL form of a directory filter keeps the directory's files: beside the
    exact path it matches what lies below the directory, whatever wildcards the
    directory's name holds, with ASCII letters in either case; the whole project
    for an empty directory; and so every path the Rust form keeps. *)
Theorem path_under_sql_exact like_esc path dir :
  SqlLike like_esc → is_str path → is_str dir →
  let d := trim_end_slashes dir in
  (path_under_holds like_esc path dir = true
   ↔ d = "" ∨ path = d
     ∨ ∃ m rest, chars path = m ++ CH_SLASH :: rest ∧ fold_char <$> m = fold_char <$> chars d)
  ∧ (path_is_under path dir = true → path_under_holds like_esc path dir = true).
Proof.
  intros Hlike Hpath Hdir d.
  assert (is_str d) as Hd by (by apply trim_end_slashes_str).
  assert (path_under_holds like_esc path dir = true
   ↔ d = "" ∨ path = d
     ∨ ∃ m rest, chars path = m ++ CH_SLASH :: rest ∧ fold_char <$> m = fold_char <$> chars d) as Hiff.
  { unfold path_under_holds, path_under_sql_params. fold d.
    destruct (String.eqb_spec d "") as [He|He].
    - split; [by left|]. intros _. apply orb_true_iff. right.
      apply Hlike; [by apply is_str_ascii|done|]. exists [Any]. split; [done|]. apply match_any_end.
    - rewrite orb_true_iff, String.eqb_eq.
      assert (like_esc (escape_like d +:+ "/%") path = true
              ↔ ∃ m rest, chars path = m ++ CH_SLASH :: rest ∧ fold_char <$> m = fold_char <$> chars d) as ->;
        [|naive_solver].
      rewrite (Hlike _ path)
        by (done || (apply is_str_app; [by apply escape_is_str|by apply is_str_ascii])).
      destruct Hd as (cs & Hcs & Hd). rewrite Hd, escape_like_encode, chars_encode by done.
      change "/%" with (encode [CH_SLASH; CH_PERCENT]). rewrite <-encode_app, chars_encode.
      2:{ apply Forall_app. split; [by apply escaped_chars|]. constructor; [done|]. by apply Forall_singleton. }
      rewrite tokens_escape. change (like_tokens [CH_SLASH; CH_PERCENT]) with (Some [Lit CH_SLASH; Any]).
      cbn [fmap option_fmap option_map]. split.
      + intros (ts & [= <-] & H). apply match_lits in H as (m & rest & Hp & Hf & Hr).
        inversion Hr as [| | |? c ? s' Hc _]; subst.
        assert (c = CH_SLASH) as ->.
        { unfold fold_char, ascii_upper_char, CH_SLASH in Hc. cbn in Hc.
          destruct ((65 <=? c) && (c <=? 90))%Z eqn:E; [|done]. bool_prop. 
          rewrite ?Z.leb_le in *. unfold CH_SLASH. lia. }
        eauto.
      + intros (m & rest & Hp & Hf). eexists. split; [done|]. apply match_lits.
        exists m, (CH_SLASH :: rest). split; [done|]. split; [done|].
        constructor; [done|]. apply match_any_end. }
  split; [done|]. intros H. apply Hiff. unfold path_is_under in H. fold d in H.
  destruct (strip_prefix d path) as [r|] eqn:E; [|done].
  apply strip_prefix_Some in E. apply orb_true_iff in H as [Hr%String.eqb_eq|Hr].
  - right. left. by rewrite E, Hr, str_app_nil_r.
  - right. right. apply starts_with_spec in Hr as [t ->].
    destruct Hd as (cs & Hcs & Hd). exists cs, (chars t). rewrite E, Hd.
    assert (∀ ds, Forall is_char ds → chars (encode ds +:+ "/" +:+ t) = ds ++ CH_SLASH :: chars t) as Hch.
    { induction 1 as [|c ds Hc _ IH]; [done|]. cbn [encode app]. rewrite str_app_assoc, chars_encode_char by done.
      by rewrite IH. }
    by rewrite Hch, chars_encode.
Qed.

Lemma path_under_sql_exact_witness :
  let d := trim_end_slashes "my_dir/" in
  (path_under_holds like_esc_model "my_dir/a.rs" "my_dir/" = true
   ↔ d = "" ∨ "my_dir/a.rs" = d
     ∨ ∃ m rest, chars "my_dir/a.rs" = m ++ CH_SLASH :: rest ∧ fold_char <$> m = fold_char <$> chars d)
  ∧ (path_is_under "my_dir/a.rs" "my_dir/" = true → path_under_holds like_esc_model "my_dir/a.rs" "my_dir/" = true).
Proof. apply path_under_sql_exact; [apply sql_like_model|by apply is_str_ascii|by apply is_str_ascii]. Defined.

(** [LIKE] ignores ASCII case, [path_is_under] does not. *)
Example sql_ignores_case :
  path_is_under "SRC/a.rs" "src" = false ∧ path_under_holds like_esc_model "SRC/a.rs" "src" = true
  ∧ path_under_holds like_esc_model "my-dir/a.rs" "my_dir" = false.
Proof. by vm_compute. Qed.
