(* ===== verification/Owned.v ===== *)
(** * Opening the tool's own files ([utils/owned.rs])

    The three checks every write under [.code-graph/] goes through, over a
    filesystem of directory entries and inodes.  Other processes may change the
    filesystem between two system calls: an operation takes what they do there as
    functions on the filesystem.  The Unix leg; an error of the system that the
    checks do not depend on (a permission, a full disk) is an argument. *)

From S2P Require Import Prelude Str.

(** ** The filesystem *)

Inductive FileKind := Regular | Directory | Special.
#[export] Instance FileKind_eq_dec : EqDecision FileKind.
Proof. solve_decision. Defined.

Record Inode := mkInode { i_kind : FileKind; i_nlink : nat; i_content : string }.

Inductive Dent := Link (ino : nat) | Symlink (target : string).

Record Fs := mkFs { fs_entries : gmap string Dent; fs_inodes : gmap nat Inode }.

Inductive IoError := InvalidInput (message : string) | NotFound | Os (code : Z).

Definition ELOOP : Z := 40.
Definition EISDIR : Z := 21.

(** [lstat], [fstat] *)
Inductive Meta := MetaSymlink | MetaInode (i : Inode).

Definition symlink_metadata (fs : Fs) (path : string) : result IoError Meta :=
  match fs_entries fs !! path with
  | Some (Symlink _) => Ok MetaSymlink
  | Some (Link ino) => match fs_inodes fs !! ino with Some i => Ok (MetaInode i) | None => Err NotFound end
  | None => Err NotFound
  end.

Definition fstat (fs : Fs) (ino : nat) : result IoError Inode :=
  match fs_inodes fs !! ino with Some i => Ok i | None => Err NotFound end.

Definition is_file (m : Meta) : bool :=
  match m with MetaInode i => bool_decide (i_kind i = Regular) | MetaSymlink => false end.
Definition is_dir (m : Meta) : bool :=
  match m with MetaInode i => bool_decide (i_kind i = Directory) | MetaSymlink => false end.

(** [open] with [O_WRONLY | O_NOFOLLOW], and [O_CREAT] when asked: the last component is not
    followed, nothing is truncated. *)
Definition open_nofollow (create : bool) (path : string) (fs : Fs) : result IoError (nat * Fs) :=
  match fs_entries fs !! path with
  | Some (Symlink _) => Err (Os ELOOP)
  | Some (Link ino) =>
      match fs_inodes fs !! ino with
      | Some i => if bool_decide (i_kind i = Directory) then Err (Os EISDIR) else Ok (ino, fs)
      | None => Err NotFound
      end
  | None =>
      if create
      then let ino := fresh (dom (fs_inodes fs)) in
           Ok (ino, mkFs (<[path := Link ino]> (fs_entries fs)) (<[ino := mkInode Regular 1 ""]> (fs_inodes fs)))
      else Err NotFound
  end.

(** [File::set_len(0)] *)
Definition truncate_inode (ino : nat) (fs : Fs) : Fs :=
  mkFs (fs_entries fs) (alter (λ i, mkInode (i_kind i) (i_nlink i) "") ino (fs_inodes fs)).

(** ** The checks *)

Definition refuse_non_regular (fs : Fs) (path : string) : result IoError () :=
  match symlink_metadata fs path with
  | Ok meta => if is_file meta then Ok ()
               else Err (InvalidInput ("refusing to write " +:+ path +:+ ": not a regular file (a symlink here would redirect the write outside the project)"))
  | Err _ => Ok ()
  end.

Inductive Intent := Append | Rewrite | Hold | Probe | Share.

Definition intent_creates (i : Intent) : bool := match i with Probe => false | _ => true end.
Definition intent_writes (i : Intent) : bool := match i with Probe | Share => false | _ => true end.

Definition refuse_unowned_handle (fs : Fs) (path : string) (ino : nat) (intent : Intent) : result IoError () :=
  let? i := fstat fs ino in
  if negb (bool_decide (i_kind i = Regular))
  then Err (InvalidInput ("refusing to write " +:+ path +:+ ": the opened object is not a regular file"))
  else if intent_writes intent && (1 <? i_nlink i)
  then Err (InvalidInput ("refusing to write " +:+ path +:+ ": it has more than one hard link (the write would also reach another path)"))
  else Ok ().

(** What others do before the open, before the [fstat], before the next call; and a refusal of
    the open for a reason of the system's own. *)
Record Others := mkOthers {
  before_open : Fs → Fs;
  before_fstat : Fs → Fs;
  before_write : Fs → Fs;
  denied : option IoError;
}.

Definition open_owned (o : Others) (path : string) (intent : Intent) (fs : Fs) : result IoError nat * Fs :=
  match refuse_non_regular fs path with
  | Err e => (Err e, fs)
  | Ok _ =>
      let fs := before_open o fs in
      match (match denied o with Some e => Err e | None => open_nofollow (intent_creates intent) path fs end) with
      | Err e => (Err e, fs)
      | Ok (ino, fs) =>
          let fs := before_fstat o fs in
          match refuse_unowned_handle fs path ino intent with
          | Err e => (Err e, fs)
          | Ok _ => (Ok ino, fs)
          end
      end
  end.

Definition append_owned (o : Others) (path : string) : Fs → result IoError nat * Fs := open_owned o path Append.
Definition hold_owned (o : Others) (path : string) : Fs → result IoError nat * Fs := open_owned o path Hold.
Definition share_owned (o : Others) (path : string) : Fs → result IoError nat * Fs := open_owned o path Share.
Definition probe_owned (o : Others) (path : string) : Fs → result IoError nat * Fs := open_owned o path Probe.

Definition rewrite_owned (o : Others) (path : string) (fs : Fs) : result IoError nat * Fs :=
  match open_owned o path Rewrite fs with
  | (Ok ino, fs) => (Ok ino, truncate_inode ino (before_write o fs))
  | r => r
  end.

(** ** Directories and the database *)

Definition reject_symlinked_dir (fs : Fs) (path : string) : result IoError () :=
  match symlink_metadata fs path with
  | Ok MetaSymlink => Err (InvalidInput ("refusing to use a symlinked " +:+ path +:+ " — remove it and re-run"))
  | Ok meta => if is_dir meta then Ok () else Err (InvalidInput (path +:+ " exists and is not a directory"))
  | Err _ => Ok ()
  end.

Definition DB_SUFFIXES : list string := [""; "-wal"; "-shm"; "-journal"].

Definition reject_db_file (fs : Fs) (path : string) : result IoError () :=
  match symlink_metadata fs path with
  | Ok MetaSymlink => Err (InvalidInput ("refusing to use a symlinked " +:+ path +:+ " — remove it and re-run"))
  | Ok meta => if is_file meta then Ok ()
               else Err (InvalidInput (path +:+ " exists and is not a regular file — remove it and re-run"))
  | Err _ => Ok ()
  end.

Fixpoint reject_all (fs : Fs) (paths : list string) : result IoError () :=
  match paths with
  | [] => Ok ()
  | p :: paths => let? _ := reject_db_file fs p in reject_all fs paths
  end.

Definition reject_unowned_db (fs : Fs) (db_path : string) : result IoError () :=
  reject_all fs ((λ s, db_path +:+ s) <$> DB_SUFFIXES).

(** [create_dir_all] is the system's; [path.is_dir()] follows links. *)
Definition ensure_owned_dir (is_dir_path : Fs → string → bool) (create_dir_all : string → Fs → result IoError () * Fs)
    (path : string) (fs : Fs) : result IoError () * Fs :=
  match reject_symlinked_dir fs path with
  | Err e => (Err e, fs)
  | Ok _ => if is_dir_path fs path then (Ok (), fs) else create_dir_all path fs
  end.

(** * Properties *)

(** Opening changes no existing file and no other name. *)
Lemma open_nofollow_spec create path fs ino fs' :
  open_nofollow create path fs = Ok (ino, fs') →
  fs_entries fs' !! path = Some (Link ino)
  ∧ (∀ p, p ≠ path → fs_entries fs' !! p = fs_entries fs !! p)
  ∧ (∀ j i, fs_inodes fs !! j = Some i → fs_inodes fs' !! j = Some i)
  ∧ (fs' = fs ∨ create = true ∧ fs_entries fs !! path = None ∧ fs_inodes fs !! ino = None
                ∧ fs_inodes fs' !! ino = Some (mkInode Regular 1 "")).
Proof.
  unfold open_nofollow. destruct (fs_entries fs !! path) as [[j|t]|] eqn:He; [|done|].
  - destruct (fs_inodes fs !! j) as [i|]; [|done]. case_bool_decide; [done|]. intros [= -> ->]. eauto.
  - destruct create; [|done]. assert (fs_inodes fs !! fresh (dom (fs_inodes fs)) = None) as Hf
      by (apply not_elem_of_dom; apply (is_fresh (dom (fs_inodes fs)))).
    revert Hf. generalize (fresh (dom (fs_inodes fs))). intros n Hf [= <- <-]. cbn.
    rewrite lookup_insert_eq. split; [done|split; [intros p Hp; by rewrite lookup_insert_ne|split]].
    + intros j i Hj. rewrite lookup_insert_ne; [done|]. intros ->. by rewrite Hf in Hj.
    + right. by rewrite lookup_insert_eq.
Qed.

(** What the caller of an opening may rely on, whatever others do meanwhile. *)
Definition owned_handle (fs_open fs_check : Fs) (intent : Intent) (path : string) (ino : nat) : Prop :=
  (∃ fs', open_nofollow (intent_creates intent) path fs_open = Ok (ino, fs')
          ∧ fs_entries fs' !! path = Some (Link ino))
  ∧ (∀ t, fs_entries fs_open !! path ≠ Some (Symlink t))
  ∧ ∃ i, fs_inodes fs_check !! ino = Some i ∧ i_kind i = Regular ∧ (intent_writes intent = true → i_nlink i ≤ 1).

Lemma open_owned_handle o path intent fs ino fs' :
  open_owned o path intent fs = (Ok ino, fs') → owned_handle (before_open o fs) fs' intent path ino.
Proof.
  unfold open_owned. destruct (refuse_non_regular fs path); [|done]. destruct (denied o); [done|].
  destruct (open_nofollow _ path _) as [[j fs1]|] eqn:Ho; [|done].
  destruct (refuse_unowned_handle _ path j intent) eqn:Hr; [|done]. intros [= <- <-].
  unfold refuse_unowned_handle, fstat in Hr.
  destruct (fs_inodes (before_fstat o fs1) !! j) as [i|] eqn:Hi; [|done]. cbn [result_bind] in Hr.
  case_bool_decide as Hk; [|done]. cbn [negb] in Hr.
  split; [|split].
  - exists fs1. split; [done|]. by apply open_nofollow_spec in Ho as [? _].
  - intros t Ht. unfold open_nofollow in Ho. by rewrite Ht in Ho.
  - exists i. split; [done|split; [done|]]. intros Hw. rewrite Hw in Hr. cbn [andb] in Hr.
    destruct (Nat.ltb_spec 1 (i_nlink i)); [done|lia].
Qed.

(** The steps of an opening by itself leave every existing file as it was. *)
Lemma open_owned_keeps path intent fs r fs' :
  open_owned (mkOthers id id id None) path intent fs = (r, fs') →
  (∀ j i, fs_inodes fs !! j = Some i → fs_inodes fs' !! j = Some i)
  ∧ (∀ p, p ≠ path → fs_entries fs' !! p = fs_entries fs !! p).
Proof.
  unfold open_owned. cbn. destruct (refuse_non_regular fs path); [|intros [= _ <-]; eauto].
  destruct (open_nofollow _ path fs) as [[j fs1]|] eqn:Ho; [|intros [= _ <-]; eauto].
  apply open_nofollow_spec in Ho as (_ & He & Hi & _).
  destruct (refuse_unowned_handle fs1 path j intent); intros [= _ <-]; eauto.
Qed.

Lemma truncate_inode_other ino fs j : j ≠ ino → fs_inodes (truncate_inode ino fs) !! j = fs_inodes fs !! j.
Proof. intros Hj. cbn. by rewrite lookup_alter_ne. Qed.

Lemma reject_all_ok fs paths :
  reject_all fs paths = Ok () ↔ Forall (λ p, reject_db_file fs p = Ok ()) paths.
Proof.
  induction paths as [|p paths IH]; cbn; [by split|]. rewrite Forall_cons, <-IH.
  destruct (reject_db_file fs p) as [[]|]; cbn; naive_solver.
Qed.

Lemma reject_db_file_ok fs p :
  reject_db_file fs p = Ok ()
  ↔ (∀ t, fs_entries fs !! p ≠ Some (Symlink t))
    ∧ (∀ ino i, fs_entries fs !! p = Some (Link ino) → fs_inodes fs !! ino = Some i → i_kind i = Regular).
Proof.
  unfold reject_db_file, symlink_metadata. destruct (fs_entries fs !! p) as [[ino|t]|].
  - destruct (fs_inodes fs !! ino) as [i|] eqn:Hi; cbn.
    + case_bool_decide as Hk; split; try done.
      * intros _. split; [done|]. intros ? ? [= <-] Hi'. by rewrite Hi in Hi'; injection Hi' as <-.
      * intros [_ H]. destruct Hk. by apply (H ino i).
    + split; [|done]. intros _. split; [done|]. intros ? ? [= <-] Hi'. by rewrite Hi in Hi'.
  - split; [done|]. intros [H _]. by destruct (H t).
  - split; [|done]. intros _. split; done.
Qed.

(** C23: A file of the tool's own is opened as itself, whatever other processes do to the directory between the checks ([open_owned]).  The handle is never reached through a symbolic link at the name, it is a regular file, and for the intents that write it has one name when it is checked; the opening itself changes no file's content and no other name; [rewrite_owned] empties the file it checked and no other.  The database check [reject_unowned_db] passes exactly when none of the four names is a symbolic link or anything but a regular file. *)
Theorem open_owned_ok (o : Others) (path : string) (fs : Fs) :
  (∀ intent ino fs', open_owned o path intent fs = (Ok ino, fs') →
     owned_handle (before_open o fs) fs' intent path ino)
  ∧ (∀ intent r fs', open_owned (mkOthers id id id None) path intent fs = (r, fs') →
     (∀ j i, fs_inodes fs !! j = Some i → fs_inodes fs' !! j = Some i)
     ∧ (∀ p, p ≠ path → fs_entries fs' !! p = fs_entries fs !! p))
  ∧ (∀ ino fs', rewrite_owned o path fs = (Ok ino, fs') →
     ∃ fs1, owned_handle (before_open o fs) fs1 Rewrite path ino
            ∧ (∀ j, j ≠ ino → fs_inodes fs' !! j = fs_inodes (before_write o fs1) !! j)
            ∧ (∀ i, fs_inodes fs' !! ino = Some i → i_content i = ""))
  ∧ (reject_unowned_db fs path = Ok ()
     ↔ ∀ suffix, suffix ∈ DB_SUFFIXES →
         (∀ t, fs_entries fs !! (path +:+ suffix) ≠ Some (Symlink t))
         ∧ (∀ ino i, fs_entries fs !! (path +:+ suffix) = Some (Link ino) → fs_inodes fs !! ino = Some i →
            i_kind i = Regular)).
Proof.
  split; [eauto using open_owned_handle|split; [eauto using open_owned_keeps|split]].
  - intros ino fs' H. unfold rewrite_owned in H. destruct (open_owned o path Rewrite fs) as [[j|] fs1] eqn:Ho; [|done].
    injection H as <- <-. exists fs1. split; [by eapply open_owned_handle|split].
    + intros k Hk. by rewrite truncate_inode_other.
    + intros i. cbn. rewrite lookup_alter_eq. destruct (_ !! j); [|done]. by intros [= <-].
  - unfold reject_unowned_db. rewrite reject_all_ok, Forall_fmap, Forall_forall.
    apply forall_proper. intros s. by rewrite <-reject_db_file_ok.
Qed.
