(* ===== verification/Lock.v ===== *)
(** * The index lock ([indexer/lock.rs])

    An advisory lock on the inode of [.code-graph/index.lock], held by an open
    file description: the decisions on the return codes of [flock], and the steps
    of the processes that take, probe and drop it.  A fork copies every
    descriptor of its parent, and the kernel drops a lock with the last
    descriptor of its description.  The Unix leg. *)

From S2P Require Import Prelude Str Owned.

(** ** Return codes *)

Definition EWOULDBLOCK : Z := 11.
Definition EINTR : Z := 4.
Definition ERROR_SHARING_VIOLATION : Z := 32.
Definition ERROR_LOCK_VIOLATION : Z := 33.

Definition is_lock_conflict (raw_os_error : option Z) : bool :=
  match raw_os_error with
  | Some e => (e =? ERROR_SHARING_VIOLATION)%Z || (e =? ERROR_LOCK_VIOLATION)%Z
  | None => false
  end.

Definition is_flock_conflict (raw_os_error : option Z) : bool :=
  match raw_os_error with Some e => (e =? EWOULDBLOCK)%Z | None => false end.

(** [None]: the call returned 0. *)
#[local] Abbreviation Rc := (option Z).
Definition conflict (rc : Rc) : bool := is_flock_conflict rc.

(** What follows one try of [acquire_index_lock_retrying] with [more] retries to go. *)
Inductive Try := Won | Again (more : nat) | Lost.
Definition after_flock (rc : Rc) (more : nat) : Try :=
  match rc with
  | None => Won
  | Some _ => if conflict rc then match more with S more => Again more | 0 => Lost end else Lost
  end.

(** The loop: the [i]-th call of [flock] returns [rcs i]. *)
Fixpoint flock_retrying (rcs : nat → Rc) (i more : nat) : Rc :=
  match more with
  | 0 => rcs i
  | S more => if conflict (rcs i) then flock_retrying rcs (S i) more else rcs i
  end.

Definition STARTUP_RETRIES : nat := 9.
Definition PROBE_TRIES : nat := 5.

(** The loop of the probe, [more] tries: whether the lock is held. *)
Fixpoint probe_loop (rcs : nat → Rc) (i more : nat) : bool :=
  match more with
  | 0 => false
  | S more =>
      match rcs i with
      | None => false
      | Some e => if (e =? EINTR)%Z then probe_loop rcs (S i) more else conflict (Some e)
      end
  end.

Definition BUILD_LOCK : string := "index-build.lock".
Definition BUILD_WAIT : Z := 600000.

(** The loop of [acquire_build_lock] on what its calls of [flock] and of the clock return:
    whether it holds the lock and how often [on_wait] ran; [None] while the calls are not enough. *)
Fixpoint build_loop (deadline : Z) (waited : bool) (calls : list (Rc * Z)) : option (bool * nat) :=
  match calls with
  | [] => None
  | (rc, now) :: calls =>
      match rc with
      | None => Some (true, 0)
      | Some e =>
          if (e =? EINTR)%Z then build_loop deadline waited calls
          else if negb (conflict rc) then Some (false, 0)
          else if (deadline <=? now)%Z then Some (false, 0)
          else (λ r, (r.1, (if waited then 0 else 1) + r.2)) <$> build_loop deadline true calls
      end
  end.

Definition acquire_build_lock (started wait : Z) (calls : list (Rc * Z)) : option (bool * nat) :=
  build_loop (started + wait) false calls.

(** ** The system *)

#[local] Abbreviation Pid := N.

(** Where a process is in the code: [more] counts retries, a guard unlocks when it drops. *)
Inductive Phase :=
| Trying (ofd more : nat)
| Locked (ofd : nat)                  (* the PID is not written yet *)
| Holding (ofd : nat) (guard named : bool)
| Probing (ofd more : nat)
| ProbeLocked (ofd : nat).

Definition phase_ofd (ph : Phase) : nat :=
  match ph with Trying o _ | Locked o | Holding o _ _ | Probing o _ | ProbeLocked o => o end.

(** The lock is this process's. *)
Definition owns (ph : Phase) : bool :=
  match ph with Locked _ | Holding _ _ _ | ProbeLocked _ => true | Trying _ _ | Probing _ _ => false end.

Record World := mkWorld {
  w_fs : Fs;
  w_desc : gmap nat nat;
  w_refs : gset (Pid * nat);
  w_lock : gmap nat nat;
  w_phase : gmap Pid Phase;
}.

Definition set_phase (p : Pid) (ph : option Phase) (w : World) : World :=
  mkWorld (w_fs w) (w_desc w) (w_refs w) (w_lock w) (partial_alter (λ _, ph) p (w_phase w)).

(** [flock(LOCK_EX | LOCK_NB)] on the inode of the description. *)
Definition flock_free (w : World) (ofd ino : nat) : bool :=
  match w_lock w !! ino with Some o => bool_decide (o = ofd) | None => true end.
Definition flock_take (ino ofd : nat) (w : World) : World :=
  mkWorld (w_fs w) (w_desc w) (w_refs w) (<[ino := ofd]> (w_lock w)) (w_phase w).

(** [LOCK_UN] on the description, copies included. *)
Definition flock_drop (ofd : nat) (w : World) : World :=
  mkWorld (w_fs w) (w_desc w) (w_refs w) (filter (λ il, il.2 ≠ ofd) (w_lock w)) (w_phase w).

(** A new description, and its descriptor in [p]. *)
Definition open_desc (p : Pid) (ino ofd : nat) (fs : Fs) (w : World) : World :=
  mkWorld fs (<[ofd := ino]> (w_desc w)) ({[(p, ofd)]} ∪ w_refs w) (w_lock w) (w_phase w).

(** Closing descriptors: a description with none more goes, with its lock. *)
Definition close_refs (closed : gset (Pid * nat)) (w : World) : World :=
  let refs := w_refs w ∖ closed in
  let gone := filter (λ o, set_Forall (λ r, r.2 ≠ o) refs) (set_map snd closed : gset nat) in
  mkWorld (w_fs w) (filter (λ d, d.1 ∉ gone) (w_desc w)) refs (filter (λ il, il.2 ∉ gone) (w_lock w)) (w_phase w).

Definition close_one (p : Pid) (ofd : nat) : World → World := close_refs {[(p, ofd)]}.
Definition refs_of (p : Pid) (w : World) : gset (Pid * nat) := filter (λ r, r.1 = p) (w_refs w).

Definition set_content (ino : nat) (s : string) (w : World) : World :=
  mkWorld (mkFs (fs_entries (w_fs w)) (alter (λ i, mkInode (i_kind i) (i_nlink i) s) ino (fs_inodes (w_fs w))))
    (w_desc w) (w_refs w) (w_lock w) (w_phase w).

Definition quiet : Others := mkOthers id id id None.

Section Steps.
Context (lock_path : string).

Inductive step : World → World → Prop :=
(* [acquire_index_lock_retrying]: open, then try *)
| step_open p more w ino fs' ofd :
    w_phase w !! p = None → hold_owned quiet lock_path (w_fs w) = (Ok ino, fs') → w_desc w !! ofd = None →
    step w (set_phase p (Some (Trying ofd more)) (open_desc p ino ofd fs' w))
| step_win p w ofd more ino :
    w_phase w !! p = Some (Trying ofd more) → w_desc w !! ofd = Some ino → flock_free w ofd ino = true →
    step w (set_phase p (Some (Locked ofd)) (flock_take ino ofd w))
| step_conflict p w ofd more ino more' :
    w_phase w !! p = Some (Trying ofd more) → w_desc w !! ofd = Some ino → flock_free w ofd ino = false →
    after_flock (Some EWOULDBLOCK) more = Again more' →
    step w (set_phase p (Some (Trying ofd more')) w)
| step_give_up p w ofd more ino e :
    w_phase w !! p = Some (Trying ofd more) → w_desc w !! ofd = Some ino →
    (e = EWOULDBLOCK → flock_free w ofd ino = false) → after_flock (Some e) more = Lost →
    step w (set_phase p None (close_one p ofd w))
(* the PID, which may fail to be written *)
| step_write_pid p w ofd ino guard :
    w_phase w !! p = Some (Locked ofd) → w_desc w !! ofd = Some ino →
    step w (set_phase p (Some (Holding ofd guard true)) (set_content ino (dec_of_N p) w))
| step_write_fails p w ofd ino guard s :
    w_phase w !! p = Some (Locked ofd) → w_desc w !! ofd = Some ino → s = "" ∨ set_content ino s w = w →
    step w (set_phase p (Some (Holding ofd guard false)) (set_content ino s w))
(* [HeldFlock::drop], and a plain [File]'s *)
| step_drop_guard p w ofd named :
    w_phase w !! p = Some (Holding ofd true named) →
    step w (set_phase p None (close_one p ofd (flock_drop ofd w)))
| step_drop_file p w ofd named :
    w_phase w !! p = Some (Holding ofd false named) →
    step w (set_phase p None (close_one p ofd w))
(* [other_process_holds_index_lock] *)
| step_probe_open p w ino fs' ofd :
    w_phase w !! p = None → probe_owned quiet lock_path (w_fs w) = (Ok ino, fs') → w_desc w !! ofd = None →
    step w (set_phase p (Some (Probing ofd PROBE_TRIES)) (open_desc p ino ofd fs' w))
| step_probe_lock p w ofd more ino :
    w_phase w !! p = Some (Probing ofd more) → w_desc w !! ofd = Some ino → flock_free w ofd ino = true →
    step w (set_phase p (Some (ProbeLocked ofd)) (flock_take ino ofd w))
| step_probe_unlock p w ofd :
    w_phase w !! p = Some (ProbeLocked ofd) →
    step w (set_phase p None (close_one p ofd (flock_drop ofd w)))
| step_probe_eintr p w ofd more :
    w_phase w !! p = Some (Probing ofd (S (S more))) →
    step w (set_phase p (Some (Probing ofd (S more))) w)
| step_probe_answer p w ofd more :
    w_phase w !! p = Some (Probing ofd more) →
    step w (set_phase p None (close_one p ofd w))
(* the system: a child holds a copy of every descriptor until it execs or dies *)
| step_fork p c w :
    w_phase w !! c = None → (∀ o, (c, o) ∉ w_refs w) →
    step w (mkWorld (w_fs w) (w_desc w) (w_refs w ∪ set_map (λ r, (c, r.2)) (refs_of p w)) (w_lock w) (w_phase w))
| step_exit p w :
    step w (set_phase p None (close_refs (refs_of p w) w)).

(** No process of the project is running; the lock file may be there from before. *)
Definition initial (w : World) : Prop :=
  w_desc w = ∅ ∧ w_refs w = ∅ ∧ w_lock w = ∅ ∧ w_phase w = ∅.

Definition reachable (w : World) : Prop := ∃ w0, initial w0 ∧ rtc step w0 w.
End Steps.

(** * Properties *)

(** ** The loops *)

Lemma flock_retrying_spec rcs i more :
  ∃ j, j ≤ more ∧ flock_retrying rcs i more = rcs (i + j)
       ∧ (∀ k, k < j → conflict (rcs (i + k)) = true) ∧ (j < more → conflict (rcs (i + j)) = false).
Proof.
  revert i; induction more as [|more IH]; intros i; cbn [flock_retrying].
  - exists 0. rewrite Nat.add_0_r. repeat split; lia.
  - destruct (conflict (rcs i)) eqn:E.
    + destruct (IH (S i)) as (j & Hj & Heq & Hlt & Hend). exists (S j).
      rewrite Nat.add_succ_r. split; [lia|split; [done|split]].
      * intros [|k] Hk; [by rewrite Nat.add_0_r|]. rewrite Nat.add_succ_r. apply Hlt. lia.
      * intros Hm. apply Hend. lia.
    + exists 0. rewrite Nat.add_0_r. repeat split; [lia|lia|done].
Qed.

Lemma probe_loop_spec rcs i more :
  probe_loop rcs i more = true
  ↔ ∃ j, j < more ∧ conflict (rcs (i + j)) = true ∧ ∀ k, k < j → rcs (i + k) = Some EINTR.
Proof.
  revert i; induction more as [|more IH]; intros i; cbn [probe_loop]; [split; [done|intros (j & ? & _); lia]|].
  destruct (rcs i) as [e|] eqn:E.
  - destruct (Z.eqb_spec e EINTR) as [->|He].
    + rewrite IH. split.
      * intros (j & Hj & Hc & Hk). exists (S j). rewrite Nat.add_succ_r. split; [lia|split; [done|]].
        intros [|k] Hlt; [by rewrite Nat.add_0_r|]. rewrite Nat.add_succ_r. apply Hk. lia.
      * intros ([|j] & Hj & Hc & Hk); [rewrite Nat.add_0_r, E in Hc; done|].
        exists j. rewrite Nat.add_succ_r in Hc. split; [lia|split; [done|]].
        intros k Hlt. specialize (Hk (S k)). rewrite Nat.add_succ_r in Hk. apply Hk. lia.
    + split.
      * intros Hc. exists 0. rewrite Nat.add_0_r, E. repeat split; [lia|done|lia].
      * intros ([|j] & Hj & Hc & Hk); [by rewrite Nat.add_0_r, E in Hc|].
        specialize (Hk 0). rewrite Nat.add_0_r, E in Hk. destruct He. by injection Hk; [|lia].
  - split; [done|]. intros ([|j] & Hj & Hc & Hk); [by rewrite Nat.add_0_r, E in Hc|].
    specialize (Hk 0). rewrite Nat.add_0_r, E in Hk. discriminate Hk; lia.
Qed.

(** [on_wait] runs at most once, and the wait ends with the first answer that is no conflict or
    comes at the deadline. *)
Lemma build_loop_spec deadline waited calls r :
  build_loop deadline waited calls = Some r → r.2 ≤ if waited then 0 else 1.
Proof.
  revert waited r; induction calls as [|[[e|] now] calls IH]; intros waited r; cbn [build_loop]; [done| |].
  - destruct (e =? EINTR)%Z; [apply IH|]. destruct (conflict (Some e)); cbn [negb]; [|intros [= <-]; destruct waited; cbn; lia].
    destruct (deadline <=? now)%Z; [intros [= <-]; destruct waited; cbn; lia|].
    destruct (build_loop deadline true calls) as [[b n]|] eqn:E; [|done]. intros [= <-].
    apply IH in E. destruct waited; cbn in *; lia.
  - intros [= <-]. destruct waited; cbn; lia.
Qed.

Lemma build_loop_ends deadline waited calls rc now :
  (rc, now) ∈ calls → (rc = None ∨ conflict rc = false ∧ rc ≠ Some EINTR ∨ rc ≠ Some EINTR ∧ (deadline <= now)%Z) →
  is_Some (build_loop deadline waited calls).
Proof.
  intros Hin Hrc. revert waited. induction calls as [|[rc' now'] calls IH]; intros waited; [by apply elem_of_nil in Hin|].
  cbn [build_loop]. destruct rc' as [e|]; [|done].
  apply elem_of_cons in Hin as [[= -> ->]|Hin].
  - destruct Hrc as [?|[[Hc He]|[He Hd]]]; [done| |];
      (destruct (Z.eqb_spec e EINTR) as [->|]; [done|]); [by rewrite Hc|].
    destruct (conflict (Some e)); [|done]. cbn [negb]. by rewrite (proj2 (Z.leb_le _ _) Hd).
  - specialize (IH Hin). destruct (e =? EINTR)%Z; [apply IH|]. destruct (conflict (Some e)); [|done]. cbn [negb].
    destruct (deadline <=? now')%Z; [done|]. destruct (IH true) as [x ->]. done.
Qed.

(** ** The state of the system *)

Section Invariant.
Context (lock_path : string).

Record inv (w : World) : Prop := {
  inv_refs p o : (p, o) ∈ w_refs w → is_Some (w_desc w !! o);
  inv_lock i o : w_lock w !! i = Some o → w_desc w !! o = Some i ∧ ∃ p, (p, o) ∈ w_refs w;
  inv_phase p ph : w_phase w !! p = Some ph →
    (p, phase_ofd ph) ∈ w_refs w
    ∧ ∃ ino, w_desc w !! phase_ofd ph = Some ino ∧ fs_entries (w_fs w) !! lock_path = Some (Link ino)
             ∧ (owns ph = true → w_lock w !! ino = Some (phase_ofd ph));
  inv_uniq p q ph ph' : w_phase w !! p = Some ph → w_phase w !! q = Some ph' → phase_ofd ph = phase_ofd ph' → p = q;
  inv_named p o g ino i : w_phase w !! p = Some (Holding o g true) → w_desc w !! o = Some ino →
    fs_inodes (w_fs w) !! ino = Some i → i_content i = dec_of_N p;
}.

(** All the processes in the code have the inode of the name open. *)
Lemma inv_same_inode w p q ph ph' : inv w → w_phase w !! p = Some ph → w_phase w !! q = Some ph' →
  w_desc w !! phase_ofd ph = w_desc w !! phase_ofd ph'.
Proof.
  intros Hi Hp Hq. destruct (inv_phase w Hi p ph Hp) as (_ & i & -> & Hi1 & _).
  destruct (inv_phase w Hi q ph' Hq) as (_ & j & -> & Hj1 & _). congruence.
Qed.

Lemma inv_owner_unique w p q ph ph' : inv w → w_phase w !! p = Some ph → w_phase w !! q = Some ph' →
  owns ph = true → owns ph' = true → p = q.
Proof.
  intros Hi Hp Hq Ho Ho'. pose proof (inv_same_inode w p q ph ph' Hi Hp Hq) as Hsame.
  destruct (inv_phase w Hi p ph Hp) as (_ & i & Hdi & _ & Hl). destruct (inv_phase w Hi q ph' Hq) as (_ & j & Hdj & _ & Hl').
  rewrite Hdi, Hdj in Hsame. injection Hsame as <-. specialize (Hl Ho). specialize (Hl' Ho').
  rewrite Hl in Hl'. injection Hl' as ?. by eapply (inv_uniq w Hi).
Qed.

Lemma phase_set w p ph q : w_phase (set_phase p ph w) !! q = if decide (q = p) then ph else w_phase w !! q.
Proof.
  cbn. destruct (decide (q = p)) as [->|Hne]; [by rewrite lookup_partial_alter_eq|by rewrite lookup_partial_alter_ne].
Qed.

Lemma inv_forget p w : inv w → inv (set_phase p None w).
Proof.
  intros Hi. split; try apply Hi.
  - intros q ph. rewrite phase_set. destruct (decide (q = p)); [done|]. apply Hi.
  - intros q r ph ph'. rewrite !phase_set. destruct (decide (q = p)), (decide (r = p)); try done. apply Hi.
  - intros q o g ino i. rewrite phase_set. destruct (decide (q = p)); [done|]. by apply (inv_named w Hi q o g ino i).
Qed.

(** Moving on without touching the lock: only to a phase that owns no more, on the same description. *)
Lemma inv_move p ph ph' w : inv w → w_phase w !! p = Some ph → phase_ofd ph' = phase_ofd ph →
  (owns ph' = true → owns ph = true) →
  (∀ o g ino i, ph' = Holding o g true → w_desc w !! o = Some ino → fs_inodes (w_fs w) !! ino = Some i →
                i_content i = dec_of_N p) →
  inv (set_phase p (Some ph') w).
Proof.
  intros Hi Hp Hofd Hown Hname. split; try apply Hi.
  - intros q qh. rewrite phase_set. destruct (decide (q = p)) as [->|]; [|apply Hi]. intros [= <-]. rewrite Hofd.
    destruct (inv_phase w Hi p ph Hp) as (Hr & i & Hd & He & Hl). split; [done|]. exists i. cbn. eauto.
  - intros q r qh rh. rewrite !phase_set. destruct (decide (q = p)) as [->|], (decide (r = p)) as [->|]; [done| | |apply Hi].
    + intros [= <-] Hr. rewrite Hofd. by eapply (inv_uniq w Hi).
    + intros Hq [= <-]. rewrite Hofd. by eapply (inv_uniq w Hi).
  - intros q o g ino i. rewrite phase_set. destruct (decide (q = p)) as [->|]; [|by apply (inv_named w Hi q o g ino i)]. intros [= ->]. by apply (Hname o g ino i).
Qed.

Lemma inv_unlock ofd w : inv w → (∀ q ph, w_phase w !! q = Some ph → owns ph = true → phase_ofd ph ≠ ofd) →
  inv (flock_drop ofd w).
Proof.
  intros Hi Hno. split; try apply Hi.
  - intros i o [Hl _]%map_lookup_filter_Some. by apply Hi.
  - intros q ph Hq. destruct (inv_phase w Hi q ph Hq) as (Hr & ino & Hd & He & Hl). split; [done|].
    exists ino. split; [done|split; [done|]]. intros Ho. apply map_lookup_filter_Some. split; [by apply Hl|].
    cbn. by apply (Hno q).
Qed.

Lemma inv_take p ph ph' ino w : inv w → w_phase w !! p = Some ph → phase_ofd ph' = phase_ofd ph →
  (∀ o g, ph' ≠ Holding o g true) →
  w_desc w !! phase_ofd ph = Some ino → flock_free w (phase_ofd ph) ino = true →
  inv (set_phase p (Some ph') (flock_take ino (phase_ofd ph) w)).
Proof.
  intros Hi Hp Hofd Hnn Hd Hfree.
  assert (∀ i o, <[ino := phase_ofd ph]> (w_lock w) !! i = Some o → w_desc w !! o = Some i ∧ ∃ q, (q, o) ∈ w_refs w) as Hlk.
  { intros i o. rewrite lookup_insert_Some. intros [[<- <-]|[_ Hl]]; [|by apply Hi].
    split; [done|]. exists p. by apply (inv_phase w Hi p ph). }
  split; try apply Hi.
  - exact Hlk.
  - intros q qh. rewrite phase_set. destruct (decide (q = p)) as [->|Hqp].
    + intros [= <-]. rewrite Hofd. destruct (inv_phase w Hi p ph Hp) as (Hr & i & Hdi & He & _). split; [done|].
      exists ino. cbn. split; [done|split; [congruence|]]. intros _. by rewrite lookup_insert_eq.
    + intros Hq. cbn in Hq. destruct (inv_phase w Hi q qh Hq) as (Hr & i & Hdi & He & Hl). split; [done|].
      exists i. split; [done|split; [done|]]. intros Ho. exfalso. specialize (Hl Ho).
      pose proof (inv_same_inode w p q ph qh Hi Hp Hq) as Hs. rewrite Hd, Hdi in Hs. injection Hs as <-.
      unfold flock_free in Hfree. rewrite Hl in Hfree. bool_prop. apply Hqp. by eapply (inv_uniq w Hi).
  - intros q r qh rh. rewrite !phase_set. destruct (decide (q = p)) as [->|], (decide (r = p)) as [->|]; [done| | |apply Hi].
    + intros [= <-] Hr. rewrite Hofd. by eapply (inv_uniq w Hi).
    + intros Hq [= <-]. rewrite Hofd. by eapply (inv_uniq w Hi).
  - intros q o g j i. rewrite phase_set. destruct (decide (q = p)) as [->|]; [|by apply (inv_named w Hi q o g j i)]. intros [= ->]. by destruct (Hnn o g).
Qed.

Lemma in_gone closed w o :
  o ∈ (filter (λ o, set_Forall (λ r, r.2 ≠ o) (w_refs w ∖ closed)) (set_map snd closed : gset nat))
  ↔ (∃ p, (p, o) ∈ closed) ∧ ∀ p, (p, o) ∈ w_refs w → (p, o) ∈ closed.
Proof.
  rewrite elem_of_filter, elem_of_map. unfold set_Forall. setoid_rewrite elem_of_difference. split.
  - intros [Hall ([p o'] & -> & Hc)]. split; [by exists p|]. intros q Hq.
    destruct (decide ((q, o') ∈ closed)); [done|]. by destruct (Hall (q, o')).
  - intros [[p Hc] Hall]. split; [|by exists (p, o)]. intros [q o'] [Hr Hn] Heq. cbn in Heq. subst. by apply Hn, Hall.
Qed.

Lemma inv_close p closed w : inv w → w_phase w !! p = None → (∀ r, r ∈ closed → r.1 = p) → inv (close_refs closed w).
Proof.
  intros Hi Hp Hc.
  assert (∀ q o, (q, o) ∈ w_refs w → (q, o) ∉ closed →
    o ∉ (filter (λ o, set_Forall (λ r, r.2 ≠ o) (w_refs w ∖ closed)) (set_map snd closed : gset nat))) as Hkeep.
  { intros q o Hr Hn Hg. apply in_gone in Hg as [_ Hg]. by apply Hn, Hg. }
  assert (∀ q ph, w_phase w !! q = Some ph → (q, phase_ofd ph) ∉ closed) as Hown.
  { intros q ph Hq Hin. apply Hc in Hin. cbn in Hin. subst q. by rewrite Hp in Hq. }
  split; cbn.
  - intros q o [Hr Hn]%elem_of_difference. destruct (inv_refs w Hi q o Hr) as [i Hd]. exists i.
    apply map_lookup_filter_Some. split; [done|]. by apply (Hkeep q).
  - intros i o [Hl Hg]%map_lookup_filter_Some. destruct (inv_lock w Hi i o Hl) as [Hd [q Hq]]. cbn in Hg.
    split; [by apply map_lookup_filter_Some|]. rewrite in_gone in Hg.
    destruct (decide ((q, o) ∈ closed)) as [Hqc|Hqc]; [|exists q; by apply elem_of_difference].
    (* the description has another descriptor, or it would be gone *)
    destruct (decide (set_Exists (λ r, r.2 = o ∧ r ∉ closed) (w_refs w))) as [([r o'] & Hr & [Heq Hn])|Hno].
    + cbn in Heq. subst o'. exists r. by apply elem_of_difference.
    + destruct Hg. split; [by exists q|]. intros r Hr. destruct (decide ((r, o) ∈ closed)); [done|].
      destruct Hno. by exists (r, o).
  - intros q ph Hq. destruct (inv_phase w Hi q ph Hq) as (Hr & i & Hd & He & Hl).
    split; [apply elem_of_difference; split; [done|by apply Hown]|]. exists i.
    split; [apply map_lookup_filter_Some; split; [done|by apply (Hkeep q), Hown]|split; [done|]].
    intros Ho. apply map_lookup_filter_Some. split; [by apply Hl|]. by apply (Hkeep q), Hown.
  - apply Hi.
  - intros q o g ino i Hq [Hd _]%map_lookup_filter_Some. by apply (inv_named w Hi q o g ino i).
Qed.

(** What an opening of the lock file does to the directory. *)
Lemma open_quiet intent fs ino fs' :
  open_owned quiet lock_path intent fs = (Ok ino, fs') →
  fs_entries fs' !! lock_path = Some (Link ino)
  ∧ (∀ i, fs_entries fs !! lock_path = Some (Link i) → i = ino ∧ fs' = fs).
Proof.
  unfold open_owned. destruct (refuse_non_regular fs lock_path); [|done]. cbn.
  destruct (open_nofollow _ lock_path fs) as [[j fs1]|] eqn:Ho; [|done].
  destruct (refuse_unowned_handle fs1 lock_path j intent); intros [= -> ->].
  apply open_nofollow_spec in Ho as (He & _ & _ & Hfs). split; [done|]. intros i Hi.
  destruct Hfs as [->|(_ & Hnone & _)]; [|by rewrite Hnone in Hi]. rewrite He in Hi. by injection Hi as ->.
Qed.

Lemma inv_open p ph w ino fs' ofd intent :
  inv w → w_phase w !! p = None → open_owned quiet lock_path intent (w_fs w) = (Ok ino, fs') → w_desc w !! ofd = None →
  phase_ofd ph = ofd → owns ph = false →
  inv (set_phase p (Some ph) (open_desc p ino ofd fs' w)).
Proof.
  intros Hi Hp [He Hsame]%open_quiet Hd <- Hown.
  assert (∀ q qh, w_phase w !! q = Some qh → fs' = w_fs w ∧ phase_ofd qh ≠ phase_ofd ph) as Hothers.
  { intros q qh Hq. destruct (inv_phase w Hi q qh Hq) as (_ & i & Hdi & Hei & _).
    split; [by apply (Hsame i)|]. intros Heq. by rewrite Heq, Hd in Hdi. }
  split; cbn.
  - intros q o [[= -> ->]%elem_of_singleton|Hr]%elem_of_union; [by rewrite lookup_insert_eq|].
    rewrite lookup_insert_is_Some. destruct (decide (phase_ofd ph = o)); [by left|right]. split; [done|]. by apply (inv_refs w Hi q).
  - intros i o Hl. destruct (inv_lock w Hi i o Hl) as [Hdo [q Hq]].
    rewrite lookup_insert_ne by (intros <-; by rewrite Hd in Hdo). split; [done|]. exists q. set_solver.
  - intros q qh Hq.
    assert ((if decide (q = p) then Some ph else w_phase w !! q) = Some qh) as Hq' by (rewrite <-Hq; symmetry; apply (phase_set w)).
    clear Hq. destruct (decide (q = p)) as [->|Hqp].
    + injection Hq' as <-. split; [set_solver|]. exists ino. rewrite lookup_insert_eq. split; [done|split; [done|]]. by rewrite Hown.
    + destruct (Hothers q qh Hq') as [-> Hne]. destruct (inv_phase w Hi q qh Hq') as (Hr & i & Hdi & Hei & Hl).
      split; [set_solver|]. exists i. by rewrite lookup_insert_ne.
  - intros q r qh rh Hq Hr.
    assert ((if decide (q = p) then Some ph else w_phase w !! q) = Some qh) as Hq' by (rewrite <-Hq; symmetry; apply (phase_set w)).
    assert ((if decide (r = p) then Some ph else w_phase w !! r) = Some rh) as Hr' by (rewrite <-Hr; symmetry; apply (phase_set w)).
    clear Hq Hr. destruct (decide (q = p)) as [->|], (decide (r = p)) as [->|]; [done| | |by apply (inv_uniq w Hi)].
    + injection Hq' as <-. intros Heq. by destruct (Hothers r rh Hr') as [_ []].
    + injection Hr' as <-. intros Heq. by destruct (Hothers q qh Hq') as [_ []].
  - intros q o g j i Hq Hdj Hij.
    assert ((if decide (q = p) then Some ph else w_phase w !! q) = Some (Holding o g true)) as Hq'
      by (rewrite <-Hq; symmetry; apply (phase_set w)).
    destruct (decide (q = p)) as [->|Hqp]; [injection Hq' as ->; done|].
    destruct (Hothers q _ Hq') as [Hfs Hne]. cbn in Hne. rewrite lookup_insert_ne in Hdj by done.
    apply (inv_named w Hi q o g j i); [done|done|]. by rewrite <-Hfs.
Qed.

Lemma inv_write p o ino s ph' w :
  inv w → w_phase w !! p = Some (Locked o) → w_desc w !! o = Some ino → phase_ofd ph' = o →
  (∀ o' g, ph' = Holding o' g true → s = dec_of_N p) →
  inv (set_phase p (Some ph') (set_content ino s w)).
Proof.
  intros Hi Hp Hd Hofd Hname.
  assert (inv (set_content ino s (set_phase p (Some (Locked o)) w))) as Hw.
  { assert (∀ q g o', w_phase w !! q = Some (Holding o' g true) → False) as Hno.
    { intros q g o' Hq. assert (q = p) as -> by (by eapply (inv_owner_unique w q p _ _ Hi Hq Hp)). by rewrite Hp in Hq. }
    split; try apply Hi.
    - intros q ph. cbn [set_content w_phase w_desc w_lock w_fs fs_entries w_refs]. rewrite phase_set.
      destruct (decide (q = p)) as [->|]; [intros [= <-]|intros Hq]; by apply (inv_phase w Hi).
    - intros q r qh rh. cbn [set_content w_phase]. rewrite !phase_set. intros Hq Hr.
      destruct (decide (q = p)) as [->|], (decide (r = p)) as [->|]; [done| | |by apply (inv_uniq w Hi)].
      + injection Hq as <-. by apply (inv_uniq w Hi).
      + injection Hr as <-. by apply (inv_uniq w Hi).
    - intros q o' g j i. cbn [set_content w_phase]. rewrite phase_set. destruct (decide (q = p)); [done|].
      intros Hq. by destruct (Hno q g o'). }
  assert (set_phase p (Some ph') (set_content ino s w)
          = set_phase p (Some ph') (set_content ino s (set_phase p (Some (Locked o)) w))) as ->.
  { unfold set_phase, set_content. cbn. f_equal. apply map_eq. intros q.
    destruct (decide (q = p)) as [->|]; [by rewrite !lookup_partial_alter_eq|by rewrite !lookup_partial_alter_ne]. }
  apply (inv_move p (Locked o)); [done| |done|done|].
  - cbn [set_content w_phase]. rewrite phase_set. by rewrite decide_True.
  - intros o' g j i -> Hdj. cbn in Hofd. subst o'. cbn in Hdj. rewrite Hd in Hdj. injection Hdj as <-. cbn.
    rewrite lookup_alter_eq. destruct (fs_inodes (w_fs w) !! ino); [|done]. intros [= <-]. cbn. by eapply Hname.
Qed.

Lemma inv_fork p c w :
  inv w → w_phase w !! c = None →
  inv (mkWorld (w_fs w) (w_desc w) (w_refs w ∪ set_map (λ r, (c, r.2)) (refs_of p w)) (w_lock w) (w_phase w)).
Proof.
  intros Hi Hc. split; cbn; try apply Hi.
  - intros q o [Hr|Hr]%elem_of_union; [by apply (inv_refs w Hi q)|].
    apply elem_of_map in Hr as ([r o'] & [= -> ->] & [_ Hr]%elem_of_filter). by apply (inv_refs w Hi r).
  - intros i o Hl. destruct (inv_lock w Hi i o Hl) as [? [q ?]]. split; [done|]. exists q. set_solver.
  - intros q ph Hq. destruct (inv_phase w Hi q ph Hq) as [? ?]. split; [set_solver|done].
Qed.

(** Closing the description, unlocked or not. *)
Lemma inv_leave p ofd w : inv w → inv (set_phase p None (close_one p ofd w)).
Proof.
  intros Hi. apply (inv_close p _ (set_phase p None w)); [by apply inv_forget|by rewrite phase_set, decide_True|set_solver].
Qed.
Lemma inv_drop p ph ofd w :
  inv w → w_phase w !! p = Some ph → phase_ofd ph = ofd → inv (set_phase p None (close_one p ofd (flock_drop ofd w))).
Proof.
  intros Hi Hp Hofd. apply (inv_close p _ (flock_drop ofd (set_phase p None w)));
    [|by cbn [flock_drop w_phase]; rewrite phase_set, decide_True|set_solver].
  apply inv_unlock; [by apply inv_forget|]. intros q qh. rewrite phase_set. destruct (decide (q = p)) as [|Hqp]; [done|].
  intros Hq _ Heq. apply Hqp, (inv_uniq w Hi q p qh ph Hq Hp). congruence.
Qed.

Lemma inv_step w w' : inv w → step lock_path w w' → inv w'.
Proof.
  intros Hi Hstep. destruct Hstep as [p more w ino fs' ofd Hp Ho Hd|p w ofd more ino Hp Hd Hf|p w ofd more ino more' Hp Hd Hf Ha
    |p w ofd more ino e Hp Hd Hc Ha|p w ofd ino guard Hp Hd|p w ofd ino guard s Hp Hd Hs|p w ofd named Hp|p w ofd named Hp
    |p w ino fs' ofd Hp Ho Hd|p w ofd more ino Hp Hd Hf|p w ofd Hp|p w ofd more Hp|p w ofd more Hp|p c w Hc Hcr|p w].
  - by apply (inv_open p (Trying ofd more) w ino fs' ofd Hold).
  - by apply (inv_take p (Trying ofd more)).
  - by apply (inv_move p (Trying ofd more)).
  - by apply inv_leave.
  - apply (inv_write p ofd); [done|done|done|done|]. by intros ? ? [= _ _].
  - by apply (inv_write p ofd).
  - by apply (inv_drop p _ ofd w Hi Hp).
  - by apply inv_leave.
  - by apply (inv_open p (Probing ofd PROBE_TRIES) w ino fs' ofd Probe).
  - by apply (inv_take p (Probing ofd more)).
  - by apply (inv_drop p _ ofd w Hi Hp).
  - by apply (inv_move p (Probing ofd (S (S more)))).
  - by apply inv_leave.
  - by apply inv_fork.
  - apply (inv_close p _ (set_phase p None w)); [by apply inv_forget|by rewrite phase_set, decide_True|].
    intros r [Hr _]%elem_of_filter. done.
Qed.

Lemma inv_initial w : initial w → inv w.
Proof. intros (Hd & Hr & Hl & Hp). split; rewrite ?Hd, ?Hr, ?Hl, ?Hp; set_solver. Qed.

Lemma reachable_lock_inv w : reachable lock_path w → inv w.
Proof.
  intros (w0 & Hi%inv_initial & Hs). induction Hs as [|w0 w1 w2 H1 _ IH]; [done|]. by apply IH, (inv_step w0).
Qed.
End Invariant.

(** C22: At every moment of every interleaving of processes that take, probe and drop the index lock, fork, exec, crash and exit, at most one of them owns it, and it is the lock of the file at the lock's name (the file is never unlinked).  A lock is never stale: some live process holds a descriptor of its description.  Once a holder has written its PID the file holds exactly that PID, until it lets go.  Dropping a guard frees the lock even while a forked child still holds a copy of the descriptor, and a probe that took the free lock leaves the table of locks as it found it. *)
Theorem index_lock_safe (lock_path : string) (w : World) :
  reachable lock_path w →
  (∀ p q ph ph', w_phase w !! p = Some ph → w_phase w !! q = Some ph' → owns ph = true → owns ph' = true → p = q)
  ∧ (∀ p ph, w_phase w !! p = Some ph → owns ph = true →
     ∃ ino, fs_entries (w_fs w) !! lock_path = Some (Link ino) ∧ w_lock w !! ino = Some (phase_ofd ph))
  ∧ (∀ ino ofd, w_lock w !! ino = Some ofd → ∃ p, (p, ofd) ∈ w_refs w)
  ∧ (∀ p ofd guard ino i, w_phase w !! p = Some (Holding ofd guard true) →
     fs_entries (w_fs w) !! lock_path = Some (Link ino) → fs_inodes (w_fs w) !! ino = Some i → i_content i = dec_of_N p)
  ∧ (∀ p ofd named ino, w_phase w !! p = Some (Holding ofd true named) → w_lock w !! ino = Some ofd →
     ∃ w', step lock_path w w' ∧ w_phase w' !! p = None ∧ w_lock w' !! ino = None)
  ∧ (∀ p ofd more ino, w_phase w !! p = Some (Probing ofd more) → w_desc w !! ofd = Some ino → w_lock w !! ino = None →
     ∃ w1 w2, step lock_path w w1 ∧ w_phase w1 !! p = Some (ProbeLocked ofd)
              ∧ step lock_path w1 w2 ∧ w_lock w2 !! ino = None).
Proof.
  intros Hi%reachable_lock_inv. split; [intros *; by apply (inv_owner_unique lock_path)|split; [|split; [|split; [|split]]]].
  - intros p ph Hp Ho. destruct (inv_phase _ w Hi p ph Hp) as (_ & ino & _ & He & Hl). eauto.
  - intros ino ofd Hl. by apply (inv_lock _ w Hi ino).
  - intros p ofd g ino i Hp He. destruct (inv_phase _ w Hi p _ Hp) as (_ & j & Hd & He' & _).
    rewrite He in He'. injection He' as <-. by apply (inv_named _ w Hi p ofd g).
  - intros p ofd named ino Hp Hl. eexists. split; [exact (step_drop_guard _ p w ofd named Hp)|]. rewrite phase_set, decide_True by done.
    split; [done|]. apply map_lookup_filter_None. left. apply map_lookup_filter_None. right. intros o Ho. cbn. intros Hne.
    rewrite Hl in Ho. by injection Ho as <-.
  - intros p ofd more ino Hp Hd Hl. do 2 eexists. split; [eapply step_probe_lock; [done|done|by unfold flock_free; rewrite Hl]|].
    rewrite phase_set, decide_True by done. split; [done|].
    split; [apply step_probe_unlock; by rewrite phase_set, decide_True|].
    apply map_lookup_filter_None. left. apply map_lookup_filter_None. right. intros o. cbn. rewrite lookup_insert_eq.
    by intros [= <-] [].
Qed.

(** The retry loops of the lock end and answer for the right call ([acquire_index_lock_retrying], [other_process_holds_index_lock], [acquire_build_lock]).  An acquisition tries [retries + 1] times at most and stops at the first answer that is no conflict; the probe says held exactly when one of its five tries is refused for a conflict after interrupted calls only, so no other error reads as a holder; the build's wait ends at the first success, the first other error or the deadline, and its notice is given at most once. *)
Theorem lock_loops_ok :
  (∀ rcs retries, ∃ j, j ≤ retries ∧ flock_retrying rcs 0 retries = rcs j
     ∧ (∀ k, k < j → rcs k = Some EWOULDBLOCK) ∧ (j < retries → rcs j ≠ Some EWOULDBLOCK))
  ∧ (∀ rcs, probe_loop rcs 0 PROBE_TRIES = true
            ↔ ∃ j, j < 5 ∧ rcs j = Some EWOULDBLOCK ∧ ∀ k, k < j → rcs k = Some EINTR)
  ∧ (∀ started wait calls held notices, acquire_build_lock started wait calls = Some (held, notices) → notices ≤ 1)
  ∧ (∀ started wait calls rc now, (rc, now) ∈ calls →
       rc = None ∨ rc ≠ Some EINTR ∧ rc ≠ Some EWOULDBLOCK ∨ rc ≠ Some EINTR ∧ (started + wait <= now)%Z →
       is_Some (acquire_build_lock started wait calls)).
Proof.
  assert (∀ rc, conflict rc = true ↔ rc = Some EWOULDBLOCK) as Hc.
  { intros [e|]; cbn; [|done]. rewrite Z.eqb_eq. naive_solver. }
  assert (∀ rc, conflict rc = false ↔ rc ≠ Some EWOULDBLOCK) as Hc' by (intros rc; by rewrite <-Hc, not_true_iff_false).
  split; [|split; [|split]].
  - intros rcs retries. destruct (flock_retrying_spec rcs 0 retries) as (j & ? & ? & ? & ?).
    setoid_rewrite Hc in H1. setoid_rewrite Hc' in H2. eauto.
  - intros rcs. rewrite probe_loop_spec. by setoid_rewrite Hc.
  - intros started wait calls held notices H%build_loop_spec. done.
  - intros started wait calls rc now Hin Hrc. apply (build_loop_ends _ _ _ rc now Hin). rewrite Hc'. tauto.
Qed.

(** ** A run *)

Definition demo_path : string := ".code-graph/index.lock".
Definition demo_w0 : World := mkWorld (mkFs ∅ ∅) ∅ ∅ ∅ ∅.
Definition demo_fs : Fs := (open_owned quiet demo_path Hold (w_fs demo_w0)).2.
Definition demo_w1 : World := set_phase 7%N (Some (Trying 0 9)) (open_desc 7%N 0 0 demo_fs demo_w0).
Definition demo_w2 : World := set_phase 7%N (Some (Locked 0)) (flock_take 0 0 demo_w1).
Definition demo_w3 : World := set_phase 7%N (Some (Holding 0 true true)) (set_content 0 (dec_of_N 7) demo_w2).
(** Another process opens the file and is refused. *)
Definition demo_w4 : World := set_phase 8%N (Some (Trying 1 1)) (open_desc 8%N 0 1 demo_fs demo_w3).

Lemma demo_open : step demo_path demo_w0 demo_w1.
Proof.
  assert (hold_owned quiet demo_path (w_fs demo_w0) = (Ok 0, demo_fs)) as Ho by (by vm_compute).
  exact (step_open demo_path 7%N 9 demo_w0 0 demo_fs 0 eq_refl Ho eq_refl).
Qed.
Lemma demo_win : step demo_path demo_w1 demo_w2.
Proof. exact (step_win demo_path 7%N demo_w1 0 9 0 eq_refl eq_refl eq_refl). Qed.
Lemma demo_write : step demo_path demo_w2 demo_w3.
Proof. exact (step_write_pid demo_path 7%N demo_w2 0 0 true eq_refl eq_refl). Qed.
Lemma demo_run : rtc (step demo_path) demo_w0 demo_w3.
Proof. exact (rtc_l _ _ _ _ demo_open (rtc_l _ _ _ _ demo_win (rtc_once _ _ demo_write))). Qed.
Lemma demo_reachable : reachable demo_path demo_w3.
Proof. exists demo_w0. split; [by repeat split|apply demo_run]. Qed.

Lemma index_lock_safe_witness :
  flock_free demo_w4 1 0 = false
  ∧ ∀ p q ph ph', w_phase demo_w3 !! p = Some ph → w_phase demo_w3 !! q = Some ph' →
      owns ph = true → owns ph' = true → p = q.
Proof.
  split; [by vm_compute|].
  exact (proj1 (index_lock_safe demo_path demo_w3 demo_reachable)).
Defined.
