(* ===== verification/Store.v ===== *)
(** * The index store and its writes

    The tables of [storage/schema.rs] with all their columns, every statement of
    [storage/queries/nodes.rs], [edges.rs], [files.rs] and [meta.rs] that changes
    them, and the statements the indexer, the server and [db.rs] run on them
    directly: the edge deletions and [INSERT .. SELECT]s of the post passes (any
    condition, any rows), the confidence update, the sentinel's type, the wipes.  [PRAGMA foreign_keys = ON] (db.rs): a row that references no
    row is refused, and deleting a row deletes what references it.  A row id that
    is not given is one more than the largest.  [Tables.Database] is what the
    graph queries read of it ([project]). *)

From S2P Require Import Prelude Str Domain Tables.

(** ** Rows *)

Record FileRecord := mkFileRecord {
  fr_path : string;
  fr_blake3_hash : string;
  fr_last_modified : Z;
  fr_language : option string;
}.

Record FileEntry := mkFileEntry {
  fe_file : FileRow;
  fe_blake3_hash : string;
  fe_last_modified : Z;
  fe_indexed_at : Z;
}.

Record NodeRecord := mkNodeRecord {
  rec_file_id : Z;
  rec_node_type : string;
  rec_name : string;
  rec_qualified_name : option string;
  rec_start_line : Z;
  rec_end_line : Z;
  rec_code_content : string;
  rec_signature : option string;
  rec_doc_comment : option string;
  rec_context_string : option string;
  rec_name_tokens : option string;
  rec_return_type : option string;
  rec_param_types : option string;
  rec_is_test : bool;
}.

(** The columns of [NodeRow] and the others. *)
Record NodeResult := mkNodeResult {
  nr_node : NodeRow;
  nr_code_content : string;
  nr_signature : option string;
  nr_doc_comment : option string;
  nr_context_string : option string;
  nr_name_tokens : option string;
  nr_return_type : option string;
  nr_param_types : option string;
}.

Record EdgeEntry := mkEdgeEntry { ee_id : Z; ee_edge : EdgeRow }.

Record PendingCallRow := mkPending {
  pc_id : Z;
  pc_source_id : Z;
  pc_target_name : string;
  pc_source_language : string;
  pc_metadata : option string;
  pc_attempts : Z;
}.

(** [(class node id, field, dot type, arrow type)] *)
Definition CppFieldRow : Type := Z * string * option string * option string.

Record JsExportRow := mkJsExport {
  je_module_id : Z;
  je_ord : Z;
  je_kind : string;
  je_name : option string;
  je_target : option string;
  je_spec : option string;
}.

Inductive JsExportEntry :=
| JsLocal (export local : string)
| JsIndirect (export spec : string) (import : option string)
| JsStar (spec : string).

Record Store := mkStore {
  s_files : list FileEntry;
  s_nodes : list NodeResult;
  s_edges : list EdgeEntry;
  s_pending : list PendingCallRow;
  s_cpp_fields : list CppFieldRow;
  s_js_exports : list JsExportRow;
  s_meta : gmap string string;
}.

Definition empty_store : Store := mkStore [] [] [] [] [] [] ∅.

Definition file_id_of (f : FileEntry) : Z := f_id (fe_file f).
Definition file_path_of (f : FileEntry) : string := f_path (fe_file f).
Definition node_id_of (n : NodeResult) : Z := n_id (nr_node n).
Definition node_file_of (n : NodeResult) : Z := n_file_id (nr_node n).
Definition cpp_class (c : CppFieldRow) : Z := c.1.1.1.

Definition file_ids (st : Store) : list Z := file_id_of <$> s_files st.
Definition node_ids (st : Store) : list Z := node_id_of <$> s_nodes st.

(** What the graph queries read. *)
Definition project (st : Store) : Database :=
  mkDb (fe_file <$> s_files st) (nr_node <$> s_nodes st) (ee_edge <$> s_edges st).

(** The id of a new row. *)
Definition next_id (ids : list Z) : Z := 1 + foldr Z.max 0%Z ids.

Definition FK_FAILED : string := "FOREIGN KEY constraint failed".

(** ** Files *)

Definition path_is (p : string) (f : FileEntry) : bool := String.eqb (file_path_of f) p.

Definition updated_file (now : Z) (r : FileRecord) (f : FileEntry) : FileEntry :=
  mkFileEntry (mkFile (file_id_of f) (file_path_of f) (fr_language r))
    (fr_blake3_hash r) (fr_last_modified r) now.

(** [now] is [unixepoch()]. *)
Definition upsert_file (now : Z) (r : FileRecord) (st : Store) : Z * Store :=
  match find (path_is (fr_path r)) (s_files st) with
  | Some f =>
      (file_id_of f,
       mkStore ((λ g, if path_is (fr_path r) g then updated_file now r g else g) <$> s_files st)
         (s_nodes st) (s_edges st) (s_pending st) (s_cpp_fields st) (s_js_exports st) (s_meta st))
  | None =>
      let id := next_id (file_ids st) in
      (id,
       mkStore (s_files st ++ [mkFileEntry (mkFile id (fr_path r) (fr_language r))
                                 (fr_blake3_hash r) (fr_last_modified r) now])
         (s_nodes st) (s_edges st) (s_pending st) (s_cpp_fields st) (s_js_exports st) (s_meta st))
  end.

(** [ON DELETE CASCADE] of the tables that reference [nodes]. *)
Definition delete_nodes_where (dead : NodeResult → bool) (st : Store) : Store :=
  let gone := node_id_of <$> filter (λ n, dead n = true) (s_nodes st) in
  mkStore (s_files st)
    (filter (λ n, dead n = false) (s_nodes st))
    (filter (λ e, e_source_id (ee_edge e) ∉ gone ∧ e_target_id (ee_edge e) ∉ gone) (s_edges st))
    (filter (λ p, pc_source_id p ∉ gone) (s_pending st))
    (filter (λ c, cpp_class c ∉ gone) (s_cpp_fields st))
    (filter (λ j, je_module_id j ∉ gone) (s_js_exports st))
    (s_meta st).

Definition with_files (fs : list FileEntry) (st : Store) : Store :=
  mkStore fs (s_nodes st) (s_edges st) (s_pending st) (s_cpp_fields st) (s_js_exports st) (s_meta st).

Definition type_of (n : NodeResult) : string := n_type (nr_node n).

Definition retyped (n : NodeResult) : NodeResult :=
  let r := nr_node n in
  mkNodeResult (mkNode (n_id r) (n_file_id r) "trait" (n_name r) (n_qualified_name r) (n_start_line r) (n_end_line r) (n_is_test r))
    (nr_code_content n) (nr_signature n) (nr_doc_comment n) (nr_context_string n) (nr_name_tokens n) (nr_return_type n)
    (nr_param_types n).

(** [UPDATE nodes SET type = 'trait' WHERE id = ?1 AND type = 'module'] *)
Definition make_trait (id : Z) (st : Store) : Store :=
  mkStore (s_files st)
    ((λ n, if (node_id_of n =? id)%Z && String.eqb (type_of n) "module" then retyped n else n) <$> s_nodes st)
    (s_edges st) (s_pending st) (s_cpp_fields st) (s_js_exports st) (s_meta st).

(** [ON DELETE CASCADE] of [nodes], which references [files]. *)
Definition delete_files_where (dead : FileEntry → bool) (st : Store) : Store :=
  let gone := file_id_of <$> filter (λ f, dead f = true) (s_files st) in
  with_files (filter (λ f, dead f = false) (s_files st))
    (delete_nodes_where (λ n, bool_decide (node_file_of n ∈ gone)) st).

Definition MAX_IN_PARAMS : nat := 500.

(** One [DELETE .. IN (..)] per chunk. *)
Definition delete_files_by_paths (paths : list string) (st : Store) : Store :=
  foldl (λ st chunk, delete_files_where (λ f, bool_decide (file_path_of f ∈ chunk)) st)
    st (chunks MAX_IN_PARAMS paths).

(** ** Nodes *)

Definition node_of_record (id : Z) (r : NodeRecord) : NodeResult :=
  mkNodeResult
    (mkNode id (rec_file_id r) (rec_node_type r) (rec_name r) (rec_qualified_name r)
       (rec_start_line r) (rec_end_line r) (rec_is_test r))
    (rec_code_content r) (rec_signature r) (rec_doc_comment r) (rec_context_string r)
    (rec_name_tokens r) (rec_return_type r) (rec_param_types r).

Definition insert_node (r : NodeRecord) (st : Store) : result string (Z * Store) :=
  if bool_decide (rec_file_id r ∈ file_ids st) then
    let id := next_id (node_ids st) in
    Ok (id, mkStore (s_files st) (s_nodes st ++ [node_of_record id r]) (s_edges st) (s_pending st)
              (s_cpp_fields st) (s_js_exports st) (s_meta st))
  else Err FK_FAILED.

(** The same statement, prepared once. *)
Definition insert_node_cached := insert_node.

Definition delete_nodes_by_file (file_id : Z) (st : Store) : Store :=
  delete_nodes_where (λ n, (node_file_of n =? file_id)%Z) st.

Definition with_context (ctx : string) (n : NodeResult) : NodeResult :=
  mkNodeResult (nr_node n) (nr_code_content n) (nr_signature n) (nr_doc_comment n) (Some ctx)
    (nr_name_tokens n) (nr_return_type n) (nr_param_types n).

Definition set_context (node_id : Z) (ctx : string) (st : Store) : Store :=
  mkStore (s_files st)
    ((λ n, if (node_id_of n =? node_id)%Z then with_context ctx n else n) <$> s_nodes st)
    (s_edges st) (s_pending st) (s_cpp_fields st) (s_js_exports st) (s_meta st).

Definition update_context_strings_batch (updates : list (Z * string)) (st : Store) : Store :=
  foldl (λ st u, set_context u.1 u.2 st) st updates.

(** A sentinel of the pseudo-file that no edge touches. *)
Definition is_orphan_external (st : Store) (n : NodeResult) : bool :=
  match find (path_is EXTERNAL_FILE_PATH) (s_files st) with
  | Some f => (node_file_of n =? file_id_of f)%Z
  | None => false
  end
  && bool_decide (node_id_of n ∉ (λ e, e_target_id (ee_edge e)) <$> s_edges st)
  && bool_decide (node_id_of n ∉ (λ e, e_source_id (ee_edge e)) <$> s_edges st).

Definition reap_orphan_external_nodes (st : Store) : nat * Store :=
  (length (filter (λ n, is_orphan_external st n = true) (s_nodes st)),
   delete_nodes_where (is_orphan_external st) st).

(** ** Edges *)

(** The unique index on [(source_id, target_id, relation, COALESCE(metadata, ''))]. *)
Definition edge_key (e : EdgeRow) : Z * Z * string * string :=
  (e_source_id e, e_target_id e, e_relation e, default "" (e_metadata e)).

(** [INSERT OR IGNORE]: a duplicate is ignored, a dangling reference is not. *)
Definition insert_edge (source_id target_id : Z) (relation : string) (metadata : option string)
    (st : Store) : result string (bool * Store) :=
  let e := mkEdge source_id target_id relation metadata CONF_EXTRACTED in
  if bool_decide (edge_key e ∈ edge_key ∘ ee_edge <$> s_edges st) then Ok (false, st)
  else if bool_decide (source_id ∈ node_ids st) && bool_decide (target_id ∈ node_ids st) then
    Ok (true,
        mkStore (s_files st) (s_nodes st)
          (s_edges st ++ [mkEdgeEntry (next_id (ee_id <$> s_edges st)) e])
          (s_pending st) (s_cpp_fields st) (s_js_exports st) (s_meta st))
  else Err FK_FAILED.

Definition insert_edge_cached := insert_edge.

Definition with_edges (es : list EdgeEntry) (st : Store) : Store :=
  mkStore (s_files st) (s_nodes st) es (s_pending st) (s_cpp_fields st) (s_js_exports st) (s_meta st).

(** [DELETE FROM edges WHERE ..], whatever the condition asks of the row and of the
    other tables. *)
Definition delete_edges_where (dead : EdgeEntry → bool) (st : Store) : Store :=
  with_edges (filter (λ e, dead e = false) (s_edges st)) st.

(** [INSERT OR IGNORE INTO edges (source_id, target_id, relation, metadata) SELECT ..]:
    the rows are selected first, then inserted one by one. *)
Fixpoint insert_selected_edges (rows : list (Z * Z * string * option string)) (st : Store)
    : result string (nat * Store) :=
  match rows with
  | [] => Ok (0, st)
  | (source_id, target_id, relation, metadata) :: rows' =>
      (let? (b, st) := insert_edge source_id target_id relation metadata st in
       let? (n, st) := insert_selected_edges rows' st in
       Ok ((if b then 1 else 0) + n, st))%cg
  end.

(** [UPDATE edges SET confidence = (SELECT c.conf FROM cg_conf c WHERE c.eid = edges.id)
    WHERE id IN (SELECT eid FROM cg_conf) AND ..] *)
Definition set_confidence (cg_conf : EdgeEntry → option string) (st : Store) : Store :=
  with_edges
    ((λ e, match cg_conf e with
           | Some c => mkEdgeEntry (ee_id e)
                         (mkEdge (e_source_id (ee_edge e)) (e_target_id (ee_edge e)) (e_relation (ee_edge e))
                            (e_metadata (ee_edge e)) c)
           | None => e
           end) <$> s_edges st) st.

(** ** Buffered calls *)

Definition pending_key (p : PendingCallRow) : Z * string * string * string :=
  (pc_source_id p, pc_target_name p, pc_source_language p, default "" (pc_metadata p)).

Definition insert_pending_unresolved_call (source_id : Z) (target_name source_language : string)
    (metadata : option string) (st : Store) : result string Store :=
  let p := mkPending (next_id (pc_id <$> s_pending st)) source_id target_name source_language
             metadata 0 in
  if bool_decide (pending_key p ∈ pending_key <$> s_pending st) then Ok st
  else if bool_decide (source_id ∈ node_ids st) then
    Ok (mkStore (s_files st) (s_nodes st) (s_edges st) (s_pending st ++ [p])
          (s_cpp_fields st) (s_js_exports st) (s_meta st))
  else Err FK_FAILED.

Definition set_pending (ps : list PendingCallRow) (st : Store) : Store :=
  mkStore (s_files st) (s_nodes st) (s_edges st) ps (s_cpp_fields st) (s_js_exports st) (s_meta st).

Definition delete_pending_unresolved_call (id : Z) (st : Store) : Store :=
  set_pending (filter (λ p, pc_id p ≠ id) (s_pending st)) st.

Definition PENDING_CALL_MAX_ATTEMPTS : Z := 50.

Definition aged (p : PendingCallRow) : PendingCallRow :=
  mkPending (pc_id p) (pc_source_id p) (pc_target_name p) (pc_source_language p) (pc_metadata p)
    (pc_attempts p + 1).

Definition age_and_evict_pending_unresolved_calls (st : Store) : nat * Store :=
  let ps := aged <$> s_pending st in
  (length (filter (λ p, (PENDING_CALL_MAX_ATTEMPTS <= pc_attempts p)%Z) ps),
   set_pending (filter (λ p, ¬ (PENDING_CALL_MAX_ATTEMPTS <= pc_attempts p)%Z) ps) st).

(** ** C++ fields, JS exports, metadata *)

(** Rows go in one by one; the first that fails ends the loop. *)
Fixpoint insert_cpp_fields (rows : list CppFieldRow) (st : Store) : result string Store :=
  match rows with
  | [] => Ok st
  | r :: rows' =>
      if bool_decide (cpp_class r ∈ node_ids st) then
        insert_cpp_fields rows'
          (mkStore (s_files st) (s_nodes st) (s_edges st) (s_pending st) (s_cpp_fields st ++ [r])
             (s_js_exports st) (s_meta st))
      else Err FK_FAILED
  end.

Definition js_export_row (module_id ord : Z) (e : JsExportEntry) : JsExportRow :=
  match e with
  | JsLocal export local => mkJsExport module_id ord "local" (Some export) (Some local) None
  | JsIndirect export spec import => mkJsExport module_id ord "indirect" (Some export) import (Some spec)
  | JsStar spec => mkJsExport module_id ord "star" None None (Some spec)
  end.

Fixpoint insert_js_export_rows (module_id : Z) (ord : Z) (entries : list JsExportEntry) (st : Store)
    : result string Store :=
  match entries with
  | [] => Ok st
  | e :: entries' =>
      if bool_decide (module_id ∈ node_ids st) then
        insert_js_export_rows module_id (ord + 1) entries'
          (mkStore (s_files st) (s_nodes st) (s_edges st) (s_pending st) (s_cpp_fields st)
             (s_js_exports st ++ [js_export_row module_id ord e]) (s_meta st))
      else Err FK_FAILED
  end.
Definition insert_js_export_entries (module_id : Z) (entries : list JsExportEntry) (st : Store)
    : result string Store := insert_js_export_rows module_id 0 entries st.

Definition get_meta (key : string) (st : Store) : option string := s_meta st !! key.
Definition set_meta (key value : string) (st : Store) : Store :=
  mkStore (s_files st) (s_nodes st) (s_edges st) (s_pending st) (s_cpp_fields st) (s_js_exports st)
    (<[key := value]> (s_meta st)).
Definition delete_meta (key : string) (st : Store) : Store :=
  mkStore (s_files st) (s_nodes st) (s_edges st) (s_pending st) (s_cpp_fields st) (s_js_exports st)
    (delete key (s_meta st)).

(** ** Well-formed stores *)

Record store_ok (st : Store) : Prop := {
  ok_file_ids : NoDup (file_ids st);
  ok_paths : NoDup (file_path_of <$> s_files st);
  ok_node_ids : NoDup (node_ids st);
  ok_edge_ids : NoDup (ee_id <$> s_edges st);
  ok_edge_keys : NoDup (edge_key ∘ ee_edge <$> s_edges st);
  ok_pending_ids : NoDup (pc_id <$> s_pending st);
  ok_pending_keys : NoDup (pending_key <$> s_pending st);
  ok_node_file : ∀ n, n ∈ s_nodes st → node_file_of n ∈ file_ids st;
  ok_edge_source : ∀ e, e ∈ s_edges st → e_source_id (ee_edge e) ∈ node_ids st;
  ok_edge_target : ∀ e, e ∈ s_edges st → e_target_id (ee_edge e) ∈ node_ids st;
  ok_pending_source : ∀ p, p ∈ s_pending st → pc_source_id p ∈ node_ids st;
  ok_pending_attempts : ∀ p, p ∈ s_pending st → (0 <= pc_attempts p < PENDING_CALL_MAX_ATTEMPTS)%Z;
  ok_cpp_class : ∀ c, c ∈ s_cpp_fields st → cpp_class c ∈ node_ids st;
  ok_js_module : ∀ j, j ∈ s_js_exports st → je_module_id j ∈ node_ids st;
}.

(** [DELETE FROM files]: the server's rebuild *)
Definition delete_all_files (st : Store) : Store := delete_files_where (λ _, true) st.

(** [BEGIN; DELETE FROM edges; DELETE FROM nodes; DELETE FROM files; COMMIT;]: an
    index of another version *)
Definition clear_index (st : Store) : Store :=
  delete_all_files (delete_nodes_where (λ _, true) (delete_edges_where (λ _, true) st)).

(** The statements that write.  [DeleteEdgesWhere], [InsertEdgesSelect] and
    [SetConfidence] take what their subqueries find in the store as they run. *)
Inductive StoreOp :=
| UpsertFile (now : Z) (r : FileRecord)
| DeleteFilesByPaths (paths : list string)
| InsertNode (r : NodeRecord)
| DeleteNodesByFile (file_id : Z)
| UpdateContextStrings (updates : list (Z * string))
| ReapOrphanExternal
| InsertEdge (source_id target_id : Z) (relation : string) (metadata : option string)
| InsertPending (source_id : Z) (target_name source_language : string) (metadata : option string)
| DeletePending (id : Z)
| AgeAndEvict
| InsertCppFields (rows : list CppFieldRow)
| InsertJsExports (module_id : Z) (entries : list JsExportEntry)
| SetMeta (key value : string)
| DeleteMeta (key : string)
| DeleteEdgesWhere (dead : Store → EdgeEntry → bool)
| InsertEdgesSelect (select : Store → list (Z * Z * string * option string))
| SetConfidence (cg_conf : Store → EdgeEntry → option string)
| MakeTrait (id : Z)
| DeleteAllFiles
| ClearIndex.

(** A statement that fails is rolled back. *)
Definition on_ok {A} (f : A → Store) (st : Store) (r : result string A) : Store :=
  match r with Ok a => f a | Err _ => st end.

Definition exec_op (op : StoreOp) (st : Store) : Store :=
  match op with
  | UpsertFile now r => (upsert_file now r st).2
  | DeleteFilesByPaths paths => delete_files_by_paths paths st
  | InsertNode r => on_ok snd st (insert_node r st)
  | DeleteNodesByFile f => delete_nodes_by_file f st
  | UpdateContextStrings us => update_context_strings_batch us st
  | ReapOrphanExternal => (reap_orphan_external_nodes st).2
  | InsertEdge s t r m => on_ok snd st (insert_edge s t r m st)
  | InsertPending s t l m => on_ok id st (insert_pending_unresolved_call s t l m st)
  | DeletePending i => delete_pending_unresolved_call i st
  | AgeAndEvict => (age_and_evict_pending_unresolved_calls st).2
  | InsertCppFields rows => on_ok id st (insert_cpp_fields rows st)
  | InsertJsExports m es => on_ok id st (insert_js_export_entries m es st)
  | SetMeta k v => set_meta k v st
  | DeleteMeta k => delete_meta k st
  | DeleteEdgesWhere dead => delete_edges_where (dead st) st
  | InsertEdgesSelect select => on_ok snd st (insert_selected_edges (select st) st)
  | SetConfidence cg_conf => set_confidence (cg_conf st) st
  | MakeTrait i => make_trait i st
  | DeleteAllFiles => delete_all_files st
  | ClearIndex => clear_index st
  end.
Definition exec_ops (ops : list StoreOp) (st : Store) : Store := foldl (flip exec_op) st ops.

Lemma next_id_fresh ids : next_id ids ∉ ids.
Proof.
  assert (∀ x, x ∈ ids → (x <= foldr Z.max 0 ids)%Z) as H.
  { induction ids as [|y ids IH]; intros x; [by intros ?%elem_of_nil|].
    intros [->|Hx]%elem_of_cons; simpl; [lia|]. specialize (IH x Hx). lia. }
  intros Hin%H. unfold next_id in Hin. lia.
Qed.

Lemma NoDup_snoc {A} (l : list A) x : NoDup l → x ∉ l → NoDup (l ++ [x]).
Proof.
  intros Hl Hx. apply NoDup_app. split; [done|]. split; [|apply NoDup_singleton].
  intros y Hy ->%list_elem_of_singleton. done.
Qed.

Lemma NoDup_fmap_filter {A B} (f : A → B) (P : A → Prop) `{∀ x, Decision (P x)} l :
  NoDup (f <$> l) → NoDup (f <$> filter P l).
Proof. intros H1. eapply sublist_NoDup; [done|]. apply fmap_sublist, sublist_filter. Qed.

#[local] Hint Resolve NoDup_snoc NoDup_fmap_filter : cg.
#[local] Hint Extern 1 (_ ∉ _) => apply next_id_fresh : cg.

Lemma delete_nodes_where_ok dead st : store_ok st → store_ok (delete_nodes_where dead st).
Proof.
  intros Hok. unfold delete_nodes_where. set (gone := node_id_of <$> _).
  assert (∀ i, i ∈ node_ids st → i ∉ gone →
    i ∈ node_id_of <$> filter (λ n, dead n = false) (s_nodes st)) as Hkeep.
  { intros i (n & -> & Hn)%list_elem_of_fmap Hi. apply list_elem_of_fmap_2, list_elem_of_filter.
    split; [|done]. destruct (dead n) eqn:E; [|done]. destruct Hi.
    by apply list_elem_of_fmap_2, list_elem_of_filter. }
  destruct Hok. split; cbn [s_files s_nodes s_edges s_pending s_cpp_fields s_js_exports]; auto with cg;
    unfold node_ids in *; cbn [s_nodes]; auto with cg;
    intros x [Hx Hin]%list_elem_of_filter; naive_solver.
Qed.

Lemma delete_files_where_ok dead st : store_ok st → store_ok (delete_files_where dead st).
Proof.
  intros Hok. unfold delete_files_where, with_files. set (gone := file_id_of <$> _).
  pose proof (delete_nodes_where_ok (λ n, bool_decide (node_file_of n ∈ gone)) st Hok) as Hok'.
  destruct Hok'. split; auto; unfold file_ids; cbn [s_files s_nodes]; [by apply NoDup_fmap_filter, Hok| |].
  { by apply NoDup_fmap_filter, Hok. }
  intros n Hn. pose proof Hn as [Hd Hin]%list_elem_of_filter.
  apply bool_decide_eq_false in Hd. destruct Hok.
  apply ok_node_file0 in Hn. apply list_elem_of_fmap in Hn as (f & Heq & Hf).
  rewrite Heq in *. apply list_elem_of_fmap_2, list_elem_of_filter. split; [|done].
  destruct (dead f) eqn:E; [|done]. destruct Hd. by apply list_elem_of_fmap_2, list_elem_of_filter.
Qed.

Lemma delete_files_by_paths_ok paths st : store_ok st → store_ok (delete_files_by_paths paths st).
Proof.
  unfold delete_files_by_paths. revert st. induction (chunks MAX_IN_PARAMS paths) as [|c cs IH];
    intros st Hok; simpl; [done|]. by apply IH, delete_files_where_ok.
Qed.

(** Replacing rows without touching their keys. *)
Lemma fmap_if_key {A B} (f : A → B) (p : A → bool) (g : A → A) (l : list A) :
  (∀ x, f (g x) = f x) → f <$> ((λ x, if p x then g x else x) <$> l) = f <$> l.
Proof. intros Hf. rewrite <-list_fmap_compose. apply list_fmap_ext. intros i x _. simpl. by case_match. Qed.

Lemma upsert_file_ok now r st : store_ok st → store_ok (upsert_file now r st).2.
Proof.
  intros Hok. unfold upsert_file. destruct (find (path_is (fr_path r)) (s_files st)) as [f|] eqn:E; simpl.
  - destruct Hok. split; unfold file_ids, node_ids in *; cbn [s_files s_nodes s_edges s_pending s_cpp_fields s_js_exports];
      rewrite ?fmap_if_key by done; auto.
  - destruct Hok. split; unfold file_ids, node_ids in *; cbn [s_files s_nodes s_edges s_pending s_cpp_fields s_js_exports];
      rewrite ?fmap_app; cbn [fmap list_fmap]; auto with cg.
    + apply NoDup_snoc; [done|]. intros (f & Hp & Hf)%list_elem_of_fmap.
      apply list_elem_of_In in Hf. pose proof (find_none _ _ E _ Hf) as Hn. unfold path_is in Hn.
      by rewrite <-Hp, String.eqb_refl in Hn.
    + intros n Hn. apply elem_of_app. left. auto.
Qed.

(** A statement that only adds rows at the end of one table. *)
Ltac store_step :=
  match goal with H : store_ok ?st |- _ => destruct H end;
  split; unfold file_ids, node_ids in *;
  cbn [s_files s_nodes s_edges s_pending s_cpp_fields s_js_exports s_meta] in *;
  rewrite ?fmap_app; cbn [fmap list_fmap]; auto with cg;
  try (intros ? [?| ->%list_elem_of_singleton]%elem_of_app; rewrite ?elem_of_app; auto; fail).

Lemma insert_node_ok r st : store_ok st → store_ok (on_ok snd st (insert_node r st)).
Proof.
  intros Hok. unfold insert_node. case_bool_decide as Hf; [|done]. cbn [on_ok snd].
  store_step; intros x Hx; apply elem_of_app; left; auto.
Qed.

Lemma insert_edge_ok s t rel m st : store_ok st → store_ok (on_ok snd st (insert_edge s t rel m st)).
Proof.
  intros Hok. unfold insert_edge. case_bool_decide as Hk; [done|].
  destruct (bool_decide (s ∈ node_ids st) && bool_decide (t ∈ node_ids st)) eqn:E; [|done].
  apply andb_true_iff in E as [Hs%bool_decide_eq_true Ht%bool_decide_eq_true].
  cbn [on_ok snd]. store_step.
Qed.

Lemma insert_pending_ok s t l m st :
  store_ok st → store_ok (on_ok id st (insert_pending_unresolved_call s t l m st)).
Proof.
  intros Hok. unfold insert_pending_unresolved_call. case_bool_decide as Hk; [done|].
  case_bool_decide as Hs; [|done]. cbn [on_ok id]. store_step.
  by intros p [?| ->%list_elem_of_singleton]%elem_of_app; [auto|].
Qed.

Lemma set_pending_filter_ok (P : PendingCallRow → Prop) `{∀ p, Decision (P p)} st :
  store_ok st → store_ok (set_pending (filter P (s_pending st)) st).
Proof. intros Hok. unfold set_pending. store_step; intros p [_ Hp]%list_elem_of_filter; auto. Qed.

Lemma age_ok st : store_ok st → store_ok (age_and_evict_pending_unresolved_calls st).2.
Proof.
  intros Hok. unfold age_and_evict_pending_unresolved_calls. cbn [snd].
  destruct Hok. split; auto; cbn [s_pending set_pending].
  - apply NoDup_fmap_filter. by rewrite <-list_fmap_compose.
  - apply NoDup_fmap_filter. by rewrite <-list_fmap_compose.
  - intros p [_ (q & -> & Hq)%list_elem_of_fmap]%list_elem_of_filter. by apply (ok_pending_source0 q).
  - intros p [Ha (q & -> & Hq)%list_elem_of_fmap]%list_elem_of_filter.
    apply ok_pending_attempts0 in Hq. simpl in *. lia.
Qed.

Lemma set_context_ok i ctx st : store_ok st → store_ok (set_context i ctx st).
Proof.
  intros Hok. unfold set_context. destruct Hok.
  split; unfold file_ids, node_ids in *; cbn [s_files s_nodes s_edges s_pending s_cpp_fields s_js_exports] in *;
    rewrite ?fmap_if_key by done; auto.
  intros n (m & -> & Hm)%list_elem_of_fmap. case_match; by apply (ok_node_file0 m).
Qed.

Lemma insert_cpp_fields_ok rows st : store_ok st → store_ok (on_ok id st (insert_cpp_fields rows st)).
Proof.
  assert (∀ st', store_ok st' → match insert_cpp_fields rows st' with Ok a => store_ok a | Err _ => True end) as H.
  { induction rows as [|r rows IH]; intros st' Hok; simpl; [done|].
    case_bool_decide as Hr; [|done]. apply IH. store_step. }
  intros Hok. specialize (H st Hok). by destruct (insert_cpp_fields rows st).
Qed.

Lemma insert_js_exports_ok m es st : store_ok st → store_ok (on_ok id st (insert_js_export_entries m es st)).
Proof.
  unfold insert_js_export_entries. generalize 0%Z as ord.
  assert (∀ ord st', store_ok st' →
    match insert_js_export_rows m ord es st' with Ok a => store_ok a | Err _ => True end) as H.
  { induction es as [|e es IH]; intros ord st' Hok; simpl; [done|].
    case_bool_decide as Hr; [|done]. apply IH. store_step.
    intros ? [?| ->%list_elem_of_singleton]%elem_of_app; [auto|]. by destruct e. }
  intros ord Hok. specialize (H ord st Hok). by destruct (insert_js_export_rows m ord es st).
Qed.

Lemma delete_edges_where_ok dead st : store_ok st → store_ok (delete_edges_where dead st).
Proof. intros Hok. unfold delete_edges_where, with_edges. store_step; intros e [_ He]%list_elem_of_filter; auto. Qed.

(** A deletion written with the rows it keeps is one of the statements. *)
Lemma delete_edges_filter (P : EdgeEntry → Prop) `{∀ e, Decision (P e)} st :
  exec_op (DeleteEdgesWhere (λ _ e, bool_decide (P e))) st = with_edges (filter (λ e, ¬ P e) (s_edges st)) st.
Proof. cbn. unfold delete_edges_where. f_equal. apply list_filter_iff. intros e. apply bool_decide_eq_false. Qed.

Lemma insert_selected_edges_ok rows st :
  store_ok st → store_ok (on_ok snd st (insert_selected_edges rows st)).
Proof.
  assert (∀ st', store_ok st' →
    match insert_selected_edges rows st' with Ok (_, a) => store_ok a | Err _ => True end) as H.
  { induction rows as [|[[[s t] r] m] rows IH]; intros st' Hok; cbn; [done|].
    pose proof (insert_edge_ok s t r m st' Hok) as Hok'.
    destruct (insert_edge s t r m st') as [[b st1]|]; cbn in *; [|done].
    specialize (IH st1 Hok'). by destruct (insert_selected_edges rows st1) as [[n st2]|]. }
  intros Hok. specialize (H st Hok). by destruct (insert_selected_edges rows st) as [[n st']|].
Qed.

(** A new confidence leaves the keys as they were. *)
Lemma set_confidence_ok cg_conf st : store_ok st → store_ok (set_confidence cg_conf st).
Proof.
  intros Hok. unfold set_confidence, with_edges. set (g := λ e : EdgeEntry, _).
  assert (∀ e, ee_id (g e) = ee_id e ∧ edge_key (ee_edge (g e)) = edge_key (ee_edge e)
          ∧ e_source_id (ee_edge (g e)) = e_source_id (ee_edge e)
          ∧ e_target_id (ee_edge (g e)) = e_target_id (ee_edge e)) as Hg
    by (intros e; subst g; simpl; by destruct (cg_conf e)).
  clearbody g. destruct Hok. split; unfold node_ids in *; cbn [s_files s_nodes s_edges s_pending s_cpp_fields s_js_exports]; auto.
  - rewrite <-list_fmap_compose. erewrite list_fmap_ext; [done|]. intros i e _. apply Hg.
  - rewrite <-list_fmap_compose. erewrite list_fmap_ext; [done|]. intros i e _. apply Hg.
  - intros e (e' & -> & He)%list_elem_of_fmap. destruct (Hg e') as (_ & _ & -> & _). auto.
  - intros e (e' & -> & He)%list_elem_of_fmap. destruct (Hg e') as (_ & _ & _ & ->). auto.
Qed.

Lemma make_trait_ok id st : store_ok st → store_ok (make_trait id st).
Proof.
  intros []. unfold make_trait. split; unfold file_ids, node_ids in *; cbn [s_files s_nodes s_edges s_pending s_cpp_fields s_js_exports] in *;
    rewrite ?fmap_if_key by done; auto.
  intros n (m & -> & Hm)%list_elem_of_fmap. case_match; by apply (ok_node_file0 m).
Qed.

Lemma empty_store_ok : store_ok empty_store.
Proof. split; try apply NoDup_nil_2; intros ? []%elem_of_nil. Qed.

Lemma exec_op_ok op st : store_ok st → store_ok (exec_op op st).
Proof.
  intros Hok. destruct op; cbn [exec_op].
  - by apply upsert_file_ok.
  - by apply delete_files_by_paths_ok.
  - by apply insert_node_ok.
  - by apply delete_nodes_where_ok.
  - unfold update_context_strings_batch. revert st Hok.
    induction updates as [|u us IH]; intros st Hok; simpl; [done|]. by apply IH, set_context_ok.
  - by apply delete_nodes_where_ok.
  - by apply insert_edge_ok.
  - by apply insert_pending_ok.
  - by apply set_pending_filter_ok.
  - by apply age_ok.
  - by apply insert_cpp_fields_ok.
  - by apply insert_js_exports_ok.
  - destruct Hok; by split.
  - destruct Hok; by split.
  - by apply delete_edges_where_ok.
  - by apply insert_selected_edges_ok.
  - by apply set_confidence_ok.
  - by apply make_trait_ok.
  - by apply delete_files_where_ok.
  - by apply delete_files_where_ok, delete_nodes_where_ok, delete_edges_where_ok.
Qed.

Lemma exec_ops_ok ops st : store_ok st → store_ok (exec_ops ops st).
Proof.
  unfold exec_ops. revert st. induction ops as [|op ops IH]; intros st Hok; simpl; [done|].
  by apply IH, exec_op_ok.
Qed.

(** C9: From the empty tables, whatever statements run on them, in whatever order
    and with whatever arguments, the store stays well formed: ids and paths are
    unique, an edge is stored once, every node belongs to a stored file, every edge,
    buffered call, C++ field and JS export hangs on stored nodes, and no buffered
    call is older than the sweep limit. The statements are the writes of the query
    functions (a meta value is any string, so the edits of the in-flight marker are
    among them), DELETE FROM edges with any condition, INSERT OR IGNORE INTO edges ..
    SELECT of any rows, the confidence update with any labels, the upgrade of a
    sentinel to a trait, the server's DELETE FROM files and the wipe of an index of
    another version; one that fails is rolled back. Schema migrations, temporary
    tables and vectors are not part of the store. *)
Theorem store_always_ok ops : store_ok (exec_ops ops empty_store).
Proof. apply exec_ops_ok, empty_store_ok. Qed.

(** ** Deletions compose

    Deleting in chunks is deleting at once, cascades included. *)

Lemma elem_of_keys {A K} (k : A → K) (d : A → bool) (l : list A) i :
  i ∈ k <$> filter (λ x, d x = true) l ↔ ∃ x, x ∈ l ∧ d x = true ∧ k x = i.
Proof. rewrite list_elem_of_fmap. setoid_rewrite list_elem_of_filter. naive_solver. Qed.

Lemma keys_compose {A K} (k : A → K) (d1 d2 : A → bool) (l : list A) i :
  i ∈ k <$> filter (λ x, d1 x || d2 x = true) l
  ↔ i ∈ k <$> filter (λ x, d1 x = true) l
    ∨ i ∈ k <$> filter (λ x, d2 x = true) (filter (λ x, d1 x = false) l).
Proof.
  rewrite !elem_of_keys. setoid_rewrite list_elem_of_filter. setoid_rewrite orb_true_iff.
  split.
  - intros (x & Hx & Hd & Hk). destruct (d1 x) eqn:E; [left|right]; exists x; naive_solver.
  - intros [(x & Hx)|(x & Hx)]; exists x; naive_solver.
Qed.

Lemma delete_nodes_where_compose d1 d2 st :
  delete_nodes_where d2 (delete_nodes_where d1 st) = delete_nodes_where (λ n, d1 n || d2 n) st.
Proof.
  unfold delete_nodes_where. cbn [s_files s_nodes s_edges s_pending s_cpp_fields s_js_exports s_meta].
  f_equal; apply filter_filter_and; intros x _; rewrite ?keys_compose; [|tauto..].
  by rewrite orb_false_iff.
Qed.

Lemma delete_nodes_where_ext d1 d2 st :
  (∀ n, n ∈ s_nodes st → d1 n = d2 n) → delete_nodes_where d1 st = delete_nodes_where d2 st.
Proof.
  intros H. unfold delete_nodes_where.
  assert (filter (λ n, d1 n = true) (s_nodes st) = filter (λ n, d2 n = true) (s_nodes st)) as ->.
  { apply filter_ext_elem. intros n Hn. by rewrite (H n Hn). }
  f_equal. apply filter_ext_elem. intros n Hn. by rewrite (H n Hn).
Qed.

Lemma delete_files_where_compose d1 d2 st :
  delete_files_where d2 (delete_files_where d1 st) = delete_files_where (λ f, d1 f || d2 f) st.
Proof.
  unfold delete_files_where. cbn [s_files with_files].
  change (delete_nodes_where ?d (with_files ?fs ?s)) with (with_files fs (delete_nodes_where d s)).
  change (with_files ?f1 (with_files ?f2 ?s)) with (with_files f1 s).
  rewrite delete_nodes_where_compose. f_equal; [apply filter_filter_and; intros f _; apply orb_false_iff|].
  apply delete_nodes_where_ext. intros n _. rewrite <-bool_decide_or. apply bool_decide_ext.
  symmetry. apply keys_compose.
Qed.

Lemma delete_files_where_ext d1 d2 st :
  (∀ f, d1 f = d2 f) → delete_files_where d1 st = delete_files_where d2 st.
Proof.
  intros H. unfold delete_files_where.
  assert (filter (λ f, d1 f = true) (s_files st) = filter (λ f, d2 f = true) (s_files st)) as ->
    by (apply filter_ext_elem; intros f _; by rewrite H).
  f_equal. apply filter_ext_elem. intros f _. by rewrite H.
Qed.

Lemma delete_no_files st : delete_files_where (λ _, false) st = st.
Proof.
  assert (∀ A (l : list A), filter (λ _, false = true) l = []) as Hnone
    by (intros A l; by apply filter_none).
  unfold delete_files_where, delete_nodes_where, with_files. rewrite Hnone. cbn [fmap list_fmap].
  assert (∀ n, bool_decide (node_file_of n ∈ []) = false) as Hn
    by (intros n; apply bool_decide_eq_false, not_elem_of_nil).
  rewrite (filter_none (λ n, bool_decide (node_file_of n ∈ []) = true)) by (intros n _; by rewrite Hn).
  destruct st; simpl. f_equal; apply filter_all; intros x _; try done; simpl; rewrite ?not_elem_of_nil; auto using not_elem_of_nil.
Qed.

Lemma delete_files_by_paths_once paths st :
  delete_files_by_paths paths st = delete_files_where (λ f, bool_decide (file_path_of f ∈ paths)) st.
Proof.
  unfold delete_files_by_paths.
  assert (mjoin (chunks MAX_IN_PARAMS paths) = paths) as Hj by (apply join_chunks; unfold MAX_IN_PARAMS; lia).
  revert Hj. generalize (chunks MAX_IN_PARAMS paths) as l. intros l <-.
  revert st. induction l as [|c cs IH]; intros st; simpl.
  - by rewrite delete_no_files.
  - rewrite IH, delete_files_where_compose. apply delete_files_where_ext. intros f.
    rewrite <-bool_decide_or. apply bool_decide_ext. by rewrite elem_of_app.
Qed.

(** ** Exactness of deletions *)

Lemma kept_key {A K} (k : A → K) (d : A → bool) (l : list A) x :
  NoDup (k <$> l) → x ∈ l →
  k x ∈ k <$> filter (λ y, d y = false) l ↔ k x ∉ k <$> filter (λ y, d y = true) l.
Proof.
  intros Hnd Hx. rewrite elem_of_keys, list_elem_of_fmap. setoid_rewrite list_elem_of_filter.
  assert (∀ y, y ∈ l → k y = k x → y = x) as Hinj by (intros; by eapply NoDup_key_inj).
  split.
  - intros (y & Hk & Hd & Hy) (z & Hz & Hdz & Hkz).
    rewrite (Hinj y) in Hd by done. rewrite (Hinj z) in Hdz by done. congruence.
  - intros Hn. exists x. split; [done|]. split; [|done].
    destruct (d x) eqn:E; [|done]. destruct Hn. by exists x.
Qed.

Section DeleteNodes.
Context (dead : NodeResult → bool) (st : Store) (Hok : store_ok st).

Lemma node_survives i :
  i ∈ node_ids st →
  i ∈ node_ids (delete_nodes_where dead st)
  ↔ i ∉ node_id_of <$> filter (λ n, dead n = true) (s_nodes st).
Proof. intros (n & -> & Hn)%list_elem_of_fmap. apply kept_key; [apply Hok|done]. Qed.

Lemma delete_nodes_exact :
  let st' := delete_nodes_where dead st in
  s_files st' = s_files st
  ∧ (∀ n, n ∈ s_nodes st' ↔ n ∈ s_nodes st ∧ dead n = false)
  ∧ (∀ e, e ∈ s_edges st' ↔ e ∈ s_edges st
       ∧ e_source_id (ee_edge e) ∈ node_ids st' ∧ e_target_id (ee_edge e) ∈ node_ids st')
  ∧ (∀ p, p ∈ s_pending st' ↔ p ∈ s_pending st ∧ pc_source_id p ∈ node_ids st')
  ∧ (∀ c, c ∈ s_cpp_fields st' ↔ c ∈ s_cpp_fields st ∧ cpp_class c ∈ node_ids st')
  ∧ (∀ j, j ∈ s_js_exports st' ↔ j ∈ s_js_exports st ∧ je_module_id j ∈ node_ids st')
  ∧ s_meta st' = s_meta st.
Proof.
  intros st'. split; [done|]. split; [intros n; unfold st'; simpl; rewrite list_elem_of_filter; tauto|].
  split; [intros e|split; [intros p|split; [intros c|split; [intros j|done]]]];
    unfold st' at 1; simpl; rewrite list_elem_of_filter.
  - split; intros [H1 H2].
    + split; [done|]. unfold st'. rewrite !node_survives by (by apply Hok). done.
    + split; [|done]. unfold st' in H2. rewrite !node_survives in H2 by (by apply Hok). done.
  - split; intros [H1 H2]; split; try done; unfold st' in *;
      [by apply node_survives; [apply Hok|]|by apply node_survives in H2; [|apply Hok]].
  - split; intros [H1 H2]; split; try done; unfold st' in *;
      [by apply node_survives; [apply Hok|]|by apply node_survives in H2; [|apply Hok]].
  - split; intros [H1 H2]; split; try done; unfold st' in *;
      [by apply node_survives; [apply Hok|]|by apply node_survives in H2; [|apply Hok]].
Qed.
End DeleteNodes.

(** Deleting files removes those files, what hangs on them, and nothing else:
    however many statements the list takes, a file stays iff its path is not
    listed, a node iff its file stays, an edge iff both its ends stay, and the
    buffered calls, C++ fields and JS exports with their nodes. *)
Theorem delete_files_exact paths st :
  store_ok st →
  let st' := delete_files_by_paths paths st in
  (∀ f, f ∈ s_files st' ↔ f ∈ s_files st ∧ file_path_of f ∉ paths)
  ∧ (∀ n, n ∈ s_nodes st' ↔ n ∈ s_nodes st ∧ node_file_of n ∈ file_ids st')
  ∧ (∀ e, e ∈ s_edges st' ↔ e ∈ s_edges st
       ∧ e_source_id (ee_edge e) ∈ node_ids st' ∧ e_target_id (ee_edge e) ∈ node_ids st')
  ∧ (∀ p, p ∈ s_pending st' ↔ p ∈ s_pending st ∧ pc_source_id p ∈ node_ids st')
  ∧ (∀ c, c ∈ s_cpp_fields st' ↔ c ∈ s_cpp_fields st ∧ cpp_class c ∈ node_ids st')
  ∧ (∀ j, j ∈ s_js_exports st' ↔ j ∈ s_js_exports st ∧ je_module_id j ∈ node_ids st')
  ∧ s_meta st' = s_meta st.
Proof.
  intros Hok st'.
  set (dead := λ n : NodeResult, bool_decide
    (node_file_of n ∈ file_id_of <$> filter (λ f, bool_decide (file_path_of f ∈ paths) = true) (s_files st))).
  assert (st' = with_files (filter (λ f, bool_decide (file_path_of f ∈ paths) = false) (s_files st))
                  (delete_nodes_where dead st)) as Hst' by apply delete_files_by_paths_once.
  clearbody st'. subst st'.
  pose proof (delete_nodes_exact dead st Hok) as (Hf & Hn & Hrest).
  split; [|split; [|exact Hrest]].
  - intros f. cbn [with_files s_files]. rewrite list_elem_of_filter, bool_decide_eq_false. tauto.
  - intros n. etrans; [apply Hn|]. unfold dead. rewrite bool_decide_eq_false.
    split; intros [Hin H]; split; try done.
    + apply Hok in Hin as (f & Heq & Hff)%list_elem_of_fmap. rewrite Heq in *.
      by apply kept_key; [apply Hok|..].
    + apply Hok in Hin as (f & Heq & Hff)%list_elem_of_fmap. rewrite Heq in *.
      apply kept_key in H; [done|apply Hok|done].
Qed.

(** A caller in [b.rs] of [f] in [a.rs], and an edge inside [b.rs]. *)
Definition demo_node (file : Z) (name : string) : NodeRecord :=
  mkNodeRecord file "function" name None 1 2 "" None None None None None None false.
Definition demo_store : Store :=
  exec_ops
    [UpsertFile 0 (mkFileRecord "a.rs" "h" 0 (Some "rust"));
     UpsertFile 0 (mkFileRecord "b.rs" "h" 0 (Some "rust"));
     InsertNode (demo_node 1 "f"); InsertNode (demo_node 2 "g"); InsertNode (demo_node 2 "h");
     InsertEdge 2 1 "calls" None; InsertEdge 2 3 "calls" None; InsertEdge 2 9 "calls" None;
     InsertPending 3 "later" "rust" None] empty_store.

Example demo_store_rows :
  node_ids demo_store = [1; 2; 3]%Z ∧ (λ e, edge_key (ee_edge e)) <$> s_edges demo_store
    = [(2%Z, 1%Z, "calls", ""); (2%Z, 3%Z, "calls", "")].
Proof. by vm_compute. Qed.

Lemma demo_store_ok : store_ok demo_store.
Proof. apply exec_ops_ok, empty_store_ok. Qed.

Lemma delete_files_exact_witness :
  let st' := delete_files_by_paths ["a.rs"] demo_store in
  (∀ f, f ∈ s_files st' ↔ f ∈ s_files demo_store ∧ file_path_of f ∉ ["a.rs"])
  ∧ (∀ n, n ∈ s_nodes st' ↔ n ∈ s_nodes demo_store ∧ node_file_of n ∈ file_ids st')
  ∧ (∀ e, e ∈ s_edges st' ↔ e ∈ s_edges demo_store
       ∧ e_source_id (ee_edge e) ∈ node_ids st' ∧ e_target_id (ee_edge e) ∈ node_ids st')
  ∧ (∀ p, p ∈ s_pending st' ↔ p ∈ s_pending demo_store ∧ pc_source_id p ∈ node_ids st')
  ∧ (∀ c, c ∈ s_cpp_fields st' ↔ c ∈ s_cpp_fields demo_store ∧ cpp_class c ∈ node_ids st')
  ∧ (∀ j, j ∈ s_js_exports st' ↔ j ∈ s_js_exports demo_store ∧ je_module_id j ∈ node_ids st')
  ∧ s_meta st' = s_meta demo_store.
Proof. apply (delete_files_exact ["a.rs"] demo_store), demo_store_ok. Defined.

(** ** Sentinels *)

Lemma length_filter_bool {A} (d : A → bool) (l : list A) :
  length (filter (λ x, d x = true) l) + length (filter (λ x, d x = false) l) = length l.
Proof.
  induction l as [|x l IH]; [done|]. rewrite !filter_cons.
  destruct (d x); simpl; rewrite ?decide_True, ?decide_False by done; simpl; lia.
Qed.

(** Reaping removes exactly the sentinels without an edge: no edge is lost, what
    is left of the pseudo-file is touched by an edge, and a second pass finds
    nothing. *)
Lemma reap_exact st :
  store_ok st →
  let '(count, st') := reap_orphan_external_nodes st in
  s_edges st' = s_edges st ∧ s_files st' = s_files st
  ∧ (∀ n, n ∈ s_nodes st' ↔ n ∈ s_nodes st ∧ is_orphan_external st n = false)
  ∧ count + length (s_nodes st') = length (s_nodes st)
  ∧ (reap_orphan_external_nodes st').1 = 0.
Proof.
  intros Hok. unfold reap_orphan_external_nodes.
  set (st' := delete_nodes_where (is_orphan_external st) st).
  assert (s_edges st' = s_edges st) as He.
  { unfold st'. simpl. apply filter_all. intros e Hin. rewrite !elem_of_keys.
    split; intros (n & Hn & Hd & Hid); unfold is_orphan_external in Hd; bool_prop.
    - match goal with H : _ ∉ (λ e, e_source_id _) <$> _ |- _ => apply H end.
      rewrite Hid. by apply (list_elem_of_fmap_2 (λ e, e_source_id (ee_edge e))).
    - match goal with H : _ ∉ (λ e, e_target_id _) <$> _ |- _ => apply H end.
      rewrite Hid. by apply (list_elem_of_fmap_2 (λ e, e_target_id (ee_edge e))). }
  assert (∀ n, is_orphan_external st' n = is_orphan_external st n) as Ho
    by (intros n; unfold is_orphan_external; by rewrite He).
  assert (∀ n, n ∈ s_nodes st' ↔ n ∈ s_nodes st ∧ is_orphan_external st n = false) as Hn
    by (intros n; unfold st'; simpl; rewrite list_elem_of_filter; tauto).
  split; [done|]. split; [done|]. split; [done|]. split.
  - unfold st'. cbn [s_nodes delete_nodes_where].
    apply length_filter_bool.
  - rewrite filter_none; [done|]. intros n [_ Hf]%Hn. by rewrite Ho, Hf.
Qed.

(** ** The life of a buffered call *)

Definition is_sweep (op : StoreOp) : bool := match op with AgeAndEvict => true | _ => false end.
Definition sweeps (ops : list StoreOp) : Z := Z.of_nat (length (filter (λ op, is_sweep op = true) ops)).

Lemma sweeps_app ops1 ops2 : sweeps (ops1 ++ ops2) = (sweeps ops1 + sweeps ops2)%Z.
Proof. unfold sweeps. rewrite filter_app, length_app. lia. Qed.

(** The statement [op] buffers the call of [p]. *)
Definition buffers (op : StoreOp) (p : PendingCallRow) : Prop :=
  ∃ s t l m, op = InsertPending s t l m ∧ pending_key p = (s, t, l, default "" m).

(** [p] is [q], [n] sweeps later. *)
Definition older (n : Z) (q p : PendingCallRow) : Prop :=
  pending_key p = pending_key q ∧ pc_attempts p = (pc_attempts q + n)%Z.

Lemma delete_nodes_pending dead st p : p ∈ s_pending (delete_nodes_where dead st) → p ∈ s_pending st.
Proof. by intros [_ ?]%list_elem_of_filter. Qed.

Lemma insert_cpp_fields_pending rows st :
  s_pending (on_ok id st (insert_cpp_fields rows st)) = s_pending st.
Proof.
  assert (∀ st', match insert_cpp_fields rows st' with Ok a => s_pending a = s_pending st' | Err _ => True end) as H.
  { induction rows as [|r rows IH]; intros st'; simpl; [done|]. case_bool_decide; [|done].
    match goal with |- context [insert_cpp_fields rows ?s] => specialize (IH s) end. by case_match. }
  specialize (H st). by destruct (insert_cpp_fields rows st).
Qed.

Lemma insert_js_exports_pending m es st :
  s_pending (on_ok id st (insert_js_export_entries m es st)) = s_pending st.
Proof.
  assert (∀ ord st', match insert_js_export_rows m ord es st' with
                     | Ok a => s_pending a = s_pending st' | Err _ => True end) as H.
  { induction es as [|e es IH]; intros ord st'; simpl; [done|]. case_bool_decide; [|done].
    match goal with |- context [insert_js_export_rows m ?o es ?s] => specialize (IH o s) end. by case_match. }
  specialize (H 0%Z st). unfold insert_js_export_entries. by destruct (insert_js_export_rows m 0 es st).
Qed.

Lemma insert_selected_edges_pending rows st :
  s_pending (on_ok snd st (insert_selected_edges rows st)) = s_pending st.
Proof.
  assert (∀ st', match insert_selected_edges rows st' with
                 | Ok (_, a) => s_pending a = s_pending st' | Err _ => True end) as H.
  { induction rows as [|[[[s t] r] m] rows IH]; intros st'; cbn; [done|].
    destruct (insert_edge s t r m st') as [[b st1]|] eqn:E; cbn; [|done].
    assert (s_pending st1 = s_pending st') as Hs
      by (revert E; unfold insert_edge; repeat case_match; by intros [= _ <-]).
    specialize (IH st1). destruct (insert_selected_edges rows st1) as [[n st2]|]; cbn; [congruence|done]. }
  specialize (H st). by destruct (insert_selected_edges rows st) as [[n st']|].
Qed.

Lemma exec_op_pending op st p :
  p ∈ s_pending (exec_op op st) →
  (∃ q, q ∈ s_pending st ∧ older (sweeps [op]) q p) ∨ buffers op p ∧ pc_attempts p = 0%Z.
Proof.
  intros Hp.
  assert (is_sweep op = false → p ∈ s_pending st → ∃ q, q ∈ s_pending st ∧ older (sweeps [op]) q p) as Hsame.
  { intros Hs Hin. exists p. split; [done|]. split; [done|]. unfold sweeps.
    rewrite filter_cons_False by (by rewrite Hs). simpl. lia. }
  destruct op; cbn [exec_op] in Hp;
    lazymatch goal with
    | |- context [InsertPending] => idtac
    | _ => try (left; apply Hsame; [done|])
    end.
  - revert Hp. unfold upsert_file. by case_match.
  - rewrite delete_files_by_paths_once in Hp. by apply delete_nodes_pending in Hp.
  - revert Hp. unfold insert_node. by case_bool_decide.
  - by apply delete_nodes_pending in Hp.
  - revert Hp. unfold update_context_strings_batch. clear Hsame. revert st.
    induction updates as [|u us IH]; intros st; simpl; [done|]. by intros ?%IH.
  - by apply delete_nodes_pending in Hp.
  - revert Hp. unfold insert_edge. case_bool_decide; [done|]. by case_match.
  - revert Hp. unfold insert_pending_unresolved_call.
    case_bool_decide; [intros Hp; left; apply Hsame; [done|exact Hp]|].
    case_bool_decide; [|intros Hp; left; apply Hsame; [done|exact Hp]].
    cbn [on_ok s_pending]. intros [?| ->%list_elem_of_singleton]%elem_of_app; [left; by apply Hsame|].
    right. split; [|done]. by exists source_id, target_name, source_language, metadata.
  - by apply list_elem_of_filter in Hp as [_ ?].
  - left. apply list_elem_of_filter in Hp as [_ (q & -> & Hq)%list_elem_of_fmap]. by exists q.
  - by rewrite insert_cpp_fields_pending in Hp.
  - by rewrite insert_js_exports_pending in Hp.
  - done.
  - done.
  - done.
  - by rewrite insert_selected_edges_pending in Hp.
  - done.
  - done.
  - by apply delete_nodes_pending in Hp.
  - by do 2 apply delete_nodes_pending in Hp.
Qed.

Lemma pending_history ops st p :
  p ∈ s_pending (exec_ops ops st) →
  (∃ q, q ∈ s_pending st ∧ older (sweeps ops) q p)
  ∨ ∃ ops1 op ops2, ops = ops1 ++ op :: ops2 ∧ buffers op p ∧ pc_attempts p = sweeps ops2.
Proof.
  revert p. induction ops as [|op ops IH] using rev_ind; intros p Hp.
  { left. exists p. split; [done|]. split; [done|]. unfold sweeps. simpl. lia. }
  unfold exec_ops in Hp. rewrite foldl_snoc in Hp.
  apply exec_op_pending in Hp as [(q & Hq & Hkey & Hage)|[Hb Ha]].
  - apply IH in Hq as [(q' & Hq' & Hkey' & Hage')|(ops1 & op' & ops2 & -> & (s & t & l & m & -> & Hk) & Ha)].
    + left. exists q'. split; [done|]. split; [by rewrite Hkey|]. rewrite sweeps_app. lia.
    + right. exists ops1, (InsertPending s t l m), (ops2 ++ [op]). split; [by rewrite <-app_assoc|].
      split; [exists s, t, l, m; by rewrite Hkey|]. rewrite sweeps_app. lia.
  - right. exists ops, op, []. split; [done|]. split; [done|]. by rewrite Ha.
Qed.

(** C21: No call waits for ever: after fifty sweeps, whatever else the runs do in
    between, every buffered call left was buffered again on the way, fewer than
    fifty sweeps ago; every other one has been bound or given up. *)
Theorem pending_calls_leave ops st p :
  store_ok st → (PENDING_CALL_MAX_ATTEMPTS <= sweeps ops)%Z → p ∈ s_pending (exec_ops ops st) →
  ∃ ops1 op ops2, ops = ops1 ++ op :: ops2 ∧ buffers op p
    ∧ (sweeps ops2 < PENDING_CALL_MAX_ATTEMPTS)%Z.
Proof.
  intros Hok Hs Hp. pose proof (ok_pending_attempts _ (exec_ops_ok ops st Hok) p Hp) as Hmax.
  apply pending_history in Hp as [(q & Hq & _ & Hage)|(ops1 & op & ops2 & -> & Hb & Ha)].
  - pose proof (ok_pending_attempts _ Hok q Hq). lia.
  - exists ops1, op, ops2. split; [done|]. split; [done|]. lia.
Qed.

Lemma pending_calls_leave_witness :
  let ops := replicate 30 AgeAndEvict ++ [InsertPending 2 "later" "rust" None] ++ replicate 20 AgeAndEvict in
  let p := mkPending 2 2 "later" "rust" None 20 in
  ∃ ops1 op ops2, ops = ops1 ++ op :: ops2 ∧ buffers op p
    ∧ (sweeps ops2 < PENDING_CALL_MAX_ATTEMPTS)%Z.
Proof.
  apply (pending_calls_leave _ demo_store); [apply demo_store_ok|by vm_compute|].
  assert (s_pending (exec_ops (replicate 30 AgeAndEvict ++ [InsertPending 2 "later" "rust" None]
                                ++ replicate 20 AgeAndEvict) demo_store)
          = [mkPending 2 2 "later" "rust" None 20]) as Hp by (by vm_compute).
  rewrite Hp. by left.
Defined.

Example forty_nine_sweeps_keep_it :
  pc_attempts <$> s_pending (exec_ops (replicate 49 AgeAndEvict) demo_store) = [49%Z]
  ∧ s_pending (exec_ops (replicate 50 AgeAndEvict) demo_store) = [].
Proof. by vm_compute. Qed.

(** ** Upserts *)

(** One row per path, with the new hash and language; the row of a known path
    keeps its id, and no other row changes. *)
Lemma upsert_file_exact now r st :
  store_ok st →
  let '(id, st') := upsert_file now r st in
  (∃ f, f ∈ s_files st' ∧ file_id_of f = id ∧ file_path_of f = fr_path r
     ∧ fe_blake3_hash f = fr_blake3_hash r ∧ f_language (fe_file f) = fr_language r)
  ∧ (∀ f, f ∈ s_files st → file_path_of f = fr_path r → file_id_of f = id)
  ∧ (∀ f, file_path_of f ≠ fr_path r → f ∈ s_files st' ↔ f ∈ s_files st).
Proof.
  intros Hok. unfold upsert_file.
  destruct (find (path_is (fr_path r)) (s_files st)) as [f|] eqn:E.
  - apply find_some in E as [Hin%list_elem_of_In Hf]. unfold path_is in Hf. apply String.eqb_eq in Hf.
    split; [|split].
    + exists (updated_file now r f). split; [|done]. simpl. apply list_elem_of_fmap. exists f.
      unfold path_is. by rewrite Hf, String.eqb_refl.
    + intros g Hg Hp. assert (g = f) as ->; [|done].
      apply (NoDup_key_inj file_path_of (s_files st)); [apply Hok|done|done|by rewrite Hp].
    + intros g Hp. simpl. rewrite list_elem_of_fmap. split.
      * intros (h & -> & Hh). unfold path_is in *. destruct (String.eqb_spec (file_path_of h) (fr_path r)); [|done].
        done.
      * intros Hg. exists g. unfold path_is. by rewrite (proj2 (String.eqb_neq _ _) Hp).
  - split; [|split].
    + eexists. split; [apply elem_of_app; right; by left|done].
    + intros g Hg%list_elem_of_In Hp. pose proof (find_none _ _ E g Hg) as Hn.
      unfold path_is in Hn. by rewrite Hp, String.eqb_refl in Hn.
    + intros g Hp. simpl. rewrite elem_of_app, list_elem_of_singleton. split; [|by left].
      intros [?| ->]; done.
Qed.
