(* ===== verification/Queries.v ===== *)
(** * Reads of the index store

    The queries of [storage/queries/nodes.rs], [edges.rs] and [files.rs] as
    comprehensions over [Store]; [LIKE] with and without [ESCAPE], [GLOB] and
    [json_extract] are SQLite's.  Rows come in the order of the tables, which SQL
    does not promise without [ORDER BY]: the theorems speak of membership. *)

From S2P Require Import Prelude Str Utf8 Sql Domain Tables Store.

Record NodeWithFile := mkNodeWithFile {
  nwf_node : NodeResult;
  nwf_file_path : string;
  nwf_language : option string;
}.

(** [(node_id, file_path, language)] *)
Definition NameEntry : Type := Z * string * option string.
(** [(relation, direction, target_name, metadata)] *)
Definition EdgeInfo : Type := string * string * string * option string.

Record IncomingReference := mkIncoming {
  ir_node_id : Z;
  ir_name : string;
  ir_qualified_name : option string;
  ir_node_type : string;
  ir_file_path : string;
  ir_start_line : Z;
  ir_relation : string;
  ir_confidence : string;
  ir_is_test : bool;
}.

(** ** Joins *)

Definition node_name_of (n : NodeResult) : string := n_name (nr_node n).
Definition qualified_of (n : NodeResult) : option string := n_qualified_name (nr_node n).
Definition file_language (f : FileEntry) : option string := f_language (fe_file f).

(** [JOIN nodes n ON n.id = i], [JOIN files f ON f.id = i] *)
Definition node_rows (st : Store) (i : Z) : list NodeResult :=
  filter (λ n, node_id_of n = i) (s_nodes st).
Definition file_rows (st : Store) (i : Z) : list FileEntry :=
  filter (λ f, file_id_of f = i) (s_files st).

(** [nodes n JOIN files f ON f.id = n.file_id] *)
Definition node_files (st : Store) : list (NodeResult * FileEntry) :=
  n ← s_nodes st; pair n <$> file_rows st (node_file_of n).

(** An edge with its source and target nodes and their files. *)
Definition edge_ends (st : Store) : list (EdgeRow * (NodeResult * FileEntry) * (NodeResult * FileEntry)) :=
  e ← ee_edge <$> s_edges st;
  ns ← node_rows st (e_source_id e); fs ← file_rows st (node_file_of ns);
  nt ← node_rows st (e_target_id e); ft ← file_rows st (node_file_of nt);
  [(e, (ns, fs), (nt, ft))].

Definition with_file (nf : NodeResult * FileEntry) : NodeWithFile :=
  mkNodeWithFile nf.1 (file_path_of nf.2) (file_language nf.2).

(** One query per chunk of ids, the rows one after the other. *)
Definition in_chunks {A} (q : list Z → list A) (ids : list Z) : list A :=
  mjoin (q <$> chunks MAX_IN_PARAMS ids).

(** ** By name and qualified name *)

Definition is_external_file (f : FileEntry) : bool := String.eqb (file_path_of f) EXTERNAL_FILE_PATH.

(** [file_id NOT IN (SELECT id FROM files WHERE path = '<external>')] *)
Definition not_external_id (st : Store) (file_id : Z) : bool :=
  bool_decide (file_id ∉ file_id_of <$> filter (λ f, is_external_file f = true) (s_files st)).

Definition get_nodes_by_name (st : Store) (name : string) : list NodeResult :=
  filter (λ n, node_name_of n = name ∧ not_external_id st (node_file_of n) = true) (s_nodes st).

Definition get_nodes_with_files_by_name (st : Store) (name : string) : list NodeWithFile :=
  with_file <$> filter (λ nf, node_name_of nf.1 = name ∧ is_external_file nf.2 = false) (node_files st).

Definition NOT_SYMBOL_TYPES : list string := ["module"; "h1"; "h2"; "h3"; "h4"; "h5"; "h6"].

Definition get_nodes_with_files_by_qualified_name (st : Store) (symbol : string) : list NodeWithFile :=
  with_file <$> filter (λ nf, qualified_of nf.1 = Some symbol ∧ is_external_file nf.2 = false
                              ∧ type_of nf.1 ∉ NOT_SYMBOL_TYPES) (node_files st).

Definition get_nodes_with_files_by_symbol (st : Store) (symbol : string) : list NodeWithFile :=
  let qualified := get_nodes_with_files_by_qualified_name st symbol in
  if contains "." symbol && negb (bool_decide (qualified = [])) then qualified
  else get_nodes_with_files_by_name st symbol.

Definition get_node_ids_by_name (st : Store) (name : string) : list (Z * string) :=
  n ← filter (λ n, node_name_of n = name) (s_nodes st);
  match file_rows st (node_file_of n) with
  | [] => [(node_id_of n, "")]
  | fs => (λ f, (node_id_of n, file_path_of f)) <$> fs
  end.

Definition get_first_node_id_by_name (st : Store) (name : string) : option Z :=
  first_row (node_id_of <$> get_nodes_by_name st name).

Definition get_node_by_id (st : Store) (id : Z) : option NodeResult := first_row (node_rows st id).

Definition get_node_with_file_by_id (st : Store) (id : Z) : option NodeWithFile :=
  first_row (with_file <$> filter (λ nf, node_id_of nf.1 = id) (node_files st)).

Definition get_nodes_by_file_path (st : Store) (path : string) : list NodeResult :=
  sort_cmp (cmp_by (λ n, n_start_line (nr_node n)) Z.compare)
    (fst <$> filter (λ nf, file_path_of nf.2 = path) (node_files st)).

(** ** Name maps of the resolver *)

Definition node_name_row (nf : NodeResult * FileEntry) : string * Z * string :=
  (node_name_of nf.1, node_id_of nf.1, file_path_of nf.2).

(** The [NOT IN] and the filter in Rust are the same test. *)
Definition get_node_names_with_paths_excluding_files (st : Store) (exclude_file_ids : list Z)
    : list (string * Z * string) :=
  if bool_decide (exclude_file_ids = []) then node_name_row <$> node_files st
  else if length exclude_file_ids <=? MAX_IN_PARAMS
  then node_name_row <$> filter (λ nf, node_file_of nf.1 ∉ exclude_file_ids) (node_files st)
  else let exclude_set : gset Z := list_to_set exclude_file_ids in
       node_name_row <$> filter (λ nf, node_file_of nf.1 ∉ exclude_set) (node_files st).

(** [entry(name).or_default().push(..)] over the rows *)
Definition push_entry {A} (m : gmap string (list A)) (row : string * A) : gmap string (list A) :=
  <[row.1 := default [] (m !! row.1) ++ [row.2]]> m.
Definition get_all_node_names_with_ids (st : Store) : gmap string (list NameEntry) :=
  foldl push_entry ∅
    ((λ nf, (node_name_of nf.1, (node_id_of nf.1, file_path_of nf.2, file_language nf.2)))
       <$> node_files st).

(** ** By ids *)

Definition nodes_of_chunk (st : Store) (chunk : list Z) : list NodeResult :=
  filter (λ n, node_id_of n ∈ chunk) (s_nodes st).

Definition get_node_types_by_ids (st : Store) (ids : list Z) : list string :=
  in_chunks (λ c, type_of <$> nodes_of_chunk st c) ids.

Definition get_nodes_with_files_by_ids (st : Store) (ids : list Z) : list NodeWithFile :=
  in_chunks (λ c, with_file <$> filter (λ nf, node_id_of nf.1 ∈ c) (node_files st)) ids.

Definition get_node_paths_by_ids (st : Store) (ids : list Z) : gmap Z string :=
  foldl (λ m nf, <[node_id_of nf.1 := file_path_of nf.2]> m) ∅
    (in_chunks (λ c, filter (λ nf, node_id_of nf.1 ∈ c) (node_files st)) ids).

Definition get_node_qualified_names_by_ids (st : Store) (ids : list Z) : gmap Z string :=
  foldl (λ m n, <[node_id_of n := default "" (qualified_of n)]> m) ∅
    (in_chunks (nodes_of_chunk st) ids).

Definition get_node_files_and_qualified_names (st : Store) (ids : list Z) : gmap Z (Z * string) :=
  foldl (λ m n, <[node_id_of n := (node_file_of n, default "" (qualified_of n))]> m) ∅
    (in_chunks (nodes_of_chunk st) ids).

Definition callable_node_ids (st : Store) : gset Z :=
  list_to_set (node_id_of <$> filter (λ n, type_of n ∈ ["function"; "method"]) (s_nodes st)).

Definition cpp_fields (st : Store) : list CppFieldRow := s_cpp_fields st.

Definition inherits_edges (st : Store) : list (Z * Z) :=
  (λ e, (e_source_id e, e_target_id e)) <$> filter (λ e, e_relation e = REL_INHERITS) (ee_edge <$> s_edges st).

Definition get_nodes_missing_context (st : Store) : list Z :=
  take 10000 (node_id_of ∘ fst <$> filter (λ nf, nr_context_string nf.1 = None ∧ is_external_file nf.2 = false)
                (node_files st)).

Definition CLASS_LIKE_TYPES : list string :=
  ["class"; "struct"; "interface"; "type"; "enum"; "trait"; "union"].

(** [(id, file id, spelling, start line, end line)] *)
Definition class_rows (st : Store) : list (Z * Z * string * Z * Z) :=
  (λ n, (node_id_of n, node_file_of n, default (node_name_of n) (qualified_of n),
         n_start_line (nr_node n), n_end_line (nr_node n)))
  <$> filter (λ n, type_of n ∈ CLASS_LIKE_TYPES) (s_nodes st).

Definition encloses (row other : Z * Z * string * Z * Z) : bool :=
  let '(id, file, _, start, end_) := row in
  let '(o, ofile, _, s, e) := other in
  (ofile =? file)%Z && negb (o =? id)%Z && (s <=? start)%Z && (end_ <=? e)%Z.

Definition class_like_names (st : Store) : list (Z * Z * string * bool) :=
  let rows := class_rows st in
  (λ row, let '(id, file, name, _, _) := row in (id, file, name, existsb (encloses row) rows)) <$> rows.

(** ** Rows that a change of a file touches *)

(** [(source_id, source_file_id, target_name, relation, metadata, qualified_name)] *)
Definition get_inbound_cross_file_edges (st : Store) (file_id : Z)
    : list (Z * Z * string * string * option string * option string) :=
  e ← ee_edge <$> s_edges st;
  nt ← filter (λ n, node_file_of n = file_id) (node_rows st (e_target_id e));
  ns ← filter (λ n, node_file_of n ≠ file_id) (node_rows st (e_source_id e));
  [(e_source_id e, node_file_of ns, node_name_of nt, e_relation e, e_metadata e, qualified_of nt)].

(** [ft.path = ?1] and the like below; the rows of two queries. *)
Definition inbound_rows (st : Store) (file_id : Z) (keep : string → bool)
    : list (Z * string * string * string * string * option string) :=
  '(e, (ns, fs), (nt, _)) ← filter (λ x, node_file_of x.2.1 = file_id ∧ node_file_of x.1.2.1 ≠ file_id
                                 ∧ keep (e_relation x.1.1) = true ∧ file_language x.1.2.2 ≠ None) (edge_ends st);
  [(e_source_id e, file_path_of fs, default "" (file_language fs), node_name_of nt, e_relation e, e_metadata e)].

(** [(source_id, target_name, source_language, metadata)], ordered by the first two *)
Definition get_inbound_calls_for_pending (st : Store) (file_id : Z)
    : list (Z * string * string * option string) :=
  filter (λ r, r.1.2 ≠ "")
    (sort_cmp (cmp_then (cmp_by (λ r, r.1.1.1) Z.compare) (cmp_by (λ r, r.1.1.2) String.compare))
       ((λ r, let '(src, _, lang, name, _, meta) := r in (src, name, lang, meta))
          <$> inbound_rows st file_id (λ r, String.eqb r REL_CALLS))).

(** [(source_id, source_path, source_language, target_name, relation, metadata)] *)
Definition get_inbound_relations_for_requeue (st : Store) (file_id : Z)
    : list (Z * string * string * string * string * option string) :=
  filter (λ r, r.1.1.1.2 ≠ "" ∧ r.1.1.1.1.2 ≠ "")
    (sort_cmp (cmp_then (cmp_by (λ r, r.1.1.1.1.1) Z.compare)
                 (cmp_then (cmp_by (λ r, r.1.2) String.compare) (cmp_by (λ r, r.1.1.2) String.compare)))
       (inbound_rows st file_id (λ r, negb (String.eqb r REL_CALLS)))).

(** [SELECT DISTINCT .. ORDER BY] of a text column: sorted, each once. *)
Definition distinct_sorted (l : list string) : list string := sort_cmp String.compare (remove_dups l).

Definition dependent_paths (st : Store) (path : string) (keep : EdgeRow → bool) : list string :=
  distinct_sorted
    (file_path_of ∘ (λ x, x.1.2.2)
       <$> filter (λ x, file_path_of x.2.2 = path ∧ file_path_of x.1.2.2 ≠ path
                        ∧ keep x.1.1 = true ∧ file_language x.1.2.2 ≠ None) (edge_ends st)).

Definition get_structural_dependent_files (st : Store) (path : string) : list string :=
  dependent_paths st path (λ e, negb (String.eqb (e_relation e) REL_CALLS)).

Definition get_external_sentinel_importers (st : Store) : list (string * string) :=
  sort_cmp (cmp_then (cmp_by fst String.compare) (cmp_by snd String.compare))
    (remove_dups
       ((λ x, (node_name_of x.2.1, file_path_of x.1.2.2))
          <$> filter (λ x, file_path_of x.2.2 = EXTERNAL_FILE_PATH ∧ e_relation x.1.1 ≠ REL_CALLS
                           ∧ file_language x.1.2.2 ≠ None) (edge_ends st))).

(** ** Nodes next to changed files *)

Definition DIRTY_CHUNK : nat := MAX_IN_PARAMS / 2.

(** Ids of the nodes of the files of a chunk. *)
Definition chunk_node_ids (st : Store) (chunk : list Z) : list Z :=
  node_id_of <$> filter (λ n, node_file_of n ∈ chunk) (s_nodes st).

Definition dirty_callers (st : Store) (chunk : list Z) : list Z :=
  remove_dups
    (e ← ee_edge <$> s_edges st;
     (λ _, e_source_id e)
       <$> filter (λ n, node_file_of n ∈ chunk ∧ e_source_id e ∉ chunk_node_ids st chunk)
             (node_rows st (e_target_id e))).

Definition dirty_callees (st : Store) (chunk : list Z) : list Z :=
  remove_dups
    (e ← ee_edge <$> s_edges st;
     ns ← filter (λ n, node_file_of n ∈ chunk ∧ e_target_id e ∉ chunk_node_ids st chunk)
            (node_rows st (e_source_id e));
     far ← node_rows st (e_target_id e);
     (λ _, e_target_id e) <$> filter (λ f, is_external_file f = false) (file_rows st (node_file_of far))).

Definition get_dirty_node_ids (st : Store) (changed_file_ids : list Z) : list Z :=
  vec_dedup (sort_cmp Z.compare
    (c ← chunks DIRTY_CHUNK changed_file_ids; dirty_callers st c ++ dirty_callees st c)).

(** ** Queries with patterns

    [LOWER], [LIKE], [GLOB] and [json_extract] are SQLite's, [str::to_lowercase]
    the standard library's. *)
Section Patterns.
Context (glob like like_esc : string → string → bool) (sql_lower : string → string).
Context (json_extract : option string → string → option string).
Context `{U : Unicode}.

(** A comparison with NULL is not true. *)
Definition like_opt (m : string → string → bool) (pattern : string) (column : option string) : bool :=
  match column with Some c => m pattern c | None => false end.

(** [synthetic_import_sql] *)
Definition synthetic_import_holds (e : EdgeRow) : bool :=
  String.eqb (e_relation e) "imports"
  && like ("%" +:+ dquote +:+ "attr" +:+ dquote +:+ ":%") (default "" (e_metadata e)).

Definition method_pattern (of_type : option string) : string :=
  match of_type with Some t => escape_like t +:+ ".%" | None => "%.%" end.

Definition filter_method_ids (st : Store) (ids : list Z) (of_type : option string) : list Z :=
  in_chunks (λ c, node_id_of <$> filter (λ n, like_opt like_esc (method_pattern of_type) (qualified_of n) = true)
                                   (nodes_of_chunk st c)) ids.

Definition filter_out_function_ids (st : Store) (ids : list Z) : list Z :=
  in_chunks (λ c, node_id_of <$> filter (λ n, type_of n ≠ "function"
                                              ∨ like_opt like "%.%" (qualified_of n) = true)
                                   (nodes_of_chunk st c)) ids.

Definition get_unbuffered_dependent_files (st : Store) (path : string) : list string :=
  dependent_paths st path
    (λ e, negb (String.eqb (e_relation e) REL_CALLS)
          || like_opt like ("%" +:+ dquote +:+ "q" +:+ dquote +:+ ":%") (e_metadata e)).

Definition get_relative_python_importers_of (st : Store) (init_path : string) : list string :=
  distinct_sorted
    (file_path_of ∘ (λ x, x.1.2.2)
       <$> filter (λ x, file_path_of x.2.2 = init_path ∧ node_name_of x.2.1 = "<module>"
                        ∧ e_relation x.1.1 = REL_IMPORTS
                        ∧ like_opt like ".%" (json_extract (e_metadata x.1.1) "$.python_module") = true)
             (edge_ends st)).

(** [prod_source_join_sql] and [prod_source_filter_and]: calls from production
    code. *)
Definition prod_callers (st : Store) (id : Z) : nat :=
  length (e ← filter (λ e, e_target_id e = id ∧ e_relation e = REL_CALLS) (ee_edge <$> s_edges st);
          src ← node_rows st (e_source_id e);
          filter (λ sf, prod_filter_holds glob like (n_is_test (nr_node src)) (node_name_of src)
                          (file_path_of sf) = true) (file_rows st (node_file_of src))).

Definition column_contains (filter_text : option string) (column : option string) : bool :=
  match filter_text with
  | Some t => like_opt like_esc ("%" +:+ escape_like (to_lowercase t) +:+ "%") (sql_lower <$> column)
  | None => true
  end.

Definition filters_hold (types : option (list string)) (returns_filter params_filter name_filter : option string)
    (nf : NodeResult * FileEntry) : bool :=
  let n := nf.1 in
  match types with Some ts => bool_decide (type_of n ∈ ts) | None => true end
  && column_contains returns_filter (nr_return_type n)
  && column_contains params_filter (nr_param_types n)
  && column_contains name_filter (Some (node_name_of n))
  && negb (String.eqb (type_of n) "module" && String.eqb (node_name_of n) "<module>")
  && negb (is_external_file nf.2)
  && negb (is_test_node_sql_holds glob like (n_is_test (nr_node n)) (node_name_of n) (file_path_of nf.2)).

Definition caller_count_cmp (st : Store) : NodeResult * FileEntry → NodeResult * FileEntry → comparison :=
  cmp_then (cmp_rev (cmp_by (λ nf, prod_callers st (node_id_of nf.1)) Nat.compare))
    (cmp_then (cmp_by (λ nf, file_path_of nf.2) String.compare)
       (cmp_by (λ nf, n_start_line (nr_node nf.1)) Z.compare)).

(** [limit as i64] does not wrap below [2{^63}]. *)
Definition get_nodes_with_files_by_filters (st : Store) (types : option (list string))
    (returns_filter params_filter name_filter : option string) (limit : nat) : list NodeWithFile :=
  take limit (with_file <$> sort_cmp (caller_count_cmp st)
    (filter (λ nf, filters_hold types returns_filter params_filter name_filter nf = true) (node_files st))).

(** ** Edges *)

Definition get_edges_from (st : Store) (id : Z) : list EdgeRow :=
  filter (λ e, e_source_id e = id) (ee_edge <$> s_edges st).

Definition get_edge_target_names (st : Store) (source_id : Z) (relation : string) : list string :=
  e ← filter (λ e, e_relation e = relation) (get_edges_from st source_id);
  node_name_of <$> node_rows st (e_target_id e).

Definition get_edge_source_names (st : Store) (target_id : Z) (relation : string) : list string :=
  e ← filter (λ e, e_target_id e = target_id ∧ e_relation e = relation) (ee_edge <$> s_edges st);
  node_name_of <$> node_rows st (e_source_id e).

(** [COALESCE(f.path, '')] of a [LEFT JOIN] *)
Definition left_path (st : Store) (file_id : Z) : list string :=
  match file_rows st file_id with [] => [""] | fs => file_path_of <$> fs end.

Definition get_edge_targets_with_files (st : Store) (source_id : Z) (relation : string)
    : list (string * string) :=
  e ← filter (λ e, e_relation e = relation) (get_edges_from st source_id);
  n ← node_rows st (e_target_id e);
  pair (node_name_of n) <$> left_path st (node_file_of n).

Definition get_edge_sources_with_files (st : Store) (target_id : Z) (relation : string)
    : list (string * string * bool) :=
  e ← filter (λ e, e_target_id e = target_id ∧ e_relation e = relation) (ee_edge <$> s_edges st);
  n ← node_rows st (e_source_id e);
  (λ p, (node_name_of n, p, n_is_test (nr_node n))) <$> left_path st (node_file_of n).

(** [CASE confidence WHEN 'extracted' THEN 2 WHEN 'inferred' THEN 1 ELSE 0 END] *)
Definition rank_case (confidence : string) : nat :=
  if String.eqb confidence "extracted" then 2 else if String.eqb confidence "inferred" then 1 else 0.

Definition get_edge_target_names_batch (st : Store) (source_ids : list Z) (relation : string)
    (min_confidence_rank : nat) : gmap Z (list string) :=
  foldl (λ m row, <[row.1 := default [] (m !! row.1) ++ [row.2]]> m) ∅
    (in_chunks (λ c,
       sort_cmp (cmp_by snd String.compare)
         (e ← filter (λ e, e_source_id e ∈ c ∧ e_relation e = relation
                           ∧ min_confidence_rank ≤ rank_case (e_confidence e)) (ee_edge <$> s_edges st);
          (λ n, (e_source_id e, node_name_of n)) <$> node_rows st (e_target_id e))) source_ids).

Definition incoming_row (e : EdgeRow) (n : NodeResult) (path : string) : IncomingReference :=
  mkIncoming (node_id_of n) (node_name_of n) (qualified_of n) (type_of n) path (n_start_line (nr_node n))
    (e_relation e) (e_confidence e) (n_is_test (nr_node n)).

(** A NULL path sorts first and is shown empty. *)
Definition get_incoming_references (st : Store) (target_id : Z) (relation_filter : option string)
    : list IncomingReference :=
  let rows :=
    (e ← filter (λ e, e_target_id e = target_id
                      ∧ match relation_filter with Some r => String.eqb (e_relation e) r | None => true end = true
                      ∧ synthetic_import_holds e = false) (ee_edge <$> s_edges st);
     n ← node_rows st (e_source_id e);
     incoming_row e n <$> left_path st (node_file_of n)) in
  let by_place := cmp_then (cmp_by ir_file_path String.compare) (cmp_by ir_start_line Z.compare) in
  match relation_filter with
  | Some _ => sort_cmp by_place rows
  | None => sort_cmp (cmp_then (cmp_by ir_relation String.compare) by_place) rows
  end.

(** NULL sorts before any text. *)
Definition opt_cmp (a b : option string) : comparison :=
  match a, b with
  | None, None => Eq
  | None, Some _ => Lt
  | Some _, None => Gt
  | Some s, Some t => String.compare s t
  end.
Definition edge_info_cmp : Z * EdgeInfo → Z * EdgeInfo → comparison :=
  cmp_then (cmp_by (λ r, r.2.1.1.1) String.compare)
    (cmp_then (cmp_by (λ r, r.2.1.2) String.compare) (cmp_by (λ r, r.2.2) opt_cmp)).

Definition edge_infos (st : Store) (near far : EdgeRow → Z) (direction : string) (chunk : list Z)
    : list (Z * EdgeInfo) :=
  sort_cmp edge_info_cmp
    (e ← filter (λ e, near e ∈ chunk ∧ synthetic_import_holds e = false) (ee_edge <$> s_edges st);
     (λ n, (near e, (e_relation e, direction, node_name_of n, e_metadata e))) <$> node_rows st (far e)).

Definition get_edges_batch (st : Store) (node_ids : list Z) : gmap Z (list EdgeInfo) :=
  foldl (λ m row, <[row.1 := default [] (m !! row.1) ++ [row.2]]> m) ∅
    (in_chunks (λ c, edge_infos st e_source_id e_target_id "out" c
                     ++ edge_infos st e_target_id e_source_id "in" c) node_ids).

Definition count_user_edges (st : Store) : Z :=
  Z.of_nat (length (s_edges st))
  - Z.of_nat (length (filter (λ e, synthetic_import_holds (ee_edge e) = true) (s_edges st))).

(** [GROUP BY lang, relation] *)
Definition edges_by_language (st : Store) : gmap string (gmap string Z) :=
  foldl (λ m row,
      let inner := default ∅ (m !! row.1) in
      <[row.1 := <[row.2 := (default 0 (inner !! row.2) + 1)%Z]> inner]> m) ∅
    (e ← filter (λ e, synthetic_import_holds e = false) (ee_edge <$> s_edges st);
     n ← node_rows st (e_source_id e);
     (λ f, (default "unknown" (file_language f), e_relation e)) <$> file_rows st (node_file_of n)).

Record ResolutionStats := mkResolutionStats {
  rs_pending_unresolved_calls : nat;
  rs_edges_by_language : gmap string (gmap string Z);
}.
Definition count_pending_unresolved_calls (st : Store) : nat := length (s_pending st).
Definition resolution_stats (st : Store) : ResolutionStats :=
  mkResolutionStats (count_pending_unresolved_calls st) (edges_by_language st).
End Patterns.

(** ** Files *)

Definition get_all_file_hashes (st : Store) : gmap string string :=
  foldl (λ m f, <[file_path_of f := fe_blake3_hash f]> m) ∅ (s_files st).
Definition get_file_path (st : Store) (id : Z) : option string :=
  first_row (file_path_of <$> file_rows st id).
Definition get_file_language (st : Store) (id : Z) : option string :=
  match first_row (file_language <$> file_rows st id) with Some lang => lang | None => None end.

(** * Properties *)

Lemma elem_of_node_rows st i n : n ∈ node_rows st i ↔ n ∈ s_nodes st ∧ node_id_of n = i.
Proof. unfold node_rows. rewrite list_elem_of_filter. tauto. Qed.
Lemma elem_of_file_rows st i f : f ∈ file_rows st i ↔ f ∈ s_files st ∧ file_id_of f = i.
Proof. unfold file_rows. rewrite list_elem_of_filter. tauto. Qed.

Lemma elem_of_node_files st n f :
  (n, f) ∈ node_files st ↔ n ∈ s_nodes st ∧ f ∈ s_files st ∧ file_id_of f = node_file_of n.
Proof.
  unfold node_files, file_rows. rewrite list_elem_of_bind. split.
  - intros (m & (g & [= <- <-] & [? ?]%list_elem_of_filter)%list_elem_of_fmap & Hm). done.
  - intros (Hn & Hf & Hid). exists n. split; [|done]. apply list_elem_of_fmap. exists f. split; [done|].
    by apply list_elem_of_filter.
Qed.

Lemma elem_of_edge_rows st (e : EdgeRow) :
  e ∈ ee_edge <$> s_edges st ↔ ∃ r, r ∈ s_edges st ∧ ee_edge r = e.
Proof. rewrite list_elem_of_fmap. naive_solver. Qed.

Lemma elem_of_chunks_join {A} k (l : list A) x :
  0 < k → x ∈ l ↔ ∃ c, c ∈ chunks k l ∧ x ∈ c.
Proof. intros Hk. rewrite <-(join_chunks k l Hk) at 1. rewrite list_elem_of_join. naive_solver. Qed.

Lemma chunks_one {A} k (l c : list A) : length l ≤ k → c ∈ chunks k l → c = l.
Proof.
  unfold chunks. intros Hl. destruct l as [|x l]; [by intros ?%elem_of_nil|].
  change (length (x :: l)) with (S (length l)) at 1. cbn [chunks_go].
  rewrite take_ge, drop_ge by done. intros [->|Hc]%elem_of_cons; [done|].
  destruct (length l); simpl in Hc; by apply elem_of_nil in Hc.
Qed.

Lemma elem_of_in_chunks {A} (q : list Z → list A) ids x :
  x ∈ in_chunks q ids ↔ ∃ c, c ∈ chunks MAX_IN_PARAMS ids ∧ x ∈ q c.
Proof.
  unfold in_chunks. rewrite list_elem_of_join. setoid_rewrite list_elem_of_fmap. naive_solver.
Qed.

(** A query that asks for the ids of a chunk asks for all of them in the end. *)
Lemma in_chunks_ids {A B} (k : B → Z) (rows : list B) (f : B → A) ids x :
  x ∈ in_chunks (λ c, f <$> filter (λ r, k r ∈ c) rows) ids
  ↔ ∃ r, r ∈ rows ∧ k r ∈ ids ∧ x = f r.
Proof.
  rewrite elem_of_in_chunks. setoid_rewrite list_elem_of_fmap. setoid_rewrite list_elem_of_filter.
  setoid_rewrite (elem_of_chunks_join MAX_IN_PARAMS ids); [|unfold MAX_IN_PARAMS; lia]. naive_solver.
Qed.

(** ** Dirty nodes *)

(** Node [i] is the far end of an edge with a node of a file of [files]; as a
    callee it is in a project file. *)
Definition next_to (st : Store) (files : list Z) (i : Z) : Prop :=
  ∃ e n, e ∈ ee_edge <$> s_edges st ∧ n ∈ s_nodes st ∧ node_file_of n ∈ files
    ∧ (e_source_id e = i ∧ e_target_id e = node_id_of n
       ∨ e_target_id e = i ∧ e_source_id e = node_id_of n
         ∧ ∃ far f, far ∈ s_nodes st ∧ node_id_of far = i ∧ f ∈ s_files st
             ∧ file_id_of f = node_file_of far ∧ is_external_file f = false).

Definition in_files (st : Store) (files : list Z) (i : Z) : Prop :=
  ∃ n, n ∈ s_nodes st ∧ node_id_of n = i ∧ node_file_of n ∈ files.

Lemma elem_of_chunk_node_ids st c i : i ∈ chunk_node_ids st c ↔ in_files st c i.
Proof.
  unfold chunk_node_ids, in_files. rewrite list_elem_of_fmap. setoid_rewrite list_elem_of_filter. naive_solver.
Qed.

Lemma elem_of_dirty_callers st c i :
  i ∈ dirty_callers st c
  ↔ ∃ e n, e ∈ ee_edge <$> s_edges st ∧ n ∈ s_nodes st ∧ node_id_of n = e_target_id e
      ∧ node_file_of n ∈ c ∧ e_source_id e = i ∧ ¬ in_files st c i.
Proof.
  unfold dirty_callers. rewrite elem_of_remove_dups, list_elem_of_bind. split.
  - intros (e & (n & -> & [[Hc Hin] Hn]%list_elem_of_filter)%list_elem_of_fmap & He).
    rewrite elem_of_chunk_node_ids in Hin. apply elem_of_node_rows in Hn as [Hn Hid]. by exists e, n.
  - intros (e & n & He & Hn & Hid & Hc & <- & Hin). exists e. split; [|done].
    apply list_elem_of_fmap. exists n. split; [done|]. apply list_elem_of_filter.
    by rewrite elem_of_chunk_node_ids, elem_of_node_rows.
Qed.

Lemma elem_of_dirty_callees st c i :
  i ∈ dirty_callees st c
  ↔ ∃ e n, e ∈ ee_edge <$> s_edges st ∧ n ∈ s_nodes st ∧ node_id_of n = e_source_id e
      ∧ node_file_of n ∈ c ∧ e_target_id e = i ∧ ¬ in_files st c i
      ∧ ∃ far f, far ∈ s_nodes st ∧ node_id_of far = i ∧ f ∈ s_files st
          ∧ file_id_of f = node_file_of far ∧ is_external_file f = false.
Proof.
  unfold dirty_callees. rewrite elem_of_remove_dups, list_elem_of_bind. split.
  - intros (e & (n & (far & (f & -> & [Hext Hf]%list_elem_of_filter)%list_elem_of_fmap & Hfar)%list_elem_of_bind
                 & [[Hc Hin] Hn]%list_elem_of_filter)%list_elem_of_bind & He).
    rewrite elem_of_chunk_node_ids in Hin.
    apply elem_of_node_rows in Hn as [Hn Hid]. apply elem_of_node_rows in Hfar as [Hfar Hfid].
    apply elem_of_file_rows in Hf as [Hf Hff]. exists e, n. repeat split; try done. by exists far, f.
  - intros (e & n & He & Hn & Hid & Hc & <- & Hin & far & f & Hfar & Hfid & Hf & Hff & Hext).
    exists e. split; [|done]. apply list_elem_of_bind. exists n. split.
    + apply list_elem_of_bind. exists far. split; [|by apply elem_of_node_rows].
      apply list_elem_of_fmap. exists f. split; [done|]. apply list_elem_of_filter.
      by rewrite elem_of_file_rows.
    + apply list_elem_of_filter. by rewrite elem_of_chunk_node_ids, elem_of_node_rows.
Qed.

Lemma elem_of_dirty st c i :
  i ∈ dirty_callers st c ++ dirty_callees st c ↔ next_to st c i ∧ ¬ in_files st c i.
Proof.
  rewrite elem_of_app, elem_of_dirty_callers, elem_of_dirty_callees. unfold next_to. split.
  - intros [(e & n & He & Hn & Hid & Hc & Hs & Hin)|(e & n & He & Hn & Hid & Hc & Hs & Hin & Hfar)];
      (split; [|done]); exists e, n; auto 10.
  - intros [(e & n & He & Hn & Hc & [[Hs Hid]|(Hs & Hid & Hfar)]) Hin]; [left|right]; exists e, n; auto 10.
Qed.

Lemma next_to_chunks st k ids i :
  0 < k → next_to st ids i ↔ ∃ c, c ∈ chunks k ids ∧ next_to st c i.
Proof.
  intros Hk. unfold next_to. setoid_rewrite (elem_of_chunks_join k ids); [|done..]. split.
  - intros (e & n & He & Hn & (c & Hc & Hin) & H). exists c. split; [done|]. by exists e, n.
  - intros (c & Hc & e & n & He & Hn & Hin & H). exists e, n. naive_solver.
Qed.

(** Sorted and without repetition is ascending. *)
Lemma ascending (l : list Z) : NoDup l → StronglySorted (λ x y, cmp_leb Z.compare x y = true) l → StronglySorted Z.lt l.
Proof.
  intros Hnd Hs. induction Hs as [|x l Hs IH Hx]; constructor; apply NoDup_cons in Hnd as [Hn Hnd]; [by apply IH|].
  rewrite Forall_forall in *. intros y Hy. specialize (Hx y Hy). assert (x ≠ y) by congruence.
  revert Hx. unfold cmp_leb. by case (Z.compare_spec x y).
Qed.


(** The exclusion is per chunk: past 250 files it keeps nodes of changed files. *)
Example dirty_past_one_chunk :
  get_dirty_node_ids demo_store (1%Z :: replicate 249 7%Z ++ [2%Z]) = [1; 2]%Z
  ∧ get_dirty_node_ids demo_store [1; 2]%Z = [].
Proof. by vm_compute. Qed.
