(* ===== verification/Resolve.v ===== *)
(** * Edge resolution helpers ([indexer/pipeline/resolve.rs])

    How the metadata of a buffered call is read and how several candidates for
    one call are narrowed.  The JSON parser is serde_json's: a parameter that
    turns text into the value type below. *)

From S2P Require Import Prelude Str Utf8 Sql Domain Tables Store Queries.

(** ** JSON values ([serde_json::Value]) *)

Inductive json :=
| JNull
| JBool (b : bool)
| JNumber (text : string)
| JString (s : string)
| JArray (l : list json)
| JObject (fields : list (string * json)).

(** [Value::get] of a string key; a parsed object holds a key once. *)
Fixpoint field_in (key : string) (fields : list (string * json)) : option json :=
  match fields with
  | [] => None
  | (k, v) :: fields' => if String.eqb k key then Some v else field_in key fields'
  end.
Definition get (v : json) (key : string) : option json :=
  match v with JObject fields => field_in key fields | _ => None end.
Definition as_str (v : json) : option string :=
  match v with JString s => Some s | _ => None end.

Inductive CalleeMeta :=
| Path (segments : list string)
| SelfType (t : string)
| SelfRecv (t : string)
| RecvType (t : string)
| SuperType (t : string)
| Receiver (r : string)
| Chain
| Member
| Field (class field : string) (arrow : bool)
| Via
| Import (module export : string)
| ModuleCall (m : string).

Definition CALL_Q_IMPORT : string := "imp".

(** [str::split("::")] *)
Fixpoint split_colons (s : string) : list string :=
  match s with
  | EmptyString => [""]
  | String c s' =>
      match s' with
      | String d s'' =>
          if Ascii.eqb c ":" && Ascii.eqb d ":" then "" :: split_colons s''
          else match split_colons s' with
               | [] => [String c ""]
               | w :: ws => String c w :: ws
               end
      | EmptyString => [String c ""]
      end
  end.

Section Json.
Context (from_str : string → option json).

Definition parse_callee_metadata (s : option string) : option CalleeMeta :=
  raw ← s;
  v ← from_str raw;
  q ← get v "q" ≫= as_str;
  let payload := get v "v" ≫= as_str in
  if String.eqb q "chain" then Some Chain
  else if String.eqb q "via" then Some Via
  else if String.eqb q "field" then
    class ← get v "c" ≫= as_str;
    field ← payload;
    Some (Field class field (match get v "a" with Some _ => true | None => false end))
  else if String.eqb q "member" then Some Member
  else if String.eqb q "module" then ModuleCall <$> payload
  else if String.eqb q "path" then
    p ← payload;
    let segments := split_colons p in
    if existsb (λ s, String.eqb s "") segments then None else Some (Path segments)
  else if String.eqb q "self" then SelfRecv <$> payload
  else if String.eqb q "stype" then SelfType <$> payload
  else if String.eqb q "rtype" then RecvType <$> payload
  else if String.eqb q "super" then SuperType <$> payload
  else if String.eqb q "recv" then Receiver <$> payload
  else if String.eqb q CALL_Q_IMPORT then
    module ← get v "js_module" ≫= as_str;
    export ← payload;
    Some (Import module export)
  else None.

Definition is_module_attr_call (metadata : option string) : bool :=
  match metadata with
  | Some m => contains (dquote +:+ "attr" +:+ dquote +:+ ":") m
              && contains (dquote +:+ "q" +:+ dquote +:+ ":" +:+ dquote +:+ "module" +:+ dquote) m
  | None => false
  end.

Definition python_attr_of (metadata : option string) : option string :=
  raw ← metadata; v ← from_str raw; get v "attr" ≫= as_str.

(** The separator is U+001F. *)
Definition js_import_pending_name (metadata : option string) (target_name : string) : string :=
  match parse_callee_metadata metadata with
  | Some (Import module export) => export +:+ String "031" module
  | _ => target_name
  end.
End Json.

(** ** Several candidates for one call *)

(** The local [is_test_path] *)
Definition is_test_like (p : string) : bool :=
  contains ".test." p || contains "_test." p || starts_with "tests/" p || contains "/tests/" p
  || starts_with "test/" p || contains "/test/" p || contains ".spec." p.

(** [caller.bytes().zip(p.bytes()).take_while(eq).count()] *)
Fixpoint prefix_len (a p : string) : nat :=
  match a, p with
  | String c a', String d p' => if Ascii.eqb c d then S (prefix_len a' p') else 0
  | _, _ => 0
  end.

Section Refine.
Context (caller_rel_path : string) (node_id_to_path : gmap Z string).

Definition path_of (id : Z) : string := default "" (node_id_to_path !! id).

Definition non_test_pool (candidates : list Z) : list Z :=
  if is_test_like caller_rel_path then candidates
  else let non_test := filter (λ id, is_test_like (path_of id) = false) candidates in
       if bool_decide (non_test = []) then candidates else non_test.

Definition closeness (id : Z) : nat := prefix_len caller_rel_path (path_of id).

Definition refine_ambiguous_targets (candidates : list Z) : list Z :=
  if length candidates <=? 1 then candidates
  else let pool := non_test_pool candidates in
       if length pool =? 1 then pool
       else let max_prefix := foldr max 0 (closeness <$> pool) in
            let closest := filter (λ id, closeness id = max_prefix) pool in
            if length closest =? 1 then closest
            else if negb (bool_decide (closest = [])) then closest else pool.
End Refine.

(** * Properties *)

Lemma foldr_max_attained (l : list nat) : l ≠ [] → foldr max 0 l ∈ l.
Proof.
  induction l as [|x [|y l] IH]; [done| |]; intros _.
  - simpl. rewrite Nat.max_0_r. by left.
  - change (foldr max 0 (x :: y :: l)) with (x `max` foldr max 0 (y :: l)).
    destruct (Nat.max_spec x (foldr max 0 (y :: l))) as [[_ ->]|[_ ->]]; [right; by apply IH|by left].
Qed.
Lemma foldr_max_bound (l : list nat) x : x ∈ l → x ≤ foldr max 0 l.
Proof. induction l as [|y l IH]; [by intros ?%elem_of_nil|]. intros [->|?%IH]%elem_of_cons; simpl; lia. Qed.

Lemma non_test_pool_spec caller m candidates id :
  id ∈ non_test_pool caller m candidates
  ↔ id ∈ candidates
    ∧ (is_test_like caller = false → is_test_like (path_of m id) = true →
       ∀ j, j ∈ candidates → is_test_like (path_of m j) = true).
Proof.
  unfold non_test_pool. destruct (is_test_like caller); [naive_solver|].
  case_bool_decide as Hnil.
  - split; [|tauto]. intros Hin. split; [done|]. intros _ _ j Hj.
    destruct (is_test_like (path_of m j)) eqn:E; [done|].
    assert (j ∈ filter (λ i, is_test_like (path_of m i) = false) candidates) as Hf
      by (by apply list_elem_of_filter).
    rewrite Hnil in Hf. by apply elem_of_nil in Hf.
  - rewrite list_elem_of_filter. split.
    + intros [Ht Hin]. split; [done|]. intros _ Ht'. by rewrite Ht in Ht'.
    + intros [Hin H]. split; [|done]. destruct (is_test_like (path_of m id)) eqn:E; [|done].
      destruct Hnil. apply filter_none. intros j Hj Hf. by rewrite (H eq_refl eq_refl j Hj) in Hf.
Qed.

(** Narrowing never loses a call: from any candidates some survive, only
    candidates survive, in their order; a test file is dropped for production
    code exactly when a non-test candidate exists; and the survivors are those of
    the longest path prefix in common with the caller. *)
Theorem refine_ambiguous_targets_ok caller m candidates :
  let refined := refine_ambiguous_targets caller m candidates in
  let pool := non_test_pool caller m candidates in
  sublist refined candidates
  ∧ (candidates ≠ [] → refined ≠ [])
  ∧ ∀ id, id ∈ refined
      ↔ id ∈ candidates
        ∧ (is_test_like caller = false → is_test_like (path_of m id) = true →
           ∀ j, j ∈ candidates → is_test_like (path_of m j) = true)
        ∧ ∀ j, j ∈ pool → closeness caller m j ≤ closeness caller m id.
Proof.
  intros refined pool.
  assert (sublist pool candidates) as Hsub.
  { unfold pool, non_test_pool. repeat case_match; (done || apply sublist_filter). }
  set (best := λ id, ∀ j, j ∈ pool → closeness caller m j ≤ closeness caller m id).
  assert (∀ l : list Z, length l ≤ 1 → ∀ i j, i ∈ l → j ∈ l → i = j) as Hone.
  { intros [|x [|y l]] Hl i j; simpl in Hl; [by intros ?%elem_of_nil|set_solver|lia]. }
  assert (candidates ≠ [] → pool ≠ []) as Hpool.
  { unfold pool, non_test_pool. intros Hne. case_match; [done|]. by case_bool_decide. }
  assert (sublist refined pool ∧ (pool ≠ [] → refined ≠ []) ∧ ∀ id, id ∈ refined ↔ id ∈ pool ∧ best id)
    as (Hs & Hne & Hin).
  { unfold refined, refine_ambiguous_targets. fold pool.
    destruct (Nat.leb_spec (length candidates) 1) as [Hc|Hc].
    - assert (pool = candidates) as Hpc.
      { destruct candidates as [|x [|y l]]; simpl in Hc; [| |lia].
        - unfold pool, non_test_pool. by repeat case_match.
        - unfold pool, non_test_pool. case_match; [done|]. case_bool_decide as Hn; [done|].
          rewrite filter_cons in Hn |- *. by case_decide. }
      rewrite Hpc. split; [done|]. split; [done|]. intros id. split; [|tauto]. intros Hid. split; [done|].
      intros j Hj. rewrite Hpc in Hj. by rewrite (Hone candidates Hc j id).
    - destruct (Nat.eqb_spec (length pool) 1) as [Hp|Hp].
      + split; [done|]. split; [done|]. intros id. split; [|tauto]. intros Hid. split; [done|].
        intros j Hj. rewrite (Hone pool ltac:(lia) j id) by done. done.
      + set (closest := filter _ pool).
        assert (∀ id, id ∈ closest ↔ id ∈ pool ∧ best id) as Hcl.
        { intros id. unfold closest. rewrite list_elem_of_filter. split.
          - intros [Heq Hid]. split; [done|]. intros j Hj. rewrite Heq.
            apply foldr_max_bound. by apply list_elem_of_fmap_2.
          - intros [Hid Hb]. split; [|done]. apply Nat.le_antisymm.
            + apply foldr_max_bound. by apply list_elem_of_fmap_2.
            + assert (closeness caller m <$> pool ≠ []) as Hn by (by destruct pool; [apply elem_of_nil in Hid|]).
              apply foldr_max_attained in Hn. apply list_elem_of_fmap in Hn as (j & -> & Hj). by apply Hb. }
        assert (pool ≠ [] → closest ≠ []) as Hcne.
        { intros Hp' Hn. assert (closeness caller m <$> pool ≠ []) as Hm by (by destruct pool).
          apply foldr_max_attained in Hm. apply list_elem_of_fmap in Hm as (j & Hj & Hjp).
          assert (j ∈ closest) as Hjc by (by apply list_elem_of_filter).
          rewrite Hn in Hjc. by apply elem_of_nil in Hjc. }
        assert (sublist closest pool) as Hcs by apply sublist_filter.
        destruct (length closest =? 1); [done|]. case_bool_decide as Hn; simpl; [|done].
        destruct (decide (pool = [])) as [Hp0|Hp0]; [|by destruct (Hcne Hp0)].
        split; [done|]. split; [done|]. intros id. rewrite Hp0, elem_of_nil. tauto. }
  split; [by etrans|]. split; [auto|]. intros id. rewrite Hin. unfold pool at 1.
  rewrite non_test_pool_spec. unfold best. tauto.
Qed.
