(* ===== verification/JsExports.v ===== *)
(** * The re-export walk of JS modules ([indexer/pipeline/js_exports.rs])

    ECMAScript's [ResolveExport] over the export entries of the indexed files,
    with the caches of a pass, and what an import binds by it.
    [json_extract] is SQLite's, the JSON parser and printer are serde_json's. *)

From S2P Require Import Prelude Str Domain Tables Store Queries Paths JsModules Resolve.

Definition MAX_JS_REEXPORT_DEPTH : nat := 256.

Inductive JsResolution :=
| Binding (file local : string)
| Namespace (file : string)
| Missing
| Ambiguous
| Unknown.
#[export] Instance JsResolution_eq_dec : EqDecision JsResolution.
Proof. solve_decision. Defined.

(** ** What the walk reads of a file *)

Record FileExports := mkExports {
  fx_entries : list JsExportEntry;
  fx_published : list (string * string * bool);
  fx_spans : list (Z * string * Z * Z * bool);
}.
Definition no_exports : FileExports := mkExports [] [] [].

Definition entry_of (kind : string) (name target spec : option string) : option JsExportEntry :=
  if String.eqb kind "local" then n ← name; t ← target; Some (JsLocal n t)
  else if String.eqb kind "indirect" then n ← name; s ← spec; Some (JsIndirect n s target)
  else if String.eqb kind "star" then JsStar <$> spec
  else None.

(** The first answer of a list. *)
Definition find_map {A B} (f : A → option B) (l : list A) : option B := head (omap f l).

Definition local_entry (name : string) (e : JsExportEntry) : option string :=
  match e with JsLocal export local => if String.eqb export name then Some local else None | _ => None end.
Definition only_default (f : FileExports) (name : string) : bool :=
  existsb (λ e, match e with JsLocal export local => String.eqb export "default" && String.eqb local name | _ => false end)
    (fx_entries f).
Definition published_as (keyed : bool) (name : string) (p : string * string * bool) : option string :=
  let '(pub, node, k) := p in if Bool.eqb k keyed && String.eqb pub name then Some node else None.

Definition local_of (f : FileExports) (name : string) : option string :=
  match find_map (local_entry name) (fx_entries f) with
  | Some local => Some local
  | None =>
      match find_map (published_as true name) (fx_published f) with
      | Some node => Some node
      | None => if only_default f name then None else find_map (published_as false name) (fx_published f)
      end
  end.

Definition indirect_entry (name : string) (e : JsExportEntry) : option (string * option string) :=
  match e with JsIndirect export spec import => if String.eqb export name then Some (spec, import) else None | _ => None end.
Definition indirect_of (f : FileExports) (name : string) : option (string * option string) :=
  find_map (indirect_entry name) (fx_entries f).

Definition star_specs (f : FileExports) : list string :=
  omap (λ e, match e with JsStar spec => Some spec | _ => None end) (fx_entries f).

(** [sort_unstable] and [dedup] of distinct ids *)
Definition functions_named_in (f : FileExports) (local : string) : list Z :=
  remove_dups (sort_cmp Z.compare
    (omap (λ s, let '(id, name, first, last_, function) := s in
                if (function : bool) && String.eqb name local
                   && negb (existsb (λ o, let '(id', _, first', last', _) := o in
                                          negb (id' =? id)%Z && (first' <=? first)%Z && (last_ <=? last')%Z) (fx_spans f))
                then Some id else None) (fx_spans f))).

Section Load.
Context (json_extract : option string → string → option string) (st : Store).

(** The [<module>] nodes of the file. *)
Definition module_nodes (file : string) : list NodeResult :=
  fst <$> filter (λ nf, file_path_of nf.2 = file ∧ node_name_of nf.1 = "<module>") (node_files st).

Definition js_export_rows (file : string) : list JsExportRow :=
  sort_cmp (cmp_by je_ord Z.compare)
    (m ← module_nodes file; filter (λ x, je_module_id x = node_id_of m) (s_js_exports st)).

Definition entries_of (rows : list JsExportRow) : list JsExportEntry :=
  omap (λ x, entry_of (je_kind x) (je_name x) (je_target x) (je_spec x)) rows.

(** The nodes of its own the file's [<module>] exports, with the key of an export map. *)
Definition js_export_map (file : string) : list (NodeResult * option string) :=
  m ← module_nodes file;
  e ← filter (λ e, e_source_id e = node_id_of m ∧ e_relation e = REL_EXPORTS) (ee_edge <$> s_edges st);
  n ← filter (λ n, node_file_of n = node_file_of m) (node_rows st (e_target_id e));
  [(n, json_extract (e_metadata e) "$.as")].

Definition published_row (name : string) (key : option string) : string * string * bool :=
  match key with Some k => (k, name, true) | None => (name, name, false) end.

Definition load (file : string) : FileExports :=
  mkExports (entries_of (js_export_rows file))
    ((λ r, published_row (node_name_of r.1) r.2) <$> js_export_map file)
    ((λ nf, (node_id_of nf.1, node_name_of nf.1, n_start_line (nr_node nf.1), n_end_line (nr_node nf.1),
             String.eqb (type_of nf.1) "function"))
       <$> filter (λ nf, file_path_of nf.2 = file ∧ type_of nf.1 ∈ ["function"; "method"; "class"]) (node_files st)).
End Load.

(** ** The walk *)

#[local] Abbreviation Asked := (gset (string * string)).

Record JsExports := mkJsExports {
  by_file : gmap string FileExports;
  memo : gmap (string * string) JsResolution;
  stars : gmap string (list string);
}.
Definition no_walk : JsExports := mkJsExports ∅ ∅ ∅.

Section Walk.
Context (read : string → FileExports) (paths : gset string).

(** [JsExports::load], and the file's exports as they are in the cache. *)
Definition load_file (file : string) (s : JsExports) : FileExports * JsExports :=
  match by_file s !! file with
  | Some f => (f, s)
  | None => (read file, mkJsExports (<[file := read file]> (by_file s)) (memo s) (stars s))
  end.

Definition star_files (f : FileExports) (file : string) : list string :=
  omap (λ spec, resolve_js_specifier_path paths spec file) (star_specs f).

Definition stars_of (file : string) (here : FileExports) (s : JsExports) : list string * JsExports :=
  match stars s !! file with
  | Some l => (l, s)
  | None => let l := star_files here file in (l, mkJsExports (by_file s) (memo s) (<[file := l]> (stars s)))
  end.

(** The loop over the [export *] sources; the state is the resolve set and the caches. *)
Fixpoint ask_stars {S} (ask : string → S → JsResolution * S) (nexts : list string) (found : option JsResolution) (s : S)
    : JsResolution * S :=
  match nexts with
  | [] => (default Missing found, s)
  | next :: nexts =>
      let '(r, s) := ask next s in
      match r with
      | Missing => ask_stars ask nexts found s
      | Ambiguous | Unknown => (r, s)
      | _ => match found with
             | Some f => if bool_decide (f = r) then ask_stars ask nexts found s else (Ambiguous, s)
             | None => ask_stars ask nexts (Some r) s
             end
      end
  end.

(** [fuel] is what is left of the depth: [MAX_JS_REEXPORT_DEPTH + 1 - depth]. *)
Fixpoint walk (fuel : nat) (file name : string) (seen : Asked) (s : JsExports) : JsResolution * Asked * JsExports :=
  match fuel with
  | 0 => (Unknown, seen, s)
  | S fuel =>
      if bool_decide ((file, name) ∈ seen) then (Missing, seen, s)
      else
        let seen := {[(file, name)]} ∪ seen in
        let '(here, s) := load_file file s in
        match local_of here name with
        | Some local => (Binding file local, seen, s)
        | None =>
            match indirect_of here name with
            | Some (spec, import) =>
                match resolve_js_specifier_path paths spec file with
                | None => (Unknown, seen, s)
                | Some next =>
                    match import with
                    | None => (Namespace next, seen, s)
                    | Some import => walk fuel next import seen s
                    end
                end
            | None =>
                if String.eqb name "default" then (Missing, seen, s)
                else
                  let '(nexts, s) := stars_of file here s in
                  let '(r, (seen, s)) := ask_stars (λ next ss, let '(r, seen, s) := walk fuel next name ss.1 ss.2 in (r, (seen, s)))
                                           nexts None (seen, s) in
                  (r, seen, s)
            end
        end
  end.

Definition resolve_visiting (file name : string) (s : JsExports) : JsResolution * Asked * JsExports :=
  walk (S MAX_JS_REEXPORT_DEPTH) file name ∅ s.

Definition resolve (file name : string) (s : JsExports) : JsResolution * JsExports :=
  match memo s !! (file, name) with
  | Some r => (r, s)
  | None => let '(r, _, s) := resolve_visiting file name s in
            (r, mkJsExports (by_file s) (<[(file, name) := r]> (memo s)) (stars s))
  end.

Definition functions_named (file local : string) (s : JsExports) : list Z * JsExports :=
  let '(f, s) := load_file file s in (functions_named_in f local, s).

Definition answers_without_stars (s : JsExports) (file name : string) : bool :=
  match by_file s !! file with
  | Some f => bool_decide (is_Some (local_of f name)) || bool_decide (is_Some (indirect_of f name))
  | None => false
  end.

Definition js_import_targets (caller_path module export : string) (s : JsExports) : option (list Z) * JsExports :=
  match resolve_js_specifier_path paths module caller_path with
  | None => (if starts_with "./" module || starts_with "../" module then Some [] else None, s)
  | Some file =>
      let '(r, s) := resolve file export s in
      match r with
      | Binding file local => let '(ids, s) := functions_named file local s in (Some ids, s)
      | Namespace _ => (None, s)
      | _ => (Some [], s)
      end
  end.

Definition js_import_edge_targets (file name : string) (name_to_ids : gmap string (list Z))
    (node_id_to_path : gmap Z string) (s : JsExports) : option (list Z * string) * JsExports :=
  let '(r, s) := resolve file name s in
  match (match r with Binding f l => Some (f, l) | Namespace f => Some (f, "<module>") | _ => None end) with
  | None => (None, s)
  | Some (f, local) =>
      let ids := filter (λ id, node_id_to_path !! id = Some f) (default [] (name_to_ids !! local)) in
      (if bool_decide (ids = []) then None else Some (ids, local), s)
  end.
End Walk.

(** ** The name an import carries *)

Definition JS_IMPORT_NAME_KEY : string := "imported".

(** [serde_json]'s parser and printer, and its [Map::insert] and [Map::remove]. *)
Section Names.
Context (from_str : string → option json) (to_string : json → string).
Context (map_insert : string → json → list (string * json) → list (string * json)).
Context (map_remove : string → list (string * json) → list (string * json)).

Definition with_imported_name (metadata : option string) (name : string) : option string :=
  match default (JObject []) (m ← metadata; from_str m) with
  | JObject fields => Some (to_string (JObject (map_insert JS_IMPORT_NAME_KEY (JString name) fields)))
  | _ => None
  end.

Definition as_extracted (metadata : option string) (target_name : string) : string * option string :=
  match (m ← metadata; from_str m) with
  | Some (JObject fields) =>
      match field_in JS_IMPORT_NAME_KEY fields with
      | Some (JString name) => (name, Some (to_string (JObject (map_remove JS_IMPORT_NAME_KEY fields))))
      | _ => (target_name, metadata)
      end
  | _ => (target_name, metadata)
  end.

Definition js_imported_name (meta : json) (target_name : string) : string :=
  default target_name (get meta JS_IMPORT_NAME_KEY ≫= as_str).
End Names.

(** * Properties *)

#[local] Opaque MAX_JS_REEXPORT_DEPTH.

(** ** The walk without the caches *)

Section Reference.
Context (read : string → FileExports) (paths : gset string).

Fixpoint walk_ref (fuel : nat) (v : string * string) (seen : Asked) : JsResolution * Asked :=
  match fuel with
  | 0 => (Unknown, seen)
  | S fuel =>
      if bool_decide (v ∈ seen) then (Missing, seen)
      else
        let seen := {[v]} ∪ seen in
        match local_of (read v.1) v.2 with
        | Some local => (Binding v.1 local, seen)
        | None =>
            match indirect_of (read v.1) v.2 with
            | Some (spec, import) =>
                match resolve_js_specifier_path paths spec v.1 with
                | None => (Unknown, seen)
                | Some next =>
                    match import with
                    | None => (Namespace next, seen)
                    | Some import => walk_ref fuel (next, import) seen
                    end
                end
            | None =>
                if String.eqb v.2 "default" then (Missing, seen)
                else ask_stars (λ next, walk_ref fuel (next, v.2)) (star_files paths (read v.1) v.1) None seen
            end
        end
  end.

Definition resolve_ref (v : string * string) : JsResolution * Asked := walk_ref (S MAX_JS_REEXPORT_DEPTH) v ∅.

Record caches_ok (s : JsExports) : Prop := {
  ok_files f x : by_file s !! f = Some x → x = read f;
  ok_stars f l : stars s !! f = Some l → l = star_files paths (read f) f;
  ok_memo v r : memo s !! v = Some r → r = (resolve_ref v).1;
}.

(** A later state of the caches knows every file of the resolve set. *)
Definition caches_grow (s s' : JsExports) (seen seen' : Asked) : Prop :=
  (∀ f, is_Some (by_file s !! f) → is_Some (by_file s' !! f))
  ∧ (∀ v, v ∈ seen' → v ∈ seen ∨ is_Some (by_file s' !! v.1)).

Lemma caches_grow_refl s seen : caches_grow s s seen seen.
Proof. split; eauto. Qed.
Lemma caches_grow_trans s1 s2 s3 a b c : caches_grow s1 s2 a b → caches_grow s2 s3 b c → caches_grow s1 s3 a c.
Proof. intros [H1 H2] [H3 H4]. split; [eauto|]. intros v Hv. destruct (H4 v Hv) as [?%H2|]; naive_solver. Qed.

Lemma load_file_ok f s :
  caches_ok s → (load_file read f s).1 = read f ∧ caches_ok (load_file read f s).2
               ∧ is_Some (by_file (load_file read f s).2 !! f)
               ∧ ∀ g, is_Some (by_file s !! g) → is_Some (by_file (load_file read f s).2 !! g).
Proof.
  intros Hs. unfold load_file. destruct (by_file s !! f) as [x|] eqn:Hf; cbn.
  - by apply (ok_files s Hs) in Hf as Hx.
  - split; [done|split; [|split; [by rewrite lookup_insert_eq|]]].
    + split; [|apply Hs|apply Hs]. intros g x. cbn. rewrite lookup_insert_Some. intros [[<- <-]|[_ ?]]; [done|by apply Hs].
    + intros g Hg. rewrite lookup_insert_is_Some. destruct (decide (f = g)); tauto.
Qed.

Lemma stars_of_ok f s :
  caches_ok s → (stars_of paths f (read f) s).1 = star_files paths (read f) f ∧ caches_ok (stars_of paths f (read f) s).2
               ∧ by_file (stars_of paths f (read f) s).2 = by_file s.
Proof.
  intros Hs. unfold stars_of. destruct (stars s !! f) as [l|] eqn:Hf; cbn; [by apply (ok_stars s Hs) in Hf|].
  split; [done|split; [|done]]. split; [apply Hs| |apply Hs]. intros g x. cbn. rewrite lookup_insert_Some.
  intros [[<- <-]|[_ ?]]; [done|by apply Hs].
Qed.

(** The caches do not change an answer. *)
Definition agrees (ref : JsResolution * Asked) (seen : Asked) (s : JsExports) (r : JsResolution * Asked * JsExports) : Prop :=
  r.1 = ref ∧ caches_ok r.2 ∧ caches_grow s r.2 seen r.1.2.

Lemma ask_stars_cached ask ask_ref nexts found seen s :
  (∀ g seen s, caches_ok s → agrees (ask_ref g seen) seen s (ask g seen s)) → caches_ok s →
  let r := ask_stars (λ g ss, let '(r, seen, s) := ask g ss.1 ss.2 in (r, (seen, s))) nexts found (seen, s) in
  agrees (ask_stars ask_ref nexts found seen) seen s (r.1, r.2.1, r.2.2).
Proof.
  intros Hask. revert found seen s; induction nexts as [|g nexts IH]; intros found seen s Hs; cbn.
  - split; [done|split; [done|apply caches_grow_refl]].
  - destruct (Hask g seen s Hs) as (Hr & Hs' & Hg). destruct (ask g seen s) as [[r seen1] s1]. cbn in Hr, Hs', Hg.
    rewrite <-Hr. cbn.
    assert (∀ found, agrees (ask_stars ask_ref nexts found seen1) seen s
      (let r := ask_stars (λ g ss, let '(r, seen, s) := ask g ss.1 ss.2 in (r, (seen, s))) nexts found (seen1, s1) in
       (r.1, r.2.1, r.2.2))) as Hgo.
    { intros fd. destruct (IH fd seen1 s1 Hs') as (? & ? & ?). split; [done|split; [done|]]. by eapply caches_grow_trans. }
    destruct r; try apply Hgo; try (by split).
    all: destruct found as [f|]; [case_bool_decide; [apply Hgo|by split]|apply Hgo].
Qed.

Lemma walk_cached fuel v seen s : caches_ok s → agrees (walk_ref fuel v seen) seen s (walk read paths fuel v.1 v.2 seen s).
Proof.
  destruct v as [file name]. cbn. revert file name seen s. induction fuel as [|fuel IH]; intros file name seen s Hs; cbn.
  { split; [done|split; [done|apply caches_grow_refl]]. }
  case_bool_decide as Hin; [split; [done|split; [done|apply caches_grow_refl]]|].
  destruct (load_file_ok file s Hs) as (Hf & Hs1 & Hl & Hmono). destruct (load_file read file s) as [here s1]. cbn in *. subst here.
  assert (caches_grow s s1 seen ({[(file, name)]} ∪ seen)) as Hg.
  { split; [done|]. intros v [->%elem_of_singleton|Hv]%elem_of_union; [by right|by left]. }
  destruct (local_of (read file) name); [by split|]. destruct (indirect_of (read file) name) as [[spec import]|].
  - destruct (resolve_js_specifier_path paths spec file) as [next|]; [|by split]. destruct import as [import|]; [|by split].
    destruct (IH next import ({[(file, name)]} ∪ seen) s1 Hs1) as (? & ? & ?). split; [done|split; [done|]]. by eapply caches_grow_trans.
  - destruct (String.eqb name "default"); [by split|].
    destruct (stars_of_ok file s1 Hs1) as (Hst & Hs2 & Hb). destruct (stars_of paths file (read file) s1) as [nexts s2]. cbn in *. subst nexts.
    pose proof (ask_stars_cached (λ g, walk read paths fuel g name) (λ g, walk_ref fuel (g, name)) (star_files paths (read file) file)
      None ({[(file, name)]} ∪ seen) s2 (λ g seen s, IH g name seen s) Hs2) as (Hr & Hok & Hgr).
    destruct (ask_stars _ _ None _) as [r [seen' s']]. cbn in *. split; [done|split; [done|]].
    eapply caches_grow_trans; [|exact Hgr]. destruct Hg as [Hg1 Hg2]. split; by rewrite Hb.
Qed.

Lemma resolve_cached file name s :
  caches_ok s → (resolve read paths file name s).1 = (resolve_ref (file, name)).1 ∧ caches_ok (resolve read paths file name s).2.
Proof.
  intros Hs. unfold resolve. destruct (memo s !! (file, name)) as [r|] eqn:Hm; [by apply (ok_memo s Hs) in Hm|].
  destruct (walk_cached (S MAX_JS_REEXPORT_DEPTH) (file, name) ∅ s Hs) as (Hr & Hok & _).
  unfold resolve_visiting. unfold fst, snd in Hr, Hok.
  destruct (walk read paths (S MAX_JS_REEXPORT_DEPTH) file name ∅ s) as [[r seen] s']. cbn [fst snd] in *.
  assert (r = (resolve_ref (file, name)).1) as -> by (unfold resolve_ref; by rewrite <-Hr).
  split; [done|]. split; [apply Hok|apply Hok|]. intros v r. cbn. rewrite lookup_insert_Some.
  intros [[<- <-]|[_ ?]]; [done|by apply (ok_memo s' Hok)].
Qed.

(** ** What an export resolves to *)

(** The answer an export gives itself. *)
Definition own (v : string * string) : option JsResolution :=
  match local_of (read v.1) v.2 with
  | Some local => Some (Binding v.1 local)
  | None => match indirect_of (read v.1) v.2 with
            | Some (spec, None) => Namespace <$> resolve_js_specifier_path paths spec v.1
            | _ => None
            end
  end.

(** The exports it asks. *)
Definition asks (v : string * string) : list (string * string) :=
  match local_of (read v.1) v.2 with
  | Some _ => []
  | None =>
      match indirect_of (read v.1) v.2 with
      | Some (spec, import) =>
          match resolve_js_specifier_path paths spec v.1, import with
          | Some next, Some import => [(next, import)]
          | _, _ => []
          end
      | None => if String.eqb v.2 "default" then [] else (λ g, (g, v.2)) <$> star_files paths (read v.1) v.1
      end
  end.

(** An indirect entry through a specifier no file answers. *)
Definition unanswered (v : string * string) : Prop :=
  local_of (read v.1) v.2 = None
  ∧ ∃ spec import, indirect_of (read v.1) v.2 = Some (spec, import) ∧ resolve_js_specifier_path paths spec v.1 = None.

Definition reach : string * string → string * string → Prop := rtc (λ u v, v ∈ asks u).
Definition leads_to (v : string * string) (r : JsResolution) : Prop := ∃ u, reach v u ∧ own u = Some r.

(** The walk did not see everything: a specifier no file answers, or [n] exports one after another. *)
Definition cut_short (n : nat) (seen : Asked) (v : string * string) : Prop :=
  (∃ u, reach v u ∧ unanswered u)
  ∨ ∃ l, NoDup l ∧ length l = n ∧ ∀ u, u ∈ l → reach v u ∧ u ∉ seen.

(** The exports seen on the way are done with: they have no other answer and ask nothing unseen. *)
Definition settled (r : JsResolution) (seen seen' : Asked) : Prop :=
  ∀ u, u ∈ seen' → u ∉ seen → (∀ t, own u = Some t → r = t) ∧ ∀ w, w ∈ asks u → w ∈ seen'.

Definition answer_ok (n : nat) (seen seen' : Asked) (v : string * string) (r : JsResolution) : Prop :=
  seen ⊆ seen'
  ∧ match r with
    | Ambiguous => ∃ r1 r2, r1 ≠ r2 ∧ leads_to v r1 ∧ leads_to v r2
    | Unknown => cut_short n seen v
    | _ => v ∈ seen' ∧ settled r seen seen' ∧ (r ≠ Missing → leads_to v r)
    end.

Lemma reach_leads u v r : v ∈ asks u → leads_to v r → leads_to u r.
Proof. intros Hv (w & Hw & Ho). exists w. split; [by eapply rtc_l|done]. Qed.

Lemma cut_short_step n seen u v : v ∈ asks u → u ∉ seen → cut_short n ({[u]} ∪ seen) v → cut_short (S n) seen u.
Proof.
  intros Hv Hu [(w & Hw & Hd)|(l & Hn & Hlen & Hl)]; [left|right].
  - exists w. split; [by eapply rtc_l|done].
  - exists (u :: l). split; [|split; [cbn; lia|]].
    + constructor; [|done]. intros Hin. destruct (Hl u Hin) as [_ Hns]. set_solver.
    + intros w [->|Hw]%elem_of_cons; [by split|]. destruct (Hl w Hw). split; [by eapply rtc_l|set_solver].
Qed.

Lemma settled_weaken r seen seen1 seen' : seen1 ⊆ seen' → settled r seen seen1 →
  ∀ u, u ∈ seen1 → u ∉ seen → (∀ t, own u = Some t → r = t) ∧ ∀ w, w ∈ asks u → w ∈ seen'.
Proof. intros Hsub Hs u H1 H2. destruct (Hs u H1 H2) as [? Ha]. split; [done|]. intros w Hw. by apply Hsub, Ha. Qed.

(** An answer that is a binding or a namespace. *)
Definition answers (r : JsResolution) : Prop := match r with Binding _ _ | Namespace _ => True | _ => False end.

(** What the loop over the [export *] sources of a name promises. *)
Definition stars_answer (n : nat) (name : string) (nexts : list string) (found : option JsResolution)
    (seen seen' : Asked) (r : JsResolution) : Prop :=
  seen ⊆ seen'
  ∧ match r with
    | Ambiguous => ∃ r1 r2 g, r1 ≠ r2 ∧ g ∈ nexts ∧ leads_to (g, name) r2
                              ∧ (found = Some r1 ∨ ∃ g', g' ∈ nexts ∧ leads_to (g', name) r1)
    | Unknown => ∃ g, g ∈ nexts ∧ cut_short n seen (g, name)
    | _ => (∀ t, found = Some t → r = t) ∧ (∀ g, g ∈ nexts → (g, name) ∈ seen') ∧ settled r seen seen'
           ∧ (r ≠ Missing → found = Some r ∨ ∃ g, g ∈ nexts ∧ leads_to (g, name) r)
    end.

Lemma own_answers u t : own u = Some t → answers t.
Proof.
  unfold own. destruct (local_of _ _); [by intros [= <-]|]. destruct (indirect_of _ _) as [[? [?|]]|]; try done.
  destruct (resolve_js_specifier_path _ _ _); [by intros [= <-]|done].
Qed.

Lemma cut_short_sub n seen seen1 v : seen ⊆ seen1 → cut_short n seen1 v → cut_short n seen v.
Proof.
  intros Hsub [?|(l & ? & ? & Hl)]; [by left|right]. exists l. split; [done|split; [done|]].
  intros u Hu. destruct (Hl u Hu). split; [done|set_solver].
Qed.

(** One source answered [r1], possibly nothing, and the loop went on with [fd]. *)
Lemma stars_answer_step n name g nexts found fd seen seen1 seen' r :
  seen ⊆ seen1 → (g, name) ∈ seen1 → (∀ rr, answers rr ∨ rr = Missing → (∀ t, fd = Some t → rr = t) → settled rr seen seen1) →
  (found = None ∨ found = fd) → (∀ t, fd = Some t → found = Some t ∨ leads_to (g, name) t) →
  stars_answer n name nexts fd seen1 seen' r → stars_answer n name (g :: nexts) found seen seen' r.
Proof.
  intros Hsub Hg Hset Hff Hlead [Hsub' Hr]. split; [by etrans|].
  assert (∀ rr, rr = Missing ∨ answers rr →
    (∀ t, fd = Some t → rr = t) ∧ (∀ g, g ∈ nexts → (g, name) ∈ seen') ∧ settled rr seen1 seen'
       ∧ (rr ≠ Missing → fd = Some rr ∨ ∃ g, g ∈ nexts ∧ leads_to (g, name) rr) →
    (∀ t, found = Some t → rr = t) ∧ (∀ g', g' ∈ g :: nexts → (g', name) ∈ seen') ∧ settled rr seen seen'
       ∧ (rr ≠ Missing → found = Some rr ∨ ∃ g', g' ∈ g :: nexts ∧ leads_to (g', name) rr)) as Hdone.
  { intros rr Hrr (H1 & H2 & H3 & H4). split; [|split; [|split]].
    - intros t Ht. apply H1. destruct Hff; congruence.
    - intros g' [->|Hg']%elem_of_cons; [by apply Hsub'|by apply H2].
    - intros u Hu Hns. destruct (decide (u ∈ seen1)) as [H1'|H1']; [|by apply H3].
      apply (settled_weaken rr seen seen1 seen'); [done|apply Hset; tauto|done|done].
    - intros Hm. destruct (H4 Hm) as [Hf|(g' & Hg' & Hl)]; [|right; exists g'; split; [by right|done]].
      destruct (Hlead _ Hf) as [|Hl]; [by left|right; exists g; split; [by left|done]]. }
  destruct r as [b l|b| | |]; try (by apply Hdone; [right|]); [by apply Hdone; [left|]|..].
  - destruct Hr as (r1 & r2 & g' & Hne & Hg' & Hl & Hor). exists r1, r2, g'.
    split; [done|split; [by right|split; [done|]]].
    destruct Hor as [Hf|(g2 & Hg2 & Hl2)]; [|right; exists g2; split; [by right|done]].
    destruct (Hlead _ Hf) as [|Hl1]; [by left|right; exists g; split; [by left|done]].
  - destruct Hr as (g' & Hg' & Hc). exists g'. split; [by right|]. by eapply cut_short_sub.
Qed.

(** The loop over the [export *] sources of a name. *)
Lemma ask_stars_ok n name nexts found seen r seen' :
  (∀ g seen r seen', g ∈ nexts → walk_ref n (g, name) seen = (r, seen') → answer_ok n seen seen' (g, name) r) →
  (∀ t, found = Some t → answers t) →
  ask_stars (λ g, walk_ref n (g, name)) nexts found seen = (r, seen') →
  stars_answer n name nexts found seen seen' r
  ∨ (r = Ambiguous ∧ seen ⊆ seen' ∧ ∃ g r1 r2, g ∈ nexts ∧ r1 ≠ r2 ∧ leads_to (g, name) r1 ∧ leads_to (g, name) r2).
Proof.
  intros IH. revert found seen; induction nexts as [|g nexts IHl]; intros found seen Hfound; cbn [ask_stars].
  { intros [= <- <-]. left. split; [done|]. assert (settled (default Missing found) seen seen) as Hs by (by intros u ??).
    destruct found as [t|]; cbn; [specialize (Hfound t eq_refl); destruct t; try done|].
    all: split; [by intros ? [=]|split; [intros g Hg; by apply elem_of_nil in Hg|split; [done|by left]]]. }
  destruct (walk_ref n (g, name) seen) as [r1 seen1] eqn:Hw.
  destruct (IH g seen r1 seen1 ltac:(by left) Hw) as [Hsub Hr1].
  assert (∀ fd, (∀ t, fd = Some t → answers t) → (found = None ∨ found = fd) →
          (∀ t, fd = Some t → found = Some t ∨ leads_to (g, name) t) → (g, name) ∈ seen1 →
          (∀ rr, answers rr ∨ rr = Missing → (∀ t, fd = Some t → rr = t) → settled rr seen seen1) →
          ask_stars (λ g, walk_ref n (g, name)) nexts fd seen1 = (r, seen') → 
          stars_answer n name (g :: nexts) found seen seen' r
          ∨ (r = Ambiguous ∧ seen ⊆ seen'
             ∧ ∃ g', ∃ r1 r2, g' ∈ g :: nexts ∧ r1 ≠ r2 ∧ leads_to (g', name) r1 ∧ leads_to (g', name) r2)) as Hgo.
  { intros fd Hfd Hff Hlead Hgs Hset Heq. apply IHl in Heq as [Hst|(-> & Hsub' & g' & ? & ? & ? & ?)]; [| |by intros; eapply IH; [right|]|done].
    - left. by eapply stars_answer_step.
    - right. split; [done|split; [by etrans|]]. eexists g', _, _. split; [by right|done]. }
  assert (∀ t, answers t → r1 = t →
    match found with
    | Some f => if bool_decide (f = t) then ask_stars (λ g, walk_ref n (g, name)) nexts found seen1 else (Ambiguous, seen1)
    | None => ask_stars (λ g, walk_ref n (g, name)) nexts (Some t) seen1
    end = (r, seen') → 
    stars_answer n name (g :: nexts) found seen seen' r
          ∨ (r = Ambiguous ∧ seen ⊆ seen'
             ∧ ∃ g', ∃ r1 r2, g' ∈ g :: nexts ∧ r1 ≠ r2 ∧ leads_to (g', name) r1 ∧ leads_to (g', name) r2)) as Hans.
  { intros t Ht -> Heq. assert ((g, name) ∈ seen1 ∧ settled t seen seen1 ∧ leads_to (g, name) t) as (Hg & Hset & Hl).
    { destruct t; try done; destruct Hr1 as (? & ? & Hl); (split; [done|split; [done|by apply Hl]]). }
    destruct found as [f|].
    - case_bool_decide as Hft; [subst f|].
      + apply (Hgo (Some t)) in Heq; [exact Heq|done|by right|by left|done|].
        intros rr _ Hrr. by rewrite (Hrr t).
      + injection Heq as <- <-. left. split; [done|]. exists f, t, g. split; [done|split; [by left|split; [done|by left]]].
    - apply (Hgo (Some t)) in Heq; [exact Heq|by intros ? [= <-]|by left|intros ? [= <-]; by right|done|].
      intros rr _ Hrr. by rewrite (Hrr t). }
  destruct r1 as [b l|b| | |]; cbn in Hr1.
  - by apply Hans.
  - by apply Hans.
  - apply Hgo; [done|by right|by left|apply Hr1|]. intros rr _ _ u Hu Hns.
    destruct Hr1 as (_ & Hset & _). destruct (Hset u Hu Hns) as [Ho Ha]. split; [|done]. intros t Ht.
    specialize (Ho t Ht). subst t. by apply own_answers in Ht.
  - intros [= <- <-]. right. split; [done|split; [done|]]. destruct Hr1 as (r1 & r2 & ?). exists g, r1, r2. split; [by left|done].
  - intros [= <- <-]. left. split; [done|]. exists g. split; [by left|done].
Qed.

Lemma settled_add r v seen seen' : 
  (∀ t, own v = Some t → r = t) → (∀ w, w ∈ asks v → w ∈ seen') → settled r ({[v]} ∪ seen) seen' → settled r seen seen'.
Proof.
  intros Ho Ha Hs u Hu Hns. destruct (decide (u = v)) as [->|Hne]; [by split|].
  apply Hs; [done|]. set_solver.
Qed.

(** One step: an export that asks only [w]. *)
Lemma answer_ok_ask n v w seen seen' r :
  v ∉ seen → own v = None → asks v = [w] → answer_ok n ({[v]} ∪ seen) seen' w r → answer_ok (S n) seen seen' v r.
Proof.
  intros Hv Ho Ha [Hsub Hr]. split; [set_solver|]. assert (w ∈ asks v) as Hw by (rewrite Ha; by left).
  assert (w ∈ seen' ∧ settled r ({[v]} ∪ seen) seen' ∧ (r ≠ Missing → leads_to w r) →
          v ∈ seen' ∧ settled r seen seen' ∧ (r ≠ Missing → leads_to v r)) as Hdone.
  { intros (H1 & H2 & H3). split; [set_solver|split].
    - eapply settled_add; [by rewrite Ho|rewrite Ha; by intros x ->%list_elem_of_singleton|done].
    - intros Hm. by eapply reach_leads, H3. }
  destruct r; try by apply Hdone.
  - destruct Hr as (r1 & r2 & Hne & H1 & H2). exists r1, r2. split; [done|]. by split; eapply reach_leads.
  - by eapply cut_short_step.
Qed.

(** An export that asks nothing. *)
Lemma answer_ok_own n v seen r :
  asks v = [] → (∀ t, own v = Some t → r = t) → r = Missing ∨ own v = Some r → answer_ok n seen ({[v]} ∪ seen) v r.
Proof.
  intros Ha Ho Hr. split; [set_solver|].
  assert (v ∈ {[v]} ∪ seen ∧ settled r seen ({[v]} ∪ seen) ∧ (r ≠ Missing → leads_to v r)) as Hdone.
  { split; [set_solver|split].
    - apply (settled_add r v); [done|rewrite Ha; intros w Hw; by apply elem_of_nil in Hw|by intros u ??].
    - intros Hm. destruct Hr; [done|]. exists v. by split; [apply rtc_refl|]. }
  destruct r; try exact Hdone; destruct Hr as [?|Hr]; try done; by apply own_answers in Hr.
Qed.

Lemma walk_ref_ok n v seen r seen' : walk_ref n v seen = (r, seen') → answer_ok n seen seen' v r.
Proof.
  revert v seen r seen'. induction n as [|n IH]; intros v seen r seen'; cbn [walk_ref].
  { intros [= <- <-]. split; [done|]. right. exists []. split; [apply NoDup_nil_2|split; [done|]]. intros u Hu. by apply elem_of_nil in Hu. }
  case_bool_decide as Hin.
  { intros [= <- <-]. split; [done|]. split; [done|split; [by intros u ??|done]]. }
  destruct (local_of (read v.1) v.2) as [local|] eqn:Hl.
  { intros [= <- <-]. apply answer_ok_own; [by unfold asks; rewrite Hl|unfold own; rewrite Hl; by intros t [= <-]|].
    right. unfold own. by rewrite Hl. }
  destruct (indirect_of (read v.1) v.2) as [[spec import]|] eqn:Hi.
  - destruct (resolve_js_specifier_path paths spec v.1) as [next|] eqn:Hp.
    + destruct import as [import|].
      * intros Hw%IH. eapply answer_ok_ask; [done| | |done]; [unfold own|unfold asks]; by rewrite Hl, Hi, ?Hp.
      * intros [= <- <-]. apply answer_ok_own; [unfold asks|unfold own|right; unfold own]; rewrite Hl, Hi, Hp; [done| |done].
        by intros t [= <-].
    + intros [= <- <-]. split; [set_solver|]. left. exists v. split; [apply rtc_refl|]. split; [done|]. by exists spec, import.
  - destruct (String.eqb v.2 "default") eqn:Hd.
    { intros [= <- <-]. apply answer_ok_own; [unfold asks; by rewrite Hl, Hi, Hd|unfold own; by rewrite Hl, Hi|by left]. }
    intros Hw. assert (own v = None) as Ho by (unfold own; by rewrite Hl, Hi).
    assert (asks v = (λ g, (g, v.2)) <$> star_files paths (read v.1) v.1) as Ha by (unfold asks; by rewrite Hl, Hi, Hd).
    assert (∀ g, g ∈ star_files paths (read v.1) v.1 → (g, v.2) ∈ asks v) as Hask.
    { intros g Hg. rewrite Ha. by apply (list_elem_of_fmap_2 (λ g, (g, v.2))). }
    apply ask_stars_ok in Hw as [[Hsub Hr]|(-> & Hsub & g & r1 & r2 & Hg & Hne & H1 & H2)];
      [| |intros; by apply IH|done].
    + split; [set_solver|].
      assert (∀ t, (∀ g, g ∈ star_files paths (read v.1) v.1 → (g, v.2) ∈ seen') ∧ settled t ({[v]} ∪ seen) seen'
                ∧ (t ≠ Missing → None = Some t ∨ ∃ g, g ∈ star_files paths (read v.1) v.1 ∧ leads_to (g, v.2) t) →
              v ∈ seen' ∧ settled t seen seen' ∧ (t ≠ Missing → leads_to v t)) as Hdone.
      { intros t (H2 & H3 & H4). split; [set_solver|split].
        - eapply settled_add; [by rewrite Ho| |done]. rewrite Ha. intros w (g & -> & Hg)%list_elem_of_fmap. by apply H2.
        - intros Hm. destruct (H4 Hm) as [?|(g & Hg & Hl')]; [done|]. by eapply reach_leads; [apply Hask|]. }
      destruct r; try (apply Hdone, Hr).
      * destruct Hr as (r1 & r2 & g & Hne & Hg & H1 & [?|(g' & Hg' & H2)]); [done|]. exists r1, r2.
        split; [done|]. split; [apply (reach_leads v (g', v.2))|apply (reach_leads v (g, v.2))]; by try apply Hask.
      * destruct Hr as (g & Hg & Hc). by eapply cut_short_step; [apply Hask| |].
    + split; [set_solver|]. exists r1, r2. split; [done|]. by split; apply (reach_leads v (g, v.2)); try apply Hask.
Qed.

Lemma settled_all r seen v : settled r ∅ seen → v ∈ seen → ∀ t, leads_to v t → r = t.
Proof.
  intros Hs Hv t (u & Hu & Ho). induction Hu as [u|u w x Hw _ IH].
  - by apply (Hs u Hv); [set_solver|].
  - apply IH; [|done]. by apply (Hs u Hv); [set_solver|].
Qed.
End Reference.

(** ** What [resolve] answers *)

(** ECMAScript's resolution, read off the graph of exports: an answer is the only one an export leads to. *)
Definition resolves (read : string → FileExports) (paths : gset string) (v : string * string) (r : JsResolution) : Prop :=
  match r with
  | Missing => ∀ t, ~ leads_to read paths v t
  | Ambiguous => ∃ r1 r2, r1 ≠ r2 ∧ leads_to read paths v r1 ∧ leads_to read paths v r2
  | Unknown => cut_short read paths (S MAX_JS_REEXPORT_DEPTH) ∅ v
  | _ => ∀ t, leads_to read paths v t ↔ t = r
  end.

Lemma resolve_ref_ok read paths v : resolves read paths v (resolve_ref read paths v).1.
Proof.
  unfold resolve_ref. destruct (walk_ref read paths (S MAX_JS_REEXPORT_DEPTH) v ∅) as [r seen] eqn:Hw.
  apply walk_ref_ok in Hw as [_ Hr]. cbn [fst].
  assert (v ∈ seen ∧ settled read paths r ∅ seen ∧ (r ≠ Missing → leads_to read paths v r) → r ≠ Missing →
          ∀ t, leads_to read paths v t ↔ t = r) as Hdone.
  { intros (H1 & H2 & H3) Hm t. split; [intros Ht; symmetry; by eapply settled_all|intros ->; by apply H3]. }
  destruct r; cbn; try (by apply Hdone); [|done..]. destruct Hr as (H1 & H2 & _). intros t Ht.
  pose proof (settled_all _ _ _ _ _ H2 H1 t Ht) as <-. destruct Ht as (u & _ & Hu). by apply own_answers in Hu.
Qed.

Fixpoint resolve_all (read : string → FileExports) (paths : gset string) (l : list (string * string)) (s : JsExports)
    : list JsResolution * JsExports :=
  match l with
  | [] => ([], s)
  | v :: l => let '(r, s) := resolve read paths v.1 v.2 s in
              let '(rs, s) := resolve_all read paths l s in (r :: rs, s)
  end.

(** C35: The walk over re-exports is ECMAScript's resolution, whatever was asked before: asked for any list of
    exports on one walker, each answer is [Missing] when no binding or namespace can be reached, a binding or a
    namespace when it is the only one that can, [Ambiguous] when two different ones can, and [Unknown] only when a
    specifier on the way answers to no file or the walk can reach more exports than its depth allows. The caches of
    the walker change none of them. *)
Theorem js_resolve_ok read paths l : 
  Forall2 (resolves read paths) l (resolve_all read paths l no_walk).1.
Proof.
  assert (caches_ok read paths no_walk) as Hs by (by split; intros ??; cbn; rewrite lookup_empty).
  revert Hs. generalize no_walk. induction l as [|[f n] l IH]; intros s Hs; cbn; [constructor|].
  destruct (resolve_cached read paths f n s Hs) as [Hr Hs']. destruct (resolve read paths f n s) as [r s']. cbn in *.
  specialize (IH s' Hs'). destruct (resolve_all read paths l s') as [rs s'']. cbn in *. constructor; [|done].
  rewrite Hr. apply resolve_ref_ok.
Qed.
