(* ===== verification/JsFanOut.v ===== *)
(** * The fan-out of re-exports ([indexer/pipeline/js_exports.rs])

    Which importers outside an incremental run would bind an import differently
    on a rebuild: the snapshot of what the run's files exported, the drift of
    each, and the walk of each import over what the run left. *)

From S2P Require Import Prelude Str Domain Tables Store Queries Paths JsModules Resolve JsExports.

#[local] Abbreviation Asked := (gset (string * string)).

(** The temporary tables of a run. *)
Record Snapshot := mkSnapshot {
  sn_paths : gmap string bool;                              (* path, existed *)
  sn_entries : list (string * JsExportRow);
  sn_published : list (string * string * option string);
  sn_nodes : list (string * string);
}.

Definition shape_names (f : FileExports) : list string :=
  omap (λ e, match e with JsLocal export _ | JsIndirect export _ _ => Some export | JsStar _ => None end) (fx_entries f)
  ++ ((λ p, p.1.1) <$> fx_published f).

Record Shape := mkShape {
  sh_own : gmap string (string * bool);
  sh_indirect : gmap string (option string * option string);
  sh_stars : list string;
}.

Definition shape_of (f : FileExports) (nodes : gset string) (file : string) (paths : gset string) : Shape :=
  mkShape
    (list_to_map (omap (λ n, (λ l, (n, (l, bool_decide (l ∈ nodes)))) <$> local_of f n) (shape_names f)))
    (list_to_map (omap (λ n, (λ i, (n, (resolve_js_specifier_path paths i.1 file, i.2))) <$> indirect_of f n)
                    (shape_names f)))
    (star_files paths f file).

Record Drift := mkDrift { dr_names : gset string; dr_stars : bool }.

Definition moved_keys {A} `{EqDecision A} (b a : gmap string A) : gset string :=
  filter (λ n, b !! n ≠ a !! n) (dom b ∪ dom a).

Definition drift_of (b a : Shape) : Drift :=
  mkDrift (moved_keys (sh_own b) (sh_own a) ∪ moved_keys (sh_indirect b) (sh_indirect a))
    (negb (bool_decide (sh_stars b = sh_stars a))).

Section FanOut.
Context (json_extract : option string → string → option string).

Definition file_paths (st : Store) : gset string := list_to_set (file_path_of <$> s_files st).

Definition node_names (st : Store) (file : string) : gset string :=
  list_to_set ((λ nf, node_name_of nf.1) <$> filter (λ nf, file_path_of nf.2 = file) (node_files st)).

Definition snapshot_js_reexports (st : Store) (paths : list string) : Snapshot :=
  let js := filter (λ p, is_js_module_path p = true) paths in
  let table := list_to_map ((λ p, (p, bool_decide (p ∈ file_paths st))) <$> js) in
  let run := (map_to_list table).*1 in
  mkSnapshot table
    (p ← run; pair p <$> js_export_rows st p)
    (p ← run; (λ r, (p, node_name_of r.1, r.2)) <$> js_export_map json_extract st p)
    (p ← run; pair p <$> elements (node_names st p)).

(** The loops that read the tables back. *)
Definition before_exports (sn : Snapshot) (path : string) : FileExports :=
  mkExports
    (entries_of (snd <$> filter (λ r, r.1 = path)
       (sort_cmp (cmp_then (cmp_by fst String.compare) (cmp_by (λ r, je_ord r.2) Z.compare)) (sn_entries sn))))
    ((λ r, published_row r.1.2 r.2) <$> filter (λ r, r.1.1 = path) (sn_published sn))
    [].
Definition nodes_before (sn : Snapshot) (path : string) : gset string :=
  list_to_set (snd <$> filter (λ r, r.1 = path) (sn_nodes sn)).

(** The paths the run started from. *)
Definition before_paths (sn : Snapshot) (now_paths : gset string) : gset string :=
  foldl (λ ps pe, if (pe.2 : bool) then {[pe.1]} ∪ ps else ps ∖ {[pe.1]}) now_paths (map_to_list (sn_paths sn)).

Section Run.
Context (st : Store) (sn : Snapshot).
#[local] Abbreviation now_paths := (file_paths st).
#[local] Abbreviation was_paths := (before_paths sn now_paths).
#[local] Abbreviation read := (load json_extract st).

(** One file of the run: its drift, and whether it gained a name. *)
Definition file_drift (path : string) : Drift * bool :=
  let nodes_now := node_names st path in
  (drift_of (shape_of (before_exports sn path) (nodes_before sn path) path was_paths)
     (shape_of (read path) nodes_now path now_paths),
   negb (bool_decide (nodes_now ⊆ nodes_before sn path))).

Definition has_drift (d : Drift) : bool := dr_stars d || negb (bool_decide (dr_names d = ∅)).

Definition run_files : list string := filter (λ p, p ∈ now_paths) (map_to_list (sn_paths sn)).*1.
Definition drifts : gmap string Drift :=
  list_to_map (omap (λ p, let d := (file_drift p).1 in if has_drift d then Some (p, d) else None) run_files).
Definition gained : bool := existsb (λ p, (file_drift p).2) run_files.

(** [(importer, specifier, imported name, target's file, target's name)] *)
#[local] Abbreviation ImportRow := (string * string * string * option string * string)%type.

Definition import_rows : list ImportRow :=
  remove_dups
    (e ← filter (λ e, e_relation e = REL_IMPORTS ∧ json_extract (e_metadata e) "$.q" = None) (ee_edge <$> s_edges st);
     match json_extract (e_metadata e) "$.js_module" with
     | None => []
     | Some spec =>
         s ← node_rows st (e_source_id e); f ← file_rows st (node_file_of s); t ← node_rows st (e_target_id e);
         tf ← match file_rows st (node_file_of t) with [] => [None] | l => Some <$> l end;
         let name := node_name_of t in
         [(file_path_of f, spec, default name (json_extract (e_metadata e) ("$." +:+ JS_IMPORT_NAME_KEY)),
           file_path_of <$> tf, name)]
     end).

Record FanOut := mkFanOut {
  fo_walker : JsExports;
  fo_visited : gmap (string * string) Asked;
  fo_out : gset string;
}.

Definition asks_moved (s : JsExports) (gm : string * string) : bool :=
  match drifts !! gm.1 with
  | Some d => bool_decide (gm.2 ∈ dr_names d)
              || (dr_stars d && negb (String.eqb gm.2 "default") && negb (answers_without_stars s gm.1 gm.2))
  | None => false
  end.

Definition pull (importer : string) (f : FanOut) : FanOut :=
  mkFanOut (fo_walker f) (fo_visited f) ({[importer]} ∪ fo_out f).

(** The resolve set of an import, walked once. *)
Definition visit (key : string * string) (f : FanOut) : Asked * FanOut :=
  match fo_visited f !! key with
  | Some seen => (seen, f)
  | None =>
      let '(_, seen, w) := resolve_visiting read now_paths key.1 key.2 (fo_walker f) in
      (seen, mkFanOut w (<[key := seen]> (fo_visited f)) (fo_out f))
  end.

Definition check_row (f : FanOut) (row : ImportRow) : FanOut :=
  let '(importer, spec, name, target_file, target_name) := row in
  if String.eqb name "<module>" || bool_decide (is_Some (sn_paths sn !! importer)) || bool_decide (importer ∈ fo_out f)
  then f
  else
    let now := resolve_js_specifier_path now_paths spec importer in
    if negb (bool_decide (now = resolve_js_specifier_path was_paths spec importer)) then pull importer f
    else match now with
         | None => f
         | Some file =>
             if bool_decide (target_file = Some file) && String.eqb target_name name then f
             else if bool_decide (file ∈ run_files) && bool_decide (name ∈ node_names st file) then pull importer f
             else if bool_decide (drifts = ∅) then f
             else
               let '(seen, f) := visit (file, name) f in
               if existsb (asks_moved (fo_walker f)) (elements seen) then pull importer f else f
         end.

(** The walker has loaded the run's files when the rows are read. *)
Definition start_walker : JsExports := foldl (λ s p, (load_file read p s).2) no_walk run_files.

Definition nothing_moved : bool :=
  bool_decide (drifts = ∅) && negb gained
  && forallb (λ pe, Bool.eqb pe.2 (bool_decide (pe.1 ∈ now_paths))) (map_to_list (sn_paths sn)).

Definition importers_of_drift : gset string :=
  if bool_decide (sn_paths sn = ∅) then ∅
  else if nothing_moved then ∅
  else fo_out (foldl check_row (mkFanOut start_walker ∅ ∅) import_rows).
End Run.

(** [BTreeSet]'s order; [requeued] is what [requeued_walk_import] recorded. *)
Definition importers_of_js_reexport_drift (requeued : option (gset string)) (sn : option Snapshot) (st : Store)
    : list string :=
  sort_cmp String.compare
    (elements (default ∅ requeued ∪ match sn with Some sn => importers_of_drift st sn | None => ∅ end)).

Definition requeued_walk_import (importer : string) (requeued : option (gset string)) : option (gset string) :=
  Some ({[importer]} ∪ default ∅ requeued).

Definition export_entry_dependents (st : Store) (files delete_paths : list string) : list string :=
  let js (l : list string) := filter (λ p, is_js_module_path p = true) l in
  let appearing := filter (λ p, p ∉ file_paths st) (js files) in
  let vanishing := js delete_paths in
  if bool_decide (appearing = []) && bool_decide (vanishing = []) then []
  else
    let after_paths := (file_paths st ∪ list_to_set appearing) ∖ list_to_set vanishing in
    sort_cmp String.compare (elements (list_to_set (C := gset string)
      (x ← s_js_exports st;
       match je_spec x with
       | None => []
       | Some spec =>
           m ← node_rows st (je_module_id x);
           f ← file_rows st (node_file_of m);
           if bool_decide (file_path_of f ∈ files ++ delete_paths)
              || bool_decide (resolve_js_specifier_path (file_paths st) spec (file_path_of f)
                              = resolve_js_specifier_path after_paths spec (file_path_of f))
           then [] else [file_path_of f]
       end))).
End FanOut.

(** * Properties *)

#[local] Opaque MAX_JS_REEXPORT_DEPTH.

(** ** The tables of a run *)

Lemma lookup_list_to_map_omap `{Countable K} {A} (g : K → option A) (l : list K) k :
  (list_to_map (omap (λ n, pair n <$> g n) l) : gmap K A) !! k = if bool_decide (k ∈ l) then g k else None.
Proof.
  induction l as [|n l IH].
  { rewrite bool_decide_false by (by intros ?%elem_of_nil). apply lookup_empty. }
  cbn [omap list_omap].
  destruct (g n) as [a|] eqn:Hg; cbn [fmap option_fmap option_map list_to_map foldr uncurry].
  - destruct (decide (n = k)) as [->|Hne].
    + rewrite bool_decide_true by (by left). by rewrite lookup_insert_eq.
    + rewrite lookup_insert_ne by done. rewrite IH. by rewrite (bool_decide_ext _ (k ∈ n :: l)) by set_solver.
  - rewrite IH. destruct (decide (n = k)) as [->|Hne].
    + rewrite Hg. by repeat case_bool_decide.
    + by rewrite (bool_decide_ext _ (k ∈ n :: l)) by set_solver.
Qed.

Lemma omap_fmap_pair {A B} (g : A → B) (l : list A) : (λ n, (n, g n)) <$> l = omap (λ n, pair n <$> Some (g n)) l.
Proof. induction l as [|n l IH]; [done|]. cbn. f_equal. Qed.

Lemma filter_bind_pair {A K} `{EqDecision K} (rows : K → list A) (run : list K) p :
  NoDup run → filter (λ r, r.1 = p) (q ← run; pair q <$> rows q) = if bool_decide (p ∈ run) then pair p <$> rows p else [].
Proof.
  induction 1 as [|q run Hq Hn IH]; [done|]. cbn [mbind list_bind]. rewrite filter_app.
  assert (filter (λ r, r.1 = p) (pair q <$> rows q) = if decide (q = p) then pair q <$> rows q else []) as ->.
  { induction (rows q) as [|x l IHl]; [by destruct (decide _)|]. cbn [fmap list_fmap]. rewrite filter_cons. cbn [fst].
    rewrite IHl. by destruct (decide (q = p)). }
  etrans; [apply (f_equal (app _) IH)|]. destruct (decide (q = p)) as [->|Hne].
  - rewrite (bool_decide_false _ Hq), app_nil_r. by rewrite bool_decide_true by (by left).
  - by rewrite (bool_decide_ext _ (p ∈ q :: run)) by set_solver.
Qed.

Section Snapshot.
Context (json_extract : option string → string → option string) (st : Store) (run : list string).
#[local] Abbreviation sn := (snapshot_js_reexports json_extract st run).
#[local] Abbreviation js := (filter (λ p, is_js_module_path p = true) run).

Lemma sn_paths_lookup p : sn_paths sn !! p = if bool_decide (p ∈ js) then Some (bool_decide (p ∈ file_paths st)) else None.
Proof. cbn [sn_paths snapshot_js_reexports]. by rewrite omap_fmap_pair, lookup_list_to_map_omap. Qed.

Lemma sn_keys p : p ∈ (map_to_list (sn_paths sn)).*1 ↔ p ∈ js.
Proof.
  rewrite list_elem_of_fmap. split.
  - intros ([q b] & -> & Hq%elem_of_map_to_list). rewrite sn_paths_lookup in Hq. cbn. by case_bool_decide.
  - intros Hp. exists (p, bool_decide (p ∈ file_paths st)). split; [done|].
    apply elem_of_map_to_list. rewrite sn_paths_lookup. by rewrite bool_decide_true.
Qed.

Lemma before_paths_lookup now p :
  p ∈ before_paths sn now ↔ if bool_decide (p ∈ js) then p ∈ file_paths st else p ∈ now.
Proof.
  assert (p ∈ before_paths sn now ↔ match sn_paths sn !! p with Some b => b = true | None => p ∈ now end) as ->.
  { unfold before_paths. generalize (sn_paths sn). intros m. 
    assert (∀ b, (p, b) ∈ map_to_list m ↔ m !! p = Some b) as Hm by (intros b; apply elem_of_map_to_list).
    pose proof (NoDup_fst_map_to_list m) as Hnd. revert now. generalize (m !! p), Hm. clear Hm. intros o Hm.
    revert o Hm Hnd. induction (map_to_list m) as [|[q b] l IH]; intros o Hm Hnd now; cbn [foldl fst snd].
    - destruct o as [b|]; [|done]. assert ((p, b) ∈ @nil (string * bool)) as Hn by (by apply Hm). by apply elem_of_nil in Hn.
    - cbn in Hnd. apply NoDup_cons in Hnd as [Hq Hnd].
      destruct (decide (q = p)) as [->|Hne].
      + assert (o = Some b) as -> by (apply Hm; by left). rewrite (IH None); [| |done].
        * destruct b; [|set_solver]. split; [done|set_solver].
        * intros b'. split; [|done]. intros Hin. contradict Hq. apply list_elem_of_fmap. by exists (p, b').
      + rewrite (IH o); [|intros b'; rewrite <-Hm; rewrite elem_of_cons; naive_solver|done].
        destruct o; [done|]. destruct b; set_solver. }
  rewrite sn_paths_lookup. case_bool_decide; [|done]. by rewrite bool_decide_eq_true.
Qed.

Lemma sn_run_NoDup : NoDup (map_to_list (sn_paths sn)).*1.
Proof. apply NoDup_fst_map_to_list. Qed.

Lemma before_exports_load p : p ∈ js →
  fx_entries (before_exports sn p) = fx_entries (load json_extract st p)
  ∧ fx_published (before_exports sn p) = fx_published (load json_extract st p).
Proof.
  intros Hp. unfold before_exports, load. cbn [fx_entries fx_published]. split; f_equal.
  - unfold sort_cmp at 1. rewrite filter_sort_by by first [apply cmp_leb_total; apply _|apply cmp_leb_trans; apply _].
    cbn [sn_entries snapshot_js_reexports]. rewrite filter_bind_pair by apply sn_run_NoDup.
    rewrite bool_decide_true by by apply sn_keys. rewrite sort_by_id.
    + by rewrite <-list_fmap_compose, list_fmap_id.
    + assert (StronglySorted (λ x y, cmp_leb (cmp_by je_ord Z.compare) x y = true) (js_export_rows st p)) as Hs.
      { unfold js_export_rows. apply sort_cmp_sorted. apply _. }
      induction Hs as [|x l Hs IH Hx]; [constructor|]. cbn. constructor; [done|]. apply Forall_fmap.
      eapply Forall_impl; [exact Hx|]. intros y. unfold cmp_leb, cmp_then, cmp_by. cbn.
      by rewrite (cmp_refl String.compare).
  - cbn [sn_published snapshot_js_reexports].
    assert (filter (λ r : string * string * option string, r.1.1 = p)
              (q ← (map_to_list (sn_paths sn)).*1; (λ r, (q, node_name_of r.1, r.2)) <$> js_export_map json_extract st q)
            = (λ r, (p, node_name_of r.1, r.2)) <$> js_export_map json_extract st p) as Heq; [|].
    { pose proof (filter_bind_pair (λ q, js_export_map json_extract st q) _ p sn_run_NoDup) as Hf.
      rewrite bool_decide_true in Hf by by apply sn_keys. 
      apply (f_equal (fmap (λ r : string * (NodeResult * option string), (r.1, node_name_of r.2.1, r.2.2)))) in Hf.
      rewrite <-list_fmap_compose in Hf. etrans; [|etrans; [exact Hf|done]]. clear Hf.
      induction (map_to_list (sn_paths sn)).*1 as [|q l IH]; [done|]. cbn [mbind list_bind].
      rewrite !filter_app, fmap_app. f_equal; [|exact IH].
      induction (js_export_map json_extract st q) as [|x l' IHl]; [done|]. cbn [fmap list_fmap].
      rewrite !filter_cons. cbn [fst]. destruct (decide _); [cbn; by f_equal|exact IHl]. }
    cbn [sn_paths snapshot_js_reexports] in Heq. rewrite Heq, <-list_fmap_compose. done.
Qed.

Lemma nodes_before_names p : p ∈ js → nodes_before sn p = node_names st p.
Proof.
  intros Hp. unfold nodes_before. cbn [sn_nodes snapshot_js_reexports].
  rewrite filter_bind_pair by apply sn_run_NoDup. rewrite bool_decide_true by by apply sn_keys.
  apply set_eq. intros x. rewrite elem_of_list_to_set, <-list_fmap_compose. cbn.
  rewrite list_fmap_id. apply elem_of_elements.
Qed.
End Snapshot.

(** ** Walks that ask nothing that moved *)

Lemma resolve_js_specifier_in paths spec importer f :
  resolve_js_specifier_path paths spec importer = Some f → f ∈ paths.
Proof.
  rewrite resolve_js_specifier_find. destruct (js_relative spec) as [s|]; [|done]. cbn [mbind option_bind].
  destruct (normalize_rel_path _) as [base|]; [|done]. cbn [mbind option_bind].
  intros [_ Hf]%find_some. by apply bool_decide_eq_true in Hf.
Qed.

(** One export asked of a file under two readings. *)
Record same_answer (f0 f1 : FileExports) (p0 p1 : gset string) (g m : string) : Prop := {
  same_local : local_of f0 m = local_of f1 m;
  same_indirect : (λ i, (resolve_js_specifier_path p0 i.1 g, i.2)) <$> indirect_of f0 m
                  = (λ i, (resolve_js_specifier_path p1 i.1 g, i.2)) <$> indirect_of f1 m;
  same_stars : local_of f1 m = None → indirect_of f1 m = None → m ≠ "default" → star_files p0 f0 g = star_files p1 f1 g;
}.

Lemma ask_stars_mono (ask : string → Asked → JsResolution * Asked) nexts found seen :
  (∀ g s, s ⊆ (ask g s).2) → seen ⊆ (ask_stars ask nexts found seen).2.
Proof.
  intros Hask. revert found seen. induction nexts as [|g nexts IH]; intros found seen; cbn; [done|].
  specialize (Hask g seen). destruct (ask g seen) as [r s]. cbn in Hask.
  destruct r; try done; try (by etrans); destruct found; try case_bool_decide; try done; by etrans.
Qed.

Lemma ask_stars_lockstep (ask0 ask1 : string → Asked → JsResolution * Asked) (Q : string * string → Prop) nexts found seen :
  (∀ g s, s ⊆ (ask1 g s).2) →
  (∀ g s, g ∈ nexts → (∀ u, u ∈ (ask1 g s).2 → Q u) → ask0 g s = ask1 g s) →
  (∀ u, u ∈ (ask_stars ask1 nexts found seen).2 → Q u) →
  ask_stars ask0 nexts found seen = ask_stars ask1 nexts found seen.
Proof.
  intros Hm. revert found seen. induction nexts as [|g nexts IH]; intros found seen Hask HQ; cbn in *; [done|].
  assert ((ask1 g seen).2 ⊆ (ask_stars ask1 (g :: nexts) found seen).2) as Hsub.
  { cbn. destruct (ask1 g seen) as [r s]. destruct r; try done; try (by apply ask_stars_mono);
      destruct found; try case_bool_decide; try done; by apply ask_stars_mono. }
  cbn in Hsub. rewrite Hask; [|by left|by intros u Hu%Hsub; apply HQ].
  destruct (ask1 g seen) as [r s]. 
  destruct r; try done; try (destruct found; try case_bool_decide; try done);
    (apply IH; [intros; apply Hask; [by right|done]|done]).
Qed.

Lemma walk_ref_mono read paths n v seen : seen ⊆ (walk_ref read paths n v seen).2.
Proof. destruct (walk_ref read paths n v seen) eqn:Hw. by apply walk_ref_ok in Hw as [? _]. Qed.

Section Lockstep.
Context (read0 read1 : string → FileExports) (paths0 paths1 : gset string).
#[local] Abbreviation same v := (v.1 ∈ paths1 → same_answer (read0 v.1) (read1 v.1) paths0 paths1 v.1 v.2).

Lemma walk_lockstep n v seen :
  v.1 ∈ paths1 → (∀ u, u ∈ (walk_ref read1 paths1 n v seen).2 → same u) →
  walk_ref read0 paths0 n v seen = walk_ref read1 paths1 n v seen.
Proof.
  revert v seen. induction n as [|n IH]; intros v seen Hv Hs; cbn [walk_ref]; [done|].
  case_bool_decide as Hin; [done|]. 
  assert (v ∈ (walk_ref read1 paths1 (S n) v seen).2) as Hself.
  { destruct (walk_ref read1 paths1 (S n) v seen) as [r s] eqn:Hw. cbn [walk_ref] in Hw. rewrite (bool_decide_false _ Hin) in Hw.
    assert ({[v]} ∪ seen ⊆ s) as Hsub; [|set_solver]. change s with (r, s).2. rewrite <-Hw.
    destruct (local_of _ _); [done|]. destruct (indirect_of _ _) as [[spec [import|]]|].
    - destruct (resolve_js_specifier_path _ _ _); [apply walk_ref_mono|done].
    - by destruct (resolve_js_specifier_path _ _ _).
    - destruct (String.eqb _ _); [done|]. apply ask_stars_mono. intros. apply walk_ref_mono. }
  pose proof (Hs v Hself Hv) as [Hl Hi Hst]. cbn [walk_ref] in Hs. rewrite (bool_decide_false _ Hin) in Hs. clear Hself.
  rewrite Hl. destruct (local_of (read1 v.1) v.2) as [l|]; [done|].
  destruct (indirect_of (read1 v.1) v.2) as [[spec import]|]; cbn [fmap option_fmap option_map] in Hi.
  - apply fmap_Some in Hi as ([spec0 import0] & -> & [= Hp Hi]). cbn in Hp, Hi. subst import0. rewrite <-Hp.
    destruct (resolve_js_specifier_path paths1 spec v.1) as [next|] eqn:Hn; [|done]. destruct import as [import|]; [|done].
    apply IH; [by eapply resolve_js_specifier_in|done].
  - apply fmap_None in Hi. rewrite Hi. destruct (String.eqb_spec v.2 "default") as [|Hd]; [done|].
    rewrite Hst by done. eapply (ask_stars_lockstep _ _ (λ u, same u)); [intros; apply walk_ref_mono| |exact Hs].
    intros g s Hg HQ. apply IH; [|done]. cbn. unfold star_files in Hg. apply list_elem_of_omap in Hg as (spec & _ & Hg).
    by eapply resolve_js_specifier_in.
Qed.
End Lockstep.

(** ** Shapes and drift *)

Lemma find_map_Some {A B} (f : A → option B) l b : find_map f l = Some b → ∃ x, x ∈ l ∧ f x = Some b.
Proof.
  unfold find_map. intros H%head_Some_elem_of. by apply list_elem_of_omap in H.
Qed.

Lemma local_of_names f n l : local_of f n = Some l → n ∈ shape_names f.
Proof.
  assert (∀ keyed b, find_map (published_as keyed n) (fx_published f) = Some b → n ∈ shape_names f) as Hpub.
  { intros keyed b ([[pub node] k] & Hin & Hp)%find_map_Some. cbn in Hp.
    destruct (Bool.eqb k keyed && String.eqb pub n) eqn:E; [|done]. apply andb_true_iff in E as [_ <-%String.eqb_eq].
    unfold shape_names. apply elem_of_app. right. apply list_elem_of_fmap. by exists (pub, node, k). }
  unfold local_of. destruct (find_map (local_entry n) _) as [b|] eqn:Hl.
  - intros _. apply find_map_Some in Hl as (e & He & Hb). destruct e as [x t| |]; cbn in Hb; try done.
    destruct (String.eqb_spec x n) as [<-|]; [|done]. apply elem_of_app. left. apply list_elem_of_omap. by eexists (JsLocal x t).
  - destruct (find_map (published_as true n) _) eqn:Hp; [by intros _; eapply Hpub|].
    destruct (only_default f n); [done|]. by apply Hpub.
Qed.

Lemma indirect_of_names f n i : indirect_of f n = Some i → n ∈ shape_names f.
Proof.
  unfold indirect_of. intros (e & He & Hb)%find_map_Some. destruct e as [|x s t|]; cbn in Hb; try done.
  destruct (String.eqb_spec x n) as [<-|]; [|done]. apply elem_of_app. left. apply list_elem_of_omap. by eexists (JsIndirect x s t).
Qed.

Lemma omap_ext_pair {A K B} (g : K → option A) (h : A → B) (l : list K) :
  omap (λ n, (λ x, (n, h x)) <$> g n) l = omap (λ n, pair n <$> (h <$> g n)) l.
Proof. induction l as [|n l IH]; [done|]. cbn. destruct (g n); cbn; by rewrite <-IH. Qed.

Lemma sh_own_lookup f nodes file paths n :
  sh_own (shape_of f nodes file paths) !! n = (λ l, (l, bool_decide (l ∈ nodes))) <$> local_of f n.
Proof.
  cbn [sh_own shape_of]. rewrite omap_ext_pair, lookup_list_to_map_omap. case_bool_decide as Hn; [done|].
  destruct (local_of f n) eqn:Hl; [|done]. by apply local_of_names in Hl.
Qed.

Lemma sh_indirect_lookup f nodes file paths n :
  sh_indirect (shape_of f nodes file paths) !! n
  = (λ i, (resolve_js_specifier_path paths i.1 file, i.2)) <$> indirect_of f n.
Proof.
  cbn [sh_indirect shape_of]. rewrite omap_ext_pair, lookup_list_to_map_omap. case_bool_decide as Hn; [done|].
  destruct (indirect_of f n) eqn:Hl; [|done]. by apply indirect_of_names in Hl.
Qed.

Lemma not_moved_keys {A} `{EqDecision A} (b a : gmap string A) n : n ∉ moved_keys b a → b !! n = a !! n.
Proof.
  unfold moved_keys. rewrite elem_of_filter, elem_of_union, !elem_of_dom. intros Hn.
  destruct (decide (b !! n = a !! n)) as [|Hne]; [done|]. destruct Hn. split; [done|].
  destruct (b !! n); [by left|]. right. by destruct (a !! n).
Qed.

(** Exports that did not move answer the same. *)
Lemma drift_same f0 f1 nodes0 nodes1 p0 p1 g m :
  let d := drift_of (shape_of f0 nodes0 g p0) (shape_of f1 nodes1 g p1) in
  m ∉ dr_names d → (dr_stars d = true → m = "default" ∨ local_of f1 m ≠ None ∨ indirect_of f1 m ≠ None) →
  same_answer f0 f1 p0 p1 g m ∧ ∀ l, local_of f1 m = Some l → (l ∈ nodes0 ↔ l ∈ nodes1).
Proof.
  cbn [dr_names dr_stars drift_of]. rewrite not_elem_of_union. intros [Ho%not_moved_keys Hi%not_moved_keys] Hst.
  rewrite !sh_own_lookup in Ho. rewrite !sh_indirect_lookup in Hi. split; [split|].
  - destruct (local_of f0 m), (local_of f1 m); cbn in Ho; congruence.
  - done.
  - intros H1 H2 H3. cbn [sh_stars shape_of] in Hst. case_bool_decide; [done|]. by destruct (Hst eq_refl) as [?|[?|?]].
  - intros l Hl. rewrite Hl in Ho. destruct (local_of f0 m); [|done]. cbn in Ho. injection Ho as -> Hb.
    by rewrite <-(bool_decide_eq_true (l ∈ nodes0)), Hb, bool_decide_eq_true.
Qed.

Lemma has_drift_names d m : m ∈ dr_names d → has_drift d = true.
Proof.
  intros Hm. unfold has_drift. apply orb_true_iff. right. apply negb_true_iff, bool_decide_eq_false.
  intros He. rewrite He in Hm. by apply not_elem_of_empty in Hm.
Qed.

(** The snapshot keeps of a file what a walk reads, and no spans. *)
Lemma same_exports_views f f' :
  fx_entries f = fx_entries f' → fx_published f = fx_published f' →
  (∀ m, local_of f m = local_of f' m) ∧ (∀ m, indirect_of f m = indirect_of f' m)
  ∧ (∀ paths g, star_files paths f g = star_files paths f' g).
Proof.
  intros He Hp. split; [|split].
  - intros m. unfold local_of, only_default. by rewrite He, Hp.
  - intros m. unfold indirect_of. by rewrite He.
  - intros paths g. unfold star_files, star_specs. by rewrite He.
Qed.

(** ** The fan-out's fold *)

Section Fold.
Context (json_extract : option string → string → option string) (st : Store) (sn : Snapshot).
#[local] Abbreviation now_paths := (file_paths st).
#[local] Abbreviation was_paths := (before_paths sn now_paths).
#[local] Abbreviation read := (load json_extract st).
#[local] Abbreviation drifts := (drifts json_extract st sn).

(** The walk asks a name that moved. *)
Definition moved (v : string * string) : Prop :=
  ∃ d, drifts !! v.1 = Some d
       ∧ (v.2 ∈ dr_names d
          ∨ dr_stars d = true ∧ v.2 ≠ "default" ∧ local_of (read v.1) v.2 = None ∧ indirect_of (read v.1) v.2 = None).

Lemma asks_moved_ok s v :
  caches_ok read now_paths s → is_Some (by_file s !! v.1) → asks_moved json_extract st sn s v = true ↔ moved v.
Proof.
  intros Hs [f Hf]. apply (ok_files _ _ _ Hs) in Hf as Hr. subst f. unfold asks_moved, moved, answers_without_stars. rewrite Hf.
  destruct (drifts !! v.1) as [d|]; [|naive_solver].
  rewrite orb_true_iff, !andb_true_iff, !negb_true_iff, orb_false_iff, !bool_decide_eq_true, !bool_decide_eq_false, String.eqb_neq.
  rewrite <-!eq_None_not_Some. naive_solver.
Qed.

Record fan_ok (f : FanOut) : Prop := {
  fan_caches : caches_ok read now_paths (fo_walker f);
  fan_seen key seen : fo_visited f !! key = Some seen →
    seen = (resolve_ref read now_paths key).2 ∧ ∀ v, v ∈ seen → is_Some (by_file (fo_walker f) !! v.1);
}.

Lemma visit_ok key f : fan_ok f →
  let r := visit json_extract st key f in
  r.1 = (resolve_ref read now_paths key).2 ∧ fan_ok r.2 ∧ fo_out r.2 = fo_out f
  ∧ ∀ v, v ∈ r.1 → is_Some (by_file (fo_walker r.2) !! v.1).
Proof.
  intros Hf. unfold visit. destruct (fo_visited f !! key) as [seen|] eqn:Hv.
  { apply (fan_seen f Hf) in Hv as [? ?]. by split_and!. }
  unfold resolve_visiting.
  destruct (walk_cached read now_paths (S MAX_JS_REEXPORT_DEPTH) key ∅ (fo_walker f) (fan_caches f Hf)) as (Hr & Hok & Hg1 & Hg2).
  destruct (walk read now_paths (S MAX_JS_REEXPORT_DEPTH) key.1 key.2 ∅ (fo_walker f)) as [[r seen] w]. cbn [fst snd] in *.
  assert (seen = (resolve_ref read now_paths key).2) as Hseen by (unfold resolve_ref; by rewrite <-Hr).
  assert (∀ v, v ∈ seen → is_Some (by_file w !! v.1)) as Hin.
  { intros v Hin. destruct (Hg2 v Hin) as [Hn|]; [set_solver|done]. }
  split; [done|]. split; [|done]. split; [done|]. cbn. intros k sk. rewrite lookup_insert_Some.
  intros [[<- <-]|[_ Hk]]; [done|]. apply (fan_seen f Hf) in Hk as [? Hk]. split; [done|]. intros v Hvk. by apply Hg1, Hk.
Qed.

(** What a row means that pulls nobody. *)
Definition kept (row : string * string * string * option string * string) : Prop :=
  let '(importer, spec, name, target_file, target_name) := row in
  name ≠ "<module>" → sn_paths sn !! importer = None →
  resolve_js_specifier_path now_paths spec importer = resolve_js_specifier_path was_paths spec importer
  ∧ ∀ file, resolve_js_specifier_path now_paths spec importer = Some file →
      target_file = Some file ∧ target_name = name
      ∨ ~ (file ∈ run_files st sn ∧ name ∈ node_names st file)
        ∧ ∀ v, v ∈ (resolve_ref read now_paths (file, name)).2 → ~ moved v.

Lemma check_row_ok f row : fan_ok f →
  let f' := check_row json_extract st sn f row in
  fan_ok f' ∧ fo_out f ⊆ fo_out f' ∧ (row.1.1.1.1 ∉ fo_out f' → kept row).
Proof.
  destruct row as [[[[importer spec] name] tf] tn]. intros Hf. cbn [fst check_row kept].
  assert (fan_ok (pull importer f) ∧ fo_out f ⊆ fo_out (pull importer f) ∧ importer ∈ fo_out (pull importer f)) as Hpull.
  { split; [|cbn; set_solver]. by destruct Hf. }
  destruct (String.eqb_spec name "<module>") as [->|Hm]; cbn [orb]; [by split_and!|].
  case_bool_decide as Hr; cbn [orb]; [split_and!; [done..|]; intros _ _ Hn; by destruct Hr as [? ?]; congruence|].
  case_bool_decide as Ho; cbn [orb]; [by split_and!|].
  destruct (bool_decide (_ = _)) eqn:Heq; cbn [negb]; [|naive_solver]. apply bool_decide_eq_true in Heq.
  destruct (resolve_js_specifier_path now_paths spec importer) as [file|]; [|by split_and!].
  destruct (bool_decide (tf = Some file) && String.eqb tn name) eqn:Ht.
  { apply andb_true_iff in Ht as [->%bool_decide_eq_true ->%String.eqb_eq]. split_and!; [done..|]. intros _ _ _.
    split; [done|]. intros ? [= <-]. by left. }
  destruct (bool_decide (file ∈ run_files st sn) && bool_decide (name ∈ node_names st file)) eqn:Hd; [naive_solver|].
  assert (~ (file ∈ run_files st sn ∧ name ∈ node_names st file)) as Hnd.
  { apply andb_false_iff in Hd. rewrite !bool_decide_eq_false in Hd. tauto. }
  clear Hd Ht. case_bool_decide as Hdr.
  { split_and!; [done..|]. intros _ _ _. split; [done|]. intros ? [= <-]. right. split; [done|].
    intros v _ (d & Hl & _). by rewrite Hdr, lookup_empty in Hl. }
  destruct (visit_ok (file, name) f Hf) as (Hseen & Hf' & Hout & Hin).
  destruct (visit json_extract st (file, name) f) as [seen f']. cbn [fst snd] in *.
  destruct (existsb _ _) eqn:Hex.
  - split; [by destruct Hf'|]. cbn. rewrite Hout. split; [set_solver|]. intros Hn. exfalso. apply Hn. set_solver.
  - split; [done|]. rewrite Hout. split; [done|]. intros _ _ _. split; [done|]. intros ? [= <-]. right. split; [done|].
    intros v Hv Hmv. rewrite <-Hseen in Hv. 
    apply (asks_moved_ok (fo_walker f')) in Hmv; [|apply Hf'|by apply Hin].
    assert (existsb (asks_moved json_extract st sn (fo_walker f')) (elements seen) = true) as Ht'; [|congruence].
    apply existsb_exists. exists v. split; [|done]. by apply list_elem_of_In, elem_of_elements.
Qed.

Lemma check_rows_ok rows f : fan_ok f →
  let f' := foldl (check_row json_extract st sn) f rows in
  fo_out f ⊆ fo_out f' ∧ ∀ row, row ∈ rows → row.1.1.1.1 ∉ fo_out f' → kept row.
Proof.
  revert f. induction rows as [|row rows IH]; intros f Hf; cbn [foldl].
  { split; [done|]. intros row Hr. by apply elem_of_nil in Hr. }
  destruct (check_row_ok f row Hf) as (Hf' & Hsub & Hk). destruct (IH _ Hf') as [Hsub' Hk']. split; [by etrans|].
  intros r [->|Hr]%elem_of_cons Hn; [|by apply Hk']. apply Hk. by intros ?%Hsub'.
Qed.

Lemma start_walker_ok : fan_ok (mkFanOut (start_walker json_extract st sn) ∅ ∅).
Proof.
  split; cbn; [|intros ??; by rewrite lookup_empty]. unfold start_walker.
  assert (caches_ok read now_paths no_walk) as Hs by (by split; intros ??; cbn; rewrite lookup_empty).
  revert Hs. generalize no_walk. induction (run_files st sn) as [|p l IH]; intros s Hs; cbn [foldl]; [done|].
  apply IH. by apply load_file_ok.
Qed.
End Fold.

Lemma bool_decide_ext_inv (P Q : Prop) `{Decision P, Decision Q} : bool_decide P = bool_decide Q → (P ↔ Q).
Proof. intros Hb. by rewrite <-(bool_decide_eq_true P), Hb, bool_decide_eq_true. Qed.

(** ** Nothing is missed *)

(** The specifiers a walk resolves at a file. *)
Definition entry_spec (e : JsExportEntry) : option string :=
  match e with JsIndirect _ spec _ | JsStar spec => Some spec | JsLocal _ _ => None end.

(** The paths a relative specifier may name: the exact one, then those with an extension added. *)
Definition specifier_candidates (specifier importer : string) : list string :=
  match js_relative specifier ≫= λ s, normalize_rel_path (join_importer importer s) with
  | Some base => js_candidates base
  | None => []
  end.

Lemma specifier_candidates_ext p0 p1 spec importer :
  (∀ c, c ∈ specifier_candidates spec importer → c ∈ p0 ↔ c ∈ p1) →
  resolve_js_specifier_path p0 spec importer = resolve_js_specifier_path p1 spec importer.
Proof.
  rewrite !resolve_js_specifier_find. unfold specifier_candidates. destruct (js_relative spec) as [s|]; [|done].
  cbn [mbind option_bind]. destruct (normalize_rel_path _) as [base|]; [|done]. cbn [mbind option_bind].
  generalize (js_candidates base). intros l H. induction l as [|c l IH]; [done|]. cbn [find]. unfold indexed in *.
  rewrite (bool_decide_ext (c ∈ p0) (c ∈ p1)) by (apply H; by left). case_bool_decide; [done|]. apply IH. intros x Hx. apply H. by right.
Qed.

Definition js_only (l : list string) : list string := filter (λ p, is_js_module_path p = true) l.

(** The answers of a file depend on the paths by its specifiers alone. *)
Lemma indirect_paths f p0 p1 g m :
  (∀ e spec, e ∈ fx_entries f → entry_spec e = Some spec → resolve_js_specifier_path p0 spec g = resolve_js_specifier_path p1 spec g) →
  (λ i, (resolve_js_specifier_path p0 i.1 g, i.2)) <$> indirect_of f m
  = (λ i, (resolve_js_specifier_path p1 i.1 g, i.2)) <$> indirect_of f m.
Proof.
  intros Hk. destruct (indirect_of f m) as [[spec import]|] eqn:Hf; [|done]. cbn. do 2 f_equal.
  unfold indirect_of in Hf. apply find_map_Some in Hf as (e & Hin & Heq). apply (Hk e); [done|].
  destruct e; cbn in Heq; try done. destruct (String.eqb _ _); [|done]. by injection Heq as -> ->.
Qed.

Lemma star_paths f p0 p1 g :
  (∀ e spec, e ∈ fx_entries f → entry_spec e = Some spec → resolve_js_specifier_path p0 spec g = resolve_js_specifier_path p1 spec g) →
  star_files p0 f g = star_files p1 f g.
Proof.
  unfold star_files, star_specs. generalize (fx_entries f). intros l. induction l as [|e l IH]; intros Hk; [done|].
  assert (∀ e spec, e ∈ l → entry_spec e = Some spec → resolve_js_specifier_path p0 spec g = resolve_js_specifier_path p1 spec g) as Hk'
    by (intros e' spec' Hin; apply Hk; by right).
  destruct e as [| |spec]; cbn; try (by apply IH). rewrite (Hk (JsStar spec) spec) by (by left || done).
  destruct (resolve_js_specifier_path p1 spec g); cbn; [f_equal|]; by apply IH.
Qed.

Section Run.
Context (json_extract : option string → string → option string) (st0 st : Store) (files extra delete_paths : list string).
#[local] Abbreviation run := (files ++ extra ++ delete_paths).
#[local] Abbreviation sn := (snapshot_js_reexports json_extract st0 run).
#[local] Abbreviation paths0 := (file_paths st0).
#[local] Abbreviation paths1 := (file_paths st).
#[local] Abbreviation read0 := (load json_extract st0).
#[local] Abbreviation read1 := (load json_extract st).

(** No file of another kind that the specifier may name ([./x.json]) comes or goes. *)
Definition steady (spec importer : string) : Prop :=
  ∀ c, c ∈ specifier_candidates spec importer → is_js_module_path c = false → c ∈ paths0 ↔ c ∈ paths1.

(** What a run over [files], [extra] and [delete_paths] leaves, files of any language among them: of the JS/TS files
    those of [files] are indexed and those of [delete_paths] are gone, [extra] holds the files
    [export_entry_dependents] names, and a file outside the run keeps its exports and the names of its nodes; only
    JS/TS files have export entries, and these name no other file that comes or goes. *)
Record run_left : Prop := {
  left_paths p : is_js_module_path p = true → p ∈ paths1 ↔ (p ∈ paths0 ∨ p ∈ files) ∧ p ∉ delete_paths;
  left_extra p : p ∈ extra → p ∈ paths0;
  left_dependents p : p ∈ export_entry_dependents st0 files delete_paths → p ∈ extra;
  left_kept g : g ∈ paths1 → g ∉ js_only run →
    fx_entries (read0 g) = fx_entries (read1 g) ∧ fx_published (read0 g) = fx_published (read1 g)
    ∧ node_names st0 g = node_names st g;
  left_js g : g ∈ paths1 → fx_entries (read1 g) ≠ [] → is_js_module_path g = true;
  left_steady g e spec : g ∈ paths1 → e ∈ fx_entries (read0 g) → entry_spec e = Some spec → steady spec g;
}.

Hypothesis Hrun : run_left.

(** The paths the comparison starts from: the JS/TS files before the run, the others after it. *)
Lemma was_paths_js p : is_js_module_path p = true → p ∈ before_paths sn paths1 ↔ p ∈ paths0.
Proof.
  intros Hjs. rewrite before_paths_lookup. case_bool_decide as Hp; [done|]. rewrite (left_paths Hrun p Hjs).
  rewrite list_elem_of_filter, !elem_of_app in Hp. tauto.
Qed.

Lemma was_paths_other p : is_js_module_path p = false → p ∈ before_paths sn paths1 ↔ p ∈ paths1.
Proof.
  intros Hjs. rewrite before_paths_lookup. case_bool_decide as Hp; [|done].
  apply list_elem_of_filter in Hp as [Hp _]. congruence.
Qed.

Lemma was_paths_ok spec importer : steady spec importer →
  resolve_js_specifier_path (before_paths sn paths1) spec importer = resolve_js_specifier_path paths0 spec importer.
Proof.
  intros Hst. apply specifier_candidates_ext. intros c Hc. destruct (is_js_module_path c) eqn:Hjs; [by apply was_paths_js|].
  rewrite was_paths_other by done. symmetry. by apply Hst.
Qed.

(** What [export_entry_dependents] compares with: the JS/TS files after the run, the others before it. *)
Lemma after_paths_ok spec importer : steady spec importer →
  resolve_js_specifier_path ((paths0 ∪ list_to_set (filter (λ p, p ∉ paths0) (js_only files))) ∖ list_to_set (js_only delete_paths)) spec importer
  = resolve_js_specifier_path paths1 spec importer.
Proof.
  intros Hst. apply specifier_candidates_ext. intros c Hc. rewrite elem_of_difference, elem_of_union, !elem_of_list_to_set.
  unfold js_only. rewrite !list_elem_of_filter. destruct (is_js_module_path c) eqn:Hjs.
  - rewrite (left_paths Hrun c Hjs). destruct (decide (c ∈ paths0)); tauto.
  - rewrite <-(Hst c Hc Hjs). naive_solver.
Qed.

Lemma elem_of_bind {A B} (f : A → list B) l b : b ∈ (x ← l; f x) ↔ ∃ x, x ∈ l ∧ b ∈ f x.
Proof. rewrite list_elem_of_bind. naive_solver. Qed.

(** An entry with a specifier comes from a row of the file's [<module>]. *)
Lemma entry_spec_row g e spec : e ∈ fx_entries (read0 g) → entry_spec e = Some spec →
  ∃ x m f, x ∈ s_js_exports st0 ∧ je_spec x = Some spec ∧ m ∈ node_rows st0 (je_module_id x)
           ∧ f ∈ file_rows st0 (node_file_of m) ∧ file_path_of f = g.
Proof.
  cbn [load fx_entries]. unfold entries_of. intros (x & Hx & He)%list_elem_of_omap Hs.
  unfold js_export_rows, sort_cmp in Hx. apply elem_of_sort_by, elem_of_bind in Hx as (m & Hm & [Hid Hx]%list_elem_of_filter).
  unfold module_nodes in Hm. apply list_elem_of_fmap in Hm as ([m' f] & -> & [[Hf _] Hn]%list_elem_of_filter).
  unfold node_files in Hn. apply elem_of_bind in Hn as (n & Hn & (f' & [= -> ->] & Hff)%list_elem_of_fmap).
  exists x, n, f'. split; [done|]. split; [|split; [by apply list_elem_of_filter|done]].
  unfold entry_of in He. destruct (String.eqb _ "local"); [|destruct (String.eqb _ "indirect"); [|destruct (String.eqb _ "star"); [|done]]].
  - destruct (je_name x), (je_target x); try done. by injection He as <-.
  - destruct (je_name x), (je_spec x); try done. injection He as <-. cbn in Hs. by injection Hs as ->.
  - destruct (je_spec x); [|done]. injection He as <-. cbn in Hs. by injection Hs as ->.
Qed.

(** Outside the run a specifier names the file it named. *)
Lemma kept_specifier g e spec : g ∈ paths1 → g ∉ js_only run → e ∈ fx_entries (read1 g) → entry_spec e = Some spec →
  resolve_js_specifier_path paths0 spec g = resolve_js_specifier_path paths1 spec g.
Proof.
  intros Hg Hgr He Hs. assert (is_js_module_path g = true) as Hjs.
  { apply (left_js Hrun g Hg). intros Hn. rewrite Hn in He. by apply elem_of_nil in He. }
  assert (g ∉ run) as Hgrun by (intros Hin; apply Hgr; by apply list_elem_of_filter).
  destruct (left_kept Hrun g Hg Hgr) as (Hk & _). rewrite <-Hk in He.
  destruct (entry_spec_row g e spec He Hs) as (x & m & f & Hx & Hxs & Hm & Hf & Hfg).
  destruct (decide (resolve_js_specifier_path paths0 spec g = resolve_js_specifier_path paths1 spec g)) as [|Hne]; [done|].
  assert (g ∈ export_entry_dependents st0 files delete_paths) as Hd; [|].
  2: { exfalso. apply Hgrun. apply elem_of_app. right. apply elem_of_app. left. by apply (left_dependents Hrun). }
  pose proof (left_steady Hrun g e spec Hg He Hs) as Hst. pose proof (after_paths_ok spec g Hst) as Hafter.
  unfold export_entry_dependents. fold (js_only files). fold (js_only delete_paths).
  destruct (bool_decide _ && bool_decide _) eqn:Hnil.
  { apply andb_true_iff in Hnil as [H1%bool_decide_eq_true H2%bool_decide_eq_true]. exfalso. apply Hne.
    rewrite <-Hafter, H1, H2. f_equal. set_solver. }
  unfold sort_cmp. apply elem_of_sort_by, elem_of_elements, elem_of_list_to_set.
  apply elem_of_bind. exists x. split; [done|]. rewrite Hxs. apply elem_of_bind. exists m. split; [done|].
  apply elem_of_bind. exists f. split; [done|]. rewrite Hfg.
  rewrite bool_decide_false by (rewrite elem_of_app; rewrite !elem_of_app in Hgrun; tauto).
  rewrite bool_decide_false by (by rewrite Hafter). by left.
Qed.

Lemma drifts_lookup g : g ∈ paths1 → g ∈ js_only run →
  drifts json_extract st sn !! g
  = let d := (file_drift json_extract st sn g).1 in if has_drift d then Some d else None.
Proof.
  intros Hg Hr. unfold drifts.
  assert (∀ l, omap (λ p, let d := (file_drift json_extract st sn p).1 in if has_drift d then Some (p, d) else None) l
               = omap (λ p, pair p <$> (let d := (file_drift json_extract st sn p).1 in if has_drift d then Some d else None)) l) as ->.
  { intros l. induction l as [|p l IH]; [done|]. cbn [omap list_omap]. cbn zeta in *.
    destruct (has_drift _); cbn [fmap option_fmap option_map]; [|exact IH]. apply (f_equal (cons _)), IH. }
  rewrite lookup_list_to_map_omap. rewrite bool_decide_true; [done|]. apply list_elem_of_filter. split; [done|]. by apply sn_keys.
Qed.

Lemma kept_same g m : g ∈ paths1 → g ∉ js_only run → same_answer (read0 g) (read1 g) paths0 paths1 g m.
Proof.
  intros Hg Hr. destruct (left_kept Hrun g Hg Hr) as (He & Hp & _).
  destruct (same_exports_views _ _ He Hp) as (Hl & Hi & Hst). split; [apply Hl| |intros _ _ _].
  - rewrite Hi. apply indirect_paths. intros. by eapply kept_specifier.
  - rewrite Hst. apply star_paths. intros. by eapply kept_specifier.
Qed.

Lemma not_moved_same v : v.1 ∈ paths1 → ~ moved json_extract st sn v →
  same_answer (read0 v.1) (read1 v.1) paths0 paths1 v.1 v.2
  ∧ ∀ l, local_of (read1 v.1) v.2 = Some l → (l ∈ node_names st0 v.1 ↔ l ∈ node_names st v.1).
Proof.
  destruct v as [g m]. cbn [fst snd]. intros Hg Hm. destruct (decide (g ∈ js_only run)) as [Hr|Hr].
  - assert (same_answer (before_exports sn g) (read1 g) (before_paths sn paths1) paths1 g m
            ∧ ∀ l, local_of (read1 g) m = Some l → (l ∈ nodes_before sn g ↔ l ∈ node_names st g)) as [Hs Hn].
    { unfold moved in Hm. cbn [fst snd] in Hm. rewrite drifts_lookup in Hm by done. cbn zeta in Hm.
      unfold file_drift in Hm. cbn zeta in Hm. cbn [fst] in Hm.
      set (d := drift_of _ _) in Hm. apply drift_same; fold d.
      - intros Hin. apply Hm. exists d. rewrite (has_drift_names d m) by done. split; [done|by left].
      - intros Hst. destruct (decide (m = "default")); [by left|right].
        destruct (local_of (read1 g) m) eqn:Hl; [by left|right]. destruct (indirect_of (read1 g) m) eqn:Hi; [done|].
        destruct Hm. exists d. unfold has_drift. rewrite Hst. split; [done|by right]. }
    rewrite nodes_before_names in Hn by done. split; [|done].
    destruct (before_exports_load json_extract st0 run g Hr) as [He Hp].
    destruct (same_exports_views _ _ He Hp) as (Hl & Hi & Hst). destruct Hs as [H1 H2 H3].
    split; [by rewrite <-Hl| |].
    + rewrite <-H2, <-Hi. apply indirect_paths. intros e spec He' Hs. symmetry. apply was_paths_ok.
      rewrite He in He'. by eapply (left_steady Hrun g e).
    + intros. rewrite <-H3 by done. rewrite <-Hst. apply star_paths. intros e spec He' Hs. symmetry. apply was_paths_ok.
      rewrite He in He'. by eapply (left_steady Hrun g e).
  - split; [by apply kept_same|]. destruct (left_kept Hrun g Hg Hr) as (_ & _ & Hn). intros l _. by rewrite Hn.
Qed.

Lemma reach_paths v u : v.1 ∈ paths1 → reach read1 paths1 v u → u.1 ∈ paths1.
Proof.
  intros Hv Hr. induction Hr as [|u w x Hw _ IH]; [done|]. apply IH. unfold asks in Hw.
  destruct (local_of _ _); [by apply elem_of_nil in Hw|]. destruct (indirect_of _ _) as [[spec import]|].
  - destruct (resolve_js_specifier_path paths1 spec u.1) eqn:Hp; [|by apply elem_of_nil in Hw].
    destruct import; [|by apply elem_of_nil in Hw]. apply list_elem_of_singleton in Hw as ->. by eapply resolve_js_specifier_in.
  - destruct (String.eqb _ _); [by apply elem_of_nil in Hw|]. apply list_elem_of_fmap in Hw as (g & -> & Hg).
    unfold star_files in Hg. apply list_elem_of_omap in Hg as (spec & _ & Hg). by eapply resolve_js_specifier_in.
Qed.

(** The walk asks nothing that moved: it answers as it did, and the binding names a node as it did. *)
Lemma still_answers v : v.1 ∈ paths1 → (∀ u, u ∈ (resolve_ref read1 paths1 v).2 → ~ moved json_extract st sn u) →
  (resolve_ref read0 paths0 v).1 = (resolve_ref read1 paths1 v).1
  ∧ ∀ g l, (resolve_ref read1 paths1 v).1 = Binding g l → (l ∈ node_names st0 g ↔ l ∈ node_names st g).
Proof.
  intros Hv Hm. split.
  - unfold resolve_ref in *. f_equal. apply walk_lockstep; [done|]. intros u Hu Hp. apply not_moved_same; [done|by apply Hm].
  - intros g l Hb. unfold resolve_ref in Hb, Hm.
    destruct (walk_ref read1 paths1 (S MAX_JS_REEXPORT_DEPTH) v ∅) as [r seen] eqn:Hw. cbn [fst snd] in Hb, Hm. subst r.
    apply walk_ref_ok in Hw as (_ & Hvs & Hset & Hlead). destruct (Hlead ltac:(done)) as (u & Hr & Ho).
    assert (u ∈ seen) as Hu.
    { clear Ho Hlead Hv. induction Hr as [|v w u Hvw _ IH]; [done|]. apply IH. apply (Hset v Hvs); [set_solver|done]. }
    apply reach_paths in Hr; [|done]. unfold own in Ho.
    destruct (local_of (read1 u.1) u.2) as [l'|] eqn:Hl.
    + injection Ho as <- ->. by apply (not_moved_same u Hr (Hm u Hu)).
    + destruct (indirect_of _ _) as [[? [?|]]|]; try done. by destruct (resolve_js_specifier_path _ _ _).
Qed.

Lemma run_empty v : sn_paths sn = ∅ → ~ moved json_extract st sn v.
Proof.
  intros He (d & Hd & _). unfold drifts, run_files in Hd. rewrite He in Hd. by rewrite map_to_list_empty in Hd.
Qed.

Lemma sn_paths_None p : sn_paths sn !! p = None ↔ p ∉ js_only run.
Proof. rewrite sn_paths_lookup. unfold js_only. by case_bool_decide. Qed.

(** The named file has not gained the name. *)
Lemma not_gained file name : file ∈ paths1 →
  gained json_extract st sn = false ∨ ~ (file ∈ run_files st sn ∧ name ∈ node_names st file) →
  name ∈ node_names st file → name ∈ node_names st0 file.
Proof.
  intros Hf Hg Hn. destruct (decide (file ∈ js_only run)) as [Hr|Hr].
  - assert (file ∈ run_files st sn) as Hin by (apply list_elem_of_filter; split; [done|by apply sn_keys]).
    destruct Hg as [Hg|Hg]; [|by destruct Hg]. unfold gained in Hg.
    destruct (decide (node_names st file ⊆ nodes_before sn file)) as [Hsub|Hsub].
    { rewrite nodes_before_names in Hsub by done. by apply Hsub. }
    assert (existsb (λ p, (file_drift json_extract st sn p).2) (run_files st sn) = true) as Ht; [|congruence].
    apply existsb_exists. exists file. split; [by apply list_elem_of_In|]. cbn. by apply negb_true_iff, bool_decide_eq_false.
  - by destruct (left_kept Hrun file Hf Hr) as (_ & _ & ->).
Qed.
End Run.

Lemma resolve_fresh read paths file name : (resolve read paths file name no_walk).1 = (resolve_ref read paths (file, name)).1.
Proof. apply resolve_cached. by split; intros ??; cbn; rewrite lookup_empty. Qed.

(** An export whose walk asks nothing that moved. *)
Lemma unmoved_answers json_extract st0 st files extra delete_paths :
  let sn := snapshot_js_reexports json_extract st0 (files ++ extra ++ delete_paths) in
  run_left json_extract st0 st files extra delete_paths →
  ∀ file name, file ∈ file_paths st →
    gained json_extract st sn = false ∨ ~ (file ∈ run_files st sn ∧ name ∈ node_names st file) →
    (∀ v, v ∈ (resolve_ref (load json_extract st) (file_paths st) (file, name)).2 → ~ moved json_extract st sn v) →
    (name ∈ node_names st file → name ∈ node_names st0 file)
    ∧ let now := (resolve (load json_extract st) (file_paths st) file name no_walk).1 in
      (resolve (load json_extract st0) (file_paths st0) file name no_walk).1 = now
      ∧ ∀ g l, now = Binding g l → (l ∈ node_names st0 g ↔ l ∈ node_names st g).
Proof.
  intros sn Hrun file name Hf Hg Hv. cbv zeta. rewrite !resolve_fresh.
  split; [by apply (not_gained json_extract st0 st files extra delete_paths Hrun)|].
  by apply (still_answers json_extract st0 st files extra delete_paths Hrun).
Qed.

(** No file of the run came or went: the comparison starts from the current files. *)
Lemma nothing_moved_paths json_extract st0 st files extra delete_paths :
  let sn := snapshot_js_reexports json_extract st0 (files ++ extra ++ delete_paths) in
  run_left json_extract st0 st files extra delete_paths →
  nothing_moved json_extract st sn = true → before_paths sn (file_paths st) = file_paths st.
Proof.
  intros sn Hrun Hno. unfold nothing_moved in Hno. apply andb_true_iff in Hno as [_ Hp].
  apply set_eq. intros p. unfold sn. rewrite before_paths_lookup. case_bool_decide as Hj; [|done].
  rewrite forallb_forall in Hp. specialize (Hp (p, bool_decide (p ∈ file_paths st0))). cbn [fst snd] in Hp.
  apply Bool.eqb_prop in Hp.
  - by apply (bool_decide_ext_inv _ _ Hp).
  - apply list_elem_of_In, elem_of_map_to_list. unfold sn. rewrite sn_paths_lookup. by rewrite bool_decide_true.
Qed.

(** A file of another kind that a specifier names is not looked at: [main.js] imports [f] from [./x.json], the run adds
    [x.json] with a node of that name, and the importer is not pulled. *)
Section JsonDemo.
#[local] Abbreviation node id file type name := (mkNodeResult (mkNode id file type name None 1 3 false) "" None None None None None None).
#[local] Abbreviation file id path lang := (mkFileEntry (mkFile id path (Some lang)) "h" 0 0).

Definition json_store (fs : list FileEntry) (ns : list NodeResult) : Store :=
  mkStore ([file 1 "b.js" "javascript"; file 2 "main.js" "javascript"] ++ fs)
    ([node 10 1 "module" "<module>"; node 11 1 "function" "f"; node 20 2 "module" "<module>"] ++ ns)
    [mkEdgeEntry 1 (mkEdge 20 11 REL_IMPORTS (Some "use") "extracted")] [] [] [] ∅.

Example json_target_unseen :
  let extract m p := if bool_decide (m = Some "use") && String.eqb p "$.js_module" then Some "./x.json" else None in
  let st0 := json_store [] [] in
  let st := json_store [file 3 "x.json" "json"] [node 30 3 "constant" "f"] in
  resolve_js_specifier_path (file_paths st0) "./x.json" "main.js" = None
  ∧ resolve_js_specifier_path (file_paths st) "./x.json" "main.js" = Some "x.json"
  ∧ import_rows extract st = [("main.js", "./x.json", "f", Some "b.js", "f")]
  ∧ importers_of_js_reexport_drift extract None (Some (snapshot_js_reexports extract st0 ["x.json"])) st = [].
Proof. by vm_compute. Qed.
End JsonDemo.

(** C36: Nothing is missed by the fan-out of an incremental run over files of any language. An import edge of a name
    (not of a module as a whole) whose file is outside the run and not pulled binds what a rebuild would bind: its
    specifier names the file it named, and either the edge already points into that file under the imported name, or
    the file has not gained a node of the name and the export resolves, over the files the run left, to what it resolved
    to before it (whether a node bears the name of the binding has not changed either). The run may add, change and
    delete any files, provided that no file other than JS/TS comes or goes that the import's specifier or an export
    entry's may name (the code does not look at those: [json_target_unseen]). The drift is read off the snapshot taken
    before the run, the walks and the caches are those of the pass; a run re-extracts the files whose export entries
    would name another file. *)
Theorem importers_of_drift_complete json_extract st0 st files extra delete_paths requeued
    importer spec name target_file target_name :
  let run := files ++ extra ++ delete_paths in
  let sn := snapshot_js_reexports json_extract st0 run in
  run_left json_extract st0 st files extra delete_paths →
  (importer, spec, name, target_file, target_name) ∈ import_rows json_extract st → steady st0 st spec importer →
  name ≠ "<module>" → importer ∉ js_only run →
  importer ∉ importers_of_js_reexport_drift json_extract requeued (Some sn) st →
  resolve_js_specifier_path (file_paths st) spec importer = resolve_js_specifier_path (file_paths st0) spec importer
  ∧ ∀ file, resolve_js_specifier_path (file_paths st) spec importer = Some file →
      target_file = Some file ∧ target_name = name
      ∨ (name ∈ node_names st file → name ∈ node_names st0 file)
        ∧ let now := (resolve (load json_extract st) (file_paths st) file name no_walk).1 in
          (resolve (load json_extract st0) (file_paths st0) file name no_walk).1 = now
          ∧ ∀ g l, now = Binding g l → (l ∈ node_names st0 g ↔ l ∈ node_names st g).
Proof.
  intros run sn Hrun Hrow Hst Hm Hi%(sn_paths_None json_extract st0) Hout.
  assert (importer ∉ importers_of_drift json_extract st sn) as Hn.
  { intros Hin. apply Hout. unfold importers_of_js_reexport_drift, sort_cmp. apply elem_of_sort_by, elem_of_elements. set_solver. }
  pose proof (was_paths_ok json_extract st0 st files extra delete_paths Hrun spec importer Hst) as Hwas. fold run sn in Hwas.
  unfold importers_of_drift in Hn. case_bool_decide as He.
  { pose proof (unmoved_answers json_extract st0 st files extra delete_paths Hrun) as Hdone. fold run sn in Hdone.
    split; [|intros file Hf; right; apply Hdone; [by eapply resolve_js_specifier_in| |]].
    - rewrite <-Hwas. unfold before_paths. by rewrite He, map_to_list_empty.
    - right. intros [Hin _]. unfold run_files in Hin. rewrite He, map_to_list_empty in Hin. by apply list_elem_of_filter in Hin as [_ ?%elem_of_nil].
    - intros v _. by apply (run_empty json_extract st0 st files extra delete_paths). }
  destruct (nothing_moved json_extract st sn) eqn:Hno.
  { pose proof (nothing_moved_paths json_extract st0 st files extra delete_paths Hrun Hno) as Heq. fold run sn in Heq.
    unfold nothing_moved in Hno. apply andb_true_iff in Hno as [[Hd%bool_decide_eq_true Hg%negb_true_iff]%andb_true_iff _].
    split; [by rewrite <-Hwas, Heq|]. intros file Hf. right.
    apply (unmoved_answers json_extract st0 st files extra delete_paths Hrun); [by eapply resolve_js_specifier_in|by left|].
    intros v _ (d & Hl & _). fold run sn in Hl. by rewrite Hd, lookup_empty in Hl. }
  destruct (check_rows_ok json_extract st sn (import_rows json_extract st) _ (start_walker_ok json_extract st sn)) as [_ Hk].
  destruct (Hk _ Hrow Hn Hm Hi) as [Hsame Hfile]. rewrite Hwas in Hsame. split; [done|].
  intros file Hf. destruct (Hfile file Hf) as [?|[Hg Hv]]; [by left|right].
  apply (unmoved_answers json_extract st0 st files extra delete_paths Hrun); [by eapply resolve_js_specifier_in|by right|done].
Qed.

(** [main.js] imports [f] from [a.js], which says [export * from './b']. The run re-extracts [b.js], which has gained
    a [g] before its [f], and [c.js] and [tool.py], which are new. *)
Section Demo.
#[local] Abbreviation node id file type name := (mkNodeResult (mkNode id file type name None 1 3 false) "" None None None None None None).
#[local] Abbreviation js_file id path := (mkFileEntry (mkFile id path (Some "javascript")) "h" 0 0).

Definition demo_before : Store :=
  mkStore [js_file 1 "a.js"; js_file 2 "b.js"; js_file 3 "main.js"]
    [node 10 1 "module" "<module>"; node 20 2 "module" "<module>"; node 21 2 "function" "f"; node 30 3 "module" "<module>"]
    [mkEdgeEntry 1 (mkEdge 30 21 REL_IMPORTS (Some "use") "extracted")] [] []
    [mkJsExport 10 0 "star" None None (Some "./b"); mkJsExport 20 0 "local" (Some "f") (Some "f") None] ∅.
Definition demo_after : Store :=
  mkStore [js_file 1 "a.js"; js_file 2 "b.js"; js_file 3 "main.js"; js_file 4 "c.js";
           mkFileEntry (mkFile 5 "tool.py" (Some "python")) "h" 0 0]
    [node 10 1 "module" "<module>"; node 30 3 "module" "<module>"; node 40 2 "module" "<module>";
     node 41 2 "function" "g"; node 42 2 "function" "f"; node 50 4 "module" "<module>"]
    [mkEdgeEntry 1 (mkEdge 30 42 REL_IMPORTS (Some "use") "extracted")] [] []
    [mkJsExport 10 0 "star" None None (Some "./b"); mkJsExport 40 0 "local" (Some "g") (Some "g") None;
     mkJsExport 40 1 "local" (Some "f") (Some "f") None] ∅.
Definition demo_extract (meta : option string) (path : string) : option string :=
  if bool_decide (meta = Some "use") && String.eqb path "$.js_module" then Some "./a" else None.
End Demo.

Lemma steady_check st0 st spec importer :
  forallb (λ c, is_js_module_path c || Bool.eqb (bool_decide (c ∈ file_paths st0)) (bool_decide (c ∈ file_paths st)))
    (specifier_candidates spec importer) = true → steady st0 st spec importer.
Proof.
  intros Hc c Hin Hjs. rewrite forallb_forall in Hc. apply list_elem_of_In, Hc in Hin. rewrite Hjs in Hin.
  by apply Bool.eqb_prop, bool_decide_ext_inv in Hin.
Qed.

Lemma demo_run_left : run_left demo_extract demo_before demo_after ["b.js"; "c.js"; "tool.py"] [] [].
Proof.
  assert (∀ g, g ∈ file_paths demo_after → g ∈ ["a.js"; "b.js"; "main.js"; "c.js"; "tool.py"]) as Hfiles.
  { intros g Hg. by apply elem_of_list_to_set in Hg. }
  split.
  - intros p _. unfold file_paths. rewrite !elem_of_list_to_set. cbn. set_solver.
  - by intros p ?%elem_of_nil.
  - assert (export_entry_dependents demo_before ["b.js"; "c.js"; "tool.py"] [] = []) as -> by (by vm_compute). done.
  - intros g Hg%Hfiles Hr.
    repeat (apply elem_of_cons in Hg as [->|Hg]); [| | | | |by apply elem_of_nil in Hg];
      first [exfalso; apply Hr; apply (bool_decide_unpack _); by vm_compute|split_and!; by vm_compute].
  - intros g Hg%Hfiles Hne.
    repeat (apply elem_of_cons in Hg as [->|Hg]); [by vm_compute..|exfalso; by apply Hne; vm_compute|by apply elem_of_nil in Hg].
  - intros g e spec Hg%Hfiles.
    repeat (apply elem_of_cons in Hg as [->|Hg]); [..|by apply elem_of_nil in Hg];
      match goal with |- e ∈ ?l → ?P => let l' := eval vm_compute in l in change (e ∈ l' → P) end;
      rewrite ?elem_of_cons, elem_of_nil; intros He Hs; destruct_or? He; try done; subst e; cbn in Hs; simplify_eq; by apply steady_check.
Qed.

Lemma demo_steady : steady demo_before demo_after "./a" "main.js".
Proof. by apply steady_check. Qed.

Lemma demo_row : ("main.js", "./a", "f", Some "b.js", "f") ∈ import_rows demo_extract demo_after.
Proof. apply (bool_decide_unpack _). by vm_compute. Qed.

Lemma demo_not_pulled :
  "main.js" ∉ js_only (["b.js"; "c.js"; "tool.py"] ++ [] ++ [])
  ∧ "main.js" ∉ importers_of_js_reexport_drift demo_extract None
      (Some (snapshot_js_reexports demo_extract demo_before (["b.js"; "c.js"; "tool.py"] ++ [] ++ []))) demo_after.
Proof. split; apply (bool_decide_unpack _); by vm_compute. Qed.

Lemma demo_now : (resolve (load demo_extract demo_after) (file_paths demo_after) "a.js" "f" no_walk).1 = Binding "b.js" "f".
Proof. by vm_compute. Qed.

Lemma demo_specifier : resolve_js_specifier_path (file_paths demo_after) "./a" "main.js" = Some "a.js".
Proof. by vm_compute. Qed.

Lemma importers_of_drift_complete_witness :
  (resolve (load demo_extract demo_before) (file_paths demo_before) "a.js" "f" no_walk).1 = Binding "b.js" "f".
Proof.
  pose proof (importers_of_drift_complete demo_extract demo_before demo_after ["b.js"; "c.js"; "tool.py"] [] [] None
    "main.js" "./a" "f" (Some "b.js") "f" demo_run_left demo_row demo_steady ltac:(discriminate) (proj1 demo_not_pulled)
    (proj2 demo_not_pulled)) as [_ H].
  destruct (H "a.js" demo_specifier) as [[Ht _]|[_ [Hr _]]]; [discriminate|].
  exact (eq_trans Hr demo_now).
Defined.
