(* ===== verification/RustUse.v ===== *)
(** * Rust paths ([indexer/pipeline/resolve.rs])

    Where a Rust file sits in its crate, which files a [use] path or a path call
    names, and which candidates of a call such a path reaches. *)

From S2P Require Import Prelude Str Utf8 Tokens Sql Domain Tables Store Queries Resolve.

(** ** The project's crates *)

Inductive RootSide := Lib | Main | Either.

Inductive RootMods := Known (lib main : gset string) | Opaque.

Record RustCrates := mkCrates {
  rc_names : gset string;
  rc_src_dirs : gmap string string;
  rc_root_mods : gmap string RootMods;
  rc_opaque : bool;
  rc_renames : list (string * string);
}.

Definition crates_contain (cs : RustCrates) (name : string) : bool := bool_decide (name ∈ rc_names cs).
Definition src_dir (cs : RustCrates) (name : string) : option string := rc_src_dirs cs !! name.

(** The first segment of a path, without [.rs] *)
Definition top_module (rel : string) : string :=
  let top := default rel (head (split_on ch_slash rel)) in default top (strip_suffix ".rs" top).

Definition side_of (cs : RustCrates) (dir path : string) : RootSide :=
  match strip_prefix dir path with
  | None => Either
  | Some rel =>
      if String.eqb rel "lib.rs" then Lib
      else if String.eqb rel "main.rs" then Main
      else match rc_root_mods cs !! dir with
           | Some (Known lib main) =>
               match bool_decide (top_module rel ∈ lib), bool_decide (top_module rel ∈ main) with
               | true, false => Lib
               | false, true => Main
               | _, _ => Either
               end
           | _ => Either
           end
  end.

(** ** The layout of a crate *)

Definition str_take (n : nat) (s : string) : string := String.substring 0 n s.
Definition str_drop (n : nat) (s : string) : string := String.substring n (String.length s - n) s.

(** The offset of the last [src/] directory. *)
Definition src_at (path : string) : option nat :=
  if starts_with "src/" path then Some 0 else S <$> rfind "/src/" path.

Definition root_files (dir : string) : list string := [dir +:+ "lib.rs"; dir +:+ "main.rs"].

(** The segments of a file's module: none for a root, the directory for a [mod.rs]. *)
Definition module_of_rel (rel : string) : list string :=
  let module := split_on ch_slash rel in
  if one_of ["lib"; "main"] rel then []
  else if bool_decide (last module = Some "mod") then removelast module
  else module.

(** [(directory, root files, module)] *)
Definition rust_crate_layout (path : string) : option (string * list string * list string) :=
  match src_at path with
  | Some at_ =>
      let dir := str_take (at_ + 4) path in
      match strip_suffix ".rs" (str_drop (at_ + 4) path) with
      | None => None
      | Some rel => if starts_with "bin/" rel then None else Some (dir, root_files dir, module_of_rel rel)
      end
  | None =>
      match rsplit_once ch_slash path with
      | None => None
      | Some (dir, file) =>
          let target_dir := default dir (last (split_on ch_slash dir)) in
          if one_of ["tests"; "benches"; "examples"] target_dir && ends_with ".rs" file
          then Some (dir +:+ "/", [path], []) else None
      end
  end.

(** ** Files of a module path *)

(** The root file of the side's crate among the roots that exist. *)
Definition own_root (roots : list string) (dir : string) (side : RootSide) : list string :=
  match side with
  | Either => roots
  | Lib => if existsb (String.eqb (dir +:+ "lib.rs")) roots then [dir +:+ "lib.rs"] else roots
  | Main => if existsb (String.eqb (dir +:+ "main.rs")) roots then [dir +:+ "main.rs"] else roots
  end.

Record CrateModule := mkCrateModule {
  cm_dir : string;
  cm_roots : list string;
  cm_module : list string;
  cm_side : RootSide;
}.

(** The files that can hold the leading [len] segments. *)
Definition prefix_candidates (a : CrateModule) (module : list string) (len : nat) : list string :=
  match len with
  | 0 => cm_roots a
  | _ => let stem := cm_dir a +:+ join "/" (take len module) in [stem +:+ ".rs"; stem +:+ "/mod.rs"]
  end.

Definition prefix_files (a : CrateModule) (module : list string) (all_file_paths : gset string) (len : nat) : list string :=
  filter (λ f, f ∈ all_file_paths) (prefix_candidates a module len).

(** The loop from the whole path down to the root. *)
Fixpoint longest_prefix (a : CrateModule) (module : list string) (all_file_paths : gset string) (len : nat) : list string :=
  let files := prefix_files a module all_file_paths len in
  if negb (bool_decide (files = []))
  then match len with 0 => own_root files (cm_dir a) (cm_side a) | _ => files end
  else match len with 0 => [] | S len' => longest_prefix a module all_file_paths len' end.

Definition crate_module_files (a : CrateModule) (module : list string) (all_file_paths : gset string) : list string :=
  longest_prefix a module all_file_paths (length module).

(** ** [use] metadata *)

Definition as_str_list (v : json) : option (list string) :=
  match v with JArray l => mapM as_str l | _ => None end.

(** [as_u64] of an integer literal *)
Fixpoint digits_value (acc : N) (s : string) : option N :=
  match s with
  | EmptyString => Some acc
  | String c s' => if is_ascii_digit c then digits_value (acc * 10 + (N_of_ascii c - 48))%N s' else None
  end.

Definition as_u64 (v : json) : option N :=
  match v with
  | JNumber t =>
      if String.eqb t "" then None
      else n ← digits_value 0 t; if (n <? 2 ^ 64)%N then Some n else None
  | _ => None
  end.

(** [as_i64] *)
Definition as_i64 (v : json) : option Z :=
  match v with
  | JNumber t =>
      match t with
      | String "-" t' =>
          if String.eqb t' "" then None
          else n ← digits_value 0 t'; if (0 <? n)%N && (n <=? 2 ^ 63)%N then Some (- Z.of_N n)%Z else None
      | _ => n ← as_u64 v; if (n <? 2 ^ 63)%N then Some (Z.of_N n) else None
      end
  | _ => None
  end.

(** The directory, roots and module a [use] is read in. *)
Definition use_base (meta : json) (root importer : string) (crates : RustCrates) : option (string * list string * list string) :=
  if String.eqb root "ext" then
    c ← get meta "c" ≫= as_str; dir ← src_dir crates c; Some (dir, root_files dir, [])
  else rust_crate_layout importer.

Definition use_module (meta : json) (root : string) (file_module written : list string) : option (list string) :=
  if one_of ["ext"; "crate"] root then Some written
  else if String.eqb root "file" then
    let up := N.to_nat (default 0%N (get meta "up" ≫= as_u64)) in
    if length file_module <? up then None else Some (take (length file_module - up) file_module ++ written)
  else None.

Definition rust_use_files (meta : json) (importer : string) (all_file_paths : gset string) (crates : RustCrates)
    : option (list string) :=
  root ← get meta "ru" ≫= as_str;
  written ← get meta "m" ≫= as_str_list;
  base ← use_base meta root importer crates;
  let '(dir, roots, file_module) := base in
  let side := if String.eqb root "ext" then Lib else side_of crates dir importer in
  module ← use_module meta root file_module written;
  let files := crate_module_files (mkCrateModule dir roots module side) module all_file_paths in
  if bool_decide (files = []) then None else Some files.

Definition rust_use_other_root (meta : json) (importer : string) (crates : RustCrates) : option string :=
  root ← get meta "ru" ≫= as_str;
  ds ← (if String.eqb root "ext" then c ← get meta "c" ≫= as_str; dir ← src_dir crates c; Some (dir, Lib)
        else if one_of ["crate"; "file"] root
        then l ← rust_crate_layout importer; Some (l.1.1, side_of crates l.1.1 importer)
        else None);
  let '(dir, side) := ds in
  match side with Lib => Some (dir +:+ "main.rs") | Main => Some (dir +:+ "lib.rs") | Either => None end.

(** ** Anchors of path calls *)

Inductive UseAnchor :=
| NoAnchor
| Foreign
| At (m : CrateModule)
| Unplaced (tail : list string)
| OpaqueRoot (tail : list string).

Definition RUST_FOREIGN_ROOTS : list string := ["std"; "core"; "alloc"; "proc_macro"].

Fixpoint take_while {A} (f : A → bool) (l : list A) : list A :=
  match l with x :: l' => if f x then x :: take_while f l' else [] | [] => [] end.
Fixpoint skip_while {A} (f : A → bool) (l : list A) : list A :=
  match l with x :: l' => if f x then skip_while f l' else l | [] => [] end.

Definition crate_anchor (first : string) (rest : list string) (crates : RustCrates) : UseAnchor :=
  match src_dir crates first with
  | Some dir => At (mkCrateModule dir (root_files dir) rest Lib)
  | None =>
      if one_of RUST_FOREIGN_ROOTS first then Foreign
      else if rc_opaque crates then OpaqueRoot rest else NoAnchor
  end.

Definition local_anchor (first : string) (segments : list string) (caller : string) (crates : RustCrates) : UseAnchor :=
  let supers := length (take_while (String.eqb "super") segments) in
  let tail := skip_while (one_of ["crate"; "self"; "super"]) segments in
  match rust_crate_layout caller with
  | None => Unplaced tail
  | Some (dir, roots, file_module) =>
      let module := if String.eqb first "crate" then Some []
                    else if String.eqb first "self" then Some file_module
                    else if String.eqb first "super" then
                      if length file_module <? supers then None else Some (take (length file_module - supers) file_module)
                    else None in
      match module with
      | None => Unplaced tail
      | Some module => At (mkCrateModule dir roots (module ++ tail) (side_of crates dir caller))
      end
  end.

Section Json.
Context (from_str : string → option json).

Definition rust_use_anchor (metadata : option string) (segments : list string) (caller : string) (crates : RustCrates)
    : UseAnchor :=
  match m ← metadata; v ← from_str m; get v "u" ≫= as_str with
  | None => NoAnchor
  | Some tag =>
      match segments with
      | [] => NoAnchor
      | first :: rest =>
          if String.eqb tag "x" then crate_anchor first rest crates
          else if String.eqb tag "c" then local_anchor first segments caller crates
          else NoAnchor
      end
  end.
End Json.

(** ** Candidates of an anchored call *)

Inductive Anchored :=
| Named (ids : list Z)
| Elsewhere (ids : list Z)
| Nothing.

(** The module of a file under the anchor's directory, if it is of that crate. *)
Definition crate_file_module (a : CrateModule) (path : string) : option (list string) :=
  let other_root := match cm_side a with Lib => Some "main.rs" | Main => Some "lib.rs" | Either => None end in
  if bool_decide (is_Some other_root) && bool_decide (strip_prefix (cm_dir a) path = other_root) then None
  else if existsb (String.eqb path) (cm_roots a) then Some []
  else
    rel ← strip_prefix (cm_dir a) path;
    stem ← strip_suffix ".rs" rel;
    if starts_with "bin/" stem || ((length (cm_roots a) =? 1) && negb (contains "/" stem)) then None
    else let module := split_on ch_slash stem in
         Some (if bool_decide (last module = Some "mod") then removelast module else module).

Inductive AnchorRank := RankNamed | RankShared (n : nat).
#[global] Instance AnchorRank_eq_dec : EqDecision AnchorRank.
Proof. solve_decision. Defined.

Fixpoint common_segments (l l' : list string) : nat :=
  match l, l' with a :: l, b :: l' => if String.eqb a b then S (common_segments l l') else 0 | _, _ => 0 end.

Section Anchor.
Context `{U : Unicode} (st : Store) (all_file_paths : gset string) (node_id_to_path : gmap Z string).

Definition starts_upper (s : string) : bool := match chars s with c :: _ => is_uppercase c | [] => false end.

(** What is left of the path before the item's owner type. *)
Definition module_part (module owner : list string) : option (list string) :=
  match owner with
  | [] => if existsb starts_upper module then None else Some module
  | _ =>
      if length module <? length owner then None
      else let keep := length module - length owner in
           if bool_decide (drop keep module = owner) then Some (take keep module) else None
  end.

Definition owner_segments (qn : option string) : list string :=
  match qn ≫= rsplit_once ch_dot with Some (owner, _) => split_on ch_dot owner | None => [] end.

(** The remembered module files, by the length of the module part. *)
#[local] Abbreviation FilesOf := (gmap nat (list string)).

Definition remembered_files (a : CrateModule) (modpart : list string) (files_of : FilesOf) : list string * FilesOf :=
  match files_of !! length modpart with
  | Some files => (files, files_of)
  | None => let files := crate_module_files a modpart all_file_paths in (files, <[length modpart := files]> files_of)
  end.

Definition anchor_rank (a : CrateModule) (path : string) (qn : option string) (files_of : FilesOf)
    : option AnchorRank * FilesOf :=
  match module_part (cm_module a) (owner_segments qn) with
  | None => (None, files_of)
  | Some modpart =>
      let '(files, files_of) := remembered_files a modpart files_of in
      (if existsb (String.eqb path) files then Some RankNamed
       else file_module ← crate_file_module a path; Some (RankShared (common_segments file_module modpart)), files_of)
  end.

Definition in_crate (a : CrateModule) (id : Z) : bool :=
  match node_id_to_path !! id with Some p => starts_with (cm_dir a) p | None => false end.

Definition path_of_id (id : Z) : string := default "" (node_id_to_path !! id).

(** The loop over the candidates of the crate: the named ones and the others with their rank. *)
Fixpoint rank_ids (a : CrateModule) (id_to_qn : gmap Z string) (ids : list Z) (files_of : FilesOf)
    : list Z * list (nat * Z) :=
  match ids with
  | [] => ([], [])
  | id :: ids =>
      let '(rank, files_of) := anchor_rank a (path_of_id id) (id_to_qn !! id) files_of in
      let '(named, ranked) := rank_ids a id_to_qn ids files_of in
      match rank with
      | Some RankNamed => (id :: named, ranked)
      | Some (RankShared shared) => (named, (shared, id) :: ranked)
      | None => (named, ranked)
      end
  end.

Definition rust_anchored_targets (a : CrateModule) (candidates : list Z) : Anchored :=
  match filter (λ id, in_crate a id = true) candidates with
  | [] => Nothing
  | ids =>
      let '(named, ranked) := rank_ids a (get_node_qualified_names_by_ids st ids) ids ∅ in
      match named, ranked with
      | _ :: _, _ => Named named
      | [], [] => Nothing
      | [], _ => let best := foldr Nat.max 0 (fst <$> ranked) in
                 Elsewhere (snd <$> filter (λ r, r.1 = best) ranked)
      end
  end.

(** ** Path and [self] qualifiers *)

Definition RUST_STD_MODULES : list string :=
  ["alloc"; "any"; "arch"; "array"; "ascii"; "backtrace"; "borrow"; "boxed"; "cell"; "char"; "clone"; "cmp";
   "collections"; "convert"; "default"; "env"; "error"; "f32"; "f64"; "ffi"; "fmt"; "fs"; "future"; "hash"; "hint";
   "io"; "iter"; "marker"; "mem"; "net"; "num"; "ops"; "option"; "os"; "panic"; "path"; "pin"; "prelude";
   "primitive"; "process"; "ptr"; "rc"; "result"; "slice"; "str"; "string"; "sync"; "task"; "thread"; "time"; "vec"].

Definition path_match (path : string) (segs : list string) : bool :=
  let chain := join "/" segs in
  contains ("/" +:+ chain +:+ "/") path || starts_with (chain +:+ "/") path
  || match last segs with Some l => ends_with ("/" +:+ l +:+ ".rs") path | None => false end.

Definition qn_match (qn : string) (segs : list string) : bool :=
  let chain := join "." segs in
  String.eqb qn chain || starts_with (chain +:+ ".") qn || contains ("." +:+ chain +:+ ".") qn
  || ends_with ("." +:+ chain) qn.

(** A module chain names the file and the rest the method's type. *)
Definition split_match (path qn : string) (segs : list string) : bool :=
  match segs with
  | [] => false
  | first :: _ =>
      negb (one_of RUST_STD_MODULES first) && negb (one_of ["std"; "core"; "alloc"] first)
      && existsb (λ k, path_match path (take k segs) && starts_with (join "." (drop k segs) +:+ ".") qn)
           (seq 1 (length segs - 1))
  end.

Definition filter_by_segment_chain (segs : list string) (candidates : list Z) : list Z :=
  let id_to_qn := get_node_qualified_names_by_ids st candidates in
  filter (λ id, let path := default "" (node_id_to_path !! id) in let qn := default "" (id_to_qn !! id) in
                path_match path segs || qn_match qn segs || split_match path qn segs = true) candidates.

Definition path_filter_candidates (segs : list string) (candidates : list Z) (crates : RustCrates) : list Z :=
  match candidates, segs with
  | [], _ | _, [] => candidates
  | _, first :: rest =>
      let kept := filter_by_segment_chain segs candidates in
      if negb (bool_decide (kept = [])) then kept
      else if negb (crates_contain crates first) then kept
      else match rest with
           | [] => if length candidates =? 1 then candidates else []
           | _ => filter_by_segment_chain rest candidates
           end
  end.

Context (from_str : string → option json) (like_esc : string → string → bool).

Record SelfFacts := mkFacts { sf_inherent : bool; sf_wide : bool; sf_excluded : list Z }.

Definition json_key (k : string) : string := dquote +:+ k +:+ dquote +:+ ":".

Definition self_facts (metadata : option string) : SelfFacts :=
  let v := m ← metadata;
           if existsb (λ k, contains (json_key k) m) ["xl"; "inh"; "wide"] then from_str m else None in
  let has k := match v with Some v => bool_decide (is_Some (get v k)) | None => false end in
  mkFacts (has "inh") (has "wide")
    (match v ≫= λ v, get v "xl" with Some (JArray l) => omap as_i64 l | _ => [] end).

Definition start_line_of (id : Z) : option Z := (λ n, n_start_line (nr_node n)) <$> head (node_rows st id).

(** A chosen candidate is a row of [nodes] ([filter_method_ids] read it): the query has its line. *)
Definition in_excluded (facts : SelfFacts) (id : Z) : bool :=
  match start_line_of id with Some l => bool_decide (l ∈ sf_excluded facts) | None => false end.

Definition self_filter_candidates (impl_type : string) (candidates callers : list Z) (caller_path : string)
    (metadata : option string) : list Z :=
  let of_type := filter_method_ids like_esc st candidates (Some impl_type) in
  let crate_dir := (λ l, l.1.1) <$> rust_crate_layout caller_path in
  let nearest (keep : string → bool) :=
    filter (λ id, negb (bool_decide (id ∈ callers))
                  && match node_id_to_path !! id with Some p => keep p | None => false end = true) of_type in
  let facts := self_facts metadata in
  let or_else (l l' : list Z) := if bool_decide (l = []) then l' else l in
  let own_file := if sf_wide facts then [] else nearest (String.eqb caller_path) in
  let own_crate := match crate_dir with
                   | Some d => nearest (λ p, match rust_crate_layout p with Some l => String.eqb l.1.1 d | None => false end)
                   | None => []
                   end in
  let own_target := match crate_dir with
                    | Some d => if sf_inherent facts && negb (ends_with "src/" d)
                                then nearest (λ p, starts_with d p && bool_decide (rust_crate_layout p = None)) else []
                    | None => []
                    end in
  let everywhere := if sf_inherent facts && bool_decide (is_Some crate_dir) then [] else of_type in
  let chosen := or_else own_file (or_else own_crate (or_else own_target everywhere)) in
  filter (λ id, negb (bool_decide (node_id_to_path !! id = Some caller_path) && in_excluded facts id) = true) chosen.
End Anchor.

(** ** The layout of a file and the module paths it answers to *)

Lemma substring_all s : String.substring 0 (String.length s) s = s.
Proof. induction s as [|c s IH]; [done|]. cbn. by f_equal. Qed.
Lemma str_take_drop n s : str_take n s +:+ str_drop n s = s.
Proof.
  unfold str_take, str_drop. revert s; induction n as [|n IH]; intros s.
  - rewrite Nat.sub_0_r, substring_all. by destruct s.
  - destruct s as [|c s]; [done|]. cbn. f_equal. apply IH.
Qed.

(** What a layout says: a source directory with its two roots, or a target that is its own root. *)
Inductive layout_of (path : string) : string → list string → list string → Prop :=
| layout_src dir rel :
    path = dir +:+ rel +:+ ".rs" → starts_with "bin/" rel = false →
    layout_of path dir (root_files dir) (module_of_rel rel)
| layout_target dir file :
    path = dir +:+ file → no_char ch_slash file = true → layout_of path dir [path] [].

Lemma rust_crate_layout_of path dir roots module :
  rust_crate_layout path = Some (dir, roots, module) → layout_of path dir roots module.
Proof.
  unfold rust_crate_layout. destruct (src_at path) as [at_|] eqn:Hat.
  - destruct (strip_suffix ".rs" (str_drop (at_ + 4) path)) as [rel|] eqn:Hrel; [|done].
    destruct (starts_with "bin/" rel) eqn:Hbin; [done|]. intros [= <- <- <-].
    constructor; [|done]. apply strip_suffix_Some in Hrel. rewrite <-Hrel. by rewrite str_take_drop.
  - destruct (rsplit_once ch_slash path) as [[d f]|] eqn:Hd; [|done].
    destruct (_ && _); [|done]. intros [= <- <- <-]. apply rsplit_once_Some in Hd as [-> Hf].
    apply (layout_target _ _ f); [|done]. by rewrite str_app_assoc.
Qed.

Lemma last_join l w : last l = Some w → l ≠ [w] → join "/" l = join "/" (removelast l) +:+ "/" +:+ w.
Proof.
  induction l as [|x l IH]; [done|]. destruct l as [|y l]; [by intros [= ->]|]. intros Hl _.
  change (removelast (x :: y :: l)) with (x :: removelast (y :: l)).
  rewrite join_cons by done. destruct l as [|z l]; [by injection Hl as ->|].
  rewrite IH, join_cons by done. by rewrite !str_app_assoc.
Qed.

(** The files that hold all the segments of a file's own module have it among them. *)
Lemma module_candidates path dir roots module side :
  layout_of path dir roots module → path ≠ dir +:+ "mod.rs" →
  path ∈ prefix_candidates (mkCrateModule dir roots module side) module (length module).
Proof.
  intros [d rel Hp _ | d file Hp _] Hne; [|by left].
  unfold module_of_rel. destruct (one_of ["lib"; "main"] rel) eqn:Hroot.
  { cbn. unfold root_files. unfold one_of in Hroot. apply existsb_exists in Hroot as (w & Hw & ->%String.eqb_eq).
    destruct Hw as [<-|[<-|[]]]; subst path; set_solver. }
  assert (join "/" (split_on ch_slash rel) = rel) as Hj by apply (join_split ch_slash).
  pose proof (split_on_not_nil ch_slash rel) as Hn.
  case_bool_decide as Hmod.
  - destruct (decide (split_on ch_slash rel = ["mod"])) as [Hm|Hm].
    { destruct Hne. by rewrite Hp, <-Hj, Hm. }
    rewrite (last_join _ _ Hmod Hm) in Hj.
    destruct (removelast (split_on ch_slash rel)) as [|w m] eqn:Hr.
    { destruct (split_on ch_slash rel) as [|x [|y l]]; [done| |done]. by injection Hmod as ->. }
    cbn [prefix_candidates length cm_dir]. rewrite firstn_all2, !elem_of_cons by (by simpl). right; left.
    by rewrite Hp, <-Hj, !str_app_assoc.
  - destruct (split_on ch_slash rel) as [|w m] eqn:Hs; [done|].
    cbn [prefix_candidates length cm_dir]. rewrite firstn_all2, !elem_of_cons by (by simpl). left.
    by rewrite Hp, <-Hj, !str_app_assoc.
Qed.

Section Files.
Context (a : CrateModule) (module : list string) (all_file_paths : gset string).

(** The result of the search: the files of the longest leading part that has any. *)
Definition longest_at (k : nat) (files : list string) : Prop :=
  k ≤ length module ∧ prefix_files a module all_file_paths k ≠ []
  ∧ (∀ k', k < k' → k' ≤ length module → prefix_files a module all_file_paths k' = [])
  ∧ files = match k with
            | 0 => own_root (prefix_files a module all_file_paths 0) (cm_dir a) (cm_side a)
            | _ => prefix_files a module all_file_paths k
            end.

Lemma longest_prefix_spec n files :
  n ≤ length module → (∀ k', n < k' → k' ≤ length module → prefix_files a module all_file_paths k' = []) →
  longest_prefix a module all_file_paths n = files →
  (∃ k, longest_at k files) ∨ (files = [] ∧ ∀ k, k ≤ length module → prefix_files a module all_file_paths k = []).
Proof.
  intros Hn Hlonger <-. induction n as [|n IH]; cbn [longest_prefix]; case_bool_decide as Hf; cbn [negb].
  - right. split; [done|]. intros [|k] Hk; [done|]. apply Hlonger; lia.
  - left. exists 0. by repeat split.
  - apply IH; [lia|]. intros k' Hk Hk'. destruct (decide (k' = S n)) as [->|]; [done|]. apply Hlonger; lia.
  - left. exists (S n). by repeat split.
Qed.

Lemma crate_module_files_spec files :
  crate_module_files a module all_file_paths = files →
  (∃ k, longest_at k files) ∨ (files = [] ∧ ∀ k, k ≤ length module → prefix_files a module all_file_paths k = []).
Proof. apply longest_prefix_spec; [done|lia]. Qed.

Lemma own_root_cases roots dir side :
  own_root roots dir side = roots
  ∨ (side = Lib ∧ dir +:+ "lib.rs" ∈ roots ∧ own_root roots dir side = [dir +:+ "lib.rs"])
  ∨ (side = Main ∧ dir +:+ "main.rs" ∈ roots ∧ own_root roots dir side = [dir +:+ "main.rs"]).
Proof.
  destruct side; cbn; [| |by left]; destruct (existsb _ roots) eqn:E; try (by left); right;
    apply existsb_exists in E as (x & ?%list_elem_of_In & <-%String.eqb_eq); [left|right]; by repeat split.
Qed.

Lemma own_root_subset roots dir side f : f ∈ own_root roots dir side → f ∈ roots.
Proof. destruct (own_root_cases roots dir side) as [->|[(_ & ? & ->)|(_ & ? & ->)]]; set_solver. Qed.

Lemma own_root_not_nil roots dir side : roots ≠ [] → own_root roots dir side ≠ [].
Proof. by destruct (own_root_cases roots dir side) as [->|[(_ & ? & ->)|(_ & ? & ->)]]. Qed.

Lemma crate_module_files_exist f :
  f ∈ crate_module_files a module all_file_paths → f ∈ all_file_paths.
Proof.
  destruct (crate_module_files_spec _ eq_refl) as [(k & _ & _ & _ & ->)|[-> _]]; [|set_solver].
  destruct k; [intros Hf%own_root_subset; revert Hf|];
    unfold prefix_files; rewrite list_elem_of_filter; tauto.
Qed.

Lemma crate_module_files_nil :
  crate_module_files a module all_file_paths = [] ↔ ∀ k, k ≤ length module → prefix_files a module all_file_paths k = [].
Proof.
  split.
  - intros Hn. destruct (crate_module_files_spec _ eq_refl) as [(k & Hk & Hne & _ & Heq)|[_ ?]]; [|done].
    rewrite Hn in Heq. destruct k; [|by rewrite <-Heq in Hne].
    symmetry in Heq. by apply own_root_not_nil in Heq.
  - intros Hall. destruct (crate_module_files_spec _ eq_refl) as [(k & Hk & Hne & _ & _)|[? _]]; [|done].
    by destruct Hne; apply Hall.
Qed.

(** The whole path wins when it is a file. *)
Lemma crate_module_files_whole f :
  module ≠ [] → f ∈ prefix_candidates a module (length module) → f ∈ all_file_paths →
  f ∈ crate_module_files a module all_file_paths.
Proof.
  intros Hm Hf Hall. unfold crate_module_files.
  assert (f ∈ prefix_files a module all_file_paths (length module)) as Hin by (by apply list_elem_of_filter).
  destruct (length module) as [|n] eqn:E; [by destruct module|]. cbn [longest_prefix].
  case_bool_decide as Hnil; [|done]. rewrite Hnil in Hin. by apply elem_of_nil in Hin.
Qed.
End Files.

(** [side_of] puts [lib.rs] and [main.rs] in their own crates. *)
Lemma side_of_root cs dir file :
  file = "lib.rs" ∨ file = "main.rs" →
  side_of cs dir (dir +:+ file) = if String.eqb file "lib.rs" then Lib else Main.
Proof.
  intros Hf. unfold side_of. rewrite (proj2 (strip_prefix_Some dir _ file) eq_refl). by destruct Hf as [->| ->].
Qed.

Lemma own_root_keeps cs path dir roots files :
  roots = root_files dir ∨ roots = [path] → path ∈ roots → (∀ f, f ∈ files → f ∈ roots) → path ∈ files →
  path ∈ own_root files dir (side_of cs dir path).
Proof.
  intros Hroots Hp Hsub Hf.
  destruct (own_root_cases files dir (side_of cs dir path)) as [->|[(Hs & Hin%Hsub & ->)|(Hs & Hin%Hsub & ->)]]; [done| |].
  all: apply list_elem_of_singleton; destruct Hroots as [->| ->]; [|symmetry; by apply list_elem_of_singleton].
  all: unfold root_files in Hp; rewrite !elem_of_cons, elem_of_nil in Hp; destruct Hp as [->|[->|[]]]; try done;
    rewrite side_of_root in Hs by tauto; by cbn in Hs.
Qed.

(** The module of a file names the file. *)
Lemma layout_finds_file cs path dir roots module all_file_paths :
  layout_of path dir roots module → path ≠ dir +:+ "mod.rs" → path ∈ all_file_paths →
  path ∈ crate_module_files (mkCrateModule dir roots module (side_of cs dir path)) module all_file_paths.
Proof.
  intros Hl Hne Hall. pose proof (module_candidates _ _ _ _ (side_of cs dir path) Hl Hne) as Hc.
  destruct module as [|w m]; [|by apply crate_module_files_whole].
  unfold crate_module_files. cbn [length longest_prefix]. cbn [length] in Hc.
  set (files := prefix_files _ _ _ _). assert (path ∈ files) as Hin by (by apply list_elem_of_filter).
  case_bool_decide as Hnil; cbn [negb]; [by rewrite Hnil in Hin; apply elem_of_nil in Hin|].
  apply (own_root_keeps _ _ _ roots); [|done| |done].
  - inversion Hl; tauto.
  - intros f. subst files. unfold prefix_files. rewrite list_elem_of_filter. tauto.
Qed.

(** ** The ranks of the candidates *)

Section Ranks.
Context `{U : Unicode} (st : Store) (all_file_paths : gset string) (node_id_to_path : gmap Z string).

(** The rank without the memory. *)
Definition rank_alone (a : CrateModule) (path : string) (qn : option string) : option AnchorRank :=
  (anchor_rank all_file_paths a path qn ∅).1.

Definition memory_ok (a : CrateModule) (files_of : gmap nat (list string)) : Prop :=
  ∀ n files, files_of !! n = Some files → files = crate_module_files a (take n (cm_module a)) all_file_paths.

Lemma module_part_prefix module owner modpart :
  module_part module owner = Some modpart → modpart = take (length modpart) module ∧ modpart ++ owner = module.
Proof.
  unfold module_part. destruct owner as [|o owner].
  - case_match; [done|]. intros [= <-]. by rewrite firstn_all, app_nil_r.
  - case_match eqn:E; [done|]. case_bool_decide as Hd; [|done]. intros [= <-].
    rewrite length_take, Nat.min_l by (apply Nat.ltb_ge in E; lia). split; [done|]. by rewrite <-Hd, take_drop.
Qed.

Lemma anchor_rank_memory a path qn files_of :
  memory_ok a files_of →
  (anchor_rank all_file_paths a path qn files_of).1 = rank_alone a path qn
  ∧ memory_ok a (anchor_rank all_file_paths a path qn files_of).2.
Proof.
  intros Hm. unfold rank_alone, anchor_rank. destruct (module_part _ _) as [modpart|] eqn:Hp; [|done].
  apply module_part_prefix in Hp as [Hp _]. unfold remembered_files at 2. rewrite lookup_empty.
  unfold remembered_files. destruct (files_of !! length modpart) as [files|] eqn:Hf; cbn.
  - apply Hm in Hf as Hf'. rewrite <-Hp in Hf'. by rewrite Hf'.
  - split; [done|]. intros n files. rewrite lookup_insert_Some.
    intros [[<- <-]|[_ ?]]; [by rewrite <-Hp|by apply Hm].
Qed.

Definition rank_of (a : CrateModule) (id_to_qn : gmap Z string) (id : Z) : option AnchorRank :=
  rank_alone a (path_of_id node_id_to_path id) (id_to_qn !! id).
Definition shared_of (a : CrateModule) (id_to_qn : gmap Z string) (id : Z) : option (nat * Z) :=
  match rank_of a id_to_qn id with Some (RankShared n) => Some (n, id) | _ => None end.

Lemma rank_ids_eq a id_to_qn ids files_of :
  memory_ok a files_of →
  rank_ids all_file_paths node_id_to_path a id_to_qn ids files_of
  = (filter (λ id, rank_of a id_to_qn id = Some RankNamed) ids, omap (shared_of a id_to_qn) ids).
Proof.
  revert files_of; induction ids as [|id ids IH]; intros files_of Hm; [done|]. cbn [rank_ids].
  destruct (anchor_rank_memory a (path_of_id node_id_to_path id) (id_to_qn !! id) files_of Hm) as [Hr Hm'].
  destruct (anchor_rank _ _ _ _ files_of) as [rank files_of']. cbn in Hr, Hm'. rewrite IH by done.
  change (rank_of a id_to_qn id = rank) in Hr || (symmetry in Hr; change (rank_of a id_to_qn id = rank) in Hr).
  change (omap (shared_of a id_to_qn) (id :: ids))
    with (match shared_of a id_to_qn id with
          | Some r => r :: omap (shared_of a id_to_qn) ids
          | None => omap (shared_of a id_to_qn) ids
          end).
  assert (shared_of a id_to_qn id = match rank with Some (RankShared n) => Some (n, id) | _ => None end) as ->
    by (unfold shared_of; by rewrite Hr).
  rewrite filter_cons, Hr.
  destruct rank as [[|n]|]; by case_decide.
Qed.

Lemma foldr_max_spec (l : list nat) :
  (∀ n, n ∈ l → n ≤ foldr Nat.max 0 l) ∧ (l ≠ [] → foldr Nat.max 0 l ∈ l).
Proof.
  induction l as [|x l [IH1 IH2]]; [split; [set_solver|done]|]. cbn [foldr]. split.
  - intros n [->|Hn]%elem_of_cons; [lia|]. specialize (IH1 _ Hn). lia.
  - intros _. destruct (Nat.max_spec x (foldr Nat.max 0 l)) as [[Hlt ->]|[Hle ->]]; [|by left].
    right. apply IH2. intros ->. cbn in Hlt. lia.
Qed.

(** The classification a path call anchored at [a] must get. *)
Definition reaches (a : CrateModule) (candidates : list Z) (id : Z) (r : AnchorRank) : Prop :=
  id ∈ candidates ∧ in_crate node_id_to_path a id = true
  ∧ rank_of a (get_node_qualified_names_by_ids st (filter (λ id, in_crate node_id_to_path a id = true) candidates)) id
    = Some r.

Definition anchored_spec (a : CrateModule) (candidates : list Z) (r : Anchored) : Prop :=
  match r with
  | Named ids => ids ≠ [] ∧ ∀ id, id ∈ ids ↔ reaches a candidates id RankNamed
  | Elsewhere ids =>
      ids ≠ [] ∧ (∀ id, ¬ reaches a candidates id RankNamed)
      ∧ ∃ best, (∀ id, id ∈ ids ↔ reaches a candidates id (RankShared best))
                ∧ ∀ id n, reaches a candidates id (RankShared n) → n ≤ best
  | Nothing => ∀ id r, ¬ reaches a candidates id r
  end.

Lemma elem_of_shared a id_to_qn (ids : list Z) n id :
  (n, id) ∈ omap (shared_of a id_to_qn) ids ↔ id ∈ ids ∧ rank_of a id_to_qn id = Some (RankShared n).
Proof.
  rewrite list_elem_of_omap. unfold shared_of. split.
  - intros (x & Hx & Heq). destruct (rank_of a id_to_qn x) as [[|m]|] eqn:E; try done. by injection Heq as -> ->.
  - intros [Hin Hr]. exists id. by rewrite Hr.
Qed.

Lemma rust_anchored_targets_spec a candidates :
  anchored_spec a candidates (rust_anchored_targets st all_file_paths node_id_to_path a candidates).
Proof.
  unfold rust_anchored_targets, anchored_spec, reaches.
  pose proof (list_elem_of_filter (λ id, in_crate node_id_to_path a id = true) candidates) as Hids.
  revert Hids. generalize (filter (λ id, in_crate node_id_to_path a id = true) candidates). intros ids Hids.
  destruct ids as [|i0 ids0] eqn:E.
  { intros id r (Hin & Hc & _). by apply (elem_of_nil id), Hids. }
  rewrite <-E in *. clear E. rewrite rank_ids_eq by (intros ? ?; by rewrite lookup_empty).
  generalize (get_node_qualified_names_by_ids st ids). intros qns.
  assert (∀ id, id ∈ filter (λ id, rank_of a qns id = Some RankNamed) ids
                ↔ id ∈ candidates ∧ in_crate node_id_to_path a id = true ∧ rank_of a qns id = Some RankNamed) as Hn
    by (intros id; rewrite list_elem_of_filter, Hids; tauto).
  destruct (filter (λ id, rank_of a qns id = Some RankNamed) ids) as [|x named]; [|by split].
  assert (∀ n id, (n, id) ∈ omap (shared_of a qns) ids
                  ↔ id ∈ candidates ∧ in_crate node_id_to_path a id = true ∧ rank_of a qns id = Some (RankShared n)) as Hsh
    by (intros n id; rewrite elem_of_shared, Hids; tauto).
  destruct (foldr_max_spec (fst <$> omap (shared_of a qns) ids)) as [Hmax Hbest].
  destruct (omap (shared_of a qns) ids) as [|s0 ranked] eqn:Er.
  - intros id [|n]; [rewrite <-Hn; apply not_elem_of_nil|]. intros Hr. by apply (not_elem_of_nil (n, id)), Hsh.
  - rewrite <-Er in *. assert (fst <$> omap (shared_of a qns) ids ≠ []) as Hne by (by rewrite Er).
    specialize (Hbest Hne). clear Er. set (best := foldr _ _ _) in *. clearbody best.
    apply list_elem_of_fmap in Hbest as ([b bid] & -> & Hb). cbn in *.
    assert (∀ id, id ∈ snd <$> filter (λ r : nat * Z, r.1 = b) (omap (shared_of a qns) ids)
                  ↔ id ∈ candidates ∧ in_crate node_id_to_path a id = true ∧ rank_of a qns id = Some (RankShared b)) as He.
    { intros id. rewrite <-Hsh, list_elem_of_fmap. split.
      - intros ([m i] & -> & [Hm Hi]%list_elem_of_filter). cbn in *. by subst m.
      - intros Hi. exists (b, id). by rewrite list_elem_of_filter. }
    split; [|split].
    + intros Hnil. apply (elem_of_nil bid). rewrite <-Hnil, list_elem_of_fmap. exists (b, bid). by rewrite list_elem_of_filter.
    + intros id. rewrite <-Hn. apply not_elem_of_nil.
    + exists b. split; [done|]. intros id n Hr%Hsh. apply Hmax, list_elem_of_fmap. by exists (n, id).
Qed.
End Ranks.

(** ** What a [use] path names *)

Lemma mapM_as_str m : mapM as_str (JString <$> m) = Some m.
Proof. by apply mapM_fmap_Some. Qed.

(** The metadata of [use crate::m] and of a path of the file's own module. *)
Definition crate_meta (m : list string) : json :=
  JObject [("ru", JString "crate"); ("m", JArray (JString <$> m))].
Definition self_meta : json := JObject [("ru", JString "file"); ("m", JArray [])].

(** At the crate root the other crate's root is not among the files of [own_root]. *)
Lemma own_root_excludes roots dir side :
  (side = Lib → dir +:+ "lib.rs" ∈ roots → dir +:+ "main.rs" ∉ own_root roots dir side)
  ∧ (side = Main → dir +:+ "main.rs" ∈ roots → dir +:+ "lib.rs" ∉ own_root roots dir side).
Proof.
  split; intros -> Hin; unfold own_root;
    (rewrite (proj2 (existsb_exists _ _)); [|eexists; split; [by apply list_elem_of_In|apply String.eqb_refl]]);
    by intros ?%list_elem_of_singleton%str_app_inj_l.
Qed.

Lemma layout_not_mod path dir roots m : layout_of path dir roots m → m ≠ [] → path ≠ dir +:+ "mod.rs".
Proof.
  intros [d rel Hp _|] Hm; [|done]. intros ->. apply str_app_inj_l in Hp.
  assert (strip_suffix ".rs" "mod.rs" = Some rel) as [= <-] by (by apply strip_suffix_Some). done.
Qed.

(** The layout of the other file [g] says how [use crate::..] of a file of the same crate names it. *)
Lemma crate_path_names importer dir roots roots' m m' g all_file_paths crates :
  rust_crate_layout importer = Some (dir, roots, m) → rust_crate_layout g = Some (dir, roots', m') →
  m' ≠ [] → g ∈ all_file_paths →
  ∃ files, rust_use_files (crate_meta m') importer all_file_paths crates = Some files ∧ g ∈ files.
Proof.
  intros Hi Hg Hm Hall. pose proof (rust_crate_layout_of _ _ _ _ Hg) as Hl.
  assert (g ≠ dir +:+ "mod.rs") as Hne by (by eapply layout_not_mod).
  pose proof (module_candidates _ _ _ _ (side_of crates dir importer) Hl Hne) as Hc.
  assert (g ∈ crate_module_files (mkCrateModule dir roots m' (side_of crates dir importer)) m' all_file_paths) as Hin.
  { apply crate_module_files_whole; [done| |done]. by destruct m'. }
  assert (get (crate_meta m') "m" ≫= as_str_list = Some m') as Hw by apply mapM_as_str.
  eexists. split; [|exact Hin]. unfold rust_use_files, use_base, use_module.
  change (get (crate_meta m') "ru" ≫= as_str) with (Some "crate"). rewrite Hw.
  cbn -[crate_module_files]. rewrite Hi.
  change ("crate" =? "ext")%string with false. change ("crate" =? "crate")%string with true. cbn -[crate_module_files].
  case_bool_decide as Hn; [|done]. rewrite Hn in Hin. by apply elem_of_nil in Hin.
Qed.

Lemma self_path_names importer dir roots m all_file_paths crates :
  rust_crate_layout importer = Some (dir, roots, m) → importer ≠ dir +:+ "mod.rs" → importer ∈ all_file_paths →
  ∃ files, rust_use_files self_meta importer all_file_paths crates = Some files ∧ importer ∈ files.
Proof.
  intros Hi Hne Hall. pose proof (layout_finds_file crates _ _ _ _ _ (rust_crate_layout_of _ _ _ _ Hi) Hne Hall) as Hin.
  eexists. split; [|exact Hin]. unfold rust_use_files, use_base, use_module.
  change (get self_meta "ru" ≫= as_str) with (Some "file"). change (get self_meta "m" ≫= as_str_list) with (Some (@nil string)).
  change (get self_meta "up" ≫= as_u64) with (@None N). unfold one_of. cbn -[crate_module_files]. rewrite Hi.
  change ("file" =? "ext")%string with false. change ("file" =? "crate")%string with false.
  change ("file" =? "file")%string with true. cbn -[crate_module_files]. rewrite Nat.sub_0_r, firstn_all, app_nil_r.
  change (N.to_nat 0) with 0. cbn -[crate_module_files]. case_bool_decide as Hn; [|done]. rewrite Hn in Hin. by apply elem_of_nil in Hin.
Qed.

(** The module a [use] of the importer's file is for: a path into another package's library, one from the root of the
    importer's crate, or one from the importer's own module or [up] levels above it. *)
Inductive use_anchor (crates : RustCrates) (importer : string) (meta : json) : CrateModule → Prop :=
| anchor_ext c dir written :
    get meta "ru" ≫= as_str = Some "ext" → get meta "c" ≫= as_str = Some c → get meta "m" ≫= as_str_list = Some written →
    src_dir crates c = Some dir →
    use_anchor crates importer meta (mkCrateModule dir (root_files dir) written Lib)
| anchor_crate dir roots file_module written :
    get meta "ru" ≫= as_str = Some "crate" → get meta "m" ≫= as_str_list = Some written →
    rust_crate_layout importer = Some (dir, roots, file_module) →
    use_anchor crates importer meta (mkCrateModule dir roots written (side_of crates dir importer))
| anchor_file dir roots above below written :
    get meta "ru" ≫= as_str = Some "file" → get meta "m" ≫= as_str_list = Some written →
    rust_crate_layout importer = Some (dir, roots, above ++ below) →
    length below = N.to_nat (default 0%N (get meta "up" ≫= as_u64)) →
    use_anchor crates importer meta (mkCrateModule dir roots (above ++ written) (side_of crates dir importer)).

(** [rust_use_files] searches exactly that module. *)
Lemma rust_use_files_anchor meta importer all_file_paths crates a :
  use_anchor crates importer meta a →
  rust_use_files meta importer all_file_paths crates
  = let files := crate_module_files a (cm_module a) all_file_paths in if bool_decide (files = []) then None else Some files.
Proof.
  unfold rust_use_files, use_base, use_module.
  destruct 1 as [c dir written Hr Hc Hm Hd|dir roots fm written Hr Hm Hl|dir roots above below written Hr Hm Hl Hup];
    rewrite Hr, Hm; cbn [mbind option_bind].
  - change ("ext" =? "ext")%string with true. cbv iota. rewrite Hc. cbn [mbind option_bind]. by rewrite Hd.
  - change ("crate" =? "ext")%string with false. cbv iota. by rewrite Hl.
  - change ("file" =? "ext")%string with false. cbv iota. rewrite Hl. cbn [mbind option_bind].
    change (one_of ["ext"; "crate"] "file") with false. change ("file" =? "file")%string with true. cbv iota zeta.
    rewrite <-Hup, length_app. rewrite (proj2 (Nat.ltb_ge _ _)) by lia. cbn [mbind option_bind].
    by rewrite Nat.add_sub, take_app_length.
Qed.

Lemma rust_use_files_anchored meta importer all_file_paths crates files :
  rust_use_files meta importer all_file_paths crates = Some files → ∃ a, use_anchor crates importer meta a.
Proof.
  unfold rust_use_files. intros H.
  apply bind_Some in H as (root & Hroot & H). apply bind_Some in H as (written & Hw & H).
  apply bind_Some in H as ([[dir roots] fm] & Hb & H). apply bind_Some in H as (module & Hm & _).
  unfold use_base in Hb. unfold use_module in Hm. destruct (String.eqb_spec root "ext") as [->|Hne].
  - apply bind_Some in Hb as (c & Hc & Hb). apply bind_Some in Hb as (d & Hd & [= <- <- <-]). eexists. by eapply anchor_ext.
  - destruct (one_of ["ext"; "crate"] root) eqn:Ho.
    + assert (root = "crate") as -> by (revert Ho; unfold one_of; cbn; destruct (String.eqb_spec root "ext"), (String.eqb_spec root "crate"); done).
      injection Hm as <-. eexists. by eapply anchor_crate.
    + destruct (String.eqb_spec root "file") as [->|]; [|done]. cbv zeta in Hm.
      destruct (Nat.ltb_spec (length fm) (N.to_nat (default 0%N (get meta "up" ≫= as_u64)))); [done|].
      eexists. eapply (anchor_file _ _ _ dir roots (take (length fm - N.to_nat (default 0%N (get meta "up" ≫= as_u64))) fm)
        (drop (length fm - N.to_nat (default 0%N (get meta "up" ≫= as_u64))) fm)); [done|done|by rewrite take_drop|].
      rewrite length_drop. lia.
Qed.

(** Holding the longest leading part of the module that any file holds; at the crate root, never the root of the other
    crate when its own is there. *)
Definition names_longest (all_file_paths : gset string) (a : CrateModule) (files : list string) : Prop :=
  ∃ k, longest_at a (cm_module a) all_file_paths k files
       ∧ (k = 0 → (cm_side a = Lib → cm_dir a +:+ "lib.rs" ∈ prefix_files a (cm_module a) all_file_paths 0 →
                   cm_dir a +:+ "main.rs" ∉ files)
                  ∧ (cm_side a = Main → cm_dir a +:+ "main.rs" ∈ prefix_files a (cm_module a) all_file_paths 0 →
                     cm_dir a +:+ "lib.rs" ∉ files)).

Lemma other_root_of_anchor meta importer crates a :
  use_anchor crates importer meta a →
  rust_use_other_root meta importer crates
  = match cm_side a with Lib => Some (cm_dir a +:+ "main.rs") | Main => Some (cm_dir a +:+ "lib.rs") | Either => None end.
Proof.
  unfold rust_use_other_root.
  destruct 1 as [c dir written Hr Hc Hm Hd|dir roots fm written Hr Hm Hl|dir roots above below written Hr Hm Hl Hup]; rewrite Hr; cbn.
  - rewrite Hc. cbn. by rewrite Hd.
  - by rewrite Hl.
  - by rewrite Hl.
Qed.

Lemma crate_module_files_longest a all_file_paths files :
  crate_module_files a (cm_module a) all_file_paths = files → files ≠ [] → names_longest all_file_paths a files.
Proof.
  intros Hf Hn. destruct (crate_module_files_spec _ _ _ _ Hf) as [(k & Hk)|[-> _]]; [|done].
  exists k. split; [done|]. intros ->. destruct Hk as (_ & _ & _ & ->). apply own_root_excludes.
Qed.

(** C39: The files a Rust [use] names ([rust_use_files]).  With the module its metadata says (of another package's library, from the root of the importer's crate, or from the importer's module or levels above it): the answer is every project file that can hold the longest leading part of that module's path that any file holds, so no longer part has a file, the rest being inline modules; where that part is the crate root it keeps to the crate the importer is compiled into: in a package with both roots the other crate's root, which [rust_use_other_root] names, is not in it.  There is an answer exactly when the metadata says a module and some leading part of it has a file.  A file's own module names the file, and [use crate::m] with the module [m] of another file of the crate names that file. *)
Theorem rust_use_files_ok (all_file_paths : gset string) (crates : RustCrates) :
  (∀ meta importer files, rust_use_files meta importer all_file_paths crates = Some files →
     files ≠ [] ∧ (∀ f, f ∈ files → f ∈ all_file_paths)
     ∧ ∃ a, use_anchor crates importer meta a ∧ names_longest all_file_paths a files
            ∧ rust_use_other_root meta importer crates
              = match cm_side a with
                | Lib => Some (cm_dir a +:+ "main.rs") | Main => Some (cm_dir a +:+ "lib.rs") | Either => None
                end)
  ∧ (∀ meta importer, is_Some (rust_use_files meta importer all_file_paths crates) ↔
       ∃ a k, use_anchor crates importer meta a ∧ k ≤ length (cm_module a) ∧ prefix_files a (cm_module a) all_file_paths k ≠ [])
  ∧ (∀ importer dir roots m, rust_crate_layout importer = Some (dir, roots, m) → importer ≠ dir +:+ "mod.rs" →
     importer ∈ all_file_paths →
     ∃ files, rust_use_files self_meta importer all_file_paths crates = Some files ∧ importer ∈ files)
  ∧ (∀ importer dir roots roots' m m' g,
       rust_crate_layout importer = Some (dir, roots, m) → rust_crate_layout g = Some (dir, roots', m') →
       m' ≠ [] → g ∈ all_file_paths →
       ∃ files, rust_use_files (crate_meta m') importer all_file_paths crates = Some files ∧ g ∈ files).
Proof.
  split; [|split; [|split; [eauto using self_path_names|eauto using crate_path_names]]].
  - intros meta importer files Hf. destruct (rust_use_files_anchored _ _ _ _ _ Hf) as (a & Ha).
    rewrite (rust_use_files_anchor _ _ _ _ _ Ha) in Hf. cbv zeta in Hf. case_bool_decide as Hn; [done|]. injection Hf as Hf.
    split; [by rewrite <-Hf|]. split; [rewrite <-Hf; apply crate_module_files_exist|]. exists a. split; [done|].
    split; [apply crate_module_files_longest; congruence|]. by apply other_root_of_anchor.
  - intros meta importer. split.
    + intros [files Hf]. destruct (rust_use_files_anchored _ _ _ _ _ Hf) as (a & Ha).
      rewrite (rust_use_files_anchor _ _ _ _ _ Ha) in Hf. cbv zeta in Hf. case_bool_decide as Hn; [done|].
      destruct (crate_module_files_spec a (cm_module a) all_file_paths _ eq_refl) as [(k & Hk & Hne & _)|[? _]]; [by exists a, k|done].
    + intros (a & k & Ha & Hk & Hne). rewrite (rust_use_files_anchor _ _ _ _ _ Ha). cbv zeta. case_bool_decide as Hn; [|by eexists].
      destruct Hne. by apply crate_module_files_nil.
Qed.

(** C40: A path call anchored in one crate ([rust_anchored_targets]).  The answer is [Named] exactly when the crate has a candidate in the module file the path names, and holds all of those; otherwise [Elsewhere] holds exactly the candidates of the crate that share the longest leading part of the module path with it, and [Nothing] means no candidate of the crate can be reached by the path.  Remembering the files of a module path by its length gives the same ranks as looking them up each time, and every file a named candidate is in exists. *)
Theorem rust_anchored_targets_ok `{U : Unicode} (st : Store) (all_file_paths : gset string)
    (node_id_to_path : gmap Z string) (a : CrateModule) (candidates : list Z) :
  anchored_spec st all_file_paths node_id_to_path a candidates
    (rust_anchored_targets st all_file_paths node_id_to_path a candidates)
  ∧ (∀ path qn, rank_alone all_file_paths a path qn = Some RankNamed → path ∈ all_file_paths)
  ∧ (∀ path qn files_of, memory_ok all_file_paths a files_of →
       (anchor_rank all_file_paths a path qn files_of).1 = rank_alone all_file_paths a path qn
       ∧ memory_ok all_file_paths a (anchor_rank all_file_paths a path qn files_of).2).
Proof.
  split; [apply rust_anchored_targets_spec|split; [|intros; by apply anchor_rank_memory]].
  intros path qn. unfold rank_alone, anchor_rank, remembered_files. destruct (module_part _ _) as [mp|]; [|done].
  rewrite lookup_empty. cbn. destruct (existsb _ _) eqn:E; [|by destruct (crate_file_module a path)].
  intros _. apply existsb_exists in E as (f & Hf%list_elem_of_In & ->%String.eqb_eq). by eapply crate_module_files_exist.
Qed.

Definition demo_files : gset string := list_to_set ["src/lib.rs"; "src/main.rs"; "src/a/b.rs"; "src/a/mod.rs"].
Definition demo_crates : RustCrates :=
  mkCrates ∅ ∅ {["src/" := Known {["a"]} ∅]} false [].

Lemma rust_use_files_ok_witness :
  rust_use_files (crate_meta ["x"]) "src/a/b.rs" demo_files demo_crates = Some ["src/lib.rs"]
  ∧ rust_use_other_root (crate_meta ["x"]) "src/a/b.rs" demo_crates = Some "src/main.rs"
  ∧ ∃ files, rust_use_files (crate_meta ["a"; "b"]) "src/main.rs" demo_files demo_crates = Some files
             ∧ "src/a/b.rs" ∈ files.
Proof.
  split; [by vm_compute|split; [by vm_compute|]].
  apply (proj2 (proj2 (proj2 (rust_use_files_ok demo_files demo_crates))) "src/main.rs" "src/"
           ["src/lib.rs"; "src/main.rs"] ["src/lib.rs"; "src/main.rs"] [] ["a"; "b"] "src/a/b.rs");
    [by vm_compute|by vm_compute|done|by apply (bool_decide_unpack _); vm_compute].
Defined.
