(* ===== verification/RustFn.v ===== *)
(** * Rust functions as calls see them ([indexer/pipeline/resolve.rs])

    What the text of a signature tells of a function's parameters, which of a
    file's functions are free, and which calls the language lets reach one; the
    types an impl stands for when the receiver's type is known. *)

From S2P Require Import Prelude Str Utf8 Domain Resolve RustUse.

(** ** Text *)

Definition text (s : string) : list Z := chars s.

Fixpoint strip_chars (p s : list Z) : option (list Z) :=
  match p, s with
  | [], _ => Some s
  | a :: p, b :: s => if a =? b then strip_chars p s else None
  | _ :: _, [] => None
  end%Z.
Definition starts_chars (p : string) (s : list Z) : bool := bool_decide (is_Some (strip_chars (text p) s)).

(** [trim_start] *)
Definition skip_space (s : list Z) : list Z := drop_while is_whitespace s.

(** [str::split_once] *)
Fixpoint split_once (sep s : string) : option (string * string) :=
  match strip_prefix sep s with
  | Some rest => Some ("", rest)
  | None => match s with
            | String c s => '(a, b) ← split_once sep s; Some (String c a, b)
            | EmptyString => None
            end
  end.

(** ** Signatures *)

Section Signature.
Context `{U : Unicode}.

Definition ident_char (c : Z) : bool := is_alphanumeric c || (c =? 95)%Z.

Definition skip_lifetime (s : list Z) : list Z :=
  match strip_chars (text "'") s with
  | Some r => skip_space (drop_while ident_char r)
  | None => s
  end.

Definition rust_signature_takes_self (signature : string) : bool :=
  match strip_chars (text "(") (skip_space (text signature)) with
  | None => false
  | Some rest =>
      let rest := skip_space rest in
      let rest := match strip_chars (text "&") rest with
                  | Some r => skip_lifetime (skip_space r)
                  | None => rest
                  end in
      let rest := match strip_chars (text "mut") rest with
                  | Some (c :: r) => if is_whitespace c then skip_space (c :: r) else rest
                  | _ => rest
                  end in
      match strip_chars (text "self") rest with
      | Some (c :: _) => negb (ident_char c)
      | Some [] => true
      | None => false
      end
  end.

Definition char_in (cs : string) (c : Z) : bool := existsb (Z.eqb c) (text cs).

(** The loop over the characters after the opening parenthesis. *)
Fixpoint count_params (cs : list Z) (depth commas : nat) (prev last_non_space : Z) : option nat :=
  match cs with
  | [] => None
  | c :: cs =>
      let last' := if is_whitespace c then last_non_space else c in
      if char_in "([{<" c then count_params cs (S depth) commas c last'
      else if char_in ">" c && char_in "-" prev then count_params cs depth commas c last'
      else if char_in ")]}>" c && negb (depth =? 0) then count_params cs (pred depth) commas c last'
      else if char_in ")" c then
        Some (if char_in "(" last_non_space then 0 else commas + (if char_in "," last_non_space then 0 else 1))
      else if char_in "," c && (depth =? 0) then count_params cs depth (S commas) c last'
      else if char_in "#." c && (depth =? 0) then None
      else count_params cs depth commas c last'
  end.

Definition rust_signature_param_count (signature : string) : option nat :=
  if contains "//" signature || contains "/*" signature then None
  else rest ← strip_chars (text "(") (skip_space (text signature)); count_params rest 0 0 40 40.

Record RustFnShape := mkShape {
  takes_self : bool;
  params : option nat;
  associated : bool;
  lowercase_owner : option string;
  crate_private_dir : option string;
}.

Definition rust_blanket_signature (signature : string) : option string * string :=
  match (s ← strip_prefix "<" signature; split_once "> " s) with
  | Some (param, rest) => (Some param, rest)
  | None => (None, signature)
  end.

Definition rust_fn_owner (qualified_name : option string) : option string :=
  '(owner, _) ← qualified_name ≫= rsplit_once ch_dot;
  Some (match rsplit_once ch_dot owner with Some (_, l) => l | None => owner end).

Definition starts_lower (s : string) : bool := match s with String c _ => is_ascii_lower c | EmptyString => false end.

Definition rust_fn_shape (signature qualified_name : option string) : RustFnShape :=
  let signature := (λ s, (rust_blanket_signature s).2) <$> signature in
  let takes_self := match signature with Some s => rust_signature_takes_self s | None => false end in
  let owner := rust_fn_owner qualified_name in
  mkShape takes_self (signature ≫= rust_signature_param_count) (takes_self || bool_decide (is_Some owner))
    (o ← owner; if starts_lower o then Some o else None) None.

Definition rust_lib_dir (path : string) : option string :=
  at_ ← src_at path;
  if starts_with "bin/" (str_drop (at_ + 4) path) then None else Some (str_take (at_ + 4) path).

Definition rust_fn_crate_private (code : string) (associated : bool) : bool :=
  match strip_chars (text "pub") (skip_space (text code)) with
  | Some (c :: rest) =>
      if is_whitespace c || (c =? 40)%Z then starts_chars "(" (skip_space (c :: rest)) else negb associated
  | _ => negb associated
  end.

Definition rust_crate_admits (caller_path : option string) (callee : RustFnShape) : bool :=
  match crate_private_dir callee, caller_path with
  | Some dir, Some caller => bool_decide (rust_lib_dir caller = Some dir)
  | _, _ => true
  end.

(** ** The functions of a file *)

Record RustFnRow := mkRow {
  rf_id : Z;
  rf_signature : option string;
  rf_qualified_name : option string;
  rf_lines : Z * Z;
  rf_code : string;
}.

Definition owner_of (r : RustFnRow) : option string := rust_fn_owner (rf_qualified_name r).

Definition line_cmp : RustFnRow → RustFnRow → comparison :=
  cmp_then (cmp_by (λ r, (rf_lines r).1) Z.compare) (cmp_rev (cmp_by (λ r, (rf_lines r).2) Z.compare)).

(** The [while] loop: spans that ended before the row; the last opened first. *)
Fixpoint pop_ended (start : Z) (open : list (Z * Z)) : list (Z * Z) :=
  match open with
  | (s, e) :: rest => if (e <? start)%Z then pop_ended start rest else open
  | [] => []
  end.

Fixpoint nested_in (group : list RustFnRow) (open : list (Z * Z)) : list Z :=
  match group with
  | [] => []
  | row :: group =>
      let open := pop_ended (rf_lines row).1 open in
      let inside := existsb (λ span, negb (bool_decide (span = rf_lines row)) && ((rf_lines row).2 <=? span.2)%Z) open in
      (if inside then [rf_id row] else []) ++ nested_in group (rf_lines row :: open)
  end.

(** The groups of [by_owner] with more than one row, in any order. *)
Definition owner_groups (rows : list RustFnRow) : list (list RustFnRow) :=
  filter (λ g, 1 < length g)
    ((λ o, filter (λ r, owner_of r = Some o) rows) <$> remove_dups (omap owner_of rows)).

Definition nested_fns (rows : list RustFnRow) : gset Z :=
  list_to_set (g ← owner_groups rows; nested_in (sort_cmp line_cmp g) []).

Definition shape_in_file (lib_dir : option string) (nested : gset Z) (row : RustFnRow) : RustFnShape :=
  let shape := rust_fn_shape (rf_signature row) (rf_qualified_name row) in
  let shape := if bool_decide (rf_id row ∈ nested) && negb (takes_self shape)
               then mkShape (takes_self shape) (params shape) false None (crate_private_dir shape) else shape in
  if rust_fn_crate_private (rf_code row) (associated shape)
  then mkShape (takes_self shape) (params shape) (associated shape) (lowercase_owner shape) lib_dir else shape.

Definition rust_fn_shapes_of_file (path : string) (rows : list RustFnRow) : list (Z * RustFnShape) :=
  (λ row, (rf_id row, shape_in_file (rust_lib_dir path) (nested_fns rows) row)) <$> rows.
End Signature.

(** ** Impl owners *)

Section Owner.
Context `{U : Unicode}.

(** [trim] *)
Definition trim (s : list Z) : list Z := rev (skip_space (rev (skip_space s))).

(** The loop over leading references; each turn drops a character. *)
Fixpoint skip_references (fuel : nat) (s : list Z) : list Z :=
  match fuel with
  | 0 => s
  | S fuel =>
      match strip_chars (text "&") s with
      | None => s
      | Some r =>
          let rest := skip_lifetime (skip_space r) in
          skip_references fuel (match strip_chars (text "mut ") rest with Some r => skip_space r | None => rest end)
      end
  end.

Definition rust_referent (owner : string) : string :=
  let s := trim (text owner) in encode (skip_references (length s) s).

Definition RUST_PRIMITIVES : list string :=
  ["bool"; "char"; "str"; "u8"; "u16"; "u32"; "u64"; "u128"; "usize"; "i8"; "i16"; "i32"; "i64"; "i128"; "isize"; "f32"; "f64"].

Inductive ForeignOwner := No | Exact | Loose.
#[export] Instance ForeignOwner_eq_dec : EqDecision ForeignOwner.
Proof. solve_decision. Defined.

(** The same loop, as this function writes it. *)
Fixpoint skip_owner_references (fuel : nat) (s : list Z) : list Z :=
  match fuel with
  | 0 => s
  | S fuel =>
      match strip_chars (text "&") s with
      | None => s
      | Some r =>
          let rest := skip_lifetime (skip_space r) in
          skip_owner_references fuel (skip_space (default rest (strip_chars (text "mut ") rest)))
      end
  end.

Definition loose (admits : bool) : ForeignOwner := if admits then Loose else No.

Definition foreign_receiver_owner (ty owner : string) (blanket : option string) (own_type_here : bool) : ForeignOwner :=
  let s := trim (text owner) in
  let o := encode (skip_owner_references (length s) s) in
  if bool_decide (blanket = Some o) then Loose
  else if starts_with "[" o || starts_with "(" o || starts_with "*" o || starts_with "fn(" o || starts_with "dyn " o
  then loose (String.eqb ty "" || (String.eqb ty "Vec" && starts_with "[" o))
  else if one_of RUST_PRIMITIVES o then
    if String.eqb o ty then Exact else loose (String.eqb ty "" || (String.eqb o "str" && String.eqb ty "String"))
  else if String.eqb o ty && negb own_type_here then Exact else No.
End Owner.

(** ** The metadata of a call *)

Inductive RustRecv :=
| Project (name : string) (via : option string) (path : option (list string))
| ForeignType (name : string).

Section Call.
Context (from_str : string → option json).

Definition rust_call_arity (metadata : option string) : option N :=
  m ← metadata; v ← from_str m; n ← get v "n"; as_u64 n.

(** [usize] addition wraps in a release build. *)
Definition wrap_usize (n : N) : N := (n mod 2 ^ 64)%N.

(** A path through a lowercase segment that is not the method's own type. *)
Definition module_path (meta : option CalleeMeta) (callee : RustFnShape) : bool :=
  match meta with
  | Some (Path segments) =>
      match last segments with
      | Some s => starts_lower s && negb (bool_decide (lowercase_owner callee = Some s))
      | None => false
      end
  | _ => false
  end.

Definition rust_call_shape_admits (metadata : option string) (callee : RustFnShape) : bool :=
  if match metadata with None => true | Some m => String.eqb m "" end then negb (associated callee)
  else
    let meta := parse_callee_metadata from_str metadata in
    let method_call := match meta with Some (Receiver _) | Some Chain | Some Member => true | _ => false end in
    if method_call && negb (takes_self callee) then false
    else if associated callee && module_path meta callee then false
    else
      let receiver := takes_self callee && (method_call || match meta with Some (SelfRecv _) => true | _ => false end) in
      match rust_call_arity metadata, params callee with
      | Some n, Some params => (wrap_usize (n + if receiver then 1 else 0) =? N.of_nat params)%N
      | _, _ => true
      end.

Definition CALL_Q_PACKAGE : string := "pkg".

Definition is_package_bound (metadata : option string) : bool :=
  match m ← metadata; from_str m with
  | Some v => bool_decide (get v "q" ≫= as_str = Some CALL_Q_PACKAGE)
  | None => false
  end.

Definition module_call_skips_own_file (metadata : option string) : bool :=
  match metadata with
  | Some m =>
      if contains (json_key "q" +:+ quoted "module") m then
        match from_str m with
        | Some meta => bool_decide (get meta "q" ≫= as_str = Some "module")
                       && bool_decide (get meta "loc" = None) && bool_decide (get meta "attr" = None)
        | None => false
        end
      else false
  | None => false
  end.

Definition rust_receiver (metadata : option string) (crate_roots : RustCrates) : option RustRecv :=
  m ← metadata;
  if negb (contains (json_key "rt") m) then None
  else
    v ← from_str m;
    name ← get v "rt" ≫= as_str;
    let via := get v "rv" ≫= as_str in
    let path := split_colons <$> (get v "rp" ≫= as_str) in
    let kind := get v "rk" ≫= as_str in
    if bool_decide (kind = Some "p") then Some (Project name via path)
    else if bool_decide (kind = Some "f") then Some (ForeignType name)
    else match get v "rc" ≫= as_str with
         | Some krate => if crates_contain crate_roots krate then Some (Project name via path)
                         else if rc_opaque crate_roots then None else Some (ForeignType name)
         | None => None
         end.

(** *** Edge metadata marks *)

Context (to_string : json → string).
Context (map_insert : string → json → list (string * json) → list (string * json)).
Context (map_remove : string → list (string * json) → list (string * json)).

Definition CALL_META_MEMBER : string := "{" +:+ json_key "q" +:+ quoted "member" +:+ "}".

Definition ambiguous_meta (metadata : string) : string :=
  match from_str metadata with
  | Some (JObject fields) => to_string (JObject (map_insert "amb" (JNumber "1") fields))
  | _ => CALL_META_MEMBER
  end.

Definition decided_meta (metadata : string) : string :=
  match from_str metadata with
  | Some (JObject fields) =>
      if bool_decide (is_Some (field_in "amb" fields)) then to_string (JObject (map_remove "amb" fields)) else metadata
  | _ => metadata
  end.

Definition reexport_meta (metadata dir : string) (several : bool) : string :=
  let marked := match from_str metadata with
                | Some (JObject fields) => to_string (JObject (map_insert "rx" (JString dir) fields))
                | _ => metadata
                end in
  if several then ambiguous_meta marked else marked.
End Call.

(** ** Project Python modules *)

Section PythonModules.
Context (map : gmap string (list string)).

(** A key of the map, or a prefix of one at a dot. *)
Definition names_module (module : string) : bool :=
  bool_decide (is_Some (map !! module))
  || existsb (λ k, match strip_prefix module k with Some (String c _) => Ascii.eqb c ch_dot | _ => false end)
       (map_to_list map).*1.

Definition python_module_known (module : string) (seen : gmap string bool) : bool * gmap string bool :=
  match seen !! module with
  | Some known => (known, seen)
  | None => let known := names_module module in (known, <[module := known]> seen)
  end.
End PythonModules.

(** * Properties *)

Section Properties.
Context `{U : Unicode}.

(** ** Functions nested in a function of the same owner *)

Definition starts_before (r r' : RustFnRow) : Prop := ((rf_lines r).1 <= (rf_lines r').1)%Z.
Definition spans_ok (r : RustFnRow) : Prop := ((rf_lines r).1 <= (rf_lines r).2)%Z.

(** The span strictly contains the row's, given that it starts no later. *)
Definition covers (span : Z * Z) (r : RustFnRow) : Prop := span ≠ rf_lines r ∧ ((rf_lines r).2 <= span.2)%Z.

Lemma pop_ended_spec start open span : span ∈ pop_ended start open → span ∈ open.
Proof. induction open as [|[s e] open IH]; cbn; [done|]. destruct (_ <? _)%Z; [|done]. intros ?%IH. by right. Qed.

Lemma pop_ended_keeps start open span : span ∈ open → (start <= span.2)%Z → span ∈ pop_ended start open.
Proof.
  induction open as [|[s e] open IH]; cbn; [done|]. intros Hin Hs. destruct (Z.ltb_spec e start); [|done].
  apply elem_of_cons in Hin as [->|Hin]; [cbn in Hs; lia|by apply IH].
Qed.

Lemma nested_in_spec group open id :
  Forall spans_ok group → StronglySorted starts_before group →
  id ∈ nested_in group open ↔
  ∃ g1 r g2 span, group = g1 ++ r :: g2 ∧ rf_id r = id ∧ (span ∈ open ∨ ∃ r', r' ∈ g1 ∧ span = rf_lines r') ∧ covers span r.
Proof.
  intros Hok Hs. revert open. induction Hs as [|row group Hs IH Hle]; intros open; cbn [nested_in].
  { split; [by intros ?%elem_of_nil|]. intros (g1 & r & g2 & span & Heq & _). by destruct g1. }
  apply Forall_cons in Hok as [Hrow Hok]. set (op := pop_ended _ _). rewrite elem_of_app.
  rewrite (IH Hok). clear IH.
  assert (existsb (λ span, negb (bool_decide (span = rf_lines row)) && ((rf_lines row).2 <=? span.2)%Z) op = true
          ↔ ∃ span, span ∈ open ∧ covers span row) as Hin.
  { rewrite existsb_exists. unfold covers. split.
    - intros (span & Hsp%list_elem_of_In & [H1%negb_true_iff%bool_decide_eq_false H2%Z.leb_le]%andb_true_iff).
      exists span. split; [by eapply pop_ended_spec|done].
    - intros (span & Hsp & H1 & H2). exists span. split.
      + apply list_elem_of_In, pop_ended_keeps; [done|]. unfold spans_ok in Hrow. lia.
      + apply andb_true_iff. split; [by apply negb_true_iff, bool_decide_eq_false|by apply Z.leb_le]. }
  split.
  - intros [Hid|(g1 & r & g2 & span & -> & Hr & Hsp & Hc)].
    + destruct (existsb _ op) eqn:Hex; [|by apply elem_of_nil in Hid]. apply list_elem_of_singleton in Hid as ->.
      destruct (proj1 Hin eq_refl) as (span & Hsp & Hc). exists [], row, group, span. split; [done|split; [done|split; [by left|done]]].
    + exists (row :: g1), r, g2, span. split; [done|split; [done|split; [|done]]].
      destruct Hsp as [[->|Hsp]%elem_of_cons|(r' & Hr' & ->)].
      * right. exists row. split; [by left|done].
      * left. by eapply pop_ended_spec.
      * right. exists r'. split; [by right|done].
  - intros (g1 & r & g2 & span & Heq & Hr & Hsp & Hc). destruct g1 as [|row' g1]; injection Heq as <- ->.
    + left. destruct Hsp as [Hsp|(r' & Hr' & _)]; [|by apply elem_of_nil in Hr'].
      assert (existsb (λ span, negb (bool_decide (span = rf_lines row)) && ((rf_lines row).2 <=? span.2)%Z) op = true) as ->
        by (apply Hin; by exists span). rewrite Hr. by left.
    + right. exists g1, r, g2, span. split; [done|split; [done|split; [|done]]].
      destruct Hsp as [Hsp|(r' & [->|Hr']%elem_of_cons & ->)].
      * left. right. apply pop_ended_keeps; [done|]. rewrite Forall_forall in Hle, Hok.
        assert (r ∈ g1 ++ r :: g2) as Hrin by set_solver. specialize (Hle r Hrin). specialize (Hok r Hrin).
        unfold starts_before, spans_ok, covers in *. lia.
      * left. by left.
      * right. by exists r'.
Qed.

(** A function of the same owner whose lines strictly contain the row's. *)
Definition inside_same_owner (rows : list RustFnRow) (r : RustFnRow) : Prop :=
  ∃ r' o, r' ∈ rows ∧ owner_of r = Some o ∧ owner_of r' = Some o ∧ rf_lines r' ≠ rf_lines r
          ∧ ((rf_lines r').1 <= (rf_lines r).1)%Z ∧ ((rf_lines r).2 <= (rf_lines r').2)%Z.

#[local] Instance line_cmp_ok : CmpOk line_cmp.
Proof. unfold line_cmp. apply _. Qed.

(** In the order of the walk a span that starts no later comes first, the longer one before. *)
Lemma line_cmp_starts r r' : cmp_leb line_cmp r r' = true → starts_before r r'.
Proof.
  unfold cmp_leb, line_cmp, cmp_then, cmp_by, starts_before. destruct (Z.compare_spec (rf_lines r).1 (rf_lines r').1); try done; lia.
Qed.

Lemma line_cmp_covered r r' :
  cmp_leb line_cmp r r' = true → ((rf_lines r').1 <= (rf_lines r).1)%Z → ((rf_lines r).2 <= (rf_lines r').2)%Z → rf_lines r' = rf_lines r.
Proof.
  unfold cmp_leb, line_cmp, cmp_then, cmp_by, cmp_rev.
  destruct (Z.compare_spec (rf_lines r).1 (rf_lines r').1); [|lia|done].
  destruct (Z.compare_spec (rf_lines r').2 (rf_lines r).2); [|lia|done].
  intros _ _ _. destruct (rf_lines r), (rf_lines r'); cbn in *; congruence.
Qed.

Lemma nested_in_group rows o id : Forall spans_ok rows →
  id ∈ nested_in (sort_cmp line_cmp (filter (λ r, owner_of r = Some o) rows)) [] ↔
  ∃ r r', r ∈ rows ∧ r' ∈ rows ∧ rf_id r = id ∧ owner_of r = Some o ∧ owner_of r' = Some o
     ∧ rf_lines r' ≠ rf_lines r ∧ ((rf_lines r').1 <= (rf_lines r).1)%Z ∧ ((rf_lines r).2 <= (rf_lines r').2)%Z.
Proof.
  intros Hok. rewrite Forall_forall in Hok. set (g := sort_cmp line_cmp _).
  assert (∀ r, r ∈ g ↔ r ∈ rows ∧ owner_of r = Some o) as Hg.
  { intros r. unfold g, sort_cmp. rewrite elem_of_sort_by, list_elem_of_filter. tauto. }
  assert (StronglySorted (λ x y, cmp_leb line_cmp x y = true) g) as Hsort by apply sort_cmp_sorted, _.
  rewrite nested_in_spec.
  2: { apply Forall_forall. intros r [Hr _]%Hg. by apply Hok. }
  2: { clear Hg. induction Hsort as [|r l Hl IH Hr]; constructor; [done|]. eapply Forall_impl; [exact Hr|].
       intros r'. apply line_cmp_starts. }
  split.
  - intros (g1 & r & g2 & span & Heq & Hid & [Hn|(r' & Hr' & ->)] & Hne & Hend); [by apply elem_of_nil in Hn|].
    assert (r ∈ g) as [Hr Ho]%Hg by (rewrite Heq; set_solver).
    assert (r' ∈ g) as [Hr2 Ho2]%Hg by (rewrite Heq; set_solver).
    exists r, r'. split_and!; [done..| |done]. rewrite Heq in Hsort.
    apply (line_cmp_starts r' r). apply (StronglySorted_app_1_elem_of (λ x y, cmp_leb line_cmp x y = true) g1 (r :: g2)); [done|done|by left].
  - intros (r & r' & Hr & Hr' & Hid & Ho & Ho' & Hne & H1 & H2).
    assert (r ∈ g) as Hrg by (by apply Hg). assert (r' ∈ g) as Hrg' by (by apply Hg).
    apply list_elem_of_split in Hrg as (g1 & g2 & Heq). exists g1, r, g2, (rf_lines r').
    split_and!; [done..| |by split]. right. exists r'. split; [|done].
    rewrite Heq in Hrg'. apply elem_of_app in Hrg' as [|[->|Hin]%elem_of_cons]; [done|done|]. exfalso.
    apply Hne, line_cmp_covered; [|done|done]. rewrite Heq in Hsort. apply StronglySorted_app_1_r in Hsort.
    apply StronglySorted_inv in Hsort as [_ Ha]. rewrite Forall_forall in Ha. by apply Ha.
Qed.

Lemma nested_fns_spec rows id : Forall spans_ok rows →
  id ∈ nested_fns rows ↔ ∃ r, r ∈ rows ∧ rf_id r = id ∧ inside_same_owner rows r.
Proof.
  intros Hok. unfold nested_fns. rewrite elem_of_list_to_set, list_elem_of_bind.
  assert (∀ g, g ∈ owner_groups rows → ∃ o, g = filter (λ r, owner_of r = Some o) rows) as Hgroups.
  { intros g [_ (o & -> & _)%list_elem_of_fmap]%list_elem_of_filter. by exists o. }
  split.
  - intros (g & Hid & Hg). destruct (Hgroups g Hg) as (o & ->). apply nested_in_group in Hid as (r & r' & ?); [|done]. exists r.
    destruct_and!. split_and!; [done..|]. exists r', o. by split_and!.
  - intros (r & Hr & Hid & r' & o & Hr' & Ho & Ho' & Hne & H1 & H2).
    exists (filter (λ r, owner_of r = Some o) rows). split; [apply nested_in_group; [done|]; exists r, r'; by split_and!|].
    apply list_elem_of_filter. split.
    + assert (r ∈ filter (λ r, owner_of r = Some o) rows) as Hin1 by (by apply list_elem_of_filter).
      assert (r' ∈ filter (λ r, owner_of r = Some o) rows) as Hin2 by (by apply list_elem_of_filter).
      destruct (filter _ rows) as [|a [|b l]]; cbn; [by apply elem_of_nil in Hin1| |lia].
      apply list_elem_of_singleton in Hin1 as ->. by apply list_elem_of_singleton in Hin2 as ->.
    + apply list_elem_of_fmap. exists o. split; [done|]. apply elem_of_remove_dups, list_elem_of_omap. by exists r.
Qed.

Lemma shape_in_file_ok lib_dir rows r : Forall spans_ok rows → NoDup (rf_id <$> rows) → r ∈ rows →
  let shape := shape_in_file lib_dir (nested_fns rows) r in
  (associated shape = false ↔ takes_self shape = false ∧ (owner_of r = None ∨ inside_same_owner rows r))
  ∧ crate_private_dir shape = if rust_fn_crate_private (rf_code r) (associated shape) then lib_dir else None.
Proof.
  intros Hok Hnd Hr. cbn zeta.
  assert (rf_id r ∈ nested_fns rows ↔ inside_same_owner rows r) as Hn.
  { rewrite nested_fns_spec by done. split; [|by exists r]. intros (r' & Hr' & Hid & Hin).
    assert (r' = r) as ->; [|done]. apply list_elem_of_lookup in Hr as [i Hi], Hr' as [j Hj].
    assert (i = j); [|naive_solver]. eapply (NoDup_lookup _ i j (rf_id r)); [exact Hnd|..]; rewrite list_lookup_fmap.
    - by rewrite Hi. - by rewrite Hj, <-Hid. }
  unfold shape_in_file. set (sh := rust_fn_shape _ _).
  assert (associated sh = takes_self sh || bool_decide (is_Some (owner_of r))) as Ha by done.
  assert (crate_private_dir sh = None) as Hc by done. clearbody sh.
  assert (owner_of r = None ↔ bool_decide (is_Some (owner_of r)) = false) as Ho.
  { rewrite bool_decide_eq_false, eq_None_not_Some. tauto. }
  destruct (bool_decide (rf_id r ∈ nested_fns rows) && negb (takes_self sh)) eqn:Hnest.
  - apply andb_true_iff in Hnest as [Hid%bool_decide_eq_true%Hn Ht%negb_true_iff]. cbn [associated takes_self crate_private_dir].
    rewrite Hc. destruct (rust_fn_crate_private (rf_code r) false) eqn:Hp; cbn [associated takes_self crate_private_dir]; rewrite ?Hp; split; tauto.
  - assert (takes_self sh = true ∨ ~ inside_same_owner rows r) as Hno.
    { apply andb_false_iff in Hnest as [Hid%bool_decide_eq_false|Ht%negb_false_iff]; [right|by left]. by rewrite <-Hn. }
    assert (associated sh = false ↔ takes_self sh = false ∧ (owner_of r = None ∨ inside_same_owner rows r)) as Hs.
    { rewrite Ha, orb_false_iff, Ho. destruct Hno as [->|]; [naive_solver|tauto]. }
    destruct (rust_fn_crate_private (rf_code r) (associated sh)) eqn:Hp; cbn [associated takes_self crate_private_dir];
      rewrite ?Hp; by split.
Qed.

(** C38: Which functions of a Rust file a call reaches, read off their signatures, names and lines. Each function has
    one shape. A bare [f()] reaches it exactly when it does not take [self] and is no item of an [impl] or [trait]:
    its name has no owner, or it is nested in a function of that owner (the scan over the sorted spans finds exactly
    the functions strictly inside another of the same owner). A caller of another crate is refused exactly when the
    function's own visibility keeps it in its library. *)
Theorem rust_fn_shapes_of_file_ok from_str path caller rows r :
  Forall spans_ok rows → NoDup (rf_id <$> rows) → r ∈ rows →
  ∃ shape, (∀ sh, (rf_id r, sh) ∈ rust_fn_shapes_of_file path rows ↔ sh = shape)
    ∧ takes_self shape = match rf_signature r with
                         | Some s => rust_signature_takes_self (rust_blanket_signature s).2
                         | None => false
                         end
    ∧ (rust_call_shape_admits from_str None shape = true
       ↔ takes_self shape = false ∧ (owner_of r = None ∨ inside_same_owner rows r))
    ∧ (rust_crate_admits (Some caller) shape = true
       ↔ (rust_fn_crate_private (rf_code r) (associated shape) = true →
          rust_lib_dir path = None ∨ rust_lib_dir caller = rust_lib_dir path)).
Proof.
  intros Hok Hnd Hr. exists (shape_in_file (rust_lib_dir path) (nested_fns rows) r).
  destruct (shape_in_file_ok (rust_lib_dir path) rows r Hok Hnd Hr) as [Ha Hc]. split_and!.
  - intros sh. unfold rust_fn_shapes_of_file. rewrite list_elem_of_fmap. split.
    + intros (r' & [= Hid ->] & Hr'). f_equal. apply list_elem_of_lookup in Hr as [i Hi], Hr' as [j Hj].
      assert (i = j); [|naive_solver]. eapply (NoDup_lookup _ i j (rf_id r)); [exact Hnd|..]; rewrite list_lookup_fmap.
      * by rewrite Hi. * by rewrite Hj, Hid.
    + intros ->. by exists r.
  - assert (takes_self (shape_in_file (rust_lib_dir path) (nested_fns rows) r)
            = takes_self (rust_fn_shape (rf_signature r) (rf_qualified_name r))) as -> by (unfold shape_in_file; by repeat case_match).
    cbn. by destruct (rf_signature r).
  - cbn [rust_call_shape_admits]. by rewrite negb_true_iff.
  - unfold rust_crate_admits. rewrite Hc. destruct (rust_fn_crate_private _ _); [|naive_solver].
    destruct (rust_lib_dir path) as [d|]; [|naive_solver]. rewrite bool_decide_eq_true. naive_solver.
Qed.

(** ** Parameter lists *)

Definition opener (c : Z) : bool := char_in "([{<" c.
Definition closer (c : Z) : bool := char_in ")]}>" c.

(** A piece of a parameter list whose brackets match; at the top level ([true]) it holds no comma, [#] or dot. *)
Inductive piece : bool → list Z → Prop :=
| piece_nil top : piece top []
| piece_char top c s : opener c = false → closer c = false → (top = true → char_in ",#." c = false) → piece top s →
    piece top (c :: s)
| piece_arrow top s : piece top s → piece top (45 :: 62 :: s)%Z
| piece_group top o c s1 s2 : opener o = true → closer c = true → piece false s1 → (c = 62%Z → last s1 ≠ Some 45%Z) →
    piece top s2 → piece top (o :: s1 ++ c :: s2).

(** The last character that is not a space, or the one before. *)
Definition last_seen (l : Z) (s : list Z) : Z := foldl (λ l c, if is_whitespace c then l else c) l s.

Lemma char_in_iff cs c : char_in cs c = true ↔ c ∈ text cs.
Proof. unfold char_in. rewrite existsb_exists. setoid_rewrite list_elem_of_In. setoid_rewrite Z.eqb_eq. naive_solver. Qed.

Lemma opener_cases c : opener c = true → c = 40%Z ∨ c = 91%Z ∨ c = 123%Z ∨ c = 60%Z.
Proof. intros Hc%char_in_iff. change (text "([{<") with [40; 91; 123; 60]%Z in Hc. set_solver. Qed.
Lemma closer_cases c : closer c = true → c = 41%Z ∨ c = 93%Z ∨ c = 125%Z ∨ c = 62%Z.
Proof. intros Hc%char_in_iff. change (text ")]}>") with [41; 93; 125; 62]%Z in Hc. set_solver. Qed.
Lemma not_closer c : closer c = false → char_in ">" c = false ∧ char_in ")" c = false.
Proof.
  intros Hc. split; apply not_true_is_false; intros Hx%char_in_iff;
    (assert (closer c = true); [|congruence]); apply char_in_iff; revert Hx; cbn; set_solver.
Qed.

Lemma count_step c cs depth commas prev l :
  opener c = false → closer c = false → (depth = 0 → char_in ",#." c = false) →
  count_params (c :: cs) depth commas prev l = count_params cs depth commas c (if is_whitespace c then l else c).
Proof.
  intros Ho Hc Hd. cbn [count_params]. fold (opener c) (closer c). rewrite Ho, Hc.
  destruct (not_closer c Hc) as [-> ->]. cbn [andb].
  destruct depth as [|depth]; [|by rewrite !andb_false_r]. specialize (Hd eq_refl). cbn [Nat.eqb]. rewrite !andb_true_r.
  assert (∀ cs, (∀ x, x ∈ text cs → x ∈ text ",#.") → char_in cs c = false) as Hsub.
  { intros cs0 Hin. apply not_true_is_false. intros Hx%char_in_iff%Hin%char_in_iff. congruence. }
  rewrite !Hsub; [done|intros x; cbn; set_solver..].
Qed.

(** The loop walks over a piece. *)
Lemma count_piece top s : piece top s → ∀ tail depth commas prev l, (top = false → depth ≠ 0) →
  count_params (s ++ tail) depth commas prev l = count_params tail depth commas (default prev (last s)) (last_seen l s).
Proof.
  assert (∀ (a : Z) s prev, default prev (last (a :: s)) = default a (last s)) as Hlast.
  { intros a t prev. destruct t as [|b t]; [done|]. rewrite last_cons_cons. by destruct (last (b :: t)) eqn:E; [|by apply last_None in E]. }
  induction 1 as [top|top c s Ho Hc Ht _ IH|top s _ IH|top o c s1 s2 Ho Hc H1 IH1 Hgt H2 IH2]; intros tail depth commas prev l Hd.
  - done.
  - cbn [app]. rewrite count_step; [|done..|].
    + rewrite IH by done. by rewrite Hlast.
    + intros ->. destruct top; [by apply Ht|by destruct Hd].
  - cbn [app].
    assert (count_params (45%Z :: 62%Z :: s ++ tail) depth commas prev l = count_params (s ++ tail) depth commas 62 62) as -> by done.
    rewrite IH by done. by rewrite !Hlast.
  - cbn [app]. rewrite <-app_assoc. cbn [app]. cbn [count_params]. fold (opener o). rewrite Ho.
    rewrite IH1 by done.
    assert (opener c = false) as Hco by (by destruct (closer_cases c Hc) as [-> |[-> |[-> | ->]]]).
    assert (is_whitespace c = false) as Hcw by (by destruct (closer_cases c Hc) as [-> |[-> |[-> | ->]]]).
    assert (is_whitespace o = false) as How by (by destruct (opener_cases o Ho) as [-> |[-> |[-> | ->]]]).
    cbn [count_params]. fold (opener c) (closer c). rewrite Hco, Hc, Hcw, How.
    assert (char_in ">" c && char_in "-" (default o (last s1)) = false) as ->.
    { destruct (char_in ">" c) eqn:Hgc; [|done]. apply char_in_iff in Hgc. change (text ">") with [62%Z] in Hgc.
      apply list_elem_of_singleton in Hgc. specialize (Hgt Hgc). apply not_true_is_false. intros Hm%char_in_iff.
      change (text "-") with [45%Z] in Hm. apply list_elem_of_singleton in Hm. destruct (last s1); cbn in Hm; [by subst|].
      by destruct (opener_cases o Ho) as [-> |[-> |[-> | ->]]]. }
    cbn [andb negb Nat.eqb pred]. rewrite IH2 by done. f_equal.
    + rewrite Hlast, last_app. cbn [app]. rewrite last_cons. destruct (last s2); [done|]. done.
    + unfold last_seen. cbn [foldl]. rewrite foldl_app. cbn [foldl]. by rewrite Hcw.
Qed.

(** At the top level a piece that is not blank ends in neither a comma nor a parenthesis that opens. *)
Lemma last_seen_piece s l : piece true s →
  (Forall (λ c, is_whitespace c = true) s ∧ last_seen l s = l) ∨ (last_seen l s ≠ 40%Z ∧ last_seen l s ≠ 44%Z).
Proof.
  remember true as top eqn:Et. intros Hs. revert l. induction Hs as [top|top c s Ho Hc Ht _ IH|top s _ IH|top o c s1 s2 Ho Hc H1 IH1 Hgt H2 IH2];
    intros l; subst top.
  - left. by split; [constructor|].
  - unfold last_seen. cbn [foldl]. fold (last_seen (if is_whitespace c then l else c) s). destruct (is_whitespace c) eqn:Hw.
    + destruct (IH eq_refl l) as [[? ?]|?]; [left; split; [by constructor|done]|by right].
    + right. destruct (IH eq_refl c) as [[_ ->]|?]; [|done]. split; intros ->; [done|]. by specialize (Ht eq_refl).
  - change (last_seen l (45%Z :: 62%Z :: s)) with (last_seen 62 s). right.
    destruct (IH eq_refl 62%Z) as [[_ ->]|?]; done.
  - right. unfold last_seen. cbn [foldl]. rewrite foldl_app. cbn [foldl].
    assert (is_whitespace c = false) as -> by (by destruct (closer_cases c Hc) as [-> |[-> |[-> | ->]]]).
    fold (last_seen c s2). destruct (IH2 eq_refl c) as [[_ ->]|?]; [|done].
    by destruct (closer_cases c Hc) as [-> |[-> |[-> | ->]]].
Qed.

Fixpoint join_params (ps : list (list Z)) : list Z :=
  match ps with [] => [] | [p] => p | p :: ps => p ++ 44%Z :: join_params ps end.

Lemma count_joined ps tail commas prev l :
  Forall (piece true) ps → Forall (λ p, ~ Forall (λ c, is_whitespace c = true) p) ps → ps ≠ [] →
  ∃ prev' l', count_params (join_params ps ++ tail) 0 commas prev l = count_params tail 0 (commas + pred (length ps)) prev' l'
            ∧ l' ≠ 40%Z ∧ l' ≠ 44%Z.
Proof.
  intros Hp Hb Hne. revert commas prev l. induction ps as [|p ps IH]; intros commas prev l; [done|].
  apply Forall_cons in Hp as [Hp Hps], Hb as [Hb Hbs].
  destruct (last_seen_piece p l Hp) as [[? _]|Hl]; [done|]. destruct ps as [|q ps].
  - cbn [join_params]. rewrite (count_piece true) by done. eexists _, _. split; [|exact Hl]. by rewrite Nat.add_0_r.
  - cbn [join_params]. rewrite <-app_assoc, (count_piece true) by done. cbn [app].
    destruct (IH Hps Hbs ltac:(done) (S commas) 44%Z 44%Z) as (prev' & l' & Heq & Hl').
    exists prev', l'. split; [|done]. cbn [length pred] in *. rewrite Nat.add_succ_comm in Heq. exact Heq.
Qed.

(** The parameters of a Rust signature are counted: whatever its parameters hold (nested types, arrows, closures), with or
    without a trailing comma, when no comment can hide or fake a comma. *)
Theorem rust_signature_param_count_ok signature before ps comma blank rest :
  contains "//" signature = false → contains "/*" signature = false →
  Forall (λ c, is_whitespace c = true) before → Forall (λ c, is_whitespace c = true) blank →
  Forall (piece true) ps → Forall (λ p, ~ Forall (λ c, is_whitespace c = true) p) ps → (comma = true → ps ≠ []) →
  text signature = before ++ 40%Z :: join_params ps ++ (if comma : bool then [44%Z] else []) ++ blank ++ 41%Z :: rest →
  rust_signature_param_count signature = Some (length ps).
Proof.
  intros Hc1 Hc2 Hbef Hbl Hp Hb Hcm Ht. unfold rust_signature_param_count. rewrite Hc1, Hc2, Ht. cbn [orb].
  assert (skip_space (before ++ 40%Z :: join_params ps ++ (if comma then [44%Z] else []) ++ blank ++ 41%Z :: rest)
          = 40%Z :: join_params ps ++ (if comma then [44%Z] else []) ++ blank ++ 41%Z :: rest) as ->.
  { clear -Hbef. induction Hbef as [|c before Hc _ IH]; [done|]. cbn. by rewrite Hc. }
  change (strip_chars (text "(") (40%Z :: ?x)) with (Some x). cbn [mbind option_bind].
  assert (∀ l d p, count_params (blank ++ 41%Z :: rest) 0 d p l
          = Some (if char_in "(" l then 0 else d + (if char_in "," l then 0 else 1))) as Hend.
  { clear -Hbl. induction Hbl as [|c blank Hc _ IH]; intros l d p; [done|]. cbn [app]. rewrite count_step.
    - rewrite Hc. apply IH.
    - apply not_true_is_false. intros Ho. by destruct (opener_cases c Ho) as [-> |[-> |[-> | ->]]].
    - apply not_true_is_false. intros Ho. by destruct (closer_cases c Ho) as [-> |[-> |[-> | ->]]].
    - intros _. apply not_true_is_false. intros Ho%char_in_iff. change (text ",#.") with [44; 35; 46]%Z in Ho. set_solver. }
  destruct ps as [|p ps].
  - destruct comma; [by destruct Hcm|]. cbn [join_params app]. by rewrite Hend.
  - destruct (count_joined (p :: ps) ((if comma then [44%Z] else []) ++ blank ++ 41%Z :: rest) 0 40 40 Hp Hb ltac:(done))
      as (prev' & l' & -> & H1 & H2).
    assert (char_in "(" l' = false ∧ char_in "," l' = false) as [Hl1 Hl2].
    { split; apply not_true_is_false; intros Hx%char_in_iff; apply list_elem_of_singleton in Hx; by subst. }
    destruct comma; cbn [app].
    + change (count_params (44%Z :: ?x) 0 ?c ?p ?l) with (count_params x 0 (S c) 44 44). rewrite Hend.
      change (char_in "(" 44) with false. change (char_in "," 44) with true. cbn [length pred]. f_equal. lia.
    + rewrite Hend, Hl1, Hl2. cbn [length pred]. f_equal. lia.
Qed.
End Properties.

Definition demo_rows : list RustFnRow :=
  [mkRow 1 (Some "(&self) -> mio::Interest") (Some "Interest.to_mio") (10, 20)%Z "pub fn to_mio(&self)";
   mkRow 2 (Some "(a: u8)") (Some "Interest.mio_add") (12, 15)%Z "fn mio_add(a: u8)";
   mkRow 3 (Some "(me: &Arc<Self>)") (Some "Interest.add") (22, 30)%Z "pub(crate) fn add(me: &Arc<Self>)"].

Lemma demo_nested : inside_same_owner demo_rows (mkRow 2 (Some "(a: u8)") (Some "Interest.mio_add") (12, 15)%Z "fn mio_add(a: u8)").
Proof.
  exists (mkRow 1 (Some "(&self) -> mio::Interest") (Some "Interest.to_mio") (10, 20)%Z "pub fn to_mio(&self)"), "Interest".
  split; [by left|]. by vm_compute.
Qed.

(** The function nested in a method is free, and callable from its own crate only. *)
Lemma rust_fn_shapes_of_file_ok_witness :
  ∃ shape, (2%Z, shape) ∈ rust_fn_shapes_of_file (U := ascii_unicode) "mio/src/interest.rs" demo_rows
    ∧ rust_call_shape_admits (λ _, None) None shape = true.
Proof.
  destruct (rust_fn_shapes_of_file_ok (U := ascii_unicode) (λ _, None) "mio/src/interest.rs" "tests/t.rs" demo_rows
    (mkRow 2 (Some "(a: u8)") (Some "Interest.mio_add") (12, 15)%Z "fn mio_add(a: u8)")) as (shape & Hs & Ht & Hb & _).
  - repeat constructor; by vm_compute.
  - apply (bool_decide_unpack _). by vm_compute.
  - by right; left.
  - exists shape. split; [by apply Hs|]. apply Hb. split; [rewrite Ht; by vm_compute|right; exact demo_nested].
Defined.

Definition demo_params : list (list Z) := Eval vm_compute in [text "&self"; text " f: Fn(A, B) -> C"].
Definition demo_types : list Z * list Z := Eval vm_compute in (text "A, B", text " -> C").

Lemma demo_params_ok : Forall (piece true) demo_params ∧ Forall (λ p, ~ Forall (λ c, is_whitespace c = true) p) demo_params.
Proof.
  split; (constructor; [|constructor; [|constructor]]).
  - repeat (apply piece_char; [done|done|done|]). apply piece_nil.
  - do 6 (apply piece_char; [done|done|done|]).
    apply (piece_group true 40 41 demo_types.1 demo_types.2); [done|done| |done|].
    + repeat (apply piece_char; [done|done|done|]). apply piece_nil.
    + apply piece_char; [done|done|done|]. apply piece_arrow.
      repeat (apply piece_char; [done|done|done|]). apply piece_nil.
  - intros H. by apply Forall_inv in H.
  - intros H. apply Forall_inv_tail, Forall_inv in H. done.
Qed.

Lemma rust_signature_param_count_ok_witness :
  rust_signature_param_count " (&self, f: Fn(A, B) -> C, ) -> R" = Some 2.
Proof.
  destruct demo_params_ok as [H1 H2].
  apply (rust_signature_param_count_ok " (&self, f: Fn(A, B) -> C, ) -> R" [32%Z] demo_params true [32%Z] (text " -> R"));
    [by vm_compute|by vm_compute|by repeat constructor|by repeat constructor|exact H1|exact H2|done|by vm_compute].
Defined.
