(* ===== verification/ClassNames.v ===== *)
(** * Receiver types ([indexer/pipeline/resolve.rs])

    What a call on a receiver of known class binds: the class's own method, the
    one it inherits, the overrides in its subclasses; and for Rust the
    candidates the receiver's type admits.  The index is read once per pass into
    [ProjectClassNames], which every function takes and returns. *)

From S2P Require Import Prelude Str Utf8 Tokens Sql Domain Tables Store Queries Resolve RustUse RustFn.

(** ** Class paths *)

(** The loop over the bytes: the pieces between top-level [::] and dots. *)
Fixpoint class_pieces (s : string) (depth : Z) (acc : string) : list string :=
  match s with
  | EmptyString => [acc]
  | String c s' =>
      let acc' := acc +:+ String c EmptyString in
      if Ascii.eqb c "<" then class_pieces s' (depth + 1) acc'
      else if Ascii.eqb c ">" then class_pieces s' (depth - 1) acc'
      else if Ascii.eqb c ch_dot && (depth =? 0)%Z then acc :: class_pieces s' depth ""
      else if Ascii.eqb c ":" && (depth =? 0)%Z then
        match s' with
        | String d s'' => if Ascii.eqb d ":" then acc :: class_pieces s'' depth "" else class_pieces s' depth acc'
        | EmptyString => class_pieces s' depth acc'
        end
      else class_pieces s' depth acc'
  end.

(** [push]: what precedes the template arguments, trimmed. *)
Definition class_piece (seg : string) : string := encode (trim (chars (default seg (head (split_on "<" seg))))).

Definition class_path (spelling : string) : list string :=
  filter (λ seg, seg ≠ "") (class_piece <$> class_pieces spelling 0 "").

Definition owner_path (qualified : string) : list string :=
  match rsplit_once ch_dot qualified with Some (owner, _) => class_path owner | None => [] end.

(** [owner.rsplit("::").next()] *)
Definition last_colons (owner : string) : string := default owner (last (split_colons owner)).

(** The owner a qualified name writes. *)
Definition written_owner (q : string) : option string := '(owner, _) ← rsplit_once ch_dot q; Some (last_colons owner).

(** ** What a pass reads *)

Record ClassNode := mkClassNode { cn_id : Z; cn_file_id : Z; cn_nested : bool }.

Record ProjectClassNames := mkClasses {
  by_last : option (gmap string (list ClassNode));
  node_info : gmap Z (Z * string);
  children : option (gmap Z (list Z));
  parents : gmap Z (list Z);
  file_ids : gmap string Z;
  free_functions : option (gset Z);
  methods : option (gset Z);
  rust_fn_shapes : option (gmap Z RustFnShape);
  rust_concrete : option (gset (Z * string));
  rust_traits : gset string;
  rust_blanket : gmap Z string;
  rust_concrete_at : gset (string * string);
  rust_deref_owners : gset string;
}.
Definition no_classes : ProjectClassNames := mkClasses None ∅ None ∅ ∅ None None None None ∅ ∅ ∅ ∅.

(** [entry(k).or_default().push(v)], a row after another. *)
Definition push_to `{Countable K} {V} (m : gmap K (list V)) (kv : K * V) : gmap K (list V) :=
  <[kv.1 := default [] (m !! kv.1) ++ [kv.2]]> m.
Definition group_rows `{Countable K} {V} (rows : list (K * V)) : gmap K (list V) := foldl push_to ∅ rows.

(** [slice::chunk_by] on a key *)
Fixpoint chunk_by {A K} `{EqDecision K} (key : A → K) (l : list A) : list (list A) :=
  match l with
  | [] => []
  | x :: l => match chunk_by key l with
              | (y :: c) :: cs => if bool_decide (key x = key y) then (x :: y :: c) :: cs else [x] :: (y :: c) :: cs
              | cs => [x] :: cs
              end
  end.

Inductive RecvTypeTargets :=
| Bind (ids : list Z)
| AmbiguousTargets (ids : list Z)
| Fallback
| Drop.

Section Pass.
Context `{U : Unicode} (like : string → string → bool) (from_str : string → option json) (st : Store).

Definition read_class_rows : gmap string (list ClassNode) :=
  group_rows (omap (λ row, let '(id, file_id, name, nested) := row in
                           let segs := class_path name in
                           (λ l, (l, mkClassNode id file_id (nested || (1 <? length segs)))) <$> last segs)
                (class_like_names st)).

Definition load_node_info (candidates : list Z) (c : ProjectClassNames) : ProjectClassNames :=
  let missing := filter (λ id, node_info c !! id = None) candidates in
  if bool_decide (missing = []) then c
  else mkClasses (by_last c) (get_node_files_and_qualified_names st missing ∪ node_info c) (children c) (parents c)
         (file_ids c) (free_functions c) (methods c) (rust_fn_shapes c) (rust_concrete c) (rust_traits c)
         (rust_blanket c) (rust_concrete_at c) (rust_deref_owners c).

Definition load (candidates : list Z) (c : ProjectClassNames) : ProjectClassNames :=
  let c := match by_last c with
           | Some _ => c
           | None => mkClasses (Some read_class_rows) (node_info c) (children c) (parents c) (file_ids c)
                       (free_functions c) (methods c) (rust_fn_shapes c) (rust_concrete c) (rust_traits c)
                       (rust_blanket c) (rust_concrete_at c) (rust_deref_owners c)
           end in
  load_node_info candidates c.

Definition load_hierarchy (c : ProjectClassNames) : ProjectClassNames :=
  match children c with
  | Some _ => c
  | None =>
      let edges := inherits_edges st in
      mkClasses (by_last c) (node_info c) (Some (group_rows ((λ e, (e.2, e.1)) <$> edges)))
        (foldl push_to (parents c) edges)
        (foldl (λ m f, <[file_path_of f := file_id_of f]> m) (file_ids c) (s_files st))
        (free_functions c) (methods c) (rust_fn_shapes c) (rust_concrete c) (rust_traits c)
        (rust_blanket c) (rust_concrete_at c) (rust_deref_owners c)
  end.

(** The loop of [subclasses]: the stack's top first; a class is pushed once. *)
Fixpoint subclass_loop (children : gmap Z (list Z)) (seeds : list Z) (fuel : nat) (stack : list Z) (seen : gset Z) : gset Z :=
  match fuel, stack with
  | S fuel, c :: stack =>
      let '(stack, seen) :=
        foldl (λ ss sub, if bool_decide (sub ∈ seeds) || bool_decide (sub ∈ ss.2) then ss else (sub :: ss.1, {[sub]} ∪ ss.2))
          (stack, seen) (default [] (children !! c)) in
      subclass_loop children seeds fuel stack seen
  | _, _ => seen
  end.

(** Every class an [inherits] edge names as a subclass. *)
Definition all_subs (children : gmap Z (list Z)) : gset Z := list_to_set (mjoin (map_to_list children).*2).

Definition subclasses (seeds : list Z) (c : ProjectClassNames) : gset Z :=
  match children c with
  | None => ∅
  | Some children => subclass_loop children seeds (length seeds + size (all_subs children)) (rev seeds) ∅
  end.

(** *** Candidates a call can reach *)

Definition rust_fn_rows : list (list (NodeResult * FileEntry)) :=
  chunk_by (λ nf, file_path_of nf.2)
    (sort_cmp (cmp_by (λ nf, node_file_of nf.1) Z.compare)
       (filter (λ nf, file_language nf.2 = Some "rust" ∧ type_of nf.1 = "function") (node_files st))).

(** [substr(code_content, 1, 64)] *)
Definition code_head (n : NodeResult) : string := encode (take 64 (chars (nr_code_content n))).

Definition fn_row (nf : NodeResult * FileEntry) : RustFnRow :=
  mkRow (node_id_of nf.1) (nr_signature nf.1) (qualified_of nf.1)
    (n_start_line (nr_node nf.1), n_end_line (nr_node nf.1)) (code_head nf.1).

Definition read_rust_fn_shapes : gmap Z RustFnShape :=
  foldl (λ m p, <[p.1 := p.2]> m) ∅
    (file ← rust_fn_rows;
     match file with nf :: _ => rust_fn_shapes_of_file (file_path_of nf.2) (fn_row <$> file) | [] => [] end).

Definition rust_call_shape_candidates (language : string) (metadata caller_path : option string)
    (candidates : list Z) (c : ProjectClassNames) : list Z * ProjectClassNames :=
  if negb (String.eqb language "rust") then (candidates, c)
  else
    let shapes := default read_rust_fn_shapes (rust_fn_shapes c) in
    (filter (λ id, match shapes !! id with
                   | Some shape => rust_call_shape_admits from_str metadata shape && rust_crate_admits caller_path shape
                   | None => true
                   end = true) candidates,
     mkClasses (by_last c) (node_info c) (children c) (parents c) (file_ids c) (free_functions c) (methods c)
       (Some shapes) (rust_concrete c) (rust_traits c) (rust_blanket c) (rust_concrete_at c) (rust_deref_owners c)).

Definition rust_files : list (NodeResult * FileEntry) :=
  filter (λ nf, file_language nf.2 = Some "rust") (node_files st).

Definition load_rust_types (c : ProjectClassNames) : ProjectClassNames :=
  match rust_concrete c with
  | Some _ => c
  | None =>
      let types := filter (λ nf, type_of nf.1 ∈ ["struct"; "enum"; "union"]) rust_files in
      let traits := filter (λ nf, type_of nf.1 = "interface") rust_files in
      let blanket := omap (λ nf, if String.eqb (type_of nf.1) "function" && like_opt like "<%" (nr_signature nf.1)
                                 then s ← nr_signature nf.1; pair (node_id_of nf.1) <$> (rust_blanket_signature s).1
                                 else None) rust_files in
      let derefs := omap (λ nf, q ← qualified_of nf.1; fst <$> rsplit_once ch_dot q)
                      (filter (λ nf, node_name_of nf.1 ∈ ["deref"; "deref_mut"]
                                     ∧ like_opt like "%.%" (qualified_of nf.1) = true) rust_files) in
      mkClasses (by_last c) (node_info c) (children c) (parents c) (file_ids c) (free_functions c) (methods c)
        (rust_fn_shapes c)
        (Some (list_to_set ((λ nf, (node_file_of nf.1, node_name_of nf.1)) <$> types)))
        (rust_traits c ∪ list_to_set ((λ nf, node_name_of nf.1) <$> traits))
        (foldl (λ m p, <[p.1 := p.2]> m) (rust_blanket c) blanket)
        (rust_concrete_at c ∪ list_to_set ((λ nf, (file_path_of nf.2, node_name_of nf.1)) <$> types))
        (rust_deref_owners c ∪ list_to_set derefs)
  end.

Definition owner_written (c : ProjectClassNames) (id : Z) : option string := info ← node_info c !! id; written_owner info.2.

(** The candidates an owner's name admits. *)
Definition own_candidates (ty : string) (via : option string) (c : ProjectClassNames) (candidates : list Z) : list Z :=
  filter (λ id, owner_written c id = Some ty ∨ (via ≠ None ∧ owner_written c id = via)) candidates.

Definition use_tag (path : list string) : string :=
  "{" +:+ json_key "u" +:+ quoted (if one_of ["crate"; "self"; "super"] (default "" (head path)) then "c" else "x") +:+ "}".

Definition foreign_verdict (ty : string) (c : ProjectClassNames) (id : Z) : ForeignOwner :=
  match owner_written c id with
  | None => Exact
  | Some o =>
      if bool_decide (o ∈ rust_traits c) then Exact
      else foreign_receiver_owner ty o (rust_blanket c !! id)
             (match node_info c !! id with
              | Some (f, _) => bool_decide ((f, o) ∈ default ∅ (rust_concrete c))
              | None => false
              end)
  end.

Definition is_trait_method (c : ProjectClassNames) (id : Z) : bool :=
  match owner_written c id with Some o => bool_decide (o ∈ rust_traits c) | None => false end.

Section Receiver.
Context (all_file_paths : gset string) (node_id_to_path : gmap Z string) (crate_roots : RustCrates).

Definition anchored_own (caller_path : string) (path : list string) (own : list Z) : list Z :=
  match rust_use_anchor from_str (Some (use_tag path)) path caller_path crate_roots with
  | At anchor =>
      match rust_anchored_targets st all_file_paths node_id_to_path anchor own with
      | Named (id :: ids) | Elsewhere (id :: ids) => id :: ids
      | _ => own
      end
  | _ => own
  end.

Definition rust_receiver_candidates (language : string) (metadata : option string) (caller_path : string)
    (candidates : list Z) (c : ProjectClassNames) : list Z * ProjectClassNames :=
  if negb (String.eqb language "rust") || bool_decide (candidates = []) then (candidates, c)
  else match rust_receiver from_str metadata crate_roots with
  | None => (candidates, c)
  | Some recv =>
      let c := load_node_info candidates (load_rust_types c) in
      (match recv with
       | Project ty via path =>
           let own := own_candidates ty via c candidates in
           if bool_decide (own = []) then candidates
           else match path with
                | Some path => if 1 <? length own then anchored_own caller_path path own else own
                | None => own
                end
       | ForeignType ty =>
           let verdicts := (λ id, (id, foreign_verdict ty c id)) <$> candidates in
           let exact := existsb (λ iv, bool_decide (iv.2 = Exact) && bool_decide (is_Some (owner_written c iv.1))
                                       && negb (is_trait_method c iv.1)) verdicts in
           fst <$> filter (λ iv, match iv.2 with Exact => true | Loose => negb exact | No => false end = true) verdicts
       end, c)
  end.

Record RecvNever := mkNever { never_ids : gset Z; read_elsewhere : bool }.
Definition never_default : RecvNever := mkNever ∅ false.

Definition only_runnable (candidates : list Z) (ty : string) (via : option string) (c : ProjectClassNames) : list Z :=
  filter (λ id, match owner_written c id with
                | None => true
                | Some owner =>
                    let referent := rust_referent owner in
                    String.eqb referent ty || bool_decide (via = Some referent) || bool_decide (owner ∈ rust_traits c)
                    || bool_decide (is_Some (rust_blanket c !! id))
                end = true) candidates.

Definition rust_receiver_never (language target_name : string) (metadata : option string) (caller_path : string)
    (candidates : list Z) (c : ProjectClassNames) : RecvNever * ProjectClassNames :=
  if negb (String.eqb language "rust") || bool_decide (candidates = []) then (never_default, c)
  else match rust_receiver from_str metadata crate_roots with
  | Some (Project ty via _) =>
      let c := load_node_info candidates (load_rust_types c) in
      let clone_of_pointer := String.eqb target_name "clone" && match via with Some v => one_of ["Arc"; "Rc"] v | None => false end in
      let never runnable := mkNever (list_to_set (filter (λ id, id ∉ runnable) candidates)) (negb clone_of_pointer) in
      (if clone_of_pointer then never (only_runnable candidates (default "" via) None c)
       else
         let owns := negb (bool_decide (own_candidates ty via c candidates = [])) in
         let local := bool_decide ((caller_path, ty) ∈ rust_concrete_at c) in
         if owns || negb local || bool_decide (ty ∈ rust_deref_owners c) then never_default
         else never (only_runnable candidates ty via c), c)
  | _ => (never_default, c)
  end.
End Receiver.

Definition python_import_candidates (language : string) (candidates : list Z) (c : ProjectClassNames)
    : list Z * ProjectClassNames :=
  if negb (String.eqb language "python") then (candidates, c)
  else
    let ms := default (list_to_set (node_id_of <$> filter (λ n, type_of n = "method") (s_nodes st))) (methods c) in
    (filter (λ id, id ∉ ms) candidates,
     mkClasses (by_last c) (node_info c) (children c) (parents c) (file_ids c) (free_functions c) (Some ms)
       (rust_fn_shapes c) (rust_concrete c) (rust_traits c) (rust_blanket c) (rust_concrete_at c) (rust_deref_owners c)).

(** A call that only reaches methods. *)
Definition member_meta (metadata : option string) : bool :=
  match parse_callee_metadata from_str metadata with
  | Some Member | Some (RecvType _) | Some (SuperType _) => true
  | _ => false
  end.

Definition read_free_functions : gset Z :=
  list_to_set (node_id_of <$> filter (λ n, type_of n = "function"
                                           ∧ (qualified_of n = None ∨ like_opt like "%.%" (qualified_of n) = false)) (s_nodes st)).

Definition member_call_candidates (metadata : option string) (candidates : list Z) (c : ProjectClassNames)
    : list Z * ProjectClassNames :=
  if negb (member_meta metadata) then (candidates, c)
  else
    let free := default read_free_functions (free_functions c) in
    (filter (λ id, id ∉ free) candidates,
     mkClasses (by_last c) (node_info c) (children c) (parents c) (file_ids c) (Some free) (methods c)
       (rust_fn_shapes c) (rust_concrete c) (rust_traits c) (rust_blanket c) (rust_concrete_at c) (rust_deref_owners c)).

(** The free function of the same name, with the batch's pool of the name remembered. *)
Definition member_call_pool (metadata : option string) (name : string) (candidates : list Z)
    (pools : gmap string (list Z)) : list Z * gmap string (list Z) :=
  if negb (member_meta metadata) then (candidates, pools)
  else match pools !! name with
       | Some pool => (pool, pools)
       | None => let pool := filter_out_function_ids like st candidates in (pool, <[name := pool]> pools)
       end.

Definition method_candidates (like_esc : string → string → bool) (candidates : list Z) : list Z :=
  filter_method_ids like_esc st candidates None.

(** ** Calls on a receiver of known class *)

Section Targets.
Context (c : ProjectClassNames) (want : list string) (candidates : list Z) (caller_path : string).

Definition classes_named (name : string) : list ClassNode := default [] (default ∅ (by_last c) !! name).

(** The owner path of a candidate and the class nodes its method may belong to. *)
Definition owners (id : Z) : list string * list ClassNode :=
  match node_info c !! id with
  | None => ([], [])
  | Some (file_id, q) =>
      let have := owner_path q in
      let named := match last have with Some o => classes_named o | None => [] end in
      let local := filter (λ n, cn_file_id n = file_id) named in
      (have, if bool_decide (local = []) then named else local)
  end.
Definition owner_nodes (id : Z) : list Z := cn_id <$> (owners id).2.

(** The shorter of two paths ends the longer. *)
Definition suffix_fits (have want : list string) : bool :=
  let k := Nat.min (length have) (length want) in
  negb (k =? 0) && bool_decide (drop (length have - k) have = drop (length want - k) want).

(** Neither as many nor nested, or the others. *)
Definition is_nested_fit (id : Z) : bool :=
  let '(have, nodes) := owners id in
  (length want <? length have) || ((length have =? length want) && existsb cn_nested nodes).
Definition fits_want (id : Z) : bool := suffix_fits (owners id).1 want.

Definition exact_fits : list Z := filter (λ id, fits_want id && negb (is_nested_fit id) = true) candidates.
Definition nested_fits : list Z := filter (λ id, fits_want id && is_nested_fit id = true) candidates.

Definition last_name : string := default "" (last want).
Definition top_level : bool := existsb (λ n, negb (cn_nested n)) (classes_named last_name).

Definition own_methods : list Z :=
  if negb (bool_decide (exact_fits = [])) then exact_fits else if negb top_level then nested_fits else [].

Definition all_in (nodes : list Z) (set : gset Z) : bool :=
  negb (bool_decide (nodes = [])) && forallb (λ n, bool_decide (n ∈ set)) nodes.

(** The levels of ancestors, nearest first, until one defines the method. *)
Fixpoint inherited_loop (fuel : nat) (level seen : gset Z) : list Z :=
  match fuel with
  | 0 => []
  | S fuel =>
      let next := list_to_set (n ← elements level; default [] (parents c !! n)) ∖ seen in
      if bool_decide (next = ∅) then []
      else
        let inherited := filter (λ id, all_in (owner_nodes id) next = true) candidates in
        if bool_decide (inherited = []) then inherited_loop fuel next (seen ∪ next) else inherited
  end.

(** The one class the spelling names. *)
Definition start_class : option Z :=
  let fits := filter (λ n, top_level = false ∨ cn_nested n = false) (classes_named last_name) in
  match fits with
  | [only] => Some (cn_id only)
  | _ => match filter (λ n, Some (cn_file_id n) = file_ids c !! caller_path) fits with
         | [only] => Some (cn_id only)
         | _ => None
         end
  end.

(** The loop that adds each overriding candidate once. *)
Definition add_overrides (targets : list Z) (subs : gset Z) : list Z :=
  foldl (λ ts id, if all_in (owner_nodes id) subs && negb (bool_decide (id ∈ ts)) then ts ++ [id] else ts) targets candidates.

Definition inherited_or_overridden (dispatch : bool) : RecvTypeTargets :=
  match classes_named last_name, start_class with
  | [], _ | _, None => Fallback
  | named, Some start =>
      let inherited := inherited_loop 32 {[start]} {[start]} in
      let targets := if dispatch && (length named =? 1) then add_overrides inherited (subclasses [start] c) else inherited in
      if bool_decide (targets = []) then Fallback
      else if 1 <? length inherited then AmbiguousTargets targets else Bind targets
  end.

(** The classes whose subclasses may override: those of a unique name. *)
Definition seeds (targets : list Z) : list Z :=
  omap (λ id, match last (owners id).1 with
              | Some o => match classes_named o with [only] => Some (cn_id only) | _ => None end
              | None => None
              end) targets.

Definition with_overrides (targets : list Z) : list Z :=
  let s := seeds targets in
  if bool_decide (s = []) then targets
  else targets ++ filter (λ id, id ∉ targets ∧ all_in (owner_nodes id) (subclasses s c) = true) candidates.
End Targets.

Definition recv_type_targets (ty : string) (dispatch : bool) (candidates : list Z) (caller_path : string)
    (node_id_to_path : gmap Z string) (c : ProjectClassNames) : RecvTypeTargets * ProjectClassNames :=
  let want := class_path ty in
  match last want with
  | None => (Fallback, c)
  | Some last =>
      if bool_decide (head want = Some "std") then (Drop, c)
      else
        let c := load_hierarchy (load candidates c) in
        let own := own_methods c want candidates in
        (if bool_decide (own = []) then
           if bool_decide (default ∅ (by_last c) !! last = None) then Drop
           else inherited_or_overridden c want candidates caller_path dispatch
         else
           let local := filter (λ id, node_id_to_path !! id = Some caller_path) own in
           let '(targets, ambiguous) :=
             if length own =? 1 then (own, false) else if negb (bool_decide (local = [])) then (local, false) else (own, true) in
           let targets := if dispatch then with_overrides c candidates targets else targets in
           if ambiguous then AmbiguousTargets targets else Bind targets, c)
  end.
End Pass.

(** * Properties *)

(** ** Rows grouped by a key *)

Lemma elem_of_group_rows `{Countable K} {V} (rows : list (K * V)) m k v :
  v ∈ default [] (foldl push_to m rows !! k) ↔ v ∈ default [] (m !! k) ∨ (k, v) ∈ rows.
Proof.
  revert m. induction rows as [|[k' v'] rows IH]; intros m; cbn [foldl].
  - split; [by left|intros [?|?%elem_of_nil]; done].
  - rewrite IH, elem_of_cons. unfold push_to at 1. cbn [fst snd]. destruct (decide (k' = k)) as [->|Hne].
    + rewrite lookup_insert_eq. cbn [from_option id]. rewrite elem_of_app, list_elem_of_singleton. naive_solver.
    + rewrite lookup_insert_ne by done. naive_solver.
Qed.

Lemma elem_of_grouped `{Countable K} {V} (rows : list (K * V)) k v :
  v ∈ default [] (group_rows rows !! k) ↔ (k, v) ∈ rows.
Proof. unfold group_rows. rewrite elem_of_group_rows, lookup_empty. cbn. set_solver. Qed.

Lemma tc_equiv {A} (R R' : A → A → Prop) x y : (∀ a b, R a b ↔ R' a b) → tc R x y ↔ tc R' x y.
Proof.
  intros HR. split; (induction 1 as [a b H|a b d H _ IH]; [apply tc_once; by apply HR|eapply tc_l; [by apply HR|done]]).
Qed.

(** ** Subclasses *)

Section Subclasses.
Context (children : gmap Z (list Z)) (seeds : list Z).
#[local] Abbreviation child a b := (b ∈ default [] (children !! a)).

Lemma child_all_subs a b : child a b → b ∈ all_subs children.
Proof.
  intros Hb. unfold all_subs. rewrite elem_of_list_to_set. apply list_elem_of_join.
  destruct (children !! a) as [l|] eqn:Hl; [|by apply elem_of_nil in Hb]. exists l. split; [done|].
  apply list_elem_of_fmap. exists (a, l). split; [done|]. by apply elem_of_map_to_list.
Qed.

#[local] Abbreviation push_sub := (λ (ss : list Z * gset Z) (sub : Z),
  if bool_decide (sub ∈ seeds) || bool_decide (sub ∈ ss.2) then ss else (sub :: ss.1, {[sub]} ∪ ss.2)).

Lemma push_subs l stack seen : (∀ x, x ∈ l → x ∈ all_subs children) →
  let r := foldl push_sub (stack, seen) l in
  seen ⊆ r.2 ∧ (∀ x, x ∈ r.2 → x ∈ seen ∨ x ∈ l ∧ x ∉ seeds ∧ x ∈ r.1) ∧ (∀ x, x ∈ l → x ∈ seeds ∨ x ∈ r.2)
  ∧ (∀ x, x ∈ r.1 → x ∈ stack ∨ x ∈ r.2) ∧ (∀ x, x ∈ stack → x ∈ r.1)
  ∧ length r.1 + size (all_subs children ∖ r.2) = length stack + size (all_subs children ∖ seen).
Proof.
  revert stack seen. induction l as [|y l IH]; intros stack seen Hl; cbn [foldl]; cbn zeta.
  { cbn. split_and!; [done|by left|intros x Hx; by apply elem_of_nil in Hx|by left|done|done]. }
  assert (∀ x, x ∈ l → x ∈ all_subs children) as Hl' by (intros x Hx; apply Hl; by right).
  cbn [fst snd]. destruct (bool_decide (y ∈ seeds) || bool_decide (y ∈ seen)) eqn:Hy.
  - destruct (IH stack seen Hl') as (H1 & H2 & H3 & H4 & H5 & H6). split_and!; [done| | |done|done|done].
    + intros x Hx. destruct (H2 x Hx) as [?|(? & ? & ?)]; [by left|right]. split_and!; [by right|done|done].
    + intros x [->|Hx]%elem_of_cons; [|by apply H3]. rewrite orb_true_iff, !bool_decide_eq_true in Hy.
      destruct Hy as [?|?]; [by left|right; by apply H1].
  - rewrite orb_false_iff, !bool_decide_eq_false in Hy. destruct Hy as [Hy1 Hy2].
    destruct (IH (y :: stack) ({[y]} ∪ seen) Hl') as (H1 & H2 & H3 & H4 & H5 & H6). split_and!.
    + set_solver.
    + intros x Hx. destruct (H2 x Hx) as [Hx'|(? & ? & ?)]; [|right; split_and!; [by right|done|done]].
      apply elem_of_union in Hx' as [->%elem_of_singleton|?]; [|by left]. right. split_and!; [by left|done|].
      apply H5. by left.
    + intros x [->|Hx]%elem_of_cons; [|by apply H3]. right. apply H1. set_solver.
    + intros x Hx. destruct (H4 x Hx) as [[->|?]%elem_of_cons|?]; [right; apply H1; set_solver|by left|by right].
    + intros x Hx. apply H5. by right.
    + rewrite H6. cbn [length].
      assert (all_subs children ∖ seen = {[y]} ∪ all_subs children ∖ ({[y]} ∪ seen)) as ->.
      { assert (y ∈ all_subs children) as H by (apply Hl; by left). clear -Hy2 H. apply set_eq. intros x. destruct (decide (x = y)); set_solver. }
      rewrite (fin_sets.size_union ({[y]} : gset Z)) by set_solver. rewrite fin_sets.size_singleton. lia.
Qed.

(** The worklist holds the closed set once the stack is empty; the fuel is what is left to do. *)
Lemma subclass_loop_ok fuel stack seen :
  fuel = length stack + size (all_subs children ∖ seen) →
  (∀ x, x ∈ seen → x ∉ seeds) →
  (∀ x, x ∈ seeds ∨ x ∈ seen → x ∈ stack ∨ ∀ y, child x y → y ∈ seeds ∨ y ∈ seen) →
  (∀ x, x ∈ stack → x ∈ seeds ∨ x ∈ seen) →
  (∀ x, x ∈ seen → ∃ s, s ∈ seeds ∧ tc (λ a b, child a b) s x) →
  ∀ x, x ∈ subclass_loop children seeds fuel stack seen ↔ x ∉ seeds ∧ ∃ s, s ∈ seeds ∧ tc (λ a b, child a b) s x.
Proof.
  revert stack seen. induction fuel as [|fuel IH]; intros stack seen Hf Hns Hdone Hst Hr.
  all: assert (stack = [] → ∀ x, x ∈ seen ↔ x ∉ seeds ∧ ∃ s, s ∈ seeds ∧ tc (λ a b, child a b) s x) as Hend.
  1, 3: intros ->; intros x; split; [intros Hx; split; [by apply Hns|by apply Hr]|]; intros (Hx & s & Hs & Htc);
    assert (∀ a b, tc (λ a b, child a b) a b → a ∈ seeds ∨ a ∈ seen → b ∈ seeds ∨ b ∈ seen) as Hcl;
    [induction 1 as [a b Hab|a b d Hab _ IHt]; intros Ha; destruct (Hdone a Ha) as [?%elem_of_nil|Hch]; naive_solver|];
    destruct (Hcl s x Htc (or_introl Hs)); [done|done].
  - cbn. apply Hend. destruct stack; [done|]. cbn in Hf. lia.
  - destruct stack as [|c stack]; [by apply Hend|]. cbn [subclass_loop]. clear Hend.
    destruct (push_subs (default [] (children !! c)) stack seen) as (H1 & H2 & H3 & H4 & H5 & H6);
      [intros x Hx; by eapply child_all_subs|].
    destruct (foldl push_sub (stack, seen) (default [] (children !! c))) as [stack' seen']. cbn [fst snd] in *.
    apply IH.
    + cbn [length] in Hf. lia.
    + intros x Hx. destruct (H2 x Hx) as [?|(? & ? & ?)]; [by apply Hns|done].
    + intros x Hx. destruct (decide (x = c)) as [->|Hne]; [right; by apply H3|].
      assert (x ∈ stack' ∨ (x ∈ seeds ∨ x ∈ seen)) as [?|Hx']; [|by left|].
      { destruct Hx as [?|Hx]; [by right; left|]. destruct (H2 x Hx) as [?|(? & ? & ?)]; [by right; right|by left]. }
      destruct (Hdone x Hx') as [[->|Hin]%elem_of_cons|Hch]; [done|left; by apply H5|].
      right. intros y Hy. destruct (Hch y Hy); [by left|right; by apply H1].
    + intros x Hx. destruct (H4 x Hx) as [Hin|?]; [|by right].
      destruct (Hst x) as [?|?]; [by right|by left|right; by apply H1].
    + intros x Hx. destruct (H2 x Hx) as [?|(Hch & _ & _)]; [by apply Hr|].
      destruct (Hst c) as [Hc|Hc]; [by left|exists c; split; [done|by apply tc_once]|].
      destruct (Hr c Hc) as (s & Hs & Htc). exists s. split; [done|]. by eapply tc_r.
Qed.

Lemma subclass_loop_spec x :
  x ∈ subclass_loop children seeds (length seeds + size (all_subs children)) (rev seeds) ∅
  ↔ x ∉ seeds ∧ ∃ s, s ∈ seeds ∧ tc (λ a b, child a b) s x.
Proof.
  assert (∀ y, y ∈ rev seeds ↔ y ∈ seeds) as Hrev by (intros y; rewrite !list_elem_of_In; symmetry; apply in_rev).
  apply subclass_loop_ok.
  - rewrite length_rev. do 2 f_equal. set_solver.
  - set_solver.
  - intros y [Hy|Hy]; [left; by apply Hrev|set_solver].
  - intros y Hy. left. by apply Hrev.
  - set_solver.
Qed.
End Subclasses.

(** ** Levels of ancestors *)

Section Levels.
Context (c : ProjectClassNames) (candidates : list Z) (start : Z).
#[local] Abbreviation up := (λ a b, b ∈ default [] (parents c !! a)).

(** [x] is an ancestor [n] steps up, and no nearer. *)
Definition dist (n : nat) (x : Z) : Prop := nsteps up n start x ∧ ∀ m, m < n → ~ nsteps up m start x.

(** A candidate all of whose classes are ancestors [n] steps up. *)
Definition at_level (n : nat) (id : Z) : Prop :=
  id ∈ candidates ∧ owner_nodes c id ≠ [] ∧ ∀ x, x ∈ owner_nodes c id → dist n x.

Lemma dist_pred n x : dist (S n) x → ∃ y, dist n y ∧ up y x.
Proof.
  intros [Hn Hmin]. apply nsteps_inv_r in Hn as (y & Hy & Hyx). exists y. split; [|done]. split; [done|].
  intros m Hm Hmy. apply (Hmin (S m)); [lia|]. by eapply nsteps_r.
Qed.

Lemma dist_none n k : (∀ x, ~ dist n x) → n <= k → ∀ x, ~ dist k x.
Proof.
  intros Hn Hk. induction k as [|k IH]; intros x Hx.
  - assert (n = 0) as -> by lia. by apply (Hn x).
  - destruct (decide (n = S k)) as [->|Hne]; [by apply (Hn x)|].
    destruct (dist_pred k x Hx) as (y & Hy & _). by apply (IH ltac:(lia) y).
Qed.

Lemma all_in_spec nodes set : all_in nodes set = true ↔ nodes ≠ [] ∧ ∀ x, x ∈ nodes → x ∈ set.
Proof.
  unfold all_in. rewrite andb_true_iff, negb_true_iff, bool_decide_eq_false, forallb_forall.
  setoid_rewrite bool_decide_eq_true. setoid_rewrite list_elem_of_In. done.
Qed.

Lemma inherited_loop_ok fuel level seen n :
  (∀ x, x ∈ level ↔ dist n x) → (∀ x, x ∈ seen ↔ ∃ m, m <= n ∧ nsteps up m start x) →
  let r := inherited_loop c candidates fuel level seen in
  (r = [] ∧ ∀ k id, n < k <= n + fuel → ~ at_level k id)
  ∨ ∃ k, n < k <= n + fuel ∧ r ≠ [] ∧ (∀ id, id ∈ r ↔ at_level k id) ∧ ∀ j id, n < j < k → ~ at_level j id.
Proof.
  revert level seen n. induction fuel as [|fuel IH]; intros level seen n Hl Hs; cbn [inherited_loop]; cbn zeta.
  { left. split; [done|]. intros k id Hk. lia. }
  set (next := list_to_set _ ∖ seen).
  assert (∀ x, x ∈ next ↔ dist (S n) x) as Hnext.
  { intros x. unfold next. rewrite elem_of_difference, elem_of_list_to_set, list_elem_of_bind, Hs. split.
    - intros [(y & Hyx & Hy%elem_of_elements%Hl) Hno]. destruct Hy as [Hy _]. split; [by eapply nsteps_r|].
      intros m Hm Hmx. apply Hno. exists m. split; [lia|done].
    - intros Hx. split.
      + destruct (dist_pred n x Hx) as (y & Hy & Hyx). exists y. split; [done|]. by apply elem_of_elements, Hl.
      + intros (m & Hm & Hmx). apply (proj2 Hx m); [lia|done]. }
  clearbody next. destruct (bool_decide (next = ∅)) eqn:Hemp.
  - apply bool_decide_eq_true in Hemp. left. split; [done|]. intros k id Hk (_ & Hne & Hall).
    destruct (owner_nodes c id) as [|x l]; [done|]. apply (dist_none (S n) k) with x; [|lia|apply Hall; by left].
    intros y Hy%Hnext. set_solver.
  - assert (∀ id, id ∈ filter (λ id, all_in (owner_nodes c id) next = true) candidates ↔ at_level (S n) id) as Hin.
    { intros id. rewrite list_elem_of_filter, all_in_spec. unfold at_level. setoid_rewrite Hnext. tauto. }
    destruct (bool_decide (filter _ candidates = [])) eqn:Hnil.
    + apply bool_decide_eq_true in Hnil. rewrite Hnil in Hin.
      assert (∀ id, ~ at_level (S n) id) as Hno by (intros id Hid; by apply Hin, elem_of_nil in Hid).
      destruct (IH next (seen ∪ next) (S n) Hnext) as [[H1 H2]|(k & Hk & H1 & H2 & H3)].
      { intros x. rewrite elem_of_union, Hnext. split.
        - rewrite Hs. intros [(m & Hm & Hmx)|[Hx _]]; [exists m; split; [lia|done]|by exists (S n)].
        - intros (m & Hm & Hmx). destruct (decide (x ∈ seen)) as [|Hno']; [by left|right]. rewrite Hs in Hno'.
          assert (m = S n) as -> by (destruct (decide (m = S n)); [done|]; destruct Hno'; exists m; split; [lia|done]).
          split; [done|]. intros m' Hm' Hmx'. apply Hno'. exists m'. split; [lia|done]. }
      * left. split; [done|]. intros k id Hk. destruct (decide (k = S n)) as [->|]; [apply Hno|]. apply H2. lia.
      * right. exists k. split_and!; [lia|lia|done|done|]. intros j id Hj. destruct (decide (j = S n)) as [->|]; [apply Hno|].
        apply H3. lia.
    + apply bool_decide_eq_false in Hnil. right. exists (S n). split_and!; [lia|lia|done|done|]. intros j id Hj. lia.
Qed.

Lemma inherited_ok :
  let r := inherited_loop c candidates 32 {[start]} {[start]} in
  (r = [] ∧ ∀ k id, 0 < k <= 32 → ~ at_level k id)
  ∨ ∃ k, 0 < k <= 32 ∧ r ≠ [] ∧ (∀ id, id ∈ r ↔ at_level k id) ∧ ∀ j id, 0 < j < k → ~ at_level j id.
Proof.
  apply (inherited_loop_ok 32 {[start]} {[start]} 0).
  - intros x. rewrite elem_of_singleton. split.
    + intros ->. split; [constructor|intros m Hm; lia].
    + intros [Hx _]. by inversion Hx.
  - intros x. rewrite elem_of_singleton. split.
    + intros ->. exists 0. split; [lia|constructor].
    + intros (m & Hm & Hx). assert (m = 0) as -> by lia. by inversion Hx.
Qed.
End Levels.

(** ** What a typed call binds *)

Section Spec.
Context (st : Store).

(** What a pass has read is what the index holds. *)
Record classes_ok (c : ProjectClassNames) : Prop := {
  ok_by_last m : by_last c = Some m → m = read_class_rows st;
  ok_children m : children c = Some m → m = group_rows ((λ e, (e.2, e.1)) <$> inherits_edges st)
                                        ∧ parents c = group_rows (inherits_edges st);
  ok_unread : children c = None → parents c = ∅;
  ok_info id x : node_info c !! id = Some x →
    ∃ n, n ∈ s_nodes st ∧ node_id_of n = id ∧ x = (node_file_of n, default "" (qualified_of n));
}.

Lemma no_classes_ok : classes_ok no_classes.
Proof. by split. Qed.

Lemma in_chunks_elem {A} (q : list Z → list A) ids x : x ∈ in_chunks q ids → ∃ ch, x ∈ q ch.
Proof. unfold in_chunks. intros (l & Hx & (ch & -> & _)%list_elem_of_fmap)%list_elem_of_join. by exists ch. Qed.

Lemma read_info_ok ids id x : get_node_files_and_qualified_names st ids !! id = Some x →
  ∃ n, n ∈ s_nodes st ∧ node_id_of n = id ∧ x = (node_file_of n, default "" (qualified_of n)).
Proof.
  unfold get_node_files_and_qualified_names.
  assert (∀ n, n ∈ in_chunks (nodes_of_chunk st) ids → n ∈ s_nodes st) as Hin.
  { intros n (ch & Hn)%in_chunks_elem. by apply list_elem_of_filter in Hn as [_ ?]. }
  revert Hin. generalize (in_chunks (nodes_of_chunk st) ids). intros l Hin.
  assert (∀ m : gmap Z (Z * string), (m !! id = Some x → ∃ n, n ∈ s_nodes st ∧ node_id_of n = id ∧ x = (node_file_of n, default "" (qualified_of n))) →
    foldl (λ m n, <[node_id_of n := (node_file_of n, default "" (qualified_of n))]> m) m l !! id = Some x →
    ∃ n, n ∈ s_nodes st ∧ node_id_of n = id ∧ x = (node_file_of n, default "" (qualified_of n))) as Hgo.
  { induction l as [|n l IH]; intros m Hm; cbn [foldl]; [done|]. apply IH; [intros; apply Hin; by right|].
    rewrite lookup_insert_Some. intros [[<- <-]|[_ ?]]; [|by apply Hm]. exists n. split; [apply Hin; by left|done]. }
  apply Hgo. by rewrite lookup_empty.
Qed.

Lemma load_node_info_ok ids c : classes_ok c → classes_ok (load_node_info st ids c)
  ∧ by_last (load_node_info st ids c) = by_last c.
Proof.
  intros [H1 H2 H3 H4]. unfold load_node_info. destruct (bool_decide _); [done|]. split; [|done]. split; [done..|].
  intros id x. cbn. rewrite lookup_union_Some_raw. intros [Hx|[_ Hx]]; [by eapply read_info_ok|by apply H4].
Qed.

Lemma load_ok ids c : classes_ok c → classes_ok (load st ids c) ∧ by_last (load st ids c) = Some (read_class_rows st).
Proof.
  intros Hc. unfold load. destruct (by_last c) as [m|] eqn:Hb.
  - destruct (load_node_info_ok ids c Hc) as [? ->]. split; [done|]. by rewrite Hb, (ok_by_last c Hc m).
  - match goal with |- context [load_node_info _ _ ?c'] => assert (classes_ok c') as Hc' end.
    { destruct Hc as [H1 H2 H3 H4]. split; [by intros m [= <-]|done..]. }
    destruct (load_node_info_ok ids _ Hc') as [? ->]. by split.
Qed.

Lemma load_hierarchy_ok c : classes_ok c → classes_ok (load_hierarchy st c)
  ∧ by_last (load_hierarchy st c) = by_last c ∧ is_Some (children (load_hierarchy st c)).
Proof.
  intros Hc. unfold load_hierarchy. destruct (children c) as [m|] eqn:Hch; [by rewrite Hch|].
  split; [|by split]. destruct Hc as [H1 H2 H3 H4]. split; [done| |done|done]. cbn. intros m [= <-]. by rewrite H3.
Qed.

Definition sub_of (a b : Z) : Prop := (b, a) ∈ inherits_edges st.
Definition project_classes (name : string) : list ClassNode := default [] (read_class_rows st !! name).

Section Call.
Context (c : ProjectClassNames) (want : list string) (candidates : list Z) (caller_path : string) (dispatch : bool).

(** The owner path and the spelling agree: the shorter ends the longer. *)
Definition fits (id : Z) : Prop :=
  (owners c id).1 ≠ [] ∧ want ≠ [] ∧ ∃ pre, (owners c id).1 = pre ++ want ∨ want = pre ++ (owners c id).1.
Definition nested_fit (id : Z) : Prop :=
  length want < length (owners c id).1
  ∨ length (owners c id).1 = length want ∧ ∃ n, n ∈ (owners c id).2 ∧ cn_nested n = true.

(** A candidate that is the class's own method: the nested classes of that spelling answer when no other does and no
    top-level class bears the name. *)
Definition defines (id : Z) : Prop :=
  id ∈ candidates ∧ fits id
  ∧ (~ nested_fit id ∨ (∀ j, j ∈ candidates → fits j → nested_fit j)
                       ∧ ∀ n, n ∈ classes_named c (last_name want) → cn_nested n = true).

(** All the classes its method may belong to are strict subclasses of one of the seeds. *)
Definition overrides (seeds : list Z) (id : Z) : Prop :=
  id ∈ candidates ∧ owner_nodes c id ≠ [] ∧ ∀ x, x ∈ owner_nodes c id → x ∉ seeds ∧ ∃ s, s ∈ seeds ∧ tc sub_of s x.

(** The candidates inherited: those of the nearest level of ancestors that has any, among 32. *)
Definition nearest (start : Z) (ids : list Z) : Prop :=
  (ids = [] ∧ ∀ k id, 0 < k <= 32 → ~ at_level c candidates start k id)
  ∨ ∃ k, 0 < k <= 32 ∧ ids ≠ [] ∧ (∀ id, id ∈ ids ↔ at_level c candidates start k id)
         ∧ ∀ j id, 0 < j < k → ~ at_level c candidates start j id.

Lemma suffix_fits_spec have w : suffix_fits have w = true ↔ have ≠ [] ∧ w ≠ [] ∧ ∃ pre, have = pre ++ w ∨ w = pre ++ have.
Proof.
  unfold suffix_fits. rewrite andb_true_iff, negb_true_iff, Nat.eqb_neq, bool_decide_eq_true. split.
  - intros [Hk Heq]. split; [by intros ->|split; [intros ->; rewrite Nat.min_0_r in Hk; lia|]].
    destruct (Nat.le_ge_cases (length have) (length w)).
    + exists (take (length w - length have) w). right.
      rewrite Nat.min_l, Nat.sub_diag in Heq by done. rewrite drop_0 in Heq. etrans; [symmetry; apply (take_drop (length w - length have))|]. by rewrite <-Heq.
    + exists (take (length have - length w) have). left.
      rewrite Nat.min_r, Nat.sub_diag in Heq by done. rewrite drop_0 in Heq. etrans; [symmetry; apply (take_drop (length have - length w))|]. by rewrite Heq.
  - intros (H1 & H2 & pre & [-> | ->]).
    + rewrite length_app, Nat.min_r, Nat.sub_diag, Nat.add_sub by lia. rewrite drop_app_length, drop_0. split; [by destruct w|done].
    + rewrite length_app, Nat.min_l, Nat.sub_diag, Nat.add_sub by lia. rewrite drop_app_length, drop_0. split; [by destruct have|done].
Qed.

Lemma is_nested_spec id : is_nested_fit c want id = true ↔ nested_fit id.
Proof.
  unfold is_nested_fit, nested_fit. destruct (owners c id) as [have nodes]. cbn [fst snd].
  rewrite orb_true_iff, andb_true_iff, Nat.ltb_lt, Nat.eqb_eq, existsb_exists. setoid_rewrite list_elem_of_In. done.
Qed.

Lemma own_methods_ok id : id ∈ own_methods c want candidates ↔ defines id.
Proof.
  assert (∀ j, fits_want c want j = true ↔ fits j) as Hf by (intros j; apply suffix_fits_spec).
  assert (∀ j, j ∈ exact_fits c want candidates ↔ j ∈ candidates ∧ fits j ∧ ~ nested_fit j) as He.
  { intros j. unfold exact_fits. rewrite list_elem_of_filter, andb_true_iff, Hf, negb_true_iff, <-not_true_iff_false, is_nested_spec. tauto. }
  assert (∀ j, j ∈ nested_fits c want candidates ↔ j ∈ candidates ∧ fits j ∧ nested_fit j) as Hn.
  { intros j. unfold nested_fits. rewrite list_elem_of_filter, andb_true_iff, Hf, is_nested_spec. tauto. }
  assert (∀ j, nested_fit j ∨ ~ nested_fit j) as Hdec.
  { intros j. rewrite <-is_nested_spec. destruct (is_nested_fit c want j); [by left|by right]. }
  assert (top_level c want = false ↔ ∀ n, n ∈ classes_named c (last_name want) → cn_nested n = true) as Ht.
  { unfold top_level. rewrite <-not_true_iff_false, existsb_exists. split.
    - intros Hno n Hn'. apply not_false_is_true. intros Hc. apply Hno. exists n. split; [by apply list_elem_of_In|by rewrite Hc].
    - intros Hall (n & Hn'%list_elem_of_In & Hc). by rewrite (Hall n Hn') in Hc. }
  unfold own_methods, defines. destruct (bool_decide (exact_fits c want candidates = [])) eqn:Hex; cbn [negb].
  - apply bool_decide_eq_true in Hex. rewrite Hex in He.
    assert (∀ j, j ∈ candidates → fits j → nested_fit j) as Hall.
    { intros j Hj Hfj. destruct (Hdec j) as [?|Hnj]; [done|]. exfalso. by apply (elem_of_nil j), He. }
    destruct (top_level c want) eqn:Htl; cbn [negb].
    + split; [by intros ?%elem_of_nil|]. intros (Hin & Hfit & [Hno|[_ Hno]]); [by destruct Hno; apply Hall|]. by apply Ht in Hno.
    + rewrite Hn. split; [intros (? & ? & ?); split_and!; [done..|right]; split; [done|by apply Ht]|].
      intros (? & ? & _). split_and!; [done..|by apply Hall].
  - apply bool_decide_eq_false in Hex. rewrite He. split; [intros (? & ? & ?); split_and!; [done..|by left]|].
    intros (Hin & Hfit & [Hno|[Hall _]]); [done|]. exfalso. destruct (exact_fits c want candidates) as [|j l]; [done|].
    destruct (proj1 (He j) ltac:(by left)) as (? & ? & Hnj). by apply Hnj, Hall.
Qed.

Lemma subclasses_ok seeds x : classes_ok c → is_Some (children c) →
  x ∈ subclasses seeds c ↔ x ∉ seeds ∧ ∃ s, s ∈ seeds ∧ tc sub_of s x.
Proof.
  intros Hc [m Hm]. unfold subclasses. rewrite Hm. rewrite subclass_loop_spec.
  destruct (ok_children c Hc m Hm) as [-> _].
  assert (∀ a b, b ∈ default [] (group_rows ((λ e : Z * Z, (e.2, e.1)) <$> inherits_edges st) !! a) ↔ sub_of a b) as Heq.
  { intros a b. rewrite elem_of_grouped, list_elem_of_fmap. unfold sub_of. split.
    - by intros ([x1 x2] & [= -> ->] & Hx).
    - intros Hx. by exists (b, a). }
  assert (∀ s, tc (λ a b, b ∈ default [] (group_rows ((λ e : Z * Z, (e.2, e.1)) <$> inherits_edges st) !! a)) s x ↔ tc sub_of s x) as Htc.
  { intros s. by apply tc_equiv. }
  setoid_rewrite Htc. done.
Qed.

Lemma overrides_ok seeds id : classes_ok c → is_Some (children c) → id ∈ candidates →
  all_in (owner_nodes c id) (subclasses seeds c) = true ↔ overrides seeds id.
Proof.
  intros Hc Hch Hid. rewrite all_in_spec. unfold overrides. setoid_rewrite (subclasses_ok seeds _ Hc Hch). tauto.
Qed.

Lemma with_overrides_ok targets id : classes_ok c → is_Some (children c) →
  id ∈ with_overrides c candidates targets ↔ id ∈ targets ∨ overrides (seeds c targets) id.
Proof.
  intros Hc Hch. unfold with_overrides. destruct (bool_decide (seeds c targets = [])) eqn:Hs.
  - apply bool_decide_eq_true in Hs. rewrite Hs. split; [by left|]. intros [?|(_ & Hne & Hall)]; [done|].
    destruct (owner_nodes c id) as [|x l]; [done|]. destruct (Hall x ltac:(by left)) as (_ & s & Hs' & _). by apply elem_of_nil in Hs'.
  - rewrite elem_of_app, list_elem_of_filter. split.
    + intros [?|[[_ Hall] Hin]]; [by left|right]. by apply overrides_ok.
    + intros [?|Ho]; [by left|]. destruct (decide (id ∈ targets)); [by left|right].
      pose proof (proj1 Ho) as Hin. split; [split; [done|]|done]. by apply overrides_ok.
Qed.

Lemma add_overrides_ok targets subs id :
  id ∈ add_overrides c candidates targets subs ↔ id ∈ targets ∨ id ∈ candidates ∧ all_in (owner_nodes c id) subs = true.
Proof.
  unfold add_overrides. revert targets. induction candidates as [|j l IH]; intros ts; cbn [foldl].
  - split; [by left|]. intros [?|[?%elem_of_nil _]]; done.
  - rewrite IH, elem_of_cons. destruct (all_in (owner_nodes c j) subs) eqn:Hj; cbn [andb].
    + case_bool_decide as Hin; cbn [negb]; [naive_solver|]. rewrite elem_of_app, list_elem_of_singleton. naive_solver.
    + split; [naive_solver|]. intros [?|[[->|?] ?]]; [by left|congruence|by right].
Qed.
End Call.
End Spec.

(** What a call on a receiver of class [want] binds, over what the pass has read. *)
Definition binds (st : Store) (c : ProjectClassNames) (want : list string) (candidates : list Z)
    (caller_path : string) (node_id_to_path : gmap Z string) (dispatch : bool) (r : RecvTypeTargets) : Prop :=
  let own := defines c want candidates in
  let at_home id := own id ∧ node_id_to_path !! id = Some caller_path in
  let direct (ids : list Z) :=
    (∃ id, own id) ∧ (∀ id, id ∈ ids ↔ own id) ∧ length ids = 1
    ∨ (∃ id, at_home id) ∧ ∀ id, id ∈ ids ↔ at_home id in
  let with_subclasses ids direct := ∀ id, id ∈ ids ↔ id ∈ direct ∨ dispatch = true ∧ overrides st c candidates (seeds c direct) id in
  let inherits ids start inherited :=
    start_class c want caller_path = Some start ∧ nearest c candidates start inherited
    ∧ ∀ id, id ∈ ids ↔ id ∈ inherited ∨ dispatch = true ∧ length (classes_named c (last_name want)) = 1
                                        ∧ overrides st c candidates [start] id in
  match r with
  | Drop => head want = Some "std" ∨ (∀ id, ~ own id) ∧ classes_named c (last_name want) = []
  | Fallback =>
      want = []
      ∨ (∀ id, ~ own id) ∧ classes_named c (last_name want) ≠ []
        ∧ (start_class c want caller_path = None ∨ ∃ start, inherits [] start [])
  | Bind ids =>
      ids ≠ []
      ∧ ((∃ d, direct d ∧ with_subclasses ids d)
         ∨ (∀ id, ~ own id) ∧ ∃ start inherited, inherits ids start inherited ∧ length inherited <= 1)
  | AmbiguousTargets ids =>
      ids ≠ []
      ∧ ((∀ id, ~ at_home id) ∧ (∃ d, (∀ id, id ∈ d ↔ own id) ∧ 1 < length d ∧ with_subclasses ids d)
         ∨ (∀ id, ~ own id) ∧ ∃ start inherited, inherits ids start inherited ∧ 1 < length inherited)
  end.

Section Binds.
Context (st : Store).

(** Every list of [read_class_rows] holds a class. *)
Lemma read_class_rows_nonempty name l : read_class_rows st !! name = Some l → l ≠ [].
Proof.
  unfold read_class_rows, group_rows.
  assert (∀ (rows : list (string * ClassNode)) (m : gmap string (list ClassNode)), (∀ k l, m !! k = Some l → l ≠ []) →
    ∀ k l, foldl push_to m rows !! k = Some l → l ≠ []) as Hgo.
  { induction rows as [|[k v] rows IH]; intros m Hm; cbn [foldl]; [done|]. apply IH. intros k' l'. unfold push_to. cbn.
    rewrite lookup_insert_Some. intros [[<- <-]|[_ ?]]; [by intros [_ ?]%app_eq_nil|by eapply Hm]. }
  apply Hgo. intros k l'. by rewrite lookup_empty.
Qed.

Lemma inherited_or_overridden_ok c want candidates caller_path dispatch paths :
  classes_ok st c → is_Some (children c) → (∀ id, ~ defines c want candidates id) → classes_named c (last_name want) ≠ [] →
  binds st c want candidates caller_path paths dispatch (inherited_or_overridden c want candidates caller_path dispatch).
Proof.
  intros Hc Hch Hown Hnamed. unfold inherited_or_overridden.
  destruct (classes_named c (last_name want)) as [|n0 named] eqn:Hn; [done|].
  destruct (start_class c want caller_path) as [start|] eqn:Hst.
  2: { cbn. right. rewrite Hn. by split_and!; [| |left]. }
  set (inherited := inherited_loop c candidates 32 {[start]} {[start]}).
  assert (nearest c candidates start inherited) as Hnear by apply inherited_ok.
  set (targets := if dispatch && _ then _ else _).
  assert (∀ id, id ∈ targets ↔ id ∈ inherited ∨ dispatch = true ∧ length (n0 :: named) = 1 ∧ overrides st c candidates [start] id) as Ht.
  { intros id. unfold targets. destruct (dispatch && (length (n0 :: named) =? 1)) eqn:Hd.
    - apply andb_true_iff in Hd as [-> Hd%Nat.eqb_eq]. rewrite add_overrides_ok. split.
      + intros [?|[Hid Hall]]; [by left|right]. split_and!; [done..|]. by apply (overrides_ok st c candidates [start]).
      + intros [?|(_ & _ & Ho)]; [by left|right]. pose proof (proj1 Ho) as Hid. split; [done|]. by apply (overrides_ok st c candidates [start]).
    - apply andb_false_iff in Hd. rewrite Nat.eqb_neq in Hd. split; [by left|].
      intros [?|(-> & Hl & _)]; [done|]. by destruct Hd. }
  clearbody targets inherited. destruct (bool_decide (targets = [])) eqn:Hnil.
  - apply bool_decide_eq_true in Hnil. subst targets. cbn. right. rewrite Hn. split_and!; [done..|]. right. exists start.
    assert (inherited = []) as ->.
    { destruct inherited as [|x l]; [done|]. exfalso. apply (elem_of_nil x), Ht. left. by left. }
    by split_and!.
  - apply bool_decide_eq_false in Hnil. destruct (Nat.ltb_spec 1 (length inherited)); cbn; rewrite Hn; (split; [done|right]);
      (split; [done|]); exists start, inherited; (split; [by split_and!|lia]).
Qed.

End Binds.

(** [Base] defines [f], [Derived] overrides it; the inheritance names each other in a loop. *)
Section Demo.
#[local] Abbreviation node id type name qn first last :=
  (mkNodeResult (mkNode id 1 type name (Some qn) first last false) "" None None None None None None).
Definition demo_classes : Store :=
  mkStore [mkFileEntry (mkFile 1 "shape.cc" (Some "cpp")) "h" 0 0]
    [node 1 "class" "Base" "Base" 1 5; node 2 "class" "Derived" "Derived" 10 15;
     node 3 "method" "f" "Base.f" 2 3; node 4 "method" "f" "Derived.f" 11 12]
    [mkEdgeEntry 1 (mkEdge 2 1 REL_INHERITS None "extracted"); mkEdgeEntry 2 (mkEdge 1 2 REL_INHERITS None "extracted")]
    [] [] [] ∅.
End Demo.

