(* ===== verification/CppFields.v ===== *)
(** * C++ field types ([indexer/pipeline/resolve.rs])

    How a call through a class's field, or through a chain of fields and method
    calls, is typed: the field as the class declares it or its nearest bases do,
    a method's return type likewise, when every class of that spelling agrees. *)

From S2P Require Import Prelude Str Utf8 Sql Domain Tables Store Queries Resolve RustUse RustFn ClassNames.

Record CppFieldTypes := mkFields {
  cf_fields : gmap (Z * string) (option string * option string);
  cf_by_last : gmap string (list (Z * list string));
  cf_last_of : gmap Z string;
  cf_parents : gmap Z (list Z);
  cf_returns : gmap (string * string) (gset string);
}.

Section Load.
Context (like : string → string → bool) (st : Store).

(** Class-like nodes with their class path, by its last segment. *)
Definition class_path_rows : list (string * (Z * list string)) :=
  omap (λ row, let '(id, _, spelling, _) := row in let path := class_path spelling in (λ l, (l, (id, path))) <$> last path)
    (class_like_names st).

(** [(qualified name, return type)] of the C++ methods *)
Definition return_rows : list (string * string) :=
  omap (λ nf, q ← qualified_of nf.1; ret ← nr_return_type nf.1; Some (q, ret))
    (filter (λ nf, file_language nf.2 = Some "cpp" ∧ type_of nf.1 ∈ ["function"; "method"]
                   ∧ like_opt like "%.%" (qualified_of nf.1) = true) (node_files st)).

Definition add_return (m : gmap (string * string) (gset string)) (row : string * string) : gmap (string * string) (gset string) :=
  match rsplit_once ch_dot row.1, last (owner_path row.1) with
  | Some (_, method), Some o => <[(o, method) := {[row.2]} ∪ default ∅ (m !! (o, method))]> m
  | _, _ => m
  end.

Definition load_cpp_fields : CppFieldTypes :=
  mkFields
    (foldl (λ m row, let '(class_id, field, dot, arrow) := row in <[(class_id, field) := (dot, arrow)]> m) ∅ (cpp_fields st))
    (group_rows class_path_rows)
    (foldl (λ m row, <[row.2.1 := row.1]> m) ∅ class_path_rows)
    (group_rows (inherits_edges st))
    (foldl add_return ∅ return_rows).
End Load.

(** ** The climb to the nearest declarations *)

(** What a class says: nothing can be told, these are the answers, or ask its bases. *)
Inductive Says (A : Type) := CannotTell | Declares (l : list A) | AskBases.
Arguments CannotTell {A}.
Arguments Declares {A} l.
Arguments AskBases {A}.

Section Climb.
Context {A : Type} (parents : gmap Z (list Z)) (says : Z → Says A).

(** The [while let] loop: a stack of classes, each asked once; the last pushed first. *)
Fixpoint climb (fuel : nat) (stack : list Z) (seen : gset Z) (found : list A) : option (list A) :=
  match fuel, stack with
  | S fuel, c :: stack =>
      if bool_decide (c ∈ seen) then climb fuel stack seen found
      else match says c with
           | CannotTell => None
           | Declares l => climb fuel stack ({[c]} ∪ seen) (found ++ l)
           | AskBases => climb fuel (rev (default [] (parents !! c)) ++ stack) ({[c]} ∪ seen) found
           end
  | _, _ => Some found
  end.

(** Every edge is pushed at most once. *)
Definition climb_fuel : nat := S (length (mjoin (map_to_list parents).*2)).

Fixpoint climb_all (starts : list Z) (found : list A) : option (list A) :=
  match starts with
  | [] => Some found
  | start :: starts => found ← climb climb_fuel [start] ∅ found; climb_all starts found
  end.
End Climb.

Section Types.
Context (t : CppFieldTypes).

Definition nodes_of (class : string) : list Z :=
  let want := class_path class in
  match last want with
  | None => []
  | Some l => fst <$> filter (λ p, suffix_fits p.2 want = true) (default [] (cf_by_last t !! l))
  end.

(** All the answers, when they agree. *)
Definition agreed {A} `{EqDecision A} (found : list A) : option A :=
  first ← head found; if forallb (λ x, bool_decide (x = first)) found then Some first else None.

Definition method_says (method : string) (c : Z) : Says string :=
  if bool_decide (is_Some (cf_fields t !! (c, method +:+ "()"))) then CannotTell
  else match cf_returns t !! (default "" (cf_last_of t !! c), method) with
       | Some types => Declares (elements types)
       | None => AskBases
       end.

Definition return_of (class method : string) : option string :=
  climb_all (cf_parents t) (method_says method) (nodes_of class) [] ≫= agreed.

Definition field_says (field : string) (arrow : bool) (c : Z) : Says (option string) :=
  match cf_fields t !! (c, field) with
  | Some (dot, via_arrow) => Declares [if arrow then via_arrow else dot]
  | None => AskBases
  end.

Definition type_of (class field : string) (arrow : bool) : option string :=
  found ← climb_all (cf_parents t) (field_says field arrow) (nodes_of class) []; first ← agreed found; first.

(** ** Chains *)

Definition class_last (t : string) : list string := match last (class_path t) with Some l => [l] | None => [] end.

Definition nth_of (v : json) (i : nat) : option json := match v with JArray l => l !! i | _ => None end.
Definition is_one (v : option json) : bool := bool_decide (v ≫= as_u64 = Some 1%N).

Definition via_base (meta : json) : option string * list string :=
  let base := get meta "b" in
  let field k := b ← base; get b k ≫= as_str in
  match field "t", field "c", field "v" with
  | Some ty, _, _ => (Some ty, [])
  | None, Some c, Some v => (type_of c v (is_one (get meta "ba")), class_last c)
  | _, _, _ => (None, [])
  end.

Definition via_step (ty : string) (step : json) : option string :=
  match nth_of step 0 ≫= as_str, nth_of step 1 ≫= as_str with
  | Some k, Some name =>
      if String.eqb k "f" then type_of ty name (is_one (nth_of step 2))
      else if String.eqb k "m" then return_of ty name else None
  | _, _ => None
  end.

Fixpoint via_steps (ty : option string) (through : list string) (steps : list json) : option string * list string :=
  match steps, ty with
  | step :: steps, Some t => via_steps (via_step t step) (through ++ class_last t) steps
  | _, _ => (ty, through)
  end.

Definition walk_via (meta : json) : option string * list string :=
  let '(ty, through) := via_base meta in
  via_steps ty through (match get meta "s" with Some (JArray steps) => steps | _ => [] end).

Section Rewrite.
Context (from_str : string → option json) (to_string : json → string).

Definition strings (l : list string) : json := JArray (JString <$> l).

Definition rewrite_via (meta : json) : json :=
  let '(ty, through) := walk_via meta in
  let l := match ty with Some ty => last (class_path ty) | None => None end in
  let known := match l with Some l => bool_decide (is_Some (cf_by_last t !! l)) | None => false end in
  match ty with
  | Some ty => if known then JObject [("q", JString "rtype"); ("v", JString ty); ("vc", strings through)]
               else JObject [("q", JString "member"); ("vc", strings (through ++ option_list l))]
  | None => JObject [("q", JString "member"); ("vc", strings (through ++ option_list l))]
  end.

Definition rewrite (metadata : option string) : option string :=
  match parse_callee_metadata from_str metadata with
  | Some Via => meta ← metadata ≫= from_str; Some (to_string (rewrite_via meta))
  | Some (Field class field arrow) =>
      Some (to_string (match type_of class field arrow with
                       | Some ty => JObject [("q", JString "rtype"); ("v", JString ty); ("fc", JString class); ("ff", JString field)]
                       | None => JObject [("q", JString "member"); ("fc", JString class); ("ff", JString field)]
                       end))
  | _ => None
  end.
End Rewrite.
End Types.

(** ** The edges of a typed call *)

Section Delete.
Context (from_str : string → option json) (json_extract : option string → string → option string).

Definition delete_typed_call_edges (st : Store) (source_id : Z) (target_name : string) (metadata : option string) : Store :=
  match metadata ≫= from_str with
  | None => st
  | Some meta =>
      match get meta "q" ≫= as_str, get meta "v" ≫= as_str with
      | Some q, Some v =>
          let ids := node_id_of <$> filter (λ n, node_name_of n = target_name) (s_nodes st) in
          mkStore (s_files st) (s_nodes st)
            (filter (λ e, let e := ee_edge e in
                          ~ (e_source_id e = source_id ∧ e_relation e = REL_CALLS ∧ e_target_id e ∈ ids
                             ∧ json_extract (e_metadata e) "$.q" = Some q ∧ json_extract (e_metadata e) "$.v" = Some v))
               (s_edges st))
            (s_pending st) (s_cpp_fields st) (s_js_exports st) (s_meta st)
      | _, _ => st
      end
  end.
End Delete.

(** * Properties *)

(** Either nothing is deleted, or it is one of the store's statements. *)
Lemma delete_typed_call_edges_op from_str json_extract st source_id target_name metadata :
  let st' := delete_typed_call_edges from_str json_extract st source_id target_name metadata in
  st' = st ∨ ∃ dead, st' = exec_op (DeleteEdgesWhere dead) st.
Proof.
  cbn. unfold delete_typed_call_edges. repeat case_match; try by left.
  right. eexists. symmetry. apply delete_edges_filter.
Qed.

Section ClimbOk.
Context {A : Type} (parents : gmap Z (list Z)) (says : Z → Says A).
#[local] Abbreviation bases c := (default [] (parents !! c)).

(** The classes a climb asks: through classes that say nothing themselves. *)
Definition asked : Z → Z → Prop := rtc (λ a b, says a = AskBases ∧ b ∈ bases a).

(** The edges not pushed yet. *)
Fixpoint weight (l : list (Z * list Z)) (seen : gset Z) : nat :=
  match l with
  | [] => 0
  | (k, v) :: l => (if bool_decide (k ∈ seen) then 0 else length v) + weight l seen
  end.

Lemma weight_mono l seen c : weight l ({[c]} ∪ seen) <= weight l seen.
Proof. induction l as [|[k v] l IH]; cbn; [done|]. repeat case_bool_decide; try lia. set_solver. Qed.

Lemma weight_push l seen c v : NoDup l.*1 → (c, v) ∈ l → c ∉ seen → length v + weight l ({[c]} ∪ seen) <= weight l seen.
Proof.
  intros Hnd Hin Hc. induction l as [|[k w] l IH]; [by apply elem_of_nil in Hin|]. cbn in Hnd. apply NoDup_cons in Hnd as [Hk Hnd].
  cbn [weight]. apply elem_of_cons in Hin as [[= <- <-]|Hin].
  - rewrite bool_decide_true by set_solver. rewrite (bool_decide_false _ Hc). pose proof (weight_mono l seen c). lia.
  - specialize (IH Hnd Hin). assert (k ≠ c) as Hkc.
    { intros ->. apply Hk. apply list_elem_of_fmap. by exists (c, v). }
    repeat case_bool_decide; try lia; set_solver.
Qed.

Lemma weight_bases seen c : c ∉ seen →
  length (bases c) + weight (map_to_list parents) ({[c]} ∪ seen) <= weight (map_to_list parents) seen.
Proof.
  intros Hc. destruct (parents !! c) as [v|] eqn:Hv; cbn [default from_option id].
  - apply weight_push; [apply NoDup_fst_map_to_list|by apply elem_of_map_to_list|done].
  - apply weight_mono.
Qed.

Lemma weight_empty l : weight l ∅ = length (mjoin l.*2).
Proof.
  induction l as [|[k v] l IH]; [done|]. cbn [weight]. rewrite bool_decide_false by set_solver. rewrite IH. symmetry. apply length_app.
Qed.

(** What a climb that starts from a stack has seen at its end. *)
Definition climbed (stack : list Z) (seen seen' : gset Z) (found : list A) (r : option (list A)) : Prop :=
  match r with
  | None => ∃ s c, s ∈ stack ∧ asked s c ∧ says c = CannotTell
  | Some found' =>
      seen ⊆ seen' ∧ (∀ c, c ∈ stack → c ∈ seen')
      ∧ (∀ c, c ∈ seen' → c ∉ seen → (∃ s, s ∈ stack ∧ asked s c) ∧ says c ≠ CannotTell
                                     ∧ (says c = AskBases → ∀ p, p ∈ bases c → p ∈ seen'))
      ∧ ∀ x, x ∈ found' ↔ x ∈ found ∨ ∃ c l, c ∈ seen' ∧ c ∉ seen ∧ says c = Declares l ∧ x ∈ l
  end.

(** A class met again, one that declares, and one whose bases are asked. *)
Lemma climbed_again c stack seen seen' found r :
  c ∈ seen → climbed stack seen seen' found r → climbed (c :: stack) seen seen' found r.
Proof.
  intros Hc Hr. destruct r as [f'|]; cbn in *.
  - destruct Hr as (H1 & H2 & H3 & H4). split_and!; [done| | |done].
    + intros d [->|Hd]%elem_of_cons; [by apply H1|by apply H2].
    + intros d Hd Hn. destruct (H3 d Hd Hn) as ((s & Hs & Ha) & ?). split; [|done]. exists s. split; [by right|done].
  - destruct Hr as (s & d & ? & ? & ?). exists s, d. split_and!; [by right|done|done].
Qed.

Lemma climbed_declares c l stack seen seen' found r :
  c ∉ seen → says c = Declares l → climbed stack ({[c]} ∪ seen) seen' (found ++ l) r → climbed (c :: stack) seen seen' found r.
Proof.
  intros Hc Hsays Hr. destruct r as [f'|]; cbn in *; [|destruct Hr as (s & d & ? & ? & ?); exists s, d; split_and!; [by right|done|done]].
  destruct Hr as (H1 & H2 & H3 & H4). split_and!; [set_solver| | |].
  - intros d [->|Hd]%elem_of_cons; [set_solver|by apply H2].
  - intros d Hd Hn. destruct (decide (d = c)) as [->|Hdc].
    + split_and!; [exists c; split; [by left|apply rtc_refl]|by rewrite Hsays|by rewrite Hsays].
    + destruct (H3 d Hd ltac:(set_solver)) as ((s & Hs & Ha) & ?). split; [|done]. exists s. split; [by right|done].
  - intros x. rewrite H4, elem_of_app. split.
    + intros [[?|?]|(d & l' & ? & ? & ? & ?)]; [by left| |].
      * right. exists c, l. split_and!; [set_solver|done|done|done].
      * right. exists d, l'. split_and!; [done|set_solver|done|done].
    + intros [?|(d & l' & ? & ? & Hd & ?)]; [by left; left|]. destruct (decide (d = c)) as [->|Hdc].
      * rewrite Hsays in Hd. injection Hd as <-. by left; right.
      * right. exists d, l'. split_and!; [done|set_solver|done|done].
Qed.

Lemma climbed_asks c stack seen seen' found r :
  c ∉ seen → says c = AskBases → climbed (rev (bases c) ++ stack) ({[c]} ∪ seen) seen' found r → climbed (c :: stack) seen seen' found r.
Proof.
  intros Hc Hsays Hr. assert (∀ p, p ∈ rev (bases c) ++ stack ↔ p ∈ bases c ∨ p ∈ stack) as Hst.
  { intros p. rewrite elem_of_app, !list_elem_of_In, <-in_rev. done. }
  destruct r as [f'|]; cbn in *.
  - destruct Hr as (H1 & H2 & H3 & H4). split_and!; [set_solver| | |].
    + intros d [->|Hd]%elem_of_cons; [set_solver|apply H2, Hst; by right].
    + intros d Hd Hn. destruct (decide (d = c)) as [->|Hdc].
      * split_and!; [exists c; split; [by left|apply rtc_refl]|by rewrite Hsays|].
        intros _ p Hp. apply H2, Hst. by left.
      * destruct (H3 d Hd ltac:(set_solver)) as ((s & [Hs|Hs]%Hst & Ha) & ?); split; try done.
        -- exists c. split; [by left|]. by eapply rtc_l.
        -- exists s. split; [by right|done].
    + intros x. rewrite H4. split.
      * intros [?|(d & l' & ? & ? & ? & ?)]; [by left|]. right. exists d, l'. split_and!; [done|set_solver|done|done].
      * intros [?|(d & l' & ? & ? & Hd & ?)]; [by left|]. right. exists d, l'. split_and!; [done| |done|done].
        intros [->%elem_of_singleton|?]%elem_of_union; [by rewrite Hsays in Hd|done].
  - destruct Hr as (s & d & [Hs|Hs]%Hst & ? & ?).
    + exists c, d. split_and!; [by left|by eapply rtc_l|done].
    + exists s, d. split_and!; [by right|done|done].
Qed.

Lemma climb_ok fuel stack seen found :
  length stack + weight (map_to_list parents) seen <= fuel →
  ∃ seen', climbed stack seen seen' found (climb parents says fuel stack seen found).
Proof.
  revert stack seen found. induction fuel as [|fuel IH]; intros [|c stack] seen found Hf; cbn [climb length] in *.
  1, 3: exists seen; split_and!; [done|intros c Hc; by apply elem_of_nil in Hc|intros c ??; done|];
    intros x; split; [by left|intros [?|(c & l & ? & ? & _)]; done].
  { lia. }
  destruct (bool_decide (c ∈ seen)) eqn:Hc.
  - apply bool_decide_eq_true in Hc. destruct (IH stack seen found ltac:(lia)) as [seen' Hr]. exists seen'. by apply climbed_again.
  - apply bool_decide_eq_false in Hc. destruct (says c) as [|l|] eqn:Hsays.
    + exists ∅. cbn. exists c, c. split_and!; [by left|apply rtc_refl|done].
    + pose proof (weight_mono (map_to_list parents) seen c).
      destruct (IH stack ({[c]} ∪ seen) (found ++ l) ltac:(lia)) as [seen' Hr]. exists seen'. by eapply climbed_declares.
    + pose proof (weight_bases seen c Hc).
      destruct (IH (rev (bases c) ++ stack) ({[c]} ∪ seen) found) as [seen' Hr]; [rewrite length_app, length_rev; lia|].
      exists seen'. by apply climbed_asks.
Qed.

Lemma climb_start start found :
  match climb parents says (climb_fuel parents) [start] ∅ found with
  | None => ∃ c, asked start c ∧ says c = CannotTell
  | Some found' => (∀ c, asked start c → says c ≠ CannotTell)
                   ∧ ∀ x, x ∈ found' ↔ x ∈ found ∨ ∃ c l, asked start c ∧ says c = Declares l ∧ x ∈ l
  end.
Proof.
  destruct (climb_ok (climb_fuel parents) [start] ∅ found) as [seen' Hr].
  { unfold climb_fuel. rewrite weight_empty. cbn. lia. }
  destruct (climb _ _ _ _ _ _) as [f'|]; cbn in Hr.
  - destruct Hr as (_ & H2 & H3 & H4).
    assert (∀ c, c ∈ seen' ↔ asked start c) as Hseen.
    { intros c. split.
      - intros Hc. destruct (H3 c Hc ltac:(set_solver)) as ((s & ->%list_elem_of_singleton & ?) & _). done.
      - assert (start ∈ seen') as Hs by (apply H2; by left).
        assert (∀ a b, a ∈ seen' → says a = AskBases → b ∈ bases a → b ∈ seen') as Hstep.
        { intros a b Ha Hab Hb. destruct (H3 a Ha (not_elem_of_empty a)) as (_ & _ & Hall). by apply (Hall Hab). }
        clear -Hs Hstep. intros Hc. revert Hs. induction Hc as [|a b c [Hab1 Hab2] _ IH]; [done|].
        intros Ha. apply IH. by apply (Hstep a). }
    split.
    + intros c Hc. apply H3; [by apply Hseen|set_solver].
    + intros x. rewrite H4. setoid_rewrite Hseen. split; intros [?|(c & l & ?)]; try (by left); right; exists c, l.
      * split_and!; tauto.
      * split_and!; [tauto|set_solver|tauto|tauto].
  - destruct Hr as (s & c & ->%list_elem_of_singleton & ? & ?). by exists c.
Qed.

Lemma climb_all_ok starts found :
  match climb_all parents says starts found with
  | None => ∃ s c, s ∈ starts ∧ asked s c ∧ says c = CannotTell
  | Some found' => (∀ s c, s ∈ starts → asked s c → says c ≠ CannotTell)
                   ∧ ∀ x, x ∈ found' ↔ x ∈ found ∨ ∃ s c l, s ∈ starts ∧ asked s c ∧ says c = Declares l ∧ x ∈ l
  end.
Proof.
  revert found. induction starts as [|s starts IH]; intros found; cbn [climb_all].
  { split; [intros s c Hs; by apply elem_of_nil in Hs|]. intros x. split; [by left|].
    intros [?|(s & c & l & Hs & _)]; [done|by apply elem_of_nil in Hs]. }
  pose proof (climb_start s found) as Hs. destruct (climb _ _ _ [s] ∅ found) as [f1|]; cbn [mbind option_bind].
  - destruct Hs as [Hs1 Hs2]. specialize (IH f1). destruct (climb_all parents says starts f1) as [f'|].
    + destruct IH as [H1 H2]. split.
      * intros s' c [->|Hin]%elem_of_cons; [apply Hs1|by apply H1].
      * intros x. rewrite H2, Hs2. split.
        -- intros [[?|(c & l & ?)]|(s' & c & l & Hin & ?)]; [by left|right; exists s, c, l; split; [by left|done]|].
           right. exists s', c, l. split; [by right|done].
        -- intros [?|(s' & c & l & [->|Hin]%elem_of_cons & ?)]; [by left; left|left; right; by exists c, l|].
           right. by exists s', c, l.
    + destruct IH as (s' & c & Hin & ?). exists s', c. split; [by right|done].
  - destruct Hs as (c & ?). exists s, c. split; [by left|done].
Qed.
End ClimbOk.

Lemma agreed_ok {A} `{EqDecision A} (found : list A) y : agreed found = Some y ↔ found ≠ [] ∧ ∀ x, x ∈ found → x = y.
Proof.
  unfold agreed. destruct found as [|a l]; [naive_solver|]. cbn [head mbind option_bind].
  destruct (forallb _ _) eqn:Hall; rewrite ?forallb_forall in Hall.
  - split.
    + intros [= <-]. split; [done|]. intros x Hx%list_elem_of_In. by apply Hall, bool_decide_eq_true in Hx.
    + intros [_ Heq]. f_equal. apply Heq. by left.
  - split; [done|]. intros [_ Heq]. apply not_true_iff_false in Hall. destruct Hall. apply forallb_forall.
    intros x Hx%list_elem_of_In. apply bool_decide_eq_true. rewrite (Heq x Hx). symmetry. apply Heq. by left.
Qed.

Section TypesOk.
Context (t : CppFieldTypes) (class : string).

(** [c] is asked about [class]: one of the classes of that spelling, or a base reached through classes that say nothing. *)
Definition asked_of {A} (says : Z → Says A) (c : Z) : Prop := ∃ s, s ∈ nodes_of t class ∧ asked (cf_parents t) says s c.

Lemma type_of_spec ty field arrow :
  type_of t class field arrow = Some ty ↔
   (∃ c, asked_of (field_says t field arrow) c ∧ is_Some (cf_fields t !! (c, field)))
   ∧ ∀ c d, asked_of (field_says t field arrow) c → cf_fields t !! (c, field) = Some d →
       (if arrow then d.2 else d.1) = Some ty.
Proof.
  unfold type_of. pose proof (climb_all_ok (cf_parents t) (field_says t field arrow) (nodes_of t class) []) as H.
  assert (∀ c, field_says t field arrow c ≠ CannotTell) as Hct by (intros c; unfold field_says; by destruct (_ !! _) as [[??]|]).
  assert (∀ c l, field_says t field arrow c = Declares l ↔ ∃ d, cf_fields t !! (c, field) = Some d ∧ l = [if arrow then d.2 else d.1]) as Hd.
  { intros c l. unfold field_says. destruct (_ !! _) as [[d1 d2]|]; [|naive_solver]. cbn. destruct arrow; naive_solver. }
  destruct (climb_all _ _ _ _) as [found|].
  2: { destruct H as (s & c & _ & _ & Hc). by apply Hct in Hc. }
  destruct H as [_ H]. cbn [mbind option_bind]. setoid_rewrite Hd in H.
  assert ((first ← agreed found; first) = Some ty ↔ agreed found = Some (Some ty)) as Ha
    by (destruct (agreed found) as [[?|]|]; cbn; naive_solver).
  change (match agreed found with Some x => x | None => None end) with (first ← agreed found; first).
  rewrite Ha, agreed_ok. split.
  + intros [Hne Hall]. split.
    * destruct found as [|x l]; [done|]. destruct (proj1 (H x) ltac:(by left)) as [?%elem_of_nil|(s & c & l' & Hs & Has & (d & Hd' & _) & _)]; [done|].
      exists c. split; [by exists s|by exists d].
    * intros c d (s & Hs & Has) Hcd. apply Hall, H. right. exists s, c, [if arrow then d.2 else d.1].
      split_and!; [done|done|by exists d|by left].
  + intros [(c & (s & Hs & Has) & d & Hcd) Hall]. split.
    * intros ->. apply (proj1 (elem_of_nil (if arrow then d.2 else d.1))), H. right.
      exists s, c, [if arrow then d.2 else d.1]. split_and!; [done|done|by exists d|by left].
    * intros x [?%elem_of_nil|(s' & c' & l & Hs' & Has' & (d' & Hcd' & ->) & ->%list_elem_of_singleton)]%H; [done|].
      eapply Hall; [by exists s'|done].
Qed.

Lemma return_of_spec ty method :
  return_of t class method = Some ty ↔
     (∃ c (types : gset string), asked_of (method_says t method) c ∧ method_says t method c = Declares (elements types) ∧ types ≠ ∅)
     ∧ ∀ c, asked_of (method_says t method) c →
         cf_fields t !! (c, method +:+ "()") = None
         ∧ ∀ types r, cf_returns t !! (default "" (cf_last_of t !! c), method) = Some types → r ∈ types → r = ty.
Proof.
  unfold return_of. pose proof (climb_all_ok (cf_parents t) (method_says t method) (nodes_of t class) []) as H.
  destruct (climb_all _ _ _ _) as [found|]; cbn [mbind option_bind].
  2: { destruct H as (s & c & Hs & Has & Hc). split; [done|]. intros [_ Hall].
       destruct (Hall c ltac:(by exists s)) as [Hno _]. unfold method_says in Hc. rewrite Hno in Hc.
       rewrite bool_decide_false in Hc by (intros [? ?]; congruence). by destruct (_ !! _). }
  destruct H as [Hct H].
  assert (∀ c, asked_of (method_says t method) c → cf_fields t !! (c, method +:+ "()") = None) as Hno.
  { intros c (s & Hs & Has). specialize (Hct s c Hs Has). unfold method_says in Hct.
    destruct (cf_fields t !! (c, method +:+ "()")) eqn:Hc; [|done]. rewrite bool_decide_true in Hct by done. done. }
  rewrite agreed_ok. split.
  + intros [Hne Hall]. split.
    * destruct found as [|x l]; [done|]. destruct (proj1 (H x) ltac:(by left)) as [?%elem_of_nil|(s & c & l' & Hs & Has & Hd & Hx)]; [done|].
      pose proof Hd as Hd'. unfold method_says in Hd. destruct (bool_decide _); [done|].
      destruct (cf_returns t !! _) as [types|]; [|done].
      injection Hd as <-. exists c, types. split_and!; [by exists s|done|]. intros ->. by rewrite elements_empty in Hx; apply elem_of_nil in Hx.
    * intros c Hc. split; [by apply Hno|]. intros types r Htypes Hr. apply Hall, H. right. pose proof (Hno c Hc) as Hn.
      destruct Hc as (s & Hs & Has). exists s, c, (elements types). split_and!; [done|done| |by apply elem_of_elements].
      unfold method_says. rewrite Hn, bool_decide_false by (by intros [? ?]). by rewrite Htypes.
  + intros [(c & types & (s & Hs & Has) & Hd & Hne) Hall]. split.
    * intros ->. apply Hne. apply set_eq. intros x. split; [|set_solver]. intros Hx. exfalso. apply (proj1 (elem_of_nil x)), H.
      right. exists s, c, (elements types). split_and!; [done..|by apply elem_of_elements].
    * intros x [?%elem_of_nil|(s' & c' & l & Hs' & Has' & Hd' & Hx)]%H; [done|]. destruct (Hall c' ltac:(by exists s')) as [Hn Hr].
      unfold method_says in Hd'. rewrite Hn, bool_decide_false in Hd' by (by intros [? ?]).
      destruct (cf_returns t !! (default "" (cf_last_of t !! c'), method)) as [types'|]; [|done].
      injection Hd' as <-. apply (Hr types' x); [done|by apply elem_of_elements].
Qed.

(** The type of a C++ field, or of a method's result, as the classes of a spelling and their nearest bases declare
    it: known exactly when at least one of them declares it and all that do, each reached through classes that do not,
    agree on the same type (for a method: and none of them returns its template's parameter). The climb visits every
    such class once whatever cycles the bases form, and its fuel suffices. *)
Theorem cpp_types_ok ty field method arrow :
  (type_of t class field arrow = Some ty ↔
   (∃ c, asked_of (field_says t field arrow) c ∧ is_Some (cf_fields t !! (c, field)))
   ∧ ∀ c d, asked_of (field_says t field arrow) c → cf_fields t !! (c, field) = Some d →
       (if arrow then d.2 else d.1) = Some ty)
  ∧ (return_of t class method = Some ty ↔
     (∃ c (types : gset string), asked_of (method_says t method) c ∧ method_says t method c = Declares (elements types) ∧ types ≠ ∅)
     ∧ ∀ c, asked_of (method_says t method) c →
         cf_fields t !! (c, method +:+ "()") = None
         ∧ ∀ types r, cf_returns t !! (default "" (cf_last_of t !! c), method) = Some types → r ∈ types → r = ty).
Proof. split; [apply type_of_spec|apply return_of_spec]. Qed.
End TypesOk.
