(* ===== verification/Pipeline.v ===== *)
(** * Deleting files in an index run ([indexer/pipeline/index_files.rs])

    Phase 0 of [index_files]: the edges that other files have into a deleted file
    are saved before the cascade takes them, calls in the store's buffer, other
    relations in the run's deferred list. *)

From S2P Require Import Prelude Str Domain Tables Store Queries Resolve.

Record DeferredRelation := mkDeferred {
  dr_source_ids : list Z;
  dr_source_name : string;
  dr_target_name : string;
  dr_relation : string;
  dr_metadata : option string;
  dr_rel_path : string;
  dr_language : string;
  dr_ns_file : option string;
}.

(** A loop of fallible steps. *)
Fixpoint try_fold {S A} (f : A → S → result string S) (l : list A) (s : S) : result string S :=
  match l with
  | [] => Ok s
  | x :: l' => (let? s' := f x s in try_fold f l' s')%cg
  end.

Section Delete.
Context (from_str : string → option json).
Context (run_file_paths delete_set : gset string).

Definition buffer_call (row : Z * string * string * option string) (st : Store) : result string Store :=
  let '(source_id, target_name, source_language, metadata) := row in
  insert_pending_unresolved_call source_id (js_import_pending_name from_str metadata target_name)
    source_language metadata st.

Definition deferred_of (row : Z * string * string * string * string * option string) : DeferredRelation :=
  let '(source_id, source_path, source_language, target_name, relation, metadata) := row in
  mkDeferred [source_id] "" target_name relation metadata source_path source_language None.

(** [run_file_paths.contains(path) || delete_set.contains(path)] *)
Definition is_requeued (row : Z * string * string * string * string * option string) : Prop :=
  row.1.1.1.1.2 ∉ run_file_paths ∧ row.1.1.1.1.2 ∉ delete_set.

Definition buffer_inbound_before_node_purge (file_id : Z) (s : Store * list DeferredRelation * (nat * nat))
    : result string (Store * list DeferredRelation * (nat * nat)) :=
  let '(st, deferred, (b, r)) := s in
  let inbound := get_inbound_calls_for_pending st file_id in
  (let? st' := try_fold buffer_call inbound st in
   let rest := filter is_requeued (get_inbound_relations_for_requeue st' file_id) in
   Ok (st', deferred ++ (deferred_of <$> rest), (b + length inbound, r + length rest)))%cg.
End Delete.

(** [SELECT id FROM files WHERE path = ?1], the first row *)
Definition file_id_by_path (st : Store) (path : string) : option Z :=
  file_id_of <$> head (filter (λ f, file_path_of f = path) (s_files st)).

(** The savepoint is rolled back on an error. *)
Definition buffer_then_delete_files (from_str : string → option json) (delete_paths : list string)
    (run_file_paths : gset string) (deferred : list DeferredRelation) (st : Store)
    : result string (Store * list DeferredRelation) :=
  let delete_set : gset string := list_to_set delete_paths in
  let deleted_file_ids := omap (file_id_by_path st) delete_paths in
  (let? (st', deferred', _) :=
     try_fold (buffer_inbound_before_node_purge from_str run_file_paths delete_set) deleted_file_ids
       (st, deferred, (0, 0)) in
   Ok (delete_files_by_paths delete_paths st', deferred'))%cg.

(** * Properties *)

(** The buffer has the call. *)
Definition buffered (st : Store) (source_id : Z) (target_name language : string) (metadata : option string) : Prop :=
  (source_id, target_name, language, default "" metadata) ∈ pending_key <$> s_pending st.

(** [st'] is [st] with more calls in its buffer. *)
Definition buffer_grown (st st' : Store) : Prop :=
  ∃ ps, st' = set_pending ps st ∧ (pending_key <$> s_pending st) ⊆ (pending_key <$> ps).

Lemma buffer_grown_refl st : buffer_grown st st.
Proof. exists (s_pending st). split; [by destruct st|done]. Qed.

Lemma buffer_grown_trans st1 st2 st3 : buffer_grown st1 st2 → buffer_grown st2 st3 → buffer_grown st1 st3.
Proof.
  intros (ps & -> & H1) (ps' & -> & H2). exists ps'. split; [done|]. simpl in H2. set_solver.
Qed.

Lemma buffered_grown st st' i t l m : buffer_grown st st' → buffered st i t l m → buffered st' i t l m.
Proof. intros (ps & -> & H) Hb. by apply H. Qed.

Lemma insert_pending_total i t l m st :
  store_ok st → i ∈ node_ids st →
  ∃ st', insert_pending_unresolved_call i t l m st = Ok st' ∧ store_ok st' ∧ buffer_grown st st'
    ∧ buffered st' i t l m.
Proof.
  intros Hok Hi. pose proof (insert_pending_ok i t l m st Hok) as Hok'.
  unfold insert_pending_unresolved_call in *. case_bool_decide as Hk.
  - exists st. split; [done|]. split; [done|]. split; [apply buffer_grown_refl|exact Hk].
  - rewrite bool_decide_eq_true_2 in * by done. eexists. split; [done|]. split; [exact Hok'|]. split.
    + eexists. split; [reflexivity|]. rewrite fmap_app. set_solver.
    + unfold buffered. cbn [s_pending]. rewrite fmap_app. apply elem_of_app. right. by left.
Qed.

Section Loop.
Context (from_str : string → option json) (run_file_paths delete_set : gset string).

Lemma buffer_calls_total rows st :
  store_ok st → (∀ r, r ∈ rows → r.1.1.1 ∈ node_ids st) →
  ∃ st', try_fold (buffer_call from_str) rows st = Ok st' ∧ store_ok st' ∧ buffer_grown st st'
    ∧ ∀ r, r ∈ rows → buffered st' r.1.1.1 (js_import_pending_name from_str r.2 r.1.1.2) r.1.2 r.2.
Proof.
  revert st. induction rows as [|[[[i t] l] m] rows IH]; intros st Hok Hin; simpl.
  { exists st. split; [done|]. split; [done|]. split; [apply buffer_grown_refl|]. by intros r ?%elem_of_nil. }
  destruct (insert_pending_total i (js_import_pending_name from_str m t) l m st Hok) as (st1 & -> & Hok1 & Hg1 & Hb1).
  { apply (Hin (i, t, l, m)). by left. }
  simpl. destruct (IH st1 Hok1) as (st2 & -> & Hok2 & Hg2 & Hb2).
  { intros r Hr. destruct Hg1 as (ps & -> & _). apply Hin. by right. }
  exists st2. split; [done|]. split; [done|]. split; [by eapply buffer_grown_trans|].
  intros r [->|Hr]%elem_of_cons; [by eapply buffered_grown|by apply Hb2].
Qed.
End Loop.

(** ** Which edges are saved *)

(** [e] runs from node [ns] of file [fs] to node [nt] of file [ft]. *)
Definition edge_between (st : Store) (e : EdgeRow) (ns : NodeResult) (fs : FileEntry) (nt : NodeResult)
    (ft : FileEntry) : Prop :=
  e ∈ ee_edge <$> s_edges st
  ∧ ns ∈ s_nodes st ∧ node_id_of ns = e_source_id e ∧ fs ∈ s_files st ∧ file_id_of fs = node_file_of ns
  ∧ nt ∈ s_nodes st ∧ node_id_of nt = e_target_id e ∧ ft ∈ s_files st ∧ file_id_of ft = node_file_of nt.

Lemma elem_of_edge_ends st e ns fs nt ft :
  (e, (ns, fs), (nt, ft)) ∈ edge_ends st ↔ edge_between st e ns fs nt ft.
Proof.
  unfold edge_ends, edge_between. rewrite list_elem_of_bind. split.
  - intros (e' & (ns' & (fs' & (nt' & (ft' & [= -> -> -> -> ->]%list_elem_of_singleton & Hft)%list_elem_of_bind
        & Hnt)%list_elem_of_bind & Hfs)%list_elem_of_bind & Hns)%list_elem_of_bind & He).
    apply elem_of_node_rows in Hns, Hnt. apply elem_of_file_rows in Hfs, Hft. tauto.
  - intros (He & Hns & Hsid & Hfs & Hfsid & Hnt & Htid & Hft & Hftid). exists e. split; [|done].
    apply list_elem_of_bind. exists ns. split; [|by apply elem_of_node_rows].
    apply list_elem_of_bind. exists fs. split; [|by apply elem_of_file_rows].
    apply list_elem_of_bind. exists nt. split; [|by apply elem_of_node_rows].
    apply list_elem_of_bind. exists ft. split; [|by apply elem_of_file_rows].
    by apply list_elem_of_singleton.
Qed.

Lemma elem_of_inbound_rows st fid keep src path lang name rel meta :
  (src, path, lang, name, rel, meta) ∈ inbound_rows st fid keep
  ↔ ∃ e ns fs nt ft, edge_between st e ns fs nt ft
      ∧ file_id_of ft = fid ∧ file_id_of fs ≠ fid ∧ keep (e_relation e) = true
      ∧ file_language fs ≠ None
      ∧ src = e_source_id e ∧ path = file_path_of fs ∧ lang = default "" (file_language fs)
      ∧ name = node_name_of nt ∧ rel = e_relation e ∧ meta = e_metadata e.
Proof.
  unfold inbound_rows. rewrite list_elem_of_bind. split.
  - intros ([[e [ns fs]] [nt ft]] & [= -> -> -> -> -> ->]%list_elem_of_singleton & [H Hx]%list_elem_of_filter).
    simpl in H. apply elem_of_edge_ends in Hx.
    exists e, ns, fs, nt, ft. destruct H as (H1 & H2 & H3 & H4).
    split; [done|]. destruct Hx as (_ & _ & _ & _ & Hs & _ & _ & _ & Ht).
    rewrite Hs, Ht. auto 12.
  - intros (e & ns & fs & nt & ft & Hx & Ht & Hs & Hk & Hl & -> & -> & -> & -> & -> & ->).
    exists (e, (ns, fs), (nt, ft)). split; [by apply list_elem_of_singleton|].
    apply list_elem_of_filter. split; [|by apply elem_of_edge_ends].
    simpl. destruct Hx as (_ & _ & _ & _ & Hs' & _ & _ & _ & Ht'). by rewrite <-Hs', <-Ht'.
Qed.

(** What one saved call or relation looks like. *)
Definition saved_call (from_str : string → option json) (st : Store) (e : EdgeRow) (fs : FileEntry) (nt : NodeResult) : Prop :=
  buffered st (e_source_id e) (js_import_pending_name from_str (e_metadata e) (node_name_of nt))
    (default "" (file_language fs)) (e_metadata e).

Definition saved_relation (deferred : list DeferredRelation) (e : EdgeRow) (fs : FileEntry) (nt : NodeResult) : Prop :=
  mkDeferred [e_source_id e] "" (node_name_of nt) (e_relation e) (e_metadata e) (file_path_of fs)
    (default "" (file_language fs)) None ∈ deferred.

(** The edge has a recovery channel: it comes from another file with a language. *)
Definition recoverable (fid : Z) (fs : FileEntry) : Prop :=
  file_id_of fs ≠ fid ∧ file_language fs ≠ None ∧ file_language fs ≠ Some "" ∧ file_path_of fs ≠ "".

Lemma elem_of_inbound_calls st fid r :
  r ∈ get_inbound_calls_for_pending st fid
  ↔ r.1.2 ≠ "" ∧ ∃ path rel, (r.1.1.1, path, r.1.2, r.1.1.2, rel, r.2) ∈ inbound_rows st fid (λ r, String.eqb r REL_CALLS).
Proof.
  unfold get_inbound_calls_for_pending. rewrite list_elem_of_filter. unfold sort_cmp.
  rewrite elem_of_sort_by, list_elem_of_fmap. destruct r as [[[s n] l] m]. simpl. split.
  - intros [Hl ([[[[[s' p] l'] n'] rel] m'] & [= -> -> -> ->] & Hx)]. eauto.
  - intros [Hl (p & rel & Hx)]. split; [done|]. by exists (s, p, l, n, rel, m).
Qed.

Lemma elem_of_inbound_relations st fid src path lang name rel meta :
  (src, path, lang, name, rel, meta) ∈ get_inbound_relations_for_requeue st fid
  ↔ (lang ≠ "" ∧ path ≠ "")
    ∧ (src, path, lang, name, rel, meta) ∈ inbound_rows st fid (λ r, negb (String.eqb r REL_CALLS)).
Proof.
  unfold get_inbound_relations_for_requeue. rewrite list_elem_of_filter. unfold sort_cmp.
  by rewrite elem_of_sort_by.
Qed.

Section Purge.
Context (from_str : string → option json) (run_file_paths delete_set : gset string).

Lemma purge_total fid st deferred c :
  store_ok st →
  ∃ st' deferred' c',
    buffer_inbound_before_node_purge from_str run_file_paths delete_set fid (st, deferred, c)
      = Ok (st', deferred', c')
    ∧ store_ok st' ∧ buffer_grown st st'
    ∧ (∀ e ns fs nt ft, edge_between st e ns fs nt ft → file_id_of ft = fid → recoverable fid fs →
         (e_relation e = REL_CALLS → saved_call from_str st' e fs nt)
         ∧ (e_relation e ≠ REL_CALLS → file_path_of fs ∉ run_file_paths → file_path_of fs ∉ delete_set →
            saved_relation deferred' e fs nt))
    ∧ (∀ d, d ∈ deferred → d ∈ deferred')
    ∧ (∀ d, d ∈ deferred' → d ∈ deferred
         ∨ ∃ e ns fs nt ft, edge_between st e ns fs nt ft ∧ dr_source_ids d = [e_source_id e]
             ∧ file_path_of fs ∉ delete_set).
Proof.
  intros Hok. destruct c as [b r]. unfold buffer_inbound_before_node_purge.
  destruct (buffer_calls_total from_str (get_inbound_calls_for_pending st fid) st Hok)
    as (st' & -> & Hok' & Hg & Hb).
  { intros [[[s n] l] m] [Hl (path & rel & Hx)]%elem_of_inbound_calls.
    apply elem_of_inbound_rows in Hx as (e & ns & fs & nt & ft & (He & Hns & Hsid & _) & _ & _ & _ & _ & -> & _).
    simpl. rewrite <-Hsid. by apply list_elem_of_fmap_2. }
  simpl. assert (get_inbound_relations_for_requeue st' fid = get_inbound_relations_for_requeue st fid) as ->
    by (destruct Hg as (ps & -> & _); reflexivity).
  eexists _, _, _. split; [reflexivity|]. split; [done|]. split; [done|]. split; [|split].
  - intros e ns fs nt ft Hx Ht (Hne & Hl & Hl' & Hp). split.
    + intros Hcall. unfold saved_call.
      apply (Hb (e_source_id e, node_name_of nt, default "" (file_language fs), e_metadata e)).
      apply elem_of_inbound_calls. simpl. split; [by destruct (file_language fs); naive_solver|].
      exists (file_path_of fs), (e_relation e). apply elem_of_inbound_rows.
      exists e, ns, fs, nt, ft. rewrite Hcall. naive_solver.
    + intros Hcall Hrun Hdel. unfold saved_relation. apply elem_of_app. right.
      apply list_elem_of_fmap.
      exists (e_source_id e, file_path_of fs, default "" (file_language fs), node_name_of nt, e_relation e, e_metadata e).
      split; [done|]. apply list_elem_of_filter. split; [done|].
      apply elem_of_inbound_relations. split; [split; [by destruct (file_language fs); naive_solver|done]|].
      apply elem_of_inbound_rows. exists e, ns, fs, nt, ft.
      rewrite (proj2 (String.eqb_neq _ _) Hcall). naive_solver.
  - intros d Hd. apply elem_of_app. by left.
  - intros d [Hd|([[[[[s p] l] n] rel] m] & -> & [[_ Hdel] Hx]%list_elem_of_filter)%list_elem_of_fmap]%elem_of_app; [by left|].
    right. apply elem_of_inbound_relations in Hx as [_ Hx].
    apply elem_of_inbound_rows in Hx as (e & ns & fs & nt & ft & Hx & _ & _ & _ & _ & -> & -> & _).
    exists e, ns, fs, nt, ft. naive_solver.
Qed.
End Purge.

#[local] Arguments buffer_inbound_before_node_purge : simpl never.

Lemma edge_between_grown st st' e ns fs nt ft :
  buffer_grown st st' → edge_between st e ns fs nt ft ↔ edge_between st' e ns fs nt ft.
Proof. by intros (ps & -> & _). Qed.

Lemma purge_all_total from_str run dels fids st deferred c :
  store_ok st →
  ∃ st' deferred' c',
    try_fold (buffer_inbound_before_node_purge from_str run dels) fids (st, deferred, c)
      = Ok (st', deferred', c')
    ∧ store_ok st' ∧ buffer_grown st st'
    ∧ (∀ e ns fs nt ft, edge_between st e ns fs nt ft → file_id_of ft ∈ fids → recoverable (file_id_of ft) fs →
         (e_relation e = REL_CALLS → saved_call from_str st' e fs nt)
         ∧ (e_relation e ≠ REL_CALLS → file_path_of fs ∉ run → file_path_of fs ∉ dels →
            saved_relation deferred' e fs nt))
    ∧ (∀ d, d ∈ deferred → d ∈ deferred')
    ∧ (∀ d, d ∈ deferred' → d ∈ deferred
         ∨ ∃ e ns fs nt ft, edge_between st e ns fs nt ft ∧ dr_source_ids d = [e_source_id e]
             ∧ file_path_of fs ∉ dels).
Proof.
  revert st deferred c. induction fids as [|fid fids IH]; intros st deferred c Hok; simpl.
  { eexists _, _, _. split; [reflexivity|]. split; [done|]. split; [apply buffer_grown_refl|].
    split; [by intros ?????? ?%elem_of_nil|]. split; [done|]. by left. }
  destruct (purge_total from_str run dels fid st deferred c Hok)
    as (st1 & d1 & c1 & -> & Hok1 & Hg1 & Hs1 & Hd1 & Ho1). simpl.
  destruct (IH st1 d1 c1 Hok1) as (st2 & d2 & c2 & -> & Hok2 & Hg2 & Hs2 & Hd2 & Ho2).
  eexists _, _, _. split; [reflexivity|]. split; [done|]. split; [by eapply buffer_grown_trans|]. split; [|split].
  - intros e ns fs nt ft Hx [Heq|Hin]%elem_of_cons Hr.
    + rewrite Heq in Hr. destruct (Hs1 e ns fs nt ft Hx Heq Hr) as [Hc Hrel]. split.
      * intros H. eapply buffered_grown; [done|by apply Hc].
      * intros H Hrun Hdel. apply Hd2. by apply Hrel.
    + apply (Hs2 e ns fs nt ft); [by rewrite <-(edge_between_grown st st1)|done|done].
  - auto.
  - intros d [Hd|(e & ns & fs & nt & ft & Hx & H)]%Ho2; [by apply Ho1|right].
    exists e, ns, fs, nt, ft. split; [by rewrite (edge_between_grown st st1)|done].
Qed.

Lemma elem_of_deleted_ids st (paths : list string) f :
  store_ok st → f ∈ s_files st →
  file_id_of f ∈ omap (file_id_by_path st) paths ↔ file_path_of f ∈ paths.
Proof.
  intros Hok Hf.
  assert (∀ p, file_id_by_path st p = Some (file_id_of f) ↔ p = file_path_of f) as Hid.
  { intros p. unfold file_id_by_path. set (l := filter _ (s_files st)).
    assert (∀ g, g ∈ l ↔ file_path_of g = p ∧ g ∈ s_files st) as Hl
      by (intros g; unfold l; by rewrite list_elem_of_filter).
    destruct l as [|g l'].
    - split; [done|]. intros ->. exfalso. specialize (Hl f). rewrite elem_of_nil in Hl. tauto.
    - destruct (proj1 (Hl g) ltac:(by left)) as [Hgp Hg]. cbn [head fmap option_fmap option_map]. split.
      + intros [= Heq]. rewrite <-Hgp. f_equal.
        apply (NoDup_key_inj file_id_of (s_files st)); [apply Hok|done..].
      + intros ->. f_equal. f_equal. apply (NoDup_key_inj file_path_of (s_files st)); [apply Hok|done..]. }
  rewrite list_elem_of_omap. split.
  - intros (p & Hp & Heq%Hid). by subst.
  - intros Hin. exists (file_path_of f). split; [done|]. by apply Hid.
Qed.

(** What a deletion keeps. *)
Lemma delete_files_keep (paths : list string) st :
  store_ok st →
  let st' := delete_files_where (λ f, bool_decide (file_path_of f ∈ paths)) st in
  (∀ f, f ∈ s_files st' ↔ f ∈ s_files st ∧ file_path_of f ∉ paths)
  ∧ (∀ i, (∃ n f, n ∈ s_nodes st ∧ node_id_of n = i ∧ f ∈ s_files st ∧ file_id_of f = node_file_of n
             ∧ file_path_of f ∉ paths) → i ∈ node_ids st')
  ∧ (∀ i t l m, i ∈ node_ids st' → buffered st i t l m → buffered st' i t l m).
Proof.
  intros Hok st'. pose proof (delete_nodes_exact (λ n : NodeResult, bool_decide
    (node_file_of n ∈ file_id_of <$> filter (λ f, bool_decide (file_path_of f ∈ paths) = true) (s_files st))) st Hok)
    as (_ & Hn & _ & Hp & _).
  split; [|split].
  - intros f. unfold st', delete_files_where. cbn [with_files s_files].
    rewrite list_elem_of_filter, bool_decide_eq_false. tauto.
  - intros i (n & f & Hin & <- & Hf & Hid & Hpath). apply list_elem_of_fmap_2, Hn. split; [done|].
    apply bool_decide_eq_false. rewrite <-Hid. apply kept_key; [apply Hok|done|].
    apply list_elem_of_fmap_2, list_elem_of_filter. by rewrite bool_decide_eq_false.
  - intros i t l m Hi (p & Hkey & Hin)%list_elem_of_fmap. unfold buffered. rewrite Hkey.
    apply list_elem_of_fmap_2. apply Hp. split; [done|]. unfold pending_key in Hkey. injection Hkey as <- _ _ _. done.
Qed.

(** C11: Deleting files loses no edge of a file that stays and has a recorded
    language: the deletion always succeeds and leaves a well-formed store without the
    files. Every edge that a node of a remaining file had into them survives as a
    buffered call, or, when it is no call and the run does not re-extract the source's
    file anyway, as a deferred relation, provided the row of the source's file has a
    language that is neither null nor empty and a path that is not empty (an edge from
    a file without a language has no such channel, and nothing is claimed for it).
    What was deferred before stays deferred, and what is added hangs on nodes that
    still exist. *)
Theorem buffer_then_delete_files_ok from_str paths run deferred st :
  store_ok st →
  ∃ st' deferred',
    buffer_then_delete_files from_str paths run deferred st = Ok (st', deferred')
    ∧ store_ok st'
    ∧ (∀ f, f ∈ s_files st' ↔ f ∈ s_files st ∧ file_path_of f ∉ paths)
    ∧ (∀ e ns fs nt ft, edge_between st e ns fs nt ft → file_path_of ft ∈ paths → file_path_of fs ∉ paths →
         file_language fs ≠ None → file_language fs ≠ Some "" → file_path_of fs ≠ "" →
         (e_relation e = REL_CALLS → saved_call from_str st' e fs nt)
         ∧ (e_relation e ≠ REL_CALLS → file_path_of fs ∉ run → saved_relation deferred' e fs nt))
    ∧ (∀ d, d ∈ deferred → d ∈ deferred')
    ∧ (∀ d i, d ∈ deferred' → d ∉ deferred → i ∈ dr_source_ids d → i ∈ node_ids st').
Proof.
  intros Hok. unfold buffer_then_delete_files.
  destruct (purge_all_total from_str run (list_to_set paths) (omap (file_id_by_path st) paths) st deferred (0, 0) Hok)
    as (st1 & d1 & c1 & -> & Hok1 & Hg & Hs & Hd & Ho). simpl.
  eexists _, _. split; [reflexivity|]. split; [by apply delete_files_by_paths_ok|].
  assert (s_files st1 = s_files st ∧ s_nodes st1 = s_nodes st) as [Hfiles Hnodes]
    by (by destruct Hg as (ps & -> & _)).
  rewrite delete_files_by_paths_once. 
  pose proof (delete_files_keep paths st1 Hok1) as (Hf & Hn & Hp).
  split; [by intros f; rewrite Hf, Hfiles|]. split; [|split; [done|]].
  - intros e ns fs nt ft Hx Hft Hfs Hl Hl' Hpath. pose proof Hx as (_ & Hns & Hsid & Hfsin & Hfsid & _ & _ & Hftin & _).
    assert (recoverable (file_id_of ft) fs) as Hr.
    { split; [|done]. intros Heq. apply Hfs.
      assert (fs = ft) as ->; [|done]. apply (NoDup_key_inj file_id_of (s_files st)); [apply Hok|done..]. }
    destruct (Hs e ns fs nt ft Hx ltac:(by apply elem_of_deleted_ids) Hr) as [Hc Hrel]. split.
    + intros H. apply Hp; [|by apply Hc]. rewrite <-Hsid. apply Hn. exists ns, fs.
      by rewrite Hnodes, Hfiles.
    + intros H Hrun. apply Hrel; [done|done|]. by rewrite elem_of_list_to_set.
  - intros d i Hd1 Hd0 Hi. apply Ho in Hd1 as [?|(e & ns & fs & nt & ft & Hx & Hsrc & Hdel)]; [done|].
    rewrite Hsrc in Hi. apply list_elem_of_singleton in Hi as ->.
    destruct Hx as (_ & Hns & Hsid & Hfsin & Hfsid & _). rewrite <-Hsid. apply Hn. exists ns, fs.
    rewrite Hnodes, Hfiles. rewrite elem_of_list_to_set in Hdel. done.
Qed.

Lemma buffer_then_delete_files_ok_witness :
  ∃ st' deferred',
    buffer_then_delete_files (λ _, None) ["a.rs"] ∅ [] demo_store = Ok (st', deferred')
    ∧ store_ok st'
    ∧ (∀ f, f ∈ s_files st' ↔ f ∈ s_files demo_store ∧ file_path_of f ∉ ["a.rs"])
    ∧ (∀ e ns fs nt ft, edge_between demo_store e ns fs nt ft → file_path_of ft ∈ ["a.rs"] →
         file_path_of fs ∉ ["a.rs"] →
         file_language fs ≠ None → file_language fs ≠ Some "" → file_path_of fs ≠ "" →
         (e_relation e = REL_CALLS → saved_call (λ _, None) st' e fs nt)
         ∧ (e_relation e ≠ REL_CALLS → file_path_of fs ∉ (∅ : gset string) → saved_relation deferred' e fs nt))
    ∧ (∀ d, d ∈ [] → d ∈ deferred')
    ∧ (∀ d i, d ∈ deferred' → d ∉ [] → i ∈ dr_source_ids d → i ∈ node_ids st').
Proof. apply (buffer_then_delete_files_ok (λ _, None) ["a.rs"] ∅ []), demo_store_ok. Defined.

(** The call of [f] from [b.rs] is in the buffer once [a.rs] is gone. *)
Example call_survives_deletion :
  match buffer_then_delete_files (λ _, None) ["a.rs"] ∅ [] demo_store with
  | Ok (st', _) => (pending_key <$> s_pending st', length (s_edges st'))
  | Err _ => ([], 0)
  end = ([(3%Z, "later", "rust", ""); (2%Z, "f", "rust", "")], 1).
Proof. by vm_compute. Qed.
