(* ===== verification/Batch.v ===== *)
(** * One batch of files ([indexer/pipeline/index_files.rs])

    How the files of a run are cut into batches, what Phase 1a makes of a file's
    bytes, and Phase 1b: the file rows and nodes of a batch go into the store, and
    the edges other files have into them are saved first. *)

From S2P Require Import Prelude Str Utf8 Domain Tokens Tables Store Queries Paths Resolve RustUse RustFn Pipeline.

(** ** Batches *)

Definition BATCH_SIZE : N := 500.
Definition BATCH_MAX_BYTES : N := 16 * 1024 * 1024.
Definition CONTEXT_CHUNK_NODES : N := 50000.
Definition U64_MAX : N := 2 ^ 64 - 1.

(** [u64::saturating_add] *)
Definition saturating_add (a b : N) : N := N.min (a + b) U64_MAX.

Section Plan.
Context (max_items max_size : N).

(** The loop over the sizes: the open run's length and size. *)
Fixpoint plan_loop (sizes : list N) (len : nat) (size_acc : N) : list nat :=
  match sizes with
  | [] => if (0 <? len)%nat then [len] else []
  | size :: sizes =>
      if (0 <? len)%nat && ((max_items <=? N.of_nat len) || (max_size <? saturating_add size_acc size))%N
      then len :: plan_loop sizes 1 (saturating_add 0 size)
      else plan_loop sizes (S len) (saturating_add size_acc size)
  end.

Definition plan_chunks (sizes : list N) : list nat := plan_loop sizes 0 0.
End Plan.

(** [file_len] is the size on disk, if it can be read. *)
Definition plan_batches (file_len : string → option N) (files : list string) (max_files max_bytes : N) : list nat :=
  plan_chunks max_files max_bytes ((λ rel, default 0%N (file_len rel)) <$> files).

Record FileIndexed := mkIndexed { fi_rel_path : string; fi_node_ids : list Z; fi_node_names : list string }.

Definition plan_context_chunks (all_indexed : list FileIndexed) (max_nodes : N) : list nat :=
  plan_chunks U64_MAX max_nodes ((λ fi, N.of_nat (length (fi_node_ids fi))) <$> all_indexed).

(** The slices of the plan, one after another. *)
Fixpoint slices {A} (lens : list nat) (l : list A) : list (list A) :=
  match lens with
  | [] => []
  | len :: lens => take len l :: slices lens (drop len l)
  end.

(** ** What the parser hands over *)

Inductive LexicalScope := FileScope | Within (start_byte end_byte : N).

Record BareCall := mkBareCall { bc_at : N; bc_reaches_members : bool }.

Record ParsedNode := mkParsedNode {
  pn_node_type : string;
  pn_name : string;
  pn_qualified_name : option string;
  pn_start_line : Z;
  pn_end_line : Z;
  pn_code_content : string;
  pn_signature : option string;
  pn_doc_comment : option string;
  pn_return_type : option string;
  pn_param_types : option string;
  pn_is_test : bool;
  pn_lexical_scope : option LexicalScope;
}.

Record ParsedRelation := mkRelation {
  pr_source_name : string;
  pr_target_name : string;
  pr_relation : string;
  pr_metadata : option string;
  pr_source_language : string;
  pr_source_line : option Z;
  pr_call_at : option BareCall;
}.

Record CppField := mkCppField {
  cfd_class_name : string;
  cfd_class_lines : Z * Z;
  cfd_field : string;
  cfd_dot : option string;
  cfd_arrow : option string;
}.

(** ** Phase 1a *)

Record FilePreParsed := mkPreParsed {
  pp_rel_path : string;
  pp_source : string;
  pp_language : string;
  pp_hash : string;
  pp_last_modified : Z;
  pp_parsed_nodes : list ParsedNode;
  pp_module_is_test : bool;
  pp_relations : list ParsedRelation;
  pp_cpp_fields : list CppField;
  pp_js_exports : list JsExportEntry;
  pp_has_parse_errors : bool;
}.

Record SkippedFile := mkSkipped {
  sk_rel_path : string;
  sk_hash : string;
  sk_last_modified : Z;
  sk_language : string;
}.

Inductive PreParseOutcome :=
| Parsed (p : FilePreParsed)
| Skipped (s : SkippedFile)
| Nothing.

(** One increment of the shared counters. *)
Inductive Counter := CountSize | CountParse | CountRead | CountLanguage | CountParseErrors.
#[export] Instance Counter_eq_dec : EqDecision Counter.
Proof. solve_decision. Defined.

Record SkipCounters := mkCounters {
  c_size : nat; c_parse : nat; c_read : nat; c_language : nat; c_parse_errors : nat;
}.
Definition bump (l : list Counter) (c : SkipCounters) : SkipCounters :=
  let n k := length (filter (λ x, x = k) l) in
  mkCounters (c_size c + n CountSize) (c_parse c + n CountParse) (c_read c + n CountRead)
    (c_language c + n CountLanguage) (c_parse_errors c + n CountParseErrors).

Definition looks_like_cpp_header (source : string) : bool :=
  existsb (λ marker, contains marker source)
    ["::"; "public:"; "private:"; "protected:"; "class "; "namespace "; "template<"; "template <"].

(** [metadata()]: the length, and the modification time in seconds if it has one after the epoch. *)
Record FileMeta := mkFileMeta { fm_len : N; fm_modified : option Z }.

Section PreParse.
(** The disk, BLAKE3, tree-sitter, and the walks over its trees. *)
Context (file_meta : string → option FileMeta) (read_source_bytes hash_file : string → option string).
Context (blake3 : string → string) (max_file_size : N).
Context {Tree : Type} (parse_tree : string → string → option Tree) (has_error : Tree → bool).
Context (extract_nodes_from_tree : Tree → string → string → list ParsedNode) (file_is_test_code : Tree → string → string → bool).
Context (extract_relations_from_tree : Tree → string → string → string → list ParsedRelation).
Context (cpp_class_fields : Tree → string → list CppField) (js_export_entries : Tree → string → list JsExportEntry).
Context (hashes : gmap string string).

Definition modified_secs (rel_path : string) : Z := default 0%Z (file_meta rel_path ≫= fm_modified).

Definition parse_source (rel_path language source : string) : PreParseOutcome * list Counter :=
  let language := if String.eqb language "c" && ends_with ".h" rel_path && looks_like_cpp_header source then "cpp" else language in
  let hash := default (blake3 source) (hashes !! rel_path) in
  match parse_tree source language with
  | None => (Skipped (mkSkipped rel_path hash (modified_secs rel_path) language), [CountParse])
  | Some tree =>
      (Parsed (mkPreParsed rel_path source language hash (modified_secs rel_path)
                 (extract_nodes_from_tree tree source language) (file_is_test_code tree source language)
                 (extract_relations_from_tree tree source language rel_path)
                 (if String.eqb language "cpp" then cpp_class_fields tree source else [])
                 (if one_of ["javascript"; "typescript"; "tsx"] language then js_export_entries tree source else [])
                 (has_error tree)),
       if has_error tree then [CountParseErrors] else [])
  end.

Definition parse_one (rel_path : string) : PreParseOutcome * list Counter :=
  match detect_language rel_path with
  | None => (Nothing, [CountLanguage])
  | Some language =>
      if match file_meta rel_path with Some meta => (max_file_size <? fm_len meta)%N | None => false end then
        (match match hashes !! rel_path with Some h => Some h | None => hash_file rel_path end with
         | Some hash => Skipped (mkSkipped rel_path hash (modified_secs rel_path) language)
         | None => Nothing
         end, [CountSize])
      else match read_source_bytes rel_path with
           | None => (Nothing, [CountRead])
           | Some bytes =>
               match from_utf8 bytes with
               | None => (Skipped (mkSkipped rel_path (blake3 bytes) (modified_secs rel_path) language), [CountRead])
               | Some source => parse_source rel_path language source
               end
           end
  end.

Record PreParsed := mkPreParsedBatch { pb_parsed : list FilePreParsed; pb_skipped : list SkippedFile }.

(** The outcomes come back in the order of the batch, whichever worker made them. *)
Definition pre_parse_batch (batch : list string) (counters : SkipCounters) : PreParsed * SkipCounters :=
  let outcomes := parse_one <$> batch in
  (mkPreParsedBatch (omap (λ o, match o.1 with Parsed p => Some p | _ => None end) outcomes)
     (omap (λ o, match o.1 with Skipped s => Some s | _ => None end) outcomes),
   bump (mjoin outcomes.*2) counters).
End PreParse.

(** ** Phase 1b *)

Record FileParsed := mkParsed {
  pf_rel_path : string;
  pf_language : string;
  pf_relations : list ParsedRelation;
  pf_cpp_fields : list CppField;
  pf_js_exports : list JsExportEntry;
  pf_file_id : Z;
  pf_node_ids : list Z;
  pf_node_names : list string;
  pf_node_qualified_names : list (option string);
  pf_node_types : list string;
  pf_node_lines : list (Z * Z);
  pf_rust_fn_shapes : gmap Z RustFnShape;
  pf_node_scopes : gmap Z LexicalScope;
  pf_method_ids : gset Z;
}.

(** [(source_id, source_file_id, target_file_id, target_name, relation, metadata, target qualified_name)] *)
Definition SavedEdge : Type := Z * Z * Z * string * string * option string * option string.

Record BatchInserted := mkInserted {
  bi_parsed : list FileParsed;
  bi_saved_inbound_edges : list SavedEdge;
  bi_file_ids : gset Z;
  bi_nodes_created : nat;
}.

Definition U32_MAX : Z := 4294967295.

(** [str::lines().count()]: a last empty piece is no line. *)
Definition line_count (s : string) : nat :=
  let parts := split_on "010" s in
  if bool_decide (last parts = Some "") then pred (length parts) else length parts.

Definition pp_record (pp : FilePreParsed) : FileRecord :=
  mkFileRecord (pp_rel_path pp) (pp_hash pp) (pp_last_modified pp) (Some (pp_language pp)).

Definition module_record (file_id : Z) (pp : FilePreParsed) : NodeRecord :=
  mkNodeRecord file_id "module" MODULE_NODE_NAME (Some (pp_rel_path pp)) 1 (Z.of_nat (line_count (pp_source pp)))
    "" None None None None None None (pp_module_is_test pp).

Section Parsed.
Context `{U : Unicode}.

Definition node_record (file_id : Z) (pn : ParsedNode) : NodeRecord :=
  mkNodeRecord file_id (pn_node_type pn) (pn_name pn) (pn_qualified_name pn) (pn_start_line pn) (pn_end_line pn)
    (pn_code_content pn) (pn_signature pn) (pn_doc_comment pn) None (Some (split_identifier (pn_name pn)))
    (pn_return_type pn) (pn_param_types pn) (pn_is_test pn).

(** The rows of a file, the [<module>] node first. *)
Definition file_records (file_id : Z) (pp : FilePreParsed) : list NodeRecord :=
  module_record file_id pp :: (node_record file_id <$> pp_parsed_nodes pp).

Fixpoint insert_nodes (recs : list NodeRecord) (st : Store) : result string (list Z * Store) :=
  match recs with
  | [] => Ok ([], st)
  | r :: recs =>
      (let? (id, st) := insert_node_cached r st in
       let? (ids, st) := insert_nodes recs st in Ok (id :: ids, st))%cg
  end.

Definition rust_fn_row (id : Z) (pn : ParsedNode) : RustFnRow :=
  mkRow id (pn_signature pn) (pn_qualified_name pn) (pn_start_line pn, pn_end_line pn) (pn_code_content pn).

(** What the loop over a file's nodes collects, given the ids of the new rows. *)
Definition file_parsed (pp : FilePreParsed) (file_id : Z) (ids : list Z) : FileParsed :=
  let nodes := pp_parsed_nodes pp in
  let with_ids := zip (drop 1 ids) nodes in
  let rust_fns :=
    omap (λ x, if String.eqb (pp_language pp) "rust" && String.eqb (pn_node_type x.2) "function"
               then Some (rust_fn_row x.1 x.2) else None) with_ids in
  mkParsed (pp_rel_path pp) (pp_language pp) (pp_relations pp) (pp_cpp_fields pp) (pp_js_exports pp) file_id
    ids (MODULE_NODE_NAME :: (pn_name <$> nodes)) (None :: (pn_qualified_name <$> nodes))
    ("module" :: (pn_node_type <$> nodes)) ((1%Z, U32_MAX) :: ((λ pn, (pn_start_line pn, pn_end_line pn)) <$> nodes))
    (foldl (λ m p, <[p.1 := p.2]> m) ∅ (rust_fn_shapes_of_file (pp_rel_path pp) rust_fns))
    (foldl (λ m x, match pn_lexical_scope x.2 with Some s => <[x.1 := s]> m | None => m end) ∅ with_ids)
    (list_to_set (fst <$> filter (λ x, pn_node_type x.2 = "method") with_ids)).

(** [now] is when the row of a path is written. *)
Context (now : string → Z).

Definition insert_file (pp : FilePreParsed) (s : BatchInserted * Store) : result string (BatchInserted * Store) :=
  let '(b, st) := s in
  let '(file_id, st) := upsert_file (now (pp_rel_path pp)) (pp_record pp) st in
  let saved := (λ row, let '(src, src_file, tname, rel, meta, tqual) := row in
                       (src, src_file, file_id, tname, rel, meta, tqual))
                 <$> get_inbound_cross_file_edges st file_id in
  let st := delete_nodes_by_file file_id st in
  (let? (ids, st) := insert_nodes (file_records file_id pp) st in
   Ok (mkInserted (bi_parsed b ++ [file_parsed pp file_id ids]) (bi_saved_inbound_edges b ++ saved)
         ({[file_id]} ∪ bi_file_ids b) (bi_nodes_created b + length ids), st))%cg.

Definition insert_batch_nodes (pre_parsed : list FilePreParsed) (st : Store) : result string (BatchInserted * Store) :=
  try_fold insert_file pre_parsed (mkInserted [] [] ∅ 0, st).
End Parsed.

(** The files whose identity is known but not their symbols: recorded, and emptied. *)
Section Skipped.
Context (now : string → Z) (from_str : string → option json) (run_file_paths : gset string).

Definition sk_record (sk : SkippedFile) : FileRecord :=
  mkFileRecord (sk_rel_path sk) (sk_hash sk) (sk_last_modified sk) (Some (sk_language sk)).

Definition record_skipped (sk : SkippedFile) (s : Store * list DeferredRelation) : result string (Store * list DeferredRelation) :=
  let '(st, deferred) := s in
  let '(file_id, st) := upsert_file (now (sk_rel_path sk)) (sk_record sk) st in
  (let? (st', deferred', _) := buffer_inbound_before_node_purge from_str run_file_paths ∅ file_id (st, deferred, (0, 0)) in
   Ok (delete_nodes_by_file file_id st', deferred'))%cg.

Definition record_all_skipped (skipped : list SkippedFile) (s : Store * list DeferredRelation)
    : result string (Store * list DeferredRelation) := try_fold record_skipped skipped s.
End Skipped.

(** *** What the file's own tables keep *)

(** [min_by_key]: the first of the least. *)
Definition min_by_key {A} (key : A → Z) (l : list A) : option A :=
  match l with
  | [] => None
  | x :: l => Some (foldl (λ best y, if (key y <? key best)%Z then y else best) x l)
  end.

Definition cpp_class_node (pf : FileParsed) (f : CppField) : option Z :=
  let '(start, end_) := cfd_class_lines f in
  let fits i := match pf_node_types pf !! i, pf_node_names pf !! i, pf_node_lines pf !! i with
                | Some ty, Some name, Some (s, e) =>
                    one_of ["class"; "struct"] ty && String.eqb name (cfd_class_name f) && (s <=? start)%Z && (end_ <=? e)%Z
                | _, _, _ => false
                end in
  let width i := match pf_node_lines pf !! i with Some (s, e) => (e - s)%Z | None => 0%Z end in
  i ← min_by_key width (filter (λ i, fits i = true) (seq 0 (length (pf_node_ids pf))));
  pf_node_ids pf !! i.

Definition cpp_field_row (pf : FileParsed) (f : CppField) : option CppFieldRow :=
  id ← cpp_class_node pf f; Some (id, cfd_field f, cfd_dot f, cfd_arrow f).

Definition record_cpp_fields (pf : FileParsed) (st : Store) : result string Store :=
  insert_cpp_fields (omap (cpp_field_row pf) (pf_cpp_fields pf)) st.

Definition module_node_id (pf : FileParsed) : option Z :=
  '(i, _) ← list_find (λ n, n = MODULE_NODE_NAME) (pf_node_names pf); pf_node_ids pf !! i.

Definition record_js_export_entries (pf : FileParsed) (st : Store) : result string Store :=
  if bool_decide (pf_js_exports pf = []) then Ok st
  else match module_node_id pf with
       | Some module_id => insert_js_export_entries module_id (pf_js_exports pf) st
       | None => Ok st
       end.

(** * Properties *)

(** ** Runs of a plan *)

Definition total (l : list N) : N := foldr N.add 0%N l.

Lemma total_app l1 l2 : total (l1 ++ l2) = (total l1 + total l2)%N.
Proof. unfold total. induction l1 as [|x l1 IH]; cbn [app foldr]; [done|]. rewrite IH. lia. Qed.

Section PlanOk.
Context (max_items max_size : N) (Hitems : (0 < max_items)%N) (Hsize : (max_size < U64_MAX)%N).

(** Within both limits, or a single item. *)
Definition fits_run (run : list N) : Prop :=
  run ≠ [] ∧ (N.of_nat (length run) <= max_items)%N ∧ (length run = 1 ∨ (total run <= max_size)%N).
(** The next item would not have fitted. *)
Definition full_for (run : list N) (x : N) : Prop :=
  N.of_nat (length run) = max_items ∨ (max_size < total run + x)%N.

Definition plan_of (open sizes : list N) : list (list N) :=
  slices (plan_loop max_items max_size sizes (length open) (N.min (total open) U64_MAX)) (open ++ sizes).

Lemma plan_of_nil open : plan_of open [] = if decide (open = []) then [] else [open].
Proof.
  unfold plan_of. cbn [plan_loop]. rewrite app_nil_r. destruct open as [|x o]; [done|].
  cbn [length Nat.ltb Nat.leb slices]. by rewrite decide_False, take_ge by done.
Qed.

Lemma plan_of_cons open x sizes : (open = [] ∨ fits_run open) →
  plan_of open (x :: sizes) = open :: plan_of [x] sizes ∧ open ≠ [] ∧ full_for open x
  ∨ plan_of open (x :: sizes) = plan_of (open ++ [x]) sizes ∧ (open ++ [x]) ≠ [] ∧ fits_run (open ++ [x]).
Proof.
  intros Hopen. unfold plan_of, saturating_add, full_for, fits_run in *. cbn [plan_loop]. unfold saturating_add.
  assert (N.min (N.min (total open) U64_MAX + x) U64_MAX = N.min (total open + x) U64_MAX)%N as -> by lia.
  rewrite length_app, total_app. cbn [length]. change (total [x]) with (x + 0)%N. rewrite N.add_0_r.
  destruct ((0 <? length open)%nat && _) eqn:Hc.
  - left. apply andb_true_iff in Hc as [Hlen%Nat.ltb_lt Hc]. split_and!.
    + cbn [slices app]. rewrite take_app_length, drop_app_length.
      by replace (total [x]) with x by (unfold total; cbn; lia).
    + intros ->. cbn in Hlen. lia.
    + destruct Hopen as [->|(_ & Hi & _)]; [cbn in Hlen; lia|].
      apply orb_true_iff in Hc as [Hc%N.leb_le|Hc%N.ltb_lt]; [left; lia|right; lia].
  - right. rewrite Nat.add_1_r, <-app_assoc. cbn [app]. split; [done|]. split; [by destruct open|].
    split; [by destruct open|]. rewrite Nat2N.inj_succ.
    destruct open as [|y o]; [cbn; split; [lia|by left]|].
    cbn [length Nat.ltb Nat.leb andb] in Hc. apply orb_false_iff in Hc as [H1%N.leb_gt H2%N.ltb_ge].
    cbn [length]. split; [lia|]. right. lia.
Qed.

Lemma plan_of_ok open sizes : (open = [] ∨ fits_run open) →
  mjoin (plan_of open sizes) = open ++ sizes
  ∧ (∀ run, run ∈ plan_of open sizes → fits_run run)
  ∧ (∀ l1 run x next l2, plan_of open sizes = l1 ++ run :: (x :: next) :: l2 → full_for run x)
  ∧ (∀ x o, open = x :: o → ∃ e rest, plan_of open sizes = (x :: o ++ e) :: rest).
Proof.
  revert open. induction sizes as [|y sizes IH]; intros open Hopen.
  - rewrite plan_of_nil, app_nil_r. case_decide as Hn; subst; cbn.
    + split_and!; [done|by intros ? ?%elem_of_nil|by intros [|??] ????|done].
    + split_and!; [by rewrite app_nil_r| |by intros [|? [|??]] ????|].
      * intros run ->%list_elem_of_singleton. by destruct Hopen.
      * intros x o ->. exists [], []. by rewrite app_nil_r.
  - destruct (plan_of_cons open y sizes Hopen) as [(-> & Hn & Hfull)|(-> & Hn & Hfits)].
    + assert (fits_run [y]) as Hy by (split_and!; [done|cbn; lia|by left]).
      destruct (IH [y] ltac:(by right)) as (H1 & H2 & H3 & H4). destruct (H4 y [] eq_refl) as (e & rest & He).
      split_and!.
      * change (open ++ mjoin (plan_of [y] sizes) = open ++ y :: sizes). by rewrite H1.
      * intros run [->|Hr]%elem_of_cons; [by destruct Hopen|by apply H2].
      * intros [|r l1] run x next l2 Heq; injection Heq as <- Heq; [|by eapply H3].
        rewrite He in Heq. injection Heq as <- _. done.
      * intros x o ->. exists [], (plan_of [y] sizes). by rewrite app_nil_r.
    + destruct (IH (open ++ [y]) ltac:(by right)) as (H1 & H2 & H3 & H4). split_and!; [|done|done|].
      * by rewrite H1, <-app_assoc.
      * intros x o ->. destruct (H4 x (o ++ [y]) eq_refl) as (e & rest & ->). exists (y :: e), rest.
        by rewrite <-app_assoc.
Qed.
End PlanOk.

(** C20: The runs a sequence is cut into ([plan_chunks], for the batches of files and the chunks of Phase 3). Put
    together they are the sequence, in order, none empty. No run is longer than the item limit, and none is larger than
    the size limit unless it is a single item; and a run is only closed when the next item would break a limit. The
    size limit must be below [u64::MAX], past which saturation would hide an excess; both limits of the code are. *)
Theorem plan_chunks_ok max_items max_size sizes :
  (0 < max_items)%N → (max_size < U64_MAX)%N →
  let runs := slices (plan_chunks max_items max_size sizes) sizes in
  mjoin runs = sizes
  ∧ (∀ run, run ∈ runs →
       run ≠ [] ∧ (N.of_nat (length run) <= max_items)%N ∧ (length run = 1 ∨ (total run <= max_size)%N))
  ∧ (∀ l1 run x next l2, runs = l1 ++ run :: (x :: next) :: l2 →
       N.of_nat (length run) = max_items ∨ (max_size < total run + x)%N).
Proof.
  intros Hi Hs. destruct (plan_of_ok max_items max_size Hi Hs [] sizes ltac:(by left)) as (H1 & H2 & H3 & _).
  split_and!; [exact H1|exact H2|exact H3].
Qed.

Lemma plan_chunks_ok_witness :
  slices (plan_chunks 3 10 [4; 6; 1; 50; 2; 2; 2; 2]%N) [4; 6; 1; 50; 2; 2; 2; 2]%N = [[4; 6]; [1]; [50]; [2; 2; 2]; [2]]%N
  ∧ mjoin (slices (plan_chunks BATCH_SIZE BATCH_MAX_BYTES [4; 6]%N) [4; 6]%N) = [4; 6]%N.
Proof.
  split; [by vm_compute|]. apply (plan_chunks_ok BATCH_SIZE BATCH_MAX_BYTES [4; 6]%N); by vm_compute.
Defined.

(** ** Nodes of a batch *)

Definition with_nodes (ns : list NodeResult) (st : Store) : Store :=
  mkStore (s_files st) ns (s_edges st) (s_pending st) (s_cpp_fields st) (s_js_exports st) (s_meta st).

Definition nodes_in (file : Z) (st : Store) : list NodeResult := filter (λ n, node_file_of n = file) (s_nodes st).

Lemma insert_nodes_ok recs file st :
  store_ok st → file ∈ file_ids st → (∀ r, r ∈ recs → rec_file_id r = file) →
  ∃ ids, length ids = length recs
    ∧ insert_nodes recs st = Ok (ids, with_nodes (s_nodes st ++ zip_with node_of_record ids recs) st)
    ∧ store_ok (with_nodes (s_nodes st ++ zip_with node_of_record ids recs) st).
Proof.
  revert st. induction recs as [|r recs IH]; intros st Hok Hf Hr; cbn [insert_nodes].
  { exists []. cbn [zip_with]. rewrite app_nil_r. by destruct st. }
  pose proof (insert_node_ok r st Hok) as Hok1. unfold insert_node_cached, insert_node in *.
  rewrite (Hr r ltac:(by left)) in *. rewrite bool_decide_true in * by done. cbn [on_ok snd] in Hok1.
  set (id := next_id (node_ids st)) in *. cbn [result_bind].
  destruct (IH _ Hok1 Hf) as (ids & Hlen & -> & Hok2); [intros r' Hr'; apply Hr; by right|].
  exists (id :: ids). cbn [length zip_with result_bind]. rewrite Hlen. split; [done|].
  unfold with_nodes in *. cbn [s_files s_nodes s_edges s_pending s_cpp_fields s_js_exports s_meta] in *.
  rewrite <-app_assoc in Hok2 |- *. done.
Qed.

Lemma nodes_in_app file ns st : nodes_in file (with_nodes (s_nodes st ++ ns) st) = nodes_in file st ++ nodes_in file (with_nodes ns st).
Proof. apply filter_app. Qed.

Lemma zip_records_file ids recs file n :
  (∀ r, r ∈ recs → rec_file_id r = file) → n ∈ zip_with node_of_record ids recs → node_file_of n = file.
Proof.
  intros Hr Hn. apply elem_of_lookup_zip_with in Hn as (i & id & r & -> & _ & Hi). cbn. apply Hr. by eapply list_elem_of_lookup_2.
Qed.

Section BatchOk.
Context `{U : Unicode} (now : string → Z).

Lemma file_records_file fid pp r : r ∈ file_records fid pp → rec_file_id r = fid.
Proof. intros [->|(pn & -> & _)%list_elem_of_fmap]%elem_of_cons; done. Qed.

(** An edge with an end in a file. *)
Definition ends_in (st : Store) (file : Z) (e : EdgeEntry) : Prop :=
  ∃ n, n ∈ s_nodes st ∧ node_file_of n = file ∧ (node_id_of n = e_source_id (ee_edge e) ∨ node_id_of n = e_target_id (ee_edge e)).

(** What a file of the batch has in the store. *)
Record recorded (st : Store) (pp : FilePreParsed) (pf : FileParsed) : Prop := mkRecorded {
  rec_row : ∃ f, f ∈ s_files st ∧ file_id_of f = pf_file_id pf ∧ file_path_of f = pp_rel_path pp
                 ∧ fe_blake3_hash f = pp_hash pp ∧ file_language f = Some (pp_language pp);
  rec_parsed : pf = file_parsed pp (pf_file_id pf) (pf_node_ids pf);
  rec_length : length (pf_node_ids pf) = S (length (pp_parsed_nodes pp));
  rec_nodes : nodes_in (pf_file_id pf) st
              = zip_with node_of_record (pf_node_ids pf) (file_records (pf_file_id pf) pp);
}.

(** The rows saved for one file. *)
Definition saved_of (st : Store) (file_id : Z) : list SavedEdge :=
  (λ row, let '(src, src_file, tname, rel, meta, tqual) := row in (src, src_file, file_id, tname, rel, meta, tqual))
    <$> get_inbound_cross_file_edges st file_id.

Record file_step (pp : FilePreParsed) (st st' : Store) (pf : FileParsed) : Prop := mkStep {
  fs_ok : store_ok st';
  fs_recorded : recorded st' pp pf;
  fs_files : ∀ f, file_path_of f ≠ pp_rel_path pp → f ∈ s_files st' ↔ f ∈ s_files st;
  fs_file_id : ∀ f, f ∈ s_files st' → file_path_of f = pp_rel_path pp ↔ file_id_of f = pf_file_id pf;
  fs_nodes : ∀ file, file ≠ pf_file_id pf → nodes_in file st' = nodes_in file st;
  fs_edges : ∀ e, e ∈ s_edges st' ↔ e ∈ s_edges st ∧ ¬ ends_in st (pf_file_id pf) e;
}.

Lemma insert_file_ok pp b st :
  store_ok st →
  ∃ pf st', insert_file now pp (b, st)
            = Ok (mkInserted (bi_parsed b ++ [pf]) (bi_saved_inbound_edges b ++ saved_of st (pf_file_id pf))
                    ({[pf_file_id pf]} ∪ bi_file_ids b) (bi_nodes_created b + length (pf_node_ids pf)), st')
          ∧ file_step pp st st' pf.
Proof.
  intros Hok. unfold insert_file.
  pose proof (upsert_file_ok (now (pp_rel_path pp)) (pp_record pp) st Hok) as Hok1.
  pose proof (upsert_file_exact (now (pp_rel_path pp)) (pp_record pp) st Hok) as Hex.
  assert (s_nodes (upsert_file (now (pp_rel_path pp)) (pp_record pp) st).2 = s_nodes st
          ∧ s_edges (upsert_file (now (pp_rel_path pp)) (pp_record pp) st).2 = s_edges st) as [Hn1 He1].
  { unfold upsert_file. by destruct (find _ _). }
  destruct (upsert_file _ _ st) as [fid st1]. cbn [snd] in *. destruct Hex as ((f & Hf & Hfid & Hfp & Hfh & Hfl) & _ & Hothers).
  pose proof (delete_nodes_where_ok (λ n, (node_file_of n =? fid)%Z) st1 Hok1) as Hok2.
  change (delete_nodes_where (λ n, (node_file_of n =? fid)%Z) st1) with (delete_nodes_by_file fid st1) in Hok2.
  destruct (insert_nodes_ok (file_records fid pp) fid (delete_nodes_by_file fid st1) Hok2) as (ids & Hlen & -> & Hok3).
  { apply list_elem_of_fmap. exists f. by rewrite Hfid. }
  { intros r. apply file_records_file. }
  assert (∀ file, file ≠ fid → nodes_in file (delete_nodes_by_file fid st1) = nodes_in file st) as Hkeep.
  { intros file Hne. unfold nodes_in, delete_nodes_by_file, delete_nodes_where. cbn [s_nodes]. rewrite Hn1.
    rewrite list_filter_filter. apply filter_ext_elem. intros n _. split; [tauto|]. intros Hnf. split; [done|].
    apply Z.eqb_neq. congruence. }
  assert (nodes_in fid (delete_nodes_by_file fid st1) = []) as Hgone.
  { unfold nodes_in, delete_nodes_by_file, delete_nodes_where. cbn [s_nodes]. rewrite list_filter_filter.
    apply filter_none. intros n _ [H1 H2%Z.eqb_neq]. done. }
  assert (∀ n, n ∈ zip_with node_of_record ids (file_records fid pp) → node_file_of n = fid) as Hz.
  { intros n. apply zip_records_file. intros r. apply file_records_file. }
  exists (file_parsed pp fid ids). eexists. cbn [result_bind file_parsed pf_file_id pf_node_ids]. split.
  { unfold saved_of. f_equal. f_equal. f_equal. unfold get_inbound_cross_file_edges, node_rows. by rewrite Hn1, He1. }
  split; cbn [file_parsed pf_file_id pf_node_ids].
  - done.
  - split; cbn [file_parsed pf_file_id pf_node_ids]; [by exists f|done| |].
    + rewrite Hlen. unfold file_records. cbn [length]. by rewrite length_fmap.
    + rewrite nodes_in_app, Hgone. apply filter_all. exact Hz.
  - intros g Hg. apply Hothers, Hg.
  - intros g Hg. change (g ∈ s_files st1) in Hg. split; intros H.
    + rewrite <-Hfid. f_equal. apply (NoDup_key_inj file_path_of (s_files st1)); [apply Hok1|done|done|by rewrite Hfp].
    + rewrite <-Hfid in H. change (file_path_of g = fr_path (pp_record pp)). rewrite <-Hfp.
      f_equal. by apply (NoDup_key_inj file_id_of (s_files st1)); [apply Hok1|..].
  - intros file Hne. rewrite nodes_in_app, (Hkeep file Hne).
    assert (∀ st2, nodes_in file (with_nodes (zip_with node_of_record ids (file_records fid pp)) st2) = []) as ->; [|apply app_nil_r].
    intros st2. apply filter_none. intros n Hn%Hz. congruence.
  - intros e. cbn [with_nodes s_edges]. unfold delete_nodes_by_file, delete_nodes_where. cbn [s_edges].
    rewrite list_elem_of_filter, He1, Hn1. unfold ends_in. rewrite !elem_of_keys. setoid_rewrite Z.eqb_eq. naive_solver.
Qed.
Definition saved_row (e : EdgeRow) (ns nt : NodeResult) : SavedEdge :=
  (e_source_id e, node_file_of ns, node_file_of nt, node_name_of nt, e_relation e, e_metadata e, qualified_of nt).

(** An edge with its end nodes. *)
Definition joins (st : Store) (e : EdgeRow) (ns nt : NodeResult) : Prop :=
  e ∈ ee_edge <$> s_edges st ∧ ns ∈ s_nodes st ∧ node_id_of ns = e_source_id e ∧ nt ∈ s_nodes st ∧ node_id_of nt = e_target_id e.

Lemma elem_of_saved st file row :
  row ∈ saved_of st file ↔ ∃ e ns nt, joins st e ns nt ∧ node_file_of nt = file ∧ node_file_of ns ≠ file ∧ row = saved_row e ns nt.
Proof.
  unfold saved_of, get_inbound_cross_file_edges, joins, saved_row. rewrite list_elem_of_fmap. split.
  - intros (x & -> & (e & (nt & (ns & ->%list_elem_of_singleton & [Hs Hns]%list_elem_of_filter)%list_elem_of_bind
       & [Ht Hnt]%list_elem_of_filter)%list_elem_of_bind & He)%list_elem_of_bind).
    apply elem_of_node_rows in Hns as [? ?], Hnt as [? ?]. subst file. exists e, ns, nt. done.
  - intros (e & ns & nt & (He & Hns & Hsid & Hnt & Htid) & <- & Hne & ->).
    exists (e_source_id e, node_file_of ns, node_name_of nt, e_relation e, e_metadata e, qualified_of nt). split; [done|].
    apply list_elem_of_bind. exists e. split; [|done]. apply list_elem_of_bind. exists nt. split.
    + apply list_elem_of_bind. exists ns. split; [by apply list_elem_of_singleton|].
      apply list_elem_of_filter. split; [done|]. by apply elem_of_node_rows.
    + apply list_elem_of_filter. split; [done|]. by apply elem_of_node_rows.
Qed.

Lemma elem_of_nodes_in file st n : n ∈ nodes_in file st ↔ n ∈ s_nodes st ∧ node_file_of n = file.
Proof. unfold nodes_in. rewrite list_elem_of_filter. tauto. Qed.

Section Step.
Context (pp : FilePreParsed) (st st1 : Store) (pf : FileParsed) (Hst : file_step pp st st1 pf).

Lemma step_node n : node_file_of n ≠ pf_file_id pf → n ∈ s_nodes st1 ↔ n ∈ s_nodes st.
Proof.
  intros Hne. pose proof (fs_nodes _ _ _ _ Hst _ Hne) as H.
  assert (n ∈ nodes_in (node_file_of n) st1 ↔ n ∈ nodes_in (node_file_of n) st) as Hiff by by rewrite H.
  rewrite !elem_of_nodes_in in Hiff. tauto.
Qed.

Lemma step_ends file e : file ≠ pf_file_id pf → ends_in st1 file e ↔ ends_in st file e.
Proof.
  intros Hne. unfold ends_in. split; intros (n & Hn & Hf & He); exists n; split; try done; apply step_node; congruence.
Qed.

Lemma step_joins e ns nt : store_ok st → node_file_of ns ≠ pf_file_id pf → node_file_of nt ≠ pf_file_id pf →
  joins st1 e ns nt ↔ joins st e ns nt.
Proof.
  intros Hok Hns Hnt. unfold joins. rewrite (step_node ns Hns), (step_node nt Hnt), !list_elem_of_fmap. split.
  - intros ((x & -> & [Hx _]%(fs_edges _ _ _ _ Hst)) & ?). split; [by exists x|done].
  - intros ((x & -> & Hx) & Hn & Hs & Hm & Ht). split; [|done]. exists x. split; [done|]. apply (fs_edges _ _ _ _ Hst). split; [done|].
    intros (n & Hnin & Hf & [He|He]).
    + assert (n = ns) as ->; [|done]. apply (NoDup_key_inj node_id_of (s_nodes st)); [apply Hok|done..|congruence].
    + assert (n = nt) as ->; [|done]. apply (NoDup_key_inj node_id_of (s_nodes st)); [apply Hok|done..|congruence].
Qed.

Lemma step_recorded pp' pf' : pp_rel_path pp' ≠ pp_rel_path pp → recorded st pp' pf' → recorded st1 pp' pf'.
Proof.
  intros Hne [(f & Hf & Hfid & Hfp & Hrow) H1 H2 H3]. assert (f ∈ s_files st1) as Hf1 by (apply (fs_files _ _ _ _ Hst); congruence).
  split; [by exists f|done|done|]. rewrite (fs_nodes _ _ _ _ Hst); [done|]. intros Heq. apply Hne. rewrite <-Hfp.
  apply (fs_file_id _ _ _ _ Hst f Hf1). congruence.
Qed.
End Step.

(** What a batch leaves. *)
Record batch_done (pps : list FilePreParsed) (st : Store) (pfs : list FileParsed) (saved : list SavedEdge) (st' : Store) : Prop := {
  bd_ok : store_ok st';
  bd_recorded : Forall2 (recorded st') pps pfs;
  bd_files : ∀ f, file_path_of f ∉ pp_rel_path <$> pps → f ∈ s_files st' ↔ f ∈ s_files st;
  bd_nodes : ∀ file, file ∉ pf_file_id <$> pfs → nodes_in file st' = nodes_in file st;
  bd_edges : ∀ e, e ∈ s_edges st' ↔ e ∈ s_edges st ∧ ∀ file, file ∈ pf_file_id <$> pfs → ¬ ends_in st file e;
  bd_saved : ∀ row, row.1.1.1.1.1.2 ∉ pf_file_id <$> pfs →
    row ∈ saved ↔ ∃ e ns nt, joins st e ns nt ∧ node_file_of ns ∉ pf_file_id <$> pfs
                             ∧ node_file_of nt ∈ pf_file_id <$> pfs ∧ row = saved_row e ns nt;
}.

Lemma batch_fresh pp pps pf pfs st st1 saved st' :
  pp_rel_path pp ∉ pp_rel_path <$> pps → file_step pp st st1 pf → batch_done pps st1 pfs saved st' →
  pf_file_id pf ∉ pf_file_id <$> pfs.
Proof.
  intros Hpp Hst Hd (pf' & Heq & Hin)%list_elem_of_fmap.
  apply list_elem_of_lookup in Hin as (i & Hi).
  destruct (Forall2_lookup_r _ _ _ _ _ (bd_recorded _ _ _ _ _ Hd) Hi) as (pp' & Hpp' & [(f' & Hf' & Hid' & Hp' & _) _ _ _]).
  destruct (rec_row _ _ _ (fs_recorded _ _ _ _ Hst)) as (f & Hf & Hid & Hp & _).
  apply (bd_files _ _ _ _ _ Hd) in Hf; [|congruence].
  assert (f = f') as ->.
  { apply (NoDup_key_inj file_id_of (s_files st')); [apply (bd_ok _ _ _ _ _ Hd)|done|done|congruence]. }
  apply Hpp. apply list_elem_of_fmap. exists pp'. split; [congruence|by eapply list_elem_of_lookup_2].
Qed.

Lemma batch_cons pp pf st st1 pps pfs saved st' :
  store_ok st → pp_rel_path pp ∉ pp_rel_path <$> pps → file_step pp st st1 pf → batch_done pps st1 pfs saved st' →
  batch_done (pp :: pps) st (pf :: pfs) (saved_of st (pf_file_id pf) ++ saved) st'.
Proof.
  intros Hok Hpp Hst Hd. pose proof (batch_fresh _ _ _ _ _ _ _ _ Hpp Hst Hd) as Hfresh.
  destruct Hd as [Hok' Hrec Hfiles Hnodes Hedges Hsaved]. split; cbn [fmap list_fmap].
  - done.
  - constructor; [|done]. destruct (fs_recorded _ _ _ _ Hst) as [(f & Hf & Hid & Hp & Hrow) H1 H2 H3].
    split; [|done|done|by rewrite Hnodes]. exists f. split; [by apply Hfiles; [congruence|]|done].
  - intros f Hf%not_elem_of_cons. rewrite Hfiles by apply Hf. apply (fs_files _ _ _ _ Hst), Hf.
  - intros file Hf%not_elem_of_cons. rewrite Hnodes by apply Hf. apply (fs_nodes _ _ _ _ Hst), Hf.
  - intros e. rewrite Hedges, (fs_edges _ _ _ _ Hst). split.
    + intros [[He H1] H2]. split; [done|]. intros file [->|Hf]%elem_of_cons; [done|].
      rewrite <-(step_ends _ _ _ _ Hst); [by apply H2|]. by intros ->.
    + intros [He H]. split; [split; [done|]; apply H; by left|]. intros file Hf.
      rewrite (step_ends _ _ _ _ Hst); [apply H; by right|]. by intros ->.
  - intros row [Hr1 Hr2]%not_elem_of_cons. rewrite elem_of_app, elem_of_saved, (Hsaved row Hr2). split.
    + intros [(e & ns & nt & Hj & <- & Hne & ->)|(e & ns & nt & Hj & Hns & Hnt & ->)]; exists e, ns, nt.
      * split_and!; [done| |by left|done]. by apply not_elem_of_cons.
      * assert (node_file_of nt ≠ pf_file_id pf) by congruence.
        split_and!; [by apply (step_joins _ _ _ _ Hst)|by apply not_elem_of_cons|by right|done].
    + intros (e & ns & nt & Hj & [Hne Hns]%not_elem_of_cons & [Hnt|Hnt]%elem_of_cons & ->); [left|right]; exists e, ns, nt; [done|].
      assert (node_file_of nt ≠ pf_file_id pf) by congruence. split_and!; [by apply (step_joins _ _ _ _ Hst)|done..].
Qed.

Lemma insert_batch_loop pps b st :
  store_ok st → NoDup (pp_rel_path <$> pps) →
  ∃ pfs saved st',
    try_fold (insert_file now) pps (b, st)
    = Ok (mkInserted (bi_parsed b ++ pfs) (bi_saved_inbound_edges b ++ saved) (list_to_set (pf_file_id <$> pfs) ∪ bi_file_ids b)
            (bi_nodes_created b + foldr Nat.add 0 ((λ pp, S (length (pp_parsed_nodes pp))) <$> pps)), st')
    ∧ batch_done pps st pfs saved st'.
Proof.
  revert b st. induction pps as [|pp pps IH]; intros b st Hok Hnd; cbn [try_fold].
  { exists [], [], st. cbn. rewrite !app_nil_r, (left_id_L ∅ (∪)), Nat.add_0_r. split; [by destruct b|].
    split; [done|constructor|done|done| |].
    - intros e. split; [|tauto]. intros He. split; [done|]. intros file Hf. by apply elem_of_nil in Hf.
    - intros row _. split; [by intros ?%elem_of_nil|]. intros (e & ns & nt & _ & _ & Hf & _). by apply elem_of_nil in Hf. }
  apply NoDup_cons in Hnd as [Hpp Hnd].
  destruct (insert_file_ok pp b st Hok) as (pf & st1 & -> & Hst). cbn [result_bind].
  destruct (IH (mkInserted (bi_parsed b ++ [pf]) (bi_saved_inbound_edges b ++ saved_of st (pf_file_id pf))
                  ({[pf_file_id pf]} ∪ bi_file_ids b) (bi_nodes_created b + length (pf_node_ids pf))) st1 (fs_ok _ _ _ _ Hst) Hnd)
    as (pfs & saved & st' & -> & Hd). clear IH. cbn [bi_parsed bi_saved_inbound_edges bi_file_ids bi_nodes_created].
  exists (pf :: pfs), (saved_of st (pf_file_id pf) ++ saved), st'.
  split.
  { rewrite (rec_length _ _ _ (fs_recorded _ _ _ _ Hst)). rewrite <-!app_assoc. cbn [app fmap list_fmap list_to_set foldr].
    f_equal. f_equal. f_equal; [set_solver|lia]. }
  by apply (batch_cons pp pf st st1).
Qed.
(** C13: Phase 1b of a batch of distinct files ([insert_batch_nodes]). It never fails. Each file's row has the new hash and
    language, its nodes are exactly the [<module>] node and the parsed ones, in order, under the ids handed to Phase 2,
    which is given the file's own data under them. No other file's row or nodes change; an edge stays exactly when
    neither of its ends was a node of a file of the batch; and every edge that came into the batch from another file has
    been saved with the file it pointed into, once the purge has taken it. *)
Theorem insert_batch_nodes_ok pps st :
  store_ok st → NoDup (pp_rel_path <$> pps) →
  ∃ b st', insert_batch_nodes now pps st = Ok (b, st')
         ∧ batch_done pps st (bi_parsed b) (bi_saved_inbound_edges b) st'
         ∧ bi_file_ids b = list_to_set (pf_file_id <$> bi_parsed b)
         ∧ bi_nodes_created b = foldr Nat.add 0 ((λ pp, S (length (pp_parsed_nodes pp))) <$> pps).
Proof.
  intros Hok Hnd. destruct (insert_batch_loop pps (mkInserted [] [] ∅ 0) st Hok Hnd) as (pfs & saved & st' & Heq & Hd).
  unfold insert_batch_nodes. rewrite Heq. eexists _, st'. split; [reflexivity|]. cbn. by rewrite (right_id_L ∅ (∪)).
Qed.
End BatchOk.

Definition demo_parsed (path : string) (names : list string) : FilePreParsed :=
  mkPreParsed path "fn f() {}" "rust" "h2" 7
    ((λ name, mkParsedNode "function" name (Some name) 1 1 "" None None None None false None) <$> names) false [] [] [] false.

(** [b.rs] calls [f] of [a.rs], which is read again together with a new file. *)
Example demo_batch :
  match insert_batch_nodes (U := ascii_unicode) (λ _, 9%Z) [demo_parsed "a.rs" ["f"]; demo_parsed "c.rs" ["k"; "l"]] demo_store with
  | Ok (b, st) => pf_node_ids <$> bi_parsed b = [[4; 5]; [6; 7; 8]]%Z
                  ∧ bi_saved_inbound_edges b = [(2%Z, 2%Z, 1%Z, "f", "calls", None, None)]
                  ∧ node_ids st = [2; 3; 4; 5; 6; 7; 8]%Z ∧ bi_nodes_created b = 5
  | Err _ => False
  end.
Proof. by vm_compute. Qed.

Lemma insert_batch_nodes_ok_witness :
  ∃ b st', insert_batch_nodes (U := ascii_unicode) (λ _, 9%Z) [demo_parsed "a.rs" ["f"]; demo_parsed "c.rs" ["k"; "l"]] demo_store = Ok (b, st')
         ∧ batch_done (U := ascii_unicode) [demo_parsed "a.rs" ["f"]; demo_parsed "c.rs" ["k"; "l"]] demo_store (bi_parsed b) (bi_saved_inbound_edges b) st'
         ∧ bi_file_ids b = list_to_set (pf_file_id <$> bi_parsed b) ∧ bi_nodes_created b = 5.
Proof.
  apply (insert_batch_nodes_ok (U := ascii_unicode) (λ _, 9%Z) [demo_parsed "a.rs" ["f"]; demo_parsed "c.rs" ["k"; "l"]] demo_store demo_store_ok).
  apply (bool_decide_unpack _). by vm_compute.
Defined.
