(* ===== verification/EdgeWrite.v ===== *)
(** * Writing the edges of a relation ([indexer/pipeline/index_files.rs])

    Every branch of the resolution ends in [insert_relation_edges], which writes
    each source to each target, and skips a fan-out it has already written.
    Before it: which of a file's own definitions a bare call sees. *)

From S2P Require Import Prelude Str Utf8 Domain Tables Store Queries Resolve RustUse RustFn ClassNames Pipeline Batch.

(** ** A file's own definitions *)

Definition sees (scope : LexicalScope) (at_ : N) : bool :=
  match scope with FileScope => true | Within s e => (s <=? at_)%N && (at_ <? e)%N end.

(** [usize::MAX] for the whole file *)
Definition width (scope : LexicalScope) : N :=
  match scope with FileScope => U64_MAX | Within s e => (e - s)%N end.

Definition list_min (l : list N) : option N :=
  match l with [] => None | x :: l => Some (foldr N.min x l) end.

Definition visible_same_file_targets (targets : list Z) (rel : ParsedRelation) (pf : FileParsed) : list Z :=
  match pr_call_at rel with
  | None => targets
  | Some call =>
      let at_ := bc_at call in
      let scopes := filter (λ s, sees s at_ = true) (omap (λ id, pf_node_scopes pf !! id) targets) in
      match list_min (width <$> scopes) with
      | None => targets
      | Some innermost =>
          filter (λ id, match pf_node_scopes pf !! id with
                        | Some scope => sees scope at_ && (width scope =? innermost)%N
                        | None => bc_reaches_members call || negb (bool_decide (id ∈ pf_method_ids pf))
                        end = true) targets
      end
  end.

(** The last dotted part *)
Definition last_dotted (s : string) : string := match rsplit_once ch_dot s with Some (_, l) => l | None => s end.

Definition cpp_implicit_this_members (language : string) (rel : ParsedRelation) (same_file_targets : list Z)
    (local_qualified : gmap Z string) : list Z :=
  if negb (String.eqb language "cpp") || negb (String.eqb (pr_relation rel) REL_CALLS) || bool_decide (is_Some (pr_metadata rel))
  then same_file_targets
  else match rsplit_once ch_dot (pr_source_name rel) with
       | None => same_file_targets
       | Some (class, _) =>
           if String.eqb (pr_target_name rel) (last_dotted class) then same_file_targets
           else
             let own := class +:+ "." +:+ pr_target_name rel in
             let members := filter (λ id, local_qualified !! id = Some own) same_file_targets in
             if bool_decide (members = []) then same_file_targets else members
       end.

Section Retain.
Context (from_str : string → option json).

Definition retain_rust_call_shape (pf : FileParsed) (rel : ParsedRelation) (candidates : list Z) : list Z :=
  if negb (String.eqb (pf_language pf) "rust") then candidates
  else filter (λ id, match pf_rust_fn_shapes pf !! id with
                     | Some shape => rust_call_shape_admits from_str (pr_metadata rel) shape
                     | None => true
                     end = true) candidates.
End Retain.

Definition module_node_of (name_to_ids : gmap string (list Z)) (node_id_to_path : gmap Z string) (file : string) : list Z :=
  filter (λ id, node_id_to_path !! id = Some file) (default [] (name_to_ids !! MODULE_NODE_NAME)).

(** ** Fan-outs *)

(** [(sources, targets, relation, metadata, allow_self)] *)
Definition Fanout : Type := list Z * list Z * string * option string * bool.

Record WrittenFanouts := mkWritten { wf_file : string; wf_seen : gset Fanout }.
Definition nothing_written : WrittenFanouts := mkWritten "" ∅.

Definition enter (rel_path : string) (w : WrittenFanouts) : WrittenFanouts :=
  if String.eqb (wf_file w) rel_path then w else mkWritten rel_path ∅.

(** [HashSet::insert]: whether it was new. *)
Definition first_write (f : Fanout) (w : WrittenFanouts) : bool * WrittenFanouts :=
  let '(sources, targets, _, _, _) := f in
  if length sources * length targets <? 2 then (true, w)
  else (negb (bool_decide (f ∈ wf_seen w)), mkWritten (wf_file w) ({[f]} ∪ wf_seen w)).

Definition insert_pair (counted : nat) (relation : string) (metadata : option string) (allow_self : bool)
    (p : Z * Z) (s : nat * Store) : result string (nat * Store) :=
  let '(created, st) := s in
  if negb (p.1 =? p.2)%Z || allow_self then
    (let? (new, st) := insert_edge_cached p.1 p.2 relation metadata st in
     Ok (created + (if new : bool then counted else 0), st))%cg
  else Ok (created, st).

Definition fanout_pairs (sources targets : list Z) : list (Z * Z) := s ← sources; t ← targets; [(s, t)].

Definition write_fanout (f : Fanout) (st : Store) : result string (nat * Store) :=
  let '(sources, targets, relation, metadata, allow_self) := f in
  let counted := if is_synthetic_import relation metadata then 0 else 1 in
  try_fold (insert_pair counted relation metadata allow_self) (fanout_pairs sources targets) (0, st).

Definition insert_relation_edges (f : Fanout) (w : WrittenFanouts) (st : Store) : result string (nat * WrittenFanouts * Store) :=
  let '(new, w) := first_write f w in
  if negb new then Ok (0, w, st)
  else (let? (created, st) := write_fanout f st in Ok (created, w, st))%cg.

Definition bind_unless_ruled_out (never : RecvNever) (d : DeferredRelation) (sources targets : list Z)
    (metadata : option string) (w : WrittenFanouts) (st : Store) : result string (nat * WrittenFanouts * Store) :=
  let kept := filter (λ id, id ∉ never_ids never) targets in
  if bool_decide (kept = []) && negb (bool_decide (targets = [])) && read_elsewhere never then
    (let? st := try_fold (λ src, insert_pending_unresolved_call src (dr_target_name d) (dr_language d) metadata) sources st in
     Ok (0, w, st))%cg
  else insert_relation_edges (sources, kept, dr_relation d, metadata, false) w st.

(** * Properties *)

(** ** The skipped repeats *)

(** A run of the resolution as far as edges go: fan-outs written for a file, and other statements in between. *)
Inductive WriteStep :=
| WriteFanout (rel_path : string) (f : Fanout)
| OtherStatement (op : StoreOp).

(** The statements of Phase 2: none of them deletes an edge. *)
Definition keeps_edges (op : StoreOp) : bool :=
  match op with
  | DeleteFilesByPaths _ | DeleteNodesByFile _ | ReapOrphanExternal | DeleteEdgesWhere _ | DeleteAllFiles | ClearIndex => false
  | _ => true
  end.

Definition run_step (s : WriteStep) (acc : nat * WrittenFanouts * Store) : result string (nat * WrittenFanouts * Store) :=
  let '(n, w, st) := acc in
  match s with
  | WriteFanout rel_path f => (let? (created, w, st) := insert_relation_edges f (enter rel_path w) st in Ok (n + created, w, st))%cg
  | OtherStatement op => Ok (n, w, exec_op op st)
  end.

(** The same without the memory. *)
Definition run_step_plain (s : WriteStep) (acc : nat * Store) : result string (nat * Store) :=
  let '(n, st) := acc in
  match s with
  | WriteFanout _ f => (let? (created, st) := write_fanout f st in Ok (n + created, st))%cg
  | OtherStatement op => Ok (n, exec_op op st)
  end.

Definition edge_keys (st : Store) : list (Z * Z * string * string) := edge_key ∘ ee_edge <$> s_edges st.

(** Every pair of the fan-out has its edge. *)
Definition written_in (st : Store) (f : Fanout) : Prop :=
  let '(sources, targets, relation, metadata, allow_self) := f in
  ∀ p, p ∈ fanout_pairs sources targets → p.1 ≠ p.2 ∨ allow_self = true → (p.1, p.2, relation, default "" metadata) ∈ edge_keys st.

Definition keys_grow (st st' : Store) : Prop := ∀ k, k ∈ edge_keys st → k ∈ edge_keys st'.

Lemma written_in_grow st st' f : keys_grow st st' → written_in st f → written_in st' f.
Proof. destruct f as [[[[??]?]?]?]. intros Hg Hw p Hp Ha. apply Hg. by apply Hw. Qed.

Lemma insert_edge_grow s t rel m st b st' :
  insert_edge s t rel m st = Ok (b, st') → keys_grow st st' ∧ (s, t, rel, default "" m) ∈ edge_keys st'.
Proof.
  unfold insert_edge. case_bool_decide as Hk; [intros [= <- <-]; split; [by intros k|exact Hk]|].
  destruct (_ && _); [|done]. intros [= <- <-]. unfold keys_grow, edge_keys. cbn [s_edges].
  rewrite fmap_app. split; [intros k ?; apply elem_of_app; by left|]. apply elem_of_app. right. by left.
Qed.

Lemma insert_edge_known s t rel m st : (s, t, rel, default "" m) ∈ edge_keys st → insert_edge s t rel m st = Ok (false, st).
Proof. intros Hk. unfold insert_edge. by rewrite bool_decide_true. Qed.

Section Fan.
Context (counted : nat) (relation : string) (metadata : option string) (allow_self : bool).
#[local] Abbreviation pair_step := (insert_pair counted relation metadata allow_self).
#[local] Abbreviation key p := (p.1, p.2, relation, default "" metadata).

Lemma insert_pair_fold pairs n st n' st' :
  try_fold pair_step pairs (n, st) = Ok (n', st') →
  keys_grow st st' ∧ ∀ p, p ∈ pairs → p.1 ≠ p.2 ∨ allow_self = true → key p ∈ edge_keys st'.
Proof.
  revert n st. induction pairs as [|p pairs IH]; intros n st; cbn [try_fold].
  { intros [= <- <-]. split; [by intros k|]. by intros p ?%elem_of_nil. }
  destruct (insert_pair _ _ _ _ p (n, st)) as [[n1 st1]|] eqn:Hp; [|done]. cbn [result_bind]. intros [Hg Hall]%IH.
  assert (keys_grow st st1 ∧ (p.1 ≠ p.2 ∨ allow_self = true → key p ∈ edge_keys st1)) as [Hg1 Hk1].
  { unfold insert_pair in Hp. destruct (_ || allow_self) eqn:Hc.
    - destruct (insert_edge_cached _ _ _ _ _) as [[b st2]|] eqn:He; [|done]. injection Hp as <- <-.
      apply insert_edge_grow in He as [??]. by split.
    - injection Hp as <- <-. split; [by intros k|]. apply orb_false_iff in Hc as [Hc Ha].
      apply negb_false_iff, Z.eqb_eq in Hc. intros [?|?]; congruence. }
  split; [intros k Hk; by apply Hg, Hg1|]. intros q [->|Hq]%elem_of_cons Hs; [by apply Hg, Hk1|by apply Hall].
Qed.

Lemma insert_pair_again pairs st n :
  (∀ p, p ∈ pairs → p.1 ≠ p.2 ∨ allow_self = true → key p ∈ edge_keys st) →
  try_fold pair_step pairs (n, st) = Ok (n, st).
Proof.
  induction pairs as [|p pairs IH]; intros Hall; cbn [try_fold]; [done|].
  assert (pair_step p (n, st) = Ok (n, st)) as ->; [|apply IH; intros q Hq; apply Hall; by right].
  unfold insert_pair. destruct (_ || allow_self) eqn:Hc; [|done]. unfold insert_edge_cached.
  rewrite insert_edge_known; [cbn; by rewrite Nat.add_0_r|]. apply Hall; [by left|].
  apply orb_true_iff in Hc as [Hc%negb_true_iff%Z.eqb_neq| ->]; [by left|by right].
Qed.
End Fan.

Lemma write_fanout_written f st n st' : write_fanout f st = Ok (n, st') → keys_grow st st' ∧ written_in st' f.
Proof. destruct f as [[[[sources targets] relation] metadata] allow_self]. apply insert_pair_fold. Qed.

Lemma write_fanout_again f st : written_in st f → write_fanout f st = Ok (0, st).
Proof. destruct f as [[[[sources targets] relation] metadata] allow_self]. apply insert_pair_again. Qed.

Lemma exec_op_grow op st : keeps_edges op = true → keys_grow st (exec_op op st).
Proof.
  intros Hk. destruct op; try done; cbn [exec_op]; try (intros k Hin; exact Hin).
  - unfold upsert_file. destruct (find _ _); intros k Hin; exact Hin.
  - unfold insert_node. case_bool_decide; intros k Hin; exact Hin.
  - unfold update_context_strings_batch. revert st. induction updates as [|u us IH]; intros st k Hin; cbn [foldl]; [done|].
    by apply IH.
  - destruct (insert_edge _ _ _ _ _) as [[b st']|] eqn:He; [|by intros k]. by apply insert_edge_grow in He as [??].
  - unfold insert_pending_unresolved_call. repeat case_bool_decide; intros k Hin; exact Hin.
  - intros k Hin. destruct (insert_cpp_fields rows st) as [st'|] eqn:He; [|done]. cbn.
    clear Hk. revert st Hin He. induction rows as [|r rows IH]; intros st Hin; cbn; [by intros [= <-]|].
    case_bool_decide; [|done]. intros He. eapply IH; [|exact He]. exact Hin.
  - intros k Hin. unfold insert_js_export_entries. generalize 0%Z as ord. intros ord.
    destruct (insert_js_export_rows _ _ _ _) as [st'|] eqn:He; [|done]. cbn.
    clear Hk. revert st ord Hin He. induction entries as [|e entries IH]; intros st ord Hin; cbn; [by intros [= <-]|].
    case_bool_decide; [|done]. intros He. eapply IH; [|exact He]. exact Hin.
  - intros k Hin. destruct (insert_selected_edges _ st) as [[n st']|] eqn:He; [|done]. cbn.
    revert He. generalize (select st) as rows. intros rows. clear Hk. revert st n Hin.
    induction rows as [|[[[s t] r] m] rows IH]; intros st n Hin; cbn; [by intros [= _ <-]|].
    destruct (insert_edge s t r m st) as [[b st1]|] eqn:E; cbn; [|done].
    destruct (insert_selected_edges rows st1) as [[n1 st2]|] eqn:E1; cbn; [|done]. intros [= _ <-].
    eapply IH; [|exact E1]. by apply insert_edge_grow in E as [Hg _]; apply Hg.
  - intros k. unfold keys_grow, edge_keys, set_confidence, with_edges. cbn [s_edges]. rewrite <-list_fmap_compose.
    intros Hin. erewrite list_fmap_ext; [exact Hin|]. intros i e _. cbn. by destruct (cg_conf st e).
Qed.

(** What is remembered has been written. *)
Definition memory_true (w : WrittenFanouts) (st : Store) : Prop := ∀ f, f ∈ wf_seen w → written_in st f.

Lemma memory_true_enter path w st : memory_true w st → memory_true (enter path w) st.
Proof. intros Hm. unfold enter. destruct (String.eqb _ _); [done|]. intros g Hg. set_solver. Qed.

Lemma run_step_same s n w st :
  memory_true w st → match s with OtherStatement op => keeps_edges op = true | _ => True end →
  match run_step s (n, w, st), run_step_plain s (n, st) with
  | Ok (n1, w1, st1), Ok (n2, st2) => n1 = n2 ∧ st1 = st2 ∧ memory_true w1 st1
  | Err e1, Err e2 => e1 = e2
  | _, _ => False
  end.
Proof.
  intros Hm Hk. destruct s as [path f|op]; cbn [run_step run_step_plain].
  2: { split; [done|]. split; [done|]. intros g Hg. eapply written_in_grow; [by apply exec_op_grow|by apply Hm]. }
  apply (memory_true_enter path) in Hm as Hm1. clear Hm. generalize dependent (enter path w). clear w. intros w Hm. unfold insert_relation_edges.
  destruct f as [[[[sources targets] relation] metadata] allow_self] eqn:Hf. cbn [first_write].
  rewrite <-Hf. assert (memory_true w st → ∀ n1 st1, write_fanout f st = Ok (n1, st1) →
    memory_true w st1 ∧ memory_true (mkWritten (wf_file w) ({[f]} ∪ wf_seen w)) st1) as Hafter.
  { intros _ n1 st1 [Hg Hw]%write_fanout_written. split.
    - intros g Hg1. eapply written_in_grow; [done|by apply Hm].
    - intros g [->%elem_of_singleton|Hg1]%elem_of_union; [done|]. eapply written_in_grow; [done|by apply Hm]. }
  destruct (length sources * length targets <? 2).
  - cbn [negb]. destruct (write_fanout f st) as [[n1 st1]|] eqn:Hw; cbn; [|done]. split; [done|]. split; [done|].
    by eapply Hafter.
  - destruct (bool_decide (f ∈ wf_seen w)) eqn:Hin; cbn [negb result_bind].
    + apply bool_decide_eq_true in Hin. rewrite write_fanout_again by (by apply Hm). cbn. split; [done|]. split; [done|].
      intros g [->%elem_of_singleton|Hg]%elem_of_union; by apply Hm.
    + destruct (write_fanout f st) as [[n1 st1]|] eqn:Hw; cbn; [|done]. split; [done|]. split; [done|]. by eapply Hafter.
Qed.

(** C19: Remembering the fan-outs already written ([WrittenFanouts]) changes nothing but the work: whatever fan-outs a
    pass writes, for whatever files, with other statements in between that delete no edge, the store, the number of
    edges counted as created and the error, if any, are those of writing every pair each time. *)
Theorem written_fanouts_ok steps n st :
  (∀ op, OtherStatement op ∈ steps → keeps_edges op = true) →
  (let? (n', _, st') := try_fold run_step steps (n, nothing_written, st) in Ok (n', st'))%cg
  = try_fold run_step_plain steps (n, st).
Proof.
  assert (memory_true nothing_written st) as Hm by (intros f Hf; cbn in Hf; set_solver).
  revert Hm. generalize nothing_written as w. intros w. revert n w st.
  induction steps as [|s steps IH]; intros n w st Hm Hk; cbn [try_fold]; [done|].
  pose proof (run_step_same s n w st Hm) as Hs. destruct (run_step s (n, w, st)) as [[[n1 w1] st1]|e1] eqn:H1,
    (run_step_plain s (n, st)) as [[n2 st2]|e2] eqn:H2; cbn [result_bind] in *.
  1: destruct Hs as (<- & <- & Hm1); [destruct s; [done|apply Hk; by left]|].
  1: apply IH; [done|]; intros op Hop; apply Hk; by right.
  all: destruct s; [|specialize (Hk op ltac:(by left))].
  all: try (specialize (Hs I); done).
  all: try (specialize (Hs Hk); done).
  all: f_equal; by apply Hs.
Qed.

Definition demo_fan : Fanout := ([1; 2]%Z, [2; 3]%Z, "calls", None, false).
Definition demo_steps : list WriteStep :=
  [WriteFanout "b.rs" demo_fan; OtherStatement (InsertPending 3 "later2" "rust" None); WriteFanout "b.rs" demo_fan].

Example demo_fan_written :
  match try_fold run_step demo_steps (0, nothing_written, demo_store) with
  | Ok (n, w, st) => n = 2 ∧ length (s_edges st) = 4 ∧ elements (wf_seen w) = [demo_fan]
  | Err _ => False
  end.
Proof. by vm_compute. Qed.

Lemma written_fanouts_ok_witness :
  (let? (n', _, st') := try_fold run_step demo_steps (0, nothing_written, demo_store) in Ok (n', st'))%cg
  = try_fold run_step_plain demo_steps (0, demo_store).
Proof.
  apply (written_fanouts_ok demo_steps 0 demo_store). intros op [Hop|[Hop|[Hop|Hop%elem_of_nil]%elem_of_cons]%elem_of_cons]%elem_of_cons;
    [done| |done|done]. injection Hop as ->. reflexivity.
Defined.

(** ** What a fan-out adds *)

(** The edges of a fan-out, by their keys. *)
Definition fan_keys (f : Fanout) : list (Z * Z * string * string) :=
  let '(sources, targets, relation, metadata, allow_self) := f in
  (λ p, (p.1, p.2, relation, default "" metadata))
    <$> filter (λ p, p.1 ≠ p.2 ∨ allow_self = true) (fanout_pairs sources targets).

Record edges_added (st st' : Store) (keys : list (Z * Z * string * string)) : Prop := mkAdded {
  ea_ok : store_ok st';
  ea_files : s_files st' = s_files st;
  ea_nodes : s_nodes st' = s_nodes st;
  ea_pending : s_pending st' = s_pending st;
  ea_js_exports : s_js_exports st' = s_js_exports st;
  ea_keys : ∀ k, k ∈ edge_keys st' ↔ k ∈ edge_keys st ∨ k ∈ keys;
}.

Lemma edges_added_none st : store_ok st → edges_added st st [].
Proof. intros Hok. split; [done..|]. intros k. split; [by left|]. by intros [?|?%elem_of_nil]. Qed.

Lemma edges_added_trans st1 st2 st3 ks ks' : edges_added st1 st2 ks → edges_added st2 st3 ks' → edges_added st1 st3 (ks ++ ks').
Proof.
  intros [] []. split; try congruence. intros k. rewrite ea_keys1, ea_keys0, elem_of_app. tauto.
Qed.

Lemma insert_edge_added s t rel m st :
  store_ok st → s ∈ node_ids st → t ∈ node_ids st →
  ∃ b st', insert_edge s t rel m st = Ok (b, st') ∧ edges_added st st' [(s, t, rel, default "" m)].
Proof.
  intros Hok Hs Ht. pose proof (insert_edge_ok s t rel m st Hok) as Hok'. unfold insert_edge in *.
  case_bool_decide as Hk; [|rewrite !bool_decide_true in * by done]; eexists _, _; (split; [reflexivity|]).
  - split; [done..|]. intros k. rewrite list_elem_of_singleton. split; [by left|]. by intros [?| ->].
  - cbn [andb on_ok snd] in Hok'. split; [exact Hok'|done..|]. intros k. unfold edge_keys. cbn [s_edges].
    rewrite fmap_app, elem_of_app. done.
Qed.

Lemma insert_pairs_added counted rel m self pairs n st :
  store_ok st → (∀ p, p ∈ pairs → p.1 ∈ node_ids st ∧ p.2 ∈ node_ids st) →
  ∃ n' st', try_fold (insert_pair counted rel m self) pairs (n, st) = Ok (n', st')
    ∧ edges_added st st' ((λ p, (p.1, p.2, rel, default "" m)) <$> filter (λ p, p.1 ≠ p.2 ∨ self = true) pairs).
Proof.
  revert n st. induction pairs as [|p pairs IH]; intros n st Hok Hin; cbn [try_fold].
  { exists n, st. split; [done|by apply edges_added_none]. }
  destruct (Hin p ltac:(by left)) as [Hs Ht].
  assert (∃ n1 st1, insert_pair counted rel m self p (n, st) = Ok (n1, st1)
    ∧ edges_added st st1 ((λ p, (p.1, p.2, rel, default "" m)) <$> filter (λ p, p.1 ≠ p.2 ∨ self = true) [p]))
    as (n1 & st1 & -> & H1).
  { unfold insert_pair. destruct (negb (p.1 =? p.2)%Z || self) eqn:Hc.
    - destruct (insert_edge_added p.1 p.2 rel m st Hok Hs Ht) as (b & st1 & He & Ha). unfold insert_edge_cached. rewrite He.
      eexists _, st1. split; [reflexivity|]. rewrite filter_cons_True; [exact Ha|].
      apply orb_true_iff in Hc as [Hc%negb_true_iff%Z.eqb_neq|Hc]; [by left|by right].
    - exists n, st. split; [done|]. rewrite filter_cons_False; [by apply edges_added_none|].
      apply orb_false_iff in Hc as [Hc%negb_false_iff%Z.eqb_eq ->]. by intros [?|?]. }
  cbn [result_bind]. destruct (IH n1 st1 (ea_ok _ _ _ H1)) as (n' & st' & -> & H2).
  { intros q Hq. unfold node_ids. rewrite (ea_nodes _ _ _ H1). apply Hin. by right. }
  exists n', st'. split; [done|]. pose proof (edges_added_trans _ _ _ _ _ H1 H2) as H.
  change (p :: pairs) with ([p] ++ pairs). by rewrite filter_app, fmap_app.
Qed.

Definition ends_in_store (f : Fanout) (st : Store) : Prop :=
  let '(sources, targets, _, _, _) := f in
  (∀ s, s ∈ sources → s ∈ node_ids st) ∧ ∀ t, t ∈ targets → t ∈ node_ids st.

Lemma write_fanout_added f st :
  store_ok st → ends_in_store f st → ∃ n st', write_fanout f st = Ok (n, st') ∧ edges_added st st' (fan_keys f).
Proof.
  destruct f as [[[[sources targets] relation] metadata] allow_self]. intros Hok [Hs Ht]. apply insert_pairs_added; [done|].
  intros p (s & (t & ->%list_elem_of_singleton & Htt)%list_elem_of_bind & Hss)%list_elem_of_bind. split; [by apply Hs|by apply Ht].
Qed.

(** With the memory: the same edges, and what is remembered is written. *)
Lemma insert_relation_edges_added f w st :
  store_ok st → ends_in_store f st → memory_true w st →
  ∃ n w' st', insert_relation_edges f w st = Ok (n, w', st') ∧ edges_added st st' (fan_keys f) ∧ memory_true w' st'.
Proof.
  intros Hok Hends Hm. destruct (write_fanout_added f st Hok Hends) as (n & st' & Hw & Ha).
  pose proof (write_fanout_written _ _ _ _ Hw) as [Hg Hf].
  assert (memory_true w st') as Hm1 by (intros g Hg1; eapply written_in_grow; [done|by apply Hm]).
  assert (memory_true (mkWritten (wf_file w) ({[f]} ∪ wf_seen w)) st') as Hm2.
  { intros g [->%elem_of_singleton|Hg1]%elem_of_union; [done|by apply Hm1]. }
  unfold insert_relation_edges. destruct (first_write f w) as [new w'] eqn:Hfw.
  assert (memory_true w' st' ∧ (new = false → written_in st f)) as [Hm' Hold].
  { destruct f as [[[[sources targets] relation] metadata] allow_self]. unfold first_write in Hfw.
    destruct (_ <? 2); injection Hfw as <- <-; [split; [done|by intros [=]]|]. split; [done|].
    intros Hin%negb_false_iff%bool_decide_eq_true. by apply Hm. }
  destruct new; cbn [negb].
  - rewrite Hw. by exists n, w', st'.
  - specialize (Hold eq_refl). rewrite (write_fanout_again f st Hold) in Hw. injection Hw as <- <-. by exists 0, w', st.
Qed.

Lemma memory_true_grow w st st' : keys_grow st st' → memory_true w st → memory_true w st'.
Proof. intros Hg Hm f Hf. eapply written_in_grow; [done|by apply Hm]. Qed.

(** ** What a bare call sees *)

Lemma list_min_spec l m : list_min l = Some m ↔ m ∈ l ∧ ∀ x, x ∈ l → (m <= x)%N.
Proof.
  destruct l as [|x l]; cbn; [split; [done|by intros [?%elem_of_nil _]]|]. revert x m.
  assert (∀ x, foldr N.min x l ∈ x :: l ∧ ∀ y, y ∈ x :: l → (foldr N.min x l <= y)%N) as H.
  { intros x. induction l as [|y l [IH1 IH2]]; cbn [foldr].
    - split; [by left|]. intros y ->%list_elem_of_singleton. lia.
    - split.
      + destruct (N.min_spec y (foldr N.min x l)) as [[_ ->]|[_ ->]]; [set_solver|]. set_solver.
      + intros z [Hz|[Hz|Hz]%elem_of_cons]%elem_of_cons; [|lia|].
        * specialize (IH2 x ltac:(by left)). lia.
        * specialize (IH2 z ltac:(by right)). lia. }
  intros x m. destruct (H x) as [H1 H2]. split; [by intros [= <-]|].
  intros [Hm Hle]. f_equal. specialize (H2 m Hm). specialize (Hle _ H1). lia.
Qed.

(** The rule only takes away, never everything, and of the definitions a call sees lexically it keeps those of the
    innermost scope. *)
Lemma visible_same_file_targets_ok targets rel pf :
  let kept := visible_same_file_targets targets rel pf in
  (∀ id, id ∈ kept → id ∈ targets)
  ∧ (targets ≠ [] → kept ≠ [])
  ∧ ∀ call id scope other scope', pr_call_at rel = Some call → id ∈ kept → pf_node_scopes pf !! id = Some scope →
      other ∈ targets → pf_node_scopes pf !! other = Some scope' → sees scope' (bc_at call) = true →
      sees scope (bc_at call) = true ∧ (width scope <= width scope')%N.
Proof.
  unfold visible_same_file_targets. destruct (pr_call_at rel) as [call|]; [|split_and!; [done|done|done]].
  set (scopes := filter _ _). destruct (list_min _) as [innermost|] eqn:Hm.
  - apply list_min_spec in Hm as [Hin Hmin]. split_and!.
    + intros id [_ ?]%list_elem_of_filter. done.
    + intros _ Hnil. apply list_elem_of_fmap in Hin as (scope & Hw & [Hs (id & Hid & Hsc)%list_elem_of_omap]%list_elem_of_filter).
      apply (proj1 (elem_of_nil id)). rewrite <-Hnil. apply list_elem_of_filter. split; [|done].
      rewrite Hsc, Hs. cbn. by apply N.eqb_eq.
    + intros c id scope other scope' [= <-] [Hk _]%list_elem_of_filter Hsc Ho Hsc' Hs'. rewrite Hsc in Hk.
      apply andb_true_iff in Hk as [Hk Hw%N.eqb_eq]. split; [done|]. rewrite Hw. apply Hmin, list_elem_of_fmap. exists scope'.
      split; [done|]. apply list_elem_of_filter. split; [done|]. apply list_elem_of_omap. by exists other.
  - split_and!; [done|done|]. intros c id scope other scope' [= <-] _ _ Ho Hsc' Hs'. exfalso.
    assert (scope' ∈ scopes) as Hin.
    { apply list_elem_of_filter. split; [done|]. apply list_elem_of_omap. by exists other. }
    destruct scopes; [by apply elem_of_nil in Hin|done].
Qed.
