(* ===== verification/Sentinels.v ===== *)
(** * The [<external>] sentinels ([indexer/pipeline/index_files.rs])

    Phases 2b and 2b-ext: an import or a trait that no project file defines is a
    node of the pseudo-file [<external>], one per name, with an edge from each
    place that names it. *)

From S2P Require Import Prelude Str Domain Tables Store Queries Resolve Pipeline EdgeWrite.

Definition EXTERNAL_RECORD : FileRecord := mkFileRecord EXTERNAL_FILE_PATH "external" 0 (Some "external").

Definition sentinel_record (file_id : Z) (node_type name : string) : NodeRecord :=
  mkNodeRecord file_id node_type name (Some ("<external>/" +:+ name)) 0 0 "" None None None None None None false.

(** [(source id, target name, relation, metadata)] *)
Definition ExternalRef : Type := Z * string * string * option string.

(** The ids by name, and how many nodes and edges are new. *)
Definition Minting : Type := gmap string Z * nat * Store.

Definition mint (file_id : Z) (node_type name : string) (s : Minting) : result string Minting :=
  let '(ids, n, st) := s in
  (let? (id, st) := insert_node_cached (sentinel_record file_id node_type name) st in
   Ok (<[name := id]> ids, S n, st))%cg.

Definition mint_module (file_id : Z) (name : string) (s : Minting) : result string Minting :=
  if bool_decide (is_Some (s.1.1 !! name)) then Ok s else mint file_id "external_module" name s.

(** The edge of a reference, if its name has a node. *)
Definition link (ids : gmap string Z) (r : ExternalRef) (s : nat * Store) : result string (nat * Store) :=
  let '(source_id, name, relation, metadata) := r in
  match ids !! name with
  | Some id =>
      (let? (new, st) := insert_edge_cached source_id id relation metadata s.2 in
       Ok (s.1 + (if new : bool then 1 else 0), st))%cg
  | None => Ok s
  end.

(** Rows into a map, a later row of a name over an earlier one. *)
Definition by_name {A} (f : NodeResult → A) (rows : list NodeResult) : gmap string A :=
  foldl (λ m n, <[node_name_of n := f n]> m) ∅ rows.

(** [implements] says the name is a trait, whatever else says it is a module. *)
Definition claim_type (m : gmap string string) (r : ExternalRef) : gmap string string :=
  let '(_, name, relation, _) := r in
  let node_type := if String.eqb relation REL_IMPLEMENTS then "trait" else "module" in
  <[name := if String.eqb node_type "trait" then "trait" else default node_type (m !! name)]> m.

Definition unique_targets (refs : list ExternalRef) : list (string * string) :=
  sort_cmp (cmp_then (cmp_by fst String.compare) (cmp_by snd String.compare)) (map_to_list (foldl claim_type ∅ refs)).

Definition mint_target (file_id : Z) (existing_types : gmap string string) (target : string * string) (s : Minting)
    : result string Minting :=
  let '(name, node_type) := target in
  let '(ids, n, st) := s in
  match ids !! name with
  | Some id =>
      if String.eqb node_type "trait" && bool_decide (existing_types !! name = Some "module")
      then Ok (ids, n, make_trait id st) else Ok s
  | None => mint file_id node_type name s
  end.

Definition mint_imports (now : Z) (imports : list (Z * string)) (s : nat * nat * Store) : result string (nat * nat * Store) :=
  let '(nodes, edges, st) := s in
  if bool_decide (imports = []) then Ok s
  else
    let '(file_id, st) := upsert_file now EXTERNAL_RECORD st in
    let existing := by_name node_id_of (get_nodes_by_file_path st EXTERNAL_FILE_PATH) in
    (let? (ids, n, st) := try_fold (mint_module file_id) (distinct_sorted imports.*2) (existing, 0, st) in
     let? (m, st) := try_fold (λ r, link ids (r.1, r.2, REL_IMPORTS, None)) imports (0, st) in
     Ok (nodes + n, edges + m, st))%cg.

Definition mint_refs (now : Z) (refs : list ExternalRef) (s : nat * nat * Store) : result string (nat * nat * Store) :=
  let '(nodes, edges, st) := s in
  if bool_decide (refs = []) then Ok s
  else
    let '(file_id, st) := upsert_file now EXTERNAL_RECORD st in
    let rows := get_nodes_by_file_path st EXTERNAL_FILE_PATH in
    (let? (ids, n, st) := try_fold (mint_target file_id (by_name type_of rows)) (unique_targets refs)
                            (by_name node_id_of rows, 0, st) in
     let? (m, st) := try_fold (link ids) refs (0, st) in
     Ok (nodes + n, edges + m, st))%cg.

Definition mint_external_sentinels (now : Z) (external_python_imports : list (Z * string))
    (unresolved_externals : list ExternalRef) (st : Store) : result string (nat * nat * Store) :=
  (let? s := mint_imports now external_python_imports (0, 0, st) in mint_refs now unresolved_externals s)%cg.

(** * Properties *)

(** ** What a step may change *)

(** The same row, or a sentinel that turned from a module into a trait. *)
Definition same_node (file : Z) (n n' : NodeResult) : Prop :=
  n' = n ∨ node_file_of n = file ∧ type_of n = "module" ∧ n' = retyped n.

(** New nodes in the pseudo-file only, new edges, nothing lost. *)
Record minted (names : list string) (file : Z) (st st' : Store) : Prop := mkMinted {
  m_files : s_files st' = s_files st;
  m_fwd : ∀ n, n ∈ s_nodes st → ∃ n', n' ∈ s_nodes st' ∧ same_node file n n';
  m_back : ∀ n', n' ∈ s_nodes st' → (∃ n, n ∈ s_nodes st ∧ same_node file n n') 
            ∨ node_file_of n' = file ∧ node_id_of n' ∉ node_ids st ∧ node_name_of n' ∈ names;
  m_edges : keys_grow st st';
  m_pending : s_pending st' = s_pending st;
}.

Lemma same_node_key file n n' : same_node file n n' →
  node_id_of n' = node_id_of n ∧ node_name_of n' = node_name_of n ∧ node_file_of n' = node_file_of n.
Proof. by intros [->|(_ & _ & ->)]. Qed.

Lemma same_node_trans file n1 n2 n3 : same_node file n1 n2 → same_node file n2 n3 → same_node file n1 n3.
Proof. intros [->|(? & ? & ->)] [->|(? & ? & ->)]; [by left|by right|by right|]. done. Qed.

Section Minted.
Context (names : list string).

Lemma minted_ids file st st' : minted names file st st' → ∀ i, i ∈ node_ids st → i ∈ node_ids st'.
Proof.
  intros Hm i (n & -> & Hn)%list_elem_of_fmap. destruct (m_fwd _ _ _ _ Hm n Hn) as (n' & Hn' & (<- & _)%same_node_key).
  by apply list_elem_of_fmap_2.
Qed.

Lemma minted_refl file st : minted names file st st.
Proof. split; try done; [intros n Hn; exists n; split; [done|by left]|intros n Hn; left; exists n; split; [done|by left]|by intros k]. Qed.

Lemma minted_trans file st1 st2 st3 : minted names file st1 st2 → minted names file st2 st3 → minted names file st1 st3.
Proof.
  intros H1 H2. split.
  - by rewrite (m_files _ _ _ _ H2), (m_files _ _ _ _ H1).
  - intros n (n2 & Hn2 & Hs2)%(m_fwd _ _ _ _ H1). destruct (m_fwd _ _ _ _ H2 n2 Hn2) as (n3 & Hn3 & Hs3).
    exists n3. split; [done|by eapply same_node_trans].
  - intros n3 [(n2 & Hn2 & Hs3)|(Hf & Hi & Hn)]%(m_back _ _ _ _ H2).
    + apply (m_back _ _ _ _ H1) in Hn2 as [(n & Hn & Hs2)|(Hf & Hi & Hnm)]; [left; exists n; split; [done|by eapply same_node_trans]|].
      apply same_node_key in Hs3 as (-> & -> & ->). by right.
    + right. split; [done|]. split; [|done]. intros Hin. by apply Hi, (minted_ids _ _ _ H1).
  - intros k Hk. by apply (m_edges _ _ _ _ H2), (m_edges _ _ _ _ H1).
  - by rewrite (m_pending _ _ _ _ H2), (m_pending _ _ _ _ H1).
Qed.

Lemma insert_edge_minted file s t rel m st :
  store_ok st → s ∈ node_ids st → t ∈ node_ids st →
  ∃ b st', insert_edge s t rel m st = Ok (b, st') ∧ store_ok st' ∧ minted names file st st' ∧ s_nodes st' = s_nodes st
         ∧ (s, t, rel, default "" m) ∈ edge_keys st'.
Proof.
  intros Hok Hs Ht. pose proof (insert_edge_ok s t rel m st Hok) as Hok'.
  destruct (insert_edge s t rel m st) as [[b st']|] eqn:He.
  - exists b, st'. cbn in Hok'. apply insert_edge_grow in He as Hg. destruct Hg as [Hg Hk].
    assert (s_files st' = s_files st ∧ s_nodes st' = s_nodes st ∧ s_pending st' = s_pending st) as (H1 & H2 & H3).
    { unfold insert_edge in He. case_bool_decide; [by injection He as <- <-|]. destruct (_ && _); [|done]. by injection He as <- <-. }
    split_and!; try done. split; try done; rewrite ?H2; intros n Hn; [|left]; exists n; (split; [done|by left]).
  - unfold insert_edge in He. case_bool_decide; [done|]. by rewrite !bool_decide_true in He by done.
Qed.

Lemma make_trait_minted file id st :
  store_ok st → (∀ n, n ∈ s_nodes st → node_id_of n = id → node_file_of n = file) → minted names file st (make_trait id st).
Proof.
  intros Hok Hf. split; try done; cbn [make_trait s_nodes].
  - intros n Hn. eexists. split; [by apply list_elem_of_fmap_2|]. cbn beta.
    destruct (_ && _) eqn:Hc; [|by left]. apply andb_true_iff in Hc as [Hi%Z.eqb_eq Ht%String.eqb_eq]. right. by auto.
  - intros n' (n & -> & Hn)%list_elem_of_fmap. left. exists n. split; [done|].
    destruct (_ && _) eqn:Hc; [|by left]. apply andb_true_iff in Hc as [Hi%Z.eqb_eq Ht%String.eqb_eq]. right. by auto.
  - by intros k.
Qed.

Lemma insert_node_minted file ty name st :
  store_ok st → file ∈ file_ids st → name ∈ names →
  ∃ id n st', insert_node_cached (sentinel_record file ty name) st = Ok (id, st') ∧ store_ok st' ∧ minted names file st st'
    ∧ n ∈ s_nodes st' ∧ n = node_of_record id (sentinel_record file ty name) ∧ (∀ x, x ∈ s_nodes st' ↔ x ∈ s_nodes st ∨ x = n).
Proof.
  intros Hok Hf Hname. pose proof (insert_node_ok (sentinel_record file ty name) st Hok) as Hok'.
  unfold insert_node_cached, insert_node in *. rewrite bool_decide_true in * by done. cbn [on_ok snd] in Hok'.
  eexists _, _, _. split; [reflexivity|]. split; [done|]. cbn [s_nodes]. split; [|split; [apply elem_of_app; right; by left|split; [reflexivity|]]].
  - split; try done; cbn [s_nodes].
    + intros n Hn. exists n. split; [apply elem_of_app; by left|by left].
    + intros n' [Hn|Hn%list_elem_of_singleton]%elem_of_app; [left; exists n'; split; [done|by left]|right].
      subst n'. split; [done|]. split; [apply next_id_fresh|done].
    + by intros k.
  - intros x. rewrite elem_of_app, list_elem_of_singleton. done.
Qed.

(** ** The loops *)

Context (file : Z).

(** The ids by name are those of the sentinels. *)
Definition names_ok (ids : gmap string Z) (st : Store) : Prop :=
  (∀ name id, ids !! name = Some id →
     ∃ n, n ∈ s_nodes st ∧ node_file_of n = file ∧ node_name_of n = name ∧ node_id_of n = id)
  ∧ ∀ n, n ∈ s_nodes st → node_file_of n = file → is_Some (ids !! node_name_of n).

(** A sentinel per name. *)
Definition one_each (st : Store) : Prop :=
  ∀ n n', n ∈ s_nodes st → n' ∈ s_nodes st → node_file_of n = file → node_file_of n' = file →
    node_name_of n = node_name_of n' → n = n'.

Definition loop_ok (ids ids' : gmap string Z) (st st' : Store) : Prop :=
  store_ok st' ∧ minted names file st st' ∧ names_ok ids' st' ∧ ids ⊆ ids' ∧ (one_each st → one_each st').

Lemma loop_ok_trans ids1 ids2 ids3 st1 st2 st3 :
  loop_ok ids1 ids2 st1 st2 → loop_ok ids2 ids3 st2 st3 → loop_ok ids1 ids3 st1 st3.
Proof.
  intros (_ & H1 & _ & H2 & H3) (H4 & H5 & H6 & H7 & H8). split_and!; [done|by eapply minted_trans|done|by etrans|auto].
Qed.

Lemma mint_ok ty name ids n st :
  store_ok st → file ∈ file_ids st → name ∈ names → names_ok ids st → ids !! name = None →
  ∃ ids' st' id, mint file ty name (ids, n, st) = Ok (ids', S n, st') ∧ loop_ok ids ids' st st' ∧ ids' = <[name := id]> ids
    ∧ ∀ x, x ∈ s_nodes st' → node_id_of x = id → type_of x = ty.
Proof.
  intros Hok Hf Hname [Hn1 Hn2] Hnone. unfold mint.
  destruct (insert_node_minted file ty name st Hok Hf Hname) as (id & x & st' & -> & Hok' & Hm & Hx & Hxeq & Hall).
  cbn [result_bind]. exists (<[name := id]> ids), st', id. split; [done|].
  assert (∀ y, y ∈ s_nodes st → node_file_of y = file → node_name_of y ≠ name) as Hother.
  { intros y Hy Hyf Heq. destruct (Hn2 y Hy Hyf) as [? Hs]. congruence. }
  assert (node_file_of x = file ∧ node_name_of x = name ∧ node_id_of x = id ∧ type_of x = ty) as (Hxf & Hxn & Hxi & Hxt) by (by rewrite Hxeq).
  split; [split_and!; [done|done| |by apply insert_subseteq|]|split; [done|]].
  - split.
    + intros name' id' Hlk. destruct (decide (name' = name)) as [->|Hne].
      * rewrite lookup_insert_eq in Hlk. injection Hlk as <-. by exists x.
      * rewrite lookup_insert_ne in Hlk by done. destruct (Hn1 _ _ Hlk) as (y & Hy & ?). exists y. split; [|done]. apply Hall. by left.
    + intros y [Hy| ->]%Hall Hyf; [|rewrite Hxn, lookup_insert_eq; by eexists].
      rewrite lookup_insert_ne by (intros Heq; by apply (Hother y)). by apply Hn2.
  - intros Hone y y' [Hy| ->]%Hall [Hy'| ->]%Hall Hyf Hyf' Heq; [by apply Hone| | |done].
    + exfalso. apply (Hother y Hy Hyf). congruence.
    + exfalso. apply (Hother y' Hy' Hyf'). congruence.
  - intros y Hy Hyi. assert (y = x) as ->; [|done]. apply (NoDup_key_inj node_id_of (s_nodes st')); [apply Hok'|done|done|congruence].
Qed.

Lemma mint_modules_ok ns ids n st :
  store_ok st → file ∈ file_ids st → (∀ name, name ∈ ns → name ∈ names) → names_ok ids st →
  ∃ ids' n' st', try_fold (mint_module file) ns (ids, n, st) = Ok (ids', n', st') ∧ loop_ok ids ids' st st'
    ∧ ∀ name, name ∈ ns → is_Some (ids' !! name).
Proof.
  revert ids n st. induction ns as [|name ns IH]; intros ids n st Hok Hf Hns Hids; cbn [try_fold].
  { exists ids, n, st. split; [done|]. split; [split_and!; [done|apply minted_refl|done|done|done]|]. by intros ? ?%elem_of_nil. }
  assert (∃ ids1 n1 st1, mint_module file name (ids, n, st) = Ok (ids1, n1, st1) ∧ loop_ok ids ids1 st st1 ∧ is_Some (ids1 !! name))
    as (ids1 & n1 & st1 & -> & Hl & Hs).
  { unfold mint_module. cbn [fst]. case_bool_decide as Hb.
    - exists ids, n, st. split; [done|]. split; [split_and!; [done|apply minted_refl|done|done|done]|done].
    - apply eq_None_not_Some in Hb. destruct (mint_ok "external_module" name ids n st Hok Hf (Hns name ltac:(by left)) Hids Hb)
        as (ids' & st' & id & -> & Hl & -> & _). eexists _, _, _. split; [done|]. split; [done|]. rewrite lookup_insert_eq. by eexists. }
  cbn [result_bind]. pose proof Hl as (Hok1 & Hm1 & Hids1 & _ & _).
  destruct (IH ids1 n1 st1 Hok1) as (ids' & n' & st' & -> & Hl' & Hall).
  { unfold file_ids. by rewrite (m_files _ _ _ _ Hm1). }
  { intros x Hx. apply Hns. by right. }
  { done. }
  exists ids', n', st'. split; [done|]. split; [by eapply loop_ok_trans|]. intros x [->|Hx]%elem_of_cons; [|by apply Hall].
  destruct Hl' as (_ & _ & _ & Hsub & _). destruct Hs as [i Hi]. exists i. by eapply lookup_weaken.
Qed.

Lemma links_ok ids refs m st :
  store_ok st → names_ok ids st → (∀ r, r ∈ refs → r.1.1.1 ∈ node_ids st ∧ is_Some (ids !! r.1.1.2)) →
  ∃ m' st', try_fold (link ids) refs (m, st) = Ok (m', st') ∧ store_ok st' ∧ minted names file st st' ∧ s_nodes st' = s_nodes st
    ∧ ∀ r, r ∈ refs → ∃ id, ids !! r.1.1.2 = Some id ∧ (r.1.1.1, id, r.1.2, default "" r.2) ∈ edge_keys st'.
Proof.
  revert m st. induction refs as [|[[[src name] rel] meta] refs IH]; intros m st Hok Hids Hr; cbn [try_fold].
  { exists m, st. split_and!; [done|done|apply minted_refl|done|]. by intros ? ?%elem_of_nil. }
  destruct (Hr (src, name, rel, meta) ltac:(by left)) as [Hsrc [id Hid]]. cbn [fst snd] in *. unfold link at 1. rewrite Hid. cbn [fst snd].
  destruct (proj1 Hids name id Hid) as (x & Hx & _ & _ & Hxi).
  destruct (insert_edge_minted file src id rel meta st Hok Hsrc) as (b & st1 & He & Hok1 & Hm1 & Hn1 & Hk1).
  { rewrite <-Hxi. by apply list_elem_of_fmap_2. }
  unfold insert_edge_cached. rewrite He. cbn [result_bind].
  destruct (IH (m + (if b then 1 else 0)) st1 Hok1) as (m' & st' & -> & Hok' & Hm' & Hn' & Hall).
  { split; [|]; rewrite Hn1; apply Hids. }
  { intros r Hin. unfold node_ids. rewrite Hn1. apply Hr. by right. }
  exists m', st'. split_and!; [done|done|by eapply minted_trans|congruence|].
  intros r [->|Hin]%elem_of_cons; [|by apply Hall]. exists id. split; [done|]. by apply (m_edges _ _ _ _ Hm').
Qed.
(** A module of the new store that was there before was the same row. *)
Lemma minted_module st st' x :
  store_ok st' → minted names file st st' → x ∈ s_nodes st' → node_id_of x ∈ node_ids st → type_of x = "module" → x ∈ s_nodes st.
Proof.
  intros Hok Hm Hx Hi Ht. apply (m_back _ _ _ _ Hm) in Hx as [(y & Hy & [->|(_ & _ & ->)])|(_ & Hn & _)]; [done|done|done].
Qed.

Lemma minted_names_ok ids st st' :
  minted names file st st' → (∀ i, i ∈ node_ids st' → i ∈ node_ids st) → names_ok ids st → names_ok ids st'.
Proof.
  intros Hm Hback [H1 H2]. split.
  - intros name id (n & Hn & Hf & Hname & Hi)%H1. destruct (m_fwd _ _ _ _ Hm n Hn) as (n' & Hn' & (E1 & E2 & E3)%same_node_key).
    exists n'. split_and!; [done|congruence..].
  - intros n' Hn' Hf. pose proof (list_elem_of_fmap_2 node_id_of _ _ Hn') as Hi%Hback.
    apply (m_back _ _ _ _ Hm) in Hn' as [(n & Hn & (E1 & E2 & E3)%same_node_key)|(_ & Hnot & _)]; [|done].
    rewrite E2. apply H2; [done|congruence].
Qed.

Lemma retype_ok ids st id name :
  store_ok st → names_ok ids st → ids !! name = Some id → loop_ok ids ids st (make_trait id st).
Proof.
  intros Hok Hids Hid. destruct (proj1 Hids name id Hid) as (x & Hx & Hxf & Hxn & Hxi).
  assert (∀ n, n ∈ s_nodes st → node_id_of n = id → n = x) as Huniq.
  { intros n Hn Hni. apply (NoDup_key_inj node_id_of (s_nodes st)); [apply Hok|done|done|congruence]. }
  assert (minted names file st (make_trait id st)) as Hm.
  { apply make_trait_minted; [done|]. intros n Hn Hni. by rewrite (Huniq n Hn Hni). }
  split_and!; [by apply make_trait_ok|done| |done|].
  - eapply minted_names_ok; [done| |done]. intros i (n' & -> & (n & -> & Hn)%list_elem_of_fmap)%list_elem_of_fmap.
    case_match; exact (list_elem_of_fmap_2 node_id_of _ _ Hn).
  - intros Hone y y' (n & -> & Hn)%list_elem_of_fmap (n' & -> & Hn')%list_elem_of_fmap Hf Hf' Heq.
    assert (∀ (b : bool) m, node_file_of (if b then retyped m else m) = node_file_of m
                            ∧ node_name_of (if b then retyped m else m) = node_name_of m) as Hk by (by intros []).
    cbn beta in *. rewrite (proj1 (Hk _ _)) in Hf. rewrite (proj1 (Hk _ _)) in Hf'. rewrite (proj2 (Hk _ n)), (proj2 (Hk _ n')) in Heq. by rewrite (Hone n n').
Qed.

Definition module_known (types : gmap string string) (ids : gmap string Z) (st : Store) (ts : list (string * string)) : Prop :=
  ∀ name x, name ∈ ts.*1 → ids !! name = Some (node_id_of x) → x ∈ s_nodes st → type_of x = "module" → types !! name = Some "module".

(** A sentinel that is no module stays so. *)
Lemma no_module_stays ids ids' st st' name :
  loop_ok ids ids' st st' → names_ok ids st → is_Some (ids !! name) →
  (∀ x, x ∈ s_nodes st → ids !! name = Some (node_id_of x) → type_of x ≠ "module") →
  ∀ x, x ∈ s_nodes st' → ids' !! name = Some (node_id_of x) → type_of x ≠ "module".
Proof.
  intros (Hok & Hm & _ & Hsub & _) Hids [id Hid] Hno x Hx Hx' Ht. rewrite (lookup_weaken _ _ _ _ Hid Hsub) in Hx'.
  injection Hx' as ->. apply (Hno x); [|done..]. eapply minted_module; [done..| |done].
  destruct (proj1 Hids name _ Hid) as (y & Hy & _ & _ & <-). by apply list_elem_of_fmap_2.
Qed.

Lemma mint_target_ok types name ty ids n st ts :
  store_ok st → file ∈ file_ids st → name ∈ names → names_ok ids st → name ∉ ts.*1 →
  module_known types ids st ((name, ty) :: ts) →
  ∃ ids' n' st', mint_target file types (name, ty) (ids, n, st) = Ok (ids', n', st') ∧ loop_ok ids ids' st st'
    ∧ is_Some (ids' !! name) ∧ module_known types ids' st' ts
    ∧ (ty = "trait" → ∀ x, x ∈ s_nodes st' → ids' !! name = Some (node_id_of x) → type_of x ≠ "module").
Proof.
  intros Hok Hf Hname Hids Hnot Hmod. unfold mint_target. destruct (ids !! name) as [id|] eqn:Hid.
  - assert (∀ st', loop_ok ids ids st st' → module_known types ids st' ts) as Hknown.
    { intros st' (Hok' & Hm & _) name' x Hin Hlk Hx Ht. apply (Hmod name' x); [cbn; by right|done| |done].
      eapply minted_module; [done..| |done]. destruct (proj1 Hids name' _ Hlk) as (y & Hy & _ & _ & <-).
      by apply list_elem_of_fmap_2. }
    destruct (String.eqb ty "trait" && bool_decide (types !! name = Some "module")) eqn:Hc.
    + pose proof (retype_ok ids st id name Hok Hids Hid) as Hl. exists ids, n, (make_trait id st).
      split_and!; [done|done|by eexists|by apply Hknown|]. intros _ x (y & -> & Hy)%list_elem_of_fmap Hxi.
      clear Hc. cbn beta in *. destruct (_ && _) eqn:Hy'; [done|]. intros Ht. rewrite Hid in Hxi. injection Hxi as ->.
      by rewrite Z.eqb_refl, Ht in Hy'.
    + exists ids, n, st. assert (loop_ok ids ids st st) as Hl by (split_and!; [done|apply minted_refl|done..]).
      split_and!; [done|done|by eexists|by apply Hknown|]. intros -> x Hx Hxi Ht.
      assert (types !! name = Some "module") as Hk by (eapply (Hmod name x); [by left|congruence|done|done]).
      by rewrite bool_decide_true in Hc.
  - destruct (mint_ok ty name ids n st Hok Hf Hname Hids Hid) as (ids' & st' & id & -> & Hl & -> & Hty).
    eexists _, _, _. split; [reflexivity|]. split; [done|]. rewrite lookup_insert_eq. split; [by eexists|]. split.
    + intros name' x Hin Hlk Hx Ht. rewrite lookup_insert_ne in Hlk by (intros ->; done).
      destruct Hl as (Hok' & Hm & _). apply (Hmod name' x); [cbn; by right|done| |done].
      eapply minted_module; [done..| |done]. destruct (proj1 Hids name' _ Hlk) as (y & Hy & _ & _ & <-). by apply list_elem_of_fmap_2.
    + intros -> x Hx [= Hxi]. rewrite (Hty x Hx (eq_sym Hxi)). done.
Qed.

Lemma mint_targets_ok types ts ids n st :
  store_ok st → file ∈ file_ids st → (∀ name, name ∈ ts.*1 → name ∈ names) → names_ok ids st → NoDup ts.*1 →
  module_known types ids st ts →
  ∃ ids' n' st', try_fold (mint_target file types) ts (ids, n, st) = Ok (ids', n', st') ∧ loop_ok ids ids' st st'
    ∧ (∀ name, name ∈ ts.*1 → is_Some (ids' !! name))
    ∧ ∀ name, (name, "trait") ∈ ts → ∀ x, x ∈ s_nodes st' → ids' !! name = Some (node_id_of x) → type_of x ≠ "module".
Proof.
  revert ids n st. induction ts as [|[name ty] ts IH]; intros ids n st Hok Hf Hts Hids Hnd Hmod; cbn [try_fold].
  { exists ids, n, st. split; [done|]. split; [split_and!; [done|apply minted_refl|done..]|]. split; by intros ? ?%elem_of_nil. }
  cbn in Hnd. apply NoDup_cons in Hnd as [Hnot Hnd].
  destruct (mint_target_ok types name ty ids n st ts Hok Hf (Hts name ltac:(by left)) Hids Hnot Hmod)
    as (ids1 & n1 & st1 & -> & Hl & Hs & Hmod1 & Htrait). cbn [result_bind]. pose proof Hl as (Hok1 & Hm1 & Hids1 & _).
  destruct (IH ids1 n1 st1 Hok1) as (ids' & n' & st' & -> & Hl' & Hall & Htr).
  { unfold file_ids. by rewrite (m_files _ _ _ _ Hm1). }
  { intros x Hx. apply Hts. by right. }
  1-3: done.
  exists ids', n', st'. split; [done|]. split; [by eapply loop_ok_trans|]. split.
  - intros x [->|Hx]%elem_of_cons; [|by apply Hall]. destruct Hl' as (_ & _ & _ & Hsub & _). destruct Hs as [i Hi].
    exists i. by eapply lookup_weaken.
  - intros x [[= -> <-]|Hx]%elem_of_cons; [|by apply Htr]. eapply no_module_stays; [done..|]. by apply Htrait.
Qed.
End Minted.

(** ** The two phases *)

(** The pseudo-file's id, once it has a row. *)
Definition ext_file (st : Store) (g : Z) : Prop := ∃ f, f ∈ s_files st ∧ file_path_of f = EXTERNAL_FILE_PATH ∧ file_id_of f = g.

Lemma ext_file_unique st g g' : store_ok st → ext_file st g → ext_file st g' → g = g'.
Proof.
  intros Hok (f & Hf & Hp & <-) (f' & Hf' & Hp' & <-). f_equal.
  apply (NoDup_key_inj file_path_of (s_files st)); [apply Hok|done|done|congruence].
Qed.

Lemma upsert_external now st :
  store_ok st →
  let '(fid, st1) := upsert_file now EXTERNAL_RECORD st in
  store_ok st1 ∧ ext_file st1 fid ∧ (∀ g, ext_file st g → g = fid)
  ∧ s_nodes st1 = s_nodes st ∧ s_edges st1 = s_edges st ∧ s_pending st1 = s_pending st
  ∧ (fid ∈ file_ids st → ext_file st fid)
  ∧ (∀ f, file_path_of f ≠ EXTERNAL_FILE_PATH → f ∈ s_files st1 ↔ f ∈ s_files st).
Proof.
  intros Hok. pose proof (upsert_file_ok now EXTERNAL_RECORD st Hok) as Hok1.
  pose proof (upsert_file_exact now EXTERNAL_RECORD st Hok) as Hex.
  assert (∀ r, s_nodes (upsert_file now r st).2 = s_nodes st ∧ s_edges (upsert_file now r st).2 = s_edges st
               ∧ s_pending (upsert_file now r st).2 = s_pending st) as Hsame.
  { intros r. unfold upsert_file. by destruct (find _ _). }
  specialize (Hsame EXTERNAL_RECORD). destruct (upsert_file now EXTERNAL_RECORD st) as [fid st1]. cbn [snd] in *.
  destruct Hex as ((f & Hf & Hid & Hp & _) & Hold & Hothers).
  destruct Hsame as (? & ? & ?). split_and!; try done; [by exists f|intros g (f' & Hf' & Hp' & <-); by apply Hold|].
  intros (f' & Hfid & Hf')%list_elem_of_fmap. exists f'. split_and!; [done| |done].
  destruct (decide (file_path_of f' = EXTERNAL_FILE_PATH)) as [|Hne]; [done|]. exfalso. apply Hne.
  assert (f' = f) as ->; [|done]. apply (NoDup_key_inj file_id_of (s_files st1)); [apply Hok1|by apply Hothers|done|congruence].
Qed.

Lemma elem_of_external_rows st fid n :
  store_ok st → ext_file st fid → n ∈ get_nodes_by_file_path st EXTERNAL_FILE_PATH ↔ n ∈ s_nodes st ∧ node_file_of n = fid.
Proof.
  intros Hok (f & Hf & Hp & <-). unfold get_nodes_by_file_path, sort_cmp. rewrite sort_by_perm, list_elem_of_fmap. split.
  - intros ([n' f'] & -> & [Hp' Hnf]%list_elem_of_filter). apply elem_of_node_files in Hnf as (Hn & Hf' & Hid). split; [done|].
    cbn in *. rewrite <-Hid. f_equal. apply (NoDup_key_inj file_path_of (s_files st)); [apply Hok|done|done|congruence].
  - intros [Hn Hid]. exists (n, f). split; [done|]. apply list_elem_of_filter. split; [done|]. by apply elem_of_node_files.
Qed.

Lemma by_name_spec {A} (f : NodeResult → A) rows name :
  match by_name (λ n, n) rows !! name with
  | Some n => n ∈ rows ∧ node_name_of n = name ∧ by_name f rows !! name = Some (f n)
  | None => (∀ n, n ∈ rows → node_name_of n ≠ name) ∧ by_name f rows !! name = None
  end.
Proof.
  unfold by_name. induction rows as [|n rows IH] using rev_ind; cbn [foldl].
  { rewrite !lookup_empty. split; [by intros ? ?%elem_of_nil|done]. }
  rewrite !foldl_app. cbn [foldl]. destruct (decide (node_name_of n = name)) as [<-|Hne].
  - rewrite !lookup_insert_eq. split; [set_solver|done].
  - rewrite !lookup_insert_ne by done. destruct (foldl _ _ _ !! name) as [x|].
    + destruct IH as (? & ? & ?). split; [set_solver|done].
    + destruct IH as [IH ?]. split; [|done]. intros x [Hx| ->%list_elem_of_singleton]%elem_of_app; [by apply IH|done].
Qed.

Lemma existing_names st fid : store_ok st → ext_file st fid →
  names_ok fid (by_name node_id_of (get_nodes_by_file_path st EXTERNAL_FILE_PATH)) st.
Proof.
  intros Hok Hf. set (rows := get_nodes_by_file_path _ _). split.
  - intros name id Hid. pose proof (by_name_spec node_id_of rows name) as Hs. destruct (by_name (λ n, n) rows !! name) as [n|].
    + destruct Hs as (Hn & Hname & Hi). apply elem_of_external_rows with (fid := fid) in Hn as [Hn Hnf]; [|done..].
      exists n. split_and!; [done|done|done|congruence].
    + destruct Hs as [_ Hs]. congruence.
  - intros n Hn Hnf. pose proof (by_name_spec node_id_of rows (node_name_of n)) as Hs.
    destruct (by_name (λ n, n) rows !! node_name_of n) as [n'|]; [by destruct Hs as (_ & _ & ->)|].
    exfalso. destruct Hs as [Hs _]. apply (Hs n); [|done]. by apply (elem_of_external_rows st fid).
Qed.

(** What a phase leaves. *)
Record phase (names : list string) (st st' : Store) : Prop := mkPhase {
  ph_ok : store_ok st';
  ph_ext : ∀ g, ext_file st g → ext_file st' g;
  ph_fwd : ∀ n, n ∈ s_nodes st → ∃ n', n' ∈ s_nodes st' ∧ (n' = n ∨ ext_file st' (node_file_of n) ∧ type_of n = "module" ∧ n' = retyped n);
  ph_back : ∀ n', n' ∈ s_nodes st' →
    (∃ n, n ∈ s_nodes st ∧ (n' = n ∨ ext_file st' (node_file_of n) ∧ type_of n = "module" ∧ n' = retyped n))
    ∨ ext_file st' (node_file_of n') ∧ node_id_of n' ∉ node_ids st ∧ node_name_of n' ∈ names;
  ph_edges : keys_grow st st';
  ph_pending : s_pending st' = s_pending st;
  ph_unique : (∀ g, ext_file st g → one_each g st) → ∀ g, ext_file st' g → one_each g st';
  ph_files : ∀ f, file_path_of f ≠ EXTERNAL_FILE_PATH → f ∈ s_files st' ↔ f ∈ s_files st;
}.

Lemma phase_of_minted names now st st' :
  store_ok st →
  let '(fid, st1) := upsert_file now EXTERNAL_RECORD st in
  minted names fid st1 st' → store_ok st' → (one_each fid st1 → one_each fid st') → phase names st st' ∧ ext_file st' fid.
Proof.
  intros Hok. pose proof (upsert_external now st Hok) as Hup. destruct (upsert_file now EXTERNAL_RECORD st) as [fid st1].
  destruct Hup as (Hok1 & Hf1 & Hold & Hn & He & Hp & Hback & Hfiles). intros Hm Hok' Hone.
  assert (ext_file st' fid) as Hf' by (unfold ext_file; by rewrite (m_files _ _ _ _ Hm)).
  split; [|done]. split.
  - done.
  - intros g Hg. by rewrite (Hold g Hg).
  - intros n Hin. rewrite <-Hn in Hin. destruct (m_fwd _ _ _ _ Hm n Hin) as (n' & Hn' & [->|(Hfn & Ht & ->)]);
      eexists; (split; [exact Hn'|]); [by left|right; by rewrite Hfn].
  - intros n' [(n & Hin & [->|(Hfn & Ht & ->)])|(Hfn & Hi & Hnm)]%(m_back _ _ _ _ Hm).
    + left. exists n. rewrite <-Hn. split; [done|by left].
    + left. exists n. rewrite <-Hn. split; [done|]. right. by rewrite Hfn.
    + right. rewrite Hfn. split_and!; [done| |done]. unfold node_ids in *. by rewrite <-Hn.
  - intros k Hk. apply (m_edges _ _ _ _ Hm). unfold edge_keys. by rewrite He.
  - rewrite (m_pending _ _ _ _ Hm). done.
  - intros Huniq g Hg. rewrite (ext_file_unique st' g fid Hok' Hg Hf'). apply Hone. intros n n' Hin Hin' Hnf Hnf'.
    rewrite Hn in Hin, Hin'.
    assert (ext_file st fid) as Hx by (apply Hback; rewrite <-Hnf; by apply Hok). by apply (Huniq fid Hx).
  - intros f. rewrite (m_files _ _ _ _ Hm). apply Hfiles.
Qed.

Lemma phase_refl names st : store_ok st → phase names st st.
Proof.
  intros Hok. split; try done; [intros n Hn; exists n; split; [done|by left]|intros n Hn; left; exists n; split; [done|by left]|by intros k].
Qed.

Lemma phase_ids names st st' i : phase names st st' → i ∈ node_ids st → i ∈ node_ids st'.
Proof.
  intros Hp (n & -> & Hn)%list_elem_of_fmap. destruct (ph_fwd _ _ _ Hp n Hn) as (n' & Hn' & [->|(_ & _ & ->)]);
    by apply (list_elem_of_fmap_2 node_id_of) in Hn'.
Qed.

Lemma phase_trans names st1 st2 st3 : phase names st1 st2 → phase names st2 st3 → phase names st1 st3.
Proof.
  intros H1 H2. split.
  - apply H2.
  - intros g Hg. by apply (ph_ext _ _ _ H2), (ph_ext _ _ _ H1).
  - intros n (n2 & Hn2 & Hs2)%(ph_fwd _ _ _ H1). destruct (ph_fwd _ _ _ H2 n2 Hn2) as (n3 & Hn3 & Hs3).
    exists n3. split; [done|]. destruct Hs2 as [->|(Hx & Ht & ->)]; [done|]. apply (ph_ext _ _ _ H2) in Hx.
    destruct Hs3 as [->|(_ & [=] & _)]. by right.
  - intros n3 [(n2 & Hn2 & Hs3)|(Hx & Hi & Hnm)]%(ph_back _ _ _ H2).
    + apply (ph_back _ _ _ H1) in Hn2 as [(n & Hn & Hs2)|(Hx & Hi & Hnm)].
      * left. exists n. split; [done|]. destruct Hs2 as [->|(Hx & Ht & ->)]; [done|].
        apply (ph_ext _ _ _ H2) in Hx. destruct Hs3 as [->|(_ & [=] & _)]. by right.
      * right. apply (ph_ext _ _ _ H2) in Hx. by destruct Hs3 as [->|(_ & _ & ->)].
    + right. split_and!; [done| |done]. intros Hin. by apply Hi, (phase_ids _ _ _ _ H1).
  - intros k Hk. by apply (ph_edges _ _ _ H2), (ph_edges _ _ _ H1).
  - by rewrite (ph_pending _ _ _ H2), (ph_pending _ _ _ H1).
  - intros Hu. by apply (ph_unique _ _ _ H2), (ph_unique _ _ _ H1).
  - intros f Hf. by rewrite (ph_files _ _ _ H2), (ph_files _ _ _ H1).
Qed.

(** A reference has its edge to a sentinel of its name, and a trait's sentinel is no module. *)
Definition linked (st : Store) (r : ExternalRef) : Prop :=
  let '(source_id, name, relation, metadata) := r in
  ∃ n, n ∈ s_nodes st ∧ ext_file st (node_file_of n) ∧ node_name_of n = name
     ∧ (source_id, node_id_of n, relation, default "" metadata) ∈ edge_keys st
     ∧ (relation = REL_IMPLEMENTS → type_of n ≠ "module").

Lemma linked_phase names st st' r : phase names st st' → linked st r → linked st' r.
Proof.
  destruct r as [[[src name] rel] meta]. intros Hp (n & Hn & Hx & Hnm & Hk & Ht).
  apply (ph_ext _ _ _ Hp) in Hx. apply (ph_edges _ _ _ Hp) in Hk.
  destruct (ph_fwd _ _ _ Hp n Hn) as (n' & Hn' & Hs). exists n'. destruct Hs as [->|(_ & Hty & ->)]; [by split_and!|].
  split_and!; done.
Qed.

Lemma try_fold_fmap {S A B} (f : B → S → result string S) (g : A → B) l s :
  try_fold f (g <$> l) s = try_fold (λ x, f (g x)) l s.
Proof. revert s. induction l as [|x l IH]; intros s; cbn [try_fold fmap list_fmap]; [done|]. destruct (f (g x) s); [apply IH|done]. Qed.

(** After the loop over the names, the loop over the references. *)
Lemma phase_end names now st ids' st2 refs m :
  store_ok st →
  let '(fid, st1) := upsert_file now EXTERNAL_RECORD st in
  (∃ ids, loop_ok names fid ids ids' st1 st2) →
  (∀ r, r ∈ refs → r.1.1.1 ∈ node_ids st ∧ is_Some (ids' !! r.1.1.2)) →
  (∀ r, r ∈ refs → r.1.2 = REL_IMPLEMENTS →
     ∀ x, x ∈ s_nodes st2 → ids' !! r.1.1.2 = Some (node_id_of x) → type_of x ≠ "module") →
  ∃ m' st', try_fold (link ids') refs (m, st2) = Ok (m', st') ∧ phase names st st' ∧ ∀ r, r ∈ refs → linked st' r.
Proof.
  intros Hok. pose proof (upsert_external now st Hok) as Hup. pose proof (λ st', phase_of_minted names now st st' Hok) as Hph.
  destruct (upsert_file now EXTERNAL_RECORD st) as [fid st1]. destruct Hup as (Hok1 & Hf1 & _ & Hn & _).
  intros (ids & Hok2 & Hm2 & Hids & _ & Hone) Hrefs Htrait.
  destruct (links_ok names fid ids' refs m st2 Hok2 Hids) as (m' & st' & -> & Hok' & Hm' & Hns & Hkeys).
  { intros r Hr. destruct (Hrefs r Hr) as [Hs Hi]. split; [|done]. apply (minted_ids _ _ _ _ Hm2). unfold node_ids in *. by rewrite Hn. }
  destruct (Hph st') as [Hp Hf']; [by eapply minted_trans|done| |].
  { intros Ho%Hone. intros x y. rewrite Hns. apply Ho. }
  exists m', st'. split_and!; [done|done|]. intros [[[src name] rel] meta] Hr. destruct (Hkeys _ Hr) as (id & Hid & Hk). cbn [fst snd] in *.
  destruct (proj1 Hids name id Hid) as (x & Hx & Hxf & Hxn & <-). exists x. rewrite Hns.
  split_and!; [done|by rewrite Hxf|done|done|]. intros Hrel. apply (Htrait _ Hr Hrel x Hx). done.
Qed.

Lemma mint_imports_ok names now imports n m st :
  store_ok st → (∀ r, r ∈ imports → r.1 ∈ node_ids st ∧ r.2 ∈ names) →
  ∃ n' m' st', mint_imports now imports (n, m, st) = Ok (n', m', st') ∧ phase names st st'
    ∧ ∀ r, r ∈ imports → linked st' (r.1, r.2, REL_IMPORTS, None).
Proof.
  intros Hok Hr. unfold mint_imports. case_bool_decide as Hnil.
  { subst. exists n, m, st. split; [done|]. split; [by apply phase_refl|]. by intros ? ?%elem_of_nil. }
  pose proof (upsert_external now st Hok) as Hup.
  pose proof (λ ids' st2, phase_end names now st ids' st2 ((λ r, (r.1, r.2, REL_IMPORTS, None)) <$> imports) 0 Hok) as Hend.
  destruct (upsert_file now EXTERNAL_RECORD st) as [fid st1]. destruct Hup as (Hok1 & Hf1 & _ & Hn & _).
  destruct (mint_modules_ok names fid (distinct_sorted imports.*2) (by_name node_id_of (get_nodes_by_file_path st1 EXTERNAL_FILE_PATH)) 0 st1)
    as (ids & n1 & st2 & -> & Hl & Hall).
  { done. }
  { destruct Hf1 as (f & Hf & _ & <-). by apply list_elem_of_fmap_2. }
  { intros name Hname. unfold distinct_sorted, sort_cmp in Hname. rewrite sort_by_perm in Hname.
    apply elem_of_remove_dups, list_elem_of_fmap in Hname as (r & -> & ?). by apply Hr. }
  { by apply existing_names. }
  cbn [result_bind]. destruct (Hend ids st2) as (m' & st' & Hlinks & Hp & Hlinked).
  { by eexists. }
  { intros r (i & -> & Hi)%list_elem_of_fmap. cbn. split; [by apply Hr|]. apply Hall. unfold distinct_sorted, sort_cmp.
    rewrite sort_by_perm. by apply elem_of_remove_dups, list_elem_of_fmap_2. }
  { intros r (i & -> & Hi)%list_elem_of_fmap [=]. }
  rewrite try_fold_fmap in Hlinks. rewrite Hlinks. cbn [result_bind]. eexists _, _, st'. split; [reflexivity|]. split; [done|].
  intros r Hi. apply Hlinked, list_elem_of_fmap. by exists r.
Qed.

Lemma claim_types refs m name :
  (is_Some (foldl claim_type m refs !! name) ↔ is_Some (m !! name) ∨ ∃ r, r ∈ refs ∧ r.1.1.2 = name)
  ∧ (m !! name = Some "trait" ∨ (∃ r, r ∈ refs ∧ r.1.1.2 = name ∧ r.1.2 = REL_IMPLEMENTS) →
     foldl claim_type m refs !! name = Some "trait").
Proof.
  revert m. induction refs as [|[[[src nm] rel] meta] refs IH]; intros m; cbn [foldl].
  { split; [split; [by left|intros [?|(r & Hr & _)]; [done|by apply elem_of_nil in Hr]]|].
    intros [?|(r & Hr & _)]; [done|by apply elem_of_nil in Hr]. }
  set (m1 := claim_type m _). destruct (IH m1) as [IH1 IH2]. clear IH.
  assert (is_Some (m1 !! name) ↔ is_Some (m !! name) ∨ nm = name) as Hm1.
  { unfold m1, claim_type. destruct (decide (nm = name)) as [->|Hne].
    - rewrite lookup_insert_eq. split; [by right|by eexists].
    - rewrite lookup_insert_ne by done. tauto. }
  assert (m !! name = Some "trait" ∨ nm = name ∧ rel = REL_IMPLEMENTS → m1 !! name = Some "trait") as Ht1.
  { unfold m1, claim_type. destruct (decide (nm = name)) as [->|Hne].
    - rewrite lookup_insert_eq. intros [Ht|[_ ->]]; [|done]. rewrite Ht. by destruct (String.eqb rel _).
    - rewrite lookup_insert_ne by done. tauto. }
  split.
  - rewrite IH1, Hm1. split.
    + intros [[?|<-]|(r & ? & ?)]; [by left|right; eexists; split; [by left|done]|right; exists r; split; [by right|done]].
    + intros [?|(r & [->|Hr]%elem_of_cons & <-)]; [by left; left|left; by right|right; by exists r].
  - intros H. apply IH2. destruct H as [H|(r & [->|Hr]%elem_of_cons & Hn & Hrel)]; [left; auto|left; auto|right; by exists r].
Qed.

Lemma unique_targets_spec refs :
  NoDup (unique_targets refs).*1
  ∧ (∀ name, name ∈ (unique_targets refs).*1 ↔ ∃ r, r ∈ refs ∧ r.1.1.2 = name)
  ∧ ∀ r, r ∈ refs → r.1.2 = REL_IMPLEMENTS → (r.1.1.2, "trait") ∈ unique_targets refs.
Proof.
  unfold unique_targets, sort_cmp. set (m := foldl claim_type ∅ refs). split_and!.
  - rewrite sort_by_perm. apply NoDup_fst_map_to_list.
  - intros name. rewrite sort_by_perm. destruct (claim_types refs ∅ name) as [H _]. fold m in H. rewrite lookup_empty in H.
    rewrite list_elem_of_fmap. etrans; [|etrans; [exact H|]].
    + split; [intros ([k v] & -> & Hk%elem_of_map_to_list); by eexists|].
      intros [v Hv]. exists (name, v). split; [done|]. by apply elem_of_map_to_list.
    + split; [by intros [[? ?]|?]|by right].
  - intros r Hr Hrel. rewrite sort_by_perm. apply elem_of_map_to_list. destruct (claim_types refs ∅ r.1.1.2) as [_ H]. apply H.
    right. by exists r.
Qed.

Lemma mint_refs_ok names now refs n m st :
  store_ok st → (∀ r, r ∈ refs → r.1.1.1 ∈ node_ids st ∧ r.1.1.2 ∈ names) →
  ∃ n' m' st', mint_refs now refs (n, m, st) = Ok (n', m', st') ∧ phase names st st' ∧ ∀ r, r ∈ refs → linked st' r.
Proof.
  intros Hok Hr. unfold mint_refs. case_bool_decide as Hnil.
  { subst. exists n, m, st. split; [done|]. split; [by apply phase_refl|]. by intros ? ?%elem_of_nil. }
  pose proof (upsert_external now st Hok) as Hup.
  pose proof (λ ids' st2, phase_end names now st ids' st2 refs 0 Hok) as Hend.
  destruct (upsert_file now EXTERNAL_RECORD st) as [fid st1]. destruct Hup as (Hok1 & Hf1 & _ & Hn & _).
  destruct (unique_targets_spec refs) as (Hnd & Hnames & Htraits).
  set (rows := get_nodes_by_file_path st1 EXTERNAL_FILE_PATH).
  destruct (mint_targets_ok names fid (by_name type_of rows) (unique_targets refs) (by_name node_id_of rows) 0 st1)
    as (ids & n1 & st2 & -> & Hl & Hall & Htr).
  { done. }
  { destruct Hf1 as (f & Hf & _ & <-). by apply list_elem_of_fmap_2. }
  { intros name (r & Hin & <-)%Hnames. by apply Hr. }
  { by apply existing_names. }
  { done. }
  { intros name x _ Hlk Hx Ht. pose proof (by_name_spec node_id_of rows name) as Hs. pose proof (by_name_spec type_of rows name) as Hs'.
    destruct (by_name (λ n, n) rows !! name) as [y|]; [|destruct Hs; congruence].
    destruct Hs as (Hy & _ & Hyi), Hs' as (_ & _ & ->). apply (elem_of_external_rows st1 fid) in Hy as [Hy _]; [|done..].
    assert (y = x) as ->; [|congruence]. apply (NoDup_key_inj node_id_of (s_nodes st1)); [apply Hok1|done|done|congruence]. }
  cbn [result_bind]. destruct (Hend ids st2) as (m' & st' & -> & Hp & Hlinked).
  { by eexists. }
  { intros r Hin. split; [by apply Hr|]. apply Hall, Hnames. by exists r. }
  { intros r Hin Hrel. apply Htr. by apply Htraits. }
  cbn [result_bind]. eexists _, _, st'. split; [reflexivity|done].
Qed.

(** ** The edges of the references are the only new ones *)

Lemma link_new ids src name rel meta m st m' st' :
  link ids (src, name, rel, meta) (m, st) = Ok (m', st') →
  ∀ i t r x, (i, t, r, x) ∈ edge_keys st' → (i, t, r, x) ∈ edge_keys st ∨ i = src ∧ r = rel.
Proof.
  unfold link. destruct (ids !! name) as [id|]; [|intros [= <- <-]; auto]. unfold insert_edge_cached. cbn [fst snd].
  destruct (insert_edge _ _ _ _ _) as [[b st1]|] eqn:He; [|done]. cbn [result_bind]. intros [= <- <-] i t r x. unfold insert_edge in He.
  case_bool_decide; [injection He as <- <-; auto|]. destruct (_ && _); [|done]. injection He as <- <-.
  unfold edge_keys. cbn [s_edges]. rewrite fmap_app, elem_of_app. intros [?|[[= -> _ -> _]|[]%elem_of_nil]%elem_of_cons]; auto.
Qed.

Lemma links_new ids refs m st m' st' :
  try_fold (link ids) refs (m, st) = Ok (m', st') →
  ∀ i t r x, (i, t, r, x) ∈ edge_keys st' → (i, t, r, x) ∈ edge_keys st ∨ ∃ e, e ∈ refs ∧ e.1.1.1 = i ∧ e.1.2 = r.
Proof.
  revert m st. induction refs as [|e refs IH]; intros m st; cbn [try_fold]; [intros [= <- <-]; auto|].
  destruct (link ids e (m, st)) as [[m1 st1]|] eqn:He; [|done]. cbn [result_bind]. intros Hf i t r x [Hk|(y & Hy & Hyr)]%(IH _ _ Hf).
  - destruct e as [[[src name] rel] meta]. eapply link_new in He as [?|[-> ->]]; [by left| |exact Hk].
    right. exists (src, name, rel, meta). split; [by left|done].
  - right. exists y. split; [by right|done].
Qed.

Lemma mint_targets_edges file types targets ids n st ids' n' st' :
  try_fold (mint_target file types) targets (ids, n, st) = Ok (ids', n', st') → s_edges st' = s_edges st.
Proof.
  revert ids n st. induction targets as [|[name ty] targets IH]; intros ids n st; cbn [try_fold]; [by intros [= <- <- <-]|].
  destruct (mint_target file types (name, ty) (ids, n, st)) as [[[ids1 n1] st1]|] eqn:He; [|done]. cbn [result_bind].
  intros ->%IH. unfold mint_target, mint, insert_node_cached, insert_node in He.
  destruct (ids !! name); [destruct (_ && _); by injection He as <- <- <-|].
  case_bool_decide; [|done]. cbn in He. by injection He as <- <- <-.
Qed.

Lemma mint_refs_new now refs n m st n' m' st' :
  mint_refs now refs (n, m, st) = Ok (n', m', st') →
  ∀ i t r x, (i, t, r, x) ∈ edge_keys st' → (i, t, r, x) ∈ edge_keys st ∨ ∃ e, e ∈ refs ∧ e.1.1.1 = i ∧ e.1.2 = r.
Proof.
  unfold mint_refs. case_bool_decide; [intros [= <- <- <-]; auto|].
  assert (s_edges (upsert_file now EXTERNAL_RECORD st).2 = s_edges st) as Hu by (unfold upsert_file; by destruct (find _ _)).
  destruct (upsert_file now EXTERNAL_RECORD st) as [fid st1]. cbn [snd] in Hu.
  destruct (try_fold _ (unique_targets refs) _) as [[[ids n1] st2]|] eqn:H1; [|done]. cbn [result_bind]. apply mint_targets_edges in H1.
  destruct (try_fold (link ids) refs _) as [[m1 st3]|] eqn:H2; [|done]. cbn [result_bind]. intros [= <- <- <-] i t r x Hk.
  eapply links_new in H2 as [Hk'|]; [|by right|exact Hk]. left. unfold edge_keys in *. by rewrite H1, Hu in Hk'.
Qed.

(** C18: After the sentinels are minted ([mint_external_sentinels]) every import and every unresolved reference has its edge
    to a node of its name in the [<external>] file, and one that a reference implements is not left a module, whatever
    order the references come in and whether the node was there before. It never fails when the sources exist; it makes
    no other node, loses none, changes no row but a sentinel's type from module to trait, drops no edge, and keeps one
    sentinel per name. *)
Theorem mint_external_sentinels_ok now imports refs st :
  store_ok st → (∀ r, r ∈ imports → r.1 ∈ node_ids st) → (∀ r, r ∈ refs → r.1.1.1 ∈ node_ids st) →
  ∃ n m st', mint_external_sentinels now imports refs st = Ok (n, m, st')
    ∧ phase (imports.*2 ++ ((λ r, r.1.1.2) <$> refs)) st st'
    ∧ (∀ r, r ∈ imports → linked st' (r.1, r.2, REL_IMPORTS, None)) ∧ (∀ r, r ∈ refs → linked st' r).
Proof.
  intros Hok Hi Hr. unfold mint_external_sentinels. set (names := _ ++ _).
  destruct (mint_imports_ok names now imports 0 0 st Hok) as (n1 & m1 & st1 & -> & Hp1 & Hl1).
  { intros r Hin. split; [by apply Hi|]. apply elem_of_app. left. by apply list_elem_of_fmap_2. }
  cbn [result_bind]. destruct (mint_refs_ok names now refs n1 m1 st1 (ph_ok _ _ _ Hp1)) as (n2 & m2 & st2 & -> & Hp2 & Hl2).
  { intros r Hin. split; [by apply (phase_ids _ _ _ _ Hp1), Hr|]. apply elem_of_app. right.
    apply list_elem_of_fmap. by exists r. }
  exists n2, m2, st2. split; [done|]. split; [by eapply phase_trans|]. split; [|done].
  intros r Hin. eapply linked_phase; [done|by apply Hl1].
Qed.

(** [Write] is imported by one node and implemented by another; [flask] is imported. *)
Definition demo_refs : list ExternalRef :=
  [(1%Z, "Write", REL_IMPORTS, None); (2%Z, "Write", REL_IMPLEMENTS, None)].

Example demo_minted :
  match mint_external_sentinels 5 [(3%Z, "flask")] demo_refs demo_store with
  | Ok (n, m, st) => (n, m) = (2, 3) ∧ (λ x, (node_name_of x, type_of x)) <$> s_nodes st
      = [("f", "function"); ("g", "function"); ("h", "function"); ("flask", "external_module"); ("Write", "trait")]
  | Err _ => False
  end.
Proof. by vm_compute. Qed.

Lemma mint_external_sentinels_ok_witness :
  ∃ n m st', mint_external_sentinels 5 [(3%Z, "flask")] demo_refs demo_store = Ok (n, m, st')
    ∧ phase (["flask"] ++ ["Write"; "Write"]) demo_store st'
    ∧ (∀ r, r ∈ [(3%Z, "flask")] → linked st' (r.1, r.2, REL_IMPORTS, None)) ∧ (∀ r, r ∈ demo_refs → linked st' r).
Proof.
  apply (mint_external_sentinels_ok 5 [(3%Z, "flask")] demo_refs demo_store demo_store_ok).
  - apply Forall_forall. apply (bool_decide_unpack _). by vm_compute.
  - apply Forall_forall. apply (bool_decide_unpack _). by vm_compute.
Defined.
