(* ===== verification/BatchResolve.v ===== *)
(** * Phase 2 of a batch ([indexer/pipeline/index_files.rs])

    [resolve_batch_relations]: the relations of the files just inserted.  A relation
    whose targets the batch is sure to see is written; every other one is deferred
    until all files are in, is left to the external file, or is dropped. *)

From S2P Require Import Prelude Str Utf8 Sql Domain Tables Store Queries JsModules PyModules Resolve RustUse RustFn ClassNames.
From S2P Require Import Pipeline Batch EdgeWrite Sentinels.

Definition IMPORT_Q_NS_REQUIRE : string := "ns_require".
Definition IMPORT_Q_NS_IMPORT : string := "ns_import".
Definition IMPORT_Q_STAR_REEXPORT : string := "star_reexport".
Definition IMPORT_Q_DEFAULT : string := "default_import".

(** ** Pools of names *)

Record Pools := mkPools {
  name_to_ids : gmap string (list Z);
  node_id_to_path : gmap Z string;
  node_id_to_language : gmap Z (option string);
}.
Definition no_pools : Pools := mkPools ∅ ∅ ∅.

Definition add_node (name : string) (e : NameEntry) (p : Pools) : Pools :=
  let '(id, path, language) := e in
  mkPools (push_to (name_to_ids p) (name, id)) (<[id := path]> (node_id_to_path p)) (<[id := language]> (node_id_to_language p)).

Definition add_file (p : Pools) (pf : FileParsed) : Pools :=
  foldl (λ p x, add_node x.2 (x.1, pf_rel_path pf, Some (pf_language pf)) p) p (zip (pf_node_ids pf) (pf_node_names pf)).

Definition add_entries (batch_file_paths : gset string) (p : Pools) (entries : string * list NameEntry) : Pools :=
  foldl (λ p e, if bool_decide (e.1.2 ∈ batch_file_paths) then p else add_node entries.1 e p) p entries.2.

(** [ids.sort(); ids.dedup()] *)
Definition sort_dedup (ids : list Z) : list Z := sort_cmp Z.compare (remove_dups ids).

Definition sort_pools (p : Pools) : Pools :=
  mkPools (sort_dedup <$> name_to_ids p) (node_id_to_path p) (node_id_to_language p).

Definition NameMap : Type := gmap string (list NameEntry).

Definition batch_pools (batch_parsed : list FileParsed) (batch_file_paths : gset string) (global_name_map : NameMap) : Pools :=
  sort_pools (foldl (add_entries batch_file_paths) (foldl add_file no_pools batch_parsed) (map_to_list global_name_map)).

Definition ids_of (p : Pools) (name : string) : list Z := default [] (name_to_ids p !! name).

(** [matches!(node_id_to_language.get(id), Some(l) if l == lang)] *)
Definition has_language (p : Pools) (lang : string) (id : Z) : bool :=
  bool_decide (node_id_to_language p !! id = Some (Some lang)).

Definition in_file (p : Pools) (file : string) (id : Z) : bool := bool_decide (node_id_to_path p !! id = Some file).

(** ** What a file of the batch is looked up by *)

Definition local_ids (pf : FileParsed) : gset Z := list_to_set (pf_node_ids pf).

(** The indexes of nodes by name and by another qualified name, ascending. *)
Definition nodes_named (pf : FileParsed) : gmap string (list nat) :=
  group_rows (mjoin (imap (λ i nq, (nq.1, i) :: match nq.2 with
                                                | Some q => if String.eqb q nq.1 then [] else [(q, i)]
                                                | None => []
                                                end)
                       (zip (pf_node_names pf) (pf_node_qualified_names pf)))).

Definition local_qualified (pf : FileParsed) : gmap Z string :=
  foldl (λ m x, match x.2 with Some q => <[x.1 := q]> m | None => m end) ∅ (zip (pf_node_ids pf) (pf_node_qualified_names pf)).

(** [meta.get(key).and_then(|v| v.as_str())] *)
Definition get_str (meta : json) (key : string) : option string := get meta key ≫= as_str.
Definition q_in (meta : json) (qs : list string) : bool := match get_str meta "q" with Some q => one_of qs q | None => false end.
Definition as_bool (v : json) : option bool := match v with JBool b => Some b | _ => None end.

Definition JS_LANGUAGES : list string := ["javascript"; "typescript"; "tsx"].

(** What becomes of a relation. *)
Inductive Outcome :=
| Write (targets : list Z) (allow_self : bool)
| Defer (ns_file : option string)
| ExternalModule (module : string)
| ExternalSymbol
| Dropped.

Section Relation.
Context (like like_esc : string → string → bool) (from_str : string → option json).
Context (python_module_map : gmap string (list string)) (all_file_paths : gset string).

(** [ProjectPythonModules::contains]: a key, or a dotted prefix of one. *)
Definition module_known (module : string) : bool :=
  bool_decide (is_Some (python_module_map !! module))
  || existsb (λ k, starts_with (module +:+ ".") k) (map_to_list python_module_map).*1.

Definition py_contains (module : string) (seen : gmap string bool) : bool * gmap string bool :=
  match seen !! module with
  | Some known => (known, seen)
  | None => (module_known module, <[module := module_known module]> seen)
  end.

Definition ns_module_map (pf : FileParsed) : gmap string string :=
  foldl (λ m rel,
    if negb (String.eqb (pr_relation rel) REL_IMPORTS) then m
    else match meta ← pr_metadata rel ≫= from_str;
               if q_in meta [IMPORT_Q_NS_REQUIRE; IMPORT_Q_NS_IMPORT]
               then spec ← get_str meta "js_module"; resolve_js_specifier_path all_file_paths spec (pf_rel_path pf) else None with
         | Some file => <[pr_target_name rel := file]> m
         | None => m
         end) ∅ (pf_relations pf).

(** *** Sources *)

Definition supertype (relation : string) : bool := one_of [REL_INHERITS; REL_IMPLEMENTS] relation.

(** A Rust impl of [crate::a::Type] names this file's [Type] when [a] is its module. *)
Definition source_name (pf : FileParsed) (rel : ParsedRelation) : string :=
  if String.eqb (pf_language pf) "rust" && String.eqb (pr_relation rel) REL_IMPLEMENTS then
    match strip_prefix "crate::" (pr_source_name rel) with
    | None => pr_source_name rel
    | Some rest =>
        let segments := split_colons rest in
        let here := match rust_crate_layout (pf_rel_path pf) with Some (_, _, m) => m | None => [] end in
        if bool_decide (removelast segments = here) then default "" (last segments) else pr_source_name rel
    end
  else pr_source_name rel.

Definition source_rows (pf : FileParsed) (rel : ParsedRelation) : list nat :=
  let rust_impl := String.eqb (pf_language pf) "rust" && String.eqb (pr_relation rel) REL_IMPLEMENTS in
  filter (λ i, let kind := default "" (pf_node_types pf !! i) in
               negb (supertype (pr_relation rel) && one_of ["function"; "method"] kind || rust_impl && String.eqb kind "interface") = true)
    (default [] (nodes_named pf !! source_name pf rel)).

Definition innermost (pf : FileParsed) (line : Z) (rows : list nat) : option nat :=
  let lines i := default (0, 0)%Z (pf_node_lines pf !! i) in
  min_by_key (λ i, (lines i).2 - (lines i).1)%Z
    (filter (λ i, ((lines i).1 <=? line)%Z && (line <=? (lines i).2)%Z = true) rows).

Definition source_ids_of (pf : FileParsed) (rel : ParsedRelation) : list Z :=
  let rows := source_rows pf rel in
  let rows := if 1 <? length rows
              then match line ← pr_source_line rel; innermost pf line rows with Some i => [i] | None => rows end
              else rows in
  omap (λ i, pf_node_ids pf !! i) rows.

(** A route whose handler is no node of this file: one of the same language, by name. *)
Definition route_sources (P : Pools) (pf : FileParsed) (rel : ParsedRelation) : list Z :=
  refine_ambiguous_targets (pf_rel_path pf) (node_id_to_path P)
    (filter (λ id, has_language P (pf_language pf) id = true) (ids_of P (pr_source_name rel))).

(** *** Imports *)

Definition to_module_node (P : Pools) (file : string) : Outcome :=
  let targets := module_node_of (name_to_ids P) (node_id_to_path P) file in
  if bool_decide (targets = []) then Defer None else Write targets false.

Definition marker_import (P : Pools) (pf : FileParsed) (meta : json) : option Outcome :=
  if q_in meta [IMPORT_Q_NS_REQUIRE; IMPORT_Q_NS_IMPORT; IMPORT_Q_STAR_REEXPORT; IMPORT_Q_DEFAULT] then
    Some (match spec ← get_str meta "js_module"; resolve_js_specifier_path all_file_paths spec (pf_rel_path pf) with
          | Some file => to_module_node P file
          | None => Defer None
          end)
  else None.

(** The nodes of the module's files, less the methods for an attribute. *)
Definition python_targets (P : Pools) (st : Store) (meta : json) (module_files : list string) (target_name : string) : option (list Z) :=
  let is_module_import := default false (get meta "is_module_import" ≫= as_bool) in
  ids ← resolve_python_module_targets module_files is_module_import target_name (node_id_to_path P) (name_to_ids P);
  if bool_decide (is_Some (get meta "attr")) then
    let ids := module_attribute_ids (project st) ids in
    if bool_decide (ids = []) then None else Some ids
  else Some ids.

Definition python_import (P : Pools) (st : Store) (pf : FileParsed) (rel : ParsedRelation) (meta : json) : option Outcome :=
  python_module ← get_str meta "python_module";
  Some (match project_module_files_from python_module (pf_rel_path pf) python_module_map with
        | Some module_files =>
            match python_targets P st meta module_files (pr_target_name rel) with
            | Some targets => Write targets false
            | None => Defer None
            end
        | None => ExternalModule python_module
        end).

Definition js_import (P : Pools) (pf : FileParsed) (rel : ParsedRelation) (meta : json) : option Outcome :=
  js_module ← get_str meta "js_module";
  match resolve_js_module_targets all_file_paths js_module (pf_rel_path pf) (pr_target_name rel) (name_to_ids P) (node_id_to_path P) with
  | Some targets => Some (Write targets false)
  | None => if bool_decide (is_Some (resolve_js_specifier_path all_file_paths js_module (pf_rel_path pf)))
            then Some (Defer None) else None
  end.

Definition php_include (P : Pools) (pf : FileParsed) (meta : json) : option Outcome :=
  inc ← get_str meta "php_include"; file ← resolve_php_include_path all_file_paths inc (pf_rel_path pf); Some (to_module_node P file).

Definition c_include (P : Pools) (pf : FileParsed) (meta : json) : option Outcome :=
  inc ← get_str meta "c_include"; file ← resolve_c_include_path all_file_paths inc (pf_rel_path pf); Some (to_module_node P file).

(** The first of the forms that decides. *)
Definition import_outcome (P : Pools) (st : Store) (pf : FileParsed) (rel : ParsedRelation) : option Outcome :=
  if String.eqb (pr_relation rel) REL_IMPORTS then
    meta ← pr_metadata rel ≫= from_str;
    match marker_import P pf meta with
    | Some o => Some o
    | None =>
        match python_import P st pf rel meta with
        | Some o => Some o
        | None =>
            match js_import P pf rel meta with
            | Some o => Some o
            | None => match php_include P pf meta with Some o => Some o | None => c_include P pf meta end
            end
        end
    end
  else None.

Definition is_impl_method (rel : ParsedRelation) : bool :=
  String.eqb (pr_relation rel) REL_IMPLEMENTS
  && match pr_metadata rel ≫= from_str with
     | Some meta => bool_decide (get_str meta "q" = Some "impl_method") && bool_decide (is_Some (get_str meta "v"))
     | None => false
     end.

(** *** Calls *)

(** A call on an object of unknown class: the one method of this file, or all methods are asked later. *)
Definition method_outcome (P : Pools) (st : Store) (pf : FileParsed) (rel : ParsedRelation) : Outcome :=
  if is_cross_file_call_noise (pr_target_name rel) (pf_language pf) then Dropped
  else
    let all := retain_rust_call_shape from_str pf rel (ids_of P (pr_target_name rel)) in
    let same_lang := filter (λ id, has_language P (pf_language pf) id = true) all in
    match filter (λ id, id ∈ local_ids pf) (method_candidates st like_esc same_lang) with
    | [id] => Write [id] false
    | [] => Defer None
    | _ => Dropped
    end.

(** What the metadata of a call decides, and the modules asked for. *)
Definition call_outcome (P : Pools) (st : Store) (pf : FileParsed) (rel : ParsedRelation) (seen : gmap string bool)
    : option Outcome * gmap string bool :=
  if negb (String.eqb (pr_relation rel) REL_CALLS) then (None, seen)
  else if String.eqb (pf_language pf) "rust" && match pr_metadata rel with Some m => contains (json_key "rt") m | None => false end
  then (Some (Defer None), seen)
  else match parse_callee_metadata from_str (pr_metadata rel) with
  | Some (ModuleCall module) =>
      let '(known, seen) := py_contains module seen in (if known then None else Some Dropped, seen)
  | Some (Import _ _) => (Some (Defer None), seen)
  | Some (Receiver recv) =>
      if one_of JS_LANGUAGES (pf_language pf) then
        match ns_module_map pf !! recv with
        | None => (None, seen)
        | Some module_file =>
            let targets := filter (λ id, in_file P module_file id = true) (ids_of P (pr_target_name rel)) in
            (Some (if bool_decide (targets = []) then Defer (Some module_file) else Write targets false), seen)
        end
      else (Some (method_outcome P st pf rel), seen)
  | Some Chain => (Some (method_outcome P st pf rel), seen)
  | Some (SelfRecv _) | Some (SelfType _) | Some (RecvType _) | Some (SuperType _) | Some (Field _ _ _) | Some Via | Some (Path _) =>
      (Some (Defer None), seen)
  | Some Member | None => (None, seen)
  end.

(** *** By name *)

(** The memory of the pass. *)
Record Memo := mkMemo {
  m_callables : option (gset Z);
  m_pools : gmap string (list Z);
  m_py_seen : gmap string bool;
}.
Definition no_memo : Memo := mkMemo None ∅ ∅.

Definition name_candidates (P : Pools) (st : Store) (pf : FileParsed) (rel : ParsedRelation) (m : Memo) : list Z * Memo :=
  let all := ids_of P (pr_target_name rel) in
  let '(all, m) :=
    if String.eqb (pr_relation rel) REL_CALLS then
      let '(pool, pools) := member_call_pool like from_str st (pr_metadata rel) (pr_target_name rel) all (m_pools m) in
      (retain_rust_call_shape from_str pf rel pool, mkMemo (m_callables m) pools (m_py_seen m))
    else (all, m) in
  if supertype (pr_relation rel) then
    let callables := default (callable_node_ids st) (m_callables m) in
    (filter (λ id, id ∉ callables) all, mkMemo (Some callables) (m_pools m) (m_py_seen m))
  else (all, m).

Definition same_file_targets (pf : FileParsed) (rel : ParsedRelation) (all : list Z) : list Z :=
  if is_package_bound from_str (pr_metadata rel) then []
  else visible_same_file_targets (filter (λ id, id ∈ local_ids pf) all) rel pf.

Definition default_outcome (pf : FileParsed) (rel : ParsedRelation) (same_file : list Z) : Outcome :=
  if negb (bool_decide (same_file = [])) then
    if String.eqb (pr_relation rel) REL_CALLS && module_call_skips_own_file from_str (pr_metadata rel) then Dropped
    else Write (cpp_implicit_this_members (pf_language pf) rel same_file (local_qualified pf)) (String.eqb (pr_relation rel) REL_ROUTES_TO)
  else if String.eqb (pr_relation rel) REL_CALLS && is_cross_file_call_noise (pr_target_name rel) (pf_language pf) then Dropped
  else Defer None.

(** The chain of a relation with its sources. *)
Definition relation_outcome (P : Pools) (st : Store) (pf : FileParsed) (rel : ParsedRelation) (m : Memo) : Outcome * Memo :=
  match import_outcome P st pf rel with
  | Some o => (o, m)
  | None =>
      if is_impl_method rel then (Defer None, m)
      else
        let '(o, seen) := call_outcome P st pf rel (m_py_seen m) in
        let m := mkMemo (m_callables m) (m_pools m) seen in
        match o with
        | Some o => (o, m)
        | None =>
            if String.eqb (pr_relation rel) REL_IMPORTS && is_external_import_meta (pr_metadata rel) then (ExternalSymbol, m)
            else let '(all, m) := name_candidates P st pf rel m in (default_outcome pf rel (same_file_targets pf rel all), m)
        end
  end.

(** The sources, and what becomes of the relation. *)
Definition resolve_relation (P : Pools) (st : Store) (pf : FileParsed) (rel : ParsedRelation) (m : Memo) : list Z * (Outcome * Memo) :=
  let own := source_ids_of pf rel in
  if String.eqb (pr_relation rel) REL_ROUTES_TO && bool_decide (own = []) then
    let found := route_sources P pf rel in
    if bool_decide (found = []) then ([], (Defer None, m)) else (found, relation_outcome P st pf rel m)
  else (own, relation_outcome P st pf rel m).

(** *** The pass *)

Record BatchRelations := mkBatchRelations {
  br_edges_created : nat;
  br_external_python_imports : list (Z * string);
  br_unresolved_externals : list ExternalRef;
}.

Record BatchPass := mkPass {
  bp_store : Store;
  bp_written : WrittenFanouts;
  bp_memo : Memo;
  bp_deferred : list DeferredRelation;
  bp_relations : BatchRelations;
}.

(** [DeferredRelation::of] *)
Definition deferred_from (source_ids : list Z) (rel : ParsedRelation) (pf : FileParsed) (ns_file : option string) : DeferredRelation :=
  mkDeferred source_ids (pr_source_name rel) (pr_target_name rel) (pr_relation rel) (pr_metadata rel) (pf_rel_path pf)
    (pf_language pf) ns_file.

Definition perform (pf : FileParsed) (rel : ParsedRelation) (source_ids : list Z) (o : Outcome) (s : BatchPass)
    : result string BatchPass :=
  let '(mkPass st w m deferred (mkBatchRelations n py ext)) := s in
  match o with
  | Write targets allow_self =>
      (let? (created, w, st) := insert_relation_edges (source_ids, targets, pr_relation rel, pr_metadata rel, allow_self) w st in
       Ok (mkPass st w m deferred (mkBatchRelations (n + created) py ext)))%cg
  | Defer ns_file => Ok (mkPass st w m (deferred ++ [deferred_from source_ids rel pf ns_file]) (mkBatchRelations n py ext))
  | ExternalModule module =>
      Ok (mkPass st w m deferred (mkBatchRelations n (py ++ ((λ id, (id, module)) <$> source_ids)) ext))
  | ExternalSymbol =>
      Ok (mkPass st w m deferred
            (mkBatchRelations n py (ext ++ ((λ id, (id, pr_target_name rel, pr_relation rel, None)) <$> source_ids))))
  | Dropped => Ok s
  end.

Definition resolve_one (P : Pools) (pf : FileParsed) (rel : ParsedRelation) (s : BatchPass) : result string BatchPass :=
  if negb (String.eqb (pr_source_language rel) (pf_language pf)) then
    Err ("ParsedRelation.source_language (" +:+ pr_source_language rel +:+ ") does not match file language (" +:+ pf_language pf
         +:+ "); parser regressed the source_language contract")
  else
    let '(source_ids, (o, m)) := resolve_relation P (bp_store s) pf rel (bp_memo s) in
    perform pf rel source_ids o (mkPass (bp_store s) (bp_written s) m (bp_deferred s) (bp_relations s)).

Definition resolve_file (P : Pools) (pf : FileParsed) (s : BatchPass) : result string BatchPass :=
  (let? st := if String.eqb (pf_language pf) "cpp" then record_cpp_fields pf (bp_store s) else Ok (bp_store s) in
   let? st := record_js_export_entries pf st in
   try_fold (resolve_one P pf) (pf_relations pf)
     (mkPass st (enter (pf_rel_path pf) (bp_written s)) (bp_memo s) (bp_deferred s) (bp_relations s)))%cg.

Definition resolve_batch_relations (batch_parsed : list FileParsed) (batch_file_paths : gset string) (global_name_map : NameMap)
    (deferred : list DeferredRelation) (st : Store) : result string (BatchRelations * list DeferredRelation * Store) :=
  (let? s := try_fold (resolve_file (batch_pools batch_parsed batch_file_paths global_name_map)) batch_parsed
               (mkPass st nothing_written no_memo deferred (mkBatchRelations 0 [] [])) in
   Ok (bp_relations s, bp_deferred s, bp_store s))%cg.
End Relation.

(** * Properties *)

(** ** Candidates are nodes *)

Definition pools_in (P : Pools) (st : Store) : Prop := ∀ name id, id ∈ ids_of P name → id ∈ node_ids st.

Lemma refined_in caller m candidates id : id ∈ refine_ambiguous_targets caller m candidates → id ∈ candidates.
Proof. intros Hid. by apply refine_ambiguous_targets_ok in Hid as [? _]. Qed.

Lemma module_nodes_in P file id : id ∈ module_node_of (name_to_ids P) (node_id_to_path P) file → id ∈ ids_of P MODULE_NODE_NAME.
Proof. by intros [_ ?]%list_elem_of_filter. Qed.

Lemma python_module_targets_in P files m name ids id :
  resolve_python_module_targets files m name (node_id_to_path P) (name_to_ids P) = Some ids → id ∈ ids → ∃ name, id ∈ ids_of P name.
Proof.
  unfold resolve_python_module_targets. destruct (name_to_ids P !! _) as [all|] eqn:Hall; [|done]. cbn [mbind option_bind].
  case_bool_decide; [done|]. intros [= <-] [_ Hid]%list_elem_of_filter. eexists. unfold ids_of. by rewrite Hall.
Qed.

Lemma python_targets_in P st meta files name ids id : python_targets P st meta files name = Some ids → id ∈ ids → ∃ name, id ∈ ids_of P name.
Proof.
  unfold python_targets. destruct (resolve_python_module_targets _ _ _ _ _) as [all|] eqn:Hall; [|done]. cbn [mbind option_bind].
  case_bool_decide; [case_bool_decide; [done|]|]; intros [= <-]; [intros [_ Hid]%list_elem_of_filter|intros Hid];
    by eapply python_module_targets_in.
Qed.

Lemma js_module_targets_in fs spec importer name P ids id :
  resolve_js_module_targets fs spec importer name (name_to_ids P) (node_id_to_path P) = Some ids → id ∈ ids → id ∈ ids_of P name.
Proof.
  unfold resolve_js_module_targets. destruct (resolve_js_specifier_path _ _ _) as [file|]; [|done]. cbn [mbind option_bind].
  destruct (name_to_ids P !! name) as [all|] eqn:Hall; [|done]. cbn [mbind option_bind].
  case_bool_decide; [done|]. intros [= <-] [_ Hid]%list_elem_of_filter. unfold ids_of. by rewrite Hall.
Qed.

Lemma chunk_nodes_in st c id : id ∈ node_id_of <$> nodes_of_chunk st c → id ∈ node_ids st.
Proof. intros (n & -> & [_ Hn]%list_elem_of_filter)%list_elem_of_fmap. by apply list_elem_of_fmap_2. Qed.

Lemma methods_in st like_esc ids id : id ∈ method_candidates st like_esc ids → id ∈ node_ids st.
Proof.
  intros (c & (n & -> & [_ [_ Hn]%list_elem_of_filter]%list_elem_of_filter)%list_elem_of_fmap)%in_chunks_elem.
  by apply list_elem_of_fmap_2.
Qed.

Lemma non_functions_in st like ids id : id ∈ filter_out_function_ids like st ids → id ∈ node_ids st.
Proof.
  intros (c & (n & -> & [_ [_ Hn]%list_elem_of_filter]%list_elem_of_filter)%list_elem_of_fmap)%in_chunks_elem.
  by apply list_elem_of_fmap_2.
Qed.

Lemma retained_in from_str pf rel ids id : id ∈ retain_rust_call_shape from_str pf rel ids → id ∈ ids.
Proof. unfold retain_rust_call_shape. destruct (negb _); [done|]. by intros [_ ?]%list_elem_of_filter. Qed.

Lemma visible_in targets rel pf id : id ∈ visible_same_file_targets targets rel pf → id ∈ targets.
Proof. apply visible_same_file_targets_ok. Qed.

Lemma implicit_in lang rel ts q id : id ∈ cpp_implicit_this_members lang rel ts q → id ∈ ts.
Proof.
  unfold cpp_implicit_this_members. destruct (_ || _); [done|]. destruct (rsplit_once _ _) as [[class ?]|]; [|done].
  destruct (String.eqb _ _); [done|]. case_bool_decide; [done|]. by intros [_ ?]%list_elem_of_filter.
Qed.

(** ** Decisions *)

Section Decide.
Context (like like_esc : string → string → bool) (from_str : string → option json).
Context (python_module_map : gmap string (list string)) (all_file_paths : gset string) (P : Pools).
#[local] Abbreviation imports_ := (import_outcome from_str python_module_map all_file_paths P).
#[local] Abbreviation calls_ := (call_outcome like_esc from_str python_module_map all_file_paths P).
#[local] Abbreviation names_ := (name_candidates like from_str P).
#[local] Abbreviation outcome := (relation_outcome like like_esc from_str python_module_map all_file_paths P).
#[local] Abbreviation resolved := (resolve_relation like like_esc from_str python_module_map all_file_paths P).

(** A decision reads the nodes of the store only. *)
Lemma resolved_nodes st st' pf rel m : s_nodes st' = s_nodes st → resolved st' pf rel m = resolved st pf rel m.
Proof.
  intros Hn.
  assert (imports_ st' pf rel = imports_ st pf rel) as Hi.
  { unfold import_outcome, python_import, python_targets, module_attribute_ids, project. cbn [db_nodes]. by rewrite Hn. }
  assert (∀ seen, calls_ st' pf rel seen = calls_ st pf rel seen) as Hca.
  { intros seen. unfold call_outcome, method_outcome, method_candidates, filter_method_ids, in_chunks, nodes_of_chunk. by rewrite Hn. }
  assert (∀ m, names_ st' pf rel m = names_ st pf rel m) as Hna.
  { intros m'. unfold name_candidates, member_call_pool, filter_out_function_ids, in_chunks, callable_node_ids.
    unfold nodes_of_chunk. by rewrite Hn. }
  assert (outcome st' pf rel m = outcome st pf rel m) as Ho.
  { unfold relation_outcome. rewrite Hi, Hca. destruct (imports_ st pf rel); [done|]. destruct (is_impl_method _ _); [done|].
    destruct (calls_ st pf rel (m_py_seen m)) as [[o|] seen]; [done|]. by rewrite Hna. }
  unfold resolve_relation. by rewrite Ho.
Qed.

(** What the memory holds is what would be read. *)
Record memo_ok (st : Store) (m : Memo) : Prop := mkMemoOk {
  mo_callables : ∀ c, m_callables m = Some c → c = callable_node_ids st;
  mo_pools : ∀ name pool, m_pools m !! name = Some pool → pool = filter_out_function_ids like st (ids_of P name);
  mo_seen : ∀ k b, m_py_seen m !! k = Some b → b = module_known python_module_map k;
}.

Lemma no_memo_ok st : memo_ok st no_memo.
Proof. split; intros; cbn in *; by simplify_map_eq. Qed.

Lemma py_contains_ok module seen :
  (∀ k b, seen !! k = Some b → b = module_known python_module_map k) →
  (py_contains python_module_map module seen).1 = module_known python_module_map module
  ∧ ∀ k b, (py_contains python_module_map module seen).2 !! k = Some b → b = module_known python_module_map k.
Proof.
  intros Hs. unfold py_contains. destruct (seen !! module) as [known|] eqn:Hm; cbn [fst snd].
  - split; [by apply Hs|done].
  - split; [done|]. intros k b [[-> <-]|[_ ?]]%lookup_insert_Some; [done|by apply Hs].
Qed.

Lemma call_outcome_memo st pf rel seen :
  (∀ k b, seen !! k = Some b → b = module_known python_module_map k) →
  (calls_ st pf rel seen).1 = (calls_ st pf rel ∅).1
  ∧ ∀ k b, (calls_ st pf rel seen).2 !! k = Some b → b = module_known python_module_map k.
Proof.
  intros Hs. unfold call_outcome. destruct (negb _); [done|]. destruct (_ && _); [done|].
  destruct (parse_callee_metadata _ _) as [[]|]; try done.
  - destruct (one_of _ _); [|done]. by destruct (_ !! _).
  - pose proof (py_contains_ok m seen Hs) as [H1 H2].
    pose proof (py_contains_ok m ∅ ltac:(by intros ?? ?%lookup_empty_Some)) as [H3 _].
    destruct (py_contains _ m seen), (py_contains _ m ∅). cbn [fst snd] in *. by subst.
Qed.

Lemma name_candidates_memo st pf rel m :
  memo_ok st m → (names_ st pf rel m).1 = (names_ st pf rel no_memo).1 ∧ memo_ok st (names_ st pf rel m).2.
Proof.
  intros Hm. unfold name_candidates.
  assert (∃ pool pools, member_call_pool like from_str st (pr_metadata rel) (pr_target_name rel) (ids_of P (pr_target_name rel)) (m_pools m)
      = (pool, pools)
    ∧ (member_call_pool like from_str st (pr_metadata rel) (pr_target_name rel) (ids_of P (pr_target_name rel)) ∅).1 = pool
    ∧ ∀ name p, pools !! name = Some p → p = filter_out_function_ids like st (ids_of P name)) as (pool & pools & Heq & Hno & Hp).
  { unfold member_call_pool. destruct (negb _); [by eexists _, _; split; [reflexivity|split; [done|apply Hm]]|].
    rewrite lookup_empty. destruct (m_pools m !! _) as [p|] eqn:Hl.
    - eexists _, _. split; [reflexivity|]. split; [symmetry; by apply Hm|apply Hm].
    - eexists _, _. split; [reflexivity|]. split; [done|].
      intros name p [[<- <-]|[_ ?]]%lookup_insert_Some; [done|by apply Hm]. }
  change (m_pools no_memo) with (∅ : gmap string (list Z)). rewrite Heq.
  destruct (member_call_pool _ _ _ _ _ _ ∅) as [pool0 pools0]. cbn [fst] in Hno. subst pool0.
  assert (default (callable_node_ids st) (m_callables m) = callable_node_ids st) as Hc.
  { destruct (m_callables m) as [c|] eqn:Hcm; [|done]. cbn. by apply Hm. }
  destruct (String.eqb (pr_relation rel) REL_CALLS), (supertype (pr_relation rel)); cbn [m_callables m_pools m_py_seen fst snd no_memo];
    rewrite ?Hc; cbn [default]; (split; [done|]); split; cbn [m_callables m_pools m_py_seen]; try apply Hm; try done; by intros ? [= <-].
Qed.

(** The memory changes nothing. *)
Lemma resolved_memo st pf rel m :
  memo_ok st m →
  (resolved st pf rel m).1 = (resolved st pf rel no_memo).1
  ∧ (resolved st pf rel m).2.1 = (resolved st pf rel no_memo).2.1 ∧ memo_ok st (resolved st pf rel m).2.2.
Proof.
  intros Hm.
  assert ((outcome st pf rel m).1 = (outcome st pf rel no_memo).1 ∧ memo_ok st (outcome st pf rel m).2) as [Ho Hm'].
  { unfold relation_outcome. destruct (imports_ st pf rel); [done|]. destruct (is_impl_method _ _); [done|].
    pose proof (call_outcome_memo st pf rel (m_py_seen m) (mo_seen _ _ Hm)) as [Hc1 Hc2].
    change (m_py_seen no_memo) with (∅ : gmap string bool).
    pose proof (call_outcome_memo st pf rel ∅ ltac:(by intros ?? ?%lookup_empty_Some)) as [_ Hc3].
    destruct (calls_ st pf rel (m_py_seen m)) as [o seen], (calls_ st pf rel ∅) as [o' seen']. cbn [fst snd] in *. subst o'.
    assert (memo_ok st (mkMemo (m_callables m) (m_pools m) seen)) as Hm1 by (split; [apply Hm|apply Hm|done]).
    destruct o as [o|]; [done|]. destruct (_ && _); [done|].
    pose proof (name_candidates_memo st pf rel _ Hm1) as [H1 H2].
    assert (memo_ok st (mkMemo (m_callables no_memo) (m_pools no_memo) seen')) as Hm2 by (split; [done|done|exact Hc3]).
    pose proof (name_candidates_memo st pf rel _ Hm2) as [H3 _].
    destruct (names_ st pf rel (mkMemo (m_callables m) (m_pools m) seen)) as [all m'],
      (names_ st pf rel (mkMemo (m_callables no_memo) (m_pools no_memo) seen')) as [all' m'']. cbn [fst snd] in *. split; [|done].
    congruence. }
  unfold resolve_relation. destruct (_ && _); [case_bool_decide|]; by cbn [fst snd].
Qed.

Context (st : Store) (HP : pools_in P st).

Lemma module_write_in file targets self id : to_module_node P file = Write targets self → id ∈ targets → id ∈ node_ids st.
Proof. unfold to_module_node. case_bool_decide; [done|]. intros [= <- <-] Hid%module_nodes_in. by eapply HP. Qed.

Lemma import_write_in pf rel targets self id : imports_ st pf rel = Some (Write targets self) → id ∈ targets → id ∈ node_ids st.
Proof.
  unfold import_outcome. destruct (String.eqb _ _); [|done]. destruct (pr_metadata rel ≫= from_str) as [meta|]; [|done]. cbn [mbind option_bind].
  unfold marker_import. destruct (q_in _ _).
  { intros [= Ho]. destruct (get_str meta "js_module" ≫= _); [by eapply module_write_in|done]. }
  unfold python_import. destruct (get_str meta "python_module") as [pm|]; cbn [mbind option_bind].
  { intros [= Ho]. destruct (project_module_files_from _ _ _) as [files|]; [|done].
    destruct (python_targets _ _ _ _ _) as [ids|] eqn:Hp; [|done]. injection Ho as <- <-. intros Hid.
    destruct (python_targets_in _ _ _ _ _ _ _ Hp Hid) as [name Hin]. by eapply HP. }
  unfold js_import. destruct (match get_str meta "js_module" ≫= _ with Some o => Some o | None => _ end) as [o|] eqn:Ho; [|done].
  intros [= ->]. revert Ho.
  destruct (get_str meta "js_module" ≫= _) as [o|] eqn:Hj.
  { intros [= ->]. destruct (get_str meta "js_module") as [spec|]; [|done]. cbn [mbind option_bind] in Hj.
    destruct (resolve_js_module_targets _ _ _ _ _ _) as [ids|] eqn:Hr; [|by case_bool_decide].
    injection Hj as <- <-. intros Hid. eapply HP. by eapply js_module_targets_in. }
  unfold php_include, c_include.
  destruct (get_str meta "php_include" ≫= _) as [o|] eqn:Hphp.
  { intros [= ->]. destruct (get_str meta "php_include") as [inc|]; [|done]. cbn [mbind option_bind] in Hphp.
    destruct (resolve_php_include_path _ _ _) as [file|]; [|done]. injection Hphp as Ho. by eapply module_write_in. }
  destruct (get_str meta "c_include") as [inc|]; [|done]. cbn [mbind option_bind].
  destruct (resolve_c_include_path _ _ _) as [file|]; [|done]. intros [= Ho]. by eapply module_write_in.
Qed.

Lemma method_write_in pf rel targets self id : method_outcome like_esc from_str P st pf rel = Write targets self → id ∈ targets → id ∈ node_ids st.
Proof.
  unfold method_outcome. destruct (is_cross_file_call_noise _ _); [done|].
  destruct (filter _ (method_candidates _ _ _)) as [|x [|y l]] eqn:Hf; [done| |done]. intros [= <- <-] ->%list_elem_of_singleton.
  assert (x ∈ [x]) as Hx by by left. rewrite <-Hf in Hx. apply list_elem_of_filter in Hx as [_ Hx]. by eapply methods_in.
Qed.

Lemma call_write_in pf rel seen targets self id :
  (calls_ st pf rel seen).1 = Some (Write targets self) → id ∈ targets → id ∈ node_ids st.
Proof.
  unfold call_outcome. destruct (negb _); [done|]. destruct (_ && _); [done|].
  destruct (parse_callee_metadata _ _) as [[]|]; try done; cbn [fst].
  - destruct (one_of _ _); cbn [fst]; [|intros [= Ho]; by eapply method_write_in].
    destruct (_ !! _) as [file|]; [|done]. cbn [fst]. case_bool_decide; [done|]. intros [= <- <-] [_ Hid]%list_elem_of_filter. by eapply HP.
  - intros [= Ho]. by eapply method_write_in.
  - destruct (py_contains _ _ _) as [[] ?]; done.
Qed.

Lemma name_candidates_in pf rel m id : memo_ok st m → id ∈ (names_ st pf rel m).1 → id ∈ node_ids st.
Proof.
  intros Hm. rewrite (proj1 (name_candidates_memo st pf rel m Hm)). unfold name_candidates.
  assert (∀ x, x ∈ (member_call_pool like from_str st (pr_metadata rel) (pr_target_name rel) (ids_of P (pr_target_name rel)) ∅).1 →
    x ∈ node_ids st) as Hp.
  { intros x. unfold member_call_pool. destruct (negb _); [apply HP|]. rewrite lookup_empty. apply non_functions_in. }
  change (m_pools no_memo) with (∅ : gmap string (list Z)). destruct (member_call_pool _ _ _ _ _ _ ∅) as [pool pools]. cbn [fst] in Hp.
  destruct (String.eqb _ _), (supertype _); cbn [fst].
  - intros [_ Hid%retained_in]%list_elem_of_filter. by apply Hp.
  - intros Hid%retained_in. by apply Hp.
  - intros [_ Hid]%list_elem_of_filter. by eapply HP.
  - apply HP.
Qed.

(** The targets and sources of a written relation are nodes. *)
Lemma resolved_in pf rel sources o m targets self :
  (∀ id, id ∈ pf_node_ids pf → id ∈ node_ids st) → resolved st pf rel no_memo = (sources, (o, m)) →
  (∀ id, id ∈ sources → id ∈ node_ids st) ∧ (o = Write targets self → ∀ id, id ∈ targets → id ∈ node_ids st).
Proof.
  intros Hpf. assert (∀ targets self id, (outcome st pf rel no_memo).1 = Write targets self → id ∈ targets → id ∈ node_ids st) as Hout.
  { intros ts sf id. unfold relation_outcome. destruct (imports_ st pf rel) as [o'|] eqn:Hi.
    { cbn [fst]. intros ->. by eapply import_write_in. }
    destruct (is_impl_method _ _); [done|]. pose proof (call_write_in pf rel (m_py_seen no_memo) ts sf id) as Hc.
    pose proof (call_outcome_memo st pf rel (m_py_seen no_memo) (mo_seen _ _ (no_memo_ok st))) as [_ Hc2].
    destruct (calls_ st pf rel (m_py_seen no_memo)) as [[o'|] seen]; cbn [fst snd] in *.
    { intros ->. by apply Hc. }
    destruct (_ && _); [done|].
    assert (memo_ok st (mkMemo (m_callables no_memo) (m_pools no_memo) seen)) as Hm by (split; [done|done|exact Hc2]).
    pose proof (name_candidates_in pf rel _ id Hm) as Hn. destruct (names_ st pf rel _) as [all m']. cbn [fst] in *.
    unfold default_outcome. destruct (negb _); [destruct (_ && _); [done|]|by destruct (_ && _)].
    intros [= <- <-] Hid%implicit_in. apply Hn. unfold same_file_targets in Hid. destruct (is_package_bound _ _); [by apply elem_of_nil in Hid|].
    apply visible_in in Hid. by apply list_elem_of_filter in Hid as [_ ?]. }
  assert (∀ id, id ∈ source_ids_of pf rel → id ∈ node_ids st) as Hs.
  { intros id. unfold source_ids_of. intros (i & _ & Hid)%list_elem_of_omap. apply Hpf. by eapply list_elem_of_lookup_2. }
  assert (∀ id, id ∈ route_sources P pf rel → id ∈ node_ids st) as Hr.
  { intros id. unfold route_sources. intros [_ Hid]%refined_in%list_elem_of_filter. by eapply HP. }
  unfold resolve_relation. destruct (_ && _); [case_bool_decide|]; intros Heq.
  - injection Heq as <- <- <-. split; [by intros ? ?%elem_of_nil|done].
  - injection Heq as <- Ho. split; [exact Hr|]. intros -> id. apply (Hout targets self). by rewrite Ho.
  - injection Heq as <- Ho. split; [exact Hs|]. intros -> id. apply (Hout targets self). by rewrite Ho.
Qed.
End Decide.

(** ** The pools of a batch *)

Lemma add_node_ids name e P x id : id ∈ ids_of (add_node name e P) x ↔ id ∈ ids_of P x ∨ x = name ∧ id = e.1.1.
Proof.
  destruct e as [[i path] lang]. unfold ids_of, add_node, push_to. cbn [name_to_ids fst snd]. destruct (decide (x = name)) as [->|Hne].
  - rewrite lookup_insert_eq. cbn. rewrite elem_of_app, list_elem_of_singleton. tauto.
  - rewrite lookup_insert_ne by done. tauto.
Qed.

Lemma add_file_ids P pf x id : id ∈ ids_of (add_file P pf) x ↔ id ∈ ids_of P x ∨ (id, x) ∈ zip (pf_node_ids pf) (pf_node_names pf).
Proof.
  unfold add_file. generalize (zip (pf_node_ids pf) (pf_node_names pf)) as l. intros l. revert P.
  induction l as [|[i n] l IH]; intros P; cbn [foldl]; [rewrite elem_of_nil; tauto|].
  rewrite IH, add_node_ids, elem_of_cons. cbn [fst snd]. split; [|naive_solver]. intros [[?|[-> ->]]|?]; auto.
Qed.

Lemma add_entries_ids paths P entries x id :
  id ∈ ids_of (add_entries paths P entries) x
  ↔ id ∈ ids_of P x ∨ x = entries.1 ∧ ∃ path lang, (id, path, lang) ∈ entries.2 ∧ path ∉ paths.
Proof.
  destruct entries as [name l]. unfold add_entries. cbn [fst snd]. revert P. induction l as [|[[i path] lang] l IH]; intros P; cbn [foldl].
  { split; [by left|]. intros [?|(_ & ? & ? & ?%elem_of_nil & _)]; done. }
  rewrite IH. cbn [fst snd]. case_bool_decide as Hp; [|rewrite add_node_ids; cbn [fst]]; split.
  - intros [?|(-> & p & la & ? & ?)]; [by left|]. right. split; [done|]. exists p, la. split; [by right|done].
  - intros [?|(-> & p & la & [[= -> -> ->]|Hin]%elem_of_cons & ?)]; [by left|done|]. right. split; [done|]. by exists p, la.
  - intros [[?|[-> ->]]|(-> & p & la & ? & ?)]; [by left| |]; right; (split; [done|]).
    + exists path, lang. split; [by left|done].
    + exists p, la. split; [by right|done].
  - intros [?|(-> & p & la & [[= -> -> ->]|Hin]%elem_of_cons & ?)]; [by left; left|by left; right|]. right. split; [done|]. by exists p, la.
Qed.

Lemma elem_of_sort_dedup l id : id ∈ sort_dedup l ↔ id ∈ l.
Proof. unfold sort_dedup, sort_cmp. rewrite elem_of_sort_by. apply elem_of_remove_dups. Qed.

(** The nodes of the batch by name, and those of the other files. *)
Lemma batch_pools_ids batch paths map name id :
  id ∈ ids_of (batch_pools batch paths map) name
  ↔ (∃ pf, pf ∈ batch ∧ (id, name) ∈ zip (pf_node_ids pf) (pf_node_names pf))
    ∨ ∃ l path lang, map !! name = Some l ∧ (id, path, lang) ∈ l ∧ path ∉ paths.
Proof.
  assert (∀ entries P, id ∈ ids_of (foldl (add_entries paths) P entries) name
    ↔ id ∈ ids_of P name ∨ ∃ l path lang, (name, l) ∈ entries ∧ (id, path, lang) ∈ l ∧ path ∉ paths) as He.
  { intros entries. induction entries as [|[n l] entries IH]; intros P; cbn [foldl].
    - split; [by left|]. by intros [?|(? & ? & ? & ?%elem_of_nil & _)].
    - rewrite IH, add_entries_ids. cbn [fst snd]. setoid_rewrite elem_of_cons. split.
      + intros [[?|(-> & p & la & ? & ?)]|(l' & p & la & ? & ? & ?)]; [by left|right; exists l, p, la; auto|right; exists l', p, la; auto].
      + intros [?|(l' & p & la & [[= -> ->]|?] & ? & ?)]; [by left; left|left; right; eauto|right; exists l', p, la; auto]. }
  assert (∀ files P, id ∈ ids_of (foldl add_file P files) name
    ↔ id ∈ ids_of P name ∨ ∃ pf, pf ∈ files ∧ (id, name) ∈ zip (pf_node_ids pf) (pf_node_names pf)) as Hf.
  { intros files. induction files as [|pf files IH]; intros P; cbn [foldl].
    - split; [by left|]. by intros [?|(? & ?%elem_of_nil & _)].
    - rewrite IH, add_file_ids. setoid_rewrite elem_of_cons. naive_solver. }
  unfold batch_pools, sort_pools. unfold ids_of at 1. cbn [name_to_ids]. rewrite lookup_fmap.
  set (P := foldl (add_entries paths) _ _). transitivity (id ∈ ids_of P name).
  { unfold ids_of. destruct (name_to_ids P !! name) as [l|]; cbn; [by rewrite elem_of_sort_dedup|done]. }
  unfold P. rewrite He, Hf. setoid_rewrite elem_of_map_to_list.
  assert (id ∉ ids_of no_pools name) as Hno by (unfold ids_of, no_pools; cbn [name_to_ids]; rewrite lookup_empty; by intros ?%elem_of_nil).
  tauto.
Qed.

(** ** The pass *)

Section Pass.
Context (like like_esc : string → string → bool) (from_str : string → option json).
Context (python_module_map : gmap string (list string)) (all_file_paths : gset string).

(** The decision on a relation, with nothing remembered. *)
Definition decided (P : Pools) (st : Store) (x : FileParsed * ParsedRelation) : list Z * Outcome :=
  let '(sources, (o, _)) := resolve_relation like like_esc from_str python_module_map all_file_paths P st x.1 x.2 no_memo in (sources, o).

Definition edges_of (P : Pools) (st : Store) (x : FileParsed * ParsedRelation) : list (Z * Z * string * string) :=
  match decided P st x with
  | (sources, Write targets self) => fan_keys (sources, targets, pr_relation x.2, pr_metadata x.2, self)
  | _ => []
  end.
Definition deferred_of_relation (P : Pools) (st : Store) (x : FileParsed * ParsedRelation) : list DeferredRelation :=
  match decided P st x with (sources, Defer ns_file) => [deferred_from sources x.2 x.1 ns_file] | _ => [] end.
Definition modules_of (P : Pools) (st : Store) (x : FileParsed * ParsedRelation) : list (Z * string) :=
  match decided P st x with (sources, ExternalModule module) => (λ id, (id, module)) <$> sources | _ => [] end.
Definition symbols_of (P : Pools) (st : Store) (x : FileParsed * ParsedRelation) : list ExternalRef :=
  match decided P st x with
  | (sources, ExternalSymbol) => (λ id, (id, pr_target_name x.2, pr_relation x.2, None)) <$> sources
  | _ => []
  end.

Definition relations_of (batch : list FileParsed) : list (FileParsed * ParsedRelation) :=
  pf ← batch; pair pf <$> pf_relations pf.

(** What a run over some relations adds. *)
Record pass_adds (P : Pools) (st0 : Store) (xs : list (FileParsed * ParsedRelation)) (s s' : BatchPass) : Prop := mkAdds {
  pa_ok : store_ok (bp_store s');
  pa_files : s_files (bp_store s') = s_files (bp_store s);
  pa_pending : s_pending (bp_store s') = s_pending (bp_store s);
  pa_keys : ∀ k, k ∈ edge_keys (bp_store s') ↔ k ∈ edge_keys (bp_store s) ∨ k ∈ (xs ≫= edges_of P st0);
  pa_nodes : s_nodes (bp_store s') = s_nodes st0;
  pa_written : memory_true (bp_written s') (bp_store s');
  pa_memo : memo_ok like python_module_map P st0 (bp_memo s');
  pa_deferred : bp_deferred s' = bp_deferred s ++ (xs ≫= deferred_of_relation P st0);
  pa_python : br_external_python_imports (bp_relations s') = br_external_python_imports (bp_relations s) ++ (xs ≫= modules_of P st0);
  pa_symbols : br_unresolved_externals (bp_relations s') = br_unresolved_externals (bp_relations s) ++ (xs ≫= symbols_of P st0);
}.

Lemma pass_adds_trans P st0 xs ys s1 s2 s3 : pass_adds P st0 xs s1 s2 → pass_adds P st0 ys s2 s3 → pass_adds P st0 (xs ++ ys) s1 s3.
Proof.
  intros H1 H2. split; try apply H2; rewrite ?bind_app.
  - by rewrite (pa_files _ _ _ _ _ H2), (pa_files _ _ _ _ _ H1).
  - by rewrite (pa_pending _ _ _ _ _ H2), (pa_pending _ _ _ _ _ H1).
  - intros k. rewrite elem_of_app, (pa_keys _ _ _ _ _ H2), (pa_keys _ _ _ _ _ H1). tauto.
  - by rewrite (pa_deferred _ _ _ _ _ H2), (pa_deferred _ _ _ _ _ H1), app_assoc.
  - by rewrite (pa_python _ _ _ _ _ H2), (pa_python _ _ _ _ _ H1), app_assoc.
  - by rewrite (pa_symbols _ _ _ _ _ H2), (pa_symbols _ _ _ _ _ H1), app_assoc.
Qed.

Context (P : Pools) (st0 : Store) (HP : pools_in P st0).
#[local] Abbreviation one := (resolve_one like like_esc from_str python_module_map all_file_paths P).
#[local] Abbreviation file := (resolve_file like like_esc from_str python_module_map all_file_paths P).

Record pass_ok (s : BatchPass) : Prop := mkPassOk {
  po_store : store_ok (bp_store s);
  po_nodes : s_nodes (bp_store s) = s_nodes st0;
  po_written : memory_true (bp_written s) (bp_store s);
  po_memo : memo_ok like python_module_map P st0 (bp_memo s);
}.

Lemma adds_ok xs s s' : pass_adds P st0 xs s s' → pass_ok s'.
Proof. intros H. split; apply H. Qed.

Lemma no_keys {A} (l : list A) k : k ∈ l ↔ k ∈ l ∨ k ∈ [].
Proof. rewrite elem_of_nil. tauto. Qed.

#[local] Ltac adds_fields Hone Hd :=
  split; rewrite ?Hone; unfold edges_of, deferred_of_relation, modules_of, symbols_of; rewrite ?Hd;
  cbn [bp_store bp_written bp_memo bp_deferred bp_relations br_external_python_imports br_unresolved_externals fst snd];
  rewrite ?app_nil_r; try done.

Lemma resolve_one_ok pf rel s :
  pass_ok s → (∀ id, id ∈ pf_node_ids pf → id ∈ node_ids st0) → pr_source_language rel = pf_language pf →
  ∃ s', one pf rel s = Ok s' ∧ pass_adds P st0 [(pf, rel)] s s'.
Proof.
  intros [Hok Hn Hw Hm] Hpf Hlang. unfold resolve_one. rewrite Hlang, String.eqb_refl. cbn [negb].
  rewrite (resolved_nodes like like_esc from_str python_module_map all_file_paths P st0 (bp_store s) pf rel (bp_memo s) Hn).
  destruct (resolved_memo like like_esc from_str python_module_map all_file_paths P st0 pf rel (bp_memo s) Hm) as (H1 & H2 & H3).
  destruct (resolve_relation _ _ _ _ _ _ _ _ _ (bp_memo s)) as [sources [o m]].
  destruct (resolve_relation _ _ _ _ _ _ _ _ _ no_memo) as [sources0 [o0 m0]] eqn:Hr. cbn [fst snd] in *. subst sources0 o0.
  assert (decided P st0 (pf, rel) = (sources, o)) as Hd by (unfold decided; cbn [fst snd]; by rewrite Hr).
  assert (∀ {A} (f : FileParsed * ParsedRelation → list A), [(pf, rel)] ≫= f = f (pf, rel)) as Hone by (intros A f; apply app_nil_r).
  destruct s as [st w m' deferred [n py ext]]. cbn [bp_store bp_written bp_memo bp_deferred bp_relations] in *.
  destruct o as [targets self|ns|module| |]; unfold perform.
  - destruct (resolved_in like like_esc from_str python_module_map all_file_paths P st0 HP pf rel _ _ _ targets self Hpf Hr) as [Hs Ht].
    destruct (insert_relation_edges_added (sources, targets, pr_relation rel, pr_metadata rel, self) w st Hok) as (c & w' & st' & -> & Ha & Hw').
    { unfold ends_in_store, node_ids. rewrite Hn. split; [exact Hs|exact (Ht eq_refl)]. }
    { done. }
    cbn [result_bind]. eexists. split; [reflexivity|]. adds_fields Hone Hd; try apply Ha. by rewrite (ea_nodes _ _ _ Ha).
  - eexists. split; [reflexivity|]. adds_fields Hone Hd. apply no_keys.
  - eexists. split; [reflexivity|]. adds_fields Hone Hd. apply no_keys.
  - eexists. split; [reflexivity|]. adds_fields Hone Hd. apply no_keys.
  - eexists. split; [reflexivity|]. adds_fields Hone Hd. apply no_keys.
Qed.

Lemma resolve_relations_ok pf rels s :
  pass_ok s → (∀ id, id ∈ pf_node_ids pf → id ∈ node_ids st0) → (∀ rel, rel ∈ rels → pr_source_language rel = pf_language pf) →
  ∃ s', try_fold (one pf) rels s = Ok s' ∧ pass_adds P st0 (pair pf <$> rels) s s'.
Proof.
  revert s. induction rels as [|rel rels IH]; intros s Hs Hpf Hl; cbn [try_fold].
  { exists s. split; [done|]. destruct Hs. split; cbn; rewrite ?app_nil_r; try done. apply no_keys. }
  destruct (resolve_one_ok pf rel s Hs Hpf) as (s1 & -> & H1); [apply Hl; by left|]. cbn [result_bind].
  destruct (IH s1) as (s' & -> & H'); [by eapply adds_ok|done|intros r Hr; apply Hl; by right|].
  exists s'. split; [done|]. change (pair pf <$> rel :: rels) with ([(pf, rel)] ++ (pair pf <$> rels)). by eapply pass_adds_trans.
Qed.

(** The rows of the file's own tables. *)
Record tables_written (st st' : Store) : Prop := mkTables {
  tw_ok : store_ok st';
  tw_files : s_files st' = s_files st;
  tw_nodes : s_nodes st' = s_nodes st;
  tw_edges : s_edges st' = s_edges st;
  tw_pending : s_pending st' = s_pending st;
}.

Lemma insert_cpp_fields_written rows st :
  store_ok st → (∀ r, r ∈ rows → cpp_class r ∈ node_ids st) → ∃ st', insert_cpp_fields rows st = Ok st' ∧ tables_written st st'.
Proof.
  intros Hok Hr. assert (∃ st', insert_cpp_fields rows st = Ok st' ∧ s_files st' = s_files st ∧ s_nodes st' = s_nodes st
    ∧ s_edges st' = s_edges st ∧ s_pending st' = s_pending st) as (st' & He & ? & ? & ? & ?).
  { clear Hok. revert st Hr. induction rows as [|r rows IH]; intros st Hr; cbn [insert_cpp_fields]; [by exists st|].
    rewrite bool_decide_true by (apply Hr; by left). destruct (IH (mkStore (s_files st) (s_nodes st) (s_edges st) (s_pending st)
      (s_cpp_fields st ++ [r]) (s_js_exports st) (s_meta st))) as (st' & -> & ?); [intros x Hx; apply Hr; by right|].
    by exists st'. }
  exists st'. split; [done|]. split; try done. pose proof (insert_cpp_fields_ok rows st Hok) as H'. by rewrite He in H'.
Qed.

Lemma insert_js_exports_written m es st :
  store_ok st → m ∈ node_ids st → ∃ st', insert_js_export_entries m es st = Ok st' ∧ tables_written st st'.
Proof.
  intros Hok Hm. assert (∃ st', insert_js_export_entries m es st = Ok st' ∧ s_files st' = s_files st ∧ s_nodes st' = s_nodes st
    ∧ s_edges st' = s_edges st ∧ s_pending st' = s_pending st) as (st' & He & ? & ? & ? & ?).
  { clear Hok. unfold insert_js_export_entries. generalize 0%Z as ord. revert st Hm.
    induction es as [|e es IH]; intros st Hm ord; cbn [insert_js_export_rows]; [by exists st|].
    rewrite bool_decide_true by done. destruct (IH (mkStore (s_files st) (s_nodes st) (s_edges st) (s_pending st)
      (s_cpp_fields st) (s_js_exports st ++ [js_export_row m ord e]) (s_meta st)) Hm (ord + 1)%Z) as (st' & -> & ?). by exists st'. }
  exists st'. split; [done|]. split; try done. pose proof (insert_js_exports_ok m es st Hok) as H'. by rewrite He in H'.
Qed.

Lemma resolve_file_ok pf s :
  pass_ok s → (∀ id, id ∈ pf_node_ids pf → id ∈ node_ids st0) →
  (∀ rel, rel ∈ pf_relations pf → pr_source_language rel = pf_language pf) →
  ∃ s', file pf s = Ok s' ∧ pass_adds P st0 (pair pf <$> pf_relations pf) s s'.
Proof.
  intros [Hok Hn Hw Hm] Hpf Hl. unfold resolve_file.
  assert (∃ st1, (if String.eqb (pf_language pf) "cpp" then record_cpp_fields pf (bp_store s) else Ok (bp_store s)) = Ok st1
    ∧ tables_written (bp_store s) st1) as (st1 & -> & H1).
  { destruct (String.eqb _ _); [|by exists (bp_store s)]. apply insert_cpp_fields_written; [done|].
    intros r (f & _ & Hr)%list_elem_of_omap. unfold cpp_field_row in Hr. destruct (cpp_class_node pf f) as [id|] eqn:Hc; [|done].
    injection Hr as <-. cbn. unfold node_ids. rewrite Hn. apply Hpf. unfold cpp_class_node in Hc. destruct (cfd_class_lines f).
    destruct (min_by_key _ _) as [i|]; [|done]. by eapply list_elem_of_lookup_2. }
  assert (∃ st2, record_js_export_entries pf st1 = Ok st2 ∧ tables_written st1 st2) as (st2 & He & H2).
  { unfold record_js_export_entries. case_bool_decide; [exists st1; split; [done|]; split; try done; apply H1|].
    destruct (module_node_id pf) as [id|] eqn:Hid; [|exists st1; split; [done|]; split; try done; apply H1].
    apply insert_js_exports_written; [apply H1|]. unfold node_ids. rewrite (tw_nodes _ _ H1), Hn. apply Hpf.
    unfold module_node_id in Hid. destruct (list_find _ _) as [[i ?]|]; [|done]. by eapply list_elem_of_lookup_2. }
  cbn [result_bind]. rewrite He. cbn [result_bind].
  assert (edge_keys st2 = edge_keys (bp_store s)) as Hk by (unfold edge_keys; by rewrite (tw_edges _ _ H2), (tw_edges _ _ H1)).
  destruct (resolve_relations_ok pf (pf_relations pf)
    (mkPass st2 (enter (pf_rel_path pf) (bp_written s)) (bp_memo s) (bp_deferred s) (bp_relations s))) as (s' & -> & H').
  { split; cbn [bp_store bp_written bp_memo]; [apply H2| | |done].
    - by rewrite (tw_nodes _ _ H2), (tw_nodes _ _ H1).
    - apply memory_true_enter. eapply memory_true_grow; [|exact Hw]. intros k. by rewrite Hk. }
  { done. }
  { done. }
  exists s'. split; [done|]. split; try apply H'.
  - rewrite (pa_files _ _ _ _ _ H'). cbn. by rewrite (tw_files _ _ H2), (tw_files _ _ H1).
  - rewrite (pa_pending _ _ _ _ _ H'). cbn. by rewrite (tw_pending _ _ H2), (tw_pending _ _ H1).
  - intros k. rewrite (pa_keys _ _ _ _ _ H'). cbn [bp_store]. by rewrite Hk.
Qed.

Lemma resolve_files_ok batch s :
  pass_ok s → (∀ pf, pf ∈ batch → ∀ id, id ∈ pf_node_ids pf → id ∈ node_ids st0) →
  (∀ pf rel, pf ∈ batch → rel ∈ pf_relations pf → pr_source_language rel = pf_language pf) →
  ∃ s', try_fold file batch s = Ok s' ∧ pass_adds P st0 (relations_of batch) s s'.
Proof.
  revert s. induction batch as [|pf batch IH]; intros s Hs Hpf Hl; cbn [try_fold].
  { exists s. split; [done|]. destruct Hs. split; cbn; rewrite ?app_nil_r; try done. apply no_keys. }
  destruct (resolve_file_ok pf s Hs) as (s1 & -> & H1); [apply Hpf; by left|intros r Hr; by apply Hl; [left|]|]. cbn [result_bind].
  destruct (IH s1) as (s' & -> & H'); [by eapply adds_ok|intros q Hq; apply Hpf; by right|intros q r Hq; apply Hl; by right|].
  exists s'. split; [done|]. change (relations_of (pf :: batch)) with ((pair pf <$> pf_relations pf) ++ relations_of batch).
  by eapply pass_adds_trans.
Qed.
End Pass.

(** ** What the pass does *)

Section Batch.
Context (like like_esc : string → string → bool) (from_str : string → option json).
Context (python_module_map : gmap string (list string)) (all_file_paths : gset string).

(** C14: Phase 2 of a batch ([resolve_batch_relations]). In a well-formed index that has the nodes of the batch and of the
    name map's other files, with relations that carry their file's language, the pass does not fail, and it is the
    comprehension over the relations that its decisions define: an edge is in the index afterwards exactly when it was
    before or is a pair of a relation decided to be written; the relations decided to wait are appended to the deferred
    list, the external modules and symbols to their lists, all in order; files, nodes and buffered calls are as they
    were. So neither the memory of fan-outs, pools and modules nor the writes in between change any decision, and no
    relation is lost without a decision to drop it. *)
Theorem resolve_batch_relations_ok batch paths (map : NameMap) deferred st :
  store_ok st →
  (∀ pf id, pf ∈ batch → id ∈ pf_node_ids pf → id ∈ node_ids st) →
  (∀ name l id path lang, map !! name = Some l → (id, path, lang) ∈ l → path ∉ paths → id ∈ node_ids st) →
  (∀ pf rel, pf ∈ batch → rel ∈ pf_relations pf → pr_source_language rel = pf_language pf) →
  let P := batch_pools batch paths map in
  let xs := relations_of batch in
  ∃ n st', resolve_batch_relations like like_esc from_str python_module_map all_file_paths batch paths map deferred st
             = Ok (mkBatchRelations n
                     (xs ≫= modules_of like like_esc from_str python_module_map all_file_paths P st)
                     (xs ≫= symbols_of like like_esc from_str python_module_map all_file_paths P st),
                   deferred ++ (xs ≫= deferred_of_relation like like_esc from_str python_module_map all_file_paths P st), st')
    ∧ store_ok st' ∧ s_files st' = s_files st ∧ s_nodes st' = s_nodes st ∧ s_pending st' = s_pending st
    ∧ ∀ k, k ∈ edge_keys st' ↔ k ∈ edge_keys st ∨ k ∈ (xs ≫= edges_of like like_esc from_str python_module_map all_file_paths P st).
Proof.
  intros Hok Hpf Hmap Hl P xs. assert (pools_in P st) as HP.
  { intros name id [(pf & Hin & Hid%elem_of_zip_l)|(l & path & lang & Hn & Hin & Hp)]%batch_pools_ids; [by eapply Hpf|by eapply Hmap]. }
  destruct (resolve_files_ok like like_esc from_str python_module_map all_file_paths P st HP batch
    (mkPass st nothing_written no_memo deferred (mkBatchRelations 0 [] []))) as (s & Hs & Ha); try done.
  { intros pf Hin id. by apply Hpf. }
  unfold resolve_batch_relations. fold P. rewrite Hs. cbn [result_bind]. destruct Ha as [? ? ? Hk ? ? ? Hd Hy He].
  destruct s as [st' w m d [n py ext]]. cbn [bp_store bp_deferred bp_relations br_external_python_imports br_unresolved_externals app] in *.
  subst. exists n, st'. split_and!; done.
Qed.

(** A call on a namespace object of the file. *)
Definition namespace_call (pf : FileParsed) (rel : ParsedRelation) : Prop :=
  ∃ recv, parse_callee_metadata from_str (pr_metadata rel) = Some (Receiver recv) ∧ is_Some (ns_module_map from_str all_file_paths pf !! recv).

(** Apart from imports and namespace calls, whose files are known, an edge written in a batch stays in its file: what a
    name means across files is left to the pass that sees all of them. *)
Theorem batch_names_stay_in_file (P : Pools) st pf rel sources targets self :
  decided like like_esc from_str python_module_map all_file_paths P st (pf, rel) = (sources, Write targets self) →
  pr_relation rel ≠ REL_IMPORTS → ¬ namespace_call pf rel → ∀ id, id ∈ targets → id ∈ pf_node_ids pf.
Proof.
  intros Hd Hi Hns id Hid. assert (id ∈ local_ids pf) as Hloc; [|by apply elem_of_list_to_set in Hloc]. revert Hid.
  assert ((relation_outcome like like_esc from_str python_module_map all_file_paths P st pf rel no_memo).1 = Write targets self) as Ho.
  { unfold decided, resolve_relation in Hd. cbn [fst snd] in Hd. destruct (_ && _); [case_bool_decide; [done|]|];
      destruct (relation_outcome _ _ _ _ _ _ _ _ _ _) as [o m]; by injection Hd as _ ->. }
  revert Ho. unfold relation_outcome, import_outcome. rewrite (proj2 (String.eqb_neq _ _) Hi). cbn [negb].
  destruct (is_impl_method _ _); [done|].
  assert ((call_outcome like_esc from_str python_module_map all_file_paths P st pf rel (m_py_seen no_memo)).1 = Some (Write targets self) →
    id ∈ targets → id ∈ local_ids pf) as Hcall.
  { unfold call_outcome. destruct (negb _); [done|]. destruct (_ && _); [done|].
    assert (method_outcome like_esc from_str P st pf rel = Write targets self → id ∈ targets → id ∈ local_ids pf) as Hm.
    { unfold method_outcome. destruct (is_cross_file_call_noise _ _); [done|].
      destruct (filter _ (method_candidates _ _ _)) as [|x [|y l]] eqn:Hf; [done| |done]. intros [= <- <-] ->%list_elem_of_singleton.
      assert (x ∈ [x]) as Hx by by left. rewrite <-Hf in Hx. by apply list_elem_of_filter in Hx as [? _]. }
    destruct (parse_callee_metadata _ _) as [[]|] eqn:Hp; try done; cbn [fst].
    - destruct (one_of _ _); cbn [fst]; [|intros [= Ho]; by apply Hm].
      destruct (ns_module_map _ _ _ !! _) as [file|] eqn:Hfile; [|done]. destruct Hns. eexists. split; [done|by eexists].
    - intros [= Ho]. by apply Hm.
    - by destruct (py_contains _ _ _) as [[] ?]. }
  destruct (call_outcome _ _ _ _ _ _ _ _ _) as [[o|] seen]; cbn [fst] in *; [intros ->; by apply Hcall|].
  destruct (_ && _); [done|]. destruct (name_candidates _ _ _ _ _ _ _) as [all m]. cbn [fst]. unfold default_outcome.
  destruct (negb _); [destruct (_ && _); [done|]|by destruct (_ && _)]. intros [= <- <-] Hin%implicit_in.
  unfold same_file_targets in Hin. destruct (is_package_bound _ _); [by apply elem_of_nil in Hin|].
  apply visible_in in Hin. by apply list_elem_of_filter in Hin as [? _].
Qed.
End Batch.

(** ** Examples *)

(** A route file whose handler is in another file: a batch that does not see [app/ctrl.js] yet takes the handler of
    [lib/ctrl.js] as the route's source, and defers the relation with it. With all files in sight the source is the
    nearer one. *)
Definition demo_route_file : FileParsed :=
  mkParsed "app/routes.js" "javascript" [] [] [] 9 [90%Z] ["<module>"] [None] ["module"] [(1, 9)%Z] ∅ ∅ ∅.
Definition demo_route : ParsedRelation := mkRelation "getUser" "getUser" "routes_to" None "javascript" None None.
Definition js_handler (id : Z) (path : string) : NameEntry := (id, path, Some "javascript").

Lemma route_source_depends_on_batch :
  let partly := batch_pools [demo_route_file] ∅ {["getUser" := [js_handler 1 "lib/ctrl.js"]]} in
  let whole := batch_pools [demo_route_file] ∅ {["getUser" := [js_handler 1 "lib/ctrl.js"; js_handler 2 "app/ctrl.js"]]} in
  decided (λ _ _, false) (λ _ _, false) (λ _, None) ∅ ∅ partly demo_store (demo_route_file, demo_route)
    = ([1%Z], Defer None)
  ∧ decided (λ _ _, false) (λ _ _, false) (λ _, None) ∅ ∅ whole demo_store (demo_route_file, demo_route)
    = ([2%Z], Defer None).
Proof. split; by vm_compute. Qed.

(** [b.rs] has [g] and [h]: its call of [h] is written, that of [f] waits. *)
Definition demo_calls : FileParsed :=
  mkParsed "b.rs" "rust"
    [mkRelation "g" "h" "calls" None "rust" None None; mkRelation "g" "f" "calls" None "rust" None None;
     mkRelation "<module>" "std::fs" "imports" (Some IMPORT_EXTERNAL_META) "rust" None None]
    [] [] 2 [2; 3]%Z ["g"; "h"] [None; None] ["function"; "function"] [(1, 2); (3, 4)]%Z ∅ ∅ ∅.
Definition demo_names : NameMap := {["f" := [(1%Z, "a.rs", Some "rust")]]}.
#[local] Abbreviation demo_run :=
  (resolve_batch_relations (λ _ _, false) (λ _ _, false) (λ _, None) ∅ ∅ [demo_calls] {["b.rs"]} demo_names []).

Example demo_batch_relations :
  match demo_run demo_store with
  | Ok (r, deferred, st) =>
      r = mkBatchRelations 0 [] [] ∧ ((λ d, (dr_source_ids d, dr_target_name d)) <$> deferred) = [([2%Z], "f")]
      ∧ edge_keys st = edge_keys demo_store
  | Err _ => False
  end.
Proof. by vm_compute. Qed.

Lemma resolve_batch_relations_ok_witness :
  ∃ n st', demo_run demo_store = Ok (mkBatchRelations n [] [], [deferred_from [2%Z] (mkRelation "g" "f" "calls" None "rust" None None) demo_calls None], st')
    ∧ store_ok st' ∧ s_nodes st' = s_nodes demo_store ∧ ∀ k, k ∈ edge_keys st' ↔ k ∈ edge_keys demo_store ∨ k ∈ [(2%Z, 3%Z, "calls", "")].
Proof.
  destruct (resolve_batch_relations_ok (λ _ _, false) (λ _ _, false) (λ _, None) ∅ ∅ [demo_calls] {["b.rs"]} demo_names []
    demo_store demo_store_ok) as (n & st' & Heq & Hok & _ & Hn & _ & Hk).
  - intros pf id ->%list_elem_of_singleton Hid. revert id Hid. apply Forall_forall. apply (bool_decide_unpack _). by vm_compute.
  - intros name l id path lang Hl. unfold demo_names in Hl. apply lookup_singleton_Some in Hl as [<- <-].
    intros [= -> -> ->]%list_elem_of_singleton _.
    apply (bool_decide_unpack _). by vm_compute.
  - intros pf rel ->%list_elem_of_singleton Hrel. revert rel Hrel. apply Forall_forall. repeat constructor.
  - exists n, st'. split; [exact Heq|]. split; [exact Hok|]. split; [exact Hn|exact Hk].
Defined.
