(* ===== verification/DeferResolve.v ===== *)
(** * The deferred relations of a run ([indexer/pipeline/index_files.rs])

    Phase 2b-final: what no batch could decide is decided once all files are in.
    [settle_python_reexports] binds the imports that wait on other imports;
    [resolve_deferred_relations] goes through the relations, calls last. *)

From S2P Require Import Prelude Str Utf8 Sql Domain Tables Store Queries Paths JsModules PyModules Resolve RustUse RustFn ClassNames.
From S2P Require Import CppFields JsExports Pipeline Batch EdgeWrite Sentinels BatchResolve.

Definition ROUTE_FILE_KEY : string := "rf".
Definition OUT_OF_FUEL : string := "out of fuel".

(** ** Imports that wait on a re-export *)

Section Settle.
Context (from_str : string → option json) (json_text : option string → string → option string).
Context (json_int : option string → string → option Z) (python_module_map : gmap string (list string)).

(** A parked import: its place in the run's list, its sources, the files of its module. *)
Definition Waiting : Type := nat * DeferredRelation * list Z * list string.

Record Settling := mkSettling {
  se_store : Store;
  se_written : WrittenFanouts;
  se_reexports : gmap string (list ReexportEdge);
  se_left : list Waiting;
  se_relative : list (nat * DeferredRelation);
  se_bound : bool;
  se_edges : nat;
}.

Definition is_relative_import (metadata : option string) : bool :=
  match metadata ≫= from_str with
  | Some v => match get_str v "python_module" with Some m => starts_with "." m | None => false end
  | None => false
  end.

Definition settle_one (x : Waiting) (s : Settling) : result string Settling :=
  let '(i, d, source_ids, files) := x in
  match python_reexport_targets (λ f, reexport_rows json_text json_int (project (se_store s)) f) python_module_map
          (se_reexports s) files (dr_target_name d) with
  | None => Err OUT_OF_FUEL
  | Some ([], cache) =>
      Ok (mkSettling (se_store s) (se_written s) cache (se_left s ++ [x]) (se_relative s) (se_bound s) (se_edges s))
  | Some (targets, cache) =>
      (let? (n, w, st) := insert_relation_edges (source_ids, targets, dr_relation d, dr_metadata d, false)
                            (enter (dr_rel_path d) (se_written s)) (se_store s) in
       Ok (mkSettling st w (forget (dr_rel_path d) cache) (se_left s)
             (if is_relative_import (dr_metadata d) then se_relative s ++ [(i, d)] else se_relative s) true (se_edges s + n)))%cg
  end.

(** Rounds over what is left, until one binds nothing. *)
Fixpoint settle_rounds (fuel : nat) (waiting : list Waiting) (s : Settling) : result string Settling :=
  match fuel with
  | 0 => Err OUT_OF_FUEL
  | S fuel =>
      (let? s := try_fold settle_one waiting
                   (mkSettling (se_store s) (se_written s) (se_reexports s) [] (se_relative s) false (se_edges s)) in
       if negb (se_bound s) || bool_decide (se_left s = []) then Ok s else settle_rounds fuel (se_left s) s)%cg
  end.

Definition settle_python_reexports (waiting : list Waiting) (w : WrittenFanouts) (st : Store) : result string Settling :=
  settle_rounds (S (length waiting)) waiting (mkSettling st w ∅ [] [] false 0).
End Settle.

(** ** One relation *)

(** What is loaded once for the pass. *)
Record Caches := mkCaches {
  ca_classes : ProjectClassNames;
  ca_py_seen : gmap string bool;
  ca_callables : option (gset Z);
  ca_js : JsExports;
  ca_fields : option CppFieldTypes;
}.
Definition no_caches : Caches := mkCaches no_classes ∅ None no_walk None.

Definition with_classes (c : Caches) (cl : ProjectClassNames) : Caches := mkCaches cl (ca_py_seen c) (ca_callables c) (ca_js c) (ca_fields c).
Definition with_js (c : Caches) (js : JsExports) : Caches := mkCaches (ca_classes c) (ca_py_seen c) (ca_callables c) js (ca_fields c).

Inductive Verdict :=
| Edges (targets : list Z) (metadata : option string) (allow_self : bool)
| BindUnless (never : RecvNever) (targets : list Z) (metadata : option string)
| Buffer (name : string) (metadata : option string)
| Wait (files : list string)
| External (metadata : option string)
| Nothing.

Section Deferred.
Context `{U : Unicode} (like like_esc : string → string → bool) (from_str : string → option json) (to_string : json → string).
Context (map_insert : string → json → list (string * json) → list (string * json)).
Context (json_extract : option string → string → option string) (json_int : option string → string → option Z).
Context (python_module_map : gmap string (list string)) (all_file_paths : gset string) (crate_roots : RustCrates).

(** The map's entries that are nodes. *)
Definition live_pools (st : Store) (global_name_map : NameMap) : Pools :=
  sort_pools (foldl (λ p entries, foldl (λ p e, if bool_decide (e.1.1 ∈ node_ids st) then add_node entries.1 e p else p) p entries.2)
                no_pools (map_to_list global_name_map)).

Section Relation.
Context (P : Pools) (st : Store).

Definition same_lang (lang : string) (ids : list Z) : list Z := filter (λ id, has_language P lang id = true) ids.

(** *** Sources *)

Definition deferred_sources (d : DeferredRelation) : list Z :=
  if String.eqb (dr_relation d) REL_ROUTES_TO && bool_decide (dr_source_ids d = []) then
    refine_ambiguous_targets (dr_rel_path d) (node_id_to_path P) (same_lang (dr_language d) (ids_of P (dr_source_name d)))
  else filter (λ id, id ∈ node_ids st) (dr_source_ids d).

Definition with_metadata (d : DeferredRelation) (metadata : option string) : DeferredRelation :=
  mkDeferred (dr_source_ids d) (dr_source_name d) (dr_target_name d) (dr_relation d) metadata (dr_rel_path d) (dr_language d) (dr_ns_file d).

Definition with_route_file (metadata : option string) (route_file : string) : option string :=
  let fields := match metadata ≫= from_str with Some (JObject fields) => fields | _ => [] end in
  Some (to_string (JObject (map_insert ROUTE_FILE_KEY (JString route_file) fields))).

(** A handler outside the route's file: the edge records which file wrote it. *)
Definition routed (d : DeferredRelation) (sources : list Z) : DeferredRelation :=
  if String.eqb (dr_relation d) REL_ROUTES_TO && forallb (λ id, negb (in_file P (dr_rel_path d) id)) sources
  then with_metadata d (with_route_file (dr_metadata d) (dr_rel_path d)) else d.

(** A C++ call through a field or a chain is typed first. *)
Definition typed (d : DeferredRelation) (c : Caches) : DeferredRelation * Caches :=
  if String.eqb (dr_relation d) REL_CALLS
     && match dr_metadata d with
        | Some m => contains (json_key "q" +:+ quoted "field") m || contains (json_key "q" +:+ quoted "via") m
        | None => false
        end
  then
    let t := default (load_cpp_fields like st) (ca_fields c) in
    (with_metadata d (match rewrite t from_str to_string (dr_metadata d) with Some m => Some m | None => dr_metadata d end),
     mkCaches (ca_classes c) (ca_py_seen c) (ca_callables c) (ca_js c) (Some t))
  else (d, c).

(** *** Imports *)

Definition file_node (file : string) : list Z := module_node_of (name_to_ids P) (node_id_to_path P) file.
Definition file_nodes (files : list string) (target_name : string) : option (list Z) :=
  resolve_python_module_targets files true target_name (node_id_to_path P) (name_to_ids P).

(** A call through a renamed import. *)
Definition renamed_call (d : DeferredRelation) (c : Caches) : option Verdict * Caches :=
  match String.eqb (dr_relation d) REL_CALLS, parse_callee_metadata from_str (dr_metadata d) with
  | true, Some (Import module export) =>
      let '(found, js) := js_import_targets (load json_extract st) all_file_paths (dr_rel_path d) module export (ca_js c) in
      (Some (match found with
             | Some [] => Buffer (js_import_pending_name from_str (dr_metadata d) export) (dr_metadata d)
             | Some ids => Edges ids (dr_metadata d) false
             | None => Nothing
             end), with_js c js)
  | _, _ => (None, c)
  end.

Definition marker_verdict (d : DeferredRelation) (meta : json) : option Verdict :=
  if q_in meta [IMPORT_Q_NS_REQUIRE; IMPORT_Q_NS_IMPORT; IMPORT_Q_STAR_REEXPORT; IMPORT_Q_DEFAULT] then
    Some (match spec ← get_str meta "js_module"; resolve_js_specifier_path all_file_paths spec (dr_rel_path d) with
          | Some file => Edges (file_node file) (dr_metadata d) false
          | None => Nothing
          end)
  else None.

(** The file a relative import names when no node of the module has the name. *)
Definition submodule_nodes (d : DeferredRelation) (python_module : string) (module_files : list string) : option (list Z) :=
  let submodule := if ends_with "." python_module then python_module +:+ dr_target_name d
                   else python_module +:+ "." +:+ dr_target_name d in
  file_nodes (default module_files (project_module_files_from submodule (dr_rel_path d) python_module_map)) (dr_target_name d).

Definition python_verdict (d : DeferredRelation) (waited : bool) (meta : json) : option Verdict :=
  python_module ← get_str meta "python_module";
  let is_module_import := default false (get meta "is_module_import" ≫= as_bool) in
  let is_attr := bool_decide (is_Some (get meta "attr")) in
  match project_module_files_from python_module (dr_rel_path d) python_module_map with
  | None => if is_attr then Some Nothing else None
  | Some module_files =>
      match python_targets P st meta module_files (dr_target_name d) with
      | Some targets => Some (Edges targets (dr_metadata d) false)
      | None =>
          if negb is_module_import && negb waited then Some (Wait module_files)
          else if is_attr then
            Some (match file_nodes module_files (dr_target_name d) with Some ids => Edges ids (dr_metadata d) false | None => Nothing end)
          else if starts_with "." python_module && negb is_module_import then
            (λ ids, Edges ids (dr_metadata d) false) <$> submodule_nodes d python_module module_files
          else None
      end
  end.

Definition js_verdict (d : DeferredRelation) (meta : json) (c : Caches) : option Verdict * Caches :=
  match get_str meta "js_module" with
  | None => (None, c)
  | Some js_module =>
      let imported := js_imported_name meta (dr_target_name d) in
      match resolve_js_module_targets all_file_paths js_module (dr_rel_path d) imported (name_to_ids P) (node_id_to_path P) with
      | Some targets => (Some (Edges targets (dr_metadata d) false), c)
      | None =>
          match (if bool_decide (get meta "q" = None) then resolve_js_specifier_path all_file_paths js_module (dr_rel_path d) else None) with
          | None => (None, c)
          | Some file =>
              let '(found, js) := js_import_edge_targets (load json_extract st) all_file_paths file imported
                                    (name_to_ids P) (node_id_to_path P) (ca_js c) in
              ((λ tb, Edges tb.1 (if String.eqb tb.2 imported then dr_metadata d
                                  else with_imported_name from_str to_string map_insert (dr_metadata d) imported) false) <$> found,
               with_js c js)
          end
      end
  end.

Definition include_verdict (d : DeferredRelation) (meta : json) : option Verdict :=
  file ← match inc ← get_str meta "php_include"; resolve_php_include_path all_file_paths inc (dr_rel_path d) with
         | Some file => Some file
         | None => inc ← get_str meta "c_include"; resolve_c_include_path all_file_paths inc (dr_rel_path d)
         end;
  if bool_decide (file_node file = []) then None else Some (Edges (file_node file) (dr_metadata d) false).

Definition rust_use_verdict (d : DeferredRelation) (meta : json) : option Verdict :=
  files ← rust_use_files meta (dr_rel_path d) all_file_paths crate_roots;
  let targets := filter (λ id, existsb (λ f, in_file P f id) files = true) (ids_of P (dr_target_name d)) in
  if bool_decide (targets = []) then None else Some (Edges targets (dr_metadata d) false).

Definition import_verdict (d : DeferredRelation) (waited : bool) (meta : json) (c : Caches) : option Verdict * Caches :=
  match marker_verdict d meta with
  | Some v => (Some v, c)
  | None =>
      match python_verdict d waited meta with
      | Some v => (Some v, c)
      | None =>
          let '(v, c) := js_verdict d meta c in
          (match v with
           | Some v => Some v
           | None => match include_verdict d meta with Some v => Some v | None => rust_use_verdict d meta end
           end, c)
      end
  end.

(** The methods of a Rust trait impl. *)
Definition impl_method_verdict (d : DeferredRelation) (sources : list Z) : option Verdict :=
  if negb (String.eqb (dr_relation d) REL_IMPLEMENTS) then None
  else meta ← dr_metadata d ≫= from_str;
       if bool_decide (get_str meta "q" = Some "impl_method") then
         impl_type ← get_str meta "v";
         let filtered := self_filter_candidates st (node_id_to_path P) from_str like_esc impl_type (ids_of P (dr_target_name d))
                           sources (dr_rel_path d) None in
         Some (if bool_decide (filtered = []) then Nothing else Edges filtered (dr_metadata d) false)
       else None.

(** *** Calls *)

(** The candidates, and the targets the receiver's type rules out. *)
Definition call_candidates (d : DeferredRelation) (cl : ProjectClassNames) : list Z * RecvNever * ProjectClassNames :=
  let all := ids_of P (dr_target_name d) in
  let all := if is_package_bound from_str (dr_metadata d) then filter (λ id, in_file P (dr_rel_path d) id = false) all else all in
  let '(all, cl) := rust_call_shape_candidates from_str st (dr_language d) (dr_metadata d) (Some (dr_rel_path d)) all cl in
  let '(all, cl) := member_call_candidates like from_str st (dr_metadata d) all cl in
  let '(never, cl) := rust_receiver_never like from_str st crate_roots (dr_language d) (dr_target_name d) (dr_metadata d)
                        (dr_rel_path d) all cl in
  let '(all, cl) := rust_receiver_candidates like from_str st all_file_paths (node_id_to_path P) crate_roots (dr_language d)
                      (dr_metadata d) (dr_rel_path d) all cl in
  (all, never, cl).

(** What the metadata decides: a verdict, or the default chain under some metadata. *)
Definition method_verdict (d : DeferredRelation) (all : list Z) (never : RecvNever) : Verdict :=
  if is_cross_file_call_noise (dr_target_name d) (dr_language d) then Nothing
  else
    let methods := method_candidates st like_esc (same_lang (dr_language d) all) in
    let same_file := filter (λ id, in_file P (dr_rel_path d) id = true) methods in
    match same_file, methods with
    | [id], _ | [], [id] => BindUnless never [id] (dr_metadata d)
    | _, [] => Buffer (dr_target_name d) (dr_metadata d)
    | _, _ => if String.eqb (dr_language d) "rust" && bool_decide (is_Some (rust_receiver from_str (dr_metadata d) crate_roots))
              then Buffer (dr_target_name d) (dr_metadata d) else Nothing
    end.

Definition guessed (metadata : option string) : option string :=
  m ← metadata;
  if contains (quoted "rtype") m || contains (quoted "super") m then Some (ambiguous_meta from_str to_string map_insert m) else None.

Definition receiver_verdict (d : DeferredRelation) (ty : string) (dispatch : bool) (all : list Z) (cl : ProjectClassNames)
    : (Verdict + option string) * ProjectClassNames :=
  match same_lang (dr_language d) all with
  | [] => (inl (Buffer (dr_target_name d) (dr_metadata d)), cl)
  | pool =>
      let '(found, cl) := recv_type_targets st ty dispatch pool (dr_rel_path d) (node_id_to_path P) cl in
      (match found with
       | Bind own => inl (Edges own (dr_metadata d) false)
       | AmbiguousTargets own => inl (Edges own (guessed (dr_metadata d)) false)
       | Fallback => inr (guessed (dr_metadata d))
       | Drop => inl (Buffer (dr_target_name d) (dr_metadata d))
       end, cl)
  end.

Definition refined (d : DeferredRelation) (ids : list Z) : list Z :=
  if 1 <? length ids then refine_ambiguous_targets (dr_rel_path d) (node_id_to_path P) ids else ids.

Definition anchored_verdict (d : DeferredRelation) (anchor : CrateModule) (pool : list Z) : Verdict :=
  match rust_anchored_targets st all_file_paths (node_id_to_path P) anchor pool with
  | Named ids => Edges ids (dr_metadata d) false
  | Elsewhere ids =>
      let ids := refined d ids in
      Edges ids ((λ m, reexport_meta from_str to_string map_insert m (cm_dir anchor) (1 <? length ids)) <$> dr_metadata d) false
  | RustUse.Nothing => Buffer (dr_target_name d) (dr_metadata d)
  end.

Definition path_verdict (d : DeferredRelation) (segments : list string) (all : list Z) : Verdict + option string :=
  let pool := same_lang (dr_language d) all in
  let by_path segs :=
    let filtered := path_filter_candidates st (node_id_to_path P) segs pool crate_roots in
    inl (if bool_decide (filtered = []) then Nothing else Edges (refined d filtered) (dr_metadata d) false) in
  match rust_use_anchor from_str (dr_metadata d) segments (dr_rel_path d) crate_roots with
  | NoAnchor => by_path segments
  | Unplaced stripped => by_path stripped
  | OpaqueRoot [] => inr (ambiguous_meta from_str to_string map_insert <$> dr_metadata d)
  | OpaqueRoot stripped => by_path stripped
  | Foreign => inl Nothing
  | At anchor => inl (anchored_verdict d anchor pool)
  end.

Definition qualified_verdict (d : DeferredRelation) (sources : list Z) (all : list Z) (never : RecvNever) (c : Caches)
    : (Verdict + option string) * Caches :=
  match parse_callee_metadata from_str (dr_metadata d) with
  | Some (ModuleCall module) =>
      let '(known, seen) := py_contains python_module_map module (ca_py_seen c) in
      (if known then inr (dr_metadata d) else inl Nothing, mkCaches (ca_classes c) seen (ca_callables c) (ca_js c) (ca_fields c))
  | Some (Receiver _) =>
      (if one_of JS_LANGUAGES (dr_language d) then inr (dr_metadata d) else inl (method_verdict d all never), c)
  | Some Chain => (inl (method_verdict d all never), c)
  | Some (SelfRecv t) | Some (SelfType t) =>
      let filtered := self_filter_candidates st (node_id_to_path P) from_str like_esc t (same_lang (dr_language d) all) sources
                        (dr_rel_path d) (dr_metadata d) in
      (inl (if bool_decide (filtered = []) then Nothing else Edges filtered (dr_metadata d) false), c)
  | Some (RecvType t) => let '(v, cl) := receiver_verdict d t true all (ca_classes c) in (v, with_classes c cl)
  | Some (SuperType t) => let '(v, cl) := receiver_verdict d t false all (ca_classes c) in (v, with_classes c cl)
  | Some (Path segments) => (path_verdict d segments all, c)
  | _ => (inr (dr_metadata d), c)
  end.

Definition is_typed (metadata : option string) : bool :=
  match parse_callee_metadata from_str metadata with Some (RecvType _) | Some (SuperType _) => true | _ => false end.

(** A bare call: this file, then the same language, then the buffer. *)
Definition bare_verdict (d : DeferredRelation) (all : list Z) (never : RecvNever) (call_meta : option string) : Verdict :=
  let same_file := filter (λ id, in_file P (dr_rel_path d) id = true) all in
  if negb (bool_decide (same_file = [])) then BindUnless never same_file call_meta
  else if is_cross_file_call_noise (dr_target_name d) (dr_language d) then
    if is_typed call_meta then Buffer (dr_target_name d) call_meta else Nothing
  else
    let pool := same_lang (dr_language d) (filter (λ id, in_file P (dr_rel_path d) id = false) all) in
    if negb (bool_decide (pool = []))
    then BindUnless never (refine_ambiguous_targets (dr_rel_path d) (node_id_to_path P) pool) call_meta
    else Buffer (dr_target_name d) call_meta.

Definition call_verdict (d : DeferredRelation) (sources : list Z) (c : Caches) : Verdict * Caches :=
  let '(all, never, cl) := call_candidates d (ca_classes c) in
  let c := with_classes c cl in
  match ns_file ← dr_ns_file d;
        let targets := filter (λ id, in_file P ns_file id = true) all in
        if bool_decide (targets = []) then None else Some targets with
  | Some targets => (Edges targets (dr_metadata d) false, c)
  | None =>
      let '(v, c) := qualified_verdict d sources all never c in
      (match v with inl v => v | inr call_meta => bare_verdict d all never call_meta end, c)
  end.

(** *** Everything else, by name *)

Definition other_candidates (d : DeferredRelation) (other_root : option string) (c : Caches) : list Z * Caches :=
  let imports := String.eqb (dr_relation d) REL_IMPORTS in
  let all := ids_of P (dr_target_name d) in
  let all := match other_root with Some other => filter (λ id, in_file P other id = false) all | None => all end in
  let all := if is_package_bound from_str (dr_metadata d)
             then if imports then [] else filter (λ id, in_file P (dr_rel_path d) id = false) all else all in
  let '(all, cl) := if imports then python_import_candidates st (dr_language d) all (ca_classes c) else (all, ca_classes c) in
  let c := with_classes c cl in
  if supertype (dr_relation d) then
    let callables := default (callable_node_ids st) (ca_callables c) in
    (filter (λ id, id ∉ callables) all, mkCaches (ca_classes c) (ca_py_seen c) (Some callables) (ca_js c) (ca_fields c))
  else (all, c).

(** The metadata a sentinel's edge keeps. *)
Definition sentinel_metadata (d : DeferredRelation) (import_meta : option json) : option string :=
  m ← dr_metadata d;
  if String.eqb (dr_relation d) REL_IMPORTS
     && (contains (quoted "ru") m
         || match import_meta with
            | Some meta => bool_decide (get meta "q" = None)
                           && match get_str meta "js_module" with Some s => starts_with "./" s || starts_with "../" s | None => false end
            | None => false
            end)
  then Some m else None.

Definition compatible (lang : string) (id : Z) : bool :=
  match node_id_to_language P !! id with Some (Some l) => languages_compatible l lang | _ => false end.

Definition name_verdict (d : DeferredRelation) (import_meta : option json) (c : Caches) : Verdict * Caches :=
  let other_root := meta ← import_meta; rust_use_other_root meta (dr_rel_path d) crate_roots in
  let '(all, c) := other_candidates d other_root c in
  let same_file := filter (λ id, in_file P (dr_rel_path d) id = true) all in
  let cross_file := filter (λ id, in_file P (dr_rel_path d) id = false) all in
  let same_language := same_lang (dr_language d) cross_file in
  let targets :=
    if negb (bool_decide (same_file = [])) then Some same_file
    else if negb (bool_decide (same_language = []))
    then Some (refine_ambiguous_targets (dr_rel_path d) (node_id_to_path P) same_language)
    else if String.eqb (dr_relation d) REL_REFERENCES then None
    else Some (filter (λ id, compatible (dr_language d) id = true) cross_file) in
  (match targets with
   | None => Nothing
   | Some targets =>
       if bool_decide (targets = []) && one_of [REL_IMPLEMENTS; REL_IMPORTS] (dr_relation d)
       then External (sentinel_metadata d import_meta)
       else Edges targets (dr_metadata d) (String.eqb (dr_relation d) REL_ROUTES_TO)
   end, c).

Definition verdict (d : DeferredRelation) (waited : bool) (sources : list Z) (c : Caches) : Verdict * Caches :=
  let '(v, c) := renamed_call d c in
  match v with
  | Some v => (v, c)
  | None =>
      let import_meta := if String.eqb (dr_relation d) REL_IMPORTS then dr_metadata d ≫= from_str else None in
      let '(v, c) := match import_meta with Some meta => import_verdict d waited meta c | None => (None, c) end in
      match v with
      | Some v => (v, c)
      | None =>
          match impl_method_verdict d sources with
          | Some v => (v, c)
          | None => if String.eqb (dr_relation d) REL_CALLS then call_verdict d sources c else name_verdict d import_meta c
          end
      end
  end.
End Relation.

(** ** The pass *)

Record DeferPass := mkDefer {
  dp_store : Store;
  dp_written : WrittenFanouts;
  dp_caches : Caches;
  dp_edges : nat;
  dp_waiting : list Waiting;
  dp_externals : list ExternalRef;
}.

Definition buffer_each (sources : list Z) (name language : string) (metadata : option string) (st : Store) : result string Store :=
  try_fold (λ src, insert_pending_unresolved_call src name language metadata) sources st.

(** [i] is the relation's place; [d] is the relation as it was typed and routed, [queued] as it was deferred. *)
Definition execute (i : nat) (queued d : DeferredRelation) (sources : list Z) (v : Verdict) (s : DeferPass) : result string DeferPass :=
  let '(mkDefer st w c n waiting externals) := s in
  match v with
  | Edges targets metadata allow_self =>
      (let? (created, w, st) := insert_relation_edges (sources, targets, dr_relation d, metadata, allow_self) w st in
       Ok (mkDefer st w c (n + created) waiting externals))%cg
  | BindUnless never targets metadata =>
      (let? (created, w, st) := bind_unless_ruled_out never d sources targets metadata w st in
       Ok (mkDefer st w c (n + created) waiting externals))%cg
  | Buffer name metadata =>
      (let? st := buffer_each sources name (dr_language d) metadata st in Ok (mkDefer st w c n waiting externals))%cg
  | Wait files => Ok (mkDefer st w c n (waiting ++ [(i, queued, sources, files)]) externals)
  | External metadata =>
      Ok (mkDefer st w c n waiting (externals ++ ((λ id, (id, dr_target_name d, dr_relation d, metadata)) <$> sources)))
  | Nothing => Ok s
  end.

Definition defer_one (P : Pools) (waited : gset nat) (x : nat * DeferredRelation) (s : DeferPass) : result string DeferPass :=
  let '(i, queued) := x in
  let st := dp_store s in
  let w := enter (dr_rel_path queued) (dp_written s) in
  let '(d, c) := typed st queued (dp_caches s) in
  let sources := deferred_sources P st d in
  if bool_decide (sources = []) then Ok (mkDefer st w c (dp_edges s) (dp_waiting s) (dp_externals s))
  else
    let d := routed P d sources in
    let '(v, c) := verdict P st d (bool_decide (i ∈ waited)) sources c in
    execute i queued d sources v (mkDefer st w c (dp_edges s) (dp_waiting s) (dp_externals s)).

Definition is_call_relation (x : nat * DeferredRelation) : bool := String.eqb (dr_relation x.2) REL_CALLS.

Definition resolve_deferred_relations (now : Z) (deferred : list DeferredRelation) (global_name_map : NameMap) (st : Store)
    : result string (nat * nat * Store) :=
  let P := live_pools st global_name_map in
  let numbered := imap pair deferred in
  (let? s := try_fold (defer_one P ∅) (filter (λ x, is_call_relation x = false) numbered)
               (mkDefer st nothing_written no_caches 0 [] []) in
   let? se := settle_python_reexports from_str json_extract json_int python_module_map (dp_waiting s) (dp_written s) (dp_store s) in
   let again := ((λ x : Waiting, x.1.1) <$> se_left se) ++ se_relative se in
   let? s := try_fold (defer_one P (list_to_set again.*1)) (again ++ filter (λ x, is_call_relation x = true) numbered)
               (mkDefer (se_store se) (se_written se) (dp_caches s) (dp_edges s + se_edges se) [] (dp_externals s)) in
   let? (nodes, sentinels, st) := mint_external_sentinels now [] (dp_externals s) (dp_store s) in
   Ok (dp_edges s + sentinels, nodes, st))%cg.
End Deferred.

(** * Properties *)

(** ** Candidates stay candidates *)

Section Candidates.
Context `{U : Unicode} (like like_esc : string → string → bool) (from_str : string → option json) (st : Store).
Context (paths : gset string) (m : gmap Z string) (crates : RustCrates).

Lemma rank_ids_in a qn ids files id :
  id ∈ (rank_ids paths m a qn ids files).1 ∨ id ∈ (snd <$> (rank_ids paths m a qn ids files).2) → id ∈ ids.
Proof.
  revert files. induction ids as [|x ids IH]; intros files; cbn [rank_ids]; [cbn; by intros [?|?]|].
  destruct (anchor_rank _ _ _ _ _) as [rank files']. specialize (IH files').
  destruct (rank_ids paths m a qn ids files') as [named ranked]. cbn [fst snd] in IH. rewrite elem_of_cons.
  destruct rank as [[|n]|]; cbn [fst snd fmap list_fmap]; rewrite ?elem_of_cons; tauto.
Qed.

Lemma anchored_in a ids ids' :
  rust_anchored_targets st paths m a ids = Named ids' ∨ rust_anchored_targets st paths m a ids = Elsewhere ids' → ids' ⊆ ids.
Proof.
  unfold rust_anchored_targets. destruct (filter _ ids) as [|x l] eqn:Hf; [by intros [?|?]|]. rewrite <-Hf.
  intros H id Hid. assert (id ∈ filter (λ id, in_crate m a id = true) ids) as Hin; [|by apply list_elem_of_filter in Hin as [_ ?]].
  revert H. destruct (rank_ids _ _ _ _ _ _) as [named ranked] eqn:Hr. intros H.
  apply (rank_ids_in a (get_node_qualified_names_by_ids st (filter (λ id, in_crate m a id = true) ids)) _ ∅). rewrite Hr. cbn [fst snd].
  destruct named as [|y named]; [destruct ranked as [|r ranked]; [by destruct H|]|].
  - destruct H as [[=]|[= <-]]. right. apply list_elem_of_fmap in Hid as (q & -> & [_ Hq]%list_elem_of_filter). by apply list_elem_of_fmap_2.
  - destruct H as [[= <-]|[=]]. by left.
Qed.

Lemma by_chain_in segs ids : filter_by_segment_chain st m segs ids ⊆ ids.
Proof. unfold filter_by_segment_chain. repeat case_match; try done; intros id [_ ?]%list_elem_of_filter; done. Qed.

Lemma by_path_in segs ids : path_filter_candidates st m segs ids crates ⊆ ids.
Proof.
  unfold path_filter_candidates. destruct ids as [|x ids]; [done|]. destruct segs as [|s segs]; [done|].
  destruct (negb _); [apply by_chain_in|]. destruct (negb _); [apply by_chain_in|]. destruct segs; [destruct (_ =? 1); [done|apply list_subseteq_nil]|].
  apply by_chain_in.
Qed.

Lemma self_methods_in ty ids callers path metadata id :
  id ∈ self_filter_candidates st m from_str like_esc ty ids callers path metadata → id ∈ node_ids st.
Proof.
  assert (∀ x, x ∈ filter_method_ids like_esc st ids (Some ty) → x ∈ node_ids st) as Hm.
  { intros x (c & (n & -> & [_ [_ Hn]%list_elem_of_filter]%list_elem_of_filter)%list_elem_of_fmap)%in_chunks_elem.
    by apply list_elem_of_fmap_2. }
  unfold self_filter_candidates. intros [_ Hid]%list_elem_of_filter. revert Hid.
  repeat (case_bool_decide || case_match); try done; intros Hid; try (by apply elem_of_nil in Hid); try (by apply Hm);
    apply list_elem_of_filter in Hid as [_ Hid]; by apply Hm.
Qed.

Lemma shape_in lang meta path ids cl : (rust_call_shape_candidates from_str st lang meta path ids cl).1 ⊆ ids.
Proof. unfold rust_call_shape_candidates. destruct (negb _); [done|]. intros id [_ ?]%list_elem_of_filter. done. Qed.

Lemma member_in meta ids cl : (member_call_candidates like from_str st meta ids cl).1 ⊆ ids.
Proof. unfold member_call_candidates. destruct (negb _); [done|]. intros id [_ ?]%list_elem_of_filter. done. Qed.

Lemma anchored_own_in path segs ids : anchored_own from_str st paths m crates path segs ids ⊆ ids.
Proof.
  unfold anchored_own. destruct (rust_use_anchor _ _ _ _ _) as [| |a| |]; try done.
  destruct (rust_anchored_targets _ _ _ _ _) as [[|x l]|[|x l]|] eqn:Ha; try done; apply (anchored_in a); auto.
Qed.

Lemma receiver_in lang meta path ids cl : (rust_receiver_candidates like from_str st paths m crates lang meta path ids cl).1 ⊆ ids.
Proof.
  unfold rust_receiver_candidates. destruct (_ || _); [done|]. destruct (rust_receiver _ _ _) as [[ty via segs|ty]|]; [| |done]; cbn [fst].
  - assert (own_candidates ty via (load_node_info st ids (load_rust_types like st cl)) ids ⊆ ids) as Hown by (intros id [_ ?]%list_elem_of_filter; done).
    case_bool_decide; [done|]. destruct segs; [|done]. destruct (1 <? _); [|done]. etrans; [apply anchored_own_in|done].
  - intros id (iv & -> & [_ (x & -> & Hx)%list_elem_of_fmap]%list_elem_of_filter)%list_elem_of_fmap. done.
Qed.

Lemma python_in lang ids cl : (python_import_candidates st lang ids cl).1 ⊆ ids.
Proof. unfold python_import_candidates. destruct (negb _); [done|]. intros id [_ ?]%list_elem_of_filter. done. Qed.

Lemma inherited_in cl ids fuel level seen : inherited_loop cl ids fuel level seen ⊆ ids.
Proof.
  revert level seen. induction fuel as [|fuel IH]; intros level seen; cbn [inherited_loop]; [apply list_subseteq_nil|].
  case_bool_decide; [apply list_subseteq_nil|]. case_bool_decide; [apply IH|]. intros id [_ ?]%list_elem_of_filter. done.
Qed.

Lemma overrides_in cl ids ts subs : ts ⊆ ids → add_overrides cl ids ts subs ⊆ ids.
Proof.
  unfold add_overrides. intros Ht. assert (∀ l, l ⊆ ids → foldl (λ ts id, if all_in (owner_nodes cl id) subs && negb (bool_decide (id ∈ ts))
    then ts ++ [id] else ts) ts l ⊆ ids) as H; [|by apply H].
  intros l. revert ts Ht. induction l as [|x l IH]; intros ts Ht Hl; cbn [foldl]; [done|]. apply IH; [|set_solver].
  destruct (_ && _); [|done]. set_solver.
Qed.

Lemma typed_targets_in ty dispatch ids path cl ids' :
  (recv_type_targets st ty dispatch ids path m cl).1 = Bind ids' ∨ (recv_type_targets st ty dispatch ids path m cl).1 = AmbiguousTargets ids' →
  ids' ⊆ ids.
Proof.
  unfold recv_type_targets. destruct (last (class_path ty)) as [l|]; [|by intros [?|?]]. case_bool_decide; [by intros [?|?]|]. cbn [fst].
  set (cl' := load_hierarchy st (ClassNames.load st ids cl)). clearbody cl'. set (want := class_path ty).
  assert (own_methods cl' want ids ⊆ ids) as Hown.
  { unfold own_methods. destruct (negb _); [intros id [_ ?]%list_elem_of_filter; done|].
    destruct (negb _); [intros id [_ ?]%list_elem_of_filter; done|apply list_subseteq_nil]. }
  case_bool_decide; [case_bool_decide; [by intros [?|?]|]|].
  - unfold inherited_or_overridden. destruct (classes_named cl' (last_name want)) as [|x xs]; [by intros [?|?]|].
    destruct (start_class cl' want path) as [start|]; [|by intros [?|?]]. cbv zeta.
    set (inherited := inherited_loop _ _ _ _ _). assert (inherited ⊆ ids) as Hi by apply inherited_in.
    set (ts := if dispatch && _ then _ else inherited). assert (ts ⊆ ids) as Ht by (unfold ts; destruct (_ && _); [by apply overrides_in|done]).
    clearbody ts. case_bool_decide; [by intros [?|?]|]. destruct (1 <? _); intros [[= <-]|[= <-]]; done.
  - set (own := own_methods cl' want ids) in *. clearbody own. cbv zeta.
    set (local := filter (λ id, m !! id = Some path) own). assert (local ⊆ ids) as Hl by (etrans; [|exact Hown]; intros id [_ ?]%list_elem_of_filter; done).
    set (pick := if length own =? 1 then (own, false) else _).
    assert (pick.1 ⊆ ids) as Hp by (unfold pick; destruct (_ =? 1); [done|]; by destruct (negb _)). destruct pick as [ts amb]. cbn [fst] in Hp.
    assert ((if dispatch then with_overrides cl' ids ts else ts) ⊆ ids) as Hw.
    { destruct dispatch; [|done]. unfold with_overrides. case_bool_decide; [done|]. intros id [?|[_ ?]%list_elem_of_filter]%elem_of_app; [by apply Hp|done]. }
    destruct amb; intros [[= <-]|[= <-]]; exact Hw.
Qed.
End Candidates.

(** ** The remembered shapes of Rust functions

    Whatever a pass asks of the classes, the shapes it remembers are those of the
    index. *)

Definition shapes_true `{U : Unicode} (st : Store) (cl : ProjectClassNames) : Prop :=
  ∀ sh, ClassNames.rust_fn_shapes cl = Some sh → sh = read_rust_fn_shapes st.

Lemma shapes_default `{U : Unicode} st cl : shapes_true st cl → default (read_rust_fn_shapes st) (ClassNames.rust_fn_shapes cl) = read_rust_fn_shapes st.
Proof. intros Hc. destruct (ClassNames.rust_fn_shapes cl) as [sh|] eqn:Hs; [|done]. by apply Hc. Qed.

Lemma read_shapes_same `{U : Unicode} st st' : s_nodes st = s_nodes st' → s_files st = s_files st' → read_rust_fn_shapes st = read_rust_fn_shapes st'.
Proof.
  intros Hn Hf. unfold read_rust_fn_shapes, rust_fn_rows. assert (node_files st = node_files st') as ->; [|done].
  unfold node_files, file_rows. by rewrite Hn, Hf.
Qed.

Section Shapes.
Context `{U : Unicode} (like like_esc : string → string → bool) (from_str : string → option json) (st : Store).
#[local] Abbreviation T := (shapes_true st).

Lemma shapes_info ids cl : T cl → T (load_node_info st ids cl).
Proof. unfold load_node_info. by case_bool_decide. Qed.

Lemma shapes_loaded ids cl : T cl → T (load_hierarchy st (ClassNames.load st ids cl)).
Proof.
  intros Hc. assert (T (ClassNames.load st ids cl)) as Hl by (unfold ClassNames.load; destruct (by_last cl); by apply shapes_info).
  unfold load_hierarchy. by destruct (children _).
Qed.

Lemma shapes_types cl : T cl → T (load_rust_types like st cl).
Proof. intros Hc. unfold load_rust_types. by destruct (rust_concrete cl). Qed.

Lemma shapes_shape lang meta path ids cl : T cl → T (rust_call_shape_candidates from_str st lang meta path ids cl).2.
Proof.
  intros Hc. unfold rust_call_shape_candidates. destruct (negb _); [done|]. intros sh [= <-]. by apply shapes_default.
Qed.

Lemma shapes_member meta ids cl : T cl → T (member_call_candidates like from_str st meta ids cl).2.
Proof. intros Hc. unfold member_call_candidates. by destruct (negb _). Qed.

Lemma shapes_receiver paths m crates lang meta path ids cl :
  T cl → T (rust_receiver_candidates like from_str st paths m crates lang meta path ids cl).2.
Proof.
  intros Hc. unfold rust_receiver_candidates. destruct (_ || _); [done|]. destruct (rust_receiver _ _ _); [|done].
  by apply shapes_info, shapes_types.
Qed.

Lemma shapes_never crates lang name meta path ids cl :
  T cl → T (rust_receiver_never like from_str st crates lang name meta path ids cl).2.
Proof.
  intros Hc. unfold rust_receiver_never. destruct (_ || _); [done|]. destruct (rust_receiver _ _ _) as [[]|]; try done.
  by apply shapes_info, shapes_types.
Qed.

Lemma shapes_typed ty dispatch ids path m cl : T cl → T (recv_type_targets st ty dispatch ids path m cl).2.
Proof.
  intros Hc. unfold recv_type_targets. destruct (last _); [|done]. case_bool_decide; [done|]. by apply shapes_loaded.
Qed.

Lemma shapes_python lang ids cl : T cl → T (python_import_candidates st lang ids cl).2.
Proof. intros Hc. unfold python_import_candidates. by destruct (negb _). Qed.
End Shapes.

(** ** What the memories hold *)

(** The functions the export walk remembers are nodes. *)
Definition exports_in (x : FileExports) (ids : list Z) : Prop := ∀ s, s ∈ fx_spans x → s.1.1.1.1 ∈ ids.
Definition walk_in (js : JsExports) (ids : list Z) : Prop := ∀ f x, JsExports.by_file js !! f = Some x → exports_in x ids.

Section Walk.
Context (read : string → FileExports) (paths : gset string) (ids : list Z) (Hread : ∀ f, exports_in (read f) ids).

Lemma load_file_in f s : walk_in s ids → exports_in (load_file read f s).1 ids ∧ walk_in (load_file read f s).2 ids.
Proof.
  intros Hs. unfold load_file. destruct (JsExports.by_file s !! f) as [x|] eqn:Hf; cbn [fst snd]; [split; [by eapply Hs|done]|].
  split; [done|]. intros g y. cbn [JsExports.by_file]. intros [[<- <-]|[_ ?]]%lookup_insert_Some; [done|by eapply Hs].
Qed.

Lemma walk_stays_in fuel file name seen s : walk_in s ids → walk_in (walk read paths fuel file name seen s).2 ids.
Proof.
  revert file name seen s. induction fuel as [|fuel IH]; intros file name seen s Hs; cbn [walk]; [done|].
  case_bool_decide; [done|]. destruct (load_file_in file s Hs) as [_ H1]. destruct (load_file read file s) as [here s1]. cbn [snd] in H1.
  destruct (local_of here name); [done|]. destruct (indirect_of here name) as [[spec import]|].
  { destruct (resolve_js_specifier_path _ _ _); [|done]. destruct import; [by apply IH|done]. }
  destruct (String.eqb _ _); [done|].
  assert (walk_in (stars_of paths file here s1).2 ids) as H2 by (unfold stars_of; by destruct (stars s1 !! file)).
  destruct (stars_of paths file here s1) as [nexts s2]. cbn [snd] in H2.
  set (ask := λ next ss, let '(r, seen, s) := walk read paths fuel next name ss.1 ss.2 in (r, (seen, s))).
  assert (∀ nexts found ss, walk_in ss.2 ids → walk_in (ask_stars ask nexts found ss).2.2 ids) as Hask.
  { clear H2 nexts s2. intros nexts. induction nexts as [|next nexts IHn]; intros found ss Hss; cbn [ask_stars]; [done|].
    assert (walk_in (ask next ss).2.2 ids) as Hn.
    { unfold ask. pose proof (IH next name ss.1 ss.2 Hss) as Hw. by destruct (walk _ _ _ _ _ _ _) as [[r sn] s3]. }
    destruct (ask next ss) as [r ss']. cbn [snd] in Hn. destruct r; try done; try (by apply IHn);
      (destruct found; [case_bool_decide; [by apply IHn|done]|by apply IHn]). }
  specialize (Hask nexts None ({[(file, name)]} ∪ seen, s2) H2). by destruct (ask_stars _ _ _ _) as [r [sn s3]].
Qed.

Lemma resolve_in file name s : walk_in s ids → walk_in (resolve read paths file name s).2 ids.
Proof.
  intros Hs. unfold resolve. destruct (memo s !! _); [done|]. unfold resolve_visiting.
  pose proof (walk_stays_in (S MAX_JS_REEXPORT_DEPTH) file name ∅ s Hs) as Hw. by destruct (walk _ _ _ _ _ _ _) as [[r sn] s3].
Qed.

Lemma import_targets_in caller module export s :
  walk_in s ids →
  walk_in (js_import_targets read paths caller module export s).2 ids
  ∧ ∀ l, (js_import_targets read paths caller module export s).1 = Some l → l ⊆ ids.
Proof.
  intros Hs. unfold js_import_targets. destruct (resolve_js_specifier_path _ _ _) as [file|].
  2: { split; [done|]. cbn [fst]. destruct (_ || _); [intros l [= <-]; apply list_subseteq_nil|done]. }
  pose proof (resolve_in file export s Hs) as H1. destruct (resolve read paths file export s) as [r s1]. cbn [snd] in H1.
  destruct r as [f local|f| | |]; cbn [fst snd]; try (split; [done|]; by intros l [= <-]; apply list_subseteq_nil).
  unfold functions_named. destruct (load_file_in f s1 H1) as [Hx H2]. destruct (load_file read f s1) as [x s2]. cbn [fst snd] in *.
  split; [done|]. intros l [= <-] id Hid. unfold functions_named_in in Hid. rewrite elem_of_remove_dups in Hid.
  unfold sort_cmp in Hid. rewrite sort_by_perm in Hid. apply list_elem_of_omap in Hid as ([[[[i n] a] b] fn] & Hsp & Heq).
  destruct (_ && _); [|done]. injection Heq as <-. by specialize (Hx _ Hsp).
Qed.

Lemma edge_targets_in file name P s :
  walk_in s ids →
  walk_in (js_import_edge_targets read paths file name (name_to_ids P) (node_id_to_path P) s).2 ids
  ∧ ∀ l b, (js_import_edge_targets read paths file name (name_to_ids P) (node_id_to_path P) s).1 = Some (l, b) → ∀ id, id ∈ l → ∃ n, id ∈ ids_of P n.
Proof.
  intros Hs. unfold js_import_edge_targets. pose proof (resolve_in file name s Hs) as H1.
  destruct (resolve read paths file name s) as [r s1]. cbn [snd] in H1.
  destruct (match r with Binding f l => Some (f, l) | Namespace f => Some (f, "<module>") | _ => None end) as [[f local]|]; [|done].
  cbn [fst snd]. split; [done|]. intros l b. case_bool_decide; [done|]. intros [= <- <-] id [_ Hid]%list_elem_of_filter. by exists local.
Qed.
End Walk.

Lemma load_in json_extract st f : exports_in (JsExports.load json_extract st f) (node_ids st).
Proof.
  intros s ((n, fl) & -> & [_ Hn]%list_elem_of_filter)%list_elem_of_fmap. cbn. apply elem_of_node_files in Hn as [Hn _]. by apply list_elem_of_fmap_2.
Qed.

(** The edges the re-export search holds lead to nodes. *)
Definition reexports_in (c : gmap string (list ReexportEdge)) (ids : list Z) : Prop :=
  ∀ f es e, c !! f = Some es → e ∈ es → target e ∈ ids.

Section Reexports.
Context (read : string → list ReexportEdge) (pmap : gmap string (list string)) (ids : list Z).
Context (Hread : ∀ f e, e ∈ read f → target e ∈ ids).

Definition answers_in (again : string → Search → Answer) (p : gset (string * string)) : Prop :=
  ∀ file s, reexports_in (PyModules.by_file s) ids → on_path s = p →
    ∃ out s', again file s = Some (out, s') ∧ reexports_in (PyModules.by_file s') ids ∧ on_path s' = p ∧ out ⊆ ids.

Section Loop.
Context (again : string → Search → Answer) (p : gset (string * string)) (Hagain : answers_in again p).

Lemma verify_files_in goal v files s :
  reexports_in (PyModules.by_file s) ids → on_path s = p →
  ∃ v' s', verify_files again goal v files s = Some (v', s') ∧ reexports_in (PyModules.by_file s') ids ∧ on_path s' = p.
Proof.
  revert v s. induction files as [|f files IH]; intros v s Hc Hp; cbn [verify_files]; [by exists v, s|].
  destruct v; [by exists true, s|]. destruct (Hagain f s Hc Hp) as (out & s1 & -> & Hc1 & Hp1 & _). cbn [mbind option_bind]. by apply IH.
Qed.

Lemma verify_rows_in file rows s :
  reexports_in (PyModules.by_file s) ids → on_path s = p → (∀ e, e ∈ rows → target e ∈ ids) →
  ∃ out s', verify_rows pmap again file rows s = Some (out, s') ∧ reexports_in (PyModules.by_file s') ids ∧ on_path s' = p ∧ out ⊆ ids.
Proof.
  revert s. induction rows as [|e rows IH]; intros s Hc Hp Hr; cbn [verify_rows].
  { exists [], s. split_and!; try done. apply list_subseteq_nil. }
  assert (∀ x, x ∈ rows → target x ∈ ids) as Hr' by (intros x Hx; apply Hr; by right).
  destruct (project_module_files_from _ _ _) as [files|]; [|by apply IH].
  destruct (verify_files_in (target e) (bool_decide (target_path e ∈ files)) files s Hc Hp) as (v & s1 & -> & Hc1 & Hp1).
  cbn [mbind option_bind]. destruct (IH s1 Hc1 Hp1 Hr') as (out & s' & -> & Hc' & Hp' & Hout). cbn [mbind option_bind].
  eexists _, s'. split; [reflexivity|]. split_and!; try done. destruct v; [|done]. intros x [->|Hx]%elem_of_cons; [apply Hr; by left|by apply Hout].
Qed.
End Loop.

Lemma edges_of_in file c : reexports_in c ids →
  (∀ e, e ∈ (PyModules.edges_of read file c).1 → target e ∈ ids) ∧ reexports_in (PyModules.edges_of read file c).2 ids.
Proof.
  intros Hc. unfold PyModules.edges_of. case_bool_decide as Hs; cbn [fst snd].
  - split; [|done]. destruct Hs as [es Hes]. rewrite Hes. cbn. intros e. by apply (Hc file).
  - rewrite lookup_insert_eq. cbn. split; [apply Hread|]. intros f es e [[<- <-]|[_ Hl]]%lookup_insert_Some; [apply Hread|by eapply Hc].
Qed.

Lemma reexports_of_in fuel name p :
  1 ≤ fuel → REEXPORT_MAX_DEPTH + 2 ≤ fuel + size p → answers_in (reexports_of read pmap fuel name) p.
Proof.
  revert p. induction fuel as [|fuel IH]; intros p H1 Hfuel file s Hc Hp; [lia|]. cbn [reexports_of]. rewrite Hp.
  destruct (_ || _) eqn:E.
  { exists [], s. split_and!; try done. apply list_subseteq_nil. }
  apply orb_false_iff in E as [Hs%bool_decide_eq_false Hk%bool_decide_eq_false].
  destruct (edges_of_in file (PyModules.by_file s) Hc) as [He Hc1]. destruct (PyModules.edges_of read file (PyModules.by_file s)) as [edges cache].
  cbn [fst snd PyModules.by_file on_path] in *. assert (({[(file, name)]} ∪ p) ∖ {[(file, name)]} = p) as Hback by set_solver.
  case_bool_decide.
  { eexists [], _. split_and!; [done|done|exact Hback|apply list_subseteq_nil]. }
  destruct (verify_rows_in (reexports_of read pmap fuel name) ({[(file, name)]} ∪ p)) with (file := file)
    (rows := filter (λ e, target_name e = name) edges) (s := mkSearch cache ({[(file, name)]} ∪ p)) as (out & s' & -> & Hc' & Hp' & Hout).
  { apply IH; [|rewrite size_union, size_singleton by set_solver]; lia. }
  { done. }
  { done. }
  { intros e [_ Hin]%list_elem_of_filter. by apply He. }
  cbn [mbind option_bind]. eexists _, _. split_and!; [done|done|cbn; by rewrite Hp', Hback|done].
Qed.

Lemma reexport_targets_in c files name :
  reexports_in c ids → ∃ out c', python_reexport_targets read pmap c files name = Some (out, c') ∧ reexports_in c' ids ∧ out ⊆ ids.
Proof.
  intros Hc. unfold python_reexport_targets.
  assert (∀ s, reexports_in (PyModules.by_file s) ids → on_path s = ∅ →
    ∃ out s', extend_files read pmap (REEXPORT_MAX_DEPTH + 2) name files s = Some (out, s') ∧ reexports_in (PyModules.by_file s') ids ∧ out ⊆ ids) as H.
  { induction files as [|f files IH]; intros s Hs Hp; cbn [extend_files]; [exists [], s; split_and!; try done; apply list_subseteq_nil|].
    destruct (reexports_of_in (REEXPORT_MAX_DEPTH + 2) name ∅ ltac:(lia) ltac:(lia) f s Hs Hp) as (out & s1 & -> & Hs1 & Hp1 & Hout).
    cbn [mbind option_bind]. destruct (IH s1 Hs1 Hp1) as (out' & s' & -> & Hs' & Hout'). cbn [mbind option_bind].
    eexists _, s'. split; [reflexivity|]. split; [done|]. intros x [?|?]%elem_of_app; [by apply Hout|by apply Hout']. }
  match goal with |- context [extend_files _ _ _ _ _ ?s0] => destruct (H s0 Hc eq_refl) as (out & s' & -> & Hs' & Hout) end. cbn [mbind option_bind].
  eexists _, _. split; [reflexivity|]. split; [done|]. intros x Hx. apply Hout. by rewrite elem_of_vec_dedup, elem_of_sort_by in Hx.
Qed.
End Reexports.

Lemma reexport_rows_in json_text json_int st f e : e ∈ reexport_rows json_text json_int (project st) f → target e ∈ node_ids st.
Proof.
  unfold reexport_rows. intros (fl & (sn & (ed & (tn & (tf & He & _)%list_elem_of_bind & [Hid Htn]%list_elem_of_filter)%list_elem_of_bind & _)%list_elem_of_bind & _)%list_elem_of_bind & _)%list_elem_of_bind.
  destruct (reexport_row _ _ ed tn tf) as [x|] eqn:Hr; [|by apply elem_of_nil in He]. apply list_elem_of_singleton in He as ->.
  unfold reexport_row in Hr. destruct (json_text (e_metadata ed) "$.python_module"); [|done]. cbn [mbind option_bind] in Hr. case_bool_decide; [|done].
  injection Hr as <-. cbn [target]. rewrite <-Hid.
  cbn [project db_nodes] in Htn. apply list_elem_of_fmap in Htn as (n & -> & Hn). by apply (list_elem_of_fmap_2 node_id_of).
Qed.

(** ** Verdicts name nodes *)

Definition verdict_targets (v : Verdict) : list Z := match v with Edges ts _ _ | BindUnless _ ts _ => ts | _ => [] end.

Section Verdicts.
Context `{U : Unicode} (like like_esc : string → string → bool) (from_str : string → option json) (to_string : json → string).
Context (map_insert : string → json → list (string * json) → list (string * json)).
Context (json_extract : option string → string → option string) (json_int : option string → string → option Z).
Context (python_module_map : gmap string (list string)) (all_file_paths : gset string) (crate_roots : RustCrates).
Context (P : Pools) (st : Store) (HP : pools_in P st).

Lemma pool_in lang ids : same_lang P lang ids ⊆ ids.
Proof. intros id [_ ?]%list_elem_of_filter. done. Qed.

Lemma ids_in name : ids_of P name ⊆ node_ids st.
Proof. intros id. apply HP. Qed.

Lemma file_node_in file : file_node P file ⊆ node_ids st.
Proof. intros id Hid%module_nodes_in. by eapply HP. Qed.

Lemma file_nodes_in files name ids : file_nodes P files name = Some ids → ids ⊆ node_ids st.
Proof. unfold file_nodes. intros Hf id Hid. destruct (python_module_targets_in _ _ _ _ _ _ Hf Hid) as [n Hn]. by eapply HP. Qed.

Lemma refined_sub d ids : refined P d ids ⊆ ids.
Proof. unfold refined. destruct (1 <? _); [|done]. intros id. apply refined_in. Qed.

Lemma renamed_call_in d c :
  walk_in (ca_js c) (node_ids st) →
  walk_in (ca_js (renamed_call from_str json_extract all_file_paths st d c).2) (node_ids st)
  ∧ ∀ v, (renamed_call from_str json_extract all_file_paths st d c).1 = Some v → verdict_targets v ⊆ node_ids st.
Proof.
  intros Hc. unfold renamed_call. destruct (String.eqb _ _); [|done]. destruct (parse_callee_metadata _ _) as [[]|]; try done.
  destruct (import_targets_in (JsExports.load json_extract st) all_file_paths (node_ids st) (load_in json_extract st) (dr_rel_path d)
    module export (ca_js c) Hc) as [H1 H2]. destruct (js_import_targets _ _ _ _ _ _) as [found js]. cbn [fst snd with_js ca_js] in *.
  split; [done|]. intros v [= <-]. destruct found as [[|x l]|]; cbn; [apply list_subseteq_nil|by apply H2|apply list_subseteq_nil].
Qed.

Lemma import_verdict_in d waited meta c :
  walk_in (ca_js c) (node_ids st) →
  walk_in (ca_js (import_verdict from_str to_string map_insert json_extract python_module_map all_file_paths crate_roots P st d waited meta c).2)
    (node_ids st)
  ∧ ∀ v, (import_verdict from_str to_string map_insert json_extract python_module_map all_file_paths crate_roots P st d waited meta c).1 = Some v →
      verdict_targets v ⊆ node_ids st.
Proof.
  intros Hc. unfold import_verdict. destruct (marker_verdict _ _ _ _) as [v|] eqn:Hm.
  { split; [done|]. intros ? [= <-]. unfold marker_verdict in Hm. destruct (q_in _ _); [|done]. injection Hm as <-.
    destruct (get_str meta "js_module" ≫= _); [apply file_node_in|apply list_subseteq_nil]. }
  destruct (python_verdict _ _ _ _ _ _) as [v|] eqn:Hp.
  { split; [done|]. intros ? [= <-]. unfold python_verdict in Hp. destruct (get_str meta "python_module") as [pm|]; [|done].
    cbn [mbind option_bind] in Hp. destruct (project_module_files_from _ _ _) as [files|].
    2: { destruct (bool_decide _); [|done]. injection Hp as <-. apply list_subseteq_nil. }
    destruct (python_targets _ _ _ _ _) as [ids|] eqn:Ht.
    { injection Hp as <-. intros id Hid. destruct (python_targets_in _ _ _ _ _ _ _ Ht Hid) as [n Hn]. by eapply HP. }
    destruct (_ && _); [injection Hp as <-; apply list_subseteq_nil|]. destruct (bool_decide _).
    { injection Hp as <-. destruct (file_nodes _ _ _) as [ids|] eqn:Hf; [by eapply file_nodes_in|apply list_subseteq_nil]. }
    destruct (_ && _); [|done]. unfold submodule_nodes in Hp. destruct (file_nodes _ _ _) as [ids|] eqn:Hf; [|done].
    injection Hp as <-. by eapply file_nodes_in. }
  assert (∀ v, include_verdict all_file_paths P d meta = Some v → verdict_targets v ⊆ node_ids st) as Hinc.
  { intros v. unfold include_verdict. destruct (match get_str meta "php_include" ≫= _ with Some file => Some file | None => _ end); [|done].
    cbn [mbind option_bind]. case_bool_decide; [done|]. intros [= <-]. apply file_node_in. }
  assert (∀ v, rust_use_verdict all_file_paths crate_roots P d meta = Some v → verdict_targets v ⊆ node_ids st) as Huse.
  { intros v. unfold rust_use_verdict. destruct (rust_use_files _ _ _ _); [|done]. cbn [mbind option_bind]. case_bool_decide; [done|].
    intros [= <-] id [_ Hid]%list_elem_of_filter. by eapply HP. }
  assert (∀ js, walk_in js (node_ids st) → walk_in (ca_js (with_js c js)) (node_ids st)) as Hjs by done.
  assert (walk_in (ca_js (js_verdict from_str to_string map_insert json_extract all_file_paths P st d meta c).2) (node_ids st)
    ∧ ∀ v, (js_verdict from_str to_string map_insert json_extract all_file_paths P st d meta c).1 = Some v → verdict_targets v ⊆ node_ids st) as [H1 H2].
  { unfold js_verdict. destruct (get_str meta "js_module") as [spec|]; [|done].
    destruct (resolve_js_module_targets _ _ _ _ _ _) as [ids|] eqn:Hr.
    { split; [done|]. intros v [= <-] id Hid. eapply HP. by eapply js_module_targets_in. }
    destruct (if bool_decide (get meta "q" = None) then _ else None) as [file|]; [|done].
    destruct (edge_targets_in (JsExports.load json_extract st) all_file_paths (node_ids st) (load_in json_extract st) file
      (js_imported_name meta (dr_target_name d)) P (ca_js c) Hc) as [H1 H2].
    destruct (js_import_edge_targets _ _ _ _ _ _ _) as [found js]. cbn [fst snd] in *. split; [by apply Hjs|].
    destruct found as [[ids b]|]; [|done]. intros v [= <-] id Hid. destruct (H2 _ _ eq_refl id Hid) as [n Hn]. by eapply HP. }
  destruct (js_verdict _ _ _ _ _ _ _ _ _ _) as [v c']. cbn [fst snd] in *. split; [done|]. intros v'.
  destruct v as [v|]; [apply H2|]. destruct (include_verdict _ _ _ _) as [v|]; [apply Hinc|apply Huse].
Qed.

Lemma impl_method_in d sources v :
  impl_method_verdict like_esc from_str P st d sources = Some v → verdict_targets v ⊆ node_ids st.
Proof.
  unfold impl_method_verdict. destruct (negb _); [done|]. destruct (dr_metadata d ≫= from_str) as [meta|]; [|done]. cbn [mbind option_bind].
  case_bool_decide; [|done]. destruct (get_str meta "v"); [|done]. cbn [mbind option_bind]. case_bool_decide; intros [= <-]; [apply list_subseteq_nil|].
  intros id. apply self_methods_in.
Qed.

Lemma call_candidates_in d cl all never cl' :
  call_candidates like from_str all_file_paths crate_roots P st d cl = (all, never, cl') → all ⊆ ids_of P (dr_target_name d).
Proof.
  unfold call_candidates. set (all0 := if is_package_bound _ _ then _ else _).
  assert (all0 ⊆ ids_of P (dr_target_name d)) as H0.
  { unfold all0. destruct (is_package_bound _ _); [|done]. intros id [_ ?]%list_elem_of_filter. done. }
  clearbody all0. pose proof (shape_in from_str st (dr_language d) (dr_metadata d) (Some (dr_rel_path d)) all0 cl) as H1.
  destruct (rust_call_shape_candidates _ _ _ _ _ _ _) as [all1 cl1]. cbn [fst] in H1.
  pose proof (member_in like from_str st (dr_metadata d) all1 cl1) as H2.
  destruct (member_call_candidates _ _ _ _ _ _) as [all2 cl2]. cbn [fst] in H2.
  destruct (rust_receiver_never _ _ _ _ _ _ _ _ _ _) as [nv cl3].
  pose proof (receiver_in like from_str st all_file_paths (node_id_to_path P) crate_roots (dr_language d) (dr_metadata d) (dr_rel_path d) all2 cl3) as H3.
  destruct (rust_receiver_candidates _ _ _ _ _ _ _ _ _ _ _) as [all3 cl4]. cbn [fst] in H3. intros [= <- _ _].
  etrans; [exact H3|]. etrans; [exact H2|]. etrans; [exact H1|exact H0].
Qed.

Lemma call_candidates_shapes d cl :
  shapes_true st cl → shapes_true st (call_candidates like from_str all_file_paths crate_roots P st d cl).2.
Proof.
  intros Hc. unfold call_candidates. set (all0 := if is_package_bound _ _ then _ else _). clearbody all0.
  apply (shapes_shape from_str st (dr_language d) (dr_metadata d) (Some (dr_rel_path d)) all0) in Hc.
  destruct (rust_call_shape_candidates _ _ _ _ _ _ _) as [all1 cl1]. cbn [snd] in Hc.
  apply (shapes_member like from_str st (dr_metadata d) all1) in Hc.
  destruct (member_call_candidates _ _ _ _ _ _) as [all2 cl2]. cbn [snd] in Hc.
  apply (shapes_never like from_str st crate_roots (dr_language d) (dr_target_name d) (dr_metadata d) (dr_rel_path d) all2) in Hc.
  destruct (rust_receiver_never _ _ _ _ _ _ _ _ _ _) as [nv cl3]. cbn [snd] in Hc.
  apply (shapes_receiver like from_str st all_file_paths (node_id_to_path P) crate_roots (dr_language d) (dr_metadata d) (dr_rel_path d) all2) in Hc.
  by destruct (rust_receiver_candidates _ _ _ _ _ _ _ _ _ _ _) as [all3 cl4].
Qed.

Lemma method_verdict_in d all never : verdict_targets (method_verdict like_esc from_str crate_roots P st d all never) ⊆ node_ids st.
Proof.
  unfold method_verdict. destruct (is_cross_file_call_noise _ _); [apply list_subseteq_nil|]. cbv zeta.
  set (methods := method_candidates _ _ _). assert (methods ⊆ node_ids st) as Hm by (intros id; apply methods_in).
  assert (filter (λ id, in_file P (dr_rel_path d) id = true) methods ⊆ node_ids st) as Hs by (intros id [_ ?]%list_elem_of_filter; by apply Hm).
  clearbody methods. destruct (filter _ methods) as [|x [|y l]], methods as [|a [|b ms]]; cbn; try apply list_subseteq_nil; try done;
    destruct (_ && _); apply list_subseteq_nil.
Qed.

Lemma receiver_verdict_in d ty dispatch all cl v cl' :
  all ⊆ node_ids st → receiver_verdict from_str to_string map_insert P st d ty dispatch all cl = (inl v, cl') → verdict_targets v ⊆ node_ids st.
Proof.
  intros Hall. unfold receiver_verdict. assert (same_lang P (dr_language d) all ⊆ all) as Hs by apply pool_in.
  destruct (same_lang P (dr_language d) all) as [|x l]; [intros [= <- <-]; apply list_subseteq_nil|].
  pose proof (typed_targets_in st (node_id_to_path P) ty dispatch (x :: l) (dr_rel_path d) cl) as Ht.
  destruct (recv_type_targets _ _ _ _ _ _ _) as [found cl1]. cbn [fst] in Ht. destruct found; intros [= <- <-]; cbn [verdict_targets];
    try apply list_subseteq_nil; (etrans; [eapply Ht; eauto|]; by etrans).
Qed.

Lemma path_verdict_in d segments all v :
  all ⊆ node_ids st → path_verdict from_str to_string map_insert all_file_paths crate_roots P st d segments all = inl v →
  verdict_targets v ⊆ node_ids st.
Proof.
  intros Hall. unfold path_verdict. assert (same_lang P (dr_language d) all ⊆ node_ids st) as Hs by (etrans; [apply pool_in|done]).
  set (pool := same_lang _ _ _) in *. clearbody pool.
  assert (∀ segs w, (inl (if bool_decide (path_filter_candidates st (node_id_to_path P) segs pool crate_roots = []) then Nothing
      else Edges (refined P d (path_filter_candidates st (node_id_to_path P) segs pool crate_roots)) (dr_metadata d) false)
      : Verdict + option string) = inl w → verdict_targets w ⊆ node_ids st) as Hby.
  { intros segs w. case_bool_decide; intros [= <-]; [apply list_subseteq_nil|]. cbn [verdict_targets].
    etrans; [apply refined_sub|]. etrans; [apply by_path_in|done]. }
  destruct (rust_use_anchor _ _ _ _ _) as [| |anchor|stripped|[|s stripped]]; try apply Hby; try done.
  - intros [= <-]. apply list_subseteq_nil.
  - intros [= <-]. unfold anchored_verdict. pose proof (anchored_in st all_file_paths (node_id_to_path P) anchor pool) as Ha.
    destruct (rust_anchored_targets _ _ _ _ _) as [ids|ids|]; cbn [verdict_targets]; [| |apply list_subseteq_nil].
    + etrans; [by apply Ha; left|done].
    + etrans; [apply refined_sub|]. etrans; [by apply Ha; right|done].
Qed.

Lemma qualified_verdict_in d sources all never c :
  all ⊆ node_ids st →
  ca_js (qualified_verdict like_esc from_str to_string map_insert python_module_map all_file_paths crate_roots P st d sources all never c).2 = ca_js c
  ∧ ∀ v, (qualified_verdict like_esc from_str to_string map_insert python_module_map all_file_paths crate_roots P st d sources all never c).1 = inl v →
      verdict_targets v ⊆ node_ids st.
Proof.
  intros Hall. unfold qualified_verdict.
  assert (∀ t w, (inl (if bool_decide (self_filter_candidates st (node_id_to_path P) from_str like_esc t (same_lang P (dr_language d) all) sources
      (dr_rel_path d) (dr_metadata d) = []) then Nothing
      else Edges (self_filter_candidates st (node_id_to_path P) from_str like_esc t (same_lang P (dr_language d) all) sources
             (dr_rel_path d) (dr_metadata d)) (dr_metadata d) false) : Verdict + option string) = inl w →
    verdict_targets w ⊆ node_ids st) as Hself.
  { intros t w. case_bool_decide; intros [= <-]; [apply list_subseteq_nil|]. intros id. apply self_methods_in. }
  destruct (parse_callee_metadata _ _) as [[]|]; cbn [fst snd]; try done.
  - split; [done|]. intros v. by apply path_verdict_in.
  - split; [done|]. apply Hself.
  - split; [done|]. apply Hself.
  - destruct (receiver_verdict _ _ _ _ _ _ _ _ _ _) as [v cl] eqn:Hr. cbn [fst snd]. split; [done|]. intros w ->. by eapply receiver_verdict_in.
  - destruct (receiver_verdict _ _ _ _ _ _ _ _ _ _) as [v cl] eqn:Hr. cbn [fst snd]. split; [done|]. intros w ->. by eapply receiver_verdict_in.
  - split; [done|]. intros v. destruct (one_of _ _); [done|]. intros [= <-]. apply method_verdict_in.
  - split; [done|]. intros v [= <-]. apply method_verdict_in.
  - destruct (py_contains _ _ _) as [known seen]. split; [done|]. intros v. destruct known; [done|]. intros [= <-]. apply list_subseteq_nil.
Qed.

Lemma bare_verdict_in d all never meta : all ⊆ node_ids st → verdict_targets (bare_verdict from_str P d all never meta) ⊆ node_ids st.
Proof.
  intros Hall. unfold bare_verdict. destruct (negb _); [intros id [_ ?]%list_elem_of_filter; by apply Hall|].
  destruct (is_cross_file_call_noise _ _); [destruct (is_typed _ _); apply list_subseteq_nil|].
  destruct (negb _); [|apply list_subseteq_nil]. cbn [verdict_targets]. intros id Hid%refined_in%pool_in.
  apply list_elem_of_filter in Hid as [_ Hid]. by apply Hall.
Qed.

Lemma name_verdict_in d meta c :
  ca_js (name_verdict from_str crate_roots P st d meta c).2 = ca_js c
  ∧ verdict_targets (name_verdict from_str crate_roots P st d meta c).1 ⊆ node_ids st.
Proof.
  unfold name_verdict. set (other := meta ← meta; _).
  assert (ca_js (other_candidates from_str P st d other c).2 = ca_js c ∧ (other_candidates from_str P st d other c).1 ⊆ node_ids st) as [H1 H2].
  { unfold other_candidates. set (all0 := match other with Some _ => _ | None => _ end).
    assert (all0 ⊆ node_ids st) as H0 by (unfold all0; destruct other; [intros id [_ ?]%list_elem_of_filter; by eapply HP|apply ids_in]).
    clearbody all0. set (all1 := if is_package_bound _ _ then _ else _).
    assert (all1 ⊆ node_ids st) as H1.
    { unfold all1. destruct (is_package_bound _ _); [|done]. destruct (String.eqb _ _); [apply list_subseteq_nil|].
      intros id [_ ?]%list_elem_of_filter. by apply H0. }
    clearbody all1. pose proof (python_in st (dr_language d) all1 (ca_classes c)) as Hp.
    destruct (String.eqb _ _).
    - destruct (python_import_candidates _ _ _ _) as [all2 cl]. cbn [fst] in Hp. destruct (supertype _); cbn [fst snd ca_js with_classes].
      + split; [done|]. intros id [_ ?]%list_elem_of_filter. by apply H1, Hp.
      + split; [done|]. by etrans.
    - destruct (supertype _); cbn [fst snd ca_js with_classes]; [|done]. split; [done|]. intros id [_ ?]%list_elem_of_filter. by apply H1. }
  destruct (other_candidates _ _ _ _ _ _) as [all c']. cbn [fst snd] in *. split; [done|]. cbv zeta.
  set (cross := filter (λ id, in_file P (dr_rel_path d) id = false) all).
  assert (cross ⊆ node_ids st) as Hcross by (intros id [_ ?]%list_elem_of_filter; by apply H2).
  set (targets := if negb (bool_decide (filter _ all = [])) then _ else _).
  assert (∀ ts, targets = Some ts → ts ⊆ node_ids st) as Ht.
  { unfold targets. intros ts. destruct (negb _); [intros [= <-] id [_ ?]%list_elem_of_filter; by apply H2|].
    destruct (negb _); [intros [= <-] id Hid%refined_in%pool_in; by apply Hcross|]. destruct (String.eqb _ _); [done|].
    intros [= <-] id [_ ?]%list_elem_of_filter. by apply Hcross. }
  destruct targets as [ts|]; [|apply list_subseteq_nil]. destruct (_ && _); [apply list_subseteq_nil|]. by apply Ht.
Qed.

Lemma verdict_in d waited sources c :
  walk_in (ca_js c) (node_ids st) →
  let r := verdict like like_esc from_str to_string map_insert json_extract python_module_map all_file_paths crate_roots P st d waited sources c in
  walk_in (ca_js r.2) (node_ids st) ∧ verdict_targets r.1 ⊆ node_ids st.
Proof.
  intros Hc. unfold verdict. destruct (renamed_call_in d c Hc) as [H1 H2]. destruct (renamed_call _ _ _ _ _ _) as [[v|] c1]; cbn [fst snd] in *.
  { split; [done|by apply H2]. }
  set (meta := if String.eqb _ _ then _ else None). clearbody meta.
  assert (walk_in (ca_js (match meta with Some meta => import_verdict from_str to_string map_insert json_extract python_module_map all_file_paths
      crate_roots P st d waited meta c1 | None => (None, c1) end).2) (node_ids st)
    ∧ ∀ v, (match meta with Some meta => import_verdict from_str to_string map_insert json_extract python_module_map all_file_paths
      crate_roots P st d waited meta c1 | None => (None, c1) end).1 = Some v → verdict_targets v ⊆ node_ids st) as [H3 H4].
  { destruct meta; [by apply import_verdict_in|done]. }
  destruct (match meta with Some _ => _ | None => _ end) as [[v|] c2]; cbn [fst snd] in *; [split; [done|by apply H4]|].
  destruct (impl_method_verdict _ _ _ _ _ _) as [v|] eqn:Hi; [split; [done|by eapply impl_method_in]|].
  destruct (String.eqb (dr_relation d) REL_CALLS).
  - unfold call_verdict. destruct (call_candidates _ _ _ _ _ _ _ _) as [[all never] cl] eqn:Hcc. apply call_candidates_in in Hcc.
    assert (all ⊆ node_ids st) as Hall by (etrans; [exact Hcc|apply ids_in]).
    destruct (ns_file ← dr_ns_file d; _) as [ts|] eqn:Hns.
    { split; [done|]. destruct (dr_ns_file d); [|done]. cbn [mbind option_bind] in Hns. case_bool_decide; [done|]. injection Hns as <-.
      intros id [_ ?]%list_elem_of_filter. by apply Hall. }
    destruct (qualified_verdict_in d sources all never (with_classes c2 cl) Hall) as [H5 H6].
    destruct (qualified_verdict _ _ _ _ _ _ _ _ _ _ _ _ _ _) as [[v|m] c3]; cbn [fst snd] in *; rewrite H5; (split; [done|]).
    + by apply H6.
    + by apply bare_verdict_in.
  - destruct (name_verdict_in d meta c2) as [H5 H6]. rewrite H5. done.
Qed.

(** What every verdict leaves of the remembered shapes. *)
Lemma import_verdict_classes d waited meta c :
  ca_classes (import_verdict from_str to_string map_insert json_extract python_module_map all_file_paths crate_roots P st d waited meta c).2 = ca_classes c.
Proof.
  unfold import_verdict, js_verdict. destruct (marker_verdict _ _ _ _); [done|]. destruct (python_verdict _ _ _ _ _ _); [done|].
  destruct (get_str meta "js_module"); [|done]. destruct (resolve_js_module_targets _ _ _ _ _ _); [done|].
  destruct (if bool_decide _ then _ else None); [|done]. by destruct (js_import_edge_targets _ _ _ _ _ _ _).
Qed.

Lemma verdict_shapes d waited sources c :
  shapes_true st (ca_classes c) →
  shapes_true st (ca_classes
    (verdict like like_esc from_str to_string map_insert json_extract python_module_map all_file_paths crate_roots P st d waited sources c).2).
Proof.
  intros Hc. unfold verdict.
  assert (ca_classes (renamed_call from_str json_extract all_file_paths st d c).2 = ca_classes c) as Hr.
  { unfold renamed_call. destruct (String.eqb _ _); [|done]. destruct (parse_callee_metadata _ _) as [[]|]; try done.
    by destruct (js_import_targets _ _ _ _ _ _). }
  destruct (renamed_call _ _ _ _ _ _) as [[v|] c1]; cbn [snd] in *; rewrite <-Hr in Hc; [done|].
  set (meta := if String.eqb _ _ then _ else None). clearbody meta.
  assert (shapes_true st (ca_classes (match meta with Some meta => import_verdict from_str to_string map_insert json_extract python_module_map
    all_file_paths crate_roots P st d waited meta c1 | None => (None, c1) end).2)) as H2
    by (destruct meta; [by rewrite import_verdict_classes|done]).
  destruct (match meta with Some _ => _ | None => _ end) as [[v|] c2]; cbn [snd] in *; [done|].
  destruct (impl_method_verdict _ _ _ _ _ _); [done|]. destruct (String.eqb (dr_relation d) REL_CALLS).
  - unfold call_verdict. pose proof (call_candidates_shapes d (ca_classes c2) H2) as H3.
    destruct (call_candidates _ _ _ _ _ _ _ _) as [[all never] cl]. cbn [snd] in H3. destruct (ns_file ← dr_ns_file d; _); [done|].
    assert (shapes_true st (ca_classes (qualified_verdict like_esc from_str to_string map_insert python_module_map all_file_paths
      crate_roots P st d sources all never (with_classes c2 cl)).2)) as H4.
    { unfold qualified_verdict. destruct (parse_callee_metadata _ _) as [q|]; [|done]. destruct q; try done;
        try (by destruct (py_contains _ _ _)); unfold receiver_verdict; (destruct (same_lang _ _ _) as [|x pool]; [done|]);
        match goal with |- context [recv_type_targets st ?ty ?dis ?ids ?path ?mm ?k] =>
          pose proof (shapes_typed st ty dis ids path mm k H3) as H4; by destruct (recv_type_targets st ty dis ids path mm k) end. }
    by destruct (qualified_verdict _ _ _ _ _ _ _ _ _ _ _ _ _ _) as [v c3].
  - unfold name_verdict. set (other := _ ← _; _).
    assert (shapes_true st (ca_classes (other_candidates from_str P st d other c2).2)) as H3.
    { unfold other_candidates. set (all := if is_package_bound _ _ then _ else _). clearbody all. destruct (String.eqb _ REL_IMPORTS).
      - pose proof (shapes_python st (dr_language d) all (ca_classes c2) H2) as Hp.
        destruct (python_import_candidates _ _ _ _); by destruct (supertype _).
      - by destruct (supertype _). }
    by destruct (other_candidates _ _ _ _ _ _) as [all c3].
Qed.
End Verdicts.

(** ** The pass *)

(** A relation of the list asks for edges of this kind from the node. *)
Definition asked (rels : list (nat * DeferredRelation)) (i : Z) (r : string) : Prop :=
  ∃ x, x ∈ rels ∧ dr_relation x.2 = r ∧ (i ∈ dr_source_ids x.2 ∨ r = REL_ROUTES_TO ∧ dr_source_ids x.2 = []).

(** What a part of the pass over some relations does to the index. *)
Record progress (rels : list (nat * DeferredRelation)) (st st' : Store) : Prop := mkProgress {
  pg_ok : store_ok st';
  pg_files : s_files st' = s_files st;
  pg_nodes : s_nodes st' = s_nodes st;
  pg_keys : keys_grow st st';
  pg_pending : ∀ i t l m, buffered st i t l m → buffered st' i t l m;
  pg_new : ∀ i t r m, (i, t, r, m) ∈ edge_keys st' → (i, t, r, m) ∈ edge_keys st ∨ asked rels i r;
}.

Lemma progress_refl rels st : store_ok st → progress rels st st.
Proof. intros Hok. split; auto. by intros k. Qed.

Lemma progress_trans rels st1 st2 st3 : progress rels st1 st2 → progress rels st2 st3 → progress rels st1 st3.
Proof.
  intros H1 H2. split.
  - apply H2.
  - by rewrite (pg_files _ _ _ H2), (pg_files _ _ _ H1).
  - by rewrite (pg_nodes _ _ _ H2), (pg_nodes _ _ _ H1).
  - intros k Hk. by apply (pg_keys _ _ _ H2), (pg_keys _ _ _ H1).
  - intros i t l m Hb. by apply (pg_pending _ _ _ H2), (pg_pending _ _ _ H1).
  - intros i t r m [Hk|Hx]%(pg_new _ _ _ H2); [by apply (pg_new _ _ _ H1)|by right].
Qed.

(** The sources of a relation: live ones of its own, or recovered handlers. *)
Definition own_sources (rels : list (nat * DeferredRelation)) (d : DeferredRelation) (sources : list Z) : Prop :=
  ∃ x, x ∈ rels ∧ dr_relation x.2 = dr_relation d
    ∧ ∀ i, i ∈ sources → i ∈ dr_source_ids x.2 ∨ dr_relation d = REL_ROUTES_TO ∧ dr_source_ids x.2 = [].

Lemma fan_progress rels d sources targets m self w st :
  store_ok st → memory_true w st → own_sources rels d sources → sources ⊆ node_ids st → targets ⊆ node_ids st →
  ∃ n w' st', insert_relation_edges (sources, targets, dr_relation d, m, self) w st = Ok (n, w', st')
    ∧ progress rels st st' ∧ memory_true w' st'
    ∧ ∀ i t, i ∈ sources → t ∈ targets → i ≠ t ∨ self = true → (i, t, dr_relation d, default "" m) ∈ edge_keys st'.
Proof.
  intros Hok Hm (x & Hx & Hrel & Hsrc) Hs Ht.
  destruct (insert_relation_edges_added (sources, targets, dr_relation d, m, self) w st Hok (conj Hs Ht) Hm) as (n & w' & st' & Heq & Ha & Hm').
  exists n, w', st'. split; [done|]. split; [|split; [done|]].
  - split; try apply Ha.
    + intros k Hk. apply Ha. by left.
    + intros i t l mm Hb. unfold buffered in *. by rewrite (ea_pending _ _ _ Ha).
    + intros i t r mm [Hk|Hk]%(ea_keys _ _ _ Ha); [by left|]. right. exists x. unfold fan_keys in Hk.
      apply list_elem_of_fmap in Hk as (p & [= -> -> -> ->] & [_ Hp]%list_elem_of_filter). split; [done|]. split; [done|].
      apply list_elem_of_bind in Hp as (s & Hp & Hin). apply list_elem_of_bind in Hp as (t' & ->%list_elem_of_singleton & _). by apply Hsrc.
  - intros i t Hi Htt Hne. apply (ea_keys _ _ _ Ha). right. apply list_elem_of_fmap. exists (i, t). split; [done|].
    apply list_elem_of_filter. split; [done|]. unfold fanout_pairs. apply list_elem_of_bind. exists i. split; [|done].
    apply list_elem_of_bind. exists t. split; [by apply list_elem_of_singleton|done].
Qed.

Lemma buffer_each_ok rels sources name lang m st :
  store_ok st → sources ⊆ node_ids st →
  ∃ st', buffer_each sources name lang m st = Ok st' ∧ progress rels st st' ∧ s_edges st' = s_edges st
    ∧ ∀ i, i ∈ sources → buffered st' i name lang m.
Proof.
  unfold buffer_each. revert st. induction sources as [|i sources IH]; intros st Hok Hs; cbn [try_fold].
  { exists st. split; [done|]. split; [by apply progress_refl|]. split_and!; try done. by intros ? ?%elem_of_nil. }
  destruct (insert_pending_total i name lang m st Hok) as (st1 & -> & Hok1 & (ps & -> & Hps) & Hb); [apply Hs; by left|].
  cbn [result_bind]. destruct (IH _ Hok1) as (st' & -> & Hp & He & Hall); [intros x Hx; apply Hs; by right|].
  exists st'. split; [done|]. split; [|split_and!; try done].
  - eapply progress_trans; [|exact Hp]. split; try done; [by intros k| |by left]. intros ? ? ? ? Hb'. unfold buffered in *. by apply Hps.
  - intros x [->|Hx]%elem_of_cons; [by apply (pg_pending _ _ _ Hp)|by apply Hall].
Qed.

Lemma bind_unless_ok rels never d sources targets m w st :
  store_ok st → memory_true w st → own_sources rels d sources → sources ⊆ node_ids st → targets ⊆ node_ids st →
  ∃ n w' st', bind_unless_ruled_out never d sources targets m w st = Ok (n, w', st')
    ∧ progress rels st st' ∧ memory_true w' st'
    ∧ (never_ids never = ∅ → ∀ i t, i ∈ sources → t ∈ targets → i ≠ t → (i, t, dr_relation d, default "" m) ∈ edge_keys st').
Proof.
  intros Hok Hm Hown Hs Ht. unfold bind_unless_ruled_out.
  set (kept := filter (λ id, id ∉ never_ids never) targets). assert (kept ⊆ targets) as Hk by (intros id [_ ?]%list_elem_of_filter; done).
  destruct (bool_decide (kept = []) && _ && _) eqn:Hc.
  - destruct (buffer_each_ok rels sources (dr_target_name d) (dr_language d) m st Hok Hs) as (st' & Hb & Hp & He & _).
    unfold buffer_each in Hb. rewrite Hb. cbn [result_bind]. exists 0, w, st'. split_and!; try done.
    + eapply memory_true_grow; [|exact Hm]. apply Hp.
    + intros Hnone. exfalso. apply andb_true_iff in Hc as [[Hk0%bool_decide_eq_true Hne%negb_true_iff%bool_decide_eq_false]%andb_true_iff _].
      apply Hne. destruct targets as [|t ts]; [done|]. assert (t ∈ kept) as Hin; [|rewrite Hk0 in Hin; by apply elem_of_nil in Hin].
      apply list_elem_of_filter. rewrite Hnone. split; [set_solver|by left].
  - destruct (fan_progress rels d sources kept m false w st Hok Hm Hown Hs) as (n & w' & st' & Heq & Hp & Hm' & Hall); [by etrans|].
    exists n, w', st'. split_and!; try done. intros Hnone i t Hi Htt Hne. apply Hall; [done| |by left].
    apply list_elem_of_filter. rewrite Hnone. split; [set_solver|done].
Qed.

Lemma live_pools_in st map : pools_in (live_pools st map) st.
Proof.
  intros name id. unfold live_pools, sort_pools. unfold ids_of. cbn [name_to_ids]. rewrite lookup_fmap.
  set (P := foldl _ no_pools _). assert (pools_in P st) as HP.
  { assert (∀ entries P, pools_in P st → pools_in (foldl (λ p entries, foldl (λ p e, if bool_decide (e.1.1 ∈ node_ids st)
      then add_node entries.1 e p else p) p entries.2) P entries) st) as H.
    { intros entries. induction entries as [|[n l] entries IH]; intros Q HQ; cbn [foldl fst snd]; [done|]. apply IH. clear IH.
      revert Q HQ. induction l as [|e l IHl]; intros Q HQ; cbn [foldl]; [done|]. apply IHl. case_bool_decide as He; [|done].
      intros x i [Hi|[_ ->]]%add_node_ids; [by eapply HQ|done]. }
    apply H. intros x i. unfold ids_of, no_pools. cbn [name_to_ids]. rewrite lookup_empty. by intros ?%elem_of_nil. }
  specialize (HP name id). unfold ids_of in HP. destruct (name_to_ids P !! name) as [l|]; cbn [fmap option_fmap option_map default];
    [intros Hid; apply HP; by rewrite <-elem_of_sort_dedup|done].
Qed.

Section Pass.
Context `{U : Unicode} (like like_esc : string → string → bool) (from_str : string → option json) (to_string : json → string).
Context (map_insert : string → json → list (string * json) → list (string * json)).
Context (json_extract : option string → string → option string) (json_int : option string → string → option Z).
Context (python_module_map : gmap string (list string)) (all_file_paths : gset string) (crate_roots : RustCrates).
Context (P : Pools) (st0 : Store) (HP : pools_in P st0) (rels : list (nat * DeferredRelation)).
#[local] Abbreviation one := (defer_one like like_esc from_str to_string map_insert json_extract python_module_map all_file_paths crate_roots P).

(** A parked import has live sources of a relation. *)
Definition parked (x : Waiting) : Prop := x.1.1 ∈ rels ∧ own_sources rels x.1.1.2 x.1.2 ∧ x.1.2 ⊆ node_ids st0.

Record defer_ok (s : DeferPass) : Prop := mkDeferOk {
  do_store : store_ok (dp_store s);
  do_nodes : s_nodes (dp_store s) = s_nodes st0;
  do_files : s_files (dp_store s) = s_files st0;
  do_shapes : shapes_true st0 (ca_classes (dp_caches s));
  do_written : memory_true (dp_written s) (dp_store s);
  do_walk : walk_in (ca_js (dp_caches s)) (node_ids st0);
  do_waiting : ∀ x, x ∈ dp_waiting s → parked x;
  do_externals : ∀ r, r ∈ dp_externals s → r.1.1.1 ∈ node_ids st0 ∧ asked rels r.1.1.1 r.1.2;
}.

Lemma nodes_same_ids st : s_nodes st = s_nodes st0 → node_ids st = node_ids st0.
Proof. intros Hn. unfold node_ids. by rewrite Hn. Qed.

Lemma same_shapes st c : s_nodes st = s_nodes st0 → s_files st = s_files st0 → shapes_true st0 (ca_classes c) ↔ shapes_true st (ca_classes c).
Proof. intros Hn Hf. unfold shapes_true. by rewrite (read_shapes_same st st0). Qed.

Lemma typed_same st d c :
  dr_relation (typed like from_str to_string st d c).1 = dr_relation d
  ∧ dr_source_ids (typed like from_str to_string st d c).1 = dr_source_ids d
  ∧ ca_js (typed like from_str to_string st d c).2 = ca_js c ∧ ca_classes (typed like from_str to_string st d c).2 = ca_classes c.
Proof. unfold typed. by destruct (_ && _). Qed.

Lemma routed_same d sources : dr_relation (routed from_str to_string map_insert P d sources) = dr_relation d.
Proof. unfold routed. by destruct (_ && _). Qed.

Lemma sources_own i queued d st :
  (i, queued) ∈ rels → dr_relation d = dr_relation queued → dr_source_ids d = dr_source_ids queued → s_nodes st = s_nodes st0 →
  own_sources rels d (deferred_sources P st d) ∧ deferred_sources P st d ⊆ node_ids st0.
Proof.
  intros Hin Hr Hs Hn. unfold deferred_sources. destruct (String.eqb_spec (dr_relation d) REL_ROUTES_TO) as [He|He].
  - case_bool_decide as Hnil; cbn [andb].
    + split; [|intros id Hid%refined_in; apply list_elem_of_filter in Hid as [_ Hid]; by eapply HP].
      exists (i, queued). split; [done|]. split; [done|]. intros j _. right. cbn [snd]. by rewrite <-Hs.
    + split; [|intros id [Hid _]%list_elem_of_filter; by rewrite <-(nodes_same_ids st Hn)].
      exists (i, queued). split; [done|]. split; [done|]. intros j [_ Hj]%list_elem_of_filter. left. cbn [snd]. by rewrite <-Hs.
  - cbn [andb]. split; [|intros id [Hid _]%list_elem_of_filter; by rewrite <-(nodes_same_ids st Hn)].
    exists (i, queued). split; [done|]. split; [done|]. intros j [_ Hj]%list_elem_of_filter. left. cbn [snd]. by rewrite <-Hs.
Qed.

Lemma own_sources_same d d' sources : dr_relation d' = dr_relation d → own_sources rels d sources → own_sources rels d' sources.
Proof. intros Hr (x & Hx & Hxr & Hs). exists x. rewrite Hr. done. Qed.

(** Carrying out a verdict on live nodes. *)
Lemma execute_ok i queued d sources v s :
  defer_ok s → (i, queued) ∈ rels → dr_relation d = dr_relation queued → own_sources rels d sources → sources ⊆ node_ids st0 →
  verdict_targets v ⊆ node_ids st0 →
  ∃ s', execute i queued d sources v s = Ok s' ∧ defer_ok s' ∧ progress rels (dp_store s) (dp_store s').
Proof.
  intros [Hok Hn Hf Hsh Hw Hj Hwait Hext] Hin Hr Hown Hs Ht. destruct s as [st w c n waiting externals].
  cbn [dp_store dp_written dp_caches dp_edges dp_waiting dp_externals] in *. rewrite <-(nodes_same_ids st Hn) in Hs, Ht.
  destruct v as [targets m self|never targets m|name m|files|m|]; unfold execute; cbn [verdict_targets] in Ht.
  - destruct (fan_progress rels d sources targets m self w st Hok Hw Hown Hs Ht) as (k & w' & st' & -> & Hp & Hw' & _).
    cbn [result_bind]. eexists. split; [reflexivity|]. split; [|done].
    split; cbn; try done; [apply Hp|by rewrite (pg_nodes _ _ _ Hp)|by rewrite (pg_files _ _ _ Hp)].
  - destruct (bind_unless_ok rels never d sources targets m w st Hok Hw Hown Hs Ht) as (k & w' & st' & -> & Hp & Hw' & _).
    cbn [result_bind]. eexists. split; [reflexivity|]. split; [|done].
    split; cbn; try done; [apply Hp|by rewrite (pg_nodes _ _ _ Hp)|by rewrite (pg_files _ _ _ Hp)].
  - destruct (buffer_each_ok rels sources name (dr_language d) m st Hok Hs) as (st' & -> & Hp & He & _).
    cbn [result_bind]. eexists. split; [reflexivity|]. split; [|done].
    split; cbn; try done; [apply Hp|by rewrite (pg_nodes _ _ _ Hp)|by rewrite (pg_files _ _ _ Hp)|]. eapply memory_true_grow; [|exact Hw]. apply Hp.
  - eexists. split; [reflexivity|]. split; [|by apply progress_refl]. split; cbn; try done.
    intros x [Hx| ->%list_elem_of_singleton]%elem_of_app; [by apply Hwait|]. split; [done|]. cbn [fst snd]. split; [|by rewrite <-(nodes_same_ids st Hn)].
    by eapply own_sources_same.
  - eexists. split; [reflexivity|]. split; [|by apply progress_refl]. split; cbn; try done.
    intros r [Hx|(id & -> & Hid)%list_elem_of_fmap]%elem_of_app; [by apply Hext|]. cbn.
    rewrite <-(nodes_same_ids st Hn). split; [by apply Hs|]. destruct Hown as (x & Hx & Hxr & Hsrc). exists x. split; [done|].
    split; [done|]. by apply Hsrc.
  - eexists. split; [reflexivity|]. split; [|by apply progress_refl]. by split.
Qed.

Lemma defer_one_ok waited i queued s :
  defer_ok s → (i, queued) ∈ rels → ∃ s', one waited (i, queued) s = Ok s' ∧ defer_ok s' ∧ progress rels (dp_store s) (dp_store s').
Proof.
  intros Hs Hin. unfold defer_one. destruct (typed_same (dp_store s) queued (dp_caches s)) as (Hr & Hsrc & Hjs & Hcl).
  destruct (typed _ _ _ _ _ _) as [d c]. cbn [fst snd] in *.
  destruct (sources_own i queued d (dp_store s) Hin Hr Hsrc (do_nodes _ Hs)) as [Hown Hlive].
  set (sources := deferred_sources P (dp_store s) d) in *. clearbody sources.
  assert (defer_ok (mkDefer (dp_store s) (enter (dr_rel_path queued) (dp_written s)) c (dp_edges s) (dp_waiting s) (dp_externals s))) as Hs1.
  { destruct Hs. split; cbn; try done; [by rewrite Hcl|by apply memory_true_enter|by rewrite Hjs]. }
  case_bool_decide; [eexists; split; [reflexivity|]; split; [exact Hs1|apply progress_refl; apply Hs]|].
  pose proof (routed_same d sources) as Hrr. set (d' := routed _ _ _ _ _ _) in *. clearbody d'.
  assert (pools_in P (dp_store s)) as HP' by (intros n id Hid; rewrite (nodes_same_ids _ (do_nodes _ Hs)); by eapply HP).
  pose proof (verdict_in like like_esc from_str to_string map_insert json_extract python_module_map all_file_paths crate_roots P (dp_store s) HP'
    d' (bool_decide (i ∈ waited)) sources c) as Hv. cbv zeta in Hv. rewrite (nodes_same_ids _ (do_nodes _ Hs)), Hjs in Hv.
  specialize (Hv (do_walk _ Hs)). pose proof (same_shapes (dp_store s) c (do_nodes _ Hs) (do_files _ Hs)) as Hsame.
  pose proof (do_shapes _ Hs1) as Hc. cbn [dp_caches] in Hc. apply Hsame in Hc.
  apply (verdict_shapes like like_esc from_str to_string map_insert json_extract python_module_map all_file_paths crate_roots P (dp_store s)
    d' (bool_decide (i ∈ waited)) sources c) in Hc.
  destruct (verdict _ _ _ _ _ _ _ _ _ _ _ _ _ _ _) as [v c']. cbn [fst snd] in Hv, Hc.
  apply (same_shapes (dp_store s) c' (do_nodes _ Hs) (do_files _ Hs)) in Hc. clear Hsame. destruct Hv as [Hwalk Ht].
  apply (execute_ok i queued d' sources v (mkDefer (dp_store s) (enter (dr_rel_path queued) (dp_written s)) c' (dp_edges s) (dp_waiting s) (dp_externals s))).
  - destruct Hs1. by split.
  - done.
  - congruence.
  - by eapply own_sources_same.
  - done.
  - done.
Qed.

Lemma defer_all_ok waited xs s :
  defer_ok s → xs ⊆ rels → ∃ s', try_fold (one waited) xs s = Ok s' ∧ defer_ok s' ∧ progress rels (dp_store s) (dp_store s').
Proof.
  revert s. induction xs as [|[i q] xs IH]; intros s Hs Hsub; cbn [try_fold].
  { exists s. split; [done|]. split; [done|]. apply progress_refl, Hs. }
  destruct (defer_one_ok waited i q s Hs) as (s1 & -> & Hs1 & Hp1); [apply Hsub; by left|]. cbn [result_bind].
  destruct (IH s1 Hs1) as (s' & -> & Hs' & Hp'); [intros x Hx; apply Hsub; by right|].
  exists s'. split; [done|]. split; [done|]. by eapply progress_trans.
Qed.

(** *** A bare call *)

(** A call that carries nothing but its name, and no built-in's. *)
Definition bare_call (d : DeferredRelation) : Prop :=
  dr_relation d = REL_CALLS ∧ dr_metadata d = None ∧ dr_ns_file d = None ∧ is_cross_file_call_noise (dr_target_name d) (dr_language d) = false.

(** What it binds to: the nodes of its name it could call, in its own file if there are any, else the likeliest of
    the same language. *)
Definition bare_candidates (d : DeferredRelation) : list Z :=
  (rust_call_shape_candidates from_str st0 (dr_language d) None (Some (dr_rel_path d)) (ids_of P (dr_target_name d)) no_classes).1.

Definition bare_targets (d : DeferredRelation) : list Z :=
  match filter (λ id, in_file P (dr_rel_path d) id = true) (bare_candidates d) with
  | [] =>
      match same_lang P (dr_language d) (filter (λ id, in_file P (dr_rel_path d) id = false) (bare_candidates d)) with
      | [] => []
      | pool => refine_ambiguous_targets (dr_rel_path d) (node_id_to_path P) pool
      end
  | own => own
  end.

(** The call from [i] has an edge to each of those but itself, or waits in the buffer when there is none. *)
Definition settled (d : DeferredRelation) (i : Z) (st : Store) : Prop :=
  match bare_targets d with
  | [] => buffered st i (dr_target_name d) (dr_language d) None
  | ts => ∀ t, t ∈ ts → t ≠ i → (i, t, REL_CALLS, "") ∈ edge_keys st
  end.

Lemma settled_progress d i st st' : progress rels st st' → settled d i st → settled d i st'.
Proof.
  intros Hp. unfold settled. destruct (bare_targets d) as [|t ts]; [apply (pg_pending _ _ _ Hp)|].
  intros H x Hx Hne. by apply (pg_keys _ _ _ Hp), H.
Qed.

Lemma bare_targets_in d : bare_targets d ⊆ node_ids st0.
Proof.
  assert (bare_candidates d ⊆ node_ids st0) as Hall by (etrans; [apply shape_in|intros id; by apply HP]).
  unfold bare_targets. destruct (filter (λ id, in_file P _ id = true) _) as [|x own] eqn:Ho.
  - destruct (same_lang _ _ _) as [|y pool] eqn:Hpool; [apply list_subseteq_nil|]. rewrite <-Hpool.
    intros id Hid%refined_in%pool_in. apply list_elem_of_filter in Hid as [_ Hid]. by apply Hall.
  - rewrite <-Ho. intros id [_ Hid]%list_elem_of_filter. by apply Hall.
Qed.

Lemma bare_call_candidates st d cl :
  s_nodes st = s_nodes st0 → s_files st = s_files st0 → shapes_true st0 cl → dr_metadata d = None →
  ∃ never cl', call_candidates like from_str all_file_paths crate_roots P st d cl = (bare_candidates d, never, cl') ∧ never_ids never = ∅.
Proof.
  intros Hn Hf Hc Hm. unfold call_candidates. rewrite Hm. change (is_package_bound from_str None) with false. cbv iota.
  assert ((rust_call_shape_candidates from_str st (dr_language d) None (Some (dr_rel_path d)) (ids_of P (dr_target_name d)) cl).1
          = bare_candidates d) as Hs.
  { unfold bare_candidates, rust_call_shape_candidates. destruct (negb _); [done|]. cbn [fst].
    assert (default (read_rust_fn_shapes st) (ClassNames.rust_fn_shapes cl) = read_rust_fn_shapes st0) as ->; [|done].
    rewrite (read_shapes_same st st0) by done. by apply shapes_default. }
  destruct (rust_call_shape_candidates _ _ _ _ _ _ _) as [all1 cl1]. cbn [fst] in Hs. subst all1.
  unfold member_call_candidates. change (member_meta from_str None) with false. cbn [negb]. unfold rust_receiver_never, rust_receiver_candidates.
  change (rust_receiver from_str None crate_roots) with (@None RustRecv). destruct (_ || _); eexists _, _; (split; [reflexivity|done]).
Qed.

Lemma bare_call_verdict st d waited sources c :
  s_nodes st = s_nodes st0 → s_files st = s_files st0 → shapes_true st0 (ca_classes c) → bare_call d →
  let v := (verdict like like_esc from_str to_string map_insert json_extract python_module_map all_file_paths crate_roots P st d waited sources c).1 in
  match bare_targets d with
  | [] => v = Buffer (dr_target_name d) None
  | ts => ∃ never, v = BindUnless never ts None ∧ never_ids never = ∅
  end.
Proof.
  intros Hn Hf Hc (Hr & Hm & Hns & Hnoise). unfold verdict, renamed_call, impl_method_verdict, call_verdict. rewrite Hr, Hns.
  change (String.eqb REL_CALLS REL_CALLS) with true. change (String.eqb REL_CALLS REL_IMPORTS) with false.
  change (negb (String.eqb REL_CALLS REL_IMPLEMENTS)) with true. rewrite Hm.
  change (parse_callee_metadata from_str None) with (@None CalleeMeta). cbv iota.
  destruct (bare_call_candidates st d (ca_classes c) Hn Hf Hc Hm) as (never & cl' & -> & Hnever).
  change (mbind (λ x, _) None) with (@None (list Z)). cbv iota.
  unfold qualified_verdict. rewrite Hm. change (parse_callee_metadata from_str None) with (@None CalleeMeta). cbn [fst].
  unfold bare_verdict, bare_targets. rewrite Hnoise. cbv zeta.
  destruct (filter (λ id, in_file P (dr_rel_path d) id = true) (bare_candidates d)) as [|x own];
    [rewrite bool_decide_true by done|rewrite bool_decide_false by done; by exists never]. cbn [negb].
  destruct (same_lang P _ _) as [|y pool]; [by rewrite bool_decide_true|]. rewrite bool_decide_false by done. cbn [negb].
  destruct (refine_ambiguous_targets _ _ (y :: pool)) as [|z ts] eqn:Hz; [|by exists never].
  exfalso. eapply refine_ambiguous_targets_ok; [|exact Hz]. done.
Qed.

(** Carried out, it settles the call. *)
Lemma bare_call_executed i queued d sources v s s' j :
  store_ok (dp_store s) → s_nodes (dp_store s) = s_nodes st0 → memory_true (dp_written s) (dp_store s) →
  bare_call d → own_sources rels d sources → sources ⊆ node_ids st0 → j ∈ sources →
  match bare_targets d with
  | [] => v = Buffer (dr_target_name d) None
  | ts => ∃ never, v = BindUnless never ts None ∧ never_ids never = ∅
  end →
  execute i queued d sources v s = Ok s' → settled d j (dp_store s').
Proof.
  intros Hok Hn Hw (Hr & _) Hown Hs Hj Hv. destruct s as [st w c n waiting externals]. cbn [dp_store dp_written] in *. rewrite <-(nodes_same_ids st Hn) in Hs.
  pose proof (bare_targets_in d) as Ht. rewrite <-(nodes_same_ids st Hn) in Ht. unfold settled.
  destruct (bare_targets d) as [|t ts]; [subst v|destruct Hv as (never & -> & Hnone)]; unfold execute.
  - destruct (buffer_each_ok rels sources (dr_target_name d) (dr_language d) None st Hok Hs) as (st' & -> & _ & _ & Hb).
    cbn [result_bind]. intros [= <-]. by apply Hb.
  - destruct (bind_unless_ok rels never d sources (t :: ts) None w st Hok Hw Hown Hs Ht) as (k & w' & st' & -> & _ & _ & Hk).
    cbn [result_bind]. intros [= <-] x Hx Hne. rewrite <-Hr. by apply (Hk Hnone).
Qed.

Lemma bare_call_settled waited i d s s' j :
  defer_ok s → (i, d) ∈ rels → bare_call d → j ∈ dr_source_ids d → j ∈ node_ids st0 → one waited (i, d) s = Ok s' → settled d j (dp_store s').
Proof.
  intros Hs Hin Hbare Hj Hlive. pose proof Hbare as (Hr & Hm & _). unfold defer_one.
  assert (typed like from_str to_string (dp_store s) d (dp_caches s) = (d, dp_caches s)) as ->.
  { unfold typed. by rewrite Hr, Hm. }
  destruct (sources_own i d d (dp_store s) Hin eq_refl eq_refl (do_nodes _ Hs)) as [Hown Hsub].
  assert (j ∈ deferred_sources P (dp_store s) d) as Hjs.
  { unfold deferred_sources. rewrite Hr. change (String.eqb REL_CALLS REL_ROUTES_TO) with false. cbn [andb].
    apply list_elem_of_filter. by rewrite (nodes_same_ids _ (do_nodes _ Hs)). }
  set (sources := deferred_sources _ _ _) in *. clearbody sources. rewrite bool_decide_false by (intros ->; by apply elem_of_nil in Hjs).
  assert (routed from_str to_string map_insert P d sources = d) as -> by (unfold routed; by rewrite Hr).
  pose proof (bare_call_verdict (dp_store s) d (bool_decide (i ∈ waited)) sources (dp_caches s)
    (do_nodes _ Hs) (do_files _ Hs) (do_shapes _ Hs) Hbare) as Hv. cbv zeta in Hv.
  set (v := verdict _ _ _ _ _ _ _ _ _ _ _ _ _ _ _) in *. clearbody v. destruct v as [v c']. cbn [fst] in Hv.
  apply bare_call_executed; try done; [apply Hs|apply Hs|by apply memory_true_enter, Hs].
Qed.

(** *** The waiting imports *)

Record settle_ok (s : Settling) : Prop := mkSettleOk {
  so_store : store_ok (se_store s);
  so_nodes : s_nodes (se_store s) = s_nodes st0;
  so_files : s_files (se_store s) = s_files st0;
  so_written : memory_true (se_written s) (se_store s);
  so_reexports : reexports_in (se_reexports s) (node_ids st0);
  so_left : ∀ x, x ∈ se_left s → parked x;
  so_relative : ∀ x, x ∈ se_relative s → x ∈ rels;
}.

#[local] Abbreviation settle := (settle_one from_str json_extract json_int python_module_map).

Lemma settle_one_ok x s :
  settle_ok s → parked x →
  ∃ s', settle x s = Ok s' ∧ settle_ok s' ∧ progress rels (se_store s) (se_store s')
    ∧ length (se_left s') + Nat.b2n (se_bound s') <= length (se_left s) + Nat.b2n (se_bound s) + 1.
Proof.
  intros [Hok Hn Hf Hw Hre Hleft Hrel] (Hin & Hown & Hsrc). destruct x as [[[i d] sources] files]. cbn [fst snd] in *. unfold settle_one.
  assert (∀ f e, e ∈ reexport_rows json_extract json_int (project (se_store s)) f → target e ∈ node_ids st0) as Hread.
  { intros f e He. rewrite <-(nodes_same_ids _ Hn). by eapply reexport_rows_in. }
  destruct (reexport_targets_in (λ f, reexport_rows json_extract json_int (project (se_store s)) f) python_module_map (node_ids st0) Hread
    (se_reexports s) files (dr_target_name d) Hre) as (targets & cache & -> & Hc & Ht).
  destruct targets as [|t ts].
  - eexists. split; [reflexivity|]. split; [|split; [by apply progress_refl|]].
    + split; cbn; try done. intros x [Hx| ->%list_elem_of_singleton]%elem_of_app; [by apply Hleft|done].
    + cbn. rewrite length_app. cbn. lia.
  - set (targets := t :: ts) in *. clearbody targets.
    destruct (fan_progress rels d sources targets (dr_metadata d) false (enter (dr_rel_path d) (se_written s)) (se_store s) Hok)
      as (n & w & st & -> & Hp & Hw' & _); [by apply memory_true_enter|done|by rewrite (nodes_same_ids _ Hn)|by rewrite (nodes_same_ids _ Hn)|].
    cbn [result_bind]. eexists. split; [reflexivity|]. split; [|split; [done|]].
    + split; cbn; try done.
      * apply Hp.
      * by rewrite (pg_nodes _ _ _ Hp).
      * by rewrite (pg_files _ _ _ Hp).
      * intros f es e Hl He. unfold forget in Hl. apply lookup_delete_Some in Hl as [_ Hl]. by eapply Hc.
      * intros x Hx. destruct (is_relative_import _ _); [apply elem_of_app in Hx as [Hx| ->%list_elem_of_singleton]; [by apply Hrel|done]|by apply Hrel].
    + cbn. destruct (se_bound s); cbn; lia.
Qed.

Lemma settle_all_ok xs s :
  settle_ok s → (∀ x, x ∈ xs → parked x) →
  ∃ s', try_fold settle xs s = Ok s' ∧ settle_ok s' ∧ progress rels (se_store s) (se_store s')
    ∧ length (se_left s') + Nat.b2n (se_bound s') <= length (se_left s) + Nat.b2n (se_bound s) + length xs.
Proof.
  revert s. induction xs as [|x xs IH]; intros s Hs Hxs; cbn [try_fold].
  { exists s. split; [done|]. split; [done|]. split; [apply progress_refl, Hs|cbn; lia]. }
  destruct (settle_one_ok x s Hs) as (s1 & -> & Hs1 & Hp1 & Hl1); [apply Hxs; by left|]. cbn [result_bind].
  destruct (IH s1 Hs1) as (s' & -> & Hs' & Hp' & Hl'); [intros y Hy; apply Hxs; by right|].
  exists s'. split; [done|]. split; [done|]. split; [by eapply progress_trans|cbn [length]; lia].
Qed.

(** A round that binds leaves fewer imports: one round more than the imports is enough. *)
Lemma settle_rounds_ok fuel waiting s :
  length waiting < fuel → settle_ok s → (∀ x, x ∈ waiting → parked x) →
  ∃ s', settle_rounds from_str json_extract json_int python_module_map fuel waiting s = Ok s' ∧ settle_ok s'
    ∧ progress rels (se_store s) (se_store s').
Proof.
  revert waiting s. induction fuel as [|fuel IH]; intros waiting s Hf Hs Hw; [lia|]. cbn [settle_rounds].
  set (s0 := mkSettling _ _ _ _ _ _ _). assert (settle_ok s0) as Hs0 by (destruct Hs; split; try done; by intros ? ?%elem_of_nil).
  destruct (settle_all_ok waiting s0 Hs0 Hw) as (s1 & -> & Hs1 & Hp1 & Hl1). cbn [result_bind].
  destruct (negb (se_bound s1) || bool_decide (se_left s1 = [])) eqn:Hc; [by exists s1|].
  apply orb_false_iff in Hc as [Hb%negb_false_iff _]. rewrite Hb in Hl1. cbn in Hl1.
  destruct (IH (se_left s1) s1) as (s' & -> & Hs' & Hp'); [lia|done|apply Hs1|].
  exists s'. split; [done|]. split; [done|]. by eapply progress_trans.
Qed.
End Pass.

(** ** What the pass does *)

Lemma defer_all_settled `{U : Unicode} like like_esc from_str to_string map_insert json_extract python_module_map all_file_paths crate_roots
    P st0 (HP : pools_in P st0) rels waited xs s s' i d j :
  let one := defer_one like like_esc from_str to_string map_insert json_extract python_module_map all_file_paths crate_roots P in
  defer_ok st0 rels s → xs ⊆ rels → try_fold (one waited) xs s = Ok s' →
  (i, d) ∈ xs → bare_call d → j ∈ dr_source_ids d → j ∈ node_ids st0 → settled from_str P st0 d j (dp_store s').
Proof.
  intros one Hs Hsub Hf Hin Hbare Hj Hlive. revert s Hs Hsub Hf Hin. induction xs as [|[k q] xs IH]; intros s Hs Hsub; cbn [try_fold].
  { by intros _ ?%elem_of_nil. }
  destruct (defer_one_ok like like_esc from_str to_string map_insert json_extract python_module_map all_file_paths crate_roots P st0 HP rels
    waited k q s Hs) as (s1 & H1 & Hs1 & _); [apply Hsub; by left|].
  assert (xs ⊆ rels) as Hsub' by (intros x Hx; apply Hsub; by right). fold one in H1. rewrite H1. cbn [result_bind].
  intros Hf [[= <- <-]|Hin]%elem_of_cons; [|by apply (IH s1)].
  destruct (defer_all_ok like like_esc from_str to_string map_insert json_extract python_module_map all_file_paths crate_roots P st0 HP rels
    waited xs s1 Hs1 Hsub') as (s2 & H2 & _ & Hp2). fold one in H2. rewrite Hf in H2. injection H2 as <-.
  eapply settled_progress; [exact Hp2|]. 
  eapply (bare_call_settled like like_esc from_str to_string map_insert json_extract python_module_map all_file_paths crate_roots P st0 HP rels
    waited i d s s1); try done. apply Hsub. by left.
Qed.

Section Final.
Context `{U : Unicode} (like like_esc : string → string → bool) (from_str : string → option json) (to_string : json → string).
Context (map_insert : string → json → list (string * json) → list (string * json)).
Context (json_extract : option string → string → option string) (json_int : option string → string → option Z).
Context (python_module_map : gmap string (list string)) (all_file_paths : gset string) (crate_roots : RustCrates).

(** What the pass leaves of the index it was given. *)
Record deferred_done (deferred : list DeferredRelation) (st st' : Store) : Prop := mkDone {
  dd_ok : store_ok st';
  dd_nodes : ∀ i, i ∈ node_ids st → i ∈ node_ids st';
  dd_minted : ∀ n, n ∈ s_nodes st' → node_id_of n ∉ node_ids st → ext_file st' (node_file_of n);
  dd_keys : keys_grow st st';
  dd_pending : ∀ i t l m, buffered st i t l m → buffered st' i t l m;
  dd_new : ∀ i t r m, (i, t, r, m) ∈ edge_keys st' → (i, t, r, m) ∈ edge_keys st ∨ asked (imap pair deferred) i r;
}.

(** The pass as far as the sentinels, and the sentinels. *)
Lemma deferred_run now deferred (map : NameMap) st :
  store_ok st →
  ∃ n m names st1 st', resolve_deferred_relations like like_esc from_str to_string map_insert json_extract json_int python_module_map
      all_file_paths crate_roots now deferred map st = Ok (n, m, st')
    ∧ progress (imap pair deferred) st st1 ∧ phase names st1 st'
    ∧ (∀ i t r x, (i, t, r, x) ∈ edge_keys st' → (i, t, r, x) ∈ edge_keys st1 ∨ asked (imap pair deferred) i r)
    ∧ ∀ d i, d ∈ deferred → bare_call d → i ∈ dr_source_ids d → i ∈ node_ids st → settled from_str (live_pools st map) st d i st1.
Proof.
  intros Hok. unfold resolve_deferred_relations. pose proof (live_pools_in st map) as HP. set (P := live_pools st map) in *. clearbody P.
  set (rels := imap pair deferred). cbv zeta.
  destruct (defer_all_ok like like_esc from_str to_string map_insert json_extract python_module_map all_file_paths crate_roots P st HP rels
    ∅ (filter (λ x, is_call_relation x = false) rels) (mkDefer st nothing_written no_caches 0 [] [])) as (s1 & -> & Hs1 & Hp1).
  { split; cbn; try done; by intros ? ?%elem_of_nil. }
  { intros x [_ ?]%list_elem_of_filter. done. }
  cbn [result_bind]. unfold settle_python_reexports.
  destruct (settle_rounds_ok from_str json_extract json_int python_module_map st rels (S (length (dp_waiting s1))) (dp_waiting s1)
    (mkSettling (dp_store s1) (dp_written s1) ∅ [] [] false 0)) as (se & -> & Hse & Hp2); [lia| |apply Hs1|].
  { split; cbn; try apply Hs1; [|by intros ? ?%elem_of_nil..]. intros f es e Hl. by rewrite lookup_empty in Hl. }
  cbn [result_bind se_store] in *. set (again := _ ++ se_relative se).
  assert (again ++ filter (λ x, is_call_relation x = true) rels ⊆ rels) as Hsub.
  { intros x [[(w & -> & Hw)%list_elem_of_fmap|Hx]%elem_of_app|[_ ?]%list_elem_of_filter]%elem_of_app; [|by apply Hse|done].
    by apply (so_left _ _ _ Hse). }
  set (s2 := mkDefer _ _ _ _ _ _). assert (defer_ok st rels s2) as Hs2.
  { split; cbn; try apply Hse; [apply Hs1|apply Hs1|by intros ? ?%elem_of_nil|apply Hs1]. }
  destruct (defer_all_ok like like_esc from_str to_string map_insert json_extract python_module_map all_file_paths crate_roots P st HP rels
    (list_to_set again.*1) (again ++ filter (λ x, is_call_relation x = true) rels) s2 Hs2 Hsub) as (s3 & Hf3 & Hs3 & Hp3).
  rewrite Hf3. cbn [result_bind]. assert (progress rels st (dp_store s3)) as Hp.
  { eapply progress_trans; [exact Hp1|]. by eapply progress_trans. }
  unfold mint_external_sentinels, mint_imports. rewrite bool_decide_true by done. cbn [result_bind].
  destruct (mint_refs_ok ((λ r, r.1.1.2) <$> dp_externals s3) now (dp_externals s3) 0 0 (dp_store s3) (do_store _ _ _ Hs3))
    as (n & m & st' & Hmint & Hph & _).
  { intros r Hr. split; [|by apply (list_elem_of_fmap_2 (λ r : ExternalRef, r.1.1.2))].
    rewrite (nodes_same_ids _ _ (do_nodes _ _ _ Hs3)). by apply (do_externals _ _ _ Hs3). }
  rewrite Hmint. cbn [result_bind]. eexists _, _, _, (dp_store s3), st'. split; [reflexivity|]. split; [done|]. split; [exact Hph|]. split.
  - intros i t r x Hk. eapply mint_refs_new in Hmint as [Hk'|(e & He & <- & <-)]; [by left| |exact Hk].
    right. by apply (do_externals _ _ _ Hs3).
  - intros d i Hd Hbare Hi Hlive. assert (∃ k, (k, d) ∈ rels) as [k Hk].
    { apply list_elem_of_lookup in Hd as [k Hk]. exists k. apply list_elem_of_lookup. exists k. unfold rels. by rewrite list_lookup_imap, Hk. }
    apply (defer_all_settled like like_esc from_str to_string map_insert json_extract python_module_map all_file_paths crate_roots P st HP rels
        _ _ s2 s3 k d i Hs2 Hsub Hf3); try done. apply elem_of_app; right; apply list_elem_of_filter; split; [|exact Hk].
    apply String.eqb_eq. apply Hbare.
Qed.

(** C15: Phase 2b-final ([resolve_deferred_relations]) on any deferred relations and name map, whatever nodes are gone by
    then: in a well-formed index it ends without a failed write (nothing refers to a node that is not there, and the
    rounds over the waiting Python imports end), the index is well-formed afterwards, no node, edge or buffered call is
    lost, every new node is a sentinel of the [<external>] file, and every new edge has the relation of a deferred
    relation and a source of it, or for a route without sources a recovered handler. A call of which only the name is
    known, when the name is no built-in's, goes from each of its live sources where it should, whatever the pass
    remembers: to each node of that name it may mean but the source itself (those of its own file if any, else the
    likeliest of the same language; a Rust call only to functions its shape admits), and when there is none into the
    buffer of unresolved calls. *)
Theorem resolve_deferred_relations_ok now deferred (map : NameMap) st :
  store_ok st →
  ∃ n m st', resolve_deferred_relations like like_esc from_str to_string map_insert json_extract json_int python_module_map
      all_file_paths crate_roots now deferred map st = Ok (n, m, st')
    ∧ deferred_done deferred st st'
    ∧ ∀ d i, d ∈ deferred → bare_call d → i ∈ dr_source_ids d → i ∈ node_ids st → settled from_str (live_pools st map) st d i st'.
Proof.
  intros Hok. destruct (deferred_run now deferred map st Hok) as (n & m & names & st1 & st' & Heq & Hp & Hph & Hnew & Hset).
  exists n, m, st'. split; [exact Heq|]. assert (node_ids st1 = node_ids st) as Hids by (unfold node_ids; by rewrite (pg_nodes _ _ _ Hp)).
  split; [split|].
  - apply Hph.
  - intros i Hi. eapply phase_ids; [exact Hph|]. by rewrite Hids.
  - intros x Hx Hn. destruct (ph_back _ _ _ Hph x Hx) as [(y & Hy & Hxy)|(He & _)]; [|done]. destruct Hn.
    rewrite <-Hids. assert (node_id_of x = node_id_of y) as -> by (destruct Hxy as [->|(_ & _ & ->)]; done).
    by apply list_elem_of_fmap_2.
  - intros k Hk. by apply (ph_edges _ _ _ Hph), (pg_keys _ _ _ Hp).
  - intros i t l mm Hb. unfold buffered. rewrite (ph_pending _ _ _ Hph). by apply (pg_pending _ _ _ Hp).
  - intros i t r mm [Hk|Ha]%Hnew; [by apply (pg_new _ _ _ Hp)|by right].
  - intros d i Hd Hbare Hi Hlive. specialize (Hset d i Hd Hbare Hi Hlive). unfold settled in *.
    destruct (bare_targets _ _ _ d) as [|t ts].
    + unfold buffered. by rewrite (ph_pending _ _ _ Hph).
    + intros x Hx Hne. by apply (ph_edges _ _ _ Hph), Hset.
Qed.
End Final.

(** ** Examples *)

(** [h] of [b.rs] calls [f] of another file and [nowhere]; [g] implements [Write]; the source of a last call is gone. *)
Definition demo_deferred : list DeferredRelation :=
  [mkDeferred [3%Z] "h" "f" REL_CALLS None "b.rs" "rust" None;
   mkDeferred [3%Z] "h" "nowhere" REL_CALLS None "b.rs" "rust" None;
   mkDeferred [2%Z] "g" "Write" REL_IMPLEMENTS None "b.rs" "rust" None;
   mkDeferred [77%Z] "gone" "f" REL_CALLS None "b.rs" "rust" None].
#[local] Abbreviation demo_deferred_run :=
  (resolve_deferred_relations (U := ascii_unicode) (λ _ _, false) (λ _ _, false) (λ _, None) (λ _, "") (λ k v l, (k, v) :: l)
     (λ _ _, None) (λ _ _, None) ∅ {["b.rs"]} (mkCrates ∅ ∅ ∅ false []) 7).

Example demo_deferred_run_done :
  match demo_deferred_run demo_deferred demo_names demo_store with
  | Ok (n, m, st) => (n, m) = (2, 1) ∧ drop 2 (edge_keys st) = [(3%Z, 1%Z, "calls", ""); (2%Z, 4%Z, "implements", "")]
      ∧ drop 1 (pending_key <$> s_pending st) = [(3%Z, "nowhere", "rust", "")]
      ∧ (λ x, (node_name_of x, Store.type_of x)) <$> s_nodes st = [("f", "function"); ("g", "function"); ("h", "function"); ("Write", "trait")]
  | Err _ => False
  end.
Proof. by vm_compute. Qed.

Lemma resolve_deferred_relations_ok_witness :
  ∃ n m st', demo_deferred_run demo_deferred demo_names demo_store = Ok (n, m, st')
    ∧ deferred_done demo_deferred demo_store st'
    ∧ ∀ d i, d ∈ demo_deferred → bare_call d → i ∈ dr_source_ids d → i ∈ node_ids demo_store →
        settled (U := ascii_unicode) (λ _, None) (live_pools demo_store demo_names) demo_store d i st'.
Proof.
  exact (resolve_deferred_relations_ok (U := ascii_unicode) (λ _ _, false) (λ _ _, false) (λ _, None) (λ _, "") (λ k v l, (k, v) :: l)
    (λ _ _, None) (λ _ _, None) ∅ {["b.rs"]} (mkCrates ∅ ∅ ∅ false []) 7 demo_deferred demo_names demo_store demo_store_ok).
Defined.
