(* ===== verification/Restore.v ===== *)
(** * Edges into files read again ([indexer/pipeline/index_files.rs])

    Phase 2c: the edges that other files had into a file of the batch were saved
    before its nodes went.  Each is bound to the file's new node of the same name,
    or its relation goes back to be resolved again. *)

From S2P Require Import Prelude Str Utf8 Domain Tables Store Queries Resolve RustUse RustFn ClassNames Pipeline Batch EdgeWrite.
From S2P Require Import JsExports JsFanOut.

(** What the loop over the saved edges changes. *)
Record Restoring := mkRestoring {
  rs_store : Store;
  rs_deferred : list DeferredRelation;
  rs_walks : option (gset string);          (* the temporary table [cg_js_requeued] *)
  rs_edges_created : nat;
  rs_requeued_typed : gset (Z * string * option string);
}.

(** [SELECT path, COALESCE(language, '') FROM files WHERE id = ?1], or two empty strings *)
Definition source_info (st : Store) (file_id : Z) : string * string :=
  match file_rows st file_id with
  | f :: _ => (file_path_of f, default "" (file_language f))
  | [] => ("", "")
  end.

(** The rows of a batch, by file and name: id, qualified name, type. *)
Definition batch_rows (pf : FileParsed) : list ((Z * string) * (Z * option string * string)) :=
  (λ x, let '(id, name, q, ty) := x in ((pf_file_id pf, name), (id, q, ty)))
    <$> zip (zip (zip (pf_node_ids pf) (pf_node_names pf)) (pf_node_qualified_names pf)) (pf_node_types pf).

Definition batch_name_to_ids (batch : list FileParsed) : gmap (Z * string) (list (Z * option string * string)) :=
  group_rows (pf ← batch; batch_rows pf).

Definition batch_fn_shapes (batch : list FileParsed) : gmap Z RustFnShape :=
  foldl (λ m pf, pf_rust_fn_shapes pf ∪ m) ∅ batch.

Definition delete_edges_with (source_id : Z) (relation : string) (metadata : option string) (st : Store) : Store :=
  mkStore (s_files st) (s_nodes st)
    (filter (λ e, ¬ (e_source_id (ee_edge e) = source_id ∧ e_relation (ee_edge e) = relation
                     ∧ metadata ≠ None ∧ e_metadata (ee_edge e) = metadata)) (s_edges st))
    (s_pending st) (s_cpp_fields st) (s_js_exports st) (s_meta st).

Section Restore.
Context (from_str : string → option json) (to_string : json → string).
Context (map_remove : string → list (string * json) → list (string * json)).
Context (names : gmap (Z * string) (list (Z * option string * string))) (shapes : gmap Z RustFnShape).
Context (batch_file_ids : gset Z) (run_file_paths done_paths : gset string).

Definition is_call (relation : string) : bool := String.eqb relation REL_CALLS.
Definition typed_call (relation : string) (metadata : option string) : bool :=
  is_call relation && bool_decide (is_Some (parse_callee_metadata from_str metadata)).
Definition renamed_import (relation : string) (metadata : option string) : bool :=
  is_call relation && match parse_callee_metadata from_str metadata with Some (Import _ _) => true | _ => false end.
Definition receiver_typed (relation : string) (metadata : option string) : bool :=
  is_call relation && match metadata with Some m => contains (json_key "rt") m | None => false end.
Definition attr_call (relation : string) (metadata : option string) : bool :=
  is_call relation && is_module_attr_call metadata.

(** The attribute of a synthetic import whose module now has a node of that name. *)
Definition attr_import (target_file_id : Z) (target_name relation : string) (metadata : option string) : option string :=
  if String.eqb relation REL_IMPORTS && String.eqb target_name MODULE_NODE_NAME then
    attr ← python_attr_of from_str metadata;
    if bool_decide (is_Some (names !! (target_file_id, attr))) then Some attr else None
  else None.

(** The filters a node of the name passes. *)
Definition restorable (src_path src_lang relation : string) (metadata target_qualified : option string)
    (found : Z * option string * string) : bool :=
  let '(id, q, ty) := found in
  let same := bool_decide (q = target_qualified) in
  (negb (typed_call relation metadata) || same)
  && (negb (String.eqb src_lang "python") || negb (String.eqb ty "method") || same)
  && (negb (String.eqb relation REL_INHERITS || String.eqb relation REL_IMPLEMENTS) || negb (one_of ["function"; "method"] ty))
  && (negb (is_call relation)
      || match shapes !! id with
         | Some shape => rust_call_shape_admits from_str metadata shape
                         && rust_crate_admits (if String.eqb src_path "" then None else Some src_path) shape
         | None => true
         end).

Definition new_target_ids (src_path src_lang : string) (row : SavedEdge) : list Z :=
  let '(_, _, target_file_id, target_name, relation, metadata, target_qualified) := row in
  if renamed_import relation metadata || receiver_typed relation metadata
     || bool_decide (is_Some (attr_import target_file_id target_name relation metadata)) then []
  else (λ found, found.1.1)
         <$> filter (λ found, restorable src_path src_lang relation metadata target_qualified found = true)
               (default [] (names !! (target_file_id, target_name))).

Definition restore_edge (source_id : Z) (relation : string) (metadata : option string) (t : Z) (s : nat * Store)
    : result string (nat * Store) :=
  if (source_id =? t)%Z then Ok s
  else (let? (new, st) := insert_edge_cached source_id t relation metadata s.2 in
        Ok (s.1 + (if new : bool then if is_synthetic_import relation metadata then 0 else 1 else 0), st))%cg.

(** The relation goes back to be resolved again. *)
Definition requeue (src_path src_lang : string) (row : SavedEdge) (s : Restoring) : result string Restoring :=
  let '(source_id, _, target_file_id, target_name, relation, metadata, _) := row in
  let attr := attr_import target_file_id target_name relation metadata in
  if receiver_typed relation metadata || attr_call relation metadata || bool_decide (is_Some attr) then
    let name := default target_name attr in
    if bool_decide ((source_id, name, metadata) ∈ rs_requeued_typed s) then Ok s
    else Ok (mkRestoring (if bool_decide (is_Some attr) then delete_edges_with source_id relation metadata (rs_store s) else rs_store s)
               (rs_deferred s ++ [mkDeferred [source_id] "" name relation metadata src_path src_lang None])
               (rs_walks s) (rs_edges_created s) ({[(source_id, name, metadata)]} ∪ rs_requeued_typed s))
  else if is_call relation then
    (let? st := insert_pending_unresolved_call source_id (js_import_pending_name from_str metadata target_name) src_lang metadata
                  (rs_store s) in
     Ok (mkRestoring st (rs_deferred s) (rs_walks s) (rs_edges_created s) (rs_requeued_typed s)))%cg
  else
    let '(name, meta) := as_extracted from_str to_string map_remove metadata target_name in
    Ok (mkRestoring (rs_store s) (rs_deferred s ++ [mkDeferred [source_id] "" name relation meta src_path src_lang None])
          (if negb (bool_decide (meta = metadata)) && negb (bool_decide (src_path ∈ run_file_paths))
           then requeued_walk_import src_path (rs_walks s) else rs_walks s)
          (rs_edges_created s) (rs_requeued_typed s)).

Definition restore_one (row : SavedEdge) (s : Restoring) : result string Restoring :=
  let '(source_id, source_file_id, _, _, relation, metadata, _) := row in
  if bool_decide (source_file_id ∈ batch_file_ids) then Ok s
  else
    let '(src_path, src_lang) := source_info (rs_store s) source_file_id in
    match new_target_ids src_path src_lang row with
    | [] =>
        if String.eqb src_path "" then Ok s
        else if bool_decide (src_path ∈ run_file_paths) && negb (bool_decide (src_path ∈ done_paths)) then Ok s
        else requeue src_path src_lang row s
    | targets =>
        (let? (n, st) := try_fold (restore_edge source_id relation metadata) targets (rs_edges_created s, rs_store s) in
         Ok (mkRestoring st (rs_deferred s) (rs_walks s) n (rs_requeued_typed s)))%cg
    end.
End Restore.

Definition restore_inbound_edges (from_str : string → option json) (to_string : json → string)
    (map_remove : string → list (string * json) → list (string * json)) (batch_parsed : list FileParsed)
    (batch_file_ids : gset Z) (saved_inbound_edges : list SavedEdge) (run_file_paths done_paths : gset string)
    (st : Store) (deferred : list DeferredRelation) (walks : option (gset string)) : result string Restoring :=
  try_fold (restore_one from_str to_string map_remove (batch_name_to_ids batch_parsed) (batch_fn_shapes batch_parsed)
              batch_file_ids run_file_paths done_paths)
    saved_inbound_edges (mkRestoring st deferred walks 0 ∅).

(** * Properties *)

Section RestoreOk.
Context (from_str : string → option json) (to_string : json → string).
Context (map_remove : string → list (string * json) → list (string * json)).
Context (names : gmap (Z * string) (list (Z * option string * string))) (shapes : gmap Z RustFnShape).
Context (batch_file_ids : gset Z) (run_file_paths done_paths : gset string).
#[local] Abbreviation one := (restore_one from_str to_string map_remove names shapes batch_file_ids run_file_paths done_paths).
#[local] Abbreviation targets_of := (new_target_ids from_str names shapes).

(** A relation that goes back to the deferred pass under the key. *)
Definition awaits (deferred : list DeferredRelation) (source_id : Z) (relation metadata : string) : Prop :=
  ∃ d, d ∈ deferred ∧ dr_source_ids d = [source_id] ∧ dr_relation d = relation ∧ default "" (dr_metadata d) = metadata.

(** The saved edge is not forgotten: it is back on the file's new nodes, or its relation will be resolved again. *)
Definition handled (s : Restoring) (src_path src_lang : string) (row : SavedEdge) : Prop :=
  let '(source_id, _, target_file_id, target_name, relation, metadata, _) := row in
  (targets_of src_path src_lang row ≠ []
   ∧ ∀ t, t ∈ targets_of src_path src_lang row → t ≠ source_id →
       (source_id, t, relation, default "" metadata) ∈ edge_keys (rs_store s)
       ∨ awaits (rs_deferred s) source_id relation (default "" metadata))
  ∨ awaits (rs_deferred s) source_id relation (default "" metadata)
  ∨ awaits (rs_deferred s) source_id relation (default "" (as_extracted from_str to_string map_remove metadata target_name).2)
  ∨ relation = REL_CALLS
    ∧ buffered (rs_store s) source_id (js_import_pending_name from_str metadata target_name) src_lang metadata.

(** The relations that are queued once per source, name and metadata. *)
Definition once (row : SavedEdge) : bool :=
  let '(_, _, target_file_id, target_name, relation, metadata, _) := row in
  receiver_typed relation metadata || attr_call relation metadata
  || bool_decide (is_Some (attr_import from_str names target_file_id target_name relation metadata)).

(** What a step may change. *)
Record restored (s s' : Restoring) : Prop := mkRestored {
  rt_ok : store_ok (rs_store s');
  rt_files : s_files (rs_store s') = s_files (rs_store s);
  rt_nodes : s_nodes (rs_store s') = s_nodes (rs_store s);
  rt_deferred : rs_deferred s ⊆ rs_deferred s';
  rt_pending : ∀ i t l m, buffered (rs_store s) i t l m → buffered (rs_store s') i t l m;
  rt_edges : ∀ i t r m, (i, t, r, m) ∈ edge_keys (rs_store s) → (i, t, r, m) ∈ edge_keys (rs_store s') ∨ awaits (rs_deferred s') i r m;
}.

Lemma awaits_mono d d' i r m : d ⊆ d' → awaits d i r m → awaits d' i r m.
Proof. intros Hs (x & Hx & ?). exists x. split; [by apply Hs|done]. Qed.

Lemma restored_refl s : store_ok (rs_store s) → restored s s.
Proof. intros Hok. by split; auto. Qed.

Lemma restored_trans s1 s2 s3 : restored s1 s2 → restored s2 s3 → restored s1 s3.
Proof.
  intros H1 H2. split.
  - apply H2.
  - by rewrite (rt_files _ _ H2), (rt_files _ _ H1).
  - by rewrite (rt_nodes _ _ H2), (rt_nodes _ _ H1).
  - etrans; [apply H1|apply H2].
  - intros ???? Hb. by apply H2, H1.
  - intros i t r m Hk. destruct (rt_edges _ _ H1 _ _ _ _ Hk) as [Hk1|Ha]; [by apply H2|].
    right. eapply awaits_mono; [apply H2|done].
Qed.

Lemma handled_mono s s' p l row : restored s s' → handled s p l row → handled s' p l row.
Proof.
  destruct row as [[[[[[i sf] tf] tn] rel] meta] tq]. intros H [[Hne Hall]|[Ha|[Ha|[Hr Hb]]]].
  - left. split; [done|]. intros t Ht Hti. destruct (Hall t Ht Hti) as [Hk|Ha]; [by apply H|].
    right. eapply awaits_mono; [apply H|done].
  - right; left. eapply awaits_mono; [apply H|done].
  - right; right; left. eapply awaits_mono; [apply H|done].
  - do 3 right. split; [done|by apply H].
Qed.
Definition row_source (row : SavedEdge) : Z := row.1.1.1.1.1.1.
Definition row_file (row : SavedEdge) : Z := row.1.1.1.1.1.2.
Definition row_relation (row : SavedEdge) : string := row.1.1.2.
Definition row_metadata (row : SavedEdge) : option string := row.1.2.

Context (rows : list SavedEdge).
(** A call and an import of one source never carry the same metadata where that is the key. *)
Context (Hapart : ∀ r r', r ∈ rows → r' ∈ rows → once r = true → once r' = true →
  row_source r = row_source r' → row_metadata r = row_metadata r' → row_relation r = row_relation r').

(** What is remembered as queued is queued. *)
Definition memory_ok (s : Restoring) : Prop :=
  ∀ i n m, (i, n, m) ∈ rs_requeued_typed s →
    ∃ r, r ∈ rows ∧ once r = true ∧ row_source r = i ∧ row_metadata r = m ∧ awaits (rs_deferred s) i (row_relation r) (default "" m).

Lemma memory_mono s s' : rs_requeued_typed s' = rs_requeued_typed s → rs_deferred s ⊆ rs_deferred s' → memory_ok s → memory_ok s'.
Proof.
  intros Ht Hd Hm i n m. rewrite Ht. intros (r & ? & ? & ? & ? & Ha)%Hm. exists r. split_and!; try done. by eapply awaits_mono.
Qed.

(** It is one of the store's statements. *)
Lemma delete_edges_with_op i r m st : ∃ dead, delete_edges_with i r m st = exec_op (DeleteEdgesWhere dead) st.
Proof. eexists. symmetry. apply delete_edges_filter. Qed.

Lemma delete_edges_ok i r m st : store_ok st → store_ok (delete_edges_with i r m st).
Proof. destruct (delete_edges_with_op i r m st) as [dead ->]. apply exec_op_ok. Qed.

Lemma delete_edges_keys i r m st i' t' r' m' :
  (i', t', r', m') ∈ edge_keys st → (i', t', r', m') ∈ edge_keys (delete_edges_with i r m st) ∨ i' = i ∧ r' = r ∧ m' = default "" m.
Proof.
  intros (e & Hk & He)%list_elem_of_fmap. destruct (decide (e_source_id (ee_edge e) = i ∧ e_relation (ee_edge e) = r
    ∧ m ≠ None ∧ e_metadata (ee_edge e) = m)) as [(H1 & H2 & H3 & H4)|Hno].
  - right. injection Hk as -> -> -> ->. by rewrite H4.
  - left. rewrite Hk. apply list_elem_of_fmap_2. by apply list_elem_of_filter.
Qed.

Lemma restore_edges_ok i r m ts n st :
  store_ok st → i ∈ node_ids st → (∀ t, t ∈ ts → t ∈ node_ids st) →
  ∃ n' st', try_fold (restore_edge i r m) ts (n, st) = Ok (n', st') ∧ store_ok st' ∧ s_files st' = s_files st
    ∧ s_nodes st' = s_nodes st ∧ s_pending st' = s_pending st ∧ keys_grow st st'
    ∧ ∀ t, t ∈ ts → t ≠ i → (i, t, r, default "" m) ∈ edge_keys st'.
Proof.
  revert n st. induction ts as [|t ts IH]; intros n st Hok Hi Hts; cbn [try_fold].
  { exists n, st. split_and!; try done; [by intros k|by intros ? ?%elem_of_nil]. }
  assert (∃ n1 st1, restore_edge i r m t (n, st) = Ok (n1, st1) ∧ store_ok st1 ∧ s_files st1 = s_files st ∧ s_nodes st1 = s_nodes st
    ∧ s_pending st1 = s_pending st ∧ keys_grow st st1 ∧ (t ≠ i → (i, t, r, default "" m) ∈ edge_keys st1))
    as (n1 & st1 & -> & Hok1 & Hf1 & Hn1 & Hp1 & Hg1 & Hk1).
  { unfold restore_edge. destruct (Z.eqb_spec i t) as [->|Hne]; [exists n, st; split_and!; try done; by intros k|]. cbn [fst snd].
    pose proof (insert_edge_ok i t r m st Hok) as Hok1. unfold insert_edge_cached.
    assert (∃ b st1, insert_edge i t r m st = Ok (b, st1) ∧ s_files st1 = s_files st ∧ s_nodes st1 = s_nodes st
      ∧ s_pending st1 = s_pending st) as (b & st1 & He & H1 & H2 & H3).
    { unfold insert_edge. case_bool_decide; [by eexists _, _|]. rewrite !bool_decide_true; [by eexists _, _|apply Hts; by left|done]. }
    rewrite He in Hok1 |- *. apply insert_edge_grow in He as [Hg Hk]. cbn [result_bind]. eexists _, st1. split; [reflexivity|].
    split_and!; done. }
  cbn [result_bind]. destruct (IH n1 st1 Hok1) as (n' & st' & -> & Hok' & Hf' & Hn' & Hp' & Hg' & Hk').
  { unfold node_ids. by rewrite Hn1. }
  { intros t' Ht'. unfold node_ids. rewrite Hn1. apply Hts. by right. }
  exists n', st'. split_and!; try congruence; try done; [intros k Hk; by apply Hg', Hg1|].
  intros t' [->|Ht']%elem_of_cons Hne; [by apply Hg', Hk1|by apply Hk'].
Qed.

Lemma requeue_ok p l row s :
  store_ok (rs_store s) → memory_ok s → row ∈ rows → row_source row ∈ node_ids (rs_store s) →
  ∃ s', requeue from_str to_string map_remove names run_file_paths p l row s = Ok s' ∧ restored s s' ∧ memory_ok s' ∧ handled s' p l row.
Proof.
  destruct row as [[[[[[i sf] tf] tn] rel] meta] tq] eqn:Hrow. intros Hok Hmem Hin Hi. cbn [row_source fst] in Hi. unfold requeue.
  set (attr := attr_import from_str names tf tn rel meta).
  destruct (receiver_typed rel meta || attr_call rel meta || bool_decide (is_Some attr)) eqn:Honce.
  { assert (once row = true) as Hrow' by (rewrite Hrow; exact Honce). rewrite <-Hrow in Hin.
    destruct (decide ((i, default tn attr, meta) ∈ rs_requeued_typed s)) as [Ht|Ht];
      [rewrite bool_decide_true by exact Ht|rewrite bool_decide_false by exact Ht].
    - exists s. split; [done|]. split; [by apply restored_refl|]. split; [done|]. destruct (Hmem _ _ _ Ht) as (r & Hr & Hro & Hrs & Hrm & Ha).
      right; left. assert (row_relation r = rel) as <-; [|done].
      rewrite (Hapart r row Hr Hin Hro Hrow'); by rewrite Hrow.
    - eexists. split; [reflexivity|]. set (dnew := mkDeferred _ _ _ _ _ _ _ _).
      assert (awaits (rs_deferred s ++ [dnew]) i rel (default "" meta)) as Ha.
      { exists dnew. split; [apply elem_of_app; right; by left|done]. }
      split; [|split; [|by right; left]].
      + destruct (bool_decide (is_Some attr)); split; cbn [rs_store rs_deferred]; try done;
          try (intros d Hd; apply elem_of_app; by left).
        * by apply delete_edges_ok.
        * intros i' t' r' m' Hk. destruct (delete_edges_keys i rel meta _ _ _ _ _ Hk) as [?|(-> & -> & ->)]; [by left|by right].
        * by left.
      + intros i' n' m' [[= -> -> ->]%elem_of_singleton|Hold]%elem_of_union.
        * exists row. rewrite Hrow in *. split_and!; done.
        * destruct (Hmem _ _ _ Hold) as (r & ? & ? & ? & ? & ?). exists r. split_and!; try done.
          eapply awaits_mono; [|done]. set_solver. }
  destruct (is_call rel) eqn:Hcall.
  - destruct (insert_pending_total i (js_import_pending_name from_str meta tn) l meta (rs_store s) Hok Hi)
      as (st' & -> & Hok' & (ps & -> & Hps) & Hb). cbn [result_bind]. eexists. split; [reflexivity|].
    split; [|split; [by eapply memory_mono; [| |exact Hmem]|]].
    + split; try done; cbn [rs_store set_pending]; [|by left]. intros ???? Hb'. unfold buffered in *. cbn [s_pending]. by apply Hps.
    + do 3 right. split; [by apply String.eqb_eq|done].
  - destruct (as_extracted from_str to_string map_remove meta tn) as [name meta'] eqn:Has. eexists. split; [reflexivity|].
    split; [|split; [eapply memory_mono; [| |exact Hmem]; cbn; set_solver|]].
    + split; try done; cbn [rs_store rs_deferred]; [set_solver|by left].
    + right; right; left. rewrite Has. cbn [rs_deferred snd]. eexists. split; [apply elem_of_app; right; by left|done].
Qed.

Lemma restore_one_ok row s :
  store_ok (rs_store s) → memory_ok s → row ∈ rows →
  (row_file row ∉ batch_file_ids → row_source row ∈ node_ids (rs_store s)) →
  (∀ k found x, names !! k = Some found → x ∈ found → x.1.1 ∈ node_ids (rs_store s)) →
  ∃ s', one row s = Ok s' ∧ restored s s' ∧ memory_ok s'
    ∧ ∀ p l, row_file row ∉ batch_file_ids → source_info (rs_store s) (row_file row) = (p, l) → p ≠ "" →
        p ∉ run_file_paths ∨ p ∈ done_paths → handled s' p l row.
Proof.
  intros Hok Hmem Hin Hi Hnames. unfold restore_one. destruct row as [[[[[[i sf] tf] tn] rel] meta] tq] eqn:Hrow.
  cbn [row_file row_source fst snd] in *. case_bool_decide as Hb.
  { exists s. split; [done|]. split; [by apply restored_refl|]. split; [done|]. by intros. }
  specialize (Hi Hb). destruct (source_info (rs_store s) sf) as [p l] eqn:Hinfo. rewrite <-Hrow.
  destruct (targets_of p l row) as [|t0 ts] eqn:Hts.
  - destruct (String.eqb_spec p "") as [->|Hp].
    { exists s. split; [done|]. split; [by apply restored_refl|]. split; [done|]. intros ? ? _ [= <- <-]. done. }
    destruct (bool_decide (p ∈ run_file_paths) && negb (bool_decide (p ∈ done_paths))) eqn:Hlater.
    { exists s. split; [done|]. split; [by apply restored_refl|]. split; [done|]. intros ? ? _ [= <- <-] _ Hnot. exfalso.
      apply andb_true_iff in Hlater as [H1%bool_decide_eq_true H2%negb_true_iff%bool_decide_eq_false]. tauto. }
    destruct (requeue_ok p l row s Hok Hmem) as (s' & Hs' & Hr & Hm & Hh); [by rewrite Hrow|by rewrite Hrow|].
    exists s'. split; [done|]. split; [done|]. split; [done|]. by intros ? ? _ [= <- <-].
  - destruct (restore_edges_ok i rel meta (t0 :: ts) (rs_edges_created s) (rs_store s) Hok Hi)
      as (n' & st' & -> & Hok' & Hf' & Hn' & Hp' & Hg' & Hk').
    { intros t Ht. rewrite <-Hts, Hrow in Ht. unfold new_target_ids in Ht. destruct (_ || _); [by apply elem_of_nil in Ht|].
      apply list_elem_of_fmap in Ht as (x & -> & [_ Hx]%list_elem_of_filter).
      destruct (names !! (tf, tn)) as [found|] eqn:Hf; [by eapply Hnames|by apply elem_of_nil in Hx]. }
    cbn [result_bind]. eexists. split; [reflexivity|]. split; [|split; [by eapply memory_mono; [| |exact Hmem]|]].
    + split; try done; cbn [rs_store]; [|by left; apply Hg']. intros ????. unfold buffered. by rewrite Hp'.
    + intros ? ? _ [= <- <-] _ _. rewrite Hrow in *. left. rewrite Hts. split; [done|]. intros t Ht Hti. left. by apply Hk'.
Qed.

Lemma restore_all_ok rs s :
  rs ⊆ rows → store_ok (rs_store s) → memory_ok s →
  (∀ row, row ∈ rs → row_file row ∉ batch_file_ids → row_source row ∈ node_ids (rs_store s)) →
  (∀ k found x, names !! k = Some found → x ∈ found → x.1.1 ∈ node_ids (rs_store s)) →
  ∃ s', try_fold one rs s = Ok s' ∧ restored s s'
    ∧ ∀ row p l, row ∈ rs → row_file row ∉ batch_file_ids → source_info (rs_store s) (row_file row) = (p, l) → p ≠ "" →
        p ∉ run_file_paths ∨ p ∈ done_paths → handled s' p l row.
Proof.
  revert s. induction rs as [|row rs IH]; intros s Hsub Hok Hmem Hi Hnames; cbn [try_fold].
  { exists s. split; [done|]. split; [by apply restored_refl|]. by intros ? ? ? ?%elem_of_nil. }
  destruct (restore_one_ok row s Hok Hmem) as (s1 & -> & Hr1 & Hm1 & Hh1); [set_solver|by apply Hi; left|done|]. cbn [result_bind].
  destruct (IH s1) as (s' & -> & Hr' & Hh').
  { set_solver. }
  { apply Hr1. }
  { done. }
  { intros r Hr Hb. unfold node_ids. rewrite (rt_nodes _ _ Hr1). apply Hi; [by right|done]. }
  { intros k found x Hk Hx. unfold node_ids. rewrite (rt_nodes _ _ Hr1). by eapply Hnames. }
  exists s'. split; [done|]. split; [by eapply restored_trans|]. intros r p l [->|Hr]%elem_of_cons Hb Hinfo Hp Hnot.
  - eapply handled_mono; [done|]. by apply Hh1.
  - apply Hh'; try done. unfold source_info, file_rows in *. by rewrite (rt_files _ _ Hr1).
Qed.
End RestoreOk.

(** ** The batch whose edges come back *)

Section Batched.
Context `{U : Unicode} (now : string → Z).

Lemma insert_batch_done pps st b st' :
  store_ok st → NoDup (pp_rel_path <$> pps) → insert_batch_nodes now pps st = Ok (b, st') →
  batch_done pps st (bi_parsed b) (bi_saved_inbound_edges b) st' ∧ bi_file_ids b = list_to_set (pf_file_id <$> bi_parsed b).
Proof.
  intros Hok Hnd. unfold insert_batch_nodes.
  destruct (insert_batch_loop now pps (mkInserted [] [] ∅ 0) st Hok Hnd) as (pfs & saved & st1 & -> & Hd).
  intros [= <- <-]. cbn. by rewrite (right_id_L ∅ (∪)).
Qed.

Lemma batch_names_nodes pps st0 pfs saved st k found x :
  batch_done pps st0 pfs saved st → batch_name_to_ids pfs !! k = Some found → x ∈ found → x.1.1 ∈ node_ids st.
Proof.
  intros Hd Hk Hx. assert (x ∈ default [] (batch_name_to_ids pfs !! k)) as Hin by by rewrite Hk.
  apply elem_of_grouped in Hin. apply list_elem_of_bind in Hin as (pf & Hrow & Hpf). unfold batch_rows in Hrow.
  apply list_elem_of_fmap in Hrow as ([[[id name] q] ty] & [= _ ->] & Hz). cbn [fst].
  apply elem_of_zip_l, elem_of_zip_l, elem_of_zip_l in Hz. apply list_elem_of_lookup in Hpf as (i & Hi).
  destruct (Forall2_lookup_r _ _ _ _ _ (bd_recorded _ _ _ _ _ Hd) Hi) as (pp & _ & [_ _ Hlen Hnodes]).
  apply list_elem_of_lookup in Hz as (j & Hj).
  destruct (lookup_lt_is_Some_2 (file_records (pf_file_id pf) pp) j) as [r Hr].
  { apply lookup_lt_Some in Hj. unfold file_records. cbn [length]. rewrite length_fmap. lia. }
  assert (node_of_record id r ∈ nodes_in (pf_file_id pf) st) as Hn.
  { rewrite Hnodes. apply elem_of_lookup_zip_with. by exists j, id, r. }
  apply elem_of_nodes_in in Hn as [Hn _]. apply list_elem_of_fmap. by exists (node_of_record id r).
Qed.

Lemma saved_source pps st0 pfs saved st row :
  batch_done pps st0 pfs saved st → row ∈ saved → row_file row ∉ pf_file_id <$> pfs → row_source row ∈ node_ids st.
Proof.
  intros Hd Hrow Hf. apply (bd_saved _ _ _ _ _ Hd) in Hrow as (e & ns & nt & (_ & Hns & Hid & _) & Hfile & _ & ->); [|done].
  apply list_elem_of_fmap. exists ns. split; [done|].
  assert (ns ∈ nodes_in (node_file_of ns) st) as Hin by (rewrite (bd_nodes _ _ _ _ _ Hd) by done; by apply elem_of_nodes_in).
  apply elem_of_nodes_in in Hin. tauto.
Qed.

(** C12: No edge into a file of the batch is lost ([insert_batch_nodes], [restore_inbound_edges]). The files of a batch are
    inserted into a well-formed index, and the phases in between only add nodes. Then the restore does not fail, changes
    no file and no node and leaves the index well-formed; and every edge a file outside the batch had into one of its
    files, read before the purge, is back from its source to each node of the file that the filters accept, or its
    relation is waiting to be resolved again: in the deferred pass, or, for a call, in the persistent buffer. The files
    left out are those the index no longer lists and those a later batch reads again, as the code says. Of an edge that was
    there before, only the source's edges of a requeued import may go, and those are waiting. The hypothesis on the rows
    excludes a call and an import of one source with the same metadata, which share a slot of [requeued_typed]. *)
Theorem restore_inbound_edges_ok from_str to_string map_remove pps st0 b st1 st run_file_paths done_paths deferred walks :
  store_ok st0 → NoDup (pp_rel_path <$> pps) → insert_batch_nodes now pps st0 = Ok (b, st1) →
  store_ok st → s_nodes st1 ⊆ s_nodes st →
  (∀ r r', r ∈ bi_saved_inbound_edges b → r' ∈ bi_saved_inbound_edges b →
     once from_str (batch_name_to_ids (bi_parsed b)) r = true → once from_str (batch_name_to_ids (bi_parsed b)) r' = true →
     row_source r = row_source r' → row_metadata r = row_metadata r' → row_relation r = row_relation r') →
  ∃ s', restore_inbound_edges from_str to_string map_remove (bi_parsed b) (bi_file_ids b) (bi_saved_inbound_edges b)
          run_file_paths done_paths st deferred walks = Ok s'
    ∧ restored (mkRestoring st deferred walks 0 ∅) s'
    ∧ ∀ e ns nt p l, joins st0 e ns nt → node_file_of ns ∉ pf_file_id <$> bi_parsed b →
        node_file_of nt ∈ pf_file_id <$> bi_parsed b →
        source_info st (node_file_of ns) = (p, l) → p ≠ "" → p ∉ run_file_paths ∨ p ∈ done_paths →
        handled from_str to_string map_remove (batch_name_to_ids (bi_parsed b)) (batch_fn_shapes (bi_parsed b)) s' p l
          (saved_row e ns nt).
Proof.
  intros Hok0 Hnd Hins Hok Hsub Hapart. destruct (insert_batch_done _ _ _ _ Hok0 Hnd Hins) as [Hd Hids].
  assert (node_ids st1 ⊆ node_ids st) as Hn by (intros i (n & -> & Hn)%list_elem_of_fmap; apply list_elem_of_fmap_2; by apply Hsub).
  assert (∀ f, f ∉ bi_file_ids b → f ∉ pf_file_id <$> bi_parsed b) as Hout by (intros f; rewrite Hids; set_solver).
  destruct (restore_all_ok from_str to_string map_remove (batch_name_to_ids (bi_parsed b)) (batch_fn_shapes (bi_parsed b))
    (bi_file_ids b) run_file_paths done_paths (bi_saved_inbound_edges b) Hapart (bi_saved_inbound_edges b)
    (mkRestoring st deferred walks 0 ∅)) as (s' & Hs' & Hr & Hh); try done.
  { intros row Hrow Hf. apply Hn. eapply saved_source; [done..|]. by apply Hout. }
  { intros k found x Hk Hx. apply Hn. by eapply batch_names_nodes. }
  exists s'. split; [done|]. split; [done|]. intros e ns nt p l Hj Hns Hnt Hinfo Hp Hrun.
  apply Hh; [|rewrite Hids; set_solver|done..]. apply (bd_saved _ _ _ _ _ Hd); [done|]. by exists e, ns, nt.
Qed.
End Batched.

Definition demo_batch : list FilePreParsed := [demo_parsed "a.rs" ["f"]; demo_parsed "c.rs" ["k"; "l"]].
Definition demo_read : option json := None.
Definition demo_inserted : BatchInserted * Store :=
  default (mkInserted [] [] ∅ 0, demo_store)
    (match insert_batch_nodes (U := ascii_unicode) (λ _, 9%Z) demo_batch demo_store with Ok x => Some x | Err _ => None end).

(** [b.rs] calls [f] of [a.rs], which is read again: the call is on the new [f]. *)
Example demo_restored :
  match restore_inbound_edges (λ _, demo_read) (λ _, "") (λ _ l, l) (bi_parsed demo_inserted.1) (bi_file_ids demo_inserted.1)
          (bi_saved_inbound_edges demo_inserted.1) ∅ ∅ demo_inserted.2 [] None with
  | Ok s => edge_keys demo_inserted.2 = [(2%Z, 3%Z, "calls", "")]
              ∧ edge_keys (rs_store s) = [(2%Z, 3%Z, "calls", ""); (2%Z, 5%Z, "calls", "")] ∧ rs_edges_created s = 1
  | Err _ => False
  end.
Proof. by vm_compute. Qed.

Lemma demo_inserted_ok : insert_batch_nodes (U := ascii_unicode) (λ _, 9%Z) demo_batch demo_store = Ok (demo_inserted.1, demo_inserted.2).
Proof. by vm_compute. Qed.

Lemma demo_inserted_store : store_ok demo_inserted.2.
Proof.
  destruct (insert_batch_done (U := ascii_unicode) (λ _, 9%Z) demo_batch demo_store demo_inserted.1 demo_inserted.2 demo_store_ok) as [Hd _].
  - apply (bool_decide_unpack _). by vm_compute.
  - exact demo_inserted_ok.
  - apply Hd.
Qed.

Lemma demo_saved_one r : r ∈ bi_saved_inbound_edges demo_inserted.1 → r = (2%Z, 2%Z, 1%Z, "f", "calls", None, None).
Proof. assert (bi_saved_inbound_edges demo_inserted.1 = [(2%Z, 2%Z, 1%Z, "f", "calls", None, None)]) as -> by by vm_compute. by intros ?%list_elem_of_singleton. Qed.

Lemma demo_saved_apart r r' :
  r ∈ bi_saved_inbound_edges demo_inserted.1 → r' ∈ bi_saved_inbound_edges demo_inserted.1 →
  once (λ _, demo_read) (batch_name_to_ids (bi_parsed demo_inserted.1)) r = true →
  once (λ _, demo_read) (batch_name_to_ids (bi_parsed demo_inserted.1)) r' = true →
  row_source r = row_source r' → row_metadata r = row_metadata r' → row_relation r = row_relation r'.
Proof. intros Hr Hr' _ _ _ _. rewrite (demo_saved_one r Hr), (demo_saved_one r' Hr'). reflexivity. Qed.

Lemma demo_batch_paths : NoDup (pp_rel_path <$> demo_batch).
Proof. apply (bool_decide_unpack _). by vm_compute. Qed.

Lemma restore_inbound_edges_ok_witness :
  ∃ s', restore_inbound_edges (λ _, demo_read) (λ _, "") (λ _ l, l) (bi_parsed demo_inserted.1) (bi_file_ids demo_inserted.1)
          (bi_saved_inbound_edges demo_inserted.1) ∅ ∅ demo_inserted.2 [] None = Ok s'
    ∧ restored (mkRestoring demo_inserted.2 [] None 0 ∅) s'.
Proof.
  destruct (restore_inbound_edges_ok (U := ascii_unicode) (λ _, 9%Z) (λ _, demo_read) (λ _, "") (λ _ l, l) demo_batch demo_store
    demo_inserted.1 demo_inserted.2 demo_inserted.2 ∅ ∅ [] None demo_store_ok demo_batch_paths demo_inserted_ok demo_inserted_store
    (λ x H, H) demo_saved_apart) as (s' & Hs' & Hr & _).
  exists s'. split; [exact Hs'|exact Hr].
Defined.
