(* ===== verification/Fusion.v ===== *)
(** * Rank fusion ([search/fusion.rs])

    Reciprocal rank fusion of the full-text and the vector results.  The code
    computes in [f64]; the definitions are written over a class [Score] of number
    types with two instances: IEEE 754 binary64 ([f64], executable, rounding and
    all) and the rationals ([Qc]), in which the arithmetic of the comments is
    exact. *)

From S2P Require Import Prelude.
From Stdlib Require Import SpecFloat QArith Qcanon Qround Lqa.

#[local] Open Scope Z_scope.

Class Score (S : Type) := {
  s_of_Z : Z → S;             (* [as f64] and literals *)
  s_half : S;                 (* [0.5] *)
  s_add : S → S → S;
  s_mul : S → S → S;
  s_div : S → S → S;
  s_max : S → S → S;          (* [f64::max] *)
  s_pos : S → bool;           (* [x > 0.0] *)
  s_round : S → S;            (* [f64::round] *)
  s_total_cmp : S → S → comparison  (* [f64::total_cmp] *)
}.

Record SearchResult (S : Type) := mkSearchResult { node_id : Z; score : S }.
Arguments mkSearchResult {S}.
Arguments node_id {S}.
Arguments score {S}.

Section Fusion.
Context {S : Type} `{!Score S}.

Definition s_zero : S := s_of_Z 0.
Definition s_one : S := s_of_Z 1.

Definition blend_scale (k : Z) : S :=
  let k_f := s_of_Z k in
  s_div s_half (s_mul (s_add k_f s_one) (s_add k_f (s_of_Z 2))).

(** [fold(0.0, f64::max)] over the scores *)
Definition max_score (rs : list (SearchResult S)) : S :=
  foldl s_max s_zero (score <$> rs).

(** What the result of a rank adds to its node's score. *)
Definition rank_score (k : Z) (weight max : S) (rank : nat) (r : SearchResult S) : S :=
  let rrf := s_div weight (s_add (s_add (s_of_Z k) (s_of_Z (Z.of_nat rank))) s_one) in
  let blend := if s_pos max then s_mul (s_mul (blend_scale k) weight) (s_div (s_max (score r) s_zero) max)
               else s_zero in
  s_add rrf blend.

(** [*scores.entry(id).or_default() += x] *)
Definition add_score (m : gmap Z S) (p : Z * S) : gmap Z S :=
  <[p.1 := s_add (default s_zero (m !! p.1)) p.2]> m.

Definition source_scores (k : Z) (weight : S) (rs : list (SearchResult S)) : list (Z * S) :=
  imap (λ rank r, (node_id r, rank_score k weight (max_score rs) rank r)) rs.

Definition fused_scores (fts vecs : list (SearchResult S)) (k : Z) (fts_weight vec_weight : S) : gmap Z S :=
  foldl add_score ∅ (source_scores k fts_weight fts ++ source_scores k vec_weight vecs).

(** Best score first, then the smaller id. *)
Definition rank_cmp : SearchResult S → SearchResult S → comparison :=
  cmp_then (cmp_rev (cmp_by score s_total_cmp)) (cmp_by node_id Z.compare).

(** The map is iterated in any order. *)
Definition ranked (l : list (Z * S)) (top_k : nat) : list (SearchResult S) :=
  take top_k (sort_cmp rank_cmp ((λ p, mkSearchResult p.1 p.2) <$> l)).

Definition weighted_rrf_fusion (fts vecs : list (SearchResult S)) (k : Z) (top_k : nat)
    (fts_weight vec_weight : S) : list (SearchResult S) :=
  ranked (map_to_list (fused_scores fts vecs k fts_weight vec_weight)) top_k.

Definition EXACT_NAME_MATCH_BONUS : S := s_of_Z 100.

Definition final_adjusted_score (base_score name_boost size_factor doc_penalty : S) (is_exact_name : bool) : S :=
  if is_exact_name then s_add base_score EXACT_NAME_MATCH_BONUS
  else s_div (s_round (s_mul (s_mul (s_mul (s_mul base_score name_boost) size_factor) doc_penalty) (s_of_Z 100)))
         (s_of_Z 100).
End Fusion.

(** ** IEEE 754 binary64 *)

Definition f64 : Type := spec_float.
Definition F_PREC : Z := 53.
Definition F_EMAX : Z := 1024.

Definition f64_is_nan (x : f64) : bool := match x with S754_nan => true | _ => false end.

(** The other operand for a NaN; of two zeros, the first. *)
Definition f64_max (x y : f64) : f64 :=
  if f64_is_nan x then y else if f64_is_nan y then x else if SFltb x y then y else x.

(** Half away from zero; a value of 53 bits or more above the point is whole. *)
Definition f64_round (x : f64) : f64 :=
  match x with
  | S754_finite s m e =>
      if (0 <=? e)%Z then x
      else let d := 2 ^ (- e) in
           let q := (2 * Z.pos m + d) / (2 * d) in
           if (q =? 0)%Z then S754_zero s
           else binary_normalize F_PREC F_EMAX (if s then - q else q) 0 s
  | _ => x
  end.

(** The order of the bit patterns: [-inf], negative, [-0], [+0], positive, [inf],
    NaN (taken with a clear sign bit). *)
Definition f64_key (x : f64) : Z * Z * Z :=
  match x with
  | S754_infinity true => (-3, 0, 0)
  | S754_finite true m e => (-2, - e, Z.neg m)
  | S754_zero true => (-1, 0, 0)
  | S754_zero false => (0, 0, 0)
  | S754_finite false m e => (1, e, Z.pos m)
  | S754_infinity false => (2, 0, 0)
  | S754_nan => (3, 0, 0)
  end.
Definition f64_total_cmp : f64 → f64 → comparison :=
  cmp_then (cmp_by (λ x, (f64_key x).1.1) Z.compare)
    (cmp_then (cmp_by (λ x, (f64_key x).1.2) Z.compare) (cmp_by (λ x, (f64_key x).2) Z.compare)).

#[export] Instance f64_score : Score f64 := {|
  s_of_Z z := binary_normalize F_PREC F_EMAX z 0 false;
  s_half := binary_normalize F_PREC F_EMAX 1 (-1) false;
  s_add := SFadd F_PREC F_EMAX;
  s_mul := SFmul F_PREC F_EMAX;
  s_div := SFdiv F_PREC F_EMAX;
  s_max := f64_max;
  s_pos x := SFltb (S754_zero false) x;
  s_round := f64_round;
  s_total_cmp := f64_total_cmp |}.

#[export] Instance f64_total_cmp_ok : CmpOk f64_total_cmp.
Proof. apply _. Qed.
#[export] Instance f64_total_cmp_eq : CmpEq f64_total_cmp.
Proof.
  intros x y H. unfold f64_total_cmp, cmp_then, cmp_by in H.
  destruct (Z.compare_spec (f64_key x).1.1 (f64_key y).1.1) as [H1| |]; try done.
  destruct (Z.compare_spec (f64_key x).1.2 (f64_key y).1.2) as [H2| |]; try done.
  destruct (Z.compare_spec (f64_key x).2 (f64_key y).2) as [H3| |]; try done.
  destruct x as [[]|[]| |[] m e], y as [[]|[]| |[] m' e']; simpl in *; try done; f_equal; lia.
Qed.


(** ** Rationals *)

#[export] Instance qc_score : Score Qc := {|
  s_of_Z z := Q2Qc (inject_Z z);
  s_half := Q2Qc (1 # 2);
  s_add := Qcplus;
  s_mul := Qcmult;
  s_div := Qcdiv;
  s_max x y := if Qclt_le_dec x y then y else x;
  s_pos x := if Qclt_le_dec 0%Qc x then true else false;
  s_round x := Q2Qc (inject_Z (if Qclt_le_dec x 0%Qc then - Qfloor ((1 # 2) - this x)%Q
                               else Qfloor (this x + (1 # 2))%Q));
  s_total_cmp := Qccompare |}.

#[export] Instance Qccompare_ok : CmpOk Qccompare.
Proof.
  split; unfold Qccompare; [intros; symmetry; apply Qcompare_antisym|].
  intros x y z. rewrite <- !Qle_alt. apply Qle_trans.
Qed.
#[export] Instance Qccompare_eq : CmpEq Qccompare.
Proof. intros x y H. by apply Qceq_alt. Qed.

(** ** The fused list *)

Section FusionProps.
Context {S : Type} `{!Score S, !CmpOk s_total_cmp, !CmpEq s_total_cmp}.

#[export] Instance rank_cmp_ok : CmpOk rank_cmp.
Proof using CmpOk0. apply _. Qed.
#[export] Instance rank_cmp_eq : CmpEq rank_cmp.
Proof using CmpEq0.
  intros [i s] [j t]. unfold rank_cmp, cmp_then, cmp_rev, cmp_by. simpl.
  destruct (s_total_cmp t s) eqn:E; try done. intros ->%(cmp_eq Z.compare).
  by apply (cmp_eq s_total_cmp) in E as ->.
Qed.

(** A node's score is the sum, from zero and in source order, of what the ranks
    that hold it contribute. *)
Lemma add_scores_lookup (l : list (Z * S)) m id :
  foldl add_score m l !! id =
  match m !! id, filter (λ p, p.1 = id) l with
  | None, [] => None
  | o, ps => Some (foldl s_add (default s_zero o) ps.*2)
  end.
Proof.
  revert m. induction l as [|p l IH]; intros m; simpl.
  { by destruct (m !! id). }
  rewrite IH. unfold add_score at 1. destruct (decide (p.1 = id)) as [<-|Hne].
  - rewrite lookup_insert_eq, filter_cons_True by done. simpl. by destruct (m !! p.1).
  - rewrite lookup_insert_ne, filter_cons_False by done. done.
Qed.

Lemma add_scores_is_Some (l : list (Z * S)) id :
  is_Some (foldl add_score ∅ l !! id) ↔ id ∈ l.*1.
Proof.
  rewrite add_scores_lookup, lookup_empty, list_elem_of_fmap. split.
  - destruct (filter _ l) as [|p ps] eqn:E; [by intros []|]. intros _. exists p.
    assert (p ∈ filter (λ q : Z * S, q.1 = id) l) as [<- ?]%list_elem_of_filter by (rewrite E; left).
    done.
  - intros (p & -> & Hp). destruct (filter _ l) as [|q qs] eqn:E; [|done].
    assert (p ∈ filter (λ q : Z * S, q.1 = p.1) l) as Hp' by by apply list_elem_of_filter.
    rewrite E in Hp'. by apply not_elem_of_nil in Hp'.
Qed.

Lemma source_scores_ids k w (rs : list (SearchResult S)) :
  (source_scores k w rs).*1 = node_id <$> rs.
Proof. unfold source_scores. rewrite fmap_imap. by rewrite <- (imap_id (node_id <$> rs)), imap_fmap. Qed.

Lemma ranked_perm (l1 l2 : list (Z * S)) n : l1 ≡ₚ l2 → ranked l1 n = ranked l2 n.
Proof using CmpOk0 CmpEq0.
  intros Hp. unfold ranked. f_equal. apply sort_cmp_unique; [apply _| |by apply fmap_Permutation].
  intros x y _ _. apply (cmp_eq rank_cmp).
Qed.

Definition all_ranked (m : gmap Z S) : list (SearchResult S) :=
  sort_cmp rank_cmp ((λ p, mkSearchResult p.1 p.2) <$> map_to_list m).

Lemma elem_of_all_ranked m r : r ∈ all_ranked m ↔ m !! node_id r = Some (score r).
Proof.
  unfold all_ranked, sort_cmp. rewrite elem_of_sort_by, list_elem_of_fmap. split.
  - intros ([i s] & -> & Hp). by apply elem_of_map_to_list in Hp.
  - intros Hm. exists (node_id r, score r). rewrite elem_of_map_to_list. by destruct r.
Qed.

Lemma all_ranked_ids m : NoDup (node_id <$> all_ranked m).
Proof.
  unfold all_ranked, sort_cmp. rewrite sort_by_perm, <- list_fmap_compose. apply NoDup_fst_map_to_list.
Qed.

Lemma all_ranked_sorted m : StronglySorted (λ x y, rank_cmp x y = Lt) (all_ranked m).
Proof using CmpOk0 CmpEq0.
  pose proof (all_ranked_ids m) as Hnd.
  pose proof (sort_cmp_sorted rank_cmp ((λ p : Z * S, mkSearchResult p.1 p.2) <$> map_to_list m)) as Hs.
  fold (all_ranked m) in Hs. induction Hs as [|x l Hl IH Hx]; [constructor|].
  apply NoDup_cons in Hnd as [Hni Hnd]. constructor; [by apply IH|].
  rewrite Forall_forall in *. intros y Hy. specialize (Hx y Hy). unfold cmp_leb in Hx.
  destruct (rank_cmp x y) eqn:E; [|done|done]. apply (cmp_eq rank_cmp) in E as ->.
  destruct Hni. by apply list_elem_of_fmap_2.
Qed.

Lemma StronglySorted_take_drop {A} (R : A → A → Prop) (l : list A) n x y :
  StronglySorted R l → x ∈ take n l → y ∈ drop n l → R x y.
Proof.
  intros Hs Hx Hy. rewrite <- (take_drop n l) in Hs. by apply (StronglySorted_app_1_elem_of R (take n l) (drop n l)).
Qed.

Lemma ranked_ok (m : gmap Z S) (n : nat) :
  let rs := ranked (map_to_list m) n in
  NoDup (node_id <$> rs) ∧ length rs = Nat.min n (size m) ∧
  StronglySorted (λ x y, rank_cmp x y = Lt) rs ∧
  (∀ r, r ∈ rs → m !! node_id r = Some (score r)) ∧
  (∀ r s, r ∈ rs → m !! node_id s = Some (score s) → s ∉ rs → rank_cmp r s = Lt).
Proof using CmpOk0 CmpEq0.
  change (ranked (map_to_list m) n) with (take n (all_ranked m)). cbv zeta. split_and!.
  - rewrite fmap_take. apply (sublist_NoDup _ (node_id <$> all_ranked m)); [apply all_ranked_ids|apply sublist_take].
  - rewrite length_take. f_equal. unfold all_ranked, sort_cmp.
    rewrite length_sort_by, length_fmap. apply length_map_to_list.
  - pose proof (all_ranked_sorted m) as Hs. rewrite <- (take_drop n (all_ranked m)) in Hs.
    by apply StronglySorted_app_1_l in Hs.
  - intros r Hr. apply elem_of_all_ranked. by apply elem_of_take in Hr as (? & ?%list_elem_of_lookup_2 & ?).
  - intros r s Hr Hs Hns. apply elem_of_all_ranked in Hs.
    apply (StronglySorted_take_drop (λ x y, rank_cmp x y = Lt) (all_ranked m) n); [apply all_ranked_sorted|done|].
    rewrite <- (take_drop n (all_ranked m)) in Hs. apply elem_of_app in Hs as [|]; done.
Qed.
End FusionProps.

(** ** Exact arithmetic: when the blend is subordinate to the rank *)

Section Exact.
#[local] Open Scope Qc_scope.

Definition qz (z : Z) : Qc := Q2Qc (inject_Z z).

Lemma qz_add a b : qz (a + b)%Z = qz a + qz b.
Proof. unfold qz. apply Qc_is_canon. simpl. rewrite !Qred_correct, inject_Z_plus. reflexivity. Qed.
Lemma qz_mul a b : qz (a * b)%Z = qz a * qz b.
Proof. unfold qz. apply Qc_is_canon. simpl. rewrite !Qred_correct, inject_Z_mult. reflexivity. Qed.
Lemma qz_lt a b : (a < b)%Z → qz a < qz b.
Proof. unfold qz, Qclt. simpl. rewrite !Qred_correct. by rewrite <- Zlt_Qlt. Qed.
Lemma qz_pos a : (0 < a)%Z → 0 < qz a.
Proof. apply (qz_lt 0). Qed.
Lemma Qcpos_ne (x : Qc) : 0 < x → x ≠ 0.
Proof. intros H ->. by apply (Qclt_not_eq 0 0). Qed.

Lemma Qcinv_lt (x y : Qc) : 0 < x → x < y → / y < / x.
Proof.
  intros Hx Hxy. assert (0 < y) as Hy by by apply (Qclt_trans _ x).
  apply (Qcmult_lt_mono_pos_r _ _ x Hx), (Qcmult_lt_mono_pos_r _ _ y Hy).
  replace (/ y * x * y) with x by (field; by apply Qcpos_ne).
  by replace (/ x * x * y) with y by (field; by apply Qcpos_ne).
Qed.

(** The adjacent-rank gap [w / n - w / (n + 1)] against a blend in [[0, b * w]]. *)
Lemma rank_gap (n w b x y : Qc) :
  0 < n → 0 < w → 0 < b → 0 <= x → y <= 1 →
  y <= x ∨ b < / (n * (n + 1)) →
  w / (n + 1) + b * w * y < w / n + b * w * x.
Proof.
  intros Hn Hw Hb Hx Hy Hc. assert (0 < n + 1) as Hn1 by (apply Qcplus_pos_nonneg; done).
  assert (0 < / (n * (n + 1))) as Hg by by apply Qcinv_pos, Qcmult_pos_pos.
  apply Qclt_minus_iff.
  replace (w / n + b * w * x + - (w / (n + 1) + b * w * y))
    with (w * (/ (n * (n + 1)) + b * (x - y)))
    by (field; split; by apply Qcpos_ne).
  apply Qcmult_pos_pos; [done|]. destruct Hc as [Hc|Hc].
  - apply Qcplus_pos_nonneg; [done|]. apply Qcmult_nonneg_nonneg; [by apply Qclt_le_weak|].
    by apply -> Qcle_minus_iff.
  - replace (/ (n * (n + 1)) + b * (x - y)) with (/ (n * (n + 1)) + - b + b * (x + (1 + - y))) by ring.
    apply Qcplus_pos_nonneg; [by apply -> Qclt_minus_iff|].
    apply Qcmult_nonneg_nonneg; [by apply Qclt_le_weak|]. apply Qcplus_nonneg_nonneg; [done|].
    by apply -> Qcle_minus_iff.
Qed.

Lemma qmax_spec (x y : Qc) : x <= s_max x y ∧ y <= s_max x y ∧ (s_max x y = x ∨ s_max x y = y).
Proof.
  simpl. destruct (Qclt_le_dec x y) as [H|H]; split_and!; auto using Qcle_refl, Qclt_le_weak.
Qed.

Lemma max_score_ge (l : list Qc) m : m <= foldl s_max m l ∧ ∀ x, x ∈ l → x <= foldl s_max m l.
Proof.
  revert m. induction l as [|x l IH]; intros m; cbn [foldl].
  { split; [apply Qcle_refl|]. intros x []%not_elem_of_nil. }
  destruct (IH (s_max m x)) as [H1 H2]. destruct (qmax_spec m x) as (Hm & Hx & _).
  split; [by apply (Qcle_trans _ (s_max m x))|].
  intros y [->|Hy]%elem_of_cons; [by apply (Qcle_trans _ (s_max m x))|by apply H2].
Qed.

Definition norm (max s : Qc) : Qc := s_max s 0 / max.

Lemma norm_bounds max s : 0 < max → s <= max → 0 <= norm max s ∧ norm max s <= 1.
Proof.
  intros Hm Hs. destruct (qmax_spec s 0) as (_ & H0 & Hc). unfold norm, Qcdiv.
  pose proof (Qcinv_pos _ Hm) as Hi. split.
  - apply Qcmult_nonneg_nonneg; [done|by apply Qclt_le_weak].
  - replace 1 with (max * / max) by (field; by apply Qcpos_ne).
    apply Qcmult_le_mono_pos_r; [done|].
    destruct Hc as [->| ->]; [done|by apply Qclt_le_weak].
Qed.

Lemma norm_mono max s t : 0 < max → s <= t → norm max s <= norm max t.
Proof.
  intros Hm Hs. unfold norm, Qcdiv. apply Qcmult_le_mono_pos_r; [by apply Qcinv_pos|].
  destruct (qmax_spec t 0) as (Ht & H0 & _), (qmax_spec s 0) as (_ & _ & [->| ->]); [|done].
  by apply (Qcle_trans _ t).
Qed.

Lemma rank_score_exact k w max i (r : SearchResult Qc) :
  rank_score k w max i r =
  w / qz (k + Z.of_nat i + 1) +
  (if Qclt_le_dec 0 max then blend_scale k * w * norm max (score r) else 0).
Proof.
  unfold rank_score. rewrite !qz_add. cbn [s_pos s_add s_div s_mul s_of_Z qc_score].
  by destruct (Qclt_le_dec 0 max).
Qed.

Lemma blend_scale_exact k : (0 ≤ k)%Z → blend_scale k = / qz (2 * ((k + 1) * (k + 2))).
Proof.
  intros Hk. pose proof (qz_pos (k + 1) ltac:(lia)) as H1. pose proof (qz_pos (k + 2) ltac:(lia)) as H2.
  rewrite !qz_mul. unfold blend_scale. cbn [s_add s_div s_mul s_of_Z s_half qc_score]. unfold s_one.
  cbn [s_of_Z qc_score]. fold (qz k) (qz 1) (qz 2). rewrite <- !qz_add.
  replace (Q2Qc (1 # 2)) with (/ qz 2) by by apply Qc_is_canon.
  field. split_and!; by apply Qcpos_ne.
Qed.

(** Adjacent ranks of a source stay in order if the second does not outscore
    the first, or if their gap is still larger than the blend. *)
Definition rank_decides (k : Z) (i : nat) : bool :=
  let n := (k + Z.of_nat i + 1)%Z in (n * (n + 1) <? 2 * ((k + 1) * (k + 2)))%Z.

Lemma rank_score_decreasing k w max i (r s : SearchResult Qc) :
  (0 ≤ k)%Z → 0 < w → score r <= max → score s <= max →
  score s <= score r ∨ rank_decides k i = true →
  rank_score k w max (S i) s < rank_score k w max i r.
Proof.
  intros Hk Hw Hr Hs Hc. rewrite !rank_score_exact.
  replace (k + Z.of_nat (S i) + 1)%Z with (k + Z.of_nat i + 1 + 1)%Z by lia.
  set (n := (k + Z.of_nat i + 1)%Z) in *. pose proof (qz_pos n ltac:(lia)) as Hn.
  rewrite (qz_add n 1). change (qz 1) with 1.
  pose proof (qz_pos (2 * ((k + 1) * (k + 2))) ltac:(lia)) as Hq.
  assert (0 < blend_scale k) as Hb by (rewrite blend_scale_exact by done; by apply Qcinv_pos).
  destruct (Qclt_le_dec 0 max) as [Hm|Hm].
  - apply rank_gap; try done; [by apply norm_bounds|by apply norm_bounds|].
    destruct Hc as [Hc|Hc]; [left; by apply norm_mono|right].
    rewrite blend_scale_exact by done. rewrite <- (qz_add n 1 : _ = qz n + 1), <- qz_mul.
    unfold rank_decides in Hc. apply Z.ltb_lt in Hc. apply Qcinv_lt; [apply qz_pos; nia|by apply qz_lt].
  - rewrite !Qcplus_0_r. pose proof (rank_gap (qz n) w 1 0 0) as Hg.
    rewrite !Qcmult_0_r, !Qcplus_0_r in Hg. apply Hg; try done; by left.
Qed.

Lemma Sorted_adjacent {A} (R : A → A → Prop) (l : list A) :
  (∀ i x y, l !! i = Some x → l !! S i = Some y → R x y) → Sorted R l.
Proof.
  induction l as [|x l IH]; intros H; constructor.
  - apply IH. intros i. apply (H (S i)).
  - destruct l as [|y l]; constructor. by apply (H 0%nat).
Qed.

Lemma filter_key_unique {A} (l : list (Z * A)) id x :
  NoDup l.*1 → (id, x) ∈ l → filter (λ p, p.1 = id) l = [(id, x)].
Proof.
  induction l as [|[j y] l IH]; [by intros _ ?%not_elem_of_nil|].
  cbn [fmap list_fmap]. intros [Hj Hnd]%NoDup_cons [[= <- <-]|Hin]%elem_of_cons.
  - rewrite filter_cons_True by done. f_equal. apply filter_none.
    intros [j' z] Hz Hj'. simpl in *. subst j'. destruct Hj. apply list_elem_of_fmap. by exists (id, z).
  - rewrite filter_cons_False; [by apply IH|]. simpl. intros ->. destruct Hj.
    apply list_elem_of_fmap. by exists (id, x).
Qed.

Lemma add_scores_distinct (l : list (Z * Qc)) :
  NoDup l.*1 → map_to_list (foldl add_score ∅ l) ≡ₚ l.
Proof.
  intros Hnd. apply NoDup_Permutation; [apply NoDup_map_to_list|by apply NoDup_fmap_1 in Hnd|].
  intros [id s]. rewrite elem_of_map_to_list. split.
  - intros Hs. assert (id ∈ l.*1) as Hid by by apply add_scores_is_Some; eexists.
    apply list_elem_of_fmap in Hid as ([id' t] & Hid' & Hin). simpl in Hid'. subst id'.
    rewrite add_scores_lookup, lookup_empty, (filter_key_unique l id t) in Hs by done.
    injection Hs as <-. cbn. by rewrite Qcplus_0_l.
  - intros Hin. rewrite add_scores_lookup, lookup_empty, (filter_key_unique l id s) by done.
    cbn. by rewrite Qcplus_0_l.
Qed.

(** in exact arithmetic a source alone keeps its order: with a positive
    weight and distinct nodes, the fused list is the first [top_k] of the
    source, in its order, provided every result is outscored by none below it,
    or, whatever the scores, as long as [(k+i+1)(k+i+2) < 2(k+1)(k+2)] at every
    rank [i] that is followed by a higher score. *)
Theorem single_source_order (rs : list (SearchResult Qc)) (k : Z) (top_k : nat) (w v : Qc)
    (Hk : (0 ≤ k)%Z) (Hw : 0 < w) (Hnd : NoDup (node_id <$> rs))
    (Hadj : ∀ i r s, rs !! i = Some r → rs !! S i = Some s →
      score s <= score r ∨ rank_decides k i = true) :
  node_id <$> weighted_rrf_fusion rs [] k top_k w v = take top_k (node_id <$> rs).
Proof.
  unfold weighted_rrf_fusion, fused_scores. rewrite (app_nil_r (source_scores k w rs)).
  rewrite <- (source_scores_ids k w) in Hnd. rewrite (ranked_perm _ (source_scores k w rs))
    by by apply add_scores_distinct.
  unfold ranked, sort_cmp. rewrite sort_by_id.
  { by rewrite fmap_take, <- list_fmap_compose, <- (source_scores_ids k w). }
  apply (StronglySorted_fmap_on (λ p q : Z * Qc, q.2 < p.2));
    [|apply Sorted_StronglySorted].
  - intros p q _ _ Hpq. unfold cmp_leb, rank_cmp, cmp_then, cmp_rev, cmp_by. simpl.
    by rewrite (proj1 (Qclt_alt _ _) Hpq : Qccompare q.2 p.2 = Lt).
  - intros p q r H1 H2. by apply (Qclt_trans _ q.2).
  - apply Sorted_adjacent. intros i p q Hp Hq. unfold source_scores in Hp, Hq.
    rewrite list_lookup_imap in Hp, Hq. apply fmap_Some in Hp as (r & Hr & ->), Hq as (s & Hs & ->).
    cbn [snd]. unfold max_score. destruct (max_score_ge (score <$> rs) s_zero) as [_ Hmax].
    apply rank_score_decreasing; [done|done| | |by apply (Hadj i)];
      apply Hmax, list_elem_of_fmap_2; by eapply list_elem_of_lookup_2.
Qed.

Lemma single_source_order_witness :
  let rs := [mkSearchResult 7 (qz 2); mkSearchResult 3 (qz 5); mkSearchResult 4 (qz 1)] in
  node_id <$> weighted_rrf_fusion rs [] 30 2 (qz 1) (qz 1) = [7%Z; 3%Z].
Proof.
  intros rs. apply (single_source_order rs 30 2 (qz 1) (qz 1)).
  - lia.
  - apply qz_pos. lia.
  - apply (bool_decide_unpack _). by vm_compute.
  - intros [|[|[|i]]] r s Hr Hs; right; done.
Defined.

Lemma s_round_le (x : Qc) : s_round x <= x + Q2Qc (1 # 2).
Proof.
  cbn [s_round qc_score]. unfold Qcle. cbn [this Q2Qc Qcplus]. rewrite !Qred_correct.
  destruct (Qclt_le_dec x 0) as [H|H].
  - rewrite inject_Z_opp. pose proof (Qlt_floor ((1 # 2) - this x)%Q) as Hf.
    rewrite inject_Z_plus in Hf. change (inject_Z 1) with 1%Q in Hf.
    set (f := inject_Z (Qfloor _)) in *. clearbody f. lra.
  - apply Qfloor_le.
Qed.

(** A node named exactly by the query outranks every node that is not, as
    long as the product of the factors stays within [[0, 2]] as documented. *)
Theorem exact_name_dominates (base base' boost size doc boost' size' doc' : Qc)
    (Hb : 0 <= base) (Hcap : base' * boost' * size' * doc' <= qz 2) :
  final_adjusted_score base' boost' size' doc' false < final_adjusted_score base boost size doc true.
Proof.
  cbn [final_adjusted_score s_add s_mul s_div s_of_Z qc_score]. fold (qz 100).
  set (p := base' * boost' * size' * doc') in *.
  pose proof (qz_pos 100 ltac:(lia)) as H100. apply (Qcle_lt_trans _ (qz 3)).
  - replace (qz 3) with (qz 3 * qz 100 / qz 100) by (field; by apply Qcpos_ne).
    unfold Qcdiv. apply Qcmult_le_mono_pos_r; [by apply Qcinv_pos|].
    apply (Qcle_trans _ (p * qz 100 + Q2Qc (1 # 2))); [apply s_round_le|].
    apply (Qcle_trans _ (qz 2 * qz 100 + Q2Qc (1 # 2))); [|done].
    apply Qcplus_le_mono_r. by apply Qcmult_le_mono_pos_r.
  - apply (Qclt_le_trans _ (0 + qz 100)); [done|]. by apply Qcplus_le_mono_r.
Qed.
End Exact.

(** ** The code's arithmetic *)

(** in binary64, for any scores and weights (NaN and infinities
    included), the fused list names each node once; the nodes come from the two
    sources and each carries the rounded sum of what its ranks contribute, in
    source order from zero; the list is strictly sorted by descending score and
    then by id, holds [top_k] nodes if there are as many, and every node left out
    ranks after those kept; and it does not depend on the order in which the
    score map is iterated. *)
Theorem weighted_rrf_fusion_ok (fts vecs : list (SearchResult f64)) (k : Z) (top_k : nat) (fw vw : f64) :
  let contributions := source_scores k fw fts ++ source_scores k vw vecs in
  let scores := fused_scores fts vecs k fw vw in
  let rs := weighted_rrf_fusion fts vecs k top_k fw vw in
  NoDup (node_id <$> rs)
  ∧ length rs = Nat.min top_k (size scores)
  ∧ StronglySorted (λ x y, rank_cmp x y = Lt) rs
  ∧ (∀ r, r ∈ rs →
      node_id r ∈ (node_id <$> fts) ++ (node_id <$> vecs)
      ∧ score r = foldl s_add s_zero (filter (λ p, p.1 = node_id r) contributions).*2)
  ∧ (∀ id, id ∈ (node_id <$> fts) ++ (node_id <$> vecs) → ∃ s, scores !! id = Some s
      ∧ (mkSearchResult id s ∈ rs ∨ ∀ r, r ∈ rs → rank_cmp r (mkSearchResult id s) = Lt))
  ∧ (∀ l, l ≡ₚ map_to_list scores → ranked l top_k = rs).
Proof.
  intros contributions scores rs.
  assert (∀ id, is_Some (scores !! id) ↔ id ∈ (node_id <$> fts) ++ (node_id <$> vecs)) as Hdom.
  { intros id. unfold scores, fused_scores.
    by rewrite add_scores_is_Some, fmap_app, !source_scores_ids. }
  destruct (ranked_ok scores top_k) as (H1 & H2 & H3 & H4 & H5).
  split_and!; [exact H1|exact H2|exact H3| | |].
  - intros r Hr. specialize (H4 r Hr). split; [apply Hdom; by eexists|].
    unfold scores, fused_scores in H4. rewrite add_scores_lookup, lookup_empty in H4.
    fold contributions in H4. destruct (filter _ contributions) eqn:E; [done|]. by injection H4.
  - intros id [s Hs]%Hdom. exists s. split; [done|].
    assert (EqDecision f64) by (intros x y; solve_decision).
    assert (EqDecision (SearchResult f64)) by (intros x y; solve_decision).
    destruct (decide (mkSearchResult id s ∈ rs)) as [|Hn]; [by left|right].
    intros r Hr. by apply H5.
  - intros l Hl. by apply ranked_perm.
Qed.

(** The gap between adjacent ranks shrinks down the list, so the bound taken from
    the first two ranks is too large from rank 14 on at [k = 30]: there a result
    that outscores the one above it moves up. *)
Definition deep_source (hit : Z) : list (SearchResult f64) :=
  (λ i, mkSearchResult (Z.of_nat i) (s_of_Z (if (Z.of_nat i =? hit)%Z then 1 else 0))) <$> seq 0 16.

Example blend_kept_at_rank_13 :
  node_id <$> weighted_rrf_fusion (deep_source 14) [] 30 16 (s_of_Z 1) (s_of_Z 1) = Z.of_nat <$> seq 0 16.
Proof. vm_compute. reflexivity. Qed.

Example blend_flips_deep_ranks :
  node_id <$> weighted_rrf_fusion (deep_source 15) [] 30 16 (s_of_Z 1) (s_of_Z 1) =
  (Z.of_nat <$> seq 0 14) ++ [15; 14].
Proof. vm_compute. reflexivity. Qed.

(** The example of the comment: across sources the blend decides near-ties. *)
Example cross_source_near_tie :
  let a := mkSearchResult 1 (s_of_Z 0) : SearchResult f64 in
  let b := mkSearchResult 2 (s_of_Z 1) : SearchResult f64 in
  node_id <$> weighted_rrf_fusion [a; b] [mkSearchResult 2 s_half; mkSearchResult 1 s_half] 30 2 s_one s_one = [2; 1].
Proof. vm_compute. reflexivity. Qed.
