(* ===== verification/Fuzzy.v ===== *)
(** * Fuzzy name search ([storage/queries/search.rs])

    Candidates for a symbol name that a user half remembers: names that contain
    it, or failing that names within a small edit distance. *)

From S2P Require Import Prelude Str Utf8 Tokens Sql Domain Tables Store Queries.

(** ** Edit distance *)

(** [curr[j]] for each further [j]: [prev] starts at [prev[j - 1]], [left] is
    [curr[j - 1]]. *)
Fixpoint lev_cells (x : Z) (b : list Z) (prev : list nat) (left : nat) : list nat :=
  match b, prev with
  | y :: b', diag :: ((up :: _) as prev') =>
      let cost := if (x =? y)%Z then 0 else 1 in
      let c := Nat.min (Nat.min (up + 1) (left + 1)) (diag + cost) in
      c :: lev_cells x b' prev' c
  | _, _ => []
  end.

(** The loop over [i]; [prev] is the row of the [i - 1] characters before. *)
Fixpoint lev_rows (a b : list Z) (i : nat) (prev : list nat) : list nat :=
  match a with
  | [] => prev
  | x :: a' => lev_rows a' b (S i) (i :: lev_cells x b prev i)
  end.

(** [prev[n]] panics out of range. *)
Definition levenshtein (a b : string) : option nat :=
  let a_chars := chars a in
  let b_chars := chars b in
  let m := length a_chars in
  let n := length b_chars in
  if m =? 0 then Some n else if n =? 0 then Some m
  else lev_rows a_chars b_chars 1 (seq 0 (S n)) !! n.

(** ** Candidates *)

Record NameCandidate := mkCandidate {
  nc_name : string;
  nc_file_path : string;
  nc_node_type : string;
  nc_node_id : Z;
  nc_start_line : Z;
}.

#[export] Instance NameCandidate_eq_dec : EqDecision NameCandidate.
Proof. solve_decision. Defined.

Definition candidate_of (nf : NodeResult * FileEntry) : NameCandidate :=
  mkCandidate (node_name_of nf.1) (file_path_of nf.2) (type_of nf.1) (node_id_of nf.1) (n_start_line (nr_node nf.1)).

(** [n.type != 'module' AND f.path <> '<external>'] *)
Definition nameable (nf : NodeResult * FileEntry) : bool :=
  negb (String.eqb (type_of nf.1) "module") && negb (is_external_file nf.2).

(** [LENGTH] of a text column counts characters. *)
Definition sql_length (s : string) : nat := length (chars s).

Section Fuzzy.
Context (like_esc : string → string → bool) `{U : Unicode}.

Definition name_hit (partial_name : string) (nf : NodeResult * FileEntry) : bool :=
  like_esc ("%" +:+ escape_like partial_name +:+ "%") (node_name_of nf.1)
  || like_opt like_esc ("%" +:+ escape_like (split_identifier_tokens partial_name) +:+ "%") (nr_name_tokens nf.1).

(** [CASE WHEN n.name = ?2 THEN 0 WHEN n.name LIKE ?4 || '%' .. THEN 1 ELSE 2 END] *)
Definition name_bucket (partial_name : string) (c : NameCandidate) : nat :=
  if String.eqb (nc_name c) partial_name then 0
  else if like_esc (escape_like partial_name +:+ "%") (nc_name c) then 1 else 2.

Definition like_candidates (st : Store) (partial_name : string) : list NameCandidate :=
  take 10 (sort_cmp (cmp_then (cmp_by (name_bucket partial_name) Nat.compare)
                       (cmp_by (λ c, sql_length (nc_name c)) Nat.compare))
    (remove_dups (candidate_of <$> filter (λ nf, name_hit partial_name nf = true ∧ nameable nf = true)
                                     (node_files st)))).

Definition max_dist (query_lower : string) : nat :=
  let n := String.length query_lower in
  if n <=? 3 then 1 else if n <=? 7 then 2 else 3.

(** [FUZZY_EDIT_DISTANCE_SQL] *)
Definition fuzzy_pool (st : Store) : list NameCandidate :=
  take (Z.to_nat 5000)
    (sort_cmp (cmp_by nc_node_id Z.compare)
       (remove_dups (candidate_of <$> filter (λ nf, nameable nf = true) (node_files st)))).

(** [if dist <= max_dist { scored.push(..) }] *)
Definition scored_candidate (query_lower : string) (c : NameCandidate) : option (list (nat * NameCandidate)) :=
  dist ← levenshtein query_lower (to_lowercase (nc_name c));
  Some (if dist <=? max_dist query_lower then [(dist, c)] else []).

Definition find_functions_by_fuzzy_name (st : Store) (partial_name : string) : option (list NameCandidate) :=
  let results := like_candidates st partial_name in
  if negb (bool_decide (results = [])) then Some results
  else
    let query_lower := to_lowercase partial_name in
    scored ← mapM (scored_candidate query_lower) (fuzzy_pool st);
    Some (snd <$> take 10 (sort_cmp (cmp_then (cmp_by fst Nat.compare)
                                       (cmp_by (λ p, String.length (nc_name p.2)) Nat.compare)) (mjoin scored))).
End Fuzzy.

(** ** The least number of edits *)

(** One character inserted, removed or replaced. *)
Inductive edit1 : list Z → list Z → Prop :=
| edit_insert x l : edit1 l (x :: l)
| edit_delete x l : edit1 (x :: l) l
| edit_replace x y l : edit1 (x :: l) (y :: l)
| edit_later x l l' : edit1 l l' → edit1 (x :: l) (x :: l').

(** An alignment of cost [k]. *)
Inductive aligned : list Z → list Z → nat → Prop :=
| al_nil : aligned [] [] 0
| al_keep c a b k : aligned a b k → aligned (c :: a) (c :: b) k
| al_replace c d a b k : aligned a b k → aligned (c :: a) (d :: b) (S k)
| al_delete c a b k : aligned a b k → aligned (c :: a) b (S k)
| al_insert d a b k : aligned a b k → aligned a (d :: b) (S k).

Lemma aligned_refl a : aligned a a 0.
Proof. induction a; by constructor. Qed.

Lemma aligned_app a b k a' b' k' : aligned a b k → aligned a' b' k' → aligned (a ++ a') (b ++ b') (k + k').
Proof. induction 1; intros H'; simpl; try (constructor; auto; fail). done. Qed.

Lemma aligned_rev a b k : aligned a b k → aligned (rev a) (rev b) k.
Proof.
  induction 1 as [|c a b k _ IH|c d a b k _ IH|c a b k _ IH|d a b k _ IH]; [constructor|..]; simpl.
  - rewrite <- (Nat.add_0_r k). apply aligned_app; [done|apply aligned_refl].
  - rewrite <- Nat.add_1_r. apply aligned_app; [done|]. do 2 constructor.
  - rewrite <- Nat.add_1_r, <- (app_nil_r (rev b)). apply aligned_app; [done|]. do 2 constructor.
  - rewrite <- Nat.add_1_r, <- (app_nil_r (rev a)). apply aligned_app; [done|]. do 2 constructor.
Qed.

Lemma aligned_edit a b k c : aligned a b k → edit1 b c → ∃ k', k' ≤ S k ∧ aligned a c k'.
Proof.
  intros H. revert c. induction H as [|x a b k H IH|x y a b k H IH|x a b k H IH|y a b k H IH]; intros c He.
  - inversion He; subst. exists 1. split; [done|]. do 2 constructor.
  - inversion He as [z|z|z w|z ? l' Hl]; subst.
    + exists (S k). split; [lia|]. do 2 constructor; done.
    + exists (S k). split; [lia|]. by constructor.
    + exists (S k). split; [lia|]. by constructor.
    + destruct (IH _ Hl) as (k' & ? & ?). exists k'. split; [lia|]. by constructor.
  - inversion He as [z|z|z w|z ? l' Hl]; subst.
    + exists (S (S k)). split; [lia|]. do 2 constructor; done.
    + exists (S k). split; [lia|]. by constructor.
    + exists (S k). split; [lia|]. by constructor.
    + destruct (IH _ Hl) as (k' & ? & ?). exists (S k'). split; [lia|]. by constructor.
  - destruct (IH _ He) as (k' & ? & ?). exists (S k'). split; [lia|]. by constructor.
  - inversion He as [z|z|z w|z ? l' Hl]; subst.
    + exists (S (S k)). split; [lia|]. do 2 constructor; done.
    + exists k. split; [lia|]. done.
    + exists (S k). split; [lia|]. by constructor.
    + destruct (IH _ Hl) as (k' & ? & ?). exists (S k'). split; [lia|]. by constructor.
Qed.

Lemma aligned_nsteps a b k : aligned a b k → nsteps edit1 k a b.
Proof.
  assert (∀ x n l l', nsteps edit1 n l l' → nsteps edit1 n (x :: l) (x :: l')) as Hcons.
  { intros x n l l'. apply (nsteps_congruence (cons x)). by constructor. }
  induction 1 as [|c a b k _ IH|c d a b k _ IH|c a b k _ IH|d a b k _ IH]; [constructor|auto|..].
  - apply (nsteps_l _ _ _ (d :: a)); [constructor|auto].
  - apply (nsteps_l _ _ _ a); [constructor|done].
  - eapply nsteps_r; [done|constructor].
Qed.

Lemma nsteps_aligned a b k : nsteps edit1 k a b → ∃ k', k' ≤ k ∧ aligned a b k'.
Proof.
  revert b. induction k as [|k IH]; intros b H.
  - inversion H; subst. exists 0. split; [done|]. apply aligned_refl.
  - apply nsteps_inv_r in H as (c & Hc & He). apply IH in Hc as (k1 & Hk1 & Hc).
    destruct (aligned_edit _ _ _ _ Hc He) as (k2 & Hk2 & ?). exists k2. split; [lia|done].
Qed.

(** Edit distance by recursion on the ends of the texts. *)
Definition char_cost (x y : Z) : nat := if (x =? y)%Z then 0 else 1.
Fixpoint edit_distance (a : list Z) : list Z → nat :=
  match a with
  | [] => @length Z
  | x :: a' =>
      fix go (b : list Z) : nat :=
        match b with
        | [] => S (length a')
        | y :: b' => Nat.min (Nat.min (edit_distance a' (y :: b') + 1) (go b' + 1))
                       (edit_distance a' b' + char_cost x y)
        end
  end.

Lemma edit_distance_nil_r a : edit_distance a [] = length a.
Proof. by destruct a. Qed.
Lemma edit_distance_cons x a y b :
  edit_distance (x :: a) (y :: b) =
  Nat.min (Nat.min (edit_distance a (y :: b) + 1) (edit_distance (x :: a) b + 1)) (edit_distance a b + char_cost x y).
Proof. done. Qed.

Lemma aligned_distance a b : aligned a b (edit_distance a b).
Proof.
  revert b. induction a as [|x a IHa]; intros b.
  - induction b as [|y b IHb]; simpl; by constructor.
  - induction b as [|y b IHb].
    + rewrite edit_distance_nil_r. specialize (IHa []). rewrite edit_distance_nil_r in IHa. by constructor.
    + rewrite edit_distance_cons. unfold char_cost.
      destruct (Nat.min_spec (Nat.min (edit_distance a (y :: b) + 1) (edit_distance (x :: a) b + 1))
                  (edit_distance a b + (if (x =? y)%Z then 0 else 1))) as [[_ ->]|[_ ->]].
      * destruct (Nat.min_spec (edit_distance a (y :: b) + 1) (edit_distance (x :: a) b + 1)) as [[_ ->]|[_ ->]];
          rewrite Nat.add_1_r; by constructor.
      * destruct (Z.eqb_spec x y) as [->|]; [rewrite Nat.add_0_r|rewrite Nat.add_1_r]; by constructor.
Qed.

Lemma distance_aligned a b k : aligned a b k → edit_distance a b ≤ k.
Proof.
  induction 1 as [|c a b k _ IH|c d a b k _ IH|c a b k _ IH|d a b k _ IH]; [done|..].
  - rewrite edit_distance_cons. unfold char_cost. rewrite Z.eqb_refl. lia.
  - rewrite edit_distance_cons. unfold char_cost. destruct (c =? d)%Z; lia.
  - destruct b as [|d b]; [rewrite edit_distance_nil_r in *; simpl; lia|]. rewrite edit_distance_cons. lia.
  - destruct a as [|c a]; [simpl in *; lia|]. rewrite edit_distance_cons. lia.
Qed.

Lemma edit_distance_rev a b : edit_distance (rev a) (rev b) = edit_distance a b.
Proof.
  apply Nat.le_antisymm; apply distance_aligned.
  - apply aligned_rev, aligned_distance.
  - pose proof (aligned_rev _ _ _ (aligned_distance (rev a) (rev b))) as H. by rewrite !rev_involutive in H.
Qed.

(** The row of a prefix [a], reversed: its distances to the prefixes of [b],
    from the one whose reverse is [rb] on. *)
Fixpoint dist_row (ra rb b : list Z) : list nat :=
  edit_distance ra rb :: match b with [] => [] | y :: b' => dist_row ra (y :: rb) b' end.

Lemma lev_cells_row x ra rb b :
  edit_distance (x :: ra) rb :: lev_cells x b (dist_row ra rb b) (edit_distance (x :: ra) rb) = dist_row (x :: ra) rb b.
Proof.
  revert rb. induction b as [|y b IH]; intros rb; [done|].
  cbn [dist_row]. f_equal. cbn [lev_cells].
  destruct (dist_row ra (y :: rb) b) as [|up prev'] eqn:E; [by destruct b|].
  assert (up = edit_distance ra (y :: rb)) as -> by (destruct b; by injection E).
  rewrite <- E. fold (char_cost x y).
  change (Nat.min (Nat.min (edit_distance ra (y :: rb) + 1) (edit_distance (x :: ra) rb + 1)) (edit_distance ra rb + char_cost x y))
    with (edit_distance (x :: ra) (y :: rb)).
  apply IH.
Qed.

Lemma lev_rows_row a ra b :
  lev_rows a b (S (length ra)) (dist_row ra [] b) = dist_row (rev a ++ ra) [] b.
Proof.
  revert ra. induction a as [|x a IH]; intros ra; [done|]. cbn [lev_rows].
  pose proof (lev_cells_row x ra [] b) as H. rewrite edit_distance_nil_r in H. cbn [length] in H.
  rewrite H. change (S (S (length ra))) with (S (length (x :: ra))). rewrite IH.
  simpl. by rewrite <- (app_assoc (rev a)).
Qed.

Lemma dist_row_nil rb b : dist_row [] rb b = seq (length rb) (S (length b)).
Proof. revert rb. induction b as [|y b IH]; intros rb; [done|]. cbn [dist_row]. by rewrite IH. Qed.

Lemma dist_row_last ra rb b : dist_row ra rb b !! length b = Some (edit_distance ra (rev b ++ rb)).
Proof.
  revert rb. induction b as [|y b IH]; intros rb; [done|]. cbn [dist_row length lookup list_lookup].
  rewrite IH. simpl. by rewrite <- (app_assoc (rev b)).
Qed.

Lemma levenshtein_distance a b : levenshtein a b = Some (edit_distance (chars a) (chars b)).
Proof.
  unfold levenshtein. destruct (Nat.eqb_spec (length (chars a)) 0) as [Ha|Ha].
  { apply nil_length_inv in Ha as ->. done. }
  destruct (Nat.eqb_spec (length (chars b)) 0) as [Hb|Hb].
  { apply nil_length_inv in Hb as ->. by rewrite edit_distance_nil_r. }
  change (seq 0 (S (length (chars b)))) with (seq (length (@nil Z)) (S (length (chars b)))).
  rewrite <- dist_row_nil. change 1 with (S (length (@nil Z))). rewrite lev_rows_row, dist_row_last.
  by rewrite !app_nil_r, edit_distance_rev.
Qed.

(** [levenshtein] never reads out of its row and returns the least number of
    single-character insertions, deletions and replacements that turn one name
    into the other. *)
Theorem levenshtein_least a b :
  ∃ d, levenshtein a b = Some d
    ∧ nsteps edit1 d (chars a) (chars b)
    ∧ ∀ k, nsteps edit1 k (chars a) (chars b) → d ≤ k.
Proof.
  eexists. split; [apply levenshtein_distance|]. split; [apply aligned_nsteps, aligned_distance|].
  intros k (k' & ? & ?%distance_aligned)%nsteps_aligned. lia.
Qed.

(** ** What is suggested *)

Section FuzzyProps.
Context (like_esc : string → string → bool) `{U : Unicode}.

(** The rows phase 1 ranks. *)
Definition hits (st : Store) (name : string) : list NameCandidate :=
  remove_dups (candidate_of <$> filter (λ nf, name_hit like_esc name nf = true ∧ nameable nf = true) (node_files st)).

Definition hit_cmp (name : string) : NameCandidate → NameCandidate → comparison :=
  cmp_then (cmp_by (name_bucket like_esc name) Nat.compare) (cmp_by (λ c, sql_length (nc_name c)) Nat.compare).
#[local] Instance hit_cmp_ok name : CmpOk (hit_cmp name).
Proof. unfold hit_cmp. apply _. Qed.

Lemma elem_of_hits st name c :
  c ∈ hits st name ↔ ∃ nf, nf ∈ node_files st ∧ c = candidate_of nf ∧ name_hit like_esc name nf = true ∧ nameable nf = true.
Proof.
  unfold hits. rewrite elem_of_remove_dups, list_elem_of_fmap. setoid_rewrite list_elem_of_filter.
  split; [intros (nf & ? & [? ?] & ?)|intros (nf & ? & ? & ?)]; exists nf; tauto.
Qed.

Lemma elem_of_like_candidates st name c : c ∈ like_candidates like_esc st name → c ∈ hits st name.
Proof.
  unfold like_candidates. intros (i & Hi & _)%elem_of_take. apply list_elem_of_lookup_2 in Hi.
  unfold sort_cmp in Hi. by apply elem_of_sort_by in Hi.
Qed.

(** The best of the ranked rows leads. *)
Lemma like_candidates_head st name c :
  c ∈ hits st name → ∃ h rest, like_candidates like_esc st name = h :: rest ∧ cmp_leb (hit_cmp name) h c = true.
Proof.
  intros Hc. unfold like_candidates. change (remove_dups _) with (hits st name).
  change (cmp_then _ _) with (hit_cmp name).
  pose proof (sort_cmp_sorted (hit_cmp name) (hits st name)) as Hs.
  assert (c ∈ sort_cmp (hit_cmp name) (hits st name)) as Hin by (unfold sort_cmp; by apply elem_of_sort_by).
  destruct (sort_cmp (hit_cmp name) (hits st name)) as [|h rest]; [by apply not_elem_of_nil in Hin|].
  exists h, (take 9 rest). split; [done|]. inversion Hs as [|? ? _ Hall]; subst.
  apply elem_of_cons in Hin as [->|Hin]; [|rewrite Forall_forall in Hall; by apply Hall].
  unfold cmp_leb. by rewrite (cmp_refl (hit_cmp name)).
Qed.

Definition close (query : string) (c : NameCandidate) (d : nat) : Prop :=
  levenshtein query (to_lowercase (nc_name c)) = Some d ∧ d ≤ max_dist query.

Lemma scored_mapM query (l : list NameCandidate) :
  ∃ scored : list (list (nat * NameCandidate)), mapM (scored_candidate query) l = Some scored
    ∧ ∀ d c, (d, c) ∈ mjoin scored ↔ c ∈ l ∧ close query c d.
Proof.
  destruct (mapM_total (scored_candidate query) l) as [scored Hm].
  { intros c _. unfold scored_candidate. rewrite levenshtein_distance. by eexists. }
  exists scored. split; [done|]. intros d c. rewrite list_elem_of_join.
  setoid_rewrite (elem_of_mapM _ _ _ _ Hm). unfold close. rewrite levenshtein_distance. split.
  - intros (l' & Hd & c' & Hc' & Hs). unfold scored_candidate in Hs. rewrite levenshtein_distance in Hs.
    injection Hs as <-. destruct (Nat.leb_spec (edit_distance (chars query) (chars (to_lowercase (nc_name c')))) (max_dist query));
      [|by apply not_elem_of_nil in Hd].
    apply list_elem_of_singleton in Hd as [= -> ->]. done.
  - intros (Hc & [= <-] & Hle). eexists. split; [by apply list_elem_of_singleton|]. exists c. split; [done|].
    unfold scored_candidate. rewrite levenshtein_distance. cbn [mbind option_bind].
    by rewrite (proj2 (Nat.leb_le _ _) Hle).
Qed.

(** Phase 2. *)
Definition by_distance : nat * NameCandidate → nat * NameCandidate → comparison :=
  cmp_then (cmp_by fst Nat.compare) (cmp_by (λ p, String.length (nc_name p.2)) Nat.compare).

Lemma fuzzy_fallback st name :
  like_candidates like_esc st name = [] →
  let query := to_lowercase name in
  ∃ rs, find_functions_by_fuzzy_name like_esc st name = Some rs
    ∧ length rs ≤ 10
    ∧ (∀ c, c ∈ rs → c ∈ fuzzy_pool st ∧ ∃ d, close query c d)
    ∧ (∀ c d, c ∈ fuzzy_pool st → close query c d → c ∈ rs
         ∨ length rs = 10 ∧ ∀ c', c' ∈ rs → ∃ d', close query c' d' ∧ d' ≤ d).
Proof.
  intros Hnil query. unfold find_functions_by_fuzzy_name. rewrite Hnil. simpl. fold query.
  destruct (scored_mapM query (fuzzy_pool st)) as (scored & -> & Hs). cbn [mbind option_bind].
  fold by_distance. assert (CmpOk by_distance) as Hok by (unfold by_distance; apply _).
  pose proof (sort_cmp_sorted by_distance (mjoin scored)) as Hsort.
  assert (∀ p, p ∈ sort_cmp by_distance (mjoin scored) ↔ p ∈ mjoin scored) as Hin
    by (intros p; unfold sort_cmp; apply elem_of_sort_by).
  set (S := sort_cmp by_distance (mjoin scored)) in *. clearbody S.
  eexists. split; [reflexivity|]. rewrite length_fmap, length_take. split; [lia|]. split.
  - intros c ([d c'] & -> & (i & Hi & _)%elem_of_take)%list_elem_of_fmap.
    apply list_elem_of_lookup_2, Hin, Hs in Hi as [? ?]. eauto.
  - intros c d Hc Hd. assert ((d, c) ∈ S) as HcS by (apply Hin, Hs; done).
    rewrite <- (take_drop 10 S) in HcS. apply elem_of_app in HcS as [HcS|HcS].
    { left. by apply (list_elem_of_fmap_2 snd) in HcS. }
    right. split.
    + assert (10 < length S); [|lia]. apply list_elem_of_lookup_1 in HcS as [i Hi].
      apply lookup_lt_Some in Hi. rewrite length_drop in Hi. lia.
    + intros c' ([d' c''] & -> & Hc')%list_elem_of_fmap. exists d'. split.
      * apply elem_of_take in Hc' as (i & Hi & _). by apply list_elem_of_lookup_2, Hin, Hs in Hi as [_ ?].
      * assert (cmp_leb by_distance (d', c'') (d, c) = true) as Hle.
        { rewrite <- (take_drop 10 S) in Hsort. 
          by apply (StronglySorted_app_1_elem_of (λ x y, cmp_leb by_distance x y = true) _ _ _ _ Hsort). }
        unfold cmp_leb, by_distance, cmp_then, cmp_by in Hle. simpl in Hle.
        destruct (Nat.compare_spec d' d); [lia|lia|done].
Qed.

Lemma like_contains_refl `{!SqlLike like_esc} name :
  is_str name → like_esc ("%" +:+ escape_like name +:+ "%") name = true.
Proof.
  intros Hn. apply (like_contains_exact like_esc name name Hn Hn). exists [], (chars name), [].
  by rewrite (app_nil_r (chars name)).
Qed.

(** A node of the exact name leads. *)
Lemma exact_leads `{!SqlLike like_esc} st name nf :
  is_str name → nf ∈ node_files st → nameable nf = true → name = node_name_of nf.1 →
  ∃ h rest, like_candidates like_esc st name = h :: rest ∧ nc_name h = node_name_of nf.1.
Proof.
  intros Hname Hnf Hp Hn. destruct (like_candidates_head st name (candidate_of nf)) as (h & rest & Heq & Hle).
  { apply elem_of_hits. exists nf. split; [done|]. split; [done|]. split; [|done].
    unfold name_hit. apply orb_true_iff. left. rewrite <- Hn. by apply like_contains_refl. }
  exists h, rest. split; [done|]. unfold cmp_leb, hit_cmp, cmp_then, cmp_by in Hle.
  assert (name_bucket like_esc name (candidate_of nf) = 0) as Hb.
  { unfold name_bucket. simpl. by rewrite <- Hn, String.eqb_refl. }
  rewrite Hb in Hle. unfold name_bucket in Hle. rewrite <- Hn.
  destruct (String.eqb_spec (nc_name h) name) as [->|]; [done|].
  by destruct (like_esc _ (nc_name h)).
Qed.
End FuzzyProps.

(** The suggestions never hold a module or a node outside the project and are
    at most ten.  When names match, every suggestion matches and a node named
    exactly as asked comes first; any name that contains what was asked, letter
    case aside, makes a match.  When none matches, the suggestions are names
    within the allowed edit distance, and none of the pool is passed over unless
    ten at least as close are shown. *)
Theorem find_functions_by_fuzzy_name_ok like_esc `{U : Unicode} st name :
  SqlLike like_esc → is_str name → (∀ n, n ∈ s_nodes st → is_str (node_name_of n)) →
  let query := to_lowercase name in
  let project nf := nf ∈ node_files st ∧ nameable nf = true in
  ∃ rs, find_functions_by_fuzzy_name like_esc st name = Some rs
    ∧ length rs ≤ 10
    ∧ (∀ c, c ∈ rs → ∃ nf, project nf ∧ c = candidate_of nf)
    ∧ (∀ nf a m b, project nf → chars (node_name_of nf.1) = a ++ m ++ b →
         fold_char <$> m = fold_char <$> chars name → name_hit like_esc name nf = true)
    ∧ ((∃ nf, project nf ∧ name_hit like_esc name nf = true) →
         rs ≠ [] ∧ (∀ c, c ∈ rs → ∃ nf, project nf ∧ c = candidate_of nf ∧ name_hit like_esc name nf = true)
         ∧ ((∃ nf, project nf ∧ node_name_of nf.1 = name) → nc_name <$> head rs = Some name))
    ∧ ((∀ nf, project nf → name_hit like_esc name nf = false) →
         (∀ c, c ∈ rs → ∃ d, close query c d)
         ∧ (∀ c d, c ∈ fuzzy_pool st → close query c d → c ∈ rs
              ∨ length rs = 10 ∧ ∀ c', c' ∈ rs → ∃ d', close query c' d' ∧ d' ≤ d)).
Proof.
  intros Hlike Hname Hnames query project.
  assert (∀ nf, nf ∈ node_files st → is_str (node_name_of nf.1)) as Hstr.
  { intros [n f] (n' & Hin & Hn)%list_elem_of_bind. apply list_elem_of_fmap in Hin as (? & [= -> _] & _). by apply Hnames. }
  assert (∀ nf a m b, project nf → chars (node_name_of nf.1) = a ++ m ++ b →
         fold_char <$> m = fold_char <$> chars name → name_hit like_esc name nf = true) as Hhit.
  { intros nf a m b [Hnf _] Hc Hf. unfold name_hit. apply orb_true_iff. left.
    apply like_contains_exact; [done|done|by apply Hstr|eauto]. }
  assert (length (like_candidates like_esc st name) ≤ 10) as Hten
    by (unfold like_candidates; rewrite length_take; lia).
  destruct (like_candidates like_esc st name) as [|h rest] eqn:El.
  - assert (∀ nf, project nf → name_hit like_esc name nf = false) as Hno.
    { intros nf [Hnf Hp]. destruct (name_hit like_esc name nf) eqn:E; [|done].
      destruct (like_candidates_head like_esc st name (candidate_of nf)) as (h & rest & Heq & _); [|by rewrite El in Heq].
      apply elem_of_hits. eauto. }
    destruct (fuzzy_fallback like_esc st name El) as (rs & Hrs & Hlen & Hin & Hcl). exists rs.
    split; [done|]. split; [done|]. split; [|split; [done|split]].
    + intros c [Hc _]%Hin. unfold fuzzy_pool in Hc. apply elem_of_take in Hc as (i & Hc & _).
      apply list_elem_of_lookup_2 in Hc. unfold sort_cmp in Hc.
      rewrite elem_of_sort_by, elem_of_remove_dups, list_elem_of_fmap in Hc.
      destruct Hc as (nf & -> & [? ?]%list_elem_of_filter). by exists nf.
    + intros (nf & Hp & Hh). by rewrite (Hno nf Hp) in Hh.
    + intros _. split; [|done]. intros c Hc. by apply Hin.
  - exists (h :: rest). unfold find_functions_by_fuzzy_name. rewrite El. simpl. split; [done|].
    assert (∀ c, c ∈ h :: rest → ∃ nf, project nf ∧ c = candidate_of nf ∧ name_hit like_esc name nf = true) as Hin.
    { intros c Hc. rewrite <- El in Hc. apply elem_of_like_candidates, elem_of_hits in Hc as (nf & ? & -> & ? & ?).
      by exists nf. }
    split; [done|].
    split; [intros c (nf & ? & ? & _)%Hin; by exists nf|]. split; [done|]. split.
    + intros _. split; [done|]. split; [done|]. intros (nf & Hp & Hn).
      destruct (exact_leads like_esc st name nf) as (h' & rest' & Heq & Hh); [done|apply Hp|apply Hp|by rewrite Hn|].
      rewrite El in Heq. injection Heq as <- <-. simpl. by rewrite Hh, Hn.
    + intros Hno. destruct (Hin h) as (nf & Hp & _ & Hh); [by left|]. by rewrite (Hno nf Hp) in Hh.
Qed.

#[local] Existing Instance ascii_unicode.

Lemma find_functions_by_fuzzy_name_ok_witness :
  let query := to_lowercase "later" in
  let project nf := nf ∈ node_files demo_store ∧ nameable nf = true in
  ∃ rs, find_functions_by_fuzzy_name like_esc_model demo_store "later" = Some rs
    ∧ length rs ≤ 10
    ∧ (∀ c, c ∈ rs → ∃ nf, project nf ∧ c = candidate_of nf)
    ∧ (∀ nf a m b, project nf → chars (node_name_of nf.1) = a ++ m ++ b →
         fold_char <$> m = fold_char <$> chars "later" → name_hit like_esc_model "later" nf = true)
    ∧ ((∃ nf, project nf ∧ name_hit like_esc_model "later" nf = true) →
         rs ≠ [] ∧ (∀ c, c ∈ rs → ∃ nf, project nf ∧ c = candidate_of nf ∧ name_hit like_esc_model "later" nf = true)
         ∧ ((∃ nf, project nf ∧ node_name_of nf.1 = "later") → nc_name <$> head rs = Some "later"))
    ∧ ((∀ nf, project nf → name_hit like_esc_model "later" nf = false) →
         (∀ c, c ∈ rs → ∃ d, close query c d)
         ∧ (∀ c d, c ∈ fuzzy_pool demo_store → close query c d → c ∈ rs
              ∨ length rs = 10 ∧ ∀ c', c' ∈ rs → ∃ d', close query c' d' ∧ d' ≤ d)).
Proof.
  apply (find_functions_by_fuzzy_name_ok like_esc_model demo_store "later").
  - apply sql_like_model.
  - by apply is_str_ascii.
  - intros n Hn. assert (Forall (λ n, str_forall is_ascii (node_name_of n) = true) (s_nodes demo_store)) as H
      by (by repeat constructor).
    rewrite Forall_forall in H. by apply is_str_ascii, H.
Defined.

Example levenshtein_test :
  levenshtein "handle_mesage" "handle_message" = Some 1 ∧ levenshtein "kitten" "sitting" = Some 3
  ∧ levenshtein "" "abc" = Some 3.
Proof. by vm_compute. Qed.
