(* ===== verification/Search.v ===== *)
(** * Full-text search ([storage/queries/search.rs])

    What a query becomes, the AND-first strategy of [fts5_search] and the
    substring scan for scripts without spaces.  FTS5's [MATCH] is a parameter,
    given the text of the query; its scores are [f64]. *)

From S2P Require Import Prelude Str Utf8 Tokens Sql Domain Tables Store Queries Fuzzy Fusion.
From Stdlib Require Import SpecFloat.

Definition FTS_STOP_WORDS : list string :=
  ["a"; "an"; "and"; "the"; "or"; "in"; "of"; "for"; "to"; "with"; "is"; "it"; "this"; "that";
   "by"; "from"; "on"; "at"; "as"; "be"; "are"; "was"; "were"; "been"; "all"; "each"; "how";
   "what"; "when"].

Record FtsResult := mkFts {
  nodes : list NodeResult;
  bm25_scores : list f64;
  or_fallback : bool;
  cjk_substring_fallback : bool;
  empty_reason : option string;
}.

Definition is_widened_match (r : FtsResult) : bool := or_fallback r || cjk_substring_fallback r.

Definition no_rows (reason : option string) : FtsResult := mkFts [] [] false false reason.

Definition of_pairs (pairs : list (NodeResult * f64)) (or_ : bool) : FtsResult :=
  mkFts pairs.*1 pairs.*2 or_ false None.

Definition is_unsegmented_script (c : Z) : bool :=
  ((0x3040 <=? c) && (c <=? 0x30FF) || (0x3400 <=? c) && (c <=? 0x4DBF)
   || (0x4E00 <=? c) && (c <=? 0x9FFF) || (0xAC00 <=? c) && (c <=? 0xD7AF)
   || (0xF900 <=? c) && (c <=? 0xFAFF) || (0xFF66 <=? c) && (c <=? 0xFF9D)
   || (0x20000 <=? c) && (c <=? 0x2A6DF) || (0x2A700 <=? c) && (c <=? 0x2EBEF))%Z.

Definition CJK_SCAN_MAX_TERMS : nat := 32.
Definition AND_MATCH_FLOOR : nat := 3.

(** [LIMIT ?]: a negative limit is none. *)
Definition sql_limit {A} (limit : Z) (l : list A) : list A :=
  if (limit <? 0)%Z then l else take (Z.to_nat limit) l.

(** [format!("\"{}\"", t)] *)
Definition quoted (t : string) : string := dquote +:+ t +:+ dquote.
Definition and_query (terms : list string) : string := join " AND " (quoted <$> terms).
Definition or_query (terms : list string) : string := join " OR " (quoted <$> terms).

Section Query.
Context `{U : Unicode}.

Definition is_term_char (c : Z) : bool := is_alphanumeric c || (c =? UNDERSCORE)%Z.

Definition is_stop_word (w : string) : bool := bool_decide (to_lowercase w ∈ FTS_STOP_WORDS).

Definition raw_terms (query : string) : list string :=
  encode <$> pieces (λ c, negb (is_term_char c)) (chars query).

(** The words of an identifier and the expansions of the acronyms among them. *)
Definition widened_words (word : string) : list string :=
  let split := split_identifier word in
  split_whitespace split ++ (split_whitespace split ≫= expand_acronym).

Definition sanitize (word : string) : string := encode (filter (λ c, is_term_char c = true) (chars word)).

(** The set is a [BTreeSet]. *)
Definition query_terms (query : string) : list string :=
  filter (λ w, 2 ≤ String.length w)
    (sanitize <$> distinct_sorted
       (filter (λ w, is_stop_word w = false) (raw_terms query) ≫= widened_words)).

Definition why_empty (query : string) : string :=
  if bool_decide (raw_terms query = []) then "the query has no searchable characters"
  else if forallb is_stop_word (raw_terms query) then "every word in the query is a stop word"
  else "every term is shorter than the 2-character minimum the index tokenizer stores".

(** Words as the user typed them. *)
Definition user_words (query : string) : nat :=
  length (filter (λ w, sanitize w ≠ "" ∧ is_stop_word (sanitize w) = false) (split_whitespace query)).

Definition original_terms (query : string) : list string :=
  filter (λ w, is_stop_word w = false) (raw_terms query).

(** The maximal runs of characters of such scripts, sorted, each once. *)
Definition cjk_terms (query : string) : list string :=
  vec_dedup (sort_cmp String.compare
    (encode <$> pieces (λ c, negb (is_unsegmented_script c)) (chars query))).
End Query.

Section Search.
Context `{U : Unicode} (like_esc : string → string → bool).
(** [SELECT .., bm25(..) FROM nodes_fts .. MATCH q ORDER BY bm25(..)] *)
Context (match_rows : Store → string → list (NodeResult * f64)).
Context (st : Store) (limit : Z) (exclude_tests : bool).

(** [AND n.is_test = 0], if tests are excluded *)
Definition test_filter (n : NodeResult) : bool := negb (exclude_tests && n_is_test (nr_node n)).

Definition run_match (q : string) : list (NodeResult * f64) :=
  (λ r, (r.1, SFopp r.2)) <$> sql_limit limit (filter (λ r, test_filter r.1 = true) (match_rows st q)).

(** [SELECT 1 .. LIMIT 1] *)
Definition probe (q : string) : bool := existsb (λ r, test_filter r.1) (match_rows st q).

(** The early returns when the AND query has no row; [None] falls through to OR. *)
Definition garbage_guard (query : string) (terms : list string) : option FtsResult :=
  if user_words query <=? 1 then
    match original_terms query with
    | [] => None
    | [w] =>
        if (2 <=? String.length (sanitize w)) && negb (probe (quoted (sanitize w)))
        then Some (no_rows None) else None
    | _ =>
        let surviving := filter (λ t, probe (quoted t) = true) terms in
        if negb (bool_decide (surviving = [])) && (length surviving <? length terms) then
          let relaxed := run_match (and_query surviving) in
          Some (if bool_decide (relaxed = []) then no_rows None else of_pairs relaxed true)
        else Some (no_rows None)
    end
  else None.

Definition fts5_search_match (query : string) : FtsResult :=
  let terms := query_terms query in
  if bool_decide (terms = []) then no_rows (Some (why_empty query))
  else
    let fallback := of_pairs (run_match (or_query terms)) (1 <? length terms) in
    if 1 <? length terms then
      let pairs := run_match (and_query terms) in
      if AND_MATCH_FLOOR <=? length pairs then of_pairs pairs false
      else if bool_decide (pairs = []) then default fallback (garbage_guard query terms)
      else fallback
    else fallback.

(** The columns that hold prose. *)
Definition text_cols (n : NodeResult) : list (option string) :=
  [Some (node_name_of n); qualified_of n; Some (nr_code_content n); nr_context_string n; nr_doc_comment n].

Definition in_column (term : string) (col : option string) : bool :=
  like_opt like_esc ("%" +:+ escape_like term +:+ "%") col.

Definition cjk_row (terms : list string) (n : NodeResult) : bool :=
  forallb (λ t, existsb (in_column t) (text_cols n)) terms && test_filter n.

Definition cjk_cmp (terms : list string) : NodeResult → NodeResult → comparison :=
  cmp_then
    (cmp_by (λ n, if existsb (λ t, in_column t (Some (node_name_of n)) || in_column t (qualified_of n)) terms
                  then 0 else 1) Nat.compare)
    (cmp_then (cmp_by (λ n, sql_length (nr_code_content n)) Nat.compare) (cmp_by node_id_of Z.compare)).

Definition cjk_substring_scan (query : string) : FtsResult :=
  let terms := cjk_terms query in
  if bool_decide (terms = []) then no_rows None
  else if CJK_SCAN_MAX_TERMS <? length terms then no_rows None
  else
    let found := sql_limit limit (sort_cmp (cjk_cmp terms) (filter (λ n, cjk_row terms n = true) (s_nodes st))) in
    if bool_decide (found = []) then no_rows None
    else mkFts found (replicate (length found) (S754_zero false)) false true None.

Definition fts5_search_impl (query : string) : FtsResult :=
  let matched := fts5_search_match query in
  if negb (bool_decide (nodes matched = [])) || bool_decide (empty_reason matched ≠ None) then matched
  else cjk_substring_scan query.
End Search.

Definition fts5_search `{U : Unicode} like_esc match_rows st query limit : FtsResult :=
  fts5_search_impl like_esc match_rows st limit true query.

(** ** What FTS5 documents of phrases joined by AND and OR *)

Definition is_term `{U : Unicode} (t : string) : Prop :=
  ∃ cs, t = encode cs ∧ cs ≠ [] ∧ Forall (λ c, is_term_char c = true) cs.

(** [phrase t n]: the row of [n] holds the phrase [t] in an indexed column. *)
Class FtsOk `{U : Unicode} (match_rows : Store → string → list (NodeResult * f64))
    (phrase : string → NodeResult → bool) : Prop := {
  fts_and st ts n : ts ≠ [] → Forall is_term ts →
    n ∈ (match_rows st (and_query ts)).*1 ↔ n ∈ s_nodes st ∧ Forall (λ t, phrase t n = true) ts;
  fts_or st ts n : ts ≠ [] → Forall is_term ts →
    n ∈ (match_rows st (or_query ts)).*1 ↔ n ∈ s_nodes st ∧ Exists (λ t, phrase t n = true) ts;
}.

(** ** Properties *)

Lemma elem_of_sql_limit {A} limit (l : list A) x : x ∈ sql_limit limit l → x ∈ l.
Proof.
  unfold sql_limit. destruct (limit <? 0)%Z; [done|].
  intros (i & Hi & _)%elem_of_take. by eapply list_elem_of_lookup_2.
Qed.

Lemma sql_limit_nil {A} limit (l : list A) : (limit ≠ 0)%Z → sql_limit limit l = [] → l = [].
Proof.
  unfold sql_limit. intros Hl. destruct (Z.ltb_spec limit 0); [done|].
  destruct l as [|x l]; [done|]. destruct (Z.to_nat limit) as [|n] eqn:E; [lia|done].
Qed.

Lemma sql_limit_length {A} limit (l : list A) : (0 ≤ limit)%Z → (Z.of_nat (length (sql_limit limit l)) ≤ limit)%Z.
Proof.
  unfold sql_limit. intros Hl. destruct (Z.ltb_spec limit 0); [lia|]. rewrite length_take. lia.
Qed.

Section SearchProps.
Context `{U : Unicode} (like_esc : string → string → bool) `{!SqlLike like_esc}.
Context (match_rows : Store → string → list (NodeResult * f64)) (phrase : string → NodeResult → bool).
Context `{!FtsOk match_rows phrase}.
Context (st : Store) (limit : Z) (exclude_tests : bool).

#[local] Abbreviation run := (run_match match_rows st limit exclude_tests).
#[local] Abbreviation keeps := (test_filter exclude_tests).

Lemma sanitize_is_term w : 2 ≤ String.length (sanitize w) → is_term (sanitize w).
Proof.
  intros Hl. eexists. split; [reflexivity|]. split.
  - intros E. unfold sanitize in Hl. rewrite E in Hl. simpl in Hl. lia.
  - apply Forall_forall. by intros c [? _]%list_elem_of_filter.
Qed.

Lemma query_terms_ok query : Forall is_term (query_terms query).
Proof.
  apply Forall_forall. intros t [Hl (w & -> & _)%list_elem_of_fmap]%list_elem_of_filter.
  by apply sanitize_is_term.
Qed.

Lemma elem_of_run q n :
  n ∈ (run q).*1 → n ∈ (match_rows st q).*1 ∧ keeps n = true.
Proof.
  unfold run_match. intros (p & -> & (r & -> & Hr)%list_elem_of_fmap)%list_elem_of_fmap.
  apply elem_of_sql_limit, list_elem_of_filter in Hr as [Hk Hr]. split; [|done]. by apply (list_elem_of_fmap_2 fst _ r).
Qed.

Lemma run_nil q : (limit ≠ 0)%Z → run q = [] → ∀ n, n ∈ (match_rows st q).*1 → keeps n = false.
Proof.
  intros Hl Hr n (r & -> & Hin)%list_elem_of_fmap. unfold run_match in Hr.
  apply fmap_nil_inv, sql_limit_nil in Hr; [|done]. destruct (keeps r.1) eqn:E; [|done].
  assert (r ∈ filter (λ r, keeps r.1 = true) (match_rows st q)) as H by by apply list_elem_of_filter.
  rewrite Hr in H. by apply not_elem_of_nil in H.
Qed.

Lemma run_length q : (0 ≤ limit)%Z → (Z.of_nat (length (run q)) ≤ limit)%Z.
Proof. unfold run_match. rewrite length_fmap. apply sql_limit_length. Qed.

Lemma probe_term t :
  is_term t → probe match_rows st exclude_tests (quoted t) = true ↔
  ∃ n, n ∈ s_nodes st ∧ phrase t n = true ∧ keeps n = true.
Proof.
  intros Ht. unfold probe. rewrite existsb_exists.
  pose proof (fts_and st [t]) as Hm. change (and_query [t]) with (quoted t) in Hm. split.
  - intros (r & Hr%list_elem_of_In & Hk). exists r.1.
    apply (list_elem_of_fmap_2 fst) in Hr. apply Hm in Hr as [? Hp]; [|done|by apply Forall_singleton].
    apply Forall_cons_1 in Hp as [? _]. done.
  - intros (n & Hn & Hp & Hk). assert (n ∈ (match_rows st (quoted t)).*1) as Hin.
    { apply Hm; [done|by apply Forall_singleton|]. split; [done|by apply Forall_singleton]. }
    apply list_elem_of_fmap in Hin as (r & -> & Hr). exists r. split; [by apply list_elem_of_In|done].
Qed.

(** What a result says of its rows. *)
Definition rows_ok (query : string) (r : FtsResult) : Prop :=
  length (bm25_scores r) = length (nodes r)
  ∧ ((0 ≤ limit)%Z → (Z.of_nat (length (nodes r)) ≤ limit)%Z)
  ∧ ∀ n, n ∈ nodes r → n ∈ s_nodes st ∧ keeps n = true
     ∧ (is_widened_match r = false → Forall (λ t, phrase t n = true) (query_terms query))
     ∧ (or_fallback r = true → Exists (λ t, phrase t n = true) (query_terms query))
     ∧ (cjk_substring_fallback r = true → ∀ t, t ∈ cjk_terms query →
          ∃ c a b, Some c ∈ text_cols n ∧ chars c = a ++ chars t ++ b).

Lemma rows_ok_none query reason : rows_ok query (no_rows reason).
Proof. split; [done|]. split; [done|]. intros n []%not_elem_of_nil. Qed.

Lemma rows_ok_pairs query q b :
  (∀ n, n ∈ (match_rows st q).*1 → n ∈ s_nodes st
     ∧ (b = false → Forall (λ t, phrase t n = true) (query_terms query))
     ∧ (b = true → Exists (λ t, phrase t n = true) (query_terms query))) →
  rows_ok query (of_pairs (run q) b).
Proof.
  intros H. unfold rows_ok. cbn [of_pairs nodes bm25_scores]. rewrite !length_fmap. split; [done|].
  split; [apply run_length|]. intros n [Hn Hk]%elem_of_run. destruct (H n Hn) as (? & ? & ?).
  split; [done|]. split; [done|]. unfold is_widened_match. cbn. rewrite orb_false_r. done.
Qed.

Lemma rows_ok_or query b :
  query_terms query ≠ [] → (b = false → length (query_terms query) = 1) →
  rows_ok query (of_pairs (run (or_query (query_terms query))) b).
Proof.
  intros Hne Hb. apply rows_ok_pairs. intros n Hn.
  apply fts_or in Hn as [? He]; [|done|apply query_terms_ok]. split; [done|]. split; [|done].
  intros Hb'. specialize (Hb Hb'). destruct (query_terms query) as [|t [|? ?]]; try done.
  apply Exists_cons in He as [?|He]; [by apply Forall_singleton|]. by apply Exists_nil in He.
Qed.

Lemma garbage_guard_ok query r :
  garbage_guard match_rows st limit exclude_tests query (query_terms query) = Some r → rows_ok query r.
Proof.
  unfold garbage_guard. destruct (user_words query <=? 1); [|done].
  destruct (original_terms query) as [|w [|w' ws]]; [done| |].
  - destruct (_ && _); [|done]. intros [= <-]. apply rows_ok_none.
  - set (surviving := filter (λ t, probe match_rows st exclude_tests (quoted t) = true) (query_terms query)).
    destruct (bool_decide (surviving = [])) eqn:Es; [intros [= <-]; apply rows_ok_none|].
    destruct (length surviving <? length (query_terms query)); [|intros [= <-]; apply rows_ok_none].
    apply bool_decide_eq_false in Es. intros [= <-].
    destruct (bool_decide (run (and_query surviving) = [])); [apply rows_ok_none|]. apply rows_ok_pairs.
    intros n Hn. apply fts_and in Hn as [? Hall]; [|done|].
    2:{ pose proof (query_terms_ok query) as Ht. rewrite Forall_forall in *.
        intros t [_ Hin]%list_elem_of_filter. auto. }
    split; [done|]. split; [done|]. intros _. apply Exists_exists.
    rewrite Forall_forall in Hall. assert (∃ t, t ∈ surviving) as [t Ht].
    { destruct surviving as [|t ts]; [done|]. exists t. left. }
    exists t. split; [|by apply Hall]. by apply list_elem_of_filter in Ht as [_ ?].
Qed.

Lemma match_rows_ok query : rows_ok query (fts5_search_match match_rows st limit exclude_tests query).
Proof.
  unfold fts5_search_match. set (terms := query_terms query).
  destruct (bool_decide (terms = [])) eqn:Et; [apply rows_ok_none|]. apply bool_decide_eq_false in Et.
  assert (rows_ok query (of_pairs (run (or_query terms)) (1 <? length terms))) as Hor.
  { apply rows_ok_or; [done|]. intros Hl%Nat.ltb_ge. fold terms. destruct terms; [done|]. simpl in *. lia. }
  destruct (1 <? length terms) eqn:El; [|exact Hor].
  destruct (AND_MATCH_FLOOR <=? length (run (and_query terms))).
  - apply rows_ok_pairs. intros n Hn. apply fts_and in Hn as [? ?]; [|done|apply query_terms_ok].
    done.
  - destruct (bool_decide (run (and_query terms) = [])); [|exact Hor].
    destruct (garbage_guard _ _ _ _ query terms) as [r|] eqn:Eg; [by apply garbage_guard_ok in Eg|exact Hor].
Qed.

(** An honest empty: nothing the search could have returned. *)
Lemma match_empty query :
  (limit ≠ 0)%Z → query_terms query ≠ [] →
  nodes (fts5_search_match match_rows st limit exclude_tests query) = [] →
  ∀ n, n ∈ s_nodes st → keeps n = true → ¬ Forall (λ t, phrase t n = true) (query_terms query).
Proof.
  intros Hl Hne. unfold fts5_search_match. set (terms := query_terms query) in *.
  rewrite bool_decide_eq_false_2 by done.
  assert (∀ n, n ∈ s_nodes st → keeps n = true → Forall (λ t, phrase t n = true) terms →
          run (and_query terms) ≠ [] ∧ run (or_query terms) ≠ []) as Hrun.
  { intros n Hn Hk Hall. split; intros Hr; pose proof (run_nil _ Hl Hr n) as H; rewrite H in Hk; try done.
    - apply fts_and; [done|apply query_terms_ok|done].
    - apply fts_or; [done|apply query_terms_ok|]. split; [done|]. destruct terms; [done|].
      apply Exists_cons. left. by apply Forall_cons_1 in Hall as [? _]. }
  intros He n Hn Hk Hall. destruct (Hrun n Hn Hk Hall) as [Ha Ho].
  assert (∀ l b, nodes (of_pairs l b) = [] → l = []) as Hnil by (intros l b ?%fmap_nil_inv; done).
  destruct (1 <? length terms); [|by apply Hnil in He].
  destruct (AND_MATCH_FLOOR <=? length (run (and_query terms))); [by apply Hnil in He|].
  rewrite bool_decide_eq_false_2 in He by done. by apply Hnil in He.
Qed.

Lemma cjk_terms_ok query t : t ∈ cjk_terms query → is_str t ∧ Forall (λ c, fold_char c = c ∧ (128 ≤ c)%Z) (chars t).
Proof.
  unfold cjk_terms, sort_cmp. rewrite elem_of_vec_dedup, elem_of_sort_by, list_elem_of_fmap.
  intros (w & -> & Hw). pose proof (pieces_ok (λ c, negb (is_unsegmented_script c)) (chars query)) as H.
  rewrite Forall_forall in H. destruct (H w Hw) as [_ Hc].
  assert (Forall (λ c, 0x3040 ≤ c < 1114112)%Z w) as Hr.
  { rewrite Forall_forall in *. intros c Hn%Hc%negb_false_iff. unfold is_unsegmented_script in Hn.
    rewrite !orb_true_iff, !andb_true_iff, !Z.leb_le in Hn. lia. }
  assert (Forall is_char w) as Hch.
  { rewrite Forall_forall in *. intros c Hin. specialize (Hr c Hin). unfold is_char. lia. }
  split; [by apply is_str_encode|]. rewrite chars_encode by done.
  rewrite Forall_forall in *. intros c Hin. specialize (Hr c Hin). split; [|lia].
  unfold fold_char, ascii_upper_char. destruct ((65 <=? c) && (c <=? 90))%Z eqn:E; [|done].
  apply andb_true_iff in E as [_ ?%Z.leb_le]. lia.
Qed.

Lemma fold_literal m w :
  Forall (λ c, fold_char c = c ∧ (128 ≤ c)%Z) w → fold_char <$> m = fold_char <$> w → m = w.
Proof.
  intros Hw. revert m. induction Hw as [|c w [Hc Hl] _ IH]; intros [|d m] H; try done.
  injection H as Hd Hm. f_equal; [|by apply IH]. rewrite Hc in Hd. revert Hd.
  unfold fold_char, ascii_upper_char. destruct ((65 <=? d) && (d <=? 90))%Z eqn:E; [|done].
  apply andb_true_iff in E as [_ ?%Z.leb_le]. lia.
Qed.

Lemma cjk_rows_ok query :
  (∀ n c, n ∈ s_nodes st → Some c ∈ text_cols n → is_str c) →
  rows_ok query (cjk_substring_scan like_esc st limit exclude_tests query).
Proof.
  intros Hstr. unfold cjk_substring_scan. set (terms := cjk_terms query).
  destruct (bool_decide (terms = [])); [apply rows_ok_none|].
  destruct (CJK_SCAN_MAX_TERMS <? length terms); [apply rows_ok_none|].
  set (found := sql_limit limit _). destruct (bool_decide (found = [])); [apply rows_ok_none|].
  unfold rows_ok. cbn [nodes bm25_scores]. rewrite length_replicate. split; [done|].
  split; [apply sql_limit_length|]. intros n Hn.
  apply elem_of_sql_limit in Hn. unfold sort_cmp in Hn. rewrite elem_of_sort_by in Hn.
  apply list_elem_of_filter in Hn as [Hrow Hn]. unfold cjk_row in Hrow. apply andb_true_iff in Hrow as [Hall Hk].
  split; [done|]. split; [done|]. split; [by unfold is_widened_match|]. split; [done|].
  intros _ t Ht. rewrite forallb_forall in Hall. specialize (Hall t (proj1 (list_elem_of_In _ _) Ht)).
  apply existsb_exists in Hall as ([c|] & Hc%list_elem_of_In & Hin); [|done].
  destruct (cjk_terms_ok query t Ht) as [Hts Htl].
  unfold in_column, like_opt in Hin.
  apply (like_contains_exact like_esc t c Hts (Hstr n c Hn Hc)) in Hin as (a & m & b & Hch & Hm).
  apply fold_literal in Hm as ->; [|done]. by exists c, a, b.
Qed.

Lemma match_reason query :
  empty_reason (fts5_search_match match_rows st limit exclude_tests query) ≠ None ↔ query_terms query = [].
Proof.
  unfold fts5_search_match. set (terms := query_terms query).
  destruct (bool_decide (terms = [])) eqn:Et; [by apply bool_decide_eq_true in Et|].
  apply bool_decide_eq_false in Et. split; [|done]. intros H. exfalso. apply H. clear H.
  destruct (1 <? length terms); [|done]. destruct (AND_MATCH_FLOOR <=? _); [done|].
  destruct (bool_decide (run (and_query terms) = [])); [|done].
  destruct (garbage_guard _ _ _ _ query terms) as [r|] eqn:Eg; [simpl|done].
  unfold garbage_guard in Eg. destruct (user_words query <=? 1); [|done].
  destruct (original_terms query) as [|w [|w' ws]]; [done| |].
  - destruct (_ && _); [|done]. by injection Eg as <-.
  - destruct (_ && _); [|by injection Eg as <-]. injection Eg as <-. by destruct (bool_decide _).
Qed.

Lemma cjk_reason query : empty_reason (cjk_substring_scan like_esc st limit exclude_tests query) = None.
Proof.
  unfold cjk_substring_scan. destruct (bool_decide _); [done|]. destruct (_ <? _); [done|].
  by destruct (bool_decide _).
Qed.
End SearchProps.

(** C31: A search tells the truth about its answer.  It gives a reason exactly
    when no term of the query can be searched, and then no rows; it shows at most
    [limit] rows, none of them a test, each with its score.  A row not marked as
    widened matches every term; a row of the OR fallback matches one; a row of the
    substring scan holds every run of unsegmented script in one of its text
    columns.  An answer that is empty without a reason means that no production
    node matches all the terms. *)
Theorem fts5_search_ok `{U : Unicode} like_esc match_rows phrase st query limit :
  SqlLike like_esc → FtsOk match_rows phrase →
  (∀ n c, n ∈ s_nodes st → Some c ∈ text_cols n → is_str c) →
  let r := fts5_search like_esc match_rows st query limit in
  let terms := query_terms query in
  (empty_reason r ≠ None ↔ terms = [])
  ∧ (empty_reason r ≠ None → nodes r = [])
  ∧ length (bm25_scores r) = length (nodes r)
  ∧ ((0 ≤ limit)%Z → (Z.of_nat (length (nodes r)) ≤ limit)%Z)
  ∧ (∀ n, n ∈ nodes r → n ∈ s_nodes st ∧ n_is_test (nr_node n) = false
       ∧ (is_widened_match r = false → Forall (λ t, phrase t n = true) terms)
       ∧ (or_fallback r = true → Exists (λ t, phrase t n = true) terms)
       ∧ (cjk_substring_fallback r = true → ∀ t, t ∈ cjk_terms query →
            ∃ c a b, Some c ∈ text_cols n ∧ chars c = a ++ chars t ++ b))
  ∧ ((limit ≠ 0)%Z → terms ≠ [] → nodes r = [] →
       ∀ n, n ∈ s_nodes st → n_is_test (nr_node n) = false → ¬ Forall (λ t, phrase t n = true) terms).
Proof.
  intros Hlike Hfts Hstr r terms.
  pose proof (match_reason match_rows st limit true query) as Hmr.
  pose proof (match_rows_ok match_rows phrase st limit true query) as Hm.
  pose proof (match_empty match_rows phrase st limit true query) as Hme.
  pose proof (cjk_rows_ok like_esc phrase st limit true query Hstr) as Hc.
  set (m := fts5_search_match match_rows st limit true query) in *.
  assert (r = m ∧ (nodes m ≠ [] ∨ empty_reason m ≠ None)
          ∨ r = cjk_substring_scan like_esc st limit true query ∧ nodes m = [] ∧ empty_reason m = None) as Hr.
  { unfold r, fts5_search, fts5_search_impl. fold m.
    destruct (bool_decide (nodes m = [])) eqn:E1; [apply bool_decide_eq_true in E1|apply bool_decide_eq_false in E1].
    - destruct (bool_decide (empty_reason m ≠ None)) eqn:E2;
        [apply bool_decide_eq_true in E2|apply bool_decide_eq_false in E2]; simpl; [by left; auto|right].
      destruct (empty_reason m); [by destruct E2|done].
    - left. simpl. auto. }
  assert (terms = [] → nodes m = []) as Hnil.
  { intros He. unfold m, fts5_search_match. fold terms. by rewrite He. }
  assert (rows_ok phrase st limit true query r) as (H1 & H2 & H3) by (destruct Hr as [[-> _]|[-> _]]; done).
  split; [|split; [|split; [done|split; [done|split]]]].
  - destruct Hr as [[-> _]|(-> & _ & Hn)]; [exact Hmr|]. rewrite cjk_reason. rewrite Hn in Hmr. done.
  - destruct Hr as [[-> _]|(-> & _ & Hn)]; [|by rewrite cjk_reason]. intros He. by apply Hnil, Hmr.
  - intros n Hn. destruct (H3 n Hn) as (? & Hk & ?). split; [done|]. split; [|done].
    unfold test_filter in Hk. by apply negb_true_iff in Hk.
  - intros Hl Hne Hn n Hin Ht. apply Hme; [done|done| |done|by unfold test_filter; rewrite Ht].
    by destruct Hr as [[Hr _]|(_ & ? & _)]; [rewrite <- Hr|].
Qed.

(** ** A matcher that does what the documentation says *)

#[local] Existing Instance ascii_unicode.

Fixpoint intersperse (x : string) (l : list string) : list string :=
  match l with
  | w :: ((_ :: _) as l') => w :: x :: intersperse x l'
  | _ => l
  end.

Definition unquoted (p : string) : string :=
  default "" (strip_prefix dquote p ≫= strip_suffix dquote).

Definition model_phrase (t : string) (n : NodeResult) : bool :=
  contains (to_ascii_lowercase t) (to_ascii_lowercase (node_name_of n)).

Definition model_match (st : Store) (q : string) : list (NodeResult * f64) :=
  let ws := split_on ch_space q in
  let phrases := unquoted <$> filter (λ w, starts_with dquote w = true) ws in
  (λ n, (n, S754_zero false)) <$>
    filter (λ n, (if bool_decide ("OR" ∈ ws) then existsb (λ t, model_phrase t n) phrases
                  else forallb (λ t, model_phrase t n) phrases) = true) (s_nodes st).

Lemma join_intersperse x l : join (" " +:+ x +:+ " ") l = join " " (intersperse x l).
Proof.
  induction l as [|w [|w' l] IH]; [done|done|].
  change (intersperse x (w :: w' :: l)) with (w :: x :: intersperse x (w' :: l)).
  rewrite join_cons, IH by done. rewrite (join_cons " " w), (join_cons " " x) by (done || by destruct l).
  by rewrite !str_app_assoc.
Qed.

Lemma unquoted_quoted t : unquoted (quoted t) = t.
Proof.
  unfold unquoted, quoted. rewrite (proj2 (strip_prefix_Some dquote _ (t +:+ dquote))) by done.
  cbn [mbind option_bind]. by rewrite (proj2 (strip_suffix_Some dquote (t +:+ dquote) t)).
Qed.

Lemma term_no_space t : is_term t → no_char ch_space (quoted t) = true.
Proof.
  intros (cs & -> & _ & Hcs). unfold quoted, no_char. rewrite !str_forall_app. apply andb_true_iff. split; [done|].
  apply andb_true_iff. split; [|done]. induction Hcs as [|c cs Hc _ IH]; [done|]. cbn [encode].
  rewrite str_forall_app, IH, andb_true_r. unfold is_term_char in Hc. cbn in Hc.
  unfold ascii_upper_char, ascii_lower_char, ascii_digit_char, UNDERSCORE in Hc.
  rewrite !orb_true_iff, !andb_true_iff, !Z.leb_le, Z.eqb_eq in Hc.
  unfold encode_char. rewrite (proj2 (Z.ltb_lt c 128)) by lia. cbn [str_forall]. rewrite andb_true_r.
  apply negb_true_iff. destruct (Ascii.eqb_spec ch_space (of_byte c)) as [E|]; [|done]. exfalso.
  apply (f_equal byte_of) in E. rewrite byte_of_of_byte in E by lia. change (byte_of ch_space) with 32%Z in E. lia.
Qed.

Lemma split_query x ts :
  no_char ch_space x = true → ts ≠ [] → Forall is_term ts →
  split_on ch_space (join (" " +:+ x +:+ " ") (quoted <$> ts)) = intersperse x (quoted <$> ts).
Proof.
  intros Hx Hne Hts. rewrite join_intersperse. change " " with (String ch_space ""). apply split_join.
  - by destruct ts as [|t [|? ?]].
  - clear Hne. induction Hts as [|t ts Ht Hts IH]; [constructor|].
    destruct ts as [|t' ts]; [constructor; [by apply term_no_space|constructor]|].
    constructor; [by apply term_no_space|]. by constructor.
Qed.

Lemma intersperse_phrases x ts :
  starts_with dquote x = false →
  unquoted <$> filter (λ w, starts_with dquote w = true) (intersperse x (quoted <$> ts)) = ts.
Proof.
  intros Hx. assert (∀ t, starts_with dquote (quoted t) = true) as Hq by (intros t; apply starts_with_spec; by eexists).
  induction ts as [|t [|t' ts] IH]; [done| |].
  - cbn [fmap list_fmap intersperse]. rewrite filter_cons_True by done. cbn [fmap list_fmap]. by rewrite unquoted_quoted.
  - change (intersperse x (quoted <$> t :: t' :: ts)) with (quoted t :: x :: intersperse x (quoted <$> t' :: ts)).
    rewrite filter_cons_True, filter_cons_False by (done || by rewrite Hx).
    rewrite (fmap_cons unquoted), unquoted_quoted. f_equal. exact IH.
Qed.

Lemma intersperse_elem x ts w : w ∈ intersperse x (quoted <$> ts) → w = x ∨ starts_with dquote w = true.
Proof.
  assert (∀ t, starts_with dquote (quoted t) = true) as Hq by (intros t; apply starts_with_spec; by eexists).
  induction ts as [|t [|t' ts] IH]; [by intros ?%not_elem_of_nil|intros ->%list_elem_of_singleton; auto|].
  change (intersperse x (quoted <$> t :: t' :: ts)) with (quoted t :: x :: intersperse x (quoted <$> t' :: ts)).
  intros [->|[->|Hw]%elem_of_cons]%elem_of_cons; auto.
Qed.

Lemma elem_of_model_match st q n :
  n ∈ (model_match st q).*1 ↔ n ∈ s_nodes st ∧
    (if bool_decide ("OR" ∈ split_on ch_space q)
     then existsb (λ t, model_phrase t n) (unquoted <$> filter (λ w, starts_with dquote w = true) (split_on ch_space q))
     else forallb (λ t, model_phrase t n) (unquoted <$> filter (λ w, starts_with dquote w = true) (split_on ch_space q))) = true.
Proof.
  unfold model_match. rewrite <- list_fmap_compose, list_fmap_id, list_elem_of_filter. tauto.
Qed.

#[local] Instance model_fts : FtsOk model_match model_phrase.
Proof.
  split; intros st ts n Hne Hts; rewrite elem_of_model_match.
  - change (and_query ts) with (join (" " +:+ "AND" +:+ " ") (quoted <$> ts)).
    rewrite split_query, intersperse_phrases, bool_decide_eq_false_2 by (done || by intros [?|?]%intersperse_elem).
    rewrite forallb_forall, Forall_forall. by setoid_rewrite list_elem_of_In.
  - change (or_query ts) with (join (" " +:+ "OR" +:+ " ") (quoted <$> ts)).
    rewrite split_query, intersperse_phrases by done. destruct ts as [|t [|t' ts]]; [done| |].
    + rewrite bool_decide_eq_false_2 by by intros ?%list_elem_of_singleton.
      cbn. rewrite andb_true_r, Exists_cons, Exists_nil. tauto.
    + rewrite bool_decide_eq_true_2 by (right; left).
      rewrite existsb_exists, Exists_exists. by setoid_rewrite list_elem_of_In.
Qed.

Lemma fts5_search_ok_witness :
  let r := fts5_search like_esc_model model_match demo_store "later f" 10 in
  let terms := query_terms "later f" in
  (empty_reason r ≠ None ↔ terms = [])
  ∧ (empty_reason r ≠ None → nodes r = [])
  ∧ length (bm25_scores r) = length (nodes r)
  ∧ ((0 ≤ 10)%Z → (Z.of_nat (length (nodes r)) ≤ 10)%Z)
  ∧ (∀ n, n ∈ nodes r → n ∈ s_nodes demo_store ∧ n_is_test (nr_node n) = false
       ∧ (is_widened_match r = false → Forall (λ t, model_phrase t n = true) terms)
       ∧ (or_fallback r = true → Exists (λ t, model_phrase t n = true) terms)
       ∧ (cjk_substring_fallback r = true → ∀ t, t ∈ cjk_terms "later f" →
            ∃ c a b, Some c ∈ text_cols n ∧ chars c = a ++ chars t ++ b))
  ∧ ((10 ≠ 0)%Z → terms ≠ [] → nodes r = [] →
       ∀ n, n ∈ s_nodes demo_store → n_is_test (nr_node n) = false → ¬ Forall (λ t, model_phrase t n = true) terms).
Proof.
  apply (fts5_search_ok like_esc_model model_match model_phrase demo_store "later f" 10);
    [apply sql_like_model|apply model_fts|].
  intros n c Hn Hc.
  assert (Forall (λ n, Forall (λ o, match o with Some c => str_forall is_ascii c = true | None => True end) (text_cols n))
            (s_nodes demo_store)) as H by (by repeat constructor).
  rewrite Forall_forall in H. specialize (H n Hn). rewrite Forall_forall in H. by apply is_str_ascii, (H (Some c)).
Defined.

(** The terms of the comments: punctuation separates, stop words go, acronyms
    widen; a query of one-letter words says why it finds nothing. *)
Example query_terms_test :
  query_terms "db.execute" = ["db"; "execute"]
  ∧ query_terms "the RRF" = ["RRF"; "fusion"; "rank"; "reciprocal"]
  ∧ query_terms "getUser" = ["User"; "get"; "getUser"]
  ∧ (query_terms "x", why_empty "x") = ([], "every term is shorter than the 2-character minimum the index tokenizer stores")
  ∧ (query_terms "the of", why_empty "the of") = ([], "every word in the query is a stop word")
  ∧ why_empty "?!" = "the query has no searchable characters".
Proof. by vm_compute. Qed.
