(* ===== verification/DeadCode.v ===== *)
(** * Dead code ([storage/queries/dead_code.rs])

    The query of [find_dead_code] as a condition on a row of [nodes] joined with
    its file, the report both surfaces format, and the probe for a path that
    names no indexed file.  A column that can be NULL makes a condition unknown:
    the [WHERE] clause keeps a row when every condition is true. *)

From S2P Require Import Prelude Str Utf8 Domain Sql Tables Store Queries Search Paths.

(** ** Three-valued conditions *)

Definition sql_and (a b : option bool) : option bool :=
  match a, b with
  | Some false, _ | _, Some false => Some false
  | Some true, Some true => Some true
  | _, _ => None
  end.
Definition sql_or (a b : option bool) : option bool :=
  match a, b with
  | Some true, _ | _, Some true => Some true
  | Some false, Some false => Some false
  | _, _ => None
  end.
Definition sql_not (a : option bool) : option bool := negb <$> a.
Definition sql_any (l : list (option bool)) : option bool := foldr sql_or (Some false) l.
Definition sql_true (a : option bool) : bool := match a with Some b => b | None => false end.

(** [column IN (..)] *)
Definition sql_in (column : option string) (l : list string) : option bool := one_of l <$> column.

(** ** The query *)

Record DeadCodeResult := mkDead {
  dc_id : Z;
  dc_name : string;
  dc_node_type : string;
  dc_start_line : Z;
  dc_end_line : Z;
  dc_file_path : string;
  dc_code_content : string;
  dc_has_export_edge : bool;
}.

Definition USAGE_RELATIONS : list string := [REL_CALLS; REL_IMPORTS; REL_INHERITS; REL_IMPLEMENTS; REL_REFERENCES].
Definition HEADINGS : list string := ["h1"; "h2"; "h3"; "h4"; "h5"; "h6"].
Definition CALLABLE : list string := ["method"; "function"].
Definition BODY_TYPES : list string :=
  ["function"; "method"; "struct"; "enum"; "type_alias"; "interface"; "trait"; "constant"].
Definition EDGELESS_TYPES : list string := ["constant"; "struct"; "enum"; "type_alias"; "interface"; "trait"].

(** What may follow the name where it is an identifier of its own. *)
Definition DELIMITERS : list string :=
  ["("; ")"; ","; " "; ";"; String ch_newline ""; ":"; "<"; "."; "{"; "}"].
Definition names (code name : string) : bool := existsb (λ d, contains (name +:+ d) code) DELIMITERS.

Definition line_count (n : NodeResult) : Z := (n_end_line (nr_node n) - n_start_line (nr_node n) + 1)%Z.

Fixpoint count_char (c : ascii) (s : string) : nat :=
  match s with EmptyString => 0 | String d s' => (if Ascii.eqb c d then 1 else 0) + count_char c s' end.

(** The stored body may have lost its tail. *)
Definition truncated (n : NodeResult) : bool :=
  ends_with "..." (nr_code_content n)
  && (5 <? line_count n - Z.of_nat (count_char ch_newline (nr_code_content n)))%Z.

(** [length(n.name)] counts characters. *)
Definition name_length (n : NodeResult) : nat := length (chars (node_name_of n)).

Section Query.
Context (glob like like_esc : string → string → bool) `{U : Unicode} (st : Store).

Definition same_file (n m : NodeResult) : bool := (node_file_of n =? node_file_of m)%Z.

Definition used_in_file (n : NodeResult) : bool :=
  existsb (λ n2, same_file n2 n && negb (node_id_of n2 =? node_id_of n)%Z && one_of BODY_TYPES (type_of n2)
                 && (names (nr_code_content n2) (node_name_of n) || truncated n2)) (s_nodes st).

Definition used_elsewhere (n : NodeResult) : bool :=
  existsb (λ n3, negb (same_file n3 n) && names (nr_code_content n3) (node_name_of n)) (s_nodes st).

Definition not_named (n : NodeResult) : bool :=
  (name_length n <? 3)
  || (negb (used_in_file n)
      && (negb (one_of EDGELESS_TYPES (type_of n)) || (name_length n <? 5) || negb (used_elsewhere n))).

Definition edge_rows : list EdgeRow := ee_edge <$> s_edges st.

Definition used_by_edge (id : Z) : bool :=
  existsb (λ e, (e_target_id e =? id)%Z && one_of USAGE_RELATIONS (e_relation e)
                && negb (synthetic_import_holds like e)) edge_rows.
Definition routed (id : Z) : bool :=
  existsb (λ e, (e_source_id e =? id)%Z && (e_target_id e =? id)%Z && String.eqb (e_relation e) REL_ROUTES_TO) edge_rows.
Definition has_export (id : Z) : bool :=
  existsb (λ e, (e_target_id e =? id)%Z && String.eqb (e_relation e) REL_EXPORTS) edge_rows.

(** A class or struct of the file with the function's name. *)
Definition named_after_type (n : NodeResult) : bool :=
  existsb (λ c, same_file c n && one_of ["class"; "struct"] (type_of c) && String.eqb (node_name_of c) (node_name_of n))
    (s_nodes st).

Definition DUNDER : string := "\_\_%\_\_".
Definition MAGIC : string := "\_\_%".

(** Constructors and magic methods, which the language runtime calls. *)
Definition implicit_method (n : NodeResult) (f : FileEntry) : option bool :=
  let language := file_language f in
  let name := node_name_of n in
  sql_and (Some (one_of CALLABLE (type_of n)))
    (sql_any [sql_and (sql_in language ["python"]) (Some (like_esc DUNDER name));
              sql_and (sql_in language ["php"]) (Some (like_esc MAGIC name));
              sql_and (sql_in language ["javascript"; "typescript"; "tsx"]) (Some (String.eqb name "constructor"));
              sql_and (sql_in language ["ruby"]) (Some (String.eqb name "initialize"));
              sql_and (sql_in language ["cpp"]) (Some (like "~%" name));
              sql_and (sql_in language ["java"; "csharp"; "dart"; "cpp"]) (Some (named_after_type n))]).

Definition c_type (n : NodeResult) (f : FileEntry) : option bool :=
  sql_and (sql_in (file_language f) ["c"; "cpp"]) (Some (one_of ["class"; "struct"; "enum"] (type_of n))).

Definition framework_method (n : NodeResult) (f : FileEntry) : option bool :=
  sql_and (sql_in (file_language f) ["python"])
    (sql_and (Some (one_of CALLABLE (type_of n)))
       (Some (existsb (λ d, contains d (nr_code_content n)) PYTHON_FRAMEWORK_DECORATORS))).

Definition type_matches (node_type : option string) (n : NodeResult) : bool :=
  match node_type with
  | None => true
  | Some t => match normalize_type_filter to_lowercase t with
              | [] => String.eqb (type_of n) t
              | ts => one_of ts (type_of n)
              end
  end.

(** [trim_end_matches('/')], and no filter when nothing is left. *)
Definition path_norm (path_prefix : option string) : option string :=
  p ← path_prefix; let p := trim_end_slashes p in if String.eqb p "" then None else Some p.

Definition path_matches (path_prefix : option string) (path : string) : bool :=
  match path_norm path_prefix with
  | None => true
  | Some p => String.eqb path p || like_esc (escape_like p +:+ "/%") path
  end.

Definition conditions (path_prefix node_type : option string) (include_tests : bool) (min_lines : Z)
    (n : NodeResult) (f : FileEntry) : list (option bool) :=
  let name := node_name_of n in
  [Some (negb (String.eqb (type_of n) "module"));
   Some (negb (String.eqb name "<module>"));
   Some (negb (String.eqb name "main"));
   Some (negb (String.eqb name "_"));
   Some (negb (one_of HEADINGS (type_of n)));
   sql_not (c_type n f);
   sql_not (implicit_method n f);
   Some (negb (String.eqb (file_path_of f) "<external>"));
   Some (min_lines <=? line_count n)%Z;
   sql_not (framework_method n f);
   Some (include_tests
         || negb (is_test_node_sql_holds glob like (n_is_test (nr_node n)) name (file_path_of f)));
   Some (type_matches node_type n);
   Some (path_matches path_prefix (file_path_of f));
   Some (negb (used_by_edge (node_id_of n)));
   Some (negb (routed (node_id_of n)));
   Some (not_named n)].

Definition is_candidate (path_prefix node_type : option string) (include_tests : bool) (min_lines : Z)
    (nf : NodeResult * FileEntry) : bool :=
  forallb sql_true (conditions path_prefix node_type include_tests min_lines nf.1 nf.2).

Definition dead_row (nf : NodeResult * FileEntry) : DeadCodeResult :=
  let '(n, f) := nf in
  mkDead (node_id_of n) (node_name_of n) (type_of n) (n_start_line (nr_node n)) (n_end_line (nr_node n))
    (file_path_of f) (nr_code_content n) (has_export (node_id_of n)).

(** [ORDER BY .. DESC]; SQLite leaves the order of equal lengths open, here it is that of the rows. *)
Definition size_cmp : NodeResult * FileEntry → NodeResult * FileEntry → comparison :=
  cmp_rev (cmp_by (λ nf, line_count nf.1) Z.compare).

Definition find_dead_code (path_prefix node_type : option string) (include_tests : bool) (min_lines limit : Z)
    : list DeadCodeResult :=
  dead_row <$> sql_limit limit
    (sort_cmp size_cmp
       (filter (λ nf, is_candidate path_prefix node_type include_tests min_lines nf = true) (node_files st))).

(** ** The report *)

Record DeadCodeItem := mkItem {
  di_name : string;
  di_node_type : string;
  di_file_path : string;
  di_start_line : Z;
  di_end_line : Z;
  di_code_content : string;
  di_is_exported : bool;
}.

Definition DEAD_CODE_SCAN_LIMIT : Z := 200.

Record DeadCodeReport := mkReport {
  items : list DeadCodeItem;
  orphan_count : nat;
  exported_count : nat;
  ignored_count : nat;
  hidden_below_threshold : nat;
  scan_capped : bool;
}.

Definition ignored (ignore_prefixes : list string) (r : DeadCodeResult) : bool :=
  existsb (path_is_under (dc_file_path r)) ignore_prefixes.

Definition first_char_uppercase (s : string) : bool :=
  match chars s with c :: _ => is_uppercase c | [] => false end.

Definition item_of (r : DeadCodeResult) : DeadCodeItem :=
  mkItem (dc_name r) (dc_node_type r) (dc_file_path r) (dc_start_line r) (dc_end_line r) (dc_code_content r)
    (is_dead_code_exported first_char_uppercase (dc_has_export_edge r) (dc_code_content r) (dc_file_path r) (dc_name r)).

(** [(items, orphan_count, exported_count)] of the loop over the kept rows. *)
Definition classify_row (acc : list DeadCodeItem * nat * nat) (r : DeadCodeResult) : list DeadCodeItem * nat * nat :=
  let '(its, orphans, exported) := acc in
  let item := item_of r in
  if di_is_exported item then (its ++ [item], orphans, S exported) else (its ++ [item], S orphans, exported).

Definition dead_code_report (path node_type : option string) (include_tests : bool) (min_lines : Z)
    (ignore_prefixes : list string) : DeadCodeReport :=
  let raw := find_dead_code path node_type include_tests min_lines DEAD_CODE_SCAN_LIMIT in
  let pre_count := length raw in
  let filtered := filter (λ r, ignored ignore_prefixes r = false) raw in
  let ignored_rows := pre_count - length filtered in
  let '(hidden, ignored_short) :=
    if bool_decide (filtered = []) && (ignored_rows =? 0) && (1 <? min_lines)%Z
    then let probe := find_dead_code path node_type include_tests 1 DEAD_CODE_SCAN_LIMIT in
         (length (filter (λ r, ignored ignore_prefixes r = false) probe),
          length (filter (λ r, ignored ignore_prefixes r = true) probe))
    else (0, 0) in
  let '(its, orphans, exported) := foldl classify_row ([], 0, 0) filtered in
  mkReport its orphans exported (ignored_rows + ignored_short) hidden
    (Z.to_nat DEAD_CODE_SCAN_LIMIT <=? pre_count).

Definition report_is_empty (r : DeadCodeReport) : bool := bool_decide (items r = []).

Definition DEAD_CODE_NON_RUST_NOTE : string :=
  "Outside Rust this list is experimental: on the evaluation corpora 0-25% of such candidates were really unused (entry points such as Go `init`, interface and override methods, `__init__.py` re-exports read as dead). Confirm each with `refs` or grep before deleting.".

Definition non_rust_note (r : DeadCodeReport) : option string :=
  if existsb (λ it, negb (bool_decide (detect_language (di_file_path it) = Some "rust"))) (items r)
  then Some DEAD_CODE_NON_RUST_NOTE else None.

(** ** Filters that name nothing *)

Definition TYPE_FILTER_HELP : string := "fn, class, struct, enum, trait, type, const, var".

Definition validate_dead_code_type_filter (node_type : option string) : result string () :=
  match node_type with
  | Some tf =>
      if bool_decide (normalize_type_filter to_lowercase tf = [])
      then Err ("Unknown type filter: '" +:+ tf +:+ "'. Valid: " +:+ TYPE_FILTER_HELP +:+ "."
                +:+ type_filter_note to_lowercase tf)
      else Ok ()
  | None => Ok ()
  end.

Definition unindexed_path_prefix (path_filter : option string) : option string :=
  prefix ← path_norm path_filter;
  if existsb (λ p, String.eqb p prefix || starts_with (prefix +:+ "/") p) (file_path_of <$> s_files st)
  then None else Some prefix.
End Query.

(** * Properties *)

(** ** Conditions *)

Lemma sql_true_not a : sql_true (sql_not a) = true ↔ a = Some false.
Proof. by destruct a as [[]|]. Qed.
Lemma sql_and_false a b : sql_and a b = Some false ↔ a = Some false ∨ b = Some false.
Proof. destruct a as [[]|], b as [[]|]; cbn; naive_solver. Qed.
Lemma sql_or_false a b : sql_or a b = Some false ↔ a = Some false ∧ b = Some false.
Proof. destruct a as [[]|], b as [[]|]; cbn; naive_solver. Qed.
Lemma sql_any_false l : sql_any l = Some false ↔ Forall (λ a, a = Some false) l.
Proof. induction l as [|a l IH]; cbn; [by split|]. by rewrite sql_or_false, Forall_cons, IH. Qed.

(** The column has one of the values, or no value is known. *)
Definition maybe_in (column : option string) (l : list string) : Prop :=
  match column with Some c => c ∈ l | None => True end.

Lemma one_of_elem l c : one_of l c = true ↔ c ∈ l.
Proof.
  unfold one_of. rewrite existsb_exists. split.
  - intros (x & Hx%list_elem_of_In & ->%String.eqb_eq). done.
  - intros Hc. exists c. by rewrite <-list_elem_of_In, String.eqb_eq.
Qed.
Lemma one_of_not_elem l c : one_of l c = false ↔ c ∉ l.
Proof. rewrite <-one_of_elem. by destruct (one_of l c). Qed.

Lemma sql_in_false column l : sql_in column l = Some false ↔ ¬ maybe_in column l.
Proof.
  unfold sql_in. destruct column as [c|]; cbn; [|split; [done|tauto]]. rewrite <-(one_of_elem l c).
  destruct (one_of l c); naive_solver.
Qed.
Lemma sql_in_and_false column l b : sql_and (sql_in column l) (Some b) = Some false ↔ ¬ (maybe_in column l ∧ b = true).
Proof. rewrite sql_and_false, sql_in_false. destruct b; naive_solver. Qed.
Lemma some_negb b : sql_true (Some (negb b)) = true ↔ b ≠ true.
Proof. by destruct b. Qed.

Lemma existsb_elem {A} (f : A → bool) (l : list A) : existsb f l = true ↔ ∃ x, x ∈ l ∧ f x = true.
Proof. rewrite existsb_exists. by setoid_rewrite <-list_elem_of_In. Qed.

(** ** The patterns of magic methods *)

Lemma fold_underscore d : fold_char CH_UNDERSCORE = fold_char d → d = CH_UNDERSCORE.
Proof.
  unfold fold_char, ascii_upper_char, CH_UNDERSCORE. cbn.
  destruct ((65 <=? d) && (d <=? 90))%Z eqn:E; [|done]. bool_prop. rewrite ?Z.leb_le in *. lia.
Qed.

Lemma match_underscore ts s :
  tok_match (Lit CH_UNDERSCORE :: ts) s ↔ ∃ s', s = CH_UNDERSCORE :: s' ∧ tok_match ts s'.
Proof.
  split.
  - inversion 1 as [| | |? d ? s' Hf]; subst. apply fold_underscore in Hf as ->. eauto.
  - intros (s' & -> & Hs). by constructor.
Qed.
Lemma match_nothing s : tok_match [] s ↔ s = [].
Proof. split; [by inversion 1|intros ->; constructor]. Qed.
Lemma match_any_iff ts s : tok_match (Any :: ts) s ↔ ∃ m s', s = m ++ s' ∧ tok_match ts s'.
Proof. split; [inversion 1; subst; eauto|intros (m & s' & -> & ?); by constructor]. Qed.

Section Magic.
Context (like_esc : string → string → bool) `{!SqlLike like_esc}.

Lemma chars_underscore s : chars ("_" +:+ s) = CH_UNDERSCORE :: chars s.
Proof. by apply (chars_encode_char CH_UNDERSCORE). Qed.

Lemma dunder_spec name : is_str name → like_esc DUNDER name = true ↔ ∃ s, is_str s ∧ name = "__" +:+ s +:+ "__".
Proof.
  intros Hn. rewrite (like_esc_spec DUNDER name) by (done || apply is_str_ascii; done).
  change (like_tokens (chars DUNDER))
    with (Some [Lit CH_UNDERSCORE; Lit CH_UNDERSCORE; Any; Lit CH_UNDERSCORE; Lit CH_UNDERSCORE]).
  assert (∀ ts, tok_match [Lit CH_UNDERSCORE; Lit CH_UNDERSCORE; Any; Lit CH_UNDERSCORE; Lit CH_UNDERSCORE] ts
          ↔ ∃ m, ts = [CH_UNDERSCORE; CH_UNDERSCORE] ++ m ++ [CH_UNDERSCORE; CH_UNDERSCORE]) as Hm.
  { intros ts. rewrite match_underscore. setoid_rewrite match_underscore. setoid_rewrite match_any_iff.
    repeat setoid_rewrite match_underscore. setoid_rewrite match_nothing. split.
    - intros (? & -> & ? & -> & m & ? & -> & ? & -> & ? & -> & ->). by exists m.
    - intros (m & ->). repeat eexists. }
  destruct Hn as (cs & Hcs & ->). rewrite chars_encode by done. split.
  - intros (ts & [= <-] & (m & ->)%Hm). rewrite !Forall_app in Hcs. destruct Hcs as (_ & Hc & _).
    exists (encode m). split; [by exists m|]. by rewrite !encode_app.
  - intros (s & (m & Hc & ->) & Heq). eexists. split; [done|]. apply Hm. exists m.
    rewrite <-(chars_encode cs), Heq by done.
    change "__" with (encode [CH_UNDERSCORE; CH_UNDERSCORE]). rewrite <-!encode_app, chars_encode; [done|].
    rewrite !Forall_app. repeat constructor; done.
Qed.

Lemma magic_spec name : is_str name → like_esc MAGIC name = true ↔ ∃ s, is_str s ∧ name = "__" +:+ s.
Proof.
  intros Hn. rewrite (like_esc_spec MAGIC name) by (done || apply is_str_ascii; done).
  change (like_tokens (chars MAGIC)) with (Some [Lit CH_UNDERSCORE; Lit CH_UNDERSCORE; Any]).
  assert (∀ ts, tok_match [Lit CH_UNDERSCORE; Lit CH_UNDERSCORE; Any] ts
          ↔ ∃ m, ts = [CH_UNDERSCORE; CH_UNDERSCORE] ++ m) as Hm.
  { intros ts. rewrite match_underscore. setoid_rewrite match_underscore. split.
    - intros (? & -> & ? & -> & _). eauto.
    - intros (m & ->). do 2 eexists; repeat eexists. apply match_any_end. }
  destruct Hn as (cs & Hcs & ->). rewrite chars_encode by done. split.
  - intros (ts & [= <-] & (m & ->)%Hm). rewrite !Forall_app in Hcs. destruct Hcs as (_ & Hc).
    exists (encode m). split; [by exists m|]. by rewrite !encode_app.
  - intros (s & (m & Hc & ->) & Heq). eexists. split; [done|]. apply Hm. exists m.
    rewrite <-(chars_encode cs), Heq by done.
    change "__" with (encode [CH_UNDERSCORE; CH_UNDERSCORE]). rewrite <-!encode_app, chars_encode; [done|].
    rewrite !Forall_app. repeat constructor; done.
Qed.
End Magic.

(** ** What keeps a symbol alive *)

Section Alive.
Context (glob like like_esc : string → string → bool) `{!SqlPatterns glob like} `{!SqlLike like_esc} `{U : Unicode}.
Context (st : Store).

(** Every text of the tables is valid UTF-8. *)
Context (names_str : ∀ n, n ∈ s_nodes st → is_str (node_name_of n)).
Context (paths_str : ∀ f, f ∈ s_files st → is_str (file_path_of f)).

Definition callable (n : NodeResult) : Prop := type_of n ∈ CALLABLE.
Definition mentions (m n : NodeResult) : Prop :=
  ∃ d, d ∈ DELIMITERS ∧ contains (node_name_of n +:+ d) (nr_code_content m) = true.

(** The reasons not to report the symbol [n] of the file [f]. *)
Inductive kept_alive (n : NodeResult) (f : FileEntry) : Prop :=
| alive_edge e :
    e ∈ edge_rows st → e_target_id e = node_id_of n → e_relation e ∈ USAGE_RELATIONS →
    synthetic_import_holds like e = false → kept_alive n f
| alive_route e :
    e ∈ edge_rows st → e_source_id e = node_id_of n → e_target_id e = node_id_of n →
    e_relation e = REL_ROUTES_TO → kept_alive n f
| alive_structure :
    type_of n ∈ "module" :: HEADINGS ∨ node_name_of n ∈ ["<module>"; "main"; "_"]
    ∨ file_path_of f = "<external>" → kept_alive n f
| alive_c_type :
    type_of n ∈ ["class"; "struct"; "enum"] → maybe_in (file_language f) ["c"; "cpp"] → kept_alive n f
| alive_dunder s :
    callable n → maybe_in (file_language f) ["python"] → is_str s → node_name_of n = "__" +:+ s +:+ "__" → kept_alive n f
| alive_magic s :
    callable n → maybe_in (file_language f) ["php"] → is_str s → node_name_of n = "__" +:+ s → kept_alive n f
| alive_constructor :
    callable n → maybe_in (file_language f) ["javascript"; "typescript"; "tsx"] → node_name_of n = "constructor" →
    kept_alive n f
| alive_initialize :
    callable n → maybe_in (file_language f) ["ruby"] → node_name_of n = "initialize" → kept_alive n f
| alive_destructor :
    callable n → maybe_in (file_language f) ["cpp"] → starts_with "~" (node_name_of n) = true → kept_alive n f
| alive_named_after_type c :
    callable n → maybe_in (file_language f) ["java"; "csharp"; "dart"; "cpp"] →
    c ∈ s_nodes st → node_file_of c = node_file_of n → type_of c ∈ ["class"; "struct"] →
    node_name_of c = node_name_of n → kept_alive n f
| alive_framework d :
    callable n → maybe_in (file_language f) ["python"] →
    d ∈ PYTHON_FRAMEWORK_DECORATORS → contains d (nr_code_content n) = true → kept_alive n f
| alive_in_file m :
    3 ≤ name_length n → m ∈ s_nodes st → node_file_of m = node_file_of n → node_id_of m ≠ node_id_of n →
    type_of m ∈ BODY_TYPES → mentions m n ∨ truncated m = true → kept_alive n f
| alive_elsewhere m :
    5 ≤ name_length n → type_of n ∈ EDGELESS_TYPES → m ∈ s_nodes st → node_file_of m ≠ node_file_of n →
    mentions m n → kept_alive n f.

(** What the caller asked for. *)
Definition in_scope (path_prefix node_type : option string) (include_tests : bool) (min_lines : Z)
    (n : NodeResult) (f : FileEntry) : Prop :=
  (min_lines <= line_count n)%Z
  ∧ (include_tests = false → is_test_node (n_is_test (nr_node n)) (node_name_of n) (file_path_of f) = false)
  ∧ type_matches node_type n = true ∧ path_matches like_esc path_prefix (file_path_of f) = true.

Lemma mentions_names m n : names (nr_code_content m) (node_name_of n) = true ↔ mentions m n.
Proof. apply existsb_elem. Qed.

Lemma same_file_eq n m : same_file n m = true ↔ node_file_of n = node_file_of m.
Proof. apply Z.eqb_eq. Qed.

Lemma used_in_file_spec n :
  used_in_file st n = true
  ↔ ∃ m, m ∈ s_nodes st ∧ node_file_of m = node_file_of n ∧ node_id_of m ≠ node_id_of n ∧ type_of m ∈ BODY_TYPES
         ∧ (mentions m n ∨ truncated m = true).
Proof.
  unfold used_in_file. rewrite existsb_elem. apply exist_proper. intros m.
  rewrite !andb_true_iff, orb_true_iff, same_file_eq, negb_true_iff, Z.eqb_neq, one_of_elem, mentions_names; tauto.
Qed.

Lemma used_elsewhere_spec n :
  used_elsewhere st n = true ↔ ∃ m, m ∈ s_nodes st ∧ node_file_of m ≠ node_file_of n ∧ mentions m n.
Proof.
  unfold used_elsewhere. rewrite existsb_elem. apply exist_proper. intros m.
  by rewrite andb_true_iff, mentions_names, negb_true_iff, <-not_true_iff_false, same_file_eq.
Qed.

Lemma not_named_spec n :
  not_named st n = true
  ↔ ¬ (3 ≤ name_length n ∧ used_in_file st n = true)
    ∧ ¬ (5 ≤ name_length n ∧ type_of n ∈ EDGELESS_TYPES ∧ used_elsewhere st n = true).
Proof.
  unfold not_named. rewrite <-one_of_elem. destruct (Nat.ltb_spec (name_length n) 3), (Nat.ltb_spec (name_length n) 5);
    destruct (used_in_file st n), (one_of EDGELESS_TYPES (type_of n)), (used_elsewhere st n); cbn; split;
    (done || lia || naive_solver lia).
Qed.

Lemma used_by_edge_spec n :
  used_by_edge like st (node_id_of n) = true
  ↔ ∃ e, e ∈ edge_rows st ∧ e_target_id e = node_id_of n ∧ e_relation e ∈ USAGE_RELATIONS
         ∧ synthetic_import_holds like e = false.
Proof.
  unfold used_by_edge. rewrite existsb_elem. apply exist_proper. intros e.
  rewrite !andb_true_iff, negb_true_iff, Z.eqb_eq, one_of_elem. tauto.
Qed.

Lemma routed_spec n :
  routed st (node_id_of n) = true
  ↔ ∃ e, e ∈ edge_rows st ∧ e_source_id e = node_id_of n ∧ e_target_id e = node_id_of n ∧ e_relation e = REL_ROUTES_TO.
Proof.
  unfold routed. rewrite existsb_elem. apply exist_proper. intros e.
  rewrite !andb_true_iff, !Z.eqb_eq, String.eqb_eq. tauto.
Qed.

Lemma named_after_type_spec n :
  named_after_type st n = true
  ↔ ∃ c, c ∈ s_nodes st ∧ node_file_of c = node_file_of n ∧ type_of c ∈ ["class"; "struct"]
         ∧ node_name_of c = node_name_of n.
Proof.
  unfold named_after_type. rewrite existsb_elem. apply exist_proper. intros c.
  rewrite !andb_true_iff, same_file_eq, one_of_elem, String.eqb_eq. tauto.
Qed.

Lemma tilde_spec name : like "~%" name = true ↔ starts_with "~" name = true.
Proof.
  change "~%" with (join "%" ["~"; ""]). rewrite like_spec by (done || by repeat constructor).
  change (to_ascii_lowercase <$> ["~"; ""]) with ["~"; ""]. rewrite seg_match_prefix, !starts_with_spec. split.
  - intros [t Ht]. destruct name as [|c name]; [done|]. injection Ht as Hc _.
    exists name. cbn. f_equal. revert Hc. clear. unfold ascii_lower. destruct (is_ascii_upper c) eqn:E; [|done].
    by destruct c as [[] [] [] [] [] [] [] []].
  - intros [t ->]. by exists (to_ascii_lowercase t).
Qed.

Lemma implicit_method_spec n f :
  n ∈ s_nodes st →
  implicit_method like like_esc st n f = Some false
  ↔ ¬ (callable n
       ∧ ((maybe_in (file_language f) ["python"] ∧ ∃ s, is_str s ∧ node_name_of n = "__" +:+ s +:+ "__")
          ∨ (maybe_in (file_language f) ["php"] ∧ ∃ s, is_str s ∧ node_name_of n = "__" +:+ s)
          ∨ (maybe_in (file_language f) ["javascript"; "typescript"; "tsx"] ∧ node_name_of n = "constructor")
          ∨ (maybe_in (file_language f) ["ruby"] ∧ node_name_of n = "initialize")
          ∨ (maybe_in (file_language f) ["cpp"] ∧ starts_with "~" (node_name_of n) = true)
          ∨ (maybe_in (file_language f) ["java"; "csharp"; "dart"; "cpp"] ∧
             ∃ c, c ∈ s_nodes st ∧ node_file_of c = node_file_of n ∧ type_of c ∈ ["class"; "struct"]
                  ∧ node_name_of c = node_name_of n))).
Proof using names_str SqlPatterns0 SqlLike0.
  intros Hn. pose proof (names_str n Hn) as Hs. unfold implicit_method, callable.
  rewrite sql_and_false, sql_any_false, !Forall_cons, Forall_nil, !sql_in_and_false.
  rewrite (dunder_spec like_esc), (magic_spec like_esc), tilde_spec, named_after_type_spec, !String.eqb_eq by done.
  rewrite <-one_of_elem. destruct (one_of CALLABLE (type_of n)); [|naive_solver].
  assert (Some true = Some false ↔ False) as -> by done. tauto.
Qed.

Lemma framework_method_spec n f :
  framework_method n f = Some false
  ↔ ¬ (callable n ∧ maybe_in (file_language f) ["python"]
       ∧ ∃ d, d ∈ PYTHON_FRAMEWORK_DECORATORS ∧ contains d (nr_code_content n) = true).
Proof.
  unfold framework_method, callable. rewrite !sql_and_false, sql_in_false, <-one_of_elem, <-existsb_elem.
  destruct (one_of CALLABLE (type_of n)), (existsb _ PYTHON_FRAMEWORK_DECORATORS); naive_solver.
Qed.

Lemma c_type_spec n f :
  c_type n f = Some false
  ↔ ¬ (type_of n ∈ ["class"; "struct"; "enum"] ∧ maybe_in (file_language f) ["c"; "cpp"]).
Proof. unfold c_type. rewrite sql_in_and_false, one_of_elem. tauto. Qed.

(** The reasons that the node itself, the language and the other rows give. *)
Definition structural (n : NodeResult) (f : FileEntry) : Prop :=
  type_of n ∈ "module" :: HEADINGS ∨ node_name_of n ∈ ["<module>"; "main"; "_"] ∨ file_path_of f = "<external>".

Lemma structural_spec n f :
  forallb sql_true
    [Some (negb (String.eqb (type_of n) "module")); Some (negb (String.eqb (node_name_of n) "<module>"));
     Some (negb (String.eqb (node_name_of n) "main")); Some (negb (String.eqb (node_name_of n) "_"));
     Some (negb (one_of HEADINGS (type_of n))); Some (negb (String.eqb (file_path_of f) "<external>"))] = true
  ↔ ¬ structural n f.
Proof.
  unfold structural. cbn [forallb sql_true]. rewrite !andb_true_iff, !negb_true_iff, !String.eqb_neq, one_of_not_elem.
  rewrite (elem_of_cons HEADINGS), !elem_of_cons, elem_of_nil. tauto.
Qed.

Lemma is_candidate_spec path_prefix node_type include_tests min_lines n f :
  n ∈ s_nodes st →
  is_candidate glob like like_esc st path_prefix node_type include_tests min_lines (n, f) = true
  ↔ in_scope path_prefix node_type include_tests min_lines n f ∧ ¬ kept_alive n f.
Proof using names_str SqlPatterns0 SqlLike0.
  intros Hn. transitivity (in_scope path_prefix node_type include_tests min_lines n f
    ∧ ¬ structural n f ∧ c_type n f = Some false ∧ implicit_method like like_esc st n f = Some false
    ∧ framework_method n f = Some false ∧ used_by_edge like st (node_id_of n) ≠ true
    ∧ routed st (node_id_of n) ≠ true ∧ not_named st n = true).
  - rewrite <-structural_spec. unfold is_candidate, conditions, in_scope. cbn [forallb fst snd].
    rewrite !andb_true_iff, !sql_true_not, !some_negb. cbn [sql_true].
    rewrite (is_test_node_sql_parity glob like) by done. rewrite Z.leb_le.
    assert (∀ b t, b || negb t = true ↔ (b = false → t = false)) as -> by (by intros [] []; cbn; naive_solver). tauto.
  - rewrite c_type_spec, implicit_method_spec, framework_method_spec, used_by_edge_spec, routed_spec, not_named_spec,
      used_in_file_spec, used_elsewhere_spec by done. apply and_iff_compat_l. split.
    + intros (H1 & H2 & H3 & H4 & H5 & H6 & H7 & H8) Ha. destruct Ha as [| | | |? ? ? ? ?|? ? ? ? ?| | | |c|d|m|m]; [eauto 8|eauto 8|done|eauto|..|eauto 8|eauto 9|eauto 8];
        (apply H3; split; [done|]; eauto 16).
    + intros Ha. repeat split; intros Hk; apply Ha.
      * by apply alive_structure.
      * destruct Hk. by apply alive_c_type.
      * destruct Hk as [Hc [[? (s & ? & ?)]|[[? (s & ? & ?)]|[[??]|[[??]|[[??]|(? & c & ? & ? & ? & ?)]]]]]].
        -- by apply (alive_dunder _ _ s).
        -- by apply (alive_magic _ _ s).
        -- by apply alive_constructor.
        -- by apply alive_initialize.
        -- by apply alive_destructor.
        -- by apply (alive_named_after_type _ _ c).
      * destruct Hk as (? & ? & d & ? & ?). by apply (alive_framework _ _ d).
      * destruct Hk as (e & ? & ? & ? & ?). by apply (alive_edge _ _ e).
      * destruct Hk as (e & ? & ? & ? & ?). by apply (alive_route _ _ e).
      * destruct Hk as (? & m & ? & ? & ? & ? & ?). by apply (alive_in_file _ _ m).
      * destruct Hk as (? & ? & m & ? & ? & ?). by apply (alive_elsewhere _ _ m).
Qed.
End Alive.

(** ** Rows and order *)

(** A bounded prefix of a sorted list: nothing left out comes before what is kept. *)
Lemma sql_limit_sorted {A} (c : A → A → comparison) `{!CmpOk c} limit (l : list A) x :
  x ∈ l →
  x ∈ sql_limit limit (sort_cmp c l)
  ∨ ((0 <= limit)%Z ∧ length (sql_limit limit (sort_cmp c l)) = Z.to_nat limit
     ∧ ∀ y, y ∈ sql_limit limit (sort_cmp c l) → cmp_leb c y x = true).
Proof.
  intros Hx. assert (x ∈ sort_cmp c l) as Hx' by (unfold sort_cmp; by rewrite elem_of_sort_by).
  unfold sql_limit. destruct (Z.ltb_spec limit 0) as [Hl|Hl]; [by left|].
  rewrite <-(take_drop (Z.to_nat limit) (sort_cmp c l)) in Hx'. apply elem_of_app in Hx' as [Hin|Hin]; [by left|].
  right. split; [done|split].
  - rewrite length_take. assert (length (drop (Z.to_nat limit) (sort_cmp c l)) ≠ 0) as Hd
      by (destruct (drop _ _); [by apply elem_of_nil in Hin|done]).
    rewrite length_drop in Hd. lia.
  - intros y Hy. pose proof (sort_cmp_sorted c l) as Hs.
    rewrite <-(take_drop (Z.to_nat limit) (sort_cmp c l)) in Hs.
    by apply (StronglySorted_app_1_elem_of (λ x y, cmp_leb c x y = true) (take (Z.to_nat limit) (sort_cmp c l)) (drop (Z.to_nat limit) (sort_cmp c l))).
Qed.

Lemma sql_limit_elem {A} limit (l : list A) x : x ∈ sql_limit limit l → x ∈ l.
Proof.
  unfold sql_limit. case_match; [done|]. intros Hx. rewrite <-(take_drop (Z.to_nat limit) l). apply elem_of_app. by left.
Qed.

Lemma sql_limit_sorted_result {A} (c : A → A → comparison) `{!CmpOk c} limit (l : list A) :
  StronglySorted (λ x y, cmp_leb c x y = true) (sql_limit limit (sort_cmp c l)).
Proof.
  pose proof (sort_cmp_sorted c l) as Hs. unfold sql_limit. case_match; [done|].
  rewrite <-(take_drop (Z.to_nat limit) (sort_cmp c l)) in Hs. by eapply StronglySorted_app_1_l.
Qed.

#[export] Instance size_cmp_ok : CmpOk size_cmp.
Proof. unfold size_cmp. apply _. Qed.

Lemma size_cmp_leb a b : cmp_leb size_cmp a b = true ↔ (line_count b.1 <= line_count a.1)%Z.
Proof.
  unfold cmp_leb, size_cmp, cmp_rev, cmp_by. rewrite Z.le_ngt. unfold Z.lt.
  rewrite (Z.compare_antisym (line_count b.1)). destruct (line_count b.1 ?= line_count a.1)%Z; naive_solver.
Qed.

Section Found.
Context (glob like like_esc : string → string → bool) `{U : Unicode} (st : Store).
Context (path_prefix node_type : option string) (include_tests : bool).

#[local] Abbreviation candidate min_lines := (is_candidate glob like like_esc st path_prefix node_type include_tests min_lines).
#[local] Abbreviation found min_lines limit := (find_dead_code glob like like_esc st path_prefix node_type include_tests min_lines limit).

Lemma found_inv min_lines limit r :
  r ∈ found min_lines limit → ∃ nf, nf ∈ node_files st ∧ candidate min_lines nf = true ∧ r = dead_row st nf.
Proof.
  unfold find_dead_code. intros (nf & -> & Hin%sql_limit_elem)%list_elem_of_fmap.
  unfold sort_cmp in Hin. rewrite elem_of_sort_by in Hin. apply list_elem_of_filter in Hin as [? ?]. eauto.
Qed.

(** Every candidate is reported, unless the limit is filled with rows at least as long. *)
Lemma found_complete min_lines limit nf :
  nf ∈ node_files st → candidate min_lines nf = true →
  dead_row st nf ∈ found min_lines limit
  ∨ (0 <= limit)%Z ∧ length (found min_lines limit) = Z.to_nat limit
    ∧ ∀ r, r ∈ found min_lines limit → (line_count nf.1 <= dc_end_line r - dc_start_line r + 1)%Z.
Proof.
  intros Hnf Hc.
  assert (nf ∈ filter (λ nf, candidate min_lines nf = true) (node_files st)) as Hin by (by apply list_elem_of_filter).
  destruct (sql_limit_sorted size_cmp limit _ nf Hin) as [Hl|(Hl & Hlen & Hall)]; [left|right].
  - unfold find_dead_code. by apply list_elem_of_fmap_2.
  - split; [done|]. split; [by unfold find_dead_code; rewrite length_fmap|].
    unfold find_dead_code. intros r (m & -> & Hm)%list_elem_of_fmap.
    apply Hall in Hm. apply size_cmp_leb in Hm. by destruct m.
Qed.

Lemma found_sorted min_lines limit :
  StronglySorted (λ a b, (dc_end_line b - dc_start_line b <= dc_end_line a - dc_start_line a)%Z) (found min_lines limit).
Proof.
  unfold find_dead_code. eapply StronglySorted_fmap_on; [|apply (sql_limit_sorted_result size_cmp)].
  intros [n f] [m g] _ _ H%size_cmp_leb. cbn in *. unfold line_count in *. lia.
Qed.

Lemma candidate_min_lines a b nf : (a <= b)%Z → candidate b nf = true → candidate a nf = true.
Proof.
  intros Hab. unfold is_candidate, conditions. cbn [forallb sql_true]. rewrite !andb_true_iff, !Z.leb_le.
  intros H. repeat split; try apply H. etrans; [exact Hab|]. apply H.
Qed.

Lemma found_nil min_lines limit :
  (0 < limit)%Z → found min_lines limit = [] → ∀ nf, nf ∈ node_files st → candidate min_lines nf = false.
Proof.
  intros Hl Hn nf Hnf. destruct (candidate min_lines nf) eqn:Hc; [|done].
  destruct (found_complete min_lines limit nf Hnf Hc) as [Hin|(_ & Hlen & _)].
  - rewrite Hn in Hin. by apply elem_of_nil in Hin.
  - rewrite Hn in Hlen. cbn in Hlen. lia.
Qed.
End Found.

(** ** The report *)

Section Report.
Context (glob like like_esc : string → string → bool) `{U : Unicode} (st : Store).

#[local] Abbreviation found path types tests min_lines :=
  (find_dead_code glob like like_esc st path types tests min_lines DEAD_CODE_SCAN_LIMIT).
#[local] Abbreviation report := (dead_code_report glob like like_esc st).

Lemma classify_rows rows its o e :
  foldl classify_row (its, o, e) rows
  = (its ++ (item_of <$> rows),
     o + length (filter (λ i, di_is_exported i = false) (item_of <$> rows)),
     e + length (filter (λ i, di_is_exported i = true) (item_of <$> rows))).
Proof.
  revert its o e; induction rows as [|r rows IH]; intros its o e.
  - cbn. by rewrite app_nil_r, !Nat.add_0_r.
  - cbn [foldl fmap list_fmap classify_row]. rewrite !filter_cons.
    destruct (di_is_exported (item_of r)) eqn:E; rewrite IH, <-app_assoc; repeat case_decide; try done; cbn [length app];
      by rewrite ?Nat.add_succ_r.
Qed.

Lemma report_items path types tests min_lines ignores :
  items (report path types tests min_lines ignores)
  = item_of <$> filter (λ r, ignored ignores r = false) (found path types tests min_lines).
Proof. unfold dead_code_report. rewrite classify_rows. by repeat case_match. Qed.

Lemma report_counts path types tests min_lines ignores :
  let rep := report path types tests min_lines ignores in
  let raw := found path types tests min_lines in
  orphan_count rep = length (filter (λ i, di_is_exported i = false) (items rep))
  ∧ exported_count rep = length (filter (λ i, di_is_exported i = true) (items rep))
  ∧ scan_capped rep = (200 <=? length raw)
  ∧ let asked := if decide (raw = [] ∧ (1 < min_lines)%Z) then found path types tests 1 else raw in
    ignored_count rep = length (filter (λ r, ignored ignores r = true) asked)
    ∧ hidden_below_threshold rep + length (items rep) = length (filter (λ r, ignored ignores r = false) asked)
    ∧ (hidden_below_threshold rep ≠ 0 → items rep = []).
Proof.
  intros rep raw. unfold rep. rewrite report_items. fold raw. unfold dead_code_report. rewrite classify_rows. fold raw.
  pose proof (length_filter_bool (ignored ignores) raw) as Hlen. clearbody raw. clear rep.
  assert ((bool_decide (filter (λ r, ignored ignores r = false) raw = [])
           && (length raw - length (filter (λ r, ignored ignores r = false) raw) =? 0) && (1 <? min_lines)%Z)
          = bool_decide (raw = [] ∧ (1 < min_lines)%Z)) as ->.
  { apply eq_true_iff_eq. rewrite !andb_true_iff, !bool_decide_eq_true, Nat.eqb_eq, Z.ltb_lt. split.
    - intros [[Hn Hz] Hm]. split; [|done]. rewrite Hn in *. cbn in *. apply length_zero_iff_nil. lia.
    - intros [-> Hm]. done. }
  destruct (decide (raw = [] ∧ (1 < min_lines)%Z)) as [Hd|Hd].
  - rewrite bool_decide_true by done. destruct Hd as [Hr Hm]. rewrite Hr. cbn. repeat split; done || lia.
  - rewrite bool_decide_false by done. cbn. split; [done|split; [done|split; [done|split; [|split]]]].
    + lia.
    + by rewrite length_fmap.
    + done.
Qed.
End Report.

Section Claims.
Context (glob like like_esc : string → string → bool) `{!SqlPatterns glob like} `{!SqlLike like_esc} `{U : Unicode}.
Context (st : Store).
Context (names_str : ∀ n, n ∈ s_nodes st → is_str (node_name_of n)).
Context (path_prefix node_type : option string) (include_tests : bool).

Lemma unindexed_prefix_nothing q :
  unindexed_path_prefix st path_prefix = Some q →
  ∀ f, f ∈ s_files st → file_path_of f ≠ q ∧ starts_with (q +:+ "/") (file_path_of f) = false.
Proof.
  unfold unindexed_path_prefix. intros (p & Hp & Hq)%bind_Some f Hf.
  destruct (existsb _ _) eqn:E; [done|]. injection Hq as ->. rewrite <-not_true_iff_false, existsb_elem in E.
  assert (file_path_of f ∈ file_path_of <$> s_files st) as Hin by (by apply list_elem_of_fmap_2).
  split; [intros Heq|apply not_true_iff_false; intros Heq]; apply E; exists (file_path_of f); split; try done;
    rewrite Heq; [by rewrite String.eqb_refl|by rewrite orb_true_r].
Qed.

Lemma candidate_iff min_lines n f :
  (n, f) ∈ node_files st →
  is_candidate glob like like_esc st path_prefix node_type include_tests min_lines (n, f) = true
  ↔ in_scope like_esc path_prefix node_type include_tests min_lines n f ∧ ¬ kept_alive like st n f.
Proof using names_str SqlPatterns0 SqlLike0.
  intros Hnf. apply (is_candidate_spec glob like like_esc st names_str). by apply elem_of_node_files in Hnf as [? _].
Qed.

(** C24: The rows of [find_dead_code] are exactly the symbols in scope that none of the listed reasons keeps alive, as far as the limit goes.  The reasons: a usage edge (a synthetic import is none) or a route edge onto itself; a module or heading, [main], [<module>], [_] or external symbol; a C or C++ type; a magic method, constructor, destructor or framework-registered Python method; for a name of three or more characters, another body of its file that names it or is itself stored truncated; for a name of five or more characters and a kind no edge reaches, any node of another file that names it.  Naming is the name followed by a listed delimiter in the stored code; below those lengths it keeps nothing alive.  In scope: the asked size, type and directory, and no test unless tests are asked for.  Every such symbol is reported, unless the limit is filled with symbols at least as long; the longest come first.  A row whose file has no language is treated as if it had each language. *)
Theorem find_dead_code_ok (min_lines limit : Z) :
  let found := find_dead_code glob like like_esc st path_prefix node_type include_tests min_lines limit in
  (∀ r, r ∈ found → ∃ n f, (n, f) ∈ node_files st ∧ r = dead_row st (n, f)
                           ∧ in_scope like_esc path_prefix node_type include_tests min_lines n f
                           ∧ ¬ kept_alive like st n f)
  ∧ (∀ n f, (n, f) ∈ node_files st →
       in_scope like_esc path_prefix node_type include_tests min_lines n f → ¬ kept_alive like st n f →
       dead_row st (n, f) ∈ found
       ∨ (0 <= limit)%Z ∧ length found = Z.to_nat limit
         ∧ ∀ r, r ∈ found → (line_count n <= dc_end_line r - dc_start_line r + 1)%Z)
  ∧ StronglySorted (λ a b, (dc_end_line b - dc_start_line b <= dc_end_line a - dc_start_line a)%Z) found.
Proof using names_str SqlPatterns0 SqlLike0.
  intros found. split; [|split; [|apply found_sorted]].
  - intros r ([n f] & Hnf & Hc & ->)%found_inv. exists n, f. split; [done|]. split; [done|].
    by apply candidate_iff in Hc.
  - intros n f Hnf Hs Ha. apply (found_complete _ _ _ _ _ _ _ _ _ (n, f)); [done|].
    by apply candidate_iff.
Qed.

(** C25: The dead-code report never gives a clean bill it has not earned.  The items are the rows the ignore list lets through, in order, split into orphans and exported symbols, and every row is counted once, as an item, as ignored or as hidden below the size threshold; when nothing is listed, ignored or hidden, no symbol of any size is in scope that none of the reasons of [kept_alive] keeps alive; when the scan limit was not reached, every such symbol of the asked size is listed or under an ignored directory; and a directory that [unindexed_path_prefix] reports holds no indexed file at all. *)
Theorem dead_code_report_ok (min_lines : Z) (ignore_prefixes : list string) :
  let rep := dead_code_report glob like like_esc st path_prefix node_type include_tests min_lines ignore_prefixes in
  let found m := find_dead_code glob like like_esc st path_prefix node_type include_tests m DEAD_CODE_SCAN_LIMIT in
  items rep = item_of <$> filter (λ r, ignored ignore_prefixes r = false) (found min_lines)
  ∧ orphan_count rep + exported_count rep = length (items rep)
  ∧ (ignored_count rep + hidden_below_threshold rep + length (items rep) = length (found min_lines)
     ∨ items rep = [] ∧ found min_lines = [] ∧ ignored_count rep + hidden_below_threshold rep = length (found 1%Z))
  ∧ (report_is_empty rep = true → ignored_count rep = 0 → hidden_below_threshold rep = 0 →
     ∀ n f, (n, f) ∈ node_files st → in_scope like_esc path_prefix node_type include_tests 1 n f →
            ¬ ¬ kept_alive like st n f)
  ∧ (scan_capped rep = false →
     ∀ n f, (n, f) ∈ node_files st → in_scope like_esc path_prefix node_type include_tests min_lines n f →
            ¬ kept_alive like st n f →
            item_of (dead_row st (n, f)) ∈ items rep ∨ ignored ignore_prefixes (dead_row st (n, f)) = true)
  ∧ (∀ q, unindexed_path_prefix st path_prefix = Some q →
     ∀ f, f ∈ s_files st → file_path_of f ≠ q ∧ starts_with (q +:+ "/") (file_path_of f) = false).
Proof using names_str SqlPatterns0 SqlLike0.
  intros rep found.
  destruct (report_counts glob like like_esc st path_prefix node_type include_tests min_lines ignore_prefixes)
    as (Ho & He & Hcap & Hi & Hh & Hz). fold rep in Ho, He, Hcap, Hi, Hh, Hz.
  pose proof (report_items glob like like_esc st path_prefix node_type include_tests min_lines ignore_prefixes) as Hits.
  fold rep in Hits. change (find_dead_code _ _ _ _ _ _ _ min_lines _) with (found min_lines) in *.
  change (find_dead_code _ _ _ _ _ _ _ 1 _) with (found 1%Z) in *.
  assert (∀ m, m <= 1 → found m = [] → ∀ n f, (n, f) ∈ node_files st →
          in_scope like_esc path_prefix node_type include_tests 1 n f → ¬ ¬ kept_alive like st n f)%Z as Hclean.
  { intros m Hm Hn n f Hnf Hs Ha.
    assert (is_candidate glob like like_esc st path_prefix node_type include_tests 1 (n, f) = true) as Hc
      by (by apply candidate_iff).
    apply (candidate_min_lines _ _ _ _ _ _ _ m) in Hc; [|done].
    by rewrite (found_nil _ _ _ _ _ _ _ m DEAD_CODE_SCAN_LIMIT) in Hc. }
  assert (∀ n f, (n, f) ∈ node_files st → in_scope like_esc path_prefix node_type include_tests min_lines n f →
          ¬ kept_alive like st n f → length (found min_lines) < 200 → dead_row st (n, f) ∈ found min_lines) as Hall.
  { intros n f Hnf Hs Ha Hlt.
    assert (is_candidate glob like like_esc st path_prefix node_type include_tests min_lines (n, f) = true) as Hc
      by (by apply candidate_iff).
    destruct (found_complete glob like like_esc st path_prefix node_type include_tests min_lines DEAD_CODE_SCAN_LIMIT
                (n, f) Hnf Hc) as [Hin|(_ & Hlen & _)]; [done|].
    change (length (found min_lines) = 200) in Hlen. lia. }
  clearbody found. clearbody rep. split; [done|].
  pose proof (length_filter_bool di_is_exported (items rep)) as Hlx.
  pose proof (length_filter_bool (ignored ignore_prefixes) (found min_lines)) as Hlm.
  pose proof (length_filter_bool (ignored ignore_prefixes) (found 1%Z)) as Hl1.
  pose proof (f_equal length Hits) as Hli. rewrite length_fmap in Hli.
  split; [|split; [|split; [|split]]].
  - lia.
  - destruct (decide (found min_lines = [] ∧ (1 < min_lines)%Z)) as [[Hn _]|_]; [right|left; lia].
    rewrite Hn in Hits, Hli. split; [done|split; [done|]]. cbn in Hli. lia.
  - intros Hemp Hig Hhid. unfold report_is_empty in Hemp. bool_prop. rewrite Hemp in *. cbn in Hh.
    destruct (decide (found min_lines = [] ∧ (1 < min_lines)%Z)) as [[Hn Hm]|Hno].
    + apply (Hclean 1%Z); [done|]. apply length_zero_iff_nil. lia.
    + assert (found min_lines = []) as Hn by (apply length_zero_iff_nil; lia).
      apply (Hclean min_lines); [|done]. destruct (Z.le_gt_cases min_lines 1); [done|]. destruct Hno. split; [done|lia].
  - intros Hnc n f Hnf Hs Ha. rewrite Hcap in Hnc. bool_prop.
    destruct (ignored ignore_prefixes (dead_row st (n, f))) eqn:E; [by right|left].
    rewrite Hits. apply list_elem_of_fmap_2, list_elem_of_filter. split; [done|]. by apply Hall.
  - apply unindexed_prefix_nothing.
Qed.
End Claims.

(** ** A project *)

Definition demo_row (file : Z) (name : string) (first last : Z) (code : string) : NodeRecord :=
  mkNodeRecord file "function" name None first last code None None None None None None false.

(** [helper] is called; [orphan] and the longer [big_orphan] are not; [callback] is named by [helper]. *)
Definition dead_demo : Store :=
  exec_ops
    [UpsertFile 0 (mkFileRecord "src/a.py" "h" 0 (Some "python"));
     UpsertFile 0 (mkFileRecord "claude-plugin/b.py" "h" 0 (Some "python"));
     InsertNode (demo_row 1 "helper" 1 3 "def helper(): return map(callback, [])");
     InsertNode (demo_row 1 "orphan" 5 6 "def orphan(): pass");
     InsertNode (demo_row 1 "__init__" 8 12 "def __init__(self): pass");
     InsertNode (demo_row 1 "callback" 14 15 "def callback(x): return x");
     InsertNode (demo_row 2 "big_orphan" 1 9 "def big_orphan(): pass");
     InsertEdge 4 1 "calls" None] empty_store.

#[local] Existing Instance ascii_unicode.
#[local] Abbreviation demo_found := (find_dead_code glob_model like_model like_esc_model dead_demo).
#[local] Abbreviation demo_report := (dead_code_report glob_model like_model like_esc_model dead_demo None None false).

Lemma dead_demo_text n : n ∈ s_nodes dead_demo → is_str (node_name_of n).
Proof.
  intros Hn. assert (str_forall is_ascii (node_name_of n) = true) as Ha; [|by apply is_str_ascii in Ha as [? _]].
  revert n Hn. apply Forall_forall. by vm_compute; repeat constructor.
Qed.

Lemma find_dead_code_ok_witness :
  dc_name <$> demo_found None None false 1 200 = ["big_orphan"; "orphan"]
  ∧ ∀ r, r ∈ demo_found None None false 1 200 →
    ∃ n f, (n, f) ∈ node_files dead_demo ∧ r = dead_row dead_demo (n, f)
           ∧ in_scope like_esc_model None None false 1 n f ∧ ¬ kept_alive like_model dead_demo n f.
Proof.
  split; [by vm_compute|].
  exact (proj1 (find_dead_code_ok glob_model like_model like_esc_model dead_demo dead_demo_text None None false 1 200)).
Defined.

Lemma dead_code_report_ok_witness :
  (let rep := demo_report 3 default_dead_code_ignores in
   (items rep, ignored_count rep, hidden_below_threshold rep) = ([], 1, 0))
  ∧ (let rep := demo_report 20 default_dead_code_ignores in
     (items rep, ignored_count rep, hidden_below_threshold rep) = ([], 1, 1))
  ∧ orphan_count (demo_report 1 []) + exported_count (demo_report 1 []) = length (items (demo_report 1 [])).
Proof.
  split; [by vm_compute|split; [by vm_compute|]].
  exact (proj1 (proj2 (dead_code_report_ok glob_model like_model like_esc_model dead_demo dead_demo_text
                         None None false 1 []))).
Defined.
