(* ===== verification/Imports.v ===== *)
(** * File dependencies ([storage/queries/imports.rs])

    The breadth-first closure over files behind [deps] and [affected], the symbol
    counts beside it and the pairs the cycle search reads. *)

From S2P Require Import Prelude Str Sql Domain Tables Store Queries.

Record FileDependency := mkFileDep {
  fd_file_path : string;
  fd_direction : string;
  fd_symbol_count : nat;
  fd_depth : nat;
}.

Inductive FileHop := Outgoing | Incoming.

(** The node of an edge on the frontier side, and on the other. *)
Definition from_col (hop : FileHop) : EdgeRow → Z :=
  match hop with Outgoing => e_source_id | Incoming => e_target_id end.
Definition to_col (hop : FileHop) : EdgeRow → Z :=
  match hop with Outgoing => e_target_id | Incoming => e_source_id end.

Definition FRONTIER_CHUNK : nat := 400.

Section Imports.
Context (like : string → string → bool) (st : Store).

(** [e.relation IN (..) AND NOT synthetic] *)
Definition dep_edges (relations : list string) : list EdgeRow :=
  filter (λ e, e_relation e ∈ relations ∧ synthetic_import_holds like e = false) (ee_edge <$> s_edges st).

(** One frontier query: the ids and paths of the files a hop away. *)
Definition hop_rows (relations : list string) (hop : FileHop) (chunk : list Z) : list (Z * string) :=
  remove_dups
    (n_from ← filter (λ n, node_file_of n ∈ chunk) (s_nodes st);
     e ← filter (λ e, from_col hop e = node_id_of n_from) (dep_edges relations);
     n_to ← node_rows st (to_col hop e);
     (λ f, (file_id_of f, file_path_of f)) <$> file_rows st (node_file_of n_to)).

Record Walk := mkWalk { visited : gset Z; found : gmap string nat; next : list Z }.

(** The body of the loop over the rows. *)
Definition visit_row (root_path : string) (depth : nat) (w : Walk) (row : Z * string) : Walk :=
  let '(file_id, path) := row in
  if String.eqb path root_path then w
  else if bool_decide (file_id ∈ visited w) then w
  else mkWalk ({[file_id]} ∪ visited w)
         (<[path := match found w !! path with Some d => if depth <? d then depth else d | None => depth end]> (found w))
         (next w ++ [file_id]).

(** The [while] loop; the fuel is [max_depth - depth + 1]. *)
Fixpoint closure_loop (root_path : string) (relations : list string) (hop : FileHop) (fuel : nat)
    (depth : nat) (frontier : list Z) (w : Walk) : gmap string nat :=
  match fuel with
  | 0 => found w
  | S fuel' =>
      match frontier with
      | [] => found w
      | _ =>
          let w' := foldl (visit_row root_path depth) (mkWalk (visited w) (found w) [])
                      (chunks FRONTIER_CHUNK frontier ≫= hop_rows relations hop) in
          closure_loop root_path relations hop fuel' (S depth) (sort_cmp Z.compare (next w')) w'
      end
  end.

Definition root_ids (root_path : string) : list Z :=
  sort_cmp Z.compare (file_id_of <$> filter (λ f, file_path_of f = root_path) (s_files st)).

(** A [BTreeMap] iterates in key order. *)
Definition closure_out (found : gmap string nat) : list (string * nat) :=
  sort_cmp (cmp_by snd Nat.compare) (sort_cmp (cmp_by fst String.compare) (map_to_list found)).

Definition file_closure (root_path : string) (max_depth : Z) (relations : list string) (hop : FileHop)
    : list (string * nat) :=
  let frontier := root_ids root_path in
  match frontier with
  | [] => []
  | _ => closure_out (closure_loop root_path relations hop (Z.to_nat max_depth) 1 frontier
                        (mkWalk (list_to_set frontier) ∅ []))
  end.

(** [(path, target node)] of the edges between the root and each other file; the
    counted symbol is the edge's target. *)
Definition cross_file_symbols (root_path : string) (relations : list string) (hop : FileHop) : list (string * Z) :=
  remove_dups
    (e ← dep_edges relations;
     na ← node_rows st (e_source_id e); fa ← file_rows st (node_file_of na);
     nb ← node_rows st (e_target_id e); fb ← file_rows st (node_file_of nb);
     let '(pinned, grouped) := match hop with Outgoing => (fa, fb) | Incoming => (fb, fa) end in
     if String.eqb (file_path_of pinned) root_path then [(file_path_of grouped, node_id_of nb)] else []).

(** [COUNT(DISTINCT nb.id) .. GROUP BY path]; an absent path counts zero. *)
Definition cross_file_symbol_count (root_path : string) (relations : list string) (hop : FileHop) (path : string) : nat :=
  length (filter (λ r, r.1 = path) (cross_file_symbols root_path relations hop)).

Definition clamp_depth (max_depth : Z) : Z := Z.min 10 (Z.max 1 max_depth).

Definition TREE_RELATIONS : list string := [REL_IMPORTS; REL_CALLS].
Definition DEPENDENT_RELATIONS : list string :=
  [REL_IMPORTS; REL_CALLS; REL_REFERENCES; REL_IMPLEMENTS; REL_INHERITS].

Definition dep_cmp : FileDependency → FileDependency → comparison :=
  cmp_then (cmp_by fd_depth Nat.compare)
    (cmp_then (cmp_rev (cmp_by fd_symbol_count Nat.compare)) (cmp_by fd_file_path String.compare)).

Definition tree_side (file_path dir_name : string) (max_depth : Z) (hop : FileHop) : list FileDependency :=
  sort_cmp dep_cmp
    ((λ r, mkFileDep r.1 dir_name (cross_file_symbol_count file_path TREE_RELATIONS hop r.1) r.2)
       <$> file_closure file_path max_depth TREE_RELATIONS hop).

Definition get_import_tree (file_path direction : string) (max_depth : Z) : result string (list FileDependency) :=
  if negb (bool_decide (direction ∈ ["outgoing"; "incoming"; "both"])) then
    Err ("invalid direction '" +:+ direction +:+ "': expected outgoing, incoming, or both")
  else
    let max_depth := clamp_depth max_depth in
    let wanted d := String.eqb direction d || String.eqb direction "both" in
    Ok ((if wanted "outgoing" then tree_side file_path "outgoing" max_depth Outgoing else [])
        ++ (if wanted "incoming" then tree_side file_path "incoming" max_depth Incoming else [])).

Definition file_is_indexed (file_path : string) : bool :=
  0 <? length (filter (λ f, file_path_of f = file_path) (s_files st)).

Definition file_has_test_node (file_path : string) : bool :=
  existsb (λ nf, String.eqb (file_path_of nf.2) file_path && n_is_test (nr_node nf.1)) (node_files st).

Definition get_reverse_dependents (file_path : string) (max_depth : Z) : list (string * nat) :=
  file_closure file_path (clamp_depth max_depth) DEPENDENT_RELATIONS Incoming.

Definition all_file_import_edges : list (string * string) :=
  remove_dups
    ((λ x, (file_path_of x.1.2.2, file_path_of x.2.2)) <$>
       filter (λ x, e_relation x.1.1 = REL_IMPORTS ∧ synthetic_import_holds like x.1.1 = false
                    ∧ file_id_of x.1.2.2 ≠ file_id_of x.2.2
                    ∧ is_external_file x.1.2.2 = false ∧ is_external_file x.2.2 = false) (edge_ends st)).
End Imports.

(** ** Shortest distances *)

Section Closure.
Context (like : string → string → bool) (st : Store) (Hok : store_ok st).
Context (relations : list string) (hop : FileHop) (root_path : string).

Definition file_of (id : Z) (path : string) : Prop :=
  ∃ f, f ∈ s_files st ∧ file_id_of f = id ∧ file_path_of f = path.

(** Some edge of the relations leads from a node of the one file to a node of the
    other. *)
Definition hop_edge (x y : Z) : Prop :=
  ∃ e nf nt, e ∈ dep_edges like st relations ∧ nf ∈ s_nodes st ∧ nt ∈ s_nodes st
    ∧ from_col hop e = node_id_of nf ∧ to_col hop e = node_id_of nt
    ∧ node_file_of nf = x ∧ node_file_of nt = y.

Lemma file_of_id id p q : file_of id p → file_of id q → p = q.
Proof.
  intros (f & Hf & Hfi & <-) (g & Hg & Hgi & <-). f_equal.
  apply (NoDup_key_inj file_id_of (s_files st)); [apply Hok|done|done|by rewrite Hfi].
Qed.
Lemma file_of_path id jd p : file_of id p → file_of jd p → id = jd.
Proof.
  intros (f & Hf & <- & Hp) (g & Hg & <- & Hq). f_equal.
  apply (NoDup_key_inj file_path_of (s_files st)); [apply Hok|done|done|by rewrite Hp].
Qed.

Lemma elem_of_hop_rows chunk y p :
  (y, p) ∈ hop_rows like st relations hop chunk ↔ ∃ x, x ∈ chunk ∧ hop_edge x y ∧ file_of y p.
Proof.
  unfold hop_rows. rewrite elem_of_remove_dups. unfold node_rows, file_rows. split.
  - intros (nf & H & [Hc Hnf]%list_elem_of_filter)%list_elem_of_bind.
    apply list_elem_of_bind in H as (e & H & [He Hin]%list_elem_of_filter).
    apply list_elem_of_bind in H as (nt & H & [Hnt Hntin]%list_elem_of_filter).
    apply list_elem_of_fmap in H as (f & [= -> ->] & [Hf Hfin]%list_elem_of_filter).
    exists (node_file_of nf). split; [done|]. split; [|by exists f].
    exists e, nf, nt. by rewrite Hf.
  - intros (x & Hx & (e & nf & nt & He & Hnf & Hnt & Hfrom & Hto & <- & <-) & f & Hf & Hfi & <-).
    apply list_elem_of_bind. exists nf. split; [|by apply list_elem_of_filter].
    apply list_elem_of_bind. exists e. split; [|by apply list_elem_of_filter].
    apply list_elem_of_bind. exists nt. split; [|by apply list_elem_of_filter].
    apply list_elem_of_fmap. exists f. rewrite Hfi. split; [done|]. by apply list_elem_of_filter.
Qed.

Lemma hop_edge_file x y : hop_edge x y → ∃ p, file_of y p.
Proof.
  intros (e & nf & nt & _ & _ & Hnt & _ & _ & _ & <-).
  apply (ok_node_file st Hok), list_elem_of_fmap in Hnt as (f & Hf & Hin). by exists (file_path_of f), f.
Qed.

(** One pass over rows: [V] is what was visited and [F] found before. *)
Lemma visit_rows depth (V : gset Z) (F : gmap string nat) rows :
  (∀ y p, (y, p) ∈ rows → file_of y p) →
  (∀ y, file_of y root_path → y ∈ V) →
  (∀ p k, F !! p = Some k → ∃ y, y ∈ V ∧ file_of y p) →
  let w := foldl (visit_row root_path depth) (mkWalk V F []) rows in
  (∀ y, y ∈ visited w ↔ y ∈ V ∨ y ∈ rows.*1)
  ∧ (∀ y, y ∈ next w ↔ y ∈ rows.*1 ∧ y ∉ V)
  ∧ (∀ p k, found w !! p = Some k ↔ F !! p = Some k ∨ k = depth ∧ ∃ y, (y, p) ∈ rows ∧ y ∉ V).
Proof.
  intros Hrows Hroot HF w. unfold w. clear w. induction rows as [|[y p] rows IH] using rev_ind.
  { simpl. split; [set_solver|]. split; [set_solver|]. intros p k. split; [by left|].
    intros [?|(_ & y & ?%not_elem_of_nil & _)]; done. }
  rewrite foldl_snoc. set (w := foldl _ _ rows) in *.
  destruct IH as (Hv & Hn & Hf); [intros y' p' H; apply Hrows, elem_of_app; by left|].
  assert (file_of y p) as Hy by (apply Hrows, elem_of_app; right; by left).
  rewrite fmap_app. cbn [fmap list_fmap]. setoid_rewrite elem_of_app. setoid_rewrite list_elem_of_singleton.
  unfold visit_row. destruct (String.eqb_spec p root_path) as [->|Hp].
  { assert (y ∈ V) as HyV by by apply Hroot. split; [|split].
    - intros z. rewrite Hv. simpl. split; [tauto|]. by intros [?|[?| ->]]; auto.
    - intros z. rewrite Hn. simpl. split; [tauto|]. by intros [[?| ->] ?].
    - intros q k. rewrite Hf. split; [intros [?|(? & z & ? & ?)]; eauto 6|].
      intros [?|(? & z & [?|[= -> ->]] & ?)]; eauto; done. }
  destruct (bool_decide (y ∈ visited w)) eqn:Ev; [apply bool_decide_eq_true in Ev|apply bool_decide_eq_false in Ev].
  { split; [|split].
    - intros z. rewrite Hv. simpl. split; [tauto|]. intros [?|[?| ->]]; auto. by apply Hv.
    - intros z. rewrite Hn. simpl. split; [tauto|]. intros [[?| ->] ?]; [done|].
      apply Hv in Ev as [?|?]; done.
    - intros q k. rewrite Hf. split; [intros [?|(? & z & ? & ?)]; eauto 6|].
      intros [?|(? & z & [?|[= -> ->]] & ?)]; eauto; [].
      apply Hv in Ev as [?|Hin]; [done|]. apply list_elem_of_fmap in Hin as ([y' p'] & Hy' & Hin). simpl in Hy'. subst y'.
      assert (p = p') as <- by (apply (file_of_id y); [done|]; apply Hrows, elem_of_app; by left). eauto. }
  assert (y ∉ V ∧ y ∉ rows.*1) as [HyV Hyr] by (rewrite Hv in Ev; tauto).
  assert (found w !! p = None) as Hnone.
  { destruct (found w !! p) as [k|] eqn:E; [exfalso|done]. apply Hf in E as [E|(_ & z & Hz & _)].
    - apply HF in E as (z & Hz & Hzp). by rewrite (file_of_path y z p) in HyV.
    - assert (file_of z p) as Hzp by (apply Hrows, elem_of_app; by left).
      rewrite (file_of_path y z p) in Hyr by done. by apply (list_elem_of_fmap_2 fst) in Hz. }
  cbn [visited next found]. rewrite Hnone. split; [|split].
  - intros z. rewrite elem_of_union, elem_of_singleton, Hv. simpl. tauto.
  - intros z. rewrite elem_of_app, list_elem_of_singleton, Hn. simpl. split; [|tauto].
    intros [?| ->]; tauto.
  - intros q k. destruct (decide (q = p)) as [->|Hq].
    + rewrite lookup_insert_eq. split.
      * intros [= <-]. right. split; [done|]. exists y. auto.
      * intros [H|(-> & _)]; [|done].
        assert (found w !! p = Some k) as E by (apply Hf; by left). by rewrite Hnone in E.
    + rewrite lookup_insert_ne by done. rewrite Hf. split; [intros [?|(? & z & ? & ?)]; eauto 6|].
      intros [?|(? & z & [?|[= -> ->]] & ?)]; eauto; done.
Qed.

(** Within [d] hops of the root; [x] is at distance [d]. *)
Definition within (d : nat) (x : Z) : Prop :=
  ∃ k r, k ≤ d ∧ file_of r root_path ∧ nsteps hop_edge k r x.
Definition at_distance (d : nat) (x : Z) : Prop := within d x ∧ ∀ k, k < d → ¬ within k x.

Lemma within_mono d d' x : d ≤ d' → within d x → within d' x.
Proof. intros Hd (k & r & ? & ?). exists k, r. split; [lia|done]. Qed.

Lemma within_step d x y : within d x → hop_edge x y → within (S d) y.
Proof. intros (k & r & ? & ? & ?) He. exists (S k), r. split; [lia|]. split; [done|]. by eapply nsteps_r. Qed.

Lemma within_0 x : within 0 x ↔ file_of x root_path.
Proof.
  split; [intros (k & r & Hk & Hr & Hs)|intros H; exists 0, x; split; [done|split; [done|constructor]]].
  assert (k = 0) as -> by lia. by inversion Hs; subst.
Qed.

(** The loop before level [d + 1]. *)
Record loop_inv (d : nat) (frontier : list Z) (V : gset Z) (F : gmap string nat) : Prop := {
  li_visited x : x ∈ V ↔ within d x;
  li_frontier x : x ∈ frontier → x ∈ V;
  li_closed x y : x ∈ V → x ∉ frontier → hop_edge x y → y ∈ V;
  li_found p k : F !! p = Some k ↔ k ≤ d ∧ k ≠ 0 ∧ ∃ y, file_of y p ∧ at_distance k y;
}.

Lemma within_S_inv d frontier V F y :
  loop_inv d frontier V F → within (S d) y → y ∈ V ∨ ∃ x, x ∈ frontier ∧ hop_edge x y.
Proof.
  intros [Hv Hf Hc _] (k & r & Hk & Hr & Hs).
  destruct k as [|k]; [left; apply Hv; exists 0, r; split; [lia|done]|].
  apply nsteps_inv_r in Hs as (x & Hx & Hxy).
  assert (x ∈ V) as HxV by (apply Hv; exists k, r; split; [lia|done]).
  destruct (decide (x ∈ frontier)); [right; eauto|left; eauto].
Qed.

Lemma loop_inv_step d frontier V F :
  loop_inv d frontier V F →
  let w := foldl (visit_row root_path (S d)) (mkWalk V F [])
             (chunks FRONTIER_CHUNK frontier ≫= hop_rows like st relations hop) in
  loop_inv (S d) (sort_cmp Z.compare (next w)) (visited w) (found w).
Proof.
  intros Hinv w. pose proof Hinv as [Hv Hf Hc HF].
  set (rows := chunks FRONTIER_CHUNK frontier ≫= hop_rows like st relations hop) in *.
  assert (∀ y p, (y, p) ∈ rows ↔ (∃ x, x ∈ frontier ∧ hop_edge x y) ∧ file_of y p) as Hrows.
  { intros y p. unfold rows. rewrite list_elem_of_bind. setoid_rewrite elem_of_hop_rows. split.
    - intros (c & (x & Hx & ? & ?) & Hc'). split; [|done]. exists x. split; [|done].
      apply (elem_of_chunks_join FRONTIER_CHUNK); [unfold FRONTIER_CHUNK; lia|eauto].
    - intros [(x & Hx & ?) ?]. apply (elem_of_chunks_join FRONTIER_CHUNK) in Hx as (c & ? & ?);
        [eauto 6|unfold FRONTIER_CHUNK; lia]. }
  assert (∀ y, y ∈ rows.*1 ↔ ∃ x, x ∈ frontier ∧ hop_edge x y) as Hids.
  { intros y. rewrite list_elem_of_fmap. split.
    - by intros ([y' p] & -> & [? _]%Hrows).
    - intros (x & Hx & He). destruct (hop_edge_file x y He) as [p Hp]. exists (y, p). split; [done|].
      apply Hrows. eauto. }
  destruct (visit_rows (S d) V F rows) as (Hv' & Hn' & Hf').
  { by intros y p [_ ?]%Hrows. }
  { intros y Hy. apply Hv. apply (within_mono 0); [lia|by apply within_0]. }
  { intros p k (Hk & _ & y & Hy & Hd & _)%HF. exists y. split; [|done]. apply Hv. by apply (within_mono k). }
  fold w in Hv', Hn', Hf'.
  assert (∀ y, y ∈ visited w ↔ within (S d) y) as Hvis.
  { intros y. rewrite Hv', Hids. split.
    - intros [?%Hv|(x & ?%Hf%Hv & ?)]; [by apply (within_mono d); [lia|]|by apply (within_step d x)].
    - intros H. by apply (within_S_inv d frontier V F). }
  split; [done| | |].
  - intros x. unfold sort_cmp. rewrite elem_of_sort_by, Hn', Hv'. tauto.
  - intros x y Hx Hnx He. apply Hvis. unfold sort_cmp in Hnx. rewrite elem_of_sort_by, Hn' in Hnx.
    apply (within_step d x); [|done]. apply Hv. apply Hv' in Hx as [?|?]; [done|].
    destruct (decide (x ∈ V)); tauto.
  - intros p k. rewrite Hf', HF. split.
    + intros [(? & ? & ?)|(-> & y & [Hx ?]%Hrows & HyV)]; [split; [lia|done]|].
      split; [done|]. split; [done|]. exists y. split; [done|]. split; [apply Hvis, Hv'; right; by apply Hids|].
      intros j Hj Hw. apply HyV, Hv. apply (within_mono j); [lia|done].
    + intros (Hk & Hk0 & y & Hy & Hd & Hno). destruct (decide (k = S d)) as [->|]; [right|left; split; [lia|split; [done|by exists y]]].
      split; [done|]. exists y. split; [|intros HyV; apply (Hno d); [lia|by apply Hv]].
      apply Hrows. split; [|done]. apply Hvis, Hv' in Hd as [HyV|Hd]; [|by apply Hids].
      exfalso. apply (Hno d); [lia|by apply Hv].
Qed.

Lemma closure_loop_ok fuel d frontier w p k :
  loop_inv d frontier (visited w) (found w) →
  closure_loop like st root_path relations hop fuel (S d) frontier w !! p = Some k ↔
  k ≤ d + fuel ∧ k ≠ 0 ∧ ∃ y, file_of y p ∧ at_distance k y.
Proof.
  revert d frontier w. induction fuel as [|fuel IH]; intros d frontier w Hinv; cbn [closure_loop].
  { rewrite (li_found _ _ _ _ Hinv), Nat.add_0_r. done. }
  destruct frontier as [|x frontier].
  - rewrite (li_found _ _ _ _ Hinv). split; [intros (? & ?); split; [lia|done]|].
    intros (Hk & Hk0 & y & Hy & Hd & Hno). split; [|split; [done|by exists y]].
    destruct (decide (k ≤ d)) as [|Hkd]; [done|exfalso]. apply (Hno d); [lia|]. clear Hk Hno.
    apply (li_visited _ _ _ _ Hinv). destruct Hd as (j & r & _ & Hr & Hs).
    assert (∀ n x y, nsteps hop_edge n x y → x ∈ visited w → y ∈ visited w) as Hcl.
    { induction 1; [done|]. intros Hin. apply IHnsteps. eapply (li_closed _ _ _ _ Hinv); [done|apply not_elem_of_nil|done]. }
    apply (Hcl _ _ _ Hs), (li_visited _ _ _ _ Hinv), (within_mono 0); [lia|by apply within_0].
  - set (frontier' := x :: frontier) in *. rewrite IH; [|by apply loop_inv_step].
    by rewrite Nat.add_succ_r.
Qed.
End Closure.

Lemma closure_out_perm m : closure_out m ≡ₚ map_to_list m.
Proof. unfold closure_out, sort_cmp. by rewrite !sort_by_perm. Qed.

Lemma elem_of_closure_out m p k : (p, k) ∈ closure_out m ↔ m !! p = Some k.
Proof. by rewrite closure_out_perm, elem_of_map_to_list. Qed.

Lemma elem_of_root_ids st root_path x : x ∈ root_ids st root_path ↔ file_of st x root_path.
Proof.
  unfold root_ids, sort_cmp, file_of. rewrite elem_of_sort_by, list_elem_of_fmap.
  setoid_rewrite list_elem_of_filter. split; intros (f & ?); exists f; naive_solver.
Qed.

Lemma elem_of_file_closure like st root_path max_depth relations hop p k :
  store_ok st →
  (p, k) ∈ file_closure like st root_path max_depth relations hop ↔
  k ≠ 0 ∧ (Z.of_nat k ≤ max_depth)%Z ∧ ∃ y, file_of st y p ∧ at_distance like st relations hop root_path k y.
Proof.
  intros Hok. unfold file_closure. destruct (root_ids st root_path) as [|r0 rs] eqn:Er.
  - split; [by intros ?%not_elem_of_nil|]. intros (_ & _ & y & _ & (j & r & _ & Hr & _) & _).
    apply elem_of_root_ids in Hr. rewrite Er in Hr. by apply not_elem_of_nil in Hr.
  - set (frontier := r0 :: rs) in *. assert (∀ x, x ∈ frontier ↔ file_of st x root_path) as Hf
      by (intros x; by rewrite <- Er, elem_of_root_ids).
    rewrite elem_of_closure_out, (closure_loop_ok like st Hok relations hop root_path); [split; intros (? & ? & ?); split; [done|split; [lia|done]|lia|done]|].
    cbn [visited found]. split.
    + intros x. by rewrite elem_of_list_to_set, Hf, within_0.
    + intros x. by rewrite elem_of_list_to_set.
    + intros x y Hx Hnx. by rewrite elem_of_list_to_set in Hx.
    + intros q j. rewrite lookup_empty. split; [done|]. intros (? & ? & _). lia.
Qed.

(** C27: The files of a dependency closure are exactly those that can be reached
    within [max_depth] hops, each once, with its shortest distance, by distance
    and then by path; the root itself is never among them. *)
Theorem file_closure_ok like st root_path max_depth relations hop :
  store_ok st →
  let out := file_closure like st root_path max_depth relations hop in
  (∀ p k, (p, k) ∈ out ↔ k ≠ 0 ∧ (Z.of_nat k ≤ max_depth)%Z
     ∧ ∃ y, file_of st y p ∧ at_distance like st relations hop root_path k y)
  ∧ root_path ∉ out.*1
  ∧ NoDup out.*1
  ∧ StronglySorted (λ a b, cmp_leb (cmp_then (cmp_by snd Nat.compare) (cmp_by fst String.compare)) a b = true) out.
Proof.
  intros Hok out. split; [intros p k; by apply elem_of_file_closure|]. split; [|split].
  - intros ([p k] & -> & Hin)%list_elem_of_fmap. simpl in *.
    apply elem_of_file_closure in Hin as (Hk & _ & y & Hy & _ & Hno); [|done].
    apply (Hno 0); [lia|]. by apply within_0.
  - unfold out, file_closure. destruct (root_ids st root_path); [constructor|].
    rewrite closure_out_perm. apply NoDup_fst_map_to_list.
  - unfold out, file_closure. destruct (root_ids st root_path); [constructor|].
    apply sort_cmp_stable; [apply _..|]. apply sort_cmp_sorted. apply _.
Qed.

(** What [affected] reports covers what [deps] shows as incoming, at distances no
    larger. *)
Lemma within_relations like st rels rels' hop root d x :
  (∀ r, r ∈ rels → r ∈ rels') → within like st rels hop root d x → within like st rels' hop root d x.
Proof.
  intros Hr (k & r & Hk & Hroot & Hs). exists k, r. split; [done|]. split; [done|].
  eapply nsteps_congruence with (f := id); [|exact Hs].
  intros a b (e & nf & nt & He & H). exists e, nf, nt. split; [|done].
  unfold dep_edges in *. apply list_elem_of_filter in He as [[? ?] ?]. apply list_elem_of_filter. auto.
Qed.

Lemma loop_reached like st relations hop root d :
  store_ok st → ∃ frontier V F, loop_inv like st relations hop root d frontier V F.
Proof.
  intros Hok. induction d as [|d (frontier & V & F & Hinv)].
  - exists (root_ids st root), (list_to_set (root_ids st root)), ∅. split.
    + intros x. by rewrite elem_of_list_to_set, elem_of_root_ids, within_0.
    + intros x. by rewrite elem_of_list_to_set.
    + intros x y Hx Hnx. by rewrite elem_of_list_to_set in Hx.
    + intros q j. rewrite lookup_empty. split; [done|]. intros (? & ? & _). lia.
  - eexists _, _, _. by apply loop_inv_step.
Qed.

Lemma within_least like st relations hop root d x :
  store_ok st → within like st relations hop root d x →
  ∃ k, k ≤ d ∧ at_distance like st relations hop root k x.
Proof.
  intros Hok. induction d as [|d IH]; intros Hw.
  - exists 0. split; [done|]. split; [done|lia].
  - destruct (loop_reached like st relations hop root d Hok) as (fr & V & F & Hinv).
    destruct (decide (x ∈ V)) as [Hx|Hx].
    + apply (li_visited _ _ _ _ _ _ _ _ _ Hinv) in Hx. destruct (IH Hx) as (k & ? & ?). exists k. split; [lia|done].
    + exists (S d). split; [done|]. split; [done|]. intros k Hk Hkw. apply Hx, (li_visited _ _ _ _ _ _ _ _ _ Hinv).
      apply (within_mono _ _ _ _ _ k); [lia|done].
Qed.

Lemma elem_of_tree_side like st path dir max hop d :
  d ∈ tree_side like st path dir max hop ↔
  fd_direction d = dir
  ∧ fd_symbol_count d = cross_file_symbol_count like st path TREE_RELATIONS hop (fd_file_path d)
  ∧ (fd_file_path d, fd_depth d) ∈ file_closure like st path max TREE_RELATIONS hop.
Proof.
  unfold tree_side, sort_cmp. rewrite elem_of_sort_by, list_elem_of_fmap. split.
  - by intros ([p k] & -> & H).
  - intros (<- & Hc & Hin). exists (fd_file_path d, fd_depth d). split; [|done]. destruct d; simpl in *. by subst.
Qed.

(** The two ends of an edge between the root's file and another. *)
Definition root_symbol like st path hop (p : string) (i : Z) : Prop :=
  ∃ e na nb, e ∈ dep_edges like st TREE_RELATIONS ∧ na ∈ s_nodes st ∧ nb ∈ s_nodes st
    ∧ e_source_id e = node_id_of na ∧ e_target_id e = node_id_of nb ∧ node_id_of nb = i
    ∧ match hop with
      | Outgoing => file_of st (node_file_of na) path ∧ file_of st (node_file_of nb) p
      | Incoming => file_of st (node_file_of nb) path ∧ file_of st (node_file_of na) p
      end.

Lemma elem_of_cross_file_symbols like st path hop p i :
  (p, i) ∈ cross_file_symbols like st path TREE_RELATIONS hop ↔ root_symbol like st path hop p i.
Proof.
  unfold cross_file_symbols, root_symbol, node_rows, file_rows, file_of. rewrite elem_of_remove_dups. split.
  - intros (e & H & He)%list_elem_of_bind. apply list_elem_of_bind in H as (na & H & [Hna Hnain]%list_elem_of_filter).
    apply list_elem_of_bind in H as (fa & H & [Hfa Hfain]%list_elem_of_filter).
    apply list_elem_of_bind in H as (nb & H & [Hnb Hnbin]%list_elem_of_filter).
    apply list_elem_of_bind in H as (fb & H & [Hfb Hfbin]%list_elem_of_filter).
    exists e, na, nb.
    destruct hop; (case_match eqn:E; [|by apply not_elem_of_nil in H]); apply String.eqb_eq in E;
      apply list_elem_of_singleton in H as [= -> ->]; split_and!; try done; (by exists fa) || (by exists fb).
  - intros (e & na & nb & He & Hna & Hnb & Hs & Ht & <- & Hh).
    assert (∃ fa fb, fa ∈ s_files st ∧ fb ∈ s_files st ∧ file_id_of fa = node_file_of na ∧ file_id_of fb = node_file_of nb
      ∧ match hop with Outgoing => file_path_of fa = path ∧ file_path_of fb = p
        | Incoming => file_path_of fb = path ∧ file_path_of fa = p end) as (fa & fb & Hfa & Hfb & Hfi & Hfj & Hp)
      by (destruct hop; destruct Hh as [(f & ? & ? & ?) (g & ? & ? & ?)]; eauto 10).
    apply list_elem_of_bind. exists e. split; [|done].
    apply list_elem_of_bind. exists na. split; [|by apply list_elem_of_filter].
    apply list_elem_of_bind. exists fa. split; [|by apply list_elem_of_filter].
    apply list_elem_of_bind. exists nb. split; [|by apply list_elem_of_filter].
    apply list_elem_of_bind. exists fb. split; [|by apply list_elem_of_filter].
    destruct hop; destruct Hp as [-> ->]; rewrite String.eqb_refl; by left.
Qed.

Lemma symbol_count_ok like st path hop p :
  ∃ ids, NoDup ids ∧ length ids = cross_file_symbol_count like st path TREE_RELATIONS hop p
    ∧ ∀ i, i ∈ ids ↔ root_symbol like st path hop p i.
Proof.
  exists (snd <$> filter (λ r, r.1 = p) (cross_file_symbols like st path TREE_RELATIONS hop)). split; [|split].
  - apply NoDup_fmap_2_strong; [|apply NoDup_filter, NoDup_remove_dups].
    intros [q i] [q' j] [Hq _]%list_elem_of_filter [Hq' _]%list_elem_of_filter ?. simpl in *. by subst.
  - by rewrite length_fmap.
  - intros i. rewrite list_elem_of_fmap. setoid_rewrite list_elem_of_filter. split.
    + intros ([q j] & -> & Hq & Hin). simpl in *. subst q. by apply elem_of_cross_file_symbols.
    + intros H. exists (p, i). split; [done|]. split; [done|]. by apply elem_of_cross_file_symbols.
Qed.

(** A refusal, or the files of each direction asked. *)
Definition import_tree_spec like st path direction max_depth (r : result string (list FileDependency)) : Prop :=
  match r with
  | Err _ => direction ∉ ["outgoing"; "incoming"; "both"]
  | Ok deps =>
      ∃ outs ins, deps = outs ++ ins
      ∧ (∀ side dir hop, (side, dir, hop) ∈ [(outs, "outgoing", Outgoing); (ins, "incoming", Incoming)] →
           StronglySorted (λ a b, cmp_leb dep_cmp a b = true) side
           ∧ NoDup (fd_file_path <$> side)
           ∧ (direction ≠ dir → direction ≠ "both" → side = [])
           ∧ (∀ d, d ∈ side → fd_direction d = dir
                ∧ ∃ ids, NoDup ids ∧ length ids = fd_symbol_count d
                    ∧ ∀ i, i ∈ ids ↔ root_symbol like st path hop (fd_file_path d) i)
           ∧ (direction = dir ∨ direction = "both" → ∀ p k,
                (∃ d, d ∈ side ∧ fd_file_path d = p ∧ fd_depth d = k)
                ↔ k ≠ 0 ∧ (Z.of_nat k ≤ Z.min 10 (Z.max 1 max_depth))%Z
                  ∧ ∃ y, file_of st y p ∧ at_distance like st TREE_RELATIONS hop path k y))
  end.

(** [deps] refuses exactly the directions it does not know; otherwise it lists
    for each direction asked every file within the clamped depth once, nearest
    first, with its shortest distance and the number of distinct symbols on the
    edges that join it directly to the root, and for [both] the outgoing files
    come before the incoming ones. *)
Theorem get_import_tree_ok like st path direction max_depth :
  store_ok st →
  import_tree_spec like st path direction max_depth (get_import_tree like st path direction max_depth).
Proof.
  intros Hok. unfold import_tree_spec, get_import_tree.
  destruct (bool_decide (direction ∈ ["outgoing"; "incoming"; "both"])) eqn:Ed; simpl;
    [|by apply bool_decide_eq_false in Ed].
  eexists _, _. split; [reflexivity|]. intros side dir hop Hin.
  assert (side = if String.eqb direction dir || String.eqb direction "both"
                 then tree_side like st path dir (clamp_depth max_depth) hop else []) as ->.
  { rewrite !elem_of_cons in Hin. destruct Hin as [[= -> -> ->]|[[= -> -> ->]|?%not_elem_of_nil]]; done. }
  assert (∀ b : bool, StronglySorted (λ a b, cmp_leb dep_cmp a b = true)
            (if b then tree_side like st path dir (clamp_depth max_depth) hop else [])) as Hs.
  { intros []; [|constructor]. apply sort_cmp_sorted. unfold dep_cmp. apply _. }
  assert (∀ b : bool, NoDup (fd_file_path <$> if b then tree_side like st path dir (clamp_depth max_depth) hop else [])) as Hn.
  { intros []; [|constructor]. unfold tree_side, sort_cmp. rewrite sort_by_perm, <- list_fmap_compose.
    by destruct (file_closure_ok like st path (clamp_depth max_depth) TREE_RELATIONS hop Hok) as (_ & _ & Hn & _). }
  split; [done|]. split; [done|]. split; [|split].
  - intros H1%String.eqb_neq H2%String.eqb_neq. by rewrite H1, H2.
  - intros d Hd. destruct (_ || _); [|by apply not_elem_of_nil in Hd].
    apply elem_of_tree_side in Hd as (? & -> & _). split; [done|]. apply symbol_count_ok.
  - intros Hw p k. assert (String.eqb direction dir || String.eqb direction "both" = true) as ->.
    { apply orb_true_iff. rewrite !String.eqb_eq. tauto. }
    rewrite <- (elem_of_file_closure like st path (clamp_depth max_depth) TREE_RELATIONS hop p k Hok). split.
    + by intros (d & (_ & _ & ?)%elem_of_tree_side & <- & <-).
    + intros Hp. exists (mkFileDep p dir (cross_file_symbol_count like st path TREE_RELATIONS hop p) k).
      split; [|done]. by apply elem_of_tree_side.
Qed.

(** [affected] never misses what [deps] shows: every file listed as an incoming
    dependency is among the reverse dependents, no farther away. *)
Theorem affected_covers_deps like st path direction max_depth deps d :
  store_ok st → get_import_tree like st path direction max_depth = Ok deps →
  d ∈ deps → fd_direction d = "incoming" →
  ∃ k, k ≤ fd_depth d ∧ (fd_file_path d, k) ∈ get_reverse_dependents like st path max_depth.
Proof.
  intros Hok Hd Hin Hdir. unfold get_import_tree in Hd.
  destruct (bool_decide (direction ∈ ["outgoing"; "incoming"; "both"])); [|done]. injection Hd as <-.
  assert (d ∈ tree_side like st path "incoming" (clamp_depth max_depth) Incoming) as Hd.
  { apply elem_of_app in Hin as [Hin|Hin].
    - destruct (_ || _); [|by apply not_elem_of_nil in Hin]. apply elem_of_tree_side in Hin as (H & _). by rewrite H in Hdir.
    - destruct (_ || _); [done|by apply not_elem_of_nil in Hin]. }
  apply elem_of_tree_side in Hd as (_ & _ & Hc). apply elem_of_file_closure in Hc as (Hk & Hm & y & Hy & Hw & Hno); [|done].
  apply (within_relations _ _ TREE_RELATIONS DEPENDENT_RELATIONS) in Hw as Hw'.
  2:{ intros r Hr. unfold TREE_RELATIONS, DEPENDENT_RELATIONS in *. rewrite !elem_of_cons in *. tauto. }
  apply within_least in Hw' as (k & Hkd & Hat); [|done]. exists k. split; [done|].
  apply elem_of_file_closure; [done|]. split; [|split; [lia|eauto]].
  intros ->. destruct Hat as [H0 _]. apply (Hno 0); [lia|]. by apply within_0, (within_0 like st DEPENDENT_RELATIONS Incoming).
Qed.

Lemma file_closure_ok_witness :
  let out := file_closure like_esc_model demo_store "a.rs" 3 [REL_CALLS] Incoming in
  (∀ p k, (p, k) ∈ out ↔ k ≠ 0 ∧ (Z.of_nat k ≤ 3)%Z
     ∧ ∃ y, file_of demo_store y p ∧ at_distance like_esc_model demo_store [REL_CALLS] Incoming "a.rs" k y)
  ∧ "a.rs" ∉ out.*1
  ∧ NoDup out.*1
  ∧ StronglySorted (λ a b, cmp_leb (cmp_then (cmp_by snd Nat.compare) (cmp_by fst String.compare)) a b = true) out.
Proof. apply file_closure_ok, demo_store_ok. Defined.

Lemma get_import_tree_ok_witness :
  import_tree_spec like_esc_model demo_store "a.rs" "both" 3 (get_import_tree like_esc_model demo_store "a.rs" "both" 3).
Proof. apply get_import_tree_ok, demo_store_ok. Defined.

Lemma affected_covers_deps_witness :
  ∃ k, k ≤ 1 ∧ ("b.rs", k) ∈ get_reverse_dependents like_esc_model demo_store "a.rs" 3.
Proof.
  apply (affected_covers_deps like_esc_model demo_store "a.rs" "both" 3 [mkFileDep "b.rs" "incoming" 1 1]
           (mkFileDep "b.rs" "incoming" 1 1)); [apply demo_store_ok|by vm_compute|by left|done].
Defined.
