(* ===== verification/Symbols.v ===== *)
(** * Symbol selection ([resolve.rs])

    How a name typed by a user picks its definitions: the spelling, the qualified
    lookup with its fallbacks, the tiers of a bare name, ambiguity, the fuzzy
    step, and the roll-up of references.  JSON rendering is left out. *)

From S2P Require Import Prelude Str Utf8 Tokens Sql Domain Paths Tables Store Queries Fuzzy Resolve Imports.

Definition candidate_of_nwf (nf : NodeWithFile) : NameCandidate :=
  mkCandidate (node_name_of (nwf_node nf)) (nwf_file_path nf) (type_of (nwf_node nf)) (node_id_of (nwf_node nf))
    (n_start_line (nr_node (nwf_node nf))).

(** [rsplit('.').next()] *)
Definition last_part (s : string) : string :=
  match rsplit_once ch_dot s with Some (_, b) => b | None => s end.

Definition is_selectable_definition (file_path : string) : bool := negb (String.eqb file_path EXTERNAL_FILE_PATH).

Definition HEADINGS : list string := ["h1"; "h2"; "h3"; "h4"; "h5"; "h6"].
Definition is_heading (node_type : string) : bool := bool_decide (node_type ∈ HEADINGS).

(** ** Qualified names *)

Definition is_production (nf : NodeWithFile) : bool :=
  negb (n_is_test (nr_node (nwf_node nf)) || is_test_path (nwf_file_path nf)).

Definition in_scope (st : Store) (qualified_name : string) (explicit_file : option string) : list NodeWithFile :=
  filter (λ nf, match explicit_file with Some wanted => String.eqb wanted (nwf_file_path nf) | None => true end = true)
    (get_nodes_with_files_by_qualified_name st qualified_name).

Definition selectable_qualified_definitions (st : Store) (qualified_name : string) (explicit_file : option string)
    : list NodeWithFile :=
  let scope := in_scope st qualified_name explicit_file in
  match explicit_file with
  | Some _ => scope
  | None =>
      let production := filter (λ nf, is_production nf = true) scope in
      if bool_decide (production = []) then filter (λ nf, is_production nf = false) scope else production
  end.

Inductive SymbolLookup := ExactQualified | Bare.

Record SymbolSelection := mkSelection {
  lookup_name : string;
  bare_name : string;
  file_filter : option string;
  lookup : SymbolLookup;
}.

Inductive SymbolSelectionError :=
| Ambiguous (candidates : list NameCandidate)
| QualifiedNotFound.

(** [(type, path)] of the nodes of a name *)
Definition named (st : Store) (name : string) (file : option string) : list (string * string) :=
  (λ nf, (type_of nf.1, file_path_of nf.2))
  <$> filter (λ nf, node_name_of nf.1 = name
                    ∧ match file with Some p => String.eqb (file_path_of nf.2) p | None => true end = true)
        (node_files st).

Definition named_as_typed (st : Store) (dotted : string) (explicit_file : option string) : bool :=
  let typed := named st dotted explicit_file in
  if bool_decide (typed = []) then false
  else if match explicit_file with Some _ => true | None => false end
          || existsb (λ r, negb (is_heading r.1)) typed then true
  else negb (existsb (λ r, negb (is_heading r.1) && is_selectable_definition r.2) (named st (last_part dotted) None)).

Definition select_symbol (st : Store) (raw_symbol : string) (explicit_file : option string)
    : result SymbolSelectionError SymbolSelection :=
  let bare := last_part raw_symbol in
  let dotted := contains "." raw_symbol in
  let fall_back := Ok (mkSelection (if dotted then bare else raw_symbol) bare explicit_file Bare) in
  if dotted then
    match selectable_qualified_definitions st raw_symbol explicit_file with
    | [] =>
        if named_as_typed st raw_symbol explicit_file
        then Ok (mkSelection raw_symbol raw_symbol explicit_file Bare)
        else match explicit_file with Some _ => Err QualifiedNotFound | None => fall_back end
    | [_] => Ok (mkSelection raw_symbol bare explicit_file ExactQualified)
    | matches => Err (Ambiguous (candidate_of_nwf <$> matches))
    end
  else fall_back.

(** ** Identity *)

Definition has_identity (file_path name : string) (qualified_name : option string) (node_type : string)
    (nf : NodeWithFile) : bool :=
  let wanted := default name qualified_name in
  String.eqb (nwf_file_path nf) file_path && String.eqb (type_of (nwf_node nf)) node_type
  && String.eqb (default (node_name_of (nwf_node nf)) (qualified_of (nwf_node nf))) wanted.

Definition reresolve_node_by_identity (st : Store) (file_path name : string) (qualified_name : option string)
    (node_type : string) : option NodeWithFile :=
  find (has_identity file_path name qualified_name node_type) (get_nodes_with_files_by_name st name).

(** Tuples sort by their first and then their second part. *)
Definition identity_group_ids (st : Store) (file_path name : string) (qualified_name : option string)
    (node_type : string) : list Z :=
  snd <$> sort_cmp (cmp_then (cmp_by fst Z.compare) (cmp_by snd Z.compare))
    ((λ nf, (n_start_line (nr_node (nwf_node nf)), node_id_of (nwf_node nf)))
       <$> filter (λ nf, has_identity file_path name qualified_name node_type nf = true)
             (get_nodes_with_files_by_name st name)).

(** ** Bare names *)

Definition is_callable_type (t : string) : bool := bool_decide (t ∈ ["function"; "method"]).

Definition language_among (langs : list string) (path : string) : bool :=
  match detect_language path with Some l => bool_decide (l ∈ langs) | None => false end.

(** A function inside a type of its name, or [T::T] of C and C++. *)
Definition is_constructor (with_files : list NodeWithFile) (nf : NodeWithFile) : bool :=
  let n := nwf_node nf in
  is_callable_type (type_of n)
  && language_among ["java"; "csharp"; "cpp"; "c"; "dart"] (nwf_file_path nf)
  && let out_of_line :=
       language_among ["c"; "cpp"] (nwf_file_path nf)
       && bool_decide (qualified_of n = Some (node_name_of n +:+ "." +:+ node_name_of n)) in
     existsb (λ b, bool_decide (type_of (nwf_node b) ∈ ["class"; "struct"; "enum"])
                   && (out_of_line && language_among ["c"; "cpp"] (nwf_file_path b)
                       || String.eqb (nwf_file_path b) (nwf_file_path nf)
                          && (n_start_line (nr_node (nwf_node b)) <=? n_start_line (nr_node n))%Z
                          && (n_start_line (nr_node n) <=? n_end_line (nr_node (nwf_node b)))%Z))
       with_files.

Definition in_tier (test_code : bool) (nf : NodeWithFile) : bool :=
  is_selectable_definition (nwf_file_path nf)
  && Bool.eqb (is_test_symbol (node_name_of (nwf_node nf)) (nwf_file_path nf)) test_code.

Definition drop_headings (cs : list NameCandidate) : list NameCandidate :=
  if existsb (λ c, negb (is_heading (nc_node_type c))) cs
  then filter (λ c, is_heading (nc_node_type c) = false) cs else cs.

Definition constructor_ids (with_files : list NodeWithFile) : list Z :=
  node_id_of ∘ nwf_node <$> filter (λ nf, is_constructor with_files nf = true) with_files.

Definition definitions_in_tier (st : Store) (name : string) (test_code : bool) : list NameCandidate :=
  let with_files := get_nodes_with_files_by_symbol st name in
  filter (λ c, nc_node_id c ∉ constructor_ids with_files)
    (drop_headings (candidate_of_nwf <$> filter (λ nf, in_tier test_code nf = true) with_files)).

Definition preferred_definitions (st : Store) (name : string) := definitions_in_tier st name false.
Definition test_code_definitions (st : Store) (name : string) := definitions_in_tier st name true.

Definition detect_ambiguity (st : Store) (name : string) : option (list NameCandidate) :=
  let preferred := preferred_definitions st name in
  if 1 <? length preferred then Some preferred else None.

Definition detect_same_file_ambiguity (st : Store) (name file_path : string) : option (list NameCandidate) :=
  let nodes := filter (λ n, node_name_of n = name) (get_nodes_by_file_path st file_path) in
  let callable n := is_callable_type (type_of n) in
  let pool := if existsb callable nodes then filter (λ n, callable n = true) nodes else nodes in
  let identities := remove_dups ((λ n, default (node_name_of n) (qualified_of n)) <$> pool) in
  if length identities <? 2 then None
  else let cands := (λ n, mkCandidate (node_name_of n) file_path (type_of n) (node_id_of n) (n_start_line (nr_node n)))
                    <$> nodes in
       if 1 <? length cands then Some cands else None.

(** ** A file that does not define the name *)

Definition SUGGESTION_CAP : nat := 5.

Record FileSelectorMiss := mkMiss { file_indexed : bool; elsewhere : list NameCandidate }.

Definition defined_nowhere (m : FileSelectorMiss) : bool := file_indexed m && bool_decide (elsewhere m = []).

Definition file_list (paths : list string) : option string :=
  let files := vec_dedup (sort_cmp String.compare paths) in
  if bool_decide (files = []) then None
  else
    let total := length files in
    let shown := take SUGGESTION_CAP files in
    Some (join ", " shown
          +:+ (if length shown <? total
               then " (" +:+ dec_of_nat (length shown) +:+ " of " +:+ dec_of_nat total +:+ " files)" else "")).

Definition miss_message (m : FileSelectorMiss) (name file_path : string) : string :=
  (if file_indexed m then "Symbol '" +:+ name +:+ "' not found in file '" +:+ file_path +:+ "'."
   else "File '" +:+ file_path +:+ "' not found in index. Check that the path is relative to the project root and the file has been indexed.")
  +:+ match file_list (nc_file_path <$> elsewhere m) with
      | Some files =>
          " " +:+ (if file_indexed m then "Defined in" else "'" +:+ name +:+ "' is defined in") +:+ ": " +:+ files
      | None => ""
      end.

Definition file_selector_miss (st : Store) (name file_path : string) : FileSelectorMiss :=
  mkMiss (file_is_indexed st file_path)
    (candidate_of_nwf <$> filter (λ nf, is_selectable_definition (nwf_file_path nf) = true ∧ nwf_file_path nf ≠ file_path)
                            (get_nodes_with_files_by_symbol st name)).

(** ** Spelling *)

Definition trim (s : string) : string :=
  encode (rev (drop_while is_whitespace (rev (drop_while is_whitespace (chars s))))).

Definition trim_symbol_arg (symbol : string) : string :=
  let trimmed := trim symbol in if String.eqb trimmed "" then symbol else trimmed.

(** [SELECT EXISTS(..)] *)
Definition stored (st : Store) (spelling : string) : bool :=
  existsb (λ nf, (String.eqb (node_name_of nf.1) spelling || bool_decide (qualified_of nf.1 = Some spelling))
                 && negb (is_external_file nf.2)) (node_files st).

Definition plain_segment (seg : string) : bool :=
  negb (forallb is_whitespace (chars seg)) && no_char ch_dot seg && no_char ":"%char seg.

(** The nested spellings tried for a dotted name: the member's, then the type's. *)
Definition nested_spellings (dotted : string) : list string :=
  let segments := split_on ch_dot dotted in
  match last segments with
  | Some member =>
      let path := removelast segments in
      filter (λ s, s ≠ dotted) [join "::" path +:+ "." +:+ member; join "::" segments]
  | None => []
  end.

Definition respell_dotted (st : Store) (dotted : string) : string :=
  if bool_decide (removelast (split_on ch_dot dotted) = []) || stored st dotted then dotted
  else default dotted
         (find (λ s, negb (bool_decide (get_nodes_with_files_by_qualified_name st s = []))) (nested_spellings dotted)).

Definition canonical_symbol_spelling (st : Store) (symbol : string) : string :=
  if contains "::" symbol then
    let path := default symbol (strip_prefix "::" symbol) in
    if negb (forallb plain_segment (split_colons path)) || stored st symbol then symbol
    else respell_dotted st (join "." (split_colons path))
  else respell_dotted st symbol.

(** ** Ambiguity messages *)

Inductive Surface := Cli | Mcp.

Definition spans_multiple_files (cands : list NameCandidate) : bool :=
  1 <? length (remove_dups (nc_file_path <$> cands)).

Definition suggestion_cap_note (n : nat) : string :=
  if SUGGESTION_CAP <? n
  then " Showing the first " +:+ dec_of_nat SUGGESTION_CAP +:+ " of " +:+ dec_of_nat n +:+ "." else "".

Definition ambiguity_message (name : string) (cands : list NameCandidate) (surface : Surface) : string :=
  let n := length cands in
  let capped := suggestion_cap_note n in
  let head := "Ambiguous symbol '" +:+ name +:+ "': " +:+ dec_of_nat n in
  if spans_multiple_files cands then
    match surface with
    | Cli => head +:+ " matches in different files. Specify --file to disambiguate." +:+ capped
    | Mcp => head +:+ " matches in different files. Specify file_path to disambiguate." +:+ capped
    end
  else
    let file := match cands with c :: _ => nc_file_path c | [] => "" end in
    let same := head +:+ " definitions in the same file (" +:+ file +:+ "). " in
    match surface with
    | Cli => same +:+ "A file selector cannot split them — pass one of the node_ids below as `--node-id <N>` (callgraph, impact, refs, show)." +:+ capped
    | Mcp => same +:+ "get_call_graph resolves by name and can't split same-file overloads — pass a node_id below to get_ast_node or find_references." +:+ capped
    end.

(** ** The fuzzy step *)

Definition external_only (st : Store) (name : string) : bool :=
  let rows := get_node_ids_by_name st name in
  negb (bool_decide (rows = [])) && forallb (λ r, String.eqb r.2 EXTERNAL_FILE_PATH) rows.

Inductive FuzzyResolution :=
| Unique (name : string)
| AmbiguousNames (candidates : list NameCandidate)
| NotFound.

Definition is_test_candidate (c : NameCandidate) : bool := is_test_symbol (nc_name c) (nc_file_path c).

Definition resolve_among (st : Store) (name : string) (found : list NameCandidate) : FuzzyResolution :=
  let selectable := filter (λ c, is_selectable_definition (nc_file_path c) = true) found in
  let candidates := filter (λ c, is_test_candidate c = false) selectable in
  let test_code := filter (λ c, is_test_candidate c = true) selectable in
  match filter (λ c, nc_name c = name) candidates with
  | [c] => Unique (nc_name c)
  | (_ :: _ :: _) as exact => AmbiguousNames exact
  | [] =>
      if existsb (λ c, String.eqb (nc_name c) name) test_code then NotFound
      else if external_only st name then NotFound
      else match candidates with
           | [] => NotFound
           | [c] => Unique (nc_name c)
           | _ => AmbiguousNames candidates
           end
  end.

Definition resolve_fuzzy `{U : Unicode} (like_esc : string → string → bool) (st : Store) (name : string)
    : option FuzzyResolution :=
  resolve_among st name <$> find_functions_by_fuzzy_name like_esc st name.

(** ** References of several targets *)

Record ReferenceRollup := mkRollup {
  refs : list IncomingReference;
  confidence_filtered : nat;
  test_filtered : nat;
  seen : gmap (Z * string) nat; (* the local map *)
}.

Definition with_confidence (c : string) (r : IncomingReference) : IncomingReference :=
  mkIncoming (ir_node_id r) (ir_name r) (ir_qualified_name r) (ir_node_type r) (ir_file_path r) (ir_start_line r)
    (ir_relation r) c (ir_is_test r).

(** The body of the loop; [refs[idx]] panics out of range. *)
Definition roll (min_confidence : option string) (skip_tests : bool) (acc : ReferenceRollup) (r : IncomingReference)
    : option ReferenceRollup :=
  if skip_tests && is_test_node (ir_is_test r) (ir_name r) (ir_file_path r)
  then Some (mkRollup (refs acc) (confidence_filtered acc) (S (test_filtered acc)) (seen acc))
  else if match min_confidence with
          | Some min => confidence_rank (ir_confidence r) <? confidence_rank min
          | None => false
          end
  then Some (mkRollup (refs acc) (S (confidence_filtered acc)) (test_filtered acc) (seen acc))
  else
    let key := (ir_node_id r, ir_relation r) in
    match seen acc !! key with
    | Some idx =>
        shown ← refs acc !! idx;
        Some (if confidence_rank (ir_confidence r) <? confidence_rank (ir_confidence shown)
              then mkRollup (<[idx := with_confidence (ir_confidence r) shown]> (refs acc))
                     (confidence_filtered acc) (test_filtered acc) (seen acc)
              else acc)
    | None => Some (mkRollup (refs acc ++ [r]) (confidence_filtered acc) (test_filtered acc)
                      (<[key := length (refs acc)]> (seen acc)))
    end.

Fixpoint roll_all (min_confidence : option string) (skip_tests : bool) (rows : list IncomingReference)
    (acc : ReferenceRollup) : option ReferenceRollup :=
  match rows with
  | [] => Some acc
  | r :: rows' => acc' ← roll min_confidence skip_tests acc r; roll_all min_confidence skip_tests rows' acc'
  end.

Definition rollup_incoming_references (like : string → string → bool) (st : Store) (target_ids : list Z)
    (relation_filter min_confidence : option string) (skip_tests : bool) : option ReferenceRollup :=
  roll_all min_confidence skip_tests
    (target_ids ≫= λ t, get_incoming_references like st t relation_filter) (mkRollup [] 0 0 ∅).

(** * Properties *)

(** ** Roll-up *)

Definition ref_key (r : IncomingReference) : Z * string := (ir_node_id r, ir_relation r).
Definition ref_rank (r : IncomingReference) : nat := confidence_rank (ir_confidence r).

Section Rollup.
Context (min_confidence : option string) (skip_tests : bool).

Definition skipped_test (r : IncomingReference) : bool :=
  skip_tests && is_test_node (ir_is_test r) (ir_name r) (ir_file_path r).
Definition below_floor (r : IncomingReference) : bool :=
  match min_confidence with Some m => ref_rank r <? confidence_rank m | None => false end.
Definition is_kept (r : IncomingReference) : bool := negb (skipped_test r) && negb (below_floor r).

Lemma dedup_from_snoc {A K} `{EqDecision K} (key : A → K) s (l : list A) x :
  dedup_from key s (l ++ [x]) = dedup_from key s l ++ (if decide (key x ∈ s ∨ key x ∈ key <$> l) then [] else [x]).
Proof.
  revert s. induction l as [|y l IH]; intros s; cbn [dedup_from app].
  - rewrite fmap_nil. rewrite (decide_ext (key x ∈ s ∨ key x ∈ []) (key x ∈ s))
      by (rewrite elem_of_nil; tauto). by case_decide.
  - rewrite fmap_cons. destruct (decide (key y ∈ s)) as [Hy|Hy]; rewrite IH; cbn [app]; repeat f_equal; apply decide_ext;
      rewrite !elem_of_cons; [|tauto]. clear IH. split; [tauto|]. intros [?|[->|?]]; auto.
Qed.

(** What the accumulator is after the rows [kept]. *)
Record roll_inv (kept : list IncomingReference) (acc : ReferenceRollup) : Prop := {
  ri_keys : ref_key <$> refs acc = ref_key <$> dedup_from ref_key [] kept;
  ri_seen k i : seen acc !! k = Some i ↔ ref_key <$> refs acc !! i = Some k;
  ri_low r : r ∈ kept → ∃ r', r' ∈ refs acc ∧ ref_key r' = ref_key r ∧ ref_rank r' ≤ ref_rank r;
  ri_from r' : r' ∈ refs acc → ∃ r0 r1, r0 ∈ kept ∧ r1 ∈ kept ∧ ref_key r0 = ref_key r1
    ∧ r' = with_confidence (ir_confidence r1) r0;
}.

Lemma with_own_confidence r : with_confidence (ir_confidence r) r = r.
Proof. by destruct r. Qed.
Lemma with_confidence_key c r : ref_key (with_confidence c r) = ref_key r.
Proof. done. Qed.

(** The row repeats a key: its confidence may lower the one shown. *)
Lemma roll_inv_known kept acc r idx shown :
  roll_inv kept acc → refs acc !! idx = Some shown → ref_key r = ref_key shown → ref_key r ∈ ref_key <$> kept.
Proof.
  intros [Hk _ _ _] Hi Hkey.
  assert (ref_key r ∈ ref_key <$> refs acc) as H by (rewrite Hkey; apply list_elem_of_fmap_2; by eapply list_elem_of_lookup_2).
  rewrite Hk in H. apply list_elem_of_fmap in H as (y & -> & [? _]%elem_of_dedup_from). by apply list_elem_of_fmap_2.
Qed.

Lemma dedup_known kept (r : IncomingReference) :
  ref_key r ∈ ref_key <$> kept → dedup_from ref_key [] (kept ++ [r]) = dedup_from ref_key [] kept.
Proof. intros Hin. rewrite dedup_from_snoc. case_decide as Hn; [apply app_nil_r|]. destruct Hn. by right. Qed.

Lemma roll_inv_from_weaken kept r x :
  (∃ r0 r1, r0 ∈ kept ∧ r1 ∈ kept ∧ ref_key r0 = ref_key r1 ∧ x = with_confidence (ir_confidence r1) r0) →
  ∃ r0 r1, r0 ∈ kept ++ [r] ∧ r1 ∈ kept ++ [r] ∧ ref_key r0 = ref_key r1 ∧ x = with_confidence (ir_confidence r1) r0.
Proof. intros (r0 & r1 & ? & ? & ? & ?). exists r0, r1. rewrite !elem_of_app. auto. Qed.

Lemma roll_inv_repeated kept acc r idx shown :
  roll_inv kept acc → refs acc !! idx = Some shown → ref_key r = ref_key shown → ref_rank shown ≤ ref_rank r →
  roll_inv (kept ++ [r]) acc.
Proof.
  intros Hinv Hi Hkey Hge. pose proof (roll_inv_known _ _ _ _ _ Hinv Hi Hkey) as Hin. destruct Hinv as [Hk Hs Hl Hf]. split; [|done| |].
  - by rewrite dedup_known.
  - intros x [Hx|Hx]%elem_of_app; [by apply Hl|]. apply list_elem_of_singleton in Hx as ->.
    exists shown. split; [by eapply list_elem_of_lookup_2|done].
  - intros x Hx. by apply roll_inv_from_weaken, Hf.
Qed.

Lemma roll_inv_lowered kept acc r idx shown cf tf :
  roll_inv kept acc → refs acc !! idx = Some shown → ref_key r = ref_key shown → ref_rank r < ref_rank shown →
  roll_inv (kept ++ [r]) (mkRollup (<[idx := with_confidence (ir_confidence r) shown]> (refs acc)) cf tf (seen acc)).
Proof.
  intros Hinv Hi Hkey Hlt. pose proof (roll_inv_known _ _ _ _ _ Hinv Hi Hkey) as Hin. destruct Hinv as [Hk Hs Hl Hf].
  set (shown' := with_confidence (ir_confidence r) shown).
  assert (shown' ∈ <[idx:=shown']> (refs acc)) as Hshown.
  { apply (list_elem_of_lookup_2 _ idx). apply list_lookup_insert_eq. by eapply lookup_lt_Some. }
  assert (ref_key <$> <[idx:=shown']> (refs acc) = ref_key <$> refs acc) as Hsame.
  { rewrite list_fmap_insert. apply list_insert_id. rewrite list_lookup_fmap, Hi. done. }
  split; cbn [refs seen].
  - by rewrite dedup_known, Hsame.
  - intros k i. rewrite Hs. rewrite <- !list_lookup_fmap. by rewrite Hsame.
  - intros x [Hx|Hx%list_elem_of_singleton]%elem_of_app; [|subst x; by exists shown'].
    destruct (Hl x Hx) as (x' & Hx' & Hxk & Hxr). apply list_elem_of_lookup_1 in Hx' as [j Hj].
    destruct (decide (j = idx)) as [->|Hne].
    + rewrite Hi in Hj. injection Hj as <-. exists shown'. split; [done|]. split; [done|].
      change (ref_rank shown') with (ref_rank r). lia.
    + exists x'. split; [|done]. apply (list_elem_of_lookup_2 _ j). by rewrite list_lookup_insert_ne.
  - intros x Hx. apply list_elem_of_lookup_1 in Hx as [j Hj]. destruct (decide (j = idx)) as [->|Hne].
    + rewrite list_lookup_insert_eq in Hj by (by eapply lookup_lt_Some). injection Hj as <-.
      destruct (Hf shown) as (r0 & r1 & H0 & H1 & H01 & Hsh); [by eapply list_elem_of_lookup_2|].
      exists r0, r. rewrite !elem_of_app, !list_elem_of_singleton. split; [by left|]. split; [by right|].
      split; [|unfold shown'; by rewrite Hsh]. rewrite Hkey, Hsh. done.
    + rewrite list_lookup_insert_ne in Hj by done. by eapply roll_inv_from_weaken, Hf, list_elem_of_lookup_2.
Qed.

(** The row brings a new key. *)
Lemma roll_seen_snoc {K} `{Countable K} (keys : list K) (m : gmap K nat) k0 k i :
  (∀ k i, m !! k = Some i ↔ keys !! i = Some k) → k0 ∉ keys →
  <[k0 := length keys]> m !! k = Some i ↔ (keys ++ [k0]) !! i = Some k.
Proof.
  intros Hs Hni. destruct (decide (k = k0)) as [->|Hne].
  - rewrite lookup_insert_eq. split; [intros [= <-]; by rewrite lookup_app_r, Nat.sub_diag by lia|].
    intros [Hl|[Hl Hi]]%lookup_app_Some; [destruct Hni; by eapply list_elem_of_lookup_2|].
    apply lookup_lt_Some in Hi. cbn in Hi. f_equal. lia.
  - rewrite lookup_insert_ne, Hs by done. rewrite lookup_app_Some. split; [by left|].
    intros [?|[_ Hi]]; [done|]. by apply list_elem_of_lookup_2, list_elem_of_singleton in Hi.
Qed.

Lemma roll_inv_added kept acc r cf tf :
  roll_inv kept acc → seen acc !! ref_key r = None →
  roll_inv (kept ++ [r]) (mkRollup (refs acc ++ [r]) cf tf (<[ref_key r := length (refs acc)]> (seen acc))).
Proof.
  intros [Hk Hs Hl Hf] Es. assert (ref_key r ∉ ref_key <$> refs acc) as Hni.
  { intros [j Hj]%list_elem_of_lookup_1. rewrite list_lookup_fmap in Hj. apply Hs in Hj. congruence. }
  assert (ref_key r ∉ ref_key <$> kept) as Hnk.
  { rewrite Hk in Hni. intros (y & Hy & Hin)%list_elem_of_fmap.
    destruct (dedup_from_covers ref_key [] kept y Hin) as [?%not_elem_of_nil|(z & Hz & Hzy)]; [done|].
    apply Hni. rewrite Hy, <- Hzy. by apply list_elem_of_fmap_2. }
  split; cbn [refs seen].
  - rewrite dedup_from_snoc, !fmap_app, Hk. case_decide as Hc; [|done].
    destruct Hc as [?%not_elem_of_nil|?]; done.
  - intros k i. rewrite <-list_lookup_fmap, fmap_app. cbn [fmap list_fmap].
    rewrite <-(length_fmap ref_key (refs acc)). apply roll_seen_snoc; [|done]. intros k' i'. by rewrite Hs, list_lookup_fmap.
  - intros x [Hx|Hx%list_elem_of_singleton]%elem_of_app.
    + destruct (Hl x Hx) as (x' & ? & ?). exists x'. rewrite elem_of_app. auto.
    + subst x. exists r. rewrite elem_of_app, list_elem_of_singleton. auto.
  - intros x [Hx|Hx%list_elem_of_singleton]%elem_of_app; [by apply roll_inv_from_weaken, Hf|].
    subst x. exists r, r. rewrite !elem_of_app, !list_elem_of_singleton. by rewrite with_own_confidence; auto.
Qed.

Lemma roll_kept kept acc r :
  roll_inv kept acc → is_kept r = true →
  ∃ acc', roll min_confidence skip_tests acc r = Some acc' ∧ roll_inv (kept ++ [r]) acc'
    ∧ confidence_filtered acc' = confidence_filtered acc ∧ test_filtered acc' = test_filtered acc.
Proof.
  intros Hinv [Ht%negb_true_iff Hb%negb_true_iff]%andb_true_iff.
  unfold roll. unfold skipped_test in Ht. rewrite Ht. unfold below_floor, ref_rank in Hb. rewrite Hb.
  fold (ref_key r). destruct (seen acc !! ref_key r) as [idx|] eqn:Es.
  - apply (ri_seen _ _ Hinv) in Es. apply fmap_Some in Es as (shown & Hi & Hkey). rewrite Hi. cbn [mbind option_bind].
    fold (ref_rank r) (ref_rank shown). destruct (Nat.ltb_spec (ref_rank r) (ref_rank shown)) as [Hlt|Hge];
      (eexists; split; [reflexivity|split; [|done]]); [by apply roll_inv_lowered|by eapply roll_inv_repeated].
  - eexists. split; [reflexivity|]. split; [by apply roll_inv_added|done].
Qed.

Lemma length_filter_snoc {A} (P : A → Prop) `{∀ x, Decision (P x)} (l : list A) x :
  length (filter P (l ++ [x])) = length (filter P l) + (if decide (P x) then 1 else 0).
Proof. rewrite filter_app, length_app, (filter_cons P x []). by case_decide. Qed.

Lemma roll_all_snoc rows r acc :
  roll_all min_confidence skip_tests (rows ++ [r]) acc =
  roll_all min_confidence skip_tests rows acc ≫= λ acc', roll min_confidence skip_tests acc' r.
Proof.
  revert acc. induction rows as [|x rows IH]; intros acc; cbn [roll_all app].
  - cbn [mbind option_bind]. by destruct (roll min_confidence skip_tests acc r).
  - destruct (roll min_confidence skip_tests acc x); cbn [mbind option_bind]; [apply IH|done].
Qed.

Lemma roll_all_ok rows :
  ∃ acc, roll_all min_confidence skip_tests rows (mkRollup [] 0 0 ∅) = Some acc
    ∧ roll_inv (filter (λ r, is_kept r = true) rows) acc
    ∧ test_filtered acc = length (filter (λ r, skipped_test r = true) rows)
    ∧ confidence_filtered acc = length (filter (λ r, skipped_test r = false ∧ below_floor r = true) rows).
Proof.
  induction rows as [|r rows (acc & Hr & Hinv & Ht & Hc)] using rev_ind.
  - eexists. split; [reflexivity|]. split; [|done]. split; try done.
    + by intros ? ?%not_elem_of_nil.
    + by intros ? ?%not_elem_of_nil.
  - rewrite roll_all_snoc, Hr. cbn [mbind option_bind].
    rewrite (filter_app (λ r, is_kept r = true)), !length_filter_snoc, <- Ht, <- Hc.
    destruct (is_kept r) eqn:Ek.
    + destruct (roll_kept _ acc r Hinv Ek) as (acc' & -> & Hinv' & Hc' & Ht'). exists acc'.
      unfold is_kept in Ek. apply andb_true_iff in Ek as [E1%negb_true_iff E2%negb_true_iff].
      rewrite filter_cons_True by (unfold is_kept; by rewrite E1, E2).
      rewrite E1, E2, decide_False, decide_False, !Nat.add_0_r by (done || by intros []). done.
    + rewrite filter_cons_False by (by rewrite Ek). rewrite (app_nil_r (filter _ rows)).
      unfold roll. fold (skipped_test r). unfold is_kept in Ek. destruct (skipped_test r) eqn:E1.
      * eexists. split; [reflexivity|]. rewrite decide_True, decide_False by (done || by intros []). simpl.
        split; [by destruct Hinv; split|]. lia.
      * fold (ref_rank r). destruct (below_floor r) eqn:E2; [|done]. unfold below_floor in E2. rewrite E2.
        eexists. split; [reflexivity|]. rewrite decide_False, decide_True by done. simpl.
        split; [by destruct Hinv; split|]. lia.
Qed.
End Rollup.

(** Rolling up the references of several targets never panics and hides
    nothing: every row is shown, folded into the row of its source and relation,
    or counted as a skipped test or as below the floor, a test first; each source
    and relation is shown once, in the order they were first seen, with the lowest
    confidence of the rows folded into it. *)
Theorem rollup_incoming_references_ok like st target_ids relation_filter min_confidence skip_tests :
  let rows := target_ids ≫= λ t, get_incoming_references like st t relation_filter in
  let kept := filter (λ r, is_kept min_confidence skip_tests r = true) rows in
  ∃ R, rollup_incoming_references like st target_ids relation_filter min_confidence skip_tests = Some R
    ∧ test_filtered R = length (filter (λ r, skipped_test skip_tests r = true) rows)
    ∧ confidence_filtered R
      = length (filter (λ r, skipped_test skip_tests r = false ∧ below_floor min_confidence r = true) rows)
    ∧ NoDup (ref_key <$> refs R)
    ∧ ref_key <$> refs R = ref_key <$> dedup_from ref_key [] kept
    ∧ (∀ r, r ∈ kept → ∃ r', r' ∈ refs R ∧ ref_key r' = ref_key r ∧ ref_rank r' ≤ ref_rank r)
    ∧ (∀ r', r' ∈ refs R → ∃ r0 r1, r0 ∈ kept ∧ r1 ∈ kept ∧ ref_key r0 = ref_key r1
         ∧ r' = with_confidence (ir_confidence r1) r0).
Proof.
  intros rows kept. unfold rollup_incoming_references. fold rows.
  destruct (roll_all_ok min_confidence skip_tests rows) as (R & -> & [Hk _ Hl Hf] & Ht & Hc). exists R.
  split; [done|]. split; [done|]. split; [done|]. split; [|done].
  rewrite Hk. apply NoDup_dedup_from.
Qed.

(** ** Qualified names *)

Lemma selectable_elem st q file nf :
  nf ∈ selectable_qualified_definitions st q file →
  nf ∈ in_scope st q file
  ∧ (file = None → is_production nf = false → ∀ nf', nf' ∈ in_scope st q file → is_production nf' = false).
Proof.
  unfold selectable_qualified_definitions. destruct file as [f|]; [done|].
  destruct (bool_decide _) eqn:E; [apply bool_decide_eq_true in E|].
  - intros [Hp Hin]%list_elem_of_filter. split; [done|]. intros _ _ nf' Hnf'.
    destruct (is_production nf') eqn:Ep; [|done].
    assert (nf' ∈ filter (λ nf, is_production nf = true) (in_scope st q None)) as H by by apply list_elem_of_filter.
    rewrite E in H. by apply not_elem_of_nil in H.
  - intros [Hp Hin]%list_elem_of_filter. split; [done|]. congruence.
Qed.

Lemma selectable_nil st q file : selectable_qualified_definitions st q file = [] ↔ in_scope st q file = [].
Proof.
  unfold selectable_qualified_definitions. destruct file as [f|]; [done|].
  split; [|intros ->; done].
  destruct (bool_decide _) eqn:E; [apply bool_decide_eq_true in E|by apply bool_decide_eq_false in E].
  intros Hn. destruct (in_scope st q None) as [|nf l] eqn:Es; [done|exfalso].
  destruct (is_production nf) eqn:Ep.
  - rewrite filter_cons_True in E by done. done.
  - rewrite filter_cons_True in Hn by done. done.
Qed.

(** A qualifier is never dropped while something carries it.  A dotted name
    that is the qualified name of definitions in scope selects them: the only
    one keeps the qualifier, several are refused with exactly those, and without
    a file test definitions count only when there is no other.  When nothing is
    so qualified, a file selector still never answers for the last part: the name
    is a node of that file or it is refused; without a file a node of the whole
    name may stand for it, and otherwise the last part is looked up.  A name
    without a dot is looked up as typed. *)
Theorem select_symbol_ok st raw file :
  let scope := in_scope st raw file in
  (contains "." raw = true → scope ≠ [] →
     match select_symbol st raw file with
     | Ok s => s = mkSelection raw (last_part raw) file ExactQualified
     | Err (Ambiguous cs) => 2 ≤ length cs ∧ ∀ c, c ∈ cs → ∃ nf, nf ∈ scope ∧ c = candidate_of_nwf nf
         ∧ (file = None → is_production nf = false → ∀ nf', nf' ∈ scope → is_production nf' = false)
     | Err QualifiedNotFound => False
     end)
  ∧ (contains "." raw = true → scope = [] → ∀ f, file = Some f →
     select_symbol st raw file =
     (if bool_decide (named st raw (Some f) = []) then Err QualifiedNotFound
      else Ok (mkSelection raw raw file Bare)))
  ∧ (contains "." raw = true → scope = [] → file = None →
     select_symbol st raw file =
     (if named_as_typed st raw None then Ok (mkSelection raw raw file Bare)
      else Ok (mkSelection (last_part raw) (last_part raw) file Bare)))
  ∧ (contains "." raw = false → select_symbol st raw file = Ok (mkSelection raw (last_part raw) file Bare)).
Proof.
  intros scope. unfold select_symbol. split; [|split; [|split]].
  - intros -> Hne. pose proof (selectable_elem st raw file) as Hel. pose proof (selectable_nil st raw file) as Hnil.
    destruct (selectable_qualified_definitions st raw file) as [|nf [|nf' l]]; [by destruct Hne; apply Hnil|done|].
    split; [simpl; lia|]. intros c (x & -> & Hx)%list_elem_of_fmap. destruct (Hel x Hx) as [? ?]. by exists x.
  - intros -> Hs f ->. apply selectable_nil in Hs. rewrite Hs. unfold named_as_typed. by destruct (bool_decide _).
  - intros -> Hs ->. apply selectable_nil in Hs. by rewrite Hs.
  - by intros ->.
Qed.

(** ** Bare names *)

(** The definitions of a bare name are exactly the ones a user can mean: those
    outside the external file whose test rule matches the tier, without headings
    beside any other definition, and without the constructors of a type of that
    name; a name is ambiguous when two or more are left, so a test, a heading, an
    external import or a constructor never makes one ambiguous. *)
Theorem definitions_in_tier_ok st name test_code :
  let with_files := get_nodes_with_files_by_symbol st name in
  let tier nf := nf ∈ with_files ∧ nwf_file_path nf ≠ EXTERNAL_FILE_PATH
                 ∧ is_test_symbol (node_name_of (nwf_node nf)) (nwf_file_path nf) = test_code in
  (∀ c, c ∈ definitions_in_tier st name test_code ↔
     (∃ nf, tier nf ∧ c = candidate_of_nwf nf)
     ∧ (nc_node_type c ∈ HEADINGS → ∀ nf, tier nf → type_of (nwf_node nf) ∈ HEADINGS)
     ∧ (∀ nf, nf ∈ with_files → node_id_of (nwf_node nf) = nc_node_id c → is_constructor with_files nf = false))
  ∧ (detect_ambiguity st name
     = if decide (2 ≤ length (preferred_definitions st name)) then Some (preferred_definitions st name) else None).
Proof.
  intros with_files tier. split.
  - intros c. unfold definitions_in_tier. fold with_files.
    set (cs := candidate_of_nwf <$> filter (λ nf, in_tier test_code nf = true) with_files).
    assert (∀ c, c ∈ cs ↔ ∃ nf, tier nf ∧ c = candidate_of_nwf nf) as Hcs.
    { intros c'. unfold cs, tier. rewrite list_elem_of_fmap. setoid_rewrite list_elem_of_filter.
      unfold in_tier, is_selectable_definition.
      setoid_rewrite andb_true_iff. setoid_rewrite negb_true_iff. setoid_rewrite String.eqb_neq.
      setoid_rewrite Bool.eqb_true_iff. split; intros (nf & ?); exists nf; tauto. }
    rewrite list_elem_of_filter. unfold drop_headings, is_heading.
    assert (c ∈ (if existsb (λ c, negb (bool_decide (nc_node_type c ∈ HEADINGS))) cs
                 then filter (λ c, bool_decide (nc_node_type c ∈ HEADINGS) = false) cs else cs)
            ↔ c ∈ cs ∧ (nc_node_type c ∈ HEADINGS → ∀ nf, tier nf → type_of (nwf_node nf) ∈ HEADINGS)) as ->.
    { destruct (existsb _ cs) eqn:E.
      - rewrite list_elem_of_filter, bool_decide_eq_false. split; [intros [? ?]; split; [done|by intros ?]|].
        intros [Hc Hh]. split; [|done]. intros Hc'. apply existsb_exists in E as (d & Hd%list_elem_of_In & Hnh).
        apply negb_true_iff, bool_decide_eq_false in Hnh. apply Hnh. apply Hcs in Hd as (nf & Hnf & ->).
        by apply (Hh Hc').
      - split; [|tauto]. intros Hc. split; [done|]. intros _ nf Hnf.
        destruct (decide (type_of (nwf_node nf) ∈ HEADINGS)) as [|Hn]; [done|exfalso].
        assert (existsb (λ c, negb (bool_decide (nc_node_type c ∈ HEADINGS))) cs = true) as H; [|by rewrite H in E].
        apply existsb_exists. exists (candidate_of_nwf nf). rewrite <- list_elem_of_In. split; [apply Hcs; eauto|].
        by apply negb_true_iff, bool_decide_eq_false. }
    assert (nc_node_id c ∉ constructor_ids with_files ↔
      ∀ nf, nf ∈ with_files → node_id_of (nwf_node nf) = nc_node_id c → is_constructor with_files nf = false) as Hctor.
    { unfold constructor_ids. rewrite list_elem_of_fmap. setoid_rewrite list_elem_of_filter. split.
      - intros H nf Hnf Hid. destruct (is_constructor with_files nf) eqn:E; [|done]. destruct H. by exists nf.
      - intros H (nf & Hid & Hc & Hnf). by rewrite H in Hc. }
    rewrite Hctor, Hcs. tauto.
  - unfold detect_ambiguity. destruct (Nat.ltb_spec 1 (length (preferred_definitions st name)));
      destruct (decide _); try done; lia.
Qed.

(** ** The fuzzy step *)

Lemma find_total `{U : Unicode} like_esc st name : ∃ rs, find_functions_by_fuzzy_name like_esc st name = Some rs
  ∧ (∀ h rest, like_candidates like_esc st name = h :: rest → rs = h :: rest).
Proof.
  destruct (like_candidates like_esc st name) as [|h rest] eqn:E.
  - destruct (fuzzy_fallback like_esc st name E) as (rs & -> & _). by exists rs.
  - exists (h :: rest). unfold find_functions_by_fuzzy_name. rewrite E. split; [done|]. by intros h' rest' [= <- <-].
Qed.

(** C26: The fuzzy step always answers, never answers for a near name when the
    project has a node of the name asked, test code included, and a list of
    candidates holds two or more production definitions, all of the exact name
    if one has it. *)
Theorem resolve_fuzzy_ok `{U : Unicode} like_esc st name :
  SqlLike like_esc → is_str name →
  let exact := ∃ nf, nf ∈ node_files st ∧ nameable nf = true ∧ node_name_of nf.1 = name in
  ∃ r, resolve_fuzzy like_esc st name = Some r
    ∧ match r with
      | Unique m => exact → m = name
      | AmbiguousNames cs =>
          2 ≤ length cs
          ∧ (∀ c, c ∈ cs → is_test_candidate c = false ∧ nc_file_path c ≠ EXTERNAL_FILE_PATH)
          ∧ (exact → ∀ c, c ∈ cs → nc_name c = name)
      | NotFound => True
      end.
Proof.
  intros Hlike Hname exact. unfold resolve_fuzzy.
  destruct (find_total like_esc st name) as (rs & -> & Hhead). eexists. split; [reflexivity|].
  assert (exact → ∃ h, h ∈ rs ∧ nc_name h = name ∧ is_selectable_definition (nc_file_path h) = true) as Hex.
  { intros (nf & Hnf & Hp & Hn).
    destruct (exact_leads like_esc st name nf) as (h & rest & Heq & Hh); [done..|].
    rewrite (Hhead _ _ Heq). exists h. split; [left|]. split; [by rewrite Hh|].
    assert (h ∈ like_candidates like_esc st name) as Hin by (rewrite Heq; left).
    apply elem_of_like_candidates, elem_of_hits in Hin as (nf' & _ & -> & _ & Hp').
    unfold nameable in Hp'. apply andb_true_iff in Hp' as [_ Hp']. exact Hp'. }
  unfold resolve_among. set (selectable := filter (λ c, is_selectable_definition (nc_file_path c) = true) rs).
  set (cands := filter (λ c, is_test_candidate c = false) selectable).
  set (tests := filter (λ c, is_test_candidate c = true) selectable).
  assert (∀ c, c ∈ cands → is_test_candidate c = false ∧ nc_file_path c ≠ EXTERNAL_FILE_PATH) as Hc.
  { intros c [Ht [Hs _]%list_elem_of_filter]%list_elem_of_filter. split; [done|].
    by apply negb_true_iff, String.eqb_neq in Hs. }
  assert (∀ c, c ∈ filter (λ c, nc_name c = name) cands → c ∈ cands ∧ nc_name c = name) as He
    by (intros c [? ?]%list_elem_of_filter; done).
  destruct (filter (λ c, nc_name c = name) cands) as [|c [|c' l]] eqn:Ef.
  - assert (exact → existsb (λ c, String.eqb (nc_name c) name) tests = true) as Ht.
    { intros (h & Hin & Hh & Hs)%Hex. apply existsb_exists. exists h. rewrite <- list_elem_of_In.
      split; [|by apply String.eqb_eq]. apply list_elem_of_filter. split; [|by apply list_elem_of_filter].
      destruct (is_test_candidate h) eqn:E; [done|exfalso].
      assert (h ∈ filter (λ c, nc_name c = name) cands) as H.
      { apply list_elem_of_filter. split; [done|]. apply list_elem_of_filter. split; [done|]. by apply list_elem_of_filter. }
      rewrite Ef in H. by apply not_elem_of_nil in H. }
    destruct (existsb _ tests) eqn:E; [done|]. destruct (external_only st name); [done|].
    destruct cands as [|c [|c' l]]; [done| |].
    + by intros ?%Ht.
    + split; [simpl; lia|]. split; [done|]. by intros ?%Ht.
  - intros _. by apply (He c); left.
  - split; [simpl; lia|]. split; [intros d Hd; by apply Hc, He|]. intros _ d Hd. by apply He.
Qed.

(** ** Spelling *)

Lemma qualified_is_stored st s : get_nodes_with_files_by_qualified_name st s ≠ [] → stored st s = true.
Proof.
  intros H. destruct (get_nodes_with_files_by_qualified_name st s) as [|x l] eqn:E; [done|].
  assert (x ∈ get_nodes_with_files_by_qualified_name st s) as Hx by (rewrite E; left).
  unfold get_nodes_with_files_by_qualified_name in Hx.
  apply list_elem_of_fmap in Hx as (nf & -> & [(Hq & Hex & _) Hin]%list_elem_of_filter).
  unfold stored. apply existsb_exists. exists nf. rewrite <- list_elem_of_In. split; [done|].
  rewrite Hex, andb_true_r. apply orb_true_iff. right. by apply bool_decide_eq_true.
Qed.

Lemma respell_cases st d : respell_dotted st d = d ∨ stored st (respell_dotted st d) = true.
Proof.
  unfold respell_dotted. destruct (_ || _); [by left|].
  destruct (find _ (nested_spellings d)) as [x|] eqn:E; [right|by left].
  apply find_some in E as [_ E]. simpl. apply negb_true_iff, bool_decide_eq_false in E. by apply qualified_is_stored.
Qed.

Lemma respell_stored st d : stored st d = true → respell_dotted st d = d.
Proof. intros H. unfold respell_dotted. by rewrite H, orb_true_r. Qed.

Lemma plain_no_colons path :
  forallb plain_segment (split_colons path) = true → contains "::" (join "." (split_colons path)) = false.
Proof.
  intros H. assert (Forall (λ w, no_char ":"%char w = true) (split_colons path)) as Hf.
  { rewrite forallb_forall in H. apply Forall_forall. intros w Hw%list_elem_of_In.
    specialize (H w Hw). unfold plain_segment in H. by apply andb_true_iff in H as [_ ?]. }
  clear H. generalize dependent (split_colons path). intros l Hf.
  assert (no_char ":"%char (join "." l) = true) as Hn.
  { induction Hf as [|w [|w' l] Hw Hf IH]; [done|done|]. rewrite join_cons by done.
    unfold no_char in *. rewrite !str_forall_app, Hw, IH. done. }
  destruct (contains "::" (join "." l)) eqn:E; [exfalso|done].
  apply contains_spec in E as (a & b & E). rewrite E in Hn.
  change ("::" +:+ b) with (String ":"%char (":" +:+ b)) in Hn. by rewrite no_char_sep in Hn.
Qed.

(** A spelling the index holds is never rewritten, a rewritten spelling is
    either one the index holds or the dotted form of a plain path, and the
    canonical spelling is its own canonical spelling. *)
Theorem canonical_symbol_spelling_ok st symbol :
  let canonical := canonical_symbol_spelling st symbol in
  (stored st symbol = true → canonical = symbol)
  ∧ (canonical = symbol ∨ stored st canonical = true
     ∨ canonical = join "." (split_colons (default symbol (strip_prefix "::" symbol))))
  ∧ canonical_symbol_spelling st canonical = canonical.
Proof.
  intros canonical.
  assert (∀ s, stored st s = true → canonical_symbol_spelling st s = s) as Hst.
  { intros s Hs. unfold canonical_symbol_spelling. rewrite Hs, orb_true_r. rewrite respell_stored by done.
    by destruct (contains "::" s). }
  assert (∀ d, contains "::" d = false → canonical_symbol_spelling st (respell_dotted st d) = respell_dotted st d) as Hre.
  { intros d Hd. destruct (respell_cases st d) as [E|E]; [|by apply Hst].
    rewrite E. unfold canonical_symbol_spelling. by rewrite Hd. }
  split; [by apply Hst|]. unfold canonical. clear canonical. unfold canonical_symbol_spelling at 1 2 3 5 6.
  destruct (contains "::" symbol) eqn:Ec.
  - set (path := default symbol (strip_prefix "::" symbol)).
    destruct (forallb plain_segment (split_colons path)) eqn:Ep; simpl.
    + destruct (stored st symbol) eqn:Es; [split; [by left|by apply Hst]|].
      split; [|by apply Hre, plain_no_colons].
      destruct (respell_cases st (join "." (split_colons path))) as [E|E]; auto.
    + split; [by left|]. unfold canonical_symbol_spelling. rewrite Ec. fold path. by rewrite Ep.
  - split; [destruct (respell_cases st symbol); auto|by apply Hre].
Qed.

#[local] Existing Instance ascii_unicode.

Lemma resolve_fuzzy_ok_witness :
  let exact := ∃ nf, nf ∈ node_files demo_store ∧ nameable nf = true ∧ node_name_of nf.1 = "f" in
  ∃ r, resolve_fuzzy like_esc_model demo_store "f" = Some r
    ∧ match r with
      | Unique m => exact → m = "f"
      | AmbiguousNames cs =>
          2 ≤ length cs
          ∧ (∀ c, c ∈ cs → is_test_candidate c = false ∧ nc_file_path c ≠ EXTERNAL_FILE_PATH)
          ∧ (exact → ∀ c, c ∈ cs → nc_name c = "f")
      | NotFound => True
      end.
Proof. apply (resolve_fuzzy_ok like_esc_model demo_store "f"); [apply sql_like_model|by apply is_str_ascii]. Defined.

(** Rust and C++ spellings reach the stored one; an unindexed name keeps its
    plain form; a broken path is left alone. *)
Definition spelling_store : Store :=
  exec_ops
    [UpsertFile 0 (mkFileRecord "a.cc" "h" 0 (Some "cpp"));
     InsertNode (mkNodeRecord 1 "method" "Seek" (Some "Block::Iter.Seek") 1 2 "" None None None None None None false)]
    empty_store.
Example spelling_test :
  canonical_symbol_spelling spelling_store "Block::Iter::Seek" = "Block::Iter.Seek"
  ∧ canonical_symbol_spelling spelling_store "Block.Iter.Seek" = "Block::Iter.Seek"
  ∧ canonical_symbol_spelling spelling_store "::A::b" = "A.b"
  ∧ canonical_symbol_spelling spelling_store "Flask::" = "Flask::"
  ∧ trim_symbol_arg " DBImpl::Write " = "DBImpl::Write".
Proof. by vm_compute. Qed.
