(* ===== verification/AstSearch.v ===== *)
(** * Structural search ([search/ast_query.rs])

    The shared core of [ast_search] and [ast-search]: the full-text pool with the
    filters applied in Rust, the name-substring retry and the filter-only path,
    with the accounting and the hints that go with an answer. *)

From S2P Require Import Prelude Str Utf8 Tokens Sql Domain Tables Store Queries Search.

Record AstSearchParams := mkParams {
  query : option string;
  type_filter : option string;
  returns_filter : option string;
  params_filter : option string;
  limit : nat;
}.

Record AstSearchOutcome := mkAstOutcome {
  results : list NodeWithFile;
  fts_empty : bool;
  dropped_by_filter : nat;
  matched_total : option nat;
  truncated : bool;
  pool_saturated : bool;
  fetch_count : Z;
  fallback_used : bool;
}.

Inductive HintStyle := CliHints | McpHints.

Definition MAX_LIMIT : nat := 100.

Definition limit_remedy (s : HintStyle) (limit : nat) : string :=
  let n := dec_of_nat limit in
  if MAX_LIMIT <=? limit then
    match s with
    | CliHints => "--limit " +:+ n +:+ ", the maximum — narrow the query or add --type/--returns/--params to reach the rest."
    | McpHints => "limit=" +:+ n +:+ ", the maximum — narrow `query` or add type/returns/params filters to reach the rest."
    end
  else
    match s with
    | CliHints => "--limit " +:+ n +:+ " — raise --limit to see the rest."
    | McpHints => "limit=" +:+ n +:+ " — raise `limit` to see the rest."
    end.

(** [rows] is a fetch count, which is positive. *)
Definition broaden_remedy (s : HintStyle) (rows : Z) : string :=
  "The candidate pool was full (" +:+ dec_of_N (Z.to_N rows) +:+ " rows), so matches may exist below it. Narrow the query, raise "
  +:+ match s with
      | CliHints => "--limit, or drop the query and enumerate with the filters alone."
      | McpHints => "`limit`, or drop `query` and enumerate with the filters alone."
      end.

Definition hints (o : AstSearchOutcome) (query : option string) (limit : nat) (style : HintStyle) : list string :=
  (if bool_decide (results o = []) && (0 <? dropped_by_filter o)
   then [if pool_saturated o then broaden_remedy style (fetch_count o)
         else "The index has no symbol matching both the query and the filter. Broaden or clear the filter."]
   else [])
  ++ (if truncated o
      then [match matched_total o with
            | Some total => dec_of_nat total +:+ " symbols matched but " +:+ limit_remedy style limit
            | None => "More symbols matched than " +:+ limit_remedy style limit
            end]
      else [])
  ++ (if fallback_used o
      then ["FTS rank had no '" +:+ default "" query +:+ "' under the active filter; falling back to name-substring match."]
      else []).

Definition empty_outcome (fts_empty : bool) (fetch_count : Z) : AstSearchOutcome :=
  mkAstOutcome [] fts_empty 0 (Some 0) false false fetch_count false.

(** [usize::MAX] *)
Definition USIZE_MAX : Z := 2 ^ 64 - 1.

Section AstSearch.
Context `{U : Unicode} (glob like like_esc : string → string → bool) (sql_lower : string → string).
Context (match_rows : Store → string → list (NodeResult * Fusion.f64)) (st : Store).

Definition is_identifier_like (s : string) : bool :=
  negb (String.eqb s "") && forallb (λ c, is_alphanumeric c || (c =? UNDERSCORE)%Z) (chars s).

Definition has_filters (p : AstSearchParams) : bool :=
  bool_decide (is_Some (type_filter p)) || bool_decide (is_Some (returns_filter p))
  || bool_decide (is_Some (params_filter p)).

Definition wanted_types (p : AstSearchParams) : option (list string) :=
  normalize_type_filter to_lowercase <$> type_filter p.

Definition column_matches (f : option string) (column : option string) : bool :=
  match f with
  | None => true
  | Some f => match column with Some t => contains (to_lowercase f) (to_lowercase t) | None => false end
  end.

Definition is_skipped (nwf : NodeWithFile) : bool :=
  let n := nwf_node nwf in
  is_skippable_result (n_is_test (nr_node n)) (type_of n) (node_name_of n) (nwf_file_path nwf).

Definition passes (p : AstSearchParams) (nwf : NodeWithFile) : bool :=
  let n := nwf_node nwf in
  match wanted_types p with Some types => existsb (String.eqb (type_of n)) types | None => true end
  && column_matches (returns_filter p) (nr_return_type n)
  && column_matches (params_filter p) (nr_param_types n).

(** The loop over the pool: [(dropped_by_filter, survivors)]. *)
Definition filter_step (p : AstSearchParams) (acc : nat * list NodeWithFile) (nwf : NodeWithFile) : nat * list NodeWithFile :=
  if is_skipped nwf then acc
  else if passes p nwf then (acc.1, acc.2 ++ [nwf]) else (S acc.1, acc.2).

Definition rank_of (node_ids : list Z) (nwf : NodeWithFile) : Z :=
  default USIZE_MAX (hash_map (imap (λ i id, (id, Z.of_nat i)) node_ids) !! node_id_of (nwf_node nwf)).

(** The pool in rank order. *)
Definition ranked_pool (node_ids : list Z) : list NodeWithFile :=
  sort_cmp (cmp_by (rank_of node_ids) Z.compare) (get_nodes_with_files_by_ids st node_ids).

(** One row past [limit] tells whether there are more. *)
Definition by_filters (p : AstSearchParams) (name_filter : option string) : list NodeWithFile * bool :=
  let rows := get_nodes_with_files_by_filters glob like like_esc sql_lower st (wanted_types p) (returns_filter p)
                (params_filter p) name_filter (S (limit p)) in
  (take (limit p) rows, limit p <? length rows).

Definition name_substring_lookup (p : AstSearchParams) (q : string) := by_filters p (Some q).

Definition filter_only (p : AstSearchParams) : AstSearchOutcome :=
  let '(rows, more) := by_filters p None in
  mkAstOutcome rows false 0 None more false 0 false.

Definition run (p : AstSearchParams) : AstSearchOutcome :=
  match query p with
  | None => filter_only p
  | Some q =>
      let fetch := search_fetch_count (Z.of_nat (limit p)) (has_filters p) in
      let found := nodes (fts5_search like_esc match_rows st q fetch) in
      if bool_decide (found = []) then empty_outcome true fetch
      else
        let saturated := (fetch <=? Z.of_nat (length found))%Z in
        let '(dropped, survivors) := foldl (filter_step p) (0, []) (ranked_pool (node_id_of <$> found)) in
        let plain := mkAstOutcome (take (limit p) survivors) false dropped (Some (length survivors))
                       (limit p <? length survivors) saturated fetch false in
        if bool_decide (take (limit p) survivors = []) && bool_decide (is_Some (type_filter p)) && is_identifier_like q
        then let '(rows, more) := name_substring_lookup p q in
             if bool_decide (rows = []) then plain
             else mkAstOutcome rows false dropped None more saturated fetch true
        else plain
  end.
End AstSearch.

(** * Properties *)

Section Props.
Context `{U : Unicode} (glob like like_esc : string → string → bool) (sql_lower : string → string).
Context (match_rows : Store → string → list (NodeResult * Fusion.f64)) (st : Store).

Lemma filter_loop p pool :
  foldl (filter_step p) (0, []) pool =
  (length (filter (λ r, is_skipped r = false ∧ passes p r = false) pool),
   filter (λ r, is_skipped r = false ∧ passes p r = true) pool).
Proof.
  induction pool as [|r pool IH] using rev_ind; [done|].
  rewrite foldl_snoc, IH, !(filter_app _ pool), length_app. unfold filter_step.
  destruct (is_skipped r) eqn:Es; [|destruct (passes p r) eqn:Ep].
  - rewrite !filter_cons_False by (rewrite Es; by intros []). simpl. by rewrite Nat.add_0_r, app_nil_r.
  - rewrite filter_cons_False by (rewrite Ep; by intros []). rewrite filter_cons_True by done.
    simpl. by rewrite Nat.add_0_r.
  - rewrite filter_cons_True by done. rewrite filter_cons_False by (rewrite Ep; by intros []).
    simpl. by rewrite Nat.add_1_r, app_nil_r.
Qed.

Lemma ranked_pool_elem ids r : r ∈ ranked_pool st ids → ∃ nf, nf ∈ node_files st ∧ r = with_file nf.
Proof.
  unfold ranked_pool, sort_cmp, get_nodes_with_files_by_ids, in_chunks. rewrite elem_of_sort_by, list_elem_of_join.
  intros (l & Hr & (c & -> & _)%list_elem_of_fmap).
  apply list_elem_of_fmap in Hr as (nf & -> & [_ ?]%list_elem_of_filter). by exists nf.
Qed.

Lemma ranked_pool_sorted ids : StronglySorted (λ a b, (rank_of ids a ≤ rank_of ids b)%Z) (ranked_pool st ids).
Proof.
  unfold ranked_pool. pose proof (sort_cmp_sorted (cmp_by (rank_of ids) Z.compare)
    (get_nodes_with_files_by_ids st ids)) as Hs.
  induction Hs as [|a l Hl IH Ha]; [constructor|]. constructor; [done|].
  eapply Forall_impl; [exact Ha|]. intros b. simpl. unfold cmp_leb, cmp_by.
  destruct (Z.compare_spec (rank_of ids a) (rank_of ids b)); try done; lia.
Qed.

Lemma by_filters_ok p q :
  let '(rows, more) := by_filters glob like like_esc sql_lower st p q in
  length rows ≤ limit p
  ∧ (more = true → length rows = limit p)
  ∧ ∀ r, r ∈ rows → ∃ nf, nf ∈ node_files st ∧ r = with_file nf
      ∧ filters_hold glob like like_esc sql_lower (wanted_types p) (returns_filter p) (params_filter p) q nf = true.
Proof.
  unfold by_filters. cbn zeta. rewrite length_take. split; [lia|]. split; [intros ?%Nat.ltb_lt; lia|].
  intros r (i & Hi & _)%elem_of_take. apply list_elem_of_lookup_2 in Hi.
  unfold get_nodes_with_files_by_filters in Hi. apply elem_of_take in Hi as (j & Hj & _).
  apply list_elem_of_lookup_2, list_elem_of_fmap in Hj as (nf & -> & Hnf).
  unfold sort_cmp in Hnf. rewrite elem_of_sort_by in Hnf. apply list_elem_of_filter in Hnf as [? ?]. eauto.
Qed.

(** The four ways out of [run]. *)
Lemma run_cases p :
  let o := run glob like like_esc sql_lower match_rows st p in
  (query p = None ∧ ∃ rows more, by_filters glob like like_esc sql_lower st p None = (rows, more)
     ∧ o = mkAstOutcome rows false 0 None more false 0 false)
  ∨ ∃ q, query p = Some q ∧ let fetch := search_fetch_count (Z.of_nat (limit p)) (has_filters p) in
      let pool := ranked_pool st (node_id_of <$> nodes (fts5_search like_esc match_rows st q fetch)) in
      let dropped := length (filter (λ r, is_skipped r = false ∧ passes p r = false) pool) in
      let survivors := filter (λ r, is_skipped r = false ∧ passes p r = true) pool in
      o = empty_outcome true fetch
      ∨ (∃ sat, o = mkAstOutcome (take (limit p) survivors) false dropped (Some (length survivors))
                      (limit p <? length survivors) sat fetch false)
      ∨ (∃ rows more sat, by_filters glob like like_esc sql_lower st p (Some q) = (rows, more) ∧ rows ≠ []
           ∧ o = mkAstOutcome rows false dropped None more sat fetch true).
Proof.
  unfold run. destruct (query p) as [q|]; [right; exists q; split; [done|]|left; split; [done|]].
  - cbn zeta. destruct (bool_decide _); [by left|right]. rewrite filter_loop.
    destruct (_ && _); [|left; by eexists]. unfold name_substring_lookup.
    destruct (by_filters glob like like_esc sql_lower st p (Some q)) as [rows more].
    destruct (bool_decide (rows = [])) eqn:E; [left; by eexists|right].
    apply bool_decide_eq_false in E. by eexists _, _, _.
  - unfold filter_only. destruct (by_filters glob like like_esc sql_lower st p None) as [rows more]. by eexists _, _.
Qed.

Lemma pool_partition p pool :
  length pool = length (filter (λ r, is_skipped r = false ∧ passes p r = true) pool)
    + length (filter (λ r, is_skipped r = false ∧ passes p r = false) pool)
    + length (filter (λ r, is_skipped r = true) pool).
Proof.
  induction pool as [|r pool IH]; [done|]. rewrite !filter_cons.
  destruct (is_skipped r), (passes p r); repeat case_decide; simpl; try lia; naive_solver lia.
Qed.

(** The conditions of the caller. *)
Definition wanted (p : AstSearchParams) (o : AstSearchOutcome) (nf : NodeResult * FileEntry) : Prop :=
  if bool_decide (query p = None) || fallback_used o
  then filters_hold glob like like_esc sql_lower (wanted_types p) (returns_filter p) (params_filter p)
         (if fallback_used o then query p else None) nf = true
  else is_skipped (with_file nf) = false ∧ passes p (with_file nf) = true.
End Props.

(** A structural search never shows more than [limit] symbols, and every one
    is an indexed node that meets the filters and is no placeholder, import
    sentinel or test.  An exact total is the number of matches, says truthfully
    whether some were cut, and with what the filters dropped and what is never
    shown accounts for the whole pool; without a total, "more" means the limit is
    full.  Matches of a query keep their rank order; and whenever something is
    withheld or answered by the substring retry there is a hint. *)
Theorem run_ok `{U : Unicode} glob like like_esc sql_lower match_rows st p style :
  let o := run glob like like_esc sql_lower match_rows st p in
  length (results o) ≤ limit p
  ∧ (∀ r, r ∈ results o → ∃ nf, nf ∈ node_files st ∧ r = with_file nf ∧ wanted glob like like_esc sql_lower p o nf)
  ∧ (∀ n, matched_total o = Some n → truncated o = bool_decide (limit p < n) ∧ length (results o) = Nat.min (limit p) n)
  ∧ (matched_total o = None → truncated o = true → length (results o) = limit p)
  ∧ (∀ q n, query p = Some q → fts_empty o = false → matched_total o = Some n →
       let ids := node_id_of <$> nodes (fts5_search like_esc match_rows st q (fetch_count o)) in
       let pool := ranked_pool st ids in
       length pool = n + dropped_by_filter o + length (filter (λ r, is_skipped r = true) pool)
       ∧ StronglySorted (λ a b, (rank_of ids a ≤ rank_of ids b)%Z) (results o))
  ∧ (truncated o = true ∨ fallback_used o = true ∨ (results o = [] ∧ dropped_by_filter o ≠ 0) →
       hints o (query p) (limit p) style ≠ []).
Proof.
  intros o.
  assert (∀ o', truncated o' = true ∨ fallback_used o' = true ∨ (results o' = [] ∧ dropped_by_filter o' ≠ 0) →
            hints o' (query p) (limit p) style ≠ []) as Hh.
  { intros o' H Hn. unfold hints in Hn. apply app_nil in Hn as [Hn1 Hn]. apply app_nil in Hn as [Hn2 Hn3].
    destruct H as [H|[H|[H1 H2]]]; [by rewrite H in Hn2|by rewrite H in Hn3|].
    rewrite bool_decide_eq_true_2 in Hn1 by done. simpl in Hn1.
    destruct (Nat.ltb_spec 0 (dropped_by_filter o')); [done|lia]. }
  specialize (Hh o).
  destruct (run_cases glob like like_esc sql_lower match_rows st p)
    as [(Hq & rows & more & Hrows & Ho)|(q & Hq & [Ho|[(sat & Ho)|(rows & more & sat & Hrows & Hne & Ho)]])];
    fold o in Ho.
  - pose proof (by_filters_ok glob like like_esc sql_lower st p None) as Hb. rewrite Hrows in Hb.
    destruct Hb as (Hl & Hm & Hin). unfold wanted. rewrite Ho in *. cbn in *. rewrite Hq.
    split; [done|]. split; [|split; [done|split; [auto|split; [done|done]]]].
    intros r Hr. destruct (Hin r Hr) as (nf & ? & ? & ?). by exists nf.
  - unfold wanted. rewrite Ho in *. cbn in *. split; [lia|]. split; [by intros r ?%not_elem_of_nil|].
    split; [|split; [done|split; [done|done]]]. intros n [= <-]. split; [|lia]. symmetry. apply bool_decide_eq_false. lia.
  - unfold wanted. rewrite Ho in *. cbn [results fts_empty dropped_by_filter matched_total truncated fetch_count fallback_used] in *.
    rewrite Hq in *. cbn [bool_decide orb]. set (ids := node_id_of <$> _) in *. set (pool := ranked_pool st ids) in *.
    assert (∀ r, r ∈ pool → ∃ nf, nf ∈ node_files st ∧ r = with_file nf) as Hpool by apply ranked_pool_elem.
    assert (StronglySorted (λ a b, (rank_of ids a ≤ rank_of ids b)%Z) pool) as Hsort by apply ranked_pool_sorted.
    pose proof (pool_partition p pool) as Hpart.
    set (survivors := filter (λ r, is_skipped r = false ∧ passes p r = true) pool) in *. rewrite length_take.
    split; [lia|]. split; [|split; [|split; [done|split; [|done]]]].
    + intros r (i & Hi & _)%elem_of_take. apply list_elem_of_lookup_2 in Hi.
      apply list_elem_of_filter in Hi as [Hp Hin]. destruct (Hpool r Hin) as (nf & Hnf & ->). by exists nf.
    + intros n Hn. assert (n = length survivors) as -> by congruence. split; [|done].
      destruct (Nat.ltb_spec (limit p) (length survivors)); symmetry;
        [by apply bool_decide_eq_true|apply bool_decide_eq_false; lia].
    + intros q' n Hq' _ Hn. assert (n = length survivors ∧ q' = q) as [-> ->] by (split; congruence).
      split; [exact Hpart|].
      apply (StronglySorted_app_1_l _ _ (drop (limit p) survivors)). rewrite take_drop.
      by apply StronglySorted_filter.
  - pose proof (by_filters_ok glob like like_esc sql_lower st p (Some q)) as Hb. rewrite Hrows in Hb.
    destruct Hb as (Hl & Hm & Hin). unfold wanted. rewrite Ho in *. cbn in *. rewrite Hq in *. 
    split; [done|]. split; [|split; [done|split; [auto|split; [done|done]]]].
    intros r Hr. destruct (Hin r Hr) as (nf & ? & ? & ?). by exists nf.
Qed.
