(* ===== verification/Compress.v ===== *)
(** * Result compression ([sandbox/compressor.rs])

    A large search answer is shortened to one line per symbol, per file or per
    directory, by how far its estimated size is over the threshold. *)

From S2P Require Import Prelude Str Domain Tables Store.

Record CompressedResult := mkCompressed {
  cr_node_id : Z;
  cr_file_path : string;
  cr_summary : string;
}.

Record GroupedResult := mkGrouped {
  gr_file_path : string;
  gr_summary : string;
  gr_node_ids : list Z;
}.

Inductive CompressedOutput :=
| Nodes (l : list CompressedResult)
| Files (l : list GroupedResult)
| Directories (l : list GroupedResult).

Definition RESULT_FRAMING_BYTES : N := 80.

Definition byte_len (s : string) : N := N.of_nat (String.length s).

Definition estimate_result_tokens (code_content : string) (code_cap : N) (signature : option string)
    (name file_path : string) : N :=
  ((N.min (byte_len code_content) code_cap + default 0 (byte_len <$> signature) + byte_len name
    + byte_len file_path + RESULT_FRAMING_BYTES) / CHARS_PER_TOKEN)%N.

(** [usize] arithmetic of a release build. *)
Definition wrap_usize (n : N) : N := (n mod 2 ^ 64)%N.

Definition LENGTH_ERROR : string := "results and file_paths must have same length".

Definition summary_line (r : NodeResult) (fp : string) : string :=
  n_type (nr_node r) +:+ " " +:+ n_name (nr_node r) +:+ " in " +:+ fp +:+ " (lines "
  +:+ dec_of_Z (n_start_line (nr_node r)) +:+ "-" +:+ dec_of_Z (n_end_line (nr_node r)) +:+ ")"
  +:+ default "" ((λ s, " " +:+ s) <$> nr_signature r).

(** [results.iter().enumerate()] with [file_paths.get(i)]. *)
Definition with_paths (results : list NodeResult) (file_paths : list string) : list (NodeResult * string) :=
  imap (λ i r, (r, default "?" (file_paths !! i))) results.

Definition compress_results (results : list NodeResult) (file_paths : list string)
    : result string (list CompressedResult) :=
  if negb (length results =? length file_paths) then Err LENGTH_ERROR
  else Ok ((λ p, mkCompressed (n_id (nr_node p.1)) p.2 (summary_line p.1 p.2)) <$> with_paths results file_paths).

(** [BTreeMap::into_iter] *)
Definition into_iter {E} (groups : gmap string E) : list (string * E) :=
  sort_cmp (cmp_by fst String.compare) (map_to_list groups).

Definition file_entry (e : list string * list Z) (p : NodeResult * string) : list string * list Z :=
  (e.1 ++ [n_type (nr_node p.1) +:+ " " +:+ n_name (nr_node p.1)], e.2 ++ [n_id (nr_node p.1)]).

Definition file_group (g : string * (list string * list Z)) : GroupedResult :=
  let '(file_path, (symbols, node_ids)) := g in
  mkGrouped file_path
    (file_path +:+ ": [" +:+ join ", " symbols +:+ "] (" +:+ dec_of_nat (length symbols) +:+ " symbols)") node_ids.

Definition compress_by_file (results : list NodeResult) (file_paths : list string)
    : result string (list GroupedResult) :=
  if negb (length results =? length file_paths) then Err LENGTH_ERROR
  else Ok (file_group <$> into_iter (foldl (entry_step snd ([], []) file_entry) ∅ (with_paths results file_paths))).

Definition dir_of (fp : string) : string :=
  match rsplit_once ch_slash fp with Some (dir, _) => dir | None => "." end.

Definition dir_entry (e : gset string * list Z * nat) (p : NodeResult * string) : gset string * list Z * nat :=
  ({[p.2]} ∪ e.1.1, e.1.2 ++ [n_id (nr_node p.1)], S e.2).

Definition dir_group (g : string * (gset string * list Z * nat)) : GroupedResult :=
  let '(dir, (files, node_ids, symbol_count)) := g in
  mkGrouped dir
    (dir +:+ ": " +:+ dec_of_nat (size files) +:+ " files, " +:+ dec_of_nat symbol_count +:+ " symbols") node_ids.

Definition compress_by_directory (results : list NodeResult) (file_paths : list string)
    : result string (list GroupedResult) :=
  if negb (length results =? length file_paths) then Err LENGTH_ERROR
  else Ok (dir_group <$> into_iter (foldl (entry_step (λ p, dir_of p.2) (∅, [], 0) dir_entry) ∅
                                      (with_paths results file_paths))).

Definition compress_if_needed (results : list NodeResult) (file_paths : list string)
    (token_threshold estimated_tokens : N) : result string (option CompressedOutput) :=
  if (estimated_tokens <=? token_threshold)%N then Ok None
  else if (estimated_tokens <=? wrap_usize (token_threshold * 3))%N
  then let? l := compress_results results file_paths in Ok (Some (Nodes l))
  else if (estimated_tokens <=? wrap_usize (token_threshold * 8))%N
  then let? l := compress_by_file results file_paths in Ok (Some (Files l))
  else let? l := compress_by_directory results file_paths in Ok (Some (Directories l)).

(** * Properties *)

Lemma into_iter_perm {E} (m : gmap string E) : into_iter m ≡ₚ map_to_list m.
Proof. apply sort_by_perm. Qed.

Lemma into_iter_keys {E} (m : gmap string E) : StronglySorted (λ a b, String.compare a.1 b.1 = Lt) (into_iter m).
Proof.
  assert (NoDup (fst <$> into_iter m)) as Hnd.
  { rewrite into_iter_perm. apply NoDup_fst_map_to_list. }
  pose proof (sort_cmp_sorted (cmp_by fst String.compare) (map_to_list m)) as Hs. fold (into_iter m) in Hs.
  induction Hs as [|a l Hl IH Ha]; [constructor|]. apply NoDup_cons in Hnd as [Hni Hnd].
  constructor; [by apply IH|]. apply Forall_forall. intros b Hb. rewrite Forall_forall in Ha.
  specialize (Ha b Hb). unfold cmp_leb, cmp_by in Ha. destruct (String.compare a.1 b.1) eqn:E1; [|done|done].
  apply String.compare_eq_iff in E1. destruct Hni. rewrite E1. by apply list_elem_of_fmap_2.
Qed.

Lemma with_paths_zip results file_paths :
  length results = length file_paths → with_paths results file_paths = zip results file_paths.
Proof.
  intros Hl. apply list_eq. intros i. unfold with_paths.
  rewrite list_lookup_imap, lookup_zip_with. destruct (results !! i) as [r|] eqn:E1; [|done]. simpl.
  apply lookup_lt_Some in E1. rewrite Hl in E1. by apply lookup_lt_is_Some in E1 as [fp ->].
Qed.

Section Groups.
Context {E : Type} (key : NodeResult * string → string) (e0 : E) (upd : E → NodeResult * string → E).
Context (ids : E → list Z) (group : string * E → GroupedResult).
Hypothesis ids_nil : ids e0 = [].
Hypothesis ids_upd : ∀ e p, ids (upd e p) = ids e ++ [n_id (nr_node p.1)].
Hypothesis group_ids : ∀ g, gr_node_ids (group g) = ids g.2.
Hypothesis group_path : ∀ g, gr_file_path (group g) = g.1.

(** A group per key in key order, with the members of that key in their order,
    and every result in a group once. *)
Lemma groups_ok (rows : list (NodeResult * string)) :
  let out := group <$> into_iter (foldl (entry_step key e0 upd) ∅ rows) in
  StronglySorted (λ a b, String.compare (gr_file_path a) (gr_file_path b) = Lt) out
  ∧ (∀ g, g ∈ out → ∃ members, members = filter (λ p, key p = gr_file_path g) rows ∧ members ≠ []
       ∧ gr_node_ids g = (λ p, n_id (nr_node p.1)) <$> members
       ∧ g = group (gr_file_path g, foldl upd e0 members))
  ∧ (out ≫= gr_node_ids) ≡ₚ (λ p, n_id (nr_node p.1)) <$> rows.
Proof.
  intros out. set (m := foldl _ ∅ rows) in out. split; [|split].
  - refine (StronglySorted_fmap_on _ _ group _ _ (into_iter_keys m)). intros a b _ _. by rewrite !group_path.
  - intros g ([k e] & -> & Hin)%list_elem_of_fmap. rewrite into_iter_perm in Hin.
    apply elem_of_map_to_list in Hin. unfold m in Hin. rewrite entry_fold_lookup in Hin.
    rewrite group_path, group_ids. cbn [fst snd]. eexists. split; [done|].
    destruct (filter _ rows) as [|p l]; [done|]. assert (e = foldl upd e0 (p :: l)) as -> by congruence.
    split; [done|]. split; [|done]. clear Hin. induction (p :: l) as [|q l' IH] using rev_ind; [done|].
    by rewrite foldl_snoc, ids_upd, IH, fmap_app.
  - rewrite <-(entry_fold_values key e0 upd ids (λ p, n_id (nr_node p.1)) rows ids_nil ids_upd). fold m. unfold out.
    rewrite into_iter_perm. apply reflexive_eq. generalize (map_to_list m). intros l.
    induction l as [|g l IH]; [done|]. rewrite fmap_cons, !bind_cons, IH. by rewrite group_ids.
Qed.
End Groups.

Definition row_ids (rows : list (NodeResult * string)) : list Z := (λ p, n_id (nr_node p.1)) <$> rows.

(** What a grouped answer promises, for the key and the summary of its level. *)
Definition grouped (key : string → string) (summary : string → list (NodeResult * string) → string)
    (rows : list (NodeResult * string)) (out : list GroupedResult) : Prop :=
  StronglySorted (λ a b, String.compare (gr_file_path a) (gr_file_path b) = Lt) out
  ∧ (∀ g, g ∈ out → ∃ members, members = filter (λ p, key p.2 = gr_file_path g) rows ∧ members ≠ []
       ∧ gr_node_ids g = row_ids members ∧ gr_summary g = summary (gr_file_path g) members)
  ∧ (out ≫= gr_node_ids) ≡ₚ row_ids rows.

Lemma compress_by_file_ok results file_paths :
  match compress_by_file results file_paths with
  | Err e => length results ≠ length file_paths
  | Ok out => length results = length file_paths
      ∧ grouped id (λ fp members, fp +:+ ": ["
          +:+ join ", " ((λ p, n_type (nr_node p.1) +:+ " " +:+ n_name (nr_node p.1)) <$> members)
          +:+ "] (" +:+ dec_of_nat (length members) +:+ " symbols)") (zip results file_paths) out
  end.
Proof.
  unfold compress_by_file. destruct (Nat.eqb_spec (length results) (length file_paths)) as [Hl|Hl]; [|done].
  cbn [negb]. split; [done|]. rewrite with_paths_zip by done.
  destruct (groups_ok snd ([], []) file_entry snd file_group) with (rows := zip results file_paths)
    as (Hs & Hg & Hp); [done|done|by intros [? []]|by intros [? []]|].
  split; [exact Hs|split; [|exact Hp]]. intros g Hin. destruct (Hg g Hin) as (members & Hm & Hne & Hids & Heq).
  exists members. do 3 (split; [done|]). rewrite Heq at 1. clear.
  assert (foldl file_entry ([], []) members =
          ((λ p, n_type (nr_node p.1) +:+ " " +:+ n_name (nr_node p.1)) <$> members, row_ids members)) as ->.
  { induction members as [|p l IH] using rev_ind; [done|]. unfold row_ids in *. by rewrite foldl_snoc, IH, !fmap_app. }
  simpl. by rewrite length_fmap.
Qed.

Lemma compress_by_directory_ok results file_paths :
  match compress_by_directory results file_paths with
  | Err e => length results ≠ length file_paths
  | Ok out => length results = length file_paths
      ∧ grouped dir_of (λ dir members, dir +:+ ": " +:+ dec_of_nat (size (list_to_set (snd <$> members) : gset string))
          +:+ " files, " +:+ dec_of_nat (length members) +:+ " symbols") (zip results file_paths) out
  end.
Proof.
  unfold compress_by_directory. destruct (Nat.eqb_spec (length results) (length file_paths)) as [Hl|Hl]; [|done].
  cbn [negb]. split; [done|]. rewrite with_paths_zip by done.
  destruct (groups_ok (λ p, dir_of p.2) (∅, [], 0) dir_entry (λ e, e.1.2) dir_group) with (rows := zip results file_paths)
    as (Hs & Hg & Hp); [done|done|by intros [? [[]]]|by intros [? [[]]]|].
  split; [exact Hs|split; [|exact Hp]]. intros g Hin. destruct (Hg g Hin) as (members & Hm & Hne & Hids & Heq).
  exists members. do 3 (split; [done|]). rewrite Heq at 1. clear.
  assert (foldl dir_entry (∅, [], 0) members = (list_to_set (snd <$> members), row_ids members, length members)) as ->.
  { induction members as [|p l IH] using rev_ind; [done|]. unfold row_ids in *.
    rewrite foldl_snoc, IH, !fmap_app, list_to_set_app_L, length_app. unfold dir_entry. simpl.
    f_equal; [f_equal; set_solver|lia]. }
  done.
Qed.

(** C30: Compression is exact about what it hides.  An answer within the threshold
    is left alone; past it, the level is that of the size, and a length mismatch is
    the only error.  The node level keeps every id with its file in order; the
    file and the directory level have one non-empty group per path in path order,
    list exactly the ids of its results, and all groups together are the ids of
    the answer, each as often as it was there, with true symbol and file counts. *)
Theorem compress_if_needed_ok results file_paths t k :
  (t * 8 < 2 ^ 64)%N →
  match compress_if_needed results file_paths t k with
  | Err e => (t < k)%N ∧ length results ≠ length file_paths
  | Ok None => (k ≤ t)%N
  | Ok (Some out) =>
      (t < k)%N ∧ length results = length file_paths ∧
      let rows := zip results file_paths in
      match out with
      | Nodes l => (k ≤ t * 3)%N ∧ (λ c, (cr_node_id c, cr_file_path c)) <$> l = zip (row_ids rows) file_paths
      | Files l => (t * 3 < k ≤ t * 8)%N ∧ grouped id (λ fp members, fp +:+ ": ["
          +:+ join ", " ((λ p, n_type (nr_node p.1) +:+ " " +:+ n_name (nr_node p.1)) <$> members)
          +:+ "] (" +:+ dec_of_nat (length members) +:+ " symbols)") rows l
      | Directories l => (t * 8 < k)%N ∧ grouped dir_of (λ dir members, dir +:+ ": "
          +:+ dec_of_nat (size (list_to_set (snd <$> members) : gset string))
          +:+ " files, " +:+ dec_of_nat (length members) +:+ " symbols") rows l
      end
  end.
Proof.
  intros Ht. unfold compress_if_needed, wrap_usize. rewrite !N.mod_small by lia.
  destruct (N.leb_spec k t); [done|]. destruct (N.leb_spec k (t * 3)); [|destruct (N.leb_spec k (t * 8))].
  - unfold compress_results. destruct (Nat.eqb_spec (length results) (length file_paths)) as [Hl|Hl]; [|done].
    cbn [negb result_bind]. do 3 (split; [done|]). rewrite with_paths_zip by done. unfold row_ids.
    clear -Hl. revert file_paths Hl. induction results as [|r l IH]; intros [|fp fps] Hl; try done.
    simpl. f_equal. apply IH. by injection Hl.
  - pose proof (compress_by_file_ok results file_paths) as Hf.
    destruct (compress_by_file results file_paths); [|done]. by destruct Hf.
  - pose proof (compress_by_directory_ok results file_paths) as Hf.
    destruct (compress_by_directory results file_paths); [|done]. by destruct Hf.
Qed.

Definition demo_row (id : Z) (name : string) : NodeResult :=
  mkNodeResult (mkNode id 1 "function" name None 3 9 false) "fn" None None None None None None.

Lemma compress_if_needed_ok_witness :
  let rows := [demo_row 7 "a"; demo_row 8 "b"; demo_row 9 "c"] in
  let paths := ["src/x.rs"; "lib.rs"; "src/x.rs"] in
  compress_if_needed rows paths 10 50 =
    Ok (Some (Files [mkGrouped "lib.rs" "lib.rs: [function b] (1 symbols)" [8%Z];
                     mkGrouped "src/x.rs" "src/x.rs: [function a, function c] (2 symbols)" [7%Z; 9%Z]]))
  ∧ compress_if_needed rows ["x"] 10 50 = Err LENGTH_ERROR
  ∧ (10 < 50)%N.
Proof.
  split; [by vm_compute|]. split; [by vm_compute|].
  pose proof (compress_if_needed_ok [demo_row 7 "a"; demo_row 8 "b"; demo_row 9 "c"]
    ["src/x.rs"; "lib.rs"; "src/x.rs"] 10 50 ltac:(lia)) as H.
  assert (∃ out, compress_if_needed [demo_row 7 "a"; demo_row 8 "b"; demo_row 9 "c"]
    ["src/x.rs"; "lib.rs"; "src/x.rs"] 10 50 = Ok (Some out)) as [out E] by (eexists; by vm_compute).
  rewrite E in H. by destruct H.
Defined.
