(* ===== verification/BoundLex.v ===== *)
(** * Masking a source text ([graph/boundaries/mod.rs], the lexer)

    The scan for dynamic dispatch reads a source text in which comments and the
    contents of strings are blanked with every offset and newline preserved, so
    that a shape is matched against code only; the string literals are kept
    beside it.  A text is its list of bytes. *)

From S2P Require Import Prelude Str Utf8.

#[global] Abbreviation bytes := (list ascii).
Definition to_bytes (s : string) : bytes := String.list_ascii_of_string s.
Definition of_bytes (l : bytes) : string := String.string_of_list_ascii l.

Definition ch_squote : ascii := "'"%char.
Definition ch_backtick : ascii := "`"%char.
Definition ch_tab : ascii := "009"%char.

(** [src[i] == c] under a test of the index, and [src.get(i) == Some(&c)] *)
Definition is_at (src : bytes) (i : nat) (c : ascii) : bool := bool_decide (src !! i = Some c).

Fixpoint is_prefix (p l : bytes) : bool :=
  match p, l with
  | [], _ => true
  | a :: p', b :: l' => Ascii.eqb a b && is_prefix p' l'
  | _ :: _, [] => false
  end.

(** ** Language tables *)

Inductive SingleQuote := SqStr | SqChar | RustChar.

Record Syntax := mkSyntax {
  slash_comments : bool; hash_comments : bool; nested_block_comments : bool;
  single_quote : SingleQuote; backtick : bool; template_interp : bool; triple_quotes : bool;
  rust_raw : bool; multiline_dquote : bool; ruby : bool; dollar_ident : bool; key_colon : bool;
  key_rocket : bool; index_store_is_data : bool; paren_conditions : bool; function_methods : bool;
  member_value : bool; check_path_qualifier : bool;
}.

Definition base_syntax : Syntax := {|
  slash_comments := true; hash_comments := false; nested_block_comments := false;
  single_quote := SqChar; backtick := false; template_interp := false; triple_quotes := false;
  rust_raw := false; multiline_dquote := false; ruby := false; dollar_ident := false; key_colon := true;
  key_rocket := false; index_store_is_data := false; paren_conditions := true; function_methods := false;
  member_value := true; check_path_qualifier := false |}.

Definition js_syntax : Syntax := {|
  slash_comments := true; hash_comments := false; nested_block_comments := false;
  single_quote := SqStr; backtick := true; template_interp := true; triple_quotes := false;
  rust_raw := false; multiline_dquote := false; ruby := false; dollar_ident := true; key_colon := true;
  key_rocket := false; index_store_is_data := false; paren_conditions := true; function_methods := true;
  member_value := true; check_path_qualifier := false |}.

Definition go_syntax : Syntax := {|
  slash_comments := true; hash_comments := false; nested_block_comments := false;
  single_quote := SqChar; backtick := true; template_interp := false; triple_quotes := false;
  rust_raw := false; multiline_dquote := false; ruby := false; dollar_ident := false; key_colon := true;
  key_rocket := false; index_store_is_data := false; paren_conditions := false; function_methods := false;
  member_value := true; check_path_qualifier := false |}.

Definition rust_syntax : Syntax := {|
  slash_comments := true; hash_comments := false; nested_block_comments := true;
  single_quote := RustChar; backtick := false; template_interp := false; triple_quotes := false;
  rust_raw := true; multiline_dquote := true; ruby := false; dollar_ident := false; key_colon := false;
  key_rocket := false; index_store_is_data := true; paren_conditions := false; function_methods := false;
  member_value := false; check_path_qualifier := true |}.

Definition kotlin_syntax : Syntax := {|
  slash_comments := true; hash_comments := false; nested_block_comments := true;
  single_quote := SqChar; backtick := false; template_interp := false; triple_quotes := true;
  rust_raw := false; multiline_dquote := false; ruby := false; dollar_ident := false; key_colon := true;
  key_rocket := false; index_store_is_data := false; paren_conditions := true; function_methods := false;
  member_value := true; check_path_qualifier := false |}.

Definition swift_syntax : Syntax := {|
  slash_comments := true; hash_comments := false; nested_block_comments := true;
  single_quote := SqChar; backtick := false; template_interp := false; triple_quotes := true;
  rust_raw := false; multiline_dquote := false; ruby := false; dollar_ident := false; key_colon := true;
  key_rocket := false; index_store_is_data := false; paren_conditions := false; function_methods := false;
  member_value := true; check_path_qualifier := false |}.

Definition dart_syntax : Syntax := {|
  slash_comments := true; hash_comments := false; nested_block_comments := true;
  single_quote := SqStr; backtick := false; template_interp := false; triple_quotes := true;
  rust_raw := false; multiline_dquote := false; ruby := false; dollar_ident := true; key_colon := true;
  key_rocket := false; index_store_is_data := false; paren_conditions := true; function_methods := false;
  member_value := true; check_path_qualifier := false |}.

Definition php_syntax : Syntax := {|
  slash_comments := true; hash_comments := true; nested_block_comments := false;
  single_quote := SqStr; backtick := false; template_interp := false; triple_quotes := false;
  rust_raw := false; multiline_dquote := true; ruby := false; dollar_ident := true; key_colon := true;
  key_rocket := true; index_store_is_data := false; paren_conditions := true; function_methods := false;
  member_value := true; check_path_qualifier := false |}.

Definition python_syntax : Syntax := {|
  slash_comments := false; hash_comments := true; nested_block_comments := false;
  single_quote := SqStr; backtick := false; template_interp := false; triple_quotes := true;
  rust_raw := false; multiline_dquote := false; ruby := false; dollar_ident := false; key_colon := true;
  key_rocket := false; index_store_is_data := false; paren_conditions := false; function_methods := false;
  member_value := true; check_path_qualifier := false |}.

Definition ruby_syntax : Syntax := {|
  slash_comments := false; hash_comments := true; nested_block_comments := false;
  single_quote := SqStr; backtick := false; template_interp := false; triple_quotes := false;
  rust_raw := false; multiline_dquote := true; ruby := true; dollar_ident := false; key_colon := true;
  key_rocket := true; index_store_is_data := false; paren_conditions := false; function_methods := false;
  member_value := true; check_path_qualifier := false |}.

Definition syntax_for (language : string) : option Syntax :=
  if existsb (String.eqb language) ["javascript"; "typescript"; "tsx"] then Some js_syntax
  else if String.eqb language "go" then Some go_syntax
  else if String.eqb language "rust" then Some rust_syntax
  else if existsb (String.eqb language) ["java"; "c"; "cpp"; "csharp"] then Some base_syntax
  else if String.eqb language "kotlin" then Some kotlin_syntax
  else if String.eqb language "swift" then Some swift_syntax
  else if String.eqb language "dart" then Some dart_syntax
  else if String.eqb language "php" then Some php_syntax
  else if String.eqb language "python" then Some python_syntax
  else if String.eqb language "ruby" then Some ruby_syntax
  else None.

(** ** Bytes *)

Definition is_ident_byte (b : ascii) (syn : Syntax) : bool :=
  is_ascii_alphanumeric b || Ascii.eqb b "_" || negb (is_ascii b) || (dollar_ident syn && Ascii.eqb b "$").

(** [src.get(i)] is an identifier byte. *)
Definition ident_at (src : bytes) (i : nat) (syn : Syntax) : bool :=
  match src !! i with Some b => is_ident_byte b syn | None => false end.

Definition slice (l : bytes) (from to : nat) : bytes := take (to - from) (drop from l).

Definition blank_byte (b : ascii) : ascii := if Ascii.eqb b ch_newline then b else ch_space.

Definition blank (masked : bytes) (from to : nat) : bytes :=
  imap (λ k b, if (from <=? k) && (k <? to) then blank_byte b else b) masked.

Definition char_len (src : bytes) (i : nat) : nat :=
  match src !! i with
  | Some b =>
      let n := N_of_ascii b in
      if (n <? 128)%N then 1 else if (240 <=? n)%N then 4 else if (224 <=? n)%N then 3 else 2
  | None => 0
  end.

Fixpoint find_at (needle l : bytes) : option nat :=
  if is_prefix needle l then Some 0
  else match l with [] => None | _ :: l' => S <$> find_at needle l' end.

Definition find_sub (hay : bytes) (from : nat) (needle : bytes) : option nat :=
  if (length hay <? from) || bool_decide (needle = []) then None
  else Nat.add from <$> find_at needle (drop from hay).

(** [src[i..].iter().position(|&b| b == c).map_or(n, |p| i + p)] *)
Definition find_byte (c : ascii) (src : bytes) (i : nat) : nat :=
  match list_find (λ b, b = c) (drop i src) with
  | Some (p, _) => i + p
  | None => length src
  end.

(** ** Literals *)

Record StrLit := mkStr { sl_open : nat; sl_close : nat; sl_content : option string }.

(** The variables of the loop; [lx_interp] has the last frame first. *)
Record LexState := mkLex {
  lx_pos : nat;
  lx_masked : bytes;
  lx_strings : list StrLit;
  lx_interp : list nat;
}.

Fixpoint quoted_len (quote : ascii) (multiline : bool) (l : bytes) : nat :=
  match l with
  | [] => 0
  | b :: l' =>
      if Ascii.eqb b ch_backslash then match l' with [] => 1 | _ :: l'' => 2 + quoted_len quote multiline l'' end
      else if Ascii.eqb b quote || (negb multiline && Ascii.eqb b ch_newline) then 0
      else S (quoted_len quote multiline l')
  end.

Definition scan_quoted (src : bytes) (from : nat) (quote : ascii) (multiline : bool) : nat :=
  from + quoted_len quote multiline (drop from src).

Inductive TemplateEnd := TClosed | TInterp | TEof.

Fixpoint template_len (l : bytes) : nat * TemplateEnd :=
  match l with
  | [] => (0, TEof)
  | b :: l' =>
      if Ascii.eqb b ch_backslash
      then match l' with
           | [] => (1, TEof)
           | _ :: l'' => let '(k, e) := template_len l'' in (2 + k, e)
           end
      else if Ascii.eqb b ch_backtick then (0, TClosed)
      else if Ascii.eqb b "$" && is_at l' 0 "{" then (0, TInterp)
      else let '(k, e) := template_len l' in (S k, e)
  end.

Definition scan_template (src : bytes) (s : LexState) (from : nat) (open : option nat) : LexState :=
  let '(k, e) := template_len (drop from src) in
  let j := from + k in
  match e with
  | TClosed =>
      mkLex (S j) (blank (lx_masked s) from j)
        (lx_strings s ++ match open with
                         | Some o => [mkStr o j (from_utf8 (of_bytes (slice src from j)))]
                         | None => []
                         end)
        (lx_interp s)
  | TInterp => mkLex (j + 2) (blank (lx_masked s) from j) (lx_strings s) (0 :: lx_interp s)
  | TEof => mkLex (length src) (blank (lx_masked s) from (length src)) (lx_strings s) (lx_interp s)
  end.

(** [record], and the position after the literal. *)
Definition record (src : bytes) (s : LexState) (open close : nat) (raw : bool) (next : nat) : LexState :=
  let close := Nat.min close (length src) in
  let body := slice src (S open) close in
  let content := if negb raw && existsb (Ascii.eqb ch_backslash) body then None else from_utf8 (of_bytes body) in
  mkLex next (blank (lx_masked s) (S open) close) (lx_strings s ++ [mkStr open close content]) (lx_interp s).

(** Blank and go on, without a literal. *)
Definition skip_to (s : LexState) (from to next : nat) : LexState :=
  mkLex next (blank (lx_masked s) from to) (lx_strings s) (lx_interp s).

(** Length of a block comment's text after its opening, at nesting [depth]. *)
Fixpoint block_len (nested : bool) (depth : nat) (l : bytes) : nat :=
  match depth, l with
  | 0, _ | _, [] => 0
  | S d, a :: l' =>
      match l' with
      | [] => 1
      | b :: l'' =>
          if nested && Ascii.eqb a "/" && Ascii.eqb b "*" then 2 + block_len nested (S depth) l''
          else if Ascii.eqb a "*" && Ascii.eqb b "/" then 2 + block_len nested d l''
          else S (block_len nested depth l')
      end
  end.

(** ** One iteration: the first construct that starts at [pos] *)

Section Lex.
Context (src : bytes) (syn : Syntax).

Definition line_comment (s : LexState) : LexState :=
  let close := find_byte ch_newline src (lx_pos s) in skip_to s (lx_pos s) close close.

Definition slash_comment (s : LexState) (c : ascii) : option LexState :=
  let i := lx_pos s in
  if slash_comments syn && Ascii.eqb c "/" && (i + 1 <? length src) then
    if is_at src (i + 1) "/" then Some (line_comment s)
    else if is_at src (i + 1) "*" then
      let j := i + 2 + block_len (nested_block_comments syn) 1 (drop (i + 2) src) in Some (skip_to s i j j)
    else None
  else None.

Definition hash_comment (s : LexState) (c : ascii) : option LexState :=
  if hash_comments syn && Ascii.eqb c "#" then Some (line_comment s) else None.

Definition at_line_start (i : nat) : bool := (i =? 0) || is_at src (i - 1) ch_newline.

Definition ruby_comment (s : LexState) (c : ascii) : option LexState :=
  let i := lx_pos s in
  if ruby syn && Ascii.eqb c "=" && at_line_start i && is_prefix (to_bytes "=begin") (drop i src) then
    let close := match find_sub src i (ch_newline :: to_bytes "=end") with
                 | Some p => find_byte ch_newline src (p + 1)
                 | None => length src
                 end in
    Some (skip_to s i close close)
  else None.

Fixpoint count_hashes (l : bytes) : nat :=
  match l with b :: l' => if Ascii.eqb b "#" then S (count_hashes l') else 0 | [] => 0 end.

Definition raw_string (s : LexState) (c : ascii) : option LexState :=
  let i := lx_pos s in
  if rust_raw syn && Ascii.eqb c "r" && ((i =? 0) || negb (ident_at src (i - 1) syn) || is_at src (i - 1) "b") then
    let hashes := count_hashes (drop (i + 1) src) in
    let j := i + 1 + hashes in
    if is_at src j ch_dquote then
      let term := ch_dquote :: replicate hashes "#"%char in
      let close := default (length src) (find_sub src (j + 1) term) in
      Some (record src s j close true (Nat.min (close + length term) (length src)))
    else None
  else None.

Definition triple_string (s : LexState) (c : ascii) : option LexState :=
  let i := lx_pos s in
  if triple_quotes syn && (Ascii.eqb c ch_dquote || Ascii.eqb c ch_squote) && is_prefix [c; c; c] (drop i src) then
    let close := default (length src) (find_sub src (i + 3) [c; c; c]) in
    Some (mkLex (Nat.min (close + 3) (length src)) (blank (lx_masked s) (i + 3) close)
            (lx_strings s ++ [mkStr i close None]) (lx_interp s))
  else None.

Definition quoted_string (s : LexState) (c : ascii) : LexState :=
  let i := lx_pos s in
  let close := scan_quoted src (i + 1) c (multiline_dquote syn) in
  record src s i close false (Nat.min (close + 1) (length src)).

Definition char_literal (s : LexState) : LexState :=
  let i := lx_pos s in
  let close := scan_quoted src (i + 1) ch_squote false in
  skip_to s (i + 1) close (Nat.min (close + 1) (length src)).

(** A [char], not a lifetime or a label. *)
Definition is_rust_char (i : nat) : bool :=
  match src !! (i + 1) with
  | Some b => Ascii.eqb b ch_backslash || is_at src (i + 1 + char_len src (i + 1)) ch_squote
  | None => false
  end.

Definition quote (s : LexState) (c : ascii) : option LexState :=
  if Ascii.eqb c ch_dquote then Some (quoted_string s c)
  else if Ascii.eqb c ch_squote then
    match single_quote syn with
    | SqStr => Some (quoted_string s c)
    | SqChar => Some (char_literal s)
    | RustChar => if is_rust_char (lx_pos s) then Some (char_literal s) else None
    end
  else None.

Definition backtick_string (s : LexState) (c : ascii) : option LexState :=
  let i := lx_pos s in
  if backtick syn && Ascii.eqb c ch_backtick then
    if template_interp syn then Some (scan_template src s (i + 1) (Some i))
    else let close := find_byte ch_backtick src (i + 1) in
         Some (record src s i close true (Nat.min (close + 1) (length src)))
  else None.

Definition first_some {A} (l : list (option A)) : option A :=
  foldr (λ o r, match o with Some x => Some x | None => r end) None l.

(** The braces of an open [${]: whether [c] closes the innermost one. *)
Definition count_brace (c : ascii) (interp : list nat) : bool * list nat :=
  match interp with
  | [] => (false, [])
  | d :: r =>
      if Ascii.eqb c "{" then (false, S d :: r)
      else if Ascii.eqb c "}" then match d with 0 => (true, r) | S d' => (false, d' :: r) end
      else (false, d :: r)
  end.

Definition lex_step (s : LexState) (c : ascii) : LexState :=
  let '(closed, interp) := count_brace c (lx_interp s) in
  let s := mkLex (lx_pos s) (lx_masked s) (lx_strings s) interp in
  if closed then scan_template src s (lx_pos s + 1) None
  else default (mkLex (lx_pos s + 1) (lx_masked s) (lx_strings s) interp)
    (first_some [slash_comment s c; hash_comment s c; ruby_comment s c; raw_string s c; triple_string s c;
                 quote s c; backtick_string s c]).

Fixpoint lex_loop (fuel : nat) (s : LexState) : LexState :=
  match src !! lx_pos s, fuel with
  | Some c, S fuel' => lex_loop fuel' (lex_step s c)
  | _, _ => s
  end.

(** Every iteration moves on, so the length of the text is enough. *)
Definition lex : LexState := lex_loop (length src) (mkLex 0 src [] []).
End Lex.


(** * Properties *)

Lemma to_bytes_of_bytes l : to_bytes (of_bytes l) = l.
Proof. apply String.list_ascii_of_string_of_list_ascii. Qed.

Lemma of_bytes_to_bytes s : of_bytes (to_bytes s) = s.
Proof. apply String.string_of_list_ascii_of_string. Qed.

Lemma length_slice l a b : length (slice l a b) = Nat.min (b - a) (length l - a).
Proof. unfold slice. by rewrite length_take, length_drop. Qed.

Lemma length_blank m a b : length (blank m a b) = length m.
Proof. apply length_imap. Qed.

Lemma lookup_blank m a b k :
  blank m a b !! k = (λ c, if (a <=? k) && (k <? b) then blank_byte c else c) <$> m !! k.
Proof. apply list_lookup_imap. Qed.

Lemma lookup_blank_out m a b k : k < a ∨ b ≤ k → blank m a b !! k = m !! k.
Proof.
  intros Hk. rewrite lookup_blank.
  assert ((a <=? k) && (k <? b) = false) as ->.
  { apply andb_false_iff. destruct Hk; [left; apply Nat.leb_gt; lia|right; apply Nat.ltb_ge; lia]. }
  by destruct (m !! k).
Qed.

Lemma drop_blank m a b n : b ≤ n → drop n (blank m a b) = drop n m.
Proof. intros Hb. apply list_eq. intros i. rewrite !lookup_drop. apply lookup_blank_out. lia. Qed.

(** ** Bounds of the searches *)

Lemma list_find_byte c (l : bytes) p x : list_find (λ b, b = c) l = Some (p, x) → p < length l.
Proof. intros (Hl & _)%list_find_Some. by apply lookup_lt_Some in Hl. Qed.

Lemma find_byte_bounds c src i : i ≤ length src → i ≤ find_byte c src i ≤ length src.
Proof.
  intros Hi. unfold find_byte. destruct (list_find _ _) as [[p x]|] eqn:E1; [|lia].
  apply list_find_byte in E1. rewrite length_drop in E1. lia.
Qed.

Lemma is_prefix_length p l : is_prefix p l = true → length p ≤ length l.
Proof.
  revert l. induction p as [|a p IH]; intros [|b l]; simpl; try done; try lia.
  intros [_ H]%andb_true_iff. apply IH in H. lia.
Qed.

Lemma is_prefix_app p t : is_prefix p (p ++ t) = true.
Proof. induction p as [|a p IH]; [done|]. simpl. by rewrite Ascii.eqb_refl. Qed.

Lemma find_at_bounds needle l p : find_at needle l = Some p → p + length needle ≤ length l.
Proof.
  revert p. induction l as [|a l IH]; intros p; cbn [find_at]; destruct (is_prefix needle _) eqn:E1;
    try (intros [= <-]; apply is_prefix_length in E1; simpl in *; lia).
  destruct (find_at needle l) as [q|]; [|done]. intros [= <-]. specialize (IH q eq_refl). simpl. lia.
Qed.

Lemma find_sub_bounds hay from needle p :
  find_sub hay from needle = Some p → from ≤ p ∧ p + length needle ≤ length hay.
Proof.
  unfold find_sub. destruct (length hay <? from) eqn:E1; [done|]. apply Nat.ltb_ge in E1. simpl.
  destruct (bool_decide _); [done|]. destruct (find_at _ _) as [q|] eqn:E2; [|done]. intros [= <-].
  apply find_at_bounds in E2. rewrite length_drop in E2. lia.
Qed.

Lemma find_sub_default hay from needle :
  from ≤ length hay → from ≤ default (length hay) (find_sub hay from needle) ≤ length hay.
Proof.
  intros Hf. destruct (find_sub _ _ _) as [p|] eqn:E1; simpl; [|lia]. apply find_sub_bounds in E1. lia.
Qed.

(** Induction on lists by one or two elements. *)
Lemma list_ind2 {A} (P : list A → Prop) :
  P [] → (∀ a, P [a]) → (∀ a b l, P l → P (b :: l) → P (a :: b :: l)) → ∀ l, P l.
Proof.
  intros H0 H1 H2 l. enough (P l ∧ ∀ a, P (a :: l)) by naive_solver.
  induction l as [|b l [IH1 IH2]]; [auto|]. split; [auto|]. intros a. by apply H2.
Qed.

Lemma quoted_len_bounds q ml l : quoted_len q ml l ≤ length l.
Proof. induction l as [|a|a b l IH1 IH2] using list_ind2; simpl in *; repeat case_match; lia. Qed.

Lemma scan_quoted_bounds src from q ml : from ≤ length src → from ≤ scan_quoted src from q ml ≤ length src.
Proof.
  intros Hf. unfold scan_quoted. pose proof (quoted_len_bounds q ml (drop from src)) as H.
  rewrite length_drop in H. lia.
Qed.

Lemma block_len_bounds nested l : ∀ d, block_len nested d l ≤ length l.
Proof.
  induction l as [|a|a b l IH1 IH2] using list_ind2; intros [|d]; try (simpl; lia).
  specialize (IH2 (S d)). pose proof (IH1 d) as H1. pose proof (IH1 (S (S d))) as H2.
  transitivity (if nested && Ascii.eqb a "/" && Ascii.eqb b "*" then 2 + block_len nested (S (S d)) l
                else if Ascii.eqb a "*" && Ascii.eqb b "/" then 2 + block_len nested d l
                else S (block_len nested (S d) (b :: l))); [by cbn|].
  cbn [length] in *. destruct (nested && _ && _); [lia|]. destruct (_ && _); lia.
Qed.

Lemma count_hashes_bounds l : count_hashes l ≤ length l.
Proof. induction l as [|b l IH]; simpl; [lia|]. destruct (Ascii.eqb b "#"); lia. Qed.

Lemma template_len_bounds l :
  match template_len l with
  | (k, TClosed) => k < length l
  | (k, TInterp) => k + 2 ≤ length l
  | (k, TEof) => k ≤ length l
  end.
Proof.
  induction l as [|a|a b l IH1 IH2] using list_ind2.
  - simpl. lia.
  - simpl. destruct (Ascii.eqb a ch_backslash); [simpl; lia|]. destruct (Ascii.eqb a ch_backtick); [simpl; lia|].
    rewrite andb_false_r. simpl. lia.
  - change (template_len (a :: b :: l)) with
      (if Ascii.eqb a ch_backslash then let '(k, e) := template_len l in (2 + k, e)
       else if Ascii.eqb a ch_backtick then (0, TClosed)
       else if Ascii.eqb a "$" && is_at (b :: l) 0 "{" then (0, TInterp)
       else let '(k, e) := template_len (b :: l) in (S k, e)).
    destruct (Ascii.eqb a ch_backslash).
    { destruct (template_len l) as [k []]; cbn [length]; lia. }
    destruct (Ascii.eqb a ch_backtick); [cbn [length]; lia|].
    destruct (_ && _); [cbn [length]; lia|].
    destruct (template_len (b :: l)) as [k []]; cbn [length] in *; lia.
Qed.

(** ** The loop *)

Definition is_blank (b : ascii) : Prop := b = ch_space ∨ b = ch_newline.

(** A masked byte is the byte of the source or a space in its place. *)
Definition masks (a b : ascii) : Prop := b = a ∨ (b = ch_space ∧ a ≠ ch_newline).

Definition is_quote (b : ascii) : Prop := b = ch_dquote ∨ b = ch_squote ∨ b = ch_backtick.

(** A literal: its quote is code, a static content is the text between the quotes,
    which the mask hides. *)
Definition lit_ok (src m : bytes) (l : StrLit) : Prop :=
  sl_open l < sl_close l ≤ length src
  ∧ (∃ q, src !! sl_open l = Some q ∧ m !! sl_open l = Some q ∧ is_quote q)
  ∧ ∀ s, sl_content l = Some s →
      to_bytes s = slice src (S (sl_open l)) (sl_close l) ∧ is_str s
      ∧ ∀ k b, sl_open l < k < sl_close l → m !! k = Some b → is_blank b.

Section Invariant.
Context (src : bytes).
#[local] Abbreviation n := (length src).

Record lex_inv (s : LexState) : Prop := {
  li_pos : lx_pos s ≤ n;
  li_mask : Forall2 masks src (lx_masked s);
  li_rest : drop (lx_pos s) (lx_masked s) = drop (lx_pos s) src;
  li_lits : Forall (lit_ok src (lx_masked s)) (lx_strings s);
  li_before : Forall (λ l, sl_close l < lx_pos s ∨ (sl_close l = n ∧ lx_pos s = n)) (lx_strings s);
  li_sorted : StronglySorted (λ a b, sl_close a < sl_open b) (lx_strings s);
}.

Lemma blank_byte_blank b : is_blank (blank_byte b).
Proof. unfold blank_byte, is_blank. destruct (Ascii.eqb_spec b ch_newline); auto. Qed.

Lemma masks_blank a b : masks a b → masks a (blank_byte b).
Proof. unfold masks, blank_byte. destruct (Ascii.eqb_spec b ch_newline) as [->|]; naive_solver. Qed.

Lemma blank_masks m a b : Forall2 masks src m → Forall2 masks src (blank m a b).
Proof.
  intros H. apply Forall2_lookup. intros k. rewrite lookup_blank. rewrite Forall2_lookup in H.
  destruct (H k) as [x y Hxy|]; simpl; constructor. destruct (_ && _); [by apply masks_blank|done].
Qed.

Lemma lit_ok_blank m a b l : sl_open l < a → lit_ok src m l → lit_ok src (blank m a b) l.
Proof.
  intros Ha (Hb & (q & Hq & Hm & Hiq) & Hc). split; [done|]. split.
  - exists q. rewrite lookup_blank_out by lia. auto.
  - intros s Hs. destruct (Hc s Hs) as (? & ? & Hk). do 2 (split; [done|]). intros k x Hlk.
    rewrite lookup_blank. destruct (m !! k) as [y|] eqn:E1; [|done]. intros [= <-].
    destruct (_ && _); [apply blank_byte_blank|]. by apply (Hk k).
Qed.

(** What the iteration that starts at [pos] may add: a literal whose quote is not
    blanked, with a content only if all of it is. *)
Definition new_lit (pos a b next : nat) (lits : list StrLit) : Prop :=
  lits = [] ∨ ∃ o c ct, lits = [mkStr o c ct] ∧ pos ≤ o ∧ o < a ∧ o < c ≤ n
    ∧ (c < next ∨ (c = n ∧ next = n)) ∧ (∃ q, src !! o = Some q ∧ is_quote q)
    ∧ ∀ s, ct = Some s → to_bytes s = slice src (S o) c ∧ is_str s ∧ a = S o ∧ b = c.

Lemma advance s a b next lits interp :
  lex_inv s → lx_pos s < n → lx_pos s ≤ a → b ≤ next → lx_pos s < next ≤ n → new_lit (lx_pos s) a b next lits →
  lex_inv (mkLex next (blank (lx_masked s) a b) (lx_strings s ++ lits) interp).
Proof.
  intros [Hp Hm Hr Hl Hb Hs] Hlt Ha Hbn Hn Hnew.
  assert (∀ k, lx_pos s ≤ k → lx_masked s !! k = src !! k) as Hrest.
  { intros k Hk. rewrite <-(Nat.sub_add (lx_pos s) k), Nat.add_comm, <-!lookup_drop by lia. by rewrite Hr. }
  assert (Forall (λ l, sl_close l < lx_pos s) (lx_strings s)) as Hbefore.
  { eapply Forall_impl; [exact Hb|]. intros l [?|[? ?]]; lia. }
  split; cbn [lx_pos lx_masked lx_strings lx_interp].
  - lia.
  - by apply blank_masks.
  - rewrite drop_blank by done. apply list_eq. intros i. rewrite !lookup_drop. apply Hrest. lia.
  - apply Forall_app. split.
    + rewrite Forall_forall in Hl, Hbefore |- *. intros l Hin. apply lit_ok_blank; [|by apply Hl].
      specialize (Hl l Hin) as [? _]. specialize (Hbefore l Hin). simpl in *. lia.
    + destruct Hnew as [->|(o & c & ct & -> & Hpo & Hoa & Hoc & _ & (q & Hq & Hiq) & Hct)]; [done|].
      apply Forall_singleton. split; [done|]. cbn [sl_open sl_close sl_content]. split.
      * exists q. rewrite lookup_blank_out by lia. rewrite Hrest by lia. auto.
      * intros t Ht. destruct (Hct t Ht) as (? & ? & -> & ->). do 2 (split; [done|]). intros k x Hk.
        rewrite lookup_blank. assert ((S o <=? k) && (k <? c) = true) as ->.
        { apply andb_true_iff. split; [apply Nat.leb_le|apply Nat.ltb_lt]; lia. }
        destruct (lx_masked s !! k) as [y|]; [|done]. intros [= <-]. apply blank_byte_blank.
  - apply Forall_app. split.
    + eapply Forall_impl; [exact Hbefore|]. simpl. intros l ?. lia.
    + destruct Hnew as [->|(o & c & ct & -> & _ & _ & _ & Hc & _)]; [done|]. by apply Forall_singleton.
  - destruct Hnew as [->|(o & c & ct & -> & Hpo & _)]; [by rewrite app_nil_r|].
    clear -Hs Hbefore Hpo. induction Hs as [|l ls Hls IH Hal]; simpl.
    + constructor; constructor.
    + apply Forall_cons in Hbefore as [Hl Hbefore]. constructor; [by apply IH|].
      apply Forall_app. split; [done|]. apply Forall_singleton. simpl. lia.
Qed.

Lemma skip_ok s a b next :
  lex_inv s → lx_pos s < n → lx_pos s ≤ a → b ≤ next → lx_pos s < next ≤ n → lex_inv (skip_to s a b next).
Proof.
  intros Hi Hp Ha Hb Hn. unfold skip_to. rewrite <-(app_nil_r (lx_strings s)). apply advance; auto. by left.
Qed.

Lemma from_utf8_slice l t : from_utf8 (of_bytes l) = Some t → to_bytes t = l ∧ is_str t.
Proof. intros [-> ?]%from_utf8_Some. by rewrite to_bytes_of_bytes. Qed.

Lemma record_ok s o c raw next q :
  lex_inv s → lx_pos s ≤ o < n → o < c ≤ n → c ≤ next ≤ n → (c < next ∨ (c = n ∧ next = n)) →
  src !! o = Some q → is_quote q → lex_inv (record src s o c raw next).
Proof.
  intros Hi Ho Hc Hn Hcn Hq Hiq. unfold record. rewrite (Nat.min_l c) by lia. apply advance; try done; try lia.
  right. eexists _, _, _. split; [done|]. do 4 (split; [first [lia|done]|]). split; [eauto|].
  intros t. destruct (negb raw && _); [done|]. intros [? ?]%from_utf8_slice. auto.
Qed.

Lemma scan_template_ok s from o :
  lex_inv s → lx_pos s < n → from = S (lx_pos s) →
  match o with
  | Some i => i = lx_pos s ∧ src !! i = Some ch_backtick
  | None => True
  end → lex_inv (scan_template src s from o).
Proof.
  intros Hi Hp -> Ho. unfold scan_template.
  pose proof (template_len_bounds (drop (S (lx_pos s)) src)) as Hk. rewrite length_drop in Hk.
  destruct (template_len _) as [k []]; cbn zeta.
  - apply advance; try done; try lia. destruct o as [i|]; [|by left]. destruct Ho as [-> Hq].
    right. eexists _, _, _. split; [done|]. do 3 (split; [lia|]). split; [lia|].
    split; [exists ch_backtick; split; [done|right; by right]|].
    intros t [? ?]%from_utf8_slice. auto.
  - rewrite <-(app_nil_r (lx_strings s)). apply advance; try done; try lia. by left.
  - rewrite <-(app_nil_r (lx_strings s)). apply advance; try done; try lia. by left.
Qed.
End Invariant.

Lemma blank_nothing m a b : b ≤ a → blank m a b = m.
Proof.
  intros H. apply list_eq. intros i. rewrite lookup_blank. destruct (m !! i); [|done]. simpl.
  destruct (Nat.leb_spec a i), (Nat.ltb_spec i b); simpl; try done; lia.
Qed.

Lemma find_byte_after c src i b : src !! i = Some b → b ≠ c → i < find_byte c src i ≤ length src.
Proof.
  intros Hi Hne. pose proof (lookup_lt_Some _ _ _ Hi) as Hlt.
  pose proof (find_byte_bounds c src i ltac:(lia)) as Hb. split; [|lia].
  unfold find_byte in *. destruct (list_find _ _) as [[p x]|] eqn:E1; [|lia].
  apply list_find_Some in E1 as (Hp & -> & _). destruct p; [|lia].
  rewrite lookup_drop, Nat.add_0_r in Hp. congruence.
Qed.

Lemma first_some_elem {A} (P : A → Prop) (l : list (option A)) x :
  Forall (λ o, ∀ x, o = Some x → P x) l → first_some l = Some x → P x.
Proof. induction 1 as [|[y|] l Hy Hl IH]; simpl; [done| |done]. intros [= <-]. auto. Qed.

Section Steps.
Context (src : bytes) (syn : Syntax).
#[local] Abbreviation n := (length src).

Definition progress (s s' : LexState) : Prop := lex_inv src s' ∧ lx_pos s < lx_pos s'.

Context (s : LexState) (c : ascii).
Hypothesis (Hi : lex_inv src s) (Hc : src !! lx_pos s = Some c).

#[local] Lemma pos_lt : lx_pos s < n.
Proof. by apply lookup_lt_Some in Hc. Qed.

Lemma skip_progress a b next :
  lx_pos s ≤ a → b ≤ next → lx_pos s < next ≤ n → progress s (skip_to s a b next).
Proof. intros. pose proof pos_lt. split; [by apply skip_ok|]. simpl. lia. Qed.

Lemma record_progress o close raw next q :
  lx_pos s ≤ o < n → o < close ≤ n → close ≤ next ≤ n → (close < next ∨ (close = n ∧ next = n)) →
  src !! o = Some q → is_quote q → progress s (record src s o close raw next).
Proof. intros. split; [by eapply record_ok|]. simpl. lia. Qed.

Lemma line_comment_progress : c ≠ ch_newline → progress s (line_comment src s).
Proof.
  intros Hne. pose proof (find_byte_after _ _ _ _ Hc Hne). apply skip_progress; lia.
Qed.

Lemma slash_comment_progress x : slash_comment src syn s c = Some x → progress s x.
Proof.
  unfold slash_comment. destruct (slash_comments syn); [|done]. simpl.
  destruct (Ascii.eqb c "/") eqn:E1; [|done]. destruct (lx_pos s + 1 <? n) eqn:E2; [|done].
  apply Nat.ltb_lt in E2. destruct (is_at src (lx_pos s + 1) "/"); [|destruct (is_at _ _ _); [|done]]; intros [= <-].
  - apply line_comment_progress. intros H. by rewrite H in E1.
  - pose proof (block_len_bounds (nested_block_comments syn) (drop (lx_pos s + 2) src) 1) as Hb.
    rewrite length_drop in Hb. apply skip_progress; lia.
Qed.

Lemma hash_comment_progress x : hash_comment src syn s c = Some x → progress s x.
Proof.
  unfold hash_comment. destruct (hash_comments syn); [|done]. destruct (Ascii.eqb c "#") eqn:E1; [|done].
  intros [= <-]. apply line_comment_progress. intros H. by rewrite H in E1.
Qed.

Lemma ruby_comment_progress x : ruby_comment src syn s c = Some x → progress s x.
Proof.
  unfold ruby_comment. destruct (_ && _); [|done]. intros [= <-]. pose proof pos_lt.
  destruct (find_sub _ _ _) as [p|] eqn:E1; [|apply skip_progress; lia].
  apply find_sub_bounds in E1 as [? Hb]. simpl in Hb.
  pose proof (find_byte_bounds ch_newline src (p + 1) ltac:(lia)). apply skip_progress; lia.
Qed.

Lemma raw_string_progress x : raw_string src syn s c = Some x → progress s x.
Proof.
  unfold raw_string. destruct (_ && _); [|done]. set (h := count_hashes _).
  destruct (is_at _ _ _) eqn:E1; [|done]. apply bool_decide_eq_true_1 in E1. intros [= <-].
  pose proof (lookup_lt_Some _ _ _ E1).
  pose proof (find_sub_default src (lx_pos s + 1 + h + 1) (ch_dquote :: replicate h "#"%char) ltac:(lia)) as Hd.
  eapply record_progress; [lia|lia| | |exact E1|by left].
  - simpl length. rewrite length_replicate. lia.
  - destruct (decide (default n (find_sub src (lx_pos s + 1 + h + 1) (ch_dquote :: replicate h "#"%char)) = n)) as [E|].
    + right. rewrite E. simpl length. lia.
    + left. simpl length. lia.
Qed.

Lemma quote_kind : Ascii.eqb c ch_dquote || Ascii.eqb c ch_squote = true → is_quote c.
Proof. intros [?%Ascii.eqb_eq|?%Ascii.eqb_eq]%orb_true_iff; [by left|by right; left]. Qed.

Lemma triple_string_progress x : triple_string src syn s c = Some x → progress s x.
Proof.
  unfold triple_string. destruct (_ && _) eqn:E1; [|done]. intros [= <-].
  apply andb_true_iff in E1 as [[_ Hq%quote_kind]%andb_true_iff Hp%is_prefix_length].
  rewrite length_drop in Hp. simpl in Hp. pose proof pos_lt.
  pose proof (find_sub_default src (lx_pos s + 3) [c; c; c] ltac:(lia)) as Hd.
  set (close := default n _) in *. split; [|simpl; lia]. apply advance; try done; try lia.
  right. eexists _, _, _. split; [done|]. do 3 (split; [lia|]). split; [lia|]. split; [by exists c|done].
Qed.

Lemma scan_quoted_progress q : lx_pos s + 1 ≤ scan_quoted src (lx_pos s + 1) q (multiline_dquote syn) ≤ n.
Proof. pose proof pos_lt. apply scan_quoted_bounds. lia. Qed.

Lemma quoted_string_progress : is_quote c → progress s (quoted_string src syn s c).
Proof.
  intros Hq. pose proof pos_lt. pose proof (scan_quoted_progress c). unfold quoted_string.
  eapply record_progress; [lia|lia|lia|lia|exact Hc|done].
Qed.

Lemma char_literal_progress : progress s (char_literal src s).
Proof.
  pose proof pos_lt. unfold char_literal.
  pose proof (scan_quoted_bounds src (lx_pos s + 1) ch_squote false ltac:(lia)). apply skip_progress; lia.
Qed.

Lemma quote_progress x : quote src syn s c = Some x → progress s x.
Proof.
  unfold quote. destruct (Ascii.eqb c ch_dquote) eqn:E1.
  { intros [= <-]. apply quoted_string_progress, quote_kind. by rewrite E1. }
  destruct (Ascii.eqb c ch_squote) eqn:E2; [|done].
  destruct (single_quote syn); [| |destruct (is_rust_char _ _); [|done]]; intros [= <-].
  - apply quoted_string_progress, quote_kind. by rewrite E2, orb_true_r.
  - apply char_literal_progress.
  - apply char_literal_progress.
Qed.

Lemma template_progress o :
  match o with Some i => i = lx_pos s ∧ src !! i = Some ch_backtick | None => True end →
  progress s (scan_template src s (lx_pos s + 1) o).
Proof.
  intros Ho. pose proof pos_lt. split; [apply scan_template_ok; [done|done|lia|done]|].
  unfold scan_template. destruct (template_len _) as [k []]; simpl; lia.
Qed.

Lemma backtick_string_progress x : backtick_string src syn s c = Some x → progress s x.
Proof.
  unfold backtick_string. destruct (backtick syn); [|done].
  destruct (Ascii.eqb c ch_backtick) eqn:Hb; [|done]. apply Ascii.eqb_eq in Hb. simpl. pose proof pos_lt.
  destruct (template_interp syn); intros [= <-].
  - apply template_progress. by rewrite <-Hb.
  - pose proof (find_byte_bounds ch_backtick src (lx_pos s + 1) ltac:(lia)).
    eapply record_progress; [lia|lia|lia|lia|exact Hc|by right; right].
Qed.

Lemma plain_progress : progress s (mkLex (lx_pos s + 1) (lx_masked s) (lx_strings s) (lx_interp s)).
Proof.
  pose proof pos_lt. rewrite <-(blank_nothing (lx_masked s) (lx_pos s) (lx_pos s)) by done.
  rewrite <-(app_nil_r (lx_strings s)). split; [apply advance; try done; try lia; by left|]. simpl. lia.
Qed.
End Steps.

Lemma lex_step_progress src syn s c :
  lex_inv src s → src !! lx_pos s = Some c → progress src s (lex_step src syn s c).
Proof.
  intros Hi Hc. unfold lex_step. destruct (count_brace c (lx_interp s)) as [closed interp].
  set (s' := mkLex (lx_pos s) (lx_masked s) (lx_strings s) interp).
  assert (lex_inv src s') as Hi' by (destruct Hi; by constructor).
  change (progress src s) with (progress src s').
  destruct closed; [by apply (template_progress src s' c Hi' Hc None)|].
  destruct (first_some _) as [x|] eqn:E1; simpl default; [|by apply plain_progress with (c := c)].
  revert E1. apply (first_some_elem (progress src s')). rewrite !Forall_cons, Forall_nil. split_and!; try done; intros y.
  - by apply slash_comment_progress.
  - by apply hash_comment_progress.
  - by apply ruby_comment_progress with (c := c).
  - by apply raw_string_progress.
  - by apply triple_string_progress.
  - by apply quote_progress.
  - by apply backtick_string_progress.
Qed.

Lemma lex_loop_ok src syn fuel : ∀ s, lex_inv src s → length src ≤ lx_pos s + fuel →
  lex_inv src (lex_loop src syn fuel s) ∧ lx_pos (lex_loop src syn fuel s) = length src.
Proof.
  induction fuel as [|fuel IH]; intros s Hi Hf; pose proof (li_pos src s Hi).
  - assert (lx_pos s = length src) as E1 by lia. simpl. by rewrite lookup_ge_None_2 by lia.
  - simpl. destruct (src !! lx_pos s) as [c|] eqn:E1.
    + destruct (lex_step_progress src syn s c Hi E1) as [Hi' Hp]. apply IH; [done|lia].
    + apply lookup_ge_None in E1. split; [done|lia].
Qed.

Lemma lex_ok_parts src syn :
  let l := lex src syn in
  lx_pos l = length src
  ∧ Forall2 masks src (lx_masked l)
  ∧ Forall (lit_ok src (lx_masked l)) (lx_strings l)
  ∧ StronglySorted (λ a b, sl_close a < sl_open b) (lx_strings l).
Proof.
  destruct (lex_loop_ok src syn (length src) (mkLex 0 src [] [])) as [[] Hp]; [|simpl; lia|done].
  split; simpl; try done; try lia; try constructor. apply Reflexive_instance_0. by left.
Qed.

(** Masking a source text ends at its end and keeps every offset: a masked
    byte is the source's own or a space, never in place of a newline, so lines and
    columns are those of the file.  The literals come in order and do not overlap;
    the quote of each is code, and a literal with a content has exactly the valid
    UTF-8 text between its quotes, all of which the mask hides. *)
Theorem lex_ok src syn :
  let l := lex src syn in
  lx_pos l = length src
  ∧ Forall2 masks src (lx_masked l)
  ∧ Forall (lit_ok src (lx_masked l)) (lx_strings l)
  ∧ StronglySorted (λ a b, sl_close a < sl_open b) (lx_strings l).
Proof. exact (lex_ok_parts src syn). Qed.
