(* ===== verification/BoundShapes.v ===== *)
(** * Shapes of dynamic dispatch in one text ([graph/boundaries/mod.rs])

    The bracket map of a masked text, the tests that tell a dispatching use of a
    name from its look-alikes, and the scan of one source text. *)

From S2P Require Import Prelude Str Utf8 Domain BoundLex.

(** [Shape] in priority order. *)
Inductive Shape := Reflection | EventName | StringKey | Symbol | FunctionReference.

Definition shape_rank (s : Shape) : nat :=
  match s with Reflection => 0 | EventName => 1 | StringKey => 2 | Symbol => 3 | FunctionReference => 4 end.

Definition as_str (s : Shape) : string :=
  match s with
  | Reflection => "reflection" | EventName => "event_name" | StringKey => "string_key"
  | Symbol => "symbol" | FunctionReference => "function_reference"
  end.

Definition label (s : Shape) : string :=
  match s with
  | Reflection => "reflection" | EventName => "event name" | StringKey => "string key"
  | Symbol => "symbol" | FunctionReference => "function reference"
  end.

Record ShapeHit := mkHit { sh_line : nat; sh_shape : Shape; sh_via : option string }.

Definition REFLECTION_CALLEES : list string :=
  ["getattr"; "hasattr"; "methodcaller"; "send"; "public_send"; "__send__"; "method"; "instance_method";
   "public_method"; "respond_to?"; "getMethod"; "getDeclaredMethod"; "MethodByName"; "GetMethod";
   "InvokeMember"; "invokeMethod"; "dlsym"; "GetProcAddress"; "call_user_func"; "call_user_func_array";
   "method_exists"; "is_callable"].

Definition EVENT_CALLEES : list string :=
  ["on"; "once"; "off"; "emit"; "addListener"; "prependListener"; "removeListener"; "addEventListener";
   "removeEventListener"; "subscribe"; "publish"; "dispatch"; "trigger"; "handle"; "invoke"; "$on"; "$emit"].

Definition CONTROL_KEYWORDS : list string :=
  ["if"; "while"; "for"; "switch"; "match"; "elif"; "catch"; "until"; "unless"].

Definition DEF_KEYWORDS : list string := ["def"; "fn"; "function"; "func"; "fun"].

Definition NOT_CALL_KEYWORDS : list string :=
  ["def"; "fn"; "function"; "func"; "fun"; "class"; "struct"; "enum"; "union"; "trait"; "interface"; "type"; "impl"].

Definition MEMBER_MODIFIERS : list string :=
  ["public"; "private"; "protected"; "static"; "async"; "abstract"; "readonly"; "override"; "declare"; "get"; "set"].

(** ** Bytes around a position *)

Definition is_ascii_whitespace (b : ascii) : bool :=
  existsb (Ascii.eqb b) [ch_space; ch_tab; ch_newline; "012"%char; "013"%char].

(** [p > 0 && m[p - 1] == c] *)
Definition before_is (m : bytes) (p : nat) (c : ascii) : bool := (0 <? p) && is_at m (p - 1) c.

Fixpoint trim_ascii_start (l : bytes) : bytes :=
  match l with b :: l' => if is_ascii_whitespace b then trim_ascii_start l' else l | [] => [] end.

Definition trim_ascii (l : bytes) : bytes := reverse (trim_ascii_start (reverse (trim_ascii_start l))).

Fixpoint prev_non_ws (m : bytes) (i : nat) : option (nat * ascii) :=
  match i with
  | 0 => None
  | S j => match m !! j with
           | Some b => if is_ascii_whitespace b then prev_non_ws m j else Some (j, b)
           | None => None
           end
  end.

Fixpoint next_in (l : bytes) (j : nat) (nl : bool) : option (nat * ascii * bool) :=
  match l with
  | [] => None
  | b :: l' => if Ascii.eqb b ch_newline then next_in l' (S j) true
               else if is_ascii_whitespace b then next_in l' (S j) nl
               else Some (j, b, nl)
  end.

Definition next_non_ws (m : bytes) (i : nat) : option (nat * ascii * bool) := next_in (drop i m) i false.

Fixpoint ident_start (m : bytes) (s : nat) (syn : Syntax) : nat :=
  match s with
  | 0 => 0
  | S j => if ident_at m j syn then ident_start m j syn else s
  end.

(** The word is cut at ASCII bytes of a UTF-8 text, so [from_utf8_lossy] keeps it. *)
Definition ident_before (m : bytes) (end_ : nat) (syn : Syntax) : nat * string :=
  let s0 := if ruby syn && (before_is m end_ "?" || before_is m end_ "!") then end_ - 1 else end_ in
  let s := ident_start m s0 syn in
  (s, of_bytes (slice m s end_)).

Definition word_before (m : bytes) (pos : nat) (syn : Syntax) : option string :=
  match prev_non_ws m pos with
  | Some (k, _) => let w := (ident_before m (S k) syn).2 in if String.eqb w "" then None else Some w
  | None => None
  end.

(** [word.is_some_and(|w| LIST.contains(w))] *)
Definition word_in (w : option string) (l : list string) : bool :=
  match w with Some w => existsb (String.eqb w) l | None => false end.

(** [rest.starts_with("=")] but not with any of the longer operators given *)
Definition starts_eq (rest : bytes) (but : list string) : bool :=
  is_prefix (to_bytes "=") rest && negb (existsb (λ p, is_prefix (to_bytes p) rest) but).

(** ** Brackets and lines *)

Definition is_opener (b : ascii) : bool := existsb (Ascii.eqb b) ["("; "["; "{"]%char.
Definition is_closer (b : ascii) : bool := existsb (Ascii.eqb b) [")"; "]"; "}"]%char.

(** The variables of the loop of [Src::new]; [br_stack] has the last opener first. *)
Record BrState := mkBr {
  br_brackets : list nat;
  br_close : list (option nat);
  br_open_after : list (option nat);
  br_stack : list nat;
}.

Definition br_step (s : BrState) (p : nat * ascii) : BrState :=
  let '(j, b) := p in
  if is_opener b then
    mkBr (br_brackets s ++ [j]) (br_close s ++ [None]) (br_open_after s ++ [Some j])
      (length (br_brackets s) :: br_stack s)
  else if is_closer b then
    let '(close, stack) := match br_stack s with
                           | k :: r => (<[k := Some j]> (br_close s), r)
                           | [] => (br_close s, [])
                           end in
    let brackets := br_brackets s ++ [j] in
    mkBr brackets (close ++ [None]) (br_open_after s ++ [head stack ≫= λ k, brackets !! k]) stack
  else s.

Definition indexed (j : nat) (m : bytes) : list (nat * ascii) := zip (seq j (length m)) m.
Definition enumerate (m : bytes) : list (nat * ascii) := indexed 0 m.

Record Src := mkSrc {
  sr_m : bytes;
  sr_brackets : list nat;
  sr_close : list (option nat);
  sr_open_after : list (option nat);
  sr_line_starts : list nat;
}.

Definition Src_new (m : bytes) : Src :=
  let s := foldl br_step (mkBr [] [] [] []) (enumerate m) in
  mkSrc m (br_brackets s) (br_close s) (br_open_after s)
    (0 :: (S ∘ fst <$> filter (λ p, p.2 = ch_newline) (enumerate m))).

(** [partition_point] of a sorted slice *)
Fixpoint partition_point {A} (f : A → bool) (l : list A) : nat :=
  match l with x :: l' => if f x then S (partition_point f l') else 0 | [] => 0 end.

Definition enclosing_opener (s : Src) (pos : nat) : option nat :=
  match partition_point (λ p, p <? pos) (sr_brackets s) with
  | 0 => None
  | S k => match mjoin (sr_open_after s !! k) with
           | Some o => if pos - 4096 <=? o then Some o else None
           | None => None
           end
  end.

(** [binary_search] of the ascending positions *)
Definition matching_close (s : Src) (open : nat) : option nat :=
  match list_find (λ p, p = open) (sr_brackets s) with
  | Some (k, _) => mjoin (sr_close s !! k)
  | None => None
  end.

Definition line_no (s : Src) (pos : nat) : nat := partition_point (λ l, l <=? pos) (sr_line_starts s).

Definition line_of (s : Src) (pos : nat) : bytes :=
  let l := line_no s pos in
  let from := default 0 (sr_line_starts s !! (l - 1)) in
  let to := match sr_line_starts s !! l with Some n => n - 1 | None => length (sr_m s) end in
  trim_ascii (slice (sr_m s) from to).

(** ** Callees *)

Fixpoint callee_loop (src : Src) (syn : Syntax) (k at_ : nat) : option string :=
  match k with
  | 0 => None
  | S k' =>
      match enclosing_opener src at_ with
      | None => None
      | Some o =>
          if is_at (sr_m src) o "(" then
            let name := match prev_non_ws (sr_m src) o with
                        | Some (k, _) => (ident_before (sr_m src) (S k) syn).2
                        | None => ""
                        end in
            if String.eqb name "" then None else Some name
          else callee_loop src syn k' o
      end
  end.

Definition enclosing_callee (src : Src) (pos : nat) (syn : Syntax) : option string := callee_loop src syn 2 pos.

(** Back over one balanced [<..>]: the position of its [<]. *)
Fixpoint angle_back (m : bytes) (floor depth j : nat) : option nat :=
  match j with
  | 0 => None
  | S j' =>
      if j <=? floor then None
      else if is_at m j' ">" && negb (before_is m j' "-") then angle_back m floor (S depth) j'
      else if is_at m j' "<" then
        if depth =? 1 then Some j' else angle_back m floor (depth - 1) j'
      else angle_back m floor depth j'
  end.

Definition list_owner (m : bytes) (o : nat) (syn : Syntax) : option nat :=
  match prev_non_ws m o with
  | None => None
  | Some (k, b) =>
      let kb := if Ascii.eqb b ">" && negb (before_is m k "-")
                then angle_back m (k - 512) 0 (S k) ≫= prev_non_ws m
                else Some (k, b) in
      match kb with
      | Some (k, b) => if is_ident_byte b syn then Some (ident_before m (S k) syn).1 else None
      | None => None
      end
  end.

Definition opens_def_params (m : bytes) (o : nat) (syn : Syntax) : bool :=
  word_in (list_owner m o syn ≫= λ ws, word_before m ws syn) DEF_KEYWORDS.

Fixpoint skip_spaces_back (m : bytes) (j : nat) : nat :=
  match j with
  | 0 => 0
  | S j' => if is_at m j' ch_space || is_at m j' ch_tab then skip_spaces_back m j' else j
  end.

Definition parenless_callee (m : bytes) (pos : nat) (syn : Syntax) : option string :=
  let j := skip_spaces_back m pos in
  if j =? pos then None
  else let name := (ident_before m j syn).2 in if String.eqb name "" then None else Some name.

Definition classify_callee (name : string) : option Shape :=
  if existsb (String.eqb name) REFLECTION_CALLEES then Some Reflection
  else if existsb (String.eqb name) EVENT_CALLEES then Some EventName
  else None.

Definition IMPORT_HEADS : list string :=
  ["import "; "import{"; "from "; "use "; "pub use "; "pub(crate) use "; "pub(super) use "; "#include"; "using ";
   "extern crate"; "package "; "export {"; "export{"; "export *"; "export type {"; "export default"].

Definition is_import_line (line : bytes) : bool := existsb (λ h, is_prefix (to_bytes h) line) IMPORT_HEADS.

(** An import or an attribute: what it names is not a value. *)
Definition not_value_line (line : bytes) : bool :=
  is_import_line line || is_prefix (to_bytes "#[") line || is_prefix (to_bytes "#![") line.

(** ** Bindings and values *)

Definition is_bare (m : bytes) (s : nat) : bool :=
  match prev_non_ws m s with
  | Some (p, b) =>
      if Ascii.eqb b "." then before_is m p "."
      else if Ascii.eqb b ":" then negb (before_is m p ":")
      else if Ascii.eqb b ">" then negb (before_is m p "-")
      else true
  | None => true
  end.

(** [=] at [p] is an assignment, not the end of a comparison. *)
Definition plain_eq (m : bytes) (p : nat) : bool :=
  negb (before_is m p "=" || before_is m p "!" || before_is m p "<" || before_is m p ">").

(** The text after the bracket that closes [o]. *)
Definition after_close (src : Src) (o : nat) : option bytes :=
  (λ c, trim_ascii_start (drop (c + 1) (sr_m src))) <$> matching_close src o.

(** A bracket followed by [=>] or [=] is a pattern or a parameter list. *)
Definition is_pattern (src : Src) (o : nat) : bool :=
  match after_close src o with
  | Some r => is_prefix (to_bytes "=>") r || starts_eq r ["=="]
  | None => false
  end.

Definition in_binding_list (src : Src) (syn : Syntax) (o : nat) : bool :=
  let m := sr_m src in
  if is_at m o "(" then
    let callee := word_before m o syn in
    if word_in callee CONTROL_KEYWORDS then false
    else if word_in callee DEF_KEYWORDS then true
    else if opens_def_params m o syn then true
    else paren_conditions syn
         && match after_close src o with Some r => is_prefix (to_bytes "{") r | None => false end
  else if is_at m o "{" then word_in (word_before m o syn) ["const"; "let"; "var"]
  else false.

(** [url = ..] where a statement starts *)
Definition statement_assignment (m rest : bytes) (s : nat) : bool :=
  starts_eq rest ["=="; "=>"]
  && match prev_non_ws m s with
     | None => true
     | Some (p, b) =>
         existsb (Ascii.eqb ch_newline) (slice m (p + 1) s) || existsb (Ascii.eqb b) [";"; "{"; "}"]%char
     end.

Definition closure_parameter (m rest : bytes) (s : nat) : bool :=
  let prev := prev_non_ws m s in
  let after c := is_prefix [c] rest in
  (match prev with Some (p, b) => Ascii.eqb b "|" && negb (before_is m p "|") | None => false end
   && (after "|"%char || after ","%char || after ":"%char))
  || (match prev with Some (_, b) => Ascii.eqb b "," | None => false end && after "|"%char).

Definition is_binding (src : Src) (s e : nat) (syn : Syntax) : bool :=
  let m := sr_m src in
  if negb (is_bare m s) then false
  else if match prev_non_ws m s with Some (p, b) => Ascii.eqb b "=" && plain_eq m p | None => false end then false
  else if word_in (word_before m s syn) ["const"; "let"; "var"; "val"; "mut"; "for"; "as"; "lambda"] then true
  else
    let rest := trim_ascii_start (drop e m) in
    if is_prefix (to_bytes ":=") rest then true
    else if statement_assignment m rest s then true
    else if closure_parameter m rest s then true
    else match enclosing_opener src s with
         | None => false
         | Some o => if is_pattern src o then true else in_binding_list src syn o
         end.

Definition value_ends (m : bytes) (e : nat) (syn : Syntax) : bool :=
  match next_non_ws m e with
  | None => true
  | Some (_, b, false) => existsb (Ascii.eqb b) [","; ")"; "]"; "}"; ";"]%char
  | Some (_, b, true) => is_ident_byte b syn || existsb (Ascii.eqb b) [")"; "]"; "}"]%char
  end.

(** How a qualifier chain is left: the function returns, or goes on from [q]; with
    [unresolved]. *)
Inductive Chain := ChainReturn (value unresolved : bool) | ChainEnd (q : nat) (unresolved : bool).

(** What separates the word from its qualifier at [p]. *)
Inductive Separator := SepAt (start : nat) | SepField | SepNone.

Definition separator (m : bytes) (syn : Syntax) (p : nat) (b : ascii) : Separator :=
  if Ascii.eqb b "." && negb (before_is m p ".") then
    if member_value syn then SepAt p else SepField
  else if Ascii.eqb b ":" && before_is m p ":" then SepAt (p - 1)
  else if Ascii.eqb b ">" && before_is m p "-" then SepAt (p - 1)
  else SepNone.

Definition with_dollar (syn : Syntax) : Syntax := {|
  slash_comments := slash_comments syn; hash_comments := hash_comments syn;
  nested_block_comments := nested_block_comments syn; single_quote := single_quote syn;
  backtick := backtick syn; template_interp := template_interp syn; triple_quotes := triple_quotes syn;
  rust_raw := rust_raw syn; multiline_dquote := multiline_dquote syn; ruby := ruby syn; dollar_ident := true;
  key_colon := key_colon syn; key_rocket := key_rocket syn; index_store_is_data := index_store_is_data syn;
  paren_conditions := paren_conditions syn; function_methods := function_methods syn;
  member_value := member_value syn; check_path_qualifier := check_path_qualifier syn |}.

Section Reference.
Context (src : Src) (syn : Syntax) (qualifiers : option (list string)).

(** The loop back over [a.b.save]; [s] is the start of the name, and every
    iteration moves [q] back. *)
Fixpoint chain (s fuel q : nat) (own unresolved : bool) : Chain :=
  match fuel with
  | 0 => ChainEnd q unresolved
  | S fuel' =>
      let m := sr_m src in
      match prev_non_ws m q with
      | None => ChainEnd q unresolved
      | Some (p, b) =>
          match separator m syn p b with
          | SepField => ChainReturn false unresolved
          | SepNone => ChainEnd q unresolved
          | SepAt sep_start =>
              let '(start, word) := ident_before m sep_start (with_dollar syn) in
              let path := own && Ascii.eqb b ":" && check_path_qualifier syn in
              let unresolved' := unresolved || path && negb (String.eqb word "")
                && match qualifiers with Some known => negb (existsb (String.eqb word) known) | None => false end in
              if String.eqb word "" then
                if path && bool_decide (is_Some qualifiers)
                   && match prev_non_ws m sep_start with Some (_, c) => Ascii.eqb c ">" | None => false end
                then ChainReturn (negb (not_value_line (line_of src s))) true
                else if Ascii.eqb b ":" then ChainEnd sep_start unresolved'
                else ChainReturn false unresolved'
              else chain s fuel' start false unresolved'
          end
      end
  end.

(** The byte before a value. *)
Definition before_value (m : bytes) (q p : nat) (pb : ascii) : bool :=
  if existsb (Ascii.eqb pb) ["("; "["; "{"; ","]%char then true
  else if Ascii.eqb pb "=" then plain_eq m p
  else if Ascii.eqb pb ":" then negb (before_is m p ":")
  else if Ascii.eqb pb "&" then negb (before_is m p "&")
  else word_in (word_before m q syn) ["return"].

(** Up to three enclosing brackets: no parameter list, condition, import or pattern. *)
Fixpoint brackets_allow (k at_ : nat) : bool :=
  match k with
  | 0 => true
  | S k' =>
      let m := sr_m src in
      match enclosing_opener src at_ with
      | None => true
      | Some o =>
          if is_import_line (line_of src o) then false
          else if is_pattern src o then false
          else if is_at m o "(" then
            negb (word_in (word_before m o syn) CONTROL_KEYWORDS || word_in (word_before m o syn) DEF_KEYWORDS
                  || opens_def_params m o syn)
          else if is_at m o "{" then
            if before_is m o "$" then false
            else if word_in (word_before m o syn) ["const"; "let"; "var"] then false
            else brackets_allow k' o
          else brackets_allow k' o
      end
  end.

(** Whether it is a value, and whether its path is undecided. *)
Definition is_function_reference (s e : nat) : bool * bool :=
  let m := sr_m src in
  if function_methods syn
     && existsb (λ t, is_prefix (to_bytes t) (drop e m)) [".bind("; ".call("; ".apply("]
  then (negb (is_import_line (line_of src s)), false)
  else if negb (value_ends m e syn) then (false, false)
  else match chain s (S s) s true false with
       | ChainReturn v unresolved => (v, unresolved)
       | ChainEnd q unresolved =>
           match prev_non_ws m q with
           | None => (false, unresolved)
           | Some (p, pb) =>
               if negb (before_value m q p pb) then (false, unresolved)
               else if not_value_line (line_of src s) then (false, unresolved)
               else if Ascii.eqb pb "=" then (true, unresolved)
               else (brackets_allow 3 q, unresolved)
           end
       end.
End Reference.

(** ** Strings *)

Section Strings.
Context `{U : Unicode}.

Definition path_char (c : Z) : bool :=
  is_alphanumeric c || existsb (Z.eqb c) [95; 46; 58; 35; 36]%Z.

Definition names (content name : string) : bool :=
  String.eqb content name
  || match strip_suffix name content with
     | Some head => (ends_with "." head || ends_with "::" head || ends_with "#" head) && forallb path_char (chars head)
     | None => false
     end.

Definition index_key (src : Src) (syn : Syntax) (before after : option (nat * ascii)) : bool :=
  match before, after with
  | Some (_, a), Some (j, b) =>
      Ascii.eqb a "[" && Ascii.eqb b "]"
      && negb (index_store_is_data syn && starts_eq (trim_ascii_start (drop (j + 1) (sr_m src))) ["=="])
  | _, _ => false
  end.

Definition key_follows (src : Src) (syn : Syntax) (after : option (nat * ascii)) : bool :=
  match after with
  | Some (j, b) =>
      if Ascii.eqb b ":" then key_colon syn && negb (is_at (sr_m src) (j + 1) ":")
      else if Ascii.eqb b "=" then key_rocket syn && is_at (sr_m src) (j + 1) ">"
      else false
  | None => false
  end.

Definition classify_string (src : Src) (lit : StrLit) (name : string) (syn : Syntax) : option (Shape * option string) :=
  match sl_content lit with
  | None => None
  | Some content =>
      if negb (names content name) then None
      else
        let m := sr_m src in
        let callee := match enclosing_callee src (sl_open lit) syn with
                      | Some c => Some c
                      | None => if ruby syn then parenless_callee m (sl_open lit) syn else None
                      end in
        match callee ≫= λ c, (λ shape, (shape, Some c)) <$> classify_callee c with
        | Some hit => Some hit
        | None =>
            if negb (String.eqb content name) then None
            else
              let before := prev_non_ws m (sl_open lit) in
              let after := fst <$> next_non_ws m (sl_close lit + 1) in
              if index_key src syn before after then Some (StringKey, None)
              else if key_follows src syn after
                      && negb (match before with Some (_, b) => Ascii.eqb b "?" | None => false end)
                      && negb (word_in (word_before m (sl_open lit) syn) ["case"])
              then Some (StringKey, None)
              else None
        end
  end.
End Strings.

(** ** Calls *)

(** [depth] and [square] of the loop over at most 512 bytes, from [k]. *)
Fixpoint angle_loop (m l : bytes) (k depth square : nat) : option nat :=
  match l with
  | [] => None
  | b :: l' =>
      if Ascii.eqb b "<" then angle_loop m l' (S k) (S depth) square
      else if Ascii.eqb b ">" && negb (before_is m k "-") then
        if depth =? 1 then Some (k + 1) else angle_loop m l' (S k) (depth - 1) square
      else if Ascii.eqb b "[" then angle_loop m l' (S k) depth (S square)
      else if Ascii.eqb b "]" then angle_loop m l' (S k) depth (square - 1)
      else if Ascii.eqb b ";" && (square =? 0) then None
      else if Ascii.eqb b "{" || Ascii.eqb b "}" then None
      else angle_loop m l' (S k) depth square
  end.

Definition past_angle (m : bytes) (lt : nat) : option nat := angle_loop m (take 512 (drop lt m)) lt 0 0.

Fixpoint attribute_loop (src : Src) (k at_ : nat) : bool :=
  match k with
  | 0 => false
  | S k' =>
      match enclosing_opener src at_ with
      | None => false
      | Some o =>
          let m := sr_m src in
          if is_at m o "[" && (before_is m o "#" || before_is m o "!" && before_is m (o - 1) "#") then true
          else attribute_loop src k' o
      end
  end.

Definition in_attribute (src : Src) (pos : nat) : bool := attribute_loop src 8 pos.

(** Where the argument list of a name ending at [e] starts, past type arguments. *)
Definition argument_list (m : bytes) (e : nat) (language : string) : option nat :=
  let after j := fst ∘ fst <$> next_non_ws m j in
  match after e with
  | None => None
  | Some j =>
      if String.eqb language "rust" && is_prefix (to_bytes "::<") (drop j m) then past_angle m (j + 2) ≫= after
      else if existsb (String.eqb language) ["typescript"; "tsx"] && is_at m j "<" then past_angle m j ≫= after
      else Some j
  end.

(** A JS generator, method body or TypeScript signature. *)
Definition js_declaration (src : Src) (s j : nat) (syn : Syntax) : bool :=
  let m := sr_m src in
  match prev_non_ws m s with
  | Some (p, b) => Ascii.eqb b "*" && word_in (word_before m p syn) ["function"]
  | None => false
  end
  || is_bare m s
     && match matching_close src j ≫= λ c, next_non_ws m (c + 1) with
        | Some (_, b, _) =>
            if Ascii.eqb b "{" then true
            else if Ascii.eqb b ":" then
              match prev_non_ws m s with
              | None => true
              | Some (_, c) => existsb (Ascii.eqb c) [";"; "{"; "}"]%char || word_in (word_before m s syn) MEMBER_MODIFIERS
              end
            else false
        | None => false
        end.

Definition is_call_site (src : Src) (s e : nat) (syn : Syntax) (language : string) : bool :=
  let m := sr_m src in
  match argument_list m e language with
  | None => false
  | Some j =>
      if negb (is_at m j "(") then false
      else if word_in (word_before m s syn) NOT_CALL_KEYWORDS then false
      else if existsb (String.eqb language) ["typescript"; "tsx"; "javascript"] && js_declaration src s j syn then false
      else negb (String.eqb language "rust" && in_attribute src s)
  end.

Definition call_family (language : string) : option string :=
  if String.eqb language "rust" then Some "rust"
  else if String.eqb language "python" then Some "python"
  else if existsb (String.eqb language) ["javascript"; "typescript"; "tsx"] then Some "js"
  else None.

(** ** The scan of one text *)

Record SourceScan := mkScan {
  sc_hits : list ShapeHit;
  sc_unresolved_lines : list nat;
  sc_call_lines : list nat;
}.

Definition empty_scan : SourceScan := mkScan [] [] [].

#[global] Abbreviation Hits := (gmap nat (Shape * option string)).

Section Scan.
Context `{U : Unicode}.


(** The most specific shape of a line is kept, the first of equals. *)
Definition add_hit (src : Src) (hits : Hits) (pos : nat) (shape : Shape) (via : option string) : Hits :=
  let line := line_no src pos in
  match hits !! line with
  | Some (s, _) => if shape_rank s <=? shape_rank shape then hits else <[line := (shape, via)]> hits
  | None => <[line := (shape, via)]> hits
  end.

Definition add_string (src : Src) (name : string) (syn : Syntax) (hits : Hits) (lit : StrLit) : Hits :=
  match classify_string src lit name syn with
  | Some (shape, via) => add_hit src hits (sl_open lit) shape via
  | None => hits
  end.

(** A whole word at [[s, e)]. *)
Definition is_word_at (m : bytes) (s e : nat) (syn : Syntax) : bool :=
  ((s =? 0) || negb (ident_at m (s - 1) syn))
  && ((length m <=? e) || negb (ident_at m e syn || ruby syn && (is_at m e "?" || is_at m e "!"))).

(** The loop over [find_sub], from [from]. *)
Fixpoint occurrences_from (m nb : bytes) (syn : Syntax) (fuel from : nat) : list (nat * nat) :=
  match fuel, find_sub m from nb with
  | S fuel', Some s =>
      let e := s + length nb in
      (if is_word_at m s e syn then [(s, e)] else []) ++ occurrences_from m nb syn fuel' (s + 1)
  | _, _ => []
  end.

Definition occurrences (m nb : bytes) (syn : Syntax) : list (nat * nat) :=
  occurrences_from m nb syn (S (length m)) 0.

(** The loops look at the clock at every 256th occurrence. *)
Definition gives_up (past : nat → bool) (i : nat) : bool := (i mod 256 =? 0) && past i.

Fixpoint shadow_loop (src : Src) (syn : Syntax) (def_lines : list nat) (past : nat → bool)
    (occs : list (nat * nat)) (i : nat) (def_name_lines : list nat) : option bool :=
  match occs with
  | [] => Some false
  | (s, e) :: occs' =>
      if gives_up past i then None
      else
        let line := line_no src s in
        if bool_decide (line ∈ def_lines) && negb (bool_decide (line ∈ def_name_lines))
        then shadow_loop src syn def_lines past occs' (S i) (def_name_lines ++ [line])
        else if is_binding src s e syn then Some true
        else shadow_loop src syn def_lines past occs' (S i) def_name_lines
  end.

Definition decl_lines (src : Src) (syn : Syntax) (occs : list (nat * nat)) : gset nat :=
  list_to_set ((λ o, line_no src o.1) <$>
    filter (λ o, word_in (word_before (sr_m src) o.1 syn) NOT_CALL_KEYWORDS = true) occs).

Definition ScanAcc : Type := Hits * list nat * list nat.

Definition ruby_symbol (src : Src) (syn : Syntax) (s : nat) : bool :=
  let m := sr_m src in
  before_is m s ":" && ((s <? 2) || negb (before_is m (s - 1) ":" || ident_at m (s - 2) syn)).

Definition ruby_hit (src : Src) (syn : Syntax) (hits : Hits) (s : nat) : Hits :=
  if ruby_symbol src syn s then
    let callee := match enclosing_callee src (s - 1) syn with
                  | Some c => Some c
                  | None => parenless_callee (sr_m src) (s - 1) syn
                  end in
    match callee ≫= classify_callee with
    | Some shape => add_hit src hits s shape callee
    | None => add_hit src hits s Symbol None
    end
  else hits.

Section Occurrence.
Context (src : Src) (syn : Syntax) (language : string) (def_lines : list nat).
Context (qualifiers : option (list string)) (decls : gset nat) (counts_calls shadowed : bool).

Definition add_call (call_lines : list nat) (s e : nat) : list nat :=
  let line := line_no src s in
  if counts_calls && negb (shadowed && is_bare (sr_m src) s) && is_call_site src s e syn language
     && negb (bool_decide (line ∈ def_lines)) && negb (bool_decide (line ∈ decls))
     && negb (bool_decide (last call_lines = Some line))
  then call_lines ++ [line] else call_lines.

Definition scan_occurrence (acc : ScanAcc) (o : nat * nat) : ScanAcc :=
  let '(hits, unresolved, calls) := acc in
  let '(s, e) := o in
  let m := sr_m src in
  if ruby syn then (ruby_hit src syn hits s, unresolved, calls)
  else
    let calls := add_call calls s e in
    if before_is m s "@" || before_is m s "$" then (hits, unresolved, calls)
    else if shadowed && is_bare m s then (hits, unresolved, calls)
    else match is_function_reference src syn qualifiers s e with
         | (true, true) =>
             let line := line_no src s in
             (hits, if bool_decide (line ∈ unresolved) then unresolved else unresolved ++ [line], calls)
         | (true, false) => (add_hit src hits s FunctionReference None, unresolved, calls)
         | (false, _) => (hits, unresolved, calls)
         end.

Fixpoint scan_loop (past : nat → bool) (occs : list (nat * nat)) (i : nat) (acc : ScanAcc) : option ScanAcc :=
  match occs with
  | [] => Some acc
  | o :: occs' => if gives_up past i then None else scan_loop past occs' (S i) (scan_occurrence acc o)
  end.
End Occurrence.

(** A [BTreeMap] in line order *)
Definition hit_list (hits : Hits) : list ShapeHit :=
  (λ p, mkHit p.1 p.2.1 p.2.2) <$> sort_cmp (cmp_by fst Nat.compare) (map_to_list hits).

(** [None] is the deadline: [past] and [past'] are the answers of the clock in the
    two loops. *)
Definition scan_source_until (language source name : string) (def_lines : list nat)
    (qualifiers : option (list string)) (past past' : nat → bool) : option SourceScan :=
  match syntax_for language with
  | None => Some empty_scan
  | Some syn =>
      if String.eqb name "" || negb (contains name source) then Some empty_scan
      else
        let lexed := lex (to_bytes source) syn in
        let src := Src_new (lx_masked lexed) in
        let m := lx_masked lexed in
        let hits := foldl (add_string src name syn) ∅ (lx_strings lexed) in
        let occs := occurrences m (to_bytes name) syn in
        let counts_calls := bool_decide (is_Some (call_family language)) in
        match (if ruby syn then Some false else shadow_loop src syn def_lines past occs 0 []) with
        | None => None
        | Some shadowed =>
            let decls := if counts_calls then decl_lines src syn occs else ∅ in
            match scan_loop src syn language def_lines qualifiers decls counts_calls shadowed past' occs 0 (hits, [], []) with
            | None => None
            | Some (hits, unresolved, calls) =>
                Some (mkScan (hit_list hits) (filter (λ l, hits !! l = None) unresolved) calls)
            end
        end
  end.

(** No deadline *)
Definition never (i : nat) : bool := false.

Definition scan_source_with_defs (language source name : string) (def_lines : list nat) : list ShapeHit :=
  default [] (sc_hits <$> scan_source_until language source name def_lines None never never).

Definition scan_source (language source name : string) : list ShapeHit :=
  scan_source_with_defs language source name [].

Definition scan_calls (language source name : string) (def_lines : list nat) : option (list nat) :=
  match call_family language with
  | None => None
  | Some _ => sc_call_lines <$> scan_source_until language source name def_lines None never never
  end.
End Scan.

(** * Properties *)

(** ** The bracket map is the count of depth *)

(** What the map replaces: a walk forward to the close of an opener, and back to
    the innermost opener, counting the depth over all three kinds. *)
Fixpoint close_scan (depth : nat) (l : bytes) (j : nat) : option nat :=
  match l with
  | [] => None
  | b :: l' =>
      if is_opener b then close_scan (S depth) l' (S j)
      else if is_closer b then match depth with 0 => Some j | S d => close_scan d l' (S j) end
      else close_scan depth l' (S j)
  end.

Fixpoint open_scan (depth : nat) (m : bytes) (pos : nat) : option nat :=
  match pos with
  | 0 => None
  | S j =>
      match m !! j with
      | None => None
      | Some b =>
          if is_opener b then match depth with 0 => Some j | S d => open_scan d m j end
          else if is_closer b then open_scan (S depth) m j
          else open_scan depth m j
      end
  end.

Lemma open_scan_app l l' : ∀ pos d, pos ≤ length l → open_scan d (l ++ l') pos = open_scan d l pos.
Proof.
  induction pos as [|j IH]; intros d Hp; simpl; [done|]. rewrite lookup_app_l by lia.
  destruct (l !! j) as [b|]; [|done]. destruct d; repeat (case_match; try done); apply IH; lia.
Qed.

Lemma indexed_app j l l' : indexed j (l ++ l') = indexed j l ++ indexed (j + length l) l'.
Proof. unfold indexed. rewrite length_app, seq_app, zip_with_app; [done|]. by rewrite length_seq. Qed.

(** Positions of the openers not yet closed. *)
Definition stack_pos (s : BrState) : list nat := (λ k, br_brackets s !!! k) <$> br_stack s.

Record br_ok (l : bytes) (s : BrState) : Prop := {
  bo_close : length (br_close s) = length (br_brackets s);
  bo_after : length (br_open_after s) = length (br_brackets s);
  bo_sorted : StronglySorted lt (br_brackets s);
  bo_lt : Forall (λ p, p < length l) (br_brackets s);
  bo_stack : Forall (λ k, br_close s !! k = Some None) (br_stack s);
  bo_nodup : NoDup (br_stack s);
  bo_pos : ∀ d, stack_pos s !! d = open_scan d l (length l);
  bo_last : match last (br_open_after s) with
            | Some o => o = head (stack_pos s)
            | None => stack_pos s = []
            end;
}.

Lemma sorted_snoc (l : list nat) x : StronglySorted lt l → Forall (λ p, p < x) l → StronglySorted lt (l ++ [x]).
Proof.
  induction 1 as [|a l Hl IH Ha]; intros Hx; simpl; [repeat constructor|].
  apply Forall_cons in Hx as [? Hx]. constructor; [auto|]. apply Forall_app. split; [done|]. by constructor.
Qed.

Lemma fmap_lookup_total_app (l : list nat) x (ks : list nat) :
  Forall (λ k, k < length l) ks → (λ k, (l ++ [x]) !!! k) <$> ks = (λ k, l !!! k) <$> ks.
Proof. intros H. apply list_fmap_ext. intros i k Hk. apply lookup_total_app_l. by apply (Forall_lookup_1 _ _ _ _ H Hk). Qed.

Lemma br_step_ok l s b : br_ok l s → br_ok (l ++ [b]) (br_step s (length l, b)).
Proof.
  intros [Hc Ha Hs Hl Hst Hn Hp Hla].
  assert (Forall (λ k, k < length (br_brackets s)) (br_stack s)) as Hlt.
  { eapply Forall_impl; [exact Hst|]. simpl. intros k Hk. apply lookup_lt_Some in Hk. lia. }
  assert (Forall (λ p, p < length (l ++ [b])) (br_brackets s)) as Hl'.
  { eapply Forall_impl; [exact Hl|]. simpl. rewrite length_app. simpl. intros. lia. }
  assert (∀ d, open_scan d (l ++ [b]) (length (l ++ [b])) =
    if is_opener b then match d with 0 => Some (length l) | S d => stack_pos s !! d end
    else if is_closer b then stack_pos s !! (S d) else stack_pos s !! d) as Hscan.
  { intros d. rewrite length_app, Nat.add_1_r. simpl. rewrite lookup_app_r, Nat.sub_diag by done. simpl.
    rewrite !Hp. destruct d; repeat case_match; rewrite ?open_scan_app, ?Hp by done; done. }
  rewrite length_app in Hscan, Hl'. simpl in Hscan, Hl'. unfold br_step. destruct (is_opener b) eqn:Eo; [|destruct (is_closer b) eqn:Ec].
  - split; unfold stack_pos; cbn [br_brackets br_close br_open_after br_stack]; rewrite ?length_app; simpl; try lia.
    + by apply sorted_snoc.
    + apply Forall_app. split; [done|]. repeat constructor. lia.
    + constructor.
      * rewrite <-Hc, lookup_app_r, Nat.sub_diag by done. done.
      * eapply Forall_impl; [exact Hst|]. simpl. intros k Hk. by apply lookup_app_l_Some.
    + constructor; [|done]. intros Hin. rewrite Forall_forall in Hlt. specialize (Hlt _ Hin). lia.
    + intros d. rewrite lookup_total_app_r, Nat.sub_diag, fmap_lookup_total_app by done.
      rewrite Hscan. by destruct d.
    + rewrite last_snoc, lookup_total_app_r, Nat.sub_diag by done. done.
  - assert (∃ close, (match br_stack s with k :: r => (<[k := Some (length l)]> (br_close s), r) | [] => (br_close s, []) end)
        = (close, tail (br_stack s)) ∧ length close = length (br_brackets s)
        ∧ Forall (λ k, close !! k = Some None) (tail (br_stack s))) as (close & -> & Hc' & Hst').
    { destruct (br_stack s) as [|k r]; [by eexists|]. eexists. split; [done|]. split; [by rewrite length_insert|].
      apply Forall_cons in Hst as [_ Hst]. apply NoDup_cons in Hn as [Hk _].
      rewrite Forall_forall in Hst |- *. intros x Hx. rewrite list_lookup_insert_ne by (by intros ->). by apply Hst. }
    assert (Forall (λ k, k < length (br_brackets s)) (tail (br_stack s))) as Hlt'.
    { destruct (br_stack s); [done|]. by apply Forall_cons in Hlt as [_ ?]. }
    split; unfold stack_pos; cbn [br_brackets br_close br_open_after br_stack]; rewrite ?length_app; simpl; try lia.
    + by apply sorted_snoc.
    + apply Forall_app. split; [done|]. repeat constructor. lia.
    + eapply Forall_impl; [exact Hst'|]. simpl. intros k Hk. by apply lookup_app_l_Some.
    + destruct (br_stack s); [done|]. by apply NoDup_cons in Hn as [_ ?].
    + intros d. rewrite fmap_lookup_total_app, Hscan by done. unfold stack_pos.
      by destruct (br_stack s).
    + rewrite last_snoc. rewrite fmap_lookup_total_app by done. destruct (br_stack s) as [|k [|k2 r]]; try done.
      simpl. apply Forall_cons in Hlt' as [Hk2 _]. rewrite lookup_app_l by done. by apply list_lookup_lookup_total_lt.
  - split; rewrite ?length_app; try done.
Qed.

Definition br_state (l : bytes) : BrState := foldl br_step (mkBr [] [] [] []) (enumerate l).

Lemma br_state_app l l' : br_state (l ++ l') = foldl br_step (br_state l) (indexed (length l) l').
Proof. unfold br_state, enumerate. by rewrite indexed_app, foldl_app. Qed.

Lemma br_state_ok l : br_ok l (br_state l).
Proof.
  induction l as [|b l IH] using rev_ind; [by split; try constructor|]. rewrite br_state_app. by apply br_step_ok.
Qed.

Lemma indexed_cons j b l : indexed j (b :: l) = (j, b) :: indexed (S j) l.
Proof. done. Qed.

(** A closer ends the innermost opener; nothing else changes a close. *)
Lemma fold_close l : ∀ j s k d,
  NoDup (br_stack s) → br_stack s !! d = Some k → br_close s !! k = Some None →
  Forall (λ k, k < length (br_close s)) (br_stack s) → length (br_close s) = length (br_brackets s) →
  br_close (foldl br_step s (indexed j l)) !! k = Some (close_scan d l j).
Proof.
  assert (∀ l j s k, k ∉ br_stack s → k < length (br_close s) → length (br_close s) = length (br_brackets s) →
    br_close (foldl br_step s (indexed j l)) !! k = br_close s !! k) as Hout.
  { clear l. induction l as [|b l IH]; intros j s k Hk Hlt Hlen; [done|].
    rewrite indexed_cons. cbn [foldl]. unfold br_step at 2.
    destruct (is_opener b); [|destruct (is_closer b)].
    - rewrite IH; simpl; rewrite ?length_app; simpl; try lia; [by rewrite lookup_app_l|].
      rewrite elem_of_cons. intros [->|?]; [lia|done].
    - destruct (br_stack s) as [|k0 r]; rewrite IH; simpl; rewrite ?length_app, ?length_insert; simpl; try lia;
        try by set_solver.
      + by rewrite lookup_app_l.
      + rewrite lookup_app_l by (by rewrite length_insert). apply list_lookup_insert_ne. set_solver.
    - by apply IH. }
  induction l as [|b l IH]; intros j s k d Hn Hd Hk Hlt Hlen; [done|].
  rewrite indexed_cons. cbn [foldl close_scan].
  pose proof (lookup_lt_Some _ _ _ Hk) as Hkl.
  destruct (is_opener b) eqn:Eo; [|destruct (is_closer b) eqn:Ec]; unfold br_step at 2; rewrite Eo, ?Ec.
  - apply (IH (S j) _ k (S d)); simpl; rewrite ?length_app; simpl; try done; try lia.
    + constructor; [|done]. intros Hin. rewrite Forall_forall in Hlt. specialize (Hlt _ Hin). lia.
    + by rewrite lookup_app_l.
    + constructor; [lia|]. eapply Forall_impl; [exact Hlt|]. simpl. lia.
  - destruct (br_stack s) as [|k0 r]; [done|]. apply NoDup_cons in Hn as [Hk0 Hn].
    apply Forall_cons in Hlt as [Hk0l Hlt]. destruct d as [|d]; simpl in Hd.
    + assert (k0 = k) as -> by congruence.
      rewrite Hout; simpl; rewrite ?length_app, ?length_insert; simpl; try done; try lia.
      rewrite lookup_app_l by (by rewrite length_insert). by apply list_lookup_insert_eq.
    + apply IH; simpl; rewrite ?length_app, ?length_insert; simpl; try done; try lia.
      * rewrite lookup_app_l by (by rewrite length_insert). rewrite list_lookup_insert_ne; [done|].
        intros ->. destruct Hk0. by eapply list_elem_of_lookup_2.
      * eapply Forall_impl; [exact Hlt|]. simpl. lia.
  - by apply IH.
Qed.

Lemma fold_grows l : ∀ j s,
  (∃ bs, br_brackets (foldl br_step s (indexed j l)) = br_brackets s ++ bs ∧ Forall (λ p, j ≤ p) bs)
  ∧ ∃ os, br_open_after (foldl br_step s (indexed j l)) = br_open_after s ++ os.
Proof.
  induction l as [|b l IH]; intros j s; [split; exists []; rewrite app_nil_r; done|].
  rewrite indexed_cons. cbn [foldl].
  destruct (IH (S j) (br_step s (j, b))) as [(bs & -> & Hbs) (os & ->)].
  assert (Forall (λ p, j ≤ p) bs) by (eapply Forall_impl; [exact Hbs|]; simpl; lia).
  unfold br_step. destruct (is_opener b); [|destruct (is_closer b)]; [| |eauto].
  - simpl. split; [exists (j :: bs)|exists (Some j :: os)]; rewrite <-app_assoc; [|done]. split; [done|by constructor].
  - destruct (br_stack s); simpl; (split; [exists (j :: bs)|eexists (_ :: os)]; rewrite <-app_assoc; [|done]);
      (split; [done|by constructor]).
Qed.

Lemma partition_point_app {A} (f : A → bool) (l l' : list A) :
  Forall (λ x, f x = true) l → Forall (λ x, f x = false) l' → partition_point f (l ++ l') = length l.
Proof.
  induction 1 as [|x l Hx Hl IH]; intros Hl'; simpl; [|by rewrite Hx, IH].
  destruct l' as [|y l']; [done|]. apply Forall_cons in Hl' as [Hy _]. simpl. by rewrite Hy.
Qed.

Lemma enclosing_opener_scan m pos :
  pos ≤ length m →
  enclosing_opener (Src_new m) pos =
    match open_scan 0 m pos with Some o => if pos - 4096 <=? o then Some o else None | None => None end.
Proof.
  intros Hp. unfold enclosing_opener, Src_new. cbn [sr_brackets sr_open_after]. fold (br_state m).
  set (l := take pos m).
  assert (br_state m = foldl br_step (br_state l) (indexed (length l) (drop pos m))) as ->
    by (rewrite <-br_state_app; unfold l; by rewrite take_drop).
  assert (length l = pos) as El by (unfold l; rewrite length_take; lia).
  destruct (fold_grows (drop pos m) (length l) (br_state l)) as [(bs & -> & Hbs) (os & ->)].
  destruct (br_state_ok l) as [Hc Ha Hs Hl Hst Hn Hpos Hla].
  rewrite partition_point_app.
  2: { eapply Forall_impl; [exact Hl|]. simpl. intros p ?. apply Nat.ltb_lt. lia. }
  2: { eapply Forall_impl; [exact Hbs|]. simpl. intros p ?. apply Nat.ltb_ge. lia. }
  assert (open_scan 0 m pos = stack_pos (br_state l) !! 0) as ->.
  { rewrite Hpos, <-(take_drop pos m) at 1. fold l. rewrite El. apply open_scan_app. lia. }
  rewrite <-Ha. destruct (br_open_after (br_state l)) as [|o0 os0] using rev_ind; simpl in *.
  { by rewrite Hla. }
  rewrite length_app, Nat.add_1_r. rewrite last_snoc in Hla. rewrite <-app_assoc, lookup_app_r, Nat.sub_diag by done.
  simpl. rewrite Hla. by destruct (stack_pos _).
Qed.

Lemma list_find_sorted (l l' : list nat) x :
  Forall (λ p, p < x) l → list_find (λ p, p = x) (l ++ x :: l') = Some (length l, x).
Proof.
  induction 1 as [|y l Hy Hl IH]; simpl; [by rewrite decide_True|]. rewrite decide_False by lia. by rewrite IH.
Qed.

Lemma matching_close_scan m o b :
  m !! o = Some b → is_opener b = true → matching_close (Src_new m) o = close_scan 0 (drop (S o) m) (S o).
Proof.
  intros Hb Ho. unfold matching_close, Src_new. cbn [sr_brackets sr_close]. fold (br_state m).
  set (l := take o m).
  assert (br_state m = foldl br_step (br_state l) (indexed (length l) (b :: drop (S o) m))) as ->
    by (rewrite <-br_state_app; unfold l; by rewrite take_drop_middle).
  assert (length l = o) as El by (apply lookup_lt_Some in Hb; unfold l; rewrite length_take; lia).
  rewrite indexed_cons. cbn [foldl]. destruct (br_state_ok l) as [Hc Ha Hs Hl Hst Hn Hpos Hla].
  destruct (fold_grows (drop (S o) m) (S (length l)) (br_step (br_state l) (length l, b))) as [(bs & -> & _) _].
  unfold br_step at 1. rewrite Ho. cbn [br_brackets]. rewrite <-app_assoc.
  rewrite (eq_trans (f_equal (λ x, list_find (λ p, p = o) (br_brackets (br_state l) ++ [x] ++ bs)) El)
             (list_find_sorted _ bs o ltac:(by rewrite <-El))).
  rewrite (fold_close _ _ _ _ 0); [by rewrite El| | | | |]; unfold br_step; rewrite Ho; simpl.
  - constructor; [|done]. intros Hin. rewrite Forall_forall in Hst. specialize (Hst _ Hin). simpl in Hst.
    apply lookup_lt_Some in Hst. lia.
  - done.
  - by rewrite <-Hc, lookup_app_r, Nat.sub_diag.
  - rewrite length_app. simpl. constructor; [lia|]. eapply Forall_impl; [exact Hst|]. simpl. intros k Hk.
    apply lookup_lt_Some in Hk. lia.
  - rewrite !length_app. simpl. lia.
Qed.

(** ** Lines *)

Definition newlines (l : bytes) : nat := length (filter (λ b, b = ch_newline) l).

Lemma indexed_filter_length j l : length (filter (λ p, p.2 = ch_newline) (indexed j l)) = newlines l.
Proof.
  revert j. induction l as [|b l IH]; intros j; [done|]. rewrite indexed_cons. unfold newlines in *.
  rewrite !filter_cons. simpl. destruct (decide (b = ch_newline)); simpl; by rewrite IH.
Qed.

Lemma indexed_bounds j l p : p ∈ indexed j l → j ≤ p.1 < j + length l.
Proof.
  revert j. induction l as [|b l IH]; intros j; [by intros ?%not_elem_of_nil|].
  rewrite indexed_cons. intros [->|Hp]%elem_of_cons; simpl; [lia|]. specialize (IH _ Hp). lia.
Qed.

Lemma line_no_newlines m pos : line_no (Src_new m) pos = S (newlines (take pos m)).
Proof.
  unfold line_no, Src_new. cbn [sr_line_starts partition_point]. f_equal.
  rewrite <-(take_drop pos m) at 1. unfold enumerate. rewrite indexed_app, filter_app, fmap_app.
  rewrite partition_point_app; [by rewrite length_fmap, indexed_filter_length| |].
  - apply Forall_fmap, Forall_forall. intros p [_ Hp%indexed_bounds]%list_elem_of_filter.
    rewrite length_take in Hp. apply Nat.leb_le. simpl. lia.
  - apply Forall_fmap, Forall_forall. intros p [_ Hp%indexed_bounds]%list_elem_of_filter.
    rewrite length_take, length_drop in Hp. apply Nat.leb_gt. simpl. lia.
Qed.

Lemma newlines_mono m p q : p ≤ q → newlines (take p m) ≤ newlines (take q m).
Proof.
  intros Hpq. unfold newlines. rewrite <-(take_drop p (take q m)), filter_app, length_app, take_take, Nat.min_l by done.
  lia.
Qed.

Lemma masks_newlines src m pos : Forall2 masks src m → newlines (take pos m) = newlines (take pos src).
Proof.
  intros H. assert (Forall2 masks (take pos src) (take pos m)) as Ht by by apply Forall2_take.
  unfold newlines. induction Ht as [|a b l l' Hab Hl IH]; [done|]. rewrite !filter_cons.
  destruct Hab as [->|[-> Ha]]; [by destruct (decide _); simpl; rewrite IH|].
  by rewrite (decide_False (P := a = ch_newline)), (decide_False (P := ch_space = ch_newline)).
Qed.

(** The bracket map built once for a text answers as the walks it replaces:
    the enclosing opener is the first opener met going back with depth zero (within
    4 KB), the close of an opener is the first closer met going forward with depth
    zero, counting all three kinds together, and a line number is the number of
    newlines before, plus one. *)
Theorem bracket_map_ok m :
  (∀ pos, pos ≤ length m →
     enclosing_opener (Src_new m) pos =
       match open_scan 0 m pos with Some o => if pos - 4096 <=? o then Some o else None | None => None end)
  ∧ (∀ o b, m !! o = Some b → is_opener b = true →
       matching_close (Src_new m) o = close_scan 0 (drop (S o) m) (S o))
  ∧ ∀ pos, line_no (Src_new m) pos = S (newlines (take pos m)).
Proof.
  split; [exact (enclosing_opener_scan m)|]. split; [exact (matching_close_scan m)|exact (line_no_newlines m)].
Qed.

(** ** Occurrences *)

Definition at_word (m nb : bytes) (syn : Syntax) (s e : nat) : Prop :=
  e = s + length nb ∧ is_prefix nb (drop s m) = true ∧ is_word_at m s e syn = true.

Lemma find_at_spec nb l s :
  find_at nb l = Some s ↔ is_prefix nb (drop s l) = true ∧ s ≤ length l ∧ ∀ k, k < s → is_prefix nb (drop k l) = false.
Proof.
  revert s. induction l as [|b l IH]; intros s; cbn [find_at]; destruct (is_prefix nb _) eqn:E1.
  - split; [intros [= <-]; split_and!; [done|done|lia]|]. intros (Hp & Hs & Hk). destruct s; [done|simpl in Hs; lia].
  - split; [done|]. intros (Hp & Hs & Hk). simpl in Hs. assert (s = 0) as -> by lia. simpl in Hp. congruence.
  - split; [intros [= <-]; split_and!; [done|lia|lia]|]. intros (Hp & Hs & Hk). destruct s; [done|].
    specialize (Hk 0 ltac:(lia)). simpl in Hk. congruence.
  - destruct s as [|s]; simpl.
    { split; [by destruct (find_at nb l)|]. intros (Hp & _). simpl in Hp. congruence. }
    transitivity (find_at nb l = Some s).
    { destruct (find_at nb l); simpl; split; congruence. }
    rewrite IH. split; intros (Hp & Hs & Hk); split_and!; try done; try lia.
    + intros [|k] Hlt; [done|]. apply Hk. lia.
    + intros k Hlt. by apply (Hk (S k)); lia.
Qed.

Lemma find_sub_spec hay from nb s :
  nb ≠ [] → find_sub hay from nb = Some s →
  from ≤ s ∧ is_prefix nb (drop s hay) = true ∧ ∀ k, from ≤ k < s → is_prefix nb (drop k hay) = false.
Proof.
  intros Hnb. unfold find_sub. destruct (length hay <? from) eqn:E1; [done|]. simpl.
  rewrite bool_decide_eq_false_2 by done. destruct (find_at nb (drop from hay)) as [q|] eqn:E2; [|done].
  intros [= <-]. apply find_at_spec in E2 as (Hp & Hl & Hk). rewrite drop_drop in Hp.
  split_and!; [lia|done|]. intros k Hlt. specialize (Hk (k - from) ltac:(lia)). rewrite drop_drop in Hk.
  by replace (from + (k - from)) with k in Hk by lia.
Qed.

Lemma find_sub_None hay from nb k :
  nb ≠ [] → find_sub hay from nb = None → from ≤ k → is_prefix nb (drop k hay) = false.
Proof.
  intros Hnb Hf Hk. destruct (is_prefix nb (drop k hay)) eqn:E1; [|done].
  pose proof (is_prefix_length _ _ E1) as Hl. rewrite length_drop in Hl.
  assert (0 < length nb) by (destruct nb; [done|simpl; lia]).
  unfold find_sub in Hf. rewrite (proj2 (Nat.ltb_ge _ _)) in Hf by lia. simpl in Hf.
  rewrite bool_decide_eq_false_2 in Hf by done. destruct (find_at nb (drop from hay)) eqn:E2; [done|].
  exfalso. clear Hf. assert (∃ d, k = from + d) as [d ->] by (exists (k - from); lia). rewrite <-drop_drop in E1.
  revert d E1 E2 Hk Hl. generalize (drop from hay). intros l d. revert l.
  induction d as [|d IH]; intros l E1 E2 _ Hl.
  - rewrite drop_0 in E1. destruct l; cbn [find_at] in E2; by rewrite E1 in E2.
  - destruct l as [|b l]; [rewrite drop_nil in E1; by destruct nb|]. cbn [find_at] in E2.
    destruct (is_prefix nb (b :: l)); [done|]. destruct (find_at nb l) eqn:E3; [done|].
    apply (IH l); try done; lia.
Qed.

Lemma occurrences_from_spec m nb syn fuel : ∀ from, nb ≠ [] → length m < from + fuel →
  (∀ o, o ∈ occurrences_from m nb syn fuel from ↔ from ≤ o.1 ∧ at_word m nb syn o.1 o.2)
  ∧ StronglySorted (λ a b, a.1 < b.1) (occurrences_from m nb syn fuel from).
Proof.
  induction fuel as [|fuel IH]; intros from Hnb Hf; cbn [occurrences_from].
  { split; [|constructor]. intros [s e]. split; [by intros ?%not_elem_of_nil|]. simpl. intros (Hs & -> & Hp & _).
    apply is_prefix_length in Hp. rewrite length_drop in Hp. destruct nb; [done|]. simpl in Hp. lia. }
  destruct (find_sub m from nb) as [s|] eqn:E1.
  - apply find_sub_spec in E1 as (Hfs & Hp & Hk); [|done]. destruct (IH (s + 1) Hnb ltac:(lia)) as [IH1 IH2].
    split.
    + intros [s' e']. rewrite elem_of_app, IH1. unfold at_word. cbn [fst snd]. split.
      * intros [Hin|(? & ? & ? & ?)]; [|split_and!; [lia|done..]].
        destruct (is_word_at m s (s + length nb) syn) eqn:E2; [|by apply not_elem_of_nil in Hin].
        apply list_elem_of_singleton in Hin as [= -> ->]. done.
      * intros (Hs' & -> & Hp' & Hw). destruct (decide (s' = s)) as [->|Hne].
        { left. rewrite Hw. by apply list_elem_of_singleton. }
        right. split_and!; try done. destruct (decide (s' < s)); [|lia].
        rewrite Hk in Hp' by lia. done.
    + destruct (is_word_at _ _ _ _); [|done]. constructor; [done|]. apply Forall_forall. intros o [? _]%IH1. simpl. lia.
  - split; [|constructor]. intros [s e]. split; [by intros ?%not_elem_of_nil|]. simpl. intros (Hs & _ & Hp & _).
    by rewrite (find_sub_None m from nb s) in Hp.
Qed.

Lemma occurrences_spec m nb syn :
  nb ≠ [] → (∀ o, o ∈ occurrences m nb syn ↔ at_word m nb syn o.1 o.2)
    ∧ StronglySorted (λ a b, a.1 < b.1) (occurrences m nb syn).
Proof.
  intros Hnb. destruct (occurrences_from_spec m nb syn (S (length m)) 0 Hnb ltac:(lia)) as [H1 H2].
  split; [|done]. intros o. unfold occurrences. rewrite H1. split; [by intros []|]. intros ?. split; [lia|done].
Qed.

(** ** The hits of a text *)

(** [(position, shape, via)] *)
Definition Site : Type := nat * Shape * option string.

Section ScanProps.
Context `{U : Unicode} (src : Src) (syn : Syntax).

Definition add_site (hits : Hits) (c : Site) : Hits := add_hit src hits c.1.1 c.1.2 c.2.

Definition string_site (name : string) (lit : StrLit) : option Site :=
  (λ sv, (sl_open lit, sv.1, sv.2)) <$> classify_string src lit name syn.

Definition ruby_site (s : nat) : option Site :=
  if ruby_symbol src syn s then
    let callee := match enclosing_callee src (s - 1) syn with
                  | Some c => Some c
                  | None => parenless_callee (sr_m src) (s - 1) syn
                  end in
    Some (match callee ≫= classify_callee with
          | Some shape => (s, shape, callee)
          | None => (s, Symbol, None)
          end)
  else None.

(** The value at an occurrence, and whether its path is undecided. *)
Definition value_at (qualifiers : option (list string)) (shadowed : bool) (o : nat * nat) : bool * bool :=
  let m := sr_m src in
  if before_is m o.1 "@" || before_is m o.1 "$" || shadowed && is_bare m o.1 then (false, false)
  else is_function_reference src syn qualifiers o.1 o.2.

Definition occurrence_site (qualifiers : option (list string)) (shadowed : bool) (o : nat * nat) : option Site :=
  if ruby syn then ruby_site o.1
  else match value_at qualifiers shadowed o with
       | (true, false) => Some (o.1, FunctionReference, None)
       | _ => None
       end.

Lemma foldl_add_string name lits hits :
  foldl (add_string src name syn) hits lits = foldl add_site hits (omap (string_site name) lits).
Proof.
  revert hits. induction lits as [|lit lits IH]; intros hits; [done|]. simpl. rewrite IH. unfold add_string, string_site.
  by destruct (classify_string src lit name syn) as [[]|].
Qed.

Section Loop.
Context (language : string) (def_lines : list nat) (qualifiers : option (list string)).
Context (decls : gset nat) (counts_calls shadowed : bool).

#[local] Abbreviation step :=
  (scan_occurrence src syn language def_lines qualifiers decls counts_calls shadowed).

Definition undecided (o : nat * nat) : Prop :=
  ruby syn = false ∧ value_at qualifiers shadowed o = (true, true).

Definition counted (o : nat * nat) : Prop :=
  ruby syn = false ∧ counts_calls = true ∧ is_call_site src o.1 o.2 syn language = true
  ∧ line_no src o.1 ∉ def_lines ∧ line_no src o.1 ∉ decls.

Lemma step_parts hits unresolved calls o :
  step (hits, unresolved, calls) o =
    (from_option (add_site hits) hits (occurrence_site qualifiers shadowed o),
     (if bool_decide (ruby syn = false) && bool_decide (value_at qualifiers shadowed o = (true, true))
         && negb (bool_decide (line_no src o.1 ∈ unresolved))
      then unresolved ++ [line_no src o.1] else unresolved),
     if ruby syn then calls
     else add_call src syn language def_lines decls counts_calls shadowed calls o.1 o.2).
Proof.
  destruct o as [s e]. unfold scan_occurrence, occurrence_site, value_at. cbn [fst snd]. destruct (ruby syn).
  - unfold ruby_hit, ruby_site. destruct (ruby_symbol src syn s); [|done]. simpl. by destruct (_ ≫= classify_callee).
  - destruct (before_is _ _ "@" || before_is _ _ "$"); [done|]. destruct (shadowed && _); [done|].
    simpl. destruct (is_function_reference _ _ _ _ _) as [[] []]; simpl; try done.
    by destruct (bool_decide (_ ∈ unresolved)).
Qed.

Lemma scan_loop_total past occs : (∀ i, past i = false) →
  ∀ i acc, scan_loop src syn language def_lines qualifiers decls counts_calls shadowed past occs i acc
           = Some (foldl step acc occs).
Proof.
  intros Hp. induction occs as [|o occs IH]; intros i acc; [done|]. simpl. unfold gives_up.
  by rewrite Hp, andb_false_r, IH.
Qed.

Lemma scan_loop_some past occs : ∀ i acc acc',
  scan_loop src syn language def_lines qualifiers decls counts_calls shadowed past occs i acc = Some acc' →
  acc' = foldl step acc occs.
Proof.
  induction occs as [|o occs IH]; intros i acc acc'; simpl; [by intros [= <-]|].
  destruct (gives_up past i); [done|]. apply IH.
Qed.

Lemma loop_hits occs : ∀ acc,
  (foldl step acc occs).1.1 = foldl add_site acc.1.1 (omap (occurrence_site qualifiers shadowed) occs).
Proof.
  induction occs as [|o occs IH]; intros [[hits un] calls]; [done|]. cbn [foldl omap list_omap]. rewrite IH, step_parts.
  simpl. by destruct (occurrence_site qualifiers shadowed o).
Qed.

Lemma loop_unresolved occs : ∀ acc,
  NoDup acc.1.2 →
  NoDup (foldl step acc occs).1.2
  ∧ ∀ l, l ∈ (foldl step acc occs).1.2 ↔ l ∈ acc.1.2 ∨ ∃ o, o ∈ occs ∧ undecided o ∧ l = line_no src o.1.
Proof.
  induction occs as [|o occs IH]; intros [[hits un] calls] Hn; cbn [foldl].
  { split; [done|]. intros l. split; [by left|]. intros [?|(o & ?%not_elem_of_nil & _)]; done. }
  rewrite step_parts. destruct (IH (from_option (add_site hits) hits (occurrence_site qualifiers shadowed o),
     (if bool_decide (ruby syn = false) && bool_decide (value_at qualifiers shadowed o = (true, true))
         && negb (bool_decide (line_no src o.1 ∈ un))
      then un ++ [line_no src o.1] else un),
     if ruby syn then calls
     else add_call src syn language def_lines decls counts_calls shadowed calls o.1 o.2)) as [IH1 IH2].
  { simpl in *. destruct (_ && _ && _) eqn:E1; [|done]. bool_prop. apply NoDup_app. split_and!; [done| |apply NoDup_singleton].
    intros x Hx ->%list_elem_of_singleton. done. }
  split; [done|]. intros l. rewrite IH2. clear IH1 IH2. cbn [fst snd]. setoid_rewrite elem_of_cons.
  destruct (_ && _ && _) eqn:E1.
  - bool_prop. rewrite elem_of_app, list_elem_of_singleton. unfold undecided.
    split; [intros [[?| ->]|(o' & ? & ? & ?)]; eauto 10|]. intros [?|(o' & [->|?] & ? & ->)]; eauto 10.
  - assert (undecided o → line_no src o.1 ∈ un) as Hin.
    { intros [H1 H2]. rewrite !bool_decide_eq_true_2 in E1 by done. simpl in E1. by bool_prop. }
    split; [intros [?|(o' & ? & ? & ?)]; eauto 10|]. intros [?|(o' & [->|?] & ? & ->)]; eauto 10.
Qed.

Lemma loop_calls occs : ∀ acc,
  StronglySorted (λ a b, a.1 < b.1) occs → StronglySorted lt acc.2 →
  Forall (λ l, Forall (λ o, l ≤ line_no src o.1) occs) acc.2 →
  (∀ p q, p ≤ q → line_no src p ≤ line_no src q) →
  StronglySorted lt (foldl step acc occs).2
  ∧ ∀ l, l ∈ (foldl step acc occs).2 → l ∈ acc.2 ∨ ∃ o, o ∈ occs ∧ counted o ∧ l = line_no src o.1.
Proof.
  intros acc Hs Hc Hle Hmono. revert acc Hc Hle. induction Hs as [|o occs Hs IH Ho]; intros [[hits un] calls] Hc Hle; cbn [foldl].
  { split; [done|by left]. }
  rewrite step_parts. cbn [snd] in Hc, Hle.
  assert (∃ calls', (if ruby syn then calls
      else add_call src syn language def_lines decls counts_calls shadowed calls o.1 o.2) = calls'
    ∧ (calls' = calls ∨ calls' = calls ++ [line_no src o.1] ∧ counted o ∧ last calls ≠ Some (line_no src o.1)))
    as (calls' & -> & Hcs).
  { eexists. split; [done|]. destruct (ruby syn) eqn:Er; [by left|]. unfold add_call. destruct (_ && _) eqn:E1; [|by left].
    right. bool_prop. unfold counted. done. }
  assert (StronglySorted lt calls' ∧ Forall (λ l, Forall (λ o, l ≤ line_no src o.1) occs) calls') as [Hc' Hle'].
  { assert (Forall (λ l, Forall (λ o, l ≤ line_no src o.1) occs) calls).
    { eapply Forall_impl; [exact Hle|]. simpl. by intros l [_ ?]%Forall_cons. }
    destruct Hcs as [->|(-> & _ & Hlast)]; [done|]. split.
    - apply sorted_snoc; [done|]. apply Forall_forall. intros l Hl.
      assert (l ≤ line_no src o.1) by (rewrite Forall_forall in Hle; by apply Hle in Hl as [? _]%Forall_cons).
      destruct calls as [|x calls _] using rev_ind; [by apply not_elem_of_nil in Hl|]. rewrite last_snoc in Hlast.
      assert (x ≤ line_no src o.1) by (rewrite Forall_forall in Hle; by destruct (Forall_cons_1 _ _ _ (Hle x ltac:(set_solver)))).
      assert (x ≠ line_no src o.1) by congruence.
      apply elem_of_app in Hl as [Hl| ->%list_elem_of_singleton]; [|lia].
      apply StronglySorted_app_1_elem_of with (x1 := l) (x2 := x) in Hc; [lia|done|set_solver].
    - apply Forall_app. split; [done|]. constructor; [|done]. eapply Forall_impl; [exact Ho|]. simpl. intros o' ?.
      apply Hmono. lia. }
  destruct (IH (from_option (add_site hits) hits (occurrence_site qualifiers shadowed o),
     (if bool_decide (ruby syn = false) && bool_decide (value_at qualifiers shadowed o = (true, true))
         && negb (bool_decide (line_no src o.1 ∈ un))
      then un ++ [line_no src o.1] else un), calls') Hc' Hle') as [IH1 IH2].
  split; [done|]. intros l [Hl|(o' & ? & ? & ?)]%IH2; [|right; exists o'; set_solver]. cbn [snd] in Hl.
  destruct Hcs as [->|(-> & Hco & _)]; [by left|]. apply elem_of_app in Hl as [?| ->%list_elem_of_singleton]; [by left|].
  right. exists o. split; [by left|done].
Qed.
End Loop.

Lemma add_sites_sound cs : ∀ hits l sh via,
  foldl add_site hits cs !! l = Some (sh, via) →
  (hits !! l = Some (sh, via) ∨ ∃ pos, (pos, sh, via) ∈ cs ∧ line_no src pos = l)
  ∧ (∀ c, c ∈ cs → line_no src c.1.1 = l → shape_rank sh ≤ shape_rank c.1.2)
  ∧ ∀ sh' via', hits !! l = Some (sh', via') → shape_rank sh ≤ shape_rank sh'.
Proof.
  induction cs as [|[[pos sh0] via0] cs IH]; intros hits l sh via; cbn [foldl].
  { intros Hl. split; [by left|]. split; [by intros ? ?%not_elem_of_nil|]. intros sh' via'. rewrite Hl. by intros [= -> _]. }
  intros (H1 & H2 & H3)%IH. unfold add_site, add_hit in *. cbn [fst snd] in H1, H3.
  destruct (decide (line_no src pos = l)) as [<-|Hne].
  - destruct (hits !! line_no src pos) as [[s1 v1]|] eqn:E1.
    + destruct (Nat.leb_spec (shape_rank s1) (shape_rank sh0)).
      * rewrite E1 in H1, H3. specialize (H3 _ _ eq_refl). split; [|split].
        -- destruct H1 as [H1|(p & ? & ?)]; [by left|]. right. exists p. by split; [right|].
        -- intros c [->|Hc]%elem_of_cons Hl; [simpl; lia|by apply H2].
        -- intros sh' via' E2. by assert (s1 = sh') as <- by congruence.
      * rewrite lookup_insert_eq in H1, H3. specialize (H3 _ _ eq_refl). split; [|split].
        -- right. destruct H1 as [ [= -> ->] |(p & ? & ?)]; [exists pos; by split; [left|]|exists p; by split; [right|]].
        -- intros c [->|Hc]%elem_of_cons Hl; [simpl; lia|by apply H2].
        -- intros sh' via' [= <- _]. lia.
    + rewrite lookup_insert_eq in H1, H3. specialize (H3 _ _ eq_refl). split; [|split; [|done]].
      * right. destruct H1 as [ [= -> ->] |(p & ? & ?)]; [exists pos; by split; [left|]|exists p; by split; [right|]].
      * intros c [->|Hc]%elem_of_cons Hl; [simpl; lia|by apply H2].
  - assert ((match hits !! line_no src pos with
             | Some (s, _) => if shape_rank s <=? shape_rank sh0 then hits else <[line_no src pos:=(sh0, via0)]> hits
             | None => <[line_no src pos:=(sh0, via0)]> hits
             end) !! l = hits !! l) as E1.
    { destruct (hits !! line_no src pos) as [[s1 v1]|]; [destruct (_ <=? _); [done|]|]; by rewrite lookup_insert_ne. }
    rewrite E1 in H1, H3. split; [|split; [|done]].
    + destruct H1 as [?|(p & ? & ?)]; [by left|]. right. exists p. by split; [right|].
    + intros c [->|Hc]%elem_of_cons Hl; [done|by apply H2].
Qed.

Lemma add_sites_complete cs : ∀ hits : gmap nat (Shape * option string),
  (∀ l, is_Some (hits !! l) → is_Some (foldl add_site hits cs !! l))
  ∧ ∀ c, c ∈ cs → is_Some (foldl add_site hits cs !! line_no src c.1.1).
Proof.
  induction cs as [|c cs IH]; intros hits; cbn [foldl]; [split; [done|by intros ? ?%not_elem_of_nil]|].
  destruct (IH (add_site hits c)) as [IH1 IH2].
  assert (is_Some (add_site hits c !! line_no src c.1.1)) as Hc.
  { unfold add_site, add_hit. destruct (hits !! line_no src c.1.1) as [[s1 v1]|] eqn:E1;
      [destruct (_ <=? _); [by rewrite E1|]|]; rewrite lookup_insert_eq; by eexists. }
  split.
  - intros l Hl. apply IH1. unfold add_site, add_hit.
    destruct (decide (line_no src c.1.1 = l)) as [<-|Hne]; [exact Hc|].
    destruct (hits !! line_no src c.1.1) as [[s1 v1]|]; [destruct (_ <=? _); [done|]|]; by rewrite lookup_insert_ne.
  - intros d [->|Hd]%elem_of_cons; [by apply IH1|by apply IH2].
Qed.
End ScanProps.

Lemma elem_of_hit_list (hits : gmap nat (Shape * option string)) h :
  h ∈ hit_list hits ↔ hits !! sh_line h = Some (sh_shape h, sh_via h).
Proof.
  unfold hit_list, sort_cmp. rewrite list_elem_of_fmap. setoid_rewrite elem_of_sort_by. destruct h as [l sh via]. simpl. split.
  - intros ([l' [sh' via']] & [= -> -> ->] & Hin). by apply elem_of_map_to_list.
  - intros Hl. exists (l, (sh, via)). split; [done|]. by apply elem_of_map_to_list.
Qed.

Lemma hit_list_sorted (hits : gmap nat (Shape * option string)) : StronglySorted lt (sh_line <$> hit_list hits).
Proof.
  unfold hit_list. rewrite <-list_fmap_compose. set (l := sort_cmp _ _).
  assert (NoDup (fst <$> l)) as Hnd.
  { unfold l, sort_cmp. rewrite sort_by_perm. apply NoDup_fst_map_to_list. }
  assert (StronglySorted (λ x y, cmp_leb (cmp_by fst Nat.compare) x y = true) l) as Hs by apply (sort_cmp_sorted (cmp_by fst Nat.compare)).
  clearbody l.
  induction Hs as [|a l' Hl IH Ha]; [constructor|]. apply NoDup_cons in Hnd as [Hni Hnd]. simpl.
  constructor; [by apply IH|]. apply Forall_fmap, Forall_forall. intros b Hb. rewrite Forall_forall in Ha.
  specialize (Ha b Hb). unfold cmp_leb, cmp_by in Ha. simpl. destruct (Nat.compare_spec a.1 b.1) as [E1| |]; [|done|done].
  destruct Hni. rewrite E1. by apply list_elem_of_fmap_2.
Qed.

Lemma masked_prefix (src m nb : bytes) s :
  Forall2 masks src m → ch_space ∉ nb → is_prefix nb (drop s m) = true → is_prefix nb (drop s src) = true.
Proof.
  intros Hm%(Forall2_drop _ _ _ s) Hsp. revert Hm. generalize (drop s src) (drop s m). clear src m s.
  induction nb as [|c nb IH]; intros l l' Hm; [done|]. destruct Hm as [|a b l l' Hab Hm]; simpl; [done|].
  intros [Hc%Ascii.eqb_eq Hp]%andb_true_iff. subst b. apply not_elem_of_cons in Hsp as [Hc Hsp].
  destruct Hab as [->|[-> _]]; [|done]. rewrite Ascii.eqb_refl. by apply (IH Hsp l l').
Qed.

Lemma shadow_loop_spec src syn defs past occs : ∀ i seen sh,
  shadow_loop src syn defs past occs i seen = Some sh →
  (sh = true → ∃ o, o ∈ occs ∧ is_binding src o.1 o.2 syn = true)
  ∧ (sh = false → ∀ o, o ∈ occs → is_binding src o.1 o.2 syn = true → line_no src o.1 ∈ defs).
Proof.
  induction occs as [|[s e] occs IH]; intros i seen sh; cbn [shadow_loop].
  { intros [= <-]. split; [done|]. by intros _ ? ?%not_elem_of_nil. }
  destruct (gives_up past i); [done|]. destruct (bool_decide _ && _) eqn:E1.
  - apply andb_true_iff in E1 as [E1%bool_decide_eq_true_1 _]. intros (H1 & H2)%IH. split.
    + intros Hs. destruct (H1 Hs) as (o & ? & ?). exists o. split; [by right|done].
    + intros Hs o [->|Ho]%elem_of_cons Hb; [done|by apply H2].
  - destruct (is_binding src s e syn) eqn:E2.
    + intros [= <-]. split; [|done]. intros _. exists (s, e). split; [by left|done].
    + intros (H1 & H2)%IH. split.
      * intros Hs. destruct (H1 Hs) as (o & ? & ?). exists o. split; [by right|done].
      * intros Hs o [->|Ho]%elem_of_cons Hb; [simpl in Hb; congruence|by apply H2].
Qed.

Lemma to_bytes_nil name : name ≠ "" → to_bytes name ≠ [].
Proof. by destruct name. Qed.

Lemma elem_of_omap_some {A B} (f : A → option B) (l : list A) (b : B) : b ∈ omap f l ↔ ∃ a, a ∈ l ∧ f a = Some b.
Proof. apply list_elem_of_omap. Qed.

(** The shape of a text's scan, once it is scanned. *)
Lemma scan_source_until_inv `{U : Unicode} language source name defs quals past past' syn scan :
  syntax_for language = Some syn → name ≠ "" → contains name source = true →
  scan_source_until language source name defs quals past past' = Some scan →
  let lexed := lex (to_bytes source) syn in
  let src := Src_new (lx_masked lexed) in
  let occs := occurrences (lx_masked lexed) (to_bytes name) syn in
  let counts := bool_decide (is_Some (call_family language)) in
  ∃ shadowed, (if ruby syn then Some false else shadow_loop src syn defs past occs 0 []) = Some shadowed ∧
  let acc := foldl (scan_occurrence src syn language defs quals (if counts then decl_lines src syn occs else ∅) counts shadowed)
               (foldl (add_string src name syn) ∅ (lx_strings lexed), [], []) occs in
  scan = mkScan (hit_list acc.1.1) (filter (λ l, acc.1.1 !! l = None) acc.1.2) acc.2.
Proof.
  intros Hsyn Hn Hc. unfold scan_source_until. rewrite Hsyn, Hc. destruct (String.eqb_spec name "") as [|_]; [done|].
  cbn [negb orb]. cbn zeta. destruct (if ruby syn then _ else _) as [shadowed|]; [|done]. intros H. exists shadowed. split; [done|].
  destruct (scan_loop _ _ _ _ _ _ _ _ _ _ _ _) as [[[hits un] calls]|] eqn:E1; [|done].
  apply scan_loop_some in E1. rewrite <-E1. cbn [fst snd]. congruence.
Qed.

(** The hits of any text are one per line, in line order. *)
Lemma scan_hits_sorted `{U : Unicode} language source name defs quals past past' scan :
  scan_source_until language source name defs quals past past' = Some scan →
  StronglySorted lt (sh_line <$> sc_hits scan).
Proof.
  unfold scan_source_until. destruct (syntax_for language) as [syn|]; [|intros [= <-]; constructor].
  destruct (_ || _); [intros [= <-]; constructor|]. cbn zeta. destruct (if ruby syn then _ else _) as [shadowed|]; [|done].
  destruct (scan_loop _ _ _ _ _ _ _ _ _ _ _ _) as [[[hits un] calls]|]; [|done]. intros H.
  assert (hit_list hits = sc_hits scan) as <- by (by injection H as <-). apply hit_list_sorted.
Qed.

(** Without a deadline a text is always scanned. *)
Lemma scan_source_until_total `{U : Unicode} language source name defs quals past past' :
  (∀ i, past i = false) → (∀ i, past' i = false) →
  is_Some (scan_source_until language source name defs quals past past').
Proof.
  intros Hp Hp'. unfold scan_source_until. destruct (syntax_for language) as [syn|]; [|by eexists].
  destruct (_ || _); [by eexists|]. cbn zeta.
  assert (∀ occs i seen, is_Some (shadow_loop (Src_new (lx_masked (lex (to_bytes source) syn))) syn defs past occs i seen)) as Hs.
  { induction occs as [|[s e] occs IH]; intros i seen; cbn [shadow_loop]; [by eexists|]. unfold gives_up. rewrite Hp, andb_false_r.
    destruct (_ && _); [done|]. destruct (is_binding _ _ _ _); [by eexists|done]. }
  destruct (if ruby syn then _ else _) as [shadowed|] eqn:E1.
  - rewrite scan_loop_total by done. by destruct (foldl _ _ _) as [[? ?] ?]; eexists.
  - destruct (ruby syn); [done|]. specialize (Hs (occurrences (lx_masked (lex (to_bytes source) syn)) (to_bytes name) syn) 0 []).
    rewrite E1 in Hs. by destruct Hs.
Qed.

(** The places the scan weighs: dispatching literals, and uses at a word. *)
Lemma elem_of_candidates `{U : Unicode} src syn name quals shadowed strings occs pos sh via :
  (pos, sh, via) ∈ omap (string_site src syn name) strings ++ omap (occurrence_site src syn quals shadowed) occs ↔
  (∃ lit, lit ∈ strings ∧ pos = sl_open lit ∧ classify_string src lit name syn = Some (sh, via))
  ∨ ∃ e, (pos, e) ∈ occs ∧ occurrence_site src syn quals shadowed (pos, e) = Some (pos, sh, via).
Proof.
  rewrite elem_of_app, !list_elem_of_omap. split; (intros [H|H]; [left|right]).
  - destruct H as (lit & Hin & Hlit). exists lit. split; [done|]. unfold string_site in Hlit.
    destruct (classify_string src lit name syn) as [[sh' via']|]; [|done]. simpl in Hlit. split; congruence.
  - destruct H as ([s e] & Hin & Ho). assert (pos = s) as ->; [|by exists e].
    revert Ho. unfold occurrence_site, ruby_site. cbn [fst snd]. repeat case_match; simplify_eq/=; try done; by intros [= -> _ _].
  - destruct H as (lit & Hin & -> & Hlit). exists lit. split; [done|]. unfold string_site. by rewrite Hlit.
  - destruct H as (e & Hin & Ho). by exists (pos, e).
Qed.

Lemma candidate_hit src cands pos sh via :
  (pos, sh, via) ∈ cands →
  ∃ h, h ∈ hit_list (foldl (add_site src) ∅ cands) ∧ sh_line h = line_no src pos ∧ shape_rank (sh_shape h) ≤ shape_rank sh.
Proof.
  intros Hin. destruct (add_sites_complete src cands ∅) as [_ Hs]. destruct (Hs _ Hin) as [[sh' via'] Hsv].
  exists (mkHit (line_no src pos) sh' via'). rewrite elem_of_hit_list. split; [done|]. split; [done|].
  apply add_sites_sound in Hsv as (_ & Hmin & _). by apply (Hmin _ Hin).
Qed.

Lemma hit_lines m l : l ∈ sh_line <$> hit_list m ↔ m !! l ≠ None.
Proof.
  rewrite list_elem_of_fmap. split.
  - intros (h & -> & Hh%elem_of_hit_list). congruence.
  - intros Hl. destruct (m !! l) as [[sh via]|] eqn:E; [|done]. exists (mkHit l sh via). split; [done|]. by apply elem_of_hit_list.
Qed.

(** C29: The scan of one text.  Hits come one per line in line order, lines counted
    in the text itself.  Each stands on code that names the function: at a string
    literal in a dispatching position or at a whole word outside every comment and
    string, whose bytes are the name in the text.  No dispatching literal or value is
    lost: its line has a hit at least as specific.  A line is undecided exactly when
    it has no hit and passes the name through an unknown qualifier; call lines come
    in order, once, off the definition lines.  A bare use is dropped only if the text
    binds the name; and without a deadline every text is scanned. *)
Theorem scan_source_until_ok `{U : Unicode} language source name defs quals past past' syn :
  syntax_for language = Some syn → name ≠ "" → contains name source = true →
  let code := to_bytes source in
  let lexed := lex code syn in
  let src := Src_new (lx_masked lexed) in
  let line pos := S (newlines (take pos code)) in
  let word pos e := at_word (lx_masked lexed) (to_bytes name) syn pos e in
  ((∀ i, past i = false) → (∀ i, past' i = false) →
     is_Some (scan_source_until language source name defs quals past past'))
  ∧ ∀ scan, scan_source_until language source name defs quals past past' = Some scan →
  StronglySorted lt (sh_line <$> sc_hits scan)
  ∧ (∀ h, h ∈ sc_hits scan → ∃ pos, sh_line h = line pos
       ∧ ((∃ lit, lit ∈ lx_strings lexed ∧ pos = sl_open lit
             ∧ classify_string src lit name syn = Some (sh_shape h, sh_via h))
          ∨ (∃ e, word pos e ∧ (ch_space ∉ to_bytes name → is_prefix (to_bytes name) (drop pos code) = true))))
  ∧ (∀ lit sh via, lit ∈ lx_strings lexed → classify_string src lit name syn = Some (sh, via) →
       ∃ h, h ∈ sc_hits scan ∧ sh_line h = line (sl_open lit) ∧ shape_rank (sh_shape h) ≤ shape_rank sh)
  ∧ ∃ shadowed,
      (shadowed = true → ∃ pos e, word pos e ∧ is_binding src pos e syn = true)
      ∧ (∀ pos e sh via, word pos e → occurrence_site src syn quals shadowed (pos, e) = Some (pos, sh, via) →
           ∃ h, h ∈ sc_hits scan ∧ sh_line h = line pos ∧ shape_rank (sh_shape h) ≤ shape_rank sh)
      ∧ (∀ l, l ∈ sc_unresolved_lines scan ↔
           l ∉ sh_line <$> sc_hits scan ∧ ∃ pos e, word pos e ∧ undecided src syn quals shadowed (pos, e) ∧ l = line pos)
      ∧ StronglySorted lt (sc_call_lines scan)
      ∧ ∀ l, l ∈ sc_call_lines scan →
           l ∉ defs ∧ ∃ pos e, word pos e ∧ is_call_site src pos e syn language = true ∧ l = line pos.
Proof.
  intros Hsyn Hn Hc code lexed src line word. split; [apply scan_source_until_total|]. intros scan Hscan.
  destruct (lex_ok_parts code syn) as (_ & Hmask & _ & _).
  destruct (occurrences_spec (lx_masked lexed) (to_bytes name) syn (to_bytes_nil name Hn)) as [Hocc Hsorted].
  assert (∀ pos, line_no src pos = line pos) as Hline.
  { intros pos. unfold src, line. rewrite line_no_newlines. f_equal. by apply masks_newlines. }
  assert (∀ p q, p ≤ q → line_no src p ≤ line_no src q) as Hmono.
  { intros p q ?. unfold src. rewrite !line_no_newlines. apply le_n_S. by apply newlines_mono. }
  pose proof (scan_source_until_inv _ _ _ _ _ _ _ _ _ Hsyn Hn Hc Hscan) as Hinv. clear Hscan. cbn zeta in Hinv.
  change (to_bytes source) with code in Hinv. change (lex code syn) with lexed in Hinv.
  change (Src_new (lx_masked lexed)) with src in Hinv. destruct Hinv as (shadowed & Hsh & ->).
  set (occs := occurrences _ _ _) in *.
  set (counts := bool_decide _) in *. set (decls := if counts then _ else _).
  set (hits0 := foldl (add_string src name syn) ∅ (lx_strings lexed)).
  set (acc := foldl (scan_occurrence src syn language defs quals decls counts shadowed) (hits0, [], []) occs).
  cbn [sc_hits sc_unresolved_lines sc_call_lines].
  set (cands := omap (string_site src syn name) (lx_strings lexed) ++ omap (occurrence_site src syn quals shadowed) occs).
  assert (acc.1.1 = foldl (add_site src) ∅ cands) as Hhits.
  { unfold acc. rewrite loop_hits. cbn [fst snd]. unfold hits0, cands. by rewrite foldl_add_string, foldl_app. }
  assert (∀ pos sh via, (pos, sh, via) ∈ cands →
    ∃ h, h ∈ hit_list acc.1.1 ∧ sh_line h = line pos ∧ shape_rank (sh_shape h) ≤ shape_rank sh) as Hcomplete.
  { intros pos sh via. rewrite Hhits, <-Hline. apply candidate_hit. }
  destruct (loop_unresolved src syn language defs quals decls counts shadowed occs (hits0, [], []) (NoDup_nil_2)) as [_ Hun].
  destruct (loop_calls src syn language defs quals decls counts shadowed occs (hits0, [], []) Hsorted) as [Hcs Hcalls];
    [constructor|constructor|exact Hmono|]. fold acc in Hun, Hcs, Hcalls.
  split; [apply hit_list_sorted|]. split; [|split; [|exists shadowed; split; [|split; [|split; [|split; [exact Hcs|]]]]]].
  - intros h Hh. rewrite elem_of_hit_list, Hhits in Hh.
    apply add_sites_sound in Hh as ([Hh|(pos & Hpos & Hl)] & _ & _); [by rewrite lookup_empty in Hh|].
    exists pos. split; [by rewrite <-Hline|]. apply elem_of_candidates in Hpos as [?|(e & Hw%Hocc & _)]; [by left|right].
    exists e. split; [done|]. intros Hsp. destruct Hw as (_ & Hp & _). by apply (masked_prefix _ _ _ _ Hmask).
  - intros lit sh via Hin Hcl. apply (Hcomplete (sl_open lit) sh via), elem_of_candidates. left. by exists lit.
  - intros ->. destruct (ruby syn); [done|]. destruct (shadow_loop_spec _ _ _ _ _ _ _ _ Hsh) as [Hb _].
    destruct (Hb eq_refl) as ([s e] & Hin & ?). apply Hocc in Hin. by exists s, e.
  - intros pos e sh via Hw Ho. apply (Hcomplete pos sh via), elem_of_candidates. right. exists e. split; [by apply Hocc|done].
  - intros l. rewrite list_elem_of_filter, Hun, hit_lines. cbn [fst snd]. split.
    + intros [Hl [?%not_elem_of_nil|([s e] & Hin & Hund & ->)]]; [done|]. split; [by intros []|].
      exists s, e. split; [by apply Hocc in Hin|]. split; [done|apply Hline].
    + intros [Hl (s & e & Hw & Hund & ->)]. split; [by destruct (acc.1.1 !! line s); [destruct Hl|]|].
      right. exists (s, e). split; [by apply Hocc|]. split; [done|by rewrite Hline].
  - intros l [?%not_elem_of_nil|([s e] & Hin & (_ & _ & Hcall & Hd & _) & ->)]%Hcalls; [done|]. split; [done|].
    exists s, e. split; [by apply Hocc in Hin|]. split; [done|apply Hline].
Qed.

Lemma scan_source_until_ok_witness :
  let src := "bus.on('save', run); // save
x = table.save" in
  scan_source_until (U := ascii_unicode) "javascript" src "save" [] None never never =
    Some (mkScan [mkHit 1 EventName (Some "on"); mkHit 2 FunctionReference None] [] [])
  ∧ StronglySorted lt [1; 2].
Proof.
  assert (scan_source_until (U := ascii_unicode) "javascript" "bus.on('save', run); // save
x = table.save" "save" [] None never never =
    Some (mkScan [mkHit 1 EventName (Some "on"); mkHit 2 FunctionReference None] [] [])) as E by (by vm_compute).
  split; [exact E|].
  destruct (scan_source_until_ok (U := ascii_unicode) "javascript" "bus.on('save', run); // save
x = table.save" "save" [] None never never js_syntax) as [_ H]; [by vm_compute|done|by vm_compute|].
  destruct (H _ E) as (Hs & _). exact Hs.
Defined.
