(* ===== verification/Boundaries.v ===== *)
(** * Dynamic-dispatch boundaries ([graph/boundaries/mod.rs], the project scan)

    The disclosure attached to an empty caller result: every indexed production
    file is scanned for uses of the name the graph does not follow, and what could
    not be read is counted.  The clock, the file system, [char::is_alphabetic] and
    the Unicode tables are parameters. *)

From S2P Require Import Prelude Str Utf8 Tokens Domain Tables Store Queries Paths Resolve BoundLex BoundShapes.

Definition BOUNDARY_SITE_CAP : nat := 5.
Definition MAX_SCAN_BYTES : Z := 2 * 1024 * 1024.
Definition DISCLOSED_CALL_FAMILIES : list string := ["rust"].

Record BoundarySite := mkSite { bs_file_path : string; bs_line : nat; bs_shape : Shape; bs_via : option string }.

Record CallSite := mkCallSite { cs_file_path : string; cs_line : nat; cs_resolved : bool }.

Record Boundaries := mkBoundaries {
  b_name : string;
  b_sites : list BoundarySite;
  b_unscanned_languages : list string;
  b_skipped_files : nat;
  b_files_past_limit : nat;
  b_unresolved_paths : nat;
  b_calls : option (list CallSite);
}.

(** ** What the answer says *)

Definition unresolved_calls (b : Boundaries) : option (list CallSite) :=
  (λ cs, filter (λ c, cs_resolved c = false) cs) <$> b_calls b.

(** [filter(|c| !c.is_empty())] *)
Definition listed_calls (b : Boundaries) : list CallSite := default [] (unresolved_calls b).

Definition writeln (s : string) : string := s +:+ String ch_newline "".

Definition concat_str (l : list string) : string := foldr String.append "" l.

Definition unresolved_calls_text (b : Boundaries) (indent : string) : string :=
  let calls := listed_calls b in
  match calls with
  | [] => ""
  | _ =>
      let files := vec_dedup (sort_cmp String.compare (cs_file_path <$> calls)) in
      let n := length calls in
      writeln (indent +:+ dec_of_nat n +:+ " " +:+ (if n =? 1 then "call" else "calls") +:+ " of '" +:+ b_name b
        +:+ "' in " +:+ dec_of_nat (length files) +:+ " "
        +:+ (if length files =? 1 then if n =? 1 then "file has" else "file have" else "files have")
        +:+ " no resolved target; a caller of this definition may be among them:")
      +:+ concat_str ((λ c, writeln (indent +:+ "  " +:+ cs_file_path c +:+ ":" +:+ dec_of_nat (cs_line c)))
                      <$> take BOUNDARY_SITE_CAP calls)
      +:+ (if BOUNDARY_SITE_CAP <? n
           then writeln (indent +:+ "  … " +:+ dec_of_nat (n - BOUNDARY_SITE_CAP) +:+ " more") else "")
  end.

Definition complete (b : Boundaries) : bool :=
  bool_decide (b_unscanned_languages b = []) && (b_skipped_files b =? 0) && (b_files_past_limit b =? 0)
  && (b_unresolved_paths b =? 0).

Definition next_command (b : Boundaries) : string :=
  let plain c := is_ascii_alphanumeric c || Ascii.eqb c "_" in
  "code-graph-mcp grep -w -F "
  +:+ (if str_forall plain (b_name b) then b_name b
       else "'" +:+ replace_char ch_quote "'\''" (b_name b) +:+ "'").

Definition plural (n : nat) (one many : string) : string := dec_of_nat n +:+ " " +:+ (if n =? 1 then one else many).

Definition unscanned_text (b : Boundaries) : string :=
  join ", "
    ((if bool_decide (b_unscanned_languages b = []) then [] else [join ", " (b_unscanned_languages b) +:+ " files"])
     ++ (if 0 <? b_skipped_files b then [plural (b_skipped_files b) "file" "files" +:+ " over 2 MB or not UTF-8"] else [])
     ++ (if 0 <? b_files_past_limit b
         then [plural (b_files_past_limit b) "file" "files" +:+ " past the scan time limit"] else [])
     ++ (if 0 <? b_unresolved_paths b
         then [plural (b_unresolved_paths b) "Rust path" "Rust paths" +:+ " with an unrecognized qualifier"] else [])).

Definition site_text (indent : string) (s : BoundarySite) : string :=
  indent +:+ "  " +:+ bs_file_path s +:+ ":" +:+ dec_of_nat (bs_line s) +:+ "  " +:+ label (bs_shape s)
  +:+ match bs_via s with Some via => " (" +:+ via +:+ ")" | None => "" end.

Definition render_text (b : Boundaries) (indent : string) : string :=
  let calls_text := unresolved_calls_text b indent in
  let next := writeln (indent +:+ "  next: " +:+ next_command b) in
  match b_sites b with
  | [] =>
      if complete b then
        writeln (indent +:+ "(no dynamic-dispatch site names '" +:+ b_name b +:+ "')")
        +:+ (if String.eqb calls_text "" then "" else calls_text +:+ next)
      else
        writeln (indent +:+ "(no dynamic-dispatch site names '" +:+ b_name b
                 +:+ "' in the files scanned; not scanned: " +:+ unscanned_text b +:+ ")")
        +:+ calls_text +:+ next
  | sites =>
      writeln (indent +:+ dec_of_nat (length sites) +:+ " dynamic-dispatch site(s) name '" +:+ b_name b
               +:+ "' (not graph edges):")
      +:+ concat_str ((λ s, writeln (site_text indent s)) <$> take BOUNDARY_SITE_CAP sites)
      +:+ (if BOUNDARY_SITE_CAP <? length sites
           then writeln (indent +:+ "  … " +:+ dec_of_nat (length sites - BOUNDARY_SITE_CAP) +:+ " more") else "")
      +:+ calls_text
      +:+ (if complete b then "" else writeln (indent +:+ "  not scanned: " +:+ unscanned_text b))
      +:+ next
  end.

(** ** Placing calls in functions *)

(** [(start, end, id, is_test)] *)
Definition Span : Type := Z * Z * Z * bool.
Definition sp_start (s : Span) : Z := s.1.1.1.
Definition sp_end (s : Span) : Z := s.1.1.2.
Definition sp_id (s : Span) : Z := s.1.2.
Definition sp_test (s : Span) : bool := s.2.

Definition span_cmp : Span → Span → comparison :=
  cmp_then (cmp_by sp_start Z.compare)
    (cmp_then (cmp_by sp_end Z.compare) (cmp_then (cmp_by sp_id Z.compare) (cmp_by sp_test bool_cmp))).

Fixpoint rposition {A} (f : A → bool) (l : list A) : option nat :=
  match l with
  | [] => None
  | x :: l' => match rposition f l' with Some i => Some (S i) | None => if f x then Some 0 else None end
  end.

Definition innermost (spans : list Span) (line : Z) : list Span :=
  let upto := partition_point (λ s, sp_start s <=? line)%Z spans in
  match rposition (λ s, line <=? sp_end s)%Z (take upto spans) with
  | None => []
  | Some i =>
      match spans !! i with
      | None => []
      | Some s =>
          let lo := partition_point (λ s', sp_start s' <? sp_start s)%Z (take i spans) in
          filter (λ s', (line <= sp_end s')%Z) (take (S i - lo) (drop lo spans))
      end
  end.

Section Project.
Context `{U : Unicode} (is_alphabetic : Z → bool).

(** What the loops see of the wall clock: whether the deadline has passed, at the
    file, at the loops of its scan, at the file of the calls and at a line of it. *)
Record Clock := mkClock {
  late_file : nat → bool;
  late_shadow : nat → nat → bool;
  late_scan : nat → nat → bool;
  late_calls : nat → bool;
  late_line : nat → nat → bool;
}.

(** [std::fs::metadata] (the length) and [std::fs::read] below the root. *)
Record Disk := mkDisk { disk_len : string → option Z; disk_read : string → option string }.

Context (st : Store) (clock : Clock) (disk : Disk).

Definition resolving (name : string) : list Z :=
  remove_dups (e ← ee_edge <$> s_edges st;
    if String.eqb (e_relation e) REL_CALLS && existsb (λ t, String.eqb (node_name_of t) name) (node_rows st (e_target_id e))
    then [e_source_id e] else []).

Definition spans_of (path : string) (keep : string → bool) : list Span :=
  sort_cmp span_cmp
    ((λ nf, (n_start_line (nr_node nf.1), n_end_line (nr_node nf.1), node_id_of nf.1, n_is_test (nr_node nf.1)))
     <$> filter (λ nf, file_path_of nf.2 = path ∧ keep (type_of nf.1) = true) (node_files st)).

Definition holders (path : string) (line : nat) : list Span :=
  let fns := innermost (spans_of path is_function_node_type) (Z.of_nat line) in
  if bool_decide (fns = [])
  then innermost (spans_of path (λ ty, negb (is_function_node_type ty) && String.eqb ty "module")) (Z.of_nat line)
  else fns.

Definition classify_line (name path : string) (line : nat) : list CallSite :=
  let hs := holders path line in
  if negb (bool_decide (hs = [])) && forallb sp_test hs then []
  else [mkCallSite path line
          (negb (bool_decide (hs = [])) && forallb (λ h, bool_decide (sp_id h ∈ resolving name)) hs)].

(** [None]: the deadline passed. *)
Fixpoint classify_lines (name path : string) (k j : nat) (lines : list nat) : option (list CallSite) :=
  match lines with
  | [] => Some []
  | line :: lines' =>
      if (j mod 1024 =? 1023) && late_line clock k j then None
      else (λ r, classify_line name path line ++ r) <$> classify_lines name path k (S j) lines'
  end.

(** The calls, and the files left unclassified. *)
Fixpoint classify_loop (name : string) (k : nat) (call_lines : list (string * list nat)) : list CallSite * nat :=
  match call_lines with
  | [] => ([], 0)
  | (path, lines) :: rest =>
      if late_calls clock k then ([], S (length rest))
      else match classify_lines name path k 0 lines with
           | None => ([], S (length rest))
           | Some sites => let '(out, late) := classify_loop name (S k) rest in (sites ++ out, late)
           end
  end.

Definition classify_calls (name : string) (call_lines : list (string * list nat)) : list CallSite * nat :=
  classify_loop name 0 call_lines.

(** ** The scan *)

Definition has_table (language : option string) : bool :=
  match language ≫= syntax_for with Some _ => true | None => false end.

Definition scannable (path : string) (language : option string) : bool :=
  has_table language && negb (is_test_path path) && negb (ends_with "_spec.rb" path).

(** [SELECT path, language FROM files ORDER BY path] *)
Definition file_list : list (string * option string) :=
  sort_cmp (cmp_by fst String.compare) ((λ f, (file_path_of f, file_language f)) <$> s_files st).

Record ScanState := mkState {
  ss_sites : list BoundarySite;
  ss_unscanned : list string;
  ss_skipped : nat;
  ss_past : nat;
  ss_unresolved : nat;
  ss_calls : list (string * list nat);
}.

Section Scan.
Context (name : string) (exclude : list (string * nat)) (def_files : list string).
Context (qualifiers : option (list string)) (call_families : option (list string)).

Definition def_lines_of (path : string) : list nat := snd <$> filter (λ e, e.1 = path) exclude.

Definition skip_file (s : ScanState) : ScanState :=
  mkState (ss_sites s) (ss_unscanned s) (S (ss_skipped s)) (ss_past s) (ss_unresolved s) (ss_calls s).
Definition past_file (s : ScanState) : ScanState :=
  mkState (ss_sites s) (ss_unscanned s) (ss_skipped s) (S (ss_past s)) (ss_unresolved s) (ss_calls s).

Definition note_language (s : ScanState) (path : string) (language : option string) : ScanState :=
  if bool_decide (path ∈ def_files) && negb (has_table language) then
    let lang := default "unknown" language in
    if bool_decide (lang ∈ ss_unscanned s) then s
    else mkState (ss_sites s) (ss_unscanned s ++ [lang]) (ss_skipped s) (ss_past s) (ss_unresolved s) (ss_calls s)
  else s.

Definition in_family (language : string) : bool :=
  match call_family language, call_families with
  | Some f, Some families => existsb (String.eqb f) families
  | _, _ => false
  end.

Definition sites_of (path : string) (scan : SourceScan) : list BoundarySite :=
  (λ h, mkSite path (sh_line h) (sh_shape h) (sh_via h))
  <$> filter (λ h, sh_line h ∉ def_lines_of path) (sc_hits scan).

Definition add_scan (s : ScanState) (path language : string) (scan : SourceScan) : ScanState :=
  mkState (ss_sites s ++ sites_of path scan) (ss_unscanned s) (ss_skipped s) (ss_past s)
    (ss_unresolved s + length (filter (λ l, l ∉ def_lines_of path) (sc_unresolved_lines scan)))
    (ss_calls s ++ if in_family language && negb (bool_decide (sc_call_lines scan = []))
                   then [(path, sc_call_lines scan)] else []).

(** The text of a file that was read. *)
Definition scan_text (s : ScanState) (k : nat) (path language text : string) : ScanState :=
  if negb (contains name text) then s
  else match scan_source_until language text name (def_lines_of path) qualifiers (late_shadow clock k) (late_scan clock k) with
       | None => past_file s
       | Some scan => add_scan s path language scan
       end.

Definition scan_file (s : ScanState) (f : nat * (string * option string)) : ScanState :=
  let '(k, (path, language)) := f in
  if negb (scannable path language) then note_language s path language
  else if (0 <? ss_past s) || late_file clock k then past_file s
  else match disk_len disk path with
       | None => s
       | Some len =>
           if (MAX_SCAN_BYTES <? len)%Z then skip_file s
           else match disk_read disk path with
                | None => s
                | Some raw =>
                    match from_utf8 raw with
                    | None => if negb (String.eqb name "") && contains name raw then skip_file s else s
                    | Some text => scan_text s k path (default "" language) text
                    end
                end
       end.

Definition scan_files : ScanState :=
  foldl scan_file (mkState [] [] 0 0 0 []) (imap (λ k f, (k, f)) file_list).

Definition scan_project_with : Boundaries :=
  let s := scan_files in
  match call_families with
  | None => mkBoundaries name (ss_sites s) (ss_unscanned s) (ss_skipped s) (ss_past s) (ss_unresolved s) None
  | Some _ =>
      let '(calls, late) := classify_calls name (ss_calls s) in
      mkBoundaries name (ss_sites s) (ss_unscanned s) (ss_skipped s) (ss_past s + late) (ss_unresolved s) (Some calls)
  end.
End Scan.

Definition scan_project (name : string) (exclude : list (string * nat)) : Boundaries :=
  scan_project_with name exclude [] None None.

(** ** The entry point *)

(** What follows the last [p]. *)
Definition after_last (p s : string) : string :=
  match rfind p s with
  | Some i => String.substring (i + String.length p) (String.length s) s
  | None => s
  end.

Definition bare_name (symbol : string) : string := after_last "." (after_last "::" symbol).

Definition is_identifier (name : string) : bool :=
  match chars name with
  | [] => false
  | c :: _ => (is_alphabetic c || (c =? 95)%Z || (c =? 36)%Z)
              && forallb (λ c, is_alphanumeric c || (c =? 95)%Z || (c =? 36)%Z) (chars name)
  end.

Definition file_stem (path : string) : option string :=
  name ← file_name path;
  match rsplit_once ch_dot name with
  | Some (stem, _) => if String.eqb stem "" then Some name else Some stem
  | None => Some name
  end.

(** [parent().file_name()] *)
Definition parent_name (path : string) : option string :=
  match last (removelast (filter (λ s, s ≠ "" ∧ s ≠ ".") (split_on ch_slash path))) with
  | Some ".." => None
  | o => o
  end.

Definition push_qualifier (out : list string) (q : string) : list string :=
  if String.eqb q "" || existsb (String.eqb q) out then out else out ++ [q].

Definition owner_of (qualified : option string) : option string :=
  q ← qualified; last (removelast (split_colons q ≫= split_on ch_dot)).

Definition add_qualifiers (out : list string) (d : string * option string) : list string :=
  let '(file, qualified) := d in
  let out := match owner_of qualified with Some owner => push_qualifier out owner | None => out end in
  let stem := default "" (file_stem file) in
  push_qualifier out (if existsb (String.eqb stem) ["mod"; "lib"; "main"] then default "" (parent_name file) else stem).

Definition path_qualifiers (defs : list (string * option string)) : list string :=
  foldl add_qualifiers ["Self"; "self"; "super"; "crate"] defs.

Fixpoint common_prefix (l l' : list string) : nat :=
  match l, l' with a :: l, b :: l' => if String.eqb a b then S (common_prefix l l') else 0 | _, _ => 0 end.

Definition shared (anchors : list string) (file : string) : nat :=
  foldr Nat.max 0 ((λ d, common_prefix (split_on ch_slash d) (split_on ch_slash file)) <$> anchors).

(** Nearest the definition asked about first. *)
Definition nearest_cmp (anchors : list string) : CallSite → CallSite → comparison :=
  cmp_then (cmp_rev (cmp_by (λ c, shared anchors (cs_file_path c)) Nat.compare))
    (cmp_then (cmp_by cs_file_path String.compare) (cmp_by cs_line Nat.compare)).

Definition is_fn (d : NodeWithFile) : bool := is_function_node_type (type_of (nwf_node d)).

Definition disclosed_family (language : option string) : option string :=
  f ← language ≫= call_family; if existsb (String.eqb f) DISCLOSED_CALL_FAMILIES then Some f else None.

Definition for_empty_result (symbol : string) (near : list Z) : option Boundaries :=
  let name := bare_name symbol in
  if negb (is_identifier name) then None
  else
    let defs := get_nodes_with_files_by_name st name in
    if negb (existsb is_fn defs) then None
    else
      let exclude := (λ d, (nwf_file_path d, Z.to_nat (n_start_line (nr_node (nwf_node d))))) <$> defs in
      let fn_defs := filter (λ d, is_fn d = true) defs in
      let def_files := nwf_file_path <$> fn_defs in
      let qualifiers := path_qualifiers ((λ d, (nwf_file_path d, qualified_of (nwf_node d))) <$> fn_defs) in
      let families := mapM (disclosed_family ∘ nwf_language) fn_defs in
      let out := scan_project_with name exclude def_files (Some qualifiers) families in
      let asked := nwf_file_path <$> filter (λ d, node_id_of (nwf_node d) ∈ near) fn_defs in
      let anchors := if bool_decide (asked = []) then def_files else asked in
      Some (mkBoundaries (b_name out) (b_sites out) (b_unscanned_languages out) (b_skipped_files out)
              (b_files_past_limit out) (b_unresolved_paths out)
              (sort_cmp (nearest_cmp anchors) <$> b_calls out)).
End Project.

(** * Properties *)

(** ** The innermost function *)

Lemma partition_point_split {A} (f : A → bool) (l : list A) :
  Forall (λ x, f x = true) (take (partition_point f l) l)
  ∧ (∀ x, l !! partition_point f l = Some x → f x = false) ∧ partition_point f l ≤ length l.
Proof.
  induction l as [|x l (IH1 & IH2 & IH3)]; simpl; [split; [constructor|split; [done|lia]]|].
  destruct (f x) eqn:E1; simpl; [split; [by constructor|split; [done|lia]]|].
  split; [constructor|split; [by intros y [= <-]|lia]].
Qed.

Lemma rposition_spec {A} (f : A → bool) (l : list A) :
  match rposition f l with
  | Some i => (∃ x, l !! i = Some x ∧ f x = true) ∧ ∀ j x, i < j → l !! j = Some x → f x = false
  | None => ∀ j x, l !! j = Some x → f x = false
  end.
Proof.
  induction l as [|x l IH]; simpl; [done|]. destruct (rposition f l) as [i|].
  - destruct IH as [(y & ? & ?) IH]. split; [by exists y|]. intros [|j] z Hj Hz; [lia|]. apply (IH j); [lia|done].
  - destruct (f x) eqn:E1.
    + split; [by exists x|]. intros [|j] z Hj Hz; [lia|]. by apply (IH j).
    + intros [|j] z Hz; [simpl in Hz; congruence|]. by apply (IH j).
Qed.

Definition starts_sorted (spans : list Span) : Prop := StronglySorted (λ a b, (sp_start a ≤ sp_start b)%Z) spans.

Lemma sorted_lookup (spans : list Span) : starts_sorted spans → ∀ i j a b,
  i ≤ j → spans !! i = Some a → spans !! j = Some b → (sp_start a ≤ sp_start b)%Z.
Proof.
  induction 1 as [|x l Hl IH Hx]; intros i j a b Hij Ha Hb; [done|].
  destruct i as [|i], j as [|j]; simpl in *; try lia.
  - assert (a = b) as -> by congruence. lia.
  - assert (x = a) as <- by congruence. rewrite Forall_forall in Hx. apply Hx. by eapply list_elem_of_lookup_2.
  - apply (IH i j); [lia|done|done].
Qed.

Definition holds (line : Z) (s : Span) : Prop := (sp_start s ≤ line ≤ sp_end s)%Z.

Definition is_innermost (spans : list Span) (line : Z) (s : Span) : Prop :=
  holds line s ∧ Forall (λ s', holds line s' → (sp_start s' ≤ sp_start s)%Z) spans.

#[export] Instance holds_dec line s : Decision (holds line s).
Proof. unfold holds. apply _. Defined.
#[export] Instance is_innermost_dec spans line s : Decision (is_innermost spans line s).
Proof. unfold is_innermost. apply _. Defined.

(** The spans past the last one that holds the line do not hold it. *)
Lemma after_last_holder spans line i :
  starts_sorted spans →
  rposition (λ s, line <=? sp_end s)%Z (take (partition_point (λ s, sp_start s <=? line)%Z spans) spans) = Some i →
  (∃ s, spans !! i = Some s ∧ holds line s) ∧ ∀ j s, i < j → spans !! j = Some s → ¬ holds line s.
Proof.
  intros Hs Hr. destruct (partition_point_split (λ s, sp_start s <=? line)%Z spans) as (H1 & H2 & H3).
  set (u := partition_point _ spans) in *. pose proof (rposition_spec (λ s, line <=? sp_end s)%Z (take u spans)) as Hp.
  rewrite Hr in Hp. destruct Hp as [(x & Hx & Hxe) Hafter]. split.
  - exists x. rewrite Forall_lookup in H1. specialize (H1 _ _ Hx). apply lookup_take_Some in Hx as [Hx _].
    split; [done|]. bool_prop. split; lia.
  - intros j s Hij Hj [Hst Hen]. destruct (decide (j < u)).
    + specialize (Hafter j s Hij ltac:(by rewrite lookup_take_lt)). simpl in Hafter. bool_prop. lia.
    + pose proof (lookup_lt_Some _ _ _ Hj). destruct (lookup_lt_is_Some_2 spans u ltac:(lia)) as [y Hy].
      specialize (H2 y Hy). simpl in H2. bool_prop. pose proof (sorted_lookup _ Hs u j y s ltac:(lia) Hy Hj). lia.
Qed.

Lemma innermost_spec spans line :
  starts_sorted spans → innermost spans line = filter (is_innermost spans line) spans.
Proof.
  intros Hs. unfold innermost. destruct (rposition _ _) as [i|] eqn:Hr.
  - destruct (after_last_holder _ _ _ Hs Hr) as [(s & Hi & Hh) Hafter]. rewrite Hi.
    destruct (partition_point_split (λ s', sp_start s' <? sp_start s)%Z (take i spans)) as (H1 & H2 & H3).
    set (lo := partition_point _ (take i spans)) in *. rewrite length_take in H3. pose proof (lookup_lt_Some _ _ _ Hi).
    assert (∀ k s', spans !! k = Some s' → holds line s' → (sp_start s' ≤ sp_start s)%Z) as Hmax.
    { intros k s' Hk Hs'. destruct (decide (k ≤ i)); [by apply (sorted_lookup _ Hs k i)|]. by destruct (Hafter k s' ltac:(lia)). }
    transitivity (filter (is_innermost spans line)
      (take lo spans ++ take (S i - lo) (drop lo spans) ++ drop (S i - lo) (drop lo spans))); [|by rewrite !take_drop].
    rewrite !filter_app, (filter_none _ (take lo spans)), (filter_none _ (drop _ (drop _ _))), app_nil_r; simpl.
    + apply filter_ext_elem. intros x (k & Hk & Hlt)%elem_of_take. rewrite lookup_drop in Hk.
      assert ((sp_start x = sp_start s)%Z) as Hx.
      { pose proof (sorted_lookup _ Hs (lo + k) i x s ltac:(lia) Hk Hi). destruct (decide (lo = i)) as [El|].
        - assert (k = 0) as -> by lia. rewrite Nat.add_0_r, El in Hk. congruence.
        - destruct (lookup_lt_is_Some_2 spans lo ltac:(lia)) as [y Hy].
          specialize (H2 y ltac:(by rewrite lookup_take_lt by lia)). simpl in H2. bool_prop.
          pose proof (sorted_lookup _ Hs lo (lo + k) y x ltac:(lia) Hy Hk). lia. }
      unfold is_innermost, holds in *. rewrite Forall_forall. split; [|tauto]. intros Hx'. split; [lia|].
      intros s' (j & Hj)%list_elem_of_lookup_1 Hs'. rewrite Hx. by apply (Hmax j).
    + intros x (k & Hk)%list_elem_of_lookup_1 [Hx _]. rewrite !lookup_drop in Hk. apply (Hafter (lo + (S i - lo + k)) x); [lia|done|done].
    + intros x (k & Hk & Hlt)%elem_of_take [Hx Hall]. rewrite Forall_forall in Hall.
      specialize (Hall s ltac:(by eapply list_elem_of_lookup_2) Hh). rewrite Forall_lookup in H1.
      specialize (H1 k x). rewrite take_take, lookup_take_lt in H1 by lia. specialize (H1 Hk). simpl in H1. bool_prop. lia.
  - destruct (partition_point_split (λ s, sp_start s <=? line)%Z spans) as (H1 & H2 & H3).
    set (u := partition_point _ spans) in *. pose proof (rposition_spec (λ s, line <=? sp_end s)%Z (take u spans)) as Hp.
    rewrite Hr in Hp. symmetry. apply filter_none. intros x (j & Hj)%list_elem_of_lookup_1 [[Hst Hen] _].
    destruct (decide (j < u)).
    + specialize (Hp j x ltac:(by rewrite lookup_take_lt)). simpl in Hp. bool_prop. lia.
    + pose proof (lookup_lt_Some _ _ _ Hj). destruct (lookup_lt_is_Some_2 spans u ltac:(lia)) as [y Hy].
      specialize (H2 y Hy). simpl in H2. bool_prop. pose proof (sorted_lookup _ Hs u j y x ltac:(lia) Hy Hj). lia.
Qed.

(** ** Calls *)

#[export] Instance span_cmp_ok : CmpOk span_cmp.
Proof. unfold span_cmp. apply _. Qed.

Lemma spans_sorted st path keep : starts_sorted (spans_of st path keep).
Proof.
  unfold spans_of, starts_sorted. set (l := _ <$> _). clearbody l.
  assert (StronglySorted (λ x y, cmp_leb span_cmp x y = true) (sort_cmp span_cmp l)) as Hs by exact (sort_cmp_sorted span_cmp l).
  induction Hs as [|a l' Hl IH Ha]; [constructor|]. constructor; [done|]. eapply Forall_impl; [exact Ha|].
  intros b. simpl. unfold cmp_leb, span_cmp, cmp_then, cmp_by.
  destruct (Z.compare_spec (sp_start a) (sp_start b)); try done; lia.
Qed.

(** The functions of the file that hold the line and start last; a module's where no
    function does. *)
Definition holder (st : Store) (path : string) (line : nat) (s : Span) : Prop :=
  ∃ keep, (keep = is_function_node_type ∨ keep = λ ty, negb (is_function_node_type ty) && String.eqb ty "module")
    ∧ s ∈ spans_of st path keep ∧ is_innermost (spans_of st path keep) (Z.of_nat line) s.

Lemma holders_ok st path line s : s ∈ holders st path line → holder st path line s.
Proof.
  unfold holders, holder. cbn zeta. rewrite !innermost_spec by apply spans_sorted.
  destruct (bool_decide _); intros [? ?]%list_elem_of_filter.
  - eexists. split; [by right|done].
  - exists is_function_node_type. split; [by left|done].
Qed.

Lemma elem_of_resolving st name id :
  id ∈ resolving st name ↔ ∃ e t, e ∈ s_edges st ∧ t ∈ s_nodes st ∧ e_source_id (ee_edge e) = id
    ∧ e_relation (ee_edge e) = REL_CALLS ∧ node_id_of t = e_target_id (ee_edge e) ∧ node_name_of t = name.
Proof.
  unfold resolving. rewrite elem_of_remove_dups, list_elem_of_bind. split.
  - intros (e & Hin & (ee & -> & Hee)%list_elem_of_fmap). destruct (_ && _) eqn:E1; [|by apply not_elem_of_nil in Hin].
    apply list_elem_of_singleton in Hin as ->. apply andb_true_iff in E1 as [Hr (t & Ht & Hn)%existsb_exists].
    apply String.eqb_eq in Hr, Hn. apply list_elem_of_In in Ht. unfold node_rows in Ht. apply list_elem_of_filter in Ht as [Hid Ht]. exists ee, t. done.
  - intros (ee & t & Hee & Ht & <- & Hr & Hid & Hn). exists (ee_edge ee). split; [|by apply list_elem_of_fmap_2].
    rewrite Hr, String.eqb_refl. simpl.
    assert (existsb (λ t, String.eqb (node_name_of t) name) (node_rows st (e_target_id (ee_edge ee))) = true) as ->; [|by left].
    apply existsb_exists. exists t. split; [|by apply String.eqb_eq]. apply list_elem_of_In. by apply list_elem_of_filter.
Qed.

(** What a listed call says of the graph. *)
Definition call_ok (st : Store) (name : string) (c : CallSite) : Prop :=
  let hs := holders st (cs_file_path c) (cs_line c) in
  ¬ (hs ≠ [] ∧ ∀ s, s ∈ hs → sp_test s = true)
  ∧ (cs_resolved c = true ↔ hs ≠ [] ∧ ∀ s, s ∈ hs → sp_id s ∈ resolving st name).

Lemma classify_line_ok st name path line c :
  c ∈ classify_line st name path line → cs_file_path c = path ∧ cs_line c = line ∧ call_ok st name c.
Proof.
  unfold classify_line. destruct (_ && forallb sp_test _) eqn:E1; [by intros ?%not_elem_of_nil|].
  intros ->%list_elem_of_singleton. do 2 (split; [done|]). unfold call_ok. cbn [cs_file_path cs_line cs_resolved]. split.
  - intros [Hne Ht]. rewrite bool_decide_eq_false_2 in E1 by done. simpl in E1.
    assert (forallb sp_test (holders st path line) = true); [|congruence].
    apply forallb_forall. intros s Hs. apply Ht. by apply list_elem_of_In.
  - rewrite andb_true_iff, negb_true_iff, bool_decide_eq_false, forallb_forall. split.
    + intros [? H]. split; [done|]. intros s Hs. specialize (H s ltac:(by apply list_elem_of_In)). by apply bool_decide_eq_true in H.
    + intros [? H]. split; [done|]. intros s Hs. apply bool_decide_eq_true, H. by apply list_elem_of_In.
Qed.

Lemma classify_line_lists st name path line :
  classify_line st name path line = [] ↔ holders st path line ≠ [] ∧ ∀ s, s ∈ holders st path line → sp_test s = true.
Proof.
  unfold classify_line. destruct (_ && forallb sp_test _) eqn:E1.
  - split; [|done]. intros _. apply andb_true_iff in E1 as [Hne Ht]. apply negb_true_iff, bool_decide_eq_false in Hne.
    split; [done|]. intros s Hs. rewrite forallb_forall in Ht. apply Ht. by apply list_elem_of_In.
  - split; [done|]. intros [Hne Ht]. rewrite bool_decide_eq_false_2 in E1 by done. simpl in E1.
    assert (forallb sp_test (holders st path line) = true); [|congruence].
    apply forallb_forall. intros s Hs. apply Ht. by apply list_elem_of_In.
Qed.

Lemma classify_lines_ok st clock name path k lines : ∀ j cs,
  classify_lines st clock name path k j lines = Some cs → cs = lines ≫= classify_line st name path.
Proof.
  induction lines as [|line lines IH]; intros j cs; simpl; [by intros [= <-]|].
  destruct (_ && _); [done|]. destruct (classify_lines _ _ _ _ _ _ _) as [r|] eqn:E1; [|done]. simpl. intros [= <-].
  by rewrite (IH _ _ E1).
Qed.

(** Every file's calls are listed, or the file and those after it are counted. *)
Lemma classify_loop_ok st clock name call_lines : ∀ k,
  let '(cs, late) := classify_loop st clock name k call_lines in
  late ≤ length call_lines
  ∧ cs = take (length call_lines - late) call_lines ≫= λ p, p.2 ≫= classify_line st name p.1.
Proof.
  induction call_lines as [|[path lines] rest IH]; intros k; cbn [classify_loop]; [done|].
  destruct (late_calls clock k); [simpl; split; [lia|by rewrite Nat.sub_diag]|].
  destruct (classify_lines _ _ _ _ _ _ _) as [sites|] eqn:E1; [|simpl; split; [lia|by rewrite Nat.sub_diag]].
  specialize (IH (S k)). destruct (classify_loop _ _ _ _ _) as [out late]. destruct IH as [Hl ->]. cbn [length].
  split; [lia|]. replace (S (length rest) - late) with (S (length rest - late)) by lia. cbn [take].
  rewrite bind_cons. cbn [fst snd]. by rewrite (classify_lines_ok _ _ _ _ _ _ _ _ E1).
Qed.

(** ** The scan *)

Section Scan.
Context `{U : Unicode} (st : Store) (clock : Clock) (disk : Disk).
Context (name : string) (exclude : list (string * nat)) (def_files : list string).
Context (qualifiers : option (list string)) (call_families : option (list string)).

#[local] Abbreviation scan1 := (scan_file clock disk name exclude def_files qualifiers call_families).
#[local] Abbreviation defs := (def_lines_of exclude).

(** The scan of the [k]th file, if it was read. *)
Definition scanned (k : nat) (path : string) (language : option string) (raw : string) (scan : SourceScan) : Prop :=
  scannable path language = true ∧ disk_read disk path = Some raw ∧ from_utf8 raw = Some raw
  ∧ scan_source_until (default "" language) raw name (defs path) qualifiers (late_shadow clock k) (late_scan clock k) = Some scan.

(** What a file adds to the sites, the undecided lines and the calls. *)
Record FilePart := mkPart { fp_sites : list BoundarySite; fp_undecided : nat; fp_calls : list (string * list nat) }.

Definition no_part : FilePart := mkPart [] 0 [].

Definition part_of (path : string) (language : option string) (scan : SourceScan) : FilePart :=
  mkPart (sites_of exclude path scan) (length (filter (λ l, l ∉ defs path) (sc_unresolved_lines scan)))
    (if in_family call_families (default "" language) && negb (bool_decide (sc_call_lines scan = []))
     then [(path, sc_call_lines scan)] else []).

(** Nothing, or the scan of the file; and the scan if it could be read and was not counted. *)
Definition file_part (f : nat * (string * option string)) (counted : bool) (p : FilePart) : Prop :=
  let '(k, (path, language)) := f in
  (p = no_part ∨ ∃ raw scan, scanned k path language raw scan ∧ p = part_of path language scan)
  ∧ (counted = false → scannable path language = true → ∀ len raw,
       disk_len disk path = Some len → disk_read disk path = Some raw → contains name raw = true → name ≠ "" →
       (len ≤ MAX_SCAN_BYTES)%Z ∧ ∃ scan, scanned k path language raw scan ∧ p = part_of path language scan).

Definition state_of (s : ScanState) (un : list string) (skipped past : nat) (p : FilePart) : ScanState :=
  mkState (ss_sites s ++ fp_sites p) un skipped past (ss_unresolved s + fp_undecided p) (ss_calls s ++ fp_calls p).

Lemma state_of_none s un skipped past :
  state_of s un skipped past no_part = mkState (ss_sites s) un skipped past (ss_unresolved s) (ss_calls s).
Proof. unfold state_of. simpl. by rewrite !app_nil_r, Nat.add_0_r. Qed.

Lemma note_language_ok s path language :
  ∃ un, note_language def_files s path language = state_of s un (ss_skipped s) (ss_past s) no_part
    ∧ (∀ l, l ∈ ss_unscanned s → l ∈ un) ∧ (path ∈ def_files → has_table language = false → default "unknown" language ∈ un).
Proof.
  exists (ss_unscanned (note_language def_files s path language)). rewrite state_of_none. split_and!.
  - unfold note_language. destruct (_ && _); [destruct (bool_decide _)|]; by destruct s.
  - intros l Hl. unfold note_language. destruct (_ && _); [destruct (bool_decide _)|]; simpl; [done| |done].
    apply elem_of_app. by left.
  - intros Hd Ht. unfold note_language. rewrite bool_decide_eq_true_2, Ht by done. simpl.
    destruct (bool_decide _) eqn:E1; [by apply bool_decide_eq_true in E1|]. simpl. apply elem_of_app. right. by left.
Qed.

Lemma scan_file_part s f :
  ∃ un skipped past p, scan1 s f = state_of s un skipped past p ∧ ss_skipped s ≤ skipped ∧ ss_past s ≤ past
    ∧ file_part f (bool_decide (ss_skipped s < skipped ∨ ss_past s < past)) p
    ∧ (∀ l, l ∈ ss_unscanned s → l ∈ un)
    ∧ (f.2.1 ∈ def_files → has_table f.2.2 = false → default "unknown" f.2.2 ∈ un).
Proof.
  destruct f as [k [path language]]. unfold scan_file. destruct (scannable path language) eqn:Es; cbn [negb].
  2: { destruct (note_language_ok s path language) as (un & -> & Hun & Hnew). exists un, (ss_skipped s), (ss_past s), no_part.
    split_and!; try done. simpl. split; [by left|]. by rewrite Es. }
  assert (has_table language = true) as Htab by (unfold scannable in Es; by bool_prop).
  assert (∀ un skipped past p,
    scan1 s (k, (path, language)) = state_of s un skipped past p → un = ss_unscanned s →
    ss_skipped s ≤ skipped → ss_past s ≤ past →
    file_part (k, (path, language)) (bool_decide (ss_skipped s < skipped ∨ ss_past s < past)) p →
    ∃ un skipped past p, scan1 s (k, (path, language)) = state_of s un skipped past p ∧ ss_skipped s ≤ skipped ∧ ss_past s ≤ past
    ∧ file_part (k, (path, language)) (bool_decide (ss_skipped s < skipped ∨ ss_past s < past)) p
    ∧ (∀ l, l ∈ ss_unscanned s → l ∈ un)
    ∧ (path ∈ def_files → has_table language = false → default "unknown" language ∈ un)) as Hmk.
  { intros un skipped past p H1 -> ? ? ?. exists (ss_unscanned s), skipped, past, p. split_and!; try done. by rewrite Htab. }
  assert (∀ p, p = no_part → ∀ skipped past, (ss_skipped s < skipped ∨ ss_past s < past) →
    file_part (k, (path, language)) (bool_decide (ss_skipped s < skipped ∨ ss_past s < past)) p) as Hcounted.
  { intros p -> skipped past H. simpl. split; [by left|]. by rewrite bool_decide_eq_true_2. }
  unfold scan_file in Hmk. rewrite Es in Hmk. cbn [negb] in Hmk. cbn [fst snd].
  destruct ((0 <? ss_past s) || late_file clock k).
  { apply (Hmk (ss_unscanned s) (ss_skipped s) (S (ss_past s)) no_part); rewrite ?state_of_none; try done; try lia. apply Hcounted; [done|lia]. }
  destruct (disk_len disk path) as [len|] eqn:Elen.
  2: { apply (Hmk (ss_unscanned s) (ss_skipped s) (ss_past s) no_part); rewrite ?state_of_none; try done; [by destruct s|].
    simpl. split; [by left|]. intros _ _ ? ?. by rewrite Elen. }
  destruct (Z.ltb_spec MAX_SCAN_BYTES len).
  { apply (Hmk (ss_unscanned s) (S (ss_skipped s)) (ss_past s) no_part); rewrite ?state_of_none; try done; try lia. apply Hcounted; [done|lia]. }
  destruct (disk_read disk path) as [raw|] eqn:Eraw.
  2: { apply (Hmk (ss_unscanned s) (ss_skipped s) (ss_past s) no_part); rewrite ?state_of_none; try done; [by destruct s|].
    simpl. split; [by left|]. intros _ _ ? ? _. by rewrite Eraw. }
  destruct (from_utf8 raw) as [text|] eqn:Eu.
  2: { destruct (negb (String.eqb name "") && contains name raw) eqn:Ec.
    - apply (Hmk (ss_unscanned s) (S (ss_skipped s)) (ss_past s) no_part); rewrite ?state_of_none; try done; try lia. apply Hcounted; [done|lia].
    - apply (Hmk (ss_unscanned s) (ss_skipped s) (ss_past s) no_part); rewrite ?state_of_none; try done; [by destruct s|].
      simpl. split; [by left|]. intros _ _ ? raw' _ Hr Hcn Hn. assert (raw = raw') as <- by congruence.
      rewrite Hcn, andb_true_r in Ec. apply negb_false_iff, String.eqb_eq in Ec. done. }
  destruct (from_utf8_Some _ _ Eu) as [-> _]. unfold scan_text. unfold scan_text in Hmk. destruct (contains name raw) eqn:Ec; cbn [negb].
  2: { apply (Hmk (ss_unscanned s) (ss_skipped s) (ss_past s) no_part); rewrite ?state_of_none; try done; [by destruct s|].
    simpl. split; [by left|]. intros _ _ ? raw' _ Hr Hcn Hn. assert (raw = raw') as <- by congruence. congruence. }
  destruct (scan_source_until _ _ _ _ _ _ _) as [scan|] eqn:Escan.
  - apply (Hmk (ss_unscanned s) (ss_skipped s) (ss_past s) (part_of path language scan)); try done.
    assert (scanned k path language raw scan) as Hsc by done.
    simpl. split; [right; by exists raw, scan|]. intros _ _ len' raw' ? Hr _ _.
    assert (raw = raw' ∧ len = len') as [<- <-] by (split; congruence). split; [done|]. by exists scan.
  - apply (Hmk (ss_unscanned s) (ss_skipped s) (S (ss_past s)) no_part); rewrite ?state_of_none; try done; try lia. apply Hcounted; [done|lia].
Qed.

Lemma file_part_weaken f c c' p : (c' = false → c = false) → file_part f c p → file_part f c' p.
Proof. destruct f as [k [path language]]. intros Hc [H1 H2]. split; [done|]. intros Hf. by apply H2, Hc. Qed.

Lemma scan_fold l : ∀ s, ∃ un skipped past parts,
  foldl scan1 s l = mkState (ss_sites s ++ (parts ≫= fp_sites)) un skipped past
                      (ss_unresolved s + sum_list (fp_undecided <$> parts)) (ss_calls s ++ (parts ≫= fp_calls))
  ∧ ss_skipped s ≤ skipped ∧ ss_past s ≤ past
  ∧ Forall2 (λ f p, file_part f (bool_decide (ss_skipped s < skipped ∨ ss_past s < past)) p) l parts
  ∧ (∀ l, l ∈ ss_unscanned s → l ∈ un)
  ∧ ∀ f, f ∈ l → f.2.1 ∈ def_files → has_table f.2.2 = false → default "unknown" f.2.2 ∈ un.
Proof.
  induction l as [|f l IH]; intros s.
  { exists (ss_unscanned s), (ss_skipped s), (ss_past s), []. simpl. rewrite !app_nil_r, Nat.add_0_r.
    split_and!; try done; [by destruct s|]. by intros ? ?%not_elem_of_nil. }
  destruct (scan_file_part s f) as (un1 & sk1 & pa1 & p & E1 & Hsk1 & Hpa1 & Hp & Hun1 & Hd1).
  destruct (IH (scan1 s f)) as (un & sk & pa & parts & E2 & Hsk & Hpa & Hps & Hun & Hd).
  exists un, sk, pa, (p :: parts). cbn [foldl]. rewrite E2. rewrite E1 in Hsk, Hpa, Hps, Hun |- *. cbn [state_of ss_sites ss_unscanned ss_skipped ss_past ss_unresolved ss_calls] in *.
  split; [|split; [lia|split; [lia|split; [|split]]]].
  - rewrite !bind_cons, fmap_cons. cbn [sum_list]. by rewrite !app_assoc, Nat.add_assoc.
  - constructor.
    + eapply file_part_weaken; [|exact Hp]. rewrite !bool_decide_eq_false. lia.
    + eapply Forall2_impl; [exact Hps|]. intros f' p' Hf'. eapply file_part_weaken; [|exact Hf'].
      rewrite !bool_decide_eq_false. lia.
  - auto.
  - intros f' [->|Hf']%elem_of_cons ? ?; auto.
Qed.
End Scan.

Lemma imap_pair {A} (l : list A) : imap (λ k x, (k, x)) l = zip (seq 0 (length l)) l.
Proof.
  apply list_eq. intros i. rewrite list_lookup_imap, lookup_zip_with. destruct (l !! i) eqn:E1; simpl.
  - rewrite lookup_seq_lt by by eapply lookup_lt_Some. done.
  - by destruct (seq _ _ !! i).
Qed.

Definition site_lt (a b : BoundarySite) : Prop :=
  String.compare (bs_file_path a) (bs_file_path b) = Lt
  ∨ bs_file_path a = bs_file_path b ∧ bs_line a < bs_line b.

Section Project.
Context `{U : Unicode} (st : Store) (clock : Clock) (disk : Disk).
Context (name : string) (exclude : list (string * nat)) (def_files : list string).
Context (qualifiers : option (list string)) (call_families : option (list string)).

Definition project_scan : Boundaries := scan_project_with st clock disk name exclude def_files qualifiers call_families.

Lemma file_list_sorted :
  NoDup (file_path_of <$> s_files st) → StronglySorted (λ a b, String.compare a.1 b.1 = Lt) (file_list st).
Proof.
  intros Hnd. unfold file_list. set (l := _ <$> s_files st).
  assert (NoDup (fst <$> sort_cmp (cmp_by fst String.compare) l)) as Hn.
  { unfold sort_cmp. rewrite sort_by_perm. unfold l. by rewrite <-list_fmap_compose. }
  pose proof (sort_cmp_sorted (cmp_by fst String.compare) l) as Hs. revert Hs Hn.
  generalize (sort_cmp (cmp_by fst String.compare) l). clear l Hnd. intros l Hs.
  induction Hs as [|a l Hl IH Ha]; [constructor|]. intros [Hni Hn]%NoDup_cons. constructor; [by apply IH|].
  apply Forall_forall. intros b Hb. rewrite Forall_forall in Ha. specialize (Ha b Hb).
  unfold cmp_leb, cmp_by in Ha. destruct (String.compare a.1 b.1) eqn:E1; [|done|done].
  apply String.compare_eq_iff in E1. destruct Hni. rewrite E1. by apply list_elem_of_fmap_2.
Qed.

Lemma elem_of_file_list f : f ∈ file_list st ↔ ∃ fe, fe ∈ s_files st ∧ f = (file_path_of fe, file_language fe).
Proof. unfold file_list, sort_cmp. rewrite elem_of_sort_by, list_elem_of_fmap. naive_solver. Qed.

(** The sites of the parts, file after file. *)
Lemma parts_sorted l parts c :
  StronglySorted (λ a b : nat * (string * option string), String.compare a.2.1 b.2.1 = Lt) l →
  Forall2 (λ f p, file_part clock disk name exclude qualifiers call_families f c p) l parts →
  (∀ k path language raw scan, scanned clock disk name exclude qualifiers k path language raw scan →
     StronglySorted lt (sh_line <$> sc_hits scan)) →
  StronglySorted site_lt (parts ≫= fp_sites)
  ∧ ∀ s, s ∈ parts ≫= fp_sites → ∃ f, f ∈ l ∧ bs_file_path s = f.2.1.
Proof.
  intros Hs Hp Hlines. revert parts Hp. induction Hs as [|f l Hl IH Hf]; intros parts Hp; inversion Hp as [|? p ? ps Hfp Hps]; subst.
  { split; [constructor|by intros ? ?%not_elem_of_nil]. }
  destruct (IH _ Hps) as [IH1 IH2]. rewrite bind_cons. destruct f as [k [path language]].
  assert (StronglySorted site_lt (fp_sites p) ∧ ∀ s, s ∈ fp_sites p → bs_file_path s = path) as [Hp1 Hp2].
  { destruct Hfp as [[->|(raw & scan & Hsc & ->)] _]; [split; [constructor|by intros ? ?%not_elem_of_nil]|].
    specialize (Hlines _ _ _ _ _ Hsc). simpl. unfold sites_of. split.
    - apply (StronglySorted_fmap_on (λ a b, sh_line a < sh_line b)); [intros a b _ _ ?; by right|].
      apply StronglySorted_filter. clear -Hlines. induction (sc_hits scan) as [|h hs IH]; [constructor|].
      inversion Hlines as [|? ? H1 H2]; subst. constructor; [by apply IH|]. rewrite Forall_fmap in H2. exact H2.
    - by intros s (h & -> & _)%list_elem_of_fmap. }
  split.
  - clear -Hp1 Hp2 IH1 IH2 Hf. induction Hp1 as [|a q Hq IHq Ha]; [done|]. simpl.
    constructor; [apply IHq; intros; apply Hp2; by right|]. apply Forall_app. split; [done|]. apply Forall_forall.
    intros s (f & Hin & Hs)%IH2. left. rewrite Hs, (Hp2 a ltac:(by left)). rewrite Forall_forall in Hf. by apply Hf.
  - intros s [Hs|Hs]%elem_of_app.
    + exists (k, (path, language)). split; [by left|by apply Hp2].
    + destruct (IH2 s Hs) as (f & ? & ?). exists f. split; [by right|done].
Qed.
End Project.

Lemma fold_call_parts (clock : Clock) (disk : Disk) `{U : Unicode} name exclude qualifiers call_families c l parts path lines :
  Forall2 (λ f p, file_part clock disk name exclude qualifiers call_families f c p) l parts →
  (path, lines) ∈ parts ≫= fp_calls →
  ∃ k language raw scan, scanned clock disk name exclude qualifiers k path language raw scan
    ∧ lines = sc_call_lines scan ∧ in_family call_families (default "" language) = true.
Proof.
  intros Hp (p & Hin & (i & Hi)%list_elem_of_lookup_1)%list_elem_of_bind.
  destruct (Forall2_lookup_r _ _ _ _ _ Hp Hi) as ([k [path' language]] & _ & [[->|(raw & scan & Hsc & ->)] _]);
    [by apply not_elem_of_nil in Hin|].
  simpl in Hin. destruct (_ && _) eqn:E1; [|by apply not_elem_of_nil in Hin].
  apply andb_true_iff in E1 as [? _]. apply list_elem_of_singleton in Hin as [= -> ->]. by exists k, language, raw, scan.
Qed.

Lemma sum_list_zero (l : list nat) x : sum_list l = 0 → x ∈ l → x = 0.
Proof.
  induction l as [|y l IH]; [by intros _ ?%not_elem_of_nil|]. simpl. intros Hs [->|Hin]%elem_of_cons; [lia|].
  apply IH; [lia|done].
Qed.

Section Result.
Context `{U : Unicode} (st : Store) (clock : Clock) (disk : Disk).
Context (name : string) (exclude : list (string * nat)) (def_files : list string).
Context (qualifiers : option (list string)) (call_families : option (list string)).

#[local] Abbreviation result := (project_scan st clock disk name exclude def_files qualifiers call_families).
#[local] Abbreviation defs := (def_lines_of exclude).

(** The calls of the scan: each placed by the graph, from a call line of a scanned file. *)
Definition listed_from_scan (c : CallSite) : Prop :=
  call_ok st name c
  ∧ ∃ k language raw scan, scanned clock disk name exclude qualifiers k (cs_file_path c) language raw scan
      ∧ cs_line c ∈ sc_call_lines scan.

Lemma fold_site_parts c l parts s :
  Forall2 (λ f p, file_part clock disk name exclude qualifiers call_families f c p) l parts → s ∈ parts ≫= fp_sites →
  ∃ k language raw scan, scanned clock disk name exclude qualifiers k (bs_file_path s) language raw scan
    ∧ mkHit (bs_line s) (bs_shape s) (bs_via s) ∈ sc_hits scan ∧ bs_line s ∉ defs (bs_file_path s).
Proof.
  intros Hp (p & Hin & (i & Hi)%list_elem_of_lookup_1)%list_elem_of_bind.
  destruct (Forall2_lookup_r _ _ _ _ _ Hp Hi) as ([k [path language]] & _ & [[->|(raw & scan & Hsc & ->)] _]);
    [by apply not_elem_of_nil in Hin|].
  simpl in Hin. unfold sites_of in Hin. apply list_elem_of_fmap in Hin as ([ln sh via] & -> & [? ?]%list_elem_of_filter).
  cbn [bs_file_path bs_line bs_shape bs_via]. by exists k, language, raw, scan.
Qed.

(** The files in the order of the scan, each with its number. *)
#[local] Abbreviation numbered := (zip (seq 0 (length (file_list st))) (file_list st)).

Lemma numbered_sorted :
  NoDup (file_path_of <$> s_files st) → StronglySorted (λ a b : nat * (string * option string), String.compare a.2.1 b.2.1 = Lt) numbered.
Proof.
  intros Hnd. pose proof (file_list_sorted st Hnd) as Hs. generalize 0. induction Hs as [|a fl Hfl IH Ha]; intros i; [constructor|].
  simpl. constructor; [apply IH|]. apply Forall_forall. intros [k x] Hx. apply elem_of_zip_r in Hx.
  rewrite Forall_forall in Ha. by apply Ha.
Qed.

Lemma numbered_file f : f ∈ s_files st → ∃ k, (k, (file_path_of f, file_language f)) ∈ numbered.
Proof.
  intros Hf. assert ((file_path_of f, file_language f) ∈ file_list st) as (i & Hi)%list_elem_of_lookup_1 by (apply elem_of_file_list; eauto).
  exists i. apply list_elem_of_lookup_2 with (i := i). rewrite lookup_zip_with, lookup_seq_lt by by eapply lookup_lt_Some.
  simpl. by rewrite Hi.
Qed.

Lemma placed_calls families l c parts cs late call :
  Forall2 (λ f p, file_part clock disk name exclude qualifiers families f c p) l parts →
  classify_calls st clock name (parts ≫= fp_calls) = (cs, late) → call ∈ cs → listed_from_scan call.
Proof.
  unfold classify_calls. intros Hp Hcl Hin. pose proof (classify_loop_ok st clock name (parts ≫= fp_calls) 0) as Hok.
  rewrite Hcl in Hok. destruct Hok as [_ Hcs].
  rewrite Hcs in Hin. apply list_elem_of_bind in Hin as ([path lines] & Hin & Hpl).
  cbn [fst snd] in Hin. apply list_elem_of_bind in Hin as (line & Hin & Hline). apply classify_line_ok in Hin as (<- & <- & Hok).
  apply elem_of_take in Hpl as (i & Hi%list_elem_of_lookup_2 & _).
  apply (fold_call_parts clock disk name exclude qualifiers _ _ _ _ _ _ Hp) in Hi as (k & language & raw & scan & ? & -> & _).
  split; [done|]. by exists k, language, raw, scan.
Qed.

(** When no undecided line was counted, those of a file all define the name. *)
Lemma none_undecided parts path language scan ln :
  sum_list (fp_undecided <$> parts) = 0 → part_of exclude call_families path language scan ∈ parts →
  ln ∈ sc_unresolved_lines scan → ln ∈ defs path.
Proof.
  intros Hu Hp Hln. destruct (decide (ln ∈ defs path)) as [|Hno]; [done|exfalso].
  pose proof (sum_list_zero _ _ Hu (list_elem_of_fmap_2 fp_undecided _ _ Hp)) as H0. apply length_zero_iff_nil in H0.
  assert (ln ∈ filter (λ l, l ∉ defs path) (sc_unresolved_lines scan)) as Hin by by apply list_elem_of_filter.
  unfold fp_undecided, part_of in H0. rewrite H0 in Hin. by apply not_elem_of_nil in Hin.
Qed.

Lemma project_scan_ok :
  NoDup (file_path_of <$> s_files st) → name ≠ "" →
  StronglySorted site_lt (b_sites result)
  ∧ (∀ s, s ∈ b_sites result → ∃ k language raw scan,
       scanned clock disk name exclude qualifiers k (bs_file_path s) language raw scan
       ∧ mkHit (bs_line s) (bs_shape s) (bs_via s) ∈ sc_hits scan ∧ bs_line s ∉ defs (bs_file_path s))
  ∧ (complete result = true → ∀ f, f ∈ s_files st →
       (file_path_of f ∈ def_files → has_table (file_language f) = true)
       ∧ (scannable (file_path_of f) (file_language f) = true → ∀ len raw,
            disk_len disk (file_path_of f) = Some len → disk_read disk (file_path_of f) = Some raw → contains name raw = true →
            ∃ k scan, scanned clock disk name exclude qualifiers k (file_path_of f) (file_language f) raw scan
              ∧ (∀ s, s ∈ sites_of exclude (file_path_of f) scan → s ∈ b_sites result)
              ∧ ∀ l, l ∈ sc_unresolved_lines scan → l ∈ defs (file_path_of f)))
  ∧ ∀ cs c, b_calls result = Some cs → c ∈ cs → listed_from_scan c.
Proof.
  intros Hnd Hname. unfold project_scan, scan_project_with, scan_files. rewrite imap_pair.
  set (l := zip _ (file_list st)).
  pose proof (numbered_sorted Hnd : StronglySorted _ l) as Hl.
  destruct (scan_fold clock disk name exclude def_files qualifiers call_families l (mkState [] [] 0 0 0 []))
    as (un & sk & pa & parts & -> & _ & _ & Hp & _ & Hd). cbn [ss_sites ss_unscanned ss_skipped ss_past ss_unresolved ss_calls app] in *.
  rewrite Nat.add_0_l.
  destruct (parts_sorted clock disk name exclude qualifiers call_families l parts _ Hl Hp) as [Hsorted _].
  { intros k path language raw scan (_ & _ & _ & Hsc). by apply scan_hits_sorted in Hsc. }
  set (out := match call_families with None => _ | Some _ => _ end).
  assert (b_sites out = parts ≫= fp_sites ∧ (complete out = true → un = [] ∧ sk = 0 ∧ pa = 0 ∧ sum_list (fp_undecided <$> parts) = 0)
    ∧ ∀ cs c, b_calls out = Some cs → c ∈ cs → listed_from_scan c) as (Hsites & Hcomp & Hcalls).
  { assert (∀ late calls, complete (mkBoundaries name (parts ≫= fp_sites) un sk (pa + late) (sum_list (fp_undecided <$> parts)) calls) = true →
      un = [] ∧ sk = 0 ∧ pa = 0 ∧ sum_list (fp_undecided <$> parts) = 0) as Hc.
    { intros late calls. unfold complete. cbn [b_unscanned_languages b_skipped_files b_files_past_limit b_unresolved_paths].
      intros H. bool_prop. split_and!; [done|done|lia|done]. }
    unfold out. destruct call_families as [fams|].
    - destruct (classify_calls st clock name (parts ≫= fp_calls)) as [cs late] eqn:Hcl. split; [done|]. split; [apply Hc|].
      cbn [b_calls]. intros cs' c [= <-] Hin. by eapply (placed_calls (Some fams)).
    - split; [done|]. split; [|done]. intros H. apply (Hc 0 None). by rewrite Nat.add_0_r. }
  rewrite Hsites. split; [done|]. split; [|split; [|done]].
  - intros s Hs. by eapply fold_site_parts.
  - intros (-> & -> & -> & Hu)%Hcomp f Hf.
    destruct (numbered_file f Hf : ∃ k, _ ∈ l) as [k Hk].
    split.
    + intros Hdf. destruct (has_table (file_language f)) eqn:E1; [done|]. specialize (Hd _ Hk Hdf E1). by apply not_elem_of_nil in Hd.
    + intros Hsc len raw Hlen Hraw Hcn. apply list_elem_of_lookup_1 in Hk as [i Hi].
      destruct (Forall2_lookup_l _ _ _ _ _ Hp Hi) as (p & Hpi & [_ Hfp]).
      destruct (Hfp ltac:(by apply bool_decide_eq_false; lia) Hsc len raw Hlen Hraw Hcn Hname) as (_ & scan & Hscan & ->).
      exists k, scan. split; [done|]. split.
      * intros s Hs. apply list_elem_of_bind. eexists. split; [|by eapply list_elem_of_lookup_2]. exact Hs.
      * intros ln Hln. eapply none_undecided; [exact Hu| |done].
        by eapply list_elem_of_lookup_2.
Qed.
End Result.

(** C28: The disclosure for an empty caller result.  It is absent exactly where the
    name is no identifier or no definition of it is a function.  Its sites come in
    file and line order, once per line, each a hit of the scan of a production file
    and off every definition line.  An answer that says nothing was left unread is
    right: every production file in a language with a table that can be read and
    contains the name was scanned, all its hits are sites, no use of it is left
    undecided, and every function definition is in a language with a table.  Listed
    calls are call lines of scanned files outside test functions, resolved exactly
    if every function that holds the line innermost has a call edge to the name. *)
Theorem for_empty_result_ok `{U : Unicode} is_alphabetic st clock disk symbol near :
  NoDup (file_path_of <$> s_files st) →
  let name := bare_name symbol in
  let defs := get_nodes_with_files_by_name st name in
  let exclude := (λ d, (nwf_file_path d, Z.to_nat (n_start_line (nr_node (nwf_node d))))) <$> defs in
  match for_empty_result is_alphabetic st clock disk symbol near with
  | None => is_identifier is_alphabetic name = false ∨ ∀ d, d ∈ defs → is_fn d = false
  | Some b =>
      is_identifier is_alphabetic name = true ∧ (∃ d, d ∈ defs ∧ is_fn d = true) ∧ ∃ quals,
      let scanned := scanned clock disk name exclude quals in
      StronglySorted site_lt (b_sites b)
      ∧ (∀ s, s ∈ b_sites b → is_test_path (bs_file_path s) = false
           ∧ (bs_file_path s, bs_line s) ∉ exclude
           ∧ ∃ k language raw scan, scanned k (bs_file_path s) language raw scan
               ∧ mkHit (bs_line s) (bs_shape s) (bs_via s) ∈ sc_hits scan)
      ∧ (complete b = true → ∀ f, f ∈ s_files st →
           ((∃ d, d ∈ defs ∧ is_fn d = true ∧ nwf_file_path d = file_path_of f) → has_table (file_language f) = true)
           ∧ (scannable (file_path_of f) (file_language f) = true → ∀ len raw,
                disk_len disk (file_path_of f) = Some len → disk_read disk (file_path_of f) = Some raw → contains name raw = true →
                ∃ k scan, scanned k (file_path_of f) (file_language f) raw scan
                  ∧ (∀ s, s ∈ sites_of exclude (file_path_of f) scan → s ∈ b_sites b)
                  ∧ ∀ l, l ∈ sc_unresolved_lines scan → (file_path_of f, l) ∈ exclude))
      ∧ ∀ cs c, b_calls b = Some cs → c ∈ cs → call_ok st name c
          ∧ ∃ k language raw scan, scanned k (cs_file_path c) language raw scan ∧ cs_line c ∈ sc_call_lines scan
  end.
Proof.
  intros Hnd name defs exclude. unfold for_empty_result. fold name defs exclude.
  destruct (is_identifier is_alphabetic name) eqn:Hid; [|by left]. cbn [negb].
  destruct (existsb is_fn defs) eqn:Hfn; cbn [negb].
  2: { right. intros d Hd. destruct (is_fn d) eqn:E1; [|done].
    assert (existsb is_fn defs = true); [|congruence]. apply existsb_exists. exists d. split; [by apply list_elem_of_In|done]. }
  assert (name ≠ "") as Hname by (intros E1; by rewrite E1 in Hid).
  assert (∀ path l, l ∈ def_lines_of exclude path ↔ (path, l) ∈ exclude) as Hdef.
  { intros path l. unfold def_lines_of. rewrite list_elem_of_fmap. split.
    - intros ([p l'] & -> & [<- Hin]%list_elem_of_filter). done.
    - intros Hin. exists (path, l). split; [done|]. by apply list_elem_of_filter. }
  split; [done|]. split.
  { apply existsb_exists in Hfn as (d & Hd & ?). exists d. split; [by apply list_elem_of_In|done]. }
  cbn zeta. set (fn_defs := filter (λ d, is_fn d = true) defs).
  set (quals := path_qualifiers _). set (fams := mapM _ fn_defs). set (anchors := if bool_decide _ then _ else _).
  exists (Some quals).
  destruct (project_scan_ok st clock disk name exclude (nwf_file_path <$> fn_defs) (Some quals) fams Hnd Hname)
    as (Hsorted & Hsites & Hcomp & Hcalls). unfold project_scan in *. set (out := scan_project_with _ _ _ _ _ _ _ _) in *.
  cbn [b_sites b_calls]. split; [done|]. split; [|split].
  - intros s Hs. destruct (Hsites s Hs) as (k & language & raw & scan & Hsc & Hh & Hd). split; [|split].
    + destruct Hsc as (Hsc & _). unfold scannable in Hsc. by bool_prop.
    + by rewrite <-Hdef.
    + by exists k, language, raw, scan.
  - intros Hc f Hf. destruct (Hcomp Hc f Hf) as [H1 H2]. split.
    + intros (d & Hd & Hdf & Hp). apply H1. rewrite <-Hp. apply list_elem_of_fmap_2. by apply list_elem_of_filter.
    + intros Hs len raw Hlen Hraw Hcn. destruct (H2 Hs len raw Hlen Hraw Hcn) as (k & scan & ? & ? & Hu).
      exists k, scan. split; [done|]. split; [done|]. intros l Hl. by apply Hdef, Hu.
  - intros cs c Hcs Hin. destruct (b_calls out) as [cs'|] eqn:E1; [|done]. injection Hcs as <-.
    unfold sort_cmp in Hin. rewrite elem_of_sort_by in Hin. by apply (Hcalls cs' c).
Qed.

Definition demo_files : list FileEntry :=
  [mkFileEntry (mkFile 1 "src/a.js" (Some "javascript")) "h" 0 0; mkFileEntry (mkFile 2 "src/b.js" (Some "javascript")) "h" 0 0;
   mkFileEntry (mkFile 3 "tests/c.js" (Some "javascript")) "h" 0 0].

Definition demo_index : Store :=
  mkStore demo_files [mkNodeResult (mkNode 7 1 "function" "save" None 1 3 false) "" None None None None None None] [] [] [] [] ∅.

Definition demo_text (path : string) : option string :=
  if String.eqb path "src/a.js" then Some "function save() {}" else Some "bus.on('save', run); // save".

Definition demo_disk : Disk := mkDisk (λ p, (λ t, Z.of_nat (String.length t)) <$> demo_text p) demo_text.

Definition no_deadline : Clock := mkClock never (λ _, never) (λ _, never) never (λ _, never).

Lemma for_empty_result_ok_witness :
  for_empty_result (U := ascii_unicode) (λ c, ascii_upper_char c || ascii_lower_char c) demo_index no_deadline demo_disk "Db.save" [7%Z]
  = Some (mkBoundaries "save" [mkSite "src/b.js" 1 EventName (Some "on")] [] 0 0 0 None)
  ∧ NoDup (file_path_of <$> s_files demo_index) ∧ StronglySorted site_lt [mkSite "src/b.js" 1 EventName (Some "on")].
Proof.
  assert (for_empty_result (U := ascii_unicode) (λ c, ascii_upper_char c || ascii_lower_char c) demo_index no_deadline demo_disk "Db.save" [7%Z]
    = Some (mkBoundaries "save" [mkSite "src/b.js" 1 EventName (Some "on")] [] 0 0 0 None)) as E by (by vm_compute).
  assert (NoDup (file_path_of <$> s_files demo_index)) as Hnd by (by apply (bool_decide_unpack _); vm_compute).
  split; [exact E|]. split; [exact Hnd|].
  pose proof (for_empty_result_ok (U := ascii_unicode) (λ c, ascii_upper_char c || ascii_lower_char c) demo_index no_deadline demo_disk
    "Db.save" [7%Z] Hnd) as H. cbv zeta in H. rewrite E in H. destruct H as (_ & _ & quals & Hs & _). exact Hs.
Defined.

Example render_demo :
  render_text (mkBoundaries "save" [mkSite "src/b.js" 1 EventName (Some "on")] [] 1 0 0 None) "" =
  "1 dynamic-dispatch site(s) name 'save' (not graph edges):
  src/b.js:1  event name (on)
  not scanned: 1 file over 2 MB or not UTF-8
  next: code-graph-mcp grep -w -F save
".
Proof. by vm_compute. Qed.
