(* ===== verification/Existence.v ===== *)
(** * Files that appear or vanish ([indexer/pipeline/index_files.rs])

    Before a run's first write: the files that must be read again because a file
    they depend on appears or vanishes, the record of who pointed into a deleted
    file, and the routes that one file wrote into the handlers of another. *)

From S2P Require Import Prelude Str Utf8 Sql Domain Tables Store Queries Paths JsModules PyModules Resolve JsExports JsFanOut.
From S2P Require Import RustUse Pipeline Boundaries.

(** ** What a specifier can call a file *)

Definition DIRECTORY_INDEX_STEMS : list string := ["index"; "__init__"; "mod"].

Definition module_stems_of (rel_path : string) : list string :=
  match file_stem rel_path with
  | Some stem =>
      if String.eqb stem "" then []
      else stem :: (if one_of DIRECTORY_INDEX_STEMS stem
                    then match parent_name rel_path with Some dir => [dir] | None => [] end else [])
  | None => []
  end.

(** [rsplit(c).next()] *)
Definition last_part (c : Ascii.ascii) (s : string) : string := match rsplit_once c s with Some (_, l) => l | None => s end.

Definition sentinel_name_matches_stem (name stem : string) : bool :=
  if String.eqb stem "" || String.eqb name "" then false
  else
    let seg := last_part "/" name in
    let seg_no_ext := match rsplit_once "." seg with Some (h, _) => h | None => seg end in
    let dotted_last := last_part "." name in
    String.eqb seg stem || String.eqb seg_no_ext stem || String.eqb dotted_last stem.

(** ** Routes into other files *)

Section Routes.
Context (like : string → string → bool) (from_str : string → option json).

Definition route_file_of (metadata : option string) : option string :=
  m ← metadata; v ← from_str m; get v "rf" ≫= as_str.

(** [(source id, target id, handler name, metadata, route file, source path, target path)] *)
Definition foreign_route_edges (st : Store) : list (Z * Z * string * option string * string * string * string) :=
  omap (λ x, let '(e, (ns, fs), (nt, ft)) := x in
             rf ← route_file_of (e_metadata e);
             Some (e_source_id e, e_target_id e, node_name_of nt, e_metadata e, rf, file_path_of fs, file_path_of ft))
    (filter (λ x, e_relation x.1.1 = REL_ROUTES_TO
                  ∧ like_opt like ("%" +:+ json_key "rf" +:+ "%") (e_metadata x.1.1) = true) (edge_ends st)).

(** [DELETE .. WHERE .. AND metadata IS ?4] *)
Definition delete_route_edge (src tgt : Z) (metadata : option string) (st : Store) : Store :=
  mkStore (s_files st) (s_nodes st)
    (filter (λ e, ¬ (e_source_id (ee_edge e) = src ∧ e_target_id (ee_edge e) = tgt
                     ∧ e_relation (ee_edge e) = REL_ROUTES_TO ∧ e_metadata (ee_edge e) = metadata)) (s_edges st))
    (s_pending st) (s_cpp_fields st) (s_js_exports st) (s_meta st).

(** [SELECT language FROM files WHERE path = ?1], the first row *)
Definition language_of (st : Store) (path : string) : option string :=
  f ← head (filter (λ f, file_path_of f = path) (s_files st)); file_language f.

Definition route_relation (name : string) (metadata : option string) (rf language : string) : DeferredRelation :=
  mkDeferred [] name name REL_ROUTES_TO metadata rf language None.

Definition settle_route (run : gset string) (row : Z * Z * string * option string * string * string * string)
    (s : Store * list DeferredRelation * gset (string * string * option string))
    : Store * list DeferredRelation * gset (string * string * option string) :=
  let '(src, tgt, name, meta, rf, src_path, tgt_path) := row in
  let '(st, deferred, requeued) := s in
  if bool_decide (rf ∈ run) then (delete_route_edge src tgt meta st, deferred, requeued)
  else if (bool_decide (src_path ∈ run) || bool_decide (tgt_path ∈ run)) && bool_decide ((rf, name, meta) ∉ requeued) then
    (st, deferred ++ match language_of st rf with Some l => [route_relation name meta rf l] | None => [] end,
     {[(rf, name, meta)]} ∪ requeued)
  else s.

Definition settle_foreign_routes (files delete_paths : list string) (deferred : list DeferredRelation) (st : Store)
    : Store * list DeferredRelation :=
  (foldl (λ s row, settle_route (list_to_set (files ++ delete_paths)) row s) (st, deferred, ∅) (foreign_route_edges st)).1.
End Routes.

(** ** Files that appear *)

(** [SELECT 1 FROM files WHERE path = ?1] *)
Definition indexed (st : Store) (path : string) : bool := bool_decide (path ∈ file_paths st).

Definition appearing_file_stems (st : Store) (files : list string) : list string :=
  let has_sentinel := existsb (λ f, existsb (λ n, (node_file_of n =? file_id_of f)%Z) (s_nodes st))
                        (filter (λ f, file_path_of f = EXTERNAL_FILE_PATH) (s_files st)) in
  if negb has_sentinel then []
  else distinct_sorted (f ← filter (λ f, indexed st f = false) files; module_stems_of f).

Definition package_init (f : string) : option string :=
  let '(dir, file) := default ("", f) (rsplit_once "/" f) in
  let in_dir (d : string) := if String.eqb d "" then "__init__.py" else d +:+ "/__init__.py" in
  if String.eqb file "__init__.py"
  then if String.eqb dir "" then None else Some (in_dir (dir_of_path dir))
  else Some (in_dir dir).

Definition appearing_python_package_inits (st : Store) (files : list string) : list string :=
  distinct_sorted (omap package_init (filter (λ f, ends_with ".py" f = true ∧ indexed st f = false) files)).

Section Python.
Context (like : string → string → bool) (json_extract : option string → string → option string).

Definition is_init (p : string) : bool := String.eqb p "__init__.py" || ends_with "/__init__.py" p.

Definition is_new_python (st : Store) (f : string) : bool := ends_with ".py" f && negb (indexed st f).

(** The directories whose [__init__.py] appears or vanishes. *)
Definition moved_packages (st : Store) (files delete_paths : list string) : gset string :=
  list_to_set ((dir_of_path <$> filter (λ p, is_init p = true) delete_paths)
               ++ (dir_of_path <$> filter (λ f, is_new_python st f = true ∧ is_init f = true) files)).

Definition names_package (packages : gset string) (module importer : string) : bool :=
  match relative_module_path module importer with Some p => bool_decide (p ∈ packages) | None => false end.

(** [(importer, module)] of the imports a module path bound *)
Definition bound_python_imports (st : Store) : list (string * string) :=
  e ← filter (λ e, e_relation e = REL_IMPORTS) (ee_edge <$> s_edges st);
  s ← node_rows st (e_source_id e);
  f ← filter (λ f, file_language f = Some "python") (file_rows st (node_file_of s));
  match json_extract (e_metadata e) "$.python_module" with Some m => [(file_path_of f, m)] | None => [] end.

Definition python_root_change_importers (st : Store) (files delete_paths : list string) : list string :=
  let packages := moved_packages st files delete_paths in
  let new_module := existsb (λ f, is_new_python st f && negb (is_init f)) files in
  if bool_decide (packages = ∅) && negb new_module then []
  else
    let before : gset string := filter (λ p, like "%.py" p = true) (file_paths st) in
    if bool_decide (before = ∅) then []
    else
      let after := (before ∖ list_to_set delete_paths) ∪ list_to_set (filter (λ f, ends_with ".py" f = true) files) in
      let changed := changed_module_paths before after in
      if bool_decide (changed = ∅) then []
      else
        let moved m i := bool_decide (m ∈ changed) || names_package packages m i in
        distinct_sorted
          ((fst <$> filter (λ x, moved x.2 x.1 = true) (bound_python_imports st))
           ++ (snd <$> filter (λ x, ends_with ".py" x.2 = true ∧ moved x.1 x.2 = true) (get_external_sentinel_importers st))).
End Python.

(** ** Files that vanished *)

(** [(deleted path, files that had an edge into it)], oldest first *)
Abbreviation VanishedRecord := (list (string * list string)).
Definition META_KEY_VANISHED_DEPENDENTS : string := "vanished_file_dependents".
Definition VANISHED_RECORD_MAX_PATHS : nat := 2000.

Section Vanished.
Context (like : string → string → bool) (read_hash : string → option string).
Context (parse_record : string → option VanishedRecord) (print_record : VanishedRecord → string).

Definition indexed_hash (st : Store) (path : string) : option string :=
  fe_blake3_hash <$> head (filter (λ f, file_path_of f = path) (s_files st)).

(** The file is in the index as it is on disk. *)
Definition unchanged (st : Store) (dep : string) : bool :=
  match indexed_hash st dep with Some hash => bool_decide (read_hash dep = Some hash) | None => false end.

(** A deleted path goes to the end of the record, with its dependents. *)
Definition record_deletion (st : Store) (record : VanishedRecord) (path : string) : VanishedRecord :=
  match get_unbuffered_dependent_files like st path with
  | [] => record
  | dependents => filter (λ x, x.1 ≠ path) record ++ [(path, dependents)]
  end.

Definition vanished_file_dependents (st : Store) (in_run deleting : gset string) (delete_paths : list string)
    : list string * option VanishedRecord :=
  let stored := default [] (get_meta META_KEY_VANISHED_DEPENDENTS st ≫= parse_record) in
  if bool_decide (stored = []) && bool_decide (delete_paths = []) then ([], None)
  else
    let back := filter (λ x, x.1 ∈ in_run) stored in
    let returned := x ← filter (λ x, indexed st x.1 = false) back;
                    filter (λ dep, dep ∉ in_run ∧ dep ∉ deleting ∧ unchanged st dep = true) x.2 in
    let record := foldl (record_deletion st) (filter (λ x, x.1 ∉ in_run) stored) delete_paths in
    let changed := negb (bool_decide (back = []))
                   || existsb (λ p, negb (bool_decide (get_unbuffered_dependent_files like st p = []))) delete_paths in
    (returned, if changed then Some (drop (length record - VANISHED_RECORD_MAX_PATHS) record) else None).

(** The record as the run stores it. *)
Definition store_record (record : option VanishedRecord) (st : Store) : Store :=
  match record with
  | None => st
  | Some [] => delete_meta META_KEY_VANISHED_DEPENDENTS st
  | Some record => set_meta META_KEY_VANISHED_DEPENDENTS (print_record record) st
  end.
End Vanished.

(** ** All of them *)

Section Change.
Context (like : string → string → bool) (json_extract : option string → string → option string).
Context (read_hash : string → option string) (parse_record : string → option VanishedRecord).

Definition existence_change_dependents (st : Store) (files delete_paths : list string)
    : list string * option VanishedRecord :=
  let in_run : gset string := list_to_set files in
  let deleting : gset string := list_to_set delete_paths in
  let outside (l : list string) := filter (λ p, p ∉ in_run ∧ p ∉ deleting) l in
  let '(returned, record) := vanished_file_dependents like read_hash parse_record st in_run deleting delete_paths in
  let new_stems := appearing_file_stems st files in
  let dependents :=
    returned
    ++ outside (p ← delete_paths; get_structural_dependent_files st p)
    ++ outside (snd <$> filter (λ x, existsb (sentinel_name_matches_stem x.1) new_stems = true) (get_external_sentinel_importers st))
    ++ outside (init ← appearing_python_package_inits st files;
                get_relative_python_importers_of like json_extract st init ++ (if indexed st init then [init] else []))
    ++ outside (export_entry_dependents st files delete_paths)
    ++ outside (python_root_change_importers like json_extract st files delete_paths) in
  (distinct_sorted dependents, record).
End Change.

(** * Properties *)

(** ** The record of deletions *)

Section Record.
Context (like : string → string → bool) (read_hash : string → option string).
Context (parse_record : string → option VanishedRecord) (print_record : VanishedRecord → string).
Context (Hparse : ∀ r, parse_record (print_record r) = Some r).

Definition record_of (st : Store) : VanishedRecord := default [] (get_meta META_KEY_VANISHED_DEPENDENTS st ≫= parse_record).

(** A run: the index it starts from, the files it reads, the paths it deletes. *)
Definition Run : Type := Store * list string * list string.

Definition returned_by (r : Run) : list string :=
  let '(st, files, deletes) := r in
  (vanished_file_dependents like read_hash parse_record st (list_to_set files) (list_to_set deletes) deletes).1.
Definition recorded_by (r : Run) : Store :=
  let '(st, files, deletes) := r in
  store_record print_record (vanished_file_dependents like read_hash parse_record st (list_to_set files) (list_to_set deletes) deletes).2 st.

(** Each run starts from the record that the one before it stored. *)
Fixpoint follows (r : Run) (runs : list Run) : Prop :=
  match runs with
  | [] => True
  | r' :: runs => record_of r'.1.1 = record_of (recorded_by r) ∧ follows r' runs
  end.

Definition last_run (r : Run) (runs : list Run) : Run := foldl (λ _ r', r') r runs.

(** The entry is in the record, with at most [k] younger ones. *)
Definition entry_within (p : string) (deps : list string) (k : nat) (record : list (string * list string)) : Prop :=
  ∃ pre post, record = pre ++ (p, deps) :: post ∧ length post ≤ k.

Lemma record_of_stored record st : record_of (store_record print_record record st) = default (record_of st) record.
Proof.
  unfold record_of, store_record. destruct record as [[|x l]|]; cbn [default]; [|
    |done]; unfold get_meta, delete_meta, set_meta; cbn [s_meta].
  - by rewrite lookup_delete_eq.
  - rewrite lookup_insert_eq. cbn [mbind option_bind]. by rewrite Hparse.
Qed.

Lemma entry_filter p deps k (Q : string * list string → Prop) `{!∀ x, Decision (Q x)} (record : list (string * list string)) :
  Q (p, deps) → entry_within p deps k record → entry_within p deps k (filter Q record).
Proof.
  intros HQ (pre & post & -> & Hk). exists (filter Q pre), (filter Q post). rewrite filter_app, filter_cons_True by done.
  split; [done|]. etrans; [apply length_filter|done].
Qed.

Lemma entry_deletions p deps k st ds record :
  p ∉ ds → entry_within p deps k record → entry_within p deps (k + length ds) (foldl (record_deletion like st) record ds).
Proof.
  revert k record. induction ds as [|d ds IH]; intros k record Hp Hin; cbn [foldl length]; [by rewrite Nat.add_0_r|].
  rewrite <-Nat.add_succ_comm. apply IH; [set_solver|]. unfold record_deletion.
  destruct (get_unbuffered_dependent_files like st d) as [|x l]; [destruct Hin as (pre & post & -> & ?); exists pre, post; split; [done|lia]|].
  apply (entry_filter p deps k (λ x, x.1 ≠ d)) in Hin as (pre & post & -> & Hk); [|set_solver].
  exists pre, (post ++ [(d, x :: l)]). rewrite <-app_assoc. split; [done|]. rewrite length_app. cbn [length]. lia.
Qed.

Lemma entry_drop p deps k record :
  k < VANISHED_RECORD_MAX_PATHS → entry_within p deps k record →
  entry_within p deps k (drop (length record - VANISHED_RECORD_MAX_PATHS) record).
Proof.
  intros Hk (pre & post & -> & Hpost). set (m := _ - _). exists (drop m pre), post. split; [|done].
  rewrite drop_app_le; [done|]. unfold m. rewrite length_app. cbn [length]. lia.
Qed.

Definition after_deletions (st : Store) (files deletes : list string) : VanishedRecord :=
  foldl (record_deletion like st) (filter (λ x : string * list string, x.1 ∉ (list_to_set files : gset string)) (record_of st)) deletes.

Lemma run_record st files deletes :
  record_of (recorded_by (st, files, deletes))
  = (let record := after_deletions st files deletes in drop (length record - VANISHED_RECORD_MAX_PATHS) record)
  ∨ record_of (recorded_by (st, files, deletes)) = record_of st
    ∧ after_deletions st files deletes = record_of st.
Proof.
  unfold recorded_by. rewrite record_of_stored. unfold vanished_file_dependents. fold (record_of st).
  destruct (bool_decide (record_of st = []) && bool_decide (deletes = [])) eqn:Hc; cbn [snd].
  { apply andb_true_iff in Hc as [H1%bool_decide_eq_true ->%bool_decide_eq_true]. unfold after_deletions. right. by rewrite H1. }
  destruct (_ || _) eqn:Hch; cbn [default]; [by left|]. right. split; [done|].
  apply orb_false_iff in Hch as [Hb%negb_false_iff%bool_decide_eq_true He]. unfold after_deletions. rewrite filter_all.
  - clear Hc Hb. revert He. generalize (record_of st). induction deletes as [|d ds IH]; intros record; cbn [foldl existsb]; [done|].
    intros [Hd%negb_false_iff%bool_decide_eq_true He]%orb_false_iff. unfold record_deletion at 2. rewrite Hd. by apply IH.
  - intros x Hx Hin. assert (x ∈ filter (λ x : string * list string, x.1 ∈ (list_to_set files : gset string)) (record_of st)) as Hf by by apply list_elem_of_filter.
    rewrite Hb in Hf. by apply elem_of_nil in Hf.
Qed.

(** A run that neither reads nor deletes the path keeps its entry. *)
Lemma run_keeps p deps k st files deletes :
  p ∉ files → p ∉ deletes → k + length deletes < VANISHED_RECORD_MAX_PATHS →
  entry_within p deps k (record_of st) → entry_within p deps (k + length deletes) (record_of (recorded_by (st, files, deletes))).
Proof.
  intros Hf Hd Hk Hin. assert (entry_within p deps (k + length deletes) (after_deletions st files deletes)) as He.
  { unfold after_deletions. apply entry_deletions; [done|]. apply entry_filter; [|done]. cbn. by rewrite elem_of_list_to_set. }
  destruct (run_record st files deletes) as [->|[-> Heq]]; [by apply entry_drop|by rewrite Heq in He].
Qed.

(** The run that deletes it makes one. *)
Lemma run_makes p deps st files deletes :
  p ∈ deletes → NoDup deletes → length deletes ≤ VANISHED_RECORD_MAX_PATHS → get_unbuffered_dependent_files like st p = deps → deps ≠ [] →
  entry_within p deps (length deletes - 1) (record_of (recorded_by (st, files, deletes))).
Proof.
  intros (A & B & ->)%list_elem_of_split Hnd Hl Hdeps Hne. apply NoDup_app in Hnd as (_ & _ & [HpB _]%NoDup_cons).
  rewrite length_app in *. cbn [length] in *.
  assert (entry_within p deps (length A + S (length B) - 1) (after_deletions st files (A ++ p :: B))) as He.
  { unfold after_deletions. rewrite foldl_app. cbn [foldl]. set (r := foldl _ _ A). unfold record_deletion at 2. rewrite Hdeps. destruct deps as [|x l]; [done|].
    destruct (entry_deletions p (x :: l) 0 st B (filter (λ y, y.1 ≠ p) r ++ [(p, x :: l)]) HpB) as (pre & post & Heq & Hp).
    { eexists _, []. split; [done|cbn; lia]. }
    exists pre, post. split; [exact Heq|lia]. }
  destruct (run_record st files (A ++ p :: B)) as [->|[-> Heq]]; [apply entry_drop; [lia|done]|by rewrite Heq in He].
Qed.

(** The runs after a deletion, none of which reads or deletes the path. *)
Lemma runs_keep p deps runs r k :
  follows r runs → entry_within p deps k (record_of (recorded_by r)) →
  (∀ r', r' ∈ runs → p ∉ r'.1.2 ∧ p ∉ r'.2) →
  k + list_sum ((λ r' : Run, length r'.2) <$> runs) < VANISHED_RECORD_MAX_PATHS →
  entry_within p deps (k + list_sum ((λ r' : Run, length r'.2) <$> runs)) (record_of (recorded_by (last_run r runs))).
Proof.
  revert r k. induction runs as [|[[st files] deletes] runs IH]; intros r k Hf Hin Hp Hk; cbn [fmap list_fmap list_sum foldr] in *.
  { by rewrite Nat.add_0_r. }
  cbn [follows fst snd] in *. destruct Hf as [Heq Hf]. rewrite <-Heq in Hin.
  destruct (Hp (st, files, deletes)) as [Hp1 Hp2]; [by left|]. cbn [fst snd] in *.
  assert (entry_within p deps (k + length deletes) (record_of (recorded_by (st, files, deletes)))) as Hin'.
  { apply run_keeps; try done. lia. }
  rewrite Nat.add_assoc in *. apply IH; try done. intros r' Hr'. apply Hp. by right.
Qed.

(** C16: A deletion is remembered until the file comes back ([vanished_file_dependents], D#543). Let a run delete a path that
    some files had unbuffered edges into, let any further runs go by that neither read nor delete the path, each starting
    from the record the one before it stored, with fewer than 2,000 deletions in all, and let a last run read the path,
    which is in the index no longer. Then that run reads again each of those files that is outside it and is on disk as
    the index has it. The record never holds more than 2,000 paths after a run that changed it. *)
Theorem vanished_dependents_return p first runs last dep :
  follows first (runs ++ [last]) →
  NoDup first.2 → p ∈ first.2 → dep ∈ get_unbuffered_dependent_files like first.1.1 p →
  (∀ r, r ∈ runs → p ∉ r.1.2 ∧ p ∉ r.2) →
  list_sum ((λ r : Run, length r.2) <$> first :: runs) < VANISHED_RECORD_MAX_PATHS →
  p ∈ last.1.2 → indexed last.1.1 p = false →
  dep ∉ last.1.2 → dep ∉ last.2 → unchanged read_hash last.1.1 dep = true →
  dep ∈ returned_by last
  ∧ ∀ files deletes st record, (vanished_file_dependents like read_hash parse_record st files deletes first.2).2 = Some record →
      length record ≤ VANISHED_RECORD_MAX_PATHS.
Proof.
  intros Hf Hnd Hp Hdep Hruns Hlen Hpl Hidx Hd1 Hd2 Hun. split.
  2: { intros files deletes st record. unfold vanished_file_dependents. destruct (_ && _); [done|]. cbn [snd].
    destruct (_ || _); [|done]. intros [= <-]. rewrite length_drop. lia. }
  destruct first as [[st0 f0] d0], last as [[st f] d]. cbn [fst snd fmap list_fmap list_sum foldr] in *.
  assert (∃ r, follows (st0, f0, d0) runs ∧ last_run (st0, f0, d0) runs = r ∧ record_of st = record_of (recorded_by r)) as (r & Hf' & Hr & Heq).
  { clear -Hf. revert Hf. generalize (st0, f0, d0). induction runs as [|r1 runs IH]; intros r Hf; cbn [app follows fst] in *.
    - exists r. by destruct Hf.
    - destruct Hf as [H1 H2]. destruct (IH r1 H2) as (r' & H3 & H4 & H5). exists r'. split; [done|]. split; [|done].
      done. }
  destruct (get_unbuffered_dependent_files like st0 p) as [|x l] eqn:Hdeps; [by apply elem_of_nil in Hdep|].
  assert (0 < length d0) as Hpos by (destruct d0; [by apply elem_of_nil in Hp|cbn; lia]).
  pose proof (run_makes p (x :: l) st0 f0 d0 Hp Hnd ltac:(lia) Hdeps ltac:(done)) as Hmade.
  apply (runs_keep _ _ _ _ _ Hf') in Hmade; [|done|unfold list_sum; lia]. rewrite Hr, <-Heq in Hmade. destruct Hmade as (pre & post & Hrec & _).
  unfold returned_by, vanished_file_dependents. fold (record_of st).
  rewrite (bool_decide_false (record_of st = [])) by (rewrite Hrec; by destruct pre). cbn [andb fst].
  apply list_elem_of_bind. exists (p, x :: l). split; [by apply list_elem_of_filter; cbn; rewrite !elem_of_list_to_set|].
  apply list_elem_of_filter. split; [done|]. apply list_elem_of_filter. cbn. rewrite elem_of_list_to_set. split; [done|].
  change ((p, x :: l) ∈ record_of st). rewrite Hrec. apply elem_of_app. right. by left.
Qed.
End Record.

(** ** Examples of the record *)

(** A text form of any countable value. *)
Fixpoint bits (p : positive) : string :=
  match p with xH => "" | xO p => String "0" (bits p) | xI p => String "1" (bits p) end.
Fixpoint of_bits (s : string) : positive :=
  match s with EmptyString => xH | String c s => if Ascii.eqb c "0" then xO (of_bits s) else xI (of_bits s) end.

Lemma of_bits_bits p : of_bits (bits p) = p.
Proof. induction p as [p IH|p IH|]; cbn; by rewrite ?IH. Qed.

Definition print_demo (r : VanishedRecord) : string := bits (countable.encode r).
Definition parse_demo (s : string) : option VanishedRecord := countable.decode (of_bits s).

Lemma parse_print_demo r : parse_demo (print_demo r) = Some r.
Proof. unfold parse_demo, print_demo. by rewrite of_bits_bits, countable.decode_encode. Qed.

(** [b.rs] refers to [f] of [a.rs]; a run deletes [a.rs], one reads [c.rs], one brings [a.rs] back. *)
Definition demo_refers : Store := exec_ops [InsertEdge 2 1 "references" None] demo_store.
#[local] Abbreviation demo_hash := (λ p : string, if String.eqb p "b.rs" then Some "h" else None).
Definition demo_delete : Run := (demo_refers, [], ["a.rs"]).
Definition demo_gone : Store := delete_files_by_paths ["a.rs"] (recorded_by (λ _ _, false) demo_hash parse_demo print_demo demo_delete).
Definition demo_other : Run := (demo_gone, ["c.rs"], []).
Definition demo_back : Run := (demo_gone, ["a.rs"], []).

Example demo_remembered :
  record_of parse_demo demo_gone = [("a.rs", ["b.rs"])]
  ∧ returned_by (λ _ _, false) demo_hash parse_demo demo_back = ["b.rs"]
  ∧ record_of parse_demo (recorded_by (λ _ _, false) demo_hash parse_demo print_demo demo_back) = [].
Proof. by vm_compute. Qed.

Lemma vanished_dependents_return_witness :
  "b.rs" ∈ returned_by (λ _ _, false) demo_hash parse_demo demo_back.
Proof.
  destruct (vanished_dependents_return (λ _ _, false) demo_hash parse_demo print_demo parse_print_demo "a.rs" demo_delete [demo_other] demo_back "b.rs")
    as [H _].
  - split; [by vm_compute|]. split; [by vm_compute|exact I].
  - apply NoDup_singleton.
  - by left.
  - apply (bool_decide_unpack _). by vm_compute.
  - intros r ->%list_elem_of_singleton. split; apply (bool_decide_unpack _); by vm_compute.
  - unfold VANISHED_RECORD_MAX_PATHS. cbn. lia.
  - by left.
  - by vm_compute.
  - apply (bool_decide_unpack _). by vm_compute.
  - by intros ?%elem_of_nil.
  - by vm_compute.
  - exact H.
Defined.

(** ** The routes into other files *)

Section RoutesOk.
Context (like : string → string → bool) (from_str : string → option json).

(** The file that wrote an edge as a route into another file's handler. *)
Definition written_by (e : EdgeRow) : option string :=
  if String.eqb (e_relation e) REL_ROUTES_TO && like_opt like ("%" +:+ json_key "rf" +:+ "%") (e_metadata e)
  then route_file_of from_str (e_metadata e) else None.

Lemma elem_of_foreign_route_edges st src tgt name meta rf sp tp :
  (src, tgt, name, meta, rf, sp, tp) ∈ foreign_route_edges like from_str st ↔
  ∃ e ns fs nt ft, (e, (ns, fs), (nt, ft)) ∈ edge_ends st ∧ written_by e = Some rf
    ∧ e_source_id e = src ∧ e_target_id e = tgt ∧ e_metadata e = meta ∧ node_name_of nt = name ∧ file_path_of fs = sp ∧ file_path_of ft = tp.
Proof.
  unfold foreign_route_edges, written_by. rewrite list_elem_of_omap. split.
  - intros ([[e [ns fs]] [nt ft]] & [[Hr Hl] Hin]%list_elem_of_filter & Hx). cbn [fst] in *.
    destruct (route_file_of from_str (e_metadata e)) as [rf'|] eqn:Hrf; [|done]. injection Hx as <- <- <- <- <- <- <-.
    exists e, ns, fs, nt, ft. rewrite Hr, Hl. by split_and!.
  - intros (e & ns & fs & nt & ft & Hin & Hw & <- & <- & <- & <- & <- & <-). destruct (_ && _) eqn:Hc; [|done].
    apply andb_true_iff in Hc as [Hr%String.eqb_eq Hl]. exists (e, (ns, fs), (nt, ft)). split; [by apply list_elem_of_filter|].
    cbn. by rewrite Hw.
Qed.

(** It is one of the store's statements. *)
Lemma delete_route_edge_op src tgt meta st : ∃ dead, delete_route_edge src tgt meta st = exec_op (DeleteEdgesWhere dead) st.
Proof. eexists. symmetry. apply delete_edges_filter. Qed.

Lemma delete_route_edge_ok src tgt meta st : store_ok st → store_ok (delete_route_edge src tgt meta st).
Proof. destruct (delete_route_edge_op src tgt meta st) as [dead ->]. apply exec_op_ok. Qed.

(** What the loop has done after some rows. *)
Definition RouteRow : Type := Z * Z * string * option string * string * string * string.
Definition row_matches (row : RouteRow) (e : EdgeRow) : Prop :=
  let '(src, tgt, _, meta, _, _, _) := row in e_source_id e = src ∧ e_target_id e = tgt ∧ e_relation e = REL_ROUTES_TO ∧ e_metadata e = meta.
Definition row_file (row : RouteRow) : string := row.1.1.2.
Definition row_key (row : RouteRow) : string * string * option string := let '(_, _, name, meta, rf, _, _) := row in (rf, name, meta).
Definition row_relation (st : Store) (row : RouteRow) : option DeferredRelation :=
  let '(_, _, name, meta, rf, _, _) := row in route_relation name meta rf <$> language_of st rf.
Definition row_touches (run : gset string) (row : RouteRow) : Prop := row.1.2 ∈ run ∨ row.2 ∈ run.

Record routes_done (run : gset string) (rows : list RouteRow) (st : Store) (rq : gset (string * string * option string))
    (st' : Store) (new : list DeferredRelation) : Prop := mkRoutesDone {
  rd_files : s_files st' = s_files st;
  rd_nodes : s_nodes st' = s_nodes st;
  rd_pending : s_pending st' = s_pending st;
  rd_ok : store_ok st → store_ok st';
  rd_edges : ∀ x, x ∈ s_edges st' ↔ x ∈ s_edges st ∧ ∀ row, row ∈ rows → row_file row ∈ run → ¬ row_matches row (ee_edge x);
  rd_new : ∀ d, d ∈ new ↔ ∃ row, row ∈ rows ∧ row_file row ∉ run ∧ row_touches run row ∧ row_key row ∉ rq ∧ row_relation st row = Some d;
  rd_once : NoDup new;
}.

Lemma row_relation_key st row row' d : row_relation st row = Some d → row_relation st row' = Some d → row_key row = row_key row'.
Proof.
  destruct row as [[[[[[? ?] name] meta] rf] ?] ?], row' as [[[[[[? ?] name'] meta'] rf'] ?] ?]. cbn.
  destruct (language_of st rf); [|done]. destruct (language_of st rf'); [|done]. intros [= <-] [=]. congruence.
Qed.

Lemma row_relation_same st row row' : row_key row = row_key row' → row_relation st row = row_relation st row'.
Proof.
  destruct row as [[[[[[? ?] name] meta] rf] ?] ?], row' as [[[[[[? ?] name'] meta'] rf'] ?] ?]. cbn. by intros [= -> -> ->].
Qed.

Lemma settle_rows_done run rows st deferred rq :
  let '(st', deferred', _) := foldl (λ s row, settle_route run row s) (st, deferred, rq) rows in
  ∃ new, deferred' = deferred ++ new ∧ routes_done run rows st rq st' new.
Proof.
  revert st deferred rq. induction rows as [|row rows IH]; intros st deferred rq; cbn [foldl].
  { exists []. split; [by rewrite app_nil_r|]. split; try done.
    - intros x. split; [|by intros [? _]]. intros Hx. split; [done|]. by intros row ?%elem_of_nil.
    - intros d. split; [by intros ?%elem_of_nil|by intros (row & ?%elem_of_nil & _)].
    - by apply NoDup_nil. }
  destruct (settle_route run row (st, deferred, rq)) as [[st1 deferred1] rq1] eqn:Hrow. specialize (IH st1 deferred1 rq1).
  destruct (foldl _ _ rows) as [[st' deferred'] rq']. destruct IH as (new & -> & H).
  destruct row as [[[[[[src tgt] name] meta] rf] sp] tp]. set (row := (src, tgt, name, meta, rf, sp, tp)) in *. unfold settle_route in Hrow. cbn in Hrow.
  case_bool_decide as Hrf; [|destruct (_ && _) eqn:Hc].
  - injection Hrow as <- <- <-. exists new. split; [done|]. destruct H as [H1 H2 H3 H4 H5 H6 H7]. split; try done.
    + intros Hok. by apply H4, delete_route_edge_ok.
    + intros x. rewrite H5. cbn [delete_route_edge s_edges]. rewrite list_elem_of_filter. split.
      * intros [[Hn Hx] Hall]. split; [done|]. intros row' [->|Hr]%elem_of_cons; [|by apply Hall]. intros _. exact Hn.
      * intros [Hx Hall]. split; [split; [|done]|]. { refine (Hall row _ Hrf). by left. } intros row' Hr. apply Hall. by right.
    + intros d. rewrite H6. split; intros (r & Hr & Ht); [exists r; split; [by right|done]|].
      apply elem_of_cons in Hr as [->|Hr]; [by destruct Ht|by exists r].
  - apply andb_true_iff in Hc as [Htouch%orb_true_iff Hnew%bool_decide_eq_true]. injection Hrow as <- <- <-.
    destruct H as [H1 H2 H3 H4 H5 H6 H7].
    assert (row_touches run row) as Ht by (destruct Htouch as [?%bool_decide_eq_true|?%bool_decide_eq_true]; [by left|by right]).
    exists ((match row_relation st row with Some d => [d] | None => [] end) ++ new). split.
    { rewrite <-app_assoc. f_equal. cbn. by destruct (language_of st rf). }
    split; try done.
    + intros x. rewrite H5. split; intros [Hx Hall]; (split; [done|]); intros row' Hr; [|apply Hall; by right].
      apply elem_of_cons in Hr as [->|Hr]; [done|by apply Hall].
    + intros d. rewrite elem_of_app, H6. split.
      * intros [Hd|(r & Hr & Hr1 & Hr2 & Hr3 & Hr4)]; [|exists r; split_and!; try done; [by right|set_solver]].
        destruct (row_relation st row) as [d'|] eqn:He; [apply list_elem_of_singleton in Hd as ->|by apply elem_of_nil in Hd].
        exists row. split_and!; try done. by left.
      * intros (r & [->|Hr]%elem_of_cons & Hr1 & Hr2 & Hr3 & Hr4); [left; rewrite Hr4; by left|].
        destruct (decide (row_key r = row_key row)) as [He|He].
        { left. rewrite <-(row_relation_same st r row He), Hr4. by left. }
        right. exists r. split_and!; try done. cbn in He. set_solver.
    + destruct (row_relation st row) as [d|] eqn:He; [|done]. apply NoDup_cons. split; [|done].
      intros (r & _ & _ & _ & Hr3 & Hr4)%H6. apply Hr3. rewrite (row_relation_key st r row d Hr4 He). cbn. set_solver.
  - injection Hrow as <- <- <-. exists new. split; [done|]. destruct H as [H1 H2 H3 H4 H5 H6 H7]. split; try done.
    + intros x. rewrite H5. split; intros [Hx Hall]; (split; [done|]); intros row' Hr; [|apply Hall; by right].
      apply elem_of_cons in Hr as [->|Hr]; [done|by apply Hall].
    + intros d. rewrite H6. split; intros (r & Hr & Hr1 & Hr2 & Hr3 & Hr4); [exists r; split_and!; try done; by right|].
      apply elem_of_cons in Hr as [->|Hr]; [|exists r; by split_and!]. exfalso.
      apply andb_false_iff in Hc as [Hc|Hc%bool_decide_eq_false]; [|by apply Hc; intros ?].
      apply orb_false_iff in Hc as [?%bool_decide_eq_false ?%bool_decide_eq_false]. by destruct Hr2.
Qed.
Lemma edge_has_ends st x : store_ok st → x ∈ s_edges st → ∃ ns fs nt ft, edge_between st (ee_edge x) ns fs nt ft.
Proof.
  intros Hok Hx. pose proof (ok_edge_source _ Hok x Hx) as (ns & Hns & Hnsin)%list_elem_of_fmap.
  pose proof (ok_edge_target _ Hok x Hx) as (nt & Hnt & Hntin)%list_elem_of_fmap.
  pose proof (ok_node_file _ Hok ns Hnsin) as (fs & Hfs & Hfsin)%list_elem_of_fmap.
  pose proof (ok_node_file _ Hok nt Hntin) as (ft & Hft & Hftin)%list_elem_of_fmap.
  exists ns, fs, nt, ft. unfold edge_between. split_and!; try done. by apply list_elem_of_fmap_2.
Qed.

(** C17: Before a run deletes anything ([settle_foreign_routes], D6): of the routes that one file wrote into a handler of
    another, exactly those written by a file of the run are deleted, and no other edge. Each one that a file outside the
    run wrote, and that starts or ends in a file of the run, is queued once, with the route file's language, to be
    resolved again as a rebuild would; nothing else is queued. Files, nodes and buffered calls are as they were. *)
Theorem settle_foreign_routes_ok files delete_paths deferred st :
  store_ok st →
  let run : gset string := list_to_set (files ++ delete_paths) in
  let '(st', deferred') := settle_foreign_routes like from_str files delete_paths deferred st in
  store_ok st' ∧ s_files st' = s_files st ∧ s_nodes st' = s_nodes st ∧ s_pending st' = s_pending st
  ∧ (∀ x, x ∈ s_edges st' ↔ x ∈ s_edges st ∧ ¬ ∃ rf, written_by (ee_edge x) = Some rf ∧ rf ∈ run)
  ∧ ∃ new, deferred' = deferred ++ new ∧ NoDup new
      ∧ ∀ d, d ∈ new ↔ ∃ e ns fs nt ft rf lang, edge_between st e ns fs nt ft ∧ written_by e = Some rf ∧ rf ∉ run
          ∧ (file_path_of fs ∈ run ∨ file_path_of ft ∈ run) ∧ language_of st rf = Some lang
          ∧ d = route_relation (node_name_of nt) (e_metadata e) rf lang.
Proof.
  intros Hok run. unfold settle_foreign_routes. fold run.
  pose proof (settle_rows_done run (foreign_route_edges like from_str st) st deferred ∅) as H.
  destruct (foldl _ _ _) as [[st' deferred'] rq]. cbn [fst]. destruct H as (new & -> & [H1 H2 H3 H4 H5 H6 H7]).
  split_and!; [by apply H4|done|done|done| |exists new; split_and!; [done|done|]].
  - intros x. rewrite H5. split; intros [Hx Hno]; (split; [done|]).
    + intros (rf & Hw & Hrf). destruct (edge_has_ends st x Hok Hx) as (ns & fs & nt & ft & He).
      assert (String.eqb (e_relation (ee_edge x)) REL_ROUTES_TO = true) as Hr%String.eqb_eq.
      { unfold written_by in Hw. by destruct (String.eqb _ _). }
      apply (Hno (e_source_id (ee_edge x), e_target_id (ee_edge x), node_name_of nt, e_metadata (ee_edge x), rf, file_path_of fs, file_path_of ft));
        [|done|done]. apply elem_of_foreign_route_edges. exists (ee_edge x), ns, fs, nt, ft. split_and!; try done. by apply elem_of_edge_ends.
    + intros [[[[[[src tgt] name] meta] rf] sp] tp] (e & ns & fs & nt & ft & _ & Hw & <- & <- & <- & _)%elem_of_foreign_route_edges Hrf (_ & _ & Hr & Hm).
      apply Hno. exists rf. split; [|exact Hrf]. revert Hw. unfold written_by. rewrite Hm, Hr. by destruct (String.eqb (e_relation e) _).
  - intros d. rewrite H6. split.
    + intros ([[[[[[src tgt] name] meta] rf] sp] tp] & (e & ns & fs & nt & ft & Hb%elem_of_edge_ends & Hw & <- & <- & <- & <- & <- & <-)%elem_of_foreign_route_edges
        & Hrf & Ht & _ & Hd). cbn in Hd. destruct (language_of st rf) as [lang|] eqn:Hl; [|done]. injection Hd as <-.
      exists e, ns, fs, nt, ft, rf, lang. done.
    + intros (e & ns & fs & nt & ft & rf & lang & Hb%elem_of_edge_ends & Hw & Hrf & Ht & Hl & ->).
      exists (e_source_id e, e_target_id e, node_name_of nt, e_metadata e, rf, file_path_of fs, file_path_of ft).
      split; [apply elem_of_foreign_route_edges; by exists e, ns, fs, nt, ft|]. split_and!; try done. cbn. by rewrite Hl.
Qed.
End RoutesOk.

(** [a.rs] routes to [g] of [b.rs]; a run reads [b.rs], another [a.rs]. *)
Definition demo_route_json (s : string) : option json := if String.eqb s "rf=a.rs" then Some (JObject [("rf", JString "a.rs")]) else None.
Definition demo_routes : Store := exec_ops [InsertEdge 2 2 "routes_to" (Some "rf=a.rs")] demo_store.
#[local] Abbreviation demo_settle := (λ files, settle_foreign_routes (λ _ _, true) demo_route_json files [] [] demo_routes).

Example demo_settled_routes :
  (demo_settle ["b.rs"]).2 = [route_relation "g" (Some "rf=a.rs") "a.rs" "rust"]
  ∧ length (s_edges (demo_settle ["b.rs"]).1) = 3 ∧ length (s_edges (demo_settle ["a.rs"]).1) = 2 ∧ (demo_settle ["a.rs"]).2 = [].
Proof. by vm_compute. Qed.

Lemma demo_routes_ok : store_ok demo_routes.
Proof. apply exec_ops_ok, demo_store_ok. Qed.

Lemma settle_foreign_routes_ok_witness :
  store_ok (demo_settle ["b.rs"]).1 ∧ s_nodes (demo_settle ["b.rs"]).1 = s_nodes demo_routes.
Proof.
  pose proof (settle_foreign_routes_ok (λ _ _, true) demo_route_json ["b.rs"] [] [] demo_routes demo_routes_ok) as H.
  cbv zeta in H. destruct (settle_foreign_routes (λ _ _, true) demo_route_json ["b.rs"] [] [] demo_routes) as [st' deferred'].
  destruct H as (H1 & _ & H2 & _). split; [exact H1|exact H2].
Defined.

(** ** The files read again *)

Lemma elem_of_distinct_sorted l x : x ∈ distinct_sorted l ↔ x ∈ l.
Proof. unfold distinct_sorted, sort_cmp. rewrite sort_by_perm. apply elem_of_remove_dups. Qed.

Lemma elem_of_appearing_stems st files stem f :
  f ∈ files → indexed st f = false → stem ∈ module_stems_of f → get_external_sentinel_importers st ≠ [] →
  stem ∈ appearing_file_stems st files.
Proof.
  intros Hf Hi Hs Hne. unfold appearing_file_stems.
  assert (existsb (λ f, existsb (λ n, (node_file_of n =? file_id_of f)%Z) (s_nodes st))
            (filter (λ f, file_path_of f = EXTERNAL_FILE_PATH) (s_files st)) = true) as ->.
  { destruct (get_external_sentinel_importers st) as [|[name imp] l] eqn:He; [done|].
    assert ((name, imp) ∈ get_external_sentinel_importers st) as Hin by (rewrite He; by left).
    unfold get_external_sentinel_importers, sort_cmp in Hin. rewrite sort_by_perm, elem_of_remove_dups in Hin.
    apply list_elem_of_fmap in Hin as ([[e [ns fs]] [nt ft]] & _ & [(Hp & _) Hin]%list_elem_of_filter).
    apply elem_of_edge_ends in Hin as (_ & _ & _ & _ & _ & Hnt & _ & Hft & Hid). cbn in Hp.
    apply existsb_exists. exists ft. split; [apply list_elem_of_In; by apply list_elem_of_filter|].
    apply existsb_exists. exists nt. split; [by apply list_elem_of_In|]. by apply Z.eqb_eq. }
  cbn [negb]. apply elem_of_distinct_sorted, list_elem_of_bind. exists f. split; [done|]. by apply list_elem_of_filter.
Qed.

(** A run reads no file twice and none it deletes, and it reads again every file that a specifier it could not resolve
    may bind to a file new to the index, and every file that a vanished file's structural edges came from. *)
Theorem existence_change_dependents_ok like json_extract read_hash parse_record st files delete_paths :
  let extra := (existence_change_dependents like json_extract read_hash parse_record st files delete_paths).1 in
  NoDup extra
  ∧ (∀ p, p ∈ extra → p ∉ files ∧ p ∉ delete_paths)
  ∧ (∀ p path, path ∈ delete_paths → p ∈ get_structural_dependent_files st path → p ∉ files → p ∉ delete_paths → p ∈ extra)
  ∧ ∀ name importer f stem, (name, importer) ∈ get_external_sentinel_importers st → f ∈ files → indexed st f = false →
      stem ∈ module_stems_of f → sentinel_name_matches_stem name stem = true → importer ∉ files → importer ∉ delete_paths → importer ∈ extra.
Proof.
  unfold existence_change_dependents. destruct (vanished_file_dependents _ _ _ _ _ _ _) as [returned record] eqn:Hv. cbn [fst].
  assert (∀ p, p ∈ returned → p ∉ files ∧ p ∉ delete_paths) as Hret.
  { intros p Hp. unfold vanished_file_dependents in Hv. destruct (_ && _); [injection Hv as <- _; by apply elem_of_nil in Hp|].
    injection Hv as <- _. apply list_elem_of_bind in Hp as (x & [(H1 & H2 & _) _]%list_elem_of_filter & _).
    by rewrite !elem_of_list_to_set in H1, H2. }
  split_and!.
  - unfold distinct_sorted, sort_cmp. rewrite sort_by_perm. apply NoDup_remove_dups.
  - intros p. rewrite elem_of_distinct_sorted. intros [Hp|Hp]%elem_of_app; [by apply Hret|].
    rewrite !elem_of_app, !list_elem_of_filter, !elem_of_list_to_set in Hp. tauto.
  - intros p path Hpath Hp H1 H2. rewrite elem_of_distinct_sorted, !elem_of_app. right. left.
    apply list_elem_of_filter. rewrite !elem_of_list_to_set. split; [done|]. apply list_elem_of_bind. by exists path.
  - intros name importer f stem Hs Hf Hi Hst Hm H1 H2. rewrite elem_of_distinct_sorted, !elem_of_app. right. right. left.
    apply list_elem_of_filter. rewrite !elem_of_list_to_set. split; [done|]. apply list_elem_of_fmap. exists (name, importer). split; [done|].
    apply list_elem_of_filter. split; [|done]. apply existsb_exists. exists stem. split; [|done]. apply list_elem_of_In.
    apply (elem_of_appearing_stems st files stem f); try done. intros He. rewrite He in Hs. by apply elem_of_nil in Hs.
Qed.
