(* ===== verification/IndexRun.v ===== *)
(** * A run of the indexer ([indexer/pipeline/index_files.rs])

    The phases that write the graph, in the order of [index_files]: the refusal of an
    index a newer binary built, what else must be read, the routes, the record of
    deletions, the deletions, the batches with the name map they carry, the deferred
    relations.  The phases after them (parse verdicts, context strings, the sweep of
    buffered calls, the SQL post-passes) are not part of it, nor are the snapshots
    for later runs, the scope of the post-passes and the in-flight marker, which
    [InFlight] models. *)

From S2P Require Import Prelude Str Utf8 Domain Tables Store Queries Paths PyModules Resolve RustUse RustFn Pipeline Batch.
From S2P Require Import JsExports JsFanOut EdgeWrite Sentinels BatchResolve DeferResolve Restore Existence.

(** What the loop over the batches carries. *)
Record RunState := mkRun {
  ru_store : Store;
  ru_deferred : list DeferredRelation;
  ru_walks : option (gset string);
  ru_names : NameMap;
  ru_done : gset string;
  ru_indexed : list FileIndexed;
  ru_parsed_paths : list string;
  ru_parse_error_paths : list string;
  ru_counters : SkipCounters;
  ru_nodes : nat;
  ru_edges : nat;
}.

(** The name map after a batch: the old entries of its files go, the new nodes come. *)
Definition update_names (batch_file_paths : gset string) (batch_parsed : list FileParsed) (names : NameMap) : NameMap :=
  let kept := filter (λ kv, kv.2 ≠ []) (filter (λ e, e.1.2 ∉ batch_file_paths) <$> names) in
  foldl (λ m pf, foldl (λ m x, push_entry m (x.2, (x.1, pf_rel_path pf, Some (pf_language pf)))) m
                   (zip (pf_node_ids pf) (pf_node_names pf))) kept batch_parsed.

(** [PRAGMA application_id] holds the version of the binary that built the index. *)
Definition INDEX_VERSION : Z := 139.
Definition newer_index_version (application_id : option Z) : option Z :=
  stored ← application_id; if (INDEX_VERSION <? stored)%Z then Some stored else None.

Definition file_indexed (pf : FileParsed) : FileIndexed := mkIndexed (pf_rel_path pf) (pf_node_ids pf) (pf_node_names pf).

Section Run.
Context `{U : Unicode}.
(** SQLite, JSON, the disk, BLAKE3, tree-sitter and the walks over its trees, the Cargo manifests. *)
Context (like like_esc : string → string → bool) (from_str : string → option json) (to_string : json → string).
Context (map_insert : string → json → list (string * json) → list (string * json)).
Context (map_remove : string → list (string * json) → list (string * json)).
Context (json_extract : option string → string → option string) (json_int : option string → string → option Z).
Context (parse_record : string → option VanishedRecord) (print_record : VanishedRecord → string).
Context (file_meta : string → option FileMeta) (read_source_bytes hash_file : string → option string).
Context (blake3 : string → string) (max_file_size : N).
Context {Tree : Type} (parse_tree : string → string → option Tree) (has_error : Tree → bool).
Context (extract_nodes_from_tree : Tree → string → string → list ParsedNode) (file_is_test_code : Tree → string → string → bool).
Context (extract_relations_from_tree : Tree → string → string → string → list ParsedRelation).
Context (cpp_class_fields : Tree → string → list CppField) (js_export_entries : Tree → string → list JsExportEntry).
Context (hashes : gmap string string) (crate_roots : RustCrates).
(** When a batch writes the row of a path. *)
Context (clock : nat → string → Z).

#[local] Abbreviation parse_file := (parse_one file_meta read_source_bytes hash_file blake3 max_file_size parse_tree has_error
  extract_nodes_from_tree file_is_test_code extract_relations_from_tree cpp_class_fields js_export_entries hashes).
#[local] Abbreviation pre_parse := (pre_parse_batch file_meta read_source_bytes hash_file blake3 max_file_size parse_tree has_error
  extract_nodes_from_tree file_is_test_code extract_relations_from_tree cpp_class_fields js_export_entries hashes).

Section Batches.
Context (run_file_paths all_file_paths : gset string) (python_module_map : gmap string (list string)).

Definition index_batch (x : nat * list string) (s : RunState) : result string RunState :=
  let '(i, batch) := x in
  let '(pre, counters) := pre_parse batch (ru_counters s) in
  (let? (st, deferred) := record_all_skipped (clock i) from_str run_file_paths (pb_skipped pre) (ru_store s, ru_deferred s) in
   let? (inserted, st) := insert_batch_nodes (clock i) (pb_parsed pre) st in
   let batch_file_paths : gset string := list_to_set ((pf_rel_path <$> bi_parsed inserted) ++ (sk_rel_path <$> pb_skipped pre)) in
   let? (relations, deferred, st) := resolve_batch_relations like like_esc from_str python_module_map all_file_paths
                                       (bi_parsed inserted) batch_file_paths (ru_names s) deferred st in
   let? (ext_nodes, ext_edges, st) := mint_external_sentinels (clock i EXTERNAL_FILE_PATH) (br_external_python_imports relations)
                                        (br_unresolved_externals relations) st in
   let? r := restore_inbound_edges from_str to_string map_remove (bi_parsed inserted) (bi_file_ids inserted)
               (bi_saved_inbound_edges inserted) run_file_paths (ru_done s) st deferred (ru_walks s) in
   Ok (mkRun (rs_store r) (rs_deferred r) (rs_walks r) (update_names batch_file_paths (bi_parsed inserted) (ru_names s))
         (ru_done s ∪ batch_file_paths) (ru_indexed s ++ (file_indexed <$> bi_parsed inserted))
         (ru_parsed_paths s ++ (pp_rel_path <$> pb_parsed pre) ++ (sk_rel_path <$> pb_skipped pre))
         (ru_parse_error_paths s ++ (pp_rel_path <$> filter (λ p, pp_has_parse_errors p = true) (pb_parsed pre)))
         counters (ru_nodes s + bi_nodes_created inserted + ext_nodes)
         (ru_edges s + br_edges_created relations + ext_edges + rs_edges_created r)))%cg.
End Batches.

(** Phase 2b-final, if anything was deferred. *)
Definition index_deferred (i : nat) (python_module_map : gmap string (list string)) (all_file_paths : gset string) (s : RunState)
    : result string RunState :=
  if bool_decide (ru_deferred s = []) then Ok s
  else
    (let? (edges, nodes, st) := resolve_deferred_relations like like_esc from_str to_string map_insert json_extract json_int
                                  python_module_map all_file_paths crate_roots (clock i EXTERNAL_FILE_PATH) (ru_deferred s)
                                  (ru_names s) (ru_store s) in
     Ok (mkRun st (ru_deferred s) (ru_walks s) (ru_names s) (ru_done s) (ru_indexed s) (ru_parsed_paths s)
           (ru_parse_error_paths s) (ru_counters s) (ru_nodes s + nodes) (ru_edges s + edges)))%cg.

(** The run's files: those asked for and those that must be read again. *)
Definition run_files (st : Store) (files delete_paths : list string) : list string * option VanishedRecord :=
  let files := distinct_sorted files in
  let '(extra, record) := existence_change_dependents like json_extract
                            (λ p, hash_file p) parse_record st files (distinct_sorted delete_paths) in
  (if bool_decide (extra = []) then files else distinct_sorted (files ++ extra), record).

Definition newer_refusal (stored : Z) : string :=
  "index was built by a newer code-graph (index v" +:+ dec_of_Z stored +:+ " > this binary v" +:+ dec_of_Z INDEX_VERSION
  +:+ "); not writing to it. Restart every code-graph server on this project so they run one version.".

(** [walks] is the temporary table an earlier run may have left. *)
Definition index_graph (application_id : option Z) (files delete_paths : list string) (walks : option (gset string)) (st : Store)
    : result string RunState :=
  match newer_index_version application_id with
  | Some stored => Err (newer_refusal stored)
  | None =>
      let '(files, record) := run_files st files delete_paths in
      let delete_paths := distinct_sorted delete_paths in
      let run_file_paths : gset string := list_to_set files in
      let has_work := negb (bool_decide (files = [])) || negb (bool_decide (delete_paths = [])) in
      let '(st, deferred) := if has_work then settle_foreign_routes like from_str files delete_paths [] st else (st, []) in
      let st := store_record print_record record st in
      (let? (st, deferred) := if bool_decide (delete_paths = []) then Ok (st, deferred)
                              else buffer_then_delete_files from_str delete_paths run_file_paths deferred st in
       let all_python_paths : gset string :=
         list_to_set (filter (λ f, ends_with ".py" f = true) files) ∪ filter (λ p, like "%.py" p = true) (file_paths st) in
       let python_module_map := build_python_module_map all_python_paths in
       let all_file_paths := run_file_paths ∪ file_paths st in
       let plan := plan_batches (λ p, fm_len <$> file_meta p) files BATCH_SIZE BATCH_MAX_BYTES in
       let? s := try_fold (index_batch run_file_paths all_file_paths python_module_map) (imap pair (slices plan files))
                   (mkRun st deferred walks (get_all_node_names_with_ids st) ∅ [] [] [] (mkCounters 0 0 0 0 0) 0 0) in
       index_deferred (length plan) python_module_map all_file_paths s)%cg
  end.
End Run.

(** * Properties *)

(** ** The plan covers the files *)

Lemma plan_loop_sum max_items max_size sizes len acc :
  list_sum (plan_loop max_items max_size sizes len acc) = len + length sizes.
Proof.
  revert len acc. induction sizes as [|x sizes IH]; intros len acc; cbn [plan_loop length].
  - destruct len; cbn; lia.
  - destruct (_ && _); [cbn [list_sum foldr]; fold (list_sum (plan_loop max_items max_size sizes 1 (saturating_add 0 x)))|];
      rewrite IH; lia.
Qed.

Lemma slices_join {A} lens (l : list A) : list_sum lens = length l → mjoin (slices lens l) = l.
Proof.
  revert l. induction lens as [|n lens IH]; intros l; cbn [list_sum foldr slices].
  - by destruct l.
  - intros Hl. change (take n l ++ mjoin (slices lens (drop n l)) = l). rewrite IH; [apply take_drop|].
    rewrite length_drop. unfold list_sum. lia.
Qed.

Lemma batches_join file_len files max_files max_bytes :
  mjoin (slices (plan_batches file_len files max_files max_bytes) files) = files.
Proof. apply slices_join. unfold plan_batches, plan_chunks. by rewrite plan_loop_sum, length_fmap. Qed.

Lemma NoDup_distinct_sorted l : NoDup (distinct_sorted l).
Proof. unfold distinct_sorted, sort_cmp. rewrite sort_by_perm. apply NoDup_remove_dups. Qed.

(** ** What a phase leaves of a file *)

(** The file's row and nodes are as they were. *)
Record same_file (p : string) (st st' : Store) : Prop := mkSame {
  sf_rows : ∀ f, file_path_of f = p → f ∈ s_files st' ↔ f ∈ s_files st;
  sf_nodes : ∀ f n, f ∈ s_files st → file_path_of f = p → node_file_of n = file_id_of f → n ∈ s_nodes st' ↔ n ∈ s_nodes st;
}.

Lemma same_refl p st : same_file p st st.
Proof. done. Qed.

Lemma same_trans p st1 st2 st3 : same_file p st1 st2 → same_file p st2 st3 → same_file p st1 st3.
Proof.
  intros [R1 N1] [R2 N2]. split; [intros f Hf; by rewrite R2, R1|].
  intros f n Hf Hp Hn. rewrite <-(N1 f n Hf Hp Hn). apply (N2 f n); [by apply R1|done..].
Qed.

Lemma same_tables p st st' : s_files st' = s_files st → s_nodes st' = s_nodes st → same_file p st st'.
Proof. intros H1 H2. split; intros; by rewrite ?H1, ?H2. Qed.

(** The file has a row and exactly the nodes of these records. *)
Definition has_content (p hash language : string) (recs : Z → list NodeRecord) (st : Store) : Prop :=
  ∃ f ids, f ∈ s_files st ∧ file_path_of f = p ∧ fe_blake3_hash f = hash ∧ file_language f = Some language
    ∧ length ids = length (recs (file_id_of f))
    ∧ ∀ n, node_file_of n = file_id_of f → n ∈ s_nodes st ↔ n ∈ zip_with node_of_record ids (recs (file_id_of f)).

Lemma content_same p hash language recs st st' :
  same_file p st st' → has_content p hash language recs st → has_content p hash language recs st'.
Proof.
  intros [R N] (f & ids & Hf & Hp & Hh & Hl & Hlen & Hn). exists f, ids. split; [by apply R|]. do 4 (split; [done|]).
  intros n Hnf. by rewrite (N f n Hf Hp Hnf), Hn.
Qed.

(** An entry of the name map names a node of its file. *)
Definition entry_live (st : Store) (id : Z) (path : string) : Prop :=
  ∃ f n, f ∈ s_files st ∧ file_path_of f = path ∧ n ∈ s_nodes st ∧ node_id_of n = id ∧ node_file_of n = file_id_of f.

Definition names_live (names : NameMap) (st : Store) : Prop :=
  ∀ name l id path lang, names !! name = Some l → (id, path, lang) ∈ l → entry_live st id path.

Lemma entry_same st st' id path : same_file path st st' → entry_live st id path → entry_live st' id path.
Proof.
  intros [R N] (f & n & Hf & Hp & Hn & Hid & Hnf). exists f, n. split; [by apply R|]. split; [done|]. split; [by apply (N f n)|done].
Qed.

Lemma entry_id st id path : entry_live st id path → id ∈ node_ids st.
Proof. intros (f & n & _ & _ & Hn & <- & _). by apply list_elem_of_fmap_2. Qed.

(** *** Sentinels *)

Lemma phase_same names st st' p : store_ok st → phase names st st' → p ≠ EXTERNAL_FILE_PATH → same_file p st st'.
Proof.
  intros Hok Hph Hp. assert (∀ f g, f ∈ s_files st → file_path_of f = p → ext_file st' g → g ≠ file_id_of f) as Hno.
  { intros f g Hf Hfp (f' & Hf' & Hp' & <-) Hid. assert (f' = f) as ->; [|congruence].
    apply (NoDup_key_inj file_id_of (s_files st')); [apply Hph|done| |done]. apply (ph_files _ _ _ Hph); [congruence|done]. }
  split; [intros f Hf; apply (ph_files _ _ _ Hph); congruence|]. intros f n Hf Hfp Hn. split.
  - intros [(m & Hm & [->|(He & _ & ->)])|(He & _)]%(ph_back _ _ _ Hph); [done| |].
    + exfalso. by apply (Hno f _ Hf Hfp He).
    + exfalso. rewrite Hn in He. by apply (Hno f _ Hf Hfp He).
  - intros Hin. destruct (ph_fwd _ _ _ Hph n Hin) as (n' & Hn' & [->|(He & _)]); [done|].
    exfalso. rewrite Hn in He. by apply (Hno f _ Hf Hfp He).
Qed.

Lemma phase_entry names st st' id path : store_ok st → phase names st st' → entry_live st id path → entry_live st' id path.
Proof.
  intros Hok Hph He. destruct (decide (path = EXTERNAL_FILE_PATH)) as [->|Hp]; [|by eapply entry_same; [by eapply phase_same|]].
  destruct He as (f & n & Hf & Hp & Hn & <- & Hnf).
  assert (ext_file st' (file_id_of f)) as (f' & Hf' & Hp' & Hid') by (apply (ph_ext _ _ _ Hph); by exists f).
  destruct (ph_fwd _ _ _ Hph n Hn) as (n' & Hn' & Hs). exists f', n'. split_and!; [done|done|done| |].
  - by destruct Hs as [->|(_ & _ & ->)].
  - rewrite Hid', <-Hnf. by destruct Hs as [->|(_ & _ & ->)].
Qed.

(** *** Files that are emptied *)

Lemma upsert_same now r st p : store_ok st → p ≠ fr_path r → same_file p st (upsert_file now r st).2.
Proof.
  intros Hok Hp. pose proof (upsert_file_exact now r st Hok) as Hex.
  assert (s_nodes (upsert_file now r st).2 = s_nodes st) as Hn by (unfold upsert_file; by destruct (find _ _)).
  destruct (upsert_file now r st) as [id st']. cbn [snd] in *. destruct Hex as (_ & _ & Ho).
  split; [intros f Hf; apply Ho; congruence|]. intros. by rewrite Hn.
Qed.

Lemma delete_nodes_same st fid p f0 :
  store_ok st → f0 ∈ s_files st → file_id_of f0 = fid → file_path_of f0 ≠ p → same_file p st (delete_nodes_by_file fid st).
Proof.
  intros Hok Hf0 Hid Hp. unfold delete_nodes_by_file.
  destruct (delete_nodes_exact (λ n : NodeResult, (node_file_of n =? fid)%Z) st Hok) as (Hf & Hn & _).
  split; [intros f _; by rewrite Hf|]. intros f n Hfin Hfp Hnf. rewrite Hn. split; [by intros [? _]|]. intros Hin. split; [done|].
  apply Z.eqb_neq. rewrite Hnf. intros Heq. apply Hp. rewrite <-Hfp. f_equal.
  apply (NoDup_key_inj file_id_of (s_files st)); [apply Hok|done|done|congruence].
Qed.

Lemma record_skipped_ok now from_str run sk st deferred :
  store_ok st →
  ∃ st' deferred', record_skipped now from_str run sk (st, deferred) = Ok (st', deferred') ∧ store_ok st'
    ∧ has_content (sk_rel_path sk) (sk_hash sk) (sk_language sk) (λ _, []) st'
    ∧ ∀ p, p ≠ sk_rel_path sk → same_file p st st'.
Proof.
  intros Hok. unfold record_skipped. pose proof (upsert_file_exact (now (sk_rel_path sk)) (sk_record sk) st Hok) as Hex.
  pose proof (upsert_file_ok (now (sk_rel_path sk)) (sk_record sk) st Hok) as Hok1.
  assert (∀ p, p ≠ sk_rel_path sk → same_file p st (upsert_file (now (sk_rel_path sk)) (sk_record sk) st).2) as Hs1 by (intros p Hp; by apply upsert_same).
  destruct (upsert_file _ _ st) as [fid st1]. cbn [snd] in *. destruct Hex as ((f & Hf & Hid & Hp & Hh & Hl) & _ & _).
  destruct (purge_all_total from_str run ∅ [fid] st1 deferred (0, 0) Hok1) as (st2 & d2 & c2 & Heq & Hok2 & Hg & _).
  cbn [try_fold] in Heq. destruct (buffer_inbound_before_node_purge from_str run ∅ fid (st1, deferred, (0, 0))) as [s2|]; [|done].
  cbn [result_bind] in Heq. injection Heq as ->. cbn [result_bind].
  assert (s_files st2 = s_files st1 ∧ s_nodes st2 = s_nodes st1) as [Hf2 Hn2] by (by destruct Hg as (ps & -> & _)).
  assert (f ∈ s_files st2) as Hfin by by rewrite Hf2.
  eexists _, _. split; [reflexivity|]. split; [by apply delete_nodes_where_ok|]. split.
  - unfold delete_nodes_by_file. destruct (delete_nodes_exact (λ n : NodeResult, (node_file_of n =? fid)%Z) st2 Hok2) as (Hf3 & Hn3 & _).
    exists f, []. rewrite Hf3. split_and!; try done. intros n Hnf. rewrite Hn3. cbn. split; [|by intros ?%elem_of_nil].
    intros [_ Hne%Z.eqb_neq]. congruence.
  - intros p Hne. eapply same_trans; [by apply Hs1|]. eapply same_trans; [by apply same_tables|].
    eapply delete_nodes_same; try done. by rewrite Hp.
Qed.

Lemma record_all_skipped_ok now from_str run sks st deferred :
  store_ok st → NoDup (sk_rel_path <$> sks) →
  ∃ st' deferred', record_all_skipped now from_str run sks (st, deferred) = Ok (st', deferred') ∧ store_ok st'
    ∧ (∀ sk, sk ∈ sks → has_content (sk_rel_path sk) (sk_hash sk) (sk_language sk) (λ _, []) st')
    ∧ ∀ p, p ∉ sk_rel_path <$> sks → same_file p st st'.
Proof.
  unfold record_all_skipped. revert st deferred. induction sks as [|sk sks IH]; intros st deferred Hok Hnd; cbn [try_fold].
  { exists st, deferred. split_and!; try done. by intros ? ?%elem_of_nil. }
  cbn [fmap list_fmap] in Hnd. apply NoDup_cons in Hnd as [Hsk Hnd].
  destruct (record_skipped_ok now from_str run sk st deferred Hok) as (st1 & d1 & -> & Hok1 & Hc1 & Hs1). cbn [result_bind].
  destruct (IH st1 d1 Hok1 Hnd) as (st' & d' & -> & Hok' & Hc' & Hs').
  exists st', d'. split_and!; try done.
  - intros k [->|Hk]%elem_of_cons; [|by apply Hc']. eapply content_same; [by apply Hs'|done].
  - intros p [Hp Hps]%not_elem_of_cons. eapply same_trans; [by apply Hs1|by apply Hs'].
Qed.


(** *** The batch itself *)

Section Batch.
Context `{U : Unicode}.

Lemma recorded_content st pp pf :
  recorded st pp pf → has_content (pp_rel_path pp) (pp_hash pp) (pp_language pp) (λ fid, file_records fid pp) st.
Proof.
  intros [(f & Hf & Hid & Hp & Hh & Hl) _ Hlen Hn]. exists f, (pf_node_ids pf). rewrite Hid. split_and!; try done.
  - unfold file_records. cbn [length]. by rewrite length_fmap.
  - intros n Hnf. rewrite <-Hn, elem_of_nodes_in. split; [|by intros [? _]]. done.
Qed.

Lemma batch_content pps st pfs saved st' pp :
  batch_done pps st pfs saved st' → pp ∈ pps →
  has_content (pp_rel_path pp) (pp_hash pp) (pp_language pp) (λ fid, file_records fid pp) st'.
Proof.
  intros Hd (i & Hi)%list_elem_of_lookup. destruct (Forall2_lookup_l _ _ _ _ _ (bd_recorded _ _ _ _ _ Hd) Hi) as (pf & _ & Hr).
  by eapply recorded_content.
Qed.

Lemma batch_rows pps st pfs saved st' pf :
  batch_done pps st pfs saved st' → pf ∈ pfs → ∃ pp, pp ∈ pps ∧ recorded st' pp pf.
Proof.
  intros Hd (i & Hi)%list_elem_of_lookup. destruct (Forall2_lookup_r _ _ _ _ _ (bd_recorded _ _ _ _ _ Hd) Hi) as (pp & Hpp & Hr).
  exists pp. split; [by eapply list_elem_of_lookup_2|done].
Qed.

Lemma batch_same pps st pfs saved st' p :
  batch_done pps st pfs saved st' → p ∉ pp_rel_path <$> pps → same_file p st st'.
Proof.
  intros Hd Hp. split; [intros f Hf; apply (bd_files _ _ _ _ _ Hd); congruence|]. intros f n Hf Hfp Hnf.
  assert (nodes_in (file_id_of f) st' = nodes_in (file_id_of f) st) as Hn.
  { apply (bd_nodes _ _ _ _ _ Hd). intros (pf & Hid & Hpf)%list_elem_of_fmap.
    destruct (batch_rows _ _ _ _ _ _ Hd Hpf) as (pp & Hpp & [(f' & Hf' & Hid' & Hp' & _) _ _ _]).
    assert (f = f') as <-; [|apply Hp; rewrite <-Hfp, Hp'; by apply list_elem_of_fmap_2].
    apply (NoDup_key_inj file_id_of (s_files st')); [apply Hd| |done|congruence]. apply (bd_files _ _ _ _ _ Hd); [congruence|done]. }
  assert (n ∈ nodes_in (file_id_of f) st' ↔ n ∈ nodes_in (file_id_of f) st) as Hiff by by rewrite Hn.
  rewrite !elem_of_nodes_in in Hiff. tauto.
Qed.

Lemma recorded_live st pp pf id : recorded st pp pf → id ∈ pf_node_ids pf → entry_live st id (pf_rel_path pf).
Proof.
  intros [(f & Hf & Hid & Hp & _) Hpf Hlen Hn] (j & Hj)%list_elem_of_lookup.
  destruct (lookup_lt_is_Some_2 (file_records (pf_file_id pf) pp) j) as [r Hr].
  { apply lookup_lt_Some in Hj. unfold file_records. cbn [length]. rewrite length_fmap. lia. }
  assert (node_of_record id r ∈ nodes_in (pf_file_id pf) st) as [Hin Hnf]%elem_of_nodes_in.
  { rewrite Hn. apply elem_of_lookup_zip_with. by exists j, id, r. }
  exists f, (node_of_record id r). split_and!; [done|by rewrite Hp, Hpf|done|done|congruence].
Qed.

Lemma insert_batch_total now pps st :
  store_ok st → NoDup (pp_rel_path <$> pps) →
  ∃ b st', insert_batch_nodes now pps st = Ok (b, st')
    ∧ batch_done pps st (bi_parsed b) (bi_saved_inbound_edges b) st' ∧ bi_file_ids b = list_to_set (pf_file_id <$> bi_parsed b).
Proof.
  intros Hok Hnd. destruct (insert_batch_loop now pps (mkInserted [] [] ∅ 0) st Hok Hnd) as (pfs & saved & st' & Heq & _).
  eexists _, st'. split; [exact Heq|]. by eapply insert_batch_done.
Qed.
End Batch.

(** *** Relations of the batch *)

Lemma resolve_batch_total like like_esc from_str python_module_map all_file_paths batch paths (map : NameMap) deferred st :
  store_ok st →
  (∀ pf id, pf ∈ batch → id ∈ pf_node_ids pf → id ∈ node_ids st) →
  (∀ name l id path lang, map !! name = Some l → (id, path, lang) ∈ l → path ∉ paths → id ∈ node_ids st) →
  (∀ pf rel, pf ∈ batch → rel ∈ pf_relations pf → pr_source_language rel = pf_language pf) →
  ∃ r deferred' st', resolve_batch_relations like like_esc from_str python_module_map all_file_paths batch paths map deferred st
      = Ok (r, deferred', st')
    ∧ store_ok st' ∧ s_files st' = s_files st ∧ s_nodes st' = s_nodes st
    ∧ (∀ x, x ∈ br_external_python_imports r → x.1 ∈ node_ids st) ∧ (∀ x, x ∈ br_unresolved_externals r → x.1.1.1 ∈ node_ids st).
Proof.
  intros Hok Hpf Hmap Hl. set (P := batch_pools batch paths map). assert (pools_in P st) as HP.
  { intros name id [(pf & Hin & Hid%elem_of_zip_l)|(l & path & lang & Hn & Hin & Hp)]%batch_pools_ids; [by eapply Hpf|by eapply Hmap]. }
  destruct (resolve_files_ok like like_esc from_str python_module_map all_file_paths P st HP batch
    (mkPass st nothing_written no_memo deferred (mkBatchRelations 0 [] []))) as (s & Hs & Ha); try done.
  { intros pf Hin id. by apply Hpf. }
  unfold resolve_batch_relations. fold P. rewrite Hs. cbn [result_bind]. eexists _, _, _. split; [reflexivity|].
  assert (∀ x id, x ∈ relations_of batch → id ∈ (decided like like_esc from_str python_module_map all_file_paths P st x).1 → id ∈ node_ids st) as Hsrc.
  { intros [pf rel] id Hx. apply list_elem_of_bind in Hx as (pf' & (rel' & [= -> ->] & Hrel)%list_elem_of_fmap & Hin).
    unfold decided. cbn [fst snd]. destruct (resolve_relation _ _ _ _ _ _ _ _ _ _) as [sources [o m]] eqn:Hr. cbn [fst].
    destruct (resolved_in like like_esc from_str python_module_map all_file_paths P st HP pf' rel' sources o m [] false) as [H _]; [|exact Hr|apply H].
    intros i. by apply Hpf. }
  split; [apply Ha|]. split; [apply (pa_files _ _ _ _ _ _ _ _ _ _ Ha)|]. split; [apply (pa_nodes _ _ _ _ _ _ _ _ _ _ Ha)|]. split.
  - intros x. rewrite (pa_python _ _ _ _ _ _ _ _ _ _ Ha). cbn [bp_relations br_external_python_imports app].
    intros (y & Hx & Hy)%list_elem_of_bind. pose proof (Hsrc y) as Hs'. unfold modules_of in Hx.
    destruct (decided _ _ _ _ _ _ _ _) as [sources [| |module| |]]; try by apply elem_of_nil in Hx.
    apply list_elem_of_fmap in Hx as (id & -> & Hid). by apply Hs'.
  - intros x. rewrite (pa_symbols _ _ _ _ _ _ _ _ _ _ Ha). cbn [bp_relations br_unresolved_externals app].
    intros (y & Hx & Hy)%list_elem_of_bind. pose proof (Hsrc y) as Hs'. unfold symbols_of in Hx.
    destruct (decided _ _ _ _ _ _ _ _) as [sources [| |module| |]]; try by apply elem_of_nil in Hx.
    apply list_elem_of_fmap in Hx as (id & -> & Hid). by apply Hs'.
Qed.

(** *** Sentinels and inbound edges *)

Lemma mint_total now imports refs st :
  store_ok st → (∀ r, r ∈ imports → r.1 ∈ node_ids st) → (∀ r, r ∈ refs → r.1.1.1 ∈ node_ids st) →
  ∃ n m st', mint_external_sentinels now imports refs st = Ok (n, m, st') ∧ phase (imports.*2 ++ ((λ r, r.1.1.2) <$> refs)) st st'.
Proof.
  intros Hok Hi Hr. unfold mint_external_sentinels. set (names := _ ++ _).
  destruct (mint_imports_ok names now imports 0 0 st Hok) as (n1 & m1 & st1 & -> & Hp1 & _).
  { intros r Hin. split; [by apply Hi|]. apply elem_of_app. left. by apply list_elem_of_fmap_2. }
  cbn [result_bind]. destruct (mint_refs_ok names now refs n1 m1 st1 (ph_ok _ _ _ Hp1)) as (n2 & m2 & st2 & -> & Hp2 & _).
  { intros r Hin. split; [by apply (phase_ids _ _ _ _ Hp1), Hr|]. apply elem_of_app. right. by apply (list_elem_of_fmap_2 (λ r : ExternalRef, r.1.1.2)). }
  exists n2, m2, st2. split; [done|]. by eapply phase_trans.
Qed.

Section Inbound.
Context (from_str : string → option json) (to_string : json → string) (map_remove : string → list (string * json) → list (string * json)).

(** A step of the restore keeps the tables of files and nodes. *)
Definition rows_kept (s s' : Restoring) : Prop :=
  store_ok (rs_store s') ∧ s_files (rs_store s') = s_files (rs_store s) ∧ s_nodes (rs_store s') = s_nodes (rs_store s).

Lemma requeue_kept names run_file_paths p l row s :
  store_ok (rs_store s) → row_source row ∈ node_ids (rs_store s) →
  ∃ s', requeue from_str to_string map_remove names run_file_paths p l row s = Ok s' ∧ rows_kept s s'.
Proof.
  destruct row as [[[[[[i sf] tf] tn] rel] meta] tq]. intros Hok Hi. cbn [row_source fst] in Hi. unfold requeue.
  set (attr := attr_import from_str names tf tn rel meta).
  destruct (receiver_typed rel meta || attr_call rel meta || bool_decide (is_Some attr)).
  - case_bool_decide; [by exists s|]. eexists. split; [reflexivity|]. destruct (bool_decide (is_Some attr)); [|done].
    split; [by apply delete_edges_ok|done].
  - destruct (is_call rel).
    + destruct (insert_pending_total i (js_import_pending_name from_str meta tn) l meta (rs_store s) Hok Hi)
        as (st' & -> & Hok' & (ps & -> & _) & _). cbn [result_bind]. eexists. by split; [reflexivity|].
    + destruct (as_extracted from_str to_string map_remove meta tn) as [name meta']. eexists. by split; [reflexivity|].
Qed.

Lemma restore_one_kept names shapes batch_file_ids run_file_paths done_paths row s :
  store_ok (rs_store s) → (Restore.row_file row ∉ batch_file_ids → row_source row ∈ node_ids (rs_store s)) →
  (∀ k found x, names !! k = Some found → x ∈ found → x.1.1 ∈ node_ids (rs_store s)) →
  ∃ s', restore_one from_str to_string map_remove names shapes batch_file_ids run_file_paths done_paths row s = Ok s' ∧ rows_kept s s'.
Proof.
  intros Hok Hi Hnames. destruct row as [[[[[[i sf] tf] tn] rel] meta] tq] eqn:Hrow. unfold restore_one. cbn [Restore.row_file row_source fst snd] in *.
  case_bool_decide as Hb; [by exists s|]. specialize (Hi Hb). destruct (source_info (rs_store s) sf) as [p l]. rewrite <-Hrow.
  destruct (new_target_ids from_str names shapes p l row) as [|t0 ts] eqn:Hts.
  - destruct (String.eqb p ""); [by exists s|]. destruct (_ && _); [by exists s|]. apply requeue_kept; [done|by rewrite Hrow].
  - destruct (restore_edges_ok i rel meta (t0 :: ts) (rs_edges_created s) (rs_store s) Hok Hi) as (n' & st' & -> & Hok' & Hf' & Hn' & _).
    { intros t Ht. rewrite <-Hts, Hrow in Ht. unfold new_target_ids in Ht. destruct (_ || _); [by apply elem_of_nil in Ht|].
      apply list_elem_of_fmap in Ht as (x & -> & [_ Hx]%list_elem_of_filter).
      destruct (names !! (tf, tn)) as [found|] eqn:Hf; [by eapply Hnames|by apply elem_of_nil in Hx]. }
    cbn [result_bind]. eexists. by split; [reflexivity|].
Qed.

Lemma restore_total `{U : Unicode} pps st0 pfs saved st1 st ids run_file_paths done_paths deferred walks :
  batch_done pps st0 pfs saved st1 → ids = list_to_set (pf_file_id <$> pfs) → store_ok st → (∀ i, i ∈ node_ids st1 → i ∈ node_ids st) →
  ∃ s', restore_inbound_edges from_str to_string map_remove pfs ids saved run_file_paths done_paths st deferred walks = Ok s'
    ∧ rows_kept (mkRestoring st deferred walks 0 ∅) s'.
Proof.
  intros Hd -> Hok Hsub. unfold restore_inbound_edges. set (s0 := mkRestoring _ _ _ _ _).
  assert (∀ rows s, rows ⊆ saved → rows_kept s0 s → ∃ s', try_fold (restore_one from_str to_string map_remove (batch_name_to_ids pfs)
    (batch_fn_shapes pfs) (list_to_set (pf_file_id <$> pfs)) run_file_paths done_paths) rows s = Ok s' ∧ rows_kept s0 s') as Hall.
  { intros rows. induction rows as [|row rows IH]; intros s Hrows (Hs1 & Hs2 & Hs3); cbn [try_fold]; [by exists s|].
    assert (∀ i, i ∈ node_ids st1 → i ∈ node_ids (rs_store s)) as Hids by (intros i Hi; unfold node_ids; rewrite Hs3; by apply Hsub).
    destruct (restore_one_kept (batch_name_to_ids pfs) (batch_fn_shapes pfs) (list_to_set (pf_file_id <$> pfs)) run_file_paths done_paths row s)
      as (s1 & -> & (H1 & H2 & H3)); [done| | |].
    - intros Hf. apply Hids. eapply saved_source; [exact Hd|apply Hrows; by left|]. by rewrite elem_of_list_to_set in Hf.
    - intros k found x Hk Hx. apply Hids. by eapply batch_names_nodes.
    - cbn [result_bind]. apply IH; [intros r Hr; apply Hrows; by right|]. split; [done|]. by rewrite H2, H3. }
  apply Hall; [done|by split].
Qed.
End Inbound.

(** *** The name map *)

Lemma elem_of_pushed {A} (l : list (string * A)) (m : gmap string (list A)) name x :
  x ∈ default [] (foldl push_entry m l !! name) ↔ x ∈ default [] (m !! name) ∨ (name, x) ∈ l.
Proof.
  revert m. induction l as [|[n y] l IH]; intros m; cbn [foldl]; [rewrite elem_of_nil; tauto|].
  rewrite IH, elem_of_cons. unfold push_entry. cbn [fst snd]. destruct (decide (n = name)) as [->|Hne].
  - rewrite lookup_insert_eq. cbn [from_option id]. rewrite elem_of_app, list_elem_of_singleton. naive_solver.
  - rewrite lookup_insert_ne by done. naive_solver.
Qed.

Lemma in_map_default {A} (m : gmap string (list A)) name x : (∃ l, m !! name = Some l ∧ x ∈ l) ↔ x ∈ default [] (m !! name).
Proof. destruct (m !! name) as [l|]; cbn; [naive_solver|]. split; [by intros (? & ? & _)|by intros ?%elem_of_nil]. Qed.

Lemma elem_of_updated paths batch names name id path lang :
  (id, path, lang) ∈ default [] (update_names paths batch names !! name) →
  (id, path, lang) ∈ default [] (names !! name) ∧ path ∉ paths ∨ ∃ pf, pf ∈ batch ∧ id ∈ pf_node_ids pf ∧ path = pf_rel_path pf.
Proof.
  unfold update_names. set (kept := filter _ _).
  assert ((id, path, lang) ∈ default [] (kept !! name) → (id, path, lang) ∈ default [] (names !! name) ∧ path ∉ paths) as Hkept.
  { intros (l & Hl & Hx)%in_map_default. unfold kept in Hl. apply map_lookup_filter_Some in Hl as [Hl _]. rewrite lookup_fmap in Hl.
    apply fmap_Some in Hl as (l0 & Hl & ->). apply list_elem_of_filter in Hx as [? Hx]. split; [|done].
    apply (in_map_default (names : gmap string (list NameEntry))). by exists l0. }
  clearbody kept. revert kept Hkept. induction batch as [|pf batch IH]; intros kept Hkept; cbn [foldl]; [intros ?; left; by apply Hkept|].
  match goal with |- context [foldl ?f kept ?l] => set (kept' := foldl f kept l) end.
  assert ((id, path, lang) ∈ default [] (kept' !! name) → (id, path, lang) ∈ default [] (kept !! name) ∨ id ∈ pf_node_ids pf ∧ path = pf_rel_path pf) as H'.
  { unfold kept'. intros Hin.
    assert (foldl (λ m x, push_entry m (x.2, (x.1, pf_rel_path pf, Some (pf_language pf)))) kept (zip (pf_node_ids pf) (pf_node_names pf))
      = foldl push_entry kept ((λ x, (x.2, (x.1, pf_rel_path pf, Some (pf_language pf)))) <$> zip (pf_node_ids pf) (pf_node_names pf))) as He.
    { generalize (zip (pf_node_ids pf) (pf_node_names pf)). intros l. clear. revert kept. induction l as [|x l IH]; intros kept; cbn; [done|apply IH]. }
    rewrite He in Hin. apply elem_of_pushed in Hin as [Hin|Hin]; [by left|right].
    apply list_elem_of_fmap in Hin as ([i n] & [= -> -> -> ->] & Hz%elem_of_zip_l). done. }
  clearbody kept'. intros Hin.
  assert ((id, path, lang) ∈ default [] (kept' !! name) →
          (id, path, lang) ∈ default [] (names !! name) ∧ path ∉ paths ∨ id ∈ pf_node_ids pf ∧ path = pf_rel_path pf) as H''.
  { intros [?|?]%H'; [left; by apply Hkept|by right]. }
  destruct (decide (id ∈ pf_node_ids pf ∧ path = pf_rel_path pf)) as [Hpf|Hno]; [right; exists pf; split; [by left|done]|].
  apply (IH kept') in Hin; [|intros [?|?]%H''; done]. destruct Hin as [?|(pf' & ? & ?)]; [by left|right]. exists pf'. split; [by right|done].
Qed.

Lemma initial_names st : names_live (get_all_node_names_with_ids st) st.
Proof.
  intros name l id path lang Hl Hx. assert ((id, path, lang) ∈ default [] (get_all_node_names_with_ids st !! name)) as Hin by (apply in_map_default; by exists l).
  unfold get_all_node_names_with_ids in Hin. apply elem_of_pushed in Hin as [Hin|Hin]; [rewrite lookup_empty in Hin; by apply elem_of_nil in Hin|].
  apply list_elem_of_fmap in Hin as ([n f] & [= -> -> -> ->] & (Hn & Hf & Hid)%elem_of_node_files). exists f, n. done.
Qed.

(** ** The run *)

Section RunOk.
Context `{U : Unicode}.
Context (like like_esc : string → string → bool) (from_str : string → option json) (to_string : json → string).
Context (map_insert : string → json → list (string * json) → list (string * json)).
Context (map_remove : string → list (string * json) → list (string * json)).
Context (json_extract : option string → string → option string) (json_int : option string → string → option Z).
Context (parse_record : string → option VanishedRecord) (print_record : VanishedRecord → string).
Context (file_meta : string → option FileMeta) (read_source_bytes hash_file : string → option string).
Context (blake3 : string → string) (max_file_size : N).
Context {Tree : Type} (parse_tree : string → string → option Tree) (has_error : Tree → bool).
Context (extract_nodes_from_tree : Tree → string → string → list ParsedNode) (file_is_test_code : Tree → string → string → bool).
Context (extract_relations_from_tree : Tree → string → string → string → list ParsedRelation).
Context (cpp_class_fields : Tree → string → list CppField) (js_export_entries : Tree → string → list JsExportEntry).
Context (hashes : gmap string string) (crate_roots : RustCrates) (clock : nat → string → Z).
(** The extractor stamps every relation with the language it was given. *)
Context (Hlang : ∀ tree source language path rel, rel ∈ extract_relations_from_tree tree source language path → pr_source_language rel = language).

#[local] Abbreviation parse_file := (parse_one file_meta read_source_bytes hash_file blake3 max_file_size parse_tree has_error
  extract_nodes_from_tree file_is_test_code extract_relations_from_tree cpp_class_fields js_export_entries hashes).
#[local] Abbreviation pre_parse := (pre_parse_batch file_meta read_source_bytes hash_file blake3 max_file_size parse_tree has_error
  extract_nodes_from_tree file_is_test_code extract_relations_from_tree cpp_class_fields js_export_entries hashes).

Lemma parse_file_parsed p pp : (parse_file p).1 = Parsed pp →
  pp_rel_path pp = p ∧ p ≠ EXTERNAL_FILE_PATH ∧ ∀ rel, rel ∈ pp_relations pp → pr_source_language rel = pp_language pp.
Proof.
  unfold parse_one. destruct (detect_language p) as [language|] eqn:Hd; [|done].
  assert (p ≠ EXTERNAL_FILE_PATH) as Hext by (intros ->; by vm_compute in Hd).
  destruct (match file_meta p with Some _ => _ | None => _ end); [by destruct (match hashes !! p with Some _ => _ | None => _ end)|].
  destruct (read_source_bytes p) as [bytes|]; [|done]. destruct (from_utf8 bytes) as [source|]; [|done].
  unfold parse_source. set (l := if _ && _ then _ else _). destruct (parse_tree source l) as [tree|]; [|done].
  cbn [fst]. intros [= <-]. split_and!; [done|done|]. intros rel. apply Hlang.
Qed.

Lemma parse_file_skipped p sk : (parse_file p).1 = Skipped sk → sk_rel_path sk = p ∧ p ≠ EXTERNAL_FILE_PATH.
Proof.
  unfold parse_one. destruct (detect_language p) as [language|] eqn:Hd; [|done].
  assert (p ≠ EXTERNAL_FILE_PATH) as Hext by (intros ->; by vm_compute in Hd).
  destruct (match file_meta p with Some _ => _ | None => _ end).
  { destruct (match hashes !! p with Some _ => _ | None => _ end); [|done]. by intros [= <-]. }
  destruct (read_source_bytes p) as [bytes|]; [|done]. destruct (from_utf8 bytes) as [source|]; [|by intros [= <-]].
  unfold parse_source. destruct (parse_tree _ _) as [tree|]; [done|]. by intros [= <-].
Qed.

Lemma elem_of_parsed batch c pp : pp ∈ pb_parsed (pre_parse batch c).1 ↔ ∃ p, p ∈ batch ∧ (parse_file p).1 = Parsed pp.
Proof.
  unfold pre_parse_batch. cbn [fst pb_parsed]. rewrite list_elem_of_omap. split.
  - intros (o & (p & -> & Hp)%list_elem_of_fmap & Ho). exists p. split; [done|]. destruct (parse_file p).1; try done. congruence.
  - intros (p & Hp & Ho). exists (parse_file p). split; [by apply list_elem_of_fmap_2|]. by rewrite Ho.
Qed.

Lemma elem_of_skipped batch c sk : sk ∈ pb_skipped (pre_parse batch c).1 ↔ ∃ p, p ∈ batch ∧ (parse_file p).1 = Skipped sk.
Proof.
  unfold pre_parse_batch. cbn [fst pb_skipped]. rewrite list_elem_of_omap. split.
  - intros (o & (p & -> & Hp)%list_elem_of_fmap & Ho). exists p. split; [done|]. destruct (parse_file p).1; try done. congruence.
  - intros (p & Hp & Ho). exists (parse_file p). split; [by apply list_elem_of_fmap_2|]. by rewrite Ho.
Qed.

Lemma pre_parsed_sublists batch c :
  sublist (pp_rel_path <$> pb_parsed (pre_parse batch c).1) batch ∧ sublist (sk_rel_path <$> pb_skipped (pre_parse batch c).1) batch.
Proof.
  unfold pre_parse_batch. cbn [fst pb_parsed pb_skipped]. induction batch as [|p batch [IH1 IH2]]; [done|]. cbn [fmap list_fmap omap list_omap].
  pose proof (parse_file_parsed p) as Hp. pose proof (parse_file_skipped p) as Hs. destruct (parse_file p).1 as [pp|sk|]; cbn [fmap list_fmap].
  - destruct (Hp pp eq_refl) as [-> _]. split; [by apply sublist_skip|by apply sublist_cons].
  - destruct (Hs sk eq_refl) as [-> _]. split; [by apply sublist_cons|by apply sublist_skip].
  - split; by apply sublist_cons.
Qed.

(** What the index says of a file that was read. *)
Definition as_read (p : string) (st : Store) : Prop :=
  match (parse_file p).1 with
  | Parsed pp => has_content p (pp_hash pp) (pp_language pp) (λ fid, file_records fid pp) st
  | Skipped sk => has_content p (sk_hash sk) (sk_language sk) (λ _, []) st
  | Batch.Nothing => True
  end.

Lemma as_read_same p st st' : same_file p st st' → as_read p st → as_read p st'.
Proof. intros Hs. unfold as_read. destruct (parse_file p).1; [by apply content_same|by apply content_same|done]. Qed.

(** The run's invariant between batches. *)
Record run_ok (s : RunState) : Prop := mkRunOk { ro_store : store_ok (ru_store s); ro_names : names_live (ru_names s) (ru_store s) }.

(** Reading files: their rows and nodes are those parsed, the other files' are as they were. *)
Record reads (files : list string) (st st' : Store) : Prop := mkReads {
  rd_read : ∀ p, p ∈ files → as_read p st';
  rd_same : ∀ p, p ≠ EXTERNAL_FILE_PATH → p ∉ files ∨ (parse_file p).1 = Batch.Nothing → same_file p st st';
}.

Lemma reads_app files1 files2 st1 st2 st3 :
  NoDup (files1 ++ files2) → reads files1 st1 st2 → reads files2 st2 st3 → reads (files1 ++ files2) st1 st3.
Proof.
  intros Hnd [R1 S1] [R2 S2]. apply NoDup_app in Hnd as (_ & Hdis & _). split.
  - intros p [Hp|Hp]%elem_of_app; [|by apply R2]. specialize (R1 p Hp).
    destruct (decide (p = EXTERNAL_FILE_PATH)) as [->|Hext]; [by vm_compute|]. eapply as_read_same; [|exact R1].
    apply S2; [done|]. left. by apply Hdis.
  - intros p Hext Hp. eapply same_trans; [apply S1|apply S2]; try done; (destruct Hp as [Hp|?]; [left; set_solver|by right]).
Qed.

Section Batches.
Context (run_file_paths all_file_paths : gset string) (python_module_map : gmap string (list string)).
#[local] Abbreviation batch_step := (index_batch like like_esc from_str to_string map_remove file_meta read_source_bytes hash_file blake3
  max_file_size parse_tree has_error extract_nodes_from_tree file_is_test_code extract_relations_from_tree cpp_class_fields js_export_entries
  hashes clock run_file_paths all_file_paths python_module_map).

Lemma batch_paths pps st pfs saved st' p : batch_done pps st pfs saved st' → p ∈ pp_rel_path <$> pps ↔ p ∈ pf_rel_path <$> pfs.
Proof.
  intros Hd. split.
  - intros (pp & -> & (i & Hi)%list_elem_of_lookup)%list_elem_of_fmap.
    destruct (Forall2_lookup_l _ _ _ _ _ (bd_recorded _ _ _ _ _ Hd) Hi) as (pf & Hpf & Hr).
    apply list_elem_of_fmap. exists pf. split; [by rewrite (rec_parsed _ _ _ Hr)|by eapply list_elem_of_lookup_2].
  - intros (pf & -> & Hpf)%list_elem_of_fmap. destruct (batch_rows _ _ _ _ _ _ Hd Hpf) as (pp & Hpp & Hr).
    apply list_elem_of_fmap. exists pp. split; [by rewrite (rec_parsed _ _ _ Hr)|done].
Qed.

(** After the files of the batch are in, nothing but sentinels and edges changes. *)
Lemma batch_tail pps st0 pfs saved st2 names i deferred st' ids done_paths walks :
  batch_done pps st0 pfs saved st2 → ids = list_to_set (pf_file_id <$> pfs) →
  (∀ pp, pp ∈ pps → ∀ rel, rel ∈ pp_relations pp → pr_source_language rel = pp_language pp) →
  (∀ name l id path lang, names !! name = Some l → (id, path, lang) ∈ l → path ∉ st' → id ∈ node_ids st2) →
  ∃ r deferred' n m st3 s' phase_names st4,
    resolve_batch_relations like like_esc from_str python_module_map all_file_paths pfs st' names deferred st2 = Ok (r, deferred', st3)
    ∧ mint_external_sentinels (clock i EXTERNAL_FILE_PATH) (br_external_python_imports r) (br_unresolved_externals r) st3 = Ok (n, m, st4)
    ∧ restore_inbound_edges from_str to_string map_remove pfs ids saved run_file_paths done_paths st4 deferred' walks = Ok s'
    ∧ s_files st3 = s_files st2 ∧ s_nodes st3 = s_nodes st2 ∧ store_ok st3 ∧ phase phase_names st3 st4
    ∧ rows_kept (mkRestoring st4 deferred' walks 0 ∅) s'.
Proof.
  intros Hd Hids Hrels Hnames.
  destruct (resolve_batch_total like like_esc from_str python_module_map all_file_paths pfs st' names deferred st2)
    as (r & deferred' & st3 & H1 & Hok3 & Hf3 & Hn3 & Hpy & Hext).
  { apply Hd. }
  { intros pf id Hpf Hid. destruct (batch_rows _ _ _ _ _ _ Hd Hpf) as (pp & _ & Hr). by eapply entry_id, recorded_live. }
  { exact Hnames. }
  { intros pf rel Hpf Hrel. destruct (batch_rows _ _ _ _ _ _ Hd Hpf) as (pp & Hpp & Hr). rewrite (rec_parsed _ _ _ Hr) in Hrel |- *. by apply (Hrels pp). }
  assert (node_ids st3 = node_ids st2) as Hi by (unfold node_ids; by rewrite Hn3).
  destruct (mint_total (clock i EXTERNAL_FILE_PATH) (br_external_python_imports r) (br_unresolved_externals r) st3 Hok3) as (n & m & st4 & H2 & Hph).
  { intros x Hx. rewrite Hi. by apply Hpy. }
  { intros x Hx. rewrite Hi. by apply Hext. }
  destruct (restore_total from_str to_string map_remove pps st0 pfs saved st2 st4 ids run_file_paths done_paths deferred' walks Hd Hids (ph_ok _ _ _ Hph))
    as (s' & H3 & Hk).
  { intros j Hj. eapply phase_ids; [exact Hph|]. by rewrite Hi. }
  eexists r, deferred', n, m, st3, s', _, st4. by split_and!.
Qed.

Lemma index_batch_ok i batch s :
  NoDup batch → run_ok s → ∃ s', batch_step (i, batch) s = Ok s' ∧ run_ok s' ∧ reads batch (ru_store s) (ru_store s').
Proof.
  intros Hnd [Hok Hnames]. unfold index_batch. destruct (pre_parsed_sublists batch (ru_counters s)) as [Hsub1 Hsub2].
  pose proof (elem_of_parsed batch (ru_counters s)) as Hpps. pose proof (elem_of_skipped batch (ru_counters s)) as Hsks.
  destruct (pre_parse batch (ru_counters s)) as [[pps sks] counters]. cbn [fst pb_parsed pb_skipped] in *.
  destruct (record_all_skipped_ok (clock i) from_str run_file_paths sks (ru_store s) (ru_deferred s) Hok) as (st1 & d1 & -> & Hok1 & Hc1 & Hs1).
  { by eapply sublist_NoDup. }
  cbn [result_bind]. destruct (insert_batch_total (clock i) pps st1 Hok1) as (b & st2 & -> & Hd & Hids); [by eapply sublist_NoDup|].
  cbn [result_bind]. set (paths := list_to_set _).
  assert (∀ p, p ∉ paths ↔ p ∉ sk_rel_path <$> sks ∧ p ∉ pp_rel_path <$> pps) as Hpaths.
  { intros p. unfold paths. rewrite elem_of_list_to_set, elem_of_app, (batch_paths _ _ _ _ _ p Hd). tauto. }
  assert (∀ p, p ∉ paths → same_file p (ru_store s) st2) as Hs2.
  { intros p [H1 H2]%Hpaths. eapply same_trans; [by apply Hs1|by eapply batch_same]. }
  destruct (batch_tail pps st1 (bi_parsed b) (bi_saved_inbound_edges b) st2 (ru_names s) i d1 paths (bi_file_ids b) (ru_done s) (ru_walks s) Hd Hids)
    as (r & d3 & n & m & st3 & s' & pn & st4 & H3 & H4 & H5 & Hf3 & Hn3 & Hok3 & Hph & Hok5 & Hf5 & Hn5).
  { intros pp (p & _ & Hp)%Hpps. by apply (parse_file_parsed p). }
  { intros name l id path lang Hl Hx Hp. eapply entry_id, entry_same; [by apply Hs2|]. by eapply Hnames. }
  rewrite H3. cbn [result_bind]. rewrite H4. cbn [result_bind]. rewrite H5. cbn [result_bind].
  eexists. split; [reflexivity|]. cbn [rs_store] in *.
  assert (∀ p, p ≠ EXTERNAL_FILE_PATH → same_file p st2 (rs_store s')) as Htail.
  { intros p Hp. eapply same_trans; [by apply same_tables|]. eapply same_trans; [by eapply phase_same|]. by apply same_tables. }
  assert (∀ id path, entry_live st2 id path → entry_live (rs_store s') id path) as Hlive.
  { intros id path He. eapply entry_same; [by apply same_tables|]. eapply phase_entry; [exact Hok3|exact Hph|].
    eapply entry_same; [by apply same_tables|done]. }
  split; [split; cbn [ru_store ru_names]; [done|]|split; cbn [ru_store]].
  - intros name l id path lang Hl Hx. apply Hlive.
    assert ((id, path, lang) ∈ default [] (update_names paths (bi_parsed b) (ru_names s) !! name)) as Hin by (apply in_map_default; by exists l).
    apply elem_of_updated in Hin as [[Hold Hp]|(pf & Hpf & Hid & ->)].
    + apply (in_map_default (ru_names s : gmap string (list NameEntry))) in Hold as (l0 & Hl0 & Hx0).
      eapply entry_same; [by apply Hs2|]. by eapply Hnames.
    + destruct (batch_rows _ _ _ _ _ _ Hd Hpf) as (pp & _ & Hr). by eapply recorded_live.
  - intros p Hp. unfold as_read. destruct (parse_file p).1 as [pp|sk|] eqn:Hpar; [| |done].
    + destruct (parse_file_parsed p pp Hpar) as (Hpath & Hext & _). eapply content_same; [by apply Htail|].
      rewrite <-Hpath. eapply batch_content; [exact Hd|]. apply Hpps. by exists p.
    + destruct (parse_file_skipped p sk Hpar) as (Hpath & Hext). eapply content_same; [by apply Htail|].
      eapply content_same; [|rewrite <-Hpath; apply Hc1, Hsks; by exists p]. eapply batch_same; [exact Hd|].
      intros (pp & Heq & (q & _ & Hq)%Hpps)%list_elem_of_fmap. destruct (parse_file_parsed q pp Hq) as (Hq' & _). congruence.
  - intros p Hext Hp. eapply same_trans; [apply Hs2, Hpaths|by apply Htail].
    split; intros (x & -> & Hx)%list_elem_of_fmap.
    + apply Hsks in Hx as (q & Hq & Hx). destruct (parse_file_skipped q x Hx) as [Heq _]. rewrite Heq in Hp. destruct Hp; congruence.
    + apply Hpps in Hx as (q & Hq & Hx). destruct (parse_file_parsed q x Hx) as [Heq _]. rewrite Heq in Hp. destruct Hp; congruence.
Qed.

Lemma index_batches_ok i batches s :
  NoDup (mjoin batches) → run_ok s →
  ∃ s', try_fold batch_step (imap (λ j b, (i + j, b)) batches) s = Ok s' ∧ run_ok s' ∧ reads (mjoin batches) (ru_store s) (ru_store s').
Proof.
  revert i s. induction batches as [|batch batches IH]; intros i s Hnd Hok.
  { exists s. split; [done|]. split; [done|]. split; [by intros ? ?%elem_of_nil|]. intros. apply same_refl. }
  pose proof Hnd as (Hb & _ & Hnd')%NoDup_app.
  destruct (index_batch_ok (i + 0) batch s Hb Hok) as (s1 & Hs1 & Hok1 & Hr1).
  destruct (IH (S i) s1 Hnd' Hok1) as (s' & Hs' & Hok' & Hr').
  exists s'. rewrite imap_cons. cbn [try_fold]. rewrite Hs1. cbn [result_bind]. split_and!; [|done|by eapply reads_app].
  rewrite <-Hs'. f_equal. apply imap_ext. intros j b _. cbn. f_equal. lia.
Qed.
End Batches.

(** ** The routes, the record, the deletions *)

Lemma settle_routes_kept files delete_paths deferred st :
  store_ok st →
  ∃ st' deferred', settle_foreign_routes like from_str files delete_paths deferred st = (st', deferred')
    ∧ store_ok st' ∧ ∀ p, same_file p st st'.
Proof.
  intros Hok. unfold settle_foreign_routes. set (run := list_to_set _ : gset string).
  pose proof (settle_rows_done like from_str run (foreign_route_edges like from_str st) st deferred ∅) as H.
  destruct (foldl _ _ _) as [[st' deferred'] rq]. cbn [fst]. destruct H as (new & _ & H).
  exists st', deferred'. split; [done|]. destruct H as [Hf Hn _ Hk _ _ _]. split; [by apply Hk|]. intros p. by apply same_tables.
Qed.

Lemma store_record_kept record st :
  store_ok st → store_ok (store_record print_record record st) ∧ ∀ p, same_file p st (store_record print_record record st).
Proof.
  intros []. destruct record as [[|]|]; (split; [by split|]); intros q; by apply same_tables.
Qed.

Lemma delete_files_same (paths : list string) st p :
  store_ok st → p ∉ paths → same_file p st (delete_files_where (λ f, bool_decide (file_path_of f ∈ paths)) st).
Proof.
  intros Hok Hp. destruct (delete_files_keep paths st Hok) as (Hf & _). cbv zeta in Hf.
  split; [intros f Hfp; rewrite Hf, Hfp; tauto|]. intros f n Hin Hfp Hnf. unfold delete_files_where. cbn [with_files s_nodes].
  match goal with |- context [delete_nodes_where ?dead st] => pose proof (delete_nodes_exact dead st Hok) as (_ & Hn & _) end.
  rewrite Hn. split; [by intros [? _]|]. intros Hn'. split; [done|]. apply bool_decide_eq_false. rewrite Hnf.
  intros (g & Hid & [Hg Hgin]%list_elem_of_filter)%list_elem_of_fmap. apply bool_decide_eq_true in Hg. apply Hp. rewrite <-Hfp.
  by rewrite (NoDup_key_inj file_id_of (s_files st) f g (ok_file_ids _ Hok) Hin Hgin Hid).
Qed.

Lemma deletion_ok (paths : list string) run deferred st :
  store_ok st →
  ∃ st' deferred', buffer_then_delete_files from_str paths run deferred st = Ok (st', deferred') ∧ store_ok st'
    ∧ (∀ p, p ∉ paths → same_file p st st') ∧ ∀ p, p ∈ paths → p ∉ file_path_of <$> s_files st'.
Proof.
  intros Hok. unfold buffer_then_delete_files.
  destruct (purge_all_total from_str run (list_to_set paths) (omap (file_id_by_path st) paths) st deferred (0, 0) Hok)
    as (st1 & d1 & c1 & -> & Hok1 & (ps & -> & _) & _). cbn [result_bind].
  eexists _, d1. split; [reflexivity|]. split; [by apply delete_files_by_paths_ok|]. rewrite delete_files_by_paths_once. split.
  - intros p Hp. eapply same_trans; [|by apply delete_files_same]. by apply same_tables.
  - intros p Hp (f & -> & Hf)%list_elem_of_fmap. by apply (delete_files_keep paths _ Hok1) in Hf as [_ ?].
Qed.

Lemma start_ok run record delete_paths st :
  store_ok st →
  let dels := distinct_sorted delete_paths in
  ∃ st1 deferred1 st2 deferred2,
    (if negb (bool_decide (run = [])) || negb (bool_decide (dels = []))
     then settle_foreign_routes like from_str run dels [] st else (st, [])) = (st1, deferred1)
    ∧ (if bool_decide (dels = []) then Ok (store_record print_record record st1, deferred1)
       else buffer_then_delete_files from_str dels (list_to_set run) deferred1 (store_record print_record record st1)) = Ok (st2, deferred2)
    ∧ store_ok st2 ∧ (∀ p, p ∉ delete_paths → same_file p st st2) ∧ ∀ p, p ∈ delete_paths → p ∉ file_path_of <$> s_files st2.
Proof.
  intros Hok dels.
  assert (∃ st1 d1, (if negb (bool_decide (run = [])) || negb (bool_decide (dels = []))
    then settle_foreign_routes like from_str run dels [] st else (st, [])) = (st1, d1) ∧ store_ok st1 ∧ ∀ p, same_file p st st1)
    as (st1 & d1 & -> & Hok1 & Hs1).
  { destruct (_ || _); [by apply settle_routes_kept|]. exists st, []. by split_and!. }
  destruct (store_record_kept record st1 Hok1) as [Hok2 Hs2]. exists st1, d1.
  assert (∀ p, p ∈ delete_paths ↔ p ∈ dels) as Hdels by (intros p; symmetry; apply elem_of_distinct_sorted). clearbody dels.
  case_bool_decide as Hnil.
  - eexists _, d1. split_and!; [done|done|done| |].
    + intros p _. by eapply same_trans.
    + intros p Hp%Hdels. rewrite Hnil in Hp. by apply elem_of_nil in Hp.
  - destruct (deletion_ok dels (list_to_set run) d1 _ Hok2) as (st2 & d2 & -> & Hok3 & Hs3 & Hd3). exists st2, d2.
    split_and!; [done|done|done| |by intros p ?%Hdels; apply Hd3].
    intros p Hp. eapply same_trans; [apply Hs1|]. eapply same_trans; [apply Hs2|]. apply Hs3. by rewrite <-Hdels.
Qed.

(** ** The deferred relations *)

Lemma index_deferred_ok i python_module_map all_file_paths s :
  store_ok (ru_store s) →
  ∃ s', index_deferred like like_esc from_str to_string map_insert json_extract json_int crate_roots clock i python_module_map all_file_paths s
      = Ok s' ∧ store_ok (ru_store s') ∧ ∀ p, p ≠ EXTERNAL_FILE_PATH → same_file p (ru_store s) (ru_store s').
Proof.
  intros Hok. unfold index_deferred. case_bool_decide; [by exists s|].
  destruct (deferred_run like like_esc from_str to_string map_insert json_extract json_int python_module_map all_file_paths crate_roots
    (clock i EXTERNAL_FILE_PATH) (ru_deferred s) (ru_names s) (ru_store s) Hok) as (n & m & names & st1 & st' & -> & Hp & Hph & _).
  cbn [result_bind]. eexists. split; [reflexivity|]. cbn [ru_store]. split; [apply Hph|]. intros p Hne.
  eapply same_trans; [by apply same_tables; apply Hp|]. eapply phase_same; [apply Hp|exact Hph|done].
Qed.

(** ** The whole run *)

#[local] Abbreviation graph_run := (index_graph like like_esc from_str to_string map_insert map_remove json_extract json_int
  parse_record print_record file_meta read_source_bytes hash_file blake3 max_file_size parse_tree has_error extract_nodes_from_tree
  file_is_test_code extract_relations_from_tree cpp_class_fields js_export_entries hashes crate_roots clock).

#[local] Abbreviation the_run := (run_files like json_extract parse_record hash_file).

Lemma run_files_ok files delete_paths st :
  NoDup (the_run st files delete_paths).1 ∧ ∀ p, p ∈ files → p ∈ (the_run st files delete_paths).1.
Proof.
  unfold run_files. destruct (existence_change_dependents _ _ _ _ _ _ _) as [extra record]. cbn [fst]. case_bool_decide.
  - split; [apply NoDup_distinct_sorted|]. intros p Hp. by apply elem_of_distinct_sorted.
  - split; [apply NoDup_distinct_sorted|]. intros p Hp. apply elem_of_distinct_sorted, elem_of_app. left. by apply elem_of_distinct_sorted.
Qed.

(** C10: A run of the indexer over any well-formed index (the graph phases of [index_files]): an index built by a newer
    binary is refused; otherwise no phase fails, whichever files are new, changed, unreadable, deleted or pulled in
    because a file appeared or vanished, however they are cut into batches: no relation kept, deferred or restored along
    the way names a node that is gone. The index stays well formed. Every file asked for is read, and a file read has its
    row and exactly the nodes of its parse (none, when it is too large or does not parse). A file neither read nor
    deleted has the row and nodes it had, and a deleted file has no row. *)
Theorem index_graph_ok application_id files delete_paths walks st :
  store_ok st →
  let run := (the_run st files delete_paths).1 in
  match newer_index_version application_id with
  | Some stored => graph_run application_id files delete_paths walks st = Err (newer_refusal stored)
  | None =>
      ∃ s, graph_run application_id files delete_paths walks st = Ok s ∧ store_ok (ru_store s)
        ∧ (∀ p, p ∈ files → p ∈ run) ∧ (∀ p, p ∈ run → as_read p (ru_store s))
        ∧ ∀ p, p ≠ EXTERNAL_FILE_PATH → p ∉ run ∨ (parse_file p).1 = Batch.Nothing →
            if bool_decide (p ∈ delete_paths) then p ∉ file_path_of <$> s_files (ru_store s) else same_file p st (ru_store s)
  end.
Proof.
  intros Hok run. unfold index_graph. destruct (newer_index_version application_id); [done|].
  destruct (run_files_ok files delete_paths st) as [Hnd Hfiles]. fold run in Hnd, Hfiles.
  subst run. destruct (the_run st files delete_paths) as [run record]. cbn [fst] in *.
  destruct (start_ok run record delete_paths st Hok) as (st1 & d1 & st2 & d2 & -> & H2 & Hok2 & Hs2 & Hd2). rewrite H2. clear H2. cbn [result_bind].
  set (plan := plan_batches _ _ _ _). set (pm := build_python_module_map _). set (all := list_to_set run ∪ file_paths st2).
  set (s2 := mkRun _ _ _ _ _ _ _ _ _ _ _).
  destruct (index_batches_ok (list_to_set run) all pm 0 (slices plan run) s2) as (s3 & Hs3 & [Hok3 _] & [Hr3 Hk3]).
  { unfold plan. by rewrite batches_join. }
  { split; [done|]. apply initial_names. }
  unfold plan in Hr3, Hk3. rewrite batches_join in Hr3, Hk3. fold plan in Hs3.
  destruct (index_deferred_ok (length plan) pm all s3 Hok3) as (s & Hs & Hok4 & Hk4).
  exists s. split; [etrans; [|exact Hs]; etrans; [by apply (f_equal (λ r, result_bind r _) Hs3)|done]|]. split_and!; [done|done| |].
  - intros p Hp. destruct (decide (p = EXTERNAL_FILE_PATH)) as [->|Hne]; [by vm_compute|]. eapply as_read_same; [by apply Hk4|by apply Hr3].
  - intros p Hne Hp. assert (same_file p st2 (ru_store s)) as Hsame by (eapply same_trans; [by apply Hk3|by apply Hk4]).
    case_bool_decide as Hdel; [|eapply same_trans; [by apply Hs2|done]].
    intros (f & Hf & Hin)%list_elem_of_fmap. apply (Hd2 p Hdel). apply list_elem_of_fmap. exists f. split; [done|].
    by apply (sf_rows _ _ _ Hsame).
Qed.
End RunOk.

(** [a.rs] goes, [c.rs] comes with a [k] that calls the [g] of [b.rs]; [b.rs] is not read. *)
Definition demo_extract (tree source language : string) : list ParsedNode :=
  [mkParsedNode "function" "k" (Some "k") 1 1 "" None None None None false None].
Definition demo_relations (tree source language path : string) : list ParsedRelation :=
  [mkRelation "k" "g" "calls" None language None None; mkRelation "k" "nowhere" "calls" None language None None].
#[local] Abbreviation demo_index := (index_graph (U := ascii_unicode) (λ _ _, false) (λ _ _, false) (λ _, None) (λ _, "") (λ k v l, (k, v) :: l)
  (λ _ l, l) (λ _ _, None) (λ _ _, None) (λ _, None) (λ _, "") (λ p, if String.eqb p "huge.rs" then Some (mkFileMeta 9 None) else None)
  (λ _, Some "fn k() { g() }") (λ _, Some "h3") (λ _, "h2") 8%N (λ source _, Some source) (λ _, false) demo_extract (λ _ _ _, false) demo_relations
  (λ _ _, []) (λ _ _, []) ∅ (mkCrates ∅ ∅ ∅ false []) (λ _ _, 9%Z)).

Example demo_graph :
  match demo_index (Some INDEX_VERSION) ["huge.rs"; "c.rs"] ["a.rs"] None demo_store with
  | Ok s =>
      (λ f, (file_path_of f, fe_blake3_hash f)) <$> s_files (ru_store s) = [("b.rs", "h"); ("huge.rs", "h3"); ("c.rs", "h2")]
      ∧ (λ n, (node_name_of n, node_file_of n)) <$> s_nodes (ru_store s) = [("g", 2); ("h", 2); ("<module>", 4); ("k", 4)]%Z
      ∧ (λ e, edge_key (ee_edge e)) <$> s_edges (ru_store s) = [(2, 3, "calls", ""); (5, 2, "calls", "")]%Z
      ∧ pending_key <$> s_pending (ru_store s) = [(3, "later", "rust", ""); (2, "f", "rust", ""); (5, "nowhere", "rust", "")]%Z
      ∧ ru_nodes s = 2 ∧ ru_edges s = 1 ∧ ru_counters s = mkCounters 1 0 0 0 0
  | Err _ => False
  end.
Proof. by vm_compute. Qed.

Example demo_refused : demo_index (Some 140%Z) ["c.rs"] [] None demo_store = Err (newer_refusal 140).
Proof. by vm_compute. Qed.

Lemma demo_language tree source language path rel : rel ∈ demo_relations tree source language path → pr_source_language rel = language.
Proof. by intros [->|[->|?%elem_of_nil]%elem_of_cons]%elem_of_cons. Qed.

Lemma index_graph_ok_witness :
  ∃ s, demo_index (Some INDEX_VERSION) ["huge.rs"; "c.rs"] ["a.rs"] None demo_store = Ok s ∧ store_ok (ru_store s)
    ∧ "a.rs" ∉ file_path_of <$> s_files (ru_store s) ∧ same_file "b.rs" demo_store (ru_store s).
Proof.
  pose proof (index_graph_ok (U := ascii_unicode) (λ _ _, false) (λ _ _, false) (λ _, None) (λ _, "") (λ k v l, (k, v) :: l) (λ _ l, l)
    (λ _ _, None) (λ _ _, None) (λ _, None) (λ _, "") (λ p, if String.eqb p "huge.rs" then Some (mkFileMeta 9 None) else None)
    (λ _, Some "fn k() { g() }") (λ _, Some "h3") (λ _, "h2") 8%N (λ source _, Some source) (λ _, false) demo_extract (λ _ _ _, false)
    demo_relations (λ _ _, []) (λ _ _, []) ∅ (mkCrates ∅ ∅ ∅ false []) (λ _ _, 9%Z) demo_language
    (Some INDEX_VERSION) ["huge.rs"; "c.rs"] ["a.rs"] None demo_store demo_store_ok) as H.
  cbv zeta in H. cbn [newer_index_version mbind option_bind Z.ltb] in H. destruct H as (s & Hs & Hok & _ & _ & Hrest).
  exists s. split; [exact Hs|]. split; [exact Hok|]. split.
  - apply (Hrest "a.rs"); [done|]. left. apply (bool_decide_unpack _). by vm_compute.
  - apply (Hrest "b.rs"); [done|]. left. apply (bool_decide_unpack _). by vm_compute.
Defined.
